(* ===== verification/_CoqProject ===== *)
-Q . S2P
Prelude.v
Text.v
Mailbox.v
BoundedBuffer.v
MessagePort.v
StorageKey.v
BroadcastChannel.v
SessionHistory.v
DiskPool.v
Timers.v
ActionWindow.v
Robots.v
OwnerQueue.v
Utf8.v
HeaderField.v
WindowHistory.v
SharedWorker.v
HttpCache.v
StreamQueue.v
Readable.v
Writable.v
WritableSink.v
StreamPipe.v
ByteController.v
ByteStream.v
ByteDelivery.v
ModuleTypes.v
ModuleTree.v
ModuleGraph.v
ModuleTermination.v
CookieTypes.v
CookieDate.v
CookieMatch.v
CookiePolicy.v
CookieStore.v
CookieMaps.v
CookieInvariant.v
CookieGuarantees.v
CookieQuery.v
CookieSecurity.v
StyleDiscovery.v
StyleBlocking.v
StyleGuarantees.v
StyleProgress.v
CspPolicy.v
CspSources.v
CspChecks.v
CspGuarantees.v
WebStorage.v
Writeback.v
WebStorageDb.v
WebStorageSqlite.v
WebStorageRefinement.v
