(* ===== verification/Prelude.v ===== *)
(** * Verification of Moli's core state machines

    Moli is a headless browser: a Rust workspace of [moli-*] crates around a
    V8 renderer, a network stack and protocol servers.  The logic that decides
    what happens when, and to whom, lives in small crates that keep state and
    do little else; the renderer, the protocol servers and the network code
    call them.  This library models those crates and proves what they promise
    to their callers.

    ** The program and its models

    - [Prelude] (this file): panics as a monad ([run]), machine integers with
      their overflow behaviour, [BTreeMap] iteration, and the lemmas and
      tactics the other files share.  [Text] and [Utf8] hold the parts of
      Rust's [str] the sources use: ASCII text, and Unicode text with byte
      offsets, where slicing off a character boundary panics.
    - [Mailbox]: the interface of the messaging registries.  A class states
      what one call appends to and takes from an endpoint's queue; in-order
      exactly-once delivery over whole histories is proved against it.
    - [BoundedBuffer]: [moli-bounded-buffer/src/buffer.rs], the byte-budgeted
      FIFO of recent bodies, with [BoundedByteBuffer] as a record and one
      definition per method.
    - [MessagePort]: [moli-message-port/src/registry.rs], entangled ports;
      an instance of [Mailbox].
    - [StorageKey]: [moli-storage-key/src], partition keys, their serialized
      form and its parser.  The [url] crate is a parameter.
    - [BroadcastChannel]: [moli-broadcast-channel/src/registry.rs], channels
      by storage key and name; an instance of [Mailbox] and a client of
      [StorageKey].
    - [SessionHistory]: [moli-session-history/src], the joint history of a
      page and its frames: steps, pushing, replacing, planning and committing
      traversals.
    - [WindowHistory]: [moli-history/src], a window's view of shared entries;
      the entries live in a store because [Rc<RefCell<..>>] shares them.
    - [SharedWorker]: [moli-shared-worker/src], worker slots, their clients
      and the owner events; a client of [StorageKey].
    - [DiskPool]: [moli-disk-pool/src], the single-file pool: the extent
      allocator, the transfer loops over an operating system that answers
      short, interrupted or failed, the pool operations and destructors.
    - [Timers]: [moli-time/src/timers.rs], the timer scheduler: a heap with
      lazily cancelled entries.
    - [ActionWindow]: [moli-action-window/src], batching of user input.
    - [OwnerQueue]: [moli-owner-queue/src], the task sources of an owner
      thread, in two modules: [Ready] for the lock-protected source with its
      wake-up signal, [Task] for the two-lane source over channels.
    - [Robots]: [moli-robots/src], robots.txt parsing, pattern matching and
      the access decision.
    - [HeaderField]: [moli-header-field/src], the tokenizer, the splitting of
      quoted parameters and the header list.
    - [HttpCache]: [moli-http-cache/src], what may be stored and for how long,
      Vary, the merge of a 304 and the choice of entries to evict; a client of
      [HeaderField].

    - [StreamQueue], [Readable], [Writable], [StreamPipe], [ByteController]:
      [moli-streams/src], the plans of the Streams Standard as functions of
      snapshots: strategies and queue totals on IEEE doubles, life cycle and
      pulls, writable states, pipe shutdown, pull-into descriptors with
      checked arithmetic.  The stateful drivers of the renderer that carry
      the plans out ([stream_adapter], [stream_objects]) are in
      [StreamQueue] (the array queue), [Readable.Pull], [Readable.Iterator],
      [WritableSink] (writable streams over an author's sink) and
      [ByteStream] (readable byte streams with the contents of their
      buffers); [ByteDelivery] holds the theorems about the latter.
    - [ModuleTypes], [ModuleTree]: [moli-module-script-tree/src], the job that
      fetches, compiles and links a module graph through a host; the host
      trait is the class [ModuleScriptTreeHost].  [ModuleGraph] and
      [ModuleTermination] hold the theorems.
    - [CookieTypes], [CookieDate], [CookiePolicy], [CookieStore]:
      [moli-cookie-store/src], cookies with their domains, paths and dates,
      the policies of a read and of a write, and the store with its nested
      maps, quotas, eviction, observer and queries.  The [url] and [idna]
      crates are the classes [UrlCrate] and [HostCrate], the [time] and
      [cookie] crates [TimeCrate] and [CookieCrate], and the iteration order
      of a hash map is a permutation the theorems quantify over.
      [CookieMatch] has domain and path matching, [CookieMaps] the nested maps
      as one, [CookieInvariant] the effect of one write, [CookieGuarantees]
      histories of calls, [CookieQuery] the reads and [CookieSecurity] the
      attributes that protect cookies.
    - [StyleDiscovery], [StyleBlocking]: [moli-stylesheet-blocking/src], which
      style sheets of a document hold back its scripts: discovery over the
      document tree, fetches shared by resource, import graphs as blocking
      operations that later edits supersede, the queue of completions and the
      waiting loop.  Tasks and their results are steps of a world that the
      theorems schedule freely.  [StyleGuarantees] has what holds over every
      history, [StyleProgress] what happens once answers are in.
    - [CspPolicy], [CspSources], [CspChecks]: [moli-csp/src], delivered
      policies, integrity metadata and reporting endpoints; source
      expressions, their parser and their matching; directive fallbacks and
      every decision with the violation it reports.  The directive parser, the
      [url] crate, percent decoding and digests are classes.
      [CspGuarantees] holds the theorems about decisions.
    - [WebStorage]: [moli-web-storage/src/lib.rs] and [store.rs], areas of
      items with their byte accounts, the closures that edit and read them,
      the store in memory and the queues of mutation subscribers.
    - [Writeback]: [moli-sqlite/src/writeback.rs], the batch of accepted
      changes, the message queue and the worker of a database file as one
      transition system; the classes [WriteBatch] and [DurableBatch] are its
      interface to the stores above it.
    - [WebStorageDb], [WebStorageSqlite]: [moli-web-storage/src/sqlite.rs], the
      batches, statements and queries over the two tables (an instance of
      [DurableBatch]), and the cache of area objects with its locks, weak
      references and leases.  [WebStorageRefinement] has the theorem about
      the composition of all of these.

    State is passed explicitly: a method of [&mut self] takes the record and
    returns the new one with its result; [Result] and [Option] stay sums and
    options; a panic ([expect], overflow, slicing off a boundary) is [Panic],
    so a theorem that a call returns [Ret] excludes all of them.  Calls under
    a lock are single steps, and interleavings are sequences of calls, or, for
    [OwnerQueue.Ready], steps of a transition system of producers and owner.

    ** What is proved

    - Histories of calls are safe: every sequence of calls returns and keeps
      the representation invariant ([SessionHistory], [BoundedBuffer],
      [DiskPool], [SharedWorker], the refinements of [Timers] and
      [ActionWindow]).
    - Abstract specifications: the buffer refines an oldest-first list, the
      scheduler a set of waiting timers in which no internal order of the heap
      is visible, the action window a flat list of inputs, the tokenizer and
      the parameter splitter readers of characters, pattern matching the
      wildcard relation, the access decision the longest-match rule.
    - Messaging: in-order exactly-once delivery, exact targets of a broadcast,
      the life cycle of a closed port, no lost wake-up.
    - History: a traversal plan is refused exactly when it is stale, and
      reaches the planned step otherwise; worklists end, the revision guards
      cached state.
    - Storage: stored bytes read back after any other calls and any pattern
      of partial transfers; a failed write disables the pool and nothing else;
      freed space coalesces.
    - Round trips: storage keys, quoted parameters, byte strings.
    - Caching: quoted arguments forge no directives, eviction is least
      recently used and minimal, the exact effect of a 304 on every field.
    - Workers: owner events alternate and mirror the client lists, late load
      results are ignored.
    - Streams: the array queue refines a list with a running total that is
      never NaN or negative; pulls never overlap and no demand is lost; async
      iteration is serial; the sink of a writable stream sees the accepted
      chunks once and in order, promises settle at most once, every answer
      brings it nearer to rest and at rest every promise is settled; a pipe
      performs the actions of the standard's table, settles once with the
      reason they prescribe and always finishes; descriptors stay in
      their buffers; byte streams deliver what was supplied, in order (within
      the limits named at [ByteDelivery.permitted]), and settle every read
      once.
    - Modules: for every host, only complete graphs are linked (the root for
      the phase it asks for, and every import of an evaluated module) and
      endings absorb later calls; over a finite graph every drive returns and
      the job ends.
    - Cookies: matching is that of RFC 6265; every history of calls returns
      and keeps cookies filed under their identities and within the highest
      quotas in force; a query returns exactly the cookies its rules admit, in header order;
      secure cookies survive insecure writes, and scripts neither set,
      overwrite nor expire [HttpOnly] ones (eviction may take them); the reported mutations rebuild the store; the reasons
      collected before a write are complete; dates servers send are read back.
    - Style sheets: each linked or preloaded resource is requested once per
      document and scope and reported once; a superseded operation stays out of force and a decided
      one keeps its status; with all answers in, nothing is left blocked;
      waiting ends on every schedule that answers, for a client without a
      completion publisher; the recursive comparison of nodes is document
      order.
    - Content Security Policy: host sources parse exactly by their grammar and
      match exactly what scheme, port, host and path admit; which directive
      decides and what its list admits are stated apart from the code; a
      violation is that of the first policy that refuses, with its text,
      endpoints and disposition, and never shows a redirect's target; under
      ['strict-dynamic'] only nonces, hashes and trusted insertion count for
      script elements.
    - Web storage: areas are accounted for exactly and stay within the quota;
      subscribers can replay what happened; the worker answers every request
      and loses no wake-up; a crash loses at most the newest changes and none
      that were flushed; merged batches have the effect of their parts in
      order; and the cached store, with everything below it and an engine
      that does not fail, cannot be told from one map of areas that is read
      and edited atomically, its subscribers' queues included.
    - Where a guarantee stops: cycles accepted by [attach] make the worklist
      diverge, a separator inside a site makes storage keys collide, a wrapped
      timer id revives a cancelled entry, waiting reorders parser-boundary
      items, a 304 that repeats a field keeps only its last value, bytes of
      a released request can be overtaken or stuck, a browser-owned sink
      that answers synchronously can strand an error, a cookie quota that was
      lowered evicts nothing by itself and is overrun by one, a bracketed
      address passes for a host name, inline scripts of a popup run under
      ['unsafe-inline'] whatever else the list has, sheets imported by several
      style elements are fetched for each of them, ['strict-dynamic'] in a fallback list refuses images and
      connections from the hosts it names, a set refused for its quota leaves
      an empty area in memory, and a batch that could not be written is lost
      although a flush after a later success reports none.

    ** Fuel and bounds

    Loops that are not structural take fuel, and running out is [Panic] (or
    [None] for transfer loops), so the theorems above also show that the fuel
    given is enough: one round per link and root for the descendants worklist
    (which runs out exactly on cycles), one per entry for eviction and for
    taking timers, one more than the ids in use for id allocation, one per
    response and byte for transfers, one per character or byte for scans, one per
    queued operation for the iterator pump, and (2 + 2D)(|K| + 1) completions
    for the drive loop of a module tree over keys [K] with at most [D]
    requests per module, one eviction per stored cookie, the height of the tree
    for the comparison of document nodes, and one round more than the queue is
    long for draining completions.
    [usize] and [u64] are 64 bits wide; counters that only grow are assumed
    not to wrap where a theorem bounds the number of calls by their range.

    ** Not modelled

    The renderer and its V8 bindings, DOM, parsers, layout, painting, the
    protocol servers and the network clients are input/output, bindings or
    much larger than their own state; the manifest lists them with reasons.
    Code outside the repository (the [url] and [httpdate] crates, the
    operating system, tokio channels) is a parameter or an explicit script of
    answers.

    Of the streams, tees, transfers, transform streams, closed and ready
    promises and the WebIDL surface are not modelled.  Of the cookie store,
    writing to and reading from a stream through a caller's codec is left out,
    and a call reads the clock once where the code reads it at each check.
    Of style sheet blocking, the adapters that read the DOM of the renderer
    are parameters, as is the CSS parser that finds imports; of the security
    policies, the JSON texts of report bodies are left out.  SQLite is the
    documented effect of each statement on the two tables; closures that panic
    under the writer, and deadlines in real time, are not modelled.

    Planned next, in this order: the response content type parser; import
    maps; transform streams and tees; the cache's directory store. *)

From stdpp Require Export base tactics option list sorting numbers gmap fin_maps relations strings.
From Stdlib Require Export NArith ZArith Lia.

(** ** Rust control flow: values and panics

    [run A] is the outcome of a Rust expression that may panic: an overflow
    check, an [expect] on [None] or an index out of range gives [Panic]
    (the release profile of the workspace sets [panic = "abort"]), everything
    else [Ret a].  A Rust function that returns [Option] or [Result] keeps its
    own [option] or [sum] inside [run]. *)
Inductive run (A : Type) : Type :=
| Ret (a : A)
| Panic.

Arguments Ret {A} a.
Arguments Panic {A}.

#[global] Instance run_ret : MRet run := fun A a => Ret a.
#[global] Instance run_bind : MBind run := fun A B f m =>
  match m with Ret a => f a | Panic => Panic end.
#[global] Instance run_fmap : FMap run := fun A B f m =>
  match m with Ret a => Ret (f a) | Panic => Panic end.

(** [Option::expect]. *)
Definition expect {A} (o : option A) : run A :=
  match o with Some a => Ret a | None => Panic end.

Lemma run_bind_Ret {A B} (f : A → run B) (m : run A) (b : B) :
  m ≫= f = Ret b ↔ ∃ a, m = Ret a ∧ f a = Ret b.
Proof. destruct m; naive_solver. Qed.

Lemma run_fmap_Ret {A B} (f : A → B) (m : run A) (b : B) :
  f <$> m = Ret b ↔ ∃ a, m = Ret a ∧ f a = b.
Proof. destruct m; naive_solver. Qed.

Lemma expect_Ret {A} (o : option A) (a : A) : expect o = Ret a ↔ o = Some a.
Proof. destruct o; naive_solver. Qed.

(** The monadic goals of this library are closed by splitting every bind of
    a hypothesis into its two halves. *)
Ltac inv_run :=
  repeat match goal with
  | H : Ret _ = Ret _ |- _ => injection H as H; simplify_eq/=
  | H : Panic = Ret _ |- _ => discriminate H
  | H : mret _ = Ret _ |- _ => unfold mret, run_ret in H
  | H : _ ≫= _ = Ret _ |- _ =>
      apply run_bind_Ret in H; let a := fresh "r" in let E := fresh "E" in
      destruct H as (a & E & H)
  | H : _ <$> _ = Ret _ |- _ =>
      apply run_fmap_Ret in H; let a := fresh "r" in let E := fresh "E" in
      destruct H as (a & E & H)
  | H : expect _ = Ret _ |- _ => apply expect_Ret in H
  end.

(** ** Machine integers

    Unsigned words are [N] with the width written out; [usize] is the 64-bit
    one.  [add64] and [sub64] are the checked operators (a panic where the
    exact result does not fit), the other two are the named std methods. *)
Definition u64_max : N := 18446744073709551615.
Definition u32_max : N := 4294967295.

Definition checked_add64 (a b : N) : option N :=
  if (a + b <=? u64_max)%N then Some (a + b)%N else None.

Definition add64 (a b : N) : run N := expect (checked_add64 a b).

Definition sub64 (a b : N) : run N :=
  if (b <=? a)%N then Ret (a - b)%N else Panic.

Definition saturating_add64 (a b : N) : N := N.min (a + b) u64_max.

(** [fetch_add(1)] on an [AtomicU64] and [wrapping_add(1)] wrap around. *)
Definition wrapping_succ64 (a : N) : N := ((a + 1) mod (u64_max + 1))%N.
Definition wrapping_succ32 (a : N) : N := ((a + 1) mod (u32_max + 1))%N.

Lemma checked_add64_Some a b c :
  checked_add64 a b = Some c ↔ c = (a + b)%N ∧ (a + b ≤ u64_max)%N.
Proof.
  unfold checked_add64. destruct (N.leb_spec (a + b) u64_max); split; intros;
    simplify_eq; try (split; [done | lia]); destruct_and?; subst; done || lia.
Qed.

Lemma add64_Ret a b c : add64 a b = Ret c ↔ c = (a + b)%N ∧ (a + b ≤ u64_max)%N.
Proof. unfold add64. rewrite expect_Ret. apply checked_add64_Some. Qed.

Lemma sub64_Ret a b c : sub64 a b = Ret c ↔ c = (a - b)%N ∧ (b ≤ a)%N.
Proof.
  unfold sub64. destruct (N.leb_spec b a); split; intros; simplify_eq;
    try (split; [done | lia]); destruct_and?; subst; done || lia.
Qed.

Lemma add64_fits a b : (a + b ≤ u64_max)%N → add64 a b = Ret (a + b)%N.
Proof. intros. by apply add64_Ret. Qed.

Lemma sub64_fits a b : (b ≤ a)%N → sub64 a b = Ret (a - b)%N.
Proof. intros. by apply sub64_Ret. Qed.

Lemma wrapping_succ64_small a : (a < u64_max)%N → wrapping_succ64 a = (a + 1)%N.
Proof. intros. unfold wrapping_succ64. rewrite N.mod_small; unfold u64_max in *; lia. Qed.

Lemma wrapping_succ32_small a : (a < u32_max)%N → wrapping_succ32 a = (a + 1)%N.
Proof. intros. unfold wrapping_succ32. rewrite N.mod_small; unfold u32_max in *; lia. Qed.

(** [Instant] is a monotonic clock in nanoseconds; adding a [Duration] leaves
    its range when the seconds leave the signed 64-bit integers. *)
Definition nanos_per_milli : N := 1000000.
Definition instant_max : N := 9223372036854775807 * 1000000000 + 999999999.

(** ** Sums of byte counts *)
Definition Nsum {A} (f : A → N) (l : list A) : N := foldr (λ x s, f x + s)%N 0%N l.

Lemma Nsum_app {A} (f : A → N) l k : Nsum f (l ++ k) = (Nsum f l + Nsum f k)%N.
Proof. induction l; simpl; [done | rewrite IHl; lia]. Qed.

#[global] Instance Nsum_Permutation {A} (f : A → N) :
  Proper ((≡ₚ) ==> (=)) (Nsum f).
Proof. induction 1; simpl; lia. Qed.

Lemma Nsum_elem_of {A} (f : A → N) l x : x ∈ l → (f x ≤ Nsum f l)%N.
Proof. induction 1; simpl; lia. Qed.

Lemma Nsum_map {A B} (f : B → N) (g : A → B) l : Nsum f (map g l) = Nsum (λ x, f (g x)) l.
Proof. induction l as [|x l IH]; simpl; [done | by rewrite IH]. Qed.

(** Sum of a charge over the values of a finite map. *)
Definition map_Nsum `{Countable K} {A} (f : A → N) (m : gmap K A) : N :=
  Nsum (f ∘ snd) (map_to_list m).

Lemma map_Nsum_empty `{Countable K} {A} (f : A → N) : map_Nsum f (∅ : gmap K A) = 0%N.
Proof. unfold map_Nsum. by rewrite map_to_list_empty. Qed.

Lemma map_Nsum_insert `{Countable K} {A} (f : A → N) (m : gmap K A) k a :
  m !! k = None → map_Nsum f (<[k:=a]> m) = (f a + map_Nsum f m)%N.
Proof. intros. unfold map_Nsum. by rewrite map_to_list_insert. Qed.

Lemma map_Nsum_delete `{Countable K} {A} (f : A → N) (m : gmap K A) k a :
  m !! k = Some a → map_Nsum f m = (f a + map_Nsum f (delete k m))%N.
Proof.
  intros Hk. rewrite <-(map_Nsum_insert f _ k a) by apply lookup_delete_eq.
  by rewrite insert_delete_id.
Qed.

(** ** Extremal elements: [BTreeMap::range(..).next()], [next_back()], [min()] *)
Section extremal.
Context {A : Type} (key : A → N).

Fixpoint min_by (l : list A) : option A :=
  match l with
  | [] => None
  | x :: l => match min_by l with
              | Some y => if (key y <? key x)%N then Some y else Some x
              | None => Some x
              end
  end.

Fixpoint max_by (l : list A) : option A :=
  match l with
  | [] => None
  | x :: l => match max_by l with
              | Some y => if (key x <? key y)%N then Some y else Some x
              | None => Some x
              end
  end.

Lemma min_by_None l : min_by l = None ↔ l = [].
Proof. destruct l; simpl; [done |]. repeat case_match; naive_solver. Qed.

Lemma max_by_None l : max_by l = None ↔ l = [].
Proof. destruct l; simpl; [done |]. repeat case_match; naive_solver. Qed.

Lemma min_by_Some l x :
  min_by l = Some x → x ∈ l ∧ ∀ y, y ∈ l → (key x ≤ key y)%N.
Proof.
  revert x. induction l as [|z l IH]; simpl; [done |]. intros x.
  destruct (min_by l) as [w|] eqn:E.
  - destruct (IH w eq_refl) as [Hw Hmin].
    destruct (N.ltb_spec (key w) (key z)); intros [= <-]; split;
      try (set_solver); intros y [->|Hy]%elem_of_cons; try lia;
      specialize (Hmin _ Hy); lia.
  - apply min_by_None in E as ->. intros [= ->]. set_solver.
Qed.

Lemma max_by_Some l x :
  max_by l = Some x → x ∈ l ∧ ∀ y, y ∈ l → (key y ≤ key x)%N.
Proof.
  revert x. induction l as [|z l IH]; simpl; [done |]. intros x.
  destruct (max_by l) as [w|] eqn:E.
  - destruct (IH w eq_refl) as [Hw Hmax].
    destruct (N.ltb_spec (key z) (key w)); intros [= <-]; split;
      try (set_solver); intros y [->|Hy]%elem_of_cons; try lia;
      specialize (Hmax _ Hy); lia.
  - apply max_by_None in E as ->. intros [= ->]. set_solver.
Qed.
End extremal.

(** ** [BTreeMap] iteration: entries in ascending key order *)
Definition key_le {A} (p q : N * A) : Prop := (p.1 ≤ q.1)%N.

#[global] Instance key_le_dec {A} : RelDecision (@key_le A).
Proof. intros p q. unfold key_le. apply _. Defined.
#[global] Instance key_le_total {A} : Total (@key_le A).
Proof. intros p q. unfold key_le. lia. Qed.
#[global] Instance key_le_trans {A} : Transitive (@key_le A).
Proof. intros p q r. unfold key_le. lia. Qed.

Definition btree_list {A} (m : gmap N A) : list (N * A) :=
  merge_sort key_le (map_to_list m).

Lemma btree_list_Permutation {A} (m : gmap N A) : btree_list m ≡ₚ map_to_list m.
Proof. apply merge_sort_Permutation. Qed.

Lemma elem_of_btree_list {A} (m : gmap N A) k a : (k, a) ∈ btree_list m ↔ m !! k = Some a.
Proof. rewrite btree_list_Permutation. apply elem_of_map_to_list. Qed.

Lemma btree_list_sorted {A} (m : gmap N A) : StronglySorted key_le (btree_list m).
Proof. apply StronglySorted_merge_sort; apply _. Qed.

Lemma btree_list_NoDup {A} (m : gmap N A) : NoDup (btree_list m).*1.
Proof. rewrite btree_list_Permutation. apply NoDup_fst_map_to_list. Qed.

(** ** Maps *)
Lemma alter_Some_insert `{Countable K} {A} (f : A → A) (m : gmap K A) k a :
  m !! k = Some a → alter f k m = <[k := f a]> m.
Proof.
  intros Hk. apply map_eq. intros i. rewrite lookup_alter, lookup_insert.
  case_decide; [subst; by rewrite Hk | done].
Qed.

Lemma alter_None_id `{Countable K} {A} (f : A → A) (m : gmap K A) k :
  m !! k = None → alter f k m = m.
Proof.
  intros Hk. apply map_eq. intros i. rewrite lookup_alter.
  case_decide; [subst; by rewrite Hk | done].
Qed.

(** Case analysis on every lookup of an updated map. *)
Ltac map_cases :=
  repeat match goal with
  | H : context [ <[_ := _]> _ !! _ ] |- _ => rewrite lookup_insert in H
  | H : context [ alter _ _ _ !! _ ] |- _ => rewrite lookup_alter in H
  | H : context [ delete _ _ !! _ ] |- _ => rewrite lookup_delete in H
  | |- context [ <[_ := _]> _ !! _ ] => rewrite lookup_insert
  | |- context [ alter _ _ _ !! _ ] => rewrite lookup_alter
  | |- context [ delete _ _ !! _ ] => rewrite lookup_delete
  | _ => case_decide; simplify_eq/=
  end.

(** ** Lists *)
Lemma filter_all_id {A} (P : A → Prop) `{∀ x, Decision (P x)} (l : list A) :
  (∀ x, x ∈ l → P x) → filter P l = l.
Proof.
  induction l as [|x l IH]; intros Hl; [done |].
  rewrite filter_cons_True by (apply Hl; set_solver). f_equal. apply IH. set_solver.
Qed.

Lemma filter_none {A} (P : A → Prop) `{∀ x, Decision (P x)} (l : list A) :
  (∀ x, x ∈ l → ¬ P x) → filter P l = [].
Proof.
  induction l as [|x l IH]; intros Hl; [done |].
  rewrite filter_cons_False by (apply Hl; set_solver). apply IH. set_solver.
Qed.

Lemma NoDup_fst_filter {A B} (P : A * B → Prop) `{∀ x, Decision (P x)} (l : list (A * B)) :
  NoDup l.*1 → NoDup (filter P l).*1.
Proof.
  induction l as [|[k b] l IH]; intros Hn; [constructor |].
  apply NoDup_cons in Hn as [Hk Hn]. rewrite filter_cons. case_decide; [| auto].
  simpl. constructor; [| auto].
  intros (e & -> & [_ He]%list_elem_of_filter)%list_elem_of_fmap.
  apply Hk, list_elem_of_fmap. by exists e.
Qed.

(** ** Identities handed out by a counter *)
Definition issued (n : N) : list N := N.of_nat <$> seq 0 (N.to_nat n).

Lemma issued_succ n : issued (n + 1) = issued n ++ [n].
Proof.
  unfold issued. replace (N.to_nat (n + 1)) with (S (N.to_nat n)) by lia.
  rewrite seq_S, fmap_app. simpl. by rewrite N2Nat.id.
Qed.

Lemma issued_NoDup n : NoDup (issued n).
Proof. unfold issued. apply (NoDup_fmap_2 _), NoDup_seq. Qed.

(** ** Reachability *)
Lemma rtc_invariant {A} (R : relation A) (I : A → Prop) :
  (∀ x y, I x → R x y → I y) → ∀ x y, rtc R x y → I x → I y.
Proof. intros HI x y. induction 1; eauto. Qed.

(** ** Hints shared by the components *)
Create HintDb moli.
#[export] Hint Resolve lookup_insert_eq lookup_delete_eq : moli.
