(* ===== verification/Text.v ===== *)
(** * Text: the [str] and number-formatting methods the sources use

    Strings are lists of [ascii].  Each function is the std method of the same
    name on the inputs the modelled code gives it. *)

From S2P Require Import Prelude.
From Stdlib Require Import Ascii String.
Local Open Scope N_scope.

Notation text := (list ascii).

(** A Rust string literal. *)
Definition lit (s : string) : text := list_ascii_of_string s.
Arguments lit s : simpl never.

(** ** str methods used by the source *)
Fixpoint strip_prefix (p s : text) : option text :=
  match p, s with
  | [], _ => Some s
  | c :: p, d :: s => if ascii_dec c d then strip_prefix p s else None
  | _ :: _, [] => None
  end.

(** [str::split_once]: at the first occurrence of the pattern. *)
Fixpoint split_once (pat s : text) : option (text * text) :=
  match strip_prefix pat s with
  | Some rest => Some ([], rest)
  | None => match s with
            | [] => None
            | c :: s' => prod_map (cons c) id <$> split_once pat s'
            end
  end.

(** [str::split] at a one-character pattern. *)
Fixpoint split_char (c : ascii) (s : text) : list text :=
  match s with
  | [] => [[]]
  | d :: s' => if ascii_dec c d then [] :: split_char c s'
               else match split_char c s' with
                    | [] => [[d]]
                    | w :: ws => (d :: w) :: ws
                    end
  end.

(** Decimal [Display] of [u64]: the digits of [n], at most [fuel] of them
    before the last (a [u64] has 20 digits). *)
Definition digit (d : N) : ascii := ascii_of_N (48 + d).

Fixpoint show_u64_go (fuel : nat) (n : N) : text :=
  match fuel with
  | O => []
  | S fuel => if n <? 10 then [digit n]
              else show_u64_go fuel (n / 10) ++ [digit (n mod 10)]
  end.

Definition show_u64 (n : N) : text := show_u64_go 20 n.

(** [str::parse::<u64>]: an optional plus sign, then at least one digit, with
    the value in range at every step. *)
Definition digit_value (c : ascii) : option N :=
  let n := N_of_ascii c in
  if (48 <=? n) && (n <=? 57) then Some (n - 48) else None.

Definition parse_step (acc : option N) (c : ascii) : option N :=
  a ← acc; d ← digit_value c;
  if a * 10 + d <=? u64_max then Some (a * 10 + d) else None.

Definition parse_u64 (s : text) : option N :=
  match s with
  | [] => None
  | c :: s' =>
      if ascii_dec c "+"%char
      then match s' with [] => None | _ => foldl parse_step (Some 0) s' end
      else foldl parse_step (Some 0) s
  end.

(** ** Lemmas on the string methods *)
Lemma strip_prefix_app p s : strip_prefix p (p ++ s) = Some s.
Proof. induction p as [|c p IH]; simpl; [done |]. by destruct (ascii_dec c c). Qed.

Lemma strip_prefix_ne c p d s : c ≠ d → strip_prefix (c :: p) (d :: s) = None.
Proof. intros. simpl. by destruct (ascii_dec c d). Qed.

(** A pattern is found right after a text that does not contain its first
    character. *)
Lemma split_once_app c p o s : c ∉ o → split_once (c :: p) (o ++ (c :: p) ++ s) = Some (o, s).
Proof.
  induction o as [|d o IH]; intros Hc.
  - rewrite app_nil_l. destruct ((c :: p) ++ s) eqn:E; [done |].
    unfold split_once; fold split_once. rewrite <-E, strip_prefix_app. done.
  - rewrite <-app_comm_cons. unfold split_once; fold split_once.
    rewrite strip_prefix_ne by set_solver.
    rewrite IH by set_solver. done.
Qed.

Lemma split_char_word c w : c ∉ w → split_char c w = [w].
Proof.
  induction w as [|d w IH]; intros Hc; simpl; [done |].
  destruct (ascii_dec c d); [set_solver |]. by rewrite IH by set_solver.
Qed.

Lemma split_char_app c w s : c ∉ w → split_char c (w ++ c :: s) = w :: split_char c s.
Proof.
  induction w as [|d w IH]; intros Hc; simpl.
  - by destruct (ascii_dec c c).
  - destruct (ascii_dec c d); [set_solver |]. by rewrite IH by set_solver.
Qed.

Lemma digit_code d : d < 10 → N_of_ascii (digit d) = 48 + d.
Proof. intros. unfold digit. apply N_ascii_embedding. lia. Qed.

Lemma digit_value_digit d : d < 10 → digit_value (digit d) = Some d.
Proof.
  intros Hd. unfold digit_value. rewrite digit_code by done.
  destruct (N.leb_spec 48 (48 + d)), (N.leb_spec (48 + d) 57); try lia. simpl. f_equal. lia.
Qed.

Lemma parse_show_go fuel n : n < 10 ^ N.of_nat fuel → n ≤ u64_max → fuel ≠ O →
  foldl parse_step (Some 0) (show_u64_go fuel n) = Some n.
Proof.
  revert n. induction fuel as [|fuel IH]; intros n Hn Hmax Hf; [done |]. simpl.
  destruct (N.ltb_spec n 10) as [Hlt|Hge].
  - simpl. rewrite digit_value_digit by done. simpl.
    replace (0 * 10 + n) with n by lia. destruct (N.leb_spec n u64_max); [done | lia].
  - rewrite foldl_app. rewrite Nat2N.inj_succ, N.pow_succ_r' in Hn.
    pose proof (N.div_mod n 10 ltac:(lia)) as Hdm.
    pose proof (N.mod_lt n 10 ltac:(lia)).
    assert (n / 10 < 10 ^ N.of_nat fuel) by (apply N.Div0.div_lt_upper_bound; lia).
    destruct fuel as [|fuel]; [simpl in *; lia |].
    assert (n / 10 ≤ u64_max) . { revert Hdm. generalize (n / 10), (n mod 10). lia. } rewrite IH by done. simpl. rewrite digit_value_digit by done. simpl.
    replace (n / 10 * 10 + n mod 10) with n by lia.
    destruct (N.leb_spec n u64_max); [done | lia].
Qed.

Lemma show_go_digits fuel n c : c ∈ show_u64_go fuel n → 48 ≤ N_of_ascii c ≤ 57.
Proof.
  revert n. induction fuel as [|fuel IH]; intros n; simpl; [set_solver |].
  destruct (N.ltb_spec n 10).
  - intros ->%list_elem_of_singleton. rewrite digit_code; lia.
  - intros [Hc | ->%list_elem_of_singleton]%elem_of_app; [eauto |].
    pose proof (N.mod_lt n 10 ltac:(done)) as Hm. rewrite digit_code by done. revert Hm. generalize (n mod 10). lia.
Qed.

Lemma show_go_nonempty fuel n : fuel ≠ O → show_u64_go fuel n ≠ [].
Proof.
  destruct fuel as [|fuel]; [done |]. intros _. simpl. destruct (n <? 10); [done |].
  by destruct (show_u64_go _ _).
Qed.

Lemma show_u64_no c n : (N_of_ascii c < 48 ∨ 57 < N_of_ascii c) → c ∉ show_u64 n.
Proof. intros Hc Hin. apply show_go_digits in Hin. lia. Qed.

Lemma parse_show_u64 n : n ≤ u64_max → parse_u64 (show_u64 n) = Some n.
Proof.
  intros Hn. assert (foldl parse_step (Some 0) (show_u64 n) = Some n) as Hp.
  { apply parse_show_go; [| done | done]. unfold u64_max in Hn.
    change (10 ^ N.of_nat 20) with 100000000000000000000. lia. }
  assert ("+"%char ∉ show_u64 n) as Hplus by (apply show_u64_no; left; vm_compute; done).
  assert (show_u64 n ≠ []) as Hne.
  { by apply show_go_nonempty. }
  unfold parse_u64. destruct (show_u64 n) as [|c s]; [done |].
  destruct (ascii_dec c "+"%char); [set_solver | done].
Qed.
