(* ===== verification/Mailbox.v ===== *)
(** * Mailbox interface between the messaging registries and their clients

    Moli's in-process messaging registries (MessagePort, BroadcastChannel)
    both promise their embedder a queue per endpoint.  [Mailbox] states that
    promise once: each call says what it appended to an endpoint's queue and
    what it handed out of it, and conserves the queue in between.  What a
    client may conclude from it, in-order exactly-once delivery over a whole
    history of calls, is proved against the interface. *)

From S2P Require Import Prelude.

Class Mailbox (St Op K P : Type) := {
  mb_queue : St → K → option (list P);  (** [None]: no such endpoint *)
  mb_exec : Op → St → St;
  mb_sent : Op → St → K → list P;       (** payloads the call appends for [k] *)
  mb_received : Op → St → K → list P;   (** payloads the call hands out of [k] *)
  mb_inv : St → Prop;                   (** representation invariant *)
  mb_safe : Op → St → Prop;             (** the call stays clear of id wrap-around *)
  mb_inv_step : ∀ op s, mb_inv s → mb_safe op s → mb_inv (mb_exec op s);
  mb_conserve : ∀ op s k q q', mb_inv s → mb_safe op s →
    mb_queue s k = Some q → mb_queue (mb_exec op s) k = Some q' →
    q ++ mb_sent op s k = mb_received op s k ++ q'
}.

Section client.
Context `{Mailbox St Op K P}.

Fixpoint mb_run (ops : list Op) (s : St) : St :=
  match ops with [] => s | op :: ops => mb_run ops (mb_exec op s) end.

Fixpoint mb_all_sent (ops : list Op) (s : St) (k : K) : list P :=
  match ops with
  | [] => []
  | op :: ops => mb_sent op s k ++ mb_all_sent ops (mb_exec op s) k
  end.

Fixpoint mb_all_received (ops : list Op) (s : St) (k : K) : list P :=
  match ops with
  | [] => []
  | op :: ops => mb_received op s k ++ mb_all_received ops (mb_exec op s) k
  end.

(** The endpoint exists before and after every call of the history. *)
Fixpoint mb_live (ops : list Op) (s : St) (k : K) : bool :=
  match mb_queue s k with
  | None => false
  | Some _ => match ops with [] => true | op :: ops => mb_live ops (mb_exec op s) k end
  end.

Fixpoint mb_all_safe (ops : list Op) (s : St) : Prop :=
  match ops with
  | [] => True
  | op :: ops => mb_safe op s ∧ mb_all_safe ops (mb_exec op s)
  end.

Lemma mb_inv_run ops s : mb_inv s → mb_all_safe ops s → mb_inv (mb_run ops s).
Proof.
  revert s. induction ops as [|op ops IH]; intros s; simpl; [done |].
  intros Hs [Hop Hops]. apply IH; [by apply mb_inv_step | done].
Qed.

Lemma mb_live_head ops s k : mb_live ops s k = true → ∃ q, mb_queue s k = Some q.
Proof. destruct ops; simpl; destruct (mb_queue s k); naive_solver. Qed.

Lemma mb_delivery ops s k q q' :
  mb_inv s → mb_all_safe ops s → mb_live ops s k = true →
  mb_queue s k = Some q → mb_queue (mb_run ops s) k = Some q' →
  q ++ mb_all_sent ops s k = mb_all_received ops s k ++ q'.
Proof.
  revert s q. induction ops as [|op ops IH]; intros s q; simpl; intros Hi Hs Hl Hq Hq'.
  { rewrite app_nil_r. congruence. }
  destruct Hs as [Hop Hops]. rewrite Hq in Hl. destruct (mb_live_head _ _ _ Hl) as [q1 Hq1].
  rewrite app_assoc, (mb_conserve op s k q q1 Hi Hop Hq Hq1), <-!app_assoc.
  f_equal. apply IH; auto using mb_inv_step.
Qed.
End client.
