(* ===== verification/BoundedBuffer.v ===== *)
(** * Byte-budgeted FIFO buffer (moli-bounded-buffer/src/buffer.rs)

    The state and operations of [BoundedByteBuffer], with the panics of its
    [usize] arithmetic, its representation invariant, and the refinement of
    the abstract buffer: a list of charged entries, oldest first, whose
    insertion evicts the shortest prefix that makes room. *)

From S2P Require Import Prelude.
Local Open Scope N_scope.

Record ByteLimits := mk_limits { max_total_bytes : N; max_entry_bytes : N }.

Section buffer.
Context {K V : Type} `{Countable K}.

Record BufferedValue := mk_buffered { value : V; byte_len : N }.

Record BoundedByteBuffer := mk_buffer {
  limits : ByteLimits;
  used_bytes : N;
  insertion_order : list K;
  entries : gmap K BufferedValue
}.

Inductive InsertOutcome :=
| Stored (evicted : list (K * V))
| Rejected (key : K) (v : V).

Definition buffer_new (l : ByteLimits) : BoundedByteBuffer := mk_buffer l 0 [] ∅.

Definition len (b : BoundedByteBuffer) : N := N.of_nat (size (entries b)).
Definition is_empty (b : BoundedByteBuffer) : bool := bool_decide (entries b = ∅).
Definition contains_key (b : BoundedByteBuffer) (k : K) : bool :=
  bool_decide (is_Some (entries b !! k)).
Definition get (b : BoundedByteBuffer) (k : K) : option V := value <$> entries b !! k.

(** [get_mut] hands out the value slot; [f] is what the caller does with it. *)
Definition get_mut (b : BoundedByteBuffer) (k : K) (f : V → V) : BoundedByteBuffer :=
  mk_buffer (limits b) (used_bytes b) (insertion_order b)
    (alter (λ e, mk_buffered (f (value e)) (byte_len e)) k (entries b)).

Definition remove (b : BoundedByteBuffer) (k : K) : run (BoundedByteBuffer * option V) :=
  match entries b !! k with
  | None => Ret (b, None)
  | Some entry =>
      used ← sub64 (used_bytes b) (byte_len entry);
      Ret (mk_buffer (limits b) used
             (filter (λ c, c ≠ k) (insertion_order b)) (delete k (entries b)),
           Some (value entry))
  end.

Definition clear (b : BoundedByteBuffer) : BoundedByteBuffer :=
  mk_buffer (limits b) 0 [] ∅.

(** The [while let] of [pop_oldest] consumes the order queue, so it recurses
    on that queue. *)
Fixpoint pop_oldest_loop (l : ByteLimits) (used : N) (order : list K)
    (es : gmap K BufferedValue) : run (BoundedByteBuffer * option (K * V)) :=
  match order with
  | [] => Ret (mk_buffer l used [] es, None)
  | k :: order' =>
      match es !! k with
      | None => pop_oldest_loop l used order' es
      | Some entry =>
          used' ← sub64 used (byte_len entry);
          Ret (mk_buffer l used' order' (delete k es), Some (k, value entry))
      end
  end.

Definition pop_oldest (b : BoundedByteBuffer) : run (BoundedByteBuffer * option (K * V)) :=
  pop_oldest_loop (limits b) (used_bytes b) (insertion_order b) (entries b).

(** The eviction loop of [insert]; every iteration that does not break
    shortens the order queue, which [fuel] counts. *)
Fixpoint evict_loop (fuel : nat) (budget : N) (b : BoundedByteBuffer)
    (evicted : list (K * V)) : run (BoundedByteBuffer * list (K * V)) :=
  if used_bytes b <=? budget then Ret (b, evicted)
  else match fuel with
       | O => Panic
       | S fuel =>
           r ← pop_oldest b;
           match r with
           | (b', None) => Ret (b', evicted)
           | (b', Some kv) => evict_loop fuel budget b' (evicted ++ [kv])
           end
       end.

Definition insert (b : BoundedByteBuffer) (k : K) (v : V) (n : N)
    : run (BoundedByteBuffer * InsertOutcome) :=
  r ← remove b k;
  let b1 := r.1 in
  if (max_entry_bytes (limits b1) <? n) || (max_total_bytes (limits b1) <? n)
  then Ret (b1, Rejected k v)
  else
    budget ← sub64 (max_total_bytes (limits b1)) n;
    r2 ← evict_loop (S (length (insertion_order b1))) budget b1 [];
    let '(b2, evicted) := r2 in
    used ← add64 (used_bytes b2) n;
    Ret (mk_buffer (limits b2) used (insertion_order b2 ++ [k])
           (<[k := mk_buffered v n]> (entries b2)),
         Stored evicted).

(** ** Representation invariant *)
Record buffer_wf (b : BoundedByteBuffer) : Prop := {
  wf_order_nodup : NoDup (insertion_order b);
  wf_order_dom : ∀ k, k ∈ insertion_order b ↔ is_Some (entries b !! k);
  wf_used : used_bytes b = map_Nsum byte_len (entries b);
  wf_total : used_bytes b ≤ max_total_bytes (limits b);
  wf_limit : max_total_bytes (limits b) ≤ u64_max;
  wf_entry : ∀ k e, entries b !! k = Some e → byte_len e ≤ max_entry_bytes (limits b)
}.

(** ** Abstract buffer: charged entries, oldest first *)
Local Notation aentry := (K * BufferedValue)%type.

Definition abs (b : BoundedByteBuffer) : list aentry :=
  omap (λ k, pair k <$> entries b !! k) (insertion_order b).

Definition charge (l : list aentry) : N := Nsum (byte_len ∘ snd) l.
Arguments charge l : simpl never.

Definition spec_remove (k : K) (l : list aentry) : list aentry := filter (λ e, e.1 ≠ k) l.

(** Evict oldest entries until the rest fits the budget. *)
Fixpoint spec_evict (budget : N) (l : list aentry) : list aentry * list aentry :=
  match l with
  | [] => ([], [])
  | e :: l' => if charge l <=? budget then ([], l)
               else let '(out, kept) := spec_evict budget l' in (e :: out, kept)
  end.

Definition spec_insert (lim : ByteLimits) (k : K) (v : V) (n : N) (l : list aentry)
    : list aentry * InsertOutcome :=
  let l1 := spec_remove k l in
  if (max_entry_bytes lim <? n) || (max_total_bytes lim <? n)
  then (l1, Rejected k v)
  else let '(out, kept) := spec_evict (max_total_bytes lim - n) l1 in
       (kept ++ [(k, mk_buffered v n)],
        Stored ((λ e, (e.1, value e.2)) <$> out)).

(** ** Representation of an abstract buffer

    [repr b l]: the queue, the map and the counter of [b] all describe [l]. *)
Record repr (b : BoundedByteBuffer) (l : list aentry) : Prop := {
  repr_order : insertion_order b = l.*1;
  repr_nodup : NoDup l.*1;
  repr_map : entries b = list_to_map l;
  repr_used : used_bytes b = charge l
}.

Lemma charge_nil : charge [] = 0.
Proof. done. Qed.

Lemma charge_cons e l : charge (e :: l) = byte_len e.2 + charge l.
Proof. done. Qed.

Lemma charge_list_to_map l : NoDup l.*1 → map_Nsum byte_len (list_to_map l : gmap K _) = charge l.
Proof. intros. unfold map_Nsum, charge. by rewrite map_to_list_to_map. Qed.

Lemma abs_of_order (es : gmap K BufferedValue) (l : list aentry) :
  (∀ e, e ∈ l → es !! e.1 = Some e.2) → omap (λ k, pair k <$> es !! k) l.*1 = l.
Proof.
  induction l as [|[k e] l IH]; intros Hl; simpl; [done |].
  assert (es !! k = Some e) as -> by (apply (Hl (k, e)); set_solver).
  simpl. f_equal. set_solver.
Qed.

Lemma repr_abs b l : repr b l → abs b = l.
Proof.
  intros [Ho Hn Hm _]. unfold abs. rewrite Ho. apply abs_of_order.
  intros [k e] He. rewrite Hm. simpl. by apply elem_of_list_to_map.
Qed.

Lemma order_to_abs (es : gmap K BufferedValue) (ks : list K) :
  (∀ k, k ∈ ks → is_Some (es !! k)) → (omap (λ k, pair k <$> es !! k) ks).*1 = ks.
Proof.
  induction ks as [|k ks IH]; intros Hk; simpl; [done |].
  destruct (Hk k) as [e He]; [set_solver |]. rewrite He. simpl. f_equal. set_solver.
Qed.

Lemma wf_repr b : buffer_wf b → repr b (abs b).
Proof.
  intros [Hn Hd Hu _ _ _].
  assert (Ho : (abs b).*1 = insertion_order b).
  { apply order_to_abs. intros k ?. by apply Hd. }
  assert (Hm : entries b = list_to_map (abs b)).
  { apply map_eq. intros k. destruct (entries b !! k) as [e|] eqn:E; symmetry.
    - apply elem_of_list_to_map_1; [congruence |].
      apply list_elem_of_omap. exists k. rewrite E. split; [| done].
      apply Hd. by eexists.
    - apply not_elem_of_list_to_map_1. rewrite Ho, Hd, E. by intros [? ?]. }
  split; try done; [congruence |].
  rewrite Hu, Hm. apply charge_list_to_map. congruence.
Qed.

Lemma repr_wf b l :
  repr b l → charge l ≤ max_total_bytes (limits b) → max_total_bytes (limits b) ≤ u64_max →
  Forall (λ e, byte_len e.2 ≤ max_entry_bytes (limits b)) l → buffer_wf b.
Proof.
  intros [Ho Hn Hm Hu] Ht Hmax Hl. split; rewrite ?Ho, ?Hm; try done.
  - intros k. rewrite list_elem_of_fmap. split.
    + intros ([k' e] & -> & He). exists e. by apply elem_of_list_to_map.
    + intros [e He]. exists (k, e). split; [done |]. by apply elem_of_list_to_map.
  - by rewrite Hu, charge_list_to_map.
  - by rewrite Hu.
  - intros k e He. apply elem_of_list_to_map in He; [| done].
    rewrite Forall_forall in Hl. by apply (Hl (k, e)).
Qed.

Lemma repr_entry b l k e : repr b l → (k, e) ∈ l → entries b !! k = Some e.
Proof. intros [_ ? -> _] ?. by apply elem_of_list_to_map. Qed.

Lemma wf_entries_fit b :
  buffer_wf b → Forall (λ e, byte_len e.2 ≤ max_entry_bytes (limits b)) (abs b).
Proof.
  intros Hb. apply Forall_forall. intros [k e] He.
  eapply wf_entry; [done | eapply repr_entry; eauto using wf_repr].
Qed.

(** ** Operations on represented buffers *)
Lemma list_to_map_spec_remove k (l : list aentry) :
  NoDup l.*1 → (list_to_map (spec_remove k l) : gmap K _) = delete k (list_to_map l).
Proof.
  unfold spec_remove. induction l as [|[k' e] l IH]; simpl; intros Hn.
  { by rewrite delete_empty. }
  apply NoDup_cons in Hn as [Hk Hn]. rewrite filter_cons; simpl. case_decide as Hc.
  - simpl. rewrite IH by done. by rewrite delete_insert_ne.
  - subst k'. rewrite delete_insert_eq. by apply IH.
Qed.

Lemma spec_remove_keys k (l : list aentry) : (spec_remove k l).*1 = filter (λ c, c ≠ k) l.*1.
Proof.
  unfold spec_remove. induction l as [|[k' e] l IH]; [done |].
  rewrite filter_cons, fmap_cons, filter_cons; simpl. case_decide; simpl; by rewrite <-IH.
Qed.

Lemma charge_spec_remove k e (l : list aentry) :
  NoDup l.*1 → (k, e) ∈ l → charge l = byte_len e + charge (spec_remove k l).
Proof.
  intros Hn He. rewrite <-!charge_list_to_map, list_to_map_spec_remove; [| done | | done].
  - apply map_Nsum_delete. by apply elem_of_list_to_map.
  - rewrite spec_remove_keys. by apply NoDup_filter.
Qed.

Lemma spec_remove_notin k (l : list aentry) : k ∉ l.*1 → spec_remove k l = l.
Proof.
  intros Hk. apply filter_all_id. intros [k1 e] He Hx; simpl in Hx; subst k1. apply Hk, list_elem_of_fmap. by exists (k, e).
Qed.

Lemma remove_repr b l k :
  repr b l → ∃ b', remove b k = Ret (b', get b k) ∧
    limits b' = limits b ∧ repr b' (spec_remove k l).
Proof.
  intros Hb. pose proof Hb as [Ho Hn Hm Hu]. unfold remove, get.
  destruct (entries b !! k) as [e|] eqn:E; simpl.
  - assert ((k, e) ∈ l) as He by (rewrite Hm in E; by apply elem_of_list_to_map in E).
    pose proof (charge_spec_remove k e l Hn He) as Hc.
    assert (sub64 (used_bytes b) (byte_len e) = Ret (charge (spec_remove k l))) as ->.
    { apply sub64_Ret. rewrite Hu, Hc. lia. }
    eexists. split; [done |]. simpl. split; [done |]. split; simpl; [| | |done].
    + by rewrite Ho, spec_remove_keys.
    + rewrite spec_remove_keys. by apply NoDup_filter.
    + by rewrite Hm, list_to_map_spec_remove.
  - exists b. rewrite spec_remove_notin; [done |].
    rewrite Hm in E. by apply not_elem_of_list_to_map in E.
Qed.

Lemma pop_oldest_repr b e l :
  repr b (e :: l) → ∃ b', pop_oldest b = Ret (b', Some (e.1, value e.2)) ∧
    limits b' = limits b ∧ repr b' l.
Proof.
  intros Hb. pose proof Hb as [Ho Hn Hm Hu]. destruct e as [k e]. simpl in *.
  apply NoDup_cons in Hn as [Hk Hn].
  unfold pop_oldest. rewrite Ho. simpl.
  rewrite (repr_entry b _ k e Hb) by set_solver.
  assert (sub64 (used_bytes b) (byte_len e) = Ret (charge l)) as ->.
  { apply sub64_Ret. rewrite Hu, charge_cons. simpl. lia. }
  eexists. split; [done |]. simpl. split; [done |]. split; simpl; try done.
  rewrite Hm. apply delete_insert_id. by apply not_elem_of_list_to_map.
Qed.

Lemma evict_loop_repr fuel budget b l acc :
  repr b l → (length l ≤ fuel)%nat →
  ∃ b', evict_loop fuel budget b acc =
          Ret (b', acc ++ ((λ e, (e.1, value e.2)) <$> (spec_evict budget l).1)) ∧
    limits b' = limits b ∧ repr b' (spec_evict budget l).2.
Proof.
  revert b l acc. induction fuel as [|fuel IH]; intros b l acc Hb Hl.
  - destruct l; [| simpl in Hl; lia]. exists b. simpl. rewrite (repr_used _ _ Hb).
    rewrite app_nil_r, charge_nil. by destruct (N.leb_spec 0 budget); [| lia].
  - simpl. rewrite (repr_used _ _ Hb). destruct (N.leb_spec (charge l) budget) as [Hc|Hc].
    + exists b. destruct l as [|e l]; simpl; [by rewrite app_nil_r |].
      apply N.leb_le in Hc. rewrite Hc. simpl. by rewrite app_nil_r.
    + destruct l as [|e l]; [rewrite charge_nil in Hc; lia |]. simpl spec_evict.
      apply N.leb_gt in Hc. rewrite Hc.
      destruct (pop_oldest_repr b e l Hb) as (b1 & -> & Hlim & Hb1). simpl.
      destruct (IH b1 l (acc ++ [(e.1, value e.2)]) Hb1) as (b2 & -> & Hlim2 & Hb2);
        [simpl in Hl; lia |].
      exists b2. destruct (spec_evict budget l) as [out kept]. simpl in *.
      rewrite <-app_assoc. split; [done |]. split; [congruence | done].
Qed.

Lemma spec_evict_app budget l : l = (spec_evict budget l).1 ++ (spec_evict budget l).2.
Proof.
  induction l as [|e l IH]; [done |]. simpl. destruct (_ <=? _); [done |].
  destruct (spec_evict budget l). simpl in *. by rewrite <-IH.
Qed.

Lemma spec_evict_fits budget l : charge (spec_evict budget l).2 ≤ budget.
Proof.
  induction l as [|e l IH]; simpl; [rewrite charge_nil; lia |].
  destruct (N.leb_spec (charge (e :: l)) budget); [done |].
  by destruct (spec_evict budget l).
Qed.

(** The evicted prefix is the shortest one: every shorter prefix leaves too
    much behind. *)
Lemma spec_evict_least budget l p s :
  l = p ++ s → (length p < length (spec_evict budget l).1)%nat → budget < charge s.
Proof.
  revert p. induction l as [|e l IH]; intros p Hl Hp; simpl in Hp; [lia |].
  destruct (N.leb_spec (charge (e :: l)) budget) as [|Hc]; [simpl in Hp; lia |].
  destruct p as [|e' p]; simpl in Hl; [by subst s |]. injection Hl as -> Hl.
  apply (IH p Hl). destruct (spec_evict budget l). simpl in *. lia.
Qed.

Lemma insert_repr b l k v n :
  repr b l → max_total_bytes (limits b) ≤ u64_max →
  ∃ b', insert b k v n = Ret (b', (spec_insert (limits b) k v n l).2) ∧
    limits b' = limits b ∧ repr b' (spec_insert (limits b) k v n l).1.
Proof.
  intros Hb Hmax. unfold insert, spec_insert.
  destruct (remove_repr b l k Hb) as (b1 & -> & Hlim & Hb1). simpl. rewrite Hlim.
  destruct (_ || _) eqn:Hg; [by exists b1 |].
  apply orb_false_iff in Hg as [Hg1%N.ltb_ge Hg2%N.ltb_ge].
  assert (sub64 (max_total_bytes (limits b)) n = Ret (max_total_bytes (limits b) - n)) as ->.
  { apply sub64_Ret. lia. }
  simpl.
  destruct (evict_loop_repr (S (length (insertion_order b1))) (max_total_bytes (limits b) - n)
              b1 (spec_remove k l) [] Hb1) as (b2 & Hloop & Hlim2 & Hb2).
  { rewrite (repr_order _ _ Hb1), length_fmap. lia. }
  simpl in Hloop. rewrite Hloop. simpl.
  pose proof (spec_evict_fits (max_total_bytes (limits b) - n) (spec_remove k l)) as Hfit.
  pose proof (spec_evict_app (max_total_bytes (limits b) - n) (spec_remove k l)) as Happ.
  destruct (spec_evict _ _) as [out kept]. simpl in *. destruct Hb2 as [Ho Hn Hm Hu].
  assert (Hk : k ∉ kept.*1).
  { intros Hk. assert (k ∈ (spec_remove k l).*1) as Hx by (rewrite Happ, fmap_app; set_solver).
    rewrite spec_remove_keys in Hx. apply list_elem_of_filter in Hx. naive_solver. }
  assert (add64 (used_bytes b2) n = Ret (charge kept + n)) as ->.
  { apply add64_Ret. rewrite Hu. lia. }
  eexists. split; [done |]. simpl. split; [congruence |]. split; simpl.
  - by rewrite Ho, fmap_app.
  - rewrite fmap_app. apply NoDup_app. repeat split; [done | set_solver | apply NoDup_singleton].
  - rewrite Hm, list_to_map_app. simpl. rewrite insert_empty. symmetry.
    rewrite <-insert_union_singleton_r; [done |]. by apply not_elem_of_list_to_map.
  - unfold charge in *. rewrite Nsum_app. simpl. lia.
Qed.

Lemma spec_insert_bounds lim k v n l :
  charge l ≤ max_total_bytes lim →
  Forall (λ e, byte_len e.2 ≤ max_entry_bytes lim) l →
  charge (spec_insert lim k v n l).1 ≤ max_total_bytes lim ∧
  Forall (λ e, byte_len e.2 ≤ max_entry_bytes lim) (spec_insert lim k v n l).1.
Proof.
  intros Hc Hl. unfold spec_insert.
  assert (Forall (λ e, byte_len e.2 ≤ max_entry_bytes lim) (spec_remove k l)) as Hr.
  { apply Forall_forall. intros e He. unfold spec_remove in He.
    apply list_elem_of_filter in He as [_ He]. rewrite Forall_forall in Hl. auto. }
  destruct (_ || _) eqn:Hg.
  - split; [| done]. simpl. etrans; [| exact Hc].
    clear. induction l as [|e l IH]; [done |]. unfold spec_remove in *.
    rewrite filter_cons. case_decide; rewrite ?charge_cons; lia.
  - apply orb_false_iff in Hg as [Hg1%N.ltb_ge Hg2%N.ltb_ge].
    pose proof (spec_evict_fits (max_total_bytes lim - n) (spec_remove k l)) as Hfit.
    pose proof (spec_evict_app (max_total_bytes lim - n) (spec_remove k l)) as Happ.
    destruct (spec_evict _ _) as [out kept]. simpl in *. rewrite Happ in Hr.
    apply Forall_app in Hr as [_ Hr]. split.
    + unfold charge in *. rewrite Nsum_app. simpl. lia.
    + apply Forall_app. split; [done |]. by apply Forall_singleton.
Qed.

Lemma repr_bounded_wf b b' l :
  limits b' = limits b → buffer_wf b → repr b' l → charge l ≤ max_total_bytes (limits b) →
  Forall (λ e, byte_len e.2 ≤ max_entry_bytes (limits b)) l → buffer_wf b'.
Proof. intros El Hb Hr ??. eapply repr_wf; rewrite ?El; eauto using wf_limit. Qed.

Lemma wf_charge b : buffer_wf b → charge (abs b) ≤ max_total_bytes (limits b).
Proof. intros Hb. rewrite <-(repr_used _ _ (wf_repr b Hb)). by apply wf_total. Qed.

Lemma remove_wf b k : buffer_wf b →
  ∃ b', remove b k = Ret (b', get b k) ∧ buffer_wf b' ∧ abs b' = spec_remove k (abs b).
Proof.
  intros Hb. destruct (remove_repr b (abs b) k (wf_repr b Hb)) as (b' & Hr & El & Hb').
  exists b'. split; [done |]. split; [| by apply repr_abs].
  pose proof (wf_charge b Hb). pose proof (wf_entries_fit b Hb) as Hf.
  eapply repr_bounded_wf; try done.
  - etrans; [| done]. clear. induction (abs b) as [|e l IH]; [done |].
    unfold spec_remove in *. rewrite filter_cons. case_decide; rewrite ?charge_cons; lia.
  - apply Forall_forall. intros e [_ He]%list_elem_of_filter.
    rewrite Forall_forall in Hf. auto.
Qed.

Lemma clear_wf b : buffer_wf b → buffer_wf (clear b) ∧ abs (clear b) = [].
Proof.
  intros Hb. split; [| done]. eapply (repr_wf _ []); simpl; eauto using wf_limit.
  - split; simpl; try done. apply NoDup_nil_2.
  - rewrite charge_nil. lia.
Qed.

Lemma get_mut_wf b k f : buffer_wf b → buffer_wf (get_mut b k f).
Proof.
  intros [Hn Hd Hu Ht Hm He]. split; simpl; try done.
  - intros k'. rewrite Hd. rewrite lookup_alter. case_decide; [| done]. subst.
    by rewrite fmap_is_Some.
  - rewrite Hu. destruct (entries b !! k) as [e|] eqn:E.
    + rewrite (map_Nsum_delete byte_len (entries b) k e E).
      rewrite (map_Nsum_delete byte_len (alter _ k _) k (mk_buffered (f (value e)) (byte_len e))).
      * by rewrite delete_alter_eq.
      * by rewrite lookup_alter_eq, E.
    + by rewrite alter_None_id.
  - intros k' e. rewrite lookup_alter. case_decide; [| apply He]. subst.
    intros (e' & Hk & ->)%fmap_Some. by apply (He k' e').
Qed.

(** ** Sequences of calls *)
Inductive buffer_call :=
| CallInsert (k : K) (v : V) (n : N)
| CallRemove (k : K)
| CallGetMut (k : K) (f : V → V)
| CallClear.

Definition buffer_step (c : buffer_call) (b : BoundedByteBuffer) : run BoundedByteBuffer :=
  match c with
  | CallInsert k v n => fst <$> insert b k v n
  | CallRemove k => fst <$> remove b k
  | CallGetMut k f => Ret (get_mut b k f)
  | CallClear => Ret (clear b)
  end.

Fixpoint buffer_run (cs : list buffer_call) (b : BoundedByteBuffer) : run BoundedByteBuffer :=
  match cs with
  | [] => Ret b
  | c :: cs => b' ← buffer_step c b; buffer_run cs b'
  end.

Lemma insert_wf b k v n : buffer_wf b →
  ∃ b' out, insert b k v n = Ret (b', out) ∧ buffer_wf b' ∧ limits b' = limits b ∧
    spec_insert (limits b) k v n (abs b) = (abs b', out).
Proof.
  intros Hb.
  destruct (insert_repr b (abs b) k v n (wf_repr b Hb) (wf_limit b Hb)) as (b' & Hi & El & Hb').
  destruct (spec_insert_bounds (limits b) k v n (abs b) (wf_charge b Hb) (wf_entries_fit b Hb)).
  eexists b', _. split; [done |]. split; [by eapply repr_bounded_wf |]. split; [done |].
  rewrite (repr_abs _ _ Hb'). by destruct (spec_insert _ _ _ _ _).
Qed.

Lemma buffer_step_wf c b : buffer_wf b → ∃ b', buffer_step c b = Ret b' ∧ buffer_wf b' ∧ limits b' = limits b.
Proof.
  intros Hb. destruct c as [k v n|k|k f|]; simpl.
  - destruct (insert_wf b k v n Hb) as (b' & out & -> & ? & ? & _). by exists b'.
  - destruct (remove_wf b k Hb) as (b' & Hr & ? & _). rewrite Hr. exists b'. split; [done |].
    split; [done |]. unfold remove in Hr. repeat case_match; inv_run; done.
  - eexists. split; [done |]. split; [by apply get_mut_wf | done].
  - eexists. split; [done |]. split; [by apply clear_wf | done].
Qed.

Lemma buffer_new_wf lim : max_total_bytes lim ≤ u64_max → buffer_wf (buffer_new lim).
Proof.
  intros Hm. eapply (repr_wf _ []); simpl; try done.
  - split; simpl; try done. apply NoDup_nil_2.
  - rewrite charge_nil. lia.
Qed.

Lemma buffer_run_wf cs b : buffer_wf b →
  ∃ b', buffer_run cs b = Ret b' ∧ buffer_wf b' ∧ limits b' = limits b.
Proof.
  revert b. induction cs as [|c cs IH]; intros b Hb; simpl; [by exists b |].
  destruct (buffer_step_wf c b Hb) as (b1 & -> & Hb1 & El). simpl.
  destruct (IH b1 Hb1) as (b2 & ? & ? & El2). exists b2. by rewrite El2.
Qed.

(** ** Properties *)

(** Every sequence of [insert], [remove], [get_mut] and [clear] calls on a
    fresh buffer returns (no [usize] addition or subtraction overflows and
    every loop ends), keeps queue, map and byte counter consistent, and never
    holds more than the total limit nor an entry over the entry limit. *)
Theorem buffer_calls_safe (lim : ByteLimits) (cs : list buffer_call) :
  max_total_bytes lim ≤ u64_max →
  ∃ b, buffer_run cs (buffer_new lim) = Ret b ∧ buffer_wf b ∧ limits b = lim.
Proof.
  intros Hm. apply (buffer_run_wf cs (buffer_new lim)), buffer_new_wf, Hm.
Qed.

(** C19: [insert] implements the abstract buffer: it returns, keeps the
    representation invariant, and its new contents and its outcome are those
    of the list operation that drops the old charge of the key, rejects an
    oversized value, and otherwise evicts oldest-first and appends. *)
Theorem insert_refines_spec (b : BoundedByteBuffer) (k : K) (v : V) (n : N) :
  buffer_wf b →
  ∃ b' out, insert b k v n = Ret (b', out) ∧ buffer_wf b' ∧
    spec_insert (limits b) k v n (abs b) = (abs b', out).
Proof. intros Hb. destruct (insert_wf b k v n Hb) as (b' & out & ?). naive_solver. Qed.

(** A stored insertion evicts the shortest prefix of the older entries
    that makes room: what is evicted and what is kept make up the other
    entries in age order, the new entry is the youngest, the total limit
    holds, and stopping the eviction earlier would have exceeded it. *)
Theorem insert_evicts_least (b b' : BoundedByteBuffer) (k : K) (v : V) (n : N) (evicted : list (K * V)) :
  buffer_wf b → insert b k v n = Ret (b', Stored evicted) →
  ∃ out kept,
    filter (λ e, e.1 ≠ k) (abs b) = out ++ kept ∧
    evicted = (λ e, (e.1, value e.2)) <$> out ∧
    abs b' = kept ++ [(k, mk_buffered v n)] ∧
    used_bytes b' ≤ max_total_bytes (limits b) ∧
    ∀ p s, out ++ kept = p ++ s → (length p < length out)%nat →
      max_total_bytes (limits b) < charge s + n.
Proof.
  intros Hb Hi. destruct (insert_wf b k v n Hb) as (b1 & out1 & Hi1 & Hb1 & El & Hs).
  rewrite Hi1 in Hi. inv_run. unfold spec_insert in Hs.
  destruct (_ || _) eqn:Hg; [by injection Hs |].
  apply orb_false_iff in Hg as [Hg1%N.ltb_ge Hg2%N.ltb_ge].
  pose proof (spec_evict_app (max_total_bytes (limits b) - n) (spec_remove k (abs b))) as Happ.
  pose proof (spec_evict_least (max_total_bytes (limits b) - n) (spec_remove k (abs b))) as Hleast.
  destruct (spec_evict _ _) as [out kept]. simpl in *. injection Hs as Hs1 Hs2.
  exists out, kept. split; [exact Happ |]. split; [done |]. split; [done |]. split.
  - rewrite <-El. by apply wf_total.
  - intros p s Hps Hlen. rewrite Happ in Hleast. pose proof (Hleast p s Hps Hlen). lia.
Qed.
End buffer.

(** ** Concrete runs *)
Definition demo_limits : ByteLimits := mk_limits 10 6.

(** Three entries of 4, 3 and 3 bytes under a 10-byte budget. *)
Definition demo_calls : list (buffer_call (K:=N) (V:=N)) :=
  [CallInsert 1 11 4; CallInsert 2 22 3; CallInsert 3 33 3].

Definition demo_buffer : BoundedByteBuffer (K:=N) (V:=N) :=
  mk_buffer demo_limits 10 [1; 2; 3]
    (list_to_map [(1, mk_buffered 11 4); (2, mk_buffered 22 3); (3, mk_buffered 33 3)]).

Lemma demo_buffer_run : buffer_run demo_calls (buffer_new demo_limits) = Ret demo_buffer.
Proof. vm_compute. reflexivity. Qed.

Lemma demo_buffer_wf : buffer_wf demo_buffer.
Proof.
  destruct (buffer_run_wf demo_calls (buffer_new demo_limits)) as (b & Hb & Hwf & _).
  { apply buffer_new_wf. vm_compute. discriminate. }
  rewrite demo_buffer_run in Hb. by injection Hb as <-.
Qed.

Lemma buffer_calls_safe_witness :
  ∃ b, buffer_run demo_calls (buffer_new demo_limits) = Ret b ∧ buffer_wf b ∧ limits b = demo_limits.
Proof. apply (buffer_calls_safe demo_limits demo_calls). vm_compute. discriminate. Defined.

Lemma insert_refines_spec_witness :
  ∃ b' out, insert demo_buffer 1 99 5 = Ret (b', out) ∧ buffer_wf b' ∧
    spec_insert demo_limits 1 99 5 (abs demo_buffer) = (abs b', out).
Proof. apply (insert_refines_spec demo_buffer 1 99 5 demo_buffer_wf). Defined.

Lemma insert_evicts_least_witness :
  ∃ b' out kept, insert demo_buffer 4 44 6 = Ret (b', Stored [(1, 11); (2, 22)]) ∧
    filter (λ e, e.1 ≠ 4) (abs demo_buffer) = out ++ kept ∧
    ∀ p s, out ++ kept = p ++ s → (length p < length out)%nat → 10 < charge s + 6.
Proof.
  eexists. 
  destruct (insert_evicts_least demo_buffer
    (mk_buffer demo_limits 9 [3; 4] (list_to_map [(3, mk_buffered 33 3); (4, mk_buffered 44 6)]))
    4 44 6 [(1, 11); (2, 22)] demo_buffer_wf) as (out & kept & H1 & _ & _ & _ & H2).
  { vm_compute. reflexivity. }
  exists out, kept. split; [vm_compute; reflexivity |]. split; [exact H1 | exact H2].
Defined.
