(* ===== verification/MessagePort.v ===== *)
(** * MessagePort registry (moli-message-port/src/registry.rs)

    Endpoint records, their entanglement, their message and close queues and
    owner wake targets.  The mutex makes every call atomic, so a history of
    the registry is a sequence of calls. *)

From S2P Require Import Prelude Mailbox.
Local Open Scope N_scope.

Inductive MessagePortCloseKind := PeerClosed | ConnectionError.

#[global] Instance MessagePortCloseKind_eq_dec : EqDecision MessagePortCloseKind.
Proof. solve_decision. Defined.

Section registry.
Context {P O : Type}.

Inductive MessagePortPoll :=
| PollRemoved
| PollIdle
| PollMessage (p : P)
| PollClose (k : MessagePortCloseKind).

Record MessagePortWake := mk_wake { wake_port : N; wake_owner : O }.

Record MessagePortCloseResult := mk_close_result {
  peer_wake : option MessagePortWake;
  closed_messages : list P
}.

Record DiscardedMessagePort := mk_discarded {
  discarded_id : N;
  discarded_owner : option O;
  discarded_messages : list P
}.

Record MessagePortState := mk_port {
  peer_id : option N;
  owner : option O;
  pending_messages : list P;
  pending_close : option MessagePortCloseKind
}.

Record MessagePortRegistry := mk_registry {
  ports : gmap N MessagePortState;
  next_port_id : N
}.

Definition registry_default : MessagePortRegistry := mk_registry ∅ 1.

Definition set_ports (r : MessagePortRegistry) (m : gmap N MessagePortState)
  : MessagePortRegistry := mk_registry m (next_port_id r).

Definition next_message_port_id (r : MessagePortRegistry) : MessagePortRegistry * N :=
  (mk_registry (ports r) (wrapping_succ64 (next_port_id r)), N.max (next_port_id r) 1).

Definition create_message_port (o : O) (r : MessagePortRegistry) : MessagePortRegistry * N :=
  let '(r, id) := next_message_port_id r in
  (set_ports r (<[id := mk_port None (Some o) [] None]> (ports r)), id).

Definition create_disconnected_message_port (o : O) (r : MessagePortRegistry)
  : MessagePortRegistry * N :=
  let '(r, id) := next_message_port_id r in
  (set_ports r (<[id := mk_port None (Some o) [] (Some ConnectionError)]> (ports r)), id).

Definition create_entangled_message_port_pair (o : O) (r : MessagePortRegistry)
  : MessagePortRegistry * (N * N) :=
  let '(r, port1) := next_message_port_id r in
  let '(r, port2) := next_message_port_id r in
  (set_ports r (<[port2 := mk_port (Some port1) (Some o) [] None]>
                (<[port1 := mk_port (Some port2) (Some o) [] None]> (ports r))),
   (port1, port2)).

Definition has_pending (s : MessagePortState) : bool :=
  bool_decide (is_Some (pending_close s)) ||
  negb (bool_decide (length (pending_messages s) = 0%nat)).

Definition attach_message_port_owner (id : N) (o : O) (r : MessagePortRegistry)
  : MessagePortRegistry * option MessagePortWake :=
  match ports r !! id with
  | None => (r, None)
  | Some s =>
      (set_ports r (<[id := mk_port (peer_id s) (Some o) (pending_messages s)
                              (pending_close s)]> (ports r)),
       if has_pending s then Some (mk_wake id o) else None)
  end.

Definition forget_owner (id : N) (r : MessagePortRegistry) : MessagePortRegistry :=
  set_ports r (alter (λ s, mk_port (peer_id s) None (pending_messages s) (pending_close s))
                 id (ports r)).

Definition detach_message_port_owner_for_transfer := forget_owner.
Definition clear_message_port_owner := forget_owner.

Definition wake_message_port_if_pending (id : N) (r : MessagePortRegistry)
  : option MessagePortWake :=
  s ← ports r !! id;
  if negb (has_pending s) then None else o ← owner s; Some (mk_wake id o).

Definition message_port_peer_id (id : N) (r : MessagePortRegistry) : option N :=
  ports r !! id ≫= peer_id.

Definition push_message (p : P) (s : MessagePortState) : MessagePortState :=
  mk_port (peer_id s) (owner s) (pending_messages s ++ [p]) (pending_close s).

Definition enqueue_message_to_endpoint (id : N) (p : P) (r : MessagePortRegistry)
  : MessagePortRegistry * (unit + P) :=
  match ports r !! id with
  | None => (r, inr p)
  | Some s => (set_ports r (<[id := push_message p s]> (ports r)), inl ())
  end.

Definition enqueue_message_to_message_port (id : N) (p : P) (r : MessagePortRegistry)
  : MessagePortRegistry * (N + P) :=
  match ports r !! id ≫= peer_id with
  | None => (r, inr p)
  | Some peer =>
      match ports r !! peer with
      | None => (r, inr p)
      | Some s => (set_ports r (<[peer := push_message p s]> (ports r)), inl peer)
      end
  end.

Definition poll_message_port (id : N) (started : bool) (r : MessagePortRegistry)
  : MessagePortRegistry * MessagePortPoll :=
  match ports r !! id with
  | None => (r, PollRemoved)
  | Some s =>
      if negb started then (r, PollIdle) else
      match pending_messages s with
      | p :: rest =>
          (set_ports r (<[id := mk_port (peer_id s) (owner s) rest (pending_close s)]> (ports r)),
           PollMessage p)
      | [] =>
          match pending_close s with
          | Some c =>
              (set_ports r (<[id := mk_port (peer_id s) (owner s) [] None]> (ports r)), PollClose c)
          | None => (r, PollIdle)
          end
      end
  end.

Definition take_pending_message_port_message (id : N) (r : MessagePortRegistry)
  : MessagePortRegistry * option P :=
  match ports r !! id with
  | None => (r, None)
  | Some s =>
      match pending_messages s with
      | [] => (r, None)
      | p :: rest =>
          (set_ports r (<[id := mk_port (peer_id s) (owner s) rest (pending_close s)]> (ports r)),
           Some p)
      end
  end.

Definition contains_message_port (id : N) (r : MessagePortRegistry) : bool :=
  bool_decide (is_Some (ports r !! id)).

Definition endpoint_count (r : MessagePortRegistry) : nat := size (ports r).

Definition discard_message_port_channel (id : N) (r : MessagePortRegistry)
  : MessagePortRegistry * list DiscardedMessagePort :=
  match ports r !! id with
  | None => (r, [])
  | Some s =>
      let m := delete id (ports r) in
      let first := mk_discarded id (owner s) (pending_messages s) in
      match peer_id s with
      | None => (set_ports r m, [first])
      | Some peer =>
          match m !! peer with
          | None => (set_ports r m, [first])
          | Some t => (set_ports r (delete peer m),
                       [first; mk_discarded peer (owner t) (pending_messages t)])
          end
      end
  end.

Definition take_pending_message_port_close (id : N) (r : MessagePortRegistry)
  : MessagePortRegistry * option MessagePortCloseKind :=
  match ports r !! id with
  | None => (r, None)
  | Some s =>
      (set_ports r (<[id := mk_port (peer_id s) (owner s) (pending_messages s) None]> (ports r)),
       pending_close s)
  end.

Definition close_message_port (id : N) (r : MessagePortRegistry)
  : MessagePortRegistry * MessagePortCloseResult :=
  match ports r !! id with
  | None => (r, mk_close_result None [])
  | Some s =>
      let m := delete id (ports r) in
      match peer_id s with
      | None => (set_ports r m, mk_close_result None (pending_messages s))
      | Some peer =>
          match m !! peer with
          | None => (set_ports r m, mk_close_result None (pending_messages s))
          | Some t =>
              (set_ports r (<[peer := mk_port None (owner t) (pending_messages t)
                                       (Some PeerClosed)]> m),
               mk_close_result (mk_wake peer <$> owner t) (pending_messages s))
          end
      end
  end.

(** ** Calls *)
Inductive port_call :=
| CreatePort (o : O)
| CreateDisconnected (o : O)
| CreatePair (o : O)
| AttachOwner (id : N) (o : O)
| DetachOwner (id : N)
| ClearOwner (id : N)
| EnqueueEndpoint (id : N) (p : P)
| EnqueuePeer (id : N) (p : P)
| PollPort (id : N) (started : bool)
| TakeMessage (id : N)
| TakeClose (id : N)
| Discard (id : N)
| Close (id : N).

Definition port_exec (c : port_call) (r : MessagePortRegistry) : MessagePortRegistry :=
  match c with
  | CreatePort o => (create_message_port o r).1
  | CreateDisconnected o => (create_disconnected_message_port o r).1
  | CreatePair o => (create_entangled_message_port_pair o r).1
  | AttachOwner id o => (attach_message_port_owner id o r).1
  | DetachOwner id => detach_message_port_owner_for_transfer id r
  | ClearOwner id => clear_message_port_owner id r
  | EnqueueEndpoint id p => (enqueue_message_to_endpoint id p r).1
  | EnqueuePeer id p => (enqueue_message_to_message_port id p r).1
  | PollPort id started => (poll_message_port id started r).1
  | TakeMessage id => (take_pending_message_port_message id r).1
  | TakeClose id => (take_pending_message_port_close id r).1
  | Discard id => (discard_message_port_channel id r).1
  | Close id => (close_message_port id r).1
  end.

(** Payloads a call appends to the queue of [k], read off its result. *)
Definition port_sent (c : port_call) (r : MessagePortRegistry) (k : N) : list P :=
  match c with
  | EnqueueEndpoint id p =>
      match (enqueue_message_to_endpoint id p r).2 with
      | inl _ => if decide (k = id) then [p] else []
      | inr _ => []
      end
  | EnqueuePeer id p =>
      match (enqueue_message_to_message_port id p r).2 with
      | inl peer => if decide (k = peer) then [p] else []
      | inr _ => []
      end
  | _ => []
  end.

(** Payloads a call hands out of the queue of [k], read off its result. *)
Definition port_received (c : port_call) (r : MessagePortRegistry) (k : N) : list P :=
  match c with
  | PollPort id started =>
      match (poll_message_port id started r).2 with
      | PollMessage p => if decide (k = id) then [p] else []
      | _ => []
      end
  | TakeMessage id =>
      match (take_pending_message_port_message id r).2 with
      | Some p => if decide (k = id) then [p] else []
      | None => []
      end
  | _ => []
  end.

(** ** Representation invariant

    Live ids are below the allocator, entanglement is symmetric between two
    distinct live endpoints, and a queued close event belongs to an endpoint
    that is no longer entangled. *)
Record ports_wf (r : MessagePortRegistry) : Prop := {
  wf_next : 1 ≤ next_port_id r;
  wf_ids : ∀ id s, ports r !! id = Some s → 1 ≤ id < next_port_id r;
  wf_peer : ∀ a s b, ports r !! a = Some s → peer_id s = Some b →
    a ≠ b ∧ ∃ t, ports r !! b = Some t ∧ peer_id t = Some a;
  wf_close : ∀ a s c, ports r !! a = Some s → pending_close s = Some c → peer_id s = None
}.

(** Room for the (at most two) ids a call may allocate. *)
Definition ids_fit (c : port_call) (r : MessagePortRegistry) : Prop :=
  next_port_id r + 2 ≤ u64_max.

Lemma registry_default_wf : ports_wf registry_default.
Proof. split; simpl; try done; intros; by rewrite lookup_empty in *. Qed.

(** Rewriting one record without touching its entanglement. *)
Lemma ports_wf_update r id s s' :
  ports_wf r → ports r !! id = Some s → peer_id s' = peer_id s →
  (pending_close s' = pending_close s ∨ pending_close s' = None) →
  ports_wf (set_ports r (<[id := s']> (ports r))).
Proof.
  intros [Hn Hi Hp Hc] Hs Ep Ec. split; simpl; [done | | |].
  - intros id' t. rewrite lookup_insert. case_decide; [subst; eauto | apply Hi].
  - intros a t b Ha Hb.
    assert (∃ t0, ports r !! a = Some t0 ∧ peer_id t0 = Some b) as (t0 & Ha0 & Hb0).
    { rewrite lookup_insert in Ha. case_decide; simplify_eq; eauto. rewrite Ep in Hb. eauto. }
    destruct (Hp a t0 b Ha0 Hb0) as [Hab (u & Hu & Hpu)]. split; [done |].
    rewrite lookup_insert. case_decide; simplify_eq; eauto. exists s'. split; [done | congruence].
  - intros a t c. rewrite lookup_insert. case_decide; [| apply Hc].
    intros [= <-] Hcl. rewrite Ep. destruct Ec as [Ec|Ec]; rewrite Ec in Hcl; [| done]. eauto.
Qed.

(** Adding unentangled or mutually entangled records under fresh ids. *)
Lemma next_fresh r : ports_wf r → ∀ id, next_port_id r ≤ id → ports r !! id = None.
Proof.
  intros Hr id Hid. destruct (ports r !! id) as [s|] eqn:E; [| done].
  destruct (wf_ids r Hr id s E). lia.
Qed.

Lemma next_id_wf r : ports_wf r → next_port_id r + 2 ≤ u64_max →
  next_message_port_id r = (mk_registry (ports r) (next_port_id r + 1), next_port_id r).
Proof.
  intros Hr Hfit. unfold next_message_port_id. pose proof (wf_next r Hr).
  rewrite wrapping_succ64_small, N.max_l by lia. done.
Qed.

Lemma ports_wf_bump r n : ports_wf r → next_port_id r ≤ n → ports_wf (mk_registry (ports r) n).
Proof.
  intros [Hn Hi Hp Hc] Hle. split; simpl; try done; [lia |].
  intros id s Hs. destruct (Hi id s Hs). lia.
Qed.

Lemma ports_wf_fresh r id s :
  ports_wf r → ports r !! id = None → 1 ≤ id < next_port_id r → peer_id s = None →
  ports_wf (set_ports r (<[id := s]> (ports r))).
Proof.
  intros [Hn Hi Hp Hc] Hf Hid Ep. split; simpl; [done | | |].
  - intros id' t. rewrite lookup_insert. case_decide; [by subst | apply Hi].
  - intros a t b Ha Hb. rewrite lookup_insert in Ha. case_decide; simplify_eq.
    destruct (Hp a t b Ha Hb) as [Hab (u & Hu & Hpu)]. split; [done |].
    rewrite lookup_insert_ne by congruence. eauto.
  - intros a t c. rewrite lookup_insert. case_decide; [by intros [= <-] |]. apply Hc.
Qed.

Lemma create_pair_wf o r : ports_wf r → next_port_id r + 2 ≤ u64_max →
  ports_wf (create_entangled_message_port_pair o r).1.
Proof.
  intros Hr Hfit. unfold create_entangled_message_port_pair.
  rewrite next_id_wf by done. cbn zeta iota.
  unfold next_message_port_id. cbn [next_port_id ports].
  pose proof (wf_next r Hr). pose proof (next_fresh r Hr) as Hfresh.
  rewrite wrapping_succ64_small, N.max_l by lia. destruct Hr as [Hn Hi Hp Hc].
  split; simpl; [lia | | |].
  - intros id s. rewrite !lookup_insert. repeat case_decide; subst; try lia.
    intros Hs. destruct (Hi id s Hs). lia.
  - intros a s b Ha Hb. rewrite !lookup_insert in Ha. repeat case_decide; simplify_eq/=.
    + split; [lia |]. rewrite lookup_insert_ne by lia. eexists. by rewrite lookup_insert_eq.
    + split; [lia |]. eexists. by rewrite lookup_insert_eq.
    + destruct (Hp a s b Ha Hb) as [Hab (t & Ht & Hpt)]. split; [done |].
      destruct (Hi b t Ht). rewrite !lookup_insert_ne by lia. eauto.
  - intros a s c. rewrite !lookup_insert. repeat case_decide; try apply Hc; by intros [= <-].
Qed.

(** Removing an endpoint that nothing else is entangled with. *)
Lemma ports_wf_delete r id :
  ports_wf r → (∀ a s, ports r !! a = Some s → a ≠ id → peer_id s ≠ Some id) →
  ports_wf (set_ports r (delete id (ports r))).
Proof.
  intros [Hn Hi Hp Hc] Hfree. split; simpl; [done | | |].
  - intros a s [_ Ha]%lookup_delete_Some. eauto.
  - intros a s b [Hne Ha]%lookup_delete_Some Hb.
    destruct (Hp a s b Ha Hb) as [Hab (t & Ht & Hpt)]. split; [done |].
    rewrite lookup_delete_ne; [eauto |]. intros ->. by apply (Hfree a s Ha).
  - intros a s c [_ Ha]%lookup_delete_Some. eauto.
Qed.

(** Only the partner of [id] is entangled with [id]. *)
Lemma peer_unique r id s a t :
  ports_wf r → ports r !! id = Some s → ports r !! a = Some t → peer_id t = Some id →
  peer_id s = Some a.
Proof.
  intros Hr Hs Ha Hp. destruct (wf_peer r Hr a t id Ha Hp) as [_ (u & Hu & Hpu)]. congruence.
Qed.

(** What [close_message_port] and [discard_message_port_channel] do on a
    well-formed registry: the lookup of the partner always succeeds. *)
Lemma peer_lookup r id s peer :
  ports_wf r → ports r !! id = Some s → peer_id s = Some peer →
  peer ≠ id ∧ ∃ t, delete id (ports r) !! peer = Some t ∧ ports r !! peer = Some t ∧
    peer_id t = Some id.
Proof.
  intros Hr Hs Hp. destruct (wf_peer r Hr id s peer Hs Hp) as [Hne (t & Ht & Hpt)].
  split; [done |]. exists t. by rewrite lookup_delete_ne.
Qed.

Lemma close_wf id r : ports_wf r → ports_wf (close_message_port id r).1.
Proof.
  intros Hr. unfold close_message_port. destruct (ports r !! id) as [s|] eqn:Hs; [| done].
  destruct (peer_id s) as [peer|] eqn:Hp; simpl.
  - destruct (peer_lookup r id s peer Hr Hs Hp) as (Hne & t & -> & Ht & Hpt). simpl.
    destruct Hr as [Hn Hi Hpe Hc]. split; simpl; [done | | |].
    + intros a u. rewrite lookup_insert. case_decide; [subst; eauto |].
      intros [_ Ha]%lookup_delete_Some. eauto.
    + intros a u b Ha Hb. rewrite lookup_insert in Ha. case_decide; simplify_eq/=.
      apply lookup_delete_Some in Ha as [Hne' Ha].
      destruct (Hpe a u b Ha Hb) as [Hab (w & Hw & Hpw)]. split; [done |].
      assert (b ≠ peer) by (intros ->; congruence).
      assert (b ≠ id) by (intros ->; congruence).
      rewrite lookup_insert_ne, lookup_delete_ne by done. eauto.
    + intros a u c. rewrite lookup_insert. case_decide; [by intros [= <-] |].
      intros [_ Ha]%lookup_delete_Some. eauto.
  - apply ports_wf_delete; [done |]. intros a t Ha _ Hpa.
    pose proof (peer_unique r id s a t Hr Hs Ha Hpa). congruence.
Qed.

Lemma discard_wf id r : ports_wf r → ports_wf (discard_message_port_channel id r).1.
Proof.
  intros Hr. unfold discard_message_port_channel.
  destruct (ports r !! id) as [s|] eqn:Hs; [| done].
  destruct (peer_id s) as [peer|] eqn:Hp; simpl.
  - destruct (peer_lookup r id s peer Hr Hs Hp) as (Hne & t & -> & Ht & Hpt). simpl.
    destruct Hr as [Hn Hi Hpe Hc]. split; simpl; [done | | |].
    + intros a u [_ [_ Ha]%lookup_delete_Some]%lookup_delete_Some. eauto.
    + intros a u b [Hn1 [Hn2 Ha]%lookup_delete_Some]%lookup_delete_Some Hb.
      destruct (Hpe a u b Ha Hb) as [Hab (w & Hw & Hpw)]. split; [done |].
      rewrite !lookup_delete_ne by (intros <-; congruence). eauto.
    + intros a u c [_ [_ Ha]%lookup_delete_Some]%lookup_delete_Some. eauto.
  - apply ports_wf_delete; [done |]. intros a t Ha _ Hpa.
    pose proof (peer_unique r id s a t Hr Hs Ha Hpa). congruence.
Qed.

Lemma forget_owner_wf id r : ports_wf r → ports_wf (forget_owner id r).
Proof.
  intros Hr. unfold forget_owner. destruct (ports r !! id) as [s|] eqn:Hs.
  - rewrite (alter_Some_insert _ _ id s Hs). apply (ports_wf_update r id s); auto.
  - rewrite alter_None_id by done. by destruct r.
Qed.

Lemma port_exec_wf c r : ports_wf r → ids_fit c r → ports_wf (port_exec c r).
Proof.
  intros Hr Hfit. unfold ids_fit in Hfit.
  destruct c; cbn [port_exec]; auto using create_pair_wf, forget_owner_wf, close_wf, discard_wf.
  1,2: unfold create_message_port, create_disconnected_message_port;
    rewrite next_id_wf by done; simpl;
    apply (ports_wf_fresh (mk_registry (ports r) (next_port_id r + 1)));
    [apply ports_wf_bump; [done | lia] | simpl; apply (next_fresh r Hr); lia
    | simpl; pose proof (wf_next r Hr); lia | done].
  all: unfold attach_message_port_owner, enqueue_message_to_endpoint,
    enqueue_message_to_message_port, poll_message_port, take_pending_message_port_message,
    take_pending_message_port_close; repeat case_match; simpl; try done;
    eapply ports_wf_update; eauto.
Qed.

Lemma next_port_id_exec c r : ids_fit c r → next_port_id (port_exec c r) ≤ next_port_id r + 2.
Proof.
  unfold ids_fit. intros Hfit.
  destruct c; simpl; unfold create_message_port, create_disconnected_message_port,
    create_entangled_message_port_pair, forget_owner, attach_message_port_owner,
    enqueue_message_to_endpoint, enqueue_message_to_message_port, poll_message_port,
    take_pending_message_port_message, take_pending_message_port_close,
    discard_message_port_channel, close_message_port, next_message_port_id;
    repeat case_match; simplify_eq/=; try lia;
    rewrite !wrapping_succ64_small by (rewrite ?wrapping_succ64_small; lia); lia.
Qed.

(** Ids handed out by a creation are not live yet, so live queues survive it. *)
Lemma create_lookup c r k s : ports_wf r → ids_fit c r →
  match c with CreatePort _ | CreateDisconnected _ | CreatePair _ => True | _ => False end →
  ports r !! k = Some s → ports (port_exec c r) !! k = Some s.
Proof.
  intros Hr Hfit Hc Hk. pose proof (wf_ids r Hr k s Hk). unfold ids_fit in Hfit.
  destruct c; try done; cbn [port_exec];
    unfold create_message_port, create_disconnected_message_port,
      create_entangled_message_port_pair; rewrite next_id_wf by done;
    unfold next_message_port_id; simpl; rewrite !lookup_insert_ne by lia; done.
Qed.

Lemma port_conserve c r k q q' : ports_wf r → ids_fit c r →
  pending_messages <$> ports r !! k = Some q →
  pending_messages <$> ports (port_exec c r) !! k = Some q' →
  q ++ port_sent c r k = port_received c r k ++ q'.
Proof.
  intros Hr Hfit (s & Hs & ->)%fmap_Some (s' & Hs' & ->)%fmap_Some.
  destruct c; try (rewrite (create_lookup _ r k s) in Hs'; [| done ..];
    simplify_eq; apply app_nil_r);
  cbn [port_exec port_sent port_received] in *;
  unfold attach_message_port_owner, detach_message_port_owner_for_transfer,
    clear_message_port_owner, forget_owner, enqueue_message_to_endpoint,
    enqueue_message_to_message_port, poll_message_port, take_pending_message_port_message,
    take_pending_message_port_close, discard_message_port_channel, close_message_port in *;
  repeat case_match; simplify_eq/=; map_cases; rewrite ?app_nil_r; try done.
  all: rewrite ?Hs in *; simplify_eq/=; try done.
Qed.

#[global] Instance port_mailbox : Mailbox MessagePortRegistry port_call N P := {|
  mb_queue r k := pending_messages <$> ports r !! k;
  mb_exec := port_exec;
  mb_sent := port_sent;
  mb_received := port_received;
  mb_inv := ports_wf;
  mb_safe := ids_fit;
  mb_inv_step := port_exec_wf;
  mb_conserve := port_conserve
|}.

Lemma calls_fit (cs : list port_call) r : ports_wf r →
  next_port_id r + 2 * N.of_nat (length cs) ≤ u64_max → mb_all_safe cs r.
Proof.
  revert r. induction cs as [|c cs IH]; intros r Hr Hfit; simpl; [done |].
  assert (ids_fit c r) as Hc by (unfold ids_fit; simpl in Hfit; lia).
  split; [done |]. apply IH; [by apply port_exec_wf |].
  pose proof (next_port_id_exec c r Hc). simpl in Hfit. lia.
Qed.

(** Drain an endpoint [n] times with its queue enabled. *)
Fixpoint poll_times (n : nat) (id : N) (r : MessagePortRegistry) : list MessagePortPoll :=
  match n with
  | 0%nat => []
  | S n => let '(r', x) := poll_message_port id true r in x :: poll_times n id r'
  end.

Lemma poll_times_drain id r s :
  ports r !! id = Some s → pending_close s = Some PeerClosed →
  poll_times (length (pending_messages s) + 2) id r =
    (PollMessage <$> pending_messages s) ++ [PollClose PeerClosed; PollIdle].
Proof.
  remember (pending_messages s) as q eqn:Hq. revert r s Hq.
  induction q as [|p q IH]; intros r s Hq Hs Hc.
  - simpl. unfold poll_message_port. rewrite Hs, <-Hq, Hc. simpl. by rewrite lookup_insert_eq.
  - cbn [length plus poll_times]. unfold poll_message_port at 1. rewrite Hs, <-Hq. simpl.
    f_equal. by erewrite IH; [| | apply lookup_insert_eq |].
Qed.

(** ** Properties *)

(** C18: exactly-once, in-order delivery. Over any history of registry calls
    during which endpoint [k] stays registered, what was queued for [k] at the
    start followed by everything sent to [k] equals everything received from
    [k] followed by what is still queued: no message is lost, duplicated or
    reordered, whatever other endpoints do. *)
Theorem message_port_fifo (cs : list port_call) (r : MessagePortRegistry) (k : N) (q q' : list P) :
  ports_wf r → next_port_id r + 2 * N.of_nat (length cs) ≤ u64_max →
  mb_live cs r k = true →
  pending_messages <$> ports r !! k = Some q →
  pending_messages <$> ports (mb_run cs r) !! k = Some q' →
  q ++ mb_all_sent cs r k = mb_all_received cs r k ++ q'.
Proof. intros Hr Hfit. apply (@mb_delivery _ _ _ _ port_mailbox cs r k q q' Hr), calls_fit; done. Qed.

(** In every registry state reached from the empty registry, entanglement
    is symmetric and a send on an entangled endpoint reaches its live partner:
    [enqueue_message_to_message_port] cannot fail while a peer is recorded. *)
Theorem entangled_send_succeeds (cs : list port_call) (id peer : N) (p : P) :
  1 + 2 * N.of_nat (length cs) ≤ u64_max →
  let r := mb_run cs registry_default in
  message_port_peer_id id r = Some peer →
  peer ≠ id ∧ message_port_peer_id peer r = Some id ∧
  (enqueue_message_to_message_port id p r).2 = inl peer.
Proof.
  intros Hfit r. assert (ports_wf r) as Hr.
  { apply (@mb_inv_run _ _ _ _ port_mailbox cs registry_default); [apply registry_default_wf |].
    apply calls_fit; [apply registry_default_wf | done]. }
  unfold message_port_peer_id. intros Hp. pose proof Hp as (s & Hs & Hps)%bind_Some.
  destruct (peer_lookup r id s peer Hr Hs Hps) as (Hne & t & _ & Ht & Hpt).
  unfold enqueue_message_to_message_port. rewrite Hp, Ht. simpl. by rewrite Hpt.
Qed.

(** Closing an endpoint discards its own queue, removes it, and leaves its
    partner with exactly its queued messages, then one [PeerClosed] event,
    then nothing; the partner is unentangled, so its sends hand the payload
    back. *)
Theorem close_lifecycle (r : MessagePortRegistry) (a b : N) (s t : MessagePortState) (p : P) :
  ports_wf r → ports r !! a = Some s → peer_id s = Some b → ports r !! b = Some t →
  let '(r', res) := close_message_port a r in
  closed_messages res = pending_messages s ∧
  peer_wake res = mk_wake b <$> owner t ∧
  (poll_message_port a true r').2 = PollRemoved ∧
  poll_times (length (pending_messages t) + 2) b r' =
    (PollMessage <$> pending_messages t) ++ [PollClose PeerClosed; PollIdle] ∧
  enqueue_message_to_message_port b p r' = (r', inr p).
Proof.
  intros Hr Hs Hp Ht. unfold close_message_port. rewrite Hs, Hp.
  destruct (peer_lookup r a s b Hr Hs Hp) as (Hne & t' & Hd & Ht' & _). rewrite Hd. simplify_eq.
  simpl. split; [done |]. split; [done |]. split; [| split].
  - unfold poll_message_port. simpl. by rewrite lookup_insert_ne, lookup_delete_eq.
  - apply (poll_times_drain b _ (mk_port None (owner t) (pending_messages t) (Some PeerClosed)));
      [| done]. simpl. by rewrite lookup_insert_eq.
  - unfold enqueue_message_to_message_port. simpl. by rewrite lookup_insert_eq.
Qed.

(** [discard_message_port_channel] rolls a pair creation back: whatever
    endpoint of a newly created pair it is called on, the registry holds the
    same endpoints as before the creation, and both endpoints are handed back
    for disposal. *)
Theorem create_discard_roundtrip (r : MessagePortRegistry) (o : O) :
  ports_wf r → next_port_id r + 2 ≤ u64_max →
  let '(r1, (p1, p2)) := create_entangled_message_port_pair o r in
  let '(r2, ds) := discard_message_port_channel p1 r1 in
  let '(r3, ds') := discard_message_port_channel p2 r1 in
  ports r2 = ports r ∧ ports r3 = ports r ∧
  discarded_id <$> ds = [p1; p2] ∧ discarded_id <$> ds' = [p2; p1] ∧
  endpoint_count r1 = (endpoint_count r + 2)%nat.
Proof.
  intros Hr Hfit. unfold create_entangled_message_port_pair. rewrite next_id_wf by done.
  unfold next_message_port_id; cbn [next_port_id ports].
  pose proof (wf_next r Hr). pose proof (next_fresh r Hr) as Hf.
  rewrite wrapping_succ64_small, N.max_l by lia. set (n := next_port_id r) in *.
  unfold discard_message_port_channel; cbn [ports set_ports].
  assert (ports r !! n = None) as Hn by (apply Hf; lia).
  assert (ports r !! (n + 1) = None) as Hn1 by (apply Hf; lia).
  rewrite lookup_insert_ne, !lookup_insert_eq by lia. simpl.
  rewrite lookup_delete_ne, lookup_insert_eq by lia. simpl.
  rewrite lookup_delete_ne, lookup_insert_ne, lookup_insert_eq by lia. simpl.
  split; [| split; [| split; [done | split; [done |]]]].
  - rewrite delete_insert_ne, delete_insert_eq, delete_insert_eq by lia.
    by rewrite (delete_id (ports r)), delete_id.
  - rewrite delete_insert_eq, (delete_insert_ne (ports r)), delete_insert_eq by lia.
    by rewrite (delete_id (ports r)), delete_id.
  - unfold endpoint_count. simpl. rewrite !map_size_insert_None; [lia | done |].
    by rewrite lookup_insert_ne by lia.
Qed.
End registry.

(** ** Concrete runs *)
Definition demo_registry : MessagePortRegistry (P:=N) (O:=N) :=
  (create_entangled_message_port_pair 7 registry_default).1.

Definition demo_port_calls : list (port_call (P:=N) (O:=N)) :=
  [EnqueuePeer 1 10; EnqueueEndpoint 2 11; DetachOwner 2; PollPort 2 true; AttachOwner 2 8; Close 1].

Lemma demo_registry_wf : ports_wf demo_registry.
Proof. apply create_pair_wf; [apply registry_default_wf | vm_compute; discriminate]. Qed.

Lemma message_port_fifo_witness :
  [] ++ mb_all_sent demo_port_calls demo_registry 2 =
  mb_all_received demo_port_calls demo_registry 2 ++ [11] ∧
  mb_all_sent demo_port_calls demo_registry 2 = [10; 11].
Proof.
  split; [| vm_compute; reflexivity].
  apply (message_port_fifo demo_port_calls demo_registry 2 [] [11] demo_registry_wf);
    vm_compute; [discriminate | reflexivity ..].
Defined.

Lemma entangled_send_succeeds_witness :
  let r := mb_run [CreatePair (P:=N) 7; CreatePort 8] registry_default in
  2 ≠ 1 ∧ message_port_peer_id 2 r = Some 1 ∧
  (enqueue_message_to_message_port 1 99 r).2 = inl 2.
Proof.
  apply (entangled_send_succeeds [CreatePair 7; CreatePort 8] 1 2 99);
    vm_compute; [discriminate | reflexivity].
Defined.

Lemma close_lifecycle_witness :
  let r := mb_run [EnqueuePeer 1 10; EnqueuePeer 1 11] demo_registry in
  poll_times 4 2 (close_message_port 1 r).1 =
    [PollMessage 10; PollMessage 11; PollClose PeerClosed; PollIdle].
Proof.
  intros r. assert (ports_wf r) as Hr.
  { apply (@mb_inv_run _ _ _ _ port_mailbox); [apply demo_registry_wf |].
    apply calls_fit; [apply demo_registry_wf | vm_compute; discriminate]. }
  pose proof (close_lifecycle r 1 2 (mk_port (Some 2) (Some 7) [] None)
    (mk_port (Some 1) (Some 7) [10; 11] None) 5 Hr eq_refl eq_refl eq_refl) as H.
  destruct (close_message_port 1 r) as [r' res] eqn:E. apply H.
Defined.

Lemma create_discard_roundtrip_witness :
  let '(r1, (p1, p2)) := create_entangled_message_port_pair 9 demo_registry in
  ports (discard_message_port_channel p1 r1).1 = ports demo_registry.
Proof.
  pose proof (create_discard_roundtrip demo_registry 9 demo_registry_wf) as H.
  destruct (create_entangled_message_port_pair 9 demo_registry) as [r1 [p1 p2]].
  destruct (discard_message_port_channel p1 r1) as [r2 ds]. simpl.
  destruct (discard_message_port_channel p2 r1) as [r3 ds'].
  apply H. vm_compute. discriminate.
Defined.
