(* ===== verification/StorageKey.v ===== *)
(** * Storage keys (moli-storage-key/src)

    The isolation key of Moli's storage and messaging services: its
    components, its serialized form and the parser of that form.  Strings are
    lists of [ascii]; the URL library behind [site_for_url] and
    [origin_ascii_serialization] is a parameter of the functions that use it. *)

From S2P Require Import Prelude Text.
From Stdlib Require Import Ascii String.
Local Open Scope N_scope.

Definition semi : ascii := ";"%char.

(** ** Components *)
Inductive StoragePartitionRelation := FirstParty | ThirdParty | Unknown.

#[global] Instance StoragePartitionRelation_eq_dec : EqDecision StoragePartitionRelation.
Proof. solve_decision. Defined.

Definition from_sites (current_site top_level_site : text) : StoragePartitionRelation :=
  if decide (current_site = top_level_site) then FirstParty else ThirdParty.

Definition is_third_party (r : StoragePartitionRelation) : bool :=
  match r with ThirdParty => true | _ => false end.

Record MoliSite := mk_site { site_serialized : text }.

Record MoliStorageKey := mk_key {
  origin : text;
  top_level_site : MoliSite;
  opaque_nonce : option N;
  partition_relation : StoragePartitionRelation;
  cross_site_ancestor : bool
}.

#[global] Instance MoliSite_eq_dec : EqDecision MoliSite.
Proof. solve_decision. Defined.
#[global] Instance MoliStorageKey_eq_dec : EqDecision MoliStorageKey.
Proof. solve_decision. Defined.

Definition key_new (o site : text) (nonce : option N) (rel : StoragePartitionRelation)
  : MoliStorageKey := mk_key o (mk_site site) nonce rel (is_third_party rel).

Definition with_cross_site_ancestor (k : MoliStorageKey) : MoliStorageKey :=
  mk_key (origin k) (top_level_site k) (opaque_nonce k) (partition_relation k) true.

Definition is_third_party_partitioned (k : MoliStorageKey) : bool :=
  is_third_party (partition_relation k).

(** ** Serialization *)
Definition STORAGE_KEY_SERIALIZATION_PREFIX : text := lit "storage-key:v1;origin=".

Definition storage_key_for_origin_and_top_level_site (o site : text) : text :=
  STORAGE_KEY_SERIALIZATION_PREFIX ++ o ++ lit ";top-level-site=" ++ site.

Definition storage_key_prefix_for_origin (o : text) : text :=
  STORAGE_KEY_SERIALIZATION_PREFIX ++ o ++ lit ";top-level-site=".

Definition partitioned_storage_key (o site : text) : text :=
  storage_key_for_origin_and_top_level_site o site.

Definition serialized_storage_key (k : MoliStorageKey) : text :=
  let base := storage_key_for_origin_and_top_level_site (origin k)
                (site_serialized (top_level_site k)) in
  let base := if cross_site_ancestor k && negb (is_third_party (partition_relation k))
              then base ++ lit ";cross-site-ancestor=1" else base in
  match opaque_nonce k with
  | Some n => base ++ lit ";opaque-nonce=" ++ show_u64 n
  | None => base
  end.

Definition serialized_storage_key_has_opaque_origin (s : text) : bool :=
  bool_decide (s = lit "null") ||
  match strip_prefix STORAGE_KEY_SERIALIZATION_PREFIX s with
  | Some rest => bool_decide (rest = lit "null") ||
                 bool_decide (is_Some (strip_prefix (lit "null;") rest))
  | None => false
  end.

(** ** Construction from URLs and parsing *)
Section urls.
(** The [url] crate: the type of parsed URLs, its parser, and the two
    functions of a URL the storage key uses. *)
Context {Url : Type} (url_parse : text → option Url)
  (site_for_url origin_ascii_serialization : Url → text).

Definition site_for_serialized_origin (o : text) : text :=
  match url_parse o with Some u => site_for_url u | None => o end.

Definition from_url_and_top_level_site (u : Url) (site : text) (nonce : option N)
  : MoliStorageKey :=
  key_new (origin_ascii_serialization u) site nonce (from_sites (site_for_url u) site).

Definition first_party_from_url (u : Url) (nonce : option N) : MoliStorageKey :=
  from_url_and_top_level_site u (site_for_url u) nonce.

Definition deserialize_serialized_storage_key (value : text) : option MoliStorageKey :=
  rest ← strip_prefix STORAGE_KEY_SERIALIZATION_PREFIX value;
  '(o, rest) ← split_once (lit ";top-level-site=") rest;
  match split_char semi rest with
  | [] => None
  | site :: components =>
      let '(cross, components) :=
        match components with
        | c :: cs => if decide (c = lit "cross-site-ancestor=1") then (true, cs)
                     else (false, components)
        | [] => (false, components)
        end in
      '(nonce, components) ←
        match components with
        | c :: cs => s ← strip_prefix (lit "opaque-nonce=") c;
                     n ← parse_u64 s; Some (Some n, cs)
        | [] => Some (None, [])
        end;
      match components with
      | _ :: _ => None
      | [] =>
          let k := key_new o site nonce (from_sites (site_for_serialized_origin o) site) in
          Some (if (cross : bool) then with_cross_site_ancestor k else k)
      end
  end.
End urls.

(** ** Canonical keys

    The keys the crate's constructors build from serialized origins and
    sites: no component contains the separator, the relation is the one
    computed from the two sites, and a third-party key is below a cross-site
    ancestor. *)
Section canonical.
Context {Url : Type} (url_parse : text → option Url) (site_for_url : Url → text).

Record key_canonical (k : MoliStorageKey) : Prop := {
  canonical_origin : semi ∉ origin k;
  canonical_site : semi ∉ site_serialized (top_level_site k);
  canonical_nonce : ∀ n, opaque_nonce k = Some n → n ≤ u64_max;
  canonical_relation : partition_relation k =
    from_sites (site_for_serialized_origin url_parse site_for_url (origin k))
      (site_serialized (top_level_site k));
  canonical_ancestor : is_third_party (partition_relation k) = true → cross_site_ancestor k = true
}.

(** The components after the top-level site, as the serializer writes them. *)
Definition suffix_components (k : MoliStorageKey) : list text :=
  (if cross_site_ancestor k && negb (is_third_party (partition_relation k))
   then [lit "cross-site-ancestor=1"] else []) ++
  match opaque_nonce k with Some n => [lit "opaque-nonce=" ++ show_u64 n] | None => [] end.

Fixpoint join_components (ws : list text) : text :=
  match ws with [] => [] | w :: ws => (semi :: w) ++ join_components ws end.

Lemma split_join w ws :
  semi ∉ w → Forall (λ v, semi ∉ v) ws → split_char semi (w ++ join_components ws) = w :: ws.
Proof.
  revert w. induction ws as [|v ws IH]; intros w Hw Hws; simpl.
  - rewrite app_nil_r. by apply split_char_word.
  - apply Forall_cons in Hws as [Hv Hws]. rewrite split_char_app by done. by rewrite IH.
Qed.

Lemma serialize_join k : serialized_storage_key k =
  STORAGE_KEY_SERIALIZATION_PREFIX ++ origin k ++ lit ";top-level-site=" ++
  site_serialized (top_level_site k) ++ join_components (suffix_components k).
Proof.
  unfold serialized_storage_key, storage_key_for_origin_and_top_level_site, suffix_components.
  destruct (_ && _), (opaque_nonce k); cbn [join_components app];
    rewrite ?app_nil_r, <-?app_assoc; try done.
Qed.

Lemma suffix_no_semi k : Forall (λ v, semi ∉ v) (suffix_components k).
Proof.
  assert (semi ∉ lit "cross-site-ancestor=1") by (by apply (bool_decide_unpack _)).
  assert (semi ∉ lit "opaque-nonce=") by (by apply (bool_decide_unpack _)).
  unfold suffix_components. apply Forall_app. split.
  - destruct (_ && _); [by apply Forall_singleton | done].
  - destruct (opaque_nonce k) as [n|]; [| done]. apply Forall_singleton.
    rewrite elem_of_app. intros [?|Hn]; [done |]. revert Hn. apply show_u64_no. right. done.
Qed.

Lemma nonce_not_cross n : lit "opaque-nonce=" ++ show_u64 n ≠ lit "cross-site-ancestor=1".
Proof. intros Heq. injection Heq as Heq. discriminate. Qed.

Lemma deserialize_serialize (k : MoliStorageKey) :
  key_canonical k →
  deserialize_serialized_storage_key url_parse site_for_url (serialized_storage_key k) = Some k.
Proof.
  intros [Ho Hs Hn Hr Ha]. rewrite serialize_join. unfold deserialize_serialized_storage_key.
  rewrite strip_prefix_app. cbn [mbind option_bind].
  change (lit ";top-level-site=") with (semi :: lit "top-level-site=").
  rewrite split_once_app by done. cbn [mbind option_bind].
  rewrite split_join by (done || apply suffix_no_semi).
  unfold suffix_components. destruct k as [o [site] nonce rel cross].
  cbn [origin top_level_site site_serialized opaque_nonce partition_relation
    cross_site_ancestor] in *. rewrite <-Hr.
  assert (cross = is_third_party rel || (cross && negb (is_third_party rel))) as Hcross.
  { destruct (is_third_party rel); [by rewrite Ha | by rewrite andb_true_r]. }
  assert (∀ n, ∃ w, w = lit "opaque-nonce=" ++ show_u64 n ∧ w ≠ lit "cross-site-ancestor=1" ∧
    strip_prefix (lit "opaque-nonce=") w = Some (show_u64 n)) as Hw.
  { intros n. eexists. split; [done |]. split; [apply nonce_not_cross | apply strip_prefix_app]. }
  destruct (cross && negb (is_third_party rel)); rewrite Hcross;
    rewrite ?orb_true_r, ?orb_false_r; cbn [app]; rewrite ?decide_True by done;
    destruct nonce as [n|]; try done; destruct (Hw n) as (w & <- & Hne & Hp);
    rewrite ?decide_False by done; rewrite Hp; cbn [mbind option_bind];
    by rewrite parse_show_u64 by auto.
Qed.

(** ** Properties *)

(** C29: parsing the serialized form of a canonical storage key gives that key
    back, every component included. *)
Theorem storage_key_roundtrip (k : MoliStorageKey) :
  key_canonical k →
  deserialize_serialized_storage_key url_parse site_for_url (serialized_storage_key k) = Some k.
Proof. apply deserialize_serialize. Qed.

(** Two canonical storage keys with the same serialized form are the same
    key: partitions, opaque origins and cross-site ancestors never share a
    storage backend key. *)
Theorem storage_key_injective (k1 k2 : MoliStorageKey) :
  key_canonical k1 → key_canonical k2 →
  serialized_storage_key k1 = serialized_storage_key k2 → k1 = k2.
Proof.
  intros H1 H2 Heq. apply (inj Some). rewrite <-(deserialize_serialize k1 H1), Heq.
  by apply deserialize_serialize.
Qed.
End canonical.

(** ** The separator inside a component

    A top-level site that contains the separator is accepted by the
    constructors; its key then has the serialized form of another key. *)
Definition collision_site : text := lit "http://x;cross-site-ancestor=1".

(** Outside the canonical keys the serialization is not injective: a
    third-party key whose top-level site contains a semicolon serializes like
    the first-party key below a cross-site ancestor. *)
Theorem storage_key_separator_collision :
  ∃ k1 k2 : MoliStorageKey,
    k1 = with_cross_site_ancestor (key_new (lit "http://x") (lit "http://x") None FirstParty) ∧
    k2 = key_new (lit "http://x") collision_site None
           (from_sites (lit "http://x") collision_site) ∧
    k1 ≠ k2 ∧ serialized_storage_key k1 = serialized_storage_key k2.
Proof.
  eexists _, _. split; [done |]. split; [done |]. split.
  - intros Heq. discriminate Heq.
  - vm_compute. reflexivity.
Qed.

(** ** Concrete keys: a URL is its own origin and site *)
Definition demo_key : MoliStorageKey :=
  key_new (lit "null") (lit "https://example.com") (Some 42)
    (from_sites (lit "null") (lit "https://example.com")).

Definition demo_key2 : MoliStorageKey :=
  with_cross_site_ancestor
    (first_party_from_url (fun u : text => u) (fun u => u) (lit "https://example.com") (Some 7)).

Lemma no_semi_dec (s : text) : forallb (λ c, negb (Ascii.eqb c semi)) s = true → semi ∉ s.
Proof.
  intros Hs Hin. rewrite forallb_forall in Hs. apply list_elem_of_In, Hs in Hin.
  by rewrite Ascii.eqb_refl in Hin.
Qed.

Lemma demo_key_canonical : key_canonical Some (fun u : text => u) demo_key.
Proof.
  split; [by apply no_semi_dec .. | | by vm_compute | done].
  simpl. intros n [= <-]. vm_compute. discriminate.
Qed.

Lemma demo_key2_canonical : key_canonical Some (fun u : text => u) demo_key2.
Proof.
  split; [by apply no_semi_dec .. | | by vm_compute | by vm_compute].
  simpl. intros n [= <-]. vm_compute. discriminate.
Qed.

Lemma storage_key_roundtrip_witness :
  deserialize_serialized_storage_key Some (fun u : text => u) (serialized_storage_key demo_key)
    = Some demo_key.
Proof. apply (storage_key_roundtrip Some (fun u : text => u) demo_key demo_key_canonical). Defined.

Lemma storage_key_injective_witness :
  demo_key2 = mk_key (lit "https://example.com") (mk_site (lit "https://example.com"))
                (Some 7) FirstParty true.
Proof.
  apply (storage_key_injective Some (fun u : text => u) demo_key2 _ demo_key2_canonical);
    [exact demo_key2_canonical | vm_compute; reflexivity].
Defined.
