(* ===== verification/BroadcastChannel.v ===== *)
(** * BroadcastChannel registry (moli-broadcast-channel/src/registry.rs)

    Channels keyed by runtime id, each with its storage key, name, owner and
    FIFO of pending events; posting clones a payload into every other channel
    of the same storage key and name. *)

From S2P Require Import Prelude Text Mailbox StorageKey.
Local Open Scope N_scope.

Section registry.
Context {P Own : Type}.

Inductive BroadcastChannelEvent := Message (p : P).

Record BroadcastChannelState := mk_channel {
  storage_key : MoliStorageKey;
  name : text;
  channel_owner : Own;
  pending_events : list BroadcastChannelEvent
}.

(** [channels] is a [BTreeMap]: its iteration order is [btree_list]. *)
Record BroadcastChannelRegistry := mk_broadcast {
  channels : gmap N BroadcastChannelState;
  next_channel_id : N;
  next_opaque_nonce : N
}.

Definition broadcast_default : BroadcastChannelRegistry := mk_broadcast ∅ 0 0.

Definition set_channels (r : BroadcastChannelRegistry) (m : gmap N BroadcastChannelState)
  : BroadcastChannelRegistry := mk_broadcast m (next_channel_id r) (next_opaque_nonce r).

Definition next_broadcast_channel_id (r : BroadcastChannelRegistry)
  : BroadcastChannelRegistry * N :=
  (mk_broadcast (channels r) (wrapping_succ64 (next_channel_id r)) (next_opaque_nonce r),
   saturating_add64 (next_channel_id r) 1).

Definition create_broadcast_channel (k : MoliStorageKey) (n : text) (o : Own)
    (r : BroadcastChannelRegistry) : BroadcastChannelRegistry * N :=
  let '(r, id) := next_broadcast_channel_id r in
  (set_channels r (<[id := mk_channel k n o []]> (channels r)), id).

Definition next_opaque_context_nonce (r : BroadcastChannelRegistry)
  : BroadcastChannelRegistry * N :=
  (mk_broadcast (channels r) (next_channel_id r) (wrapping_succ64 (next_opaque_nonce r)),
   saturating_add64 (next_opaque_nonce r) 1).

Definition close_broadcast_channel (id : N) (r : BroadcastChannelRegistry)
  : BroadcastChannelRegistry := set_channels r (delete id (channels r)).

Definition set_events (c : BroadcastChannelState) (es : list BroadcastChannelEvent)
  : BroadcastChannelState := mk_channel (storage_key c) (name c) (channel_owner c) es.

Definition take_pending_broadcast_channel_event (id : N) (r : BroadcastChannelRegistry)
  : BroadcastChannelRegistry * option BroadcastChannelEvent :=
  match channels r !! id with
  | None => (r, None)
  | Some c =>
      match pending_events c with
      | [] => (r, None)
      | e :: es => (set_channels r (<[id := set_events c es]> (channels r)), Some e)
      end
  end.

Definition broadcast_channel_origin (id : N) (r : BroadcastChannelRegistry) : option text :=
  (λ c, origin (storage_key c)) <$> channels r !! id.

(** [wake] is the embedder's wake operation: whether the owner was reached. *)
Definition wake_broadcast_channel_if_pending (id : N) (wake : Own → N → bool)
    (r : BroadcastChannelRegistry) : BroadcastChannelRegistry * bool :=
  match channels r !! id with
  | None => (r, false)
  | Some c =>
      match pending_events c with
      | [] => (r, true)
      | _ :: _ => if wake (channel_owner c) id then (r, true)
                  else (set_channels r (delete id (channels r)), false)
      end
  end.

(** The filter of [post_broadcast_channel_message]. *)
Definition is_target (source_id : N) (source : BroadcastChannelState) (id : N)
    (c : BroadcastChannelState) : bool :=
  bool_decide (id ≠ source_id) && bool_decide (storage_key c = storage_key source)
  && bool_decide (name c = name source).

Definition post_broadcast_channel_message (source_id : N) (p : P)
    (r : BroadcastChannelRegistry) : BroadcastChannelRegistry * list N :=
  match channels r !! source_id with
  | None => (r, [])
  | Some source =>
      (set_channels r
         (map_imap (λ id c, Some (if is_target source_id source id c
                                  then set_events c (pending_events c ++ [Message p])
                                  else c)) (channels r)),
       (filter (λ e, is_target source_id source e.1 e.2) (btree_list (channels r))).*1)
  end.

(** ** Calls *)
Inductive channel_call :=
| CreateChannel (k : MoliStorageKey) (n : text) (o : Own)
| OpaqueNonce
| CloseChannel (id : N)
| TakeEvent (id : N)
| WakeChannel (id : N) (wake : Own → N → bool)
| Post (source_id : N) (p : P).

Definition channel_exec (c : channel_call) (r : BroadcastChannelRegistry)
  : BroadcastChannelRegistry :=
  match c with
  | CreateChannel k n o => (create_broadcast_channel k n o r).1
  | OpaqueNonce => (next_opaque_context_nonce r).1
  | CloseChannel id => close_broadcast_channel id r
  | TakeEvent id => (take_pending_broadcast_channel_event id r).1
  | WakeChannel id wake => (wake_broadcast_channel_if_pending id wake r).1
  | Post source p => (post_broadcast_channel_message source p r).1
  end.

Definition channel_sent (c : channel_call) (r : BroadcastChannelRegistry) (k : N)
  : list BroadcastChannelEvent :=
  match c with
  | Post source p =>
      if bool_decide (k ∈ (post_broadcast_channel_message source p r).2) then [Message p] else []
  | _ => []
  end.

Definition channel_received (c : channel_call) (r : BroadcastChannelRegistry) (k : N)
  : list BroadcastChannelEvent :=
  match c with
  | TakeEvent id =>
      match (take_pending_broadcast_channel_event id r).2 with
      | Some e => if decide (k = id) then [e] else []
      | None => []
      end
  | _ => []
  end.

(** Live ids are at most the allocator's counter. *)
Definition channels_wf (r : BroadcastChannelRegistry) : Prop :=
  ∀ id c, channels r !! id = Some c → id ≤ next_channel_id r.

Definition channel_ids_fit (c : channel_call) (r : BroadcastChannelRegistry) : Prop :=
  next_channel_id r < u64_max.

Lemma post_targets source p r k :
  k ∈ (post_broadcast_channel_message source p r).2 ↔
  ∃ src c, channels r !! source = Some src ∧ channels r !! k = Some c ∧
    is_target source src k c = true.
Proof.
  unfold post_broadcast_channel_message. destruct (channels r !! source) as [src|]; simpl.
  - rewrite list_elem_of_fmap. split.
    + intros ([k' c] & -> & [Ht Hc]%list_elem_of_filter). apply elem_of_btree_list in Hc.
      exists src, c. simpl in *. by apply Is_true_true in Ht.
    + intros (src' & c & [= <-] & Hc & Ht). exists (k, c). split; [done |].
      apply list_elem_of_filter. rewrite elem_of_btree_list. simpl. by rewrite Ht.
  - split; [set_solver | naive_solver].
Qed.

Lemma post_lookup source p r k :
  channels (post_broadcast_channel_message source p r).1 !! k =
  (λ c, if bool_decide (k ∈ (post_broadcast_channel_message source p r).2)
        then set_events c (pending_events c ++ [Message p]) else c) <$> channels r !! k.
Proof.
  destruct (channels r !! k) as [c|] eqn:Hk; simpl.
  - case_bool_decide as Ht.
    + apply post_targets in Ht as (src & c' & Hs & Hc & Ht). simplify_eq.
      unfold post_broadcast_channel_message. rewrite Hs. simpl.
      rewrite map_lookup_imap, Hk. simpl. by rewrite Ht.
    + rewrite post_targets in Ht. unfold post_broadcast_channel_message.
      destruct (channels r !! source) as [src|] eqn:Hs; [| done]. simpl.
      rewrite map_lookup_imap, Hk. simpl.
      destruct (is_target source src k c) eqn:E; [| done]. exfalso. naive_solver.
  - unfold post_broadcast_channel_message. destruct (channels r !! source); simpl; [| done].
    by rewrite map_lookup_imap, Hk.
Qed.

Lemma channel_id_fresh r : channels_wf r → next_channel_id r < u64_max →
  next_broadcast_channel_id r =
    (mk_broadcast (channels r) (next_channel_id r + 1) (next_opaque_nonce r),
     next_channel_id r + 1) ∧ channels r !! (next_channel_id r + 1) = None.
Proof.
  intros Hr Hfit. split.
  - unfold next_broadcast_channel_id, saturating_add64. rewrite wrapping_succ64_small, N.min_l by lia.
    done.
  - destruct (channels r !! _) as [c|] eqn:E; [| done]. apply Hr in E. lia.
Qed.

Lemma channel_exec_wf c r : channels_wf r → channel_ids_fit c r → channels_wf (channel_exec c r).
Proof.
  unfold channel_ids_fit. intros Hr Hfit.
  destruct c as [k n o| |id|id|id wake|source p]; intros i x; cbn [channel_exec].
  - unfold create_broadcast_channel. destruct (channel_id_fresh r Hr Hfit) as [-> _]. simpl.
    intros H. map_cases; [lia |]. apply Hr in H. lia.
  - apply Hr.
  - simpl. intros [_ H]%lookup_delete_Some. by apply Hr in H.
  - unfold take_pending_broadcast_channel_event. repeat case_match; simpl; try apply Hr.
    intros Hx. map_cases; eauto.
  - unfold wake_broadcast_channel_if_pending. repeat case_match; simpl; try apply Hr.
    intros [_ Hx]%lookup_delete_Some. by apply Hr in Hx.
  - rewrite post_lookup. intros (c & Hc & _)%fmap_Some. apply Hr in Hc.
    unfold post_broadcast_channel_message. by case_match.
Qed.

Lemma channel_conserve c r k q q' : channels_wf r → channel_ids_fit c r →
  pending_events <$> channels r !! k = Some q →
  pending_events <$> channels (channel_exec c r) !! k = Some q' →
  q ++ channel_sent c r k = channel_received c r k ++ q'.
Proof.
  unfold channel_ids_fit. intros Hr Hfit (x & Hx & ->)%fmap_Some (y & Hy & ->)%fmap_Some.
  destruct c as [sk n o| |id|id|id wake|source p];
    cbn [channel_exec channel_sent channel_received] in *.
  - unfold create_broadcast_channel in Hy. destruct (channel_id_fresh r Hr Hfit) as [E Hf].
    rewrite E in Hy. simpl in Hy. rewrite lookup_insert_ne in Hy by congruence.
    simplify_eq. apply app_nil_r.
  - simpl in Hy. simplify_eq. apply app_nil_r.
  - simpl in Hy. apply lookup_delete_Some in Hy as [_ Hy]. simplify_eq. apply app_nil_r.
  - unfold take_pending_broadcast_channel_event in *. rewrite app_nil_r.
    repeat case_match; simplify_eq/=; map_cases; try done.
  - unfold wake_broadcast_channel_if_pending in *. rewrite app_nil_r.
    repeat case_match; simplify_eq/=; map_cases; try done.
  - rewrite post_lookup, Hx in Hy. simpl in Hy. case_bool_decide; simplify_eq/=; [done |].
    apply app_nil_r.
Qed.

#[global] Instance channel_mailbox :
  Mailbox BroadcastChannelRegistry channel_call N BroadcastChannelEvent := {|
  mb_queue r k := pending_events <$> channels r !! k;
  mb_exec := channel_exec;
  mb_sent := channel_sent;
  mb_received := channel_received;
  mb_inv := channels_wf;
  mb_safe := channel_ids_fit;
  mb_inv_step := channel_exec_wf;
  mb_conserve := channel_conserve
|}.

Lemma next_channel_id_exec c r : channel_ids_fit c r →
  next_channel_id (channel_exec c r) ≤ next_channel_id r + 1.
Proof.
  unfold channel_ids_fit. intros Hfit.
  destruct c; simpl; unfold create_broadcast_channel, take_pending_broadcast_channel_event,
    wake_broadcast_channel_if_pending, post_broadcast_channel_message, next_broadcast_channel_id;
    repeat case_match; simplify_eq/=; rewrite ?wrapping_succ64_small by lia; lia.
Qed.

Lemma channel_calls_fit (cs : list channel_call) r : channels_wf r →
  next_channel_id r + N.of_nat (length cs) ≤ u64_max → mb_all_safe cs r.
Proof.
  revert r. induction cs as [|c cs IH]; intros r Hr Hfit; simpl; [done |].
  assert (channel_ids_fit c r) as Hc by (unfold channel_ids_fit; simpl in Hfit; lia).
  split; [done |]. apply IH; [by apply channel_exec_wf |].
  pose proof (next_channel_id_exec c r Hc). simpl in Hfit. lia.
Qed.

(** The ids of a [BTreeMap] iteration, filtered, ascend strictly. *)
Lemma filter_keys_ascending {A} (f : N * A → bool) (l : list (N * A)) :
  StronglySorted key_le l → NoDup l.*1 → StronglySorted N.lt (filter f l).*1.
Proof.
  induction l as [|[k a] l IH]; intros Hs Hn; [constructor |].
  inversion Hs as [|? ? Hs' Hall]; subst. apply NoDup_cons in Hn as [Hk Hn].
  rewrite filter_cons. case_decide; [| by apply IH]. simpl. constructor; [by apply IH |].
  apply Forall_forall. intros k' (e & -> & [_ He]%list_elem_of_filter)%list_elem_of_fmap.
  rewrite Forall_forall in Hall. pose proof (Hall e He) as Hle. unfold key_le in Hle. simpl in Hle.
  assert (e.1 ≠ k); [| lia]. intros <-. apply Hk, list_elem_of_fmap. by exists e.
Qed.

(** ** Properties *)

(** In-order exactly-once delivery of broadcast events: over any history
    of registry calls during which channel [k] stays registered, what was
    pending for [k] followed by every payload posted to it equals what was
    taken from it followed by what is still pending. *)
Theorem broadcast_fifo (cs : list channel_call) (r : BroadcastChannelRegistry) (k : N)
    (q q' : list BroadcastChannelEvent) :
  channels_wf r → next_channel_id r + N.of_nat (length cs) ≤ u64_max →
  mb_live cs r k = true →
  pending_events <$> channels r !! k = Some q →
  pending_events <$> channels (mb_run cs r) !! k = Some q' →
  q ++ mb_all_sent cs r k = mb_all_received cs r k ++ q'.
Proof.
  intros Hr Hfit. apply (@mb_delivery _ _ _ _ channel_mailbox cs r k q q' Hr), channel_calls_fit;
    done.
Qed.

(** A post reaches exactly the other channels of the sender's storage key
    and name, once each: the returned ids ascend strictly, a channel is among
    them iff it is live, is not the sender and shares both key and name, its
    queue grows by that one payload, and every other channel, the sender's
    included, is untouched. *)
Theorem post_reaches_exactly (source : N) (src : BroadcastChannelState) (p : P)
    (r : BroadcastChannelRegistry) :
  channels r !! source = Some src →
  let '(r', ids) := post_broadcast_channel_message source p r in
  StronglySorted N.lt ids ∧
  (∀ k, k ∈ ids ↔ k ≠ source ∧
     ∃ c, channels r !! k = Some c ∧ storage_key c = storage_key src ∧ name c = name src) ∧
  (∀ k c, channels r !! k = Some c → channels r' !! k =
     Some (if bool_decide (k ∈ ids) then set_events c (pending_events c ++ [Message p]) else c)) ∧
  (∀ k, channels r !! k = None → channels r' !! k = None).
Proof.
  intros Hs. pose proof (post_targets source p r) as Ht. pose proof (post_lookup source p r) as Hl.
  assert (StronglySorted N.lt (post_broadcast_channel_message source p r).2) as Hsort.
  { unfold post_broadcast_channel_message. rewrite Hs. simpl.
    apply (filter_keys_ascending (λ e, is_target source src e.1 e.2));
      [apply btree_list_sorted | apply btree_list_NoDup]. }
  destruct (post_broadcast_channel_message source p r) as [r' ids]. simpl in *.
  split; [done |]. split; [| split].
  - intros k. rewrite Ht. unfold is_target. split.
    + intros (src' & c & ? & Hc & Hb). simplify_eq.
      apply andb_true_iff in Hb as [[?%bool_decide_eq_true ?%bool_decide_eq_true]%andb_true_iff
        ?%bool_decide_eq_true]. eauto.
    + intros (Hne & c & Hc & Hk & Hn). exists src, c. split; [done |]. split; [done |].
      by rewrite !bool_decide_eq_true_2.
  - intros k c Hc. by rewrite Hl, Hc.
  - intros k Hk. by rewrite Hl, Hk.
Qed.
End registry.

(** ** Concrete runs *)
Definition demo_channels : BroadcastChannelRegistry (P:=N) (Own:=N) :=
  mb_run [CreateChannel demo_key (lit "news") 1; CreateChannel demo_key (lit "news") 2;
          CreateChannel demo_key2 (lit "news") 3; CreateChannel demo_key (lit "news") 4]
    broadcast_default.

Lemma demo_channels_wf : channels_wf demo_channels.
Proof.
  assert (channels_wf (broadcast_default (P:=N) (Own:=N))) as Hd by (intros id c H; discriminate H).
  apply (@mb_inv_run _ _ _ _ channel_mailbox); [done |].
  apply channel_calls_fit; [done |]. vm_compute. discriminate.
Qed.

Lemma broadcast_fifo_witness :
  let cs := [Post 1 10; CloseChannel 1; Post 4 11; TakeEvent 2] in
  [] ++ mb_all_sent cs demo_channels 2 = mb_all_received cs demo_channels 2 ++ [Message 11].
Proof.
  apply (broadcast_fifo [Post 1 10; CloseChannel 1; Post 4 11; TakeEvent 2] demo_channels 2 []
    [Message 11] demo_channels_wf); vm_compute; [discriminate | reflexivity ..].
Defined.

Lemma post_reaches_exactly_witness :
  ∃ src, channels demo_channels !! 1 = Some src ∧
    let '(r', ids) := post_broadcast_channel_message 1 10 demo_channels in
    ids = [2; 4] ∧ StronglySorted N.lt ids.
Proof.
  exists (mk_channel demo_key (lit "news") 1 []). split; [vm_compute; reflexivity |].
  pose proof (post_reaches_exactly 1 (mk_channel demo_key (lit "news") 1 []) 10 demo_channels
    ltac:(vm_compute; reflexivity)) as H.
  destruct (post_broadcast_channel_message 1 10 demo_channels) as [r' ids] eqn:E.
  split; [| apply H]. apply (f_equal snd) in E. simpl in E. rewrite <-E. vm_compute. reflexivity.
Defined.
