(* ===== verification/SessionHistory.v ===== *)
(** * Joint session history (moli-session-history/src)

    The page-owned timeline of joint steps: identity allocators, steps with
    one entry per browsing context, the context tree, and the plan / commit
    protocol of traversals. *)

From S2P Require Import Prelude Text.
Local Open Scope N_scope.

(** ** Identities (identity.rs) *)

(** [try_update(.., checked_add(1)).expect(..)]: the previous value, or a
    panic when the counter is exhausted. *)
Definition allocate (counter : N) : run (N * N) :=
  next ← expect (checked_add64 counter 1); Ret (next, counter).

Definition allocate_navigation_history_document_id (counter : N) : run (N * text) :=
  r ← allocate counter; Ret (r.1, lit "document-" ++ show_u64 r.2).

Definition allocate_navigation_history_entry_key (counter : N) : run (N * text) :=
  r ← allocate counter; Ret (r.1, lit "key-" ++ show_u64 r.2).

(** The process-wide step and revision counters. *)
Record Ids := mk_ids { next_step : N; next_revision : N }.

Definition allocate_step (ids : Ids) : run (Ids * N) :=
  r ← allocate (next_step ids); Ret (mk_ids r.1 (next_revision ids), r.2).

Definition allocate_revision (ids : Ids) : run (Ids * N) :=
  r ← allocate (next_revision ids); Ret (mk_ids (next_step ids) r.1, r.2).

(** ** Entries, positions and plans (entry.rs, traversal.rs) *)
Record SessionHistoryPosition := mk_position { index : nat; length_ : nat }.

Definition position_INITIAL : SessionHistoryPosition := mk_position 0 1.

Definition position_new (i n : nat) : option SessionHistoryPosition :=
  if (i <? n)%nat then Some (mk_position i n) else None.

Record SessionHistoryEntry := mk_entry { key : text; document : text }.

#[global] Instance SessionHistoryEntry_eq_dec : EqDecision SessionHistoryEntry.
Proof. solve_decision. Defined.

Record SessionHistoryContextChange := mk_change {
  context : N;
  from : option SessionHistoryEntry;
  to : option SessionHistoryEntry
}.

#[global] Instance SessionHistoryContextChange_eq_dec : EqDecision SessionHistoryContextChange.
Proof. solve_decision. Defined.

Record SessionHistoryTraversalPlan := mk_plan {
  plan_revision : N;
  source_step : N;
  target_step : N;
  delta : Z;
  changes : list SessionHistoryContextChange;
  target_entries : gmap N SessionHistoryEntry
}.

(** ** The timeline (joint.rs) *)
Record SessionHistoryStep := mk_step { id : N; entries : gmap N SessionHistoryEntry }.

Record JointSessionHistory := mk_joint {
  revision : N;
  steps : list SessionHistoryStep;
  current : nat;
  parents : gmap N N
}.

(** [steps[current]]: indexing panics out of range. *)
Definition current_record (h : JointSessionHistory) : run SessionHistoryStep :=
  expect (steps h !! current h).

Fixpoint fresh_steps (n : nat) (ids : Ids) : run (Ids * list SessionHistoryStep) :=
  match n with
  | O => Ret (ids, [])
  | S n => r ← allocate_step ids; r2 ← fresh_steps n r.1; Ret (r2.1, mk_step r.2 ∅ :: r2.2)
  end.

Definition joint_new (p : SessionHistoryPosition) (ids : Ids) : run (Ids * JointSessionHistory) :=
  r ← allocate_revision ids;
  s ← fresh_steps (length_ p) r.1;
  Ret (s.1, mk_joint r.2 s.2 (index p) ∅).

Definition position (h : JointSessionHistory) : SessionHistoryPosition :=
  mk_position (current h) (length (steps h)).

Definition current_step (h : JointSessionHistory) : run N := id <$> current_record h.

Definition entry (h : JointSessionHistory) (c : N) : run (option SessionHistoryEntry) :=
  (λ s, entries s !! c) <$> current_record h.

Definition has_document (o : option SessionHistoryEntry) (d : text) : bool :=
  match o with Some e => bool_decide (document e = d) | None => false end.

Definition has_key (o : option SessionHistoryEntry) (k : text) : bool :=
  match o with Some e => bool_decide (key e = k) | None => false end.

(** [entries.entry(c).or_insert(e)]. *)
Definition or_insert (c : N) (e : SessionHistoryEntry) (m : gmap N SessionHistoryEntry)
  : gmap N SessionHistoryEntry :=
  match m !! c with Some _ => m | None => <[c := e]> m end.

Definition attach (h : JointSessionHistory) (c : N) (parent : option N) (e : SessionHistoryEntry)
  : run JointSessionHistory :=
  here ← entry h c;
  match here with
  | Some _ => Ret h
  | None =>
      pe ← match parent with None => Ret None | Some p => entry h p end;
      let parent_document := document <$> pe in
      let ps := match parent with Some p => <[c := p]> (parents h) | None => parents h end in
      let same s := match parent, parent_document with
                    | Some p, Some d => has_document (entries s !! p) d
                    | _, _ => false
                    end in
      Ret (mk_joint (revision h)
             (imap (λ i s, if bool_decide (i = current h) || same s
                           then mk_step (id s) (or_insert c e (entries s)) else s) (steps h))
             (current h) ps)
  end.

(** [descendants]: a worklist over the context tree.  [fuel] counts the
    iterations; on an acyclic tree each context is visited once, so one more
    than the number of links is enough, and running out stands for the loop
    that does not end. *)
Definition children (ps : gmap N N) (p : N) : list N :=
  (filter (λ e, e.2 = p) (btree_list ps)).*1.

Fixpoint descendants_loop (fuel : nat) (ps : gmap N N) (found : list N) (i : nat)
  : run (list N) :=
  match found !! i with
  | None => Ret found
  | Some p =>
      match fuel with
      | O => Panic
      | S fuel => descendants_loop fuel ps (found ++ children ps p) (S i)
      end
  end.

Definition descendants (h : JointSessionHistory) (c : N) : run (list N) :=
  tail <$> descendants_loop (S (size (parents h))) (parents h) [c] 0.

Definition retain_not (ds : list N) (m : gmap N SessionHistoryEntry)
  : gmap N SessionHistoryEntry := filter (λ e, e.1 ∉ ds) m.

Definition replaces_document (m : gmap N SessionHistoryEntry) (c : N) (e : SessionHistoryEntry)
  : bool := match m !! c with Some old => bool_decide (document old ≠ document e) | None => false end.

Definition remove_replaced_document_children (h : JointSessionHistory) (s : SessionHistoryStep)
    (c : N) (e : SessionHistoryEntry) : run SessionHistoryStep :=
  if replaces_document (entries s) c e
  then ds ← descendants h c; Ret (mk_step (id s) (retain_not ds (entries s)))
  else Ret s.

Definition push (ids : Ids) (h : JointSessionHistory) (c : N) (e : SessionHistoryEntry)
  : run (Ids * JointSessionHistory) :=
  cur ← current_record h;
  r ← allocate_step ids;
  next ← remove_replaced_document_children h (mk_step r.2 (entries cur)) c e;
  r2 ← allocate_revision r.1;
  Ret (r2.1,
       mk_joint r2.2
         (take (current h + 1) (steps h) ++ [mk_step (id next) (<[c := e]> (entries next))])
         (current h + 1) (parents h)).

Definition replace (ids : Ids) (h : JointSessionHistory) (c : N) (e : SessionHistoryEntry)
  : run (Ids * JointSessionHistory) :=
  here ← entry h c;
  if decide (here = Some e) then Ret (ids, h) else
  ds ← descendants h c;
  let old_key := key <$> here in
  let shares s := match old_key with Some k => has_key (entries s !! c) k | None => false end in
  let rewrite_step s :=
    let m := if replaces_document (entries s) c e then retain_not ds (entries s) else entries s in
    mk_step (id s) (<[c := e]> m) in
  r ← allocate_revision ids;
  Ret (r.1,
       mk_joint r.2
         (imap (λ i s, if bool_decide (i = current h) || shares s then rewrite_step s else s)
            (steps h))
         (current h) (parents h)).

(** [steps.iter().position(|step| step.id == target)]. *)
Definition step_index (h : JointSessionHistory) (target : N) : option nat :=
  fst <$> list_find (λ s, id s = target) (steps h).

(** [i64::try_from], [checked_add] and [usize::try_from]. *)
Definition i64_max : Z := 9223372036854775807.
Definition i64_min : Z := -9223372036854775808.
Definition to_i64 (n : nat) : option Z :=
  if (Z.of_nat n <=? i64_max)%Z then Some (Z.of_nat n) else None.
Definition checked_add_i64 (a b : Z) : option Z :=
  if (i64_min <=? a + b)%Z && (a + b <=? i64_max)%Z then Some (a + b)%Z else None.
Definition to_usize (z : Z) : option nat := if (0 <=? z)%Z then Some (Z.to_nat z) else None.

Definition step_by_delta_from (h : JointSessionHistory) (source : N) (d : Z) : option N :=
  i ← step_index h source;
  z ← to_i64 i;
  t ← checked_add_i64 z d;
  n ← to_usize t;
  id <$> steps h !! n.

Definition step_by_delta (h : JointSessionHistory) (d : Z) : run (option N) :=
  (λ s, step_by_delta_from h s d) <$> current_step h.

Definition delta_to (h : JointSessionHistory) (target : N) : option Z :=
  n ← step_index h target;
  a ← to_i64 n; b ← to_i64 (current h);
  Some (a - b)%Z.

Definition steps_for_entry (h : JointSessionHistory) (c : N) (k : text) : list nat :=
  omap (λ p, if has_key (entries p.2 !! c) k then Some p.1 else None)
    (imap (λ i s, (i, s)) (steps h)).

Definition matches (c : N) (k : text) (s : SessionHistoryStep) : Prop :=
  has_key (entries s !! c) k = true.

#[global] Instance matches_dec c k s : Decision (matches c k s).
Proof. unfold matches. apply _. Defined.

Definition step_for_entry (h : JointSessionHistory) (c : N) (k : text) : run (option N) :=
  if (current h <? length (steps h))%nat then
    Ret (id ∘ snd <$>
      match list_find (matches c k) (reverse (take (current h + 1) (steps h))) with
      | Some s => Some s
      | None => list_find (matches c k) (drop (current h + 1) (steps h))
      end)
  else Panic.

Definition entries_at (h : JointSessionHistory) (target : N)
  : option (gmap N SessionHistoryEntry) :=
  entries ∘ snd <$> list_find (λ s, id s = target) (steps h).

(** The contexts of either side, in [BTreeSet] order, whose entries differ. *)
Definition diff_entries (source destination : gmap N SessionHistoryEntry)
  : list SessionHistoryContextChange :=
  omap (λ e : N * unit,
          let f := source !! e.1 in let t := destination !! e.1 in
          if decide (f = t) then None else Some (mk_change e.1 f t))
    (btree_list (((λ _, tt) <$> source) ∪ ((λ _, tt) <$> destination))).

Definition plan_traversal (h : JointSessionHistory) (target : N)
  : run (option SessionHistoryTraversalPlan) :=
  match step_index h target with
  | None => Ret None
  | Some next =>
      match to_i64 next, to_i64 (current h) with
      | Some a, Some b =>
          cur ← current_record h;
          dst ← expect (steps h !! next);
          Ret (Some (mk_plan (revision h) (id cur) target (a - b)%Z
                       (diff_entries (entries cur) (entries dst)) (entries dst)))
      | _, _ => Ret None
      end
  end.

Definition is_traversal_plan_current (h : JointSessionHistory) (p : SessionHistoryTraversalPlan)
  : run bool :=
  if decide (revision h = plan_revision p) then
    cur ← current_step h;
    if decide (cur = source_step p) then
      r ← plan_traversal h (target_step p);
      Ret (match r with Some q => bool_decide (changes q = changes p) | None => false end)
    else Ret false
  else Ret false.

Definition commit_traversal (ids : Ids) (h : JointSessionHistory) (p : SessionHistoryTraversalPlan)
  : run (Ids * JointSessionHistory * option Z) :=
  ok ← is_traversal_plan_current h p;
  if negb ok then Ret (ids, h, None) else
  match step_index h (target_step p) with
  | None => Ret (ids, h, None)
  | Some next =>
      r ← allocate_revision ids;
      Ret (r.1, mk_joint r.2 (steps h) next (parents h), Some (delta p))
  end.

Definition contains_entry (h : JointSessionHistory) (c : N) (k : text) : bool :=
  existsb (λ s, has_key (entries s !! c) k) (steps h).

Definition prune_all_but_current (ids : Ids) (h : JointSessionHistory)
  : run (Ids * JointSessionHistory) :=
  if (length (steps h) =? 1)%nat then Ret (ids, h) else
  cur ← current_record h;
  r ← allocate_revision ids;
  Ret (r.1, mk_joint r.2 [cur] 0 (parents h)).

Definition detach (h : JointSessionHistory) (c : N) : run JointSessionHistory :=
  ds ← descendants h c;
  let removed := ds ++ [c] in
  if negb (existsb (λ e, bool_decide (e.1 ∈ removed)) (map_to_list (parents h))) &&
     negb (existsb (λ s, existsb (λ e, bool_decide (e.1 ∈ removed)) (map_to_list (entries s)))
             (steps h))
  then Ret h
  else Ret (mk_joint (revision h)
              ((λ s, mk_step (id s) (retain_not removed (entries s))) <$> steps h)
              (current h) (filter (λ e, e.1 ∉ removed) (parents h))).

(** ** The context tree *)
Definition link (ps : gmap N N) (child parent : N) : Prop := ps !! child = Some parent.

Definition acyclic (ps : gmap N N) : Prop := ∀ c, ¬ tc (link ps) c c.

Lemma elem_of_children ps p x : x ∈ children ps p ↔ link ps x p.
Proof.
  unfold children, link. rewrite list_elem_of_fmap. split.
  - intros ([k v] & -> & [Hv Hk]%list_elem_of_filter). simpl in *. subst.
    by apply elem_of_btree_list in Hk.
  - intros Hx. exists (x, p). split; [done |]. apply list_elem_of_filter.
    by rewrite elem_of_btree_list.
Qed.

Lemma children_NoDup ps p : NoDup (children ps p).
Proof. apply NoDup_fst_filter, btree_list_NoDup. Qed.

(** The invariant of the worklist: everything found descends from [c], once;
    the first [i] contexts are expanded; everything but [c] was found as a
    child of an expanded context. *)
Record worklist_inv (ps : gmap N N) (c : N) (found : list N) (i : nat) : Prop := {
  wi_nodup : NoDup found;
  wi_reach : ∀ x, x ∈ found → rtc (link ps) x c;
  wi_root : c ∈ found;
  wi_expanded : ∀ p x, p ∈ take i found → link ps x p → x ∈ found;
  wi_parent : ∀ x, x ∈ found → x = c ∨ ∃ p, link ps x p ∧ p ∈ take i found;
  wi_index : (i ≤ length found)%nat
}.

Lemma worklist_init ps c : worklist_inv ps c [c] 0.
Proof.
  split; simpl; try set_solver; try lia.
  apply NoDup_singleton.
Qed.

Lemma NoDup_lookup_take {A} (l : list A) i x : NoDup l → l !! i = Some x → x ∉ take i l.
Proof.
  intros Hn Hx (j & Hj)%list_elem_of_lookup. apply lookup_take_Some in Hj as [Hj Hlt].
  pose proof (NoDup_lookup _ _ _ _ Hn Hx Hj). lia.
Qed.

Lemma worklist_step ps c found i p :
  acyclic ps → worklist_inv ps c found i → found !! i = Some p →
  worklist_inv ps c (found ++ children ps p) (S i).
Proof.
  intros Hac [Hn Hr Hc He Hp Hi] Hl.
  assert (Hpf : p ∈ found) by by eapply list_elem_of_lookup_2.
  assert (Hlt : (i < length found)%nat) by by eapply lookup_lt_Some.
  assert (Hnew : ∀ x, link ps x p → x ∉ found).
  { intros x Hx Hxf. destruct (Hp x Hxf) as [-> | (p' & Hp' & Htake)].
    - apply (Hac c). eapply tc_rtc_r; [by apply tc_once | by apply Hr].
    - unfold link in *. simplify_eq. by eapply NoDup_lookup_take. }
  assert (Ht : take (S i) (found ++ children ps p) = take i found ++ [p]).
  { rewrite take_app_le by lia. by apply take_S_r. }
  split.
  - apply NoDup_app. split; [done |]. split; [| apply children_NoDup].
    intros x Hx Hxc. apply elem_of_children in Hxc. by eapply Hnew.
  - intros x [Hx | Hx%elem_of_children]%elem_of_app; [auto |].
    eapply rtc_l; [done | auto].
  - set_solver.
  - rewrite Ht. intros q x [Hq | ->%list_elem_of_singleton]%elem_of_app Hx; apply elem_of_app.
    + left. eauto.
    + right. by apply elem_of_children.
  - rewrite Ht. intros x [Hx | Hx%elem_of_children]%elem_of_app.
    + destruct (Hp x Hx) as [? | (q & ? & ?)]; [by left |]. right. exists q. set_solver.
    + right. exists p. set_solver.
  - rewrite length_app. lia.
Qed.

Lemma worklist_size ps c found i : worklist_inv ps c found i → (length found ≤ S (size ps))%nat.
Proof.
  intros [Hn _ _ _ Hp _].
  assert (found ⊆ c :: (map_to_list ps).*1) as Hsub.
  { intros x Hx. destruct (Hp x Hx) as [-> | (p & Hl & _)]; [set_solver |].
    apply list_elem_of_further, list_elem_of_fmap. exists (x, p). split; [done |].
    by apply elem_of_map_to_list. }
  pose proof (NoDup_submseteq _ _ Hn Hsub) as Hm. apply submseteq_length in Hm.
  simpl in Hm. rewrite length_fmap in Hm. by rewrite length_map_to_list in Hm.
Qed.

(** Once every found context is expanded, the worklist is the whole subtree. *)
Lemma worklist_done ps c found i :
  worklist_inv ps c found i → (length found ≤ i)%nat →
  NoDup found ∧ ∀ x, x ∈ found ↔ rtc (link ps) x c.
Proof.
  intros [Hn Hr Hc He _ _] Hi. split; [done |]. intros x. split; [apply Hr |].
  rewrite take_ge in He by done. induction 1 as [| x y z Hxy _ IH]; eauto.
Qed.

Lemma descendants_loop_ok fuel ps c found i :
  acyclic ps → worklist_inv ps c found i → (S (size ps) ≤ fuel + i)%nat →
  ∃ all, descendants_loop fuel ps found i = Ret all ∧ found `prefix_of` all ∧
    NoDup all ∧ ∀ x, x ∈ all ↔ rtc (link ps) x c.
Proof.
  intros Hac. revert found i. induction fuel as [|fuel IH]; intros found i Hw Hf; simpl.
  - pose proof (worklist_size _ _ _ _ Hw). rewrite lookup_ge_None_2 by lia.
    exists found. split; [done |]. split; [done |]. eapply worklist_done; [done | lia].
  - destruct (found !! i) as [p|] eqn:Hl.
    + destruct (IH (found ++ children ps p) (S i)) as (all & -> & Hpre & ?);
        [by apply worklist_step | lia |].
      exists all. split; [done |]. split; [| done]. etrans; [by apply prefix_app_r | done].
    + exists found. split; [done |]. split; [done |].
      eapply worklist_done; [done | by apply lookup_ge_None].
Qed.

Lemma descendants_spec h c : acyclic (parents h) →
  ∃ ds, descendants h c = Ret ds ∧ NoDup ds ∧ ∀ x, x ∈ ds ↔ tc (link (parents h)) x c.
Proof.
  intros Hac. unfold descendants.
  destruct (descendants_loop_ok (S (size (parents h))) (parents h) c [c] 0 Hac
    (worklist_init _ _) ltac:(lia)) as (all & -> & [ds ->] & Hn & Hx).
  exists ds. apply NoDup_cons in Hn as [Hc Hn]. split; [done |]. split; [done |].
  intros x. specialize (Hx x). rewrite rtc_tc in Hx. simpl in Hx.
  rewrite elem_of_cons in Hx. split.
  - intros Hxd. destruct (proj1 Hx (or_intror Hxd)) as [->|]; [by destruct Hc | done].
  - intros Ht. destruct (proj2 Hx (or_intror Ht)) as [->|]; [by destruct (Hac c) | done].
Qed.

(** Attaching a context below one that does not descend from it keeps the
    tree acyclic. *)
Lemma tc_link_insert ps c p x y :
  tc (link (<[c := p]> ps)) x y →
  tc (link ps) x y ∨ (rtc (link ps) x c ∧ rtc (link ps) p y).
Proof.
  assert (Hl : ∀ x y, link (<[c := p]> ps) x y → (x = c ∧ y = p) ∨ link ps x y).
  { intros a b. unfold link. rewrite lookup_insert. case_decide; naive_solver. }
  induction 1 as [x y Hxy | x y z Hxy _ IH]; destruct (Hl _ _ Hxy) as [[-> ->] | Ho].
  - right. split; apply rtc_refl.
  - left. by apply tc_once.
  - right. split; [apply rtc_refl |]. destruct IH as [?|[_ ?]]; [by apply tc_rtc | done].
  - destruct IH as [?|[? ?]]; [left; by eapply tc_l | right]. split; [by eapply rtc_l | done].
Qed.

Lemma acyclic_insert ps c p :
  acyclic ps → ¬ rtc (link ps) p c → acyclic (<[c := p]> ps).
Proof.
  intros Hac Hp x [Hx|[H1 H2]]%tc_link_insert; [by apply (Hac x) |].
  apply Hp. by etrans.
Qed.

Lemma acyclic_subseteq ps ps' : acyclic ps → ps' ⊆ ps → acyclic ps'.
Proof.
  intros Hac Hsub c Hc. apply (Hac c). revert Hc. generalize c at 2 4. intros d.
  induction 1 as [x y Hxy | x y z Hxy _ IH].
  - apply tc_once. by eapply lookup_weaken.
  - eapply tc_l; [by eapply lookup_weaken | done].
Qed.

(** ** Well-formed timelines *)
Record joint_wf (ids : Ids) (h : JointSessionHistory) : Prop := {
  jw_current : (current h < length (steps h))%nat;
  jw_ids : NoDup (id <$> steps h);
  jw_bound : ∀ s, s ∈ steps h → id s < next_step ids;
  jw_revision : revision h < next_revision ids;
  jw_acyclic : acyclic (parents h)
}.

(** Room in the process-wide counters for one more call. *)
Definition ids_room (ids : Ids) : Prop := next_step ids < u64_max ∧ next_revision ids < u64_max.

Lemma allocate_Ret n : n < u64_max → allocate n = Ret (n + 1, n).
Proof.
  intros. unfold allocate, checked_add64. destruct (N.leb_spec (n + 1) u64_max); [done | lia].
Qed.

Lemma current_record_wf ids h : joint_wf ids h →
  ∃ s, steps h !! current h = Some s ∧ current_record h = Ret s.
Proof.
  intros Hh. destruct (lookup_lt_is_Some_2 _ _ (jw_current _ _ Hh)) as [s Hs].
  exists s. unfold current_record. by rewrite Hs.
Qed.

Lemma imap_ids (f : nat → SessionHistoryStep → SessionHistoryStep) l :
  (∀ i s, id (f i s) = id s) → id <$> imap f l = id <$> l.
Proof.
  intros Hf. revert f Hf. induction l as [|s l IH]; intros f Hf; simpl; [done |].
  rewrite Hf. f_equal. apply IH. intros; apply Hf.
Qed.

(** Rewriting entries in place, whatever it does to them. *)
Lemma joint_wf_rewrite ids h l r ps :
  joint_wf ids h → id <$> l = id <$> steps h → r < next_revision ids → acyclic ps →
  joint_wf ids (mk_joint r l (current h) ps).
Proof.
  intros [Hc Hn Hb _ _] Hl Hr Hp. split; simpl; try done.
  - by rewrite <-(length_fmap id l), Hl, length_fmap.
  - by rewrite Hl.
  - intros s Hs. assert (id s ∈ id <$> steps h) as (s' & -> & Hs')%list_elem_of_fmap; [| auto].
    rewrite <-Hl. by apply list_elem_of_fmap_2.
Qed.

Lemma joint_wf_ids ids ids' h :
  joint_wf ids h → next_step ids ≤ next_step ids' → next_revision ids ≤ next_revision ids' →
  joint_wf ids' h.
Proof.
  intros [Hc Hn Hb Hr Hp] H1 H2. split; try done; [| lia].
  intros s Hs. specialize (Hb s Hs). lia.
Qed.

Lemma attach_wf ids h c parent e :
  joint_wf ids h →
  (∀ p, parent = Some p → ¬ rtc (link (parents h)) p c) →
  ∃ h', attach h c parent e = Ret h' ∧ joint_wf ids h' ∧ revision h' = revision h ∧
    current h' = current h ∧ id <$> steps h' = id <$> steps h.
Proof.
  intros Hh Hp. destruct (current_record_wf ids h Hh) as (s & Hs & Hcur).
  unfold attach, entry. rewrite Hcur. simpl.
  destruct (entries s !! c); [by exists h |].
  destruct parent as [p|]; simpl; eexists; (split; [done |]); simpl.
  - split; [| split; [done | split; [done | apply imap_ids; intros; by case_match]]].
    eapply joint_wf_rewrite; eauto using jw_revision; [apply imap_ids; intros; by case_match |].
    apply acyclic_insert; [by apply (jw_acyclic ids h) | auto].
  - split; [| split; [done | split; [done | apply imap_ids; intros; by case_match]]].
    eapply joint_wf_rewrite; eauto using jw_revision, jw_acyclic.
    apply imap_ids; intros; by case_match.
Qed.

Lemma retain_lookup ds m c :
  retain_not ds m !! c = if decide (c ∈ ds) then None else m !! c.
Proof.
  unfold retain_not. case_decide as Hc.
  - apply map_lookup_filter_None. right. intros e _ Hne. by apply Hne.
  - destruct (m !! c) as [e|] eqn:E.
    + by apply map_lookup_filter_Some.
    + apply map_lookup_filter_None. by left.
Qed.

Lemma remove_children_wf h s c e : acyclic (parents h) →
  ∃ ds, remove_replaced_document_children h s c e = Ret (mk_step (id s) (retain_not ds (entries s))) ∧
    (replaces_document (entries s) c e = true → ∀ x, x ∈ ds ↔ tc (link (parents h)) x c) ∧
    (replaces_document (entries s) c e = false → ds = []).
Proof.
  intros Hac. unfold remove_replaced_document_children.
  destruct (replaces_document (entries s) c e).
  - destruct (descendants_spec h c Hac) as (ds & -> & _ & Hx). by exists ds.
  - exists []. split; [| done]. destruct s as [i m]. simpl. do 2 f_equal.
    apply map_eq. intros k. rewrite retain_lookup. case_decide; [set_solver | done].
Qed.

Lemma push_result ids h c e : joint_wf ids h → ids_room ids →
  ∃ s ds, steps h !! current h = Some s ∧
    push ids h c e = Ret (mk_ids (next_step ids + 1) (next_revision ids + 1),
      mk_joint (next_revision ids)
        (take (current h + 1) (steps h) ++
           [mk_step (next_step ids) (<[c := e]> (retain_not ds (entries s)))])
        (current h + 1) (parents h)) ∧
    (replaces_document (entries s) c e = true → ∀ x, x ∈ ds ↔ tc (link (parents h)) x c) ∧
    (replaces_document (entries s) c e = false → ds = []).
Proof.
  intros Hh [Hs Hr]. destruct (current_record_wf ids h Hh) as (s & Hl & Hcur).
  destruct (remove_children_wf h (mk_step (next_step ids) (entries s)) c e (jw_acyclic _ _ Hh))
    as (ds & Hrem & Hds).
  exists s, ds. split; [done |]. split; [| done].
  unfold push. rewrite Hcur. unfold mbind, run_bind at 1. unfold allocate_step.
  rewrite allocate_Ret by done. simpl. rewrite Hrem. simpl.
  unfold allocate_revision. simpl. by rewrite allocate_Ret.
Qed.

Lemma push_wf ids h c e : joint_wf ids h → ids_room ids →
  ∃ ids' h', push ids h c e = Ret (ids', h') ∧ joint_wf ids' h'.
Proof.
  intros Hh Hroom. destruct (push_result ids h c e Hh Hroom) as (s & ds & Hs & -> & _).
  eexists _, _. split; [done |]. destruct Hh as [Hc Hn Hb Hr Hp].
  assert (Hlen : length (take (current h + 1) (steps h)) = (current h + 1)%nat).
  { rewrite length_take. lia. }
  assert (Hsub : ∀ s', s' ∈ take (current h + 1) (steps h) → s' ∈ steps h).
  { intros s' Hs'. rewrite <-(take_drop (current h + 1) (steps h)). set_solver. }
  split; simpl; [| | | lia | done].
  - rewrite length_app, Hlen. simpl. lia.
  - rewrite fmap_app. apply NoDup_app. split; [| split; [| apply NoDup_singleton]].
    + rewrite fmap_take.
      rewrite <-(take_drop (current h + 1) (id <$> steps h)) in Hn. by apply NoDup_app in Hn as [? _].
    + intros x (s' & -> & Hs')%list_elem_of_fmap Hx. simpl in Hx.
      apply list_elem_of_singleton in Hx. specialize (Hb s' (Hsub s' Hs')). lia.
  - intros s' [Hs'|Hs']%elem_of_app.
    + specialize (Hb s' (Hsub s' Hs')). lia.
    + apply list_elem_of_singleton in Hs' as ->. simpl. lia.
Qed.

Lemma replace_wf ids h c e : joint_wf ids h → ids_room ids →
  ∃ ids' h', replace ids h c e = Ret (ids', h') ∧ joint_wf ids' h' ∧
    next_step ids' = next_step ids ∧
    (h' = h ∧ ids' = ids ∧ entry h c = Ret (Some e) ∨
     revision h' = next_revision ids ∧ next_revision ids' = next_revision ids + 1).
Proof.
  intros Hh [Hs Hr]. destruct (current_record_wf ids h Hh) as (s & Hl & Hcur).
  unfold replace, entry. rewrite Hcur. simpl. case_decide as He.
  { exists ids, h. rewrite He. naive_solver. }
  destruct (descendants_spec h c (jw_acyclic _ _ Hh)) as (ds & -> & _). simpl.
  unfold allocate_revision. rewrite allocate_Ret by done. simpl.
  eexists _, _. split; [done |]. split; [| simpl; auto].
  apply (joint_wf_rewrite _ h); simpl; [| | lia | by apply (jw_acyclic ids h)].
  - eapply joint_wf_ids; [done | simpl; lia ..].
  - apply imap_ids. intros. by case_match.
Qed.

Lemma prune_wf ids h : joint_wf ids h → ids_room ids →
  ∃ ids' h', prune_all_but_current ids h = Ret (ids', h') ∧ joint_wf ids' h' ∧
    next_step ids' = next_step ids ∧
    (h' = h ∧ ids' = ids ∧ length (steps h) = 1%nat ∨
     revision h' = next_revision ids ∧ next_revision ids' = next_revision ids + 1).
Proof.
  intros Hh [Hs Hr]. destruct (current_record_wf ids h Hh) as (s & Hl & Hcur).
  unfold prune_all_but_current. destruct (Nat.eqb_spec (length (steps h)) 1).
  { exists ids, h. naive_solver. }
  rewrite Hcur. simpl. unfold allocate_revision. rewrite allocate_Ret by done. simpl.
  eexists _, _. split; [done |]. split; [| simpl; auto].
  destruct Hh as [Hc Hn Hb Hrv Hp]. split; simpl; try done; [lia | apply NoDup_singleton | | lia].
  intros s' ->%list_elem_of_singleton. apply Hb. by eapply list_elem_of_lookup_2.
Qed.

Lemma detach_wf ids h c : joint_wf ids h →
  ∃ h', detach h c = Ret h' ∧ joint_wf ids h' ∧ revision h' = revision h ∧
    current h' = current h ∧ id <$> steps h' = id <$> steps h.
Proof.
  intros Hh. destruct (descendants_spec h c (jw_acyclic _ _ Hh)) as (ds & Hds & _).
  unfold detach. rewrite Hds. simpl. destruct (_ && _).
  { by exists h. }
  assert (id <$> ((λ s, mk_step (id s) (retain_not (ds ++ [c]) (entries s))) <$> steps h)
          = id <$> steps h) as Hids by (by rewrite <-list_fmap_compose).
  eexists. split; [done |]. split; [| done].
  apply joint_wf_rewrite; [done | done | by apply (jw_revision ids h) |].
  eapply acyclic_subseteq; [by apply (jw_acyclic ids h) | apply map_filter_subseteq].
Qed.

(** ** Plans *)
Definition fits (h : JointSessionHistory) : Prop := (Z.of_nat (length (steps h)) ≤ i64_max)%Z.

Lemma step_index_Some h t i :
  step_index h t = Some i → ∃ s, steps h !! i = Some s ∧ id s = t.
Proof.
  unfold step_index. intros ([j s] & [Hs [Hid _]]%list_find_Some & ->)%fmap_Some. eauto.
Qed.

Lemma step_index_lookup ids h i s :
  joint_wf ids h → steps h !! i = Some s → step_index h (id s) = Some i.
Proof.
  intros Hh Hs. unfold step_index.
  assert (list_find (λ s', id s' = id s) (steps h) = Some (i, s)) as ->; [| done].
  apply list_find_Some. split; [done |]. split; [done |]. intros j s' Hj Hlt Heq.
  assert (j = i); [| lia].
  apply (NoDup_lookup (id <$> steps h) j i (id s)); [by apply (jw_ids ids h) | |];
    rewrite list_lookup_fmap; [rewrite Hj; simpl; by rewrite Heq | by rewrite Hs].
Qed.

Lemma to_i64_fits h i : fits h → (i < length (steps h))%nat → to_i64 i = Some (Z.of_nat i).
Proof.
  unfold fits, to_i64. intros. destruct (Z.leb_spec (Z.of_nat i) i64_max); [done | lia].
Qed.

Lemma plan_result ids h t : joint_wf ids h → fits h →
  plan_traversal h t = Ret
    (i ← step_index h t; cur ← steps h !! current h; dst ← steps h !! i;
     Some (mk_plan (revision h) (id cur) t (Z.of_nat i - Z.of_nat (current h))%Z
             (diff_entries (entries cur) (entries dst)) (entries dst))).
Proof.
  intros Hh Hf. destruct (current_record_wf ids h Hh) as (cur & Hl & Hcur).
  unfold plan_traversal. destruct (step_index h t) as [i|] eqn:Hi; [| done].
  destruct (step_index_Some h t i Hi) as (dst & Hd & _).
  rewrite !(to_i64_fits h) by (done || by apply (jw_current ids h) || by eapply lookup_lt_Some).
  rewrite Hcur, Hl. simpl. by rewrite Hd.
Qed.

Lemma plan_Some ids h t p : joint_wf ids h → fits h → plan_traversal h t = Ret (Some p) →
  ∃ i cur dst, step_index h t = Some i ∧ steps h !! current h = Some cur ∧
    steps h !! i = Some dst ∧ id dst = t ∧
    p = mk_plan (revision h) (id cur) t (Z.of_nat i - Z.of_nat (current h))%Z
          (diff_entries (entries cur) (entries dst)) (entries dst).
Proof.
  intros Hh Hf. rewrite (plan_result ids) by done.
  destruct (step_index h t) as [i|] eqn:Hi; simpl; [| done].
  destruct (step_index_Some h t i Hi) as (dst & Hd & Hid).
  destruct (steps h !! current h) as [cur|] eqn:Hcur; simpl; [| done].
  rewrite Hd. simpl. intros [= <-]. exists i, cur, dst. done.
Qed.

(** The plan a timeline makes is current for it. *)
Lemma plan_is_current ids h t p : joint_wf ids h → fits h → plan_traversal h t = Ret (Some p) →
  is_traversal_plan_current h p = Ret true.
Proof.
  intros Hh Hf Hp. pose proof (plan_Some ids h t p Hh Hf Hp) as (i & cur & dst & Hi & Hc & Hd & Ht & E).
  unfold is_traversal_plan_current, current_step, current_record.
  assert (plan_revision p = revision h ∧ source_step p = id cur ∧ target_step p = t) as (-> & -> & ->)
    by (by rewrite E).
  rewrite decide_True by done. rewrite Hc. simpl. rewrite decide_True by done.
  rewrite Hp. simpl. by rewrite bool_decide_eq_true_2.
Qed.

Lemma stale_revision ids h p : revision h ≠ plan_revision p →
  commit_traversal ids h p = Ret (ids, h, None).
Proof.
  intros Hne. unfold commit_traversal, is_traversal_plan_current. by rewrite decide_False.
Qed.

Lemma plan_total ids h t : joint_wf ids h → ∃ o, plan_traversal h t = Ret o.
Proof.
  intros Hh. destruct (current_record_wf ids h Hh) as (cur & Hl & Hcur).
  unfold plan_traversal. destruct (step_index h t) as [i|] eqn:Hi; [| eauto].
  destruct (step_index_Some h t i Hi) as (dst & Hd & _).
  repeat case_match; eauto. rewrite Hcur. simpl. rewrite Hd. simpl. eauto.
Qed.

Lemma is_current_total ids h p : joint_wf ids h → ∃ b, is_traversal_plan_current h p = Ret b.
Proof.
  intros Hh. destruct (current_record_wf ids h Hh) as (cur & Hl & Hcur).
  unfold is_traversal_plan_current, current_step. case_decide; [| eauto].
  rewrite Hcur. simpl. case_decide; [| eauto].
  destruct (plan_total ids h (target_step p) Hh) as [o ->]. simpl. eauto.
Qed.

Lemma commit_wf ids h p : joint_wf ids h → ids_room ids →
  ∃ ids' h' o, commit_traversal ids h p = Ret (ids', h', o) ∧ joint_wf ids' h' ∧
    next_step ids' = next_step ids ∧
    (h' = h ∧ ids' = ids ∧ ¬ (∃ i, is_traversal_plan_current h p = Ret true ∧
                                    step_index h (target_step p) = Some i) ∨
     revision h' = next_revision ids ∧ next_revision ids' = next_revision ids + 1).
Proof.
  intros Hh [Hs Hr]. destruct (is_current_total ids h p Hh) as [b Hb].
  unfold commit_traversal. rewrite Hb. simpl.
  destruct b; simpl; [| exists ids, h, None; naive_solver].
  destruct (step_index h (target_step p)) as [i|] eqn:Hi; [| exists ids, h, None; naive_solver].
  unfold allocate_revision. rewrite allocate_Ret by done. simpl.
  eexists _, _, _. split; [done |]. split; [| simpl; auto].
  destruct (step_index_Some h _ i Hi) as (s & Hl & _).
  destruct Hh as [Hc Hn Hb' Hrv Hp]. split; simpl; try done; [by eapply lookup_lt_Some | lia].
Qed.

(** Relative moves by index arithmetic. *)
Lemma step_by_delta_index ids h i j s t d :
  joint_wf ids h → steps h !! i = Some s → steps h !! j = Some t →
  (Z.of_nat i ≤ i64_max)%Z → (Z.of_nat j ≤ i64_max)%Z → (Z.of_nat i + d = Z.of_nat j)%Z →
  step_by_delta_from h (id s) d = Some (id t).
Proof.
  intros Hh Hi Hj Hbi Hbj Hd. unfold step_by_delta_from.
  rewrite (step_index_lookup ids h i s Hh Hi). cbn [mbind option_bind].
  unfold to_i64. rewrite (proj2 (Z.leb_le _ _) Hbi). cbn [mbind option_bind].
  unfold checked_add_i64. rewrite Hd.
  rewrite (proj2 (Z.leb_le _ _) Hbj), (proj2 (Z.leb_le i64_min (Z.of_nat j)))
    by (unfold i64_min; lia). cbn [andb mbind option_bind].
  unfold to_usize. rewrite (proj2 (Z.leb_le 0 (Z.of_nat j))) by lia. cbn [mbind option_bind].
  by rewrite Nat2Z.id, Hj.
Qed.

(** ** Sequences of calls *)
Inductive history_call :=
| Attach (c : N) (parent : option N) (e : SessionHistoryEntry)
| Push (c : N) (e : SessionHistoryEntry)
| Replace (c : N) (e : SessionHistoryEntry)
| Commit (p : SessionHistoryTraversalPlan)
| Prune
| Detach (c : N).

Definition history_step (k : history_call) (st : Ids * JointSessionHistory)
  : run (Ids * JointSessionHistory) :=
  let '(ids, h) := st in
  match k with
  | Attach c parent e => pair ids <$> attach h c parent e
  | Push c e => push ids h c e
  | Replace c e => replace ids h c e
  | Commit p => fst <$> commit_traversal ids h p
  | Prune => prune_all_but_current ids h
  | Detach c => pair ids <$> detach h c
  end.

(** A context is attached below one that does not descend from it. *)
Definition legal (k : history_call) (st : Ids * JointSessionHistory) : Prop :=
  match k with
  | Attach c (Some p) _ => ¬ rtc (link (parents st.2)) p c
  | _ => True
  end.

Fixpoint history_run (ks : list history_call) (st : Ids * JointSessionHistory)
  : run (Ids * JointSessionHistory) :=
  match ks with
  | [] => Ret st
  | k :: ks => st' ← history_step k st; history_run ks st'
  end.

Fixpoint all_legal (ks : list history_call) (st : Ids * JointSessionHistory) : Prop :=
  match ks with
  | [] => True
  | k :: ks => legal k st ∧ ∀ st', history_step k st = Ret st' → all_legal ks st'
  end.

(** The calls that take a new revision, which no later call takes back:
    every effective push, replacement, pruning and traversal.  [Attach] and
    [Detach] keep the revision; what they do to a plan shows in
    [difference]. *)
Definition mutates (k : history_call) (st : Ids * JointSessionHistory) : Prop :=
  match k with
  | Push _ _ => True
  | Replace c e => entry st.2 c ≠ Ret (Some e)
  | Prune => length (steps st.2) ≠ 1%nat
  | Commit p => ∃ i, is_traversal_plan_current st.2 p = Ret true ∧
                     step_index st.2 (target_step p) = Some i
  | Attach _ _ _ | Detach _ => False
  end.

Definition room_for (n : nat) (ids : Ids) : Prop :=
  next_step ids + N.of_nat n ≤ u64_max ∧ next_revision ids + N.of_nat n ≤ u64_max.

Lemma history_step_wf k ids h :
  joint_wf ids h → ids_room ids → legal k (ids, h) →
  ∃ ids' h', history_step k (ids, h) = Ret (ids', h') ∧ joint_wf ids' h' ∧
    next_step ids' ≤ next_step ids + 1 ∧ next_revision ids' ≤ next_revision ids + 1 ∧
    revision h ≤ revision h' ∧ (mutates k (ids, h) → revision h < revision h').
Proof.
  intros Hh Hroom Hl. pose proof (jw_revision _ _ Hh) as Hrev.
  destruct k as [c par e|c e|c e|p| |c]; cbn [history_step].
  - destruct (attach_wf ids h c par e Hh) as (h' & -> & Hw & Hr & _).
    { intros p ->. exact Hl. }
    exists ids, h'. simpl. rewrite Hr. repeat (split; [done || lia |]). done.
  - destruct (push_wf ids h c e Hh Hroom) as (ids' & h' & Hp & Hw).
    destruct (push_result ids h c e Hh Hroom) as (s & ds & _ & Hp' & _).
    rewrite Hp in Hp'. injection Hp' as -> ->. eexists _, _. split; [done |].
    split; [done |]. simpl. repeat (split; [lia |]). intros _. lia.
  - destruct (replace_wf ids h c e Hh Hroom) as (ids' & h' & -> & Hw & Hs & Hcase).
    exists ids', h'. split; [done |]. split; [done |]. simpl.
    destruct Hcase as [(-> & -> & ->)|[-> ->]]; repeat (split; [lia |]); [done | lia].
  - destruct (commit_wf ids h p Hh Hroom) as (ids' & h' & o & -> & Hw & Hs & Hcase).
    exists ids', h'. split; [done |]. split; [done |]. simpl.
    destruct Hcase as [(-> & -> & Hno)|[-> ->]]; repeat (split; [lia |]); [done | lia].
  - destruct (prune_wf ids h Hh Hroom) as (ids' & h' & -> & Hw & Hs & Hcase).
    exists ids', h'. split; [done |]. split; [done |]. simpl.
    destruct Hcase as [(-> & -> & ->)|[-> ->]]; repeat (split; [lia |]); [done | lia].
  - destruct (detach_wf ids h c Hh) as (h' & -> & Hw & Hr & _).
    exists ids, h'. simpl. rewrite Hr. repeat (split; [done || lia |]). done.
Qed.

Lemma history_run_wf ks ids h :
  joint_wf ids h → room_for (length ks) ids → all_legal ks (ids, h) →
  ∃ ids' h', history_run ks (ids, h) = Ret (ids', h') ∧ joint_wf ids' h' ∧
    revision h ≤ revision h' ∧ next_step ids' ≤ next_step ids + N.of_nat (length ks) ∧
    next_revision ids' ≤ next_revision ids + N.of_nat (length ks).
Proof.
  revert ids h. induction ks as [|k ks IH]; intros ids h Hh [Hr1 Hr2] Hl; cbn [history_run].
  { exists ids, h. split; [done |]. split; [done |]. simpl. lia. }
  destruct Hl as [Hk Hks]. cbn [length] in *.
  destruct (history_step_wf k ids h Hh) as (ids1 & h1 & Hs & Hw & Hn1 & Hn2 & Hle & _);
    [split; lia | done |].
  rewrite Hs. cbn [mbind run_bind].
  destruct (IH ids1 h1 Hw) as (ids2 & h2 & ? & ? & ?); [split; lia | by apply Hks |].
  exists ids2, h2. split; [done |]. split; [done |]. lia.
Qed.

Lemma all_legal_app ks1 ks2 st st1 :
  all_legal (ks1 ++ ks2) st → history_run ks1 st = Ret st1 → all_legal ks2 st1.
Proof.
  revert st. induction ks1 as [|k ks IH]; intros st Hl Hr; [simpl in *; congruence |].
  destruct Hl as [_ Hl]. cbn [history_run] in Hr. apply run_bind_Ret in Hr as (st' & Hs & Hr). eauto.
Qed.

Lemma all_legal_prefix ks1 ks2 st : all_legal (ks1 ++ ks2) st → all_legal ks1 st.
Proof.
  revert st. induction ks1 as [|k ks IH]; intros st Hl; [done |].
  destruct Hl as [Hk Hl]. split; [done |]. eauto.
Qed.
(** ** Diffs *)
Definition apply_changes (l : list SessionHistoryContextChange) (m : gmap N SessionHistoryEntry)
  : gmap N SessionHistoryEntry :=
  foldr (λ ch m, match to ch with
                 | Some e => <[context ch := e]> m
                 | None => delete (context ch) m
                 end) m l.

Lemma elem_of_diff source dst ch :
  ch ∈ diff_entries source dst ↔
  from ch = source !! context ch ∧ to ch = dst !! context ch ∧ from ch ≠ to ch.
Proof.
  unfold diff_entries. rewrite list_elem_of_omap. split.
  - intros ([c []] & _ & Hch). simpl in Hch. case_decide; simplify_eq/=. done.
  - intros (Hf & Ht & Hne). exists (context ch, tt). split.
    + apply elem_of_btree_list. rewrite Hf, Ht in Hne.
      destruct (source !! context ch) eqn:Hs, (dst !! context ch) eqn:Hd; try done;
        rewrite lookup_union, !lookup_fmap, Hs, Hd; done.
    + simpl. rewrite <-Hf, <-Ht. rewrite decide_False by done. by destruct ch.
Qed.

Lemma apply_changes_lookup l m c :
  apply_changes l m !! c =
    match list_find (λ ch, context ch = c) l with Some (_, ch) => to ch | None => m !! c end.
Proof.
  induction l as [|ch l IH]; simpl; [done |]. destruct (decide (context ch = c)) as [<-|Hne].
  - destruct (to ch); [apply lookup_insert_eq | apply lookup_delete_eq].
  - destruct (list_find _ l) as [[i ch']|]; simpl in *;
      destruct (to ch); rewrite ?lookup_insert_ne, ?lookup_delete_ne by done; done.
Qed.

Lemma apply_diff source dst : apply_changes (diff_entries source dst) source = dst.
Proof.
  apply map_eq. intros c. rewrite apply_changes_lookup.
  destruct (list_find _ _) as [[i ch]|] eqn:E.
  - apply list_find_Some in E as (Hl & <- & _). apply list_elem_of_lookup_2, elem_of_diff in Hl.
    naive_solver.
  - apply list_find_None in E. destruct (decide (source !! c = dst !! c)); [done |].
    rewrite Forall_forall in E. exfalso. apply (E (mk_change c (source !! c) (dst !! c))); [| done].
    by apply elem_of_diff.
Qed.

(** The diff is determined by the ascending list of differing contexts. *)
Definition differing (source dst : gmap N SessionHistoryEntry) (l : list (N * unit)) : list N :=
  (filter (λ e, source !! e.1 ≠ dst !! e.1) l).*1.

Lemma diff_differing source dst l :
  omap (λ e : N * unit, if decide (source !! e.1 = dst !! e.1) then None
                        else Some (mk_change e.1 (source !! e.1) (dst !! e.1))) l =
  (λ c, mk_change c (source !! c) (dst !! c)) <$> differing source dst l.
Proof.
  unfold differing. induction l as [|[c []] l IH]; [done |]. simpl. rewrite filter_cons; simpl.
  destruct (decide (source !! c = dst !! c)) as [E|E].
  - rewrite decide_False by (intros Hc; by apply Hc). exact IH.
  - rewrite decide_True by done. simpl. f_equal. exact IH.
Qed.

Lemma sorted_keys_eq (l1 l2 : list (N * unit)) :
  StronglySorted key_le l1 → StronglySorted key_le l2 → NoDup l1.*1 → NoDup l2.*1 →
  (∀ c, c ∈ l1.*1 ↔ c ∈ l2.*1) → l1.*1 = l2.*1.
Proof.
  intros H1 H2 N1 N2 Hc.
  assert (Hs : ∀ l : list (N * unit), StronglySorted key_le l → StronglySorted N.le l.*1).
  { induction l as [|e l IH]; intros Hl; [constructor |]. inversion Hl as [|? ? Hl' Hall]; subst.
    simpl. constructor; [by apply IH |]. rewrite Forall_fmap. exact Hall. }
  apply (StronglySorted_unique N.le); [by apply Hs .. |]. by apply NoDup_Permutation.
Qed.

Lemma filter_sorted (P : N * unit → Prop) `{∀ e, Decision (P e)} (l : list (N * unit)) :
  StronglySorted key_le l → StronglySorted key_le (filter P l).
Proof.
  induction l as [|e l IH]; intros Hl; [constructor |]. inversion Hl as [|? ? Hl' Hall]; subst.
  rewrite filter_cons. case_decide; [| by apply IH]. constructor; [by apply IH |].
  apply Forall_forall. intros x [_ Hx]%list_elem_of_filter. rewrite Forall_forall in Hall. auto.
Qed.

(** Two pairs of steps that differ on the same contexts, by the same entries,
    have the same diff. *)
Lemma diff_entries_eq s1 d1 s2 d2 :
  (∀ c, s1 !! c ≠ d1 !! c → s2 !! c = s1 !! c ∧ d2 !! c = d1 !! c) →
  (∀ c, s2 !! c ≠ d2 !! c → s1 !! c = s2 !! c ∧ d1 !! c = d2 !! c) →
  diff_entries s1 d1 = diff_entries s2 d2.
Proof.
  intros H1 H2. unfold diff_entries. cbv zeta. rewrite !diff_differing.
  assert (Hin : ∀ s d c, c ∈ differing s d
      (btree_list (((λ _, tt) <$> s) ∪ ((λ _, tt) <$> d))) ↔ s !! c ≠ d !! c).
  { intros s d c. unfold differing. rewrite list_elem_of_fmap. split.
    - intros ([c' []] & -> & [Hne _]%list_elem_of_filter). exact Hne.
    - intros Hne. exists (c, tt). split; [done |]. apply list_elem_of_filter. split; [exact Hne |].
      apply elem_of_btree_list. rewrite lookup_union, !lookup_fmap.
      destruct (s !! c), (d !! c); done. }
  assert (differing s1 d1 (btree_list (((λ _, tt) <$> s1) ∪ ((λ _, tt) <$> d1))) =
          differing s2 d2 (btree_list (((λ _, tt) <$> s2) ∪ ((λ _, tt) <$> d2)))) as Heq.
  { apply sorted_keys_eq; try apply filter_sorted; try apply btree_list_sorted;
      try apply NoDup_fst_filter; try apply btree_list_NoDup.
    intros c. rewrite (Hin s1 d1), (Hin s2 d2). split; intros Hne.
    - destruct (H1 c Hne) as [-> ->]. done.
    - destruct (H2 c Hne) as [-> ->]. done. }
  rewrite <-Heq. apply list_fmap_ext. intros i c Hc%list_elem_of_lookup_2.
  apply (Hin s1 d1) in Hc. destruct (H1 c Hc) as [-> ->]. done.
Qed.

(** ** Properties *)

(** Every sequence of timeline calls (attach, push, replace, commit,
    prune, detach) returns: no index, allocator or context-tree loop fails as
    long as contexts are attached below contexts that do not descend from
    them and the 64-bit counters last. The cursor stays on an existing step,
    step ids stay distinct, and the revision never goes back. *)
Theorem timeline_calls_safe (ks : list history_call) (ids : Ids) (h : JointSessionHistory) :
  joint_wf ids h → room_for (length ks) ids → all_legal ks (ids, h) →
  ∃ ids' h', history_run ks (ids, h) = Ret (ids', h') ∧ joint_wf ids' h' ∧
    revision h ≤ revision h' ∧
    ∃ s, current_record h' = Ret s ∧ position_new (current h') (length (steps h')) = Some (position h').
Proof.
  intros Hh Hroom Hl. destruct (history_run_wf ks ids h Hh Hroom Hl) as (ids' & h' & ? & Hw & ? & _).
  exists ids', h'. split; [done |]. split; [done |]. split; [done |].
  destruct (current_record_wf ids' h' Hw) as (s & Hs & Hc). exists s. split; [done |].
  unfold position_new. apply lookup_lt_Some in Hs. by apply Nat.ltb_lt in Hs as ->.
Qed.

(** Committing the plan a timeline has just made always succeeds: the
    cursor moves by the plan's delta onto the planned step, every context
    shows the planned destination entry, and no step is lost. *)
Theorem commit_reaches_target (ids : Ids) (h : JointSessionHistory) (t : N)
    (p : SessionHistoryTraversalPlan) :
  joint_wf ids h → fits h → ids_room ids → plan_traversal h t = Ret (Some p) →
  ∃ ids' h', commit_traversal ids h p = Ret (ids', h', Some (delta p)) ∧
    Z.of_nat (current h') = (Z.of_nat (current h) + delta p)%Z ∧
    current_step h' = Ret t ∧ steps h' = steps h ∧
    ∀ c, entry h' c = Ret (target_entries p !! c).
Proof.
  intros Hh Hf [_ Hr] Hp. pose proof (plan_is_current ids h t p Hh Hf Hp) as Hcur.
  destruct (plan_Some ids h t p Hh Hf Hp) as (i & cur & dst & Hi & Hc & Hd & Ht & ->).
  unfold commit_traversal. rewrite Hcur. simpl. rewrite Hi.
  unfold allocate_revision. rewrite allocate_Ret by done. simpl.
  eexists _, _. split; [done |]. simpl. split; [lia |].
  unfold current_step, entry, current_record. simpl. rewrite Hd. simpl. by rewrite Ht.
Qed.

Lemma step_index_ids h h' t : id <$> steps h' = id <$> steps h → step_index h' t = step_index h t.
Proof.
  unfold step_index. destruct h as [r l c ps], h' as [r' l' c' ps']. simpl. clear.
  revert l'. induction l as [|s l IH]; intros [|s' l'] Hl; try discriminate; [done |].
  injection Hl as Hs Hl. simpl. rewrite Hs. destruct (decide (id s = t)); [done |].
  specialize (IH l' Hl). destruct (list_find _ l) as [[i x]|], (list_find _ l') as [[i' x']|];
    simpl in *; congruence.
Qed.

(** The entries a context shows at the cursor and at step [t], when they
    differ. *)
Definition difference (h : JointSessionHistory) (t c : N)
  : option (option SessionHistoryEntry * option SessionHistoryEntry) :=
  match steps h !! current h, entries_at h t with
  | Some cur, Some there =>
      if decide (entries cur !! c = there !! c) then None else Some (entries cur !! c, there !! c)
  | _, _ => None
  end.

(** Some call took a new revision. *)
Fixpoint moved (ks : list history_call) (st : Ids * JointSessionHistory) : Prop :=
  match ks with
  | [] => False
  | k :: ks => mutates k st ∨ ∃ st', history_step k st = Ret st' ∧ moved ks st'
  end.

(** A call that takes no revision keeps the cursor and the steps' order. *)
Lemma unmoved_step k ids h ids' h' :
  joint_wf ids h → ids_room ids → legal k (ids, h) → ¬ mutates k (ids, h) →
  history_step k (ids, h) = Ret (ids', h') →
  ids' = ids ∧ revision h' = revision h ∧ current h' = current h ∧ id <$> steps h' = id <$> steps h.
Proof.
  intros Hh Hroom Hl Hm. destruct k as [c par e|c e|c e|p| |c]; cbn [history_step].
  - destruct (attach_wf ids h c par e Hh) as (h1 & -> & _ & ? & ? & ?); [by intros p -> |].
    by intros [= <- <-].
  - by destruct Hm.
  - intros Hr. destruct (current_record_wf ids h Hh) as (s & _ & Hcur).
    assert (entry h c = Ret (entries s !! c)) as He by (unfold entry; by rewrite Hcur).
    unfold replace in Hr. rewrite He in Hr. simpl in Hr.
    destruct (decide (entries s !! c = Some e)) as [Hs|Hs]; [by injection Hr as <- <- |].
    destruct Hm. simpl. rewrite He. congruence.
  - destruct (commit_wf ids h p Hh Hroom) as (ids1 & h1 & o & E & _).
    rewrite E. intros [= <- <-]. unfold commit_traversal in E.
    destruct (is_traversal_plan_current h p) as [[]|] eqn:Ec; simpl in E; [| by injection E as <- <- _ | done].
    destruct (step_index h (target_step p)) as [i|] eqn:Ei; [| by injection E as <- <- _].
    destruct Hm. exists i. done.
  - intros Hr. unfold prune_all_but_current in Hr.
    destruct (Nat.eqb_spec (length (steps h)) 1); [by injection Hr as <- <- | by destruct Hm].
  - destruct (detach_wf ids h c Hh) as (h1 & -> & _ & ? & ? & ?). by intros [= <- <-].
Qed.

Lemma run_moved ks : ∀ ids h ids2 h2,
  joint_wf ids h → room_for (length ks) ids → all_legal ks (ids, h) →
  history_run ks (ids, h) = Ret (ids2, h2) →
  (moved ks (ids, h) → revision h < revision h2) ∧
  (¬ moved ks (ids, h) →
   ids2 = ids ∧ revision h2 = revision h ∧ current h2 = current h ∧ id <$> steps h2 = id <$> steps h).
Proof.
  induction ks as [|k ks IH]; intros ids h ids2 h2 Hh [Hr1 Hr2] Hl Hrun; cbn [history_run] in Hrun.
  { injection Hrun as <- <-. split; [by intros [] | done]. }
  destruct Hl as [Hk Hks]. cbn [length] in *.
  destruct (history_step_wf k ids h Hh) as (ids1 & h1 & Hs & Hw & Hn1 & Hn2 & Hle & Hlt);
    [split; lia | done |].
  rewrite Hs in Hrun. cbn [mbind run_bind] in Hrun.
  destruct (IH ids1 h1 ids2 h2 Hw) as [IH1 IH2]; [split; lia | by apply Hks | done |].
  destruct (history_run_wf ks ids1 h1 Hw) as (ids2' & h2' & Hrun' & _ & Hle' & _);
    [split; lia | by apply Hks |].
  rewrite Hrun in Hrun'. injection Hrun' as <- <-. split.
  - intros [Hm|(st' & Hs' & Hm)]; [specialize (Hlt Hm); lia |].
    rewrite Hs in Hs'. injection Hs' as <-. specialize (IH1 Hm). lia.
  - intros Hm. destruct (unmoved_step k ids h ids1 h1 Hh) as (-> & E1 & E2 & E3);
      [split; lia | done | by intros ?; apply Hm; left | done |].
    destruct IH2 as (-> & ? & ? & ?); [by intros ?; apply Hm; right; eexists |]. split_and!; congruence.
Qed.

(** Two diffs are equal exactly when every context differs in the same way. *)
Lemma diff_entries_iff s1 d1 s2 d2 :
  diff_entries s1 d1 = diff_entries s2 d2 ↔
  ∀ c, (if decide (s1 !! c = d1 !! c) then None else Some (s1 !! c, d1 !! c)) =
       (if decide (s2 !! c = d2 !! c) then None else Some (s2 !! c, d2 !! c)).
Proof.
  split.
  - intros E c.
    assert (∀ s d s' d', diff_entries s d = diff_entries s' d' → s !! c ≠ d !! c →
      s' !! c = s !! c ∧ d' !! c = d !! c) as Hin.
    { intros s d s' d' E' Hne.
      assert (mk_change c (s !! c) (d !! c) ∈ diff_entries s' d') as Hx by (rewrite <-E'; by apply elem_of_diff).
      apply elem_of_diff in Hx as (? & ? & _). by simpl in *. }
    pose proof (Hin s1 d1 s2 d2 E) as H1. pose proof (Hin s2 d2 s1 d1 (eq_sym E)) as H2.
    destruct (decide (s1 !! c = d1 !! c)), (decide (s2 !! c = d2 !! c)); try done.
    + destruct (H2 ltac:(done)). congruence.
    + destruct (H1 ltac:(done)). congruence.
    + destruct (H1 ltac:(done)) as [-> ->]. done.
  - intros H. apply diff_entries_eq; intros c Hne; specialize (H c).
    + rewrite (decide_False (P := s1 !! c = d1 !! c)) in H by done. by case_decide; simplify_eq.
    + rewrite (decide_False (P := s2 !! c = d2 !! c)) in H by done. by case_decide; simplify_eq.
Qed.

Lemma entries_at_step ids h i s :
  joint_wf ids h → steps h !! i = Some s → entries_at h (id s) = Some (entries s).
Proof.
  intros Hh Hs. pose proof (step_index_lookup ids h i s Hh Hs) as Hi. unfold entries_at. unfold step_index in Hi.
  apply fmap_Some in Hi as ([j x] & E & ->). rewrite E. simpl in *.
  apply list_find_Some in E as [E _]. congruence.
Qed.

(** With the revision, the cursor and the steps' order of the plan, the plan
    is current exactly when no difference has changed. *)
Lemma unmoved_current ids h ids2 h2 t p :
  joint_wf ids h → fits h → joint_wf ids2 h2 → plan_traversal h t = Ret (Some p) →
  revision h2 = revision h → current h2 = current h → id <$> steps h2 = id <$> steps h →
  ∃ b i, is_traversal_plan_current h2 p = Ret b ∧ step_index h2 (target_step p) = Some i ∧
    (b = true ↔ ∀ c, difference h2 t c = difference h t c).
Proof.
  intros Hh Hf Hh2 Hp Er Ec Es. destruct (plan_Some ids h t p Hh Hf Hp) as (i & cur & dst & Hi & Hcur & Hd & Ht & ->).
  assert (∀ j s, steps h !! j = Some s → ∃ s2, steps h2 !! j = Some s2 ∧ id s2 = id s) as Hstep.
  { intros j x Hj. assert ((id <$> steps h2) !! j = Some (id x)) as Hx by (rewrite Es, list_lookup_fmap, Hj; done).
    rewrite list_lookup_fmap in Hx. by apply fmap_Some in Hx as (s2 & ? & ?); exists s2. }
  destruct (Hstep _ _ Hcur) as (cur2 & Hcur2 & Eid). destruct (Hstep _ _ Hd) as (dst2 & Hd2 & Eid2).
  assert (fits h2) as Hf2 by (unfold fits in *; by rewrite <-(length_fmap id), Es, length_fmap).
  pose proof (step_index_ids h h2 t Es) as Hi2. rewrite Hi in Hi2.
  unfold is_traversal_plan_current, current_step, current_record. simpl. rewrite Er, decide_True by done.
  rewrite Ec, Hcur2. simpl. rewrite decide_True by done. rewrite (plan_result ids2 h2 t Hh2 Hf2), Hi2, Ec, Hcur2.
  simpl. rewrite Hd2. simpl. eexists _, i. split; [done |]. split; [done |].
  rewrite bool_decide_eq_true, diff_entries_iff. unfold difference. rewrite Ec, Hcur, Hcur2.
  pose proof (entries_at_step ids h i dst Hh Hd) as E1. pose proof (entries_at_step ids2 h2 i dst2 Hh2 Hd2) as E2.
  rewrite Eid2, Ht in E2. rewrite Ht in E1. rewrite E1, E2. done.
Qed.

(** C17: a plan is refused exactly when it is stale, whatever calls were made
    between planning and committing: when one of them took a new revision
    (pushed, replaced, pruned or traversed), or when the entries that differ
    between the cursor and the planned step are no longer the same ones,
    which is how attaching and detaching contexts shows.  A refused
    [commit_traversal] returns [None] and leaves the timeline and the
    counters as they were; any other moves the cursor onto the planned step
    and keeps the steps. *)
Theorem stale_plan_refused (ks : list history_call) (ids ids2 : Ids) (h h2 : JointSessionHistory) (t : N)
    (p : SessionHistoryTraversalPlan) :
  joint_wf ids h → fits h → plan_traversal h t = Ret (Some p) →
  room_for (S (length ks)) ids → all_legal ks (ids, h) →
  history_run ks (ids, h) = Ret (ids2, h2) →
  let stale := moved ks (ids, h) ∨ ∃ c, difference h2 t c ≠ difference h t c in
  (stale → commit_traversal ids2 h2 p = Ret (ids2, h2, None)) ∧
  (¬ stale → ∃ ids3 h3, commit_traversal ids2 h2 p = Ret (ids3, h3, Some (delta p)) ∧
     current_step h3 = Ret t ∧ steps h3 = steps h2).
Proof.
  intros Hh Hf Hp [Hr1 Hr2] Hl Hrun stale.
  destruct (history_run_wf ks ids h Hh) as (ids2' & h2' & Hrun' & Hw2 & _); [split; lia | done |].
  rewrite Hrun in Hrun'. injection Hrun' as <- <-.
  destruct (run_moved ks ids h ids2 h2 Hh) as [Hmoved Hsame]; [split; lia | done | done |].
  pose proof (plan_Some ids h t p Hh Hf Hp) as (i0 & cur & dst & _ & _ & _ & _ & Ep).
  assert (target_step p = t) as Et by (by rewrite Ep). split.
  - intros Hst. destruct (decide (revision h2 = revision h)) as [Er|Er].
    2: { apply stale_revision. rewrite Ep. exact Er. }
    assert (¬ moved ks (ids, h)) as Hm by (intros Hm%Hmoved; lia).
    destruct (Hsame Hm) as (_ & _ & Ec & Es). destruct Hst as [?|(c & Hc)]; [done |].
    destruct (unmoved_current ids h ids2 h2 t p Hh Hf Hw2 Hp Er Ec Es) as (b & i & Hb & _ & Hiff).
    unfold commit_traversal. rewrite Hb. simpl. destruct b; [| done].
    exfalso. apply Hc. by apply Hiff.
  - intros Hst. assert (¬ moved ks (ids, h)) as Hm by (intros Hm; apply Hst; by left).
    destruct (Hsame Hm) as (-> & Er & Ec & Es).
    destruct (unmoved_current ids h ids h2 t p Hh Hf Hw2 Hp Er Ec Es) as (b & i & Hb & Hi & Hiff).
    unfold commit_traversal. rewrite Hb.
    assert (b = true) as ->.
    { apply Hiff. intros c. destruct (decide (difference h2 t c = difference h t c)); [done |].
      destruct Hst. right. by exists c. }
    simpl. rewrite Hi. unfold allocate_revision. rewrite allocate_Ret by lia. simpl.
    eexists _, _. split; [done |]. simpl. split; [| done].
    destruct (step_index_Some h2 _ i Hi) as (s & Hs & Hid). unfold current_step, current_record. simpl.
    rewrite Hs. simpl. congruence.
Qed.

(** The changes of a plan are exactly the difference between the current
    and the destination step: each names a context whose entry differs, from
    its current entry to its destination entry, and applying them to the
    current step gives the complete destination projection. *)
Theorem plan_changes_exact (ids : Ids) (h : JointSessionHistory) (t : N)
    (p : SessionHistoryTraversalPlan) :
  joint_wf ids h → fits h → plan_traversal h t = Ret (Some p) →
  ∃ cur, current_record h = Ret cur ∧
    apply_changes (changes p) (entries cur) = target_entries p ∧
    entries_at h t = Some (target_entries p) ∧
    ∀ ch, ch ∈ changes p ↔ from ch = entries cur !! context ch ∧
      to ch = target_entries p !! context ch ∧ from ch ≠ to ch.
Proof.
  intros Hh Hf Hp. destruct (plan_Some ids h t p Hh Hf Hp) as (i & cur & dst & Hi & Hc & Hd & Ht & ->).
  exists cur. unfold current_record. rewrite Hc. split; [done |]. simpl.
  split; [apply apply_diff |]. split; [| intros ch; apply elem_of_diff].
  unfold entries_at. unfold step_index in Hi. apply fmap_Some in Hi as ([j s] & E & ->).
  rewrite E. simpl in *. apply list_find_Some in E as [E _]. congruence.
Qed.

(** [push] drops the forward history and appends one step: the cursor is
    on it, its entry for the pushed context is the new one, going back by one
    returns to the step that was current, and the entries of all contexts
    that do not descend from the pushed one are carried over. *)
Theorem push_then_back (ids : Ids) (h : JointSessionHistory) (c : N) (e : SessionHistoryEntry) :
  joint_wf ids h → fits h → ids_room ids →
  ∃ ids' h' s, push ids h c e = Ret (ids', h') ∧ current_step h = Ret s ∧
    position h' = mk_position (current h + 1) (current h + 2) ∧
    entry h' c = Ret (Some e) ∧
    step_by_delta h' (-1) = Ret (Some s) ∧
    ∀ x, x ≠ c → ¬ tc (link (parents h)) x c → entry h' x = entry h x.
Proof.
  intros Hh Hf Hroom. destruct (push_result ids h c e Hh Hroom) as (s & ds & Hs & Hp & Hds & Hnil).
  destruct (push_wf ids h c e Hh Hroom) as (ids' & h' & Hp' & Hw). rewrite Hp in Hp'.
  injection Hp' as <- <-. pose proof (jw_current _ _ Hh) as Hc.
  assert (Hlen : length (take (current h + 1) (steps h)) = (current h + 1)%nat)
    by (rewrite length_take; lia).
  eexists _, _, (id s). split; [exact Hp |]. unfold current_step, entry, current_record.
  rewrite Hs. cbn [fmap run_fmap expect]. split; [done |]. split.
  { unfold position. simpl. rewrite length_app, Hlen. simpl. f_equal. lia. }
  cbn [steps current]. rewrite lookup_app_r, Hlen by lia. rewrite Nat.sub_diag.
  cbn [lookup list_lookup fmap run_fmap expect entries]. split; [by rewrite lookup_insert_eq |].
  split.
  - unfold step_by_delta, current_step, current_record. cbn [steps current].
    rewrite lookup_app_r, Hlen by lia. rewrite Nat.sub_diag.
    cbn [lookup list_lookup fmap run_fmap expect]. f_equal. unfold fits in Hf.
    eapply (step_by_delta_index _ _ (current h + 1) (current h) _ s (-1) Hw); simpl; try lia.
    + rewrite lookup_app_r, Hlen by lia. by rewrite Nat.sub_diag.
    + rewrite lookup_app_l, lookup_take_lt by lia. done.
  - intros x Hx Hnt. rewrite lookup_insert_ne, retain_lookup by done. case_decide as Hin; [| done].
    exfalso. destruct (replaces_document (entries s) c e); [by apply Hnt, Hds | ].
    rewrite Hnil in Hin by done. set_solver.
Qed.

Lemma or_insert_lookup c e m x :
  or_insert c e m !! x = if decide (x = c) then Some (default e (m !! c)) else m !! x.
Proof.
  unfold or_insert. case_decide as Hx; [subst x |]; destruct (m !! c) eqn:E; simpl;
    rewrite ?lookup_insert_eq, ?lookup_insert_ne by done; done.
Qed.

(** Attaching a frame does not cancel an admitted traversal elsewhere: if
    the frame is attached below a context whose Document is the same at the
    current and at the planned step, and the planned step does not know the
    frame yet, the plan made before the attachment is still current. *)
Theorem attach_keeps_plan (ids : Ids) (h h' : JointSessionHistory) (t c q : N)
    (e pe : SessionHistoryEntry) (p : SessionHistoryTraversalPlan) :
  joint_wf ids h → fits h → plan_traversal h t = Ret (Some p) →
  ¬ rtc (link (parents h)) q c →
  entry h q = Ret (Some pe) → entry h c = Ret None →
  has_document (target_entries p !! q) (document pe) = true → target_entries p !! c = None →
  attach h c (Some q) e = Ret h' → is_traversal_plan_current h' p = Ret true.
Proof.
  intros Hh Hf Hp Hleg Hq Hc Hdoc Hdc Ha.
  destruct (plan_Some ids h t p Hh Hf Hp) as (i & cur & dst & Hi & Hcur & Hd & Ht & ->). simpl in *.
  destruct (attach_wf ids h c (Some q) e Hh) as (h1 & Ha1 & Hw & Hrev & Hcu & Hids); [naive_solver |].
  rewrite Ha in Ha1. injection Ha1 as <-.
  unfold entry, current_record in Hq, Hc. rewrite Hcur in Hq, Hc. simpl in Hq, Hc. inv_run.
  assert (Hlk : ∀ j s, steps h !! j = Some s → steps h' !! j = Some
    (if bool_decide (j = current h) || has_document (entries s !! q) (document pe)
     then mk_step (id s) (or_insert c e (entries s)) else s)).
  { intros j s Hj. unfold attach, entry, current_record in Ha. rewrite Hcur in Ha. simpl in Ha.
    rewrite Hc in Ha. simpl in Ha. rewrite Hq in Ha. simpl in Ha. injection Ha as <-.
    cbn [steps]. by rewrite list_lookup_imap, Hj. }
  pose proof (Hlk _ _ Hcur) as Hcur'. rewrite bool_decide_eq_true_2 in Hcur' by done. simpl in Hcur'.
  pose proof (Hlk _ _ Hd) as Hd'. rewrite Hdoc, orb_true_r in Hd'.
  assert (fits h') as Hf'.
  { unfold fits in *. by rewrite <-(length_fmap id), Hids, length_fmap. }
  unfold is_traversal_plan_current. simpl. rewrite Hrev, decide_True by done.
  unfold current_step, current_record. rewrite Hcu, Hcur'. simpl. rewrite decide_True by done.
  rewrite (plan_result ids h' _ Hw Hf'), (step_index_ids h h' _ Hids), Hi, Hcu, Hcur'. simpl.
  rewrite Hd'. simpl. rewrite bool_decide_eq_true_2; [done |].
  apply diff_entries_eq; intros x; rewrite !or_insert_lookup, Hc, Hdc; (case_decide; [| done]);
    subst x; intros Hne; exfalso; apply Hne; simpl; congruence.
Qed.

(** [step_for_entry] picks the step nearest to the cursor: a matching step
    at or before it with none in between, and only when there is none a
    matching step after it with none before; it returns [None] exactly when
    no step shows the entry. *)
Theorem step_for_entry_nearest (ids : Ids) (h : JointSessionHistory) (c : N) (k : text) :
  joint_wf ids h →
  ∃ o, step_for_entry h c k = Ret o ∧
  match o with
  | None => ∀ j s, steps h !! j = Some s → ¬ matches c k s
  | Some t => ∃ i s, steps h !! i = Some s ∧ id s = t ∧ matches c k s ∧
      ((i ≤ current h)%nat ∧
         (∀ j s', (i < j ≤ current h)%nat → steps h !! j = Some s' → ¬ matches c k s') ∨
       (current h < i)%nat ∧
         (∀ j s', (j < i)%nat → steps h !! j = Some s' → ¬ matches c k s'))
  end.
Proof.
  intros Hh. pose proof (jw_current _ _ Hh) as Hc. unfold step_for_entry.
  rewrite (proj2 (Nat.ltb_lt _ _) Hc). eexists. split; [done |].
  assert (Hlen : length (take (current h + 1) (steps h)) = (current h + 1)%nat)
    by (rewrite length_take; lia).
  assert (Hback : ∀ j, (j ≤ current h)%nat →
    reverse (take (current h + 1) (steps h)) !! (current h - j)%nat = steps h !! j).
  { intros j Hj. rewrite reverse_lookup by lia. rewrite Hlen.
    replace (current h + 1 - S (current h - j))%nat with j by lia. apply lookup_take_lt. lia. }
  destruct (list_find _ (reverse _)) as [[j s]|] eqn:E1; simpl.
  - apply list_find_Some in E1 as (Hs & Hm & Hno).
    assert (j < current h + 1)%nat as Hj by (apply lookup_lt_Some in Hs; rewrite length_reverse in Hs; lia).
    exists (current h - j)%nat, s. rewrite <-(Hback (current h - j)%nat) by lia.
    replace (current h - (current h - j))%nat with j by lia.
    split; [done |]. split; [done |]. split; [done |]. left. split; [lia |].
    intros j' s' Hj' Hs'. rewrite <-Hback in Hs' by lia. eapply Hno; [exact Hs' | lia].
  - apply list_find_None in E1.
    assert (Hnone : ∀ j s, (j ≤ current h)%nat → steps h !! j = Some s → ¬ matches c k s).
    { intros j s Hj Hs. rewrite <-Hback in Hs by done. eapply Forall_lookup_1 in E1; eauto. }
    destruct (list_find _ (drop _ _)) as [[j s]|] eqn:E2; simpl.
    + apply list_find_Some in E2 as (Hs & Hm & Hno). rewrite lookup_drop in Hs.
      exists (current h + 1 + j)%nat, s. split; [done |]. split; [done |]. split; [done |]. right.
      split; [lia |]. intros j' s' Hj' Hs'. destruct (decide (j' ≤ current h)%nat); [eauto |].
      apply (Hno (j' - (current h + 1))%nat); [| lia]. rewrite lookup_drop.
      by replace (current h + 1 + (j' - (current h + 1)))%nat with j' by lia.
    + apply list_find_None in E2. intros j s Hs. destruct (decide (j ≤ current h)%nat); [eauto |].
      eapply Forall_lookup_1 in E2; [done |]. instantiate (1 := (j - (current h + 1))%nat).
      rewrite lookup_drop. by replace (current h + 1 + (j - (current h + 1)))%nat with j by lia.
Qed.

(** On an acyclic context tree the worklist of [descendants] ends and
    returns every strict descendant of the context exactly once. *)
Theorem descendants_exact (h : JointSessionHistory) (c : N) :
  acyclic (parents h) →
  ∃ ds, descendants h c = Ret ds ∧ NoDup ds ∧ ∀ x, x ∈ ds ↔ tc (link (parents h)) x c.
Proof. apply descendants_spec. Qed.

(** ** Cyclic context links *)
Lemma cycle_diverges ps fuel found i :
  (∀ p, p ∈ found → p = 1 ∨ p = 2) → (i < length found)%nat →
  children ps 1 = [2] → children ps 2 = [1] →
  descendants_loop fuel ps found i = Panic.
Proof.
  revert found i. induction fuel as [|fuel IH]; intros found i Hf Hi H1 H2;
    destruct (lookup_lt_is_Some_2 found i Hi) as [p Hp]; simpl; rewrite Hp; [done |].
  destruct (Hf p) as [-> | ->]; [by eapply list_elem_of_lookup_2 | |]; rewrite ?H1, ?H2;
    apply IH; try done; try (rewrite length_app; simpl; lia); set_solver.
Qed.

(** [attach] accepts links that close a cycle of contexts, and on such a
    tree the worklist of [descendants] (run by [replace], [push] and [detach])
    never ends: it returns for no number of iterations. *)
Theorem attach_cycle_diverges (e : SessionHistoryEntry) :
  ∃ h0 h1 h2 ids, joint_new position_INITIAL (mk_ids 1 1) = Ret (ids, h0) ∧
    attach h0 1 (Some 2) e = Ret h1 ∧ attach h1 2 (Some 1) e = Ret h2 ∧
    ∀ fuel, descendants_loop fuel (parents h2) [1] 0 = Panic.
Proof.
  eexists _, _, _, _. split; [vm_compute; reflexivity |]. split; [reflexivity |].
  split; [reflexivity |]. intros fuel. apply cycle_diverges; [set_solver | simpl; lia | |];
    vm_compute; reflexivity.
Qed.

(** ** Concrete runs *)
Definition demo_entry (n d : N) : SessionHistoryEntry :=
  mk_entry (lit "key-" ++ show_u64 n) (lit "document-" ++ show_u64 d).

Lemma fresh_steps_ok n ids : next_step ids + N.of_nat n ≤ u64_max →
  ∃ l, fresh_steps n ids = Ret (mk_ids (next_step ids + N.of_nat n) (next_revision ids), l) ∧
    length l = n ∧ NoDup (id <$> l) ∧ ∀ s, s ∈ l → next_step ids ≤ id s < next_step ids + N.of_nat n.
Proof.
  revert ids. induction n as [|n IH]; intros ids Hr.
  { exists []. simpl. rewrite N.add_0_r. destruct ids. simpl.
    repeat split; [constructor | set_solver ..]. }
  destruct (IH (mk_ids (next_step ids + 1) (next_revision ids))) as (l & Hl & Hlen & Hn & Hb);
    [simpl; lia |].
  exists (mk_step (next_step ids) ∅ :: l). cbn [fresh_steps]. unfold allocate_step.
  rewrite allocate_Ret by lia. cbn [mbind run_bind fst snd]. rewrite Hl. simpl in *. split.
  { do 3 f_equal. lia. }
  split; [lia |]. split.
  - constructor; [| done]. intros (s & Hs & Hin)%list_elem_of_fmap.
    destruct (Hb s Hin). rewrite <-Hs in *. lia.
  - intros s [-> | Hin]%elem_of_cons; simpl; [lia |]. destruct (Hb s Hin). lia.
Qed.

Lemma joint_new_wf p ids : (index p < length_ p)%nat →
  next_revision ids < u64_max → next_step ids + N.of_nat (length_ p) ≤ u64_max →
  ∃ ids' h, joint_new p ids = Ret (ids', h) ∧ joint_wf ids' h.
Proof.
  intros Hi Hr Hs. unfold joint_new, allocate_revision. rewrite allocate_Ret by done. simpl.
  destruct (fresh_steps_ok (length_ p) (mk_ids (next_step ids) (next_revision ids + 1)))
    as (l & -> & Hlen & Hn & Hb); [done |].
  simpl. eexists _, _. split; [done |]. split; simpl; [lia | done | | lia |].
  - intros s Hin. destruct (Hb s Hin) as [_ Hb2]. exact Hb2.
  - intros c Hc. destruct Hc as [? ? Hl|? ? ? Hl _]; by apply lookup_empty_Some in Hl || discriminate Hl.
Qed.

Definition demo_calls : list history_call :=
  [Attach 0 None (demo_entry 1 1); Attach 5 (Some 0) (demo_entry 2 2); Push 0 (demo_entry 3 1)].

Definition demo_start : Ids * JointSessionHistory :=
  match joint_new position_INITIAL (mk_ids 1 1) with
  | Ret st => st
  | Panic => (mk_ids 0 0, mk_joint 0 [] 0 ∅)
  end.

Definition demo_timeline : Ids * JointSessionHistory :=
  match history_run demo_calls demo_start with Ret st => st | Panic => demo_start end.

Lemma demo_start_wf : joint_wf demo_start.1 demo_start.2.
Proof.
  destruct (joint_new_wf position_INITIAL (mk_ids 1 1)) as (ids & h & Hn & Hw);
    [vm_compute; lia | done .. |].
  unfold demo_start. by rewrite Hn.
Qed.

Lemma no_link_from_root ps c : ps !! 0 = None → rtc (link ps) 0 c → c = 0.
Proof. intros H0 Hr. inversion Hr as [|? y ? Hl]; subst; [done |]. unfold link in Hl. congruence. Qed.

Lemma demo_calls_legal : all_legal demo_calls demo_start.
Proof.
  split; [done |]. intros st1 H1. vm_compute in H1. injection H1 as <-. split.
  { intros Hr%no_link_from_root; [discriminate Hr | reflexivity]. }
  intros st2 H2. split; [done |]. intros st3 H3. done.
Qed.

Lemma demo_timeline_wf : joint_wf demo_timeline.1 demo_timeline.2.
Proof.
  destruct (history_run_wf demo_calls demo_start.1 demo_start.2 demo_start_wf) as
    (ids & h & Hr & Hw & _); [split; vm_compute; discriminate | exact demo_calls_legal |].
  unfold demo_timeline. rewrite (surjective_pairing demo_start), Hr. exact Hw.
Qed.

Definition demo_plan : SessionHistoryTraversalPlan :=
  mk_plan 2 2 1 (-1) [mk_change 0 (Some (demo_entry 3 1)) (Some (demo_entry 1 1))]
    (<[0 := demo_entry 1 1]> {[5 := demo_entry 2 2]}).

Lemma demo_plan_made : plan_traversal demo_timeline.2 1 = Ret (Some demo_plan).
Proof. vm_compute. reflexivity. Qed.

Lemma timeline_calls_safe_witness :
  ∃ ids' h', history_run demo_calls (demo_start.1, demo_start.2) = Ret (ids', h') ∧ joint_wf ids' h'.
Proof.
  destruct (timeline_calls_safe demo_calls demo_start.1 demo_start.2 demo_start_wf)
    as (ids' & h' & H1 & H2 & _);
    [split; vm_compute; discriminate | exact demo_calls_legal |]. eauto.
Defined.

Lemma commit_reaches_target_witness :
  ∃ ids' h', commit_traversal demo_timeline.1 demo_timeline.2 demo_plan = Ret (ids', h', Some (-1)%Z) ∧
    current_step h' = Ret 1.
Proof.
  destruct (commit_reaches_target demo_timeline.1 demo_timeline.2 1 demo_plan demo_timeline_wf)
    as (ids' & h' & H1 & _ & H2 & _);
    [vm_compute; discriminate | split; vm_compute; reflexivity | exact demo_plan_made |]. eauto.
Defined.

(** Detaching the page's own context leaves nothing that differs; pushing takes
    a revision; a frame attached below the common Document changes nothing. *)
Lemma stale_plan_refused_witness :
  (∃ ids2 h2, history_run [Detach 0] demo_timeline = Ret (ids2, h2) ∧
     commit_traversal ids2 h2 demo_plan = Ret (ids2, h2, None)) ∧
  (∃ ids2 h2, history_run [Detach 5; Push 0 (demo_entry 4 1)] demo_timeline = Ret (ids2, h2) ∧
     commit_traversal ids2 h2 demo_plan = Ret (ids2, h2, None)).
Proof.
  split; eexists _, _; (split; [vm_compute; reflexivity |]).
  - eapply (stale_plan_refused [Detach 0] demo_timeline.1 _ demo_timeline.2 _ 1 demo_plan demo_timeline_wf).
    + vm_compute. discriminate.
    + exact demo_plan_made.
    + split; vm_compute; discriminate.
    + split; done.
    + vm_compute. reflexivity.
    + right. exists 0. vm_compute. discriminate.
  - eapply (stale_plan_refused [Detach 5; Push 0 (demo_entry 4 1)] demo_timeline.1 _ demo_timeline.2 _ 1
      demo_plan demo_timeline_wf).
    + vm_compute. discriminate.
    + exact demo_plan_made.
    + split; vm_compute; discriminate.
    + split; [done |]. intros st1 _. split; done.
    + vm_compute. reflexivity.
    + left. right. eexists. split; [vm_compute; reflexivity |]. by left.
Defined.

Lemma plan_changes_exact_witness :
  ∃ cur, current_record demo_timeline.2 = Ret cur ∧
    apply_changes (changes demo_plan) (entries cur) = target_entries demo_plan.
Proof.
  destruct (plan_changes_exact demo_timeline.1 demo_timeline.2 1 demo_plan demo_timeline_wf)
    as (cur & H1 & H2 & _); [vm_compute; discriminate | exact demo_plan_made |]. eauto.
Defined.

Lemma push_then_back_witness :
  ∃ ids' h' s, push demo_timeline.1 demo_timeline.2 0 (demo_entry 9 1) = Ret (ids', h') ∧
    step_by_delta h' (-1) = Ret (Some s).
Proof.
  destruct (push_then_back demo_timeline.1 demo_timeline.2 0 (demo_entry 9 1) demo_timeline_wf)
    as (ids' & h' & s & H1 & _ & _ & _ & H2 & _);
    [vm_compute; discriminate | split; vm_compute; reflexivity |]. eauto.
Defined.

Lemma attach_keeps_plan_witness :
  ∃ h', attach demo_timeline.2 7 (Some 0) (demo_entry 8 8) = Ret h' ∧
    is_traversal_plan_current h' demo_plan = Ret true.
Proof.
  eexists. split; [vm_compute; reflexivity |].
  eapply (attach_keeps_plan demo_timeline.1 demo_timeline.2 _ 1 7 0 (demo_entry 8 8)
    (demo_entry 3 1) demo_plan demo_timeline_wf).
  - vm_compute. discriminate.
  - exact demo_plan_made.
  - intros Hr%no_link_from_root; [discriminate Hr | reflexivity].
  - vm_compute. reflexivity.
  - vm_compute. reflexivity.
  - vm_compute. reflexivity.
  - vm_compute. reflexivity.
  - vm_compute. reflexivity.
Defined.

Lemma step_for_entry_nearest_witness :
  ∃ o, step_for_entry demo_timeline.2 5 (key (demo_entry 2 2)) = Ret o ∧ o = Some 2.
Proof.
  destruct (step_for_entry_nearest demo_timeline.1 demo_timeline.2 5 (key (demo_entry 2 2))
    demo_timeline_wf) as (o & Ho & _). exists o. split; [exact Ho |].
  vm_compute in Ho. by injection Ho as <-.
Defined.

Lemma descendants_exact_witness :
  ∃ ds, descendants demo_timeline.2 0 = Ret ds ∧ NoDup ds ∧ ds = [5].
Proof.
  destruct (descendants_exact demo_timeline.2 0) as (ds & Hd & Hn & _).
  { exact (jw_acyclic _ _ demo_timeline_wf). }
  exists ds. split; [exact Hd |]. split; [exact Hn |]. vm_compute in Hd. by injection Hd as <-.
Defined.
