(* ===== verification/DiskPool.v ===== *)
(** * Single-file disk pool (moli-disk-pool)

    [AllocationState] with its two free-space indexes (allocation.rs), the
    file loops over partial and interrupted transfers (file.rs), the pool
    operations (pool.rs) and the two owning handles with their destructors
    (reservation.rs, data.rs).  The debug build is modelled: a failed
    [debug_assert!] is a panic.  The operating system answers each positioned
    read or write from a script of [io_response]s. *)

From S2P Require Import Prelude.
From Stdlib Require Import Strings.Byte.

#[local] Open Scope N_scope.

Notation byte := Byte.byte.

(** ** allocation.rs *)
Record Extent := mk_extent { offset : N; len : N }.

#[global] Instance Extent_eq_dec : EqDecision Extent.
Proof. solve_decision. Defined.

Record AllocationState := mk_alloc {
  may_write : bool;
  file_tail : N;
  free_chunks_by_offset : gmap N N;
  free_chunks_by_size : gset (N * N);
  free_bytes : N
}.

Definition debug_assert (b : bool) : run unit := if b then Ret tt else Panic.

Definition insert_free_chunk (s : AllocationState) (e : Extent) : run AllocationState :=
  _ ← debug_assert (bool_decide (free_chunks_by_offset s !! offset e = None));
  _ ← debug_assert (bool_decide ((len e, offset e) ∉ free_chunks_by_size s));
  Ret (mk_alloc (may_write s) (file_tail s)
         (<[offset e := len e]> (free_chunks_by_offset s))
         ({[(len e, offset e)]} ∪ free_chunks_by_size s)
         (free_bytes s)).

Definition remove_free_chunk (s : AllocationState) (e : Extent) : run AllocationState :=
  _ ← debug_assert (bool_decide (free_chunks_by_offset s !! offset e = Some (len e)));
  _ ← debug_assert (bool_decide ((len e, offset e) ∈ free_chunks_by_size s));
  Ret (mk_alloc (may_write s) (file_tail s)
         (delete (offset e) (free_chunks_by_offset s))
         (free_chunks_by_size s ∖ {[(len e, offset e)]})
         (free_bytes s)).

Definition set_free_bytes (s : AllocationState) (n : N) : AllocationState :=
  mk_alloc (may_write s) (file_tail s) (free_chunks_by_offset s) (free_chunks_by_size s) n.

(** [free_chunks_by_size.range((size, 0)..=(size, u64::MAX)).next()] *)
Definition first_of_size (s : AllocationState) (size : N) : option (N * N) :=
  min_by snd (filter (λ p, p.1 = size ∧ p.2 ≤ u64_max) (elements (free_chunks_by_size s))).

(** [free_chunks_by_size.last()]; only its size is used. *)
Definition largest_chunk (s : AllocationState) : option (N * N) :=
  max_by fst (elements (free_chunks_by_size s)).

(** The [if let Some(exact_fit)] expression of [find_free_chunk]: [Ret None]
    is its early [return None]. *)
Definition choose_chunk (s : AllocationState) (size : N) : run (option (N * N)) :=
  match first_of_size s size with
  | Some exact_fit => Ret (Some exact_fit)
  | None =>
      match largest_chunk s with
      | None => Ret None
      | Some (largest_size, _) =>
          if largest_size <=? size then Ret None
          else Some <$> expect (first_of_size s largest_size)
      end
  end.

Definition find_free_chunk (s : AllocationState) (size : N)
    : run (AllocationState * option Extent) :=
  choice ← choose_chunk s size;
  match choice with
  | None => Ret (s, None)
  | Some (chunk_size, off) =>
      remainder_offset ← add64 off size;
      s1 ← remove_free_chunk s (mk_extent off chunk_size);
      left ← sub64 (free_bytes s1) size;
      let s2 := set_free_bytes s1 left in
      if size <? chunk_size then
        s3 ← insert_free_chunk s2 (mk_extent remainder_offset (chunk_size - size));
        Ret (s3, Some (mk_extent off size))
      else Ret (s2, Some (mk_extent off chunk_size))
  end.

(** [free_chunks_by_offset.range(..o).next_back()] and [.range(o..).next()] *)
Definition left_neighbour (s : AllocationState) (o : N) : option (N * N) :=
  max_by fst (filter (λ p, p.1 < o) (map_to_list (free_chunks_by_offset s))).

Definition right_neighbour (s : AllocationState) (o : N) : option (N * N) :=
  min_by fst (filter (λ p, o ≤ p.1) (map_to_list (free_chunks_by_offset s))).

Definition merge_left (s : AllocationState) (merged : Extent) : run (AllocationState * Extent) :=
  match left_neighbour s (offset merged) with
  | None => Ret (s, merged)
  | Some (left_offset, left_len) =>
      left_end ← add64 left_offset left_len;
      _ ← debug_assert (left_end <=? offset merged);
      if left_end =? offset merged then
        s1 ← remove_free_chunk s (mk_extent left_offset left_len);
        n ← add64 (len merged) left_len;
        Ret (s1, mk_extent left_offset n)
      else Ret (s, merged)
  end.

Definition merge_right (s : AllocationState) (merged : Extent) : run (AllocationState * Extent) :=
  match right_neighbour s (offset merged) with
  | None => Ret (s, merged)
  | Some (right_offset, right_len) =>
      merged_end ← add64 (offset merged) (len merged);
      _ ← debug_assert (merged_end <=? right_offset);
      if merged_end =? right_offset then
        s1 ← remove_free_chunk s (mk_extent right_offset right_len);
        n ← add64 (len merged) right_len;
        Ret (s1, mk_extent (offset merged) n)
      else Ret (s, merged)
  end.

Definition release_chunk (s : AllocationState) (e : Extent) : run AllocationState :=
  '(s1, m1) ← merge_left s e;
  '(s2, m2) ← merge_right s1 m1;
  s3 ← insert_free_chunk s2 m2;
  n ← add64 (free_bytes s3) (len e);
  Ret (set_free_bytes s3 n).

(** ** file.rs

    The backing file and the operating system.  A script of responses decides
    how much each positioned read or write transfers (never more than asked
    for, and for a read never past the end of the file), whether it is
    interrupted or fails; past its end every transfer is complete. *)
Inductive io_error := InvalidInput | WriteZero | UnexpectedEof | OsError (code : N).

Inductive io_result (A : Type) := Ok (a : A) | Err (e : io_error).
Arguments Ok {A} a.
Arguments Err {A} e.

Inductive io_response := Transferred (n : N) | Interrupted | Failed (code : N).

Definition next_response (os : list io_response) : io_response * list io_response :=
  match os with [] => (Transferred u64_max, []) | r :: os => (r, os) end.

Record PoolFile := mk_file { content : gmap N byte; file_len : N }.

Definition file_new : PoolFile := mk_file ∅ 0.

Fixpoint insert_bytes (m : gmap N byte) (off : N) (data : list byte) : gmap N byte :=
  match data with [] => m | b :: data => <[off := b]> (insert_bytes m (off + 1) data) end.

(** A hole left by a write past the end of the file reads as zeros. *)
Definition read_bytes (f : PoolFile) (off : N) (n : nat) : list byte :=
  (λ i, default x00 (content f !! (off + N.of_nat i))) <$> seq 0 n.

Definition data_len (data : list byte) : N := N.of_nat (length data).

Definition write_at (f : PoolFile) (r : io_response) (data : list byte) (off : N)
    : PoolFile * io_response :=
  match r with
  | Transferred n =>
      let written := N.min n (data_len data) in
      (mk_file (insert_bytes (content f) off (take (N.to_nat written) data))
         (if written =? 0 then file_len f else N.max (file_len f) (off + written)),
       Transferred written)
  | r => (f, r)
  end.

Definition read_at (f : PoolFile) (r : io_response) (want : nat) (off : N)
    : list byte * io_response :=
  match r with
  | Transferred n =>
      let read := N.min (N.min n (N.of_nat want)) (file_len f - off) in
      (read_bytes f off (N.to_nat read), Transferred read)
  | r => ([], r)
  end.

Fixpoint write_all_at (fuel : nat) (f : PoolFile) (os : list io_response)
    (data : list byte) (off : N) : option (PoolFile * list io_response * io_result unit) :=
  match fuel with
  | 0%nat => None
  | S fuel =>
      match data with
      | [] => Some (f, os, Ok tt)
      | _ =>
          let '(r, os) := next_response os in
          match write_at f r data off with
          | (f, Transferred 0) => Some (f, os, Err WriteZero)
          | (f, Transferred written) =>
              match checked_add64 off written with
              | None => Some (f, os, Err InvalidInput)
              | Some off => write_all_at fuel f os (drop (N.to_nat written) data) off
              end
          | (f, Interrupted) => write_all_at fuel f os data off
          | (f, Failed code) => Some (f, os, Err (OsError code))
          end
      end
  end.

(** The bytes read so far accumulate in [acc], the part of the caller's
    buffer already filled. *)
Fixpoint read_exact_at (fuel : nat) (f : PoolFile) (os : list io_response)
    (acc : list byte) (want : nat) (off : N) : option (list io_response * io_result (list byte)) :=
  match fuel with
  | 0%nat => None
  | S fuel =>
      match want with
      | 0%nat => Some (os, Ok acc)
      | _ =>
          let '(r, os) := next_response os in
          match read_at f r want off with
          | (_, Transferred 0) => Some (os, Err UnexpectedEof)
          | (bs, Transferred read) =>
              match checked_add64 off read with
              | None => Some (os, Err InvalidInput)
              | Some off => read_exact_at fuel f os (acc ++ bs) (want - N.to_nat read) off
              end
          | (_, Interrupted) => read_exact_at fuel f os acc want off
          | (_, Failed code) => Some (os, Err (OsError code))
          end
      end
  end.

(** Each iteration consumes a response of the script or transfers a byte. *)
Definition loop_fuel (os : list io_response) (bytes_left : nat) : nat :=
  S (length os + bytes_left).

(** ** pool.rs, reservation.rs, data.rs

    A [DiskPool] is an [Arc] to its shared state: the pools live in a store
    and a handle names its pool, so that two clones share one allocator. *)
Record DiskPoolInner := mk_inner {
  file : PoolFile;
  max_capacity : option N;
  state : AllocationState
}.

Notation DiskPool := N (only parsing).

Record World := mk_world { pools : gmap N DiskPoolInner; os : list io_response }.

Record ReservedChunk := mk_reserved { chunk_pool : DiskPool; chunk_extent : option Extent }.
Record DiskData := mk_data { data_pool : DiskPool; data_extent : Extent }.

Record DiskPoolDiagnostics := mk_diagnostics {
  diag_may_write : bool;
  disk_footprint_bytes : N;
  diag_free_bytes : N;
  free_chunk_count : nat
}.

Definition alloc_default : AllocationState := mk_alloc false 0 ∅ ∅ 0.

Definition set_may_write (s : AllocationState) (b : bool) : AllocationState :=
  mk_alloc b (file_tail s) (free_chunks_by_offset s) (free_chunks_by_size s) (free_bytes s).

Definition set_state (i : DiskPoolInner) (s : AllocationState) : DiskPoolInner :=
  mk_inner (file i) (max_capacity i) s.

Definition set_file (i : DiskPoolInner) (f : PoolFile) : DiskPoolInner :=
  mk_inner f (max_capacity i) (state i).

Definition set_pool (w : World) (p : DiskPool) (i : DiskPoolInner) : World :=
  mk_world (<[p := i]> (pools w)) (os w).

(** [DiskPool::new] for the new pool [p]; creating the temporary file takes
    one response. *)
Definition pool_new (w : World) (p : DiskPool) (cap : option N) : World * io_result DiskPool :=
  let '(r, os) := next_response (os w) in
  match r with
  | Failed code => (mk_world (pools w) os, Err (OsError code))
  | _ => (mk_world (<[p := mk_inner file_new cap (set_may_write alloc_default true)]> (pools w)) os,
          Ok p)
  end.

Definition pool_may_write (w : World) (p : DiskPool) : run bool :=
  i ← expect (pools w !! p); Ret (may_write (state i)).

(** The growth closure of [try_reserve_chunk]. *)
Definition grow (i : DiskPoolInner) (size : N) : option (AllocationState * Extent) :=
  let s := state i in
  new_tail ← checked_add64 (file_tail s) size;
  if match max_capacity i with Some capacity => capacity <? new_tail | None => false end
  then None
  else Some (mk_alloc (may_write s) new_tail (free_chunks_by_offset s)
               (free_chunks_by_size s) (free_bytes s),
             mk_extent (file_tail s) size).

Definition try_reserve_chunk (w : World) (p : DiskPool) (size : N)
    : run (World * option ReservedChunk) :=
  if size =? 0 then Ret (w, None)
  else
    i ← expect (pools w !! p);
    if negb (may_write (state i)) then Ret (w, None)
    else
      '(s, found) ← find_free_chunk (state i) size;
      match found with
      | Some e => Ret (set_pool w p (set_state i s), Some (mk_reserved p (Some e)))
      | None =>
          match grow (set_state i s) size with
          | Some (s, e) => Ret (set_pool w p (set_state i s), Some (mk_reserved p (Some e)))
          | None => Ret (set_pool w p (set_state i s), None)
          end
      end.

Definition release (w : World) (p : DiskPool) (e : Extent) : run World :=
  i ← expect (pools w !! p);
  s ← release_chunk (state i) e;
  Ret (set_pool w p (set_state i s)).

(** [Arc::ptr_eq] *)
Definition belongs_to (c : ReservedChunk) (p : DiskPool) : bool := chunk_pool c =? p.

Definition take_extent (c : ReservedChunk) : run (Extent * ReservedChunk) :=
  e ← expect (chunk_extent c); Ret (e, mk_reserved (chunk_pool c) None).

Definition chunk_offset (c : ReservedChunk) : N := from_option offset 0 (chunk_extent c).
Definition chunk_len (c : ReservedChunk) : N := from_option len 0 (chunk_extent c).
Definition chunk_is_empty (c : ReservedChunk) : bool := chunk_len c =? 0.

Definition drop_reserved (w : World) (c : ReservedChunk) : run World :=
  match chunk_extent c with
  | Some e => release w (chunk_pool c) e
  | None => Ret w
  end.

Definition drop_data (w : World) (d : DiskData) : run World :=
  release w (data_pool d) (data_extent d).

(** [DiskPool::write] consumes the chunk, whose destructor runs on every
    return. *)
Definition write (w : World) (p : DiskPool) (c : ReservedChunk) (data : list byte)
    : run (World * io_result DiskData) :=
  if negb (belongs_to c p) then
    w ← drop_reserved w c; Ret (w, Err InvalidInput)
  else
    '(e, c) ← take_extent c;
    if negb (len e =? data_len data) then
      w ← release w p e;
      w ← drop_reserved w c; Ret (w, Err InvalidInput)
    else
      i ← expect (pools w !! p);
      '(f, os', r) ← expect (write_all_at (loop_fuel (os w) (length data)) (file i) (os w) data (offset e));
      let i := set_file i f in
      match r with
      | Err error =>
          s ← release_chunk (state i) e;
          let w := mk_world (<[p := set_state i (set_may_write s false)]> (pools w)) os' in
          w ← drop_reserved w c; Ret (w, Err error)
      | Ok _ =>
          let w := mk_world (<[p := i]> (pools w)) os' in
          w ← drop_reserved w c; Ret (w, Ok (mk_data p e))
      end.

Definition store (w : World) (p : DiskPool) (data : list byte)
    : run (World * io_result (option DiskData)) :=
  '(w, chunk) ← try_reserve_chunk w p (data_len data);
  match chunk with
  | None => Ret (w, Ok None)
  | Some c =>
      '(w, r) ← write w p c data;
      Ret (w, match r with Ok d => Ok (Some d) | Err e => Err e end)
  end.

Definition diagnostics (w : World) (p : DiskPool) : run DiskPoolDiagnostics :=
  i ← expect (pools w !! p);
  Ret (mk_diagnostics (may_write (state i)) (file_tail (state i)) (free_bytes (state i))
         (size (free_chunks_by_offset (state i)))).

Definition read_exact_file_at (w : World) (p : DiskPool) (want : nat) (off : N)
    : run (World * io_result (list byte)) :=
  i ← expect (pools w !! p);
  '(os', r) ← expect (read_exact_at (loop_fuel (os w) want) (file i) (os w) [] want off);
  Ret (mk_world (pools w) os', r).

(** [DiskData::read_exact_at]; [want] is the length of the caller's buffer. *)
Definition data_read_exact_at (w : World) (d : DiskData) (off : N) (want : nat)
    : run (World * io_result (list byte)) :=
  match checked_add64 off (N.of_nat want) with
  | None => Ret (w, Err InvalidInput)
  | Some end_off =>
      if len (data_extent d) <? end_off then Ret (w, Err InvalidInput)
      else
        match checked_add64 (offset (data_extent d)) off with
        | None => Ret (w, Err InvalidInput)
        | Some absolute_offset => read_exact_file_at w (data_pool d) want absolute_offset
        end
  end.

Definition to_vec (w : World) (d : DiskData) : run (World * io_result (list byte)) :=
  data_read_exact_at w d 0 (N.to_nat (len (data_extent d))).

(** [DiskData::write_to] streams the extent through a 64 KiB buffer into the
    caller's [Write] object. *)
Section write_to.
Context {W : Type} (writer_write_all : W → list byte → W * io_result unit).

Definition buffer_len : N := 64 * 1024.

Fixpoint write_to_loop (fuel : nat) (w : World) (d : DiskData) (writer : W) (off : N)
    : run (World * W * io_result unit) :=
  match fuel with
  | 0%nat => Panic
  | S fuel =>
      if off <? len (data_extent d) then
        let n := N.min buffer_len (len (data_extent d) - off) in
        '(w, r) ← data_read_exact_at w d off (N.to_nat n);
        match r with
        | Err e => Ret (w, writer, Err e)
        | Ok bs =>
            match writer_write_all writer bs with
            | (writer, Err e) => Ret (w, writer, Err e)
            | (writer, Ok _) => off ← add64 off n; write_to_loop fuel w d writer off
            end
        end
      else Ret (w, writer, Ok tt)
  end.

(** Every iteration but the last advances by at least one byte. *)
Definition write_to (w : World) (d : DiskData) (writer : W) : run (World * W * io_result unit) :=
  write_to_loop (S (N.to_nat (len (data_extent d)))) w d writer 0.
End write_to.

(** ** Clients: histories of calls over owned handles

    A client owns handles and may only use those it still owns (Rust moves a
    [ReservedChunk] into [write] and runs the destructor of a dropped
    handle).  A call on a handle or pool the client does not own cannot be
    written in Rust and does nothing here. *)
Inductive handle := HReserved (c : ReservedChunk) | HData (d : DiskData).

Record Machine := mk_machine {
  world : World;
  handles : gmap N handle;
  next_handle : N
}.

Definition machine_new (script : list io_response) : Machine :=
  mk_machine (mk_world ∅ script) ∅ 0.

Inductive pool_call :=
| CNew (cap : option N)
| CReserve (p : DiskPool) (size : N)
| CWrite (p : DiskPool) (h : N) (data : list byte)
| CStore (p : DiskPool) (data : list byte)
| CRead (h : N) (off : N) (want : nat)
| CDrop (h : N).

Definition give (m : Machine) (h : option handle) : gmap N handle :=
  match h with Some h => <[next_handle m := h]> (handles m) | None => handles m end.

Definition machine_step (m : Machine) (c : pool_call) : run Machine :=
  let w := world m in
  let next := next_handle m + 1 in
  match c with
  | CNew cap => Ret (mk_machine (pool_new w (next_handle m) cap).1 (handles m) next)
  | CReserve p size =>
      match pools w !! p with
      | None => Ret m
      | Some _ =>
          '(w, c) ← try_reserve_chunk w p size;
          Ret (mk_machine w (give m (HReserved <$> c)) next)
      end
  | CWrite p h data =>
      match handles m !! h with
      | Some (HReserved c) =>
          '(w, r) ← write w p c data;
          Ret (mk_machine w (delete h (give m (match r with Ok d => Some (HData d) | Err _ => None end)))
                 next)
      | _ => Ret m
      end
  | CStore p data =>
      match pools w !! p with
      | None => Ret m
      | Some _ =>
          '(w, r) ← store w p data;
          Ret (mk_machine w (give m (match r with Ok (Some d) => Some (HData d) | _ => None end)) next)
      end
  | CRead h off want =>
      match handles m !! h with
      | Some (HData d) =>
          '(w, _) ← data_read_exact_at w d off want;
          Ret (mk_machine w (handles m) next)
      | _ => Ret m
      end
  | CDrop h =>
      match handles m !! h with
      | Some (HReserved c) => w ← drop_reserved w c; Ret (mk_machine w (delete h (handles m)) next)
      | Some (HData d) => w ← drop_data w d; Ret (mk_machine w (delete h (handles m)) next)
      | None => Ret m
      end
  end.

Fixpoint machine_run (m : Machine) (cs : list pool_call) : run Machine :=
  match cs with
  | [] => Ret m
  | c :: cs => m ← machine_step m c; machine_run m cs
  end.

(** The extents of pool [p] owned by outstanding handles. *)
Definition handle_extent (h : handle) : option (DiskPool * Extent) :=
  match h with
  | HReserved c => (λ e, (chunk_pool c, e)) <$> chunk_extent c
  | HData d => Some (data_pool d, data_extent d)
  end.

Definition contrib (p : DiskPool) (h : handle) : list Extent :=
  match handle_extent h with
  | Some (q, e) => if decide (q = p) then [e] else []
  | None => []
  end.

Definition live (hs : gmap N handle) (p : DiskPool) : list Extent :=
  map_to_list hs ≫= λ kh, contrib p kh.2.

(** ** The layout of the file

    Free chunks and the extents of the outstanding handles partition the
    file.  [apart] says no two of them overlap; with their lengths summing to
    [file_tail] no byte is lost either. *)
Definition end_ (e : Extent) : N := offset e + len e.

Definition separate (e f : Extent) : Prop := end_ e ≤ offset f ∨ end_ f ≤ offset e.

#[global] Instance separate_sym : Symmetric separate.
Proof. intros e f [H|H]; [right | left]; done. Qed.

Fixpoint apart (l : list Extent) : Prop :=
  match l with [] => True | e :: l => Forall (separate e) l ∧ apart l end.

Definition bytes (l : list Extent) : N := Nsum len l.

Record laid_out (tail : N) (l : list Extent) : Prop := {
  lo_apart : apart l;
  lo_pos : Forall (λ e, 0 < len e ∧ end_ e ≤ tail) l;
  lo_sum : bytes l = tail
}.

Definition free_extents (s : AllocationState) : list Extent :=
  (λ p : N * N, mk_extent p.1 p.2) <$> map_to_list (free_chunks_by_offset s).

(** Adjacent free chunks are merged. *)
Definition coalesced (l : list Extent) : Prop :=
  ∀ x y, x ∈ l → y ∈ l → end_ x ≠ offset y.

Record index_ok (s : AllocationState) : Prop := {
  ix_size : ∀ n o, (n, o) ∈ free_chunks_by_size s ↔ free_chunks_by_offset s !! o = Some n;
  ix_bytes : free_bytes s = bytes (free_extents s)
}.

(** Representation invariant of the allocator with outstanding extents [live]. *)
Record alloc_inv (s : AllocationState) (live : list Extent) : Prop := {
  ai_index : index_ok s;
  ai_layout : laid_out (file_tail s) (free_extents s ++ live);
  ai_coalesced : coalesced (free_extents s);
  ai_tail : file_tail s ≤ u64_max
}.

#[global] Instance apart_Permutation : Proper ((≡ₚ) ==> iff) apart.
Proof.
  intros l k Hp. induction Hp as [|x l k Hp IH|x y l|]; simpl; [done | | |].
  - by rewrite IH, Hp.
  - rewrite !Forall_cons. split; intros ([? ?] & ? & ?); split_and!; try done; by symmetry.
  - by rewrite IHHp1.
Qed.

#[global] Instance laid_out_Permutation tail : Proper ((≡ₚ) ==> iff) (laid_out tail).
Proof.
  intros l k Hp. split; intros []; split; unfold bytes in *;
    first [by rewrite <-Hp | by rewrite Hp].
Qed.

Lemma apart_two x y l : apart (x :: y :: l) → separate x y.
Proof. simpl. rewrite Forall_cons. naive_solver. Qed.

Lemma apart_elem l x y : apart l → x ∈ l → y ∈ l → x = y ∨ separate x y.
Proof.
  induction l as [|z l IH]; [set_solver |]. intros [Hz Hl].
  rewrite !elem_of_cons. rewrite Forall_forall in Hz.
  intros [->|Hx] [->|Hy]; auto. right. symmetry. auto.
Qed.

Lemma elem_of_free_extents s e :
  e ∈ free_extents s ↔ free_chunks_by_offset s !! offset e = Some (len e).
Proof.
  unfold free_extents. rewrite list_elem_of_fmap. split.
  - intros ([o n] & -> & H). by apply elem_of_map_to_list in H.
  - intros H. exists (offset e, len e). rewrite elem_of_map_to_list. by destruct e.
Qed.

(** Joining two adjacent extents, or splitting one, keeps a layout. *)
Lemma laid_out_join tail x y l :
  end_ x = offset y →
  laid_out tail (x :: y :: l) ↔
  0 < len x ∧ 0 < len y ∧ laid_out tail (mk_extent (offset x) (len x + len y) :: l).
Proof.
  intros Hxy. split.
  - intros [(Hx & Hy & Hl) Hp Hs]. apply Forall_cons in Hx as [_ Hx].
    apply Forall_cons in Hp as [[Hx0 Hx1] [[Hy0 Hy1] Hp]%Forall_cons]. split_and!; [done.. | split].
    + split; [| done]. rewrite Forall_forall in *. intros z Hz.
      specialize (Hx z Hz). specialize (Hy z Hz). destruct (Hp z Hz).
      unfold separate, end_ in *; simpl in *. lia.
    + constructor; [| done]. unfold end_ in *; simpl in *. lia.
    + unfold bytes in *; simpl in *. lia.
  - intros (Hx & Hy & [[Hm Hl] Hp Hs]). apply Forall_cons in Hp as [[] Hp]. split.
    + cbn [apart]. rewrite Forall_cons, !Forall_forall in *.
      split_and!; [left; lia | | | done]; intros z Hz; specialize (Hm z Hz);
        unfold separate, end_ in *; simpl in *; lia.
    + rewrite !Forall_cons. unfold end_ in *; simpl in *. split_and!; lia || done.
    + unfold bytes in *; simpl in *. lia.
Qed.

(** ** The index primitives *)
Definition size_sync (s : AllocationState) : Prop :=
  ∀ n o, (n, o) ∈ free_chunks_by_size s ↔ free_chunks_by_offset s !! o = Some n.

(** [s'] differs from [s] only in the free-space indexes. *)
Definition same_frame (s s' : AllocationState) : Prop :=
  may_write s' = may_write s ∧ file_tail s' = file_tail s ∧ free_bytes s' = free_bytes s.

Lemma insert_free_chunk_ok s e :
  size_sync s → free_chunks_by_offset s !! offset e = None →
  ∃ s', insert_free_chunk s e = Ret s' ∧ free_extents s' ≡ₚ e :: free_extents s ∧
    size_sync s' ∧ same_frame s s'.
Proof.
  intros Hs Ho. unfold insert_free_chunk, debug_assert.
  rewrite (bool_decide_eq_true_2 (_ = _)) by done.
  rewrite bool_decide_eq_true_2 by (intros H%Hs; congruence). simpl.
  eexists. split; [done |]. split_and!.
  - unfold free_extents; simpl. rewrite map_to_list_insert by done. by destruct e.
  - intros n o. simpl. rewrite elem_of_union, elem_of_singleton, (Hs n o). map_cases; naive_solver.
  - done.
Qed.

Lemma remove_free_chunk_ok s e :
  size_sync s → e ∈ free_extents s →
  ∃ s', remove_free_chunk s e = Ret s' ∧ free_extents s ≡ₚ e :: free_extents s' ∧
    size_sync s' ∧ same_frame s s'.
Proof.
  intros Hs Ho%elem_of_free_extents. unfold remove_free_chunk, debug_assert.
  rewrite (bool_decide_eq_true_2 (_ = _)) by done.
  rewrite bool_decide_eq_true_2 by (by apply Hs). simpl.
  eexists. split; [done |]. split_and!.
  - unfold free_extents; simpl. rewrite <-(map_to_list_delete _ (offset e) (len e)) by done.
    by destruct e.
  - intros n o. simpl. rewrite elem_of_difference, elem_of_singleton, (Hs n o).
    map_cases; naive_solver.
  - done.
Qed.

Lemma same_frame_trans s1 s2 s3 : same_frame s1 s2 → same_frame s2 s3 → same_frame s1 s3.
Proof. unfold same_frame. intuition congruence. Qed.

Lemma size_sync_elements s n o :
  size_sync s → (n, o) ∈ elements (free_chunks_by_size s) ↔ mk_extent o n ∈ free_extents s.
Proof. intros Hs. by rewrite elem_of_elements, elem_of_free_extents, (Hs n o). Qed.

(** Two free extents of a layout never share an offset, so an extent outside
    the free list finds its offset unused. *)
Lemma laid_out_fresh_offset tail s e l :
  laid_out tail (e :: free_extents s ++ l) → free_chunks_by_offset s !! offset e = None.
Proof.
  intros [[Ha _] Hp _]. destruct (free_chunks_by_offset s !! offset e) as [n|] eqn:E; [| done].
  assert (Hin : mk_extent (offset e) n ∈ free_extents s) by by apply elem_of_free_extents.
  apply Forall_cons in Hp as [[He _] Hp].
  rewrite Forall_forall in Ha, Hp.
  assert (Hin' : mk_extent (offset e) n ∈ free_extents s ++ l) by (apply elem_of_app; auto).
  specialize (Ha _ Hin'). destruct (Hp _ Hin'). unfold separate, end_ in *; simpl in *. lia.
Qed.

(** ** Allocation policy *)

(** [choose_chunk] picks the lowest exact fit, else the lowest of the largest
    chunks, else none because every chunk is too small. *)
Definition best_choice (s : AllocationState) (size : N) (c : option Extent) : Prop :=
  match c with
  | Some e =>
      e ∈ free_extents s ∧ size ≤ len e ∧
      (∀ f, f ∈ free_extents s → len f = len e → offset e ≤ offset f) ∧
      (len e ≠ size → ∀ f, f ∈ free_extents s → len f ≠ size ∧ len f ≤ len e)
  | None => ∀ f, f ∈ free_extents s → len f < size
  end.

Lemma first_of_size_Some s live size n o :
  alloc_inv s live → first_of_size s size = Some (n, o) →
  n = size ∧ mk_extent o n ∈ free_extents s ∧
  ∀ f, f ∈ free_extents s → len f = size → o ≤ offset f.
Proof.
  intros Hi [Hin Hmin]%min_by_Some. apply list_elem_of_filter in Hin as [[Hn Ho] Hin].
  simpl in *. destruct Hi as [[Hs _] Hl _ Ht]. apply size_sync_elements in Hin; [| done].
  split_and!; [done.. |]. intros f Hf Hlen. apply (Hmin (len f, offset f)).
  apply list_elem_of_filter. simpl. rewrite size_sync_elements by done. destruct f.
  split; [split |]; [done | | done]. destruct Hl as [_ Hp _].
  rewrite Forall_app, Forall_forall in Hp. destruct Hp as [Hp _]. specialize (Hp _ Hf).
  unfold end_ in Hp. simpl in *. lia.
Qed.

Lemma first_of_size_None s live size f :
  alloc_inv s live → first_of_size s size = None → f ∈ free_extents s → len f ≠ size.
Proof.
  intros [[Hs _] Hl _ Ht] E%min_by_None Hf Hlen.
  assert (H : (len f, offset f) ∈ filter (λ p : N * N, p.1 = size ∧ p.2 ≤ u64_max)
                                   (elements (free_chunks_by_size s))).
  { apply list_elem_of_filter. simpl. rewrite size_sync_elements by done. destruct f.
    split; [split |]; [done | | done]. destruct Hl as [_ Hp _].
    rewrite Forall_app, Forall_forall in Hp. destruct Hp as [Hp _]. specialize (Hp _ Hf).
    unfold end_ in Hp. simpl in *. lia. }
  rewrite E in H. set_solver.
Qed.

Lemma choose_chunk_best s live size :
  alloc_inv s live →
  ∃ c, choose_chunk s size = Ret c ∧
       best_choice s size ((λ p : N * N, mk_extent p.2 p.1) <$> c).
Proof.
  intros Hi. pose proof (ix_size _ (ai_index _ _ Hi)) as Hs. unfold choose_chunk.
  destruct (first_of_size s size) as [[n o]|] eqn:E.
  { destruct (first_of_size_Some _ _ _ _ _ Hi E) as (-> & Hin & Hmin).
    eexists. split; [done |]. simpl. split_and!; [done | lia | done | done]. }
  pose proof (λ f, first_of_size_None _ _ _ f Hi E) as Hne.
  destruct (largest_chunk s) as [[n o]|] eqn:E2.
  2:{ apply max_by_None in E2. eexists. split; [done |]. intros f Hf.
      destruct f as [fo fl]. apply (size_sync_elements _ fl fo) in Hf; [| done].
      rewrite E2 in Hf. set_solver. }
  apply max_by_Some in E2 as [Hin Hmax].
  assert (Hle : ∀ f, f ∈ free_extents s → len f ≤ n).
  { intros [fo fl] Hf. apply (Hmax (fl, fo)). by apply size_sync_elements. }
  apply size_sync_elements in Hin; [| done].
  destruct (N.leb_spec n size).
  { eexists. split; [done |]. intros f Hf. specialize (Hle f Hf). specialize (Hne f Hf). lia. }
  destruct (first_of_size s n) as [[n' o']|] eqn:E3.
  2:{ by destruct (first_of_size_None _ _ _ _ Hi E3 Hin). }
  destruct (first_of_size_Some _ _ _ _ _ Hi E3) as (-> & Hin' & Hmin).
  eexists. split; [done |]. simpl. split_and!; [done | lia | done |].
  intros _ f Hf. auto.
Qed.

Lemma coalesced_sub l k : coalesced l → k ⊆ l → coalesced k.
Proof. unfold coalesced. set_solver. Qed.

Lemma alloc_inv_free s live e :
  alloc_inv s live → e ∈ free_extents s → 0 < len e ∧ end_ e ≤ file_tail s.
Proof.
  intros [_ [_ Hp _] _ _] He. apply Forall_app in Hp as [Hp _].
  rewrite Forall_forall in Hp. by apply Hp.
Qed.

Lemma alloc_inv_live s live e :
  alloc_inv s live → e ∈ live → 0 < len e ∧ end_ e ≤ file_tail s.
Proof.
  intros [_ [_ Hp _] _ _] He. apply Forall_app in Hp as [_ Hp].
  rewrite Forall_forall in Hp. by apply Hp.
Qed.

(** Cutting the front of a free chunk off leaves a coalesced free list. *)
Lemma coalesced_cut f size l :
  coalesced (f :: l) → Forall (separate f) l → size < len f → 0 < size →
  coalesced (mk_extent (offset f + size) (len f - size) :: l).
Proof.
  intros Hc Hs Hlt Hpos x y Hx Hy. rewrite Forall_forall in Hs.
  apply elem_of_cons in Hx as [->|Hx], Hy as [->|Hy].
  - unfold end_; simpl. lia.
  - assert (H : end_ f ≠ offset y) by (apply Hc; set_solver).
    unfold end_ in *; simpl. lia.
  - specialize (Hs _ Hx). unfold separate, end_ in *; simpl. lia.
  - apply Hc; set_solver.
Qed.

Lemma find_free_chunk_ok s live size :
  alloc_inv s live → 0 < size →
  ∃ s' c, find_free_chunk s size = Ret (s', c) ∧
    match c with
    | None => s' = s ∧ best_choice s size None
    | Some e => len e = size ∧ alloc_inv s' (e :: live) ∧ file_tail s' = file_tail s ∧
        may_write s' = may_write s ∧ ∃ n, best_choice s size (Some (mk_extent (offset e) n))
    end.
Proof.
  intros Hi Hsz. destruct (choose_chunk_best s live size Hi) as (c & Ec & Hb).
  unfold find_free_chunk. rewrite Ec. simpl. destruct c as [[n o]|]; simpl in Hb; [| by exists s, None].
  destruct Hb as (Hin & Hn & Hlow & Hworst). simpl in Hn, Hlow, Hworst.
  destruct (alloc_inv_free _ _ _ Hi Hin) as [_ Hend]. unfold end_ in Hend. simpl in Hend.
  destruct Hi as [[Hs Hbytes] Hl Hc Ht].
  rewrite (add64_fits o size) by lia. simpl.
  destruct (remove_free_chunk_ok _ _ Hs Hin) as (s1 & E1 & Hp1 & Hs1 & Hmw1 & Htl1 & Hfb1).
  rewrite E1. simpl.
  assert (Hb1 : free_bytes s = n + bytes (free_extents s1)).
  { rewrite Hbytes. unfold bytes. by rewrite Hp1. }
  rewrite Hfb1, sub64_fits by lia. simpl.
  assert (Hbest : best_choice s size (Some (mk_extent o n))) by done.
  rewrite Hp1 in Hl. simpl in Hl.
  assert (Hc1 : coalesced (mk_extent o n :: free_extents s1)).
  { eapply coalesced_sub; [exact Hc |]. by rewrite Hp1. }
  destruct (N.ltb_spec size n) as [Hlt|Hge].
  - assert (Hl' : laid_out (file_tail s) (mk_extent o size :: mk_extent (o + size) (n - size)
                     :: free_extents s1 ++ live)).
    { apply laid_out_join; [done |]. simpl. replace (size + (n - size)) with n by lia.
      split_and!; [lia.. | done]. }
    set (s2 := set_free_bytes s1 (free_bytes s - size)).
    assert (Hfresh : free_chunks_by_offset s2 !! (o + size) = None).
    { eapply (laid_out_fresh_offset _ s2 (mk_extent (o + size) (n - size)) (mk_extent o size :: live)).
      rewrite <-Permutation_middle, Permutation_swap. exact Hl'. }
    destruct (insert_free_chunk_ok s2 (mk_extent (o + size) (n - size)) Hs1 Hfresh)
      as (s3 & E3 & Hp3 & Hs3 & Hmw3 & Htl3 & Hfb3).
    change (free_extents s2) with (free_extents s1) in Hp3. simpl in Hmw3, Htl3, Hfb3.
    rewrite E3. simpl. eexists _, _. split; [done |]. simpl.
    split_and!; [done | | congruence.. | by exists n].
    split.
    + split; [done |]. rewrite Hfb3. unfold bytes. rewrite Hp3. simpl. unfold bytes in Hb1. lia.
    + rewrite Hp3, Htl3, Htl1. simpl. rewrite <-Permutation_middle, Permutation_swap. exact Hl'.
    + eapply coalesced_sub; [| by rewrite Hp3]. destruct Hl as [[Ha _] _ _].
      apply Forall_app in Ha as [Ha _]. by apply (coalesced_cut _ size) in Hc1.
    + by rewrite Htl3, Htl1.
  - assert (n = size) as -> by lia. eexists _, _. split; [done |]. simpl in *.
    split_and!; [done | | done.. | by exists size]. split; simpl.
    + split; [done |]. simpl. change (free_extents (set_free_bytes _ _)) with (free_extents s1). lia.
    + rewrite Htl1. change (free_extents (set_free_bytes _ _)) with (free_extents s1).
      by rewrite <-Permutation_middle.
    + eapply coalesced_sub; [exact Hc1 |]. change (free_extents (set_free_bytes _ _)) with (free_extents s1). set_solver.
    + by rewrite Htl1.
Qed.

(** ** Release: the extent [m] on its way back, with the chunks merged so far *)
Record floating (s : AllocationState) (m : Extent) (live : list Extent) : Prop := {
  fl_sync : size_sync s;
  fl_layout : laid_out (file_tail s) (m :: free_extents s ++ live);
  fl_coalesced : coalesced (free_extents s);
  fl_tail : file_tail s ≤ u64_max
}.

Lemma floating_free s m live x :
  floating s m live → x ∈ free_extents s →
  separate m x ∧ 0 < len x ∧ end_ x ≤ file_tail s ∧ 0 < len m ∧ end_ m ≤ file_tail s.
Proof.
  intros [_ [[Ha _] Hp _] _ _] Hx. apply Forall_cons in Hp as [[] Hp].
  apply Forall_app in Ha as [Ha _], Hp as [Hp _]. rewrite Forall_forall in Ha, Hp.
  destruct (Hp _ Hx). auto.
Qed.

Lemma floating_apart s m live x y :
  floating s m live → x ∈ free_extents s → y ∈ free_extents s → x = y ∨ separate x y.
Proof.
  intros [_ [[_ Ha] _ _] _ _] Hx Hy. apply (apart_elem _ x y Ha); set_solver.
Qed.

(** Absorbing the free chunk [x] adjacent to [m]. *)
Lemma floating_absorb s m live x s1 m' :
  floating s m live → free_extents s ≡ₚ x :: free_extents s1 → size_sync s1 →
  file_tail s1 = file_tail s →
  (end_ x = offset m ∧ m' = mk_extent (offset x) (len x + len m)) ∨
  (end_ m = offset x ∧ m' = mk_extent (offset m) (len m + len x)) →
  floating s1 m' live.
Proof.
  intros [Hs Hl Hc Ht] Hp Hs1 Htl Hm. split; [done | | | congruence].
  - rewrite Htl. rewrite Hp in Hl. simpl in Hl.
    destruct Hm as [[He ->]|[He ->]]; [rewrite Permutation_swap in Hl |];
      by apply laid_out_join in Hl as (_ & _ & Hl).
  - eapply coalesced_sub; [exact Hc |]. rewrite Hp. set_solver.
Qed.

Lemma left_neighbour_Some s o lo ln :
  left_neighbour s o = Some (lo, ln) →
  mk_extent lo ln ∈ free_extents s ∧ lo < o ∧
  ∀ f, f ∈ free_extents s → offset f < o → offset f ≤ lo.
Proof.
  intros [Hin Hmax]%max_by_Some. apply list_elem_of_filter in Hin as [Hlt Hin].
  rewrite elem_of_free_extents. simpl in *. apply elem_of_map_to_list in Hin.
  split_and!; [done.. |]. intros f Hf Hfo. apply (Hmax (offset f, len f)).
  apply list_elem_of_filter. split; [done |]. by apply elem_of_map_to_list, elem_of_free_extents.
Qed.

Lemma right_neighbour_Some s o ro rn :
  right_neighbour s o = Some (ro, rn) →
  mk_extent ro rn ∈ free_extents s ∧ o ≤ ro ∧
  ∀ f, f ∈ free_extents s → o ≤ offset f → ro ≤ offset f.
Proof.
  intros [Hin Hmin]%min_by_Some. apply list_elem_of_filter in Hin as [Hlt Hin].
  rewrite elem_of_free_extents. simpl in *. apply elem_of_map_to_list in Hin.
  split_and!; [done.. |]. intros f Hf Hfo. apply (Hmin (offset f, len f)).
  apply list_elem_of_filter. split; [done |]. by apply elem_of_map_to_list, elem_of_free_extents.
Qed.

Lemma left_neighbour_None s o f :
  left_neighbour s o = None → f ∈ free_extents s → o ≤ offset f.
Proof.
  intros E%max_by_None Hf%elem_of_free_extents%elem_of_map_to_list.
  destruct (N.le_gt_cases o (offset f)) as [|Hlt]; [done |].
  assert (H : (offset f, len f) ∈ filter (λ p : N * N, p.1 < o) (map_to_list (free_chunks_by_offset s)))
    by by apply list_elem_of_filter.
  rewrite E in H. set_solver.
Qed.

Lemma right_neighbour_None s o f :
  right_neighbour s o = None → f ∈ free_extents s → offset f < o.
Proof.
  intros E%min_by_None Hf%elem_of_free_extents%elem_of_map_to_list.
  destruct (N.le_gt_cases o (offset f)) as [Hle|]; [| done].
  assert (H : (offset f, len f) ∈ filter (λ p : N * N, o ≤ p.1) (map_to_list (free_chunks_by_offset s)))
    by by apply list_elem_of_filter.
  rewrite E in H. set_solver.
Qed.

Lemma merge_left_ok s m live :
  floating s m live →
  ∃ s' m', merge_left s m = Ret (s', m') ∧ floating s' m' live ∧ same_frame s s' ∧
    ∀ x, x ∈ free_extents s' → end_ x ≠ offset m'.
Proof.
  intros Hf. unfold merge_left.
  destruct (left_neighbour s (offset m)) as [[lo ln]|] eqn:E.
  2:{ exists s, m. split_and!; [done.. |]. intros x Hx.
      pose proof (left_neighbour_None _ _ _ E Hx). destruct (floating_free _ _ _ _ Hf Hx) as (? & ? & ?).
      unfold end_ in *. lia. }
  apply left_neighbour_Some in E as (Hin & Hlt & Hmax).
  destruct (floating_free _ _ _ _ Hf Hin) as (Hsep & Hln & Hend & Hm & Hmend).
  unfold separate, end_ in Hsep, Hend, Hmend; simpl in Hsep, Hend, Hln.
  pose proof (fl_tail _ _ _ Hf).
  rewrite (add64_fits lo ln) by lia. simpl.
  unfold debug_assert. destruct (N.leb_spec (lo + ln) (offset m)); [| lia]. simpl.
  destruct (N.eqb_spec (lo + ln) (offset m)) as [Heq|Hne].
  - destruct (remove_free_chunk_ok _ _ (fl_sync _ _ _ Hf) Hin) as (s1 & E1 & Hp1 & Hs1 & Hfr).
    rewrite E1. simpl. rewrite (add64_fits (len m) ln) by lia. simpl.
    eexists _, _. split; [done |]. split_and!; [| done |].
    + eapply floating_absorb; [done.. | by apply Hfr | left]. unfold end_; simpl. split; [lia | f_equal; lia].
    + intros x Hx. apply (fl_coalesced _ _ _ Hf x (mk_extent lo ln)); [| done]. rewrite Hp1. set_solver.
  - exists s, m. split_and!; [done.. |]. intros x Hx Hxe.
    destruct (floating_free _ _ _ _ Hf Hx) as (_ & Hx0 & _).
    destruct (floating_apart _ _ _ _ _ Hf Hx Hin) as [->|Hs]; [done |].
    assert (offset x ≤ lo) by (apply Hmax; [done | unfold end_ in *; lia]).
    unfold separate, end_ in *; simpl in *. lia.
Qed.

Lemma merge_right_ok s m live :
  floating s m live → (∀ x, x ∈ free_extents s → end_ x ≠ offset m) →
  ∃ s' m', merge_right s m = Ret (s', m') ∧ floating s' m' live ∧ same_frame s s' ∧
    ∀ x, x ∈ free_extents s' → end_ x ≠ offset m' ∧ end_ m' ≠ offset x.
Proof.
  intros Hf Hleft. unfold merge_right.
  destruct (right_neighbour s (offset m)) as [[ro rn]|] eqn:E.
  2:{ exists s, m. split_and!; [done.. |]. intros x Hx. split; [by apply Hleft |].
      pose proof (right_neighbour_None _ _ _ E Hx). destruct (floating_free _ _ _ _ Hf Hx) as (? & ? & ?).
      unfold end_ in *. lia. }
  apply right_neighbour_Some in E as (Hin & Hle & Hmin).
  destruct (floating_free _ _ _ _ Hf Hin) as (Hsep & Hrn & Hend & Hm & Hmend).
  unfold separate, end_ in Hsep, Hend, Hmend; simpl in Hsep, Hend, Hrn.
  pose proof (fl_tail _ _ _ Hf).
  rewrite (add64_fits (offset m) (len m)) by lia.
  simpl. unfold debug_assert. destruct (N.leb_spec (offset m + len m) ro); [| lia]. simpl.
  destruct (N.eqb_spec (offset m + len m) ro) as [Heq|Hne].
  - destruct (remove_free_chunk_ok _ _ (fl_sync _ _ _ Hf) Hin) as (s1 & E1 & Hp1 & Hs1 & Hfr).
    rewrite E1. simpl. rewrite (add64_fits (len m) rn) by lia. simpl.
    eexists _, _. split; [done |]. split_and!; [| done |].
    + eapply floating_absorb; [done.. | by apply Hfr | right]. unfold end_; simpl. split; [lia | done].
    + intros x Hx. assert (Hx' : x ∈ free_extents s) by (rewrite Hp1; set_solver).
      split; [by apply Hleft |]. unfold end_; simpl.
      pose proof (fl_coalesced _ _ _ Hf _ x Hin Hx') as Hc. unfold end_ in Hc; simpl in Hc. lia.
  - exists s, m. split_and!; [done.. |]. intros x Hx. split; [by apply Hleft |]. intros Hxe.
    unfold end_ in Hxe. assert (ro ≤ offset x) by (apply Hmin; [done | lia]). lia.
Qed.

Lemma release_chunk_ok s e live :
  alloc_inv s (e :: live) →
  ∃ s', release_chunk s e = Ret s' ∧ alloc_inv s' live ∧
    file_tail s' = file_tail s ∧ may_write s' = may_write s.
Proof.
  intros [[Hs Hb] Hl Hc Ht].
  assert (Hsum : len e + bytes (free_extents s) ≤ file_tail s).
  { destruct Hl as [_ _ Hl]. unfold bytes in *. rewrite Nsum_app in Hl. simpl in Hl. lia. }
  assert (Hf : floating s e live).
  { split; [done | | done..]. by rewrite Permutation_middle. }
  unfold release_chunk.
  destruct (merge_left_ok _ _ _ Hf) as (s1 & m1 & E1 & Hf1 & Hfr1 & Hl1). rewrite E1. simpl.
  destruct (merge_right_ok _ _ _ Hf1 Hl1) as (s2 & m2 & E2 & Hf2 & Hfr2 & Hl2). rewrite E2. simpl.
  pose proof Hf2 as [Hs2 Hlay2 Hc2 Ht2].
  destruct (insert_free_chunk_ok s2 m2 Hs2) as (s3 & E3 & Hp3 & Hs3 & Hfr3).
  { eapply laid_out_fresh_offset, Hlay2. }
  rewrite E3. simpl. pose proof (same_frame_trans _ _ _ (same_frame_trans _ _ _ Hfr1 Hfr2) Hfr3) as (Hmw & Htl & Hfb).
  rewrite Hfb, (add64_fits (free_bytes s) (len e)) by lia. simpl.
  eexists. split; [done |]. split_and!; [| done..].
  assert (Hl3 : laid_out (file_tail s) (free_extents s3 ++ live)).
  { rewrite Hp3. simpl. replace (file_tail s) with (file_tail s2); [done |].
    destruct Hfr1 as (_ & ? & _), Hfr2 as (_ & ? & _). congruence. }
  split; simpl; [| by rewrite Htl | | by rewrite Htl].
  - split; [done |]. simpl. change (free_extents (set_free_bytes _ _)) with (free_extents s3).
    destruct Hl as [_ _ Hl], Hl3 as [_ _ Hl3]. unfold bytes in *. rewrite !Nsum_app in Hl, Hl3.
    simpl in Hl. lia.
  - change (free_extents (set_free_bytes _ _)) with (free_extents s3).
    intros x y. rewrite Hp3, !elem_of_cons. intros [->|Hx] [->|Hy].
    + destruct Hlay2 as [_ Hp _]. apply Forall_cons in Hp as [[] _]. unfold end_. lia.
    + by apply Hl2.
    + by apply Hl2.
    + by apply Hc2.
Qed.

(** ** The file: what a positioned transfer leaves behind *)
Lemma insert_bytes_outside data : ∀ m off i,
  i < off ∨ off + data_len data ≤ i → insert_bytes m off data !! i = m !! i.
Proof.
  induction data as [|b data IH]; intros m off i Hi; simpl; [done |].
  unfold data_len in *; simpl in Hi.
  rewrite lookup_insert_ne by lia. apply IH. unfold data_len. lia.
Qed.

Lemma insert_bytes_inside data : ∀ m off (i : nat) b,
  data !! i = Some b → insert_bytes m off data !! (off + N.of_nat i) = Some b.
Proof.
  induction data as [|c data IH]; intros m off i b Hi; simpl; [done |].
  destruct i as [|i]; simpl in Hi.
  - simplify_eq. rewrite N.add_0_r. by rewrite lookup_insert_eq.
  - rewrite lookup_insert_ne by lia.
    replace (off + N.of_nat (S i)) with (off + 1 + N.of_nat i) by lia. by apply IH.
Qed.

Lemma read_bytes_app f off n k :
  read_bytes f off (n + k) = read_bytes f off n ++ read_bytes f (off + N.of_nat n) k.
Proof.
  unfold read_bytes. rewrite seq_app, fmap_app. f_equal. simpl.
  apply list_eq. intros i. rewrite !list_lookup_fmap.
  destruct (decide (i < k)%nat) as [Hi|Hi].
  - rewrite !lookup_seq_lt by lia. simpl. do 3 f_equal. lia.
  - rewrite !lookup_seq_ge by lia. done.
Qed.

Lemma length_read_bytes f off n : length (read_bytes f off n) = n.
Proof. unfold read_bytes. by rewrite length_fmap, length_seq. Qed.

Lemma read_bytes_ext f g off n :
  (∀ i, off ≤ i < off + N.of_nat n → content f !! i = content g !! i) →
  read_bytes f off n = read_bytes g off n.
Proof.
  intros H. apply list_fmap_ext. intros i j Hij. apply lookup_seq in Hij as [-> Hj].
  rewrite H; [done | lia].
Qed.

Lemma read_bytes_written f off data n g :
  (n ≤ length data)%nat → content g = insert_bytes (content f) off (take n data) →
  read_bytes g off n = take n data.
Proof.
  intros Hn Hg. apply list_eq. intros i. unfold read_bytes. rewrite list_lookup_fmap.
  destruct (decide (i < n)%nat) as [Hi|Hi].
  - rewrite lookup_seq_lt by lia. simpl. rewrite lookup_take_lt by lia.
    destruct (lookup_lt_is_Some_2 data i) as [b Hb]; [lia |]. rewrite Hb, Hg.
    rewrite (insert_bytes_inside _ _ _ _ b); [done |]. by rewrite lookup_take_lt by lia.
  - rewrite lookup_seq_ge, lookup_take_ge by lia. done.
Qed.

(** Outside [off, off+n) the file [g] still has what [f] had. *)
Definition keeps_outside (f g : PoolFile) (off n : N) : Prop :=
  file_len f ≤ file_len g ∧
  ∀ i, i < off ∨ off + n ≤ i → content g !! i = content f !! i.

(** Extent [e] of the file holds [bs]. *)
Definition holds (f : PoolFile) (e : Extent) (bs : list byte) : Prop :=
  len e = data_len bs ∧ end_ e ≤ file_len f ∧ read_bytes f (offset e) (length bs) = bs.

Lemma holds_keeps f g e d bs :
  keeps_outside f g (offset e) (len e) → separate d e → holds f d bs → holds g d bs.
Proof.
  intros [Hl Hk] Hs (Hn & He & Hr). split_and!; [done | lia |].
  rewrite <-Hr at 2. apply read_bytes_ext. intros i Hi. apply Hk.
  unfold separate, end_, data_len in *. lia.
Qed.

Lemma write_at_spec f n data off :
  ∃ f1 wr, write_at f (Transferred n) data off = (f1, Transferred wr) ∧
    wr = N.min n (data_len data) ∧ keeps_outside f f1 off wr ∧
    (0 < wr → off + wr ≤ file_len f1) ∧
    read_bytes f1 off (N.to_nat wr) = take (N.to_nat wr) data.
Proof.
  eexists _, _. split; [done |]. split; [done |].
  set (wr := N.min n (data_len data)). split_and!.
  - split; simpl; [case_match; lia |]. intros i Hi. apply insert_bytes_outside.
    unfold data_len in *. rewrite length_take. lia.
  - simpl. intros Hw. destruct (N.eqb_spec wr 0); lia.
  - apply (read_bytes_written f); [unfold data_len in *; lia | done].
Qed.

Lemma write_all_at_spec fuel : ∀ f os data off f' os' r,
  write_all_at fuel f os data off = Some (f', os', r) →
  keeps_outside f f' off (data_len data) ∧
  (r = Ok tt → off + data_len data ≤ N.max (file_len f') off ∧
               read_bytes f' off (length data) = data).
Proof.
  induction fuel as [|fuel IH]; intros f os data off f' os' r; [done |].
  assert (Hrefl : ∀ f n, keeps_outside f f off n) by done.
  destruct data as [|b data0] eqn:Hd; cbn [write_all_at].
  { intros [= <- <- <-]. split; [done |]. intros _. unfold data_len; simpl. split; [lia | done]. }
  rewrite <-Hd. clear b data0 Hd. destruct (next_response os) as [[n| |c] os1].
  2:{ intros Hrun. by apply IH in Hrun. }
  2:{ intros [= <- <- <-]. by split. }
  destruct (write_at_spec f n data off) as (f1 & wr & E & Hwr & [Hl1 Hk1] & Hend & Hrd1).
  rewrite E. assert (Hle : wr ≤ data_len data) by lia. clear E Hwr.
  destruct wr as [|w0] eqn:Hw.
  { intros [= <- <- <-]. split; [| done]. split; [done |]. intros i Hi. apply Hk1. lia. }
  rewrite <-Hw in *. assert (Hpos : 0 < wr) by lia. clear Hw.
  destruct (checked_add64 off wr) as [off1|] eqn:Hadd.
  2:{ intros [= <- <- <-]. split; [| done]. split; [done |]. intros i Hi. apply Hk1. lia. }
  apply checked_add64_Some in Hadd as [-> _]. intros [[Hl2 Hk2] Hok]%IH.
  assert (Hlen : data_len (drop (N.to_nat wr) data) = data_len data - wr).
  { unfold data_len. rewrite length_drop. lia. }
  rewrite Hlen in *. specialize (Hend Hpos). split.
  - split; [lia |]. intros i Hi. rewrite Hk2 by lia. apply Hk1. lia.
  - intros ->. destruct (Hok eq_refl) as [Hmax Hrd]. split; [lia |].
    replace (length data) with (N.to_nat wr + (length data - N.to_nat wr))%nat
      by (unfold data_len in *; lia).
    rewrite read_bytes_app, N2Nat.id. rewrite length_drop in Hrd. rewrite Hrd.
    rewrite (read_bytes_ext f' f1) by (intros i Hi; apply Hk2; lia).
    by rewrite Hrd1, take_drop.
Qed.

Lemma next_response_length os :
  (length (next_response os).2 ≤ length os)%nat ∧
  ((next_response os).1 ≠ Transferred u64_max → length (next_response os).2 < length os)%nat.
Proof. destruct os; simpl; split; try lia; done. Qed.

Lemma write_all_at_ends fuel : ∀ f os data off,
  (loop_fuel os (length data) ≤ fuel)%nat → ∃ x, write_all_at fuel f os data off = Some x.
Proof.
  unfold loop_fuel. induction fuel as [|fuel IH]; intros f os data off Hf; [lia |].
  destruct data as [|b data0] eqn:Hd; cbn [write_all_at]; [by eexists |].
  rewrite <-Hd in *. assert (Hne : (0 < length data)%nat) by (subst; simpl; lia). clear Hd.
  destruct (next_response_length os) as [Hle Hlt].
  destruct (next_response os) as [[n| |c] os1]; simpl in Hle, Hlt; [| | by eexists].
  - destruct (write_at_spec f n data off) as (f1 & wr & E & Hwr & _). rewrite E.
    destruct wr as [|w0] eqn:Hw; [by eexists |]. rewrite <-Hw in *.
    destruct (checked_add64 off wr); [| by eexists]. apply IH. rewrite length_drop. lia.
  - apply IH. specialize (Hlt ltac:(done)). lia.
Qed.

Lemma read_at_spec f n want off :
  ∃ rd, read_at f (Transferred n) want off = (read_bytes f off (N.to_nat rd), Transferred rd) ∧
    rd = N.min (N.min n (N.of_nat want)) (file_len f - off).
Proof. by eexists. Qed.

Lemma read_exact_at_spec fuel : ∀ f os acc want off os' bs,
  read_exact_at fuel f os acc want off = Some (os', Ok bs) →
  bs = acc ++ read_bytes f off want.
Proof.
  induction fuel as [|fuel IH]; intros f os acc want off os' bs; [done |].
  destruct want as [|want0] eqn:Hwant; cbn [read_exact_at].
  { intros [= <- <-]. by rewrite app_nil_r. }
  rewrite <-Hwant. clear want0 Hwant. destruct (next_response os) as [[n| |c] os1]; [| apply IH | done].
  destruct (read_at_spec f n want off) as (rd & E & Hrd). rewrite E.
  assert (Hle : (N.to_nat rd ≤ want)%nat) by lia. clear E Hrd.
  destruct rd as [|w0] eqn:Hw; [done |]. rewrite <-Hw in *. clear Hw.
  destruct (checked_add64 off rd) as [off1|] eqn:Hadd; [| done].
  apply checked_add64_Some in Hadd as [-> _]. intros ->%IH. rewrite <-app_assoc. f_equal.
  replace want with (N.to_nat rd + (want - N.to_nat rd))%nat at 2 by lia.
  by rewrite read_bytes_app, N2Nat.id.
Qed.

(** A cooperative operating system: no failure and no empty transfer. *)
Definition cooperative (r : io_response) : bool :=
  match r with Transferred n => negb (n =? 0) | Interrupted => true | Failed _ => false end.

Lemma next_response_cooperative os :
  forallb cooperative os = true →
  cooperative (next_response os).1 = true ∧ forallb cooperative (next_response os).2 = true.
Proof. destruct os as [|r os]; simpl; [done |]. by intros [? ?]%andb_prop. Qed.

Lemma read_exact_at_ends fuel : ∀ f os acc want off,
  (loop_fuel os want ≤ fuel)%nat →
  ∃ os' r, read_exact_at fuel f os acc want off = Some (os', r) ∧
    (forallb cooperative os = true → off + N.of_nat want ≤ file_len f →
     off + N.of_nat want ≤ u64_max →
     r = Ok (acc ++ read_bytes f off want) ∧ forallb cooperative os' = true).
Proof.
  unfold loop_fuel. induction fuel as [|fuel IH]; intros f os acc want off Hf; [lia |].
  destruct want as [|want0] eqn:Hd; cbn [read_exact_at].
  { eexists _, _. split; [done |]. by rewrite app_nil_r. }
  rewrite <-Hd in *. assert (Hne : (0 < want)%nat) by lia. clear want0 Hd.
  pose proof (next_response_cooperative os) as Hcoop.
  destruct (next_response_length os) as [Hle Hlt].
  destruct (next_response os) as [[n| |c] os1]; simpl in Hle, Hlt, Hcoop.
  - destruct (read_at_spec f n want off) as (rd & E & Hrd). rewrite E.
    destruct rd as [|w0] eqn:Hw.
    { eexists _, _. split; [done |]. intros Hc Hlen _. destruct (Hcoop Hc) as [Hn _].
      destruct (N.eqb_spec n 0); [done | lia]. }
    rewrite <-Hw in *. assert (0 < rd) by lia. clear w0 Hw.
    destruct (checked_add64 off rd) as [off1|] eqn:Hadd.
    + apply checked_add64_Some in Hadd as [-> _].
      destruct (IH f os1 (acc ++ read_bytes f off (N.to_nat rd)) (want - N.to_nat rd)%nat (off + rd))
        as (os' & r & Hrun & Hr); [lia |].
      rewrite Hrun. eexists _, _. split; [done |]. intros Hc Hlen Hmax.
      destruct (Hcoop Hc) as [_ Hc1]. destruct Hr as [-> ?]; [done || lia.. |].
      split; [| done]. rewrite <-app_assoc. do 2 f_equal.
      replace want with (N.to_nat rd + (want - N.to_nat rd))%nat at 2 by lia.
      by rewrite read_bytes_app, N2Nat.id.
    + eexists _, _. split; [done |]. intros Hc Hlen Hmax.
      unfold checked_add64 in Hadd. destruct (N.leb_spec (off + rd) u64_max); [done | lia].
  - specialize (Hlt ltac:(done)).
    destruct (IH f os1 acc want off) as (os' & r & Hrun & Hr); [lia |].
    rewrite Hrun. eexists _, _. split; [done |]. intros Hc. apply Hr, Hcoop, Hc.
  - eexists _, _. split; [done |]. intros Hc. by destruct (Hcoop Hc).
Qed.

(** ** Pool operations against the invariant *)
#[local] Arguments write_all_at : simpl never.
#[local] Arguments read_exact_at : simpl never.

Record pool_ok (i : DiskPoolInner) (live : list Extent) : Prop := {
  po_alloc : alloc_inv (state i) live;
  po_capacity : ∀ cap, max_capacity i = Some cap → file_tail (state i) ≤ cap
}.

#[global] Instance pool_ok_Permutation i : Proper ((≡ₚ) ==> iff) (pool_ok i).
Proof.
  intros l k Hp. split; intros [[H1 H2 H3 H4] H5]; (split; [split |]; try done);
    first [by rewrite <-Hp | by rewrite Hp].
Qed.

Lemma pool_ok_new cap : pool_ok (mk_inner file_new cap (set_may_write alloc_default true)) [].
Proof.
  split; [split | simpl; lia].
  - split; [| done]. intros n o. simpl. set_solver.
  - split; done || constructor.
  - intros x y Hx. by apply elem_of_nil in Hx.
  - simpl. unfold u64_max. lia.
Qed.

Lemma release_ok w p i e l :
  pools w !! p = Some i → pool_ok i (e :: l) →
  ∃ i', release w p e = Ret (set_pool w p i') ∧ file i' = file i ∧ pool_ok i' l.
Proof.
  intros Hp [Ha Hc]. destruct (release_chunk_ok _ _ _ Ha) as (s' & E & Ha' & Ht & Hm).
  unfold release. rewrite Hp. simpl. rewrite E. simpl. eexists. split; [done |].
  split; [done |]. split; simpl; [done |]. by rewrite Ht.
Qed.

(** Growing the tail appends a fresh extent to the layout. *)
Lemma grow_ok i l size s e :
  pool_ok i l → 0 < size → grow i size = Some (s, e) →
  len e = size ∧ offset e = file_tail (state i) ∧ pool_ok (set_state i s) (e :: l).
Proof.
  intros [[[Hs Hb] Hl Hc Ht] Hcap] Hsz. unfold grow. simpl.
  destruct (checked_add64 (file_tail (state i)) size) as [t|] eqn:E; simpl; [| done].
  apply checked_add64_Some in E as [-> Hfit]. intros Hif.
  assert (Hok : ∀ cap, max_capacity i = Some cap → file_tail (state i) + size ≤ cap).
  { intros cap Hcp. rewrite Hcp in Hif. destruct (N.ltb_spec cap (file_tail (state i) + size)); [done | lia]. }
  assert (Hse : s = mk_alloc (may_write (state i)) (file_tail (state i) + size)
             (free_chunks_by_offset (state i)) (free_chunks_by_size (state i)) (free_bytes (state i))
           ∧ e = mk_extent (file_tail (state i)) size).
  { repeat case_match; naive_solver. }
  destruct Hse as [-> ->]. split_and!; [done.. |]. split; simpl; [| done].
  split; simpl; [by split | | done..].
  change (free_extents (mk_alloc _ _ _ _ _)) with (free_extents (state i)).
  rewrite <-Permutation_middle. destruct Hl as [Ha Hp Hsum]. rewrite Forall_forall in Hp. split.
  - split; [| done]. rewrite Forall_forall. intros x Hx. right. by apply Hp.
  - constructor; [unfold end_; simpl; lia |]. rewrite Forall_forall. intros x Hx.
    destruct (Hp x Hx). split; [done | lia].
  - unfold bytes in *. simpl. rewrite Hsum. lia.
Qed.

Lemma try_reserve_chunk_ok w p i l size :
  pools w !! p = Some i → pool_ok i l →
  ∃ i' c, try_reserve_chunk w p size = Ret (set_pool w p i', c) ∧ file i' = file i ∧
    match c with
    | None => pool_ok i' l
    | Some c => ∃ e, c = mk_reserved p (Some e) ∧ len e = size ∧ pool_ok i' (e :: l)
    end.
Proof.
  intros Hp Hi. pose proof Hi as [Ha Hcap]. unfold try_reserve_chunk.
  assert (Hw : w = set_pool w p i) by (unfold set_pool; rewrite insert_id by done; by destruct w).
  destruct (N.eqb_spec size 0) as [|Hsz]; [exists i, None; by rewrite <-Hw |].
  rewrite Hp. simpl. destruct (may_write (state i)); simpl; [| exists i, None; by rewrite <-Hw].
  destruct (find_free_chunk_ok _ _ size Ha) as (s & c & E & Hc); [lia |]. rewrite E. simpl.
  destruct c as [e|].
  - destruct Hc as (Hlen & Ha' & Ht & _). eexists _, _. split; [done |]. split; [done |].
    exists e. split_and!; [done.. |]. split; simpl; [done |]. by rewrite Ht.
  - destruct Hc as [-> _].
    replace (set_state i (state i)) with i by by destruct i.
    destruct (grow i size) as [[s e]|] eqn:Eg.
    + apply (grow_ok _ _ _ _ _ Hi) in Eg as (Hlen & _ & Hok); [| lia].
      eexists _, _. split; [done |]. split; [done |]. by exists e.
    + by eexists _, _.
Qed.

Lemma pool_ok_separate i e l d : pool_ok i (e :: l) → d ∈ l → separate d e.
Proof.
  intros [[_ [Ha _ _] _ _] _] Hd. rewrite <-Permutation_middle in Ha. destruct Ha as [Ha _].
  rewrite Forall_forall in Ha. symmetry. apply Ha, elem_of_app. by right.
Qed.

Lemma write_ok w p i e l c data :
  c = mk_reserved p (Some e) → pools w !! p = Some i → pool_ok i (e :: l) → ∀ q,
  ∃ w' i' r, write w q c data = Ret (w', r) ∧ pools w' = <[p := i']> (pools w) ∧
    (∀ d bs, d ∈ l → holds (file i) d bs → holds (file i') d bs) ∧
    match r with
    | Ok d => d = mk_data p e ∧ pool_ok i' (e :: l) ∧ holds (file i') e data
    | Err _ => pool_ok i' l
    end.
Proof.
  intros -> Hp Hi q. unfold write, belongs_to, drop_reserved. simpl.
  destruct (release_ok _ _ _ _ _ Hp Hi) as (i1 & E1 & Hf1 & Hok1).
  destruct (N.eqb_spec p q) as [<-|Hne]; simpl.
  2:{ rewrite E1. simpl. eexists _, i1, _. split_and!; [done.. | | done]. by rewrite Hf1. }
  destruct (N.eqb_spec (len e) (data_len data)) as [Hlen|Hlen]; simpl.
  2:{ rewrite E1. simpl. eexists _, i1, _. split_and!; [done.. | | done]. by rewrite Hf1. }
  rewrite Hp. simpl.
  destruct (write_all_at_ends (loop_fuel (os w) (length data)) (file i) (os w) data (offset e))
    as [[[f os'] r] E]; [done |].
  rewrite E. simpl. apply write_all_at_spec in E as [Hk Hok]. rewrite <-Hlen in Hk.
  pose proof (λ d bs Hd, holds_keeps _ _ _ d bs Hk (pool_ok_separate _ _ _ d Hi Hd)) as Hkeep.
  destruct r as [[]|err].
  - destruct (Hok eq_refl) as [Hmax Hrd]. eexists _, (set_file i f), _.
    do 4 (split; [done |]). split; [by destruct Hi |]. split_and!; [done | | done].
    destruct Hi as [Hi _]. destruct (alloc_inv_live _ _ e Hi) as [Hpos _]; [set_solver |].
    unfold end_. simpl. lia.
  - destruct (release_chunk_ok _ _ _ (po_alloc _ _ Hi)) as (s & Es & Ha & Ht & _).
    simpl. rewrite Es. simpl. eexists _, (set_state (set_file i f) (set_may_write s false)), _.
    split_and!; [done.. |]. destruct Hi as [_ Hcap]. split; simpl; [| by rewrite Ht].
    destruct Ha as [[]]. split; [split | ..]; done.
Qed.

Lemma write_err_disables w w' p i e data err :
  pools w !! p = Some i → len e = data_len data →
  write w p (mk_reserved p (Some e)) data = Ret (w', Err err) →
  ∃ i', pools w' !! p = Some i' ∧ may_write (state i') = false.
Proof.
  intros Hp Hlen. unfold write, belongs_to, drop_reserved. simpl.
  rewrite N.eqb_refl, Hlen, N.eqb_refl. simpl. rewrite Hp. simpl. intros H. inv_run.
  destruct r as [[f os'] [[]|err2]]; inv_run. eexists. split; [apply lookup_insert_eq | done].
Qed.

Lemma store_ok w p i l data :
  pools w !! p = Some i → pool_ok i l →
  ∃ w' i' r, store w p data = Ret (w', r) ∧ pools w' = <[p := i']> (pools w) ∧
    (∀ d bs, d ∈ l → holds (file i) d bs → holds (file i') d bs) ∧
    match r with
    | Ok (Some d) => ∃ e, d = mk_data p e ∧ pool_ok i' (e :: l) ∧ holds (file i') e data
    | _ => pool_ok i' l
    end.
Proof.
  intros Hp Hi. unfold store.
  destruct (try_reserve_chunk_ok _ _ _ _ (data_len data) Hp Hi) as (i1 & c & E & Hf & Hc).
  rewrite E. simpl. destruct c as [c|].
  - destruct Hc as (e & Hce & Hlen & Hok1).
    destruct (write_ok (set_pool w p i1) p i1 e l c data Hce (lookup_insert_eq _ _ _) Hok1 p)
      as (w' & i' & r & Ew & Hw' & Hk & Hr).
    rewrite Ew. simpl. exists w', i', (match r with Ok d => Ok (Some d) | Err e => Err e end).
    split; [done |]. split; [rewrite Hw'; simpl; by rewrite insert_insert_eq |].
    split; [by rewrite <-Hf |]. destruct r as [d|err]; [| done].
    exists e. naive_solver.
  - exists (set_pool w p i1), i1, (Ok None). split_and!; [done.. | by rewrite Hf | done].
Qed.

(** ** Invariant of every history *)
Record machine_inv (m : Machine) : Prop := {
  mi_pools : ∀ p i, pools (world m) !! p = Some i → pool_ok i (live (handles m) p);
  mi_handles : ∀ k h, handles m !! k = Some h →
    ∃ p e, handle_extent h = Some (p, e) ∧ is_Some (pools (world m) !! p);
  mi_fresh : ∀ k, next_handle m ≤ k → handles m !! k = None ∧ pools (world m) !! k = None
}.

Lemma live_insert hs k h p :
  hs !! k = None → live (<[k := h]> hs) p ≡ₚ contrib p h ++ live hs p.
Proof. intros Hk. unfold live. by rewrite map_to_list_insert. Qed.

Lemma live_delete hs k h p :
  hs !! k = Some h → live hs p ≡ₚ contrib p h ++ live (delete k hs) p.
Proof. intros Hk. unfold live. by rewrite <-(map_to_list_delete hs k h Hk). Qed.

Lemma contrib_eq h p e : handle_extent h = Some (p, e) → contrib p h = [e].
Proof. unfold contrib. intros ->. by rewrite decide_True. Qed.

Lemma contrib_ne h p e q : handle_extent h = Some (p, e) → q ≠ p → contrib q h = [].
Proof. unfold contrib. intros -> ?. by rewrite decide_False. Qed.

Lemma live_elem m k h p e :
  handles m !! k = Some h → handle_extent h = Some (p, e) → e ∈ live (handles m) p.
Proof.
  intros Hk He. rewrite (live_delete _ _ _ _ Hk), (contrib_eq _ _ _ He). set_solver.
Qed.

(** One pool changes, and with it the handles on that pool. *)
Lemma machine_update m w hs p i i' :
  machine_inv m → pools (world m) !! p = Some i → pools w = <[p := i']> (pools (world m)) →
  pool_ok i' (live hs p) →
  (∀ q, q ≠ p → live hs q ≡ₚ live (handles m) q) →
  (∀ k h, hs !! k = Some h → handles m !! k = Some h ∨
     k = next_handle m ∧ ∃ e, handle_extent h = Some (p, e)) →
  machine_inv (mk_machine w hs (next_handle m + 1)).
Proof.
  intros [Hps Hhs Hfr] Hp Hw Hok Hlive Hold. split; simpl.
  - intros q j. rewrite Hw. map_cases; [by intros [= <-] | intros Hq; rewrite Hlive by done; auto].
  - intros k h Hk. destruct (Hold k h Hk) as [Ho|(_ & e & He)].
    + destruct (Hhs k h Ho) as (q & e & He & Hq). exists q, e. split; [done |].
      rewrite Hw. map_cases; eauto.
    + exists p, e. split; [done |]. rewrite Hw, lookup_insert_eq. eauto.
  - intros k Hk. destruct (Hfr k) as [H1 H2]; [lia |]. rewrite Hw. split.
    + destruct (hs !! k) as [h|] eqn:E; [| done]. destruct (Hold k h E) as [?|[? _]]; [congruence | lia].
    + rewrite lookup_insert_ne by congruence. done.
Qed.

Definition stored (m : Machine) (d : DiskData) (bs : list byte) : Prop :=
  ∃ i, pools (world m) !! data_pool d = Some i ∧ holds (file i) (data_extent d) bs.

(** [m'] still has every stored extent of [m] but the one call [c] drops. *)
Definition keeps_stored (m : Machine) (c : pool_call) (m' : Machine) : Prop :=
  ∀ k d, handles m !! k = Some (HData d) → c ≠ CDrop k →
    handles m' !! k = Some (HData d) ∧ ∀ bs, stored m d bs → stored m' d bs.

Lemma stored_update m w hs n p i i' d bs :
  pools (world m) !! p = Some i → pools w = <[p := i']> (pools (world m)) →
  (data_pool d = p → holds (file i) (data_extent d) bs → holds (file i') (data_extent d) bs) →
  stored m d bs → stored (mk_machine w hs n) d bs.
Proof.
  intros Hp Hw Hh (j & Hj & Hb). unfold stored. simpl. rewrite Hw. map_cases; [| eauto].
  eexists. split; [done |]. apply Hh; [done |]. congruence.
Qed.

Lemma machine_refl_ok m c : machine_inv m → ∃ m', Ret m = Ret m' ∧ machine_inv m' ∧ keeps_stored m c m'.
Proof. intros. exists m. split_and!; [done.. |]. by intros k d Hk _. Qed.

(** A call that hands out at most one new handle on pool [p]. *)
Lemma give_step m w p i i' h c :
  machine_inv m → pools (world m) !! p = Some i → pools w = <[p := i']> (pools (world m)) →
  (∀ d bs, d ∈ live (handles m) p → holds (file i) d bs → holds (file i') d bs) →
  match h with
  | Some h => ∃ e, handle_extent h = Some (p, e) ∧ pool_ok i' (e :: live (handles m) p)
  | None => pool_ok i' (live (handles m) p)
  end →
  machine_inv (mk_machine w (give m h) (next_handle m + 1)) ∧
  keeps_stored m c (mk_machine w (give m h) (next_handle m + 1)).
Proof.
  intros Hi Hp Hw Hk Hh. destruct (mi_fresh _ Hi (next_handle m)) as [Hn _]; [lia |]. split.
  - eapply machine_update; [done.. | | |]; destruct h as [h|]; simpl; try done.
    + destruct Hh as (e & He & Hok). by rewrite live_insert, (contrib_eq _ _ _ He).
    + destruct Hh as (e & He & Hok). intros q Hq.
      by rewrite live_insert, (contrib_ne _ _ _ _ He Hq).
    + destruct Hh as (e & He & Hok). intros k h'. map_cases; [intros [= <-]; eauto | auto].
    + auto.
  - intros k d Hkd _. split.
    + destruct h; simpl; [| done]. by rewrite lookup_insert_ne by congruence.
    + intros bs. apply (stored_update _ _ _ _ p i i'); [done.. |]. intros <-.
      apply Hk. by eapply live_elem.
Qed.

(** A call that takes handle [k] on pool [p] away. *)
Lemma take_step m w p i i' k h e h' c :
  machine_inv m → pools (world m) !! p = Some i → pools w = <[p := i']> (pools (world m)) →
  handles m !! k = Some h → handle_extent h = Some (p, e) →
  (∀ d, h = HData d → c = CDrop k) →
  (∀ d bs, d ∈ live (delete k (handles m)) p → holds (file i) d bs → holds (file i') d bs) →
  match h' with
  | Some h' => ∃ e', handle_extent h' = Some (p, e') ∧ pool_ok i' (e' :: live (delete k (handles m)) p)
  | None => pool_ok i' (live (delete k (handles m)) p)
  end →
  machine_inv (mk_machine w (delete k (give m h')) (next_handle m + 1)) ∧
  keeps_stored m c (mk_machine w (delete k (give m h')) (next_handle m + 1)).
Proof.
  intros Hi Hp Hw Hk He Hc Hkeep Hh. destruct (mi_fresh _ Hi (next_handle m)) as [Hn _]; [lia |].
  assert (Hne : k ≠ next_handle m) by congruence.
  assert (Hdel : ∀ h, delete k (<[next_handle m := h]> (handles m)) =
                      <[next_handle m := h]> (delete k (handles m))).
  { intros. by rewrite delete_insert_ne. }
  assert (Hn' : delete k (handles m) !! next_handle m = None) by by rewrite lookup_delete_ne.
  assert (Hother : ∀ q, q ≠ p → live (delete k (handles m)) q ≡ₚ live (handles m) q).
  { intros q Hq. by rewrite (live_delete _ _ _ q Hk), (contrib_ne _ _ _ _ He Hq). }
  split.
  - eapply machine_update; [done.. | | |]; destruct h' as [h'|]; simpl; try rewrite Hdel; try done.
    + destruct Hh as (e' & He' & Hok). by rewrite live_insert, (contrib_eq _ _ _ He').
    + destruct Hh as (e' & He' & Hok). intros q Hq.
      rewrite live_insert, (contrib_ne _ _ _ _ He' Hq) by done. by apply Hother.
    + destruct Hh as (e' & He' & Hok). intros k' h0. map_cases; [intros [= <-]; eauto | done | auto].
    + intros k' h0. map_cases; [done | auto].
  - intros k' d Hkd Hcd.
    assert (Hkk : k' ≠ k) by (intros ->; simplify_eq; by eapply Hcd, Hc). split.
    + cbn [handles]. rewrite lookup_delete_ne by done. destruct h'; simpl; [| done]. by rewrite lookup_insert_ne by congruence.
    + intros bs. apply (stored_update _ _ _ _ p i i'); [done.. |]. intros <-. apply Hkeep.
      rewrite (live_delete _ k' (HData d)) by by rewrite lookup_delete_ne.
      rewrite (contrib_eq _ (data_pool d) (data_extent d)) by done. set_solver.
Qed.

(** ** Reading back *)
Lemma data_read_ok w d i off want :
  pools w !! data_pool d = Some i →
  ∃ os' r, data_read_exact_at w d off want = Ret (mk_world (pools w) os', r) ∧
    (∀ bs, r = Ok bs → off + N.of_nat want ≤ len (data_extent d) ∧
       bs = read_bytes (file i) (offset (data_extent d) + off) want) ∧
    (forallb cooperative (os w) = true → off + N.of_nat want ≤ len (data_extent d) →
     end_ (data_extent d) ≤ file_len (file i) → end_ (data_extent d) ≤ u64_max →
     r = Ok (read_bytes (file i) (offset (data_extent d) + off) want) ∧
     forallb cooperative os' = true).
Proof.
  intros Hp. unfold data_read_exact_at, read_exact_file_at, checked_add64, end_.
  assert (Hw : w = mk_world (pools w) (os w)) by by destruct w.
  destruct (N.leb_spec (off + N.of_nat want) u64_max).
  2:{ exists (os w), (Err InvalidInput). rewrite <-Hw. split; [done |]. split; [done | lia]. }
  destruct (N.ltb_spec (len (data_extent d)) (off + N.of_nat want)).
  { exists (os w), (Err InvalidInput). rewrite <-Hw. split; [done |]. split; [done | lia]. }
  destruct (N.leb_spec (offset (data_extent d) + off) u64_max).
  2:{ exists (os w), (Err InvalidInput). rewrite <-Hw. split; [done |]. split; [done | lia]. }
  rewrite Hp. simpl.
  destruct (read_exact_at_ends (loop_fuel (os w) want) (file i) (os w) [] want
              (offset (data_extent d) + off)) as (os' & r & E & Hr); [done |].
  rewrite E. simpl. exists os', r. split; [done |]. split.
  - intros bs ->. apply read_exact_at_spec in E. done.
  - intros Hc Hle He Hmax. apply Hr; [done | lia..].
Qed.

Lemma to_vec_ok w d i bs :
  pools w !! data_pool d = Some i → holds (file i) (data_extent d) bs →
  end_ (data_extent d) ≤ u64_max →
  ∃ os' r, to_vec w d = Ret (mk_world (pools w) os', r) ∧ (∀ v, r = Ok v → v = bs) ∧
    (forallb cooperative (os w) = true → r = Ok bs).
Proof.
  intros Hp (Hlen & He & Hr) Hmax. unfold to_vec.
  assert (Hn : N.to_nat (len (data_extent d)) = length bs) by (rewrite Hlen; unfold data_len; lia).
  rewrite Hn. destruct (data_read_ok w d i 0 (length bs) Hp) as (os' & r & E & Hok & Hcoop).
  exists os', r. rewrite N.add_0_r, Hr in *. split; [done |]. split.
  - intros v Hv. by apply Hok.
  - intros Hc. apply Hcoop; [done | lia | done | done].
Qed.

(** A [Vec<u8>] as the writer. *)
Definition vec_write_all (v bs : list byte) : list byte * io_result unit := (v ++ bs, Ok tt).

Lemma write_to_loop_ok fuel : ∀ w d i v off,
  pools w !! data_pool d = Some i → off ≤ len (data_extent d) →
  (N.to_nat (len (data_extent d) - off) < fuel)%nat →
  end_ (data_extent d) ≤ file_len (file i) → end_ (data_extent d) ≤ u64_max →
  ∃ w' v' r, write_to_loop vec_write_all fuel w d v off = Ret (w', v', r) ∧
    (r = Ok tt ∨ forallb cooperative (os w) = true →
     r = Ok tt ∧ v' = v ++ read_bytes (file i) (offset (data_extent d) + off)
                             (N.to_nat (len (data_extent d) - off))).
Proof.
  induction fuel as [|fuel IH]; intros w d i v off Hp Hoff Hf He Hmax; [lia |]. cbn [write_to_loop].
  destruct (N.ltb_spec off (len (data_extent d))) as [Hlt|Hge].
  2:{ eexists _, _, _. split; [done |]. intros _. split; [done |].
      replace (len (data_extent d) - off) with 0 by lia. by rewrite app_nil_r. }
  set (n := N.min buffer_len (len (data_extent d) - off)).
  assert (Hn : 0 < n ≤ len (data_extent d) - off) by (unfold n, buffer_len; lia). clearbody n.
  destruct (data_read_ok w d i off (N.to_nat n) Hp) as (os' & r & E & Hok & Hcoop).
  rewrite E. simpl. destruct r as [bs|err].
  - destruct (Hok bs eq_refl) as [_ ->]. unfold end_ in *. rewrite add64_fits by lia. simpl.
    destruct (IH (mk_world (pools w) os') d i
                (v ++ read_bytes (file i) (offset (data_extent d) + off) (N.to_nat n)) (off + n))
      as (w' & v' & r & Er & Hr); [done | lia.. |].
    rewrite Er. eexists _, _, _. split; [done |]. intros Hc. destruct Hr as [-> ->].
    { destruct Hc as [|Hc]; [by left |]. right. simpl. apply Hcoop; [done | lia..]. }
    split; [done |]. rewrite <-app_assoc. f_equal.
    replace (N.to_nat (len (data_extent d) - off))
      with (N.to_nat n + N.to_nat (len (data_extent d) - (off + n)))%nat by lia.
    rewrite read_bytes_app, N2Nat.id. do 2 f_equal. lia.
  - eexists _, _, _. split; [done |]. intros [|Hc]; [done |]. unfold end_ in *.
    destruct Hcoop as [? _]; [done | lia | lia | lia | done].
Qed.

Lemma write_to_ok w d i bs v :
  pools w !! data_pool d = Some i → holds (file i) (data_extent d) bs →
  end_ (data_extent d) ≤ u64_max →
  ∃ w' v' r, write_to vec_write_all w d v = Ret (w', v', r) ∧
    (r = Ok tt ∨ forallb cooperative (os w) = true → r = Ok tt ∧ v' = v ++ bs).
Proof.
  intros Hp (Hlen & He & Hr) Hmax. unfold write_to.
  destruct (write_to_loop_ok (S (N.to_nat (len (data_extent d)))) w d i v 0)
    as (w' & v' & r & E & Hok); [done | lia | lia | done | done |].
  rewrite E. eexists _, _, _. split; [done |]. intros Hc. destruct (Hok Hc) as [-> ->].
  split; [done |]. f_equal. rewrite N.add_0_r, N.sub_0_r.
  replace (N.to_nat (len (data_extent d))) with (length bs) by (rewrite Hlen; unfold data_len; lia).
  done.
Qed.

(** ** Every call returns and keeps the invariant and what is stored *)
Lemma live_unused hs p :
  (∀ k h q e, hs !! k = Some h → handle_extent h = Some (q, e) → q ≠ p) → live hs p = [].
Proof.
  intros H. destruct (live hs p) as [|x l] eqn:E; [done |]. exfalso.
  assert (Hx : x ∈ live hs p) by (rewrite E; set_solver).
  apply list_elem_of_bind in Hx as ([k h] & Hx & Hk%elem_of_map_to_list). simpl in Hx.
  unfold contrib in Hx. destruct (handle_extent h) as [[q e]|] eqn:He; [| set_solver].
  rewrite decide_False in Hx by eauto. set_solver.
Qed.

Lemma new_step m cap c :
  machine_inv m →
  machine_inv (mk_machine (pool_new (world m) (next_handle m) cap).1 (handles m) (next_handle m + 1)) ∧
  keeps_stored m c (mk_machine (pool_new (world m) (next_handle m) cap).1 (handles m) (next_handle m + 1)).
Proof.
  intros [Hps Hhs Hfr]. destruct (Hfr (next_handle m)) as [_ Hn]; [lia |].
  assert (Hlive : live (handles m) (next_handle m) = []).
  { apply live_unused. intros k h q e Hk He ->.
    destruct (Hhs k h Hk) as (q' & e' & He' & [i Hi]). congruence. }
  assert (Hw : pools (pool_new (world m) (next_handle m) cap).1 = pools (world m) ∨
    pools (pool_new (world m) (next_handle m) cap).1 =
      <[next_handle m := mk_inner file_new cap (set_may_write alloc_default true)]> (pools (world m))).
  { unfold pool_new. destruct (next_response (os (world m))) as [[]]; auto. }
  split.
  - split; simpl.
    + intros p i. destruct Hw as [->| ->]; [auto |]. map_cases; [| auto].
      intros [= <-]. rewrite Hlive. apply pool_ok_new.
    + intros k h Hk. destruct (Hhs k h Hk) as (p & e & He & Hp). exists p, e. split; [done |].
      destruct Hw as [->| ->]; [done |]. map_cases; eauto.
    + intros k Hk. destruct (Hfr k) as [H1 H2]; [lia |]. split; [done |].
      destruct Hw as [->| ->]; [done |]. by rewrite lookup_insert_ne by lia.
  - intros k d Hk _. split; [done |]. intros bs (i & Hp & Hb). exists i. split; [| done]. simpl.
    destruct Hw as [->| ->]; [done |]. rewrite lookup_insert_ne; [done | congruence].
Qed.

Lemma machine_step_ok m c :
  machine_inv m → ∃ m', machine_step m c = Ret m' ∧ machine_inv m' ∧ keeps_stored m c m'.
Proof.
  intros Hi. destruct c as [cap|p size|p h data|p data|h off want|h]; cbn [machine_step].
  - eexists. split; [done |]. by apply new_step.
  - destruct (pools (world m) !! p) as [i|] eqn:Hp; [| by apply machine_refl_ok].
    destruct (try_reserve_chunk_ok _ _ _ _ size Hp (mi_pools _ Hi _ _ Hp)) as (i' & c & E & Hf & Hc).
    rewrite E. simpl. eexists. split; [done |]. eapply give_step; [done.. | by rewrite Hf |].
    destruct c as [c|]; simpl; [| done]. destruct Hc as (e & -> & _ & Hok). by exists e.
  - destruct (handles m !! h) as [[c|]|] eqn:Hh; [| by apply machine_refl_ok..].
    destruct (mi_handles _ Hi _ _ Hh) as (q & e & He & [i Hq]).
    pose proof (mi_pools _ Hi _ _ Hq) as Hok. rewrite (live_delete _ _ _ _ Hh), (contrib_eq _ _ _ He) in Hok.
    assert (Hc : c = mk_reserved q (Some e)).
    { destruct c as [q' [e'|]]; simpl in He; by simplify_eq. }
    destruct (write_ok _ _ _ _ _ _ data Hc Hq Hok p) as (w' & i' & r & E & Hw & Hk & Hr).
    rewrite E. simpl. eexists. split; [done |]. eapply take_step; [done.. | |].
    + done.
    + destruct r as [d|]; [| done]. destruct Hr as (-> & Hok' & _). by exists e.
  - destruct (pools (world m) !! p) as [i|] eqn:Hp; [| by apply machine_refl_ok].
    destruct (store_ok _ _ _ _ data Hp (mi_pools _ Hi _ _ Hp)) as (w' & i' & r & E & Hw & Hk & Hr).
    rewrite E. simpl. eexists. split; [done |]. eapply give_step; [done.. |].
    destruct r as [[d|]|]; [| done..]. destruct Hr as (e & -> & Hok & _). by exists e.
  - destruct (handles m !! h) as [[|d]|] eqn:Hh; [by apply machine_refl_ok | | by apply machine_refl_ok].
    destruct (mi_handles _ Hi _ _ Hh) as (q & e & He & [i Hq]). simpl in He. simplify_eq.
    destruct (data_read_ok _ _ _ off want Hq) as (os' & r & E & _). rewrite E. simpl.
    eexists. split; [done |]. eapply (give_step _ _ _ _ i None); [done.. | | done | by apply mi_pools].
    simpl. by rewrite insert_id.
  - destruct (handles m !! h) as [h'|] eqn:Hh; [| by apply machine_refl_ok].
    destruct (mi_handles _ Hi _ _ Hh) as (q & e & He & [i Hq]).
    pose proof (mi_pools _ Hi _ _ Hq) as Hok. rewrite (live_delete _ _ _ _ Hh), (contrib_eq _ _ _ He) in Hok.
    destruct (release_ok _ _ _ _ _ Hq Hok) as (i' & E & Hf & Hok').
    assert (Hd : match h' with HReserved c => drop_reserved (world m) c | HData d => drop_data (world m) d end
                 = Ret (set_pool (world m) q i')).
    { destruct h' as [[q' [e'|]]|d]; simpl in He; simplify_eq; done. }
    exists (mk_machine (set_pool (world m) q i') (delete h (handles m)) (next_handle m + 1)).
    split; [destruct h'; by rewrite Hd |].
    eapply (take_step _ _ _ _ _ _ _ _ None); [done.. | by rewrite Hf | done].
Qed.

Lemma machine_run_ok cs : ∀ m,
  machine_inv m → ∃ m', machine_run m cs = Ret m' ∧ machine_inv m' ∧
    ∀ k d, handles m !! k = Some (HData d) → Forall (λ c, c ≠ CDrop k) cs →
      handles m' !! k = Some (HData d) ∧ ∀ bs, stored m d bs → stored m' d bs.
Proof.
  induction cs as [|c cs IH]; intros m Hi; simpl; [by exists m |].
  destruct (machine_step_ok m c Hi) as (m1 & E & Hi1 & Hk). rewrite E. simpl.
  destruct (IH m1 Hi1) as (m2 & E2 & Hi2 & Hk2). exists m2. split_and!; [done.. |].
  intros k d Hd [Hc Hcs]%Forall_cons. destruct (Hk k d Hd Hc) as [Hd1 Hs1].
  destruct (Hk2 k d Hd1 Hcs). auto.
Qed.

Lemma machine_new_inv script : machine_inv (machine_new script).
Proof. split; simpl; [done | done |]. by intros. Qed.

(** ** Coalescing leaves no fragments behind *)
Definition offset_le (x y : Extent) : Prop := offset x ≤ offset y.

#[global] Instance offset_le_dec : RelDecision offset_le.
Proof. intros x y. unfold offset_le. apply _. Defined.
#[global] Instance offset_le_total : Total offset_le.
Proof. intros x y. unfold offset_le. lia. Qed.
#[global] Instance offset_le_trans : Transitive offset_le.
Proof. intros x y z. unfold offset_le. lia. Qed.

(** Separate extents inside [s, t) hold at most [t - s] bytes; when they hold
    all of them and none are adjacent, there is at most one. *)
Lemma sorted_cover l : ∀ s t,
  StronglySorted offset_le l → apart l → s ≤ t →
  Forall (λ e, 0 < len e ∧ end_ e ≤ t) l → Forall (λ e, s ≤ offset e) l →
  s + bytes l ≤ t ∧
  (s + bytes l = t → coalesced l → l = if s =? t then [] else [mk_extent s (t - s)]).
Proof.
  induction l as [|x l IH]; intros s t Hsort Ha Hst Hp Hs.
  { unfold bytes; simpl. split; [lia |]. intros. by rewrite (proj2 (N.eqb_eq s t)) by lia. }
  destruct Ha as [Hx Ha]. apply StronglySorted_inv in Hsort as [Hsort Hmin].
  apply Forall_cons in Hp as [[Hx0 Hxe] Hp], Hs as [Hxs _].
  rewrite Forall_forall in Hx, Hmin.
  assert (Hs' : Forall (λ e, end_ x ≤ offset e) l).
  { rewrite Forall_forall in *. intros y Hy. specialize (Hx y Hy). specialize (Hmin y Hy).
    destruct (Hp y Hy). unfold separate, offset_le, end_ in *. lia. }
  destruct (IH (end_ x) t Hsort Ha Hxe Hp Hs') as [Hle Heq].
  unfold bytes in *. simpl. unfold end_ in Hle at 1. split; [lia |]. intros Ht Hc.
  assert (Hl : l = if end_ x =? t then [] else [mk_extent (end_ x) (t - end_ x)]).
  { apply Heq; [unfold end_; lia |]. eapply coalesced_sub; [exact Hc |]. set_solver. }
  destruct (N.eqb_spec (end_ x) t) as [Hxt|Hxt].
  - subst l. destruct (N.eqb_spec s t); [unfold end_ in *; lia |].
    simpl in Ht. f_equal. destruct x; unfold end_ in *; simpl in *. f_equal; lia.
  - exfalso. apply (Hc x (mk_extent (end_ x) (t - end_ x))); [set_solver | | done].
    rewrite Hl. set_solver.
Qed.

Lemma all_free_one_hole s :
  alloc_inv s [] →
  free_extents s = if file_tail s =? 0 then [] else [mk_extent 0 (file_tail s)].
Proof.
  intros [_ [Ha Hp Hsum] Hc _]. rewrite app_nil_r in *.
  set (l := merge_sort offset_le (free_extents s)).
  assert (Hperm : l ≡ₚ free_extents s) by apply merge_sort_Permutation.
  destruct (sorted_cover l 0 (file_tail s)) as [_ Hl].
  - apply StronglySorted_merge_sort; apply _.
  - by rewrite Hperm.
  - lia.
  - by rewrite Hperm.
  - rewrite Forall_forall. intros. lia.
  - rewrite N.sub_0_r in Hl. rewrite N.eqb_sym in Hl.
    assert (El : l = if file_tail s =? 0 then [] else [mk_extent 0 (file_tail s)]).
    { apply Hl; [unfold bytes in *; rewrite Hperm; lia |].
      eapply coalesced_sub; [exact Hc |]. by rewrite Hperm. }
    rewrite El in Hperm. case_match.
    + by apply Permutation_nil_l in Hperm.
    + by apply Permutation_singleton_l in Hperm.
Qed.

(** ** Properties *)

(** Every history of pool calls returns, whatever the operating system
    answers: no checked addition, index assertion or transfer loop fails. At
    its end the extents of the outstanding handles of each pool are pairwise
    separate and inside the file, the free and the owned bytes add up to the
    file tail, and the tail respects the configured capacity. *)
Theorem pool_calls_safe (script : list io_response) (cs : list pool_call) :
  ∃ m, machine_run (machine_new script) cs = Ret m ∧
  ∀ p i, pools (world m) !! p = Some i →
    let s := state i in
    let owned := live (handles m) p in
    apart owned ∧ Forall (λ e, 0 < len e ∧ end_ e ≤ file_tail s) owned ∧
    free_bytes s + bytes owned = file_tail s ∧
    file_tail s ≤ from_option id u64_max (max_capacity i).
Proof.
  destruct (machine_run_ok cs _ (machine_new_inv script)) as (m & E & Hi & _).
  exists m. split; [done |]. intros p i Hp. destruct (mi_pools _ Hi p i Hp) as [Ha Hcap].
  cbn zeta. split_and!.
  - destruct Ha as [_ [Ha _ _] _ _]. clear -Ha. induction (free_extents (state i)); [done |].
    simpl in Ha. tauto.
  - destruct Ha as [_ [_ Hf _] _ _]. by apply Forall_app in Hf as [_ Hf].
  - destruct Ha as [[_ Hb] [_ _ Hs] _ _]. rewrite Hb. unfold bytes in *. by rewrite Nsum_app in Hs.
  - destruct (max_capacity i); simpl; [by apply Hcap | by destruct Ha].
Qed.

(** C20: what was stored is what is read. After any history, storing [data]
    and any further calls that do not drop the returned handle, reading the
    handle back never yields anything but [data], and does yield it when the
    operating system cooperates (interruptions and short transfers included),
    both through [to_vec] and streamed through [write_to]. *)
Theorem stored_data_stable (script : list io_response) (before after : list pool_call)
    (m m1 m2 : Machine) (p : DiskPool) (d : DiskData) (data : list byte) :
  machine_run (machine_new script) before = Ret m →
  machine_step m (CStore p data) = Ret m1 →
  handles m1 !! next_handle m = Some (HData d) →
  machine_run m1 after = Ret m2 →
  Forall (λ c, c ≠ CDrop (next_handle m)) after →
  ∀ script' v,
    let w := mk_world (pools (world m2)) script' in
    ∃ w1 r1 w2 v2 r2,
      to_vec w d = Ret (w1, r1) ∧ write_to vec_write_all w d v = Ret (w2, v2, r2) ∧
      (∀ bs, r1 = Ok bs → bs = data) ∧ (r2 = Ok tt → v2 = v ++ data) ∧
      (forallb cooperative script' = true → r1 = Ok data ∧ r2 = Ok tt).
Proof.
  intros Hbefore Hstore Hd Hafter Hkeep script' v.
  destruct (machine_run_ok before _ (machine_new_inv script)) as (m' & E & Hi & _).
  rewrite Hbefore in E. injection E as <-.
  destruct (mi_fresh _ Hi (next_handle m)) as [Hn _]; [lia |].
  destruct (machine_step_ok m (CStore p data) Hi) as (m1' & E1 & Hi1 & _).
  rewrite Hstore in E1. injection E1 as <-.
  cbn [machine_step] in Hstore.
  destruct (pools (world m) !! p) as [i|] eqn:Hp; [| simplify_eq; congruence].
  destruct (store_ok _ _ _ _ data Hp (mi_pools _ Hi _ _ Hp)) as (w' & i' & r & Es & Hw & _ & Hr).
  rewrite Es in Hstore. simpl in Hstore. injection Hstore as <-.
  destruct r as [[d'|]|]; simpl in Hd; [| congruence..].
  rewrite lookup_insert_eq in Hd. simplify_eq. destruct Hr as (e & -> & Hok & Hb).
  destruct (machine_run_ok after _ Hi1) as (m2' & E2 & Hi2 & Hs).
  rewrite Hafter in E2. injection E2 as <-.
  destruct (Hs (next_handle m) (mk_data p e)) as [Hd2 Hst]; [apply lookup_insert_eq | done |].
  destruct (Hst data) as (i2 & Hp2 & Hb2).
  { exists i'. split; [| done]. simpl. rewrite Hw. apply lookup_insert_eq. }
  simpl in Hp2, Hb2. pose proof (mi_pools _ Hi2 _ _ Hp2) as [Ha2 _].
  destruct (alloc_inv_live _ _ e Ha2) as [_ Hend]; [by eapply live_elem |].
  assert (Hmax : end_ e ≤ u64_max) by (pose proof (ai_tail _ _ Ha2); lia). set (w := mk_world (pools (world m2)) script').
  destruct (to_vec_ok w (mk_data p e) i2 data) as (os1 & r1 & Ev & Hv & Hcv); [done.. |].
  destruct (write_to_ok w (mk_data p e) i2 data v) as (w2 & v2 & r2 & Ew & Hwo); [done.. |].
  do 5 eexists. split_and!; [exact Ev | exact Ew | done | |].
  - intros Hr2. by apply Hwo; left.
  - intros Hc. split; [by apply Hcv |]. by apply Hwo; right.
Qed.

(** Placement policy of a reservation on a writable pool. If some free
    chunk is large enough, the extent starts at the lowest exact fit, else at
    the lowest of the largest chunks, and the file does not grow; otherwise
    it is appended at the tail, and refused exactly when the new tail leaves
    the capacity or the 64-bit range. *)
Theorem reserve_policy (w : World) (p : DiskPool) (i : DiskPoolInner) (l : list Extent) (size : N) :
  pools w !! p = Some i → pool_ok i l → may_write (state i) = true → 0 < size →
  ∃ i' c, try_reserve_chunk w p size = Ret (set_pool w p i', c) ∧
    match c with
    | Some c => ∃ e, c = mk_reserved p (Some e) ∧ len e = size ∧
        ((∃ n, best_choice (state i) size (Some (mk_extent (offset e) n)) ∧
               file_tail (state i') = file_tail (state i)) ∨
         (best_choice (state i) size None ∧ offset e = file_tail (state i) ∧
          file_tail (state i') = file_tail (state i) + size))
    | None => i' = i ∧ best_choice (state i) size None ∧
        from_option id u64_max (max_capacity i) `min` u64_max < file_tail (state i) + size
    end.
Proof.
  intros Hp Hi Hm Hsz. unfold try_reserve_chunk. rewrite (proj2 (N.eqb_neq size 0)) by lia.
  rewrite Hp. simpl. rewrite Hm. simpl.
  destruct (find_free_chunk_ok _ _ size (po_alloc _ _ Hi) Hsz) as (s & c & E & Hc).
  rewrite E. simpl. destruct c as [e|].
  { destruct Hc as (Hlen & _ & Ht & _ & n & Hb). eexists _, _. split; [done |].
    exists e. split_and!; [done.. |]. left. eauto. }
  destruct Hc as [-> Hb]. replace (set_state i (state i)) with i by by destruct i.
  destruct (grow i size) as [[s e]|] eqn:Eg.
  - pose proof (grow_ok _ _ _ _ _ Hi Hsz Eg) as (Hlen & Hoff & _).
    eexists _, _. split; [done |]. exists e. split_and!; [done.. |]. right. split_and!; [done.. |].
    unfold grow, checked_add64 in Eg. simpl in Eg.
    destruct (_ + size <=? u64_max)%N; simpl in Eg; [| done].
    destruct (match max_capacity i with Some _ => _ | None => _ end) in Eg; by simplify_eq.
  - eexists _, _. split; [done |]. split_and!; [done.. |].
    unfold grow, checked_add64 in Eg. simpl in Eg.
    destruct (N.leb_spec (file_tail (state i) + size) u64_max); simpl in Eg.
    + destruct (max_capacity i) as [cap|]; simpl; [| done].
      destruct (N.ltb_spec cap (file_tail (state i) + size)); [lia | done].
    + lia.
Qed.

(** Coalescing is complete. Once a client has dropped every handle of a
    pool, the whole file is one free chunk, and any reservation up to that
    size succeeds at offset 0 without growing the file. *)
Theorem all_released_one_hole (script : list io_response) (cs : list pool_call) (m : Machine)
    (p : DiskPool) (i : DiskPoolInner) :
  machine_run (machine_new script) cs = Ret m → pools (world m) !! p = Some i →
  live (handles m) p = [] →
  let s := state i in
  free_extents s = (if file_tail s =? 0 then [] else [mk_extent 0 (file_tail s)]) ∧
  free_bytes s = file_tail s ∧
  ∀ size, may_write s = true → 0 < size ≤ file_tail s →
    ∃ w, try_reserve_chunk (world m) p size = Ret (w, Some (mk_reserved p (Some (mk_extent 0 size)))).
Proof.
  intros Hrun Hp Hl. destruct (machine_run_ok cs _ (machine_new_inv script)) as (m' & E & Hi & _).
  rewrite Hrun in E. injection E as <-. pose proof (mi_pools _ Hi _ _ Hp) as Hok. rewrite Hl in Hok.
  pose proof (all_free_one_hole _ (po_alloc _ _ Hok)) as Hfree. cbn zeta. split; [done |]. split.
  { destruct Hok as [[[_ Hb] [_ _ Hs] _ _] _]. rewrite Hb. by rewrite app_nil_r in Hs. }
  intros size Hm Hsz. unfold try_reserve_chunk. rewrite (proj2 (N.eqb_neq size 0)) by lia.
  rewrite Hp. simpl. rewrite Hm. simpl.
  destruct (find_free_chunk_ok _ _ size (po_alloc _ _ Hok)) as (s & c & Ef & Hc); [lia |].
  rewrite Ef. simpl. rewrite (proj2 (N.eqb_neq (file_tail (state i)) 0)) in Hfree by lia.
  destruct c as [e|].
  - destruct Hc as (Hlen & _ & _ & _ & n & Hin & _). rewrite Hfree in Hin.
    apply list_elem_of_singleton in Hin. destruct e as [o n']. simpl in *. simplify_eq. by eexists.
  - destruct Hc as [_ Hb]. specialize (Hb (mk_extent 0 (file_tail (state i)))).
    rewrite Hfree in Hb. simpl in Hb. specialize (Hb ltac:(set_solver)). lia.
Qed.

(** A failed store gives its space back and disables the pool. When the
    operating system fails the write, no owned extent is lost or added, data
    stored before stays intact, and every later reservation is refused
    without touching the pool. *)
Theorem failed_store_disables (w w' : World) (p : DiskPool) (i : DiskPoolInner) (l : list Extent)
    (data : list byte) (err : io_error) :
  pools w !! p = Some i → pool_ok i l → store w p data = Ret (w', Err err) →
  ∃ i', pools w' !! p = Some i' ∧ pool_ok i' l ∧ may_write (state i') = false ∧
    (∀ d bs, d ∈ l → holds (file i) d bs → holds (file i') d bs) ∧
    ∀ size, try_reserve_chunk w' p size = Ret (w', None).
Proof.
  intros Hp Hi E. destruct (store_ok _ _ _ _ data Hp Hi) as (w1 & i' & r & E1 & Hw & Hk & Hr).
  rewrite E in E1. injection E1 as <- <-. exists i'.
  assert (Hp' : pools w' !! p = Some i') by (rewrite Hw; apply lookup_insert_eq).
  assert (Hm : may_write (state i') = false).
  { unfold store in E. inv_run. destruct r as [w1 [c|]]; inv_run.
    destruct (try_reserve_chunk_ok _ _ _ _ (data_len data) Hp Hi) as (i1 & c' & E' & _ & Hc).
    rewrite E0 in E'. simplify_eq. destruct Hc as (e & -> & Hlen & _). destruct r as [w2 [d|err']]; inv_run.
    destruct (write_err_disables _ _ _ _ _ _ _ (lookup_insert_eq _ _ _) Hlen E1) as (i2 & Hi2 & Hm).
    by simplify_eq. }
  split_and!; [done.. |]. intros size. unfold try_reserve_chunk.
  destruct (size =? 0); [done |]. rewrite Hp'. simpl. by rewrite Hm.
Qed.

(** ** Witnesses *)
Definition demo_script : list io_response := [Transferred 1; Interrupted; Transferred 2].

(** One pool; three payloads stored, the middle one dropped and reused. *)
Definition demo_before : list pool_call :=
  [CNew (Some 64); CStore 0 [x01; x02; x03]; CReserve 0 4; CWrite 0 2 [x04; x05; x06; x07]].

Definition demo_after : list pool_call := [CDrop 3; CStore 0 [x09; x0a]; CRead 4 0 1].

Definition ret_or {A} (d : A) (r : run A) : A := match r with Ret a => a | Panic => d end.

Definition demo_machine : Machine :=
  Eval vm_compute in ret_or (machine_new []) (machine_run (machine_new demo_script) demo_before).

Definition demo_stored : Machine :=
  Eval vm_compute in ret_or (machine_new []) (machine_step demo_machine (CStore 0 [x08])).

Definition demo_final : Machine :=
  Eval vm_compute in ret_or (machine_new []) (machine_run demo_stored demo_after).

Lemma stored_data_stable_witness :
  ∃ w1 w2 v2 r2,
    to_vec (mk_world (pools (world demo_final)) [Interrupted]) (mk_data 0 (mk_extent 7 1))
      = Ret (w1, Ok [x08]) ∧
    write_to vec_write_all (mk_world (pools (world demo_final)) [Interrupted])
      (mk_data 0 (mk_extent 7 1)) [] = Ret (w2, v2, r2) ∧ v2 = [x08].
Proof.
  destruct (stored_data_stable demo_script demo_before demo_after demo_machine demo_stored demo_final
              0 (mk_data 0 (mk_extent 7 1)) [x08]) with (script' := [Interrupted]) (v := @nil byte)
    as (w1 & r1 & w2 & v2 & r2 & E1 & E2 & _ & Hv & Hc).
  - vm_compute; reflexivity.
  - vm_compute; reflexivity.
  - vm_compute; reflexivity.
  - vm_compute; reflexivity.
  - repeat constructor; discriminate.
  - destruct (Hc eq_refl) as [-> ->]. exists w1, w2, v2, (Ok tt). split_and!; auto.
Defined.

Definition demo_holes : list pool_call :=
  [CNew None; CStore 0 [x01; x02; x03]; CStore 0 [x04]; CStore 0 [x05; x06]; CDrop 1].

Definition demo_released : Machine :=
  Eval vm_compute in ret_or (machine_new [])
    (machine_run (machine_new []) (demo_holes ++ [CDrop 3; CDrop 2])).

Lemma all_released_one_hole_witness :
  ∃ i, pools (world demo_released) !! 0 = Some i ∧ free_extents (state i) = [mk_extent 0 6] ∧
    ∃ w, try_reserve_chunk (world demo_released) 0 5
         = Ret (w, Some (mk_reserved 0 (Some (mk_extent 0 5)))).
Proof.
  eexists. split; [vm_compute; reflexivity |].
  destruct (all_released_one_hole [] (demo_holes ++ [CDrop 3; CDrop 2]) demo_released 0
              (default (mk_inner file_new None alloc_default) (pools (world demo_released) !! 0)))
    as (Hf & _ & Hr).
  - vm_compute; reflexivity.
  - vm_compute; reflexivity.
  - vm_compute; reflexivity.
  - split; [exact Hf |]. apply Hr; [reflexivity |]. vm_compute. split; [reflexivity | discriminate].
Defined.

(** The allocator invariant of a concrete pool, from the history that built it. *)
Lemma demo_pool_ok script cs m p i :
  machine_run (machine_new script) cs = Ret m → pools (world m) !! p = Some i →
  pool_ok i (live (handles m) p).
Proof.
  intros Hr Hp. destruct (machine_run_ok cs _ (machine_new_inv script)) as (m' & E & Hi & _).
  rewrite Hr in E. injection E as <-. by apply mi_pools.
Qed.

Definition demo_fragmented : Machine :=
  Eval vm_compute in ret_or (machine_new []) (machine_run (machine_new []) demo_holes).

Definition demo_inner (m : Machine) : DiskPoolInner :=
  default (mk_inner file_new None alloc_default) (pools (world m) !! 0).

Lemma reserve_policy_witness :
  ∃ i', try_reserve_chunk (world demo_fragmented) 0 2
        = Ret (set_pool (world demo_fragmented) 0 i', Some (mk_reserved 0 (Some (mk_extent 0 2)))) ∧
    best_choice (state (demo_inner demo_fragmented)) 2 (Some (mk_extent 0 3)).
Proof.
  destruct (reserve_policy (world demo_fragmented) 0 (demo_inner demo_fragmented)
              (live (handles demo_fragmented) 0) 2) as (i' & c & E & Hc).
  - vm_compute; reflexivity.
  - apply (demo_pool_ok [] demo_holes); vm_compute; reflexivity.
  - reflexivity.
  - reflexivity.
  - exists i'. vm_compute in E. injection E as E1 E2. subst c. simpl in Hc.
    destruct Hc as (e & [= <-] & _ & [(n & Hb & _)|(Hb & Ho & _)]); [| discriminate Ho].
    assert (n = 3) as ->.
    { pose proof (proj1 Hb) as Hin. apply elem_of_free_extents in Hin. vm_compute in Hin. congruence. }
    split; [| done]. rewrite <-E1. vm_compute. reflexivity.
Defined.

Definition failing_world : World :=
  Eval vm_compute in mk_world (pools (world demo_fragmented)) [Transferred 1; Failed 28].

Definition failed_world : World :=
  Eval vm_compute in (ret_or (failing_world, Ok None) (store failing_world 0 [x0b; x0c])).1.

Lemma failed_store_disables_witness :
  store failing_world 0 [x0b; x0c] = Ret (failed_world, Err (OsError 28)) ∧
  ∀ size, try_reserve_chunk failed_world 0 size = Ret (failed_world, None).
Proof.
  destruct (failed_store_disables failing_world failed_world 0 (demo_inner demo_fragmented)
              (live (handles demo_fragmented) 0) [x0b; x0c] (OsError 28))
    as (i' & _ & _ & _ & _ & Hr).
  - vm_compute; reflexivity.
  - apply (demo_pool_ok [] demo_holes); vm_compute; reflexivity.
  - vm_compute; reflexivity.
  - split; [vm_compute; reflexivity | exact Hr].
Defined.
