(* ===== verification/Timers.v ===== *)
(** * Timer scheduler (moli-time, timers.rs)

    [TimerScheduler] keeps every scheduled timer in a heap and the ids that
    are still active in a set: cancelling only forgets the id and leaves a
    stale heap entry behind.  The file models all operations, states what
    the scheduler promises as transitions on the waiting timers alone, and
    proves that the heap with its stale entries implements it. *)

From S2P Require Import Prelude.

#[local] Open Scope N_scope.

Definition instant_add_millis (now delay_ms : N) : run N :=
  let t := now + delay_ms * nanos_per_milli in
  if t <=? instant_max then Ret t else Panic.

(** [duration.as_millis() as u64] of a difference of instants *)
Definition as_millis_u64 (d : N) : N := (d / nanos_per_milli) mod (u64_max + 1).

Section scheduler.
Context {T : Type}.

(** [TimerId::new]: zero is not an id. *)
Definition timer_id_new (n : N) : option N := if n =? 0 then None else Some n.

Record ReadyTimer := mk_ready { ready_id : N; ready_delay_ms : N; ready_payload : T }.

Record ScheduledTimer := mk_timer {
  timer_id : N;
  sequence : N;
  run_at : N;
  delay_ms : N;
  payload : T
}.

Definition is_ready_at (t : ScheduledTimer) (now : N) : bool := run_at t <=? now.

(** The [Ord] instance: the greatest element of the heap is the earliest timer. *)
Definition timer_cmp (l r : ScheduledTimer) : comparison :=
  match CompOpp (run_at l ?= run_at r) with
  | Eq => CompOpp (sequence l ?= sequence r)
  | ordering => ordering
  end.

Definition timer_precedes (l r : ScheduledTimer) : bool :=
  match run_at l ?= run_at r with
  | Lt => true
  | Eq => sequence l <? sequence r
  | Gt => false
  end.

(** [BinaryHeap]: a collection in an order of its own, whose [peek] and [pop]
    give a greatest element. *)
Fixpoint extract_max (x : ScheduledTimer) (l : list ScheduledTimer)
    : ScheduledTimer * list ScheduledTimer :=
  match l with
  | [] => (x, [])
  | y :: l =>
      let '(m, r) := extract_max y l in
      match timer_cmp m x with Gt => (m, x :: r) | _ => (x, m :: r) end
  end.

Definition heap_pop (l : list ScheduledTimer) : option (ScheduledTimer * list ScheduledTimer) :=
  match l with [] => None | x :: l => Some (extract_max x l) end.

Definition heap_peek (l : list ScheduledTimer) : option ScheduledTimer := fst <$> heap_pop l.

Record TimerScheduler := mk_scheduler {
  pending : list ScheduledTimer;
  active : gset N;
  running : gset N;
  cancelled_running : gset N;
  next_id : N;
  next_sequence : N
}.

Definition scheduler_default : TimerScheduler := mk_scheduler [] ∅ ∅ ∅ 1 0.

Definition is_active (s : TimerScheduler) (t : ScheduledTimer) : bool :=
  bool_decide (timer_id t ∈ active s).

(** The [loop] of [allocate_id], with fuel. *)
Fixpoint allocate_loop (fuel : nat) (used : gset N) (next : N) : run (N * N) :=
  match fuel with
  | 0%nat => Panic
  | S fuel =>
      let id := N.max next 1 in
      let next := N.max (wrapping_succ32 next) 1 in
      if bool_decide (id ∉ used) then Ret (id, next) else allocate_loop fuel used next
  end.

(** One try more than there are ids in use. *)
Definition allocate_id (s : TimerScheduler) : run (N * TimerScheduler) :=
  let used := active s ∪ running s in
  '(id, next) ← allocate_loop (S (size used)) used (next_id s);
  Ret (id, mk_scheduler (pending s) (active s) (running s) (cancelled_running s) next
             (next_sequence s)).

Definition schedule_existing_after (s : TimerScheduler) (id : N) (p : T) (delay now : N)
    : run TimerScheduler :=
  at_ ← instant_add_millis now delay;
  Ret (mk_scheduler (pending s ++ [mk_timer id (next_sequence s) at_ delay p])
         ({[id]} ∪ active s) (running s) (cancelled_running s) (next_id s)
         (saturating_add64 (next_sequence s) 1)).

Definition schedule_after (s : TimerScheduler) (p : T) (delay now : N)
    : run (N * TimerScheduler) :=
  '(id, s) ← allocate_id s;
  s ← schedule_existing_after s id p delay now;
  Ret (id, s).

Definition set_active (s : TimerScheduler) (a : gset N) : TimerScheduler :=
  mk_scheduler (pending s) a (running s) (cancelled_running s) (next_id s) (next_sequence s).

Definition set_pending (s : TimerScheduler) (l : list ScheduledTimer) : TimerScheduler :=
  mk_scheduler l (active s) (running s) (cancelled_running s) (next_id s) (next_sequence s).

Definition cancel (s : TimerScheduler) (id : N) : bool * TimerScheduler :=
  if bool_decide (id ∈ active s) then (true, set_active s (active s ∖ {[id]}))
  else if bool_decide (id ∈ running s) then
    (bool_decide (id ∉ cancelled_running s),
     mk_scheduler (pending s) (active s) (running s) ({[id]} ∪ cancelled_running s) (next_id s)
       (next_sequence s))
  else (false, s).

(** The loop of [cancel_matching] over the heap. *)
Fixpoint cancel_loop (f : T → bool) (l : list ScheduledTimer) (a : gset N) (n : nat)
    : nat * gset N :=
  match l with
  | [] => (n, a)
  | t :: l =>
      if bool_decide (timer_id t ∈ a) && f (payload t)
      then cancel_loop f l (a ∖ {[timer_id t]}) (S n)
      else cancel_loop f l a n
  end.

Definition cancel_matching (s : TimerScheduler) (f : T → bool) : nat * TimerScheduler :=
  let '(n, a) := cancel_loop f (pending s) (active s) 0 in (n, set_active s a).

Definition find_timer (f : ScheduledTimer → bool) (l : list ScheduledTimer) : option ScheduledTimer :=
  head (filter (λ t, f t = true) l).

Definition active_payload (s : TimerScheduler) (id : N) : option T :=
  if bool_decide (id ∈ active s)
  then payload <$> find_timer (λ t, timer_id t =? id) (pending s)
  else None.

(** The bookkeeping shared by both [take] operations. *)
Definition start_running (s : TimerScheduler) (t : ScheduledTimer) : TimerScheduler :=
  mk_scheduler (pending s) (active s ∖ {[timer_id t]}) ({[timer_id t]} ∪ running s)
    (cancelled_running s) (next_id s) (next_sequence s).

Definition ready_of (t : ScheduledTimer) : ReadyTimer :=
  mk_ready (timer_id t) (delay_ms t) (payload t).

(** The [loop] of [take_next_ready]; every [continue] pops an entry. *)
Fixpoint take_loop (fuel : nat) (s : TimerScheduler) (now : N)
    : run (option ReadyTimer * TimerScheduler) :=
  match fuel with
  | 0%nat => Panic
  | S fuel =>
      match heap_pop (pending s) with
      | None => Ret (None, s)
      | Some (t, rest) =>
          if negb (is_active s t) then take_loop fuel (set_pending s rest) now
          else if negb (is_ready_at t now) then Ret (None, s)
          else Ret (Some (ready_of t), start_running (set_pending s rest) t)
      end
  end.

Definition take_next_ready (s : TimerScheduler) (now : N) : run (option ReadyTimer * TimerScheduler) :=
  take_loop (S (length (pending s))) s now.

(** The loop of [next_ready_matching_timer] over the heap. *)
Definition select_step (s : TimerScheduler) (now : N) (f : T → bool)
    (selected : option ScheduledTimer) (t : ScheduledTimer) : option ScheduledTimer :=
  if negb (is_active s t) then selected
  else if negb (is_ready_at t now) then selected
  else if f (payload t) &&
          match selected with None => true | Some current => timer_precedes t current end
  then Some t else selected.

Definition next_ready_matching_timer (s : TimerScheduler) (now : N) (f : T → bool)
    : option ScheduledTimer :=
  foldl (select_step s now f) None (pending s).

(** The partition loop of [take_next_ready_matching]: the first entry with the
    selected id and sequence leaves, inactive ones are swept. *)
Fixpoint retain_loop (s : TimerScheduler) (id seq : N) (l : list ScheduledTimer)
    (selected : option ScheduledTimer) (retained : list ScheduledTimer)
    : option ScheduledTimer * list ScheduledTimer :=
  match l with
  | [] => (selected, retained)
  | t :: l =>
      if match selected with None => true | Some _ => false end
         && (timer_id t =? id) && (sequence t =? seq)
      then retain_loop s id seq l (Some t) retained
      else if is_active s t then retain_loop s id seq l selected (retained ++ [t])
      else retain_loop s id seq l selected retained
  end.

Definition take_next_ready_matching (s : TimerScheduler) (now : N) (f : T → bool)
    : option ReadyTimer * TimerScheduler :=
  match next_ready_matching_timer s now f with
  | None => (None, s)
  | Some sel =>
      let '(selected, retained) := retain_loop s (timer_id sel) (sequence sel) (pending s) None [] in
      let s := set_pending s retained in
      match selected with
      | None => (None, s)
      | Some t => (Some (ready_of t), start_running s t)
      end
  end.

Definition has_ready_matching (s : TimerScheduler) (now : N) (f : T → bool) : bool :=
  existsb (λ t, is_active s t && is_ready_at t now && f (payload t)) (pending s).

Definition finish_running (s : TimerScheduler) (id : N) : TimerScheduler :=
  mk_scheduler (pending s) (active s) (running s ∖ {[id]}) (cancelled_running s ∖ {[id]})
    (next_id s) (next_sequence s).

Definition reschedule_running_after (s : TimerScheduler) (id : N) (p : T) (delay now : N)
    : run (bool * TimerScheduler) :=
  let cancelled := bool_decide (id ∈ cancelled_running s) in
  let s := finish_running s id in
  if cancelled then Ret (false, s)
  else s ← schedule_existing_after s id p delay now; Ret (true, s).

Definition has_ready_timer (s : TimerScheduler) (now : N) : bool :=
  existsb (λ t, is_active s t && is_ready_at t now) (pending s).

Definition next_ready_deadline_matching (s : TimerScheduler) (now : N) (f : T → bool) : option N :=
  run_at <$> next_ready_matching_timer s now f.

Definition next_deadline (s : TimerScheduler) : option N :=
  min_by id (run_at <$> filter (λ t, is_active s t = true) (pending s)).

Definition ms_to_next (s : TimerScheduler) (now : N) : option N :=
  (λ deadline, if deadline <=? now then 0 else N.max (as_millis_u64 (deadline - now)) 1)
    <$> next_deadline s.

Definition pending_count (s : TimerScheduler) : nat := size (active s).

(** ** What the scheduler promises

    The waiting timers by id, the ids whose callback runs and those of them
    cancelled meanwhile; no heap and no stale entries. *)
Record TimerSpec := mk_spec {
  waiting : gmap N ScheduledTimer;
  sp_running : gset N;
  sp_cancelled : gset N
}.

Inductive timer_call :=
| CSchedule (p : T) (delay now : N)
| CCancel (id : N)
| CCancelMatching (f : T → bool)
| CActivePayload (id : N)
| CTake (now : N)
| CTakeMatching (now : N) (f : T → bool)
| CHasReady (now : N)
| CHasReadyMatching (now : N) (f : T → bool)
| CFinish (id : N)
| CReschedule (id : N) (p : T) (delay now : N)
| CNextReadyDeadline (now : N) (f : T → bool)
| CNextDeadline
| CMsToNext (now : N)
| CPendingCount.

Inductive timer_out :=
| OUnit | OId (id : N) | OBool (b : bool) | OCount (n : nat) | OPayload (p : option T)
| OReady (r : option ReadyTimer) | OInstant (d : option N).

Definition timer_exec (s : TimerScheduler) (c : timer_call) : run (timer_out * TimerScheduler) :=
  match c with
  | CSchedule p delay now => '(id, s) ← schedule_after s p delay now; Ret (OId id, s)
  | CCancel id => let '(b, s) := cancel s id in Ret (OBool b, s)
  | CCancelMatching f => let '(n, s) := cancel_matching s f in Ret (OCount n, s)
  | CActivePayload id => Ret (OPayload (active_payload s id), s)
  | CTake now => '(r, s) ← take_next_ready s now; Ret (OReady r, s)
  | CTakeMatching now f => let '(r, s) := take_next_ready_matching s now f in Ret (OReady r, s)
  | CHasReady now => Ret (OBool (has_ready_timer s now), s)
  | CHasReadyMatching now f => Ret (OBool (has_ready_matching s now f), s)
  | CFinish id => Ret (OUnit, finish_running s id)
  | CReschedule id p delay now => '(b, s) ← reschedule_running_after s id p delay now; Ret (OBool b, s)
  | CNextReadyDeadline now f => Ret (OInstant (next_ready_deadline_matching s now f), s)
  | CNextDeadline => Ret (OInstant (next_deadline s), s)
  | CMsToNext now => Ret (OInstant (ms_to_next s now), s)
  | CPendingCount => Ret (OCount (pending_count s), s)
  end.

(** [t] fires before [u]: by deadline, then in scheduling order. *)
Definition before (t u : ScheduledTimer) : Prop :=
  run_at t < run_at u ∨ run_at t = run_at u ∧ sequence t < sequence u.

Definition candidate (σ : TimerSpec) (now : N) (f : T → bool) (t : ScheduledTimer) : Prop :=
  waiting σ !! timer_id t = Some t ∧ run_at t ≤ now ∧ f (payload t) = true.

Definition earliest (σ : TimerSpec) (now : N) (f : T → bool) (o : option ScheduledTimer) : Prop :=
  match o with
  | Some t => candidate σ now f t ∧ ∀ u, candidate σ now f u → u = t ∨ before t u
  | None => ∀ u, ¬ candidate σ now f u
  end.

Definition any : T → bool := λ _, true.

Definition take_result (σ : TimerSpec) (o : option ScheduledTimer) : TimerSpec :=
  match o with
  | Some t => mk_spec (delete (timer_id t) (waiting σ)) ({[timer_id t]} ∪ sp_running σ) (sp_cancelled σ)
  | None => σ
  end.

(** A timer scheduled now is newer than every waiting one. *)
Definition scheduled (σ : TimerSpec) (id : N) (p : T) (delay now : N) (t : ScheduledTimer) : Prop :=
  timer_id t = id ∧ payload t = p ∧ delay_ms t = delay ∧ run_at t = now + delay * nanos_per_milli ∧
  ∀ i u, waiting σ !! i = Some u → sequence u < sequence t.

Definition deadline_of (σ : TimerSpec) (d : option N) : Prop :=
  match d with
  | Some d => (∃ i t, waiting σ !! i = Some t ∧ run_at t = d) ∧
              ∀ i t, waiting σ !! i = Some t → d ≤ run_at t
  | None => waiting σ = ∅
  end.

Inductive spec_step (σ : TimerSpec) : timer_call → timer_out → TimerSpec → Prop :=
| SpSchedule p delay now id t :
    id ≠ 0 → waiting σ !! id = None → id ∉ sp_running σ → scheduled σ id p delay now t →
    spec_step σ (CSchedule p delay now) (OId id)
      (mk_spec (<[id := t]> (waiting σ)) (sp_running σ) (sp_cancelled σ))
| SpCancelWaiting id t :
    waiting σ !! id = Some t →
    spec_step σ (CCancel id) (OBool true)
      (mk_spec (delete id (waiting σ)) (sp_running σ) (sp_cancelled σ))
| SpCancelRunning id :
    waiting σ !! id = None → id ∈ sp_running σ →
    spec_step σ (CCancel id) (OBool (bool_decide (id ∉ sp_cancelled σ)))
      (mk_spec (waiting σ) (sp_running σ) ({[id]} ∪ sp_cancelled σ))
| SpCancelUnknown id :
    waiting σ !! id = None → id ∉ sp_running σ → spec_step σ (CCancel id) (OBool false) σ
| SpCancelMatching f :
    spec_step σ (CCancelMatching f)
      (OCount (size (filter (λ it, f (payload it.2) = true) (waiting σ))))
      (mk_spec (filter (λ it, f (payload it.2) = false) (waiting σ)) (sp_running σ) (sp_cancelled σ))
| SpActivePayload id :
    spec_step σ (CActivePayload id) (OPayload (payload <$> waiting σ !! id)) σ
| SpTake now o :
    earliest σ now any o → spec_step σ (CTake now) (OReady (ready_of <$> o)) (take_result σ o)
| SpTakeMatching now f o :
    earliest σ now f o →
    spec_step σ (CTakeMatching now f) (OReady (ready_of <$> o)) (take_result σ o)
| SpHasReady now b :
    (b = true ↔ ∃ t, candidate σ now any t) → spec_step σ (CHasReady now) (OBool b) σ
| SpHasReadyMatching now f b :
    (b = true ↔ ∃ t, candidate σ now f t) → spec_step σ (CHasReadyMatching now f) (OBool b) σ
| SpFinish id :
    spec_step σ (CFinish id) OUnit
      (mk_spec (waiting σ) (sp_running σ ∖ {[id]}) (sp_cancelled σ ∖ {[id]}))
| SpRescheduleCancelled id p delay now :
    id ∈ sp_cancelled σ →
    spec_step σ (CReschedule id p delay now) (OBool false)
      (mk_spec (waiting σ) (sp_running σ ∖ {[id]}) (sp_cancelled σ ∖ {[id]}))
| SpReschedule id p delay now t :
    id ∉ sp_cancelled σ → scheduled σ id p delay now t →
    spec_step σ (CReschedule id p delay now) (OBool true)
      (mk_spec (<[id := t]> (waiting σ)) (sp_running σ ∖ {[id]}) (sp_cancelled σ ∖ {[id]}))
| SpNextReadyDeadline now f o :
    earliest σ now f o → spec_step σ (CNextReadyDeadline now f) (OInstant (run_at <$> o)) σ
| SpNextDeadline d : deadline_of σ d → spec_step σ CNextDeadline (OInstant d) σ
| SpMsToNext now d :
    deadline_of σ d →
    spec_step σ (CMsToNext now)
      (OInstant ((λ d, if d <=? now then 0 else N.max (as_millis_u64 (d - now)) 1) <$> d)) σ
| SpPendingCount : spec_step σ CPendingCount (OCount (size (waiting σ))) σ.

(** ** Abstraction and invariant *)
Definition waiting_of (s : TimerScheduler) : gmap N ScheduledTimer :=
  list_to_map ((λ t, (timer_id t, t)) <$> filter (λ t, is_active s t = true) (pending s)).

Definition abs (s : TimerScheduler) : TimerSpec :=
  mk_spec (waiting_of s) (running s) (cancelled_running s).

Record timers_inv (s : TimerScheduler) : Prop := {
  ti_ids : NoDup (timer_id <$> pending s);
  ti_seqs : NoDup (sequence <$> pending s);
  ti_newest : ∀ t, t ∈ pending s → sequence t < next_sequence s;
  ti_active : ∀ i, i ∈ active s → ∃ t, t ∈ pending s ∧ timer_id t = i;
  ti_running : ∀ i t, i ∈ running s → t ∈ pending s → timer_id t ≠ i;
  ti_cancelled : cancelled_running s ⊆ running s;
  ti_fresh : ∀ i, i ∈ running s ∨ (∃ t, t ∈ pending s ∧ timer_id t = i) → i < next_id s;
  ti_next : 1 ≤ next_id s
}.

(** The client reschedules only a timer whose callback is running; the id and
    sequence counters last; clock and delay are in range. *)
Definition legal (s : TimerScheduler) (c : timer_call) : bool :=
  match c with
  | CSchedule _ delay now =>
      (next_id s <? u32_max) && (next_sequence s <? u64_max) &&
      (now + delay * nanos_per_milli <=? instant_max)
  | CReschedule id _ delay now =>
      bool_decide (id ∈ running s) && (next_sequence s <? u64_max) &&
      (now + delay * nanos_per_milli <=? instant_max)
  | _ => true
  end.

(** ** Order *)
Lemma timer_cmp_Gt l r : timer_cmp l r = Gt ↔ before l r.
Proof.
  unfold timer_cmp, before.
  destruct (N.compare_spec (run_at l) (run_at r)); simpl; [| naive_solver lia..].
  destruct (N.compare_spec (sequence l) (sequence r)); simpl; naive_solver lia.
Qed.

Lemma timer_precedes_true l r : timer_precedes l r = true ↔ before l r.
Proof.
  unfold timer_precedes, before.
  destruct (N.compare_spec (run_at l) (run_at r)); [| naive_solver lia..].
  rewrite N.ltb_lt. naive_solver lia.
Qed.

Lemma extract_max_spec l : ∀ x m r,
  extract_max x l = (m, r) → x :: l ≡ₚ m :: r ∧ ∀ u, u ∈ r → ¬ before u m.
Proof.
  induction l as [|y l IH]; intros x m r; simpl; [intros [= <- <-]; set_solver |].
  destruct (extract_max y l) as [m' r'] eqn:E. apply IH in E as [Hp Hm].
  destruct (timer_cmp m' x) eqn:Ec; intros [= <- <-].
  3:{ apply timer_cmp_Gt in Ec. rewrite Hp, Permutation_swap. split; [done |].
      intros u [->|Hu]%elem_of_cons; [unfold before in *; lia | auto]. }
  all: assert (Hn : ¬ before m' x) by (rewrite <-timer_cmp_Gt; congruence);
    split; [by rewrite Hp |]; intros u [->|Hu]%elem_of_cons; [done |];
    specialize (Hm u Hu); unfold before in *; lia.
Qed.

Lemma heap_pop_Some l t r :
  heap_pop l = Some (t, r) → l ≡ₚ t :: r ∧ ∀ u, u ∈ r → ¬ before u t.
Proof. destruct l; simpl; [done |]. intros [= E]. by apply extract_max_spec in E. Qed.

Lemma heap_pop_None l : heap_pop l = None ↔ l = [].
Proof. by destruct l. Qed.

(** Timers with distinct sequence numbers are totally ordered. *)
Lemma before_total l t u :
  NoDup (sequence <$> l) → t ∈ l → u ∈ l → ¬ before u t → u = t ∨ before t u.
Proof.
  intros Hn Ht Hu Hb.
  destruct (decide (sequence u = sequence t)) as [He|He]; [left | right; unfold before in *; lia].
  apply list_elem_of_lookup in Ht as [i Hi], Hu as [j Hj].
  assert (i = j) as ->; [| congruence].
  apply (NoDup_lookup (sequence <$> l) i j (sequence t)); [done | |];
    rewrite list_lookup_fmap; [by rewrite Hi | by rewrite Hj, <-He].
Qed.

Lemma same_id_eq l t u :
  NoDup (timer_id <$> l) → t ∈ l → u ∈ l → timer_id t = timer_id u → t = u.
Proof.
  intros Hn [i Hi]%list_elem_of_lookup [j Hj]%list_elem_of_lookup He.
  assert (i = j) as ->; [| congruence].
  apply (NoDup_lookup (timer_id <$> l) i j (timer_id t)); [done | |];
    rewrite list_lookup_fmap; [by rewrite Hi | by rewrite Hj, He].
Qed.

(** ** The waiting timers *)
Lemma is_active_true s t : is_active s t = true ↔ timer_id t ∈ active s.
Proof. unfold is_active. apply bool_decide_eq_true. Qed.

Lemma NoDup_fmap_filter {B} (g : ScheduledTimer → B) (P : ScheduledTimer → Prop)
    `{∀ x, Decision (P x)} (l : list ScheduledTimer) :
  NoDup (g <$> l) → NoDup (g <$> filter P l).
Proof.
  induction l as [|t l IH]; intros Hn; [constructor |]. apply NoDup_cons in Hn as [Ht Hn].
  rewrite filter_cons. case_decide; [| auto]. simpl. constructor; [| auto].
  intros (u & Hu & [_ Hin]%list_elem_of_filter)%list_elem_of_fmap. apply Ht.
  apply list_elem_of_fmap. by exists u.
Qed.

Lemma waiting_lookup s i t :
  NoDup (timer_id <$> pending s) →
  waiting_of s !! i = Some t ↔ t ∈ pending s ∧ timer_id t = i ∧ i ∈ active s.
Proof.
  intros Hn. unfold waiting_of. rewrite <-elem_of_list_to_map.
  - rewrite list_elem_of_fmap. setoid_rewrite list_elem_of_filter.
    setoid_rewrite is_active_true. naive_solver.
  - rewrite <-list_fmap_compose. by apply NoDup_fmap_filter.
Qed.

Lemma waiting_None s i : timers_inv s → waiting_of s !! i = None ↔ i ∉ active s.
Proof.
  intros Hi. split.
  - intros Hw Hia. destruct (ti_active _ Hi i Hia) as (t & Ht & Hti).
    assert (Hs : waiting_of s !! i = Some t) by (apply waiting_lookup; [apply Hi | done]). congruence.
  - intros Hn. destruct (waiting_of s !! i) as [t|] eqn:E; [| done].
    apply waiting_lookup in E as (_ & _ & ?); [done | apply Hi].
Qed.

Lemma dom_waiting s : timers_inv s → dom (waiting_of s) = active s.
Proof.
  intros Hi. apply set_eq. intros i. rewrite elem_of_dom. split.
  - intros [t Ht]. by apply waiting_lookup in Ht as (_ & _ & ?); [| apply Hi].
  - intros Ha. apply not_eq_None_Some. rewrite (waiting_None s i Hi). tauto.
Qed.

Lemma candidate_abs s now f t :
  timers_inv s →
  candidate (abs s) now f t ↔
  t ∈ pending s ∧ is_active s t = true ∧ is_ready_at t now = true ∧ f (payload t) = true.
Proof.
  intros Hi. unfold candidate, is_ready_at. simpl. rewrite waiting_lookup by apply Hi.
  rewrite is_active_true, N.leb_le. naive_solver.
Qed.

(** Two maps with the same entries are equal. *)
Lemma waiting_eq (m1 m2 : gmap N ScheduledTimer) :
  (∀ i t, m1 !! i = Some t ↔ m2 !! i = Some t) → m1 = m2.
Proof. intros H. apply map_eq. intros i. apply option_eq. intros t. apply H. Qed.

(** Dropping entries from the heap keeps the invariant, as long as active
    timers stay, and keeps what the client sees. *)
Lemma timers_inv_sub s l k :
  timers_inv s → pending s ≡ₚ l ++ k → (∀ t, t ∈ k → timer_id t ∉ active s) →
  timers_inv (set_pending s l) ∧ abs (set_pending s l) = abs s.
Proof.
  intros Hi Hp Hk. assert (Hsub : ∀ t, t ∈ l → t ∈ pending s) by (intros; rewrite Hp; set_solver).
  assert (Hids : NoDup (timer_id <$> l)).
  { pose proof (ti_ids _ Hi) as Hn. rewrite Hp, fmap_app in Hn. by apply NoDup_app in Hn as [? _]. }
  split.
  - destruct Hi as [H1 H2 H3 H4 H5 H6 H7 H8]. split; simpl; auto.
    + rewrite Hp, fmap_app in H2. by apply NoDup_app in H2 as [? _].
    + intros i Ha. destruct (H4 i Ha) as (t & Ht & Hti). exists t. split; [| done].
      rewrite Hp, elem_of_app in Ht. destruct Ht as [|Ht]; [done |]. specialize (Hk t Ht). congruence.
    + intros i [Hr|(t & Ht & Hti)]; apply H7; [by left | right; eauto].
  - unfold abs. simpl. f_equal. apply waiting_eq. intros i t.
    rewrite !waiting_lookup by (done || apply Hi). simpl. rewrite Hp, elem_of_app. naive_solver.
Qed.

(** Starting the callback of an active timer. *)
Lemma start_running_ok s t l :
  timers_inv s → t ∈ pending s → timer_id t ∈ active s →
  (∃ k, pending s ≡ₚ t :: l ++ k ∧ ∀ u, u ∈ k → timer_id u ∉ active s) →
  timers_inv (start_running (set_pending s l) t) ∧
  abs (start_running (set_pending s l) t) = take_result (abs s) (Some t).
Proof.
  intros Hi Ht Ha (k & Hp & Hk).
  assert (Hsub : ∀ u, u ∈ l → u ∈ pending s) by (intros; rewrite Hp; set_solver).
  pose proof (ti_ids _ Hi) as Hn. rewrite Hp in Hn. simpl in Hn.
  apply NoDup_cons in Hn as [Htl Hn]. rewrite fmap_app in Hn, Htl.
  assert (Hids : NoDup (timer_id <$> l)) by by apply NoDup_app in Hn as [? _].
  assert (Hne : ∀ u, u ∈ l → timer_id u ≠ timer_id t).
  { intros u Hu He. apply Htl, elem_of_app. left. apply list_elem_of_fmap. by exists u. }
  split.
  - destruct Hi as [H1 H2 H3 H4 H5 H6 H7 H8]. split; simpl; auto.
    + rewrite Hp in H2. simpl in H2. apply NoDup_cons in H2 as [_ H2].
      rewrite fmap_app in H2. by apply NoDup_app in H2 as [? _].
    + intros i [Hia Hit]%elem_of_difference. destruct (H4 i Hia) as (u & Hu & Hui). exists u.
      split; [| done]. rewrite Hp in Hu. apply elem_of_cons in Hu as [->|Hu]; [set_solver |].
      apply elem_of_app in Hu as [|Hu]; [done |]. specialize (Hk u Hu). congruence.
    + intros i u Hir Hu. apply elem_of_union in Hir as [->%elem_of_singleton|Hir]; auto.
    + set_solver.
    + intros i [Hir|(u & Hu & Hui)]; apply H7; [| right; eauto].
      apply elem_of_union in Hir as [->%elem_of_singleton|Hir]; [right; eauto | by left].
  - unfold abs, take_result. simpl. f_equal. apply waiting_eq. intros i u.
    rewrite waiting_lookup by done. simpl. rewrite lookup_delete_Some, waiting_lookup by apply Hi.
    rewrite Hp, elem_of_cons, elem_of_app. set_solver.
Qed.

(** ** Operations against the specification *)
Lemma take_loop_ok now fuel : ∀ s,
  timers_inv s → (length (pending s) < fuel)%nat →
  ∃ o s', take_loop fuel s now = Ret (ready_of <$> o, s') ∧ timers_inv s' ∧
    earliest (abs s) now any o ∧ abs s' = take_result (abs s) o.
Proof.
  induction fuel as [|fuel IH]; intros s Hi Hf; [lia |]. cbn [take_loop].
  destruct (heap_pop (pending s)) as [[t r]|] eqn:E.
  2:{ apply heap_pop_None in E. exists None, s. split_and!; [done.. | | done].
      intros u Hu%candidate_abs; [| done]. rewrite E in Hu. set_solver. }
  apply heap_pop_Some in E as [Hp Hmin].
  assert (Ht : t ∈ pending s) by (rewrite Hp; set_solver).
  destruct (is_active s t) eqn:Hact; simpl.
  2:{ assert (Hna : timer_id t ∉ active s) by (rewrite <-is_active_true; congruence).
      destruct (timers_inv_sub s r [t] Hi) as [Hi' Habs]; [by rewrite Hp, Permutation_app_comm | set_solver |].
      rewrite <-Habs. apply IH; [done |]. simpl. apply Permutation_length in Hp. simpl in Hp. lia. }
  pose proof (λ u Hu, before_total (pending s) t u (ti_seqs _ Hi) Ht Hu) as Htot.
  assert (Hfirst : ∀ u, u ∈ pending s → u = t ∨ before t u).
  { intros u Hu. pose proof Hu as Hu'. rewrite Hp in Hu. apply elem_of_cons in Hu as [->|Hu]; auto. }
  destruct (is_ready_at t now) eqn:Hrdy; simpl.
  - exists (Some t). eexists. split; [done |].
    apply is_active_true in Hact as Hact'.
    destruct (start_running_ok s t r Hi Ht Hact') as [Hi' Habs].
    { exists []. rewrite app_nil_r. split; [done | set_solver]. }
    split_and!; [done | split | done]; [by apply candidate_abs |].
    intros u (Hu & _)%candidate_abs; auto.
  - exists None, s. split_and!; [done.. | | done]. intros u (Hu & _ & Hur & _)%candidate_abs; [| done].
    unfold is_ready_at in *. apply N.leb_le in Hur. apply N.leb_gt in Hrdy.
    destruct (Hfirst u Hu) as [->|Hb]; unfold before in *; lia.
Qed.

(** The selection loop keeps the best candidate of what it has seen. *)
Definition seen_candidate (s : TimerScheduler) (now : N) (f : T → bool)
    (seen : list ScheduledTimer) (u : ScheduledTimer) : Prop :=
  u ∈ seen ∧ is_active s u = true ∧ is_ready_at u now = true ∧ f (payload u) = true.

Definition best_of (s : TimerScheduler) (now : N) (f : T → bool) (seen : list ScheduledTimer)
    (o : option ScheduledTimer) : Prop :=
  match o with
  | Some t => seen_candidate s now f seen t ∧ ∀ u, seen_candidate s now f seen u → ¬ before u t
  | None => ∀ u, ¬ seen_candidate s now f seen u
  end.

Lemma seen_candidate_snoc s now f seen t u :
  seen_candidate s now f (seen ++ [t]) u ↔
  seen_candidate s now f seen u ∨ u = t ∧ seen_candidate s now f [t] t.
Proof. unfold seen_candidate. rewrite elem_of_app, !list_elem_of_singleton. naive_solver. Qed.

Lemma best_of_skip s now f seen o t :
  ¬ seen_candidate s now f [t] t → best_of s now f seen o → best_of s now f (seen ++ [t]) o.
Proof.
  intros Ht Hb. destruct o as [c|]; simpl in *.
  - split; [| intros u]; rewrite seen_candidate_snoc; naive_solver.
  - intros u. rewrite seen_candidate_snoc. naive_solver.
Qed.

Lemma select_step_best s now f seen o t :
  best_of s now f seen o → best_of s now f (seen ++ [t]) (select_step s now f o t).
Proof.
  intros Hb. unfold select_step.
  destruct (is_active s t) eqn:Ha; simpl; 
    [| apply best_of_skip; [intros (_ & ? & ? & ?); congruence | done]].
  destruct (is_ready_at t now) eqn:Hr; simpl; 
    [| apply best_of_skip; [intros (_ & ? & ? & ?); congruence | done]].
  destruct (f (payload t)) eqn:Hft; simpl; 
    [| apply best_of_skip; [intros (_ & ? & ? & ?); congruence | done]].
  assert (Hc : seen_candidate s now f [t] t) by (unfold seen_candidate; set_solver).
  destruct o as [c|]; simpl in *.
  - destruct Hb as [Hcc Hmin]. destruct (timer_precedes t c) eqn:Hpre; simpl.
    + apply timer_precedes_true in Hpre. split; [rewrite seen_candidate_snoc; auto |].
      intros u [Hu|[-> _]]%seen_candidate_snoc; [| unfold before; lia].
      specialize (Hmin u Hu). unfold before in *. lia.
    + assert (¬ before t c) by (rewrite <-timer_precedes_true; congruence).
      split; [rewrite seen_candidate_snoc; auto |].
      intros u [Hu|[-> _]]%seen_candidate_snoc; auto.
  - split; [rewrite seen_candidate_snoc; auto |].
    intros u [Hu|[-> _]]%seen_candidate_snoc; [by destruct (Hb u) | unfold before; lia].
Qed.

Lemma select_best s now f l : ∀ seen o,
  best_of s now f seen o → best_of s now f (seen ++ l) (foldl (select_step s now f) o l).
Proof.
  induction l as [|t l IH]; intros seen o Hb; simpl; [by rewrite app_nil_r |].
  change (t :: l) with ([t] ++ l). rewrite (app_assoc seen [t] l). by apply IH, select_step_best.
Qed.

Lemma next_ready_matching_ok s now f :
  timers_inv s → earliest (abs s) now f (next_ready_matching_timer s now f).
Proof.
  intros Hi. unfold next_ready_matching_timer.
  pose proof (select_best s now f (pending s) [] None ltac:(intros u [Hu _]; set_solver)) as Hb.
  simpl in Hb. destruct (foldl _ _ _) as [t|]; simpl in *.
  - destruct Hb as [Ht Hmin]. split; [by apply candidate_abs |].
    intros u Hu%candidate_abs; [| done]. apply (before_total (pending s)); [apply Hi | apply Ht | apply Hu |].
    by apply Hmin.
  - intros u Hu%candidate_abs; [| done]. by apply (Hb u).
Qed.

Lemma retain_loop_rest s id seq t l : ∀ acc,
  retain_loop s id seq l (Some t) acc = (Some t, acc ++ filter (λ u, is_active s u = true) l).
Proof.
  induction l as [|u l IH]; intros acc; simpl; [by rewrite app_nil_r |].
  rewrite filter_cons. destruct (is_active s u); simpl; rewrite IH; [| done].
  by rewrite <-app_assoc.
Qed.

(** The sweep of [take_next_ready_matching] takes exactly the selected entry
    out and drops only inactive ones. *)
Lemma retain_loop_ok s t l : ∀ acc,
  NoDup (timer_id <$> l) → t ∈ l →
  ∃ r k, retain_loop s (timer_id t) (sequence t) l None acc = (Some t, acc ++ r) ∧
    l ≡ₚ t :: r ++ k ∧ ∀ u, u ∈ k → is_active s u = false.
Proof.
  induction l as [|u l IH]; intros acc Hn Ht; [set_solver |]. simpl.
  destruct (decide (timer_id u = timer_id t)) as [Heq|Hne].
  - assert (u = t) as -> by (eapply (same_id_eq (u :: l)); [done | set_solver | done | done]).
    rewrite !N.eqb_refl. simpl. rewrite retain_loop_rest.
    eexists _, (filter (λ u, is_active s u ≠ true) l). split; [done |].
    split; [by rewrite filter_app_complement |].
    intros v [Hv _]%list_elem_of_filter. by apply not_true_is_false.
  - rewrite (proj2 (N.eqb_neq _ _) Hne). simpl. apply NoDup_cons in Hn as [_ Hn].
    assert (Ht' : t ∈ l) by (apply elem_of_cons in Ht as [->|]; done).
    destruct (is_active s u) eqn:Hu.
    + destruct (IH (acc ++ [u]) Hn Ht') as (r & k & E & Hp & Hk). exists (u :: r), k.
      rewrite E, <-app_assoc. split_and!; [done | | done]. rewrite Hp. simpl. apply Permutation_swap.
    + destruct (IH acc Hn Ht') as (r & k & E & Hp & Hk). exists r, (u :: k).
      split_and!; [done | | set_solver]. rewrite Hp, <-Permutation_middle. apply Permutation_swap.
Qed.

Lemma take_next_ready_matching_ok s now f :
  timers_inv s →
  ∃ o s', take_next_ready_matching s now f = (ready_of <$> o, s') ∧ timers_inv s' ∧
    earliest (abs s) now f o ∧ abs s' = take_result (abs s) o.
Proof.
  intros Hi. unfold take_next_ready_matching. pose proof (next_ready_matching_ok s now f Hi) as Hb.
  destruct (next_ready_matching_timer s now f) as [t|]; [| by exists None, s].
  pose proof Hb as [(Ht & Ha%is_active_true & _)%candidate_abs _]; [| done].
  destruct (retain_loop_ok s t (pending s) [] (ti_ids _ Hi) Ht) as (r & k & E & Hp & Hk).
  rewrite E. simpl. exists (Some t). eexists. split; [done |].
  destruct (start_running_ok s t r Hi Ht Ha) as [Hi' Habs]; [| done].
  exists k. split; [done |]. intros u Hu. specialize (Hk u Hu). rewrite <-is_active_true. congruence.
Qed.

Lemma cancel_loop_spec f l : ∀ a n n' a',
  cancel_loop f l a n = (n', a') →
  (n' + size a' = n + size a)%nat ∧
  ∀ i, i ∈ a' ↔ i ∈ a ∧ ∀ t, t ∈ l → timer_id t = i → f (payload t) = false.
Proof.
  induction l as [|t l IH]; intros a n n' a'; simpl; [intros [= <- <-]; set_solver |].
  destruct (bool_decide_reflect (timer_id t ∈ a)) as [Hin|Hout]; simpl;
    [destruct (f (payload t)) eqn:Hf |]; intros [Hs Ha]%IH; (split; [try done |]).
  - assert (Hsz : size a = S (size (a ∖ {[timer_id t]}))).
    { rewrite size_difference by set_solver. rewrite size_singleton.
      assert (size a ≠ 0%nat); [| lia]. rewrite size_non_empty_iff. set_solver. }
    lia.
  - intros i. rewrite Ha, elem_of_difference, elem_of_singleton. split.
    + intros [[Hi Hne] Hl]. split; [done |]. intros u [->|Hu]%elem_of_cons; [congruence | auto].
    + intros [Hi Hl]. split_and!; [done | |].
      * intros ->. specialize (Hl t ltac:(by left) eq_refl). congruence.
      * intros u Hu. apply Hl. by right.
  - intros i. rewrite Ha. split; [| intros [Hi Hl]; split; [done |]; intros u Hu; apply Hl; by right].
    intros [Hi Hl]. split; [done |].
    intros u [->|Hu]%elem_of_cons; auto.
  - intros i. rewrite Ha. split; [| intros [Hi Hl]; split; [done |]; intros u Hu; apply Hl; by right].
    intros [Hi Hl]. split; [done |].
    intros u [->|Hu]%elem_of_cons; [congruence | auto].
Qed.

Lemma set_active_inv s a : timers_inv s → a ⊆ active s → timers_inv (set_active s a).
Proof.
  intros [H1 H2 H3 H4 H5 H6 H7 H8] Ha. split; simpl; auto.
Qed.

Lemma waiting_set_active s a i t :
  timers_inv s →
  a ⊆ active s →
  waiting_of (set_active s a) !! i = Some t ↔ waiting_of s !! i = Some t ∧ i ∈ a.
Proof. intros Hi Ha. rewrite !waiting_lookup by apply Hi. simpl. set_solver. Qed.

Lemma cancel_matching_ok s f n s' :
  timers_inv s → cancel_matching s f = (n, s') →
  timers_inv s' ∧ spec_step (abs s) (CCancelMatching f) (OCount n) (abs s').
Proof.
  intros Hi. unfold cancel_matching.
  destruct (cancel_loop f (pending s) (active s) 0) as [n' a] eqn:E. intros [= <- <-].
  apply cancel_loop_spec in E as [Hsz Ha]. simpl in Hsz.
  assert (Hsub : a ⊆ active s) by (intros i; rewrite Ha; tauto).
  assert (Hw : waiting_of (set_active s a) = filter (λ it, f (payload it.2) = false) (waiting_of s)).
  { apply waiting_eq. intros i t. rewrite waiting_set_active, map_lookup_filter_Some, Ha by done.
    simpl. split.
    - intros [Ht [_ Hl]]. split; [done |]. apply waiting_lookup in Ht as (? & ? & ?); [| apply Hi]. auto.
    - intros [Ht Hf]. split; [done |]. apply waiting_lookup in Ht as (Ht & <- & ?); [| apply Hi].
      split; [done |]. intros u Hu He. by rewrite (same_id_eq _ u t (ti_ids _ Hi) Hu Ht He). }
  split; [by apply set_active_inv |]. unfold abs at 2. simpl. rewrite Hw.
  assert (Hn : n' = size (filter (λ it : N * ScheduledTimer, f (payload it.2) = true) (waiting_of s))).
  { assert (H1 : size (active s) = size (waiting_of s)) by by rewrite <-dom_waiting, size_dom.
    assert (H2 : size a = size (waiting_of (set_active s a))).
    { rewrite <-size_dom. f_equal. symmetry. apply (dom_waiting (set_active s a)).
      by apply set_active_inv. }
    rewrite Hw in H2.
    rewrite <-(map_filter_union_complement (λ it : N * ScheduledTimer, f (payload it.2) = true) (waiting_of s)) in H1.
    rewrite map_size_disj_union in H1 by apply map_disjoint_filter_complement.
    assert (H3 : filter (λ it : N * ScheduledTimer, ¬ f (payload it.2) = true) (waiting_of s)
                 = filter (λ it : N * ScheduledTimer, f (payload it.2) = false) (waiting_of s)).
    { apply map_filter_ext. intros i t _. simpl. by rewrite not_true_iff_false. }
    rewrite H3 in H1. lia. }
  rewrite Hn. apply (SpCancelMatching (abs s)).
Qed.

Lemma cancel_ok s i b s' :
  timers_inv s → cancel s i = (b, s') →
  timers_inv s' ∧ spec_step (abs s) (CCancel i) (OBool b) (abs s').
Proof.
  intros Hi. unfold cancel. destruct (bool_decide_reflect (i ∈ active s)) as [Ha|Ha].
  { intros [= <- <-]. split; [apply set_active_inv; set_solver |].
    destruct (waiting_of s !! i) as [t|] eqn:Hw; [| by apply waiting_None in Hw].
    replace (abs (set_active s (active s ∖ {[i]})))
      with (mk_spec (delete i (waiting (abs s))) (sp_running (abs s)) (sp_cancelled (abs s))).
    { by eapply SpCancelWaiting. }
    unfold abs. simpl. f_equal. apply waiting_eq. intros j u.
    rewrite waiting_set_active, lookup_delete_Some by set_solver.
    rewrite waiting_lookup by apply Hi. set_solver. }
  apply waiting_None in Ha as Hw; [| done].
  destruct (bool_decide_reflect (i ∈ running s)) as [Hr|Hr]; intros [= <- <-].
  - split; [| by apply (SpCancelRunning (abs s))].
    destruct Hi as [H1 H2 H3 H4 H5 H6 H7 H8]. split; simpl; auto. set_solver.
  - split; [done | by apply SpCancelUnknown].
Qed.

Lemma active_payload_ok s i :
  timers_inv s → active_payload s i = payload <$> waiting_of s !! i.
Proof.
  intros Hi. unfold active_payload. destruct (bool_decide_reflect (i ∈ active s)) as [Ha|Ha].
  2:{ by apply waiting_None in Ha as ->. }
  f_equal. destruct (ti_active _ Hi i Ha) as (t & Ht & Hti).
  assert (Hw : waiting_of s !! i = Some t) by (apply waiting_lookup; [apply Hi | done]).
  rewrite Hw. unfold find_timer.
  destruct (filter (λ t, (timer_id t =? i) = true) (pending s)) as [|u l] eqn:E.
  - assert (Hin : t ∈ filter (λ t, (timer_id t =? i) = true) (pending s)).
    { apply list_elem_of_filter. by rewrite Hti, N.eqb_refl. }
    rewrite E in Hin. set_solver.
  - assert (Hin : u ∈ filter (λ t, (timer_id t =? i) = true) (pending s)) by (rewrite E; set_solver).
    apply list_elem_of_filter in Hin as [Hui%N.eqb_eq Hu]. simpl. f_equal.
    eapply same_id_eq; [apply Hi | done | done | congruence].
Qed.

(** Adding one timer under an id that nothing else uses. *)
Lemma schedule_existing_ok s i p delay now :
  timers_inv s → i < next_id s → i ∉ running s → (∀ t, t ∈ pending s → timer_id t ≠ i) →
  next_sequence s < u64_max → now + delay * nanos_per_milli ≤ instant_max →
  ∃ s' t, schedule_existing_after s i p delay now = Ret s' ∧ timers_inv s' ∧
    scheduled (abs s) i p delay now t ∧
    abs s' = mk_spec (<[i := t]> (waiting_of s)) (running s) (cancelled_running s).
Proof.
  intros Hi Hid Hr Hne Hseq Hclk. unfold schedule_existing_after, instant_add_millis.
  rewrite (proj2 (N.leb_le _ _) Hclk). simpl.
  set (t := mk_timer i (next_sequence s) (now + delay * nanos_per_milli) delay p).
  assert (Hsat : saturating_add64 (next_sequence s) 1 = next_sequence s + 1)
    by (unfold saturating_add64; lia).
  assert (Hids : NoDup (timer_id <$> (pending s ++ [t]))).
  { rewrite fmap_app. apply NoDup_app. split_and!; [apply Hi | | apply NoDup_singleton].
    intros j (u & -> & Hu)%list_elem_of_fmap Hj. apply list_elem_of_singleton in Hj. by apply (Hne u). }
  eexists _, t. split; [done |]. split_and!.
  - destruct Hi as [H1 H2 H3 H4 H5 H6 H7 H8]. split; simpl; auto.
    + rewrite fmap_app. apply NoDup_app. split_and!; [done | | apply NoDup_singleton].
      intros j (u & -> & Hu)%list_elem_of_fmap Hj. apply list_elem_of_singleton in Hj.
      specialize (H3 u Hu). simpl in Hj. lia.
    + rewrite Hsat. intros u [Hu| ->%list_elem_of_singleton]%elem_of_app; [specialize (H3 u Hu) | simpl]; lia.
    + intros j [->%elem_of_singleton|Hj]%elem_of_union.
      * exists t. set_solver.
      * destruct (H4 j Hj) as (u & Hu & ?). exists u. set_solver.
    + intros j u Hj [Hu| ->%list_elem_of_singleton]%elem_of_app; [auto | simpl; congruence].
    + intros j [Hj|(u & [Hu| ->%list_elem_of_singleton]%elem_of_app & <-)]; [auto | eauto | done].
  - unfold scheduled. split_and!; [done.. |]. simpl. intros j u Hu.
    apply waiting_lookup in Hu as (Hu & _); [| apply Hi]. by apply (ti_newest _ Hi).
  - unfold abs. simpl. f_equal. apply waiting_eq. intros j u. rewrite waiting_lookup by done. simpl.
    rewrite elem_of_app, list_elem_of_singleton, lookup_insert_Some, waiting_lookup by apply Hi.
    pose proof (Hne u). split.
    + intros ([Hu| ->] & <- & Hj); [right | by left]. set_solver.
    + intros [[-> <-]|(? & ? & ? & ?)]; set_solver.
Qed.

Lemma finish_running_inv s i : timers_inv s → timers_inv (finish_running s i).
Proof.
  intros [H1 H2 H3 H4 H5 H6 H7 H8]. split; simpl; auto.
  - intros j t [Hj _]%elem_of_difference. auto.
  - set_solver.
  - intros j [[Hj _]%elem_of_difference|?]; auto.
Qed.

Lemma schedule_after_ok s p delay now :
  timers_inv s → legal s (CSchedule p delay now) = true →
  ∃ i s', schedule_after s p delay now = Ret (i, s') ∧ timers_inv s' ∧
    spec_step (abs s) (CSchedule p delay now) (OId i) (abs s').
Proof.
  intros Hi Hl. cbn [legal] in Hl. apply andb_prop in Hl as [[Hid Hseq]%andb_prop Hclk].
  apply N.ltb_lt in Hid, Hseq. apply N.leb_le in Hclk.
  pose proof (ti_next _ Hi) as Hn.
  assert (Hfresh : ∀ i, i ∈ active s ∪ running s → i < next_id s).
  { intros i [Ha|Hr]%elem_of_union; apply (ti_fresh _ Hi); [right | by left]. by apply (ti_active _ Hi). }
  unfold schedule_after, allocate_id. cbn [allocate_loop].
  rewrite N.max_l, wrapping_succ32_small, N.max_l by (done || lia).
  rewrite bool_decide_eq_true_2 by (intros H%Hfresh; lia). simpl.
  set (s1 := mk_scheduler (pending s) (active s) (running s) (cancelled_running s) (next_id s + 1)
               (next_sequence s)).
  assert (Hi1 : timers_inv s1).
  { destruct Hi as [H1 H2 H3 H4 H5 H6 H7 H8]. split; simpl; auto; [| lia].
    intros i Hu. specialize (H7 i Hu). lia. }
  destruct (schedule_existing_ok s1 (next_id s) p delay now Hi1) as (s' & t & E & Hi' & Hsch & Habs).
  - simpl. lia.
  - intros Hr. specialize (Hfresh (next_id s) ltac:(set_solver)). lia.
  - intros t Ht He. pose proof (ti_fresh _ Hi (next_id s) ltac:(right; eauto)). lia.
  - done.
  - done.
  - rewrite E. simpl. eexists _, s'. split; [done |]. split; [done |]. rewrite Habs.
    apply (SpSchedule (abs s)); [lia | | | exact Hsch].
    + apply (waiting_None s _ Hi). intros Ha. specialize (Hfresh (next_id s) ltac:(set_solver)). lia.
    + simpl. intros Hr. specialize (Hfresh (next_id s) ltac:(set_solver)). lia.
Qed.

Lemma reschedule_ok s i p delay now :
  timers_inv s → legal s (CReschedule i p delay now) = true →
  ∃ b s', reschedule_running_after s i p delay now = Ret (b, s') ∧ timers_inv s' ∧
    spec_step (abs s) (CReschedule i p delay now) (OBool b) (abs s').
Proof.
  intros Hi Hl. cbn [legal] in Hl. apply andb_prop in Hl as [[Hr Hseq]%andb_prop Hclk].
  apply bool_decide_eq_true in Hr. apply N.ltb_lt in Hseq. apply N.leb_le in Hclk.
  unfold reschedule_running_after. pose proof (finish_running_inv s i Hi) as Hf.
  destruct (bool_decide_reflect (i ∈ cancelled_running s)) as [Hc|Hc].
  { eexists _, _. split; [done |]. split; [done |]. by apply (SpRescheduleCancelled (abs s)). }
  destruct (schedule_existing_ok (finish_running s i) i p delay now Hf) as (s' & t & E & Hi' & Hsch & Habs).
  - apply (ti_fresh _ Hi). by left.
  - simpl. set_solver.
  - intros t Ht. by apply (ti_running _ Hi).
  - done.
  - done.
  - rewrite E. simpl. eexists _, s'. split; [done |]. split; [done |]. rewrite Habs.
    by apply (SpReschedule (abs s)).
Qed.

Lemma next_deadline_ok s : timers_inv s → deadline_of (abs s) (next_deadline s).
Proof.
  intros Hi. unfold next_deadline, deadline_of.
  assert (Hin : ∀ i t, waiting_of s !! i = Some t →
                  run_at t ∈ run_at <$> filter (λ t, is_active s t = true) (pending s)).
  { intros i t Ht. apply waiting_lookup in Ht as (Ht & <- & Ha); [| apply Hi].
    apply list_elem_of_fmap. exists t. split; [done |]. apply list_elem_of_filter. by rewrite is_active_true. }
  destruct (min_by id _) as [d|] eqn:E.
  - apply min_by_Some in E as [Hd Hmin]. split.
    + apply list_elem_of_fmap in Hd as (t & -> & [Ha%is_active_true Ht]%list_elem_of_filter).
      exists (timer_id t), t. split; [| done]. apply waiting_lookup; [apply Hi | done].
    + intros i t Ht. apply Hmin. by eapply Hin.
  - apply min_by_None in E. apply map_empty. intros i.
    destruct (waiting (abs s) !! i) as [t|] eqn:Hw; [| done]. simpl in Hw.
    specialize (Hin i t Hw). rewrite E in Hin. set_solver.
Qed.

Lemma candidate_exists s now f :
  timers_inv s →
  existsb (λ t, is_active s t && is_ready_at t now && f (payload t)) (pending s) = true ↔
  ∃ t, candidate (abs s) now f t.
Proof.
  intros Hi. rewrite existsb_exists. setoid_rewrite candidate_abs; [| done].
  setoid_rewrite list_elem_of_In. setoid_rewrite andb_true_iff. setoid_rewrite andb_true_iff.
  naive_solver.
Qed.

Lemma has_ready_timer_matching s now : has_ready_timer s now = has_ready_matching s now any.
Proof.
  unfold has_ready_timer, has_ready_matching, any.
  induction (pending s) as [|t l IH]; simpl; [done |]. by rewrite IH, andb_true_r.
Qed.

(** Every call simulates its specification. *)
Lemma timer_exec_ok s c :
  timers_inv s → legal s c = true →
  ∃ o s', timer_exec s c = Ret (o, s') ∧ timers_inv s' ∧ spec_step (abs s) c o (abs s').
Proof.
  intros Hi Hl. destruct c; cbn [timer_exec].
  - destruct (schedule_after_ok _ _ _ _ Hi Hl) as (i & s' & E & Hi' & Hs). rewrite E. simpl. eauto.
  - destruct (cancel s id) as [b s'] eqn:E. apply cancel_ok in E as [? ?]; eauto.
  - destruct (cancel_matching s f) as [n s'] eqn:E. apply cancel_matching_ok in E as [? ?]; eauto.
  - rewrite active_payload_ok by done. eexists _, s. split_and!; [done.. |]. apply (SpActivePayload (abs s)).
  - destruct (take_loop_ok now (S (length (pending s))) s Hi) as (o & s' & E & Hi' & He & Ha); [lia |].
    unfold take_next_ready. rewrite E. simpl. eexists _, s'. split_and!; [done.. |]. rewrite Ha.
    by apply SpTake.
  - destruct (take_next_ready_matching_ok s now f Hi) as (o & s' & E & Hi' & He & Ha).
    rewrite E. eexists _, s'. split_and!; [done.. |]. rewrite Ha. by apply SpTakeMatching.
  - eexists _, s. split_and!; [done.. |]. apply SpHasReady. rewrite has_ready_timer_matching.
    by apply candidate_exists.
  - eexists _, s. split_and!; [done.. |]. by apply SpHasReadyMatching, candidate_exists.
  - eexists _, _. split_and!; [done | by apply finish_running_inv | apply (SpFinish (abs s))].
  - destruct (reschedule_ok _ _ _ _ _ Hi Hl) as (b & s' & E & Hi' & Hs). rewrite E. simpl. eauto.
  - eexists _, s. split_and!; [done.. |]. by apply SpNextReadyDeadline, next_ready_matching_ok.
  - eexists _, s. split_and!; [done.. |]. by apply SpNextDeadline, next_deadline_ok.
  - eexists _, s. split_and!; [done.. |]. by apply SpMsToNext, next_deadline_ok.
  - eexists _, s. split_and!; [done.. |]. unfold pending_count.
    rewrite <-dom_waiting, size_dom by done. apply (SpPendingCount (abs s)).
Qed.

Fixpoint timer_run (s : TimerScheduler) (cs : list timer_call) : run (list timer_out * TimerScheduler) :=
  match cs with
  | [] => Ret ([], s)
  | c :: cs => '(o, s) ← timer_exec s c; '(os, s) ← timer_run s cs; Ret (o :: os, s)
  end.

Fixpoint all_legal (s : TimerScheduler) (cs : list timer_call) : bool :=
  match cs with
  | [] => true
  | c :: cs => legal s c && match timer_exec s c with Ret (_, s) => all_legal s cs | Panic => true end
  end.

Inductive spec_run : TimerSpec → list timer_call → list timer_out → TimerSpec → Prop :=
| spec_run_nil σ : spec_run σ [] [] σ
| spec_run_cons σ σ1 σ2 c cs o os :
    spec_step σ c o σ1 → spec_run σ1 cs os σ2 → spec_run σ (c :: cs) (o :: os) σ2.

Lemma timer_run_ok cs : ∀ s,
  timers_inv s → all_legal s cs = true →
  ∃ os s', timer_run s cs = Ret (os, s') ∧ timers_inv s' ∧ spec_run (abs s) cs os (abs s').
Proof.
  induction cs as [|c cs IH]; intros s Hi Hl; simpl in *; [eexists _, s; split_and!; [done.. |]; constructor |].
  apply andb_prop in Hl as [Hc Hl]. destruct (timer_exec_ok s c Hi Hc) as (o & s1 & E & Hi1 & Hs).
  rewrite E in *. destruct (IH s1 Hi1 Hl) as (os & s2 & E2 & Hi2 & Hr). simpl. rewrite E2. simpl.
  eexists _, s2. split_and!; [done.. |]. econstructor; eauto.
Qed.

Lemma scheduler_default_inv : timers_inv scheduler_default.
Proof. split; simpl; try set_solver; try lia; constructor. Qed.

(** ** Determinacy of the specification *)
Lemma earliest_unique σ now f o1 o2 : earliest σ now f o1 → earliest σ now f o2 → o1 = o2.
Proof.
  destruct o1 as [t|], o2 as [u|]; simpl; [| naive_solver..].
  intros [Ht Hmt] [Hu Hmu]. destruct (Hmt u Hu) as [->|H1]; [done |].
  destruct (Hmu t Ht) as [->|H2]; [done |]. unfold before in *. lia.
Qed.

Lemma deadline_unique σ d1 d2 : deadline_of σ d1 → deadline_of σ d2 → d1 = d2.
Proof.
  destruct d1 as [a|], d2 as [b|]; simpl; [| | |done].
  - intros [(i & t & Ht & <-) H1] [(j & u & Hu & <-) H2]. f_equal.
    specialize (H1 _ _ Hu). specialize (H2 _ _ Ht). lia.
  - intros [(i & t & Ht & _) _] He. rewrite He in Ht. by rewrite lookup_empty in Ht.
  - intros He [(i & t & Ht & _) _]. rewrite He in Ht. by rewrite lookup_empty in Ht.
Qed.

Definition schedules (c : timer_call) : bool :=
  match c with CSchedule _ _ _ | CReschedule _ _ _ _ => true | _ => false end.

Lemma spec_step_det σ c o1 σ1 o2 σ2 :
  schedules c = false → spec_step σ c o1 σ1 → spec_step σ c o2 σ2 → o1 = o2 ∧ σ1 = σ2.
Proof.
  intros Hc H1 H2. destruct H1; inversion H2; subst; try discriminate Hc; try done; try congruence;
    repeat match goal with
    | A : earliest _ _ _ ?o1, B : earliest _ _ _ ?o2 |- _ =>
        rewrite (earliest_unique _ _ _ _ _ A B); clear A
    | A : deadline_of _ ?o1, B : deadline_of _ ?o2 |- _ =>
        rewrite (deadline_unique _ _ _ A B); clear A
    end; try done.
  all: split; [f_equal; apply eq_true_iff_eq; naive_solver | done].
Qed.

(** ** Id allocation *)
Definition candidate_id (n : N) (j : nat) : N :=
  if n + N.of_nat j <=? u32_max then n + N.of_nat j else n + N.of_nat j - u32_max.

Lemma candidate_id_step n j :
  1 ≤ n ≤ u32_max → N.of_nat (S j) < u32_max →
  candidate_id (N.max (wrapping_succ32 n) 1) j = candidate_id n (S j).
Proof.
  intros Hn Hj. unfold candidate_id. destruct (decide (n = u32_max)) as [->|Hne].
  - change (N.max (wrapping_succ32 u32_max) 1) with 1.
    destruct (N.leb_spec (1 + N.of_nat j) u32_max), (N.leb_spec (u32_max + N.of_nat (S j)) u32_max); lia.
  - rewrite wrapping_succ32_small, N.max_l by lia.
    destruct (N.leb_spec (n + 1 + N.of_nat j) u32_max), (N.leb_spec (n + N.of_nat (S j)) u32_max); lia.
Qed.

Lemma next_id_range n : 1 ≤ n ≤ u32_max → 1 ≤ N.max (wrapping_succ32 n) 1 ≤ u32_max.
Proof.
  intros Hn. destruct (decide (n = u32_max)) as [->|Hne]; [vm_compute; split; discriminate |].
  rewrite wrapping_succ32_small by lia. lia.
Qed.

Lemma allocate_loop_cases fuel : ∀ used n,
  1 ≤ n ≤ u32_max → N.of_nat fuel ≤ u32_max →
  (∃ id next, allocate_loop fuel used n = Ret (id, next) ∧ id ∉ used ∧ 1 ≤ id ≤ u32_max ∧
     1 ≤ next ≤ u32_max) ∨
  ∀ j, (j < fuel)%nat → candidate_id n j ∈ used.
Proof.
  induction fuel as [|fuel IH]; intros used n Hn Hf; [right; lia |]. cbn [allocate_loop].
  rewrite (N.max_l n 1) by lia. destruct (bool_decide_reflect (n ∉ used)) as [Hu|Hu].
  { left. eexists _, _. split_and!; [done | done | lia | lia | by apply next_id_range..]. }
  destruct (IH used (N.max (wrapping_succ32 n) 1) (next_id_range n Hn)) as [Hl|Hr]; [lia | by left |].
  right. intros [|j] Hj.
  - unfold candidate_id. rewrite N.add_0_r, (proj2 (N.leb_le n u32_max)) by lia.
    by apply dec_stable.
  - rewrite <-candidate_id_step by lia. apply Hr. lia.
Qed.

Lemma allocate_loop_total used n :
  1 ≤ n ≤ u32_max → N.of_nat (size used) < u32_max →
  ∃ id next, allocate_loop (S (size used)) used n = Ret (id, next) ∧ id ∉ used ∧ 1 ≤ id ≤ u32_max ∧
    1 ≤ next ≤ u32_max.
Proof.
  intros Hn Hsz. destruct (allocate_loop_cases (S (size used)) used n Hn) as [|Hall]; [lia | done |].
  exfalso. set (l := candidate_id n <$> seq 0 (S (size used))).
  assert (Hnd : NoDup l).
  { apply NoDup_fmap_2_strong; [| apply NoDup_seq]. intros i j Hi%elem_of_seq Hj%elem_of_seq.
    unfold candidate_id.
    destruct (N.leb_spec (n + N.of_nat i) u32_max), (N.leb_spec (n + N.of_nat j) u32_max); lia. }
  assert (Hsub : (list_to_set l : gset N) ⊆ used).
  { intros i. rewrite elem_of_list_to_set. unfold l. rewrite list_elem_of_fmap.
    intros (j & -> & Hj%elem_of_seq). apply Hall. lia. }
  apply subseteq_size in Hsub. rewrite size_list_to_set in Hsub by done.
  unfold l in Hsub. rewrite length_fmap, length_seq in Hsub. lia.
Qed.

(** ** Id reuse after the 32-bit counter wraps *)
Lemma timer_run_app cs1 cs2 : ∀ s,
  timer_run s (cs1 ++ cs2) =
  '(o1, s) ← timer_run s cs1; '(o2, s) ← timer_run s cs2; Ret (o1 ++ o2, s).
Proof.
  induction cs1 as [|c cs1 IH]; intros s; simpl.
  - by destruct (timer_run s cs2) as [[]|].
  - destruct (timer_exec s c) as [[o s1]|]; simpl; [| done]. rewrite IH.
    destruct (timer_run s1 cs1) as [[o1 s2]|]; simpl; [| done].
    by destruct (timer_run s2 cs2) as [[]|].
Qed.

(** A timer that fires at once and is not rescheduled. *)
Definition oneshot (y : T) (i : N) : list timer_call := [CSchedule y 0 0; CTake 0; CFinish i].

(** A scheduler left with one stale entry. *)
Definition one_stale (t : ScheduledTimer) (n q : N) : TimerScheduler :=
  mk_scheduler [t] ∅ ∅ ∅ n q.

Lemma oneshot_run y t n q :
  0 < run_at t → 1 ≤ n →
  ∃ os, timer_run (one_stale t n q) (oneshot y n) =
        Ret (os, one_stale t (N.max (wrapping_succ32 n) 1) (saturating_add64 q 1)).
Proof.
  intros Ht Hn. unfold oneshot, one_stale. cbn [timer_run timer_exec].
  unfold schedule_after, allocate_id. cbn [active running next_id]. rewrite union_empty_l_L.
  cbn [allocate_loop]. rewrite (N.max_l n 1) by done.
  rewrite bool_decide_eq_true_2 by set_solver. simpl. rewrite union_empty_r_L.
  unfold take_next_ready. simpl.
  assert (E : timer_cmp (mk_timer n q (0 + 0 * nanos_per_milli) 0 y) t = Gt)
    by (apply timer_cmp_Gt; left; done).
  rewrite E. unfold is_active. simpl. rewrite bool_decide_eq_true_2 by set_solver. simpl.
  eexists. unfold start_running, finish_running. simpl. do 3 f_equal; set_solver.
Qed.

Fixpoint oneshots (y : T) (k : nat) (n : N) : list timer_call :=
  match k with 0%nat => [] | S k => oneshot y n ++ oneshots y k (n + 1) end.

Lemma oneshots_run y t k : ∀ n q,
  0 < run_at t → 2 ≤ n → n + N.of_nat k = u32_max + 1 → 0 < q →
  ∃ os q', 0 < q' ∧ timer_run (one_stale t n q) (oneshots y k n) =
           Ret (os, one_stale t (match k with 0%nat => n | S _ => 1 end) q').
Proof.
  induction k as [|k IH]; intros n q Ht Hn Hk Hq; [by eexists _, q |]. cbn [oneshots].
  rewrite timer_run_app. destruct (oneshot_run y t n q Ht) as [os E]; [lia |]. rewrite E.
  assert (Hq' : 0 < saturating_add64 q 1) by (unfold saturating_add64, u64_max; lia).
  cbn [mbind run_bind]. destruct k as [|k'].
  - assert (n = u32_max) as -> by lia. simpl. by eexists _, _.
  - rewrite wrapping_succ32_small, N.max_l by lia.
    destruct (IH (n + 1) (saturating_add64 q 1) Ht) as (os' & q' & Hq0 & E'); [lia | lia | done |].
    rewrite E'. simpl. by eexists _, _.
Qed.

Lemma stale_start x :
  timer_run scheduler_default [CSchedule x 1 0; CCancel 1] =
  Ret ([OId 1; OBool true], one_stale (mk_timer 1 0 nanos_per_milli 1 x) 2 1).
Proof.
  vm_compute. reflexivity.
Qed.

Lemma stale_revived x z q :
  0 < q →
  ∃ s, timer_run (one_stale (mk_timer 1 0 nanos_per_milli 1 x) 1 q)
         [CSchedule z 1 0; CTake nanos_per_milli] =
       Ret ([OId 1; OReady (Some (mk_ready 1 1 x))], s).
Proof.
  intros Hq. cbn [timer_run timer_exec]. unfold schedule_after, allocate_id, one_stale.
  cbn [active running next_id]. rewrite union_empty_l_L. cbn [allocate_loop].
  rewrite bool_decide_eq_true_2 by set_solver. simpl. rewrite union_empty_r_L.
  unfold take_next_ready. simpl.
  assert (E : timer_cmp (mk_timer 1 q (0 + 1 * nanos_per_milli) 1 z)
                (mk_timer 1 0 nanos_per_milli 1 x) ≠ Gt).
  { rewrite timer_cmp_Gt. unfold before. simpl. lia. }
  destruct (timer_cmp _ _); [| | done]; unfold is_active; simpl;
    rewrite bool_decide_eq_true_2 by set_solver; by eexists.
Qed.

(** ** Properties *)
#[local] Arguments allocate_loop : simpl never.

(** C21: the scheduler implements its specification. For every sequence of
    calls a client may make, each call returns, answers what the
    specification of waiting timers allows (a take gives the earliest ready
    timer that was not cancelled, ties in scheduling order; a cancelled
    running timer is not rescheduled), and the heap with its stale entries
    still stands for the specified waiting timers. *)
Theorem timers_refine (cs : list timer_call) :
  all_legal scheduler_default cs = true →
  ∃ os s, timer_run scheduler_default cs = Ret (os, s) ∧ spec_run (mk_spec ∅ ∅ ∅) cs os (abs s).
Proof.
  intros Hl. destruct (timer_run_ok cs _ scheduler_default_inv Hl) as (os & s & E & _ & Hr). eauto.
Qed.

(** The two ways of taking the next timer agree: popping the heap and
    scanning it with a filter that accepts everything return the same timer
    and leave the same waiting and running timers. *)
Theorem take_variants_agree (s : TimerScheduler) (now : N) :
  timers_inv s →
  ∃ r s1 s2, take_next_ready s now = Ret (r, s1) ∧ take_next_ready_matching s now any = (r, s2) ∧
    abs s1 = abs s2 ∧ (is_Some r ↔ has_ready_timer s now = true).
Proof.
  intros Hi.
  destruct (take_loop_ok now (S (length (pending s))) s Hi) as (o1 & s1 & E1 & _ & He1 & Ha1); [lia |].
  destruct (take_next_ready_matching_ok s now any Hi) as (o2 & s2 & E2 & _ & He2 & Ha2).
  assert (o1 = o2) as <- by by eapply earliest_unique.
  exists (ready_of <$> o1), s1, s2. split_and!; [done | done | congruence |].
  rewrite has_ready_timer_matching. unfold has_ready_matching. rewrite candidate_exists by done.
  destruct o1 as [t|]; simpl in *; naive_solver.
Qed.

(** Results do not depend on the unspecified internal order of the heap:
    from any reordering of the same entries every call gives the same answer
    and leaves the same waiting, running and cancelled timers. *)
Theorem heap_order_irrelevant (s : TimerScheduler) (l : list ScheduledTimer) (c : timer_call) :
  timers_inv s → legal s c = true → l ≡ₚ pending s →
  ∃ o s1 s2, timer_exec s c = Ret (o, s1) ∧ timer_exec (set_pending s l) c = Ret (o, s2) ∧
    abs s1 = abs s2.
Proof.
  intros Hi Hl Hp. destruct (timers_inv_sub s l [] Hi) as [Hi' Ha]; [by rewrite app_nil_r | set_solver |].
  assert (Hl' : legal (set_pending s l) c = true) by by destruct c.
  destruct (timer_exec_ok s c Hi Hl) as (o1 & s1 & E1 & Hi1 & Hs1).
  destruct (timer_exec_ok (set_pending s l) c Hi' Hl') as (o2 & s2 & E2 & Hi2 & Hs2).
  rewrite Ha in Hs2. exists o1, s1, s2.
  destruct (schedules c) eqn:Hc.
  2:{ destruct (spec_step_det _ _ _ _ _ _ Hc Hs1 Hs2) as [-> ?]. done. }
  assert (Hout : o1 = o2 ∧ pending s2 ≡ₚ pending s1 ∧ active s1 = active s2 ∧
                 running s1 = running s2 ∧ cancelled_running s1 = cancelled_running s2).
  { destruct c; try discriminate Hc; cbn [timer_exec] in E1, E2;
      unfold schedule_after, reschedule_running_after, allocate_id, schedule_existing_after in E1, E2;
      simpl in E1, E2.
    - destruct (allocate_loop _ _ _) as [[i n]|]; simpl in E1, E2; [| done].
      destruct (instant_add_millis _ _); simpl in E1, E2; [| done]. simplify_eq. simpl.
      split_and!; try done. by rewrite Hp.
    - destruct (bool_decide _); simpl in E1, E2; [simplify_eq; simpl; split_and!; done |].
      destruct (instant_add_millis _ _); simpl in E1, E2; [| done]. simplify_eq. simpl.
      split_and!; try done. by rewrite Hp. }
  destruct Hout as (-> & Hp' & Ea & Er & Ec). split_and!; [done.. |]. unfold abs. f_equal; [| done..].
  apply waiting_eq. intros i t. rewrite !waiting_lookup by (apply Hi1 || apply Hi2). by rewrite Hp', Ea.
Qed.

(** Id allocation ends and avoids every id in use, wrap-around included:
    as long as fewer than 2^32 - 1 timers are active or running, the loop
    returns a nonzero 32-bit id that is neither active nor running. *)
Theorem allocate_id_total (s : TimerScheduler) :
  1 ≤ next_id s ≤ u32_max → N.of_nat (size (active s ∪ running s)) < u32_max →
  ∃ i s', allocate_id s = Ret (i, s') ∧ i ∉ active s ∧ i ∉ running s ∧ 1 ≤ i ≤ u32_max ∧
    1 ≤ next_id s' ≤ u32_max ∧ abs s' = abs s.
Proof.
  intros Hn Hsz. unfold allocate_id.
  destruct (allocate_loop_total (active s ∪ running s) (next_id s) Hn Hsz) as (i & n & E & Hu & Hr & Hn').
  rewrite E. simpl. eexists _, _. split; [done |]. simpl.
  split_and!; [set_solver | set_solver | lia.. | done].
Qed.

(** A cancelled timer can fire. Cancelling leaves the heap entry behind;
    once the 32-bit id counter has wrapped around, scheduling a timer under
    the same id makes the stale entry active again, and a take returns the
    payload whose cancellation had succeeded, in place of the new timer's. *)
Theorem id_reuse_revives_cancelled (x y z : T) :
  ∃ cs os s,
    timer_run scheduler_default
      ([CSchedule x 1 0; CCancel 1] ++ cs ++ [CSchedule z 1 0; CTake nanos_per_milli]) =
    Ret ([OId 1; OBool true] ++ os ++ [OId 1; OReady (Some (mk_ready 1 1 x))], s).
Proof.
  set (t := mk_timer 1 0 nanos_per_milli 1 x).
  assert (∃ k, N.of_nat k = u32_max - 1) as [k Hk] by (eexists; apply N2Nat.id).
  destruct (oneshots_run y t k 2 1) as (os & q & Hq & E);
    [done | done | unfold u32_max in *; lia | done |].
  destruct k as [|k']; [unfold u32_max in Hk; lia |]. set (k := S k') in *.
  exists (oneshots y k 2), os.
  destruct (stale_revived x z q Hq) as [s E1].
  exists s. rewrite timer_run_app, stale_start. cbn [mbind run_bind]. rewrite timer_run_app.
  fold t. rewrite E. cbn [mbind run_bind]. fold t in E1. rewrite E1. done.
Qed.
End scheduler.

(** ** Witnesses *)
Definition demo_timer_calls : list (@timer_call N) :=
  [CSchedule 10 5 0; CSchedule 20 1 0; CSchedule 30 1 0; CCancel 2; CTake 1000000; CCancel 3;
   CReschedule 3 30 1 1000000; CNextDeadline; CTakeMatching 9000000 (λ p, p =? 10); CFinish 1;
   CPendingCount].

Lemma timers_refine_witness :
  ∃ os s, timer_run scheduler_default demo_timer_calls = Ret (os, s) ∧
    os = [OId 1; OId 2; OId 3; OBool true; OReady (Some (mk_ready 3 1 30)); OBool true; OBool false;
          OInstant (Some 5000000); OReady (Some (mk_ready 1 5 10)); OUnit; OCount 0] ∧
    spec_run (mk_spec ∅ ∅ ∅) demo_timer_calls os (abs s).
Proof.
  destruct (timers_refine demo_timer_calls) as (os & s & E & Hr); [vm_compute; reflexivity |].
  exists os, s. split; [exact E |]. split; [| exact Hr].
  vm_compute in E. injection E as <- _. reflexivity.
Defined.

Definition demo_scheduler : @TimerScheduler N :=
  mk_scheduler [mk_timer 2 1 3000000 3 20; mk_timer 1 0 5000000 5 10] {[1; 2]} ∅ ∅ 3 2.

Lemma demo_scheduler_inv : timers_inv demo_scheduler.
Proof.
  destruct (timer_run_ok [CSchedule 10 5 0; CSchedule 20 3 0] _ (@scheduler_default_inv N))
    as (os & s & E & Hi & _); [vm_compute; reflexivity |].
  vm_compute in E. injection E as _ <-.
  destruct (timers_inv_sub _ (pending demo_scheduler) [] Hi) as [Hi' _]; simpl.
  - apply Permutation_swap.
  - set_solver.
  - exact Hi'.
Qed.

Lemma take_variants_agree_witness :
  ∃ s1 s2, take_next_ready demo_scheduler 4000000 = Ret (Some (mk_ready 2 3 20), s1) ∧
    take_next_ready_matching demo_scheduler 4000000 any = (Some (mk_ready 2 3 20), s2) ∧ abs s1 = abs s2.
Proof.
  destruct (take_variants_agree demo_scheduler 4000000 demo_scheduler_inv)
    as (r & s1 & s2 & E1 & E2 & Ha & _).
  assert (Hr : r = Some (mk_ready 2 3 20)) by (vm_compute in E1; injection E1 as <- _; reflexivity).
  subst r. exists s1, s2. auto.
Defined.

Lemma heap_order_irrelevant_witness :
  ∃ o s1 s2, timer_exec demo_scheduler (CTake 6000000) = Ret (o, s1) ∧
    timer_exec (set_pending demo_scheduler (reverse (pending demo_scheduler))) (CTake 6000000)
      = Ret (o, s2) ∧ abs s1 = abs s2.
Proof.
  apply (heap_order_irrelevant demo_scheduler (reverse (pending demo_scheduler)) (CTake 6000000)).
  - exact demo_scheduler_inv.
  - reflexivity.
  - apply reverse_Permutation.
Defined.

(** The counter about to wrap, with the next id still taken. *)
Definition wrapping_scheduler : @TimerScheduler N :=
  mk_scheduler [] {[1; u32_max]} ∅ ∅ u32_max 7.

Lemma allocate_id_total_witness :
  ∃ i s', allocate_id wrapping_scheduler = Ret (i, s') ∧ i = 2 ∧ i ∉ active wrapping_scheduler.
Proof.
  destruct (allocate_id_total wrapping_scheduler) as (i & s' & E & Ha & _).
  - vm_compute. split; discriminate.
  - vm_compute. reflexivity.
  - exists i, s'. split; [exact E |]. split; [| exact Ha].
    vm_compute in E. injection E as <- _. reflexivity.
Defined.
