(* ===== verification/ActionWindow.v ===== *)
(** * One-shot action batching (moli-action-window)

    [ActionWindow] collects input actions for one second and releases them as
    a batch of compacted units: adjacent scrolls of a scope form one run and
    only the latest click of a scope is kept.  The reference it is proved
    against is a flat list of the retained inputs, as the crate's own model
    tests use.  Coordinates are of an abstract type: the code only stores
    them. *)

From S2P Require Import Prelude.

#[local] Open Scope N_scope.

(** [slice::last_mut]: the list without its last element, and that element. *)
Definition unsnoc {A} (l : list A) : option (list A * A) :=
  match reverse l with [] => None | x :: r => Some (reverse r, x) end.

Lemma unsnoc_snoc {A} (l : list A) x : unsnoc (l ++ [x]) = Some (l, x).
Proof. unfold unsnoc. rewrite reverse_app. simpl. by rewrite reverse_involutive. Qed.

Lemma unsnoc_Some {A} (l l' : list A) x : unsnoc l = Some (l', x) → l = l' ++ [x].
Proof.
  unfold unsnoc. destruct (reverse l) as [|y r] eqn:E; [done |]. intros [= <- <-].
  by rewrite <-(reverse_involutive l), E, reverse_cons.
Qed.

(** Scopes are compared with a decidable equality; [F] is [f64]. *)
Section window.
Context {F S O : Type} `{EqDecision S}.

(** ** action.rs *)
Record Point := mk_point { x : F; y : F }.

Definition InputModifiers_contains (self other : N) : bool := N.land self other =? other.
Definition InputModifiers_bitor (self rhs : N) : N := N.lor self rhs.

Inductive ScrollDeltaMode := Pixel | Line | Page.

Record ScrollAction := mk_scroll {
  scroll_position : Point;
  delta_x : F;
  delta_y : F;
  delta_mode : ScrollDeltaMode;
  scroll_modifiers : N
}.

Definition ScrollAction_pixels (position : Point) (dx dy : F) : ScrollAction :=
  mk_scroll position dx dy Pixel 0.

Inductive MouseButton := Left | Middle | Right | Back | Forward.

Record ClickAction := mk_click {
  click_position : Point;
  button : MouseButton;
  click_count : N;
  click_modifiers : N
}.

Definition ClickAction_new (position : Point) (b : MouseButton) (count : N) : ClickAction :=
  mk_click position b count 0.

Inductive WindowAction :=
| Scroll (a : ScrollAction)
| Click (a : ClickAction)
| Ordered (a : O).

(** ** batch.rs *)
Inductive ActionBarrier := Screenshot | Screencast | Explicit.
Inductive ActionBatchCause := Deadline | Barrier (b : ActionBarrier).

Record ScheduledAction (V : Type) := mk_scheduled { sequence : N; admitted_at : N; value : V }.
Arguments mk_scheduled {V}.
Arguments sequence {V}.
Arguments admitted_at {V}.
Arguments value {V}.

Record ScrollRun := mk_run { steps : list (ScheduledAction ScrollAction) }.

Definition ScrollRun_new (step : ScheduledAction ScrollAction) : ScrollRun := mk_run [step].
Definition ScrollRun_push (r : ScrollRun) (step : ScheduledAction ScrollAction) : ScrollRun :=
  mk_run (steps r ++ [step]).
Definition ScrollRun_append (r other : ScrollRun) : ScrollRun := mk_run (steps r ++ steps other).

Inductive PlannedAction :=
| PScroll (scope : S) (run : ScrollRun)
| PClick (scope : S) (click : ScheduledAction ClickAction)
| POrdered (scope : S) (action : ScheduledAction O).

Definition scope (a : PlannedAction) : S :=
  match a with PScroll s _ | PClick s _ | POrdered s _ => s end.

Definition PlannedAction_retained_action_count (a : PlannedAction) : N :=
  match a with PScroll _ r => N.of_nat (length (steps r)) | PClick _ _ | POrdered _ _ => 1 end.

Record ActionBatch := mk_batch {
  batch_id : N;
  batch_opened_at : N;
  batch_deadline : N;
  released_at : N;
  cause : ActionBatchCause;
  batch_admitted : N;
  batch_retained : N;
  batch_actions : list PlannedAction
}.

(** ** window.rs *)
Definition ACTION_WINDOW_DURATION : N := 1000 * nanos_per_milli.

Inductive ActionCompaction := Added | AppendedToScrollRun | ReplacedClick.
Inductive AdmissionState := Opened | Joined | Rotated.

Record ActionAdmission := mk_admission {
  adm_state : AdmissionState;
  adm_batch_id : N;
  adm_sequence : N;
  adm_deadline : N;
  compaction : ActionCompaction;
  ready_batch : option ActionBatch
}.

Record PendingWindow := mk_pending {
  id : N;
  opened_at : N;
  deadline : N;
  admitted_action_count : N;
  retained_action_count : N;
  actions : list PlannedAction
}.

(** One iteration of [normalize_scroll_runs]: append, merging with a
    same-scope run at the end. *)
Definition normalize_step (normalized : list PlannedAction) (action : PlannedAction)
    : list PlannedAction :=
  match action with
  | PScroll sc run =>
      match unsnoc normalized with
      | Some (init, PScroll previous_scope previous_run) =>
          if decide (previous_scope = sc)
          then init ++ [PScroll previous_scope (ScrollRun_append previous_run run)]
          else normalized ++ [PScroll sc run]
      | _ => normalized ++ [PScroll sc run]
      end
  | other => normalized ++ [other]
  end.

Definition normalize_scroll_runs (l : list PlannedAction) : list PlannedAction :=
  foldl normalize_step [] l.

Definition is_click_of (sc : S) (a : PlannedAction) : bool :=
  match a with PClick s _ => bool_decide (s = sc) | _ => false end.

(** [iter().position(..)] *)
Fixpoint position (f : PlannedAction → bool) (l : list PlannedAction) : option nat :=
  match l with
  | [] => None
  | a :: l => if f a then Some 0%nat else Datatypes.S <$> position f l
  end.

Definition admit_input (w : PendingWindow) (sc : S) (action : WindowAction) (seq at_ : N)
    : run (PendingWindow * ActionCompaction) :=
  admitted ← add64 (admitted_action_count w) 1;
  let with_ retained acts :=
    mk_pending (id w) (opened_at w) (deadline w) admitted retained acts in
  match action with
  | Scroll scroll =>
      retained ← add64 (retained_action_count w) 1;
      let scheduled := mk_scheduled seq at_ scroll in
      let added := Ret (with_ retained (actions w ++ [PScroll sc (ScrollRun_new scheduled)]), Added) in
      match unsnoc (actions w) with
      | Some (init, PScroll previous_scope run) =>
          if decide (previous_scope = sc)
          then Ret (with_ retained (init ++ [PScroll previous_scope (ScrollRun_push run scheduled)]),
                    AppendedToScrollRun)
          else added
      | _ => added
      end
  | Click click =>
      let pushed acts := acts ++ [PClick sc (mk_scheduled seq at_ click)] in
      match position (is_click_of sc) (actions w) with
      | Some index =>
          Ret (with_ (retained_action_count w)
                 (pushed (normalize_scroll_runs (delete index (actions w)))), ReplacedClick)
      | None =>
          retained ← add64 (retained_action_count w) 1;
          Ret (with_ retained (pushed (actions w)), Added)
      end
  | Ordered a =>
      retained ← add64 (retained_action_count w) 1;
      Ret (with_ retained (actions w ++ [POrdered sc (mk_scheduled seq at_ a)]), Added)
  end.

Definition action_sequences (a : PlannedAction) : list N :=
  match a with
  | PScroll _ run => sequence <$> steps run
  | PClick _ click => [sequence click]
  | POrdered _ action => [sequence action]
  end.

Definition remove_scope (w : PendingWindow) (sc : S) : PendingWindow * list N :=
  let kept := filter (λ a, scope a ≠ sc) (actions w) in
  let removed := filter (λ a, scope a = sc) (actions w) ≫= action_sequences in
  (mk_pending (id w) (opened_at w) (deadline w) (admitted_action_count w)
     (Nsum PlannedAction_retained_action_count kept) (normalize_scroll_runs kept),
   removed).

Definition into_batch (w : PendingWindow) (released : N) (c : ActionBatchCause) : ActionBatch :=
  mk_batch (id w) (opened_at w) (deadline w) released c (admitted_action_count w)
    (retained_action_count w) (actions w).

Record ActionWindow := mk_window {
  next_batch_id : N;
  next_sequence : N;
  open : option PendingWindow
}.

Definition window_new : ActionWindow := mk_window 1 1 None.

Definition is_idle (w : ActionWindow) : bool := match open w with None => true | Some _ => false end.
Definition next_deadline (w : ActionWindow) : option N := deadline <$> open w.
Definition pending_admitted_action_count (w : ActionWindow) : N :=
  from_option admitted_action_count 0 (open w).
Definition pending_retained_action_count (w : ActionWindow) : N :=
  from_option retained_action_count 0 (open w).
Definition pending_planned_action_count (w : ActionWindow) : nat :=
  from_option (λ p, length (actions p)) 0%nat (open w).

Definition set_open (w : ActionWindow) (p : option PendingWindow) : ActionWindow :=
  mk_window (next_batch_id w) (next_sequence w) p.

Definition clear (w : ActionWindow) : N * ActionWindow :=
  (from_option retained_action_count 0 (open w), set_open w None).

Definition allocate_batch_id (w : ActionWindow) : run (N * ActionWindow) :=
  next ← add64 (next_batch_id w) 1;
  Ret (next_batch_id w, mk_window next (next_sequence w) (open w)).

Definition allocate_sequence (w : ActionWindow) : run (N * ActionWindow) :=
  next ← add64 (next_sequence w) 1;
  Ret (next_sequence w, mk_window (next_batch_id w) next (open w)).

Definition open_window (w : ActionWindow) (opened : N) : run ActionWindow :=
  if opened + ACTION_WINDOW_DURATION <=? instant_max then
    '(i, w) ← allocate_batch_id w;
    Ret (set_open w (Some (mk_pending i opened (opened + ACTION_WINDOW_DURATION) 0 0 [])))
  else Panic.

Definition push (w : ActionWindow) (sc : S) (action : WindowAction) (at_ : N)
    : run (ActionAdmission * ActionWindow) :=
  let should_rotate := match open w with Some p => deadline p <=? at_ | None => false end in
  let ready := if should_rotate then (λ p, into_batch p at_ Deadline) <$> open w else None in
  let w := if should_rotate then set_open w None else w in
  let state := match ready, open w with
               | Some _, _ => Rotated
               | None, Some _ => Joined
               | None, None => Opened
               end in
  w ← match open w with None => open_window w at_ | Some _ => Ret w end;
  '(seq, w) ← allocate_sequence w;
  p ← expect (open w);
  '(p, comp) ← admit_input p sc action seq at_;
  Ret (mk_admission state (id p) seq (deadline p) comp ready, set_open w (Some p)).

Definition take_due (w : ActionWindow) (now : N) : option ActionBatch * ActionWindow :=
  match open w with
  | Some p => if deadline p <=? now then (Some (into_batch p now Deadline), set_open w None)
              else (None, w)
  | None => (None, w)
  end.

Definition flush (w : ActionWindow) (b : ActionBarrier) (now : N) : option ActionBatch * ActionWindow :=
  ((λ p, into_batch p now (Barrier b)) <$> open w, set_open w None).

Definition cancel_scope (w : ActionWindow) (sc : S) : list N * ActionWindow :=
  match open w with
  | None => ([], w)
  | Some p =>
      let '(p, removed) := remove_scope p sc in
      (removed, match actions p with [] => set_open w None | _ => set_open w (Some p) end)
  end.

(** ** Calls *)
Inductive window_call :=
| CPush (sc : S) (action : WindowAction) (at_ : N)
| CTakeDue (now : N)
| CFlush (b : ActionBarrier) (now : N)
| CCancelScope (sc : S)
| CClear.

Inductive window_out :=
| OAdmission (a : ActionAdmission)
| OBatch (b : option ActionBatch)
| OSequences (l : list N)
| OCount (n : N).

Definition window_exec (w : ActionWindow) (c : window_call) : run (window_out * ActionWindow) :=
  match c with
  | CPush sc action at_ => '(a, w) ← push w sc action at_; Ret (OAdmission a, w)
  | CTakeDue now => let '(b, w) := take_due w now in Ret (OBatch b, w)
  | CFlush b now => let '(b, w) := flush w b now in Ret (OBatch b, w)
  | CCancelScope sc => let '(l, w) := cancel_scope w sc in Ret (OSequences l, w)
  | CClear => let '(n, w) := clear w in Ret (OCount n, w)
  end.

(** ** The flat reference

    Retained inputs in execution order, one entry each; no runs, no counters
    to keep in step. *)
Record FlatAction := mk_flat { f_scope : S; f_seq : N; f_at : N; f_action : WindowAction }.

Definition is_flat_click (sc : S) (f : FlatAction) : bool :=
  match f_action f with Click _ => bool_decide (f_scope f = sc) | _ => false end.

Definition is_flat_scroll (sc : S) (f : FlatAction) : bool :=
  match f_action f with Scroll _ => bool_decide (f_scope f = sc) | _ => false end.

(** A click supersedes the pending click of its scope. *)
Definition flat_add (l : list FlatAction) (f : FlatAction) : list FlatAction :=
  match f_action f with
  | Click _ => filter (λ g, is_flat_click (f_scope f) g = false) l ++ [f]
  | _ => l ++ [f]
  end.

Definition flat_compaction (l : list FlatAction) (f : FlatAction) : ActionCompaction :=
  match f_action f with
  | Scroll _ => if from_option (is_flat_scroll (f_scope f)) false (last l)
                then AppendedToScrollRun else Added
  | Click _ => if existsb (is_flat_click (f_scope f)) l then ReplacedClick else Added
  | Ordered _ => Added
  end.

Record SpecBatch := mk_spec_batch {
  sb_id : N;
  sb_opened : N;
  sb_released : N;
  sb_cause : ActionBatchCause;
  sb_admitted : N;
  sb_flat : list FlatAction
}.

Record SpecWindow := mk_spec_window {
  sw_id : N;
  sw_opened : N;
  sw_admitted : N;
  sw_flat : list FlatAction
}.

Record Spec := mk_spec { sp_next_batch : N; sp_next_seq : N; sp_open : option SpecWindow }.

Inductive spec_out :=
| SAdmission (st : AdmissionState) (id seq opened : N) (comp : ActionCompaction) (b : option SpecBatch)
| SBatch (b : option SpecBatch)
| SSequences (l : list N)
| SCount (n : N).

Definition spec_release (p : SpecWindow) (now : N) (c : ActionBatchCause) : SpecBatch :=
  mk_spec_batch (sw_id p) (sw_opened p) now c (sw_admitted p) (sw_flat p).

Definition spec_close (σ : Spec) : Spec := mk_spec (sp_next_batch σ) (sp_next_seq σ) None.

Definition due (p : SpecWindow) (now : N) : bool := sw_opened p + ACTION_WINDOW_DURATION <=? now.

(** Admission into an already chosen window. *)
Definition spec_admit (σ : Spec) (p : SpecWindow) (sc : S) (a : WindowAction) (at_ : N)
    (st : AdmissionState) (ready : option SpecBatch) : spec_out * Spec :=
  let f := mk_flat sc (sp_next_seq σ) at_ a in
  (SAdmission st (sw_id p) (sp_next_seq σ) (sw_opened p) (flat_compaction (sw_flat p) f) ready,
   mk_spec (sp_next_batch σ) (sp_next_seq σ + 1)
     (Some (mk_spec_window (sw_id p) (sw_opened p) (sw_admitted p + 1) (flat_add (sw_flat p) f)))).

Definition spec_fresh (σ : Spec) (at_ : N) : Spec * SpecWindow :=
  (mk_spec (sp_next_batch σ + 1) (sp_next_seq σ) None, mk_spec_window (sp_next_batch σ) at_ 0 []).

Definition spec_exec (σ : Spec) (c : window_call) : spec_out * Spec :=
  match c with
  | CPush sc a at_ =>
      match sp_open σ with
      | Some p =>
          if due p at_
          then let '(σ', q) := spec_fresh σ at_ in
               spec_admit σ' q sc a at_ Rotated (Some (spec_release p at_ Deadline))
          else spec_admit σ p sc a at_ Joined None
      | None => let '(σ', q) := spec_fresh σ at_ in spec_admit σ' q sc a at_ Opened None
      end
  | CTakeDue now =>
      match sp_open σ with
      | Some p => if due p now then (SBatch (Some (spec_release p now Deadline)), spec_close σ)
                  else (SBatch None, σ)
      | None => (SBatch None, σ)
      end
  | CFlush b now => (SBatch ((λ p, spec_release p now (Barrier b)) <$> sp_open σ), spec_close σ)
  | CCancelScope sc =>
      match sp_open σ with
      | None => (SSequences [], σ)
      | Some p =>
          let kept := filter (λ f, f_scope f ≠ sc) (sw_flat p) in
          (SSequences (f_seq <$> filter (λ f, f_scope f = sc) (sw_flat p)),
           match kept with
           | [] => spec_close σ
           | _ => mk_spec (sp_next_batch σ) (sp_next_seq σ)
                    (Some (mk_spec_window (sw_id p) (sw_opened p) (sw_admitted p) kept))
           end)
      end
  | CClear => (SCount (from_option (λ p, N.of_nat (length (sw_flat p))) 0 (sp_open σ)), spec_close σ)
  end.

(** ** Abstraction: runs flattened *)
Definition flat_of (a : PlannedAction) : list FlatAction :=
  match a with
  | PScroll sc run => (λ s, mk_flat sc (sequence s) (admitted_at s) (Scroll (value s))) <$> steps run
  | PClick sc c => [mk_flat sc (sequence c) (admitted_at c) (Click (value c))]
  | POrdered sc o => [mk_flat sc (sequence o) (admitted_at o) (Ordered (value o))]
  end.

Definition flatten (l : list PlannedAction) : list FlatAction := l ≫= flat_of.

(** One retained input as a unit of its own. *)
Definition single (f : FlatAction) : PlannedAction :=
  match f_action f with
  | Scroll a => PScroll (f_scope f) (ScrollRun_new (mk_scheduled (f_seq f) (f_at f) a))
  | Click a => PClick (f_scope f) (mk_scheduled (f_seq f) (f_at f) a)
  | Ordered a => POrdered (f_scope f) (mk_scheduled (f_seq f) (f_at f) a)
  end.

(** The compacted form of a flat list: what the window is to hold. *)
Definition group (l : list FlatAction) : list PlannedAction :=
  foldl normalize_step [] (single <$> l).

Definition abs_window (p : PendingWindow) : SpecWindow :=
  mk_spec_window (id p) (opened_at p) (admitted_action_count p) (flatten (actions p)).

Definition abs (w : ActionWindow) : Spec :=
  mk_spec (next_batch_id w) (next_sequence w) (abs_window <$> open w).

Definition abs_batch (b : ActionBatch) : SpecBatch :=
  mk_spec_batch (batch_id b) (batch_opened_at b) (released_at b) (cause b) (batch_admitted b)
    (flatten (batch_actions b)).

Definition abs_out (o : window_out) : spec_out :=
  match o with
  | OAdmission a => SAdmission (adm_state a) (adm_batch_id a) (adm_sequence a)
                      (adm_deadline a - ACTION_WINDOW_DURATION) (compaction a)
                      (abs_batch <$> ready_batch a)
  | OBatch b => SBatch (abs_batch <$> b)
  | OSequences l => SSequences l
  | OCount n => SCount n
  end.

(** ** Grouping *)
Definition nonempty_run (a : PlannedAction) : Prop :=
  match a with PScroll _ run => steps run ≠ [] | _ => True end.

Lemma single_nonempty f : nonempty_run (single f).
Proof. unfold single. by destruct (f_action f). Qed.

Lemma flatten_cons a l : flatten (a :: l) = flat_of a ++ flatten l.
Proof. done. Qed.

Lemma flatten_app l k : flatten (l ++ k) = flatten l ++ flatten k.
Proof. apply bind_app. Qed.

Lemma flatten_single a : flatten [a] = flat_of a.
Proof. apply app_nil_r. Qed.

Lemma flat_of_single f : flat_of (single f) = [f].
Proof. destruct f as [sc s at_ []]; done. Qed.

Lemma normalize_step_flatten acc a : flatten (normalize_step acc a) = flatten acc ++ flat_of a.
Proof.
  assert (Hsnoc : flatten (acc ++ [a]) = flatten acc ++ flat_of a) by by rewrite flatten_app, flatten_single.
  unfold normalize_step. destruct a as [sc run| |]; [| done..].
  destruct (unsnoc acc) as [[init [ps prun| |]]|] eqn:E; [| done..].
  case_decide; [| done]. subst. apply unsnoc_Some in E as ->.
  rewrite !flatten_app, !flatten_single, <-app_assoc. f_equal. simpl. by rewrite fmap_app.
Qed.

Lemma foldl_flatten l : ∀ acc, flatten (foldl normalize_step acc l) = flatten acc ++ flatten l.
Proof.
  induction l as [|a l IH]; intros acc; simpl; [by rewrite app_nil_r |].
  rewrite IH, normalize_step_flatten, <-app_assoc. done.
Qed.

Lemma flatten_singles l : flatten (single <$> l) = l.
Proof.
  induction l as [|f l IH]; [done |]. rewrite fmap_cons, flatten_cons, flat_of_single, IH. done.
Qed.

Lemma flatten_group l : flatten (group l) = l.
Proof. unfold group. by rewrite foldl_flatten, flatten_singles. Qed.

(** Appending a longer run in one step or in two. *)
Lemma normalize_step_split acc sc r1 r2 :
  normalize_step (normalize_step acc (PScroll sc r1)) (PScroll sc r2) =
  normalize_step acc (PScroll sc (ScrollRun_append r1 r2)).
Proof.
  assert (Hend : normalize_step (acc ++ [PScroll sc r1]) (PScroll sc r2) =
                 acc ++ [PScroll sc (ScrollRun_append r1 r2)]).
  { simpl. rewrite unsnoc_snoc. by rewrite decide_True. }
  simpl. destruct (unsnoc acc) as [[init [ps prun| |]]|] eqn:E; [| exact Hend..].
  case_decide; [| exact Hend]. subst. simpl. rewrite unsnoc_snoc, decide_True by done.
  unfold ScrollRun_append. simpl. by rewrite app_assoc.
Qed.

Lemma normalize_step_group acc a :
  nonempty_run a → normalize_step acc a = foldl normalize_step acc (single <$> flat_of a).
Proof.
  destruct a as [sc [ss]|sc []|sc []]; [| done..]. cbn [flat_of steps nonempty_run]. intros Hne.
  revert acc. induction ss as [|s ss IH]; intros acc; [by destruct Hne |].
  destruct ss as [|s' ss]; [by destruct s |].
  rewrite (fmap_cons (A := ScheduledAction ScrollAction)), (fmap_cons single). cbn [foldl]. rewrite <-IH by done. destruct s as [q a v].
  change (single _) with (PScroll sc (mk_run [mk_scheduled q a v])) at 1.
  rewrite normalize_step_split. done.
Qed.

Lemma foldl_group l : ∀ acc,
  Forall nonempty_run l →
  foldl normalize_step acc l = foldl normalize_step acc (single <$> flatten l).
Proof.
  induction l as [|a l IH]; intros acc Hl; [done |]. apply Forall_cons in Hl as [Ha Hl].
  cbn [foldl]. rewrite flatten_cons, fmap_app, foldl_app.
  rewrite <-normalize_step_group by done. by apply IH.
Qed.

Lemma normalize_group l : Forall nonempty_run l → normalize_scroll_runs l = group (flatten l).
Proof. apply foldl_group. Qed.

Lemma group_snoc l f : group (l ++ [f]) = normalize_step (group l) (single f).
Proof. unfold group. by rewrite fmap_app, foldl_app. Qed.

Lemma normalize_step_nonempty acc a :
  Forall nonempty_run acc → nonempty_run a → Forall nonempty_run (normalize_step acc a).
Proof.
  intros Hacc Ha. assert (Hsnoc : Forall nonempty_run (acc ++ [a])) by (apply Forall_app; auto).
  unfold normalize_step. destruct a as [sc run| |]; [| done..].
  destruct (unsnoc acc) as [[init [ps prun| |]]|] eqn:E; [| done..].
  case_decide; [| done]. apply unsnoc_Some in E as ->. apply Forall_app in Hacc as [Hinit [Hlast _]%Forall_cons].
  simpl in Hlast. apply Forall_app; split; [done |].
  apply Forall_singleton. simpl. by destruct (steps prun).
Qed.

Lemma group_nonempty l : Forall nonempty_run (group l).
Proof.
  induction l as [|f l IH] using rev_ind; [constructor |].
  rewrite group_snoc. apply normalize_step_nonempty; [done | apply single_nonempty].
Qed.

(** ** Flattening and the two searches *)
Lemma click_of_flat sc a :
  filter (λ g, is_flat_click sc g = false) (flat_of a) = if is_click_of sc a then [] else flat_of a.
Proof.
  destruct a as [s [ss]|s c|s o]; simpl.
  - apply filter_all_id. intros g (st & -> & _)%list_elem_of_fmap. done.
  - unfold is_flat_click. simpl. rewrite filter_cons, filter_nil. simpl.
    case_bool_decide; by case_decide.
  - done.
Qed.

Lemma filter_click_flatten sc l :
  filter (λ g, is_flat_click sc g = false) (flatten l) =
  flatten (filter (λ a, is_click_of sc a = false) l).
Proof.
  induction l as [|a l IH]; [done |]. rewrite flatten_cons, filter_app, IH, click_of_flat, filter_cons.
  by destruct (is_click_of sc a).
Qed.

Lemma filter_scope_flatten sc l :
  filter (λ g, f_scope g ≠ sc) (flatten l) = flatten (filter (λ a, scope a ≠ sc) l).
Proof.
  induction l as [|a l IH]; [done |]. rewrite flatten_cons, filter_app, IH, filter_cons.
  assert (Hs : ∀ g, g ∈ flat_of a → f_scope g = scope a).
  { intros g. destruct a; simpl; [| set_solver..]. by intros (st & -> & _)%list_elem_of_fmap. }
  case_decide as Hsc.
  - rewrite flatten_cons. f_equal. apply filter_all_id. intros g Hg. rewrite (Hs g Hg). tauto.
  - rewrite (filter_none _ (flat_of a)); [done |]. intros g Hg. rewrite (Hs g Hg). tauto.
Qed.

Lemma removed_sequences sc l :
  filter (λ a, scope a = sc) l ≫= action_sequences =
  f_seq <$> filter (λ g, f_scope g = sc) (flatten l).
Proof.
  induction l as [|a l IH]; [done |]. rewrite flatten_cons, filter_app, fmap_app, <-IH, filter_cons.
  assert (Hs : ∀ g, g ∈ flat_of a → f_scope g = scope a).
  { intros g. destruct a; simpl; [| set_solver..]. by intros (st & -> & _)%list_elem_of_fmap. }
  case_decide as Hsc.
  - rewrite bind_cons. f_equal. rewrite filter_all_id by (intros g Hg; by rewrite Hs).
    destruct a; simpl; [| done..]. by rewrite <-list_fmap_compose.
  - rewrite (filter_none _ (flat_of a)); [done |]. intros g Hg. rewrite (Hs g Hg). tauto.
Qed.

Lemma retained_count_flatten l :
  Nsum PlannedAction_retained_action_count l = N.of_nat (length (flatten l)).
Proof.
  induction l as [|a l IH]; [done |]. rewrite flatten_cons, length_app. cbn [Nsum foldr].
  fold (Nsum PlannedAction_retained_action_count l). rewrite IH.
  destruct a; simpl; [rewrite length_fmap |..]; lia.
Qed.

Lemma position_Some f l i :
  position f l = Some i →
  ∃ l1 a l2, l = l1 ++ a :: l2 ∧ f a = true ∧ delete i l = l1 ++ l2.
Proof.
  revert i. induction l as [|b l IH]; intros i; simpl; [done |].
  destruct (f b) eqn:Hb; [intros [= <-]; by exists [], b, l |].
  destruct (position f l) as [j|] eqn:E; simpl; [| done]. intros [= <-].
  destruct (IH j eq_refl) as (l1 & a & l2 & -> & Ha & Hd). exists (b :: l1), a, l2.
  split_and!; [done.. |]. simpl. by rewrite Hd.
Qed.

Lemma position_None f l : position f l = None → ∀ a, a ∈ l → f a = false.
Proof.
  induction l as [|b l IH]; simpl; [set_solver |].
  destruct (f b) eqn:Hb; [done |]. destruct (position f l); [done |].
  intros _ a [->|Ha]%elem_of_cons; auto.
Qed.

(** Whether the last retained input is a scroll of the scope is read off the
    last unit. *)
Lemma last_scroll_flatten sc l :
  Forall nonempty_run l →
  from_option (is_flat_scroll sc) false (last (flatten l)) =
  match unsnoc l with Some (_, PScroll ps _) => bool_decide (ps = sc) | _ => false end.
Proof.
  intros Hl. destruct (unsnoc l) as [[init a]|] eqn:E.
  - apply unsnoc_Some in E as ->. apply Forall_app in Hl as [_ [Ha _]%Forall_cons].
    rewrite flatten_app, flatten_single, last_app.
    destruct a as [ps [ss]|ps c|ps o]; simpl in *; [| done..].
    rewrite fmap_last. destruct (last ss) eqn:El; [done |].
    apply last_None in El. subst. by destruct Ha.
  - unfold unsnoc in E. destruct (reverse l) eqn:Er; [| done].
    by rewrite <-(reverse_involutive l), Er.
Qed.

(** ** Invariant of a pending window *)
Record pending_inv (next : N) (p : PendingWindow) : Prop := {
  pi_group : actions p = group (flatten (actions p));
  pi_retained : retained_action_count p = N.of_nat (length (flatten (actions p)));
  pi_deadline : deadline p = opened_at p + ACTION_WINDOW_DURATION;
  pi_clicks : ∀ sc, (length (filter (λ g, is_flat_click sc g = true) (flatten (actions p))) ≤ 1)%nat;
  pi_sorted : StronglySorted N.lt (f_seq <$> flatten (actions p));
  pi_newest : ∀ g, g ∈ flatten (actions p) → f_seq g < next;
  pi_admitted : retained_action_count p ≤ admitted_action_count p;
  pi_bound : admitted_action_count p < next
}.

Lemma pending_nonempty next p : pending_inv next p → Forall nonempty_run (actions p).
Proof. intros Hp. rewrite (pi_group _ _ Hp). apply group_nonempty. Qed.

Lemma flat_add_length l f :
  (∀ sc, length (filter (λ g, is_flat_click sc g = true) l) ≤ 1)%nat →
  length (flat_add l f) = match f_action f with
                          | Click _ => if existsb (is_flat_click (f_scope f)) l then length l
                                       else Datatypes.S (length l)
                          | _ => Datatypes.S (length l)
                          end.
Proof.
  intros Hone. unfold flat_add. destruct (f_action f); rewrite length_app; simpl; [lia | | lia].
  specialize (Hone (f_scope f)).
  assert (Hlen : (length (filter (λ g, is_flat_click (f_scope f) g = true) l) +
                  length (filter (λ g, is_flat_click (f_scope f) g = false) l) = length l)%nat).
  { clear. induction l as [|g l IH]; [done |]. rewrite !filter_cons.
    destruct (is_flat_click (f_scope f) g); simpl; lia. }
  destruct (existsb _ l) eqn:E.
  - apply existsb_exists in E as (g & Hg & Hc). apply list_elem_of_In in Hg.
    destruct (filter (λ g, is_flat_click (f_scope f) g = true) l) as [|h k] eqn:Ef.
    + assert (Hin : g ∈ filter (λ g, is_flat_click (f_scope f) g = true) l) by by apply list_elem_of_filter.
      rewrite Ef in Hin. set_solver.
    + simpl in *. lia.
  - assert (Hz : filter (λ g, is_flat_click (f_scope f) g = true) l = []).
    { apply filter_none. intros g Hg Hc. rewrite (proj2 (existsb_exists _ l)) in E; [done |].
      exists g. by rewrite <-list_elem_of_In. }
    rewrite Hz in Hlen. simpl in Hlen. lia.
Qed.

Lemma flat_add_elem l f g : g ∈ flat_add l f → g = f ∨ g ∈ l.
Proof.
  unfold flat_add. destruct (f_action f); rewrite elem_of_app, list_elem_of_singleton;
    try rewrite list_elem_of_filter; naive_solver.
Qed.

Lemma sorted_snoc l n :
  StronglySorted N.lt l → (∀ m, m ∈ l → m < n) → StronglySorted N.lt (l ++ [n]).
Proof.
  induction 1 as [|m l Hl IH Hm]; intros Hn; simpl; [repeat constructor |].
  constructor; [apply IH; set_solver |]. apply Forall_app. split; [done |].
  constructor; [apply Hn; set_solver | constructor].
Qed.

Lemma sorted_filter (P : FlatAction → Prop) `{∀ x, Decision (P x)} l :
  StronglySorted N.lt (f_seq <$> l) → StronglySorted N.lt (f_seq <$> filter P l).
Proof.
  induction l as [|g l IH]; intros Hl; [constructor |]. apply StronglySorted_inv in Hl as [Hl Hg].
  rewrite filter_cons. case_decide; [| auto]. rewrite fmap_cons. constructor; [auto |].
  rewrite Forall_forall in *. intros m (h & -> & [_ Hh]%list_elem_of_filter)%list_elem_of_fmap.
  apply Hg, list_elem_of_fmap. by exists h.
Qed.

Lemma flat_add_sorted l f :
  StronglySorted N.lt (f_seq <$> l) → (∀ g, g ∈ l → f_seq g < f_seq f) →
  StronglySorted N.lt (f_seq <$> flat_add l f).
Proof.
  intros Hl Hn. unfold flat_add. destruct (f_action f); rewrite fmap_app; apply sorted_snoc;
    auto using sorted_filter; intros m (g & -> & Hg)%list_elem_of_fmap;
    try (apply list_elem_of_filter in Hg as [_ Hg]); auto.
Qed.

Definition one_click (l : list FlatAction) : Prop :=
  ∀ sc, (length (filter (λ g, is_flat_click sc g = true) l) ≤ 1)%nat.

Lemma one_click_filter (P : FlatAction → Prop) `{∀ x, Decision (P x)} l :
  one_click l → one_click (filter P l).
Proof.
  intros Hl sc. specialize (Hl sc). etrans; [| exact Hl]. clear Hl.
  induction l as [|g l IH]; [done |]. rewrite (filter_cons P). case_decide; rewrite !filter_cons;
    destruct (is_flat_click sc g); simpl; lia.
Qed.

Lemma filter_twice_none sc l :
  filter (λ g, is_flat_click sc g = true) (filter (λ g, is_flat_click sc g = false) l) = [].
Proof. apply filter_none. intros g [Hg _]%list_elem_of_filter. congruence. Qed.

Lemma flat_add_one_click l f : one_click l → one_click (flat_add l f).
Proof.
  intros Hl sc.
  assert (Hother : ∀ k, is_flat_click sc f = false → one_click k →
    (length (filter (λ g, is_flat_click sc g = true) (k ++ [f])) ≤ 1)%nat).
  { intros k Hf Hk. rewrite filter_app, (filter_none _ [f]), app_nil_r; [apply Hk |].
    intros g ->%list_elem_of_singleton. congruence. }
  unfold flat_add. destruct (f_action f) as [a|a|a] eqn:Ef.
  - apply Hother; [unfold is_flat_click; by rewrite Ef | done].
  - destruct (decide (f_scope f = sc)) as [<-|Hne].
    + rewrite filter_app, filter_twice_none. simpl. rewrite filter_cons. case_decide; simpl; lia.
    + apply Hother; [unfold is_flat_click; by rewrite Ef, bool_decide_eq_false_2 |].
      by apply one_click_filter.
  - apply Hother; [unfold is_flat_click; by rewrite Ef | done].
Qed.

(** Removing the one click of a scope is filtering the clicks of the scope. *)
Lemma remove_click_flatten sc l i :
  one_click (flatten l) → position (is_click_of sc) l = Some i →
  flatten (delete i l) = filter (λ g, is_flat_click sc g = false) (flatten l) ∧
  existsb (is_flat_click sc) (flatten l) = true.
Proof.
  intros Hone (l1 & a & l2 & -> & Ha & ->)%position_Some. specialize (Hone sc).
  destruct a as [|s c|]; try discriminate Ha. simpl in Ha.
  set (g := mk_flat s (sequence c) (admitted_at c) (Click (value c))).
  assert (Hc : is_flat_click sc g = true) by done.
  rewrite !flatten_app, flatten_cons. cbn [flat_of]. fold g. rewrite !filter_app, !filter_cons.
  rewrite !flatten_app, flatten_cons in Hone. cbn [flat_of] in Hone. fold g in Hone.
  rewrite !filter_app, !filter_cons, filter_nil, !length_app in Hone.
  rewrite Hc in *. rewrite filter_nil. simpl in *.
  assert (Hnone : ∀ k, length (filter (λ g, is_flat_click sc g = true) k) = 0%nat →
                    filter (λ g, is_flat_click sc g = false) k = k).
  { intros k Hk%nil_length_inv. apply filter_all_id. intros h Hh.
    apply not_true_is_false. intros Ht.
    assert (Hin : h ∈ filter (λ g, is_flat_click sc g = true) k) by by apply list_elem_of_filter.
    rewrite Hk in Hin. set_solver. }
  split; [rewrite !Hnone by lia; done |]. apply existsb_exists. exists g. split; [| done].
  apply in_app_iff. right. by left.
Qed.

Lemma no_click_flatten sc l :
  position (is_click_of sc) l = None →
  flatten l = filter (λ g, is_flat_click sc g = false) (flatten l) ∧
  existsb (is_flat_click sc) (flatten l) = false.
Proof.
  intros Hpos. pose proof (position_None _ _ Hpos) as Hn.
  assert (Hf : flatten l = filter (λ g, is_flat_click sc g = false) (flatten l)).
  { rewrite filter_click_flatten, filter_all_id; done. }
  split; [done |]. apply not_true_is_false. intros (g & Hg & Hc)%existsb_exists.
  rewrite Hf in Hg. apply list_elem_of_In, list_elem_of_filter in Hg as [Hg _]. congruence.
Qed.

Lemma admit_actions next p sc a seq at_ :
  pending_inv next p → admitted_action_count p < u64_max →
  let f := mk_flat sc seq at_ a in
  ∃ p', admit_input p sc a seq at_ = Ret (p', flat_compaction (flatten (actions p)) f) ∧
    actions p' = group (flat_add (flatten (actions p)) f) ∧
    retained_action_count p' = N.of_nat (length (flat_add (flatten (actions p)) f)) ∧
    id p' = id p ∧ opened_at p' = opened_at p ∧ deadline p' = deadline p ∧
    admitted_action_count p' = admitted_action_count p + 1.
Proof.
  intros Hp Hb f. pose proof (pending_nonempty _ _ Hp) as Hne.
  pose proof (pi_group _ _ Hp) as Hg. pose proof (pi_retained _ _ Hp) as Hr.
  pose proof (pi_admitted _ _ Hp) as Ha.
  unfold admit_input. rewrite (add64_fits (admitted_action_count p)) by lia. simpl.
  rewrite flat_add_length by apply Hp. unfold flat_add, flat_compaction. simpl.
  destruct a as [s|c|o]; simpl.
  - rewrite add64_fits by lia. simpl. rewrite last_scroll_flatten by done.
    rewrite group_snoc, <-Hg. unfold normalize_step, single; simpl.
    destruct (unsnoc (actions p)) as [[init [ps run| |]]|] eqn:E; simpl;
      [case_bool_decide; case_decide; try done |..];
      (eexists; split; [done |]; split_and!; simpl; [done | lia | done..]).
  - destruct (position (is_click_of sc) (actions p)) as [i|] eqn:E.
    + destruct (remove_click_flatten _ _ _ (pi_clicks _ _ Hp) E) as [Hd Hx]. rewrite Hx.
      eexists. split; [done |]. split_and!; simpl; [| lia | done..].
      rewrite group_snoc, <-Hd, normalize_group; [done |].
      apply position_Some in E as (l1 & b & l2 & El & _ & ->). rewrite El in Hne.
      apply Forall_app in Hne as [? [_ ?]%Forall_cons]. by apply Forall_app.
    + destruct (no_click_flatten _ _ E) as [Hd Hx]. rewrite Hx, <-Hd.
      rewrite add64_fits by lia. simpl. eexists. split; [done |]. split_and!; simpl; [| lia | done..].
      by rewrite group_snoc, <-Hg.
  - rewrite add64_fits by lia. simpl. eexists. split; [done |]. split_and!; simpl; [| lia | done..].
    by rewrite group_snoc, <-Hg.
Qed.

Lemma admit_ok next p sc a at_ :
  pending_inv next p → next ≤ u64_max →
  let f := mk_flat sc next at_ a in
  ∃ p', admit_input p sc a next at_ = Ret (p', flat_compaction (flatten (actions p)) f) ∧
    pending_inv (next + 1) p' ∧
    abs_window p' = mk_spec_window (id p) (opened_at p) (admitted_action_count p + 1)
                      (flat_add (flatten (actions p)) f).
Proof.
  intros Hp Hb f. pose proof (pi_bound _ _ Hp) as Hbound.
  destruct (admit_actions next p sc a next at_ Hp) as (p' & E & Hact & Hret & Hid & Hop & Hdl & Had); [lia |].
  fold f in E, Hact, Hret. exists p'. split; [done |].
  assert (Hfl : flatten (actions p') = flat_add (flatten (actions p)) f) by by rewrite Hact, flatten_group.
  split.
  - destruct Hp as [H1 H2 H3 H4 H5 H6 H7 H8]. split; rewrite ?Hfl; try done.
    + congruence.
    + by apply flat_add_one_click.
    + by apply flat_add_sorted.
    + intros g [->|Hg]%flat_add_elem; [simpl; lia | specialize (H6 g Hg); lia].
    + rewrite Hret, Had. rewrite flat_add_length by done. destruct (f_action f); [lia | case_match; lia | lia].
    + rewrite Had. lia.
  - unfold abs_window. by rewrite Hfl, Hid, Hop, Had.
Qed.

(** ** Every call simulates the reference *)
#[local] Arguments admit_input : simpl never.
#[local] Arguments flatten : simpl never.

Record window_inv (w : ActionWindow) : Prop := {
  wi_open : ∀ p, open w = Some p → pending_inv (next_sequence w) p ∧ flatten (actions p) ≠ [];
  wi_next : 1 ≤ next_sequence w
}.

(** Counters and clock stay in range. *)
Definition legal (w : ActionWindow) (c : window_call) : bool :=
  match c with
  | CPush _ _ at_ =>
      (next_sequence w <? u64_max) && (next_batch_id w <? u64_max) &&
      (at_ + ACTION_WINDOW_DURATION <=? instant_max)
  | _ => true
  end.

Lemma due_deadline next p now : pending_inv next p → due (abs_window p) now = (deadline p <=? now).
Proof. intros Hp. unfold due. simpl. by rewrite <-(pi_deadline _ _ Hp). Qed.

Lemma pending_inv_new i at_ next :
  1 ≤ next → pending_inv next (mk_pending i at_ (at_ + ACTION_WINDOW_DURATION) 0 0 []).
Proof.
  intros Hn. split; simpl; try done.
  - intros sc. lia.
  - constructor.
  - intros g Hg. by apply elem_of_nil in Hg.
  - lia.
Qed.

(** Admission into window [p], shared by all three admission states. *)
Lemma push_into w p sc a at_ st ready :
  pending_inv (next_sequence w) p → 1 ≤ next_sequence w → next_sequence w < u64_max →
  ∃ o w', ('(seq, w) ← allocate_sequence (set_open w (Some p));
           p ← expect (open w);
           '(p, comp) ← admit_input p sc a seq at_;
           Ret (mk_admission st (id p) seq (deadline p) comp ready, set_open w (Some p))) = Ret (o, w') ∧
    window_inv w' ∧
    spec_admit (mk_spec (next_batch_id w) (next_sequence w) None) (abs_window p) sc a at_ st
      (abs_batch <$> ready) = (abs_out (OAdmission o), abs w').
Proof.
  intros Hp Hn Hmax. unfold allocate_sequence. simpl.
  rewrite add64_fits by lia. simpl.
  destruct (admit_ok _ p sc a at_ Hp) as (p' & E & Hp' & Habs); [lia |]. rewrite E. simpl.
  eexists _, _. split; [done |]. split.
  - split; simpl; [| lia]. intros q [= <-]. split; [done |].
    assert (Hfl : flatten (actions p') = sw_flat (abs_window p')) by done. rewrite Hfl, Habs. simpl.
    unfold flat_add. destruct (f_action _); intros [_ ?]%app_eq_nil; done.
  - unfold spec_admit. simpl. unfold abs. simpl. rewrite Habs.
    assert (Heq : id p' = id p ∧ deadline p' - ACTION_WINDOW_DURATION = opened_at p).
    { assert (He : sw_id (abs_window p') = id p ∧ sw_opened (abs_window p') = opened_at p) by by rewrite Habs.
      simpl in He. destruct He as [-> <-]. split; [done |]. rewrite (pi_deadline _ _ Hp'). lia. }
    destruct Heq as [Hid Hdl]. by rewrite Hid, Hdl.
Qed.

Lemma open_window_ok w at_ :
  next_batch_id w < u64_max → at_ + ACTION_WINDOW_DURATION ≤ instant_max →
  open_window w at_ =
  Ret (mk_window (next_batch_id w + 1) (next_sequence w)
         (Some (mk_pending (next_batch_id w) at_ (at_ + ACTION_WINDOW_DURATION) 0 0 []))).
Proof.
  intros Hb Hc. unfold open_window, allocate_batch_id. rewrite (proj2 (N.leb_le _ _) Hc).
  rewrite add64_fits by lia. done.
Qed.

Lemma push_ok w sc a at_ :
  window_inv w → legal w (CPush sc a at_) = true →
  ∃ o w', push w sc a at_ = Ret (o, w') ∧ window_inv w' ∧
    spec_exec (abs w) (CPush sc a at_) = (abs_out (OAdmission o), abs w').
Proof.
  intros [Ho Hn] Hl. cbn [legal] in Hl. apply andb_prop in Hl as [[Hs Hb]%andb_prop Hc].
  apply N.ltb_lt in Hs, Hb. apply N.leb_le in Hc.
  unfold push. cbn [spec_exec abs sp_open]. destruct (open w) as [p|] eqn:Eo; cbn [fmap option_fmap option_map].
  - destruct (Ho p eq_refl) as [Hp _]. rewrite (due_deadline _ _ at_ Hp).
    destruct (deadline p <=? at_).
    + cbn [set_open open]. rewrite open_window_ok by done. cbn [mbind run_bind].
      apply (push_into (mk_window (next_batch_id w + 1) (next_sequence w) None)
               (mk_pending (next_batch_id w) at_ (at_ + ACTION_WINDOW_DURATION) 0 0 []) sc a at_ Rotated
               (Some (into_batch p at_ Deadline))); simpl; [by apply pending_inv_new | done..].
    + rewrite Eo. cbn [mbind run_bind].
      assert (Hw : w = set_open w (Some p)) by (unfold set_open; rewrite <-Eo; by destruct w).
      destruct (push_into w p sc a at_ Joined None Hp Hn Hs) as (o & w' & E & Hi & Hsp).
      rewrite <-Hw in E. exists o, w'. done.
  - rewrite Eo. rewrite open_window_ok by done. cbn [mbind run_bind].
    apply (push_into (mk_window (next_batch_id w + 1) (next_sequence w) None)
             (mk_pending (next_batch_id w) at_ (at_ + ACTION_WINDOW_DURATION) 0 0 []) sc a at_ Opened None);
      simpl; [by apply pending_inv_new | done..].
Qed.

Lemma set_open_None_inv w : window_inv w → window_inv (set_open w None).
Proof. intros [_ Hn]. split; simpl; done. Qed.

Lemma group_nil l : group l = [] ↔ l = [].
Proof.
  split; [| by intros ->]. intros Hg. by rewrite <-(flatten_group l), Hg.
Qed.

(** Cancelling keeps the invariant of the window it leaves behind. *)
Lemma remove_scope_ok next p sc p' removed :
  pending_inv next p → remove_scope p sc = (p', removed) →
  pending_inv next p' ∧ flatten (actions p') = filter (λ f, f_scope f ≠ sc) (flatten (actions p)) ∧
  removed = f_seq <$> filter (λ f, f_scope f = sc) (flatten (actions p)) ∧
  id p' = id p ∧ opened_at p' = opened_at p ∧ admitted_action_count p' = admitted_action_count p.
Proof.
  intros Hp. unfold remove_scope. intros [= <- <-]. cbn [actions id opened_at admitted_action_count].
  assert (Hne : Forall nonempty_run (filter (λ a, scope a ≠ sc) (actions p))).
  { pose proof (pending_nonempty _ _ Hp) as Hne. rewrite Forall_forall in *.
    intros a [_ Ha]%list_elem_of_filter. auto. }
  assert (Hfl : flatten (normalize_scroll_runs (filter (λ a, scope a ≠ sc) (actions p))) =
                filter (λ f, f_scope f ≠ sc) (flatten (actions p))).
  { by rewrite normalize_group, flatten_group, filter_scope_flatten. }
  split_and!; [| done | apply removed_sequences | done..].
  assert (Hcount : Nsum PlannedAction_retained_action_count (filter (λ a, scope a ≠ sc) (actions p)) =
            N.of_nat (length (filter (λ f, f_scope f ≠ sc) (flatten (actions p))))).
  { by rewrite retained_count_flatten, <-filter_scope_flatten. }
  pose proof (length_filter (λ f, f_scope f ≠ sc) (flatten (actions p))) as Hle.
  destruct Hp as [H1 H2 H3 H4 H5 H6 H7 H8].
  split; cbn [actions retained_action_count deadline opened_at admitted_action_count]; rewrite ?Hfl; try done.
  - by rewrite normalize_group, <-filter_scope_flatten.
  - by apply one_click_filter.
  - by apply sorted_filter.
  - intros g [_ Hg]%list_elem_of_filter. auto.
  - rewrite Hcount. lia.
Qed.

Lemma cancel_scope_ok w sc l w' :
  window_inv w → cancel_scope w sc = (l, w') →
  window_inv w' ∧ spec_exec (abs w) (CCancelScope sc) = (SSequences l, abs w').
Proof.
  intros Hi. unfold cancel_scope. cbn [spec_exec abs sp_open].
  destruct (open w) as [p|] eqn:Eo; cbn [fmap option_fmap option_map].
  2:{ intros [= <- <-]. split; [done |]. unfold abs. by rewrite Eo. }
  destruct (wi_open _ Hi p Eo) as [Hp _].
  destruct (remove_scope p sc) as [p' removed] eqn:E. intros [= <- <-].
  destruct (remove_scope_ok _ _ _ _ _ Hp E) as (Hp' & Hfl & -> & Hid & Hop & Had).
  cbn [abs_window sw_flat]. rewrite <-Hfl.
  pose proof (pi_group _ _ Hp') as Hg.
  destruct (actions p') as [|a acts] eqn:Ea.
  - split; [by apply set_open_None_inv | done].
  - assert (Hne : flatten (actions p') ≠ []).
    { rewrite Ea. intros Hnil. rewrite Hnil in Hg. discriminate Hg. }
    rewrite <-Ea in *. split.
    + split; simpl; [| apply Hi]. intros q [= <-]. done.
    + unfold abs, set_open, abs_window. simpl. rewrite Hid, Hop, Had.
      by destruct (flatten (actions p')).
Qed.

Lemma window_exec_ok w c :
  window_inv w → legal w c = true →
  ∃ o w', window_exec w c = Ret (o, w') ∧ window_inv w' ∧ spec_exec (abs w) c = (abs_out o, abs w').
Proof.
  intros Hi Hl. destruct c as [sc a at_|now|b now|sc|]; cbn [window_exec].
  - destruct (push_ok _ _ _ _ Hi Hl) as (o & w' & E & Hi' & Hs). rewrite E. simpl. eauto.
  - unfold take_due. cbn [spec_exec abs sp_open].
    destruct (open w) as [p|] eqn:Eo; cbn [fmap option_fmap option_map].
    + destruct (wi_open _ Hi p Eo) as [Hp _]. rewrite (due_deadline _ _ now Hp).
      destruct (deadline p <=? now); eexists _, _; split_and!; [done | | done | done | done |];
        [by apply set_open_None_inv | simpl; unfold abs; by rewrite Eo].
    + eexists _, _. split_and!; [done.. |]. simpl. unfold abs. by rewrite Eo.
  - eexists _, _. split_and!; [done | by apply set_open_None_inv |]. simpl.
    unfold spec_close. simpl. by destruct (open w).
  - destruct (cancel_scope w sc) as [l w'] eqn:E. apply cancel_scope_ok in E as [? ?]; eauto.
  - eexists _, _. split_and!; [done | by apply set_open_None_inv |]. simpl.
    destruct (open w) as [p|] eqn:Eo; simpl; [| done].
    destruct (wi_open _ Hi p Eo) as [Hp _]. by rewrite (pi_retained _ _ Hp).
Qed.

Fixpoint window_run (w : ActionWindow) (cs : list window_call) : run (list window_out * ActionWindow) :=
  match cs with
  | [] => Ret ([], w)
  | c :: cs => '(o, w) ← window_exec w c; '(os, w) ← window_run w cs; Ret (o :: os, w)
  end.

Fixpoint spec_run (σ : Spec) (cs : list window_call) : list spec_out * Spec :=
  match cs with
  | [] => ([], σ)
  | c :: cs => let '(o, σ) := spec_exec σ c in let '(os, σ) := spec_run σ cs in (o :: os, σ)
  end.

Fixpoint all_legal (w : ActionWindow) (cs : list window_call) : bool :=
  match cs with
  | [] => true
  | c :: cs => legal w c && match window_exec w c with Ret (_, w) => all_legal w cs | Panic => true end
  end.

Lemma window_new_inv : window_inv window_new.
Proof. split; simpl; [done | lia]. Qed.

Lemma window_run_ok cs : ∀ w,
  window_inv w → all_legal w cs = true →
  ∃ os w', window_run w cs = Ret (os, w') ∧ window_inv w' ∧
    spec_run (abs w) cs = (abs_out <$> os, abs w').
Proof.
  induction cs as [|c cs IH]; intros w Hi Hl; simpl in *; [by exists [], w |].
  apply andb_prop in Hl as [Hc Hl]. destruct (window_exec_ok w c Hi Hc) as (o & w1 & E & Hi1 & Hs).
  rewrite E in *. destruct (IH w1 Hi1 Hl) as (os & w2 & E2 & Hi2 & Hr). simpl. rewrite E2. simpl.
  rewrite Hs, Hr. by exists (o :: os), w2.
Qed.

(** ** What a released batch looks like *)
Definition out_batch (o : window_out) : option ActionBatch :=
  match o with OAdmission a => ready_batch a | OBatch b => b | _ => None end.

Definition mergeable (a b : PlannedAction) : Prop :=
  match a, b with PScroll s _, PScroll t _ => s = t | _, _ => False end.

Definition compacted (l : list PlannedAction) : Prop :=
  ∀ i a b, l !! i = Some a → l !! Datatypes.S i = Some b → ¬ mergeable a b.

Lemma compacted_snoc l a :
  compacted l → (∀ b, last l = Some b → ¬ mergeable b a) → compacted (l ++ [a]).
Proof.
  intros Hl Ha i b c Hb Hc.
  assert (Hi : (Datatypes.S i < length (l ++ [a]))%nat) by by apply lookup_lt_Some in Hc.
  rewrite length_app in Hi. simpl in Hi.
  rewrite lookup_app_l in Hb by lia.
  destruct (decide (Datatypes.S i < length l)%nat) as [Hlt|Hge].
  - rewrite lookup_app_l in Hc by done. by eapply Hl.
  - assert (Hlen : length l = Datatypes.S i) by lia.
    rewrite lookup_app_r, Hlen, Nat.sub_diag in Hc by lia. simplify_eq/=.
    apply Ha. rewrite last_lookup, Hlen. done.
Qed.

Lemma compacted_init l a : compacted (l ++ [a]) → compacted l.
Proof.
  intros Hl i b c Hb Hc. apply (Hl i); by apply lookup_app_l_Some.
Qed.

Lemma normalize_step_compacted acc a : compacted acc → compacted (normalize_step acc a).
Proof.
  intros Hacc. unfold normalize_step.
  destruct a as [sc run|sc c|sc o]; [| apply compacted_snoc; [done | intros []; simpl; tauto]..].
  assert (Hsnoc : (∀ b, last acc = Some b → ¬ mergeable b (PScroll sc run)) →
                  compacted (acc ++ [PScroll sc run])) by by apply compacted_snoc.
  destruct (unsnoc acc) as [[init b]|] eqn:E.
  2:{ apply Hsnoc. unfold unsnoc in E. intros b Hb. destruct (reverse acc) eqn:Er; [| done].
      by rewrite <-(reverse_involutive acc), Er in Hb. }
  apply unsnoc_Some in E as ->. rewrite last_snoc in Hsnoc.
  destruct b as [ps prun| |]; [| apply Hsnoc; intros ? [= <-]; simpl; tauto..].
  case_decide; [| apply Hsnoc; intros ? [= <-]; done].
  apply compacted_snoc; [by eapply compacted_init |]. intros b Hb Hm.
  rewrite last_lookup in Hb. apply (Hacc (pred (length init)) b (PScroll ps prun)).
  - apply lookup_app_l_Some, Hb.
  - assert (length init ≠ 0%nat) by (intros Hz; destruct init; done).
    replace (Datatypes.S (pred (length init))) with (length init) by lia.
    rewrite lookup_app_r by lia. by rewrite Nat.sub_diag.
  - by destruct b.
Qed.

Lemma group_compacted l : compacted (group l).
Proof.
  induction l as [|f l IH] using rev_ind; [by intros i |].
  rewrite group_snoc. by apply normalize_step_compacted.
Qed.

Lemma exec_batch_pending w c o w' b :
  window_exec w c = Ret (o, w') → out_batch o = Some b →
  ∃ p now k, open w = Some p ∧ b = into_batch p now k.
Proof.
  destruct c as [sc a at_|now|br now|sc|]; cbn [window_exec]; intros E Hb.
  - unfold push in E.
    repeat (inv_run; match goal with x : _ * _ |- _ => destruct x end). inv_run. simpl in Hb.
    destruct (match open w with Some p => deadline p <=? at_ | None => false end); [| done].
    apply fmap_Some in Hb as (p0 & Hp & ->). eauto.
  - unfold take_due in E. destruct (open w) as [p|]; [destruct (deadline p <=? now) |];
      inv_run; naive_solver.
  - unfold flush in E. inv_run. apply fmap_Some in Hb as (p & Hp & ->). eauto.
  - destruct (cancel_scope w sc). by inv_run.
  - unfold clear in E. by inv_run.
Qed.

Record batch_ok (b : ActionBatch) : Prop := {
  bo_compacted : compacted (batch_actions b);
  bo_runs : Forall nonempty_run (batch_actions b);
  bo_retained : batch_retained b = N.of_nat (length (flatten (batch_actions b)));
  bo_admitted : batch_retained b ≤ batch_admitted b;
  bo_clicks : one_click (flatten (batch_actions b));
  bo_order : StronglySorted N.lt (f_seq <$> flatten (batch_actions b));
  bo_some : flatten (batch_actions b) ≠ [];
  bo_deadline : batch_deadline b = batch_opened_at b + ACTION_WINDOW_DURATION
}.

Lemma into_batch_ok next p now k :
  pending_inv next p → flatten (actions p) ≠ [] → batch_ok (into_batch p now k).
Proof.
  intros Hp Hne. pose proof (pending_nonempty _ _ Hp). pose proof (pi_group _ _ Hp) as Hg.
  destruct Hp. split; simpl; try done. rewrite Hg. apply group_compacted.
Qed.

Lemma run_batches cs : ∀ w os w',
  window_inv w → all_legal w cs = true → window_run w cs = Ret (os, w') →
  ∀ o b, o ∈ os → out_batch o = Some b → batch_ok b.
Proof.
  induction cs as [|c cs IH]; intros w os w' Hi Hl Hr o b; simpl in *.
  { inv_run. set_solver. }
  apply andb_prop in Hl as [Hc Hl]. destruct (window_exec_ok w c Hi Hc) as (o1 & w1 & E & Hi1 & _).
  rewrite E in *. simpl in Hr. inv_run. destruct r as [os1 w2]. inv_run.
  intros [->|Ho]%elem_of_cons Hb; [| by eapply IH].
  destruct (exec_batch_pending _ _ _ _ _ E Hb) as (p & now & k & Hp & ->).
  destruct (wi_open _ Hi p Hp). by eapply into_batch_ok.
Qed.

(** ** Conservation *)
Definition is_click (f : FlatAction) : bool := match f_action f with Click _ => true | _ => false end.

Notation no_clicks := (filter (λ f, is_click f = false)).

Definition pending_flat (σ : Spec) : list FlatAction := from_option sw_flat [] (sp_open σ).

Definition out_flat (o : spec_out) : list FlatAction :=
  match o with
  | SAdmission _ _ _ _ _ (Some b) | SBatch (Some b) => sb_flat b
  | _ => []
  end.

(** The inputs a history pushes, numbered from [seq]. *)
Fixpoint pushed (seq : N) (cs : list window_call) : list FlatAction :=
  match cs with
  | [] => []
  | CPush sc a at_ :: cs => mk_flat sc seq at_ a :: pushed (seq + 1) cs
  | _ :: cs => pushed seq cs
  end.

Definition drops (c : window_call) : bool :=
  match c with CCancelScope _ | CClear => true | _ => false end.

Lemma no_clicks_add l f : no_clicks (flat_add l f) = no_clicks l ++ no_clicks [f].
Proof.
  unfold flat_add. destruct (f_action f) eqn:Ef; rewrite filter_app; [done | | done].
  f_equal. rewrite list_filter_filter. apply list_filter_iff. intros g.
  unfold is_click, is_flat_click. destruct (f_action g); naive_solver.
Qed.

Lemma spec_exec_conserves σ c o σ' :
  drops c = false → spec_exec σ c = (o, σ') →
  no_clicks (out_flat o) ++ no_clicks (pending_flat σ') =
    no_clicks (pending_flat σ) ++ no_clicks (pushed (sp_next_seq σ) [c]) ∧
  pushed (sp_next_seq σ) [c] = (match c with CPush _ _ _ => pushed (sp_next_seq σ) [c] | _ => [] end) ∧
  sp_next_seq σ' = (match c with CPush _ _ _ => sp_next_seq σ + 1 | _ => sp_next_seq σ end).
Proof.
  intros Hd E. destruct c as [sc a at_|now|b now|sc|]; try discriminate Hd; cbn [spec_exec] in E;
    unfold pending_flat.
  - destruct (sp_open σ) as [p|] eqn:Eo; [destruct (due p at_) |]; cbn in E; injection E as <- <-;
      cbn [from_option sp_open sw_flat out_flat sb_flat spec_release pushed sp_next_seq];
      rewrite ?no_clicks_add; done.
  - destruct (sp_open σ) as [p|] eqn:Eo; [destruct (due p now) |]; injection E as <- <-; simpl;
      rewrite ?Eo; simpl; rewrite ?app_nil_r; done.
  - injection E as <- <-. destruct (sp_open σ) as [p|]; simpl; rewrite ?app_nil_r; done.
Qed.

Lemma spec_run_conserves cs : ∀ σ os σ',
  forallb (λ c, negb (drops c)) cs = true → spec_run σ cs = (os, σ') →
  no_clicks (os ≫= out_flat) ++ no_clicks (pending_flat σ') =
    no_clicks (pending_flat σ) ++ no_clicks (pushed (sp_next_seq σ) cs).
Proof.
  induction cs as [|c cs IH]; intros σ os σ' Hd E; cbn [spec_run] in E.
  { injection E as <- <-. simpl. by rewrite app_nil_r. }
  simpl in Hd. apply andb_prop in Hd as [Hc%negb_true_iff Hd].
  destruct (spec_exec σ c) as [o σ1] eqn:E1. destruct (spec_run σ1 cs) as [os1 σ2] eqn:E2.
  injection E as <- <-. destruct (spec_exec_conserves _ _ _ _ Hc E1) as (H1 & _ & H3).
  specialize (IH _ _ _ Hd E2). rewrite bind_cons, filter_app, <-app_assoc, IH, app_assoc, H1.
  rewrite <-app_assoc. f_equal. rewrite H3, <-filter_app. f_equal. by destruct c.
Qed.

(** ** Properties *)

(** C22: the window implements its flat reference. For every history of
    calls each call returns and answers exactly what the reference does: the
    same inputs in the same order in each batch, the same admission state,
    compaction kind, sequence numbers and cancelled sequences; a batch comes
    out at the fixed deadline one second after its first input, or at a
    barrier. *)
Theorem action_window_refines (cs : list window_call) :
  all_legal window_new cs = true →
  ∃ os w, window_run window_new cs = Ret (os, w) ∧
    spec_run (mk_spec 1 1 None) cs = (abs_out <$> os, abs w).
Proof.
  intros Hl. destruct (window_run_ok cs _ window_new_inv Hl) as (os & w & E & _ & Hs). by exists os, w.
Qed.

(** Every batch released in any history is fully compacted: no two
    adjacent scroll runs of one scope, no empty run, at most one click per
    scope, the inputs in ascending admission order, its retained count the
    number of inputs it holds, and its deadline one second after its first
    input. *)
Theorem batches_compacted (cs : list window_call) (os : list window_out) (w : ActionWindow)
    (o : window_out) (b : ActionBatch) :
  all_legal window_new cs = true → window_run window_new cs = Ret (os, w) →
  o ∈ os → out_batch o = Some b → batch_ok b.
Proof. intros Hl Hr. eapply run_batches; eauto using window_new_inv. Qed.

(** No scroll or ordered action is lost, duplicated or reordered. Over a
    history without cancellation, the scrolls and ordered actions of all
    released batches, in release order, followed by those still pending, are
    exactly the ones pushed, in push order. *)
Theorem inputs_conserved (cs : list window_call) (os : list window_out) (w : ActionWindow) :
  all_legal window_new cs = true → forallb (λ c, negb (drops c)) cs = true →
  window_run window_new cs = Ret (os, w) →
  no_clicks ((abs_out <$> os) ≫= out_flat) ++ no_clicks (pending_flat (abs w)) =
  no_clicks (pushed 1 cs).
Proof.
  intros Hl Hd Hr. destruct (window_run_ok cs _ window_new_inv Hl) as (os' & w' & E & _ & Hs).
  rewrite Hr in E. injection E as <- <-. apply (spec_run_conserves _ _ _ _ Hd Hs).
Qed.
End window.

(** ** Witnesses *)
Definition demo_point : @Point N := mk_point 1 2.
Definition demo_scroll (n : N) : @WindowAction N N := Scroll (ScrollAction_pixels demo_point 0 n).
Definition demo_click (n : N) : @WindowAction N N := Click (ClickAction_new demo_point Left n).

(** The second click of scope 7 supersedes the first, which lets the two
    scroll runs around it merge; the last push comes after the deadline. *)
Definition demo_window_calls : list (@window_call N N N) :=
  [CPush 7 (demo_scroll 1) 0; CPush 7 (demo_click 1) 5; CPush 7 (demo_scroll 2) 6;
   CPush 7 (demo_click 2) 7; CPush 8 (Ordered 9) 8; CPush 7 (demo_scroll 3) 1000000001;
   CFlush Screenshot 1000000002].

Definition demo_window_outs : list (@window_out N N N) :=
  Eval vm_compute in
    match window_run window_new demo_window_calls with Ret (os, _) => os | Panic => [] end.

Definition demo_batch : @ActionBatch N N N :=
  Eval vm_compute in
    match demo_window_outs !! 5%nat ≫= out_batch with
    | Some b => b
    | None => mk_batch 0 0 0 0 Deadline 0 0 []
    end.

Lemma action_window_refines_witness :
  ∃ os w, window_run window_new demo_window_calls = Ret (os, w) ∧
    spec_run (mk_spec 1 1 None) demo_window_calls = (abs_out <$> os, abs w) ∧
    pending_planned_action_count w = 0%nat.
Proof.
  destruct (action_window_refines demo_window_calls) as (os & w & E & Hs); [vm_compute; reflexivity |].
  exists os, w. split; [exact E |]. split; [exact Hs |].
  vm_compute in E. injection E as _ <-. reflexivity.
Defined.

Lemma batches_compacted_witness :
  batch_ok demo_batch ∧ batch_admitted demo_batch = 5 ∧ batch_retained demo_batch = 4 ∧
  length (batch_actions demo_batch) = 3%nat.
Proof.
  split; [| vm_compute; auto].
  eapply (batches_compacted demo_window_calls demo_window_outs).
  - vm_compute. reflexivity.
  - vm_compute. reflexivity.
  - apply (list_elem_of_lookup_2 _ 5%nat). vm_compute. reflexivity.
  - vm_compute. reflexivity.
Defined.

Lemma inputs_conserved_witness :
  ∃ w : @ActionWindow N N N, window_run window_new demo_window_calls = Ret (demo_window_outs, w) ∧
  f_seq <$> (filter (λ f, is_click f = false) ((abs_out <$> demo_window_outs) ≫= out_flat) ++
             filter (λ f, is_click f = false) (pending_flat (abs w))) = [1; 3; 5; 6].
Proof.
  eexists. split; [vm_compute; reflexivity |].
  rewrite (inputs_conserved demo_window_calls); vm_compute; reflexivity.
Defined.
