(* ===== verification/Robots.v ===== *)
(** * Robots Exclusion Protocol (moli-robots)

    pattern.rs (percent-encoding normalization, wildcard matching, agent
    specificity), robots_txt.rs (parsing into groups and the access decision)
    and the policy of lib.rs.  Strings are UTF-8 bytes; [str::to_lowercase]
    and [str::trim], whose Unicode tables belong to std, are parameters of
    the functions that call them. *)

From S2P Require Import Prelude Text.
From Stdlib Require Import Ascii.

#[local] Open Scope N_scope.

(** ** pattern.rs *)
Definition is_ascii (c : ascii) : bool := N_of_ascii c <? 128.

Definition is_ascii_hexdigit (c : ascii) : bool :=
  let n := N_of_ascii c in
  ((48 <=? n) && (n <=? 57)) || ((65 <=? n) && (n <=? 70)) || ((97 <=? n) && (n <=? 102)).

Definition to_ascii_uppercase (c : ascii) : ascii :=
  let n := N_of_ascii c in
  if (97 <=? n) && (n <=? 122) then ascii_of_N (n - 32) else c.

Definition percent : ascii := "%"%char.
Definition star : ascii := "*"%char.
Definition dollar : ascii := "$"%char.

Definition HEX_DIGITS : text := lit "0123456789ABCDEF".

Definition push_percent_encoded (byte : ascii) : text :=
  let n := N_of_ascii byte in
  [percent;
   nth (N.to_nat (N.shiftr n 4)) HEX_DIGITS percent;
   nth (N.to_nat (N.land n 15)) HEX_DIGITS percent].

(** The byte that is not the start of an escape. *)
Definition push_byte (byte : ascii) : text :=
  if is_ascii byte then [byte] else push_percent_encoded byte.

Fixpoint normalize_percent_encoding (s : text) : text :=
  match s with
  | [] => []
  | byte :: s1 =>
      match s1 with
      | h :: l :: rest =>
          if bool_decide (byte = percent) && is_ascii_hexdigit h && is_ascii_hexdigit l
          then percent :: to_ascii_uppercase h :: to_ascii_uppercase l :: normalize_percent_encoding rest
          else push_byte byte ++ normalize_percent_encoding s1
      | _ => push_byte byte ++ normalize_percent_encoding s1
      end
  end.

(** [str::strip_suffix] with a character, [str::ends_with]. *)
Definition strip_suffix_char (c : ascii) (s : text) : option text :=
  match reverse s with
  | d :: r => if ascii_dec c d then Some (reverse r) else None
  | [] => None
  end.

Definition ends_with (suf s : text) : bool :=
  (length suf <=? length s)%nat && bool_decide (drop (length s - length suf) s = suf).

(** The loop over the segments after the first; [str::find] and the slice
    behind the occurrence are [split_once]. *)
Fixpoint match_segments (anchored_to_end : bool) (segments : list text) (rest : text) : bool :=
  match segments with
  | [] => true
  | segment :: segments' =>
      if anchored_to_end && (match segments' with [] => true | _ => false end)
      then ends_with segment rest
      else match split_once segment rest with
           | Some (_, rest) => match_segments anchored_to_end segments' rest
           | None => false
           end
  end.

Definition pattern_matches (pattern request_target : text) : bool :=
  let '(body, anchored_to_end) :=
    match strip_suffix_char dollar pattern with
    | Some body => (body, true)
    | None => (pattern, false)
    end in
  let segments := split_char star body in
  let leading := default [] (head segments) in
  match strip_prefix leading request_target with
  | None => false
  | Some rest =>
      match tail segments with
      | [] => negb anchored_to_end || bool_decide (rest = [])
      | trailing => match_segments anchored_to_end trailing rest
      end
  end.

(** [str::contains] *)
Definition contains (pat s : text) : bool :=
  match split_once pat s with Some _ => true | None => false end.

Definition agent_specificity (group_agent lowercase_user_agent : text) : option nat :=
  if bool_decide (group_agent = lit "*") then Some 0%nat
  else if bool_decide (group_agent = []) then None
  else if contains group_agent lowercase_user_agent then Some (length group_agent) else None.

(** ** robots_txt.rs *)
Record Rule := mk_rule { allow : bool; pattern : text }.
Record Group := mk_group { agents : list text; rules : list Rule }.
Record RobotsTxt := mk_robots { groups : list Group }.

Definition nat_max_opt (l : list nat) : option nat :=
  match l with [] => None | n :: l => Some (foldr Nat.max n l) end.

Definition specificity (g : Group) (lowercase_user_agent : text) : option nat :=
  nat_max_opt (omap (λ a, agent_specificity a lowercase_user_agent) (agents g)).

Definition best_specificity (r : RobotsTxt) (lowercase_user_agent : text) : option nat :=
  nat_max_opt (omap (λ g, specificity g lowercase_user_agent) (groups r)).

Definition matching_rules (r : RobotsTxt) (lowercase_user_agent : text) (s : nat) : list Rule :=
  filter (λ g, specificity g lowercase_user_agent = Some s) (groups r) ≫= rules.

(** [chars().count()]: the bytes that do not continue a character. *)
Definition chars_count (s : text) : nat :=
  length (filter (λ c, (N.land (N_of_ascii c) 192 =? 128) = false) s).

Definition decision_step (request_target : text) (decision : option (nat * bool)) (rule : Rule)
    : option (nat * bool) :=
  if negb (pattern_matches (pattern rule) request_target) then decision
  else
    let length := chars_count (pattern rule) in
    match decision with
    | Some (best, a) =>
        if (length <? best)%nat || ((best =? length)%nat && a) then Some (best, a)
        else Some (length, allow rule)
    | None => Some (length, allow rule)
    end.

(** [str::lines]: a line feed ends a line, with one carriage return before it
    removed; the rest of the text is a last line unless it is empty. *)
Definition newline : ascii := "010"%char.
Definition carriage_return : ascii := "013"%char.

Definition lines (s : text) : list text :=
  match reverse (split_char newline s) with
  | [] => []
  | final :: terminated =>
      ((λ line, default line (strip_suffix_char carriage_return line)) <$> reverse terminated) ++
      (if bool_decide (final = []) then [] else [final])
  end.

(** [trim_start_matches('\u{feff}')] on UTF-8 bytes *)
Definition bom : text := ["239"%char; "187"%char; "191"%char].

Fixpoint trim_bom (fuel : nat) (s : text) : text :=
  match fuel with
  | 0%nat => s
  | S fuel => match strip_prefix bom s with Some s => trim_bom fuel s | None => s end
  end.

Section parsing.
Variables to_lowercase trim : text → text.

Definition split_field (line : text) : option (text * text) :=
  let line := match split_once (lit "#") line with Some (before, _) => before | None => line end in
  match split_once (lit ":") line with
  | None => None
  | Some (field, value) =>
      let field := to_lowercase (trim field) in
      if bool_decide (field = []) then None else Some (field, trim value)
  end.

(** [groups.last_mut()] followed by an update *)
Definition update_last (f : Group → Group) (l : list Group) : option (list Group) :=
  match reverse l with [] => None | g :: r => Some (reverse r ++ [f g]) end.

Definition parse_line (st : list Group * bool) (line : text) : list Group * bool :=
  let '(gs, start_new_group) := st in
  match split_field line with
  | None => st
  | Some (field, value) =>
      if bool_decide (field = lit "user-agent") || bool_decide (field = lit "useragent") then
        let gs := if start_new_group then gs ++ [mk_group [] []] else gs in
        (default gs (update_last (λ g, mk_group (agents g ++ [to_lowercase value]) (rules g)) gs), false)
      else if bool_decide (field = lit "allow") || bool_decide (field = lit "disallow") then
        match update_last id gs with
        | None => st
        | Some _ =>
            if bool_decide (value = []) then (gs, true)
            else
              let rule := mk_rule (bool_decide (field = lit "allow")) (normalize_percent_encoding value) in
              (default gs (update_last (λ g, mk_group (agents g) (rules g ++ [rule])) gs), true)
        end
      else st
  end.

Definition parse (s : text) : RobotsTxt :=
  mk_robots (foldl parse_line ([], true) (lines (trim_bom (length s) s))).1.

Definition allows (r : RobotsTxt) (user_agent request_target : text) : bool :=
  let request_target := normalize_percent_encoding request_target in
  let lowercase_user_agent := to_lowercase user_agent in
  match best_specificity r lowercase_user_agent with
  | None => true
  | Some s =>
      match foldl (decision_step request_target) None (matching_rules r lowercase_user_agent s) with
      | None => true
      | Some (_, a) => a
      end
  end.

(** ** lib.rs *)
Inductive RobotsPolicy := Rules (r : RobotsTxt) | AllowAll | DisallowAll.

Definition from_http_status (status : N) (body : text) : RobotsPolicy :=
  if (200 <=? status) && (status <=? 299) then Rules (parse body)
  else if (400 <=? status) && (status <=? 499) then AllowAll
  else if (500 <=? status) && (status <=? 599) then DisallowAll
  else AllowAll.

Definition unreachable : RobotsPolicy := DisallowAll.

Definition policy_allows (p : RobotsPolicy) (user_agent request_target : text) : bool :=
  match p with
  | Rules r => allows r user_agent request_target
  | AllowAll => true
  | DisallowAll => false
  end.
End parsing.

(** [path] and [query] are the components of the parsed target URL. *)
Definition robots_request_target (path : text) (query : option text) : text :=
  match query with Some q => path ++ lit "?" ++ q | None => path end.

(** ** Wildcard patterns: what a match is

    [matches_body body target rest]: [body] matches [target] up to [rest], a
    star standing for any run of bytes. *)
Inductive matches_body : text → text → text → Prop :=
| MB_nil t : matches_body [] t t
| MB_char c b t r : c ≠ star → matches_body b t r → matches_body (c :: b) (c :: t) r
| MB_star_skip b c t r : matches_body (star :: b) t r → matches_body (star :: b) (c :: t) r
| MB_star_end b t r : matches_body b t r → matches_body (star :: b) t r.

(** A pattern matches a prefix of the target, or all of it when it ends in a
    dollar sign. *)
Definition pattern_spec (pattern target : text) : Prop :=
  match strip_suffix_char dollar pattern with
  | Some body => matches_body body target []
  | None => ∃ rest, matches_body pattern target rest
  end.

Lemma matches_star b t r :
  matches_body (star :: b) t r ↔ ∃ p t', t = p ++ t' ∧ matches_body b t' r.
Proof.
  split.
  - intros H. remember (star :: b) as sb eqn:E. revert b E.
    induction H as [|c b' t r Hc H IH|b' c t r H IH|b' t r H IH]; intros b E; simplify_eq.
    + destruct (IH b eq_refl) as (p & t' & -> & Ht). by exists (c :: p), t'.
    + by exists [], t.
  - intros (p & t' & -> & H). induction p as [|c p IH]; simpl; by constructor.
Qed.

Lemma matches_literal seg b t r :
  star ∉ seg → matches_body (seg ++ b) t r ↔ ∃ t', t = seg ++ t' ∧ matches_body b t' r.
Proof.
  revert t. induction seg as [|c seg IH]; intros t Hs; simpl; [naive_solver |].
  assert (Hc : c ≠ star) by set_solver. split.
  - intros H. inversion H; simplify_eq. match goal with H : matches_body (seg ++ b) _ _ |- _ =>
      apply IH in H as (t' & -> & Ht); [| set_solver] end. by exists t'.
  - intros (t' & -> & Ht). constructor; [done |]. apply IH; [set_solver |]. by exists t'.
Qed.

(** The segments after a star, in order, with anything in between. *)
Fixpoint matches_segments (segs : list text) (t r : text) : Prop :=
  match segs with
  | [] => t = r
  | seg :: segs => ∃ p t', t = p ++ seg ++ t' ∧ matches_segments segs t' r
  end.

Definition join_star (segs : list text) : text := segs ≫= λ seg, star :: seg.

Lemma matches_join segs : ∀ t r,
  Forall (λ seg, star ∉ seg) segs → matches_body (join_star segs) t r ↔ matches_segments segs t r.
Proof.
  induction segs as [|seg segs IH]; intros t r Hs.
  - split; [inversion 1; done | intros ->; constructor].
  - apply Forall_cons in Hs as [Hseg Hs]. unfold join_star. rewrite bind_cons.
    change ((star :: seg) ++ ?x) with (star :: (seg ++ x)). fold (join_star segs).
    rewrite matches_star. cbn [matches_segments]. split.
    + intros (p & t' & -> & (t'' & -> & Ht)%matches_literal); [| done].
      exists p, t''. split; [done |]. by apply IH.
    + intros (p & t' & -> & Ht). exists p, (seg ++ t'). split; [done |].
      apply matches_literal; [done |]. exists t'. split; [done |]. by apply IH.
Qed.

(** [split('*')] cuts the body into a first segment and the ones after stars. *)
Lemma split_char_spec c s :
  ∃ w ws, split_char c s = w :: ws ∧ s = w ++ (ws ≫= λ v, c :: v) ∧ Forall (λ v, c ∉ v) (w :: ws).
Proof.
  induction s as [|d s IH]; simpl.
  - exists [], []. split_and!; [done.. |]. repeat constructor. set_solver.
  - destruct IH as (w & ws & E & -> & Hf). destruct (ascii_dec c d) as [<-|Hne].
    + exists [], (w :: ws). rewrite E. split_and!; [done.. |]. constructor; [set_solver | done].
    + rewrite E. exists (d :: w), ws. split_and!; [done.. |]. apply Forall_cons in Hf as [Hw Hf].
      constructor; [set_solver | done].
Qed.

Lemma strip_prefix_Some p : ∀ s r, strip_prefix p s = Some r ↔ s = p ++ r.
Proof.
  induction p as [|c p IH]; intros [|d s] r; simpl; try naive_solver.
  destruct (ascii_dec c d) as [->|Hne]; [rewrite IH; naive_solver | naive_solver].
Qed.

(** [find] gives the leftmost occurrence. *)
Lemma split_once_Some pat s : ∀ a b, split_once pat s = Some (a, b) → s = a ++ pat ++ b.
Proof.
  induction s as [|c s IH]; intros a b; unfold split_once; fold split_once.
  - destruct (strip_prefix pat []) as [rest|] eqn:E; [| done]. intros [= <- <-].
    by apply strip_prefix_Some in E.
  - destruct (strip_prefix pat (c :: s)) as [rest|] eqn:E.
    + intros [= <- <-]. by apply strip_prefix_Some in E.
    + destruct (split_once pat s) as [[x y]|]; simpl; [| done]. intros [= <- <-].
      simpl. f_equal. by apply IH.
Qed.

Lemma split_once_leftmost pat s p t :
  s = p ++ pat ++ t → ∃ a b k, split_once pat s = Some (a, b) ∧ b = k ++ t.
Proof.
  revert p. induction s as [|c s IH]; intros p Hs; unfold split_once; fold split_once.
  - symmetry in Hs. apply app_eq_nil in Hs as [-> [-> ->]%app_eq_nil]. simpl. by exists [], [], [].
  - destruct (strip_prefix pat (c :: s)) as [rest|] eqn:E.
    + apply strip_prefix_Some in E. exists [], rest. destruct p as [|d p].
      * rewrite E in Hs. simpl in Hs. apply app_inv_head in Hs as ->. by exists [].
      * rewrite E, app_assoc in Hs. apply app_eq_app in Hs as (l & [[Hp _]|[_ ->]]); [| by exists l].
        apply (f_equal length) in Hp. rewrite !length_app in Hp. simpl in Hp. lia.
    + destruct p as [|d p]; simpl in Hs.
      * rewrite Hs in E. by rewrite (proj2 (strip_prefix_Some pat _ t)) in E.
      * injection Hs as <- Hs. destruct (IH p Hs) as (a & b & k & -> & ->). simpl. eauto.
Qed.

Lemma ends_with_spec suf s : ends_with suf s = true ↔ ∃ p, s = p ++ suf.
Proof.
  unfold ends_with. rewrite andb_true_iff, Nat.leb_le, bool_decide_eq_true. split.
  - intros [_ Hd]. exists (take (length s - length suf) s). by rewrite <-Hd at 2; rewrite take_drop.
  - intros [p ->]. rewrite length_app. split; [lia |].
    replace (length p + length suf - length suf)%nat with (length p) by lia. apply drop_app_length.
Qed.

(** Prepending text never hurts a match behind a star. *)
Lemma matches_segments_mono seg segs k t r :
  matches_segments (seg :: segs) t r → matches_segments (seg :: segs) (k ++ t) r.
Proof. intros (p & t' & -> & H). exists (k ++ p), t'. by rewrite <-app_assoc. Qed.

(** Taking the leftmost occurrence of every segment loses no match. *)
Lemma match_segments_correct anchored segs : ∀ t,
  segs ≠ [] →
  match_segments anchored segs t = true ↔
  ∃ r, matches_segments segs t r ∧ (anchored = true → r = []).
Proof.
  induction segs as [|seg segs IH]; intros t Hne; [done |]. cbn [match_segments].
  destruct segs as [|seg2 segs].
  - destruct anchored; simpl.
    + rewrite ends_with_spec. split.
      * intros [p ->]. exists []. split; [| done]. exists p, []. by rewrite app_nil_r.
      * intros (r & (p & t' & -> & <-) & Hr). exists p. by rewrite Hr, app_nil_r.
    + split.
      * destruct (split_once seg t) as [[a b]|] eqn:E; [| done]. intros _.
        exists b. split; [| done]. apply split_once_Some in E. by exists a, b.
      * intros (r & (p & t' & Ht & <-) & _). by destruct (split_once_leftmost _ _ _ _ Ht) as (? & ? & ? & -> & _).
  - rewrite andb_false_r. split.
    + destruct (split_once seg t) as [[a b]|] eqn:E; [| done]. intros (r & Hm & Hr)%IH; [| done].
      exists r. split; [| done]. apply split_once_Some in E. by exists a, b.
    + intros (r & (p & t' & Ht & Hm) & Hr).
      destruct (split_once_leftmost _ _ _ _ Ht) as (a & b & k & -> & ->).
      apply IH; [done |]. exists r. split; [| done]. by apply matches_segments_mono.
Qed.

#[local] Arguments match_segments : simpl never.

Lemma pattern_matches_body body anchored t :
  match strip_prefix (default [] (head (split_char star body))) t with
  | None => false
  | Some rest =>
      match tail (split_char star body) with
      | [] => negb anchored || bool_decide (rest = [])
      | trailing => match_segments anchored trailing rest
      end
  end = true ↔ ∃ r, matches_body body t r ∧ (anchored = true → r = []).
Proof.
  destruct (split_char_spec star body) as (w & ws & -> & Hbody & [Hw Hws]%Forall_cons). simpl.
  assert (Hiff : ∀ r, matches_body body t r ↔ ∃ t', t = w ++ t' ∧ matches_segments ws t' r).
  { intros r. rewrite Hbody, matches_literal by done. fold (join_star ws).
    split; intros (t' & -> & H); exists t'; (split; [done |]); by apply matches_join. }
  setoid_rewrite Hiff.
  destruct (strip_prefix w t) as [rest|] eqn:E.
  2:{ split; [done |]. intros (r & (t' & -> & _) & _). by rewrite strip_prefix_app in E. }
  apply strip_prefix_Some in E as ->. destruct ws as [|v ws].
  - rewrite orb_true_iff, bool_decide_eq_true. split.
    + intros H. exists rest. split; [by exists rest |]. destruct anchored; naive_solver.
    + intros (r & (t' & Heq & Hr) & Ha). apply app_inv_head in Heq as ->. simpl in Hr. subst.
      destruct anchored; naive_solver.
  - rewrite match_segments_correct by done. split.
    + intros (r & Hm & Hr). exists r. split; [by exists rest | done].
    + intros (r & (t' & Heq & Hm) & Hr). apply app_inv_head in Heq as ->. eauto.
Qed.

(** ** The decision over the matching rules *)
Definition rule_matches (target : text) (r : Rule) : bool := pattern_matches (pattern r) target.

Definition decision_ok (seen : list Rule) (target : text) (d : option (nat * bool)) : Prop :=
  match d with
  | None => ∀ r, r ∈ seen → rule_matches target r = false
  | Some (best, a) =>
      (∃ r, r ∈ seen ∧ rule_matches target r = true ∧ chars_count (pattern r) = best ∧ allow r = a) ∧
      (∀ r, r ∈ seen → rule_matches target r = true →
         (chars_count (pattern r) ≤ best)%nat ∧ (chars_count (pattern r) = best → allow r = true → a = true))
  end.

Lemma decision_step_ok target seen d r :
  decision_ok seen target d → decision_ok (seen ++ [r]) target (decision_step target d r).
Proof.
  intros Hd. unfold decision_step. fold (rule_matches target r).
  destruct (rule_matches target r) eqn:Hm; simpl.
  2:{ destruct d as [[best a]|]; simpl in *.
      - destruct Hd as [(r0 & ? & ?) Hall]. split; [exists r0; set_solver |].
        intros r1 [?| ->%list_elem_of_singleton]%elem_of_app; [auto | congruence].
      - intros r1 [?| ->%list_elem_of_singleton]%elem_of_app; auto. }
  destruct d as [[best a]|]; simpl in *.
  - destruct Hd as [(r0 & ? & ? & ? & ?) Hall].
    destruct (Nat.ltb_spec (chars_count (pattern r)) best); simpl.
    { split; [exists r0; set_solver |].
      intros r1 [?| ->%list_elem_of_singleton]%elem_of_app ?;
        [auto | split; [lia | intros; done || lia]]. }
    destruct (Nat.eqb_spec best (chars_count (pattern r))); [destruct a |]; simpl.
    + split; [exists r0; set_solver |].
      intros r1 [?| ->%list_elem_of_singleton]%elem_of_app ?;
        [auto | split; [lia | intros; done || lia]].
    + split; [exists r; set_solver |].
      intros r1 [?| ->%list_elem_of_singleton]%elem_of_app Hr1;
        [| split; [lia | intros; done || lia]].
      destruct (Hall r1) as [? Ha]; [done.. |]. split; [lia |]. intros ? Hal.
      by specialize (Ha ltac:(lia) Hal).
    + split; [exists r; set_solver |].
      intros r1 [?| ->%list_elem_of_singleton]%elem_of_app ?;
        [| split; [lia | intros; done || lia]].
      destruct (Hall r1); [done.. |]. split; [lia | intros; lia].
  - split; [exists r; set_solver |].
    intros r1 [?| ->%list_elem_of_singleton]%elem_of_app ?;
        [| split; [lia | intros; done || lia]].
    pose proof (Hd r1 ltac:(done)). congruence.
Qed.

Lemma decision_fold_ok target l : ∀ seen d,
  decision_ok seen target d → decision_ok (seen ++ l) target (foldl (decision_step target) d l).
Proof.
  induction l as [|r l IH]; intros seen d Hd; simpl; [by rewrite app_nil_r |].
  change (r :: l) with ([r] ++ l). rewrite (app_assoc seen [r] l). by apply IH, decision_step_ok.
Qed.

(** ** Normalization *)
Definition two_hex (s : text) : bool :=
  match s with h :: l :: _ => is_ascii_hexdigit h && is_ascii_hexdigit l | _ => false end.

(** Every byte, for facts about single bytes. *)
Lemma all_bytes (P : ascii → bool) :
  forallb (λ n, P (ascii_of_nat n)) (seq 0 256) = true → ∀ c, P c = true.
Proof.
  intros H c. rewrite forallb_forall in H. rewrite <-(ascii_nat_embedding c). apply H.
  apply in_seq. pose proof (nat_ascii_bounded c). lia.
Qed.

Definition byte_facts (c : ascii) : bool :=
  implb (is_ascii_hexdigit c)
    (is_ascii c && negb (bool_decide (c = percent)) && is_ascii_hexdigit (to_ascii_uppercase c) &&
     is_ascii (to_ascii_uppercase c) &&
     bool_decide (to_ascii_uppercase (to_ascii_uppercase c) = to_ascii_uppercase c)) &&
  implb (negb (is_ascii c))
    (match push_percent_encoded c with
     | [p; h; l] => bool_decide (p = percent) && is_ascii_hexdigit h && is_ascii_hexdigit l &&
                    bool_decide (to_ascii_uppercase h = h) && bool_decide (to_ascii_uppercase l = l) &&
                    is_ascii h && is_ascii l
     | _ => false
     end).

Lemma byte_facts_all c : byte_facts c = true.
Proof. revert c. apply all_bytes. vm_compute. reflexivity. Qed.

Lemma hexdigit_facts c :
  is_ascii_hexdigit c = true →
  is_ascii c = true ∧ c ≠ percent ∧ is_ascii_hexdigit (to_ascii_uppercase c) = true ∧
  is_ascii (to_ascii_uppercase c) = true ∧
  to_ascii_uppercase (to_ascii_uppercase c) = to_ascii_uppercase c.
Proof.
  intros Hc. pose proof (byte_facts_all c) as H. unfold byte_facts in H. rewrite Hc in H. simpl in H.
  repeat (apply andb_prop in H as [H ?]).
  repeat match goal with
  | X : bool_decide _ = true |- _ => apply bool_decide_eq_true in X
  | X : negb _ = true |- _ => apply negb_true_iff, bool_decide_eq_false in X
  end. split_and!; done.
Qed.

Lemma push_percent_facts c :
  is_ascii c = false →
  ∃ h l, push_percent_encoded c = [percent; h; l] ∧ is_ascii_hexdigit h = true ∧
    is_ascii_hexdigit l = true ∧ to_ascii_uppercase h = h ∧ to_ascii_uppercase l = l.
Proof.
  intros Hc. pose proof (byte_facts_all c) as H. unfold byte_facts in H. rewrite Hc in H.
  apply andb_prop in H as [_ H]. cbn [negb implb] in H.
  destruct (push_percent_encoded c) as [|p [|h [|l [|]]]]; try done.
  repeat (apply andb_prop in H as [H ?]).
  repeat match goal with X : bool_decide _ = true |- _ => apply bool_decide_eq_true in X end.
  exists h, l. split_and!; congruence || done.
Qed.

(** The two branches of one iteration. *)
Lemma normalize_escape h l rest :
  is_ascii_hexdigit h = true → is_ascii_hexdigit l = true →
  normalize_percent_encoding (percent :: h :: l :: rest) =
  percent :: to_ascii_uppercase h :: to_ascii_uppercase l :: normalize_percent_encoding rest.
Proof. intros Hh Hl. cbn [normalize_percent_encoding]. by rewrite Hh, Hl. Qed.

Lemma normalize_byte c s :
  c ≠ percent ∨ two_hex s = false →
  normalize_percent_encoding (c :: s) = push_byte c ++ normalize_percent_encoding s.
Proof.
  intros H. destruct s as [|h [|l rest]]; [done.. |]. cbn [normalize_percent_encoding].
  destruct H as [Hc|Hx]; [by rewrite bool_decide_eq_false_2 |].
  simpl in Hx. rewrite <-andb_assoc, Hx, andb_false_r. done.
Qed.

#[local] Arguments normalize_percent_encoding : simpl never.

(** Induction along the loop of [normalize_percent_encoding]. *)
Lemma normalize_ind (P : text → Prop) :
  P [] →
  (∀ h l rest, is_ascii_hexdigit h = true → is_ascii_hexdigit l = true → P rest →
     P (percent :: h :: l :: rest)) →
  (∀ c s, c ≠ percent ∨ two_hex s = false → P s → P (c :: s)) →
  ∀ s, P s.
Proof.
  intros Hnil Hesc Hbyte s. remember (length s) as n eqn:Hn. revert s Hn.
  induction n as [n IH] using lt_wf_ind. intros [|c s] Hn; [done |]. simpl in Hn.
  destruct (decide (c = percent)) as [->|Hc]; [| apply Hbyte; [by left | by eapply (IH (length s)); [lia |]]].
  destruct (two_hex s) eqn:Hx; [| apply Hbyte; [by right | by eapply (IH (length s)); [lia |]]].
  destruct s as [|h [|l rest]]; try done. simpl in Hx. apply andb_prop in Hx as [Hh Hl].
  apply Hesc; [done.. |]. simpl in Hn. by eapply (IH (length rest)); [lia |].
Qed.

Lemma normalize_head c s :
  is_ascii_hexdigit c = true → normalize_percent_encoding (c :: s) = c :: normalize_percent_encoding s.
Proof.
  intros Hc. destruct (hexdigit_facts c Hc) as (Ha & Hp & _).
  rewrite normalize_byte by by left. unfold push_byte. by rewrite Ha.
Qed.

Lemma normalize_first_not_hex c s :
  is_ascii_hexdigit c = false →
  ∃ d t, normalize_percent_encoding (c :: s) = d :: t ∧ is_ascii_hexdigit d = false.
Proof.
  intros Hc. destruct (decide (c = percent ∧ two_hex s = true)) as [[-> Hx]|Hn].
  - destruct s as [|h [|l rest]]; try done. simpl in Hx. apply andb_prop in Hx as [Hh Hl].
    rewrite normalize_escape by done. eauto.
  - rewrite normalize_byte by (destruct (two_hex s); [left | right]; naive_solver).
    unfold push_byte. destruct (is_ascii c) eqn:Ha; [simpl; eauto |].
    destruct (push_percent_facts c Ha) as (h & l & -> & _). simpl. eauto.
Qed.

(** Whether two hex digits come next is not changed by normalization. *)
Lemma two_hex_normalize s : two_hex (normalize_percent_encoding s) = two_hex s.
Proof.
  destruct s as [|h s]; [done |]. destruct (is_ascii_hexdigit h) eqn:Hh.
  - rewrite normalize_head by done. destruct s as [|l s]; [done |]. simpl. rewrite Hh. simpl.
    destruct (is_ascii_hexdigit l) eqn:Hl.
    + rewrite normalize_head by done. by rewrite Hl.
    + by destruct (normalize_first_not_hex l s Hl) as (d & t & -> & ->).
  - destruct (normalize_first_not_hex h s Hh) as (d & t & -> & Hd). simpl.
    destruct s, t; simpl; by rewrite ?Hh, ?Hd.
Qed.

Lemma normalize_idem s :
  normalize_percent_encoding (normalize_percent_encoding s) = normalize_percent_encoding s.
Proof.
  induction s as [|h l rest Hh Hl IH|c s Hc IH] using normalize_ind; [done | |].
  - rewrite normalize_escape by done.
    destruct (hexdigit_facts h Hh) as (_ & _ & Hh' & _ & Hhu), (hexdigit_facts l Hl) as (_ & _ & Hl' & _ & Hlu).
    by rewrite normalize_escape, Hhu, Hlu, IH.
  - rewrite normalize_byte by done. unfold push_byte. destruct (is_ascii c) eqn:Ha.
    + simpl. rewrite normalize_byte by (by rewrite two_hex_normalize). unfold push_byte. by rewrite Ha, IH.
    + destruct (push_percent_facts c Ha) as (h & l & -> & Hh & Hl & Hhu & Hlu). simpl app.
      by rewrite normalize_escape, Hhu, Hlu, IH.
Qed.

Lemma normalize_ascii s : forallb is_ascii (normalize_percent_encoding s) = true.
Proof.
  induction s as [|h l rest Hh Hl IH|c s Hc IH] using normalize_ind; [done | |].
  - rewrite normalize_escape by done.
    destruct (hexdigit_facts h Hh) as (_ & _ & _ & Hha & _), (hexdigit_facts l Hl) as (_ & _ & _ & Hla & _).
    cbn [forallb]. by rewrite Hha, Hla, IH.
  - rewrite normalize_byte by done. rewrite forallb_app, IH, andb_true_r. unfold push_byte.
    destruct (is_ascii c) eqn:Ha; [cbn [forallb]; by rewrite Ha |].
    destruct (push_percent_facts c Ha) as (h & l & -> & Hh & Hl & _).
    destruct (hexdigit_facts h Hh) as (Hha & _), (hexdigit_facts l Hl) as (Hla & _).
    cbn [forallb]. by rewrite Hha, Hla.
Qed.

Lemma chars_count_ascii s : forallb is_ascii s = true → chars_count s = length s.
Proof.
  intros Hs. unfold chars_count. rewrite filter_all_id; [done |]. intros c Hc.
  rewrite forallb_forall in Hs. specialize (Hs c (proj1 (list_elem_of_In _ _) Hc)).
  revert Hs. generalize c. clear. intros c Hc.
  assert (H : implb (is_ascii c) (negb (N.land (N_of_ascii c) 192 =? 128)) = true).
  { revert c Hc. intros c _. revert c. apply all_bytes. vm_compute. reflexivity. }
  rewrite Hc in H. by apply negb_true_iff in H.
Qed.

(** ** Properties *)

(** The segment-by-segment search decides exactly the wildcard relation of
    the protocol: a pattern matches iff some way of filling its stars makes
    it a prefix of the target, or the whole target when it ends in a dollar
    sign. Taking the leftmost occurrence of each segment never misses a
    match. *)
Theorem pattern_matches_correct (p t : text) : pattern_matches p t = true ↔ pattern_spec p t.
Proof.
  unfold pattern_matches, pattern_spec. destruct (strip_suffix_char dollar p) as [body|].
  - rewrite (pattern_matches_body body true t). naive_solver.
  - rewrite (pattern_matches_body p false t). naive_solver.
Qed.

(** The access decision is longest match, ties to Allow. A request is
    allowed iff no group applies to the agent, or no rule of the most
    specific groups matches the target, or one of the longest matching rules
    is an Allow rule. *)
Theorem allows_longest_match (lower : text → text) (r : RobotsTxt) (agent target : text) :
  let t := normalize_percent_encoding target in
  allows lower r agent target = true ↔
  match best_specificity r (lower agent) with
  | None => True
  | Some s =>
      let M := filter (λ x, rule_matches t x = true) (matching_rules r (lower agent) s) in
      M = [] ∨ ∃ x, x ∈ M ∧ allow x = true ∧
                 ∀ y, y ∈ M → (chars_count (pattern y) ≤ chars_count (pattern x))%nat
  end.
Proof.
  intros t. unfold allows. fold t. destruct (best_specificity r (lower agent)) as [s|]; [| done].
  cbn zeta. set (l := matching_rules r (lower agent) s).
  pose proof (decision_fold_ok t l [] None ltac:(intros x Hx; set_solver)) as H. simpl in H.
  destruct (foldl (decision_step t) None l) as [[best a]|]; simpl in H.
  - destruct H as [(x & Hx & Hxm & Hxl & Hxa) Hall]. split.
    + intros Ha. right. exists x. rewrite list_elem_of_filter. split_and!; [done | done | congruence |].
      intros y [Hym Hy]%list_elem_of_filter. rewrite Hxl. by apply Hall.
    + intros [Hnil|(z & [Hzm Hz]%list_elem_of_filter & Hza & Hmax)].
      * assert (Hin : x ∈ filter (λ x, rule_matches t x = true) l) by by apply list_elem_of_filter.
        rewrite Hnil in Hin. set_solver.
      * apply (Hall z Hz Hzm); [| done]. destruct (Hall z Hz Hzm) as [Hle _].
        specialize (Hmax x ltac:(by apply list_elem_of_filter)). lia.
  - split; [| done]. intros _. left. apply filter_none. intros x Hx. rewrite (H x Hx). done.
Qed.

(** Normalization puts patterns and targets into one comparison space:
    it yields ASCII only, a second pass changes nothing, and the length a
    rule is ranked by is its number of bytes. *)
Theorem normalize_canonical (s : text) :
  let n := normalize_percent_encoding s in
  normalize_percent_encoding n = n ∧ forallb is_ascii n = true ∧ chars_count n = length n.
Proof.
  split; [apply normalize_idem |]. split; [apply normalize_ascii |].
  apply chars_count_ascii, normalize_ascii.
Qed.
