(* ===== verification/OwnerQueue.v ===== *)
(** * Owner-lane task queues (moli-owner-queue)

    [Ready] models the edge-triggered source of owner_ready_task_source.rs:
    every method runs under the source's lock, so an execution is an
    interleaving of whole calls by producers and the owner.  [Task] models
    the channel-fed source of owner_task_source.rs on the wake queue of
    owner_wake_queue.rs; a tokio channel is the list of items in it. *)

From S2P Require Import Prelude Mailbox.

(** ** owner_ready_task_source.rs *)
Module Ready.
Section ready.
Context {T : Type}.

Record OwnerReadyTaskState := mk_state {
  incoming : list T;
  ready : bool;
  source_open : bool
}.

Definition state_default : OwnerReadyTaskState := mk_state [] false true.

(** [signals] counts the calls of [signal_ready]. *)
Record OwnerReadyTaskShared := mk_shared { state : OwnerReadyTaskState; signals : nat }.

(** The owner's part and the state it shares with the routes. *)
Record OwnerReadyTaskSource := mk_source { tasks : list T; shared : OwnerReadyTaskShared }.

Inductive send_result (A : Type) := Sent (a : A) | RouteClosed (task : T).
Arguments Sent {A}.
Arguments RouteClosed {A}.

Definition source_new : OwnerReadyTaskSource := mk_source [] (mk_shared state_default 0).

(** The end of both sends: mark ready, signalling on the edge. *)
Definition signal_if_newly_ready (q : list T) (sh : OwnerReadyTaskShared) : OwnerReadyTaskShared :=
  if ready (state sh) then mk_shared (mk_state q true (source_open (state sh))) (signals sh)
  else mk_shared (mk_state q true (source_open (state sh))) (S (signals sh)).

Definition send_and_signal_if_newly_ready (sh : OwnerReadyTaskShared) (task : T)
    : send_result unit * OwnerReadyTaskShared :=
  if negb (source_open (state sh)) then (RouteClosed task, sh)
  else (Sent tt, signal_if_newly_ready (incoming (state sh) ++ [task]) sh).

Definition send_all_and_signal_if_newly_ready (sh : OwnerReadyTaskShared) (ts : list T)
    : send_result nat * OwnerReadyTaskShared :=
  match ts with
  | [] => (Sent 0, sh)
  | first :: _ =>
      if negb (source_open (state sh)) then (RouteClosed first, sh)
      else (Sent (length ts), signal_if_newly_ready (incoming (state sh) ++ ts) sh)
  end.

Definition set_ready (s : OwnerReadyTaskSource) (ts inc : list T) (b : bool) : OwnerReadyTaskSource :=
  mk_source ts (mk_shared (mk_state inc b (source_open (state (shared s)))) (signals (shared s))).

Definition enqueue_local (s : OwnerReadyTaskSource) (task : T) : OwnerReadyTaskSource :=
  set_ready s (tasks s ++ [task]) (incoming (state (shared s))) true.

Definition nonempty (l : list T) : bool := match l with [] => false | _ => true end.

(** [tasks.append(&mut state.incoming)] *)
Definition accepted (s : OwnerReadyTaskSource) : list T := tasks s ++ incoming (state (shared s)).

Definition front (s : OwnerReadyTaskSource) : option T * OwnerReadyTaskSource :=
  let ts := accepted s in (head ts, set_ready s ts [] (nonempty ts)).

Definition pop_front (s : OwnerReadyTaskSource) : option T * OwnerReadyTaskSource :=
  let ts := accepted s in (head ts, set_ready s (tail ts) [] (nonempty (tail ts))).

Definition is_empty (s : OwnerReadyTaskSource) : bool * OwnerReadyTaskSource :=
  let ts := accepted s in (negb (nonempty ts), set_ready s ts [] (nonempty ts)).

Definition has_matching_task (s : OwnerReadyTaskSource) (f : T → bool) : bool * OwnerReadyTaskSource :=
  let ts := accepted s in (existsb f ts, set_ready s ts [] (nonempty ts)).

Definition with_tasks_mut {R} (s : OwnerReadyTaskSource) (op : list T → R * list T)
    : R * OwnerReadyTaskSource :=
  let '(r, ts) := op (accepted s) in (r, set_ready s ts [] (nonempty ts)).

Definition with_local_tasks {R} (s : OwnerReadyTaskSource) (op : list T → R) : R := op (tasks s).

Definition clear_local (s : OwnerReadyTaskSource) : OwnerReadyTaskSource := set_ready s [] [] false.

(** The destructor closes the route. *)
Definition drop_source (s : OwnerReadyTaskSource) : OwnerReadyTaskShared :=
  mk_shared (mk_state [] false false) (signals (shared s)).

(** *** The readiness flag is exact *)
Definition ready_exact (s : OwnerReadyTaskSource) : Prop :=
  source_open (state (shared s)) = true ∧ ready (state (shared s)) = nonempty (accepted s).

Definition set_shared (s : OwnerReadyTaskSource) (sh : OwnerReadyTaskShared) : OwnerReadyTaskSource :=
  mk_source (tasks s) sh.

Lemma nonempty_app l k : nonempty (l ++ k) = nonempty l || nonempty k.
Proof. by destruct l. Qed.

(** A send signals exactly when the source was empty. *)
Lemma signal_edge s q :
  ready_exact s → q ≠ [] → incoming (state (shared s)) `prefix_of` q →
  let s' := set_shared s (signal_if_newly_ready q (shared s)) in
  ready_exact s' ∧ accepted s' = tasks s ++ q ∧
  signals (shared s') = (if nonempty (accepted s) then signals (shared s) else S (signals (shared s))).
Proof.
  intros [Ho Hr] Hq Hp. unfold signal_if_newly_ready. rewrite Hr.
  assert (Hn : nonempty (tasks s ++ q) = true) by (rewrite nonempty_app; destruct q; [done | apply orb_true_r]).
  destruct (nonempty (accepted s)); (split_and!; [| done..]); split; simpl; try done; symmetry; exact Hn.
Qed.

Lemma set_ready_exact s ts :
  source_open (state (shared s)) = true → ready_exact (set_ready s ts [] (nonempty ts)).
Proof. intros Ho. split; [done |]. unfold accepted. simpl. by rewrite app_nil_r. Qed.

(** *** Interleavings of producers and the owner

    The owner runs when a signal wakes it and goes back to sleep only after a
    call has shown it an empty source; producers send at any time. *)
Inductive owner_phase := Asleep | Running | SawEmpty.

Record System := mk_system {
  source : OwnerReadyTaskSource;
  wake_pending : bool;
  owner : owner_phase
}.

(** A signal delivered between two shared states leaves a wake pending. *)
Definition delivered (before after : OwnerReadyTaskShared) (pending : bool) : bool :=
  pending || (signals before <? signals after)%nat.

Definition after_call (saw_empty : bool) : owner_phase := if saw_empty then SawEmpty else Running.

Inductive step : System → System → Prop :=
| StSend s p o task r sh :
    send_and_signal_if_newly_ready (shared s) task = (r, sh) →
    step (mk_system s p o) (mk_system (set_shared s sh) (delivered (shared s) sh p) o)
| StSendAll s p o ts r sh :
    send_all_and_signal_if_newly_ready (shared s) ts = (r, sh) →
    step (mk_system s p o) (mk_system (set_shared s sh) (delivered (shared s) sh p) o)
| StWake s : step (mk_system s true Asleep) (mk_system s false Running)
| StPop s p o t s' :
    o ≠ Asleep → pop_front s = (t, s') →
    step (mk_system s p o) (mk_system s' p (after_call (match t with None => true | Some _ => false end)))
| StFront s p o t s' :
    o ≠ Asleep → front s = (t, s') →
    step (mk_system s p o) (mk_system s' p (after_call (match t with None => true | Some _ => false end)))
| StIsEmpty s p o b s' :
    o ≠ Asleep → is_empty s = (b, s') → step (mk_system s p o) (mk_system s' p (after_call b))
| StHasMatching s p o f b s' :
    o ≠ Asleep → has_matching_task s f = (b, s') → step (mk_system s p o) (mk_system s' p Running)
| StWithTasks s p o op (r : unit) s' :
    o ≠ Asleep → with_tasks_mut s op = (r, s') → step (mk_system s p o) (mk_system s' p Running)
| StEnqueueLocal s p o task :
    o ≠ Asleep → step (mk_system s p o) (mk_system (enqueue_local s task) p Running)
| StClear s p o : o ≠ Asleep → step (mk_system s p o) (mk_system (clear_local s) p Running)
| StSleep s p : step (mk_system s p SawEmpty) (mk_system s p Asleep).

Definition system_new : System := mk_system source_new false Asleep.

Record system_inv (y : System) : Prop := {
  si_exact : ready_exact (source y);
  si_wake : owner y ≠ Running → nonempty (accepted (source y)) = true → wake_pending y = true
}.

Lemma delivered_edge s q p :
  ready_exact s → q ≠ [] → incoming (state (shared s)) `prefix_of` q →
  (nonempty (accepted s) = true → p = true) →
  delivered (shared s) (signal_if_newly_ready q (shared s)) p = true.
Proof.
  intros He Hq Hp Hpend. destruct (signal_edge s q He Hq Hp) as (_ & _ & Hs). simpl in Hs.
  unfold delivered. rewrite Hs. destruct (nonempty (accepted s)); [by rewrite Hpend |].
  rewrite (proj2 (Nat.ltb_lt _ _)); [apply orb_true_r | lia].
Qed.

Lemma delivered_mono sh sh' p : p = true → delivered sh sh' p = true.
Proof. by intros ->. Qed.

(** What any send does, whether or not the source is still open. *)
Lemma send_inv s p o q :
  system_inv (mk_system s p o) → q ≠ [] → incoming (state (shared s)) `prefix_of` q →
  system_inv (mk_system (set_shared s (signal_if_newly_ready q (shared s)))
                (delivered (shared s) (signal_if_newly_ready q (shared s)) p) o).
Proof.
  intros [He Hw] Hq Hp. simpl in *. destruct (signal_edge s q He Hq Hp) as (He' & _ & _).
  split; simpl; [done |]. intros Ho _. apply delivered_edge; auto.
Qed.

Lemma empty_call_inv s p (b : bool) ts :
  source_open (state (shared s)) = true → (b = true → ts = []) →
  system_inv (mk_system (set_ready s ts [] (nonempty ts)) p (after_call b)).
Proof.
  intros Ho Hb. split; simpl; [by apply set_ready_exact |]. unfold after_call, accepted. simpl.
  rewrite app_nil_r. destruct b; [by rewrite Hb | done].
Qed.

Lemma running_inv s p : ready_exact s → system_inv (mk_system s p Running).
Proof. by split. Qed.

Lemma step_inv y y' : step y y' → system_inv y → system_inv y'.
Proof.
  intros Hs Hi. pose proof (si_exact _ Hi) as He. destruct Hs; simpl in He; pose proof (proj1 He) as Ho.
  - unfold send_and_signal_if_newly_ready in *. rewrite Ho in *. simplify_eq/=.
    apply send_inv; [done | by destruct (incoming _) | by apply prefix_app_r].
  - unfold send_all_and_signal_if_newly_ready in *. destruct ts as [|t ts]; simplify_eq/=.
    + unfold delivered. rewrite Nat.ltb_irrefl, orb_false_r. by destruct s.
    + rewrite Ho in *. simplify_eq/=. apply send_inv; [done | by destruct (incoming _) | by apply prefix_app_r].
  - by apply running_inv.
  - unfold pop_front in *. simplify_eq/=. apply empty_call_inv; [done |].
    by destruct (accepted s).
  - unfold front in *. simplify_eq/=. apply empty_call_inv; [done |]. by destruct (accepted s).
  - unfold is_empty in *. simplify_eq/=. apply empty_call_inv; [done |]. by destruct (accepted s).
  - unfold has_matching_task in *. simplify_eq/=. apply running_inv, set_ready_exact, Ho.
  - unfold with_tasks_mut in *. destruct (op (accepted s)). simplify_eq/=.
    apply running_inv, set_ready_exact, Ho.
  - apply running_inv. split; [done |]. unfold accepted, enqueue_local. simpl.
    rewrite !nonempty_app. simpl. by rewrite orb_true_r.
  - apply running_inv. by split.
  - destruct Hi as [_ Hw]. split; [done |]. intros _. by apply Hw.
Qed.

Lemma system_new_inv : system_inv system_new.
Proof. by split. Qed.

(** *** Delivery order, through the mailbox interface *)
Inductive ready_call :=
| RSend (task : T)
| RSendAll (ts : list T)
| RPop
| RFront
| RIsEmpty
| RHasMatching (f : T → bool).

Definition ready_exec (c : ready_call) (s : OwnerReadyTaskSource) : OwnerReadyTaskSource :=
  match c with
  | RSend task => set_shared s (send_and_signal_if_newly_ready (shared s) task).2
  | RSendAll ts => set_shared s (send_all_and_signal_if_newly_ready (shared s) ts).2
  | RPop => (pop_front s).2
  | RFront => (front s).2
  | RIsEmpty => (is_empty s).2
  | RHasMatching f => (has_matching_task s f).2
  end.

(** The tasks a call is told were accepted, and the one it hands out. *)
Definition ready_sent (c : ready_call) (s : OwnerReadyTaskSource) (_ : unit) : list T :=
  match c with
  | RSend task => match (send_and_signal_if_newly_ready (shared s) task).1 with
                  | Sent _ => [task] | RouteClosed _ => [] end
  | RSendAll ts => match (send_all_and_signal_if_newly_ready (shared s) ts).1 with
                   | Sent _ => ts | RouteClosed _ => [] end
  | _ => []
  end.

Definition ready_received (c : ready_call) (s : OwnerReadyTaskSource) (_ : unit) : list T :=
  match c with RPop => option_list (pop_front s).1 | _ => [] end.

Lemma ready_conserve c s :
  accepted s ++ ready_sent c s () = ready_received c s () ++ accepted (ready_exec c s).
Proof.
  destruct c; simpl; unfold send_and_signal_if_newly_ready, send_all_and_signal_if_newly_ready,
    signal_if_newly_ready, accepted; simpl; rewrite ?app_nil_r; try done.
  - destruct (source_open _), (ready _); simpl; by rewrite ?app_assoc, ?app_nil_r.
  - destruct ts; [by rewrite app_nil_r |].
    destruct (source_open _), (ready _); simpl; by rewrite ?app_assoc, ?app_nil_r.
  - fold (accepted s). by destruct (accepted s).
Qed.

#[global] Program Instance ready_mailbox : Mailbox OwnerReadyTaskSource ready_call unit T := {|
  mb_queue s _ := Some (accepted s);
  mb_exec := ready_exec;
  mb_sent := ready_sent;
  mb_received := ready_received;
  mb_inv _ := True;
  mb_safe _ _ := True
|}.
Next Obligation. done. Qed.
Next Obligation. intros c s [] q q' _ _ [= <-] [= <-]. apply ready_conserve. Qed.

Lemma ready_live cs : ∀ s, mb_live cs s () = true.
Proof. induction cs; intros s; simpl; auto. Qed.

Lemma ready_safe cs : ∀ s, mb_all_safe cs s.
Proof. induction cs; intros s; simpl; auto. Qed.

(** C24: no lost wakeup. In every interleaving of producers and the owner, when
    the owner sleeps and a task is queued, a wake is pending and lets the
    owner run. Signals are sent only on the empty-to-nonempty edge, and a
    task sent between the owner's last look and its going to sleep is not
    forgotten. *)
Theorem no_lost_wakeup (y : System) :
  rtc step system_new y → owner y = Asleep → accepted (source y) ≠ [] →
  wake_pending y = true ∧ step y (mk_system (source y) false Running).
Proof.
  intros Hr Ho Hq.
  assert (Hi : system_inv y) by (eapply (rtc_invariant step system_inv); eauto using step_inv, system_new_inv).
  assert (Hw : wake_pending y = true).
  { apply (si_wake _ Hi); [by rewrite Ho |]. by destruct (accepted (source y)). }
  split; [done |]. destruct y as [s p o]. simpl in *. subst. constructor.
Qed.

(** Tasks are handed to the owner exactly once and in the order the
    source accepted them, single sends and batches alike, over any history
    of producer and owner calls. *)
Theorem ready_source_fifo (cs : list ready_call) (s : OwnerReadyTaskSource) :
  accepted s ++ mb_all_sent cs s () = mb_all_received cs s () ++ accepted (mb_run cs s).
Proof. apply mb_delivery; [done | apply ready_safe | apply ready_live | done | done]. Qed.
End ready.
Arguments OwnerReadyTaskSource : clear implicits.
Arguments System : clear implicits.
Arguments ready_call : clear implicits.
End Ready.

(** ** owner_wake_queue.rs and owner_task_source.rs *)
Module Task.
Section task.
Context {T : Type}.

(** [rx] holds what the senders have put into the channel. *)
Record OwnerWakeQueue := mk_wake_queue { buffered : list T; rx : list T }.

Definition wake_new : OwnerWakeQueue := mk_wake_queue [] [].

(** [tx.send] by a producer *)
Definition wake_send (q : OwnerWakeQueue) (item : T) : OwnerWakeQueue :=
  mk_wake_queue (buffered q) (rx q ++ [item]).

(** The [while let Ok(item) = self.rx.try_recv()] loop. *)
Fixpoint drain_loop (items acc : list T) : list T :=
  match items with [] => acc | item :: items => drain_loop items (acc ++ [item]) end.

Definition drain_incoming (q : OwnerWakeQueue) : OwnerWakeQueue :=
  mk_wake_queue (drain_loop (rx q) (buffered q)) [].

Definition try_drain_into (q : OwnerWakeQueue) (dst : list T) : list T * OwnerWakeQueue :=
  let q := drain_incoming q in (dst ++ buffered q, mk_wake_queue [] (rx q)).

Definition wake_pop_front (q : OwnerWakeQueue) : option T * OwnerWakeQueue :=
  let q := drain_incoming q in (head (buffered q), mk_wake_queue (tail (buffered q)) (rx q)).

(** [recv().await]: the buffered item, else the first of the items [late]
    that arrive while waiting; [None] while there is none. The queue keeps
    its own sender, so the channel never closes. *)
Definition recv (q : OwnerWakeQueue) (late : list T) : option (T * OwnerWakeQueue) :=
  match wake_pop_front q with
  | (Some item, q) => Some (item, mk_wake_queue (buffered q) (rx q ++ late))
  | (None, q) => match late with
                 | [] => None
                 | item :: late => Some (item, mk_wake_queue (buffered q) late)
                 end
  end.

Record OwnerTaskSource := mk_task_source {
  tasks : list T;
  parser_boundary_wake : OwnerWakeQueue;
  wake : OwnerWakeQueue
}.

Definition task_source_new : OwnerTaskSource := mk_task_source [] wake_new wake_new.

Definition set_tasks (s : OwnerTaskSource) (ts : list T) : OwnerTaskSource :=
  mk_task_source ts (parser_boundary_wake s) (wake s).

(** [sender().send] and [parser_boundary_sender().send] *)
Definition post (s : OwnerTaskSource) (item : T) : OwnerTaskSource :=
  mk_task_source (tasks s) (parser_boundary_wake s) (wake_send (wake s) item).
Definition post_parser_boundary (s : OwnerTaskSource) (item : T) : OwnerTaskSource :=
  mk_task_source (tasks s) (wake_send (parser_boundary_wake s) item) (wake s).

Definition enqueue_local (s : OwnerTaskSource) (item : T) : OwnerTaskSource :=
  set_tasks s (tasks s ++ [item]).
Definition enqueue_parser_boundary_local (s : OwnerTaskSource) (item : T) : OwnerTaskSource :=
  set_tasks s (item :: tasks s).
Definition extend_local (s : OwnerTaskSource) (items : list T) : OwnerTaskSource :=
  set_tasks s (tasks s ++ items).

Definition drain_wake (s : OwnerTaskSource) : OwnerTaskSource :=
  let '(front, pb) := try_drain_into (parser_boundary_wake s) [] in
  let ts := match front with [] => tasks s | _ => front ++ tasks s end in
  let '(ts, wk) := try_drain_into (wake s) ts in
  mk_task_source ts pb wk.

Definition accept_ready_wakes (s : OwnerTaskSource) : OwnerTaskSource := drain_wake s.
Definition clear_local (s : OwnerTaskSource) : OwnerTaskSource := set_tasks (drain_wake s) [].
Definition with_tasks_mut {R} (s : OwnerTaskSource) (op : list T → R * list T) : R * OwnerTaskSource :=
  let s := drain_wake s in let '(r, ts) := op (tasks s) in (r, set_tasks s ts).
Definition with_local_tasks {R} (s : OwnerTaskSource) (op : list T → R) : R := op (tasks s).

Definition pop_front_local_only (s : OwnerTaskSource) : option T * OwnerTaskSource :=
  (head (tasks s), set_tasks s (tail (tasks s))).
Definition pop_front (s : OwnerTaskSource) : option T * OwnerTaskSource :=
  pop_front_local_only (drain_wake s).
Definition front_local_only (s : OwnerTaskSource) : option T := head (tasks s).
Definition front (s : OwnerTaskSource) : option T * OwnerTaskSource :=
  let s := drain_wake s in (head (tasks s), s).
Definition is_empty_local_only (s : OwnerTaskSource) : bool :=
  match tasks s with [] => true | _ => false end.
Definition is_empty (s : OwnerTaskSource) : bool * OwnerTaskSource :=
  let s := drain_wake s in (is_empty_local_only s, s).

(** The awaiting operations; [late] and [late_pb] arrive meanwhile and [None]
    means still waiting. *)
Definition wait_for_arrival (s : OwnerTaskSource) (late : list T) : option OwnerTaskSource :=
  let s := drain_wake s in
  match tasks s with
  | _ :: _ => Some s
  | [] => match recv (wake s) late with
          | Some (task, wk) => Some (drain_wake (mk_task_source (tasks s ++ [task]) (parser_boundary_wake s) wk))
          | None => None
          end
  end.

Definition wait_for_local_wake_arrival (s : OwnerTaskSource) (late : list T) : option OwnerTaskSource :=
  wait_for_arrival s late.

(** The two branches of the [select!]. *)
Definition parser_branch (s : OwnerTaskSource) (late_pb : list T) : option OwnerTaskSource :=
  match recv (parser_boundary_wake s) late_pb with
  | Some (task, pb) => Some (drain_wake (mk_task_source (task :: tasks s) pb (wake s)))
  | None => None
  end.

Definition wake_branch (s : OwnerTaskSource) (late : list T) : option OwnerTaskSource :=
  match recv (wake s) late with
  | Some (task, wk) => Some (drain_wake (mk_task_source (tasks s ++ [task]) (parser_boundary_wake s) wk))
  | None => None
  end.

Definition or_else {A} (o p : option A) : option A := match o with Some _ => o | None => p end.

(** [select!] is biased: each poll tries the parser-boundary queue first; the
    first poll sees what is there, the one after waiting what came late. *)
Definition wait_for_wake_arrival (s : OwnerTaskSource) (late_pb late : list T) : option OwnerTaskSource :=
  or_else (or_else (parser_branch s []) (wake_branch s []))
          (or_else (parser_branch s late_pb) (wake_branch s late)).

Lemma drain_loop_app items acc : drain_loop items acc = acc ++ items.
Proof.
  revert acc. induction items as [|i items IH]; intros acc; simpl; [by rewrite app_nil_r |].
  by rewrite IH, <-app_assoc.
Qed.

Definition wake_items (q : OwnerWakeQueue) : list T := buffered q ++ rx q.

(** Draining puts parser-boundary work first, then local work, then wakes,
    each in its own order. *)
Lemma drain_wake_tasks s :
  drain_wake s = mk_task_source (wake_items (parser_boundary_wake s) ++ tasks s ++ wake_items (wake s))
                   wake_new wake_new.
Proof.
  unfold drain_wake, try_drain_into, drain_incoming, wake_items. simpl. rewrite !drain_loop_app.
  destruct (buffered (parser_boundary_wake s) ++ rx (parser_boundary_wake s)); simpl; [done |].
  by rewrite <-app_assoc.
Qed.

(** One owner turn serves every accepted item exactly once, in the order
    parser-boundary work, local work, regular wakes, each kind first in first
    out: popping after any postings hands out the head of that list and
    leaves the rest. *)
Lemma pop_front_order (s : OwnerTaskSource) :
  let all := wake_items (parser_boundary_wake s) ++ tasks s ++ wake_items (wake s) in
  pop_front s = (head all, mk_task_source (tail all) wake_new wake_new) ∧
  front s = (head all, mk_task_source all wake_new wake_new) ∧
  is_empty s = (bool_decide (length all = 0), mk_task_source all wake_new wake_new).
Proof.
  unfold pop_front, pop_front_local_only, front, is_empty, is_empty_local_only.
  rewrite drain_wake_tasks. split_and!; [done.. |]. simpl. by destruct (_ ++ _).
Qed.

(** Waiting reverses parser-boundary work. When two parser-boundary items
    are posted before the owner waits, [wait_for_wake_arrival] puts the first
    in front of the queue and then drains the second in front of it, so they
    are served in the opposite of the order in which [pop_front] without a
    wait serves them. *)
Theorem wait_reorders_parser_boundary (a b : T) :
  let s := post_parser_boundary (post_parser_boundary task_source_new a) b in
  tasks (drain_wake s) = [a; b] ∧
  ∃ s', wait_for_wake_arrival s [] [] = Some s' ∧ tasks s' = [b; a].
Proof. split; [done |]. eexists. split; reflexivity. Qed.
End task.
End Task.

(** ** Witnesses *)
Lemma no_lost_wakeup_witness :
  ∃ y : Ready.System N, rtc Ready.step Ready.system_new y ∧ Ready.owner y = Ready.Asleep ∧
    Ready.wake_pending y = true.
Proof.
  set (sh := (Ready.send_and_signal_if_newly_ready (Ready.shared Ready.source_new) 7%N).2).
  exists (Ready.mk_system (Ready.set_shared Ready.source_new sh) true Ready.Asleep).
  assert (Hr : rtc Ready.step (@Ready.system_new N)
                 (Ready.mk_system (Ready.set_shared Ready.source_new sh) true Ready.Asleep)).
  { apply rtc_once. eapply Ready.StSend. reflexivity. }
  split; [exact Hr |]. split; [reflexivity |].
  apply (Ready.no_lost_wakeup _ Hr); [reflexivity | discriminate].
Defined.
