(* ===== verification/Utf8.v ===== *)
(** * Rust [str]: Unicode scalars, UTF-8 offsets and slicing

    Where a source mixes characters with byte offsets, a [str] is its list
    of Unicode scalar values and a [usize] into it is an offset in the UTF-8
    encoding.  Slicing at an offset that is not a character boundary panics,
    as it does in Rust. *)

From S2P Require Import Prelude.
From Stdlib Require Ascii String.
#[local] Open Scope N_scope.

Notation char := N (only parsing).

(** A [char] is a scalar value; the surrogates do not matter below. *)
Definition is_char (c : char) : Prop := c ≤ 1114111.

(** [char::len_utf8] *)
Definition len_utf8 (c : char) : N :=
  if c <? 128 then 1 else if c <? 2048 then 2 else if c <? 65536 then 3 else 4.

(** [char::encode_utf8] *)
Definition continuation (c k : N) : N := 128 + N.land (N.shiftr c k) 63.

Definition encode_utf8 (c : char) : list N :=
  if c <? 128 then [c]
  else if c <? 2048 then [192 + N.shiftr c 6; continuation c 0]
  else if c <? 65536 then [224 + N.shiftr c 12; continuation c 6; continuation c 0]
  else [240 + N.shiftr c 18; continuation c 12; continuation c 6; continuation c 0].

(** [str::as_bytes] and [str::len] *)
Definition utf8 (s : list char) : list N := s ≫= encode_utf8.
Definition byte_len (s : list char) : N := Nsum len_utf8 s.

(** [str::split_at]: panics off a boundary and past the end. *)
Fixpoint split_at (s : list char) (i : N) : run (list char * list char) :=
  if i =? 0 then Ret ([], s)
  else match s with
       | [] => Panic
       | c :: s => if len_utf8 c <=? i
                   then '(a, b) ← split_at s (i - len_utf8 c); Ret (c :: a, b)
                   else Panic
       end.

(** [&s[i..]] and [&s[i..j]] *)
Definition slice_from (s : list char) (i : N) : run (list char) := snd <$> split_at s i.

Definition slice (s : list char) (i j : N) : run (list char) :=
  if j <? i then Panic else t ← slice_from s i; fst <$> split_at t (j - i).

(** [str::eq_ignore_ascii_case] *)
Definition to_ascii_lowercase (c : char) : char := if (65 <=? c) && (c <=? 90) then c + 32 else c.

Definition eq_ignore_ascii_case (a b : list char) : bool :=
  bool_decide (to_ascii_lowercase <$> a = to_ascii_lowercase <$> b).

(** A string literal of ASCII characters. *)
Definition chars (s : string) : list char := Ascii.N_of_ascii <$> String.list_ascii_of_string s.

(** [str::trim]: the characters with the Unicode property White_Space. *)
Definition is_white_space (c : char) : bool :=
  ((9 <=? c) && (c <=? 13)) || (c =? 32) || (c =? 133) || (c =? 160) || (c =? 5760) ||
  ((8192 <=? c) && (c <=? 8202)) || (c =? 8232) || (c =? 8233) || (c =? 8239) || (c =? 8287) || (c =? 12288).

Fixpoint trim_start (s : list char) : list char :=
  match s with
  | c :: s' => if is_white_space c then trim_start s' else s
  | [] => []
  end.

Definition trim (s : list char) : list char := reverse (trim_start (reverse (trim_start s))).

(** [str::split_once] and [str::split] at one character. *)
Fixpoint split_once_at (p : char) (s : list char) : option (list char * list char) :=
  match s with
  | [] => None
  | c :: s => if c =? p then Some ([], s) else prod_map (cons c) id <$> split_once_at p s
  end.

Fixpoint split_on (p : char) (s : list char) : list (list char) :=
  match s with
  | [] => [[]]
  | c :: s => if c =? p then [] :: split_on p s
              else match split_on p s with
                   | [] => [[c]]
                   | w :: ws => (c :: w) :: ws
                   end
  end.

(** [str::parse::<u64>] *)
Definition parse_digit (acc : option N) (c : char) : option N :=
  a ← acc;
  if (48 <=? c) && (c <=? 57) && (a * 10 + (c - 48) <=? u64_max) then Some (a * 10 + (c - 48)) else None.

Definition parse_u64_chars (s : list char) : option N :=
  match s with
  | [] => None
  | c :: s' => if c =? 43 then match s' with [] => None | _ => foldl parse_digit (Some 0) s' end
               else foldl parse_digit (Some 0) s
  end.

(** ** Lemmas *)
Lemma len_utf8_pos c : 0 < len_utf8 c.
Proof. unfold len_utf8. repeat case_match; lia. Qed.

Lemma length_encode c : N.of_nat (length (encode_utf8 c)) = len_utf8 c.
Proof. unfold encode_utf8, len_utf8. by repeat case_match. Qed.

Lemma utf8_cons c s : utf8 (c :: s) = encode_utf8 c ++ utf8 s.
Proof. done. Qed.

Lemma utf8_app s t : utf8 (s ++ t) = utf8 s ++ utf8 t.
Proof. apply bind_app. Qed.

Lemma byte_len_app s t : byte_len (s ++ t) = byte_len s + byte_len t.
Proof. apply Nsum_app. Qed.

Lemma byte_len_cons c s : byte_len (c :: s) = len_utf8 c + byte_len s.
Proof. done. Qed.

Lemma byte_len_snoc s c : byte_len (s ++ [c]) = byte_len s + len_utf8 c.
Proof. rewrite byte_len_app, byte_len_cons. unfold byte_len at 2. simpl. lia. Qed.

Lemma length_utf8 s : N.of_nat (length (utf8 s)) = byte_len s.
Proof.
  induction s as [|c s IH]; [done |].
  rewrite utf8_cons, length_app, Nat2N.inj_add, IH, length_encode. done.
Qed.

Lemma length_le_byte_len s : N.of_nat (length s) ≤ byte_len s.
Proof.
  induction s as [|c s IH]; [done |]. rewrite byte_len_cons. simpl length.
  pose proof (len_utf8_pos c). lia.
Qed.

(** A character is one ASCII byte, or a lead byte and continuation bytes,
    none of which is ASCII. *)
Lemma encode_shape c :
  (c < 128 ∧ encode_utf8 c = [c]) ∨
  (128 ≤ c ∧ ∃ b bs, encode_utf8 c = b :: bs ∧ Forall (λ b, 128 ≤ b) (b :: bs)).
Proof.
  unfold encode_utf8, continuation.
  destruct (N.ltb_spec c 128); [by left |]. right. split; [done |].
  repeat case_match; eexists _, _; (split; [done |]); repeat constructor; lia.
Qed.

Lemma split_at_app s t : split_at (s ++ t) (byte_len s) = Ret (s, t).
Proof.
  induction s as [|c s IH]; [by destruct t |].
  rewrite byte_len_cons. pose proof (len_utf8_pos c). cbn [app split_at].
  destruct (N.eqb_spec (len_utf8 c + byte_len s) 0); [lia |].
  destruct (N.leb_spec (len_utf8 c) (len_utf8 c + byte_len s)); [| lia].
  replace (len_utf8 c + byte_len s - len_utf8 c) with (byte_len s) by lia.
  by rewrite IH.
Qed.

Lemma slice_from_app s t : slice_from (s ++ t) (byte_len s) = Ret t.
Proof. unfold slice_from. by rewrite split_at_app. Qed.

Lemma slice_app s t u : slice (s ++ t ++ u) (byte_len s) (byte_len (s ++ t)) = Ret t.
Proof.
  unfold slice. rewrite byte_len_app, slice_from_app. simpl.
  destruct (N.ltb_spec (byte_len s + byte_len t) (byte_len s)); [lia |].
  replace (byte_len s + byte_len t - byte_len s) with (byte_len t) by lia.
  by rewrite split_at_app.
Qed.

(** The byte at a boundary is the first byte of the next character. *)
Lemma utf8_lookup_app s t : utf8 (s ++ t) !! N.to_nat (byte_len s) = utf8 t !! 0%nat.
Proof.
  rewrite utf8_app, lookup_app_r; rewrite <-length_utf8, Nat2N.id; [| done].
  by rewrite Nat.sub_diag.
Qed.

Lemma eq_ignore_ascii_case_spec a b :
  eq_ignore_ascii_case a b = true ↔ to_ascii_lowercase <$> a = to_ascii_lowercase <$> b.
Proof. apply bool_decide_eq_true. Qed.

(** A text that neither begins nor ends with white space. *)
Definition trimmed (s : list char) : Prop :=
  match head s with Some c => is_white_space c = false | None => True end ∧
  match last s with Some c => is_white_space c = false | None => True end.

#[global] Instance trimmed_dec s : Decision (trimmed s).
Proof. unfold trimmed. destruct (head s), (last s); apply _. Defined.

Lemma trim_start_head s :
  match head s with Some c => is_white_space c = false | None => True end → trim_start s = s.
Proof. destruct s as [|c s]; simpl; [done |]. by intros ->. Qed.

Lemma trim_trimmed s : trimmed s → trim s = s.
Proof.
  intros [Hh Hl]. unfold trim. rewrite (trim_start_head s) by done.
  rewrite trim_start_head; [apply reverse_involutive |]. by rewrite head_reverse.
Qed.

Lemma split_once_at_app p a b : p ∉ a → split_once_at p (a ++ p :: b) = Some (a, b).
Proof.
  induction a as [|c a IH]; intros Hp; simpl; [by rewrite N.eqb_refl |].
  destruct (N.eqb_spec c p); [set_solver |]. by rewrite IH by set_solver.
Qed.
