(* ===== verification/HeaderField.v ===== *)
(** * HTTP header fields (moli-header-field)

    The tokenizer (tokenizer.rs), the splitting of parameters outside quoted
    strings (parameters.rs) and the header list (fields.rs).  The first two
    work with byte offsets into a [str] and are compared with references that
    only see characters. *)

From S2P Require Import Prelude Utf8.
#[local] Open Scope N_scope.

(** ** tokenizer.rs *)
Inductive HeaderFieldTokenMode := Normal | Relaxed.

#[global] Instance mode_eq_dec : EqDecision HeaderFieldTokenMode.
Proof. solve_decision. Defined.

Record HeaderFieldTokenizer := mk_tokenizer { input : list char; byte_index : N }.

(** [self.byte_index += n]; the sum stays within the length of the input. *)
Definition advance (t : HeaderFieldTokenizer) (n : N) : HeaderFieldTokenizer :=
  mk_tokenizer (input t) (byte_index t + n).

(** Every loop moves on by at least one character per round. *)
Definition tokenizer_fuel (t : HeaderFieldTokenizer) : nat := S (length (input t)).

Definition current_character (t : HeaderFieldTokenizer) : run (option char) :=
  head <$> slice_from (input t) (byte_index t).

Definition is_whitespace (b : N) : bool := (b =? 32) || (b =? 9).

Fixpoint skip_loop (fuel : nat) (t : HeaderFieldTokenizer) : run HeaderFieldTokenizer :=
  match fuel with
  | O => Panic
  | S fuel => match utf8 (input t) !! N.to_nat (byte_index t) with
              | Some b => if is_whitespace b then skip_loop fuel (advance t 1) else Ret t
              | None => Ret t
              end
  end.

Definition skip_optional_whitespace (t : HeaderFieldTokenizer) : run HeaderFieldTokenizer :=
  skip_loop (tokenizer_fuel t) t.

Definition tokenizer_new (s : list char) : run HeaderFieldTokenizer :=
  skip_optional_whitespace (mk_tokenizer s 0).

Definition is_consumed (t : HeaderFieldTokenizer) : bool := byte_len (input t) <=? byte_index t.

Definition consume (t : HeaderFieldTokenizer) (separator : char) : run (bool * HeaderFieldTokenizer) :=
  rest ← slice_from (input t) (byte_index t);
  if bool_decide (head rest = Some separator)
  then t ← skip_optional_whitespace (advance t (len_utf8 separator)); Ret (true, t)
  else Ret (false, t).

(** The characters of the [matches] arms: parentheses, angle brackets, at
    sign, comma, colon, backslash, slash, square brackets, question mark and
    equals sign. *)
Definition tspecials : list char := [40; 41; 60; 62; 64; 44; 58; 92; 47; 91; 93; 63; 61].

Definition token_character_is_valid (mode : HeaderFieldTokenMode) (c : char) : bool :=
  if (127 <? c) || (c <? 32) then false
  else if bool_decide (c ∈ [32; 59; 34]) then false
  else if bool_decide (c ∈ tspecials) then bool_decide (mode = Relaxed)
  else true.

Fixpoint token_loop (fuel : nat) (mode : HeaderFieldTokenMode) (t : HeaderFieldTokenizer)
    : run HeaderFieldTokenizer :=
  match fuel with
  | O => Panic
  | S fuel =>
      c ← current_character t;
      match c with
      | Some c => if token_character_is_valid mode c
                  then token_loop fuel mode (advance t (len_utf8 c)) else Ret t
      | None => Ret t
      end
  end.

Definition consume_token (t : HeaderFieldTokenizer) (mode : HeaderFieldTokenMode)
    : run (option (list char) * HeaderFieldTokenizer) :=
  let start := byte_index t in
  t ← token_loop (tokenizer_fuel t) mode t;
  if start =? byte_index t then Ret (None, t)
  else token ← slice (input t) start (byte_index t);
       t ← skip_optional_whitespace t;
       Ret (Some token, t).

(** Double quote and backslash *)
Notation QUOTE := 34.
Notation BACKSLASH := 92.

Fixpoint quoted_loop (fuel : nat) (t : HeaderFieldTokenizer) (output : list char)
    : run (option (list char) * HeaderFieldTokenizer) :=
  match fuel with
  | O => Panic
  | S fuel =>
      c ← current_character t;
      match c with
      | None => Ret (None, t)
      | Some c =>
          let t := advance t (len_utf8 c) in
          if c =? QUOTE then t ← skip_optional_whitespace t; Ret (Some output, t)
          else if c =? BACKSLASH then
            e ← current_character t;
            match e with
            | None => Ret (None, t)
            | Some e => quoted_loop fuel (advance t (len_utf8 e)) (output ++ [e])
            end
          else quoted_loop fuel t (output ++ [c])
      end
  end.

Definition consume_quoted_string (t : HeaderFieldTokenizer)
    : run (option (list char) * HeaderFieldTokenizer) :=
  c ← current_character t;
  if bool_decide (c = Some QUOTE) then quoted_loop (tokenizer_fuel t) (advance t 1) []
  else Ret (None, t).

Definition consume_token_or_quoted_string (t : HeaderFieldTokenizer) (mode : HeaderFieldTokenMode)
    : run (option (list char) * HeaderFieldTokenizer) :=
  c ← current_character t;
  match c with
  | None => Ret (None, t)
  | Some c => if c =? QUOTE then consume_quoted_string t else consume_token t mode
  end.

Fixpoint before_loop (fuel : nat) (characters : list char) (t : HeaderFieldTokenizer)
    : run HeaderFieldTokenizer :=
  match fuel with
  | O => Panic
  | S fuel =>
      c ← current_character t;
      match c with
      | Some c => if bool_decide (c ∈ characters) then Ret t
                  else before_loop fuel characters (advance t (len_utf8 c))
      | None => Ret t
      end
  end.

Definition consume_before_any_char_match (t : HeaderFieldTokenizer) (characters : list char)
    : run HeaderFieldTokenizer := before_loop (tokenizer_fuel t) characters t.

(** ** The reference: the same operations on the characters left to read *)
Fixpoint skip_while (f : char → bool) (s : list char) : list char :=
  match s with
  | c :: s' => if f c then skip_while f s' else s
  | [] => []
  end.

Fixpoint keep_while (f : char → bool) (s : list char) : list char :=
  match s with
  | c :: s' => if f c then c :: keep_while f s' else []
  | [] => []
  end.

Definition skip_ws := skip_while is_whitespace.

Fixpoint quoted_ref (out s : list char) : option (list char) * list char :=
  match s with
  | [] => (None, [])
  | c :: s =>
      if c =? QUOTE then (Some out, skip_ws s)
      else if c =? BACKSLASH
      then match s with [] => (None, []) | e :: s => quoted_ref (out ++ [e]) s end
      else quoted_ref (out ++ [c]) s
  end.

Inductive tokenizer_call :=
| IsConsumed
| Consume (separator : char)
| ConsumeToken (mode : HeaderFieldTokenMode)
| ConsumeQuotedString
| ConsumeTokenOrQuotedString (mode : HeaderFieldTokenMode)
| ConsumeBefore (characters : list char).

Inductive answer := ABool (b : bool) | AText (o : option (list char)) | AUnit.

Definition token_ref (mode : HeaderFieldTokenMode) (s : list char) : answer * list char :=
  match keep_while (token_character_is_valid mode) s with
  | [] => (AText None, s)
  | token => (AText (Some token), skip_ws (skip_while (token_character_is_valid mode) s))
  end.

Definition quoted_string_ref (s : list char) : answer * list char :=
  match s with
  | c :: s' => if c =? QUOTE then prod_map AText id (quoted_ref [] s') else (AText None, s)
  | [] => (AText None, [])
  end.

Definition call_ref (s : list char) (call : tokenizer_call) : answer * list char :=
  match call with
  | IsConsumed => (ABool (bool_decide (s = [])), s)
  | Consume sep => match s with
                   | c :: s' => if c =? sep then (ABool true, skip_ws s') else (ABool false, s)
                   | [] => (ABool false, [])
                   end
  | ConsumeToken mode => token_ref mode s
  | ConsumeQuotedString => quoted_string_ref s
  | ConsumeTokenOrQuotedString mode =>
      match s with
      | c :: _ => if c =? QUOTE then quoted_string_ref s else token_ref mode s
      | [] => (AText None, [])
      end
  | ConsumeBefore cs => (AUnit, skip_while (λ c, negb (bool_decide (c ∈ cs))) s)
  end.

Definition tokenizer_exec (t : HeaderFieldTokenizer) (call : tokenizer_call)
    : run (answer * HeaderFieldTokenizer) :=
  match call with
  | IsConsumed => Ret (ABool (is_consumed t), t)
  | Consume sep => '(b, t) ← consume t sep; Ret (ABool b, t)
  | ConsumeToken mode => '(o, t) ← consume_token t mode; Ret (AText o, t)
  | ConsumeQuotedString => '(o, t) ← consume_quoted_string t; Ret (AText o, t)
  | ConsumeTokenOrQuotedString mode =>
      '(o, t) ← consume_token_or_quoted_string t mode; Ret (AText o, t)
  | ConsumeBefore cs => t ← consume_before_any_char_match t cs; Ret (AUnit, t)
  end.

Fixpoint tokenizer_exec_all (t : HeaderFieldTokenizer) (calls : list tokenizer_call)
    : run (list answer * HeaderFieldTokenizer) :=
  match calls with
  | [] => Ret ([], t)
  | call :: calls =>
      '(a, t) ← tokenizer_exec t call; '(l, t) ← tokenizer_exec_all t calls; Ret (a :: l, t)
  end.

Fixpoint call_ref_all (s : list char) (calls : list tokenizer_call) : list answer * list char :=
  match calls with
  | [] => ([], s)
  | call :: calls => let '(a, s) := call_ref s call in
                     let '(l, s) := call_ref_all s calls in (a :: l, s)
  end.

(** ** The tokenizer refines the reference *)

(** [t] stands at a boundary of [s], with [rest] left to read. *)
Definition reading (s : list char) (t : HeaderFieldTokenizer) (rest : list char) : Prop :=
  input t = s ∧ ∃ pre, s = pre ++ rest ∧ byte_index t = byte_len pre.

Lemma reading_current s t rest : reading s t rest → current_character t = Ret (head rest).
Proof.
  intros (Hin & pre & Hs & Hi). unfold current_character.
  rewrite Hin, Hi, Hs, slice_from_app. done.
Qed.

Lemma reading_slice_from s t rest :
  reading s t rest → slice_from (input t) (byte_index t) = Ret rest.
Proof. intros (Hin & pre & Hs & Hi). by rewrite Hin, Hi, Hs, slice_from_app. Qed.

Lemma reading_advance s t c rest :
  reading s t (c :: rest) → reading s (advance t (len_utf8 c)) rest.
Proof.
  intros (Hin & pre & Hs & Hi). split; [done |]. exists (pre ++ [c]). split.
  - by rewrite <-app_assoc.
  - simpl. by rewrite byte_len_snoc, Hi.
Qed.

Lemma reading_length s t rest : reading s t rest → (length rest < tokenizer_fuel t)%nat.
Proof.
  intros (Hin & pre & Hs & _). unfold tokenizer_fuel. rewrite Hin, Hs, length_app. lia.
Qed.

Lemma is_whitespace_ascii b : is_whitespace b = true → b = 32 ∨ b = 9.
Proof. unfold is_whitespace. intros [?%N.eqb_eq|?%N.eqb_eq]%orb_prop; auto. Qed.

(** The byte seen at a boundary is white space iff the character is. *)
Lemma reading_byte s t rest : reading s t rest →
  match utf8 (input t) !! N.to_nat (byte_index t) with
  | Some b => ∃ c rest', rest = c :: rest' ∧ is_whitespace b = is_whitespace c ∧
                         (is_whitespace b = true → len_utf8 c = 1)
  | None => rest = []
  end.
Proof.
  intros (Hin & pre & Hs & Hi). rewrite Hin, Hi, Hs, utf8_lookup_app.
  destruct rest as [|c rest]; [done |]. rewrite utf8_cons.
  destruct (encode_shape c) as [[Hc ->] | (Hc & b & bs & -> & Hb)]; simpl; eexists _, _; (split; [done |]).
  - split; [done |]. intros _. unfold len_utf8. destruct (N.ltb_spec c 128); [done | lia].
  - apply Forall_cons in Hb as [Hb _].
    assert (is_whitespace b = false) as -> by (apply not_true_is_false; intros [|]%is_whitespace_ascii; lia).
    assert (is_whitespace c = false) as -> by (apply not_true_is_false; intros [|]%is_whitespace_ascii; lia).
    done.
Qed.

Lemma skip_loop_reading fuel s t rest :
  (length rest < fuel)%nat → reading s t rest →
  ∃ t', skip_loop fuel t = Ret t' ∧ reading s t' (skip_ws rest).
Proof.
  revert t rest. induction fuel as [|fuel IH]; intros t rest Hf Hr; [lia |].
  cbn [skip_loop]. pose proof (reading_byte _ _ _ Hr) as Hb.
  destruct (utf8 (input t) !! N.to_nat (byte_index t)) as [b|]; [| by subst; eauto].
  destruct Hb as (c & rest' & -> & Hw & H1). unfold skip_ws. cbn [skip_while]. rewrite <-Hw.
  destruct (is_whitespace b); [| by eauto]. simpl in Hf.
  apply IH; [lia |]. rewrite <-H1 by done. by apply reading_advance.
Qed.

Lemma skip_reading s t rest : reading s t rest →
  ∃ t', skip_optional_whitespace t = Ret t' ∧ reading s t' (skip_ws rest).
Proof. intros Hr. apply skip_loop_reading; [by eapply reading_length | done]. Qed.

Lemma token_loop_reading fuel mode s t rest :
  (length rest < fuel)%nat → reading s t rest →
  ∃ t', token_loop fuel mode t = Ret t' ∧ reading s t' (skip_while (token_character_is_valid mode) rest) ∧
        byte_index t' = byte_index t + byte_len (keep_while (token_character_is_valid mode) rest).
Proof.
  revert t rest. induction fuel as [|fuel IH]; intros t rest Hf Hr; [lia |].
  cbn [token_loop]. rewrite (reading_current _ _ _ Hr). simpl.
  destruct rest as [|c rest]; simpl.
  { eexists. split; [done |]. split; [done |]. unfold byte_len. simpl. lia. }
  destruct (token_character_is_valid mode c).
  - destruct (IH (advance t (len_utf8 c)) rest) as (t' & E & Hr' & Hi);
      [simpl in Hf; lia | by apply reading_advance |].
    exists t'. split; [done |]. split; [done |]. rewrite Hi, byte_len_cons. simpl. lia.
  - eexists. split; [done |]. split; [done |]. unfold byte_len. simpl. lia.
Qed.

Lemma keep_skip f s : s = keep_while f s ++ skip_while f s.
Proof. induction s as [|c s IH]; simpl; [done |]. destruct (f c); [by rewrite IH at 1 | done]. Qed.

Lemma consume_token_reading mode s t rest : reading s t rest →
  ∃ o t', consume_token t mode = Ret (o, t') ∧
          fst (token_ref mode rest) = AText o ∧
          reading s t' (snd (token_ref mode rest)).
Proof.
  intros Hr. unfold consume_token, token_ref.
  destruct (token_loop_reading (tokenizer_fuel t) mode s t rest) as (t1 & -> & Hr1 & Hi);
    [by eapply reading_length | done |]. simpl.
  pose proof (keep_skip (token_character_is_valid mode) rest) as Hsplit.
  destruct (keep_while _ rest) as [|c token] eqn:Ek.
  - simpl in Hsplit. rewrite <-Hsplit in Hr1. unfold byte_len in Hi. simpl in Hi.
    rewrite N.add_0_r in Hi. rewrite Hi, N.eqb_refl. simpl. eauto 6.
  - rewrite byte_len_cons in Hi. pose proof (len_utf8_pos c).
    destruct (N.eqb_spec (byte_index t) (byte_index t1)); [lia |].
    destruct Hr as (Hin & pre & Hs & Hpre), Hr1 as (Hin1 & pre1 & Hs1 & Hpre1).
    assert (slice (input t1) (byte_index t) (byte_index t1) = Ret (c :: token)) as ->.
    { rewrite Hin1, Hi, Hpre, <-byte_len_cons, <-byte_len_app, Hs, Hsplit. apply slice_app. }
    simpl. destruct (skip_reading s t1 (skip_while (token_character_is_valid mode) rest)) as (t2 & -> & Hr2);
      [by split; eauto |].
    simpl. eauto 6.
Qed.

Lemma quoted_loop_reading fuel s t rest out :
  (length rest < fuel)%nat → reading s t rest →
  ∃ t', quoted_loop fuel t out = Ret (fst (quoted_ref out rest), t') ∧
        reading s t' (snd (quoted_ref out rest)).
Proof.
  revert t rest out. induction fuel as [|fuel IH]; intros t rest out Hf Hr; [lia |].
  cbn [quoted_loop]. rewrite (reading_current _ _ _ Hr). simpl.
  destruct rest as [|c rest]; [by eauto |]. cbn [head quoted_ref].
  apply reading_advance in Hr. simpl in Hf. destruct (c =? QUOTE).
  { destruct (skip_reading _ _ _ Hr) as (t' & -> & Hr'). simpl. eauto. }
  destruct (c =? BACKSLASH); [| by apply IH; [lia |]].
  rewrite (reading_current _ _ _ Hr). simpl. destruct rest as [|e rest]; [by eauto |].
  apply reading_advance in Hr. simpl in *. apply IH; [lia | done].
Qed.
#[local] Arguments quoted_loop : simpl never.

Lemma consume_quoted_reading s t rest : reading s t rest →
  ∃ o t', consume_quoted_string t = Ret (o, t') ∧
          fst (quoted_string_ref rest) = AText o ∧ reading s t' (snd (quoted_string_ref rest)).
Proof.
  intros Hr. unfold consume_quoted_string. rewrite (reading_current _ _ _ Hr). simpl.
  destruct rest as [|c rest]; simpl; [by eauto |].
  destruct (N.eqb_spec c QUOTE) as [->|Hc].
  - rewrite bool_decide_eq_true_2 by done.
    destruct (quoted_loop_reading (tokenizer_fuel t) s (advance t 1) rest []) as (t' & -> & Hr').
    + apply reading_length in Hr. simpl in Hr. lia.
    + by apply (reading_advance _ _ QUOTE).
    + simpl. eauto.
  - rewrite bool_decide_eq_false_2 by congruence. simpl. eauto.
Qed.

Lemma before_loop_reading fuel cs s t rest :
  (length rest < fuel)%nat → reading s t rest →
  ∃ t', before_loop fuel cs t = Ret t' ∧
        reading s t' (skip_while (λ c, negb (bool_decide (c ∈ cs))) rest).
Proof.
  revert t rest. induction fuel as [|fuel IH]; intros t rest Hf Hr; [lia |].
  cbn [before_loop]. rewrite (reading_current _ _ _ Hr). simpl.
  destruct rest as [|c rest]; [by eauto |]. simpl.
  destruct (bool_decide (c ∈ cs)); simpl; [by eauto |].
  apply IH; [simpl in Hf; lia | by apply reading_advance].
Qed.

Lemma consume_reading sep s t rest : reading s t rest →
  ∃ b t', consume t sep = Ret (b, t') ∧
          fst (call_ref rest (Consume sep)) = ABool b ∧ reading s t' (snd (call_ref rest (Consume sep))).
Proof.
  intros Hr. unfold consume. rewrite (reading_slice_from _ _ _ Hr). simpl.
  destruct rest as [|c rest]; simpl; [by eauto |].
  destruct (N.eqb_spec c sep) as [->|Hc].
  - rewrite bool_decide_eq_true_2 by done.
    destruct (skip_reading s (advance t (len_utf8 sep)) rest) as (t' & -> & Hr');
      [by apply reading_advance |]. simpl. eauto.
  - rewrite bool_decide_eq_false_2 by congruence. simpl. eauto.
Qed.

Lemma is_consumed_reading s t rest : reading s t rest → is_consumed t = bool_decide (rest = []).
Proof.
  intros (Hin & pre & Hs & Hi). unfold is_consumed. rewrite Hin, Hi, Hs, byte_len_app.
  destruct rest as [|c rest].
  - rewrite bool_decide_eq_true_2 by done. apply N.leb_le. unfold byte_len. simpl. lia.
  - rewrite bool_decide_eq_false_2 by done. apply N.leb_gt. rewrite byte_len_cons.
    pose proof (len_utf8_pos c). lia.
Qed.

Lemma tokenizer_exec_reading call s t rest : reading s t rest →
  ∃ t', tokenizer_exec t call = Ret (fst (call_ref rest call), t') ∧
        reading s t' (snd (call_ref rest call)).
Proof.
  intros Hr. destruct call as [|sep|mode| |mode|cs]; cbn [tokenizer_exec].
  - rewrite (is_consumed_reading _ _ _ Hr). eauto.
  - destruct (consume_reading sep _ _ _ Hr) as (b & t' & -> & -> & Hr'). simpl. eauto.
  - destruct (consume_token_reading mode _ _ _ Hr) as (o & t' & -> & E & Hr'). simpl. rewrite E. eauto.
  - destruct (consume_quoted_reading _ _ _ Hr) as (o & t' & -> & E & Hr'). simpl. rewrite E. eauto.
  - unfold consume_token_or_quoted_string. rewrite (reading_current _ _ _ Hr).
    destruct rest as [|c rest]; [simpl; by eauto |].
    cbn [call_ref head mbind run_bind]. destruct (c =? QUOTE).
    + destruct (consume_quoted_reading _ _ _ Hr) as (o & t' & -> & -> & Hr'). cbn [mbind run_bind]. eauto.
    + destruct (consume_token_reading mode _ _ _ Hr) as (o & t' & -> & -> & Hr'). cbn [mbind run_bind]. eauto.
  - unfold consume_before_any_char_match.
    destruct (before_loop_reading (tokenizer_fuel t) cs s t rest) as (t' & -> & Hr');
      [by eapply reading_length | done |]. simpl. eauto.
Qed.

(** C25: the tokenizer, which works with byte offsets into the UTF-8 text,
    never slices off a character boundary and never runs past the end: on
    any input and any sequence of calls it returns, answers what a reader of
    the characters answers, and stands at the boundary before the characters
    that reader has left. *)
Theorem tokenizer_refines_characters (s : list char) (calls : list tokenizer_call) :
  ∃ t pre, (t ← tokenizer_new s; tokenizer_exec_all t calls)
           = Ret (fst (call_ref_all (skip_ws s) calls), t) ∧
           s = pre ++ snd (call_ref_all (skip_ws s) calls) ∧ byte_index t = byte_len pre.
Proof.
  assert (∀ t rest, reading s t rest → ∃ t', tokenizer_exec_all t calls = Ret (fst (call_ref_all rest calls), t') ∧
                      reading s t' (snd (call_ref_all rest calls))) as Hall.
  { induction calls as [|call calls IH]; intros t rest Hr; simpl; [by eauto |].
    destruct (tokenizer_exec_reading call _ _ _ Hr) as (t1 & -> & Hr1). simpl.
    destruct (call_ref rest call) as [a rest1]. simpl in *.
    destruct (IH _ _ Hr1) as (t2 & -> & Hr2). simpl.
    destruct (call_ref_all rest1 calls). simpl in *. eauto. }
  destruct (skip_reading s (mk_tokenizer s 0) s) as (t0 & E0 & Hr0); [by split; [| exists []] |].
  unfold tokenizer_new. rewrite E0. simpl.
  destruct (Hall _ _ Hr0) as (t & -> & _ & pre & Hs & Hi). eauto.
Qed.

(** ** parameters.rs *)
Inductive ParameterScanState :=
| BeforeValue | AtValueStart | UnquotedValue | QuotedValue | AfterQuotedValue.

#[global] Instance scan_state_eq_dec : EqDecision ParameterScanState.
Proof. solve_decision. Defined.

Notation EQUALS := 61.

(** The [match state] of the scan. *)
Definition next_state (state : ParameterScanState) (byte : N) : ParameterScanState :=
  match state with
  | BeforeValue => if byte =? EQUALS then AtValueStart else state
  | AtValueStart => if is_whitespace byte then state
                    else if byte =? QUOTE then QuotedValue else UnquotedValue
  | _ => state
  end.

Fixpoint scan_loop (fuel : nat) (value : list char) (separator : N) (segments : list (list char))
    (segment_start : N) (state : ParameterScanState) (index : N) : run (list (list char)) :=
  match fuel with
  | O => Panic
  | S fuel =>
      match utf8 value !! N.to_nat index with
      | None =>
          last ← slice_from value (N.min segment_start (byte_len value));
          Ret (segments ++ [last])
      | Some byte =>
          if bool_decide (state = QuotedValue) then
            if byte =? BACKSLASH then scan_loop fuel value separator segments segment_start state (index + 2)
            else scan_loop fuel value separator segments segment_start
                   (if byte =? QUOTE then AfterQuotedValue else state) (index + 1)
          else if byte =? separator then
            segment ← slice value segment_start index;
            scan_loop fuel value separator (segments ++ [segment]) (index + 1) BeforeValue (index + 1)
          else scan_loop fuel value separator segments segment_start (next_state state byte) (index + 1)
      end
  end.

(** One round per byte at most, and one that finds the end. *)
Definition split_outside_quoted_strings (value : list char) (separator : char)
    : run (list (list char)) :=
  scan_loop (S (length (utf8 value))) value (separator mod 256) [] 0 BeforeValue 0.

Fixpoint unquote_loop (unquoted s : list char) : list char :=
  match s with
  | [] => unquoted
  | c :: s =>
      if c =? QUOTE then unquoted
      else if c =? BACKSLASH
      then match s with
           | e :: s => unquote_loop (unquoted ++ [e]) s
           | [] => unquoted ++ [BACKSLASH]
           end
      else unquote_loop (unquoted ++ [c]) s
  end.

Definition unquote_parameter_value (raw : list char) : list char :=
  match raw with
  | c :: quoted => if c =? QUOTE then unquote_loop [] quoted else raw
  | [] => raw
  end.

(** *** The reference: a scan of characters

    It reads one character at a time, and two after a backslash in a quoted
    value. *)
Fixpoint split_ref (sep : char) (state : ParameterScanState) (cur s : list char) : list (list char) :=
  match s with
  | [] => [cur]
  | c :: s =>
      if bool_decide (state = QuotedValue) then
        if c =? BACKSLASH
        then match s with
             | [] => [cur ++ [c]]
             | e :: s => split_ref sep state (cur ++ [c; e]) s
             end
        else split_ref sep (if c =? QUOTE then AfterQuotedValue else state) (cur ++ [c]) s
      else if c =? sep then cur :: split_ref sep BeforeValue [] s
      else split_ref sep (next_state state c) (cur ++ [c]) s
  end.

Fixpoint join (sep : char) (segments : list (list char)) : list char :=
  match segments with
  | [] => []
  | [s] => s
  | s :: segments => s ++ sep :: join sep segments
  end.

Lemma split_ref_cons sep state cur s : ∃ w ws, split_ref sep state cur s = w :: ws.
Proof.
  revert state cur. induction s as [s IH] using (induction_ltof1 _ length); unfold ltof in IH.
  intros. destruct s as [|c s]; simpl; [by eauto |].
  repeat case_match; subst; eauto; apply IH; simpl; lia.
Qed.

Lemma join_split_ref sep state cur s : join sep (split_ref sep state cur s) = cur ++ s.
Proof.
  revert state cur. induction s as [s IH] using (induction_ltof1 _ length); unfold ltof in IH.
  intros. destruct s as [|c s]; cbn [split_ref]; [simpl; by rewrite app_nil_r |].
  destruct (bool_decide _).
  - destruct (c =? BACKSLASH).
    + destruct s as [|e s]; [done |]. rewrite IH by (simpl; lia). by rewrite <-app_assoc.
    + rewrite IH by (simpl; lia). by rewrite <-app_assoc.
  - destruct (N.eqb_spec c sep) as [->|].
    + destruct (split_ref_cons sep BeforeValue [] s) as (w & ws & E).
      assert (join sep (w :: ws) = s) as Hj by (rewrite <-E; apply IH; simpl; lia).
      rewrite E. cbn [join] in Hj |- *. by rewrite Hj.
    + rewrite IH by (simpl; lia). by rewrite <-app_assoc.
Qed.

(** *** The byte scan follows the character scan *)

(** Bytes of a character after its first do not change the state. *)
Lemma scan_skip fuel value sep segs start state i bs :
  state ≠ AtValueStart → sep < 128 → Forall (λ b, 128 ≤ b) bs →
  (∀ k b, bs !! k = Some b → utf8 value !! N.to_nat (i + N.of_nat k) = Some b) →
  scan_loop (length bs + fuel) value sep segs start state i
  = scan_loop fuel value sep segs start state (i + N.of_nat (length bs)).
Proof.
  intros Hst Hsep. revert i. induction bs as [|b bs IH]; intros i Hbs Hat.
  { simpl. by rewrite N.add_0_r. }
  apply Forall_cons in Hbs as [Hb Hbs].
  assert (utf8 value !! N.to_nat i = Some b) as Hi by (rewrite <-(Hat 0%nat b) by done; f_equal; lia).
  simpl length. cbn [plus scan_loop]. rewrite Hi.
  destruct (N.eqb_spec b BACKSLASH); [lia |]. destruct (N.eqb_spec b QUOTE); [lia |].
  destruct (N.eqb_spec b sep); [lia |].
  assert (next_state state b = state) as ->.
  { destruct state; simpl; try done. destruct (N.eqb_spec b EQUALS); [lia | done]. }
  replace (i + N.of_nat (S (length bs))) with (i + 1 + N.of_nat (length bs)) by lia.
  rewrite <-(IH (i + 1)); [by destruct (bool_decide _) | done |].
  intros k b' Hk. rewrite <-(Hat (S k) b' Hk). f_equal. lia.
Qed.

Lemma utf8_lookup_at seen c rest k b :
  encode_utf8 c !! k = Some b →
  utf8 (seen ++ c :: rest) !! N.to_nat (byte_len seen + N.of_nat k) = Some b.
Proof.
  intros Hk. rewrite utf8_app, utf8_cons, <-length_utf8.
  replace (N.to_nat (N.of_nat (length (utf8 seen)) + N.of_nat k)) with (length (utf8 seen) + k)%nat by lia.
  rewrite lookup_app_r by lia. replace (length (utf8 seen) + k - length (utf8 seen))%nat with k by lia.
  by apply lookup_app_l_Some.
Qed.

Lemma next_state_high state b c : 128 ≤ b → 128 ≤ c →
  next_state state b = next_state state c ∧ next_state state b ≠ AtValueStart.
Proof.
  intros Hb Hc. unfold next_state.
  assert (∀ x, 128 ≤ x → is_whitespace x = false) as Hw.
  { intros x Hx. apply not_true_is_false. intros [|]%is_whitespace_ascii; lia. }
  rewrite !Hw by done.
  destruct (N.eqb_spec b EQUALS), (N.eqb_spec c EQUALS), (N.eqb_spec b QUOTE), (N.eqb_spec c QUOTE);
    try lia. by destruct state.
Qed.

Section scan.
Context (sep : N) (Hsep : sep < 128).

(** The bytes of a character after the first are passed over. *)
Lemma scan_tail fuel seen c rest segs start state b bs :
  encode_utf8 c = b :: bs → Forall (λ b, 128 ≤ b) bs → state ≠ AtValueStart →
  scan_loop (length bs + fuel) (seen ++ c :: rest) sep segs start state (byte_len seen + 1)
  = scan_loop fuel (seen ++ c :: rest) sep segs start state (byte_len (seen ++ [c])).
Proof.
  intros Henc Hbs Hst. rewrite scan_skip; [| done..|].
  - f_equal. rewrite byte_len_snoc, <-length_encode, Henc. simpl. lia.
  - intros k b' Hk. replace (byte_len seen + 1 + N.of_nat k) with (byte_len seen + N.of_nat (S k)) by lia.
    apply utf8_lookup_at. by rewrite Henc.
Qed.

(** A character outside a quoted value that is not the separator. *)
Lemma scan_plain fuel seen c rest segs start state :
  state ≠ QuotedValue → c ≠ sep →
  scan_loop (length (encode_utf8 c) + fuel) (seen ++ c :: rest) sep segs start state (byte_len seen)
  = scan_loop fuel (seen ++ c :: rest) sep segs start (next_state state c) (byte_len (seen ++ [c])).
Proof.
  intros Hst Hc. destruct (encode_shape c) as [[Hlt Henc] | (Hge & b & bs & Henc & Hbs)].
  - pose proof (utf8_lookup_at seen c rest 0 c) as Hb. rewrite Henc, N.add_0_r in Hb.
    rewrite Henc. cbn [length plus scan_loop]. rewrite Hb by done.
    rewrite bool_decide_eq_false_2 by done. destruct (N.eqb_spec c sep); [done |].
    rewrite byte_len_snoc. f_equal. rewrite <-length_encode, Henc. simpl. lia.
  - pose proof (utf8_lookup_at seen c rest 0 b) as Hb. rewrite Henc, N.add_0_r in Hb.
    apply Forall_cons in Hbs as [Hb128 Hbs]. destruct (next_state_high state b c) as [Hn Hne]; [done..|].
    rewrite Henc. cbn [length plus scan_loop]. rewrite Hb by done.
    rewrite bool_decide_eq_false_2 by done. destruct (N.eqb_spec b sep); [lia |].
    rewrite <-Hn. by eapply scan_tail.
Qed.

(** A character of a quoted value other than a backslash. *)
Lemma scan_quoted fuel seen c rest segs start :
  c ≠ BACKSLASH →
  scan_loop (length (encode_utf8 c) + fuel) (seen ++ c :: rest) sep segs start QuotedValue (byte_len seen)
  = scan_loop fuel (seen ++ c :: rest) sep segs start
      (if c =? QUOTE then AfterQuotedValue else QuotedValue) (byte_len (seen ++ [c])).
Proof.
  intros Hc. destruct (encode_shape c) as [[Hlt Henc] | (Hge & b & bs & Henc & Hbs)].
  - pose proof (utf8_lookup_at seen c rest 0 c) as Hb. rewrite Henc, N.add_0_r in Hb.
    rewrite Henc. cbn [length plus scan_loop]. rewrite Hb by done.
    rewrite bool_decide_eq_true_2 by done. destruct (N.eqb_spec c BACKSLASH); [done |].
    rewrite byte_len_snoc. f_equal. rewrite <-length_encode, Henc. simpl. lia.
  - pose proof (utf8_lookup_at seen c rest 0 b) as Hb. rewrite Henc, N.add_0_r in Hb.
    apply Forall_cons in Hbs as [Hb128 Hbs].
    rewrite Henc. cbn [length plus scan_loop]. rewrite Hb by done.
    rewrite bool_decide_eq_true_2 by done. destruct (N.eqb_spec b BACKSLASH), (N.eqb_spec b QUOTE); [lia..|].
    destruct (N.eqb_spec c QUOTE); [lia |]. by eapply scan_tail.
Qed.

(** A backslash of a quoted value hides the whole next character. *)
Lemma scan_escape fuel seen e rest segs start :
  scan_loop (length (encode_utf8 e) + fuel) (seen ++ BACKSLASH :: e :: rest) sep segs start QuotedValue
    (byte_len seen)
  = scan_loop fuel (seen ++ BACKSLASH :: e :: rest) sep segs start QuotedValue
      (byte_len (seen ++ [BACKSLASH; e])).
Proof.
  pose proof (utf8_lookup_at seen BACKSLASH (e :: rest) 0 BACKSLASH eq_refl) as Hb.
  rewrite N.add_0_r in Hb.
  assert (∃ b bs, encode_utf8 e = b :: bs ∧ Forall (λ b, 128 ≤ b) bs) as (b & bs & Henc & Hbs).
  { destruct (encode_shape e) as [[_ ->] | (_ & b & bs & -> & H)]; [eauto |].
    apply Forall_cons in H as [_ H]. eauto. }
  rewrite Henc. cbn [length plus scan_loop]. rewrite Hb.
  rewrite bool_decide_eq_true_2 by done. rewrite N.eqb_refl.
  replace (byte_len seen + 2) with (byte_len (seen ++ [BACKSLASH]) + 1)
    by (rewrite byte_len_snoc; unfold len_utf8; simpl; lia).
  rewrite (cons_middle BACKSLASH), app_assoc. erewrite scan_tail; [| done..].
  by rewrite <-!app_assoc.
Qed.

Lemma scan_end fuel seen pre cur segs state i :
  byte_len (pre ++ cur) ≤ i → seen = pre ++ cur →
  scan_loop (S fuel) seen sep segs (byte_len pre) state i = Ret (segs ++ [cur]).
Proof.
  intros Hi ->. cbn [scan_loop]. rewrite lookup_ge_None_2 by (rewrite <-length_utf8 in Hi; lia).
  rewrite N.min_l by (rewrite byte_len_app; lia). by rewrite slice_from_app.
Qed.

Lemma scan_simulates fuel pre cur rest segs state :
  (length (utf8 rest) < fuel)%nat →
  scan_loop fuel (pre ++ cur ++ rest) sep segs (byte_len pre) state (byte_len (pre ++ cur))
  = Ret (segs ++ split_ref sep state cur rest).
Proof.
  revert fuel pre cur segs state.
  induction rest as [rest IH] using (induction_ltof1 _ length); unfold ltof in IH.
  intros fuel pre cur segs state Hf. destruct rest as [|c rest].
  { destruct fuel as [|fuel]; [simpl in Hf; lia |]. rewrite app_nil_r. by apply scan_end. }
  rewrite utf8_cons, length_app in Hf. simpl in IH. cbn [split_ref]. rewrite app_assoc.
  case_bool_decide as Hst; [subst state; destruct (N.eqb_spec c BACKSLASH) as [->|Hc] |
                            destruct (N.eqb_spec c sep) as [->|Hc]].
  - destruct rest as [|e rest].
    + destruct fuel as [|fuel]; [simpl in Hf; lia |].
      cbn [scan_loop]. rewrite utf8_lookup_app. simpl.
      destruct fuel as [|fuel]; [simpl in Hf; lia |]. rewrite <-app_assoc. apply scan_end; [| done].
      rewrite app_assoc, byte_len_snoc. unfold len_utf8. simpl. lia.
    + rewrite utf8_cons, length_app in Hf.
      replace fuel with (length (encode_utf8 e) + (fuel - length (encode_utf8 e)))%nat by lia.
      rewrite scan_escape. change (BACKSLASH :: e :: rest) with ([BACKSLASH; e] ++ rest).
      rewrite <-!app_assoc. rewrite (app_assoc cur [BACKSLASH; e] rest).
      apply IH; [simpl; lia |]. simpl in Hf. lia.
  - replace fuel with (length (encode_utf8 c) + (fuel - length (encode_utf8 c)))%nat by lia.
    rewrite scan_quoted by done. rewrite <-!app_assoc, (cons_middle c), (app_assoc cur [c] rest).
    apply IH; lia.
  - destruct fuel as [|fuel]; [lia |]. cbn [scan_loop]. rewrite utf8_lookup_app, utf8_cons.
    destruct (encode_shape sep) as [[_ Henc] | [? _]]; [| lia]. rewrite Henc in Hf |- *. simpl in Hf |- *.
    rewrite bool_decide_eq_false_2 by done. rewrite N.eqb_refl. rewrite <-app_assoc, slice_app. simpl.
    rewrite (cons_middle sep), !app_assoc.
    assert (byte_len (pre ++ cur) + 1 = byte_len ((pre ++ cur) ++ [sep])) as ->.
    { rewrite byte_len_snoc. unfold len_utf8. destruct (N.ltb_spec sep 128); lia. }
    specialize (IH rest ltac:(lia) fuel ((pre ++ cur) ++ [sep]) [] (segs ++ [cur]) BeforeValue ltac:(lia)).
    rewrite app_nil_r in IH. rewrite app_nil_l in IH. rewrite IH. by rewrite <-app_assoc.
  - replace fuel with (length (encode_utf8 c) + (fuel - length (encode_utf8 c)))%nat by lia.
    rewrite scan_plain by done. rewrite <-!app_assoc, (cons_middle c), (app_assoc cur [c] rest).
    apply IH; lia.
Qed.
End scan.

Lemma split_is_ref value sep : sep < 128 →
  split_outside_quoted_strings value sep = Ret (split_ref sep BeforeValue [] value).
Proof.
  intros Hsep. unfold split_outside_quoted_strings. rewrite N.mod_small by lia.
  apply (scan_simulates sep Hsep _ [] [] value []). lia.
Qed.

(** The byte-wise splitter is the character-wise one. For an ASCII
    separator it returns on every text without slicing off a character
    boundary (a backslash in a quoted value steps over two bytes, which may
    end inside a character), its segments are those of the reference scan of
    characters, and joined by the separator they give the text back. *)
Theorem split_by_characters (value : list char) (sep : char) :
  sep < 128 →
  ∃ segments, split_outside_quoted_strings value sep = Ret segments ∧
              segments = split_ref sep BeforeValue [] value ∧ join sep segments = value.
Proof.
  intros Hsep. eexists. split; [by apply split_is_ref |]. split; [done |]. apply join_split_ref.
Qed.

(** *** Quoted parameters *)
Fixpoint escape (s : list char) : list char :=
  match s with
  | [] => []
  | c :: s => if (c =? QUOTE) || (c =? BACKSLASH) then BACKSLASH :: c :: escape s else c :: escape s
  end.

Definition quote (s : list char) : list char := QUOTE :: escape s ++ [QUOTE].

(** [name="value"] *)
Definition render (p : list char * list char) : list char := p.1 ++ EQUALS :: quote p.2.

Lemma unquote_loop_escape v out s : unquote_loop out (escape v ++ QUOTE :: s) = out ++ v.
Proof.
  revert out. induction v as [|c v IH]; intros out; simpl; [by rewrite app_nil_r |].
  destruct (N.eqb_spec c QUOTE) as [->|]; simpl; [by rewrite IH, <-app_assoc |].
  destruct (N.eqb_spec c BACKSLASH) as [->|]; simpl; [by rewrite IH, <-app_assoc |].
  destruct (N.eqb_spec c QUOTE); [done |]. destruct (N.eqb_spec c BACKSLASH); [done |].
  by rewrite IH, <-app_assoc.
Qed.

Lemma split_ref_name sep n cur s : sep ∉ n → EQUALS ∉ n →
  split_ref sep BeforeValue cur (n ++ s) = split_ref sep BeforeValue (cur ++ n) s.
Proof.
  revert cur. induction n as [|c n IH]; intros cur Hs He; [by rewrite app_nil_r |].
  cbn [app split_ref]. rewrite bool_decide_eq_false_2 by done.
  destruct (N.eqb_spec c sep); [set_solver |]. unfold next_state.
  destruct (N.eqb_spec c EQUALS); [set_solver |].
  rewrite IH by set_solver. by rewrite <-app_assoc.
Qed.

Lemma split_ref_escape sep v cur s :
  split_ref sep QuotedValue cur (escape v ++ QUOTE :: s)
  = split_ref sep AfterQuotedValue (cur ++ escape v ++ [QUOTE]) s.
Proof.
  revert cur. induction v as [|c v IH]; intros cur.
  { cbn. done. }
  cbn [escape]. destruct ((c =? QUOTE) || (c =? BACKSLASH)) eqn:E.
  - cbn [app split_ref]. rewrite bool_decide_eq_true_2 by done.
    change (BACKSLASH =? BACKSLASH) with true. cbv iota. rewrite IH. by rewrite <-app_assoc.
  - apply orb_false_elim in E as [Eq Eb]. cbn [app split_ref]. rewrite bool_decide_eq_true_2 by done.
    rewrite Eq, Eb, IH. by rewrite <-app_assoc.
Qed.

Lemma split_ref_render sep p s : sep ≠ EQUALS → sep ≠ QUOTE → sep ∉ p.1 → EQUALS ∉ p.1 →
  split_ref sep BeforeValue [] (render p ++ s) = split_ref sep AfterQuotedValue (render p) s.
Proof.
  intros H1 H2 H3 H4. unfold render, quote. rewrite <-app_assoc, split_ref_name by done.
  cbn [app split_ref]. rewrite bool_decide_eq_false_2 by done.
  destruct (N.eqb_spec EQUALS sep); [congruence |]. cbn [next_state]. rewrite N.eqb_refl.
  rewrite bool_decide_eq_false_2 by done. destruct (N.eqb_spec QUOTE sep); [congruence |].
  change (next_state AtValueStart QUOTE) with QuotedValue. cbv iota.
  rewrite <-(app_assoc (escape p.2)). cbn [app]. rewrite split_ref_escape. f_equal. by rewrite <-!app_assoc.
Qed.

Lemma split_rendered sep ps : sep < 128 → sep ≠ EQUALS → sep ≠ QUOTE → ps ≠ [] →
  Forall (λ p, sep ∉ p.1 ∧ EQUALS ∉ p.1) ps →
  split_outside_quoted_strings (join sep (render <$> ps)) sep = Ret (render <$> ps).
Proof.
  intros Hsep He Hq Hne Hps. rewrite split_is_ref by done. f_equal.
  induction ps as [|p ps IH]; [done |]. apply Forall_cons in Hps as [[Hp1 Hp2] Hps].
  destruct ps as [|p' ps].
  - change (join sep (render <$> [p])) with (render p). rewrite <-(app_nil_r (render p)) at 1.
    by rewrite split_ref_render.
  - cbn [fmap list_fmap join]. rewrite split_ref_render by done. cbn [split_ref].
    rewrite bool_decide_eq_false_2, N.eqb_refl by done. f_equal. by apply IH.
Qed.

Lemma unquote_quote v : unquote_parameter_value (quote v) = v.
Proof. unfold quote, unquote_parameter_value. rewrite N.eqb_refl. by rewrite unquote_loop_escape. Qed.

(** Quoting carries any text through a parameter list. Parameters
    rendered as [name="value"], with quotes and backslashes of the value
    escaped, are split exactly at the separators between them whatever the
    values contain, separators, quotes and backslashes included; and
    unquoting gives every value back. *)
Theorem parameters_roundtrip (sep : char) (ps : list (list char * list char)) :
  sep < 128 → sep ≠ EQUALS → sep ≠ QUOTE → ps ≠ [] →
  Forall (λ p, sep ∉ p.1 ∧ EQUALS ∉ p.1) ps →
  split_outside_quoted_strings (join sep (render <$> ps)) sep = Ret (render <$> ps) ∧
  Forall (λ p, unquote_parameter_value (quote p.2) = p.2) ps.
Proof.
  intros Hsep He Hq Hne Hps. split; [by apply split_rendered |].
  apply Forall_forall. intros p _. apply unquote_quote.
Qed.

Lemma quoted_ref_escape v out s : quoted_ref out (escape v ++ QUOTE :: s) = (Some (out ++ v), skip_ws s).
Proof.
  revert out. induction v as [|c v IH]; intros out; simpl; [by rewrite app_nil_r |].
  destruct (N.eqb_spec c QUOTE) as [->|]; simpl; [by rewrite IH, <-app_assoc |].
  destruct (N.eqb_spec c BACKSLASH) as [->|]; simpl; [by rewrite IH, <-app_assoc |].
  destruct (N.eqb_spec c QUOTE); [done |]. destruct (N.eqb_spec c BACKSLASH); [done |].
  by rewrite IH, <-app_assoc.
Qed.

(** The tokenizer reads a quoted text back and stops after the white space
    that follows it. *)
Lemma consume_quoted_roundtrip s t v rest : reading s t (quote v ++ rest) →
  ∃ t', consume_quoted_string t = Ret (Some v, t') ∧ reading s t' (skip_ws rest).
Proof.
  intros Hr. destruct (consume_quoted_reading _ _ _ Hr) as (o & t' & E & Ho & Hr').
  unfold quote in *. cbn [app quoted_string_ref] in *. rewrite N.eqb_refl in *.
  rewrite <-app_assoc in *. cbn [app] in *. rewrite quoted_ref_escape in *. simpl in *.
  injection Ho as <-. eauto.
Qed.

(** ** fields.rs *)

(** Bytes and characters are both numbers here; [char::from] on a byte and
    the UTF-8 decoding of ASCII bytes keep the number. *)
Definition char_from (b : N) : char := b.
Definition is_ascii (value : list N) : bool := forallb (λ b, b <? 128) value.

Definition decode_header_value (value : list N) : list char :=
  if is_ascii value then value else char_from <$> value.

Definition headers_to_byte_strings (headers : list (list char * list N)) : list (list char * list char) :=
  (λ '(name, value), (name, decode_header_value value)) <$> headers.

(** [u8::try_from(u32::from(ch))], every failure being the same error. *)
Definition byte_of_char (c : char) : option N := if c <=? 255 then Some c else None.

Definition header_value_from_byte_string (value : list char) : option (list N) :=
  mapM byte_of_char value.

Definition headers_from_byte_strings (headers : list (list char * list char))
    : option (list (list char * list N)) :=
  mapM (λ '(name, value), bytes ← header_value_from_byte_string value; Some (name, bytes)) headers.

(** The untagged enum of [deserialize_headers]. *)
Inductive Value := Bytes (bytes : list N) | ByteString (value : list char).

Definition deserialize_headers (headers : list (list char * Value)) : option (list (list char * list N)) :=
  mapM (λ '(name, value),
          bytes ← match value with
                  | Bytes bytes => Some bytes
                  | ByteString value => header_value_from_byte_string value
                  end;
          Some (name, bytes)) headers.

Notation HeaderFields := (list (list char * list N)).

Definition from_utf8 (headers : list (list char * list char)) : HeaderFields :=
  (λ '(name, value), (name, utf8 value)) <$> headers.

Definition overlay (self headers : HeaderFields) : HeaderFields :=
  filter (λ f, negb (existsb (λ o, eq_ignore_ascii_case f.1 o.1) headers)) self ++ headers.

Definition from_bytes (headers : list (list char * list N)) : HeaderFields := headers.

Definition from_byte_strings (headers : list (list char * list char)) : option HeaderFields :=
  headers_from_byte_strings headers.

Definition to_byte_strings (self : HeaderFields) : list (list char * list char) :=
  headers_to_byte_strings self.

(** The values of a field, in order. *)
Definition field_values (name : list char) (h : HeaderFields) : list (list N) :=
  snd <$> filter (λ f, eq_ignore_ascii_case name f.1) h.

Lemma decode_header_value_id value : decode_header_value value = value.
Proof. unfold decode_header_value, char_from. destruct (is_ascii value); [done |]. apply list_fmap_id. Qed.

Lemma headers_to_byte_strings_id h : headers_to_byte_strings h = h.
Proof.
  unfold headers_to_byte_strings. induction h as [|[n v] h IH]; [done |]. rewrite fmap_cons, IH.
  by rewrite decode_header_value_id.
Qed.

Lemma byte_of_char_Some c b : byte_of_char c = Some b ↔ c = b ∧ b ≤ 255.
Proof. unfold byte_of_char. destruct (N.leb_spec c 255); naive_solver lia. Qed.

Lemma byte_string_bytes value bytes :
  header_value_from_byte_string value = Some bytes ↔ value = bytes ∧ Forall (λ b, b ≤ 255) bytes.
Proof.
  unfold header_value_from_byte_string. rewrite mapM_Some. split.
  - induction 1 as [|c b cs bs [-> Hb]%byte_of_char_Some _ [-> IH]]; [done |]. split; [done |]. by constructor.
  - intros [-> Hb]. induction Hb; constructor; [by apply byte_of_char_Some | done].
Qed.

(** The byte-string projection loses nothing. A list of byte strings
    reads back as the header list [h] exactly when it is the projection of
    [h]; it is refused exactly when it holds a character above 255. *)
Theorem byte_strings_roundtrip (headers : list (list char * list char)) (h : HeaderFields) :
  (from_byte_strings headers = Some h ↔
   to_byte_strings h = headers ∧ Forall (λ f, Forall (λ b, b ≤ 255) f.2) h) ∧
  (from_byte_strings headers = None ↔ Exists (λ f, Exists (λ c, 255 < c) f.2) headers).
Proof.
  assert (∀ hs g, from_byte_strings hs = Some g ↔
                  to_byte_strings g = hs ∧ Forall (λ f, Forall (λ b, b ≤ 255) f.2) g) as Hsome.
  { intros hs g. unfold from_byte_strings, headers_from_byte_strings. rewrite mapM_Some. split.
    - induction 1 as [|[n v] [n' b] hs' g' Hx _ [<- IH]]; [done |].
      apply bind_Some in Hx as (b' & [-> Hb]%byte_string_bytes & [= <- <-]). split; [| by constructor].
      simpl. by rewrite decode_header_value_id.
    - intros [<- Hb]. induction Hb as [|[n b] g' Hb _ IH]; constructor; [| done].
      simpl in *. rewrite decode_header_value_id. apply bind_Some. exists b.
      by rewrite byte_string_bytes. }
  split; [apply Hsome |]. rewrite eq_None_not_Some. split.
  - intros Hn. destruct (decide (Forall (λ f, Forall (λ b, b ≤ 255) f.2) headers)) as [Hall|Hall].
    + destruct Hn. exists headers. apply Hsome. split; [| done].
      apply headers_to_byte_strings_id.
    + apply not_Forall_Exists in Hall; [| apply _]. apply (Exists_impl _ _ _ Hall). intros f Hf.
      apply not_Forall_Exists in Hf; [| apply _]. apply (Exists_impl _ _ _ Hf). intros c Hc. simpl in *. lia.
  - intros (f & Hf & (c & Hc & Hlt)%Exists_exists)%Exists_exists [g [<- Hg]%Hsome].
    unfold to_byte_strings, headers_to_byte_strings in Hf. apply list_elem_of_fmap in Hf as ([n b] & -> & Hb).
    rewrite Forall_forall in Hg. specialize (Hg _ Hb). simpl in *. rewrite decode_header_value_id in Hc.
    rewrite Forall_forall in Hg. specialize (Hg _ Hc). simpl in Hg. lia.
Qed.

Lemma eq_ignore_ascii_case_trans a b c :
  eq_ignore_ascii_case a b = true → eq_ignore_ascii_case b c = true → eq_ignore_ascii_case a c = true.
Proof. rewrite !eq_ignore_ascii_case_spec. congruence. Qed.

Lemma eq_ignore_ascii_case_sym a b : eq_ignore_ascii_case a b = eq_ignore_ascii_case b a.
Proof. unfold eq_ignore_ascii_case. apply bool_decide_ext. naive_solver. Qed.

(** An overlay replaces field by field. For every name, compared
    without ASCII case, the values of the result are the replacement's, all
    of them and in order, if it has any, and otherwise the old ones
    untouched. *)
Theorem overlay_replaces (self headers : HeaderFields) (name : list char) :
  field_values name (overlay self headers)
  = match field_values name headers with [] => field_values name self | vs => vs end.
Proof.
  unfold field_values, overlay. rewrite filter_app, fmap_app, list_filter_filter.
  destruct (filter (λ f, eq_ignore_ascii_case name f.1) headers) as [|f fs] eqn:E; simpl.
  - rewrite app_nil_r. f_equal. apply list_filter_iff. intros [n v]. simpl.
    destruct (eq_ignore_ascii_case name n) eqn:En; [| naive_solver]. split; [by intros [] | intros _; split; [done |]].
    apply Is_true_true, negb_true_iff, not_true_is_false. intros (o & Ho & Hno)%existsb_exists.
    apply list_elem_of_In in Ho. assert (o ∈ @nil (list char * list N)) as []%not_elem_of_nil.
    rewrite <-E. apply list_elem_of_filter. split; [| done]. apply Is_true_true. simpl in *.
    by eapply eq_ignore_ascii_case_trans.
  - rewrite filter_none; [done |]. intros [n v] Hin [Hn Hk].
    assert (f ∈ filter (λ f, eq_ignore_ascii_case name f.1) headers) as [Hf Hfin]%list_elem_of_filter
      by (rewrite E; left).
    apply Is_true_true in Hn, Hk, Hf. simpl in *. apply negb_true_iff in Hk.
    assert (existsb (λ o, eq_ignore_ascii_case n o.1) headers = true) as Hex; [| congruence].
    apply existsb_exists. exists f. split; [by apply list_elem_of_In |].
    rewrite eq_ignore_ascii_case_sym in Hn. by eapply eq_ignore_ascii_case_trans.
Qed.

(** ** Witnesses *)

(** A quoted value with an escaped two-byte character and a separator. *)
Lemma split_by_characters_witness :
  ∃ segments, split_outside_quoted_strings [97; 61; 34; 92; 233; 59; 34; 59; 98] 59 = Ret segments ∧
              segments = [[97; 61; 34; 92; 233; 59; 34]; [98]].
Proof.
  destruct (split_by_characters [97; 61; 34; 92; 233; 59; 34; 59; 98] 59) as (segs & E & Hs & _).
  - vm_compute. reflexivity.
  - exists segs. split; [exact E |]. rewrite Hs. vm_compute. reflexivity.
Defined.

Lemma parameters_roundtrip_witness :
  split_outside_quoted_strings (join 59 (render <$> [([97], [59; 34; 92]); ([98], [])])) 59
  = Ret (render <$> [([97], [59; 34; 92]); ([98], [])]).
Proof.
  refine (proj1 (parameters_roundtrip 59 [([97], [59; 34; 92]); ([98], [])] _ _ _ _ _)).
  - reflexivity.
  - discriminate.
  - discriminate.
  - discriminate.
  - apply (bool_decide_unpack _). vm_compute. exact I.
Defined.
