(* ===== verification/WindowHistory.v ===== *)
(** * A window's history view (moli-history)

    [WindowHistory] holds shared references to history entries
    ([Rc<RefCell<HistoryEntry>>]), so the entries live in a store and the
    window keeps references into it: an entry changed through one reference
    changes under every other.  Serialized script values and scroll offsets
    are only stored, and are of abstract types. *)

From S2P Require Import Prelude Text.

#[local] Open Scope N_scope.

Section history.
Context {V Offset : Type}.

(** ** entry.rs *)
Inductive ScrollRestoration := Auto | Manual.

Definition as_str (r : ScrollRestoration) : text :=
  match r with Auto => lit "auto" | Manual => lit "manual" end.

Record HistoryEntry := mk_history_entry {
  url : text;
  inherited_origin : option text;
  entry_id : text;
  key : text;
  document : text;
  index : N;
  referrer_policy : option text;
  history_state : option V;
  navigation_state : option V;
  entry_scroll_restoration : ScrollRestoration;
  scroll_offset : option Offset
}.

(** References and the entries behind them. *)
Notation HistoryEntryRef := N (only parsing).
Definition Store := gmap N HistoryEntry.

(** [into_ref]: a reference no one holds yet. *)
Definition into_ref (st : Store) (e : HistoryEntry) : HistoryEntryRef * Store :=
  let r := fresh (dom st) in (r, <[r := e]> st).

Definition with_scroll_restoration (e : HistoryEntry) (v : ScrollRestoration) : HistoryEntry :=
  mk_history_entry (url e) (inherited_origin e) (entry_id e) (key e) (document e) (index e)
    (referrer_policy e) (history_state e) (navigation_state e) v (scroll_offset e).

Definition with_history_state (e : HistoryEntry) (v : option V) : HistoryEntry :=
  mk_history_entry (url e) (inherited_origin e) (entry_id e) (key e) (document e) (index e)
    (referrer_policy e) v (navigation_state e) (entry_scroll_restoration e) (scroll_offset e).

(** ** window.rs *)
Record WindowHistory := mk_window_history {
  entries : list HistoryEntryRef;
  current : N;
  revision : N
}.

Definition window_history_new (es : list HistoryEntryRef) (cur : N) : WindowHistory :=
  mk_window_history es cur 0.

Definition current_entry (w : WindowHistory) : option HistoryEntryRef :=
  entries w !! N.to_nat (current w).

Definition invalidate_state_cache (w : WindowHistory) : run WindowHistory :=
  r ← add64 (revision w) 1; Ret (mk_window_history (entries w) (current w) r).

Definition set_current_index (w : WindowHistory) (i : N) : run WindowHistory :=
  if current w =? i then Ret w
  else invalidate_state_cache (mk_window_history (entries w) i (revision w)).

(** [iter().position(|entry| Rc::ptr_eq(current, entry))] *)
Fixpoint ref_position (r : HistoryEntryRef) (l : list HistoryEntryRef) : option N :=
  match l with
  | [] => None
  | r' :: l => if r =? r' then Some 0 else N.succ <$> ref_position r l
  end.

(** [index as u32] *)
Definition as_u32 (n : N) : N := n mod (u32_max + 1).

Definition restore_entries (w : WindowHistory) (es : list HistoryEntryRef) : run WindowHistory :=
  match (r ← current_entry w; ref_position r es) with
  | Some i => Ret (mk_window_history es (as_u32 i) (revision w))
  | None => invalidate_state_cache (mk_window_history es (current w) (revision w))
  end.

Definition scroll_restoration (st : Store) (w : WindowHistory) : ScrollRestoration :=
  match current_entry w ≫= λ r, st !! r with
  | Some e => entry_scroll_restoration e
  | None => Auto
  end.

Definition push (st : Store) (w : WindowHistory) (r : HistoryEntryRef)
    : run (list HistoryEntryRef * Store * WindowHistory) :=
  let restoration := scroll_restoration st w in
  let st := alter (λ e, with_scroll_restoration e restoration) r st in
  let next := N.min (current w + 1) (N.of_nat (length (entries w))) in
  let removed := drop (N.to_nat next) (entries w) in
  w ← invalidate_state_cache
        (mk_window_history (take (N.to_nat next) (entries w) ++ [r]) (as_u32 next) (revision w));
  Ret (removed, st, w).

Definition replace (st : Store) (w : WindowHistory) (r : HistoryEntryRef)
    : run (option HistoryEntryRef * Store * WindowHistory) :=
  let restoration := scroll_restoration st w in
  let st := alter (λ e, with_scroll_restoration e restoration) r st in
  match current_entry w with
  | None => Ret (None, st, w)
  | Some previous =>
      w ← invalidate_state_cache
            (mk_window_history (<[N.to_nat (current w) := r]> (entries w)) (current w) (revision w));
      Ret (Some previous, st, w)
  end.

Definition state (st : Store) (w : WindowHistory) : option V :=
  r ← current_entry w; e ← st !! r; history_state e.

Definition set_state (st : Store) (w : WindowHistory) (v : option V) : run (Store * WindowHistory) :=
  let st := match current_entry w with
            | Some r => alter (λ e, with_history_state e v) r st
            | None => st
            end in
  w ← invalidate_state_cache w;
  Ret (st, w).

Definition set_scroll_restoration (st : Store) (w : WindowHistory) (v : ScrollRestoration) : Store :=
  match current_entry w with
  | Some r => alter (λ e, with_scroll_restoration e v) r st
  | None => st
  end.

(** ** Calls *)
Inductive history_op :=
| HSetCurrent (i : N)
| HRestore (es : list HistoryEntryRef)
| HPush (r : HistoryEntryRef)
| HReplace (r : HistoryEntryRef)
| HSetState (v : option V)
| HSetScroll (v : ScrollRestoration).

Definition history_exec (st : Store) (w : WindowHistory) (op : history_op) : run (Store * WindowHistory) :=
  match op with
  | HSetCurrent i => w ← set_current_index w i; Ret (st, w)
  | HRestore es => w ← restore_entries w es; Ret (st, w)
  | HPush r => '(_, st, w) ← push st w r; Ret (st, w)
  | HReplace r => '(_, st, w) ← replace st w r; Ret (st, w)
  | HSetState v => set_state st w v
  | HSetScroll v => Ret (set_scroll_restoration st w v, w)
  end.

Fixpoint history_exec_all (st : Store) (w : WindowHistory) (ops : list history_op)
    : run (Store * WindowHistory) :=
  match ops with
  | [] => Ret (st, w)
  | op :: ops => '(st, w) ← history_exec st w op; history_exec_all st w ops
  end.

(** ** Lemmas *)
Lemma ref_position_lookup r l i : ref_position r l = Some i → l !! N.to_nat i = Some r.
Proof.
  revert i. induction l as [|r' l IH]; intros i; simpl; [done |].
  destruct (N.eqb_spec r r') as [->|]; [by intros [= <-] |].
  destruct (ref_position r l) as [j|]; simpl; [| done]. intros [= <-].
  rewrite N2Nat.inj_succ. simpl. by apply IH.
Qed.

Lemma as_u32_small n : n ≤ u32_max → as_u32 n = n.
Proof. intros. unfold as_u32. apply N.mod_small. unfold u32_max in *. lia. Qed.

Lemma invalidate_bumps w w' :
  invalidate_state_cache w = Ret w' →
  revision w' = revision w + 1 ∧ entries w' = entries w ∧ current w' = current w.
Proof. unfold invalidate_state_cache. intros H. inv_run. apply add64_Ret in E as [-> _]. done. Qed.

(** A call that invalidates the cache moves the revision on. *)
Ltac bumped :=
  match goal with H : invalidate_state_cache _ = Ret _ |- _ =>
    apply invalidate_bumps in H as (Hr & _); simpl in Hr; split; lia
  end.

(** A change of scroll restoration leaves every entry's state alone. *)
Lemma state_alter_scroll st w r v :
  state (alter (λ e, with_scroll_restoration e v) r st) w = state st w.
Proof.
  unfold state, Store in *. destruct (current_entry w) as [q|]; cbn [mbind option_bind]; [| done].
  destruct (decide (r = q)) as [->|]; [rewrite lookup_alter_eq | by rewrite lookup_alter_ne].
  by destruct (st !! q).
Qed.

(** The list of references fits the 32-bit index. *)
Definition small_ops (ops : list history_op) : Prop :=
  Forall (λ op, match op with HRestore es => N.of_nat (length es) ≤ u32_max | _ => True end) ops.

Lemma history_exec_revision st w op st' w' :
  history_exec st w op = Ret (st', w') → small_ops [op] →
  revision w ≤ revision w' ∧
  (revision w' = revision w → current_entry w' = current_entry w ∧ state st' w' = state st w).
Proof.
  intros E Hsm. destruct op as [i|es|r|r|v|v]; cbn [history_exec] in E.
  - inv_run. unfold set_current_index in E0. destruct (N.eqb_spec (current w) i); [by inv_run |].
    bumped.
  - inv_run. unfold restore_entries in E0. destruct (current_entry w) as [q|] eqn:Ec; simpl in E0.
    + destruct (ref_position q es) as [i|] eqn:Ep.
      * inv_run. split; [done |]. intros _.
        apply Forall_cons in Hsm as [Hsm _]. apply ref_position_lookup in Ep.
        pose proof (lookup_lt_Some _ _ _ Ep).
        assert (Hc : current_entry (mk_window_history es (as_u32 i) (revision w)) = Some q).
        { unfold current_entry. simpl. rewrite as_u32_small; [done | lia]. }
        split; [done |]. unfold state. by rewrite Hc, Ec.
      * bumped.
    + bumped.
  - unfold push in E. repeat (inv_run; try match goal with x : _ * _ |- _ => destruct x end).
    bumped.
  - unfold replace in E. destruct (current_entry w) as [q|] eqn:Ec; repeat (inv_run; try match goal with x : _ * _ |- _ => destruct x end).
    + bumped.
    + split; [done |]. intros _. split; [done |]. apply state_alter_scroll.
  - unfold set_state in E. inv_run. bumped.
  - injection E as <- <-. split; [done |]. intros _. split; [done |]. unfold set_scroll_restoration.
    destruct (current_entry w); [apply state_alter_scroll | done].
Qed.

(** The revision guards the binding's state cache. Over any sequence of
    calls on the window the revision never goes back, and whenever it is the
    same before and after, the current entry is the same reference and
    [state] has the same value, although the entries are shared and [push],
    [replace] and the scroll setter write to them. *)
Theorem revision_guards_state (ops : list history_op) (st st' : Store) (w w' : WindowHistory) :
  history_exec_all st w ops = Ret (st', w') → small_ops ops →
  revision w ≤ revision w' ∧
  (revision w' = revision w → current_entry w' = current_entry w ∧ state st' w' = state st w).
Proof.
  revert st w. induction ops as [|op ops IH]; intros st w E Hsm; simpl in E.
  { inv_run. done. }
  apply Forall_cons in Hsm as [Hop Hsm]. inv_run. destruct r as [st1 w1].
  destruct (history_exec_revision _ _ _ _ _ E0) as [Hle1 Heq1]; [by constructor |].
  destruct (IH _ _ E Hsm) as [Hle2 Heq2]. split; [lia |]. intros Hr.
  destruct Heq2 as [-> ->]; [lia |]. apply Heq1. lia.
Qed.
End history.

(** ** Witness *)
Definition demo_entry (s : option N) : @HistoryEntry N N :=
  mk_history_entry (lit "https://a/") None (lit "id") (lit "k") (lit "d") 0 None s None Manual None.

Definition demo_store : @Store N N := <[1 := demo_entry (Some 5)]> (<[2 := demo_entry None]> ∅).

Lemma revision_guards_state_witness :
  ∃ st' w', history_exec_all demo_store (window_history_new [2; 1] 1) [HSetScroll Auto; HRestore [1]; HSetCurrent 0]
            = Ret (st', w') ∧ revision w' = 0 ∧ state st' w' = Some 5.
Proof.
  eexists _, _. split; [vm_compute; reflexivity |]. split; [reflexivity |].
  edestruct (revision_guards_state [HSetScroll Auto; HRestore [1]; HSetCurrent 0] demo_store)
    with (w := window_history_new [2; 1] 1) as [_ Heq].
  - vm_compute. reflexivity.
  - repeat constructor; vm_compute; discriminate.
  - destruct (Heq eq_refl) as [_ ->]. reflexivity.
Defined.
