(* ===== verification/SharedWorker.v ===== *)
(** * SharedWorker registry (moli-shared-worker/src)

    Slots for shared workers, keyed by storage key, script, name and cookie
    mode; every client connection is a record of the slot's client list and
    an entry of the reverse map.  Calls are atomic under the registry lock.
    The hash maps are finite maps: where the code takes the first match of an
    iteration, the instance id it looks for is unique, so the order is of no
    consequence. *)

From S2P Require Import Prelude Text StorageKey.
#[local] Open Scope N_scope.

(** ** options.rs *)
Inductive SharedWorkerScriptType := Classic | Module_.
Inductive SharedWorkerCredentialsMode := Omit | SameOrigin | Include_.
Inductive SharedWorkerCreationContextType := Secure | Nonsecure.
Inductive SharedWorkerSameSiteCookies := CookiesAll | CookiesNone.

#[global] Instance script_type_eq_dec : EqDecision SharedWorkerScriptType.
Proof. solve_decision. Defined.
#[global] Instance credentials_eq_dec : EqDecision SharedWorkerCredentialsMode.
Proof. solve_decision. Defined.
#[global] Instance context_type_eq_dec : EqDecision SharedWorkerCreationContextType.
Proof. solve_decision. Defined.
#[global] Instance cookies_eq_dec : EqDecision SharedWorkerSameSiteCookies.
Proof. solve_decision. Defined.

Definition default_for_storage_key (k : MoliStorageKey) : SharedWorkerSameSiteCookies :=
  if is_third_party_partitioned k then CookiesNone else CookiesAll.

Definition is_allowed_for_storage_key (c : SharedWorkerSameSiteCookies) (k : MoliStorageKey) : bool :=
  match c with CookiesAll => false | CookiesNone => true end || negb (is_third_party_partitioned k).

Record SharedWorkerDescriptor := mk_descriptor {
  script_type : SharedWorkerScriptType;
  credentials_mode : SharedWorkerCredentialsMode;
  extended_lifetime : bool;
  creation_context_type : SharedWorkerCreationContextType
}.

Definition descriptor_default : SharedWorkerDescriptor :=
  mk_descriptor Classic SameOrigin false Secure.

Inductive SharedWorkerCompatibilityError :=
| ScriptTypeError (existing requested : SharedWorkerScriptType)
| CredentialsModeError (existing requested : SharedWorkerCredentialsMode)
| ExtendedLifetimeError (existing requested : bool)
| CreationContextTypeError (existing requested : SharedWorkerCreationContextType).

(** [Ok(())] is [inl tt]. *)
Definition ensure_compatible_with (self requested : SharedWorkerDescriptor)
    : unit + SharedWorkerCompatibilityError :=
  if decide (script_type self ≠ script_type requested)
  then inr (ScriptTypeError (script_type self) (script_type requested))
  else if decide (credentials_mode self ≠ credentials_mode requested)
  then inr (CredentialsModeError (credentials_mode self) (credentials_mode requested))
  else if decide (extended_lifetime self ≠ extended_lifetime requested)
  then inr (ExtendedLifetimeError (extended_lifetime self) (extended_lifetime requested))
  else if decide (creation_context_type self ≠ creation_context_type requested)
  then inr (CreationContextTypeError (creation_context_type self) (creation_context_type requested))
  else inl tt.

(** ** key.rs and client.rs *)
Record SharedWorkerKey := mk_worker_key {
  worker_storage_key : MoliStorageKey;
  script_url : text;
  worker_name : text;
  same_site_cookies : SharedWorkerSameSiteCookies
}.

#[global] Instance relation_countable : Countable StoragePartitionRelation.
Proof.
  refine (inj_countable' (λ r, match r with FirstParty => 0 | ThirdParty => 1 | Unknown => 2 end)
    (λ n, match n with 0 => FirstParty | 1 => ThirdParty | _ => Unknown end) _).
  by intros [].
Defined.
#[global] Instance storage_key_countable : Countable MoliStorageKey.
Proof.
  refine (inj_countable'
    (λ k, (origin k, site_serialized (top_level_site k), opaque_nonce k, partition_relation k, cross_site_ancestor k))
    (λ '(o, s, n, r, c), mk_key o (mk_site s) n r c) _).
  by intros [? [] ? ? ?].
Defined.
#[global] Instance worker_key_eq_dec : EqDecision SharedWorkerKey.
Proof. solve_decision. Defined.
#[global] Instance worker_key_countable : Countable SharedWorkerKey.
Proof.
  refine (inj_countable'
    (λ k, (worker_storage_key k, script_url k, worker_name k, bool_decide (same_site_cookies k = CookiesAll)))
    (λ '(s, u, n, c), mk_worker_key s u n (if c : bool then CookiesAll else CookiesNone)) _).
  by intros [? ? ? []].
Defined.

(** [SharedWorkerClientOwnerId::unique_for_client] *)
Definition unique_for_client (client_id : N) : N := client_id.

(** ** registry.rs *)
Record SharedWorkerClientRecord := mk_client { client_id : N; owner_id : N }.

Inductive SharedWorkerClientOwnerEvent :=
| FirstClientAdded (instance_id owner_id : N)
| LastClientRemoved (instance_id owner_id : N).

Section registry.
Context {I : Type}.

Inductive SharedWorkerEntryState := Loading | Running (instance : I).

Record SharedWorkerEntry := mk_entry {
  instance_id : N;
  descriptor : SharedWorkerDescriptor;
  clients : list SharedWorkerClientRecord;
  entry_state : SharedWorkerEntryState
}.

Definition set_clients (e : SharedWorkerEntry) (l : list SharedWorkerClientRecord) : SharedWorkerEntry :=
  mk_entry (instance_id e) (descriptor e) l (entry_state e).

Definition add_client (e : SharedWorkerEntry) (c : SharedWorkerClientRecord) : SharedWorkerEntry :=
  set_clients e (clients e ++ [c]).

(** The remaining entry, and whether it has no client left. *)
Definition entry_remove_client (e : SharedWorkerEntry) (id : N) : SharedWorkerEntry * bool :=
  let l := filter (λ c, client_id c ≠ id) (clients e) in
  (set_clients e l, match l with [] => true | _ => false end).

Definition client_owner_id (e : SharedWorkerEntry) (id : N) : option N :=
  owner_id <$> head (filter (λ c, client_id c = id) (clients e)).

Definition client_ids (e : SharedWorkerEntry) : list N := client_id <$> clients e.

Definition client_owner_ids (e : SharedWorkerEntry) : list N :=
  foldl (λ owners c, if decide (owner_id c ∈ owners) then owners else owners ++ [owner_id c])
    [] (clients e).

Definition entry_client_count_for_owner (e : SharedWorkerEntry) (o : N) : nat :=
  length (filter (λ c, owner_id c = o) (clients e)).

Record SharedWorkerRegistryState := mk_registry {
  next_client_id : N;
  next_instance_id : N;
  entries : gmap SharedWorkerKey SharedWorkerEntry;
  client_keys : gmap N SharedWorkerKey
}.

Definition registry_default : SharedWorkerRegistryState := mk_registry 0 0 ∅ ∅.

Definition set_entries (s : SharedWorkerRegistryState) (m : gmap SharedWorkerKey SharedWorkerEntry)
    : SharedWorkerRegistryState :=
  mk_registry (next_client_id s) (next_instance_id s) m (client_keys s).

Definition set_client_keys (s : SharedWorkerRegistryState) (m : gmap N SharedWorkerKey)
    : SharedWorkerRegistryState :=
  mk_registry (next_client_id s) (next_instance_id s) (entries s) m.

Definition allocate_client_id (s : SharedWorkerRegistryState) : run (N * SharedWorkerRegistryState) :=
  n ← add64 (next_client_id s) 1;
  Ret (n, mk_registry n (next_instance_id s) (entries s) (client_keys s)).

Definition allocate_instance_id (s : SharedWorkerRegistryState) : run (N * SharedWorkerRegistryState) :=
  n ← add64 (next_instance_id s) 1;
  Ret (n, mk_registry (next_client_id s) n (entries s) (client_keys s)).

Definition last_client_removed_event (i : N) (o : option N) (emit : bool)
    : list SharedWorkerClientOwnerEvent :=
  match o, emit with
  | Some o, true => [LastClientRemoved i o]
  | _, _ => []
  end.

Definition last_client_removed_events (i : N) (e : SharedWorkerEntry)
    : list SharedWorkerClientOwnerEvent := LastClientRemoved i <$> client_owner_ids e.

Inductive SharedWorkerConnectAction :=
| StartLoading (instance_id client_id : N)
| QueueWhileLoading (instance_id client_id : N)
| ConnectToRunning (instance_id client_id : N) (instance : I)
| RejectClient (client_id : N) (error : SharedWorkerCompatibilityError).

Inductive SharedWorkerLoadReady :=
| ReadyRunning (instance_id : N) (clients : list N) (instance : I)
| ReadyStale.

Inductive SharedWorkerLoadFailure :=
| Failed (instance_id : N) (clients : list N)
| FailureStale.

Inductive SharedWorkerClientRemoval :=
| RemovedFromLoading (instance_id : N)
| RemovedFromRunning (instance_id : N) (instance : I)
| CancelLoading (instance_id : N) (key : SharedWorkerKey)
| Terminate (instance_id : N) (key : SharedWorkerKey) (instance : I)
| ClientMissing.

Inductive SharedWorkerInstanceRemoval :=
| Removed (key : SharedWorkerKey) (instance_id : N) (clients : list N) (instance : option I)
| InstanceMissing.

(** [SharedWorkerObservedAction] and the state after the call. *)
Record observed (A : Type) := mk_observed {
  action : A;
  owner_events : list SharedWorkerClientOwnerEvent;
  after : SharedWorkerRegistryState
}.
Arguments mk_observed {A} _ _ _.
Arguments action {A} _.
Arguments owner_events {A} _.
Arguments after {A} _.

Definition connect_locked (s : SharedWorkerRegistryState) (k : SharedWorkerKey)
    (d : SharedWorkerDescriptor) (cid oid : N) : run (observed SharedWorkerConnectAction) :=
  '(iid, s) ← allocate_instance_id s;
  let client := mk_client cid oid in
  match entries s !! k with
  | Some entry =>
      match ensure_compatible_with (descriptor entry) d with
      | inr error => Ret (mk_observed (RejectClient cid error) [] s)
      | inl _ =>
          let iid := instance_id entry in
          let first := bool_decide (entry_client_count_for_owner entry oid = 0%nat) in
          let s := set_entries s (<[k := add_client entry client]> (entries s)) in
          let action := match entry_state entry with
                        | Loading => QueueWhileLoading iid cid
                        | Running instance => ConnectToRunning iid cid instance
                        end in
          let s := set_client_keys s (<[cid := k]> (client_keys s)) in
          Ret (mk_observed action (if first then [FirstClientAdded iid oid] else []) s)
      end
  | None =>
      let s := set_client_keys s (<[cid := k]> (client_keys s)) in
      let s := set_entries s (<[k := mk_entry iid d [client] Loading]> (entries s)) in
      Ret (mk_observed (StartLoading iid cid) [FirstClientAdded iid oid] s)
  end.

Definition connect_observed (s : SharedWorkerRegistryState) (k : SharedWorkerKey)
    (d : SharedWorkerDescriptor) : run (observed SharedWorkerConnectAction) :=
  '(cid, s) ← allocate_client_id s; connect_locked s k d cid (unique_for_client cid).

Definition connect_with_owner_observed (s : SharedWorkerRegistryState) (k : SharedWorkerKey)
    (d : SharedWorkerDescriptor) (oid : N) : run (observed SharedWorkerConnectAction) :=
  '(cid, s) ← allocate_client_id s; connect_locked s k d cid oid.

(** A slot that is still waiting for its script. *)
Definition is_loading (st : SharedWorkerEntryState) : bool :=
  match st with Loading => true | Running _ => false end.

Definition finish_loading (s : SharedWorkerRegistryState) (k : SharedWorkerKey) (iid : N) (instance : I)
    : SharedWorkerLoadReady * SharedWorkerRegistryState :=
  match entries s !! k with
  | None => (ReadyStale, s)
  | Some entry =>
      if negb (instance_id entry =? iid) then (ReadyStale, s)
      else if negb (is_loading (entry_state entry)) || match clients entry with [] => true | _ => false end
      then (ReadyStale, s)
      else (ReadyRunning iid (client_ids entry) instance,
            set_entries s (<[k := mk_entry (instance_id entry) (descriptor entry) (clients entry)
                                    (Running instance)]> (entries s)))
  end.

Definition forget_clients (ids : list N) (m : gmap N SharedWorkerKey) : gmap N SharedWorkerKey :=
  foldl (λ m c, delete c m) m ids.

Definition fail_loading_observed (s : SharedWorkerRegistryState) (k : SharedWorkerKey) (iid : N)
    : run (observed SharedWorkerLoadFailure) :=
  match entries s !! k with
  | None => Ret (mk_observed FailureStale [] s)
  | Some entry =>
      if negb (instance_id entry =? iid) || negb (is_loading (entry_state entry))
      then Ret (mk_observed FailureStale [] s)
      else
        entry ← expect (entries s !! k);
        let s := set_entries s (delete k (entries s)) in
        let ids := client_ids entry in
        Ret (mk_observed (Failed iid ids) (last_client_removed_events iid entry)
               (set_client_keys s (forget_clients ids (client_keys s))))
  end.

Definition remove_client_observed (s : SharedWorkerRegistryState) (cid : N)
    : run (observed SharedWorkerClientRemoval) :=
  match client_keys s !! cid with
  | None => Ret (mk_observed ClientMissing [] s)
  | Some k =>
      let s := set_client_keys s (delete cid (client_keys s)) in
      match entries s !! k with
      | None => Ret (mk_observed ClientMissing [] s)
      | Some entry =>
          let iid := instance_id entry in
          let oid := client_owner_id entry cid in
          let last := match oid with
                      | Some o => bool_decide (entry_client_count_for_owner entry o = 1%nat)
                      | None => false
                      end in
          let '(entry', empty) := entry_remove_client entry cid in
          let s := set_entries s (<[k := entry']> (entries s)) in
          if negb empty then
            Ret (mk_observed (match entry_state entry' with
                              | Loading => RemovedFromLoading iid
                              | Running instance => RemovedFromRunning iid instance
                              end) (last_client_removed_event iid oid last) s)
          else
            entry ← expect (entries s !! k);
            Ret (mk_observed (match entry_state entry with
                              | Loading => CancelLoading iid k
                              | Running instance => Terminate iid k instance
                              end) (last_client_removed_event iid oid last)
                   (set_entries s (delete k (entries s))))
      end
  end.

(** [entries.iter().find(...)] by instance id *)
Definition find_instance (s : SharedWorkerRegistryState) (iid : N)
    : option (SharedWorkerKey * SharedWorkerEntry) :=
  head (filter (λ ke, instance_id ke.2 = iid) (map_to_list (entries s))).

Definition clients_for_instance (s : SharedWorkerRegistryState) (iid : N) : list N :=
  match find_instance s iid with Some (_, e) => client_ids e | None => [] end.

Definition loading_clients_for_instance (s : SharedWorkerRegistryState) (iid : N) : list N :=
  match head (filter (λ ke, instance_id ke.2 = iid ∧ is_loading (entry_state ke.2) = true)
                (map_to_list (entries s))) with
  | Some (_, e) => client_ids e
  | None => []
  end.

Definition client_owner_ids_for_instance (s : SharedWorkerRegistryState) (iid : N) : list N :=
  match find_instance s iid with Some (_, e) => client_owner_ids e | None => [] end.

Definition client_count_for_owner (s : SharedWorkerRegistryState) (iid oid : N) : nat :=
  match find_instance s iid with Some (_, e) => entry_client_count_for_owner e oid | None => 0 end.

Definition running_state (st : SharedWorkerEntryState) : option I :=
  match st with Loading => None | Running instance => Some instance end.

Definition running_instance (s : SharedWorkerRegistryState) (iid : N) : option I :=
  match find_instance s iid with Some (_, e) => running_state (entry_state e) | None => None end.

Definition remove_instance_observed (s : SharedWorkerRegistryState) (iid : N)
    : run (observed SharedWorkerInstanceRemoval) :=
  match fst <$> find_instance s iid with
  | None => Ret (mk_observed InstanceMissing [] s)
  | Some k =>
      entry ← expect (entries s !! k);
      let s := set_entries s (delete k (entries s)) in
      let ids := client_ids entry in
      Ret (mk_observed (Removed k iid ids (running_state (entry_state entry)))
             (last_client_removed_events iid entry)
             (set_client_keys s (forget_clients ids (client_keys s))))
  end.

Definition remove_all_instances_observed (s : SharedWorkerRegistryState)
    : list (SharedWorkerInstanceRemoval * list SharedWorkerClientOwnerEvent) * SharedWorkerRegistryState :=
  ((λ '(k, e), (Removed k (instance_id e) (client_ids e) (running_state (entry_state e)),
                last_client_removed_events (instance_id e) e)) <$> map_to_list (entries s),
   set_client_keys (set_entries s ∅) ∅).

(** The calls without events. *)
Definition unobserved {A} (o : observed A) : A * SharedWorkerRegistryState := (action o, after o).

Definition connect (s : SharedWorkerRegistryState) (k : SharedWorkerKey) (d : SharedWorkerDescriptor)
    : run (SharedWorkerConnectAction * SharedWorkerRegistryState) :=
  unobserved <$> connect_observed s k d.

Definition connect_with_owner (s : SharedWorkerRegistryState) (k : SharedWorkerKey)
    (d : SharedWorkerDescriptor) (oid : N) : run (SharedWorkerConnectAction * SharedWorkerRegistryState) :=
  unobserved <$> connect_with_owner_observed s k d oid.

Definition fail_loading (s : SharedWorkerRegistryState) (k : SharedWorkerKey) (iid : N)
    : run (SharedWorkerLoadFailure * SharedWorkerRegistryState) :=
  unobserved <$> fail_loading_observed s k iid.

Definition remove_client (s : SharedWorkerRegistryState) (cid : N)
    : run (SharedWorkerClientRemoval * SharedWorkerRegistryState) :=
  unobserved <$> remove_client_observed s cid.

Definition remove_instance (s : SharedWorkerRegistryState) (iid : N)
    : run (SharedWorkerInstanceRemoval * SharedWorkerRegistryState) :=
  unobserved <$> remove_instance_observed s iid.

Definition remove_all_instances (s : SharedWorkerRegistryState)
    : list SharedWorkerInstanceRemoval * SharedWorkerRegistryState :=
  let '(l, s) := remove_all_instances_observed s in (fst <$> l, s).

Definition registry_is_empty (s : SharedWorkerRegistryState) : bool := bool_decide (entries s = ∅).

Record SharedWorkerRegistryDiagnostics := mk_diagnostics {
  entry_count : nat;
  loading_instance_count : nat;
  running_instance_count : nat;
  client_count : nat
}.

Definition diagnostics (s : SharedWorkerRegistryState) : SharedWorkerRegistryDiagnostics :=
  foldl (λ d '(_, e),
           mk_diagnostics (entry_count d)
             (loading_instance_count d + (if is_loading (entry_state e) then 1 else 0))
             (running_instance_count d + (if is_loading (entry_state e) then 0 else 1))
             (client_count d + length (clients e)))
    (mk_diagnostics (size (entries s)) 0 0 0) (map_to_list (entries s)).

(** ** Calls *)
Inductive registry_call :=
| Connect (k : SharedWorkerKey) (d : SharedWorkerDescriptor)
| ConnectWithOwner (k : SharedWorkerKey) (d : SharedWorkerDescriptor) (oid : N)
| FinishLoading (k : SharedWorkerKey) (iid : N) (instance : I)
| FailLoading (k : SharedWorkerKey) (iid : N)
| RemoveClient (cid : N)
| RemoveInstance (iid : N)
| RemoveAll.

Definition effects {A} (o : observed A) : list SharedWorkerClientOwnerEvent * SharedWorkerRegistryState :=
  (owner_events o, after o).

Definition registry_exec (s : SharedWorkerRegistryState) (c : registry_call)
    : run (list SharedWorkerClientOwnerEvent * SharedWorkerRegistryState) :=
  match c with
  | Connect k d => effects <$> connect_observed s k d
  | ConnectWithOwner k d oid => effects <$> connect_with_owner_observed s k d oid
  | FinishLoading k iid instance => Ret ([], (finish_loading s k iid instance).2)
  | FailLoading k iid => effects <$> fail_loading_observed s k iid
  | RemoveClient cid => effects <$> remove_client_observed s cid
  | RemoveInstance iid => effects <$> remove_instance_observed s iid
  | RemoveAll => let '(l, s) := remove_all_instances_observed s in Ret (l ≫= snd, s)
  end.

Fixpoint registry_run (s : SharedWorkerRegistryState) (cs : list registry_call)
    : run (list SharedWorkerClientOwnerEvent * SharedWorkerRegistryState) :=
  match cs with
  | [] => Ret ([], s)
  | c :: cs => '(es, s) ← registry_exec s c; '(es', s) ← registry_run s cs; Ret (es ++ es', s)
  end.

(** ** Invariant *)
Record registry_wf (s : SharedWorkerRegistryState) : Prop := {
  wf_clients : ∀ k e, entries s !! k = Some e → clients e ≠ [] ∧ NoDup (client_ids e);
  wf_keys : ∀ c k, client_keys s !! c = Some k ↔ ∃ e, entries s !! k = Some e ∧ c ∈ client_ids e;
  wf_client_bound : ∀ c k, client_keys s !! c = Some k → c ≤ next_client_id s;
  wf_instance_bound : ∀ k e, entries s !! k = Some e → instance_id e ≤ next_instance_id s;
  wf_unique : ∀ k1 e1 k2 e2, entries s !! k1 = Some e1 → entries s !! k2 = Some e2 →
                instance_id e1 = instance_id e2 → k1 = k2
}.

(** What an entry contributes to the invariant, whatever its state. *)
Lemma wf_update s k e e' :
  registry_wf s → entries s !! k = Some e → instance_id e' = instance_id e → clients e' = clients e →
  registry_wf (set_entries s (<[k := e']> (entries s))).
Proof.
  intros Hwf Hk Hi Hc. assert (client_ids e' = client_ids e) as Hids by (unfold client_ids; by rewrite Hc).
  split; simpl.
  - intros k' x. rewrite lookup_insert. case_decide; [intros [= <-] | by apply (wf_clients _ Hwf)].
    rewrite Hc, Hids. by eapply wf_clients.
  - intros c k'. rewrite (wf_keys _ Hwf). rewrite lookup_insert. case_decide; [subst k' | done].
    rewrite Hk. naive_solver congruence.
  - apply (wf_client_bound _ Hwf).
  - intros k' x. rewrite lookup_insert. case_decide; [intros [= <-] | by apply (wf_instance_bound _ Hwf)].
    rewrite Hi. by eapply wf_instance_bound.
  - intros k1 e1 k2 e2. rewrite !lookup_insert.
    repeat case_decide; intros; simplify_eq; try done; eapply (wf_unique _ Hwf); eauto; congruence.
Qed.

Lemma wf_counters s n m : registry_wf s → next_client_id s ≤ n → next_instance_id s ≤ m →
  registry_wf (mk_registry n m (entries s) (client_keys s)).
Proof.
  intros Hwf Hn Hm. split; simpl; [apply Hwf | apply Hwf | | | apply Hwf].
  - intros c k Hc. apply (wf_client_bound _ Hwf) in Hc. lia.
  - intros k e Hk. apply (wf_instance_bound _ Hwf) in Hk. lia.
Qed.

Lemma wf_allocate_client s n s' : registry_wf s → allocate_client_id s = Ret (n, s') →
  registry_wf s' ∧ entries s' = entries s ∧ client_keys s' = client_keys s ∧ n = next_client_id s' ∧
  client_keys s' !! n = None ∧ next_instance_id s' = next_instance_id s ∧ n = next_client_id s + 1.
Proof.
  intros Hwf E. unfold allocate_client_id in E. inv_run. apply add64_Ret in E0 as [-> _].
  split_and!; simpl; try done; [apply wf_counters; [done | lia..] |].
  apply eq_None_not_Some. intros [k Hk%(wf_client_bound _ Hwf)]. lia.
Qed.

Lemma wf_allocate_instance s n s' : registry_wf s → allocate_instance_id s = Ret (n, s') →
  registry_wf s' ∧ entries s' = entries s ∧ client_keys s' = client_keys s ∧ n = next_instance_id s' ∧
  (∀ k e, entries s' !! k = Some e → instance_id e < n) ∧ next_client_id s' = next_client_id s.
Proof.
  intros Hwf E. unfold allocate_instance_id in E. inv_run. apply add64_Ret in E0 as [-> _].
  split_and!; simpl; try done; [apply wf_counters; [done | lia..] |].
  intros k e Hk. apply (wf_instance_bound _ Hwf) in Hk. lia.
Qed.

Lemma client_ids_add e c : client_ids (add_client e c) = client_ids e ++ [client_id c].
Proof. unfold client_ids, add_client. simpl. by rewrite fmap_app. Qed.

(** A new client joins an existing slot. *)
Lemma wf_join s k e c : registry_wf s → entries s !! k = Some e → client_keys s !! client_id c = None →
  client_id c ≤ next_client_id s →
  registry_wf (set_client_keys (set_entries s (<[k := add_client e c]> (entries s)))
                 (<[client_id c := k]> (client_keys s))).
Proof.
  intros Hwf Hk Hnew Hle. assert (client_id c ∉ client_ids e) as Hfresh.
  { intros Hin. assert (client_keys s !! client_id c = Some k) by (apply (wf_keys _ Hwf); eauto). congruence. }
  split; simpl.
  - intros k' x. rewrite lookup_insert. case_decide; [intros [= <-] | by apply (wf_clients _ Hwf)].
    split; [simpl; by destruct (clients e) |]. rewrite client_ids_add. apply NoDup_app. split; [by eapply wf_clients |].
    split; [set_solver | apply NoDup_singleton].
  - intros c' k'. rewrite !lookup_insert. repeat case_decide; subst; rewrite ?(wf_keys _ Hwf).
    + split; [| done]. intros _. eexists. split; [done |]. rewrite client_ids_add. set_solver.
    + split; [by intros [= ->] |]. intros (e' & He' & Hin).
      assert (client_keys s !! client_id c = Some k') by (apply (wf_keys _ Hwf); eauto). congruence.
    + rewrite Hk. split; intros (e' & [= <-] & Hin); eexists; (split; [done |]); rewrite ?client_ids_add in *; set_solver.
    + done.
  - intros c' k'. rewrite lookup_insert. case_decide; [by subst | apply (wf_client_bound _ Hwf)].
  - intros k' x. rewrite lookup_insert. case_decide; [intros [= <-] | by apply (wf_instance_bound _ Hwf)].
    by eapply (wf_instance_bound _ Hwf _ e).
  - intros k1 e1 k2 e2. rewrite !lookup_insert.
    repeat case_decide; intros; simplify_eq/=; try done; eapply (wf_unique _ Hwf); eauto.
Qed.

(** A new slot with its first client. *)
Lemma wf_open s k e c : registry_wf s → entries s !! k = None → clients e = [c] →
  client_keys s !! client_id c = None → client_id c ≤ next_client_id s →
  instance_id e ≤ next_instance_id s → (∀ k' e', entries s !! k' = Some e' → instance_id e' < instance_id e) →
  registry_wf (set_entries (set_client_keys s (<[client_id c := k]> (client_keys s)))
                 (<[k := e]> (entries s))).
Proof.
  intros Hwf Hk Hcs Hnew Hle Hi Hfresh.
  assert (client_ids e = [client_id c]) as Hids by (unfold client_ids; by rewrite Hcs). split; simpl.
  - intros k' x. rewrite lookup_insert. case_decide; [intros [= <-] | by apply (wf_clients _ Hwf)].
    rewrite Hids, Hcs. split; [done | apply NoDup_singleton].
  - intros c' k'. rewrite !lookup_insert. repeat case_decide; subst; rewrite ?(wf_keys _ Hwf).
    + split; [| done]. intros _. eexists. split; [done |]. rewrite Hids. set_solver.
    + split; [by intros [= ->] |]. intros (e' & He' & Hin).
      assert (client_keys s !! client_id c = Some k') by (apply (wf_keys _ Hwf); eauto). congruence.
    + split; [intros (e' & He' & _); congruence |]. intros (e' & [= <-] & Hin). rewrite Hids in Hin. set_solver.
    + done.
  - intros c' k'. rewrite lookup_insert. case_decide; [by subst | apply (wf_client_bound _ Hwf)].
  - intros k' x. rewrite lookup_insert. case_decide; [by intros [= <-] | by apply (wf_instance_bound _ Hwf)].
  - intros k1 e1 k2 e2. rewrite !lookup_insert.
    repeat case_decide; intros H1 H2 He; simplify_eq/=; try done;
      [apply Hfresh in H2; lia | apply Hfresh in H1; lia | by eapply (wf_unique _ Hwf)].
Qed.

Lemma forget_clients_lookup ids m c :
  forget_clients ids m !! c = if decide (c ∈ ids) then None else m !! c.
Proof.
  revert m. induction ids as [|i ids IH]; intros m; simpl; [done |].
  unfold forget_clients in *. simpl. rewrite IH. repeat case_decide; try set_solver.
  - subst. assert (c = i) as -> by set_solver. by rewrite lookup_delete_eq.
  - rewrite lookup_delete_ne; [done | set_solver].
Qed.

(** A slot goes, with all its clients. *)
Lemma wf_drop s k e m : registry_wf s → entries s !! k = Some e →
  (∀ c, m !! c = if decide (c ∈ client_ids e) then None else client_keys s !! c) →
  registry_wf (set_client_keys (set_entries s (delete k (entries s))) m).
Proof.
  intros Hwf Hk Hm. split; simpl.
  - intros k' x [_ Hx]%lookup_delete_Some. by eapply wf_clients.
  - intros c k'. rewrite Hm. case_decide as Hc.
    + split; [done |]. intros (e' & [Hne He']%lookup_delete_Some & Hin).
      assert (client_keys s !! c = Some k) by (apply (wf_keys _ Hwf); eauto).
      assert (client_keys s !! c = Some k') by (apply (wf_keys _ Hwf); eauto). congruence.
    + rewrite (wf_keys _ Hwf). setoid_rewrite lookup_delete_Some. split.
      * intros (e' & He' & Hin). exists e'. split; [| done]. split; [| done]. intros ->. congruence.
      * naive_solver.
  - intros c k'. rewrite Hm. case_decide; [done |]. apply (wf_client_bound _ Hwf).
  - intros k' x [_ Hx]%lookup_delete_Some. by eapply wf_instance_bound.
  - intros k1 e1 k2 e2 [_ H1]%lookup_delete_Some [_ H2]%lookup_delete_Some. by eapply (wf_unique _ Hwf).
Qed.

(** ** Owner events

    An observer of the events keeps the set of pairs (instance, owner) that
    are active; [None] is a first client added twice or a last client removed
    that was never there. *)
Definition observe (active : gset (N * N)) (e : SharedWorkerClientOwnerEvent) : option (gset (N * N)) :=
  match e with
  | FirstClientAdded i o => if decide ((i, o) ∈ active) then None else Some ({[(i, o)]} ∪ active)
  | LastClientRemoved i o => if decide ((i, o) ∈ active) then Some (active ∖ {[(i, o)]}) else None
  end.

Fixpoint observe_all (active : gset (N * N)) (es : list SharedWorkerClientOwnerEvent)
    : option (gset (N * N)) :=
  match es with
  | [] => Some active
  | e :: es => active ← observe active e; observe_all active es
  end.

(** The pairs the registry has clients for. *)
Definition active_pairs (s : SharedWorkerRegistryState) : gset (N * N) :=
  list_to_set (map_to_list (entries s) ≫= λ '(_, e), (λ c, (instance_id e, owner_id c)) <$> clients e).

Lemma elem_of_active s i o :
  (i, o) ∈ active_pairs s ↔ ∃ k e, entries s !! k = Some e ∧ instance_id e = i ∧ o ∈ owner_id <$> clients e.
Proof.
  unfold active_pairs. rewrite elem_of_list_to_set, list_elem_of_bind. split.
  - intros ([k e] & Hin & Hke). apply elem_of_map_to_list in Hke.
    apply list_elem_of_fmap in Hin as (c & [= -> ->] & Hc). exists k, e.
    split; [done |]. split; [done |]. apply list_elem_of_fmap. eauto.
  - intros (k & e & Hk & <- & (c & -> & Hc)%list_elem_of_fmap). exists (k, e).
    split; [| by apply elem_of_map_to_list]. apply list_elem_of_fmap. eauto.
Qed.

Lemma active_entry s k e o : registry_wf s → entries s !! k = Some e →
  (instance_id e, o) ∈ active_pairs s ↔ o ∈ owner_id <$> clients e.
Proof.
  intros Hwf Hk. rewrite elem_of_active. split; [| by eauto].
  intros (k' & e' & Hk' & Hi & Ho). assert (k' = k) as -> by (eapply (wf_unique _ Hwf); eauto).
  congruence.
Qed.

Lemma observe_all_app a es1 es2 :
  observe_all a (es1 ++ es2) = a ← observe_all a es1; observe_all a es2.
Proof. revert a. induction es1 as [|e es1 IH]; intros a; simpl; [done |]. by destruct (observe a e); simpl. Qed.

Lemma observe_removals a (ps : list (N * N)) : NoDup ps → (∀ p, p ∈ ps → p ∈ a) →
  observe_all a ((λ p, LastClientRemoved p.1 p.2) <$> ps) = Some (a ∖ list_to_set ps).
Proof.
  revert a. induction ps as [|[i o] ps IH]; intros a Hnd Hin; simpl; [f_equal; set_solver |].
  apply NoDup_cons in Hnd as [Hni Hnd]. rewrite decide_True by set_solver. simpl.
  rewrite IH; [f_equal; set_solver | done |]. intros p Hp. set_solver.
Qed.

Lemma owner_fold_spec (l : list SharedWorkerClientRecord) acc : NoDup acc →
  let r := foldl (λ owners c, if decide (owner_id c ∈ owners) then owners else owners ++ [owner_id c]) acc l in
  NoDup r ∧ ∀ o, o ∈ r ↔ o ∈ acc ∨ o ∈ owner_id <$> l.
Proof.
  revert acc. induction l as [|c l IH]; intros acc Hacc; simpl; [set_solver |].
  case_decide as Hc.
  - destruct (IH acc Hacc) as [? Hr]. split; [done |]. intros o. rewrite Hr. set_solver.
  - destruct (IH (acc ++ [owner_id c])) as [? Hr].
    { apply NoDup_app. split; [done |]. split; [set_solver | apply NoDup_singleton]. }
    split; [done |]. intros o. rewrite Hr. set_solver.
Qed.

Lemma owner_ids_spec e : NoDup (client_owner_ids e) ∧ ∀ o, o ∈ client_owner_ids e ↔ o ∈ owner_id <$> clients e.
Proof.
  destruct (owner_fold_spec (clients e) []) as [Hnd Hr]; [constructor |]. split; [done |].
  intros o. unfold client_owner_ids. rewrite Hr. set_solver.
Qed.

Lemma removed_events_pairs i e :
  last_client_removed_events i e = (λ p, LastClientRemoved p.1 p.2) <$> ((i,.) <$> client_owner_ids e).
Proof. unfold last_client_removed_events. by rewrite <-list_fmap_compose. Qed.

(** Events of a slot that goes with all its clients. *)
Lemma observe_drop s k e m : registry_wf s → entries s !! k = Some e →
  observe_all (active_pairs s) (last_client_removed_events (instance_id e) e)
  = Some (active_pairs (set_client_keys (set_entries s (delete k (entries s))) m)).
Proof.
  intros Hwf Hk. destruct (owner_ids_spec e) as [Hnd Howners]. rewrite removed_events_pairs, observe_removals.
  - f_equal. apply set_eq. intros [i o].
    rewrite elem_of_difference, elem_of_list_to_set, list_elem_of_fmap, !elem_of_active. simpl. split.
    + intros [(k' & e' & Hk' & Hi & Ho) Hno]. exists k', e'. split; [| done].
      apply lookup_delete_Some. split; [| done]. intros ->. apply Hno. exists o.
      rewrite Howners. split; [| congruence]. congruence.
    + intros (k' & e' & [Hne Hk']%lookup_delete_Some & Hi & Ho). split; [by eauto |].
      intros (o' & [= -> ->] & _). apply Hne. by eapply (wf_unique _ Hwf).
  - by apply NoDup_fmap_2; [intros ? ? [=] |].
  - intros [i o] (o' & [= -> ->] & Ho)%list_elem_of_fmap. rewrite (active_entry _ k) by done. by apply Howners.
Qed.

(** What every call keeps: the invariant, the observer's view, and instance
    ids that are never given out twice. *)
Definition has_instance (s : SharedWorkerRegistryState) (i : N) : Prop :=
  ∃ k e, entries s !! k = Some e ∧ instance_id e = i.

Definition step_ok (s : SharedWorkerRegistryState) (es : list SharedWorkerClientOwnerEvent)
    (s' : SharedWorkerRegistryState) : Prop :=
  registry_wf s' ∧ observe_all (active_pairs s) es = Some (active_pairs s') ∧
  next_client_id s' ≤ next_client_id s + 1 ∧
  next_instance_id s ≤ next_instance_id s' ≤ next_instance_id s + 1 ∧
  (∀ i, has_instance s' i → has_instance s i ∨ next_instance_id s < i).

Lemma step_ok_refl s : registry_wf s → step_ok s [] s.
Proof. intros. split_and!; [done | done | lia | lia | lia | by left]. Qed.

Lemma active_pairs_entries s s' : entries s' = entries s → active_pairs s' = active_pairs s.
Proof. unfold active_pairs. by intros ->. Qed.

Lemma has_instance_entries s s' i : entries s' = entries s → has_instance s' i → has_instance s i.
Proof. unfold has_instance. by intros ->. Qed.

Lemma count_zero e o : entry_client_count_for_owner e o = 0%nat ↔ o ∉ owner_id <$> clients e.
Proof.
  unfold entry_client_count_for_owner. rewrite length_zero_iff_nil. split.
  - intros Hf (c & -> & Hc)%list_elem_of_fmap. by apply (filter_nil_not_elem_of _ _ c Hf).
  - intros Hno. apply filter_none. intros c Hc <-. apply Hno, list_elem_of_fmap. eauto.
Qed.

Lemma join_ok s k e c : registry_wf s → entries s !! k = Some e → client_keys s !! client_id c = None →
  client_id c ≤ next_client_id s →
  let s' := set_client_keys (set_entries s (<[k := add_client e c]> (entries s)))
              (<[client_id c := k]> (client_keys s)) in
  step_ok s (if bool_decide (entry_client_count_for_owner e (owner_id c) = 0%nat)
             then [FirstClientAdded (instance_id e) (owner_id c)] else []) s'.
Proof.
  intros Hwf Hk Hnew Hle s'.
  assert (active_pairs s' = {[(instance_id e, owner_id c)]} ∪ active_pairs s) as Ha.
  { apply set_eq. intros [i o]. rewrite elem_of_union, elem_of_singleton, !elem_of_active. subst s'. simpl. split.
    - intros (k' & e' & He' & <- & Ho). rewrite lookup_insert in He'. case_decide; [| by eauto 10].
      injection He' as <-. unfold add_client in Ho. simpl in *. rewrite fmap_app in Ho. set_solver.
    - intros [[= -> ->] | (k' & e' & He' & <- & Ho)].
      + exists k, (add_client e c). rewrite lookup_insert_eq. split; [done |]. split; [done |].
        unfold add_client. simpl. rewrite fmap_app. set_solver.
      + destruct (decide (k' = k)) as [->|].
        * exists k, (add_client e c). rewrite lookup_insert_eq. simplify_eq. split; [done |]. split; [done |].
          unfold add_client. simpl. rewrite fmap_app. set_solver.
        * exists k', e'. by rewrite lookup_insert_ne. }
  split_and!; [by apply wf_join | | simpl; lia | simpl; lia | simpl; lia |].
  - rewrite Ha. case_bool_decide as Hz.
    + apply count_zero in Hz. simpl. rewrite decide_False; [done |]. by rewrite (active_entry _ k).
    + simpl. f_equal. symmetry. assert ((instance_id e, owner_id c) ∈ active_pairs s); [| set_solver].
      rewrite (active_entry _ k) by done. rewrite count_zero in Hz.
      destruct (decide (owner_id c ∈ owner_id <$> clients e)); [done | tauto].
  - intros i (k' & e' & He' & <-). subst s'. simpl in He'. left. rewrite lookup_insert in He'.
    case_decide; simplify_eq; [by exists k', e | by exists k', e'].
Qed.

Lemma open_ok s k e c : registry_wf s → entries s !! k = None → clients e = [c] →
  client_keys s !! client_id c = None → client_id c ≤ next_client_id s →
  instance_id e ≤ next_instance_id s → (∀ k' e', entries s !! k' = Some e' → instance_id e' < instance_id e) →
  let s' := set_entries (set_client_keys s (<[client_id c := k]> (client_keys s))) (<[k := e]> (entries s)) in
  registry_wf s' ∧ observe_all (active_pairs s) [FirstClientAdded (instance_id e) (owner_id c)] = Some (active_pairs s') ∧
  (∀ i, has_instance s' i → has_instance s i ∨ i = instance_id e).
Proof.
  intros Hwf Hk Hcs Hnew Hle Hi Hfresh s'.
  split_and!; [by apply wf_open | |].
  - simpl. rewrite decide_False.
    + simpl. f_equal. apply set_eq. intros [i o]. rewrite elem_of_union, elem_of_singleton, !elem_of_active.
      subst s'. simpl. split.
      * intros [[= -> ->] | (k' & e' & He' & <- & Ho)].
        -- exists k, e. rewrite lookup_insert_eq, Hcs. set_solver.
        -- exists k', e'. rewrite lookup_insert_ne by congruence. done.
      * intros (k' & e' & He' & <- & Ho). rewrite lookup_insert in He'. case_decide; [| by eauto 10].
        injection He' as <-. rewrite Hcs in Ho. set_solver.
    + intros (k' & e' & He' & Heq & _)%elem_of_active. apply Hfresh in He'. lia.
  - intros i (k' & e' & He' & <-). subst s'. simpl in He'. rewrite lookup_insert in He'.
    case_decide; simplify_eq; [by right | left; by exists k', e'].
Qed.

Lemma connect_ok s s1 k d cid oid o : registry_wf s → allocate_client_id s = Ret (cid, s1) →
  connect_locked s1 k d cid oid = Ret o → step_ok s (owner_events o) (after o).
Proof.
  intros Hwf E1 E. apply wf_allocate_client in E1 as (Hwf1 & He1 & Hk1 & -> & Hnew & Hi1 & Hc1); [| done].
  unfold connect_locked in E. inv_run. destruct r as [iid s2].
  apply wf_allocate_instance in E0 as E2; [| done]. destruct E2 as (Hwf2 & He2 & Hk2 & -> & Hfresh & Hc2).
  assert (next_instance_id s2 = next_instance_id s1 + 1) as Hi2.
  { unfold allocate_instance_id in E0. inv_run. apply add64_Ret in E1 as [-> _]. done. }
  assert (client_keys s2 !! next_client_id s1 = None) as Hnew2 by congruence.
  assert (active_pairs s = active_pairs s2) as Ha by (apply active_pairs_entries; congruence).
  assert (∀ i, has_instance s2 i → has_instance s i) as Hh.
  { intros i. apply has_instance_entries. congruence. }
  assert (∀ es s', step_ok s2 es s' → next_instance_id s' = next_instance_id s2 →
                   next_client_id s' = next_client_id s2 → step_ok s es s') as Hlift.
  { intros es s' (W & Ho & _ & _ & Hin) Hni Hnc. split_and!; [done | by rewrite Ha | lia | lia | lia |].
    intros i [?|?]%Hin; [left; by apply Hh | right; lia]. }
  destruct (entries s2 !! k) as [e|] eqn:Hk.
  - destruct (ensure_compatible_with (descriptor e) d) as [[]|err]; inv_run.
    + apply Hlift; [| done | done].
      exact (join_ok s2 k e (mk_client (next_client_id s1) oid) Hwf2 Hk Hnew2 ltac:(simpl; lia)).
    + apply Hlift; [by apply step_ok_refl | done | done].
  - inv_run.
    destruct (open_ok s2 k (mk_entry (next_instance_id s2) d [mk_client (next_client_id s1) oid] Loading)
                (mk_client (next_client_id s1) oid)) as (W & Ho & Hin);
      [done | done | done | done | simpl; lia | simpl; lia | done |].
    split_and!; [exact W | rewrite Ha; exact Ho | simpl; lia | simpl; lia | simpl; lia |].
    intros i [?|Hi]%Hin; [left; by apply Hh | right; simpl in Hi; lia].
Qed.

Lemma drop_ok s k e m : registry_wf s → entries s !! k = Some e →
  (∀ c, m !! c = if decide (c ∈ client_ids e) then None else client_keys s !! c) →
  step_ok s (last_client_removed_events (instance_id e) e)
    (set_client_keys (set_entries s (delete k (entries s))) m).
Proof.
  intros Hwf Hk Hm. split_and!; [by eapply wf_drop | by eapply observe_drop | simpl; lia | simpl; lia | simpl; lia |].
  intros i (k' & e' & He' & <-). simpl in He'. apply lookup_delete_Some in He' as [_ He'].
  left. by exists k', e'.
Qed.

Lemma finish_ok s k iid instance : registry_wf s → step_ok s [] (finish_loading s k iid instance).2.
Proof.
  intros Hwf. unfold finish_loading. destruct (entries s !! k) as [e|] eqn:Hk; [| by apply step_ok_refl].
  destruct (negb (instance_id e =? iid)); [by apply step_ok_refl |].
  destruct (_ || _); [by apply step_ok_refl |]. simpl.
  split_and!; [by eapply wf_update | | simpl; lia | simpl; lia | simpl; lia |].
  - simpl. f_equal. apply set_eq. intros [i o]. rewrite !elem_of_active. simpl. split.
    + intros (k' & e' & He' & <- & Ho). destruct (decide (k' = k)) as [->|].
      * eexists k, _. rewrite lookup_insert_eq. split; [done |]. simpl. by simplify_eq.
      * exists k', e'. by rewrite lookup_insert_ne.
    + intros (k' & e' & He' & <- & Ho). rewrite lookup_insert in He'.
      case_decide; simplify_eq; simpl in *; eauto.
  - intros i (k' & e' & He' & <-). simpl in He'. left. rewrite lookup_insert in He'.
    case_decide; simplify_eq; [by exists k', e | by exists k', e'].
Qed.

Lemma fail_ok s k iid o : registry_wf s → fail_loading_observed s k iid = Ret o →
  step_ok s (owner_events o) (after o).
Proof.
  intros Hwf E. unfold fail_loading_observed in E. destruct (entries s !! k) as [e|] eqn:Hk;
    [| inv_run; by apply step_ok_refl].
  destruct (N.eqb_spec (instance_id e) iid) as [<-|]; simpl in E; [| inv_run; by apply step_ok_refl].
  destruct (negb (is_loading (entry_state e))); [inv_run; by apply step_ok_refl |].
  inv_run. apply drop_ok; [done | done |]. intros c. apply forget_clients_lookup.
Qed.

Lemma find_instance_Some s iid k e :
  find_instance s iid = Some (k, e) → entries s !! k = Some e ∧ instance_id e = iid.
Proof.
  unfold find_instance. intros H.
  assert ((k, e) ∈ filter (λ ke, instance_id ke.2 = iid) (map_to_list (entries s))) as Hin.
  { destruct (filter _ _); simplify_eq/=. left. }
  apply list_elem_of_filter in Hin as [Hi Hm]. by apply elem_of_map_to_list in Hm.
Qed.

Lemma find_instance_None s iid : find_instance s iid = None → ¬ has_instance s iid.
Proof.
  unfold find_instance. intros H (k & e & Hk & Hi).
  assert ((k, e) ∈ filter (λ ke, instance_id ke.2 = iid) (map_to_list (entries s))) as Hin.
  { apply list_elem_of_filter. split; [done | by apply elem_of_map_to_list]. }
  destruct (filter _ _); [set_solver | done].
Qed.

Lemma find_instance_entry s k e : registry_wf s → entries s !! k = Some e →
  find_instance s (instance_id e) = Some (k, e).
Proof.
  intros Hwf Hk. destruct (find_instance s (instance_id e)) as [[k' e']|] eqn:Hf.
  - apply find_instance_Some in Hf as [Hk' Hi].
    assert (k' = k) as -> by (by eapply (wf_unique _ Hwf)). congruence.
  - destruct (find_instance_None _ _ Hf). by exists k, e.
Qed.

Lemma remove_instance_ok s iid o : registry_wf s → remove_instance_observed s iid = Ret o →
  step_ok s (owner_events o) (after o).
Proof.
  intros Hwf E. unfold remove_instance_observed in E.
  destruct (find_instance s iid) as [[k e]|] eqn:Hf; simpl in E; [| inv_run; by apply step_ok_refl].
  apply find_instance_Some in Hf as [Hk <-]. rewrite Hk in E. inv_run.
  apply drop_ok; [done | done |]. intros c. apply forget_clients_lookup.
Qed.

Lemma remove_all_ok s : registry_wf s →
  let '(l, s') := remove_all_instances_observed s in step_ok s (l ≫= snd) s'.
Proof.
  intros Hwf. unfold remove_all_instances_observed.
  assert (∀ l : list (SharedWorkerKey * SharedWorkerEntry),
    ((λ '(k, e), (Removed k (instance_id e) (client_ids e) (running_state (entry_state e)),
                   last_client_removed_events (instance_id e) e)) <$> l) ≫= snd
    = (λ p, LastClientRemoved p.1 p.2) <$> (l ≫= λ ke, (instance_id ke.2,.) <$> client_owner_ids ke.2)) as ->.
  { induction l as [|[k e] l IH]; [done |]. rewrite fmap_cons, !bind_cons, fmap_app, IH. f_equal.
    apply removed_events_pairs. }
  split_and!; [| | simpl; lia | simpl; lia | simpl; lia |].
  - split; simpl; try by intros *; rewrite ?lookup_empty.
    intros c k. rewrite lookup_empty. split; [done |]. intros (? & ? & _). by rewrite lookup_empty in *.
  - rewrite observe_removals.
    + f_equal. apply set_eq. intros [i o]. rewrite elem_of_difference, elem_of_list_to_set, list_elem_of_bind.
      rewrite !elem_of_active. simpl. split.
      * intros [(k & e & Hk & <- & Ho) Hno]. destruct Hno. exists (k, e).
        split; [| by apply elem_of_map_to_list]. apply list_elem_of_fmap. exists o. split; [done |].
        by apply owner_ids_spec.
      * intros (k & e & Hk & _). by rewrite lookup_empty in Hk.
    + apply NoDup_bind.
      * intros [k1 e1] [k2 e2] [i o] H1 H2 (o1 & [= -> ->] & _)%list_elem_of_fmap (o2 & [= Hi _] & _)%list_elem_of_fmap.
        apply elem_of_map_to_list in H1, H2. simpl in *.
        assert (k1 = k2) as <- by (by eapply (wf_unique _ Hwf)). congruence.
      * intros [k e] _. apply NoDup_fmap_2; [by intros ? ? [=] | apply owner_ids_spec].
      * apply NoDup_map_to_list.
    + intros [i o] ([k e] & (o' & [= -> ->] & Ho)%list_elem_of_fmap & Hk)%list_elem_of_bind.
      apply elem_of_map_to_list in Hk. simpl in *. rewrite (active_entry _ k) by done. by apply owner_ids_spec.
  - intros i (k & e & Hk & _). simpl in Hk. by rewrite lookup_empty in Hk.
Qed.

Lemma split_client e cid : NoDup (client_ids e) → cid ∈ client_ids e →
  ∃ l1 c l2, clients e = l1 ++ c :: l2 ∧ client_id c = cid ∧ client_owner_id e cid = Some (owner_id c) ∧
             filter (λ c, client_id c ≠ cid) (clients e) = l1 ++ l2.
Proof.
  intros Hnd (c & -> & Hc)%list_elem_of_fmap. apply list_elem_of_split in Hc as (l1 & l2 & Hl).
  exists l1, c, l2. unfold client_ids in Hnd. rewrite Hl, fmap_app in Hnd. simpl in Hnd.
  apply NoDup_app in Hnd as (_ & Hdis & [Hni _]%NoDup_cons).
  assert (∀ x, x ∈ l1 ++ l2 → client_id x ≠ client_id c) as Hne.
  { intros x [Hx|Hx]%elem_of_app Heq.
    - apply (Hdis (client_id x)); [by apply list_elem_of_fmap; eauto | rewrite Heq; left].
    - apply Hni. rewrite <-Heq. apply list_elem_of_fmap. eauto. }
  split; [done |]. split; [done |]. split.
  - unfold client_owner_id. rewrite Hl, filter_app, filter_cons_True by done.
    rewrite (filter_none _ l1) by (intros x Hx; apply Hne; set_solver). done.
  - rewrite Hl, filter_app, filter_cons_False by naive_solver.
    rewrite <-filter_app. apply filter_all_id. done.
Qed.

Lemma count_one e l1 c l2 : clients e = l1 ++ c :: l2 →
  entry_client_count_for_owner e (owner_id c) = 1%nat ↔ owner_id c ∉ owner_id <$> (l1 ++ l2).
Proof.
  intros Hl. unfold entry_client_count_for_owner. rewrite Hl, filter_app, filter_cons_True, length_app by done.
  simpl. rewrite <-(count_zero (mk_entry 0 descriptor_default (l1 ++ l2) Loading)).
  unfold entry_client_count_for_owner. simpl. rewrite filter_app, length_app. lia.
Qed.

(** One of several clients leaves a slot. *)
Lemma wf_leave s k e l1 c l2 : registry_wf s → entries s !! k = Some e →
  clients e = l1 ++ c :: l2 → l1 ++ l2 ≠ [] →
  registry_wf (set_entries (set_client_keys s (delete (client_id c) (client_keys s)))
                 (<[k := set_clients e (l1 ++ l2)]> (entries s))).
Proof.
  intros Hwf Hk Hl Hne. destruct (wf_clients _ Hwf _ _ Hk) as [_ Hnd].
  assert (client_ids e = (client_id <$> l1) ++ client_id c :: (client_id <$> l2)) as Hids
    by (unfold client_ids; by rewrite Hl, fmap_app).
  rewrite Hids in Hnd. apply NoDup_app in Hnd as Hnd'. destruct Hnd' as (Hn1 & Hdis & [Hni Hn2]%NoDup_cons).
  assert (∀ x, x ∈ client_id <$> (l1 ++ l2) ↔ x ∈ client_ids e ∧ x ≠ client_id c) as Hleft.
  { intros x. rewrite Hids, fmap_app. split; [| set_solver]. intros [Hx|Hx]%elem_of_app; set_solver. }
  split; simpl.
  - intros k' x. rewrite lookup_insert. case_decide; [intros [= <-] | by apply (wf_clients _ Hwf)].
    split; [done |]. unfold client_ids. simpl. rewrite fmap_app. apply NoDup_app. split; [done |]. split; [set_solver | done].
  - intros c' k'. rewrite lookup_delete_Some, lookup_insert, (wf_keys _ Hwf). case_decide as Hkk.
    + subst k'. rewrite Hk. split.
      * intros [Hc' (e' & [= <-] & Hin)]. eexists. split; [done |]. unfold client_ids. simpl. apply Hleft. by split.
      * intros (e' & [= <-] & Hin). unfold client_ids in Hin. simpl in Hin. apply Hleft in Hin as [? ?]. eauto.
    + split; [naive_solver |]. intros (e' & He' & Hin). split; [| by eauto]. intros <-. apply Hkk.
      assert (client_keys s !! client_id c = Some k') as H1 by (apply (wf_keys _ Hwf); eauto).
      assert (client_keys s !! client_id c = Some k) as H2; [| congruence].
      apply (wf_keys _ Hwf). exists e. split; [done |]. rewrite Hids. set_solver.
  - intros c' k' [_ ?]%lookup_delete_Some. by eapply (wf_client_bound _ Hwf).
  - intros k' x. rewrite lookup_insert. case_decide; [intros [= <-] | by apply (wf_instance_bound _ Hwf)].
    by apply (wf_instance_bound _ Hwf k e).
  - intros k1 e1 k2 e2. rewrite !lookup_insert.
    repeat case_decide; intros; simplify_eq/=; try done; eapply (wf_unique _ Hwf); eauto.
Qed.

Lemma active_leave s k e l1 c l2 m i o : registry_wf s → entries s !! k = Some e →
  clients e = l1 ++ c :: l2 →
  (i, o) ∈ active_pairs (set_entries (set_client_keys s m) (<[k := set_clients e (l1 ++ l2)]> (entries s))) ↔
  (i, o) ∈ active_pairs s ∧ ((i, o) ≠ (instance_id e, owner_id c) ∨ owner_id c ∈ owner_id <$> (l1 ++ l2)).
Proof.
  intros Hwf Hk Hl. rewrite !elem_of_active. simpl. split.
  - intros (k' & e' & He' & <- & Ho). rewrite lookup_insert in He'. case_decide.
    + injection He' as <-. simpl in *. subst k'. split.
      * exists k, e. split; [done |]. split; [done |]. rewrite Hl. set_solver.
      * destruct (decide (o = owner_id c)) as [->|]; [by right | left; congruence].
    + split; [by eauto |]. left. intros [= Hi _]. by assert (k' = k) by (by eapply (wf_unique _ Hwf)).
  - intros [(k' & e' & He' & <- & Ho) Hor]. destruct (decide (k' = k)) as [->|].
    + exists k, (set_clients e (l1 ++ l2)). rewrite lookup_insert_eq. simplify_eq.
      split; [done |]. split; [done |]. simpl. rewrite Hl in Ho. rewrite fmap_app in *. simpl in Ho.
      destruct Hor as [Hno|]; [| set_solver].
      assert (o ≠ owner_id c) by congruence. set_solver.
    + exists k', e'. by rewrite lookup_insert_ne.
Qed.

Lemma leave_ok s k e l1 c l2 : registry_wf s → entries s !! k = Some e →
  clients e = l1 ++ c :: l2 → l1 ++ l2 ≠ [] →
  step_ok s (if bool_decide (entry_client_count_for_owner e (owner_id c) = 1%nat)
             then [LastClientRemoved (instance_id e) (owner_id c)] else [])
    (set_entries (set_client_keys s (delete (client_id c) (client_keys s)))
       (<[k := set_clients e (l1 ++ l2)]> (entries s))).
Proof.
  intros Hwf Hk Hl Hne. split_and!; [by apply wf_leave | | simpl; lia | simpl; lia | simpl; lia |].
  - case_bool_decide as Hc; [apply (count_one e _ _ _ Hl) in Hc | rewrite (count_one e _ _ _ Hl) in Hc].
    + simpl. rewrite decide_True by (rewrite (active_entry _ k) by done; rewrite Hl; set_solver). simpl.
      f_equal. apply set_eq. intros [i o]. rewrite (active_leave s k e) by done. set_solver.
    + simpl. f_equal. apply set_eq. intros [i o]. rewrite (active_leave s k e) by done.
      apply dec_stable in Hc. set_solver.
  - intros i (k' & e' & He' & <-). simpl in He'. left. rewrite lookup_insert in He'.
    case_decide; simplify_eq; [by exists k', e | by exists k', e'].
Qed.

Lemma remove_client_ok s cid o : registry_wf s → remove_client_observed s cid = Ret o →
  step_ok s (owner_events o) (after o).
Proof.
  intros Hwf E. unfold remove_client_observed in E.
  destruct (client_keys s !! cid) as [k|] eqn:Hc; [| inv_run; by apply step_ok_refl].
  apply (wf_keys _ Hwf) in Hc as (e & Hk & Hin). destruct (wf_clients _ Hwf _ _ Hk) as [_ Hnd].
  destruct (split_client e cid Hnd Hin) as (l1 & c & l2 & Hl & <- & Ho & Hf).
  cbn [entries set_client_keys] in E. rewrite Hk in E. unfold entry_remove_client in E.
  rewrite Ho, Hf in E. destruct (l1 ++ l2) as [|x l] eqn:Hll; cbn [negb] in E.
  - cbn [set_entries entries] in E. rewrite lookup_insert_eq in E. inv_run.
    apply app_nil in Hll as [-> ->]. simpl in Hl.
    rewrite bool_decide_eq_true_2 by (apply (count_one e [] c [] Hl); set_solver).
    rewrite delete_insert_eq.
    assert ([LastClientRemoved (instance_id e) (owner_id c)]
            = last_client_removed_events (instance_id e) e) as ->.
    { unfold last_client_removed_events, client_owner_ids. by rewrite Hl. }
    refine (drop_ok s k e (delete (client_id c) (client_keys s)) Hwf Hk _). intros c'.
    unfold client_ids. rewrite Hl, lookup_delete. simpl. repeat case_decide; set_solver.
  - inv_run. rewrite <-Hll. pose proof (leave_ok s k e l1 c l2 Hwf Hk Hl) as Hok. rewrite Hll in *.
    specialize (Hok ltac:(done)). destruct (bool_decide _); exact Hok.
Qed.

Lemma call_ok s c es s' : registry_wf s → registry_exec s c = Ret (es, s') → step_ok s es s'.
Proof.
  intros Hwf E. destruct c as [k d|k d oid|k iid instance|k iid|cid|iid|]; cbn [registry_exec] in E.
  - inv_run. injection E as <- <-. unfold connect_observed in E0. inv_run. destruct r0. by eapply connect_ok.
  - inv_run. injection E as <- <-. unfold connect_with_owner_observed in E0. inv_run. destruct r0. by eapply connect_ok.
  - injection E as <- <-. by apply finish_ok.
  - inv_run. injection E as <- <-. by eapply fail_ok.
  - inv_run. injection E as <- <-. by eapply remove_client_ok.
  - inv_run. injection E as <- <-. by eapply remove_instance_ok.
  - pose proof (remove_all_ok s Hwf) as Hok. destruct (remove_all_instances_observed s) as [l s1].
    injection E as <- <-. done.
Qed.

(** Without counter overflow every call returns. *)
Lemma call_total s c : registry_wf s → next_client_id s < u64_max → next_instance_id s < u64_max →
  ∃ r, registry_exec s c = Ret r.
Proof.
  intros Hwf Hc Hi.
  assert (∀ k d cid oid s1, next_instance_id s1 = next_instance_id s →
            ∃ o, connect_locked s1 k d cid oid = Ret o) as Hconnect.
  { intros k d cid oid s1 H1. unfold connect_locked, allocate_instance_id. rewrite H1, add64_fits by lia. simpl.
    destruct (entries s1 !! k) as [e|]; [| by eauto]. destruct (ensure_compatible_with _ _); eauto. }
  destruct c as [k d|k d oid|k iid instance|k iid|cid|iid|]; cbn [registry_exec].
  - unfold connect_observed, allocate_client_id. rewrite add64_fits by lia. simpl.
    edestruct Hconnect as [o ->]; [| by eauto]. done.
  - unfold connect_with_owner_observed, allocate_client_id. rewrite add64_fits by lia. simpl.
    edestruct Hconnect as [o ->]; [| by eauto]. done.
  - eauto.
  - unfold fail_loading_observed. destruct (entries s !! k) as [e|]; simpl; [| by eauto].
    destruct (_ || _); simpl; eauto.
  - unfold remove_client_observed. destruct (client_keys s !! cid) as [k|] eqn:Hk; simpl; [| by eauto].
    apply (wf_keys _ Hwf) in Hk as (e & -> & _). unfold entry_remove_client.
    destruct (filter _ (clients e)); simpl; [rewrite lookup_insert_eq; simpl |]; eauto.
  - unfold remove_instance_observed. destruct (find_instance s iid) as [[k e]|] eqn:Hf; simpl; [| by eauto].
    apply find_instance_Some in Hf as [-> _]. simpl. eauto.
  - destruct (remove_all_instances_observed s). eauto.
Qed.

Lemma run_ok s cs : registry_wf s →
  next_client_id s + N.of_nat (length cs) ≤ u64_max → next_instance_id s + N.of_nat (length cs) ≤ u64_max →
  ∃ es s', registry_run s cs = Ret (es, s') ∧ registry_wf s' ∧
           observe_all (active_pairs s) es = Some (active_pairs s') ∧
           next_instance_id s ≤ next_instance_id s' ∧
           (∀ i, has_instance s' i → has_instance s i ∨ next_instance_id s < i).
Proof.
  revert s. induction cs as [|c cs IH]; intros s Hwf Hc Hi; simpl length in *.
  { exists [], s. split_and!; [done | done | done | lia | by left]. }
  destruct (call_total s c Hwf) as [[es1 s1] E]; [lia | lia |].
  destruct (call_ok _ _ _ _ Hwf E) as (Hwf1 & Ho1 & Hc1 & Hi1 & Hh1).
  destruct (IH s1 Hwf1) as (es2 & s2 & E2 & Hwf2 & Ho2 & Hi2 & Hh2); [lia | lia |].
  exists (es1 ++ es2), s2. cbn [registry_run]. rewrite E. simpl. rewrite E2. simpl.
  split_and!; [done | done | by rewrite observe_all_app, Ho1 | lia |].
  intros i [[?|?]%Hh1|?]%Hh2; [by left | by right | right; lia].
Qed.

Lemma default_wf : registry_wf registry_default.
Proof.
  split; simpl; try by intros *; rewrite ?lookup_empty.
  intros c k. rewrite lookup_empty. split; [done |]. intros (? & ? & _). by rewrite lookup_empty in *.
Qed.

(** C23: every history of registry calls shorter than 2^64 returns: no
    identifier overflows and no entry the code expects is missing. Client
    lists and the reverse map agree throughout, and the owner events come in
    a form an observer can follow: for every instance and owner, first-added
    and last-removed alternate, and the pair is active at the end exactly
    when the instance has a client of that owner. *)
Theorem owner_events_balanced (cs : list registry_call) :
  N.of_nat (length cs) ≤ u64_max →
  ∃ es s active, registry_run registry_default cs = Ret (es, s) ∧ registry_wf s ∧
    observe_all ∅ es = Some active ∧
    ∀ i o, (i, o) ∈ active ↔ ∃ k e, entries s !! k = Some e ∧ instance_id e = i ∧ o ∈ owner_id <$> clients e.
Proof.
  intros Hlen. destruct (run_ok registry_default cs default_wf) as (es & s & E & Hwf & Ho & _);
    [simpl; lia | simpl; lia |].
  exists es, s, (active_pairs s). split_and!; [done | done | done |]. intros. apply elem_of_active.
Qed.

(** A load result that comes late does nothing. Once an instance is gone
    from a well-formed registry, whatever calls follow, also ones that reuse
    its key for a new worker, [finish_loading] and [fail_loading] for its id
    report [Stale], change nothing and emit nothing: instance ids are not
    reused. *)
Theorem stale_load_ignored (s : SharedWorkerRegistryState) (cs : list registry_call) (iid : N)
    (k : SharedWorkerKey) (instance : I) :
  registry_wf s →
  next_client_id s + N.of_nat (length cs) ≤ u64_max → next_instance_id s + N.of_nat (length cs) ≤ u64_max →
  iid ≤ next_instance_id s → find_instance s iid = None →
  ∃ es s', registry_run s cs = Ret (es, s') ∧
    finish_loading s' k iid instance = (ReadyStale, s') ∧
    fail_loading_observed s' k iid = Ret (mk_observed FailureStale [] s').
Proof.
  intros Hwf Hc Hi Hiid Hnone. destruct (run_ok s cs Hwf Hc Hi) as (es & s' & E & _ & _ & _ & Hh).
  exists es, s'. split; [done |].
  assert (∀ e, entries s' !! k = Some e → instance_id e ≠ iid) as Hne.
  { intros e Hk <-. destruct (Hh (instance_id e)) as [Hin|Hlt]; [by exists k, e | | lia].
    by eapply find_instance_None in Hnone. }
  unfold finish_loading, fail_loading_observed. destruct (entries s' !! k) as [e|] eqn:Hk; [| done].
  destruct (N.eqb_spec (instance_id e) iid); [by destruct (Hne e) | done].
Qed.

(** The load life cycle of a slot. When the script of a loading slot is
    ready, exactly its waiting clients are reported, in connection order, and
    a compatible client that connects next is handed the running instance;
    an incompatible one is refused and leaves slot and clients as they
    were. *)
Theorem load_then_connect (s : SharedWorkerRegistryState) (k : SharedWorkerKey) (e : SharedWorkerEntry)
    (instance : I) (d : SharedWorkerDescriptor) (oid : N) :
  registry_wf s → entries s !! k = Some e → entry_state e = Loading →
  next_client_id s < u64_max → next_instance_id s < u64_max →
  ∃ s', finish_loading s k (instance_id e) instance = (ReadyRunning (instance_id e) (client_ids e) instance, s') ∧
        running_instance s' (instance_id e) = Some instance ∧
        ∃ o, connect_with_owner_observed s' k d oid = Ret o ∧
             match ensure_compatible_with (descriptor e) d with
             | inl _ => action o = ConnectToRunning (instance_id e) (next_client_id s + 1) instance ∧
                        clients_for_instance (after o) (instance_id e) = client_ids e ++ [next_client_id s + 1]
             | inr err => action o = RejectClient (next_client_id s + 1) err ∧ owner_events o = [] ∧
                          entries (after o) = entries s' ∧ client_keys (after o) = client_keys s'
             end.
Proof.
  intros Hwf Hk Hst Hc Hi. set (e' := mk_entry (instance_id e) (descriptor e) (clients e) (Running instance)).
  set (s' := set_entries s (<[k := e']> (entries s))).
  assert (Hwf' : registry_wf s') by (by eapply wf_update).
  assert (Hk' : entries s' !! k = Some e') by apply lookup_insert_eq.
  exists s'. split.
  { unfold finish_loading. rewrite Hk, N.eqb_refl, Hst. destruct (wf_clients _ Hwf _ _ Hk) as [Hne _].
    simpl. by destruct (clients e). }
  split.
  { pose proof (find_instance_entry s' k e' Hwf' Hk') as Hf. unfold running_instance.
    cbn [e' instance_id] in Hf. by rewrite Hf. }
  destruct (call_total s' (ConnectWithOwner k d oid) Hwf') as [[es s2] E]; [done | done |].
  destruct (call_ok _ _ _ _ Hwf' E) as (Hwf2 & _). cbn [registry_exec] in E. inv_run. exists r.
  split; [done |]. injection E as <- <-. unfold connect_with_owner_observed, allocate_client_id in E0.
  rewrite add64_fits in E0 by (simpl; lia). unfold connect_locked, allocate_instance_id in E0.
  cbn [mbind run_bind next_instance_id] in E0. rewrite add64_fits in E0 by (simpl; lia).
  cbn [mbind run_bind entries] in E0. rewrite Hk' in E0. cbn [descriptor e'] in E0.
  destruct (ensure_compatible_with (descriptor e) d) as [[]|err]; injection E0 as <-; simpl.
  - split; [done |]. unfold clients_for_instance.
    pose proof (find_instance_entry _ k (add_client e' (mk_client (next_client_id s + 1) oid)) Hwf2) as Hf.
    cbn [add_client set_clients e' instance_id after] in Hf. rewrite Hf by apply lookup_insert_eq.
    by rewrite client_ids_add.
  - done.
Qed.
End registry.

(** ** Witnesses *)
Definition demo_worker_key : SharedWorkerKey :=
  mk_worker_key (key_new (lit "https://a") (lit "https://a") None FirstParty) (lit "https://a/w.js") (lit "w") CookiesAll.

Definition demo_worker_calls : list (@registry_call N) :=
  [ConnectWithOwner demo_worker_key descriptor_default 7; ConnectWithOwner demo_worker_key descriptor_default 7;
   FinishLoading demo_worker_key 1 42; RemoveClient 1; RemoveClient 2].

Lemma owner_events_balanced_witness :
  ∃ es s, registry_run registry_default demo_worker_calls = Ret (es, s) ∧
          es = [FirstClientAdded 1 7; LastClientRemoved 1 7].
Proof.
  destruct (owner_events_balanced demo_worker_calls) as (es & s & _ & E & _).
  - vm_compute. discriminate.
  - exists es, s. split; [exact E |].
    assert (fst <$> registry_run registry_default demo_worker_calls = Ret es) as Hes by (rewrite E; reflexivity).
    vm_compute in Hes. injection Hes as <-. reflexivity.
Defined.

(** The same key, reused by a second worker after the first is gone. *)
Definition demo_empty : @SharedWorkerRegistryState N := mk_registry 1 1 ∅ ∅.

Lemma demo_empty_wf : registry_wf demo_empty.
Proof. apply (wf_counters registry_default 1 1 default_wf); simpl; lia. Qed.

Lemma stale_load_ignored_witness :
  ∃ es s', registry_run demo_empty [ConnectWithOwner demo_worker_key descriptor_default 7] = Ret (es, s') ∧
           finish_loading s' demo_worker_key 1 42 = (ReadyStale, s').
Proof.
  destruct (stale_load_ignored demo_empty [ConnectWithOwner demo_worker_key descriptor_default 7] 1
              demo_worker_key 42) as (es & s' & E & Hf & _).
  - exact demo_empty_wf.
  - vm_compute. discriminate.
  - vm_compute. discriminate.
  - vm_compute. discriminate.
  - vm_compute. reflexivity.
  - exists es, s'. split; [exact E | exact Hf].
Defined.

Definition demo_slot : @SharedWorkerEntry N := mk_entry 1 descriptor_default [mk_client 1 7] Loading.

Definition demo_loading : @SharedWorkerRegistryState N :=
  mk_registry 1 1 {[demo_worker_key := demo_slot]} {[1 := demo_worker_key]}.

Lemma demo_loading_wf : registry_wf demo_loading.
Proof.
  apply (wf_open demo_empty demo_worker_key demo_slot (mk_client 1 7));
    [exact demo_empty_wf | done | done | done | simpl; lia | simpl; lia |].
  intros k' e' He'. simpl in He'. by rewrite lookup_empty in He'.
Qed.

Lemma load_then_connect_witness :
  ∃ s' o, finish_loading demo_loading demo_worker_key 1 42 = (ReadyRunning 1 [1] 42, s') ∧
          connect_with_owner_observed s' demo_worker_key descriptor_default 8 = Ret o ∧
          action _ o = ConnectToRunning 1 2 42.
Proof.
  destruct (load_then_connect demo_loading demo_worker_key demo_slot 42 descriptor_default 8)
    as (s' & E & _ & o & Eo & Hm).
  - exact demo_loading_wf.
  - vm_compute. reflexivity.
  - reflexivity.
  - reflexivity.
  - reflexivity.
  - exists s', o. split; [exact E |]. split; [exact Eo |]. exact (proj1 Hm).
Defined.
