(* ===== verification/HttpCache.v ===== *)
(** * HTTP cache decisions (moli-http-cache)

    What may be stored and for how long (policy.rs), on which request fields
    a response depends (vary.rs), how a 304 updates a stored response
    (revalidation.rs) and which entries give way (eviction.rs).  The clock is
    an argument; the date parser of the [httpdate] crate, the URL type and
    the outcome of removing a directory are parameters. *)

From S2P Require Import Prelude Utf8 HeaderField.
#[local] Open Scope N_scope.

Notation Headers := (list (list char * list N)).

(** [saturating_sub] and [saturating_mul] *)
Definition saturating_sub64 (a b : N) : N := a - b.
Definition saturating_mul64 (a b : N) : N := N.min (a * b) u64_max.

(** A left fold whose steps may panic. *)
Fixpoint fold_run {A B} (f : A → B → run A) (a : A) (l : list B) : run A :=
  match l with
  | [] => Ret a
  | b :: l => a ← f a b; fold_run f a l
  end.

Notation COMMA := 44.

(** ** policy.rs *)
Record HttpCacheResponsePolicy := mk_policy { store : bool; expires_at_unix_ms : option N }.

(** The local variables of [response_cache_policy]. *)
Record policy_scan := mk_scan {
  scan_store : bool;
  requires_validation : bool;
  max_age_seconds : option N;
  expires_header_unix_ms : option N;
  date_unix_ms : option N;
  age_seconds : N
}.

Definition scan_start : policy_scan := mk_scan true false None None None 0.

(** A directive's name and unquoted argument. *)
Definition parse_directive (directive : list char) : list char * option (list char) :=
  match split_once_at EQUALS directive with
  | Some (name, value) => (trim name, Some (unquote_parameter_value (trim value)))
  | None => (directive, None)
  end.

Definition directive_step (st : policy_scan) (directive : list char) : policy_scan :=
  let '(name, value) := parse_directive directive in
  if eq_ignore_ascii_case name (chars "no-store") || eq_ignore_ascii_case name (chars "private")
  then mk_scan false (requires_validation st) (max_age_seconds st) (expires_header_unix_ms st)
         (date_unix_ms st) (age_seconds st)
  else if eq_ignore_ascii_case name (chars "no-cache")
  then mk_scan (scan_store st) true (max_age_seconds st) (expires_header_unix_ms st)
         (date_unix_ms st) (age_seconds st)
  else if eq_ignore_ascii_case name (chars "max-age")
  then match value ≫= parse_u64_chars with
       | Some seconds => mk_scan (scan_store st) (requires_validation st) (Some seconds)
                           (expires_header_unix_ms st) (date_unix_ms st) (age_seconds st)
       | None => st
       end
  else st.

(** The trimmed directives of a field value. *)
Definition directives (value : list char) : run (list (list char)) :=
  l ← split_outside_quoted_strings value COMMA; Ret (fmap (M:=list) trim l).

Definition cache_expires_at_unix_ms (now_ms : N) (max_age expires_header date : option N) (age : N)
    : option N :=
  match max_age with
  | Some max_age =>
      let apparent_age_ms := match date with Some date_ms => saturating_sub64 now_ms date_ms | None => 0 end in
      let response_age_ms := N.max apparent_age_ms (saturating_mul64 age 1000) in
      let freshness_ms := saturating_sub64 (saturating_mul64 max_age 1000) response_age_ms in
      Some (saturating_add64 now_ms freshness_ms)
  | None => expires_header
  end.

Section policy.
(** [httpdate::parse_http_date]: seconds since the epoch, which may be
    before it. *)
Context (parse_http_date : list char → option Z).

(** [duration_since(UNIX_EPOCH)] and [as_millis() as u64] *)
Definition http_date_unix_ms (value : list char) : option N :=
  match parse_http_date value with
  | Some seconds => if (0 <=? seconds)%Z then Some (Z.to_N seconds * 1000 mod (u64_max + 1)) else None
  | None => None
  end.

Definition header_step (st : policy_scan) (h : list char * list N) : run policy_scan :=
  let '(name, value) := h in
  let value := decode_header_value value in
  if eq_ignore_ascii_case name (chars "cache-control") then
    l ← directives value; Ret (foldl directive_step st l)
  else if eq_ignore_ascii_case name (chars "pragma") then
    Ret (if existsb (λ d, eq_ignore_ascii_case (trim d) (chars "no-cache")) (split_on COMMA value)
         then mk_scan false (requires_validation st) (max_age_seconds st) (expires_header_unix_ms st)
                (date_unix_ms st) (age_seconds st)
         else st)
  else if eq_ignore_ascii_case name (chars "expires") then
    Ret (match http_date_unix_ms value with
         | Some ms => mk_scan (scan_store st) (requires_validation st) (max_age_seconds st) (Some ms)
                        (date_unix_ms st) (age_seconds st)
         | None => st
         end)
  else if eq_ignore_ascii_case name (chars "date") then
    Ret (match http_date_unix_ms value with
         | Some ms => mk_scan (scan_store st) (requires_validation st) (max_age_seconds st)
                        (expires_header_unix_ms st) (Some ms) (age_seconds st)
         | None => st
         end)
  else if eq_ignore_ascii_case name (chars "age") then
    Ret (match parse_u64_chars (trim value) with
         | Some seconds => mk_scan (scan_store st) (requires_validation st) (max_age_seconds st)
                             (expires_header_unix_ms st) (date_unix_ms st) seconds
         | None => st
         end)
  else Ret st.

Definition response_cache_policy (now_ms : N) (headers : Headers) : run HttpCacheResponsePolicy :=
  st ← fold_run header_step scan_start headers;
  Ret (mk_policy (scan_store st)
         (if requires_validation st then None
          else cache_expires_at_unix_ms now_ms (max_age_seconds st) (expires_header_unix_ms st)
                 (date_unix_ms st) (age_seconds st))).

Definition cacheable_response_status (status : N) : bool :=
  ((200 <=? status) && (status <? 300)) || bool_decide (status ∈ [301; 302; 303; 307; 308]).

Definition cacheable_response_parts_policy {Url} `{EqDecision Url} (now_ms : N) (request_url final_url : Url)
    (status : N) (headers : Headers) (redirected : bool) : run (option HttpCacheResponsePolicy) :=
  if negb (cacheable_response_status status) || redirected || bool_decide (final_url ≠ request_url)
     || existsb (λ h, bool_decide (h.1 = chars "set-cookie")) headers
  then Ret None
  else policy ← response_cache_policy now_ms headers; Ret (if store policy then Some policy else None).
End policy.

Definition cached_response_is_stale_at (now_ms : N) (expires_at : option N) (force_validate : bool) : bool :=
  if force_validate then true
  else match expires_at with Some expires_at => expires_at <=? now_ms | None => true end.

(** [split_once('=').map(|(name, _)| name.trim()).unwrap_or(directive)] *)
Definition directive_name (directive : list char) : list char :=
  match split_once_at EQUALS directive with Some (name, _) => trim name | None => directive end.

(** [flat_map] over the field values *)
Fixpoint all_directives (values : list (list char)) : run (list (list char)) :=
  match values with
  | [] => Ret []
  | v :: values => l ← directives v; l' ← all_directives values; Ret (l ++ l')
  end.

Definition cached_response_is_fresh_immutable_at (now_ms : N) (headers : Headers) (expires_at : option N)
    : run bool :=
  let headers := headers_to_byte_strings headers in
  if match expires_at with Some expires_at => now_ms <? expires_at | None => false end
  then l ← all_directives (snd <$> filter (λ h, eq_ignore_ascii_case h.1 (chars "cache-control")) headers);
       Ret (existsb (λ d, eq_ignore_ascii_case (directive_name d) (chars "immutable")) l)
  else Ret false.

Definition request_cache_control_forbids_storage (value : list char) : run bool :=
  l ← directives value;
  Ret (existsb (λ d, eq_ignore_ascii_case (directive_name d) (chars "no-store")) l).

Definition request_cache_control_requires_validation (value : list char) : run bool :=
  l ← directives value;
  Ret (existsb (λ d, let '(name, value) := parse_directive d in
                     eq_ignore_ascii_case name (chars "no-cache") ||
                     (eq_ignore_ascii_case name (chars "max-age") && bool_decide (value = Some (chars "0")))) l).

Definition request_pragma_requires_validation (value : list char) : run bool :=
  l ← directives value; Ret (existsb (λ d, eq_ignore_ascii_case d (chars "no-cache")) l).

Definition request_header_requires_validation (name value : list char) : run bool :=
  if eq_ignore_ascii_case name (chars "cache-control") then request_cache_control_requires_validation value
  else if eq_ignore_ascii_case name (chars "pragma") then request_pragma_requires_validation value
  else Ret false.

(** ** vary.rs *)

(** [str::to_ascii_lowercase] *)
Definition lowercase (s : list char) : list char := to_ascii_lowercase <$> s.

Definition nonempty (s : list char) : bool := match s with [] => false | _ => true end.

(** The trimmed, non-empty tokens of every field of that name. *)
Definition field_tokens (name : list char) (headers : Headers) : list (list char) :=
  filter (λ t, nonempty t)
    (trim <$> ((snd <$> filter (λ h, eq_ignore_ascii_case h.1 name) (headers_to_byte_strings headers))
               ≫= split_on COMMA)).

Fixpoint vary_loop (seen out raw_names : list (list char)) : option (list (list char)) :=
  match raw_names with
  | [] => Some out
  | raw :: raw_names =>
      if bool_decide (raw = chars "*") then None
      else let normalized := lowercase raw in
           if bool_decide (normalized ∈ seen) then vary_loop seen out raw_names
           else vary_loop (normalized :: seen) (out ++ [normalized]) raw_names
  end.

Definition response_vary_header_names (headers : Headers) : option (list (list char)) :=
  vary_loop [] [] (field_tokens (chars "vary") headers).

(** ** revalidation.rs *)
Definition find_exact (name : list char) (headers : Headers) : option (list N) :=
  snd <$> head (filter (λ h, h.1 = name) headers).

Definition validation_headers_from_headers (record_headers : Headers) : Headers :=
  match find_exact (chars "etag") record_headers with
  | Some etag => [(chars "If-None-Match", etag)]
  | None => []
  end ++
  match find_exact (chars "last-modified") record_headers with
  | Some last_modified => [(chars "If-Modified-Since", last_modified)]
  | None => []
  end.

Definition connection_nominated_header_names (headers : Headers) : list (list char) :=
  fmap (M:=list) lowercase (field_tokens (chars "connection") headers).

Definition hop_by_hop : list (list char) :=
  [chars "content-length"; chars "connection"; chars "keep-alive"; chars "proxy-authenticate";
   chars "proxy-authorization"; chars "te"; chars "trailer"; chars "transfer-encoding"; chars "upgrade"].

Definition should_skip_not_modified_header (name : list char) (nominated : list (list char)) : bool :=
  let lower_name := lowercase name in
  bool_decide (lower_name ∈ nominated) || bool_decide (lower_name ∈ hop_by_hop).

(** The first field of that name takes the value, or the field is added. *)
Fixpoint update_header (headers : Headers) (name : list char) (value : list N) : Headers :=
  match headers with
  | [] => [(name, value)]
  | (existing_name, v) :: headers =>
      if eq_ignore_ascii_case existing_name name then (existing_name, value) :: headers
      else (existing_name, v) :: update_header headers name value
  end.

Definition merge_not_modified_headers (cached not_modified : Headers) : Headers :=
  let nominated := connection_nominated_header_names not_modified in
  foldl (λ headers '(name, value),
           if should_skip_not_modified_header name nominated then headers
           else update_header headers name value) cached not_modified.

(** ** eviction.rs *)
Record CacheEntryForEviction := mk_cache_entry {
  entry_dir : N;               (** the path, of which only the identity matters *)
  last_used_at_unix_ms : N;
  size : N;
  protected : bool
}.

(** [sort_by_key]: a stable sort. *)
Definition evict_before (a b : CacheEntryForEviction) : bool :=
  match protected a, protected b with
  | false, true => true
  | true, false => false
  | _, _ => last_used_at_unix_ms a <=? last_used_at_unix_ms b
  end.

Fixpoint insert_entry (e : CacheEntryForEviction) (l : list CacheEntryForEviction)
    : list CacheEntryForEviction :=
  match l with
  | [] => [e]
  | f :: l => if evict_before e f then e :: f :: l else f :: insert_entry e l
  end.

Definition sort_entries (l : list CacheEntryForEviction) : list CacheEntryForEviction :=
  foldr insert_entry [] l.

Section eviction.
(** Whether [fs::remove_dir_all] succeeds on the entry. *)
Context (remove_ok : CacheEntryForEviction → bool).

(** Removed and remaining entries of the loop. *)
Fixpoint prune_loop (max_bytes total : N) (l : list CacheEntryForEviction)
    : list CacheEntryForEviction * list CacheEntryForEviction :=
  match l with
  | [] => ([], [])
  | e :: l' =>
      if total <=? max_bytes then ([], l)
      else if protected e then prod_map id (cons e) (prune_loop max_bytes total l')
      else if remove_ok e
      then prod_map (cons e) id (prune_loop max_bytes (saturating_sub64 total (size e)) l')
      else prod_map id (cons e) (prune_loop max_bytes total l')
  end.

Definition prune_cache_to_max_bytes (cache_entries : list CacheEntryForEviction) (max_bytes : N)
    : run (list CacheEntryForEviction * list CacheEntryForEviction) :=
  total ← fold_run (λ s e, add64 s (size e)) 0 cache_entries;
  if total <=? max_bytes then Ret ([], cache_entries)
  else Ret (prune_loop max_bytes total (sort_entries cache_entries)).
End eviction.

(** ** Quoted arguments *)
Definition directive_ok (p : list char * list char) : Prop :=
  COMMA ∉ p.1 ∧ EQUALS ∉ p.1 ∧ p.1 ≠ [] ∧ trimmed p.1.

#[global] Instance directive_ok_dec p : Decision (directive_ok p).
Proof. unfold directive_ok. apply _. Defined.

Lemma trimmed_ends c s d : is_white_space c = false → is_white_space d = false → trimmed (c :: s ++ [d]).
Proof. intros Hc Hd. split; [done |]. rewrite app_comm_cons, last_snoc. done. Qed.

Lemma trim_quote v : trim (quote v) = quote v.
Proof. apply trim_trimmed. by apply trimmed_ends. Qed.

Lemma trim_render p : directive_ok p → trim (render p) = render p.
Proof.
  intros (_ & _ & Hne & Hh & _). destruct p as [[|c n] v]; [done |]. apply trim_trimmed.
  change (render (c :: n, v)) with (c :: n ++ (EQUALS :: QUOTE :: escape v) ++ [QUOTE]).
  rewrite app_assoc. by apply trimmed_ends.
Qed.

Lemma parse_render p : directive_ok p → parse_directive (render p) = (p.1, Some p.2).
Proof.
  intros (_ & He & _ & Ht). unfold parse_directive, render. rewrite split_once_at_app by done.
  by rewrite trim_quote, unquote_quote, trim_trimmed.
Qed.

Lemma name_render p : directive_ok p → directive_name (render p) = p.1.
Proof.
  intros (_ & He & _ & Ht). unfold directive_name, render. rewrite split_once_at_app by done.
  by apply trim_trimmed.
Qed.

Lemma directives_rendered ps : ps ≠ [] → Forall directive_ok ps →
  directives (join COMMA (render <$> ps)) = Ret (render <$> ps).
Proof.
  intros Hne Hps. unfold directives. rewrite split_rendered; [| done.. |].
  - cbn [mbind run_bind]. f_equal. induction Hps as [|p ps Hp _ IH]; [done |].
    destruct ps as [|p' ps]; [by cbn; rewrite trim_render |].
    cbn [fmap list_fmap] in *. rewrite trim_render by done. f_equal. by apply IH.
  - eapply Forall_impl; [exact Hps |]. intros p (? & ? & _). done.
Qed.

Lemma existsb_rendered (f : list char → bool) (g : list char * list char → bool) ps :
  Forall directive_ok ps → (∀ p, directive_ok p → f (render p) = g p) →
  existsb f (render <$> ps) = existsb g ps.
Proof. intros Hps Hfg. induction Hps as [|p ps Hp _ IH]; [done |]. cbn. by rewrite Hfg, IH. Qed.

Lemma fold_store ps st : Forall directive_ok ps →
  scan_store (foldl directive_step st (render <$> ps))
  = scan_store st && negb (existsb (λ p, eq_ignore_ascii_case p.1 (chars "no-store") ||
                                         eq_ignore_ascii_case p.1 (chars "private")) ps).
Proof.
  intros Hps. revert st. induction Hps as [|p ps Hp _ IH]; intros st; [cbn; by rewrite andb_true_r |].
  cbn [fmap list_fmap foldl existsb]. rewrite IH. unfold directive_step. rewrite parse_render by done.
  destruct (_ || _); simpl; [by destruct (scan_store st) |].
  destruct (eq_ignore_ascii_case p.1 (chars "no-cache")); [done |].
  destruct (eq_ignore_ascii_case p.1 (chars "max-age")); [| done].
  by destruct (parse_u64_chars p.2).
Qed.

(** Text inside a quoted argument is never read as a directive. For a
    Cache-Control value made of directives with quoted arguments of any
    content, commas, quotes and directive names included, the request checks
    and the storage decision for a response see exactly the names given. *)
Theorem quoted_arguments_forge_nothing (parse_http_date : list char → option Z) (now_ms : N)
    (name : list char) (ps : list (list char * list char)) :
  ps ≠ [] → Forall directive_ok ps → eq_ignore_ascii_case name (chars "cache-control") = true →
  let value := join COMMA (render <$> ps) in
  request_cache_control_forbids_storage value
  = Ret (existsb (λ p, eq_ignore_ascii_case p.1 (chars "no-store")) ps) ∧
  request_cache_control_requires_validation value
  = Ret (existsb (λ p, eq_ignore_ascii_case p.1 (chars "no-cache") ||
                       (eq_ignore_ascii_case p.1 (chars "max-age") && bool_decide (p.2 = chars "0"))) ps) ∧
  ∃ policy, response_cache_policy parse_http_date now_ms [(name, value)] = Ret policy ∧
            store policy = negb (existsb (λ p, eq_ignore_ascii_case p.1 (chars "no-store") ||
                                               eq_ignore_ascii_case p.1 (chars "private")) ps).
Proof.
  intros Hne Hps Hname value. pose proof (directives_rendered ps Hne Hps) as Hd. fold value in Hd.
  split; [| split].
  - unfold request_cache_control_forbids_storage. rewrite Hd. cbn [mbind run_bind]. f_equal.
    apply existsb_rendered; [done |]. intros p Hp. by rewrite name_render.
  - unfold request_cache_control_requires_validation. rewrite Hd. cbn [mbind run_bind]. f_equal.
    apply existsb_rendered; [done |]. intros p Hp. rewrite parse_render by done. do 2 f_equal.
    apply bool_decide_ext. split; congruence.
  - unfold response_cache_policy. cbn [fold_run header_step]. rewrite Hname, decode_header_value_id, Hd.
    cbn [mbind run_bind]. eexists. split; [done |]. cbn [store]. by rewrite fold_store.
Qed.

(** ** Merging a 304 *)
Lemma field_values_cons n f h :
  field_values n (f :: h) = (if eq_ignore_ascii_case n f.1 then [f.2] else []) ++ field_values n h.
Proof.
  unfold field_values. rewrite filter_cons. destruct (eq_ignore_ascii_case n f.1); by case_decide.
Qed.

Lemma eq_ignore_congruent n a b :
  eq_ignore_ascii_case a b = true → eq_ignore_ascii_case n a = eq_ignore_ascii_case n b.
Proof.
  rewrite eq_ignore_ascii_case_spec. intros E. unfold eq_ignore_ascii_case. by rewrite E.
Qed.

Lemma field_values_update n h m v :
  field_values n (update_header h m v)
  = if eq_ignore_ascii_case n m then v :: tail (field_values n h) else field_values n h.
Proof.
  induction h as [|[en ev] h IH]; cbn [update_header].
  { rewrite field_values_cons. simpl. by destruct (eq_ignore_ascii_case n m). }
  destruct (eq_ignore_ascii_case en m) eqn:E; rewrite !field_values_cons; cbn [fst snd].
  - rewrite (eq_ignore_congruent n _ _ E). by destruct (eq_ignore_ascii_case n m).
  - rewrite IH. destruct (eq_ignore_ascii_case n m) eqn:Em; [| done].
    destruct (eq_ignore_ascii_case n en) eqn:En; [| done].
    rewrite eq_ignore_ascii_case_sym in En. pose proof (eq_ignore_ascii_case_trans _ _ _ En Em). congruence.
Qed.

(** What a 304 does to each field. Hop-by-hop fields and those its
    Connection field names are passed over; of the other fields of a name
    the last value replaces the first stored one, and the stored fields of
    that name after the first stay. So repeated fields are not replaced as a
    whole: all values but the last of the 304 are lost, and old values
    survive. *)
Theorem merge_updates_first_with_last (cached not_modified : Headers) (name : list char) :
  let kept := filter (λ h, negb (should_skip_not_modified_header h.1
                                   (connection_nominated_header_names not_modified))) not_modified in
  field_values name (merge_not_modified_headers cached not_modified)
  = match last (field_values name kept) with
    | Some v => v :: tail (field_values name cached)
    | None => field_values name cached
    end.
Proof.
  cbv zeta. unfold merge_not_modified_headers.
  generalize (connection_nominated_header_names not_modified) as nominated. intros nominated.
  induction not_modified as [|[n v] l IH] using rev_ind; [done |].
  rewrite foldl_app. cbn [foldl]. rewrite filter_app, (filter_cons _ (n, v)). cbn [fst].
  destruct (should_skip_not_modified_header n nominated); cbn [negb].
  - rewrite decide_False by (simpl; tauto). rewrite filter_nil, app_nil_r. apply IH.
  - rewrite decide_True by done. rewrite filter_nil, field_values_update, IH.
    assert (∀ h, field_values name (h ++ [(n, v)]) =
                 field_values name h ++ (if eq_ignore_ascii_case name n then [v] else [])) as ->.
    { intros h. unfold field_values. rewrite filter_app, fmap_app. f_equal.
      change (field_values name [(n, v)] = if eq_ignore_ascii_case name n then [v] else []).
      rewrite field_values_cons. cbn [fst snd]. by destruct (eq_ignore_ascii_case name n). }
    destruct (eq_ignore_ascii_case name n); [| by rewrite app_nil_r].
    rewrite last_snoc. by destruct (last (field_values name _)).
Qed.

(** ** Vary *)
Lemma vary_loop_spec seen out raws : NoDup out → (∀ x, x ∈ seen ↔ x ∈ out) →
  match vary_loop seen out raws with
  | None => chars "*" ∈ raws
  | Some names => chars "*" ∉ raws ∧ NoDup names ∧
                  ∀ x, x ∈ names ↔ x ∈ out ∨ ∃ raw, raw ∈ raws ∧ x = lowercase raw
  end.
Proof.
  revert seen out. induction raws as [|raw raws IH]; intros seen out Hnd Hseen; cbn [vary_loop].
  { split; [set_solver |]. split; [done |]. set_solver. }
  case_bool_decide as Hstar; [rewrite Hstar; left |]. case_bool_decide as Hin.
  - specialize (IH seen out Hnd Hseen). destruct (vary_loop seen out raws) as [names|]; [| by right].
    destruct IH as (Hs & Hn & Hx). split; [set_solver |]. split; [done |]. intros x. rewrite Hx.
    setoid_rewrite elem_of_cons. apply Hseen in Hin. naive_solver.
  - specialize (IH (lowercase raw :: seen) (out ++ [lowercase raw])).
    destruct (vary_loop _ _ _) as [names|].
    + destruct IH as (Hs & Hn & Hx).
      * apply NoDup_app. split; [done |]. split; [| apply NoDup_singleton]. set_solver.
      * set_solver.
      * split; [set_solver |]. split; [done |]. intros x. rewrite Hx. setoid_rewrite elem_of_cons. set_solver.
    + right. apply IH; [| set_solver]. apply NoDup_app. split; [done |]. split; [set_solver | apply NoDup_singleton].
Qed.

(** The Vary names are the distinct lower-case tokens of all Vary fields,
    unless one of them is the star. *)
Lemma vary_names_exact headers :
  match response_vary_header_names headers with
  | None => chars "*" ∈ field_tokens (chars "vary") headers
  | Some names => chars "*" ∉ field_tokens (chars "vary") headers ∧ NoDup names ∧
                  ∀ x, x ∈ names ↔ ∃ raw, raw ∈ field_tokens (chars "vary") headers ∧ x = lowercase raw
  end.
Proof.
  unfold response_vary_header_names.
  pose proof (vary_loop_spec [] [] (field_tokens (chars "vary") headers)) as H.
  destruct (vary_loop _ _ _) as [names|]; [| apply H; [constructor | done]].
  destruct H as (Hs & Hn & Hx); [constructor | done |]. split; [done |]. split; [done |].
  intros x. rewrite Hx. set_solver.
Qed.

(** ** Eviction *)
Notation entry_sizes := (Nsum size).

Lemma evict_before_trans a b c : evict_before a b = true → evict_before b c = true → evict_before a c = true.
Proof.
  unfold evict_before. destruct (protected a), (protected b), (protected c); try done;
    rewrite ?N.leb_le; lia.
Qed.

Lemma evict_before_total a b : evict_before a b = false → evict_before b a = true.
Proof. unfold evict_before. destruct (protected a), (protected b); try done; rewrite N.leb_gt, N.leb_le; lia. Qed.

Notation ordered := (StronglySorted (λ a b, evict_before a b = true)).

Lemma insert_entry_perm e l : insert_entry e l ≡ₚ e :: l.
Proof.
  induction l as [|f l IH]; simpl; [done |]. destruct (evict_before e f); [done |]. rewrite IH. apply Permutation_swap.
Qed.

Lemma sort_entries_perm l : sort_entries l ≡ₚ l.
Proof. induction l as [|e l IH]; simpl; [done |]. by rewrite insert_entry_perm, IH. Qed.

Lemma insert_entry_ordered e l : ordered l → ordered (insert_entry e l).
Proof.
  induction 1 as [|f l Hl IH Hf]; simpl; [by repeat constructor |].
  destruct (evict_before e f) eqn:E.
  - constructor; [by constructor |]. constructor; [done |].
    eapply Forall_impl; [exact Hf |]. intros x Hx. by eapply evict_before_trans.
  - constructor; [done |]. rewrite insert_entry_perm. constructor; [by apply evict_before_total | done].
Qed.

Lemma sort_entries_ordered l : ordered (sort_entries l).
Proof. induction l; simpl; [constructor | by apply insert_entry_ordered]. Qed.

Lemma sum_sizes l a : a + entry_sizes l ≤ u64_max →
  fold_run (λ s e, add64 s (size e)) a l = Ret (a + entry_sizes l).
Proof.
  revert a. induction l as [|e l IH]; intros a H; simpl in *; [f_equal; lia |].
  rewrite add64_fits by lia. cbn [mbind run_bind]. rewrite IH by lia. f_equal. lia.
Qed.

Section eviction_spec.
Context (remove_ok : CacheEntryForEviction → bool).

(** An entry the pruning could remove. *)
Definition removable (e : CacheEntryForEviction) : Prop := protected e = false ∧ remove_ok e = true.

(** What a run of the loop over sorted entries leaves. *)
Record pruned (max_bytes total : N) (l removed kept : list CacheEntryForEviction) : Prop := {
  pruned_split : removed ++ kept ≡ₚ l;
  pruned_removable : Forall removable removed;
  pruned_enough : total - entry_sizes removed ≤ max_bytes ∨ Forall (λ e, ¬ removable e) kept;
  pruned_lru : ∀ r k, r ∈ removed → k ∈ kept → removable k →
                 last_used_at_unix_ms r ≤ last_used_at_unix_ms k;
  pruned_least : ∀ init x, removed = init ++ [x] → max_bytes < total - entry_sizes init
}.

Lemma pruned_skip max total e l removed kept :
  max < total → ¬ removable e → pruned max total l removed kept → pruned max total (e :: l) removed (e :: kept).
Proof.
  intros Hm He [Hs Hr Hen Hl Hle]. split; [| done | | |done].
  - by rewrite <-Hs, Permutation_middle.
  - destruct Hen; [by left | right; by constructor].
  - intros r k Hin [->|Hk]%elem_of_cons Hk'; [done |]. by apply Hl.
Qed.

Lemma pruned_take max total e l removed kept :
  max < total → removable e → Forall (λ f, evict_before e f = true) l →
  pruned max (total - size e) l removed kept → pruned max total (e :: l) (e :: removed) kept.
Proof.
  intros Hm He Hfirst [Hs Hr Hen Hl Hle]. split.
  - by rewrite <-Hs.
  - by constructor.
  - simpl. destruct Hen; [left; lia | by right].
  - intros r k [->|Hin]%elem_of_cons Hk Hrem; [| by apply Hl].
    assert (k ∈ l) as Hkl by (rewrite <-Hs; set_solver).
    rewrite Forall_forall in Hfirst. specialize (Hfirst k Hkl). unfold evict_before in Hfirst.
    destruct He as [Hpe _], Hrem as [Hp _]. rewrite Hpe, Hp in Hfirst. by apply N.leb_le.
  - intros init x Hx. destruct init as [|y init]; simpl in *; [lia |]. injection Hx as <- Hx.
    specialize (Hle init x Hx). lia.
Qed.

Lemma prune_loop_ok max total l : ordered l →
  pruned max total l (prune_loop remove_ok max total l).1 (prune_loop remove_ok max total l).2.
Proof.
  intros Hl. revert total. induction Hl as [|e l Hl IH He]; intros total; cbn [prune_loop].
  { split; [done | constructor | right; constructor | set_solver |]. by intros [] ? ?. }
  destruct (N.leb_spec total max) as [Hle|Hgt].
  { split; simpl; [done | constructor | left; lia | set_solver |]. by intros [] ? ?. }
  destruct (protected e) eqn:Hp.
  { apply pruned_skip; [done | by intros [? _]; congruence | apply IH]. }
  destruct (remove_ok e) eqn:Hr.
  - apply pruned_take; [done | by split | done | apply IH].
  - apply pruned_skip; [done | by intros [_ ?]; congruence | apply IH].
Qed.

(** Pruning evicts the least recently used entries and no more than
    needed. Whatever removals fail, it returns a split of the entries in
    which only unprotected ones are removed; afterwards the rest fits, or
    nothing that could be removed is left; no removed entry was used after a
    removable one that stays; and before its last removal the cache was
    still over the limit. *)
Theorem prune_least_recently_used (cache_entries : list CacheEntryForEviction) (max_bytes : N) :
  entry_sizes cache_entries ≤ u64_max →
  ∃ removed kept, prune_cache_to_max_bytes remove_ok cache_entries max_bytes = Ret (removed, kept) ∧
    removed ++ kept ≡ₚ cache_entries ∧ Forall removable removed ∧
    (entry_sizes kept ≤ max_bytes ∨ Forall (λ e, ¬ removable e) kept) ∧
    (∀ r k, r ∈ removed → k ∈ kept → removable k → last_used_at_unix_ms r ≤ last_used_at_unix_ms k) ∧
    (∀ init x, removed = init ++ [x] → max_bytes < size x + entry_sizes kept).
Proof.
  intros Hsum. unfold prune_cache_to_max_bytes. rewrite sum_sizes by lia. cbn [mbind run_bind].
  rewrite N.add_0_l. destruct (N.leb_spec (entry_sizes cache_entries) max_bytes) as [Hle|Hgt].
  { exists [], cache_entries. split; [done |]. split; [done |]. split; [constructor |]. split; [by left |].
    split; [set_solver |]. by intros [] ? ?. }
  pose proof (prune_loop_ok max_bytes (entry_sizes cache_entries) _ (sort_entries_ordered cache_entries)) as Hp.
  destruct (prune_loop _ _ _ _) as [removed kept] eqn:E. destruct Hp as [Hs Hr Hen Hlru Hleast]. simpl in *.
  rewrite sort_entries_perm in Hs.
  assert (entry_sizes removed + entry_sizes kept = entry_sizes cache_entries) as Htot by (by rewrite <-Nsum_app, Hs).
  exists removed, kept. split; [done |]. split; [done |]. split; [done |].
  split; [destruct Hen; [left; lia | by right] |].
  split; [done |].
  intros init x Hx. specialize (Hleast init x Hx). rewrite Hx, Nsum_app in Htot. simpl in Htot. lia.
Qed.
End eviction_spec.

(** ** Witnesses *)
Definition demo_directives : list (list char * list char) :=
  [(chars "community", chars "x, no-store, y"); (chars "private", chars "Set-Cookie, X")].

Lemma quoted_arguments_forge_nothing_witness :
  request_cache_control_forbids_storage (join COMMA (render <$> demo_directives)) = Ret false ∧
  ∃ policy, response_cache_policy (λ _, None) 0 [(chars "Cache-Control", join COMMA (render <$> demo_directives))]
            = Ret policy ∧ store policy = false.
Proof.
  destruct (quoted_arguments_forge_nothing (λ _, None) 0 (chars "Cache-Control") demo_directives)
    as (H1 & _ & policy & H2 & H3).
  - discriminate.
  - apply (bool_decide_unpack _). vm_compute. exact I.
  - vm_compute. reflexivity.
  - split; [exact H1 |]. exists policy. split; [exact H2 | exact H3].
Defined.

Definition demo_cache : list CacheEntryForEviction :=
  [mk_cache_entry 1 30 10 false; mk_cache_entry 2 10 10 false; mk_cache_entry 3 5 10 true].

Lemma prune_least_recently_used_witness :
  ∃ removed kept, prune_cache_to_max_bytes (λ _, true) demo_cache 20 = Ret (removed, kept) ∧
                  removed = [mk_cache_entry 2 10 10 false] ∧ entry_sizes kept ≤ 20.
Proof.
  destruct (prune_least_recently_used (λ _, true) demo_cache 20) as (removed & kept & E & _).
  - vm_compute. discriminate.
  - exists removed, kept. split; [exact E |]. vm_compute in E. injection E as <- <-.
    split; [reflexivity | vm_compute; discriminate].
Defined.
