(* ===== verification/StreamQueue.v ===== *)
(** Web Streams queues (moli-streams): the numeric validators of
    [numeric.rs], the queue bounds and total-size planning of [queue.rs], the
    strategy arithmetic of [strategy.rs], and the readable-stream queue that
    the renderer keeps behind those plans ([queue_v8.rs]).

    Doubles are the [binary64] instance of the standard library's executable
    [spec_float], so every rounding, overflow to infinity and NaN of the code
    is computed.  [f64::max] returns its other operand on a NaN and, as the
    comment in [queue.rs] relies on, [+0.0] when a [-0.0] meets [0.0]. *)
From Stdlib Require Import SpecFloat.
From stdpp Require Import base list numbers option.
From S2P Require Import Prelude.

#[local] Open Scope N_scope.

(** ** Doubles *)
Module F64.

Notation f64 := spec_float (only parsing).

Definition zero : f64 := S754_zero false.
Definition add : f64 → f64 → f64 := SFadd 53 1024.
Definition sub : f64 → f64 → f64 := SFsub 53 1024.
Definition lt : f64 → f64 → bool := SFltb.
Definition le : f64 → f64 → bool := SFleb.

Definition is_nan (x : f64) : bool :=
  match x with S754_nan => true | _ => false end.

Definition is_finite (x : f64) : bool :=
  match x with S754_zero _ | S754_finite _ _ _ => true | _ => false end.

(** [f64::max(x, 0.0)]. *)
Definition max_zero (x : f64) : f64 := if lt zero x then x else zero.

(** An integer as a double; exact below [2^53]. *)
Definition of_N (n : N) : f64 := binary_normalize 53 1024 (Z.of_N n) 0 false.

(** Not a NaN and not below zero; both zeros qualify. *)
Definition nonneg (x : f64) : bool :=
  match x with
  | S754_nan | S754_infinity true | S754_finite true _ _ => false
  | _ => true
  end.

Definition is_pinf (x : f64) : bool :=
  match x with S754_infinity false => true | _ => false end.

(** The result of a rounding carries the sign it was asked for and is never
    a NaN: the mantissa stays nonnegative through the shifts. *)
Definition has_sign (s : bool) (x : f64) : Prop :=
  match x with
  | S754_zero t | S754_infinity t | S754_finite t _ _ => t = s
  | S754_nan => False
  end.

Lemma shr_1_nonneg r : (0 ≤ shr_m r)%Z → (0 ≤ shr_m (shr_1 r))%Z.
Proof. destruct r as [[|[]|[]] ? ?]; simpl; lia. Qed.

Lemma iter_pos_nonneg (p : positive) (r : shr_record) :
  (0 ≤ shr_m r)%Z → (0 ≤ shr_m (SpecFloat.iter_pos shr_1 p r))%Z.
Proof. revert r. induction p; simpl; auto using shr_1_nonneg. Qed.

Lemma shr_fexp_nonneg p e m x l :
  (0 ≤ m)%Z → (0 ≤ shr_m (shr_fexp p e m x l).1)%Z.
Proof.
  intros Hm. unfold shr_fexp, shr.
  assert (0 ≤ shr_m (shr_record_of_loc m l))%Z by (destruct l as [|[]]; done).
  destruct (_ - x)%Z; simpl; auto using iter_pos_nonneg.
Qed.

Lemma round_nearest_even_nonneg m l : (0 ≤ m)%Z → (0 ≤ round_nearest_even m l)%Z.
Proof. destruct l as [|[]]; simpl; try case_match; lia. Qed.

Lemma binary_round_aux_sign p e s m x l :
  (0 ≤ m)%Z → has_sign s (binary_round_aux p e s m x l).
Proof.
  intros Hm. unfold binary_round_aux.
  pose proof (shr_fexp_nonneg p e m x l Hm) as H1.
  destruct (shr_fexp p e m x l) as [r e']; simpl in H1.
  pose proof (shr_fexp_nonneg p e _ e' loc_Exact
                (round_nearest_even_nonneg _ (loc_of_shr_record r) H1)) as H2.
  destruct (shr_fexp _ _ _ e' _) as [r' e'']; simpl in H2.
  destruct (shr_m r'); [done | by case_match | lia].
Qed.

Lemma binary_normalize_sign p e m x :
  has_sign false (binary_normalize p e m x false) ∨
  has_sign true (binary_normalize p e m x false).
Proof.
  destruct m; simpl; [by left | left | right]; unfold binary_round;
    destruct (shl_align _ _ _); by apply binary_round_aux_sign.
Qed.

Lemma binary_normalize_nonneg p e m x :
  (0 ≤ m)%Z → has_sign false (binary_normalize p e m x false).
Proof.
  intros Hm. destruct m; simpl; [done | | lia]. unfold binary_round.
  destruct (shl_align _ _ _); by apply binary_round_aux_sign.
Qed.

Lemma has_sign_nonneg x : has_sign false x → nonneg x = true.
Proof. by destruct x as [|[]| |[]]. Qed.

Lemma add_nonneg x y : nonneg x = true → nonneg y = true → nonneg (add x y) = true.
Proof.
  destruct x as [[]|[]| |[] mx ex], y as [[]|[]| |[] my ey]; try done; intros _ _.
  apply has_sign_nonneg. unfold add, SFadd. apply binary_normalize_nonneg. simpl. lia.
Qed.

(** A difference of nonnegative doubles is a NaN only for [inf - inf]. *)
Lemma sub_is_nan x y :
  nonneg x = true → nonneg y = true →
  is_nan (sub x y) = is_pinf x && is_pinf y.
Proof.
  destruct x as [[]|[]| |[] mx ex], y as [[]|[]| |[] my ey]; try done; intros _ _.
  unfold sub, SFsub, is_pinf, andb.
  destruct (binary_normalize_sign 53 1024
    (cond_Zopp false (Z.pos (shl_align mx ex (Z.min ex ey)).1)
     - cond_Zopp false (Z.pos (shl_align my ey (Z.min ex ey)).1)) (Z.min ex ey)) as [H|H];
    by destruct (binary_normalize _ _ _ _ _).
Qed.

Lemma max_zero_nonneg x : nonneg (max_zero x) = true.
Proof. by destruct x as [[]|[]| |[]]. Qed.

Lemma lt_zero_nonneg x : is_nan x = false → lt x zero = negb (nonneg x).
Proof. by destruct x as [[]|[]| |[]]. Qed.

(** Comparison with zero splits the doubles that are not NaN. *)
Lemma compare_zero x : is_nan x = false → lt zero x = negb (le x zero).
Proof. by destruct x as [[]|[]| |[]]. Qed.

Lemma compare_zero_nan x : is_nan x = true → lt zero x = false ∧ le x zero = false.
Proof. by destruct x. Qed.

(** ** Integers are exact below [2^53] *)
Section exact.
#[local] Open Scope Z_scope.

Lemma digits2_pos_log2 m : Z.pos (digits2_pos m) = Z.log2 (Z.pos m) + 1.
Proof.
  assert (digits2_pos m = Pos.size m) as ->
    by (induction m as [m IH|m IH|]; simpl; by rewrite ?IH).
  destruct m; simpl; lia.
Qed.

Lemma iter_xO m d : Z.pos (Pos.iter xO m d) = Z.pos m * 2 ^ Z.pos d.
Proof.
  revert m. induction d as [|d IH] using Pos.peano_ind; intros m; [simpl; lia|].
  rewrite Pos.iter_succ, Pos2Z.inj_succ, Z.pow_succ_r, Pos2Z.inj_xO, IH by lia. lia.
Qed.

(** Shifting out zero bits leaves an exact record. *)
Lemma shr_1_even m : 0 < m → shr_1 {| shr_m := 2 * m; shr_r := false; shr_s := false |}
  = {| shr_m := m; shr_r := false; shr_s := false |}.
Proof. by destruct m. Qed.

Lemma iter_pos_iter {A} (f : A → A) p x :
  SpecFloat.iter_pos f p x = Nat.iter (Pos.to_nat p) f x.
Proof.
  revert x. induction p as [p IH|p IH|]; intros x; cbn [SpecFloat.iter_pos]; [| |done];
    rewrite !IH, <-Nat.iter_add.
  - rewrite Pos2Nat.inj_xI. replace (Datatypes.S (2 * Pos.to_nat p))
      with (Pos.to_nat p + Pos.to_nat p + 1)%nat by lia.
    by rewrite (Nat.iter_add _ 1).
  - rewrite Pos2Nat.inj_xO. f_equal. lia.
Qed.

Lemma iter_shr_exact n m :
  0 < m → Nat.iter n shr_1 {| shr_m := m * 2 ^ Z.of_nat n; shr_r := false; shr_s := false |}
  = {| shr_m := m; shr_r := false; shr_s := false |}.
Proof.
  intros Hm. induction n as [|n IH]; [simpl; f_equal; lia|].
  rewrite <-(Nat.add_1_r n), Nat.iter_add, Nat.add_1_r. cbn [Nat.iter nat_rect].
  rewrite Nat2Z.inj_succ, Z.pow_succ_r by lia.
  replace (m * (2 * 2 ^ Z.of_nat n)) with (2 * (m * 2 ^ Z.of_nat n)) by lia.
  rewrite shr_1_even by nia. exact IH.
Qed.

(** Shifting a canonical exponent in: [m * 2^k] at [-k] has the mantissa
    [m * 2^(53 - d)] for [d] digits. *)
Lemma shr_fexp_exact m k :
  0 < m < 2 ^ 53 → 52 - Z.log2 m ≤ k →
  shr_fexp 53 1024 (m * 2 ^ k) (- k) loc_Exact =
  ({| shr_m := m * 2 ^ (52 - Z.log2 m); shr_r := false; shr_s := false |}, Z.log2 m - 52).
Proof.
  intros [Hm Hl] Hk.
  assert (Z.log2 m < 53) by (apply Z.log2_lt_pow2; lia).
  assert (0 <= Z.log2 m) by apply Z.log2_nonneg.
  unfold shr_fexp. simpl.
  assert (0 < m * 2 ^ k) as Hmk by nia.
  assert (Zdigits2 (m * 2 ^ k) = Z.log2 m + k + 1) as ->.
  { destruct (m * 2 ^ k) as [|q|] eqn:E; [lia| |lia]. simpl.
    rewrite digits2_pos_log2, <-E, Z.log2_mul_pow2 by lia. lia. }
  replace (fexp 53 1024 (Z.log2 m + k + 1 + - k)) with (Z.log2 m - 52)
    by (unfold fexp, emin; lia).
  replace (Z.log2 m - 52 - - k) with (k - (52 - Z.log2 m)) by lia.
  destruct (k - (52 - Z.log2 m)) as [|n|] eqn:En; [| |lia]; unfold shr.
  - replace (52 - Z.log2 m) with k by lia. f_equal. lia.
  - rewrite iter_pos_iter.
    replace k with (52 - Z.log2 m + Z.of_nat (Pos.to_nat n)) by lia.
    rewrite Z.pow_add_r, Z.mul_assoc by lia. rewrite iter_shr_exact by nia.
    f_equal. lia.
Qed.

Lemma binary_round_aux_exact m k :
  0 < m < 2 ^ 53 → 52 - Z.log2 m ≤ k →
  binary_round_aux 53 1024 false (m * 2 ^ k) (- k) loc_Exact =
  S754_finite false (Z.to_pos (m * 2 ^ (52 - Z.log2 m))) (Z.log2 m - 52).
Proof.
  intros Hm Hk. unfold binary_round_aux. rewrite shr_fexp_exact by done. simpl.
  assert (0 <= Z.log2 m < 53) by (split; [apply Z.log2_nonneg | apply Z.log2_lt_pow2; lia]).
  replace (Z.log2 m - 52) with (- (52 - Z.log2 m)) by lia.
  rewrite shr_fexp_exact by lia. simpl.
  assert (0 < m * 2 ^ (52 - Z.log2 m)) by nia.
  destruct (m * 2 ^ (52 - Z.log2 m)) as [|q|] eqn:E; [lia| |lia]. simpl.
  rewrite (proj2 (Z.leb_le _ _)) by lia. f_equal. lia.
Qed.

(** The double of [m] in closed form, from any exact scaling of it. *)
Lemma binary_normalize_exact m k :
  0 < m < 2 ^ 53 → 0 ≤ k →
  binary_normalize 53 1024 (m * 2 ^ k) (- k) false =
  S754_finite false (Z.to_pos (m * 2 ^ (52 - Z.log2 m))) (Z.log2 m - 52).
Proof.
  intros Hm Hk.
  assert (0 <= Z.log2 m < 53) by (split; [apply Z.log2_nonneg | apply Z.log2_lt_pow2; lia]).
  assert (0 < m * 2 ^ k) by nia.
  destruct (m * 2 ^ k) as [|q|] eqn:E; [lia| |lia]. simpl. unfold binary_round.
  rewrite digits2_pos_log2, <-E, Z.log2_mul_pow2 by lia.
  replace (fexp 53 1024 (k + Z.log2 m + 1 + - k)) with (Z.log2 m - 52)
    by (unfold fexp, emin; lia).
  unfold shl_align. destruct (Z.log2 m - 52 - - k) as [|n|n] eqn:En.
  - rewrite <-E. apply binary_round_aux_exact; lia.
  - rewrite <-E. apply binary_round_aux_exact; lia.
  - rewrite iter_xO, <-E. rewrite <-Z.mul_assoc, <-Z.pow_add_r by lia.
    replace (k + Z.pos n) with (52 - Z.log2 m) by lia.
    replace (Z.log2 m - 52) with (- (52 - Z.log2 m)) at 1 by lia.
    apply binary_round_aux_exact; lia.
Qed.

Lemma of_N_closed n :
  0 < Z.of_N n < 2 ^ 53 →
  of_N n = S754_finite false (Z.to_pos (Z.of_N n * 2 ^ (52 - Z.log2 (Z.of_N n))))
             (Z.log2 (Z.of_N n) - 52).
Proof.
  intros Hn. rewrite <-(binary_normalize_exact (Z.of_N n) 0) by lia.
  unfold of_N. by rewrite Z.mul_1_r.
Qed.

Lemma shl_align_exact m k :
  0 < m < 2 ^ 53 → 52 - Z.log2 m ≤ k →
  Z.pos (shl_align (Z.to_pos (m * 2 ^ (52 - Z.log2 m))) (Z.log2 m - 52) (- k)).1 = m * 2 ^ k.
Proof.
  intros Hm Hk.
  assert (0 <= Z.log2 m < 53) by (split; [apply Z.log2_nonneg | apply Z.log2_lt_pow2; lia]).
  unfold shl_align. destruct (- k - (Z.log2 m - 52)) as [|p|p] eqn:E; [| lia |]; simpl.
  - rewrite Z2Pos.id by nia. f_equal. f_equal. lia.
  - rewrite iter_xO, Z2Pos.id, <-Z.mul_assoc, <-Z.pow_add_r by nia. f_equal. f_equal. lia.
Qed.

(** The common alignment of two integers below [2^53]. *)
Lemma of_N_aligned a b :
  0 < Z.of_N a < 2 ^ 53 → 0 < Z.of_N b < 2 ^ 53 →
  ∃ k ma ea mb eb, 0 ≤ k ∧ of_N a = S754_finite false ma ea ∧
    of_N b = S754_finite false mb eb ∧ Z.min ea eb = - k ∧
    Z.pos (shl_align ma ea (- k)).1 = Z.of_N a * 2 ^ k ∧
    Z.pos (shl_align mb eb (- k)).1 = Z.of_N b * 2 ^ k.
Proof.
  intros Ha Hb.
  assert (Z.log2 (Z.of_N a) < 53) by (apply Z.log2_lt_pow2; lia).
  exists (52 - Z.min (Z.log2 (Z.of_N a)) (Z.log2 (Z.of_N b))).
  do 4 eexists. split_and!; [lia | by apply of_N_closed | by apply of_N_closed | lia | |];
    apply shl_align_exact; lia.
Qed.

Lemma add_of_N a b : (a + b < 2 ^ 53)%N → add (of_N a) (of_N b) = of_N (a + b).
Proof.
  intros Hs. destruct (N.eq_dec a 0) as [->|Ha].
  { rewrite N.add_0_l. change (of_N 0) with zero.
    destruct (N.eq_dec b 0) as [->|Hb]; [done|]. rewrite (of_N_closed b) by lia. done. }
  destruct (N.eq_dec b 0) as [->|Hb].
  { rewrite N.add_0_r. change (of_N 0) with zero. rewrite (of_N_closed a) by lia. done. }
  destruct (of_N_aligned a b) as (k & ma & ea & mb & eb & Hk & Ea & Eb & Em & Ha' & Hb');
    [lia | lia |].
  rewrite Ea, Eb. unfold add, SFadd. rewrite Em. unfold cond_Zopp. rewrite Ha', Hb'.
  rewrite <-Z.mul_add_distr_r, <-N2Z.inj_add, binary_normalize_exact by lia.
  by rewrite of_N_closed by lia.
Qed.

Lemma sub_of_N a b : (a < 2 ^ 53)%N → (b ≤ a)%N → sub (of_N a) (of_N b) = of_N (a - b).
Proof.
  intros Hs Hle. destruct (N.eq_dec b 0) as [->|Hb].
  { rewrite N.sub_0_r. change (of_N 0) with zero.
    destruct (N.eq_dec a 0) as [->|Ha]; [done|]. rewrite (of_N_closed a) by lia. done. }
  destruct (of_N_aligned a b) as (k & ma & ea & mb & eb & Hk & Ea & Eb & Em & Ha' & Hb');
    [lia | lia |].
  rewrite Ea, Eb. unfold sub, SFsub. rewrite Em. unfold cond_Zopp. rewrite Ha', Hb'.
  rewrite <-Z.mul_sub_distr_r, <-N2Z.inj_sub by lia.
  destruct (N.eq_dec a b) as [->|Hne]; [by rewrite N.sub_diag|].
  rewrite binary_normalize_exact by lia. by rewrite of_N_closed by lia.
Qed.

Lemma max_zero_of_N n : (n < 2 ^ 53)%N → max_zero (of_N n) = of_N n.
Proof.
  intros Hn. destruct (N.eq_dec n 0) as [->|]; [done|]. by rewrite of_N_closed by lia.
Qed.
End exact.

End F64.
Import F64.

(** ** numeric.rs *)
Inductive HighWaterMarkError := HwmNaN | HwmNegative.

Definition validate_high_water_mark (value : f64) : f64 + HighWaterMarkError :=
  if is_nan value then inr HwmNaN
  else if lt value zero then inr HwmNegative
  else inl value.

Inductive QueueSizeError := SizeNonFinite | SizeNegative.

Definition validate_queue_size (value : f64) : f64 + QueueSizeError :=
  if negb (is_finite value) then inr SizeNonFinite
  else if lt value zero then inr SizeNegative
  else inl value.

Lemma validate_high_water_mark_inl v w :
  validate_high_water_mark v = inl w ↔ w = v ∧ nonneg v = true.
Proof. unfold validate_high_water_mark. destruct v as [[]|[]| |[]]; naive_solver. Qed.

Lemma validate_queue_size_inl v w :
  validate_queue_size v = inl w ↔ w = v ∧ nonneg v = true ∧ is_finite v = true.
Proof. unfold validate_queue_size. destruct v as [[]|[]| |[]]; naive_solver. Qed.

(** ** queue.rs: bounds *)
Inductive QueueBoundsError := HeadPastEnd.

Record QueueBounds := { head : N; storage_len : N }.

Definition QueueBounds_new (head storage_len : N) : QueueBounds + QueueBoundsError :=
  if storage_len <? head then inr HeadPastEnd
  else inl {| head := head; storage_len := storage_len |}.

Definition live_len (b : QueueBounds) : run N := sub64 b.(storage_len) b.(head).

Definition is_empty (b : QueueBounds) : bool := b.(head) =? b.(storage_len).

Definition append_index (b : QueueBounds) : N := b.(storage_len).

Inductive QueueRemainderPlan := RemainderReset | AdvanceHead (next_head : N).

Record QueueDequeuePlan := { index : N; remainder : QueueRemainderPlan }.

Definition dequeue (b : QueueBounds) : run (option QueueDequeuePlan) :=
  if is_empty b then Ret None
  else
    next_head ← add64 b.(head) 1;
    let remainder := if next_head =? b.(storage_len) then RemainderReset
                     else AdvanceHead next_head in
    Ret (Some {| index := b.(head); remainder := remainder |}).

(** ** queue.rs: totals *)
Record QueueTotalPlan := { source : f64; entry_size : f64; next : f64 }.

Definition accumulate (total entry_size : f64) : f64 := add total entry_size.

Definition clamp_non_negative (total : f64) : f64 :=
  if lt total zero then zero else total.

Definition plan_enqueue (total entry_size : f64) : QueueTotalPlan :=
  {| source := total; entry_size := entry_size; next := accumulate total entry_size |}.

Definition plan_dequeue (total entry_size : f64) : QueueTotalPlan :=
  {| source := total; entry_size := entry_size;
     next := max_zero (sub total entry_size) |}.

(** ** strategy.rs *)
Record StrategySnapshot := { high_water_mark : f64; queue_total_size : f64 }.

Definition desired_size (s : StrategySnapshot) : f64 :=
  sub s.(high_water_mark) s.(queue_total_size).

Definition has_capacity (s : StrategySnapshot) : bool := lt zero (desired_size s).

Definition applies_backpressure (s : StrategySnapshot) : bool := le (desired_size s) zero.

(** ** queue_v8.rs: the readable queue behind the plans

    A queue is an array with an identity (its generation), cells that are
    [None] once consumed ([undefined]) and the total stored on it.
    [define_ok] says whether the realm still accepts data properties; it is
    false once the isolate is terminating. *)
Section adapter.
Context {V : Type} (define_ok : bool).

Record queue_array := { identity : N; cells : list (option (V * f64)); total_slot : f64 }.

Record stream_slots := {
  queue_slot : option queue_array;
  head_slot : N;
  next_identity : N }.

Inductive ReadableStreamQueueError := Missing | InvalidEntry | Replaced | CommitFailed.

Definition result (A : Type) : Type := A + ReadableStreamQueueError.

Definition array_length (q : queue_array) : N := N.of_nat (length q.(cells)).

Definition new_readable_stream_queue (s : stream_slots) : queue_array * stream_slots :=
  ({| identity := s.(next_identity); cells := []; total_slot := zero |},
   {| queue_slot := s.(queue_slot); head_slot := s.(head_slot);
      next_identity := s.(next_identity) + 1 |}).

Record queue_snapshot := {
  snap_queue : queue_array; snap_bounds : QueueBounds; snap_total : f64 }.

Definition readable_stream_queue_snapshot (s : stream_slots) : result queue_snapshot :=
  match s.(queue_slot) with
  | None => inr Missing
  | Some queue =>
      match QueueBounds_new s.(head_slot) (array_length queue) with
      | inr _ => inr InvalidEntry
      | inl bounds => inl {| snap_queue := queue; snap_bounds := bounds;
                             snap_total := queue.(total_slot) |}
      end
  end.

#[global] Instance f64_eq_dec : EqDecision f64.
Proof. solve_decision. Defined.

Definition verify_readable_stream_queue_snapshot (s : stream_slots) (snapshot : queue_snapshot)
    : result unit :=
  match s.(queue_slot) with
  | None => inr Missing
  | Some current =>
      if bool_decide (current.(identity) ≠ snapshot.(snap_queue).(identity))
         || negb (s.(head_slot) =? snapshot.(snap_bounds).(head))
         || bool_decide (current.(total_slot) ≠ snapshot.(snap_total))
      then inr Replaced else inl tt
  end.

Definition replace_readable_stream_queue (s : stream_slots) (queue : queue_array)
    : stream_slots :=
  {| queue_slot := Some queue; head_slot := 0; next_identity := s.(next_identity) |}.

Definition readable_stream_queue_entry (value : V) (size : f64) : result (V * f64) :=
  if define_ok then inl (value, size) else inr CommitFailed.

(** Reading field 0 and field 1 of a cell; an [undefined] cell is no array. *)
Definition queue_entry (cell : option (V * f64)) : result (V * f64) :=
  match cell with Some e => inl e | None => inr InvalidEntry end.

(** Defining the property [length] of an array extends it, except at the
    greatest array length, where the property is an ordinary one. *)
Definition append_readable_stream_queue_entry (queue : queue_array) (e : V * f64)
    : result queue_array :=
  if define_ok then
    inl (if array_length queue <? u32_max
         then {| identity := queue.(identity); cells := queue.(cells) ++ [Some e];
                 total_slot := queue.(total_slot) |}
         else queue)
  else inr CommitFailed.

Definition set_readable_stream_queue_total_size (queue : queue_array) (total : f64)
    : queue_array :=
  {| identity := queue.(identity); cells := queue.(cells); total_slot := total |}.

Definition enqueue_readable_stream_queue_value (s : stream_slots) (value : V) (size : f64)
    : result unit * stream_slots :=
  match readable_stream_queue_entry value size with
  | inr e => (inr e, s)
  | inl entry =>
      match s.(queue_slot) with
      | None => (inr Missing, s)
      | Some queue =>
          let next_total := (plan_enqueue queue.(total_slot) size).(next) in
          match append_readable_stream_queue_entry queue entry with
          | inr e => (inr e, s)
          | inl queue =>
              (inl tt,
               {| queue_slot := Some (set_readable_stream_queue_total_size queue next_total);
                  head_slot := s.(head_slot); next_identity := s.(next_identity) |})
          end
      end
  end.

(** The copy loop of [prepend]: the live cells after the new entry. *)
Fixpoint copy_entries (replacement : queue_array) (rest : list (option (V * f64)))
    : result queue_array :=
  match rest with
  | [] => inl replacement
  | cell :: rest =>
      match queue_entry cell with
      | inr e => inr e
      | inl entry =>
          match append_readable_stream_queue_entry replacement entry with
          | inr e => inr e
          | inl replacement => copy_entries replacement rest
          end
      end
  end.

Definition prepend_readable_stream_queue_value (s : stream_slots) (value : V) (size : f64)
    : result unit * stream_slots :=
  match readable_stream_queue_snapshot s with
  | inr e => (inr e, s)
  | inl snapshot =>
      let '(replacement, s) := new_readable_stream_queue s in
      match readable_stream_queue_entry value size with
      | inr e => (inr e, s)
      | inl entry =>
          match append_readable_stream_queue_entry replacement entry with
          | inr e => (inr e, s)
          | inl replacement =>
              match copy_entries replacement
                      (drop (N.to_nat snapshot.(snap_bounds).(head))
                         snapshot.(snap_queue).(cells)) with
              | inr e => (inr e, s)
              | inl replacement =>
                  match verify_readable_stream_queue_snapshot s snapshot with
                  | inr e => (inr e, s)
                  | inl _ =>
                      let next_total := (plan_enqueue snapshot.(snap_total) size).(next) in
                      (inl tt, replace_readable_stream_queue s
                         (set_readable_stream_queue_total_size replacement next_total))
                  end
              end
          end
      end
  end.

Definition readable_stream_queue_is_empty (s : stream_slots) : bool :=
  match s.(queue_slot) with
  | None => true
  | Some queue =>
      match QueueBounds_new s.(head_slot) (array_length queue) with
      | inl bounds => is_empty bounds
      | inr _ => true
      end
  end.

Definition reset_readable_stream_queue (s : stream_slots) : stream_slots :=
  let '(queue, s) := new_readable_stream_queue s in
  replace_readable_stream_queue s queue.

Definition dequeue_readable_stream_queue_value (s : stream_slots)
    : run (result (option V) * stream_slots) :=
  match readable_stream_queue_snapshot s with
  | inr e => Ret (inr e, s)
  | inl snapshot =>
      plan ← dequeue snapshot.(snap_bounds);
      match plan with
      | None => Ret (inl None, s)
      | Some plan =>
          match snapshot.(snap_queue).(cells) !! N.to_nat plan.(index) with
          | None => Ret (inr InvalidEntry, s)
          | Some cell =>
              match queue_entry cell with
              | inr e => Ret (inr e, s)
              | inl (value, size) =>
                  let next_total := (plan_dequeue snapshot.(snap_total) size).(next) in
                  match verify_readable_stream_queue_snapshot s snapshot with
                  | inr e => Ret (inr e, s)
                  | inl _ =>
                      match plan.(remainder) with
                      | RemainderReset =>
                          let '(replacement, s) := new_readable_stream_queue s in
                          Ret (inl (Some value), replace_readable_stream_queue s
                            (set_readable_stream_queue_total_size replacement next_total))
                      | AdvanceHead next_head =>
                          if define_ok then
                            Ret (inl (Some value),
                              {| queue_slot := Some
                                   {| identity := snapshot.(snap_queue).(identity);
                                      cells := <[N.to_nat plan.(index) := None]>
                                                 snapshot.(snap_queue).(cells);
                                      total_slot := next_total |};
                                 head_slot := next_head;
                                 next_identity := s.(next_identity) |})
                          else Ret (inr CommitFailed, s)
                      end
                  end
              end
          end
      end
  end.

Definition readable_stream_queue_total_size (s : stream_slots) : f64 :=
  match readable_stream_queue_snapshot s with
  | inl snapshot => snapshot.(snap_total)
  | inr _ => zero
  end.

End adapter.
Arguments queue_array : clear implicits.
Arguments stream_slots : clear implicits.
Arguments queue_snapshot : clear implicits.

(** ** The strategy splits on the sign of the desired size *)

Lemma capacity_split h t :
  nonneg h = true → nonneg t = true →
  let s := {| high_water_mark := h; queue_total_size := t |} in
  (has_capacity s, applies_backpressure s) =
  if is_pinf h && is_pinf t then (false, false)
  else (has_capacity s, negb (has_capacity s)).
Proof.
  intros Hh Ht s. pose proof (sub_is_nan h t Hh Ht) as Hn.
  unfold has_capacity, applies_backpressure, desired_size, s; simpl.
  destruct (is_pinf h && is_pinf t).
  - by destruct (compare_zero_nan _ Hn) as [-> ->].
  - rewrite (compare_zero _ Hn). by rewrite negb_involutive.
Qed.

(** ** The queue as a list *)
Section queue_spec.
Context {V : Type}.

Inductive queue_op := QEnqueue (v : V) (size : f64) | QPrepend (v : V) (size : f64)
  | QDequeue | QReset.

Inductive queue_output := ODone | OValue (v : option V) | OError (e : ReadableStreamQueueError).

Definition output_unit (r : result unit) : queue_output :=
  match r with inl _ => ODone | inr e => OError e end.

Definition output_value (r : result (option V)) : queue_output :=
  match r with inl v => OValue v | inr e => OError e end.

(** One call of the adapter. *)
Definition queue_step (ok : bool) (s : stream_slots V) (op : queue_op)
    : run (queue_output * stream_slots V) :=
  match op with
  | QEnqueue v size =>
      let '(r, s) := enqueue_readable_stream_queue_value ok s v size in Ret (output_unit r, s)
  | QPrepend v size =>
      let '(r, s) := prepend_readable_stream_queue_value ok s v size in Ret (output_unit r, s)
  | QDequeue =>
      '(r, s) ← dequeue_readable_stream_queue_value ok s; Ret (output_value r, s)
  | QReset => Ret (ODone, reset_readable_stream_queue s)
  end.

Fixpoint queue_run (ok : bool) (s : stream_slots V) (ops : list queue_op)
    : run (list queue_output * stream_slots V) :=
  match ops with
  | [] => Ret ([], s)
  | op :: ops =>
      '(o, s) ← queue_step ok s op;
      '(os, s) ← queue_run ok s ops;
      Ret (o :: os, s)
  end.

(** What the queue promises: a sequence of entries and a running total. *)
Definition spec_step (q : list (V * f64) * f64) (op : queue_op)
    : queue_output * (list (V * f64) * f64) :=
  let '(l, t) := q in
  match op with
  | QEnqueue v size => (ODone, (l ++ [(v, size)], add t size))
  | QPrepend v size => (ODone, ((v, size) :: l, add t size))
  | QDequeue =>
      match l with
      | [] => (OValue None, q)
      | (v, size) :: l => (OValue (Some v), (l, max_zero (sub t size)))
      end
  | QReset => (ODone, ([], zero))
  end.

Fixpoint spec_run (q : list (V * f64) * f64) (ops : list queue_op)
    : list queue_output * (list (V * f64) * f64) :=
  match ops with
  | [] => ([], q)
  | op :: ops =>
      let '(o, q) := spec_step q op in
      let '(os, q) := spec_run q ops in (o :: os, q)
  end.

(** The live cells are the entries, the consumed prefix is as long as the
    head says, and the total is the one stored on the array. *)
Definition represents (s : stream_slots V) (q : list (V * f64) * f64) (bound : N) : Prop :=
  ∃ i gone, s.(queue_slot) = Some {| identity := i; cells := gone ++ (map Some q.1);
                                     total_slot := q.2 |} ∧
    s.(head_slot) = N.of_nat (length gone) ∧
    N.of_nat (length (gone ++ (map Some q.1))) ≤ bound.

Definition fresh_queue : stream_slots V :=
  reset_readable_stream_queue {| queue_slot := None; head_slot := 0; next_identity := 0 |}.

Lemma fresh_queue_represents : represents fresh_queue ([], zero) 0.
Proof. by exists 0, []. Qed.

Lemma represents_snapshot s q b :
  represents s q b →
  ∃ i gone, readable_stream_queue_snapshot s =
      inl {| snap_queue := {| identity := i; cells := gone ++ (map Some q.1);
                              total_slot := q.2 |};
             snap_bounds := {| head := N.of_nat (length gone);
                               storage_len := N.of_nat (length (gone ++ (map Some q.1))) |};
             snap_total := q.2 |} ∧
    s.(queue_slot) = Some {| identity := i; cells := gone ++ (map Some q.1);
                             total_slot := q.2 |} ∧
    s.(head_slot) = N.of_nat (length gone) ∧
    N.of_nat (length (gone ++ (map Some q.1))) ≤ b.
Proof.
  intros (i & gone & Hq & Hh & Hb). exists i, gone. split; [|done].
  unfold readable_stream_queue_snapshot, QueueBounds_new, array_length. rewrite Hq, Hh. simpl.
  rewrite length_app. destruct (N.ltb_spec (N.of_nat (length gone + length (map Some q.1)))
    (N.of_nat (length gone))); [lia | done].
Qed.

Lemma verify_self (s : stream_slots V) sn :
  readable_stream_queue_snapshot s = inl sn →
  verify_readable_stream_queue_snapshot s sn = inl tt.
Proof.
  unfold readable_stream_queue_snapshot, verify_readable_stream_queue_snapshot, QueueBounds_new.
  destruct s.(queue_slot) as [q|]; [|done]. case_match; [|done]. case_match; [done|].
  intros [= <-]. simplify_eq/=. rewrite N.eqb_refl.
  by rewrite !bool_decide_eq_false_2 by tauto.
Qed.

Lemma copy_entries_live (r : queue_array V) (l : list (V * f64)) :
  N.of_nat (length r.(cells) + length l) ≤ u32_max →
  copy_entries true r (map Some l) =
  inl {| identity := r.(identity); cells := r.(cells) ++ (map Some l);
         total_slot := r.(total_slot) |}.
Proof.
  revert r. induction l as [|e l IH]; intros [i c t] Hb; simpl in *.
  - by rewrite app_nil_r.
  - unfold append_readable_stream_queue_entry, array_length; simpl.
    destruct (N.ltb_spec (N.of_nat (length c)) u32_max); [|lia].
    rewrite IH; simpl; [by rewrite <-app_assoc | rewrite length_app; simpl; lia].
Qed.

(** Every call of a queue with room for one more entry refines the list. *)
Lemma queue_step_represents s q b op :
  represents s q b → b < u32_max →
  ∃ s', queue_step true s op = Ret ((spec_step q op).1, s') ∧
        represents s' (spec_step q op).2 (b + 1).
Proof.
  intros H Hb. destruct (represents_snapshot s q b H) as (i & gone & Hs & Hq & Hh & Hl).
  pose proof (verify_self _ _ Hs) as Hv.
  destruct q as [l t]; destruct op as [v z|v z| |]; simpl in *.
  - unfold enqueue_readable_stream_queue_value, append_readable_stream_queue_entry; simpl.
    rewrite Hq. unfold array_length; simpl.
    destruct (N.ltb_spec (N.of_nat (length (gone ++ (map Some l)))) u32_max); [|lia].
    eexists; split; [done|]. exists i, gone. simpl. rewrite map_app, app_assoc. simpl.
    split_and!; [done | done | rewrite length_app; simpl; lia].
  - unfold prepend_readable_stream_queue_value, append_readable_stream_queue_entry.
    rewrite Hs. unfold array_length; simpl.
    rewrite Nat2N.id, drop_app_length. rewrite copy_entries_live;
      [|simpl; rewrite length_app, length_map in Hl; lia].
    unfold verify_readable_stream_queue_snapshot in *; simpl in *. rewrite Hv.
    eexists; split; [done|]. exists (next_identity s), []. simpl.
    split_and!; [done | done | rewrite length_app in Hl; rewrite length_map in *; lia].
  - unfold dequeue_readable_stream_queue_value. rewrite Hs. unfold dequeue, is_empty; simpl.
    destruct l as [|[v z] l]; simpl in *.
    + rewrite app_nil_r, N.eqb_refl. simpl. eexists; split; [done|]. exists i, gone.
      rewrite Hq, Hh. simpl. split_and!; [done | done | lia].
    + rewrite length_app in *; simpl in *.
      destruct (N.eqb_spec (N.of_nat (length gone))
        (N.of_nat (length gone + Datatypes.S (length (map Some l))))); [lia|].
      rewrite add64_fits by (unfold u64_max, u32_max in *; lia). simpl.
      rewrite Nat2N.id, lookup_app_r, Nat.sub_diag by lia. simpl. rewrite Hv.
      rewrite length_map in *.
      destruct (N.eqb_spec (N.of_nat (length gone) + 1)
        (N.of_nat (length gone + Datatypes.S (length l)))) as [E|E]; simpl.
      * eexists; split; [done|]. destruct l; [|simpl in E; lia].
        exists (next_identity s), []. simpl. split_and!; [done | done | lia].
      * eexists; split; [done|]. exists i, (gone ++ [None]). simpl.
        rewrite insert_app_r_alt, Nat.sub_diag by lia. rewrite <-app_assoc. simpl.
        rewrite !length_app. simpl. rewrite length_map. split_and!; [done | lia | lia].
  - eexists; split; [done|]. exists (next_identity s), []. simpl. split_and!; [done | done | lia].
Qed.

Lemma queue_run_represents (ops : list queue_op) s q b :
  represents s q b → b + N.of_nat (length ops) ≤ u32_max →
  ∃ s', queue_run true s ops = Ret ((spec_run q ops).1, s') ∧
        represents s' (spec_run q ops).2 (b + N.of_nat (length ops)).
Proof.
  revert s q b. induction ops as [|op ops IH]; intros s q b Hr Hb; simpl in *.
  - exists s. by rewrite N.add_0_r.
  - destruct (queue_step_represents s q b op Hr) as (s1 & E1 & R1); [lia|].
    destruct (IH s1 _ _ R1) as (s2 & E2 & R2); [lia|]. exists s2.
    rewrite E1. simpl. rewrite E2. simpl.
    destruct (spec_step q op) as [o q1]; simpl in *.
    destruct (spec_run q1 ops) as [os q2]; simpl in *. split; [done|].
    by replace (b + N.of_nat (Datatypes.S (length ops)))
      with (b + 1 + N.of_nat (length ops)) by lia.
Qed.

Lemma represents_total s q b :
  represents s q b → readable_stream_queue_total_size s = q.2.
Proof.
  intros (i & gone & Hs & _)%represents_snapshot.
  unfold readable_stream_queue_total_size. by rewrite Hs.
Qed.

(** A size the strategy validator accepted. *)
Definition op_validated (op : queue_op) : Prop :=
  match op with
  | QEnqueue _ z | QPrepend _ z => validate_queue_size z = inl z
  | QDequeue | QReset => True
  end.

Lemma spec_run_nonneg (ops : list queue_op) q :
  Forall op_validated ops → nonneg q.2 = true → nonneg (spec_run q ops).2.2 = true.
Proof.
  intros Hv. revert q. induction Hv as [|op ops Hop Hv IH]; intros q Ht; simpl; [done|].
  assert (nonneg (spec_step q op).2.2 = true) as Hn.
  { destruct q as [l t], op as [v z|v z| |]; simpl in *.
    1, 2: apply validate_queue_size_inl in Hop; apply add_nonneg; naive_solver.
    - destruct l as [|[v z] l]; simpl; auto using max_zero_nonneg.
    - done. }
  destruct (spec_step q op) as [o q1]; simpl in *. apply IH in Hn. revert Hn.
  by destruct (spec_run q1 ops).
Qed.

(** Operations whose sizes are integers. *)
Inductive int_op := IEnqueue (v : V) (n : N) | IPrepend (v : V) (n : N) | IDequeue | IReset.

Definition to_op (op : int_op) : queue_op :=
  match op with
  | IEnqueue v n => QEnqueue v (of_N n)
  | IPrepend v n => QPrepend v (of_N n)
  | IDequeue => QDequeue
  | IReset => QReset
  end.

Definition op_size (op : int_op) : N :=
  match op with IEnqueue _ n | IPrepend _ n => n | IDequeue | IReset => 0 end.

(** The integer sizes the queue holds. *)
Definition int_step (l : list N) (op : int_op) : list N :=
  match op with
  | IEnqueue _ n => l ++ [n]
  | IPrepend _ n => n :: l
  | IDequeue => tail l
  | IReset => []
  end.

Definition int_total (l : list N) : N := Nsum id l.

Lemma int_step_exact ql l op :
  map snd ql = map of_N l → int_total l + op_size op < 2 ^ 53 →
  map snd (spec_step (ql, of_N (int_total l)) (to_op op)).2.1 = map of_N (int_step l op) ∧
  (spec_step (ql, of_N (int_total l)) (to_op op)).2.2 = of_N (int_total (int_step l op)) ∧
  int_total (int_step l op) ≤ int_total l + op_size op.
Proof.
  intros Hl Hb. unfold int_total in *. destruct op as [v n|v n| |]; simpl in *.
  - rewrite !map_app, Hl. split; [done|]. rewrite Nsum_app. simpl. rewrite N.add_0_r.
    split; [by apply add_of_N | lia].
  - rewrite Hl. split; [done|]. rewrite add_of_N by lia. split; [by rewrite N.add_comm | lia].
  - destruct ql as [|[v z] ql], l as [|n l]; simplify_eq/=; [done|]. split; [done|].
    split; [|lia]. rewrite sub_of_N, max_zero_of_N by lia. f_equal. lia.
  - split_and!; [done | done | lia].
Qed.

Lemma spec_run_exact (ops : list int_op) ql l :
  map snd ql = map of_N l → int_total l + Nsum op_size ops < 2 ^ 53 →
  (spec_run (ql, of_N (int_total l)) (to_op <$> ops)).2.2 =
  of_N (int_total (fold_left int_step ops l)).
Proof.
  revert ql l. induction ops as [|op ops IH]; intros ql l Hl Hb; [done|].
  rewrite fmap_cons. cbn [spec_run fold_left].
  change (Nsum op_size (op :: ops)) with (op_size op + Nsum op_size ops) in Hb.
  destruct (int_step_exact ql l op Hl) as (H1 & H2 & H3); [lia|].
  rewrite <-(IH _ (int_step l op) H1) by lia. rewrite <-H2.
  destruct (spec_step (ql, of_N (int_total l)) (to_op op)) as [o [q1 t1]]; simpl in *.
  by destruct (spec_run (q1, t1) (to_op <$> ops)).
Qed.

(** The readable stream's queue refines a list with a running total: for
    every sequence of enqueue, prepend, dequeue and reset calls (at most
    [2^32 - 1] of them, the greatest array length), no call panics, the
    outputs are those of the list in the same order, and the array the
    adapter keeps (consumed prefix, head index, stored total) represents the
    list's final state. *)
Theorem readable_queue_refines_list (ops : list queue_op) :
  N.of_nat (length ops) ≤ u32_max →
  ∃ s, queue_run true fresh_queue ops = Ret ((spec_run ([], zero) ops).1, s) ∧
       represents s (spec_run ([], zero) ops).2 (N.of_nat (length ops)).
Proof. intros Hb. apply (queue_run_represents ops _ _ 0 fresh_queue_represents). lia. Qed.

(** The stored total of a queue whose entry sizes passed the strategy's
    validator is always a high water mark value (never a NaN and never
    negative, whatever the rounding), so the strategy has capacity exactly
    when it does not apply backpressure; the one exception is an infinite
    total under an infinite high water mark, where it is neither. *)
Theorem queue_total_bounds (ops : list queue_op) (hwm : f64) :
  N.of_nat (length ops) ≤ u32_max →
  Forall op_validated ops →
  validate_high_water_mark hwm = inl hwm →
  ∃ os s, queue_run true fresh_queue ops = Ret (os, s) ∧
    let t := readable_stream_queue_total_size s in
    let strategy := {| high_water_mark := hwm; queue_total_size := t |} in
    validate_high_water_mark t = inl t ∧
    if is_pinf hwm && is_pinf t
    then has_capacity strategy = false ∧ applies_backpressure strategy = false
    else applies_backpressure strategy = negb (has_capacity strategy).
Proof.
  intros Hb Hv [_ Hh]%validate_high_water_mark_inl.
  destruct (queue_run_represents ops _ _ 0 fresh_queue_represents) as (s & E & R); [lia|].
  eexists _, s. split; [exact E|]. simpl. rewrite (represents_total _ _ _ R).
  pose proof (spec_run_nonneg ops ([], zero) Hv eq_refl) as Ht.
  split; [by apply validate_high_water_mark_inl|].
  pose proof (capacity_split hwm _ Hh Ht) as Hc. simpl in Hc.
  destruct (is_pinf hwm && is_pinf _); injection Hc; auto.
Qed.

(** Integer entry sizes never drift: while less than [2^53] has been
    enqueued in total (chunk counts, byte lengths), the double the queue
    stores is exactly the sum of the sizes it still holds, after every
    sequence of enqueue, prepend, dequeue and reset. *)
Theorem integer_sizes_exact (ops : list int_op) :
  N.of_nat (length ops) ≤ u32_max →
  Nsum op_size ops < 2 ^ 53 →
  ∃ os s, queue_run true fresh_queue (to_op <$> ops) = Ret (os, s) ∧
    readable_stream_queue_total_size s = of_N (int_total (fold_left int_step ops [])).
Proof.
  intros Hb Hs.
  destruct (queue_run_represents (to_op <$> ops) _ _ 0 fresh_queue_represents) as (s & E & R);
    [rewrite length_fmap; lia|].
  eexists _, s. split; [exact E|]. rewrite (represents_total _ _ _ R).
  exact (spec_run_exact ops [] [] eq_refl Hs).
Qed.

End queue_spec.
Arguments queue_op : clear implicits.
Arguments int_op : clear implicits.

Definition queue_example : list (queue_op N) :=
  [QEnqueue 1 (of_N 3); QEnqueue 2 (of_N 4); QDequeue; QPrepend 3 (of_N 1); QDequeue;
   QDequeue; QDequeue].

Lemma readable_queue_refines_list_witness :
  ∃ s, queue_run true fresh_queue queue_example =
       Ret ([ODone; ODone; OValue (Some 1); ODone; OValue (Some 3); OValue (Some 2);
             OValue None], s).
Proof.
  destruct (readable_queue_refines_list queue_example) as (s & E & _); [by vm_compute|].
  exists s. exact E.
Defined.

Lemma queue_total_bounds_witness :
  ∃ os s, queue_run true fresh_queue queue_example = Ret (os, s) ∧
    validate_high_water_mark (readable_stream_queue_total_size s)
      = inl (readable_stream_queue_total_size s).
Proof.
  destruct (queue_total_bounds queue_example (S754_infinity false)) as (os & s & E & H & _);
    [by vm_compute | by repeat constructor | done |]. eauto.
Defined.

Lemma integer_sizes_exact_witness :
  ∃ os s, queue_run true fresh_queue (to_op <$> [IEnqueue 1 3; IEnqueue 2 4; IDequeue])
          = Ret (os, s) ∧
    readable_stream_queue_total_size s = of_N 4.
Proof.
  destruct (integer_sizes_exact [IEnqueue 1 3; IEnqueue 2 4; IDequeue]) as (os & s & E & H);
    [by vm_compute | by vm_compute |]. exists os, s. split; [exact E | exact H].
Defined.
