(* ===== verification/Readable.v ===== *)
(** Readable streams (moli-streams, [readable/mod.rs],
    [readable/default_controller.rs], [readable/iterator.rs]): the lifecycle
    and access plans, the pull scheduler with the renderer function that
    applies it ([maybe_pull_stream] and the settlement callbacks of
    [stream_adapter/readable.rs]), and the async iterator with the operation
    queue that drives it ([stream_objects/async_iterator.rs]). *)
From stdpp Require Import base list numbers option relations.
From S2P Require Import Prelude.

#[local] Open Scope N_scope.

(** ** Lifecycle *)
Inductive ReadableState := Readable | Closed | Errored.

#[global] Instance ReadableState_eq_dec : EqDecision ReadableState.
Proof. solve_decision. Defined.

Definition from_storage (closed has_stored_error : bool) : ReadableState :=
  if has_stored_error then Errored else if closed then Closed else Readable.

Definition is_readable (s : ReadableState) : bool :=
  match s with Readable => true | _ => false end.

Record ReadableSnapshot := {
  state : ReadableState;
  close_requested : bool;
  queue_empty : bool;
  pending_read_count : N }.

Inductive EnqueuePlan := EnqueueContinue | EnqueueReject.
Inductive CloseRequestPlan := CloseRequest | CloseIgnore.
Inductive FinishClosePlan := CloseFinish | CloseWait.
Inductive ErrorPlan := ErrorError | ErrorIgnore.
Inductive ReadStartPlan := ReadContinue | ReadResolveDone | ReadRejectStoredError.
Inductive ClosedPromisePlan := ClosedWait | ClosedResolve | ClosedRejectStoredError.
Inductive CancelPlan :=
  | CancelRunAlgorithm (finish_requested_close : bool)
  | CancelResolve
  | CancelRejectStoredError.

Definition plan_enqueue (s : ReadableSnapshot) : EnqueuePlan :=
  if is_readable s.(state) && negb s.(close_requested) then EnqueueContinue else EnqueueReject.

Definition plan_request_close (s : ReadableSnapshot) : CloseRequestPlan :=
  if is_readable s.(state) && negb s.(close_requested) then CloseRequest else CloseIgnore.

Definition plan_finish_close (s : ReadableSnapshot) : FinishClosePlan :=
  if is_readable s.(state) && s.(close_requested) && s.(queue_empty)
  then CloseFinish else CloseWait.

Definition plan_error (s : ReadableSnapshot) : ErrorPlan :=
  if is_readable s.(state) then ErrorError else ErrorIgnore.

Definition plan_read_start (s : ReadableSnapshot) : ReadStartPlan :=
  match s.(state) with
  | Readable => ReadContinue
  | Closed => ReadResolveDone
  | Errored => ReadRejectStoredError
  end.

Definition plan_closed_promise (s : ReadableSnapshot) : ClosedPromisePlan :=
  match s.(state) with
  | Readable => ClosedWait
  | Closed => ClosedResolve
  | Errored => ClosedRejectStoredError
  end.

Definition plan_cancel (s : ReadableSnapshot) : CancelPlan :=
  match s.(state) with
  | Closed => CancelResolve
  | Errored => CancelRejectStoredError
  | Readable => CancelRunAlgorithm s.(close_requested)
  end.

(** ** Locks *)
Inductive ReadableKind := KindDefault | KindByte.

Definition from_byte_stream (byte_stream : bool) : ReadableKind :=
  if byte_stream then KindByte else KindDefault.

Inductive ReaderKind := ReaderDefault | ReaderByob.

Record ReadableAccessSnapshot := { locked : bool; disturbed : bool }.

Record ReadableAccessTransition := {
  access_source : ReadableAccessSnapshot;
  access_next : ReadableAccessSnapshot }.

Definition locked_transition (s : ReadableAccessSnapshot) (l : bool)
    : ReadableAccessTransition :=
  {| access_source := s; access_next := {| locked := l; disturbed := s.(disturbed) |} |}.

Inductive ReadableLockPlan := LockLock (t : ReadableAccessTransition) | LockRejectLocked.

Definition plan_lock (s : ReadableAccessSnapshot) : ReadableLockPlan :=
  if s.(locked) then LockRejectLocked else LockLock (locked_transition s true).

Inductive AcquireReaderPlan :=
  | Acquire (t : ReadableAccessTransition)
  | AcquireRejectLocked
  | AcquireRejectIncompatibleByob.

Definition incompatible_byob (reader : ReaderKind) (stream : ReadableKind) : bool :=
  match reader, stream with ReaderByob, KindDefault => true | _, _ => false end.

Definition plan_get_reader (s : ReadableAccessSnapshot) (reader : ReaderKind)
    (stream : ReadableKind) : AcquireReaderPlan :=
  if s.(locked) then AcquireRejectLocked
  else if incompatible_byob reader stream then AcquireRejectIncompatibleByob
  else Acquire (locked_transition s true).

Definition plan_reader_constructor (s : ReadableAccessSnapshot) (reader : ReaderKind)
    (stream : ReadableKind) : AcquireReaderPlan :=
  if incompatible_byob reader stream then AcquireRejectIncompatibleByob
  else if s.(locked) then AcquireRejectLocked
  else Acquire (locked_transition s true).

Inductive CancelEntryPlan := CancelEntryContinue | CancelEntryRejectLocked.

Definition plan_cancel_entry (s : ReadableAccessSnapshot) : CancelEntryPlan :=
  if s.(locked) then CancelEntryRejectLocked else CancelEntryContinue.

Definition plan_disturb (s : ReadableAccessSnapshot) : ReadableAccessTransition :=
  {| access_source := s; access_next := {| locked := s.(locked); disturbed := true |} |}.

Definition plan_unlock (s : ReadableAccessSnapshot) : ReadableAccessTransition :=
  locked_transition s false.

Record ReaderReleaseSnapshot := {
  attached : bool;
  access : ReadableAccessSnapshot;
  stream_kind : ReadableKind;
  stream_closed : bool;
  has_pending_closed_request : bool }.

Definition release_detached : ReaderReleaseSnapshot :=
  {| attached := false; access := {| locked := false; disturbed := false |};
     stream_kind := KindDefault; stream_closed := false;
     has_pending_closed_request := false |}.

Definition release_attached (access : ReadableAccessSnapshot) (stream_kind : ReadableKind)
    (stream_closed has_pending_closed_request : bool) : ReaderReleaseSnapshot :=
  {| attached := true; access := access; stream_kind := stream_kind;
     stream_closed := stream_closed;
     has_pending_closed_request := has_pending_closed_request |}.

Inductive ReleasedReaderClosedPromisePlan := RejectExisting | ReplaceWithRejected | CreateRejected.

Inductive ReleaseReaderPlan :=
  | AlreadyReleased
  | Release (access : ReadableAccessTransition) (release_byte_controller : bool)
      (closed_promise : ReleasedReaderClosedPromisePlan).

Definition release_plan (s : ReaderReleaseSnapshot) : ReleaseReaderPlan :=
  if negb s.(attached) then AlreadyReleased
  else
    let closed_promise :=
      if s.(stream_closed) then ReplaceWithRejected
      else if s.(has_pending_closed_request) then RejectExisting
      else CreateRejected in
    Release (plan_unlock s.(access))
      (match s.(stream_kind) with KindByte => true | KindDefault => false end)
      closed_promise.

(** Acquiring a reader and releasing it gives the lock back and touches
    nothing else, through either entry point. *)
Lemma acquire_release_roundtrip s reader stream t closed pending :
  plan_get_reader s reader stream = Acquire t ∨
  plan_reader_constructor s reader stream = Acquire t →
  access_source t = s ∧ locked s = false ∧
  ∃ u p, release_plan (release_attached (access_next t) stream closed pending) = Release u
           (match stream with KindByte => true | KindDefault => false end) p ∧
         access_next u = s.
Proof.
  unfold plan_get_reader, plan_reader_constructor, release_plan.
  destruct s as [l d]; simpl. destruct l, (incompatible_byob reader stream); simpl;
    intros [H|H]; simplify_eq; (split; [done|]; split; [done|]);
    by destruct closed, pending; eexists _, _.
Qed.

(** The two entry points differ only in which of two errors they report. *)
Lemma reader_entry_points_agree s reader stream :
  plan_get_reader s reader stream = plan_reader_constructor s reader stream ∨
  (locked s = true ∧ incompatible_byob reader stream = true ∧
   plan_get_reader s reader stream = AcquireRejectLocked ∧
   plan_reader_constructor s reader stream = AcquireRejectIncompatibleByob).
Proof.
  unfold plan_get_reader, plan_reader_constructor.
  destruct (locked s), (incompatible_byob reader stream); auto.
Qed.

(** ** Pull scheduling *)
Module Pull.

Record PullState := { started : bool; pulling : bool; pull_again : bool }.

Definition mark_started (p : PullState) : PullState :=
  {| started := true; pulling := p.(pulling); pull_again := p.(pull_again) |}.

Definition begin_pull (p : PullState) : PullState :=
  {| started := p.(started); pulling := true; pull_again := false |}.

Definition request_pull_again (p : PullState) : PullState :=
  {| started := p.(started); pulling := p.(pulling); pull_again := true |}.

Inductive PullSettlementAction := SettleIdle | SettlePullAgain | SettleError.

Record PullSettlementPlan := {
  settle_source : PullState; settle_next : PullState; action : PullSettlementAction }.

Definition pull_fulfilled (p : PullState) : PullSettlementPlan :=
  let action := if p.(pull_again) then SettlePullAgain else SettleIdle in
  {| settle_source := p;
     settle_next := {| started := p.(started); pulling := false; pull_again := false |};
     action := action |}.

Definition pull_rejected (p : PullState) : PullSettlementPlan :=
  {| settle_source := p;
     settle_next := {| started := p.(started); pulling := false; pull_again := p.(pull_again) |};
     action := SettleError |}.

Record DefaultControllerSnapshot := {
  stream_state : ReadableState;
  close_requested : bool;
  queue_available : bool;
  pull : PullState }.

Definition can_consider_pull (s : DefaultControllerSnapshot) : bool :=
  is_readable s.(stream_state) && negb s.(close_requested)
  && s.(pull).(started) && s.(queue_available).

Record PullStatePlan := { plan_source : PullState; plan_next : PullState }.

Inductive PullPlan :=
  | PullNone
  | PullMarkPullAgain (p : PullStatePlan)
  | PullStart (p : PullStatePlan).

Definition plan_pull (s : DefaultControllerSnapshot) (has_demand : bool) : PullPlan :=
  if negb (can_consider_pull s) || negb has_demand then PullNone
  else if s.(pull).(pulling) then
    PullMarkPullAgain {| plan_source := s.(pull); plan_next := request_pull_again s.(pull) |}
  else PullStart {| plan_source := s.(pull); plan_next := begin_pull s.(pull) |}.

(** The stream as the renderer holds it for pulling, with the number of pull
    invocations made and settled so far. *)
Record stream := {
  snapshot : DefaultControllerSnapshot;
  has_algorithm : bool;
  invoked : N;
  settled : N }.

Definition with_pull (s : stream) (p : PullState) : stream :=
  {| snapshot := {| stream_state := s.(snapshot).(stream_state);
                    close_requested := s.(snapshot).(close_requested);
                    queue_available := s.(snapshot).(queue_available); pull := p |};
     has_algorithm := s.(has_algorithm); invoked := s.(invoked); settled := s.(settled) |}.

(** [maybe_pull_stream] up to the call of the pull algorithm. *)
Definition maybe_pull_stream (s : stream) (has_demand : bool) : stream :=
  if negb (can_consider_pull s.(snapshot)) then s
  else
    match plan_pull s.(snapshot) has_demand with
    | PullNone => s
    | PullMarkPullAgain plan => with_pull s plan.(plan_next)
    | PullStart plan =>
        if negb s.(has_algorithm) then s
        else
          let s := with_pull s plan.(plan_next) in
          {| snapshot := s.(snapshot); has_algorithm := s.(has_algorithm);
             invoked := s.(invoked) + 1; settled := s.(settled) |}
    end.

Definition mark_readable_stream_started (s : stream) : stream :=
  with_pull s (mark_started s.(snapshot).(pull)).

(** A settlement callback runs once for an invocation. *)
Definition settle_one (s : stream) : stream :=
  {| snapshot := s.(snapshot); has_algorithm := s.(has_algorithm);
     invoked := s.(invoked); settled := s.(settled) + 1 |}.

(** [readable_stream_pull_fulfilled]; [has_demand] is the demand at that
    time. *)
Definition readable_stream_pull_fulfilled (s : stream) (has_demand : bool) : stream :=
  let settlement := pull_fulfilled s.(snapshot).(pull) in
  let s := with_pull s settlement.(settle_next) in
  match settlement.(action) with
  | SettlePullAgain => maybe_pull_stream s has_demand
  | _ => s
  end.

(** [error_stream] of a readable stream. *)
Definition error_stream (s : stream) : stream :=
  {| snapshot := {| stream_state := match s.(snapshot).(stream_state) with
                                    | Readable => Errored | st => st end;
                    close_requested := s.(snapshot).(close_requested);
                    queue_available := s.(snapshot).(queue_available);
                    pull := s.(snapshot).(pull) |};
     has_algorithm := s.(has_algorithm); invoked := s.(invoked); settled := s.(settled) |}.

Definition readable_stream_pull_rejected (s : stream) : stream :=
  let settlement := pull_rejected s.(snapshot).(pull) in
  error_stream (with_pull s settlement.(settle_next)).

(** Everything that can happen to a stream.  Other operations of the stream
    may close or error it, request a close or replace the queue, but a stream
    that left [Readable] never comes back. *)
Inductive step : stream → stream → Prop :=
| step_maybe_pull s demand : step s (maybe_pull_stream s demand)
| step_started s : step s (mark_readable_stream_started s)
| step_fulfilled s demand :
    s.(settled) < s.(invoked) →
    step s (readable_stream_pull_fulfilled (settle_one s) demand)
| step_rejected s :
    s.(settled) < s.(invoked) → step s (readable_stream_pull_rejected (settle_one s))
| step_lifecycle s st req avail :
    (is_readable st = true → is_readable s.(snapshot).(stream_state) = true) →
    step s {| snapshot := {| stream_state := st; close_requested := req;
                             queue_available := avail; pull := s.(snapshot).(pull) |};
              has_algorithm := s.(has_algorithm); invoked := s.(invoked);
              settled := s.(settled) |}.

Definition initial (queue algorithm : bool) : stream :=
  {| snapshot := {| stream_state := Readable; close_requested := false;
                    queue_available := queue;
                    pull := {| started := false; pulling := false; pull_again := false |} |};
     has_algorithm := algorithm; invoked := 0; settled := 0 |}.

(** One pull in flight exactly while [pulling]; a remembered demand only
    during a pull, or on a stream that can pull no more. *)
Definition well_formed (s : stream) : Prop :=
  s.(invoked) = s.(settled) + (if s.(snapshot).(pull).(pulling) then 1 else 0) ∧
  (s.(snapshot).(pull).(pull_again) = true →
   s.(snapshot).(pull).(pulling) = true ∨ is_readable s.(snapshot).(stream_state) = false).

Lemma maybe_pull_well_formed s demand : well_formed s → well_formed (maybe_pull_stream s demand).
Proof.
  intros [H1 H2]. unfold maybe_pull_stream, plan_pull.
  destruct (can_consider_pull (snapshot s)) eqn:C; simpl; [|done].
  destruct demand; simpl; [|done].
  destruct (pulling (pull (snapshot s))) eqn:E; simpl.
  - unfold well_formed; simpl. rewrite E. auto.
  - destruct (has_algorithm s); simpl; [|by unfold well_formed; rewrite E].
    unfold well_formed; simpl. split; [lia | done].
Qed.

Lemma fulfilled_well_formed s demand :
  well_formed s → s.(settled) < s.(invoked) →
  well_formed (readable_stream_pull_fulfilled (settle_one s) demand).
Proof.
  intros [H1 H2] Hlt. unfold readable_stream_pull_fulfilled, pull_fulfilled. simpl.
  assert (well_formed (with_pull (settle_one s)
    {| started := started (pull (snapshot s)); pulling := false; pull_again := false |})).
  { split; simpl; [case_match; lia | done]. }
  destruct (pull_again _); simpl; auto using maybe_pull_well_formed.
Qed.

Lemma step_well_formed s s' : well_formed s → step s s' → well_formed s'.
Proof.
  intros Hw Hs; destruct Hs; auto using maybe_pull_well_formed, fulfilled_well_formed.
  - destruct Hw as [H1 H2]. unfold readable_stream_pull_rejected, error_stream; split; simpl;
      [case_match; lia | intros; right; by destruct (stream_state _)].
  - destruct Hw as [H1 H2]. split; simpl; [done|].
    intros [?|Hr]%H2; [by left|right]. destruct (is_readable st); naive_solver.
Qed.

(** Pulls never overlap and no demand is lost: in every reachable state
    at most one invocation of the pull algorithm is unsettled, and [pulling]
    says so; when it fulfils while a demand was noted and the stream can
    still be pulled, the next pull starts in the same step. *)
Theorem pulls_never_overlap (queue algorithm : bool) (s : stream) :
  rtc step (initial queue algorithm) s →
  s.(invoked) = s.(settled) + (if s.(snapshot).(pull).(pulling) then 1 else 0) ∧
  (s.(snapshot).(pull).(pull_again) = true →
   can_consider_pull s.(snapshot) = true → s.(has_algorithm) = true →
   let s' := readable_stream_pull_fulfilled (settle_one s) true in
   s.(settled) < s.(invoked) ∧ s'.(settled) = s.(settled) + 1 ∧
   s'.(invoked) = s.(invoked) + 1 ∧ s'.(snapshot).(pull).(pulling) = true).
Proof.
  intros Hr. assert (well_formed s) as [H1 H2].
  { refine (rtc_invariant step well_formed step_well_formed _ _ Hr _). done. }
  split; [done|]. intros Ha Hc Hg. destruct (H2 Ha) as [Hp|Hn].
  - simpl. unfold readable_stream_pull_fulfilled, pull_fulfilled. simpl. rewrite Ha. simpl.
    unfold maybe_pull_stream, plan_pull. unfold can_consider_pull in *. simpl. rewrite Hc. simpl.
    rewrite Hg, Hp in *. simpl. split_and!; [lia | done | done | done].
  - unfold can_consider_pull in Hc. by rewrite Hn in Hc.
Qed.

Lemma pulls_never_overlap_witness :
  let s := maybe_pull_stream (maybe_pull_stream
             (mark_readable_stream_started (initial true true)) true) true in
  rtc step (initial true true) s ∧
  (readable_stream_pull_fulfilled (settle_one s) true).(invoked) = 2.
Proof.
  assert (rtc step (initial true true) (maybe_pull_stream (maybe_pull_stream
             (mark_readable_stream_started (initial true true)) true) true)) as Hr.
  { eapply rtc_l; [apply step_started|]. eapply rtc_l; [apply (step_maybe_pull _ true)|].
    apply rtc_once, (step_maybe_pull _ true). }
  split; [exact Hr|].
  destruct (pulls_never_overlap true true _ Hr) as [_ H].
  destruct H as (_ & _ & E & _); [done | done | done |]. exact E.
Defined.

End Pull.

(** ** The async iterator *)
Module Iterator.

Inductive IteratorLifecycle := Active | Returning | LClosed.
Inductive IteratorOperationKind := Next | Return.

#[global] Instance IteratorLifecycle_eq_dec : EqDecision IteratorLifecycle.
Proof. solve_decision. Defined.

Record IteratorState := { lifecycle : IteratorLifecycle; operation_active : bool }.

#[global] Instance IteratorState_eq_dec : EqDecision IteratorState.
Proof. solve_decision. Defined.

Record IteratorTransition := { source : IteratorState; next : IteratorState }.

Definition transition (s : IteratorState) (l : IteratorLifecycle) (active : bool)
    : IteratorTransition :=
  {| source := s; next := {| lifecycle := l; operation_active := active |} |}.

Inductive IteratorPumpPlan :=
  | Idle
  | WaitForInFlight
  | StartNext (t : IteratorTransition)
  | StartReturn (t : IteratorTransition)
  | ResolveClosedNext
  | ResolveClosedReturn.

Definition plan_pump (s : IteratorState) (head : option IteratorOperationKind)
    : IteratorPumpPlan :=
  if s.(operation_active) || bool_decide (s.(lifecycle) = Returning) then WaitForInFlight
  else
    match head with
    | None => Idle
    | Some head =>
        match s.(lifecycle), head with
        | Active, Next => StartNext (transition s Active true)
        | Active, Return => StartReturn (transition s Returning true)
        | LClosed, Next => ResolveClosedNext
        | LClosed, Return => ResolveClosedReturn
        | Returning, _ => WaitForInFlight
        end
    end.

Inductive IteratorNextOutcome := OutcomeChunk | OutcomeDone | OutcomeRejected.

Definition plan_next_settlement (s : IteratorState) (outcome : IteratorNextOutcome)
    : run IteratorTransition :=
  if s.(operation_active) && bool_decide (s.(lifecycle) = Active) then
    let l := match outcome with
             | OutcomeChunk => Active
             | OutcomeDone | OutcomeRejected => LClosed
             end in
    Ret (transition s l false)
  else Panic.

Definition plan_return_settlement (s : IteratorState) : run IteratorTransition :=
  if s.(operation_active) && bool_decide (s.(lifecycle) = Returning) then
    Ret (transition s LClosed false)
  else Panic.

(** An operation object: its identity and kind. *)
Record operation := { op_id : N; op_kind : IteratorOperationKind }.

Inductive settlement := Resolved (done : bool) | Rejected.

(** The iterator's slots; [reactions] are the operations whose internal
    promise has reactions attached and has not settled, [pumps] the
    scheduled pump microtasks, [settled] the settled operation promises in
    order. *)
Record iterator := {
  closed_slot : bool;
  returning_slot : bool;
  operation_active_slot : bool;
  operations : list operation;
  reader : bool;
  prevent_cancel : bool;
  reactions : list operation;
  pumps : N;
  next_id : N;
  settled : list (N * settlement) }.

Definition iterator_state (i : iterator) : IteratorState :=
  let lifecycle := if i.(closed_slot) then LClosed
                   else if i.(returning_slot) then Returning else Active in
  {| lifecycle := lifecycle; operation_active := i.(operation_active_slot) |}.

Definition with_operations (i : iterator) (ops : list operation) : iterator :=
  {| closed_slot := i.(closed_slot); returning_slot := i.(returning_slot);
     operation_active_slot := i.(operation_active_slot); operations := ops;
     reader := i.(reader); prevent_cancel := i.(prevent_cancel);
     reactions := i.(reactions); pumps := i.(pumps); next_id := i.(next_id);
     settled := i.(settled) |}.

Definition with_reactions (i : iterator) (rs : list operation) : iterator :=
  {| closed_slot := i.(closed_slot); returning_slot := i.(returning_slot);
     operation_active_slot := i.(operation_active_slot); operations := i.(operations);
     reader := i.(reader); prevent_cancel := i.(prevent_cancel);
     reactions := rs; pumps := i.(pumps); next_id := i.(next_id); settled := i.(settled) |}.

Definition with_pumps (i : iterator) (n : N) : iterator :=
  {| closed_slot := i.(closed_slot); returning_slot := i.(returning_slot);
     operation_active_slot := i.(operation_active_slot); operations := i.(operations);
     reader := i.(reader); prevent_cancel := i.(prevent_cancel);
     reactions := i.(reactions); pumps := n; next_id := i.(next_id); settled := i.(settled) |}.

Definition settle (i : iterator) (op : operation) (r : settlement) : iterator :=
  {| closed_slot := i.(closed_slot); returning_slot := i.(returning_slot);
     operation_active_slot := i.(operation_active_slot); operations := i.(operations);
     reader := i.(reader); prevent_cancel := i.(prevent_cancel);
     reactions := i.(reactions); pumps := i.(pumps); next_id := i.(next_id);
     settled := i.(settled) ++ [(op.(op_id), r)] |}.

Definition apply_iterator_transition (i : iterator) (t : IteratorTransition) : run iterator :=
  if bool_decide (iterator_state i = t.(source)) then
    Ret {| closed_slot := bool_decide (t.(next).(lifecycle) = LClosed);
           returning_slot := bool_decide (t.(next).(lifecycle) = Returning);
           operation_active_slot := t.(next).(operation_active);
           operations := i.(operations); reader := i.(reader);
           prevent_cancel := i.(prevent_cancel); reactions := i.(reactions);
           pumps := i.(pumps); next_id := i.(next_id); settled := i.(settled) |}
  else Panic.

Definition current_iterator_operation (i : iterator) : option operation := head i.(operations).

Definition iterator_operation_is_current (i : iterator) (op : operation) : bool :=
  match current_iterator_operation i with
  | Some current => current.(op_id) =? op.(op_id)
  | None => false
  end.

Definition shift_iterator_operation (i : iterator) (op : operation) : run iterator :=
  if iterator_operation_is_current i op then Ret (with_operations i (tail i.(operations)))
  else Panic.

Definition release_readable_stream_async_iterator_reader (i : iterator) : iterator :=
  {| closed_slot := i.(closed_slot); returning_slot := i.(returning_slot);
     operation_active_slot := i.(operation_active_slot); operations := i.(operations);
     reader := false; prevent_cancel := i.(prevent_cancel);
     reactions := i.(reactions); pumps := i.(pumps); next_id := i.(next_id);
     settled := i.(settled) |}.

Definition schedule_pump (i : iterator) : iterator := with_pumps i (i.(pumps) + 1).

Definition attach_reaction (i : iterator) (op : operation) : iterator :=
  with_reactions i (i.(reactions) ++ [op]).

(** The read itself is the stream's; its promise settles later. *)
Definition start_iterator_next (i : iterator) (op : operation) : run iterator :=
  if i.(reader) then Ret (attach_reaction i op) else Panic.

Definition settle_iterator_return (i : iterator) (op : operation) (rejected : bool)
    : run iterator :=
  t ← plan_return_settlement (iterator_state i);
  i ← apply_iterator_transition i t;
  i ← shift_iterator_operation i op;
  let i := settle i op (if rejected then Rejected else Resolved true) in
  Ret (schedule_pump i).

Definition start_iterator_return (i : iterator) (op : operation) : run iterator :=
  if i.(prevent_cancel) then
    settle_iterator_return (release_readable_stream_async_iterator_reader i) op false
  else if i.(reader) then
    Ret (attach_reaction (release_readable_stream_async_iterator_reader i) op)
  else Panic.

(** The pump loop; out of fuel is [Panic]. *)
Fixpoint pump_loop (fuel : nat) (i : iterator) : run iterator :=
  match fuel with
  | O => Panic
  | Datatypes.S fuel =>
      let operation := current_iterator_operation i in
      match plan_pump (iterator_state i) (op_kind <$> operation) with
      | Idle | WaitForInFlight => Ret i
      | StartNext t =>
          operation ← expect operation;
          i ← apply_iterator_transition i t;
          start_iterator_next i operation
      | StartReturn t =>
          operation ← expect operation;
          i ← apply_iterator_transition i t;
          start_iterator_return i operation
      | ResolveClosedNext | ResolveClosedReturn =>
          operation ← expect operation;
          i ← shift_iterator_operation i operation;
          pump_loop fuel (settle i operation (Resolved true))
      end
  end.

Definition pump_readable_stream_async_iterator (i : iterator) : run iterator :=
  pump_loop (Datatypes.S (length i.(operations))) i.

Definition enqueue_iterator_operation (i : iterator) (kind : IteratorOperationKind)
    : run iterator :=
  let op := {| op_id := i.(next_id); op_kind := kind |} in
  pump_readable_stream_async_iterator
    {| closed_slot := i.(closed_slot); returning_slot := i.(returning_slot);
       operation_active_slot := i.(operation_active_slot);
       operations := i.(operations) ++ [op]; reader := i.(reader);
       prevent_cancel := i.(prevent_cancel); reactions := i.(reactions);
       pumps := i.(pumps); next_id := i.(next_id) + 1; settled := i.(settled) |}.

Definition settle_iterator_next_rejected (i : iterator) (op : operation) : run iterator :=
  t ← plan_next_settlement (iterator_state i) OutcomeRejected;
  i ← apply_iterator_transition i t;
  i ← shift_iterator_operation i op;
  let i := release_readable_stream_async_iterator_reader i in
  Ret (schedule_pump (settle i op Rejected)).

(** [result] is the [done] flag of the read result, [None] for a value that
    is no object. *)
Definition next_fulfilled_callback (i : iterator) (op : operation) (result : option bool)
    : run iterator :=
  if negb (iterator_operation_is_current i op) then Ret i
  else
    match result with
    | None => settle_iterator_next_rejected i op
    | Some done =>
        t ← plan_next_settlement (iterator_state i)
              (if done then OutcomeDone else OutcomeChunk);
        i ← apply_iterator_transition i t;
        i ← shift_iterator_operation i op;
        let i := if done then release_readable_stream_async_iterator_reader i else i in
        Ret (schedule_pump (settle i op (Resolved done)))
    end.

Definition next_rejected_callback (i : iterator) (op : operation) : run iterator :=
  if iterator_operation_is_current i op then settle_iterator_next_rejected i op else Ret i.

Definition return_settled_callback (i : iterator) (op : operation) (rejected : bool)
    : run iterator :=
  if iterator_operation_is_current i op then settle_iterator_return i op rejected else Ret i.

(** A promise settles: fulfilled with a read result, or rejected. *)
Inductive promise_outcome := PFulfilled (result : option bool) | PRejected.

Definition run_reaction (i : iterator) (op : operation) (o : promise_outcome) : run iterator :=
  match op.(op_kind), o with
  | Next, PFulfilled result => next_fulfilled_callback i op result
  | Next, PRejected => next_rejected_callback i op
  | Return, PFulfilled _ => return_settled_callback i op false
  | Return, PRejected => return_settled_callback i op true
  end.

(** What the event loop does to an iterator: a method call, the settlement
    of the oldest attached promise, a pump microtask. *)
Inductive event := Call (kind : IteratorOperationKind) | Settle (o : promise_outcome) | RunPump.

Definition step (i : iterator) (e : event) : run iterator :=
  match e with
  | Call kind => enqueue_iterator_operation i kind
  | Settle o =>
      match i.(reactions) with
      | [] => Ret i
      | op :: rest => run_reaction (with_reactions i rest) op o
      end
  | RunPump =>
      if i.(pumps) =? 0 then Ret i
      else pump_readable_stream_async_iterator (with_pumps i (i.(pumps) - 1))
  end.

Fixpoint steps (i : iterator) (es : list event) : run iterator :=
  match es with [] => Ret i | e :: es => i ← step i e; steps i es end.

Definition fresh (prevent_cancel : bool) : iterator :=
  {| closed_slot := false; returning_slot := false; operation_active_slot := false;
     operations := []; reader := true; prevent_cancel := prevent_cancel;
     reactions := []; pumps := 0; next_id := 0; settled := [] |}.

(** *** Invariant *)

(** Every promise handed out is settled or queued, in call order. *)
Definition accounted (i : iterator) : Prop :=
  i.(settled).*1 ++ (op_id <$> i.(operations)) = issued i.(next_id).

(** Nothing in flight; an active iterator holds its reader. *)
Definition quiet (i : iterator) : Prop :=
  i.(operation_active_slot) = false ∧ i.(reactions) = [] ∧ i.(returning_slot) = false ∧
  (i.(closed_slot) = false → i.(reader) = true).

(** The queue head is in flight and the only one with reactions attached. *)
Definition running (i : iterator) : Prop :=
  i.(operation_active_slot) = true ∧ i.(closed_slot) = false ∧
  ∃ op rest, i.(operations) = op :: rest ∧ i.(reactions) = [op] ∧
    match op.(op_kind) with
    | Next => i.(returning_slot) = false ∧ i.(reader) = true
    | Return => i.(returning_slot) = true
    end.

Definition invariant (i : iterator) : Prop :=
  accounted i ∧ (running i ∨ (quiet i ∧ (i.(operations) ≠ [] → 0 < i.(pumps)))).

(** Settling the head moves one identity from the queue to the log. *)
Lemma settle_accounted i op rest r :
  accounted i → i.(operations) = op :: rest →
  accounted (settle (with_operations i rest) op r).
Proof.
  unfold accounted. simpl. intros <- ->. rewrite fmap_app, <-app_assoc. done.
Qed.

Lemma shift_head i op rest :
  i.(operations) = op :: rest →
  shift_iterator_operation i op = Ret (with_operations i rest).
Proof.
  intros E. unfold shift_iterator_operation, iterator_operation_is_current,
    current_iterator_operation. rewrite E. simpl. by rewrite N.eqb_refl.
Qed.

Lemma apply_self i l a :
  apply_iterator_transition i (transition (iterator_state i) l a) =
  Ret {| closed_slot := bool_decide (l = LClosed); returning_slot := bool_decide (l = Returning);
         operation_active_slot := a; operations := i.(operations); reader := i.(reader);
         prevent_cancel := i.(prevent_cancel); reactions := i.(reactions);
         pumps := i.(pumps); next_id := i.(next_id); settled := i.(settled) |}.
Proof. unfold apply_iterator_transition. simpl. by rewrite bool_decide_eq_true_2. Qed.

(** The settlement of a return in progress empties the flight. *)
Lemma settle_return_invariant i op rest rejected :
  accounted i → i.(operation_active_slot) = true → i.(closed_slot) = false →
  i.(returning_slot) = true → i.(operations) = op :: rest → i.(reactions) = [] →
  ∃ i', settle_iterator_return i op rejected = Ret i' ∧ invariant i'.
Proof.
  intros Ha H1 H2 H3 H4 H5. unfold settle_iterator_return, plan_return_settlement.
  replace (lifecycle (iterator_state i)) with Returning
    by (unfold iterator_state; simpl; by rewrite H2, H3).
  simpl. rewrite H1. simpl. rewrite apply_self. simpl. erewrite shift_head by done. simpl.
  eexists; split; [done|]. split.
  - unfold accounted in *; simpl. rewrite <-Ha, H4, fmap_app, <-app_assoc. done.
  - right. split; [unfold quiet; by split_and!|]. simpl. lia.
Qed.

Lemma pump_running fuel i : running i → pump_loop (Datatypes.S fuel) i = Ret i.
Proof.
  intros (H1 & _). simpl. unfold plan_pump, iterator_state. simpl. by rewrite H1.
Qed.

Lemma pump_quiet fuel i :
  accounted i → quiet i → (length i.(operations) < fuel)%nat →
  ∃ i', pump_loop fuel i = Ret i' ∧ invariant i'.
Proof.
  revert i. induction fuel as [|fuel IH]; [simpl; lia|]. intros i Ha (H1 & H2 & H3 & H4) Hf.
  cbn [pump_loop]. unfold current_iterator_operation, plan_pump.
  destruct (operations i) as [|op rest] eqn:Eo; simpl.
  { rewrite H1, H3. destruct (closed_slot i) eqn:Ec; simpl; exists i; (split; [done|]);
      (split; [done|]; right; split; [unfold quiet; naive_solver | by rewrite Eo]). }
  rewrite H1, H3. destruct (closed_slot i) eqn:Ec; simpl.
  - assert (∃ i', pump_loop fuel (settle (with_operations i rest) op (Resolved true)) = Ret i'
      ∧ invariant i') as (i' & E & Hi).
    { apply IH; [by apply settle_accounted | unfold quiet; simpl; naive_solver | simpl in *; lia]. }
    destruct (op_kind op); rewrite (shift_head i op rest Eo); simpl; eauto.
  - destruct (op_kind op) eqn:Ek; simpl; unfold apply_iterator_transition; simpl;
      rewrite bool_decide_eq_true_2 by (unfold iterator_state; by rewrite H1, H3, Ec); simpl.
    + unfold start_iterator_next. simpl. rewrite H4 by done. eexists; split; [done|].
      split; [exact Ha|]. left. split; [done|]. split; [done|]. exists op, rest. simpl.
      rewrite H2, Ek. by split_and!; auto.
    + unfold start_iterator_return. simpl. destruct (prevent_cancel i).
      * by eapply settle_return_invariant.
      * rewrite H4 by done. eexists; split; [done|]. split; [exact Ha|]. left.
        split; [done|]. split; [done|]. exists op, rest. simpl. by rewrite H2, Ek.
Qed.

Lemma pump_invariant i :
  accounted i → running i ∨ quiet i →
  ∃ i', pump_readable_stream_async_iterator i = Ret i' ∧ invariant i'.
Proof.
  intros Ha [Hr|Hq].
  - exists i. split; [by apply pump_running | by split; auto].
  - by apply pump_quiet; [| |lia].
Qed.

(** The settlement of a read in flight. *)
Lemma settle_next_invariant i op rest outcome r (release : bool) :
  accounted i → running (with_reactions i [op]) → i.(reactions) = [] →
  i.(operations) = op :: rest → op.(op_kind) = Next →
  (outcome ≠ OutcomeChunk → release = true) → (outcome = OutcomeChunk → release = false) →
  ∃ i', (t ← plan_next_settlement (iterator_state i) outcome;
         i ← apply_iterator_transition i t;
         i ← shift_iterator_operation i op;
         let i := if release then release_readable_stream_async_iterator_reader i else i in
         Ret (schedule_pump (settle i op r))) = Ret i' ∧ invariant i'.
Proof.
  intros Ha (H1 & H2 & op' & rest' & E1 & E2 & Hk) Hr E3 Ek Hx Hy. simpl in *.
  injection E2 as <-. rewrite Ek in Hk. destruct Hk as [H3 H4].
  unfold plan_next_settlement.
  replace (lifecycle (iterator_state i)) with Active
    by (unfold iterator_state; simpl; by rewrite H2, H3).
  simpl. rewrite H1. simpl. rewrite apply_self. simpl. erewrite shift_head by done. simpl.
  eexists; split; [done|]. split.
  - unfold accounted in *; simpl. destruct release; simpl; rewrite <-Ha, E3, fmap_app, <-app_assoc;
      done.
  - right. split; [|destruct release; simpl; lia].
    destruct outcome, release; split_and!; simpl; try done; naive_solver.
Qed.

Lemma step_invariant i e : invariant i → ∃ i', step i e = Ret i' ∧ invariant i'.
Proof.
  intros [Ha Hs]. destruct e as [kind|o|]; simpl.
  - unfold enqueue_iterator_operation. apply pump_invariant.
    + unfold accounted in *; simpl. rewrite fmap_app, app_assoc, Ha, issued_succ. done.
    + destruct Hs as [(H1 & H2 & op & rest & E1 & E2 & Hk)|[Hq _]]; [left|by right].
      split; [done|]. split; [done|]. exists op, (rest ++ [{| op_id := next_id i; op_kind := kind |}]).
      simpl. by rewrite E1.
  - destruct (reactions i) as [|op rs] eqn:Er; [by exists i; split; [|split]|].
    destruct Hs as [(H1 & H2 & op' & rest & E1 & E2 & Hk)|[(_ & Hn & _) _]]; [|congruence].
    rewrite Er in E2. injection E2 as -> ->.
    assert (iterator_operation_is_current (with_reactions i []) op' = true) as Hc.
    { unfold iterator_operation_is_current, current_iterator_operation. simpl. rewrite E1.
      simpl. apply N.eqb_refl. }
    assert (running i) as Hrun by (split_and!; eauto 10).
    unfold run_reaction. destruct (op_kind op') eqn:Ek.
    + assert (∀ outcome r release, (outcome ≠ OutcomeChunk → release = true) →
        (outcome = OutcomeChunk → release = false) → _) as Hn
        by (intros outcome r release; exact (settle_next_invariant (with_reactions i []) op' rest
              outcome r release Ha ltac:(destruct i; simpl in *; by subst) eq_refl E1 Ek)).
      destruct o as [[[]|]|]; unfold next_fulfilled_callback, next_rejected_callback;
        rewrite Hc; simpl.
      * by apply (Hn OutcomeDone _ true).
      * by apply (Hn OutcomeChunk _ false).
      * by apply (Hn OutcomeRejected _ true).
      * by apply (Hn OutcomeRejected _ true).
    + destruct o; unfold return_settled_callback; rewrite Hc;
        by eapply settle_return_invariant.
  - destruct (N.eqb_spec (pumps i) 0) as [Hz|Hz]; [by exists i; split; [|split]|].
    apply pump_invariant; [done|].
    destruct Hs as [Hr|[Hq _]]; [by left|by right].
Qed.

(** An async iterator's operations are serial and answered in order.
    Under every interleaving of [next]/[return] calls, promise settlements
    and pump microtasks, no assertion or [expect] of the driver fails and the
    pump loop ends; the promises handed out are settled exactly once and in
    call order (the settled ones followed by the queued ones are all the
    identities issued); at most one operation is in flight, and it is the
    queue head; and a queued operation is never stranded: the head is in
    flight or a pump is scheduled. *)
Theorem iterator_serial (prevent_cancel : bool) (es : list event) :
  ∃ i, steps (fresh prevent_cancel) es = Ret i ∧
    i.(settled).*1 ++ (op_id <$> i.(operations)) = issued i.(next_id) ∧
    (i.(reactions) = [] ∨ ∃ op, i.(reactions) = [op] ∧ head i.(operations) = Some op) ∧
    (i.(operations) ≠ [] → i.(reactions) ≠ [] ∨ 0 < i.(pumps)).
Proof.
  assert (∀ i, invariant i → ∃ i', steps i es = Ret i' ∧ invariant i') as H.
  { induction es as [|e es IH]; intros i Hi; simpl; [eauto|].
    destruct (step_invariant i e Hi) as (i1 & -> & H1). simpl. auto. }
  destruct (H (fresh prevent_cancel)) as (i & E & Ha & Hs).
  { split; [done|]. right. by split; [unfold quiet; split_and!|]. }
  exists i. split; [done|]. split; [done|].
  destruct Hs as [(_ & _ & op & rest & -> & -> & _)|[(_ & -> & _) Hp]]; [|by auto].
  split; [right; by exists op | by left].
Qed.

End Iterator.
