(* ===== verification/Writable.v ===== *)
(** Writable streams (moli-streams, [writable/mod.rs],
    [writable/erroring.rs], [writable/writer.rs],
    [writable/default_controller.rs]): lifecycle, error, writer-promise and
    pump plans.  The stream that applies them is in [WritableSink]. *)
From Stdlib Require Import SpecFloat.
From stdpp Require Import base list numbers option.
From S2P Require Import Prelude StreamQueue.
Import F64.

#[local] Open Scope N_scope.

Inductive WritableState := Writable | Erroring | Closed | Errored.

#[global] Instance WritableState_eq_dec : EqDecision WritableState.
Proof. solve_decision. Defined.

Definition from_storage (closed erroring errored : bool) : WritableState :=
  if errored then Errored else if erroring then Erroring
  else if closed then Closed else Writable.

Inductive WritableKind := KindSink | KindTransform.

(** ** erroring.rs *)
Inductive PendingAbortState := AbortNone | InitiatedErroring | AlreadyErroring.

Definition is_pending (a : PendingAbortState) : bool :=
  match a with AbortNone => false | _ => true end.

Inductive AbortPlan :=
  | AbortResolve
  | AbortReusePending
  | AbortCreatePending (was_already_erroring start_erroring : bool).

Inductive ErrorPlan := ErrorIgnore | ErrorStart (finish_immediately : bool).

Inductive FinishErroringPlan :=
  | FinishIgnore | FinishWait | FinishWithoutAbort | FinishAndRejectAbort | FinishAndRunAbort.

Inductive CloseOutcome := CloseFulfilled | CloseRejected.

Inductive CloseSettlementPlan :=
  | SettleClose (clear_stored_error resolve_pending_abort : bool)
  | SettleReject (reject_pending_abort : bool).

Record ErroringSnapshot := {
  e_state : WritableState;
  e_start_pending : bool;
  e_operation_in_flight : bool;
  e_pending_abort : PendingAbortState }.

(** The last arm of the code is [unreachable!()]. *)
Definition plan_abort (e : ErroringSnapshot) : run AbortPlan :=
  match e.(e_state) with
  | Closed | Errored => Ret AbortResolve
  | _ =>
      if is_pending e.(e_pending_abort) then Ret AbortReusePending
      else
        match e.(e_state) with
        | Writable => Ret (AbortCreatePending false true)
        | Erroring => Ret (AbortCreatePending true false)
        | Closed | Errored => Panic
        end
  end.

Definition plan_error (e : ErroringSnapshot) : ErrorPlan :=
  match e.(e_state) with
  | Writable => ErrorStart (negb e.(e_start_pending) && negb e.(e_operation_in_flight))
  | _ => ErrorIgnore
  end.

Definition plan_finish (e : ErroringSnapshot) : FinishErroringPlan :=
  match e.(e_state) with
  | Erroring =>
      if e.(e_start_pending) || e.(e_operation_in_flight) then FinishWait
      else
        match e.(e_pending_abort) with
        | AbortNone => FinishWithoutAbort
        | InitiatedErroring => FinishAndRunAbort
        | AlreadyErroring => FinishAndRejectAbort
        end
  | _ => FinishIgnore
  end.

(** With the [debug_assert!] on the state. *)
Definition plan_close_settlement (e : ErroringSnapshot) (outcome : CloseOutcome)
    : run CloseSettlementPlan :=
  match e.(e_state) with
  | Writable | Erroring =>
      Ret match outcome with
          | CloseFulfilled =>
              SettleClose (bool_decide (e.(e_state) = Erroring)) (is_pending e.(e_pending_abort))
          | CloseRejected => SettleReject (is_pending e.(e_pending_abort))
          end
  | _ => Panic
  end.

(** ** mod.rs *)
Record WritableSnapshot := {
  state : WritableState;
  kind : WritableKind;
  locked : bool;
  close_requested : bool;
  start_pending : bool;
  pending_write_count : N;
  transform_close_in_flight : bool;
  operation_in_flight : bool;
  pending_abort : PendingAbortState;
  strategy : StrategySnapshot }.

Definition erroring (s : WritableSnapshot) : ErroringSnapshot :=
  {| e_state := s.(state); e_start_pending := s.(start_pending);
     e_operation_in_flight := s.(operation_in_flight) || s.(transform_close_in_flight);
     e_pending_abort := s.(pending_abort) |}.

Inductive AcquireWriterPlan := AcquireWriter | AcquireRejectLocked.

Definition access_plan_acquire (locked : bool) : AcquireWriterPlan :=
  if locked then AcquireRejectLocked else AcquireWriter.

Definition plan_acquire_writer (s : WritableSnapshot) : AcquireWriterPlan :=
  if s.(locked) then AcquireRejectLocked else AcquireWriter.

Inductive UnlockedEntryPlan := EntryContinue | EntryRejectLocked.

Definition plan_unlocked_abort_entry (s : WritableSnapshot) : UnlockedEntryPlan :=
  if s.(locked) then EntryRejectLocked else EntryContinue.

Inductive UnlockedCloseEntryPlan :=
  CloseEntryContinue | CloseEntryRejectLocked | CloseEntryRejectErrored.

Definition plan_unlocked_close_entry (s : WritableSnapshot) : UnlockedCloseEntryPlan :=
  if s.(locked) then CloseEntryRejectLocked
  else match s.(state) with Errored => CloseEntryRejectErrored | _ => CloseEntryContinue end.

Definition is_error_state (s : WritableState) : bool :=
  match s with Erroring | Errored => true | _ => false end.

Inductive WriteEntryPlan := WriteEntryContinue | WriteEntryRejectStoredError.

Definition plan_writer_write_entry (s : WritableSnapshot) : WriteEntryPlan :=
  if is_error_state s.(state) then WriteEntryRejectStoredError else WriteEntryContinue.

Definition plan_internal_write_entry (s : WritableSnapshot) : WriteEntryPlan :=
  if is_error_state s.(state) then WriteEntryRejectStoredError else WriteEntryContinue.

Inductive WriteAfterSizePlan :=
  | AfterSizeContinue | AfterSizeRejectReleasedWriter
  | AfterSizeRejectStoredError | AfterSizeRejectClosingOrClosed.

Definition plan_write_after_size (s : WritableSnapshot) (owner_is_current : bool)
    : WriteAfterSizePlan :=
  if negb owner_is_current then AfterSizeRejectReleasedWriter
  else if is_error_state s.(state) then AfterSizeRejectStoredError
  else if s.(close_requested) || bool_decide (s.(state) = Closed)
  then AfterSizeRejectClosingOrClosed
  else AfterSizeContinue.

Inductive WriteRoutePlan := RouteTransform | RouteQueueSink.

Definition plan_write_route (s : WritableSnapshot) : WriteRoutePlan :=
  match s.(kind) with KindTransform => RouteTransform | KindSink => RouteQueueSink end.

Inductive ClosePlan :=
  | RejectAlreadyRequested | RejectTerminal | RequestAndQueueForErroring
  | RequestTransform | RequestAndQueueSink.

Definition plan_close (s : WritableSnapshot) : ClosePlan :=
  if s.(close_requested) || bool_decide (s.(state) = Closed) then RejectAlreadyRequested
  else
    match s.(state) with
    | Errored => RejectTerminal
    | Erroring => RequestAndQueueForErroring
    | _ => match s.(kind) with
           | KindTransform => RequestTransform
           | KindSink => RequestAndQueueSink
           end
    end.

Inductive CloseWithErrorPropagationPlan :=
  PropagationResolve | PropagationRejectStoredError | PropagationClose.

Definition plan_close_with_error_propagation (s : WritableSnapshot)
    : CloseWithErrorPropagationPlan :=
  if s.(close_requested) || bool_decide (s.(state) = Closed) then PropagationResolve
  else if is_error_state s.(state) then PropagationRejectStoredError
  else PropagationClose.

Inductive DesiredSizePlan := DesiredNull | DesiredZero | DesiredValue (v : f64).

Definition plan_desired_size (s : WritableSnapshot) : DesiredSizePlan :=
  match s.(state) with
  | Erroring | Errored => DesiredNull
  | Closed => DesiredZero
  | Writable => DesiredValue (desired_size s.(strategy))
  end.

(** A close that [plan_close] would refuse is a success for a pipe exactly
    when it was requested or has happened; otherwise both go ahead. *)
Lemma close_propagation_agrees s :
  match plan_close_with_error_propagation s with
  | PropagationResolve => plan_close s = RejectAlreadyRequested
  | PropagationRejectStoredError =>
      plan_close s = RejectTerminal ∨ plan_close s = RequestAndQueueForErroring
  | PropagationClose => plan_close s = RequestTransform ∨ plan_close s = RequestAndQueueSink
  end.
Proof.
  unfold plan_close_with_error_propagation, plan_close.
  destruct (close_requested s), (state s), (kind s); simpl; auto.
Qed.

(** ** writer.rs *)
Inductive PromiseResidenceState :=
  ResidenceMissing | ResidencePending | ResidenceFulfilled | ResidenceRejected.
Inductive InitialPromiseState :=
  InitialPending | InitialFulfilled | InitialRejectedStoredError.

Record WriterPromiseInitialization := {
  ready : InitialPromiseState; closed : InitialPromiseState }.

Definition plan_writer_promise_initialization (state : WritableState)
    (close_queued_or_in_flight backpressure : bool) : WriterPromiseInitialization :=
  match state with
  | Writable =>
      {| ready := if close_queued_or_in_flight || negb backpressure
                  then InitialFulfilled else InitialPending;
         closed := InitialPending |}
  | Erroring => {| ready := InitialRejectedStoredError; closed := InitialPending |}
  | Closed => {| ready := InitialFulfilled; closed := InitialFulfilled |}
  | Errored => {| ready := InitialRejectedStoredError; closed := InitialRejectedStoredError |}
  end.

Inductive EnsurePendingPlan := PendingKeep | ReplaceWithPending.

Definition plan_ensure_pending (s : PromiseResidenceState) : EnsurePendingPlan :=
  match s with ResidencePending => PendingKeep | _ => ReplaceWithPending end.

Inductive ResolvePromisePlan := ResolveKeep | ResolveCurrent.

Definition plan_resolve (s : PromiseResidenceState) : ResolvePromisePlan :=
  match s with ResidencePending => ResolveCurrent | _ => ResolveKeep end.

Inductive EnsureRejectedPlan := RejectCurrent | ReplaceAndReject.

Definition plan_ensure_rejected (s : PromiseResidenceState) : EnsureRejectedPlan :=
  match s with ResidencePending => RejectCurrent | _ => ReplaceAndReject end.

(** ** default_controller.rs *)
Definition SINK_CONTINUATION_SCHEDULED : N := N.shiftl 1 0.
Definition TRANSFORM_CONTINUATION_SCHEDULED : N := N.shiftl 1 1.
Definition TRANSFORM_CLOSE_IN_FLIGHT : N := N.shiftl 1 2.

Inductive PendingWriteKind :=
  | WTransform | WTransformRunning | WClose | WSink | WSinkRunning | WSinkCloseRunning.

#[global] Instance PendingWriteKind_eq_dec : EqDecision PendingWriteKind.
Proof. solve_decision. Defined.

Definition is_running (k : PendingWriteKind) : bool :=
  match k with WTransformRunning | WSinkRunning | WSinkCloseRunning => true | _ => false end.

Definition is_close (k : PendingWriteKind) : bool :=
  match k with WClose | WSinkCloseRunning => true | _ => false end.

(** [PumpState] is its [u32]. *)
Definition sink_continuation_scheduled (p : N) : bool :=
  negb (N.land p SINK_CONTINUATION_SCHEDULED =? 0).
Definition transform_continuation_scheduled (p : N) : bool :=
  negb (N.land p TRANSFORM_CONTINUATION_SCHEDULED =? 0).
Definition pump_transform_close_in_flight (p : N) : bool :=
  negb (N.land p TRANSFORM_CLOSE_IN_FLIGHT =? 0).

(** [!bit] is the complement in 32 bits. *)
Definition with_bit (p bit : N) (enabled : bool) : N :=
  if enabled then N.lor p bit else N.land p (N.lxor u32_max bit).

Definition with_sink_continuation (p : N) (scheduled : bool) : N :=
  with_bit p SINK_CONTINUATION_SCHEDULED scheduled.
Definition with_transform_continuation (p : N) (scheduled : bool) : N :=
  with_bit p TRANSFORM_CONTINUATION_SCHEDULED scheduled.
Definition with_transform_close_in_flight (p : N) (in_flight : bool) : N :=
  with_bit p TRANSFORM_CLOSE_IN_FLIGHT in_flight.

Record WritableControllerSnapshot := {
  c_strategy : StrategySnapshot;
  c_queue : QueueBounds;
  c_head_kind : option PendingWriteKind;
  c_start_pending : bool;
  c_state : WritableState;
  c_close_requested : bool;
  c_pump : N }.

Inductive WriteCompletion := CompletionFulfilled | CompletionRejected | CompletionDiscarded.
Inductive ReadyTransition := ReadyKeep | ReadyEnsurePending | ReadyResolvePending.

Record WriteSizePlan := { total : QueueTotalPlan; ready_transition : ReadyTransition }.

Definition plan_record_write (c : WritableControllerSnapshot) (size : f64) : WriteSizePlan :=
  let total := plan_enqueue c.(c_strategy).(queue_total_size) size in
  let next := {| high_water_mark := c.(c_strategy).(high_water_mark);
                 queue_total_size := total.(next) |} in
  {| total := total;
     ready_transition := if le (desired_size next) zero then ReadyEnsurePending else ReadyKeep |}.

Definition plan_finish_write (c : WritableControllerSnapshot) (size : f64)
    (completion : WriteCompletion) : WriteSizePlan :=
  let total := plan_dequeue c.(c_strategy).(queue_total_size) size in
  let next := {| high_water_mark := c.(c_strategy).(high_water_mark);
                 queue_total_size := total.(next) |} in
  {| total := total;
     ready_transition :=
       if match completion with CompletionFulfilled => true | _ => false end
          && bool_decide (c.(c_state) = Writable)
          && negb c.(c_close_requested)
          && lt zero (desired_size next)
       then ReadyResolvePending else ReadyKeep |}.

Inductive SinkPumpPlan :=
  | SinkWait | SinkFinishErroring
  | SinkStartWrite (source running : PendingWriteKind)
  | SinkStartClose (source running : PendingWriteKind).

Definition head_is_running (c : WritableControllerSnapshot) : bool :=
  match c.(c_head_kind) with Some kind => is_running kind | None => false end.

Definition plan_sink_pump (c : WritableControllerSnapshot) : SinkPumpPlan :=
  if c.(c_start_pending) || sink_continuation_scheduled c.(c_pump) then SinkWait
  else
    match c.(c_state) with
    | Closed | Errored => SinkWait
    | Erroring => if head_is_running c then SinkWait else SinkFinishErroring
    | Writable =>
        match c.(c_head_kind) with
        | None => SinkWait
        | Some kind =>
            if is_running kind || (negb (is_close kind) && negb (bool_decide (kind = WSink)))
            then SinkWait
            else if is_close kind then SinkStartClose kind WSinkCloseRunning
            else SinkStartWrite kind WSinkRunning
        end
    end.

Inductive TransformPumpPlan :=
  | TransformWait | TransformFinishErroring
  | TransformStartWrite (source running : PendingWriteKind)
  | TransformStartClose (source running : PendingWriteKind).

Definition plan_transform_pump (c : WritableControllerSnapshot) (readable_has_capacity : bool)
    : TransformPumpPlan :=
  if c.(c_start_pending) || transform_continuation_scheduled c.(c_pump) then TransformWait
  else
    match c.(c_state) with
    | Closed | Errored => TransformWait
    | Erroring =>
        if pump_transform_close_in_flight c.(c_pump) || head_is_running c
        then TransformWait else TransformFinishErroring
    | Writable =>
        match c.(c_head_kind) with
        | None => TransformWait
        | Some kind =>
            if is_running kind || (negb (is_close kind) && negb readable_has_capacity)
            then TransformWait
            else if is_close kind then TransformStartClose kind WTransformRunning
            else TransformStartWrite kind WTransformRunning
        end
    end.

Inductive ContinuationPlan := ContinuationIgnore | ContinuationSchedule (pump : N).

Definition plan_schedule_sink_continuation (c : WritableControllerSnapshot) : ContinuationPlan :=
  if negb (bool_decide (c.(c_state) = Writable)) || sink_continuation_scheduled c.(c_pump)
  then ContinuationIgnore
  else
    match c.(c_head_kind) with
    | None => ContinuationIgnore
    | Some kind =>
        if is_running kind || (negb (is_close kind) && negb (bool_decide (kind = WSink)))
        then ContinuationIgnore
        else ContinuationSchedule (with_sink_continuation c.(c_pump) true)
    end.

Definition plan_schedule_transform_continuation (c : WritableControllerSnapshot)
    : ContinuationPlan :=
  if negb (bool_decide (c.(c_state) = Writable)) || transform_continuation_scheduled c.(c_pump)
  then ContinuationIgnore
  else
    match c.(c_head_kind) with
    | None => ContinuationIgnore
    | Some kind =>
        if is_running kind then ContinuationIgnore
        else ContinuationSchedule (with_transform_continuation c.(c_pump) true)
    end.

Definition writable_plan_dequeue (c : WritableControllerSnapshot)
    : run (option QueueDequeuePlan) := dequeue c.(c_queue).

Inductive RejectEntryPlan :=
  FinishAndRejectPromise | FinishWithoutRejectingPromise | DeferClosePromise.

Definition plan_reject_entry (kind : PendingWriteKind) : RejectEntryPlan :=
  if is_close kind then DeferClosePromise
  else match kind with
       | WTransformRunning => FinishWithoutRejectingPromise
       | _ => FinishAndRejectPromise
       end.

(** Setting one pump flag reads back and leaves the other two alone, for
    every stored 32-bit word. *)
Lemma pump_flags_independent p b :
  sink_continuation_scheduled (with_sink_continuation p b) = b ∧
  transform_continuation_scheduled (with_sink_continuation p b)
    = transform_continuation_scheduled p ∧
  pump_transform_close_in_flight (with_sink_continuation p b)
    = pump_transform_close_in_flight p.
Proof.
  unfold sink_continuation_scheduled, transform_continuation_scheduled,
    pump_transform_close_in_flight, with_sink_continuation, with_bit,
    SINK_CONTINUATION_SCHEDULED, TRANSFORM_CONTINUATION_SCHEDULED, TRANSFORM_CLOSE_IN_FLIGHT.
  change (N.shiftl 1 0) with 1. change (N.shiftl 1 1) with 2. change (N.shiftl 1 2) with 4.
  destruct b; [rewrite !N.land_lor_distr_l | rewrite <-!N.land_assoc]; simpl;
    rewrite ?N.lor_0_r, ?N.land_0_r; split_and!; try done.
  by destruct (N.eqb_spec (N.lor (N.land p 1) (N.land 1 1)) 0) as [[_ ?]%N.lor_eq_0_iff|].
Qed.
