(* ===== verification/WritableSink.v ===== *)
(** The writable stream over an underlying sink
    (moli-renderer-v8, [stream_adapter/writable.rs], sink kind): the write
    queue, the in-flight write or close, the two-phase error, abort requests
    and the start barrier, applied through the plans of [Writable].

    A call of the sink runs author code, which may call back into the stream
    before it returns; so the operations are split where the code calls out,
    and a history is an arbitrary sequence of events.  [invocation] is the
    sink algorithm on the stack, [awaiting] the one whose promise has
    reactions attached.  Promises are numbers; [settled] logs their
    settlements.  The pending-write queue is its live entries (the head index
    and the consumed prefix are those of [StreamQueue]).  Left out: the
    writer's [ready] and [closed] promises, the controller's abort signal and
    the drain of a pipe, none of which the transitions below read. *)
From Stdlib Require Import SpecFloat.
From stdpp Require Import base list numbers option relations.
From S2P Require Import Prelude StreamQueue Writable.
Import F64.

#[local] Open Scope N_scope.

Record entry := { e_kind : PendingWriteKind; e_chunk : N; e_promise : N; e_size : f64 }.

Record abort_record := { residence : N; reason : N; already_erroring : bool }.

Inductive outcome := Resolved | Rejected (reason : N).

Inductive sink_op := SinkWrite | SinkClose.

Inductive sink_call := CallWrite (chunk : N) | CallClose | CallAbort (reason : N).

Record stream := mk {
  queue : list entry;
  total_size : f64;
  hwm : f64;
  closed_slot : bool;
  erroring_slot : bool;
  errored_slot : bool;
  close_requested_slot : bool;
  start_pending_slot : bool;
  stored_error : option N;
  pump_slot : N;
  pending_close : option N;
  pending_abort_slot : option abort_record;
  abort_running : list N;
  webidl : bool;
  invocation : option sink_op;
  awaiting : option sink_op;
  continuations : N;
  next_promise : N;
  accepted : list N;
  calls : list sink_call;
  settled : list (N * outcome) }.

Definition set_queue (s : stream) (q : list entry) : stream :=
  mk q s.(total_size) s.(hwm) s.(closed_slot) s.(erroring_slot) s.(errored_slot)
    s.(close_requested_slot) s.(start_pending_slot) s.(stored_error) s.(pump_slot)
    s.(pending_close) s.(pending_abort_slot) s.(abort_running) s.(webidl) s.(invocation)
    s.(awaiting) s.(continuations) s.(next_promise) s.(accepted) s.(calls) s.(settled).

Definition set_total (s : stream) (t : f64) : stream :=
  mk s.(queue) t s.(hwm) s.(closed_slot) s.(erroring_slot) s.(errored_slot)
    s.(close_requested_slot) s.(start_pending_slot) s.(stored_error) s.(pump_slot)
    s.(pending_close) s.(pending_abort_slot) s.(abort_running) s.(webidl) s.(invocation)
    s.(awaiting) s.(continuations) s.(next_promise) s.(accepted) s.(calls) s.(settled).

Definition set_erroring (s : stream) (b : bool) : stream :=
  mk s.(queue) s.(total_size) s.(hwm) s.(closed_slot) b s.(errored_slot)
    s.(close_requested_slot) s.(start_pending_slot) s.(stored_error) s.(pump_slot)
    s.(pending_close) s.(pending_abort_slot) s.(abort_running) s.(webidl) s.(invocation)
    s.(awaiting) s.(continuations) s.(next_promise) s.(accepted) s.(calls) s.(settled).

Definition set_errored (s : stream) (b : bool) : stream :=
  mk s.(queue) s.(total_size) s.(hwm) s.(closed_slot) s.(erroring_slot) b
    s.(close_requested_slot) s.(start_pending_slot) s.(stored_error) s.(pump_slot)
    s.(pending_close) s.(pending_abort_slot) s.(abort_running) s.(webidl) s.(invocation)
    s.(awaiting) s.(continuations) s.(next_promise) s.(accepted) s.(calls) s.(settled).

Definition set_closed (s : stream) (b : bool) : stream :=
  mk s.(queue) s.(total_size) s.(hwm) b s.(erroring_slot) s.(errored_slot)
    s.(close_requested_slot) s.(start_pending_slot) s.(stored_error) s.(pump_slot)
    s.(pending_close) s.(pending_abort_slot) s.(abort_running) s.(webidl) s.(invocation)
    s.(awaiting) s.(continuations) s.(next_promise) s.(accepted) s.(calls) s.(settled).

Definition set_close_requested (s : stream) (b : bool) : stream :=
  mk s.(queue) s.(total_size) s.(hwm) s.(closed_slot) s.(erroring_slot) s.(errored_slot)
    b s.(start_pending_slot) s.(stored_error) s.(pump_slot) s.(pending_close)
    s.(pending_abort_slot) s.(abort_running) s.(webidl) s.(invocation) s.(awaiting)
    s.(continuations) s.(next_promise) s.(accepted) s.(calls) s.(settled).

Definition set_start_pending (s : stream) (b : bool) : stream :=
  mk s.(queue) s.(total_size) s.(hwm) s.(closed_slot) s.(erroring_slot) s.(errored_slot)
    s.(close_requested_slot) b s.(stored_error) s.(pump_slot) s.(pending_close)
    s.(pending_abort_slot) s.(abort_running) s.(webidl) s.(invocation) s.(awaiting)
    s.(continuations) s.(next_promise) s.(accepted) s.(calls) s.(settled).

Definition set_stored_error (s : stream) (e : option N) : stream :=
  mk s.(queue) s.(total_size) s.(hwm) s.(closed_slot) s.(erroring_slot) s.(errored_slot)
    s.(close_requested_slot) s.(start_pending_slot) e s.(pump_slot) s.(pending_close)
    s.(pending_abort_slot) s.(abort_running) s.(webidl) s.(invocation) s.(awaiting)
    s.(continuations) s.(next_promise) s.(accepted) s.(calls) s.(settled).

Definition set_pump (s : stream) (p : N) : stream :=
  mk s.(queue) s.(total_size) s.(hwm) s.(closed_slot) s.(erroring_slot) s.(errored_slot)
    s.(close_requested_slot) s.(start_pending_slot) s.(stored_error) p s.(pending_close)
    s.(pending_abort_slot) s.(abort_running) s.(webidl) s.(invocation) s.(awaiting)
    s.(continuations) s.(next_promise) s.(accepted) s.(calls) s.(settled).

Definition set_pending_close (s : stream) (p : option N) : stream :=
  mk s.(queue) s.(total_size) s.(hwm) s.(closed_slot) s.(erroring_slot) s.(errored_slot)
    s.(close_requested_slot) s.(start_pending_slot) s.(stored_error) s.(pump_slot) p
    s.(pending_abort_slot) s.(abort_running) s.(webidl) s.(invocation) s.(awaiting)
    s.(continuations) s.(next_promise) s.(accepted) s.(calls) s.(settled).

Definition set_pending_abort (s : stream) (p : option abort_record) : stream :=
  mk s.(queue) s.(total_size) s.(hwm) s.(closed_slot) s.(erroring_slot) s.(errored_slot)
    s.(close_requested_slot) s.(start_pending_slot) s.(stored_error) s.(pump_slot)
    s.(pending_close) p s.(abort_running) s.(webidl) s.(invocation) s.(awaiting)
    s.(continuations) s.(next_promise) s.(accepted) s.(calls) s.(settled).

Definition set_abort_running (s : stream) (l : list N) : stream :=
  mk s.(queue) s.(total_size) s.(hwm) s.(closed_slot) s.(erroring_slot) s.(errored_slot)
    s.(close_requested_slot) s.(start_pending_slot) s.(stored_error) s.(pump_slot)
    s.(pending_close) s.(pending_abort_slot) l s.(webidl) s.(invocation) s.(awaiting)
    s.(continuations) s.(next_promise) s.(accepted) s.(calls) s.(settled).

Definition set_flight (s : stream) (i : option sink_op) (a : option sink_op) : stream :=
  mk s.(queue) s.(total_size) s.(hwm) s.(closed_slot) s.(erroring_slot) s.(errored_slot)
    s.(close_requested_slot) s.(start_pending_slot) s.(stored_error) s.(pump_slot)
    s.(pending_close) s.(pending_abort_slot) s.(abort_running) s.(webidl) i a
    s.(continuations) s.(next_promise) s.(accepted) s.(calls) s.(settled).

Definition set_continuations (s : stream) (n : N) : stream :=
  mk s.(queue) s.(total_size) s.(hwm) s.(closed_slot) s.(erroring_slot) s.(errored_slot)
    s.(close_requested_slot) s.(start_pending_slot) s.(stored_error) s.(pump_slot)
    s.(pending_close) s.(pending_abort_slot) s.(abort_running) s.(webidl) s.(invocation)
    s.(awaiting) n s.(next_promise) s.(accepted) s.(calls) s.(settled).

Definition call_sink (s : stream) (c : sink_call) : stream :=
  mk s.(queue) s.(total_size) s.(hwm) s.(closed_slot) s.(erroring_slot) s.(errored_slot)
    s.(close_requested_slot) s.(start_pending_slot) s.(stored_error) s.(pump_slot)
    s.(pending_close) s.(pending_abort_slot) s.(abort_running) s.(webidl) s.(invocation)
    s.(awaiting) s.(continuations) s.(next_promise) s.(accepted) (s.(calls) ++ [c])
    s.(settled).

Definition accept (s : stream) (c : N) : stream :=
  mk s.(queue) s.(total_size) s.(hwm) s.(closed_slot) s.(erroring_slot) s.(errored_slot)
    s.(close_requested_slot) s.(start_pending_slot) s.(stored_error) s.(pump_slot)
    s.(pending_close) s.(pending_abort_slot) s.(abort_running) s.(webidl) s.(invocation)
    s.(awaiting) s.(continuations) s.(next_promise) (s.(accepted) ++ [c]) s.(calls)
    s.(settled).

Definition set_settled (s : stream) (l : list (N * outcome)) : stream :=
  mk s.(queue) s.(total_size) s.(hwm) s.(closed_slot) s.(erroring_slot) s.(errored_slot)
    s.(close_requested_slot) s.(start_pending_slot) s.(stored_error) s.(pump_slot)
    s.(pending_close) s.(pending_abort_slot) s.(abort_running) s.(webidl) s.(invocation)
    s.(awaiting) s.(continuations) s.(next_promise) s.(accepted) s.(calls) l.

Definition settle (s : stream) (p : N) (o : outcome) : stream :=
  mk s.(queue) s.(total_size) s.(hwm) s.(closed_slot) s.(erroring_slot) s.(errored_slot)
    s.(close_requested_slot) s.(start_pending_slot) s.(stored_error) s.(pump_slot)
    s.(pending_close) s.(pending_abort_slot) s.(abort_running) s.(webidl) s.(invocation)
    s.(awaiting) s.(continuations) s.(next_promise) s.(accepted) s.(calls) (s.(settled)
    ++ [(p, o)]).

Definition take_promise (s : stream) : stream :=
  mk s.(queue) s.(total_size) s.(hwm) s.(closed_slot) s.(erroring_slot) s.(errored_slot)
    s.(close_requested_slot) s.(start_pending_slot) s.(stored_error) s.(pump_slot)
    s.(pending_close) s.(pending_abort_slot) s.(abort_running) s.(webidl) s.(invocation)
    s.(awaiting) s.(continuations) (s.(next_promise) + 1) s.(accepted) s.(calls)
    s.(settled).

(** ** Snapshots *)
Definition head_kind (s : stream) : option PendingWriteKind := e_kind <$> hd_error s.(queue).

Definition state_of (s : stream) : WritableState :=
  from_storage s.(closed_slot) s.(erroring_slot) s.(errored_slot).

Definition pending_abort_state (s : stream) : PendingAbortState :=
  match s.(pending_abort_slot) with
  | None => AbortNone
  | Some record => if record.(already_erroring) then AlreadyErroring else InitiatedErroring
  end.

Definition writable_stream_snapshot (s : stream) : WritableSnapshot :=
  {| state := state_of s; kind := KindSink; locked := false;
     close_requested := s.(close_requested_slot); start_pending := s.(start_pending_slot);
     pending_write_count := N.of_nat (length s.(queue));
     transform_close_in_flight := pump_transform_close_in_flight s.(pump_slot);
     operation_in_flight := match head_kind s with Some k => is_running k | None => false end;
     pending_abort := pending_abort_state s;
     strategy := {| high_water_mark := s.(hwm); queue_total_size := s.(total_size) |} |}.

Definition writable_controller_snapshot (s : stream) : WritableControllerSnapshot :=
  {| c_strategy := {| high_water_mark := s.(hwm); queue_total_size := s.(total_size) |};
     c_queue := {| StreamQueue.head := 0; storage_len := N.of_nat (length s.(queue)) |};
     c_head_kind := head_kind s; c_start_pending := s.(start_pending_slot);
     c_state := state_of s; c_close_requested := s.(close_requested_slot);
     c_pump := s.(pump_slot) |}.

(** ** Queue *)
Definition finish_writable_stream_write (s : stream) (size : f64) (c : WriteCompletion)
    : stream :=
  set_total s (plan_finish_write (writable_controller_snapshot s) size c).(total).(next).

Definition dequeue_pending_transform_write (s : stream) : option (entry * stream) :=
  match s.(queue) with
  | [] => None
  | e :: rest => Some (e, set_queue s rest)
  end.

Definition enqueue_entry (s : stream) (e : entry) : stream := set_queue s (s.(queue) ++ [e]).

(** The size slot of a close entry is a hole, read as NaN. *)
Definition enqueue_pending_transform_close (s : stream) (pending : N) : stream :=
  set_pending_close
    (enqueue_entry s {| e_kind := WClose; e_chunk := 0; e_promise := pending;
                        e_size := S754_nan |})
    (Some pending).

Definition enqueue_pending_writable_sink_write (s : stream) (chunk pending : N) (size : f64)
    : stream :=
  enqueue_entry s {| e_kind := WSink; e_chunk := chunk; e_promise := pending; e_size := size |}.

Definition set_head_kind (s : stream) (k : PendingWriteKind) : stream :=
  match s.(queue) with
  | [] => s
  | e :: rest =>
      set_queue s ({| e_kind := k; e_chunk := e.(e_chunk); e_promise := e.(e_promise);
                      e_size := e.(e_size) |} :: rest)
  end.

(** One entry of [reject_pending_transform_writes]. *)
Definition reject_entry (s : stream) (error : N) (e : entry) : stream :=
  let s := finish_writable_stream_write s e.(e_size) CompletionDiscarded in
  match plan_reject_entry e.(e_kind) with
  | FinishAndRejectPromise => settle s e.(e_promise) (Rejected error)
  | FinishWithoutRejectingPromise | DeferClosePromise => s
  end.

Definition reject_pending_transform_writes (s : stream) (error : N) : stream :=
  set_queue (fold_left (λ s e, reject_entry s error e) s.(queue) s) [].

(** ** Errors *)
Definition writable_stream_stored_error (s : stream) : option N :=
  if s.(erroring_slot) || s.(errored_slot) then Some (default 0 s.(stored_error)) else None.

Definition project_writable_stream_terminal_error (s : stream) (error : N) : stream :=
  match s.(pending_close) with
  | Some p => settle (set_pending_close s None) p (Rejected error)
  | None => s
  end.

(** Up to the sink's answer: its promise is [abort_running]. *)
Definition run_writable_stream_abort_algorithm (s : stream) (residence reason : N) : stream :=
  set_abort_running (call_sink s (CallAbort reason)) (s.(abort_running) ++ [residence]).

Definition finish_writable_stream_erroring (s : stream) (plan : FinishErroringPlan)
    : run stream :=
  let error := default 0 (writable_stream_stored_error s) in
  let s := set_errored (set_erroring s false) true in
  let s := reject_pending_transform_writes s error in
  match plan with
  | FinishWithoutAbort => Ret (project_writable_stream_terminal_error s error)
  | FinishAndRejectAbort =>
      record ← expect s.(pending_abort_slot);
      let s := set_pending_abort s None in
      let s := settle s record.(residence) (Rejected error) in
      Ret (project_writable_stream_terminal_error s error)
  | FinishAndRunAbort =>
      record ← expect s.(pending_abort_slot);
      let s := set_pending_abort s None in
      Ret (run_writable_stream_abort_algorithm s record.(residence) record.(reason))
  | FinishIgnore | FinishWait => Panic
  end.

Definition advance_writable_stream_erroring (s : stream) : run (bool * stream) :=
  let plan := plan_finish (erroring (writable_stream_snapshot s)) in
  match plan with
  | FinishIgnore => Ret (false, s)
  | FinishWait => Ret (true, s)
  | _ => s ← finish_writable_stream_erroring s plan; Ret (true, s)
  end.

Definition error_writable_stream_with_value (s : stream) (error : N) : run stream :=
  match plan_error (erroring (writable_stream_snapshot s)) with
  | ErrorIgnore => Ret s
  | ErrorStart finish_immediately =>
      let s := set_stored_error (set_erroring s true) (Some error) in
      if finish_immediately then
        '(_, s) ← advance_writable_stream_erroring s; Ret s
      else Ret s
  end.

Definition deal_with_writable_stream_rejection (s : stream) (error : N) : run stream :=
  match state_of s with
  | Writable => error_writable_stream_with_value s error
  | Erroring => '(_, s) ← advance_writable_stream_erroring s; Ret s
  | Closed | Errored => Ret s
  end.

(** ** Pump *)
Definition process_writable_sink_write_queue (s : stream) : run stream :=
  let start source running op (call : entry → sink_call) :=
    match hd_error s.(queue) with
    | None => Ret s
    | Some e =>
        if bool_decide (e.(e_kind) ≠ source) then Ret s
        else Ret (set_flight (call_sink (set_head_kind s running) (call e)) (Some op) s.(awaiting))
    end in
  match plan_sink_pump (writable_controller_snapshot s) with
  | SinkWait => Ret s
  | SinkFinishErroring => '(_, s) ← advance_writable_stream_erroring s; Ret s
  | SinkStartWrite source running =>
      start source running SinkWrite (λ e, CallWrite e.(e_chunk))
  | SinkStartClose source running => start source running SinkClose (λ _, CallClose)
  end.

Definition schedule_writable_sink_write_queue_continuation (s : stream) : stream :=
  match plan_schedule_sink_continuation (writable_controller_snapshot s) with
  | ContinuationIgnore => s
  | ContinuationSchedule next => set_continuations (set_pump s next) (s.(continuations) + 1)
  end.

Definition writable_sink_write_queue_continuation_callback (s : stream) : run stream :=
  process_writable_sink_write_queue
    (set_pump s (with_sink_continuation s.(pump_slot) false)).

(** ** Settlements of the sink *)
Definition finish_running_writable_sink_write (s : stream) (error : option N) : run stream :=
  match dequeue_pending_transform_write s with
  | None => Ret s
  | Some (e, s) =>
      match error with
      | Some error =>
          let s := settle s e.(e_promise) (Rejected error) in
          let s := finish_writable_stream_write s e.(e_size) CompletionRejected in
          deal_with_writable_stream_rejection s error
      | None =>
          let s := settle s e.(e_promise) Resolved in
          Ret (finish_writable_stream_write s e.(e_size) CompletionFulfilled)
      end
  end.

Definition mark_writable_stream_closed (s : stream) : run stream :=
  plan ← plan_close_settlement (erroring (writable_stream_snapshot s)) CloseFulfilled;
  match plan with
  | SettleReject _ => Panic
  | SettleClose clear_stored_error resolve_pending_abort =>
      let s := set_pump s (with_transform_close_in_flight s.(pump_slot) false) in
      let s := set_errored (set_erroring s false) false in
      s ← (if resolve_pending_abort then
             record ← expect s.(pending_abort_slot);
             Ret (settle (set_pending_abort s None) record.(residence) Resolved)
           else Ret s);
      let s := if clear_stored_error : bool then set_stored_error s None else s in
      Ret (set_closed s true)
  end.

Definition finish_running_writable_sink_close (s : stream) (error : option N) : run stream :=
  match dequeue_pending_transform_write s with
  | None => Ret s
  | Some (e, s) =>
      let pending := default e.(e_promise) s.(pending_close) in
      let s := set_pending_close s None in
      match error with
      | Some error =>
          let s := settle s pending (Rejected error) in
          plan ← plan_close_settlement (erroring (writable_stream_snapshot s)) CloseRejected;
          s ← (match plan with
               | SettleReject true =>
                   record ← expect s.(pending_abort_slot);
                   Ret (settle (set_pending_abort s None) record.(residence) (Rejected error))
               | _ => Ret s
               end);
          deal_with_writable_stream_rejection s error
      | None => mark_writable_stream_closed (settle s pending Resolved)
      end
  end.

(** What the sink's algorithm returned: a promise, another value, an
    exception.  An author sink's result is always made a promise. *)
Inductive sink_result := SinkPromise | SinkValue | SinkThrow (error : N).

(** The rest of [process_writable_sink_write_queue] after the call. *)
Definition sink_write_returned (s : stream) (r : sink_result) : run stream :=
  match r with
  | SinkPromise => Ret (set_flight s None (Some SinkWrite))
  | SinkValue =>
      if s.(webidl) then Ret (set_flight s None (Some SinkWrite))
      else
        match dequeue_pending_transform_write (set_flight s None s.(awaiting)) with
        | None => Ret s
        | Some (e, s) =>
            let s := settle s e.(e_promise) Resolved in
            let s := finish_writable_stream_write s e.(e_size) CompletionFulfilled in
            Ret (schedule_writable_sink_write_queue_continuation s)
        end
  | SinkThrow error =>
      match dequeue_pending_transform_write (set_flight s None s.(awaiting)) with
      | None => Ret s
      | Some (e, s) =>
          let s := settle s e.(e_promise) (Rejected error) in
          let s := finish_writable_stream_write s e.(e_size) CompletionRejected in
          deal_with_writable_stream_rejection s error
      end
  end.

Definition sink_close_returned (s : stream) (r : sink_result) : run stream :=
  match r with
  | SinkPromise => Ret (set_flight s None (Some SinkClose))
  | SinkValue =>
      if s.(webidl) then Ret (set_flight s None (Some SinkClose))
      else finish_running_writable_sink_close (set_flight s None s.(awaiting)) None
  | SinkThrow error =>
      finish_running_writable_sink_close (set_flight s None s.(awaiting)) (Some error)
  end.

Definition writable_sink_write_settled (s : stream) (error : option N) : run stream :=
  s ← finish_running_writable_sink_write (set_flight s s.(invocation) None) error;
  match error with
  | None => process_writable_sink_write_queue s
  | Some _ => Ret s
  end.

Definition writable_sink_close_settled (s : stream) (error : option N) : run stream :=
  finish_running_writable_sink_close (set_flight s s.(invocation) None) error.

Definition writable_start_fulfilled (s : stream) : run stream :=
  '(erroring, s) ← advance_writable_stream_erroring (set_start_pending s false);
  if erroring : bool then Ret s else process_writable_sink_write_queue s.

Definition writable_start_rejected (s : stream) (error : N) : run stream :=
  deal_with_writable_stream_rejection (set_start_pending s false) error.

(** The settled abort request is the one whose algorithm ran. *)
Definition writable_abort_settled (s : stream) (residence : N) (error : option N) : stream :=
  let s := settle s residence (match error with None => Resolved | Some e => Rejected e end) in
  project_writable_stream_terminal_error s (default 0 (writable_stream_stored_error s)).

(** ** Calls of the stream's users *)

(** The sink route of a write: the chunk waits behind those before it. *)
Definition queue_sink_write (s : stream) (chunk : N) (size : f64) : run stream :=
  let pending := s.(next_promise) in
  let s := accept (take_promise s) chunk in
  process_writable_sink_write_queue (enqueue_pending_writable_sink_write s chunk pending size).

(** From the size algorithm's answer on: [size] is a validated size or the
    exception. *)
Definition write_after_size (s : stream) (chunk : N) (size : f64 + N) (owner_is_current : bool)
    : run stream :=
  match size with
  | inr error => error_writable_stream_with_value s error
  | inl size =>
      match plan_write_after_size (writable_stream_snapshot s) owner_is_current with
      | AfterSizeContinue =>
          let plan := plan_record_write (writable_controller_snapshot s) size in
          queue_sink_write (set_total s plan.(total).(next)) chunk size
      | _ => Ret s
      end
  end.

Definition writable_stream_close_internal (s : stream) : run stream :=
  match plan_close (writable_stream_snapshot s) with
  | RejectAlreadyRequested | RejectTerminal => Ret s
  | RequestAndQueueForErroring =>
      let s := set_close_requested s true in
      let pending := s.(next_promise) in
      '(_, s) ← advance_writable_stream_erroring
                  (enqueue_pending_transform_close (take_promise s) pending);
      Ret s
  | RequestAndQueueSink =>
      let s := set_close_requested s true in
      let pending := s.(next_promise) in
      process_writable_sink_write_queue
        (enqueue_pending_transform_close (take_promise s) pending)
  | RequestTransform => Panic
  end.

Definition writable_stream_abort_internal (s : stream) (reason : N) : run stream :=
  plan ← plan_abort (erroring (writable_stream_snapshot s));
  match plan with
  | AbortResolve | AbortReusePending => Ret s
  | AbortCreatePending was_already_erroring start_erroring =>
      let residence := s.(next_promise) in
      let s := set_pending_abort (take_promise s)
                 (Some {| residence := residence;
                          reason := if was_already_erroring : bool then 0 else reason;
                          already_erroring := was_already_erroring |}) in
      if start_erroring : bool then error_writable_stream_with_value s reason
      else '(_, s) ← advance_writable_stream_erroring s; Ret s
  end.

(** ** Histories *)
Inductive event :=
  | EWrite (chunk : N) (size : f64 + N) (owner_is_current : bool)
  | EWriteAfterSize (chunk : N) (size : f64 + N) (owner_is_current : bool)
  | EClose
  | EAbort (reason : N)
  | EError (reason : N)
  | EStart (error : option N)
  | EReturned (r : sink_result)
  | ESettled (error : option N)
  | EAborted (error : option N)
  | EContinuation.

(** [EWrite] is a write whose size algorithm did not touch the stream;
    [EWriteAfterSize] is the second half of one whose algorithm did, after
    the events it caused.  An event that cannot happen (no start pending, nothing returned, no
    promise pending) leaves the stream alone. *)
Definition step (s : stream) (ev : event) : run stream :=
  match ev with
  | EWrite chunk size owner =>
      match plan_internal_write_entry (writable_stream_snapshot s) with
      | WriteEntryRejectStoredError => Ret s
      | WriteEntryContinue => write_after_size s chunk size owner
      end
  | EWriteAfterSize chunk size owner => write_after_size s chunk size owner
  | EClose => writable_stream_close_internal s
  | EAbort reason => writable_stream_abort_internal s reason
  | EError reason => error_writable_stream_with_value s reason
  | EStart error =>
      if s.(start_pending_slot) then
        match error with
        | None => writable_start_fulfilled s
        | Some error => writable_start_rejected s error
        end
      else Ret s
  | EReturned r =>
      match s.(invocation) with
      | Some SinkWrite => sink_write_returned s r
      | Some SinkClose => sink_close_returned s r
      | None => Ret s
      end
  | ESettled error =>
      match s.(awaiting) with
      | Some SinkWrite => writable_sink_write_settled s error
      | Some SinkClose => writable_sink_close_settled s error
      | None => Ret s
      end
  | EAborted error =>
      match s.(abort_running) with
      | [] => Ret s
      | residence :: rest => Ret (writable_abort_settled (set_abort_running s rest) residence error)
      end
  | EContinuation =>
      if s.(continuations) =? 0 then Ret s
      else writable_sink_write_queue_continuation_callback
             (set_continuations s (s.(continuations) - 1))
  end.

Fixpoint steps (s : stream) (es : list event) : run stream :=
  match es with [] => Ret s | ev :: es => s ← step s ev; steps s es end.

(** A constructed stream: its start algorithm has run, the start promise is
    pending. *)
Definition fresh (hwm : f64) (webidl : bool) : stream :=
  mk [] zero hwm false false false false true None 0 None None [] webidl None None 0 0 [] [] [].

#[local] Arguments with_transform_close_in_flight : simpl never.

(** ** Invariant *)
Definition flight (s : stream) : option sink_op :=
  match s.(invocation) with Some o => Some o | None => s.(awaiting) end.

Definition waits (e : entry) : Prop := e.(e_kind) = WSink ∨ e.(e_kind) = WClose.

Definition write_promises (q : list entry) : list N :=
  e_promise <$> filter (λ e, is_close e.(e_kind) = false) q.
Definition close_promises (q : list entry) : list N :=
  e_promise <$> filter (λ e, is_close e.(e_kind) = true) q.
Definition waiting_chunks (q : list entry) : list N :=
  e_chunk <$> filter (λ e, e.(e_kind) = WSink) q.
Definition written (cs : list sink_call) : list N :=
  omap (λ c, match c with CallWrite chunk => Some chunk | _ => None end) cs.

(** Promises handed out and not settled. *)
Definition outstanding (s : stream) : list N :=
  write_promises s.(queue) ++ option_list s.(pending_close)
  ++ option_list (residence <$> s.(pending_abort_slot)) ++ s.(abort_running).

Fixpoint closes_last (q : list entry) : Prop :=
  match q with
  | [] => True
  | e :: q => (is_close e.(e_kind) = true → q = []) ∧ closes_last q
  end.

Definition terminal (s : stream) : bool := s.(closed_slot) || s.(errored_slot).

Definition queue_ok (f : option sink_op) (q : list entry) : Prop :=
  match f with
  | None => Forall waits q
  | Some SinkWrite => ∃ e rest, q = e :: rest ∧ e.(e_kind) = WSinkRunning ∧ Forall waits rest
  | Some SinkClose => ∃ e, q = [e] ∧ e.(e_kind) = WSinkCloseRunning
  end.

Record base (s : stream) : Prop := {
  b_slots : (s.(closed_slot) = true → s.(erroring_slot) = false ∧ s.(errored_slot) = false) ∧
            (s.(errored_slot) = true → s.(erroring_slot) = false);
  b_pump : s.(pump_slot) = s.(continuations) ∧ s.(continuations) ≤ 1 ∧
           (s.(webidl) = true → s.(continuations) = 0);
  b_flight : s.(invocation) = None ∨ s.(awaiting) = None;
  b_queue : queue_ok (flight s) s.(queue);
  b_last : closes_last s.(queue);
  b_close : terminal s = false → option_list s.(pending_close) = close_promises s.(queue);
  b_request : s.(close_requested_slot) = false → s.(pending_close) = None;
  b_terminal : terminal s = true → s.(queue) = [] ∧ flight s = None;
  b_abort : (s.(pending_abort_slot) ≠ None → s.(erroring_slot) = true) ∧
            (s.(abort_running) ≠ [] → s.(errored_slot) = true) ∧
            (s.(closed_slot) = true → s.(pending_close) = None);
  b_promises : s.(settled).*1 ++ outstanding s ≡ₚ issued s.(next_promise);
  b_fifo : ∃ dropped, s.(accepted) = written s.(calls) ++ waiting_chunks s.(queue) ++ dropped ∧
             (dropped ≠ [] → s.(errored_slot) = true);
  b_projected : s.(errored_slot) = true → s.(abort_running) = [] → s.(pending_close) = None }.

(** Somebody will move a stream with work left. *)
Definition live (s : stream) : Prop :=
  (state_of s = Writable → s.(queue) ≠ [] →
   s.(start_pending_slot) = true ∨ flight s ≠ None ∨ 0 < s.(continuations)) ∧
  (state_of s = Erroring → s.(webidl) = true →
   s.(start_pending_slot) = true ∨ flight s ≠ None).

Definition inv (s : stream) : Prop := base s ∧ live s.

(** *** Facts about single operations *)

Lemma state_of_cases s :
  state_of s = match s.(errored_slot), s.(erroring_slot), s.(closed_slot) with
               | true, _, _ => Errored
               | false, true, _ => Erroring
               | false, false, true => Closed
               | false, false, false => Writable
               end.
Proof. unfold state_of, from_storage. by destruct errored_slot, erroring_slot, closed_slot. Qed.

Lemma in_flight_running s :
  base s → operation_in_flight (writable_stream_snapshot s) = true ↔ flight s ≠ None.
Proof.
  intros Hb. pose proof (b_queue s Hb) as Hq.
  simpl. unfold head_kind. destruct (flight s) as [[]|]; simpl in Hq.
  - destruct Hq as (e & rest & -> & Hk & _). simpl. rewrite Hk. done.
  - destruct Hq as (e & -> & Hk). simpl. rewrite Hk. done.
  - destruct (queue s) as [|e q]; simpl; [done|]. apply Forall_cons in Hq as [[Hk|Hk] _];
      rewrite Hk; done.
Qed.

Lemma pump_close_bit s : base s → pump_transform_close_in_flight s.(pump_slot) = false.
Proof.
  intros Hb. destruct (b_pump s Hb) as (-> & Hc & _).
  assert (continuations s = 0 ∨ continuations s = 1) as [-> | ->] by lia; done.
Qed.

Lemma erroring_in_flight s :
  base s →
  e_operation_in_flight (erroring (writable_stream_snapshot s)) = bool_decide (flight s ≠ None).
Proof.
  intros Hb. simpl. rewrite (pump_close_bit s Hb), orb_false_r.
  pose proof (in_flight_running s Hb) as H. simpl in H.
  destruct (match head_kind s with Some k => is_running k | None => false end);
    symmetry; [apply bool_decide_eq_true_2 | apply bool_decide_eq_false_2]; naive_solver.
Qed.

(** Rejecting a queue without an operation in flight settles its write
    promises in order, drops its closes and changes only the total. *)
Lemma reject_entries s error q :
  Forall waits q →
  ∃ t, fold_left (λ s e, reject_entry s error e) q s =
       set_total (set_settled s (s.(settled) ++ ((λ p, (p, Rejected error)) <$> write_promises q)))
         t.
Proof.
  intros Hq. revert s. induction Hq as [|e q Hk Hq IH]; intros s; simpl.
  - exists (total_size s). destruct s; unfold set_total, set_settled; simpl.
    by rewrite app_nil_r.
  - destruct (IH (reject_entry s error e)) as [t ->]. exists t.
    unfold reject_entry, write_promises. rewrite filter_cons.
    destruct Hk as [-> | ->]; simpl; unfold set_total, set_settled; simpl; [|done].
    by rewrite <-app_assoc.
Qed.

Lemma write_promises_waits_flightless s :
  base s → flight s = None → Forall waits s.(queue).
Proof. intros Hb Hf. pose proof (b_queue s Hb) as Hq. by rewrite Hf in Hq. Qed.

Lemma write_promises_app q r : write_promises (q ++ r) = write_promises q ++ write_promises r.
Proof. unfold write_promises. by rewrite filter_app, fmap_app. Qed.
Lemma close_promises_app q r : close_promises (q ++ r) = close_promises q ++ close_promises r.
Proof. unfold close_promises. by rewrite filter_app, fmap_app. Qed.
Lemma waiting_chunks_app q r : waiting_chunks (q ++ r) = waiting_chunks q ++ waiting_chunks r.
Proof. unfold waiting_chunks. by rewrite filter_app, fmap_app. Qed.
Lemma written_app a b : written (a ++ b) = written a ++ written b.
Proof. unfold written. by rewrite omap_app. Qed.

Lemma base_errored s :
  s.(errored_slot) = true → s.(erroring_slot) = false → s.(closed_slot) = false →
  s.(queue) = [] → s.(invocation) = None → s.(awaiting) = None →
  s.(pending_abort_slot) = None →
  (s.(pump_slot) = s.(continuations) ∧ s.(continuations) ≤ 1 ∧
   (s.(webidl) = true → s.(continuations) = 0)) →
  (s.(close_requested_slot) = false → s.(pending_close) = None) →
  s.(settled).*1 ++ option_list s.(pending_close) ++ s.(abort_running) ≡ₚ issued s.(next_promise) →
  (∃ dropped, s.(accepted) = written s.(calls) ++ dropped) →
  (s.(abort_running) = [] → s.(pending_close) = None) →
  base s ∧ state_of s = Errored.
Proof.
  intros H1 H2 H3 H4 H5 H6 H7 H8 H9 H10 [dropped H11] H12. split.
  - split; unfold flight, terminal, outstanding; rewrite ?H1, ?H2, ?H3, ?H4, ?H5, ?H6, ?H7;
      try done; auto.
    + by constructor.
    + exists dropped. by rewrite H11.
  - by rewrite state_of_cases, H1.
Qed.

Lemma erroring_slots s :
  base s → state_of s = Erroring →
  s.(errored_slot) = false ∧ s.(erroring_slot) = true ∧ s.(closed_slot) = false.
Proof.
  intros Hb Hs. rewrite state_of_cases in Hs. destruct (b_slots s Hb) as [H _].
  destruct (errored_slot s), (erroring_slot s), (closed_slot s); try done. naive_solver.
Qed.

Lemma flight_None s : base s → flight s = None → s.(invocation) = None ∧ s.(awaiting) = None.
Proof.
  unfold flight. intros Hb Hf. by destruct (invocation s); [discriminate|].
Qed.

(** *** Finishing the error *)
Lemma finish_erroring_ok s plan :
  base s → state_of s = Erroring → flight s = None →
  plan = plan_finish (erroring (writable_stream_snapshot s)) → plan ≠ FinishWait →
  ∃ s', finish_writable_stream_erroring s plan = Ret s' ∧ base s' ∧ state_of s' = Errored.
Proof.
  intros Hb Hs Hf -> Hw. pose proof (write_promises_waits_flightless s Hb Hf) as Hq.
  destruct (erroring_slots s Hb Hs) as (He1 & He2 & Hc).
  destruct (flight_None s Hb Hf) as [Hi Haw].
  unfold plan_finish in *. simpl in *. rewrite Hs in *.
  destruct (start_pending_slot s || _); [done|].
  unfold finish_writable_stream_erroring, reject_pending_transform_writes. simpl.
  destruct (reject_entries (set_errored (set_erroring s false) true)
    (default 0 (writable_stream_stored_error s)) (queue s) Hq) as [t Et]. simpl in Et.
  rewrite Et. clear Et.
  pose proof (b_promises s Hb) as Hp. unfold outstanding in Hp.
  pose proof (b_pump s Hb) as Hpu. pose proof (b_request s Hb) as Hrq.
  destruct (b_fifo s Hb) as (dropped & Hacc & _).
  destruct (b_abort s Hb) as (_ & Ha2 & _).
  assert (abort_running s = []) as Har.
  { destruct (abort_running s); [done|]. rewrite Ha2 in He1; done. }
  rewrite Har, app_nil_r in Hp.
  assert (∀ error (ps : list N), ((λ p, (p, Rejected error)) <$> ps).*1 = ps) as Hmap.
  { intros error ps. rewrite <-list_fmap_compose. by apply list_fmap_id. }
  unfold pending_abort_state. simpl.
  destruct (pending_abort_slot s) as [record|] eqn:Ep; simpl in *;
    [destruct (already_erroring record)|]; simpl; rewrite ?Ep; simpl;
    eexists; (split; [done|]); apply base_errored;
    unfold project_writable_stream_terminal_error; simpl;
    destruct (pending_close s) eqn:Epc; simpl in *; rewrite ?Epc; try done; rewrite ?Har, ?fmap_app, ?Hmap; simpl;
    rewrite ?app_nil_r, ?written_app in *; simpl; rewrite ?app_nil_r; eauto.
  all: try done.
  all: rewrite ?app_nil_l, ?app_nil_r; rewrite <-Hp, <-?app_assoc; simpl; solve_Permutation.
Qed.

Lemma live_terminal s : state_of s = Errored ∨ state_of s = Closed → live s.
Proof. intros H. split; intros E; rewrite E in H; naive_solver. Qed.

Lemma plan_finish_wait s :
  base s → state_of s = Erroring →
  plan_finish (erroring (writable_stream_snapshot s)) = FinishWait ↔
  s.(start_pending_slot) = true ∨ flight s ≠ None.
Proof.
  intros Hb Hs. pose proof (erroring_in_flight s Hb) as Hf.
  unfold plan_finish. rewrite Hf. change (e_state _) with (state_of s). rewrite Hs.
  change (e_start_pending _) with (start_pending_slot s).
  destruct (start_pending_slot s); simpl; [naive_solver|].
  case_bool_decide; [naive_solver|]. split; [by case_match | naive_solver].
Qed.

Lemma plan_finish_ignore s :
  plan_finish (erroring (writable_stream_snapshot s)) = FinishIgnore ↔ state_of s ≠ Erroring.
Proof.
  unfold plan_finish. change (e_state _) with (state_of s).
  destruct (state_of s); try (split; done). split; [|done].
  case_match; [done|]. by case_match.
Qed.

Lemma advance_ok s :
  base s →
  ∃ b s', advance_writable_stream_erroring s = Ret (b, s') ∧ base s' ∧
    (state_of s ≠ Erroring → b = false ∧ s' = s) ∧
    (state_of s = Erroring → b = true ∧ live s').
Proof.
  intros Hb. unfold advance_writable_stream_erroring.
  pose proof (plan_finish_ignore s) as Hi.
  destruct (decide (state_of s = Erroring)) as [Hs|Hs].
  - pose proof (plan_finish_wait s Hb Hs) as Hw.
    destruct (decide (s.(start_pending_slot) = true ∨ flight s ≠ None)) as [Hy|Hn].
    + rewrite (proj2 Hw Hy). eexists _, _. split_and!; [done | done | done |].
      intros _. split; [done|]. split; intros E; rewrite E in Hs; done.
    + assert (flight s = None) as Hf by (destruct (flight s); naive_solver).
      destruct (finish_erroring_ok s _ Hb Hs Hf eq_refl) as (s' & E & Hb' & Hs'); [tauto|].
      destruct (plan_finish _); [naive_solver | naive_solver | ..]; rewrite E; simpl;
        eexists _, _; split_and!; eauto using live_terminal; done.
  - rewrite (proj2 Hi Hs). by eexists _, _; split_and!.
Qed.

(** Entering the error state. *)
Lemma error_core s error :
  state_of s = Writable → base (set_stored_error (set_erroring s true) (Some error)) →
  ∃ s', error_writable_stream_with_value s error = Ret s' ∧ inv s'.
Proof.
  intros Hs Hb. unfold error_writable_stream_with_value, plan_error.
  change (e_state _) with (state_of s). rewrite Hs.
  pose proof (erroring_in_flight _ Hb) as Hf.
  change (e_operation_in_flight (erroring (writable_stream_snapshot s)))
    with (e_operation_in_flight (erroring (writable_stream_snapshot
            (set_stored_error (set_erroring s true) (Some error))))).
  rewrite Hf. set (s1 := set_stored_error _ _) in *.
  change (e_start_pending _) with (start_pending_slot s1).
  assert (state_of s1 = Erroring) as Hs1.
  { rewrite state_of_cases in *. simpl. by destruct (errored_slot s), (erroring_slot s). }
  destruct (advance_ok s1 Hb) as (b & s' & E & Hb' & _ & Hl). specialize (Hl Hs1).
  destruct (start_pending_slot s1) eqn:Est; simpl.
  - exists s1. split; [done|]. split; [done|]. split; rewrite Hs1; [done|]. auto.
  - case_bool_decide; simpl.
    + exists s1. split; [done|]. split; [done|]. split; rewrite Hs1; [done|]. auto.
    + rewrite E. simpl. exists s'. split; [done|]. by split; [|apply Hl].
Qed.

Lemma writable_slots s :
  state_of s = Writable →
  s.(errored_slot) = false ∧ s.(erroring_slot) = false ∧ s.(closed_slot) = false.
Proof.
  rewrite state_of_cases. by destruct (errored_slot s), (erroring_slot s), (closed_slot s).
Qed.

(** The slots [base] does not read. *)
Lemma base_total s t : base (set_total s t) ↔ base s.
Proof. split; intros []; constructor; done. Qed.

Lemma base_start s b : base (set_start_pending s b) ↔ base s.
Proof. split; intros []; constructor; done. Qed.

Lemma base_request_close s : base s → base (set_close_requested s true).
Proof. intros []; constructor; done. Qed.

Lemma base_erroring s e :
  base s → state_of s = Writable → base (set_stored_error (set_erroring s true) e).
Proof.
  intros [] (H1 & H2 & H3)%writable_slots. constructor; try done; simpl; rewrite ?H1, ?H3.
  - split; congruence.
  - destruct b_abort0 as (_ & B & C). by rewrite H1, H3 in *.
Qed.

Lemma error_ok s error :
  base s → (state_of s ≠ Writable → live s) →
  ∃ s', error_writable_stream_with_value s error = Ret s' ∧ inv s'.
Proof.
  intros Hb Hl. destruct (decide (state_of s = Writable)) as [Hs|Hs].
  - apply error_core; auto using base_erroring.
  - exists s. unfold error_writable_stream_with_value, plan_error.
    change (e_state _) with (state_of s).
    destruct (state_of s) eqn:E; try done; (split; [done | split; auto]).
Qed.

Lemma deal_ok s error :
  base s → ∃ s', deal_with_writable_stream_rejection s error = Ret s' ∧ inv s'.
Proof.
  intros Hb. unfold deal_with_writable_stream_rejection. destruct (state_of s) eqn:E.
  - apply error_ok; [done | congruence].
  - destruct (advance_ok s Hb) as (b & s' & -> & Hb' & _ & Hl). simpl. exists s'.
    split; [done|]. by split; [|apply Hl].
  - exists s. split; [done|]. split; auto using live_terminal.
  - exists s. split; [done|]. split; auto using live_terminal.
Qed.

(** *** The pump *)
Lemma scheduled_iff s : base s → sink_continuation_scheduled s.(pump_slot) = (0 <? s.(continuations)).
Proof.
  intros Hb. destruct (b_pump s Hb) as (-> & Hc & _).
  assert (continuations s = 0 ∨ continuations s = 1) as [-> | ->] by lia; done.
Qed.

(** Starting the head of an idle queue. *)
Lemma start_write_base s e rest :
  base s → state_of s = Writable → s.(queue) = e :: rest → e.(e_kind) = WSink →
  base (set_flight (call_sink (set_head_kind s WSinkRunning) (CallWrite e.(e_chunk)))
          (Some SinkWrite) s.(awaiting)).
Proof.
  intros Hb Hs Hq Hk. destruct (writable_slots s Hs) as (H1 & H2 & H3).
  assert (flight s = None) as Hf.
  { pose proof (b_queue s Hb) as Hx. rewrite Hq in Hx. destruct (flight s) as [[]|]; [..|done].
    - destruct Hx as (? & ? & [= <- <-] & ? & _). congruence.
    - destruct Hx as (? & [= <-] & ?). congruence. }
  destruct (flight_None s Hb Hf) as [Hi Ha].
  destruct Hb as [b1 b2 b3 b4 b5 b6 b7 b8 b9 b10 b11 b12]. unfold set_head_kind. rewrite Hq in *.
  constructor; simpl; try done.
  - by right.
  - unfold flight; simpl. rewrite Hf in b4. apply Forall_cons in b4 as [_ Hw].
    by eexists _, _.
  - destruct b5 as [_ ?]. done.
  - unfold close_promises in *. rewrite filter_cons, Hk in b6.
    simpl in b6. by rewrite filter_cons.
  - unfold terminal. simpl. by rewrite H1, H3.
  - unfold outstanding, write_promises in *. simpl.
    rewrite Hq, filter_cons, Hk in b10. exact b10.
  - destruct b11 as (dropped & E & Hd). exists dropped. split; [|done]. rewrite E, written_app.
    unfold waiting_chunks. rewrite !filter_cons, Hk. simpl. by rewrite <-app_assoc.
Qed.

Lemma start_close_base s e rest :
  base s → state_of s = Writable → s.(queue) = e :: rest → e.(e_kind) = WClose →
  base (set_flight (call_sink (set_head_kind s WSinkCloseRunning) CallClose)
          (Some SinkClose) s.(awaiting)).
Proof.
  intros Hb Hs Hq Hk. destruct (writable_slots s Hs) as (H1 & H2 & H3).
  assert (flight s = None) as Hf.
  { pose proof (b_queue s Hb) as Hx. rewrite Hq in Hx. destruct (flight s) as [[]|]; [..|done].
    - destruct Hx as (? & ? & [= <- <-] & ? & _). congruence.
    - destruct Hx as (? & [= <-] & ?). congruence. }
  destruct (flight_None s Hb Hf) as [Hi Ha].
  destruct Hb as [b1 b2 b3 b4 b5 b6 b7 b8 b9 b10 b11 b12]. unfold set_head_kind. rewrite Hq in *.
  destruct b5 as [Hl _]. rewrite Hk in Hl. specialize (Hl eq_refl) as ->.
  constructor; simpl; try done.
  - by right.
  - by eexists.
  - unfold close_promises in *. rewrite filter_cons, Hk in b6.
    simpl in b6. by rewrite filter_cons.
  - unfold terminal. simpl. by rewrite H1, H3.
  - unfold outstanding, write_promises in *. simpl.
    rewrite Hq, filter_cons, Hk in b10. exact b10.
  - destruct b11 as (dropped & E & Hd). exists dropped. split; [|done]. rewrite E, written_app.
    unfold waiting_chunks. rewrite !filter_cons, Hk. simpl. by rewrite app_nil_r.
Qed.

Lemma process_ok s :
  base s → ∃ s', process_writable_sink_write_queue s = Ret s' ∧ inv s'.
Proof.
  intros Hb. unfold process_writable_sink_write_queue, plan_sink_pump.
  pose proof (scheduled_iff s Hb) as Hsch. simpl. rewrite Hsch.
  destruct (start_pending_slot s) eqn:Est; simpl.
  { exists s. split; [done|]. split; [done|]. split; auto. }
  destruct (N.ltb_spec 0 (continuations s)) as [Hc|Hc]; simpl.
  { exists s. split; [done|]. split; [done|]. split; [auto|]. intros _ Hw.
    destruct (b_pump s Hb) as (_ & _ & H). specialize (H Hw). lia. }
  destruct (state_of s) eqn:Es.
  - unfold head_kind. destruct (queue s) as [|e rest] eqn:Eq; simpl.
    { exists s. split; [done|]. split; [done|]. split; rewrite Es; [|done]. by rewrite Eq. }
    pose proof (b_queue s Hb) as Hq. rewrite Eq in Hq.
    destruct (flight s) as [[]|] eqn:Ef; simpl in Hq.
    1: destruct Hq as (? & ? & [= <- <-] & Hk & _).
    2: destruct Hq as (? & [= <-] & Hk).
    1, 2: rewrite Hk; simpl; exists s; split; [done|]; split; [done|]; split; rewrite Es;
      [intros _ _; right; left; by rewrite Ef | done].
    apply Forall_cons in Hq as [[Hk|Hk] _]; rewrite Hk; simpl;
      eexists; (split; [done|]); split.
    + by eapply start_write_base.
    + by split; intros _ _; [right; left|right].
    + by eapply start_close_base.
    + by split; intros _ _; [right; left|right].
  - destruct (advance_ok s Hb) as (b & s' & E & Hb' & _ & Hl).
    destruct (head_is_running _) eqn:Er.
    + exists s. split; [done|]. split; [done|]. split; rewrite Es; [done|]. intros _ _. right.
      apply (in_flight_running s Hb). exact Er.
    + rewrite E. simpl. exists s'. split; [done|]. by split; [|apply Hl].
  - exists s. split; [done|]. split; auto using live_terminal.
  - exists s. split; [done|]. split; auto using live_terminal.
Qed.

(** *** Settlements *)
Lemma flight_nonterminal s : base s → flight s ≠ None → terminal s = false.
Proof.
  intros Hb Hf. destruct (terminal s) eqn:E; [|done]. by destruct (b_terminal s Hb E).
Qed.

Lemma set_flight_same s i a :
  base s → flight s = (match i with Some o => Some o | None => a end) →
  i = None ∨ a = None → base (set_flight s i a).
Proof.
  intros [b1 b2 b3 b4 b5 b6 b7 b8 b9 b10 b11 b12] Hf Ho.
  constructor; simpl; try done; unfold flight in *; simpl; by rewrite <-Hf.
Qed.

(** The running write leaves the queue with its promise settled. *)
Lemma pop_write s o i a :
  base s → flight s = Some SinkWrite → i = None → a = None →
  ∃ e rest, s.(queue) = e :: rest ∧
    base (settle (set_queue (set_flight s i a) rest) e.(e_promise) o).
Proof.
  intros Hb Hf -> ->. pose proof (flight_nonterminal s Hb ltac:(congruence)) as Ht.
  destruct Hb as [b1 b2 b3 b4 b5 b6 b7 b8 b9 b10 b11 b12]. rewrite Hf in b4.
  destruct b4 as (e & rest & Eq & Hk & Hw). exists e, rest. split; [done|]. rewrite Eq in *.
  constructor; simpl; try done.
  - by left.
  - by destruct b5.
  - intros Hx. rewrite (b6 Hx). unfold close_promises. by rewrite filter_cons, Hk.
  - unfold terminal in *. simpl. congruence.
  - unfold outstanding in *. simpl. rewrite Eq in b10. unfold write_promises in *.
    rewrite filter_cons, Hk in b10. simpl in b10. rewrite fmap_app, <-b10. simpl.
    by rewrite <-app_assoc.
  - destruct b11 as (dropped & E & Hd). exists dropped. split; [|done]. rewrite E.
    unfold waiting_chunks. by rewrite filter_cons, Hk.
Qed.

(** The running close leaves the queue with its promise settled. *)
Lemma pop_close s o i a :
  base s → flight s = Some SinkClose → i = None → a = None →
  ∃ e, s.(queue) = [e] ∧ s.(pending_close) = Some e.(e_promise) ∧
    base (settle (set_pending_close (set_queue (set_flight s i a) []) None) e.(e_promise) o).
Proof.
  intros Hb Hf -> ->. pose proof (flight_nonterminal s Hb ltac:(congruence)) as Ht.
  destruct Hb as [b1 b2 b3 b4 b5 b6 b7 b8 b9 b10 b11 b12]. rewrite Hf in b4.
  destruct b4 as (e & Eq & Hk). exists e. split; [done|]. rewrite Eq in *.
  assert (pending_close s = Some (e_promise e)) as Hp.
  { specialize (b6 Ht). unfold close_promises in b6. rewrite filter_cons, Hk in b6. simpl in b6.
    by destruct (pending_close s); simplify_eq/=. }
  split; [done|]. constructor; simpl; try done.
  - by left.
  - destruct b9 as (A & B & _). split_and!; auto.
  - unfold outstanding in *. simpl. rewrite Eq, Hp in b10. unfold write_promises in *.
    rewrite filter_cons, Hk in b10. simpl in b10. rewrite fmap_app, <-b10. simpl.
    by rewrite <-app_assoc.
  - destruct b11 as (dropped & E & Hd). exists dropped. split; [|done]. rewrite E.
    unfold waiting_chunks. by rewrite filter_cons, Hk.
Qed.

Lemma finish_write_ok s error i a :
  base s → flight s = Some SinkWrite → i = None → a = None →
  ∃ s', finish_running_writable_sink_write (set_flight s i a) error = Ret s' ∧ base s' ∧
    (error ≠ None → live s').
Proof.
  intros Hb Hf Hi Ha. unfold finish_running_writable_sink_write.
  destruct error as [x|].
  - destruct (pop_write s (Rejected x) i a Hb Hf Hi Ha) as (e & rest & Eq & Hb').
    unfold dequeue_pending_transform_write. simpl. rewrite Eq.
    destruct (deal_ok (finish_writable_stream_write (settle (set_queue (set_flight s i a) rest)
      (e_promise e) (Rejected x)) (e_size e) CompletionRejected) x) as (s' & E & H1 & H2).
    { by apply base_total. }
    exists s'. by rewrite E.
  - destruct (pop_write s Resolved i a Hb Hf Hi Ha) as (e & rest & Eq & Hb').
    unfold dequeue_pending_transform_write. simpl. rewrite Eq.
    eexists; split; [done|]. split; [by apply base_total | done].
Qed.

Lemma base_take_abort s r o :
  base s → s.(pending_abort_slot) = Some r →
  base (settle (set_pending_abort s None) r.(residence) o).
Proof.
  intros [b1 b2 b3 b4 b5 b6 b7 b8 b9 b10 b11 b12] Hp. constructor; simpl; try done.
  - destruct b9 as (A & B & C). by split_and!.
  - unfold outstanding in *. simpl. rewrite Hp in b10. rewrite fmap_app, <-b10. simpl.
    solve_Permutation.
Qed.

Lemma is_pending_iff s :
  is_pending (pending_abort_state s) = true ↔ ∃ r, s.(pending_abort_slot) = Some r.
Proof.
  unfold pending_abort_state. destruct (pending_abort_slot s) as [r|]; simpl; [|naive_solver].
  destruct (already_erroring r); naive_solver.
Qed.

Lemma state_nonterminal s :
  base s → terminal s = false → state_of s = Writable ∨ state_of s = Erroring.
Proof.
  intros Hb. unfold terminal. rewrite state_of_cases.
  destruct (errored_slot s), (erroring_slot s), (closed_slot s); simpl; auto; done.
Qed.

(** Closing an idle stream with an empty queue. *)
Lemma mark_closed_ok s :
  base s → terminal s = false → s.(queue) = [] → flight s = None → s.(pending_close) = None →
  ∃ s', mark_writable_stream_closed s = Ret s' ∧ inv s'.
Proof.
  intros Hb Ht Hq Hf Hpc. unfold mark_writable_stream_closed, plan_close_settlement.
  change (e_state _) with (state_of s). change (e_pending_abort _) with (pending_abort_state s).
  destruct (flight_None s Hb Hf) as [Hi Ha].
  destruct (b_pump s Hb) as (Hp1 & Hp2 & Hp3).
  assert (with_transform_close_in_flight (pump_slot s) false = pump_slot s) as Hpb.
  { rewrite Hp1. assert (continuations s = 0 ∨ continuations s = 1) as [-> | ->] by lia; done. }
  destruct (b_fifo s Hb) as (dropped & Hacc & Hd).
  assert (errored_slot s = false) as He.
  { unfold terminal in Ht. by destruct (errored_slot s), (closed_slot s). }
  assert (dropped = []) as -> by (destruct dropped; [done|]; rewrite Hd in He; done).
  destruct (b_abort s Hb) as (_ & Hab & _).
  assert (abort_running s = []) as Har.
  { destruct (abort_running s); [done|]. rewrite Hab in He; done. }
  pose proof (b_promises s Hb) as Hpr. unfold outstanding in Hpr.
  rewrite Hq, Hpc, Har in Hpr. simpl in Hpr. rewrite app_nil_r in Hpr.
  pose proof (b_request s Hb) as Hrq.
  assert (∀ ps o err, s.(settled).*1 ++ ps ≡ₚ issued (next_promise s) →
    let s1 := set_errored (set_erroring (set_pump s (pump_slot s)) false) false in
    inv (set_closed (set_stored_error (set_pending_abort
           (set_settled s1 (s.(settled) ++ ((λ p, (p, o)) <$> ps))) None) err) true)) as Hfin.
  { intros ps o err Hps s1. split; [|apply live_terminal; rewrite state_of_cases; by right].
    constructor; simpl; try done; unfold flight, terminal; simpl; rewrite ?Hi, ?Ha; auto.
    - rewrite Hq. by constructor.
    - by rewrite Hq.
    - unfold outstanding; simpl. rewrite Hq, Hpc, Har, fmap_app. simpl. rewrite app_nil_r.
      rewrite <-list_fmap_compose, list_fmap_id by done. done.
    - exists []. rewrite Hacc, Hq. done. }
  destruct (state_nonterminal s Hb Ht) as [Hs|Hs]; rewrite Hs; simpl; rewrite Hpb;
    destruct (pending_abort_slot s) as [r|] eqn:Ep.
  all: pose proof (is_pending_iff s) as Hip.
  all: rewrite Ep in Hip.
  all: destruct (is_pending (pending_abort_state s)) eqn:Epd;
    [try (destruct (proj1 Hip eq_refl); done) | try (destruct Hip as [_ Hip];
       specialize (Hip (ex_intro _ _ eq_refl)); done)]; simpl; rewrite ?Ep; simpl.
  all: eexists; (split; [done|]).
  - exact (Hfin [residence r] Resolved (stored_error s) Hpr).
  - pose proof (Hfin [] Resolved (stored_error s) Hpr) as H. simpl in H.
    rewrite app_nil_r, <-Ep in H. exact H.
  - exact (Hfin [residence r] Resolved None Hpr).
  - pose proof (Hfin [] Resolved None Hpr) as H. simpl in H.
    rewrite app_nil_r, <-Ep in H. exact H.
Qed.

Lemma finish_close_ok s error i a :
  base s → flight s = Some SinkClose → i = None → a = None →
  ∃ s', finish_running_writable_sink_close (set_flight s i a) error = Ret s' ∧ inv s'.
Proof.
  intros Hb Hf Hi Ha. pose proof (flight_nonterminal s Hb ltac:(congruence)) as Ht.
  unfold finish_running_writable_sink_close, dequeue_pending_transform_write.
  destruct (pop_close s (match error with Some x => Rejected x | None => Resolved end)
              i a Hb Hf Hi Ha) as (e & Eq & Hp & Hb').
  simpl. rewrite Eq. simpl. rewrite Hp. simpl. destruct error as [x|].
  - set (s1 := settle _ _ _) in *. unfold plan_close_settlement.
    change (e_state _) with (state_of s1).
    change (e_pending_abort _) with (pending_abort_state s1).
    assert (terminal s1 = false) as Ht1 by exact Ht.
    pose proof (is_pending_iff s1) as Hip.
    destruct (state_nonterminal s1 Hb' Ht1) as [-> | ->]; simpl;
      destruct (is_pending (pending_abort_state s1)); simpl; try by apply deal_ok.
    all: destruct (proj1 Hip eq_refl) as [r Hr];
      rewrite (Hr : pending_abort_slot s = Some r); simpl; apply deal_ok;
      by apply base_take_abort.
  - apply mark_closed_ok; try done. unfold flight; simpl. by rewrite Hi, Ha.
Qed.

(** *** Events *)
Lemma flight_invocation s o : s.(invocation) = Some o → flight s = Some o.
Proof. unfold flight. by intros ->. Qed.

Lemma flight_awaiting s o : base s → s.(awaiting) = Some o → flight s = Some o ∧ s.(invocation) = None.
Proof. intros Hb Ha. unfold flight. destruct (b_flight s Hb) as [Hi|]; [|congruence]. by rewrite Hi. Qed.

Lemma awaiting_None s o : base s → s.(invocation) = Some o → s.(awaiting) = None.
Proof. intros Hb Hi. destruct (b_flight s Hb); congruence. Qed.

(** The promise of the operation on the stack takes its place. *)
Lemma await_ok s o :
  inv s → s.(invocation) = Some o → inv (set_flight s None (Some o)).
Proof.
  intros [Hb Hl] Hi. pose proof (flight_invocation s o Hi) as Hf. split.
  - apply set_flight_same; auto.
  - unfold live in *. change (flight (set_flight s None (Some o))) with (Some o).
    rewrite Hf in Hl. exact Hl.
Qed.

Lemma schedule_ok s :
  base s → s.(webidl) = false → flight s = None →
  inv (schedule_writable_sink_write_queue_continuation s).
Proof.
  intros Hb Hw Hf. pose proof (write_promises_waits_flightless s Hb Hf) as Hq.
  destruct (b_pump s Hb) as (Hp & Hc & _). pose proof (scheduled_iff s Hb) as Hsch.
  unfold schedule_writable_sink_write_queue_continuation, plan_schedule_sink_continuation. simpl.
  rewrite Hsch. case_bool_decide as Hs; simpl.
  - destruct (N.ltb_spec 0 (continuations s)) as [Hlt|Hge]; simpl.
    { split; [done|]. split; [auto|]. rewrite Hs. done. }
    unfold head_kind. destruct (queue s) as [|e q] eqn:Eq; simpl.
    { split; [done|]. split; [by rewrite Eq|]. by rewrite Hs. }
    apply Forall_cons in Hq as [Hk _].
    assert (continuations s = 0) as Hz by lia.
    assert (inv (set_continuations (set_pump s 1) (continuations s + 1))) as Hi.
    { split; [|split; [intros _ _; right; right; simpl; lia | intros _ Hx; simpl in Hx; congruence]].
      destruct Hb as [b1 b2 b3 b4 b5 b6 b7 b8 b9 b10 b11 b12]. constructor; try done.
      simpl. rewrite Hz, Hw. done. }
    rewrite Hp, Hz. rewrite Hz in Hi. destruct Hk as [-> | ->]; exact Hi.
  - split; [done|]. split; [congruence|]. by rewrite Hw.
Qed.

Lemma returned_write_ok s r :
  inv s → s.(invocation) = Some SinkWrite → ∃ s', sink_write_returned s r = Ret s' ∧ inv s'.
Proof.
  intros Hinv Hi. pose proof Hinv as [Hb _]. pose proof (flight_invocation s _ Hi) as Hf.
  pose proof (awaiting_None s _ Hb Hi) as Ha. destruct r as [| |x]; simpl.
  - eauto using await_ok.
  - destruct (webidl s) eqn:Hw; [eauto using await_ok|].
    destruct (pop_write s Resolved None (awaiting s) Hb Hf eq_refl Ha) as (e & rest & Eq & Hb').
    unfold dequeue_pending_transform_write. simpl. rewrite Eq.
    eexists; split; [done|]. apply schedule_ok; [by apply base_total | done |].
    unfold flight; simpl. done.
  - destruct (pop_write s (Rejected x) None (awaiting s) Hb Hf eq_refl Ha)
      as (e & rest & Eq & Hb').
    unfold dequeue_pending_transform_write. simpl. rewrite Eq.
    apply deal_ok. by apply base_total.
Qed.

Lemma returned_close_ok s r :
  inv s → s.(invocation) = Some SinkClose → ∃ s', sink_close_returned s r = Ret s' ∧ inv s'.
Proof.
  intros Hinv Hi. pose proof Hinv as [Hb _]. pose proof (flight_invocation s _ Hi) as Hf.
  pose proof (awaiting_None s _ Hb Hi) as Ha. destruct r as [| |x]; simpl.
  - eauto using await_ok.
  - destruct (webidl s) eqn:Hw; [eauto using await_ok|]. by apply finish_close_ok.
  - by apply finish_close_ok.
Qed.

Lemma closes_last_app q e : close_promises q = [] → closes_last (q ++ [e]).
Proof.
  unfold close_promises. induction q as [|f q IH]; simpl; [done|]. rewrite filter_cons.
  destruct (is_close (e_kind f)); simpl; [done|]. intros H. split; [done | by apply IH].
Qed.

Lemma queue_ok_app f q e : f ≠ Some SinkClose → waits e → queue_ok f q → queue_ok f (q ++ [e]).
Proof.
  intros Hf He. destruct f as [[]|]; simpl; [|done|].
  - intros (x & rest & -> & Hk & Hw). exists x, (rest ++ [e]). split_and!; [done | done |].
    apply Forall_app; auto.
  - intros. apply Forall_app; auto.
Qed.

Lemma not_closing s :
  base s → terminal s = false → s.(close_requested_slot) = false →
  close_promises s.(queue) = [] ∧ flight s ≠ Some SinkClose ∧ s.(pending_close) = None.
Proof.
  intros Hb Ht Hr. pose proof (b_request s Hb Hr) as Hp. pose proof (b_close s Hb Ht) as Hc.
  rewrite Hp in Hc. split; [done|]. split; [|done]. intros Hf.
  pose proof (b_queue s Hb) as Hq. rewrite Hf in Hq. destruct Hq as (e & Eq & Hk).
  rewrite Eq in Hc. unfold close_promises in Hc. by rewrite filter_cons, Hk in Hc.
Qed.

Lemma accept_write_base s chunk size :
  base s → state_of s = Writable → s.(close_requested_slot) = false →
  base (enqueue_pending_writable_sink_write (accept (take_promise s) chunk) chunk
          s.(next_promise) size).
Proof.
  intros Hb Hs Hr. destruct (writable_slots s Hs) as (H1 & H2 & H3).
  assert (terminal s = false) as Ht by (unfold terminal; by rewrite H1, H3).
  destruct (not_closing s Hb Ht Hr) as (Hc & Hf & Hp).
  destruct Hb as [b1 b2 b3 b4 b5 b6 b7 b8 b9 b10 b11 b12]. constructor; simpl; try done.
  - apply queue_ok_app; [done | by left | done].
  - by apply closes_last_app.
  - rewrite close_promises_app, Hc, Hp. done.
  - unfold terminal in *. simpl. congruence.
  - unfold outstanding in *. simpl. rewrite write_promises_app, issued_succ, <-b10.
    unfold write_promises at 2. simpl. solve_Permutation.
  - destruct b11 as (dropped & E & Hd). exists []. split; [|done]. rewrite E.
    destruct dropped; [|rewrite Hd in H1; done]. rewrite waiting_chunks_app.
    rewrite !app_nil_r, app_assoc. done.
Qed.

Lemma enqueue_close_base s :
  base s → terminal s = false → s.(close_requested_slot) = false →
  base (enqueue_pending_transform_close (take_promise (set_close_requested s true))
          s.(next_promise)).
Proof.
  intros Hb Ht Hr. destruct (not_closing s Hb Ht Hr) as (Hc & Hf & Hp).
  destruct Hb as [b1 b2 b3 b4 b5 b6 b7 b8 b9 b10 b11 b12]. constructor; simpl; try done.
  - apply queue_ok_app; [done | by right | done].
  - by apply closes_last_app.
  - rewrite close_promises_app, Hc. done.
  - unfold terminal in *. simpl. congruence.
  - destruct b9 as (A & B & C). split_and!; auto. intros E.
    unfold terminal in Ht. by rewrite E in Ht.
  - unfold outstanding in *. simpl. rewrite Hp in b10. rewrite write_promises_app, issued_succ, <-b10.
    unfold write_promises at 2. simpl. solve_Permutation.
  - destruct b11 as (dropped & E & Hd). exists dropped. split; [|done]. rewrite E.
    by rewrite waiting_chunks_app, app_nil_r.
  - unfold terminal in Ht. intros E. rewrite E, orb_true_r in Ht. done.
Qed.

Lemma write_after_size_ok s chunk size owner :
  inv s → ∃ s', write_after_size s chunk size owner = Ret s' ∧ inv s'.
Proof.
  intros Hinv. pose proof Hinv as [Hb Hl]. destruct size as [size|x]; simpl;
    [|by apply error_ok].
  unfold plan_write_after_size. simpl. destruct owner; simpl; [|by eauto].
  destruct (is_error_state (state_of s)) eqn:Ee; [by eauto|].
  destruct (close_requested_slot s) eqn:Er; simpl; [by eauto|].
  case_bool_decide as Hc; [by eauto|]. apply process_ok.
  assert (state_of s = Writable) as Hs by (by destruct (state_of s)).
  apply (accept_write_base (set_total s _)); [by apply base_total | done | done].
Qed.

Lemma close_ok s : inv s → ∃ s', writable_stream_close_internal s = Ret s' ∧ inv s'.
Proof.
  intros Hinv. pose proof Hinv as [Hb Hl].
  unfold writable_stream_close_internal, plan_close. simpl.
  destruct (close_requested_slot s) eqn:Er; simpl; [by eauto|].
  case_bool_decide as Hc; [by eauto|].
  destruct (state_of s) eqn:Es; [| |done|by eauto].
  - apply process_ok, enqueue_close_base; [done| |done].
    destruct (writable_slots s Es) as (H1 & H2 & H3). unfold terminal. by rewrite H1, H3.
  - destruct (erroring_slots s Hb Es) as (H1 & H2 & H3).
    destruct (advance_ok (enqueue_pending_transform_close
      (take_promise (set_close_requested s true)) (next_promise s))) as (b & s' & E & Hb' & _ & Hl').
    { apply enqueue_close_base; [done| |done]. unfold terminal. by rewrite H1, H3. }
    simpl. rewrite E. simpl. exists s'. split; [done|]. split; [done|]. apply Hl'. exact Es.
Qed.

Lemma abort_request_base s r :
  base s → s.(erroring_slot) = true → s.(pending_abort_slot) = None →
  r.(residence) = s.(next_promise) →
  base (set_pending_abort (take_promise s) (Some r)).
Proof.
  intros [b1 b2 b3 b4 b5 b6 b7 b8 b9 b10 b11 b12] He Hp Hr. constructor; simpl; try done.
  - destruct b9 as (A & B & C). by split_and!.
  - unfold outstanding in *. simpl. rewrite Hp in b10. rewrite Hr, issued_succ, <-b10. simpl.
    solve_Permutation.
Qed.

Lemma abort_ok s x : inv s → ∃ s', writable_stream_abort_internal s x = Ret s' ∧ inv s'.
Proof.
  intros Hinv. pose proof Hinv as [Hb Hl]. unfold writable_stream_abort_internal, plan_abort.
  change (e_state _) with (state_of s). change (e_pending_abort _) with (pending_abort_state s).
  pose proof (is_pending_iff s) as Hip.
  destruct (state_of s) eqn:Es; simpl; try by eauto.
  all: destruct (is_pending (pending_abort_state s)); simpl; [by eauto|].
  all: assert (pending_abort_slot s = None) as Hn
    by (destruct (pending_abort_slot s); [|done]; destruct Hip as [_ Hip];
        specialize (Hip (ex_intro _ _ eq_refl)); done).
  - apply error_core; [done|].
    apply (abort_request_base (set_stored_error (set_erroring s true) (Some x)));
      try done. by apply base_erroring.
  - destruct (erroring_slots s Hb Es) as (H1 & H2 & H3).
    destruct (advance_ok (set_pending_abort (take_promise s)
      (Some {| residence := next_promise s; reason := 0; already_erroring := true |})))
      as (b & s' & E & Hb' & _ & Hl'); [by apply abort_request_base|].
    rewrite E. simpl. exists s'. split; [done|]. split; [done|]. by apply Hl'.
Qed.

Lemma aborted_ok s r rest error :
  inv s → s.(abort_running) = r :: rest →
  inv (writable_abort_settled (set_abort_running s rest) r error).
Proof.
  intros [Hb _] Hr. destruct (b_abort s Hb) as (Ha & Hx & _).
  assert (errored_slot s = true) as He by (apply Hx; by rewrite Hr).
  destruct (b_slots s Hb) as [Hs1 Hs2].
  assert (closed_slot s = false) as Hc.
  { destruct (closed_slot s) eqn:E; [|done]. destruct (Hs1 eq_refl). congruence. }
  assert (terminal s = true) as Ht by (unfold terminal; by rewrite Hc, He).
  destruct (b_terminal s Hb Ht) as [Hq Hf]. destruct (flight_None s Hb Hf) as [Hi Haw].
  assert (pending_abort_slot s = None) as Hp.
  { destruct (pending_abort_slot s); [|done]. rewrite Hs2 in Ha by done.
    discriminate (Ha ltac:(done)). }
  pose proof (b_promises s Hb) as Hpr. unfold outstanding in Hpr.
  rewrite Hq, Hp, Hr in Hpr. simpl in Hpr.
  destruct (b_fifo s Hb) as (dropped & Hacc & _). rewrite Hq in Hacc.
  pose proof (b_pump s Hb) as Hpu. pose proof (b_request s Hb) as Hrq.
  assert (base (writable_abort_settled (set_abort_running s rest) r error) ∧
    state_of (writable_abort_settled (set_abort_running s rest) r error) = Errored) as [? ?].
  { apply base_errored; unfold writable_abort_settled, project_writable_stream_terminal_error;
      simpl; destruct (pending_close s) eqn:Epc; simpl; rewrite ?Epc; auto;
      rewrite ?fmap_app; simpl; try (rewrite <-Hpr; simpl; solve_Permutation); eauto. }
  split; auto using live_terminal.
Qed.

Lemma continuation_ok s :
  inv s → s.(continuations) ≠ 0 →
  ∃ s', writable_sink_write_queue_continuation_callback
          (set_continuations s (s.(continuations) - 1)) = Ret s' ∧ inv s'.
Proof.
  intros [Hb _] Hn. unfold writable_sink_write_queue_continuation_callback. apply process_ok.
  destruct Hb as [b1 b2 b3 b4 b5 b6 b7 b8 b9 b10 b11 b12]. constructor; try done.
  destruct b2 as (Hp & Hc & Hw). simpl. rewrite Hp.
  assert (continuations s = 1) as -> by lia. done.
Qed.

Lemma step_ok s ev : inv s → ∃ s', step s ev = Ret s' ∧ inv s'.
Proof.
  intros Hinv. pose proof Hinv as [Hb Hl]. destruct ev as [c z o|c z o| |x|x|er|r|er|er|]; simpl.
  - destruct (plan_internal_write_entry _); eauto using write_after_size_ok.
  - by apply write_after_size_ok.
  - by apply close_ok.
  - by apply abort_ok.
  - by apply error_ok.
  - destruct (start_pending_slot s); [|by eauto]. destruct er as [x|].
    + apply deal_ok. by apply base_start.
    + unfold writable_start_fulfilled.
      destruct (advance_ok (set_start_pending s false)) as (b & s' & -> & Hb' & H1 & H2);
        [by apply base_start|]. simpl.
      destruct (decide (state_of (set_start_pending s false) = Erroring)) as [He|He].
      * destruct (H2 He) as [-> Hl']. by exists s'.
      * destruct (H1 He) as [-> ->]. by apply process_ok.
  - destruct (invocation s) as [[]|] eqn:Ei; eauto using returned_write_ok, returned_close_ok.
  - destruct (awaiting s) as [[]|] eqn:Ea; [| |by eauto];
      destruct (flight_awaiting s _ Hb Ea) as [Hf Hi].
    + unfold writable_sink_write_settled.
      destruct (finish_write_ok s er (invocation s) None Hb Hf Hi eq_refl)
        as (s' & -> & Hb' & Hl'). simpl.
      destruct er; [by exists s'; split; [|split; auto] | by apply process_ok].
    + by apply finish_close_ok.
  - destruct (abort_running s) as [|r rest] eqn:Er; eauto using aborted_ok.
  - destruct (N.eqb_spec (continuations s) 0); eauto using continuation_ok.
Qed.

Lemma fresh_inv h w : inv (fresh h w).
Proof.
  split; [|by split; intros _; left].
  constructor; try done; simpl; auto; try (by constructor). by exists [].
Qed.

Lemma steps_ok s es : inv s → ∃ s', steps s es = Ret s' ∧ inv s'.
Proof.
  revert s. induction es as [|ev es IH]; intros s Hs; simpl; [eauto|].
  destruct (step_ok s ev Hs) as (s1 & -> & H1). simpl. auto.
Qed.

(** *** No operation changes whose sink it is *)
Lemma reject_webidl q e s : webidl (fold_left (λ s x, reject_entry s e x) q s) = webidl s.
Proof.
  revert s. induction q as [|x q IH]; intros s; simpl; [done|]. rewrite IH. unfold reject_entry.
  by destruct (plan_reject_entry (e_kind x)).
Qed.

Lemma project_webidl s e : webidl (project_writable_stream_terminal_error s e) = webidl s.
Proof. unfold project_writable_stream_terminal_error. by destruct (pending_close s). Qed.

Lemma advance_webidl s b s' :
  advance_writable_stream_erroring s = Ret (b, s') → webidl s' = webidl s.
Proof.
  unfold advance_writable_stream_erroring. intros H.
  destruct (plan_finish _); inv_run; try done;
    rewrite ?project_webidl; simpl; by rewrite reject_webidl.
Qed.

Lemma error_webidl s e s' :
  error_writable_stream_with_value s e = Ret s' → webidl s' = webidl s.
Proof.
  unfold error_writable_stream_with_value. intros H.
  destruct (plan_error _) as [|[]]; inv_run; [done| |done].
  destruct r as [b r]. inv_run. by apply advance_webidl in E.
Qed.

Lemma deal_webidl s e s' :
  deal_with_writable_stream_rejection s e = Ret s' → webidl s' = webidl s.
Proof.
  unfold deal_with_writable_stream_rejection. intros H.
  destruct (state_of s); [by eapply error_webidl | | by inv_run | by inv_run].
  inv_run. destruct r as [b r]. inv_run. by apply advance_webidl in E.
Qed.

Lemma process_webidl s s' :
  process_writable_sink_write_queue s = Ret s' → webidl s' = webidl s.
Proof.
  unfold process_writable_sink_write_queue, set_head_kind. intros H.
  destruct (plan_sink_pump _); [by inv_run | | |].
  - inv_run. destruct r as [b r]. inv_run. by apply advance_webidl in E.
  - destruct (queue s); simpl in H; [by inv_run|]. case_bool_decide; by inv_run.
  - destruct (queue s); simpl in H; [by inv_run|]. case_bool_decide; by inv_run.
Qed.

Lemma finish_write_webidl s er s' :
  finish_running_writable_sink_write s er = Ret s' → webidl s' = webidl s.
Proof.
  unfold finish_running_writable_sink_write, dequeue_pending_transform_write. intros H.
  destruct (queue s); [by inv_run|]. destruct er; [by apply deal_webidl in H | by inv_run].
Qed.

Lemma mark_closed_webidl s s' : mark_writable_stream_closed s = Ret s' → webidl s' = webidl s.
Proof.
  unfold mark_writable_stream_closed. intros H. inv_run. destruct r as [c b|]; [|done].
  inv_run. destruct b; inv_run; by destruct c.
Qed.

Lemma finish_close_webidl s er s' :
  finish_running_writable_sink_close s er = Ret s' → webidl s' = webidl s.
Proof.
  unfold finish_running_writable_sink_close, dequeue_pending_transform_write. intros H.
  destruct (queue s); [by inv_run|]. destruct er; [|by apply mark_closed_webidl in H].
  inv_run. apply deal_webidl in H. rewrite H.
  destruct r as [|[]]; inv_run; done.
Qed.

Lemma schedule_webidl s : webidl (schedule_writable_sink_write_queue_continuation s) = webidl s.
Proof. unfold schedule_writable_sink_write_queue_continuation. by destruct (plan_schedule_sink_continuation _). Qed.

Lemma step_webidl s ev s' : step s ev = Ret s' → webidl s' = webidl s.
Proof.
  intros H. destruct ev as [c z o|c z o| |x|x|er|r|er|er|]; cbn [step] in H.
  1: destruct (plan_internal_write_entry _); [|by inv_run].
  1, 2: unfold write_after_size in H; destruct z; [|by apply error_webidl in H];
    destruct (plan_write_after_size (writable_stream_snapshot s) o);
    [by apply process_webidl in H | by inv_run ..].
  - unfold writable_stream_close_internal in H. destruct (plan_close _); try by inv_run.
    + inv_run. destruct r as [b r]. inv_run. by apply advance_webidl in E.
    + by apply process_webidl in H.
  - unfold writable_stream_abort_internal in H. inv_run. destruct r as [| |[] []]; try by inv_run.
    1, 3: by apply error_webidl in H.
    all: inv_run; destruct r as [b r]; inv_run; by apply advance_webidl in E0.
  - by apply error_webidl in H.
  - destruct (start_pending_slot s); [|by inv_run]. destruct er.
    + by apply deal_webidl in H.
    + unfold writable_start_fulfilled in H. inv_run. destruct r as [[] r]; inv_run;
        apply advance_webidl in E; [done|]. by apply process_webidl in H; rewrite H.
  - destruct (invocation s) as [[]|]; [| |by inv_run].
    + unfold sink_write_returned, dequeue_pending_transform_write in H. simpl in H.
      destruct r; [by inv_run | |].
      * destruct (webidl s) eqn:Ew; [by inv_run|]. destruct (queue s); [by inv_run|].
        inv_run. by rewrite schedule_webidl.
      * destruct (queue s); [by inv_run|]. by apply deal_webidl in H.
    + unfold sink_close_returned in H.
      destruct r; [by inv_run | |by apply finish_close_webidl in H].
      destruct (webidl s) eqn:Ew; [by inv_run|]. by apply finish_close_webidl in H; rewrite H.
  - destruct (awaiting s) as [[]|]; [| |by inv_run].
    + unfold writable_sink_write_settled in H. inv_run. apply finish_write_webidl in E.
      destruct er; [by inv_run|]. apply process_webidl in H. by rewrite H.
    + by apply finish_close_webidl in H.
  - destruct (abort_running s); inv_run; [done|]. unfold writable_abort_settled.
    by rewrite project_webidl.
  - destruct (continuations s =? 0); [by inv_run|].
    by apply process_webidl in H.
Qed.

Lemma settled_NoDup s : base s → NoDup s.(settled).*1.
Proof.
  intros Hb. pose proof (b_promises s Hb) as Hp.
  assert (NoDup (s.(settled).*1 ++ outstanding s)) as Hn by (rewrite Hp; apply issued_NoDup).
  by apply NoDup_app in Hn as (? & _ & _).
Qed.

(** C15: A writable stream over a sink keeps its books under every history of
    writes, closes, aborts, controller errors, author callbacks that re-enter
    the stream, and settlements: nothing panics; every promise it handed out
    is settled at most once, and the unsettled ones are exactly those of the
    queued writes, the requested close, the pending abort and the running
    abort; the sink has been called with the accepted chunks, each once and
    in order, except that the tail of an errored stream is never written; and
    a closed or errored stream has an empty queue and nothing in flight, so
    the error waits for the operation that was running. *)
Theorem writable_sink_safe (hwm : f64) (webidl : bool) (es : list event) :
  ∃ s, steps (fresh hwm webidl) es = Ret s ∧
    NoDup s.(settled).*1 ∧
    s.(settled).*1 ++ outstanding s ≡ₚ issued s.(next_promise) ∧
    (∃ dropped, s.(accepted) = written s.(calls) ++ waiting_chunks s.(queue) ++ dropped ∧
                (dropped ≠ [] → state_of s = Errored)) ∧
    (state_of s = Closed ∨ state_of s = Errored →
     s.(queue) = [] ∧ s.(invocation) = None ∧ s.(awaiting) = None).
Proof.
  destruct (steps_ok _ es (fresh_inv hwm webidl)) as (s & E & Hb & Hl). exists s.
  split; [done|]. split; [by apply settled_NoDup|]. split; [by apply b_promises|].
  assert (∀ x, errored_slot x = true → state_of x = Errored) as He.
  { intros x Hx. by rewrite state_of_cases, Hx. }
  split.
  - destruct (b_fifo s Hb) as (d & Hd & Hx). exists d. auto.
  - intros Hs. destruct (b_terminal s Hb) as [Hq Hf].
    { unfold terminal. rewrite !state_of_cases in Hs.
      destruct (errored_slot s), (erroring_slot s), (closed_slot s); simpl in *; naive_solver. }
    split; [done|]. by apply flight_None.
Qed.

(** *** Progress *)

(** The answers a stream waits for: of the start promise, of the sink call on
    the stack, of the sink promise with reactions and of the running abort. *)
Definition answers (s : stream) (ev : event) : Prop :=
  match ev with
  | EStart _ => s.(start_pending_slot) = true
  | EReturned _ => s.(invocation) ≠ None
  | ESettled _ => s.(awaiting) ≠ None
  | EAborted _ => s.(abort_running) ≠ []
  | _ => False
  end.

(** The answers still to come, two for each queued operation (its call
    returns, its promise settles) and one for the others. *)
Definition owed (s : stream) : nat :=
  ((if s.(start_pending_slot) then 1 else 0) + 2 * length s.(queue)
   + length (option_list s.(pending_abort_slot)) + length s.(abort_running)
   - length (option_list s.(awaiting)))%nat.

(** What an operation may do to the answers owed. *)
Definition no_more (s s' : stream) : Prop :=
  s'.(start_pending_slot) = s.(start_pending_slot) ∧ s'.(awaiting) = s.(awaiting) ∧
  (length s'.(queue) ≤ length s.(queue))%nat ∧
  (length (option_list s'.(pending_abort_slot)) + length s'.(abort_running)
   ≤ length (option_list s.(pending_abort_slot)) + length s.(abort_running))%nat.

Lemma no_more_refl s : no_more s s.
Proof. by split_and!. Qed.

Lemma no_more_trans s1 s2 s3 : no_more s1 s2 → no_more s2 s3 → no_more s1 s3.
Proof. intros (? & ? & ? & ?) (? & ? & ? & ?). split_and!; congruence || lia. Qed.

Lemma no_more_owed s s' : no_more s s' → (owed s' ≤ owed s)%nat.
Proof. unfold owed. intros (-> & -> & ? & ?). lia. Qed.

Lemma reject_no_more q e s : no_more s (fold_left (λ s x, reject_entry s e x) q s).
Proof.
  revert s. induction q as [|x q IH]; intros s; simpl; [apply no_more_refl|].
  eapply no_more_trans; [|apply IH]. unfold reject_entry. by case_match.
Qed.

Lemma project_no_more s e : no_more s (project_writable_stream_terminal_error s e).
Proof. unfold project_writable_stream_terminal_error. by case_match. Qed.

Lemma finish_erroring_no_more s plan s' :
  finish_writable_stream_erroring s plan = Ret s' → no_more s s'.
Proof.
  unfold finish_writable_stream_erroring. set (e := default 0 _).
  set (s1 := reject_pending_transform_writes _ _).
  assert (no_more s s1) as H1.
  { eapply (no_more_trans _ (set_errored (set_erroring s false) true)); [done|].
    eapply no_more_trans; [apply (reject_no_more (queue s) e)|]. split_and!; simpl; try done; lia. }
  destruct plan; intros H; inv_run; try done.
  - eapply no_more_trans; [done|]. apply project_no_more.
  - eapply no_more_trans; [done|]. eapply no_more_trans; [|apply project_no_more].
    split_and!; simpl; try done; lia.
  - eapply no_more_trans; [done|]. change (pending_abort_slot s1 = Some r) in E.
    split_and!; try done. rewrite E. simpl. rewrite length_app. simpl. lia.
Qed.

Lemma advance_no_more s b s' : advance_writable_stream_erroring s = Ret (b, s') → no_more s s'.
Proof.
  unfold advance_writable_stream_erroring. intros H.
  destruct (plan_finish _); try (inv_run; apply no_more_refl);
    apply run_bind_Ret in H as (x & Hx & H); injection H as <- <-; exact (finish_erroring_no_more _ _ _ Hx).
Qed.

Lemma error_no_more s e s' : error_writable_stream_with_value s e = Ret s' → no_more s s'.
Proof.
  unfold error_writable_stream_with_value. intros H. destruct (plan_error _) as [|[]]; inv_run; try done.
  destruct r as [b s1]. inv_run. apply advance_no_more in E. by eapply no_more_trans; [|done].
Qed.

Lemma deal_no_more s e s' : deal_with_writable_stream_rejection s e = Ret s' → no_more s s'.
Proof.
  unfold deal_with_writable_stream_rejection. intros H. destruct (state_of s); inv_run; try done.
  - by apply error_no_more in H.
  - destruct r as [b s1]. inv_run. by apply advance_no_more in E.
Qed.

Lemma head_kind_no_more s k c i :
  no_more s (set_flight (call_sink (set_head_kind s k) c) i s.(awaiting)).
Proof.
  unfold set_head_kind. destruct (queue s) eqn:E; split_and!; simpl; rewrite ?E; try done; simpl; lia.
Qed.

Lemma process_no_more s s' : process_writable_sink_write_queue s = Ret s' → no_more s s'.
Proof.
  unfold process_writable_sink_write_queue. intros H.
  destruct (plan_sink_pump _) as [| |k1 k2|k1 k2]; inv_run; try done.
  - destruct r as [b s1]. inv_run. by apply advance_no_more in E.
  - destruct (hd_error (queue s)); [|by inv_run]. case_bool_decide; inv_run; [done|].
    by apply head_kind_no_more.
  - destruct (hd_error (queue s)); [|by inv_run]. case_bool_decide; inv_run; [done|].
    by apply head_kind_no_more.
Qed.

Lemma queue_flight s o : base s → flight s = Some o → ∃ e rest, s.(queue) = e :: rest.
Proof.
  intros Hb Hf. pose proof (b_queue s Hb) as Hq. rewrite Hf in Hq.
  destruct o; destruct Hq; naive_solver.
Qed.

Lemma owed_pop (s s1 s' : stream) e rest :
  no_more s1 s' → s1.(start_pending_slot) = s.(start_pending_slot) → s1.(awaiting) = None →
  s.(queue) = e :: rest → s1.(queue) = rest →
  (length (option_list s1.(pending_abort_slot)) + length s1.(abort_running)
   ≤ length (option_list s.(pending_abort_slot)) + length s.(abort_running))%nat →
  (owed s' < owed s)%nat.
Proof.
  intros Hn E1 E2 E3 E4 Ha. apply no_more_owed in Hn. unfold owed in *.
  rewrite E1, E2, E4 in Hn. rewrite E3. simpl in *. destruct (awaiting s); simpl; lia.
Qed.

Lemma mark_closed_no_more s s' : mark_writable_stream_closed s = Ret s' → no_more s s'.
Proof.
  unfold mark_writable_stream_closed. intros H. inv_run. destruct r as [b1 b2|]; inv_run.
  destruct b1, b2; inv_run; split_and!; simpl; try done; lia.
Qed.

Lemma finish_write_owed s error s' :
  base s → flight s = Some SinkWrite →
  finish_running_writable_sink_write (set_flight s None None) error = Ret s' → (owed s' < owed s)%nat.
Proof.
  intros Hb Hf H. destruct (queue_flight s _ Hb Hf) as (e & rest & Eq).
  unfold finish_running_writable_sink_write, dequeue_pending_transform_write in H. simpl in H.
  rewrite Eq in H. destruct error as [x|].
  - apply deal_no_more in H. by eapply owed_pop.
  - injection H as <-. by eapply owed_pop; [apply no_more_refl|..].
Qed.

Lemma finish_close_owed s error s' :
  base s → flight s = Some SinkClose →
  finish_running_writable_sink_close (set_flight s None None) error = Ret s' → (owed s' < owed s)%nat.
Proof.
  intros Hb Hf H. destruct (queue_flight s _ Hb Hf) as (e & rest & Eq).
  unfold finish_running_writable_sink_close, dequeue_pending_transform_write in H. simpl in H.
  rewrite Eq in H. destruct error as [x|].
  - inv_run. apply deal_no_more in H. destruct r as [b1 b2|[]]; inv_run.
    all: try (eapply owed_pop; [done..|]; simpl; lia).
  - apply mark_closed_no_more in H. by eapply owed_pop.
Qed.

(** Each answer, whatever it is, is one the stream no longer waits for. *)
Lemma answer_owed s ev s' :
  inv s → s.(webidl) = true → answers s ev → step s ev = Ret s' → (owed s' < owed s)%nat.
Proof.
  intros [Hb _] Hw Ha H. destruct ev as [c z o|c z o| |x|x|er|r|er|er|]; simpl in Ha; try done; simpl in H.
  - rewrite Ha in H. assert (∀ s1, no_more (set_start_pending s false) s1 → (owed s1 < owed s)%nat) as Hx.
    { intros s1 Hn%no_more_owed. unfold owed in *. simpl in Hn. rewrite Ha.
      destruct (awaiting s) as [o|] eqn:Ea; simpl in *; [|lia].
      destruct (queue_flight s o Hb) as (e & rest & Eq); [by apply flight_awaiting|]. rewrite Eq in *. simpl in *. lia. }
    apply Hx. destruct er as [x|].
    + by apply deal_no_more in H.
    + unfold writable_start_fulfilled in H. inv_run. destruct r as [[] s1]; inv_run.
      * by apply advance_no_more in E.
      * apply advance_no_more in E. apply process_no_more in H. by eapply no_more_trans.
  - destruct (invocation s) as [o|] eqn:Ei; [|done]. clear Ha.
    pose proof (awaiting_None s o Hb Ei) as Ha. pose proof (flight_invocation s o Ei) as Hf.
    assert ((owed (set_flight s None (Some o)) < owed s)%nat) as Hx.
    { destruct (queue_flight s o Hb Hf) as (e & rest & Eq). unfold owed. simpl. rewrite Ha, Eq. simpl. lia. }
    destruct o, r as [| |x]; simpl in H; rewrite ?Hw in H; rewrite ?Ha in H.
    1, 2, 4, 5: by injection H as <-.
    + apply (finish_write_owed s (Some x)); [done | done|]. rewrite <-H.
      destruct (queue_flight s _ Hb Hf) as (e & rest & Eq).
      unfold finish_running_writable_sink_write, dequeue_pending_transform_write. simpl. by rewrite Eq.
    + by apply (finish_close_owed s (Some x)).
  - destruct (awaiting s) as [o|] eqn:Ei; [|done]. destruct (flight_awaiting s o Hb Ei) as [Hf Hi].
    destruct o.
    + unfold writable_sink_write_settled in H. rewrite Hi in H. inv_run.
      apply finish_write_owed in E; [|done..].
      destruct er; inv_run; [done|]. apply process_no_more, no_more_owed in H. lia.
    + unfold writable_sink_close_settled in H. rewrite Hi in H. by apply finish_close_owed in H.
  - destruct (abort_running s) as [|r rest] eqn:Er; [done|]. injection H as <-.
    unfold writable_abort_settled.
    pose proof (no_more_owed _ _ (project_no_more (settle (set_abort_running s rest) r
      (match er with None => Resolved | Some e => Rejected e end))
      (default 0 (writable_stream_stored_error (settle (set_abort_running s rest) r
      (match er with None => Resolved | Some e => Rejected e end)))))) as Hn.
    unfold owed in *. simpl in *. rewrite Er. simpl.
    destruct (awaiting s) as [o|] eqn:Ea; simpl in *; [|lia].
    destruct (queue_flight s o Hb) as (e & q & Eq); [by apply flight_awaiting|]. rewrite Eq in *.
    simpl in *. lia.
Qed.

(** A stream that waits for no answer has nothing left to do. *)
Lemma unanswered_settled s :
  inv s → s.(webidl) = true → (∀ ev, ¬ answers s ev) →
  s.(queue) = [] ∧ outstanding s = [] ∧ state_of s ≠ Erroring.
Proof.
  intros [Hb [Hl1 Hl2]] Hw Hn.
  assert (start_pending_slot s ≠ true) as Hst by apply (Hn (EStart None)).
  assert (flight s = None) as Hf.
  { unfold flight. destruct (invocation s) eqn:Ei; [|destruct (awaiting s) eqn:Ea; [|done]].
    - destruct (Hn (EReturned SinkPromise)). simpl. congruence.
    - destruct (Hn (ESettled None)). simpl. congruence. }
  assert (abort_running s = []) as Har.
  { destruct (abort_running s) eqn:E; [done|]. destruct (Hn (EAborted None)). simpl. congruence. }
  destruct (b_pump s Hb) as (_ & _ & Hz). rewrite (Hz Hw) in Hl1.
  assert (state_of s ≠ Erroring) as He by (intros He; destruct (Hl2 He Hw); done).
  assert (s.(queue) = []) as Hq.
  { destruct (terminal s) eqn:Ht; [by destruct (b_terminal s Hb Ht)|].
    destruct (state_nonterminal s Hb Ht) as [Hs|]; [|done].
    destruct (queue s) eqn:Eq; [done|]. destruct (Hl1 Hs ltac:(done)) as [?|[?|?]]; [done | done | lia]. }
  split_and!; [done | | done]. destruct (b_abort s Hb) as (Hpa & _ & Hcl).
  assert (pending_abort_slot s = None) as Hp.
  { destruct (pending_abort_slot s); [|done]. specialize (Hpa ltac:(done)). exfalso. apply He.
    rewrite state_of_cases, Hpa. destruct (b_slots s Hb) as [_ Hs].
    destruct (errored_slot s); [by rewrite Hs in Hpa | done]. }
  assert (pending_close s = None) as Hc.
  { destruct (closed_slot s) eqn:Ec; [by apply Hcl|]. destruct (errored_slot s) eqn:Ee.
    - by apply (b_projected s Hb).
    - pose proof (b_close s Hb) as Hx. unfold terminal in Hx. rewrite Ec, Ee, Hq in Hx.
      specialize (Hx eq_refl). by destruct (pending_close s). }
  unfold outstanding. by rewrite Hq, Hp, Hc, Har.
Qed.

(** The stream answered [n] times, with whatever answers, and nothing else. *)
Inductive answered : nat → stream → stream → Prop :=
  | answered_none s : answered 0 s s
  | answered_one n s ev s1 s' :
      answers s ev → step s ev = Ret s1 → answered n s1 s' → answered (S n) s s'.

Lemma answered_owed n s s' :
  answered n s s' → inv s → s.(webidl) = true →
  (n + owed s' ≤ owed s)%nat ∧ inv s' ∧ s'.(webidl) = true.
Proof.
  induction 1 as [|n s ev s1 s' Ha E _ IH]; intros Hi Hw; [by split_and!|].
  pose proof (answer_owed s ev s1 Hi Hw Ha E). pose proof (step_webidl s ev s1 E).
  destruct (step_ok s ev Hi) as (s2 & E2 & Hi2). rewrite E in E2. injection E2 as <-.
  destruct IH as (? & ? & ?); [done | congruence|]. split_and!; [lia | done | done].
Qed.

Lemma steps_webidl es : ∀ s, inv s → s.(webidl) = true →
  ∃ s', steps s es = Ret s' ∧ inv s' ∧ s'.(webidl) = true.
Proof.
  induction es as [|ev es IH]; intros s Hs Hw; simpl; [eauto|].
  destruct (step_ok s ev Hs) as (s1 & E & H1). rewrite E. simpl. apply IH; [done|].
  by rewrite (step_webidl s ev s1 E).
Qed.

(** C27: A stream over an author's sink comes to rest.  After any history it
    waits for a number of answers, [owed]: of the start promise, and for each
    queued operation and pending abort of the call and of its promise.  Once
    its users make no further calls, every such answer, fulfilled, rejected
    or thrown, is handled without a panic and lowers that number; and when no
    answer is waited for any more, which is after at most [owed] of them, the
    queue is empty, every promise handed out is settled, and the stream is
    not left between the two phases of an error. *)
Theorem writable_sink_live (hwm : f64) (es : list event) :
  ∃ s, steps (fresh hwm true) es = Ret s ∧
    ∀ n s', answered n s s' →
      (n + owed s' ≤ owed s)%nat ∧
      (∀ ev, ∃ s1, step s' ev = Ret s1 ∧ (answers s' ev → (owed s1 < owed s')%nat)) ∧
      ((∀ ev, ¬ answers s' ev) →
       s'.(queue) = [] ∧ outstanding s' = [] ∧ state_of s' ≠ Erroring).
Proof.
  destruct (steps_webidl es _ (fresh_inv hwm true) eq_refl) as (s & E & Hi & Hw).
  exists s. split; [done|]. intros n s' Ha.
  destruct (answered_owed n s s' Ha Hi Hw) as (Hn & Hi' & Hw'). split_and!; [done | |].
  - intros ev. destruct (step_ok s' ev Hi') as (s1 & E1 & _). exists s1. split; [done|].
    intros Hans. by apply (answer_owed s' ev).
  - by apply unanswered_settled.
Qed.

(** A browser-owned sink that answers synchronously can leave its stream
    between the two phases of an error: the stream is errored from inside the
    sink's [write], which then returns a plain value, and no pending event is
    left that finishes the error. *)
Lemma sync_write_strands_error :
  ∃ s, steps (fresh (of_N 1) false)
         [EStart None; EWrite 1 (inl (of_N 1)) true; EError 7; EReturned SinkValue] = Ret s ∧
    state_of s = Erroring ∧ s.(queue) = [] ∧ outstanding s = [] ∧
    ∀ er r, Forall (λ ev, step s ev = Ret s)
      [EStart er; EReturned r; ESettled er; EAborted er; EContinuation; EError 8].
Proof. eexists. split; [by vm_compute|]. by repeat constructor. Qed.
