(* ===== verification/StreamPipe.v ===== *)
(** [ReadableStreamPipeTo] (moli-streams, [pipe.rs]): the owner state of one
    pipe operation, its entry, drain, pull and shutdown plans, and every
    transition of its lifecycle.  The [u8] encodings are [N] with the masks
    and shifts of the code. *)
From stdpp Require Import base list numbers option relations.
From S2P Require Import Prelude Readable Writable.

#[local] Open Scope N_scope.

Notation ReadableState := Readable.ReadableState (only parsing).
Notation WritableState := Writable.WritableState (only parsing).

(** [!x] on a [u8]. *)
Definition not8 (x : N) : N := N.lxor 255 x.

(** ** Options *)
Module PipeOptions.

Record t := { prevent_close : bool; prevent_abort : bool; prevent_cancel : bool }.

#[global] Instance eq_dec : EqDecision t.
Proof. solve_decision. Defined.

Definition PREVENT_CLOSE : N := N.shiftl 1 0.
Definition PREVENT_ABORT : N := N.shiftl 1 1.
Definition PREVENT_CANCEL : N := N.shiftl 1 2.
Definition VALID_BITS : N := N.lor (N.lor PREVENT_CLOSE PREVENT_ABORT) PREVENT_CANCEL.

Definition bits (o : t) : N :=
  N.lor (N.lor (if o.(prevent_close) then PREVENT_CLOSE else 0)
               (if o.(prevent_abort) then PREVENT_ABORT else 0))
        (if o.(prevent_cancel) then PREVENT_CANCEL else 0).

Definition from_bits (bits : N) : option t :=
  if negb (N.land bits (not8 VALID_BITS) =? 0) then None
  else Some {| prevent_close := negb (N.land bits PREVENT_CLOSE =? 0);
               prevent_abort := negb (N.land bits PREVENT_ABORT =? 0);
               prevent_cancel := negb (N.land bits PREVENT_CANCEL =? 0) |}.

End PipeOptions.

(** ** Lifecycle *)
Inductive PipeShutdownStage :=
  WaitingForWritePublication | WaitingForLastWrite | RunningActions | Finalizing.

Inductive PipeWriteBarrier := BarrierNone | WaitForPublication | WaitForSettlement.

Inductive PipeTerminalTrigger :=
  SourceErrored | DestinationErrored | SourceClosed | DestinationClosed | Aborted.

Inductive PipeLifecycle :=
  | Active
  | ShuttingDown (stage : PipeShutdownStage) (trigger : PipeTerminalTrigger)
  | Finished.

Inductive PipeShutdownAction :=
  AbortDestination | CancelSource | CloseDestination | AbortDestinationAndCancelSource.

Inductive PipeShutdownOperation := Destination | Source.

#[global] Instance stage_eq_dec : EqDecision PipeShutdownStage.
Proof. solve_decision. Defined.
#[global] Instance trigger_eq_dec : EqDecision PipeTerminalTrigger.
Proof. solve_decision. Defined.
#[global] Instance lifecycle_eq_dec : EqDecision PipeLifecycle.
Proof. solve_decision. Defined.

Definition operation_bit (o : PipeShutdownOperation) : N :=
  match o with Destination => N.shiftl 1 0 | Source => N.shiftl 1 1 end.

(** ** Settlements: two settled bits, two rejected bits *)
Module Settlements.

Definition OPERATION_MASK : N := N.lor (operation_bit Destination) (operation_bit Source).
Definition REJECTED_SHIFT : N := 2.
Definition VALID_BITS : N := N.lor OPERATION_MASK (N.shiftl OPERATION_MASK REJECTED_SHIFT).

Definition settled_mask (bits : N) : N := N.land bits OPERATION_MASK.
Definition rejected_mask (bits : N) : N :=
  N.land (N.shiftr bits REJECTED_SHIFT) OPERATION_MASK.

Definition from_bits (bits : N) : option N :=
  if negb (N.land bits (not8 VALID_BITS) =? 0) then None
  else if negb (N.land (rejected_mask bits) (not8 (settled_mask bits)) =? 0) then None
  else Some bits.

Definition is_empty (bits : N) : bool := bits =? 0.
Definition is_settled (bits : N) (o : PipeShutdownOperation) : bool :=
  negb (N.land (settled_mask bits) (operation_bit o) =? 0).
Definition is_rejected (bits : N) (o : PipeShutdownOperation) : bool :=
  negb (N.land (rejected_mask bits) (operation_bit o) =? 0).

Definition settle (bits : N) (o : PipeShutdownOperation) (rejected : bool) : N :=
  let bits := N.lor bits (operation_bit o) in
  if rejected then N.lor bits (N.shiftl (operation_bit o) REJECTED_SHIFT) else bits.

End Settlements.
Import Settlements.

Definition operation_mask (a : PipeShutdownAction) : N :=
  match a with
  | AbortDestination | CloseDestination => operation_bit Destination
  | CancelSource => operation_bit Source
  | AbortDestinationAndCancelSource => N.lor (operation_bit Destination) (operation_bit Source)
  end.

Inductive PipeFinalSettlement :=
  | Resolve | RejectOriginal | RejectShutdownAction (operation : PipeShutdownOperation).

Inductive PipeAbortCleanup := CleanupNone | Unregister | ClearDispatching.

Record PipeFinalization := {
  settlement : PipeFinalSettlement; abort_cleanup : PipeAbortCleanup }.

Inductive AbortListenerState := ListenerNone | Registered | Aborting.

#[global] Instance listener_eq_dec : EqDecision AbortListenerState.
Proof. solve_decision. Defined.

(** ** The owner *)
Record PipeOwnerState := {
  lifecycle : PipeLifecycle;
  options : PipeOptions.t;
  drain_scheduled : bool;
  read_pending : bool;
  write_in_progress : bool;
  drain_yield_once : bool;
  abort_listener : AbortListenerState;
  shutdown_settlements : N }.

Definition owner_new (options : PipeOptions.t) : PipeOwnerState :=
  {| lifecycle := Active; options := options; drain_scheduled := false;
     read_pending := false; write_in_progress := false; drain_yield_once := false;
     abort_listener := ListenerNone; shutdown_settlements := 0 |}.

Definition terminal_trigger (s : PipeOwnerState) : option PipeTerminalTrigger :=
  match s.(lifecycle) with ShuttingDown _ trigger => Some trigger | _ => None end.

Definition is_active (s : PipeOwnerState) : bool :=
  match s.(lifecycle) with Active => true | _ => false end.

Definition is_waiting_for_write_publication (s : PipeOwnerState) : bool :=
  match s.(lifecycle) with ShuttingDown WaitingForWritePublication _ => true | _ => false end.

Definition shutdown_action (o : PipeOptions.t) (trigger : PipeTerminalTrigger)
    : option PipeShutdownAction :=
  let '(PipeOptions.Build_t prevent_close prevent_abort prevent_cancel) := o in
  match trigger with
  | SourceErrored => if negb prevent_abort then Some AbortDestination else None
  | DestinationErrored | DestinationClosed =>
      if negb prevent_cancel then Some CancelSource else None
  | SourceClosed => if negb prevent_close then Some CloseDestination else None
  | Aborted =>
      if negb prevent_abort && negb prevent_cancel then Some AbortDestinationAndCancelSource
      else if negb prevent_abort then Some AbortDestination
      else if negb prevent_cancel then Some CancelSource
      else None
  end.

Definition required_shutdown_action_mask (s : PipeOwnerState) : N :=
  match terminal_trigger s with
  | Some trigger =>
      match shutdown_action s.(options) trigger with
      | Some action => operation_mask action
      | None => 0
      end
  | None => 0
  end.

Definition remaining_shutdown_action_mask (s : PipeOwnerState) : N :=
  N.land (required_shutdown_action_mask s) (not8 (settled_mask s.(shutdown_settlements))).

Definition storage_invariants_hold (s : PipeOwnerState) : bool :=
  match s.(lifecycle) with
  | Active => is_empty s.(shutdown_settlements)
  | ShuttingDown stage _ =>
      if s.(drain_scheduled) || s.(read_pending) || s.(drain_yield_once) then false
      else
        match stage with
        | WaitingForWritePublication =>
            s.(write_in_progress) && is_empty s.(shutdown_settlements)
        | WaitingForLastWrite =>
            negb s.(write_in_progress) && is_empty s.(shutdown_settlements)
        | RunningActions =>
            let required := required_shutdown_action_mask s in
            negb s.(write_in_progress) && negb (required =? 0)
            && (N.land (settled_mask s.(shutdown_settlements)) (not8 required) =? 0)
            && negb (remaining_shutdown_action_mask s =? 0)
        | Finalizing =>
            let required := required_shutdown_action_mask s in
            negb s.(write_in_progress) && negb (required =? 0)
            && (settled_mask s.(shutdown_settlements) =? required)
            && (rejected_mask s.(shutdown_settlements) =? 0)
        end
  | Finished =>
      negb s.(drain_scheduled) && negb s.(read_pending) && negb s.(write_in_progress)
      && negb s.(drain_yield_once) && bool_decide (s.(abort_listener) = ListenerNone)
      && is_empty s.(shutdown_settlements)
  end.

Definition owner_from_storage (lifecycle : PipeLifecycle) (options : PipeOptions.t)
    (drain_scheduled read_pending write_in_progress drain_yield_once : bool)
    (abort_listener : AbortListenerState) (shutdown_settlements : N)
    : option PipeOwnerState :=
  let state :=
    {| lifecycle := lifecycle; options := options; drain_scheduled := drain_scheduled;
       read_pending := read_pending; write_in_progress := write_in_progress;
       drain_yield_once := drain_yield_once; abort_listener := abort_listener;
       shutdown_settlements := shutdown_settlements |} in
  if storage_invariants_hold state then Some state else None.

(** ** Plans *)
Inductive PipeChunkSize := ChunkZero | ChunkStrategy.

Definition fulfills_pending_read (c : PipeChunkSize) : bool :=
  match c with ChunkZero => true | ChunkStrategy => false end.

Inductive PipeIncomingChunkPlan := NotPiped | EnqueueAndSchedule (size : PipeChunkSize).

Definition plan_incoming_chunk (s : PipeOwnerState) : PipeIncomingChunkPlan :=
  if negb (is_active s) then NotPiped
  else if s.(read_pending) then EnqueueAndSchedule ChunkZero
  else EnqueueAndSchedule ChunkStrategy.

Definition has_pull_demand (s : PipeOwnerState) (source_has_capacity : bool) : bool :=
  is_active s && (s.(read_pending) || source_has_capacity).

Record PipePullObservation := {
  pull_source_state : ReadableState;
  source_queue_empty : bool;
  destination_has_capacity : bool }.

Inductive PipePullPlan := PullStop | BlockedByDestination | MarkReadPendingAndPull | PullContinue.

Definition plan_before_pull (s : PipeOwnerState) (o : PipePullObservation) : PipePullPlan :=
  if negb (is_active s) then PullStop
  else if negb (Readable.is_readable o.(pull_source_state)) then PullContinue
  else if negb o.(destination_has_capacity) then BlockedByDestination
  else if o.(source_queue_empty) then MarkReadPendingAndPull
  else PullContinue.

Record PipeDestinationObservation := {
  destination_state : WritableState; destination_close_requested : bool }.

Record PipeEndpointObservation := {
  endpoint_source_state : ReadableState;
  endpoint_destination : PipeDestinationObservation }.

Inductive PipeInitialTerminalPlan :=
  InitialStop | InitialContinue | InitialClaim (trigger : PipeTerminalTrigger).

(** The endpoint triggers are the terminal triggers other than [Aborted]. *)
Definition plan_initial_terminal (s : PipeOwnerState) (o : PipeEndpointObservation)
    : PipeInitialTerminalPlan :=
  let d := o.(endpoint_destination) in
  if negb (is_active s) then InitialStop
  else if bool_decide (o.(endpoint_source_state) = Readable.Errored) then
    InitialClaim SourceErrored
  else if bool_decide (d.(destination_state) = Writable.Errored) then
    InitialClaim DestinationErrored
  else if bool_decide (o.(endpoint_source_state) = Readable.Closed) then
    InitialClaim SourceClosed
  else if d.(destination_close_requested)
          || bool_decide (d.(destination_state) = Writable.Closed) then
    InitialClaim DestinationClosed
  else InitialContinue.

Inductive PipeShutdownOperationObservation :=
  | ObserveAbortDestination (destination_state : WritableState)
  | ObserveCancelSource (source_state : ReadableState).

Inductive PipeShutdownOperationPlan := OperationRun | FulfillWithoutRunning.

Definition plan_shutdown_operation (s : PipeOwnerState)
    (o : PipeShutdownOperationObservation) : PipeShutdownOperationPlan :=
  match o with
  | ObserveAbortDestination state =>
      if bool_decide (terminal_trigger s = Some Aborted)
         && negb (bool_decide (state = Writable.Writable))
      then FulfillWithoutRunning else OperationRun
  | ObserveCancelSource state =>
      if negb (Readable.is_readable state) then FulfillWithoutRunning else OperationRun
  end.

Inductive PipeEntryPlan := EntryStart | RejectSourceLocked | RejectDestinationLocked.

Definition entry_plan (source_locked destination_locked : bool) : PipeEntryPlan :=
  if source_locked then RejectSourceLocked
  else if destination_locked then RejectDestinationLocked
  else EntryStart.

(** ** Transitions *)
Inductive PipeAdmission := Applied | Ignored.

Record PipeTransition (C : Type) := {
  source : PipeOwnerState;
  next : PipeOwnerState;
  admission : PipeAdmission;
  command : option C }.
Arguments source {C}. Arguments next {C}. Arguments admission {C}. Arguments command {C}.

Definition ignored {C} (s : PipeOwnerState) : PipeTransition C :=
  {| source := s; next := s; admission := Ignored; command := None |}.

Definition applied {C} (s n : PipeOwnerState) (c : option C) : PipeTransition C :=
  {| source := s; next := n; admission := Applied; command := c |}.

Inductive PipeOwnerMutation :=
  | MarkReadPending | IncomingChunk | BeginWrite | AbandonWrite
  | SetDrainBarrier | ClearDrainBarrier | AbortListenerRegistered | AbortDispatchStarted.

Inductive PipeDrainEvent := DrainSchedule | DrainCallback.
Inductive PipeDrainCommand := DrainEnqueue | DrainRun.

Inductive PipeShutdownEvent :=
  | ClaimTerminal (trigger : PipeTerminalTrigger) (destination : PipeDestinationObservation)
  | LastWriteSettled
  | ActionFulfilled (operation : PipeShutdownOperation)
  | ActionRejected (operation : PipeShutdownOperation)
  | Finalize.

Inductive PipeShutdownCommand :=
  | WaitForLastWrite
  | RunActions (action : PipeShutdownAction)
  | EnqueueFinalize
  | CommandFinalize (finalization : PipeFinalization).

Inductive PipeWritePublicationCommand := StoreLastWrite | StoreLastWriteAndWait.

(** Field updates. *)
Definition with_flags (s : PipeOwnerState) (drain read write yield : bool) : PipeOwnerState :=
  {| lifecycle := s.(lifecycle); options := s.(options); drain_scheduled := drain;
     read_pending := read; write_in_progress := write; drain_yield_once := yield;
     abort_listener := s.(abort_listener); shutdown_settlements := s.(shutdown_settlements) |}.

Definition with_lifecycle (s : PipeOwnerState) (l : PipeLifecycle) : PipeOwnerState :=
  {| lifecycle := l; options := s.(options); drain_scheduled := s.(drain_scheduled);
     read_pending := s.(read_pending); write_in_progress := s.(write_in_progress);
     drain_yield_once := s.(drain_yield_once); abort_listener := s.(abort_listener);
     shutdown_settlements := s.(shutdown_settlements) |}.

Definition with_listener (s : PipeOwnerState) (a : AbortListenerState) : PipeOwnerState :=
  {| lifecycle := s.(lifecycle); options := s.(options);
     drain_scheduled := s.(drain_scheduled); read_pending := s.(read_pending);
     write_in_progress := s.(write_in_progress); drain_yield_once := s.(drain_yield_once);
     abort_listener := a; shutdown_settlements := s.(shutdown_settlements) |}.

Definition with_settlements (s : PipeOwnerState) (b : N) : PipeOwnerState :=
  {| lifecycle := s.(lifecycle); options := s.(options);
     drain_scheduled := s.(drain_scheduled); read_pending := s.(read_pending);
     write_in_progress := s.(write_in_progress); drain_yield_once := s.(drain_yield_once);
     abort_listener := s.(abort_listener); shutdown_settlements := b |}.

Definition begin_write (s : PipeOwnerState) : PipeTransition Empty_set :=
  if negb (is_active s) || s.(write_in_progress) then ignored s
  else applied s (with_flags s s.(drain_scheduled) s.(read_pending) true s.(drain_yield_once))
         None.

Definition abandon_write (s : PipeOwnerState) : PipeTransition Empty_set :=
  if negb s.(write_in_progress) || is_waiting_for_write_publication s then ignored s
  else applied s (with_flags s s.(drain_scheduled) s.(read_pending) false s.(drain_yield_once))
         None.

Definition transition_mutation (s : PipeOwnerState) (m : PipeOwnerMutation)
    : PipeTransition Empty_set :=
  let when_active next := if negb (is_active s) then ignored s else applied s next None in
  match m with
  | MarkReadPending =>
      when_active (with_flags s s.(drain_scheduled) true s.(write_in_progress)
                     s.(drain_yield_once))
  | IncomingChunk =>
      when_active (with_flags s s.(drain_scheduled) false s.(write_in_progress)
                     s.(drain_yield_once))
  | BeginWrite => begin_write s
  | AbandonWrite => abandon_write s
  | SetDrainBarrier =>
      when_active (with_flags s s.(drain_scheduled) s.(read_pending) s.(write_in_progress) true)
  | ClearDrainBarrier =>
      when_active (with_flags s s.(drain_scheduled) s.(read_pending) s.(write_in_progress) false)
  | AbortListenerRegistered => when_active (with_listener s Registered)
  | AbortDispatchStarted => when_active (with_listener s Aborting)
  end.

Definition schedule_drain (s : PipeOwnerState) : PipeTransition PipeDrainCommand :=
  if negb (is_active s) then ignored s
  else if s.(drain_scheduled) then applied s s None
  else applied s (with_flags s true s.(read_pending) s.(write_in_progress) s.(drain_yield_once))
         (Some DrainEnqueue).

Definition begin_drain (s : PipeOwnerState) : PipeTransition PipeDrainCommand :=
  if negb (is_active s) || negb s.(drain_scheduled) then ignored s
  else if s.(drain_yield_once) then
    applied s (with_flags s s.(drain_scheduled) s.(read_pending) s.(write_in_progress) false)
      (Some DrainEnqueue)
  else applied s (with_flags s false s.(read_pending) s.(write_in_progress) s.(drain_yield_once))
         (Some DrainRun).

Definition transition_drain (s : PipeOwnerState) (e : PipeDrainEvent)
    : PipeTransition PipeDrainCommand :=
  match e with DrainSchedule => schedule_drain s | DrainCallback => begin_drain s end.

Definition publish_last_write (s : PipeOwnerState)
    : PipeTransition PipeWritePublicationCommand :=
  if negb s.(write_in_progress) then ignored s
  else
    let n := with_flags s s.(drain_scheduled) s.(read_pending) false s.(drain_yield_once) in
    match s.(lifecycle) with
    | Active => applied s n (Some StoreLastWrite)
    | ShuttingDown WaitingForWritePublication trigger =>
        applied s (with_lifecycle n (ShuttingDown WaitingForLastWrite trigger))
          (Some StoreLastWriteAndWait)
    | _ => applied s n None
    end.

Definition write_barrier (s : PipeOwnerState) (d : PipeDestinationObservation)
    : PipeWriteBarrier :=
  if negb (bool_decide (d.(destination_state) = Writable.Writable))
     || d.(destination_close_requested) then BarrierNone
  else if s.(write_in_progress) then WaitForPublication
  else WaitForSettlement.

Definition original_settlement (trigger : PipeTerminalTrigger) : PipeFinalSettlement :=
  match trigger with SourceClosed => Resolve | _ => RejectOriginal end.

Definition finalization (s : PipeOwnerState) (settlement : PipeFinalSettlement)
    : PipeFinalization :=
  {| settlement := settlement;
     abort_cleanup := match s.(abort_listener) with
                      | ListenerNone => CleanupNone
                      | Registered => Unregister
                      | Aborting => ClearDispatching
                      end |}.

Definition finish (s : PipeOwnerState) : PipeOwnerState :=
  {| lifecycle := Finished; options := s.(options); drain_scheduled := false;
     read_pending := false; write_in_progress := false; drain_yield_once := false;
     abort_listener := ListenerNone; shutdown_settlements := 0 |}.

Definition finalize_with (s n : PipeOwnerState) (settlement : PipeFinalSettlement)
    : PipeTransition PipeShutdownCommand :=
  applied s (finish n) (Some (CommandFinalize (finalization n settlement))).

Definition claim_terminal (s : PipeOwnerState) (trigger : PipeTerminalTrigger)
    (barrier : PipeWriteBarrier) : PipeTransition PipeShutdownCommand :=
  if negb (is_active s) then ignored s
  else
    let action := shutdown_action s.(options) trigger in
    let stage := match barrier with
                 | BarrierNone => RunningActions
                 | WaitForPublication => WaitingForWritePublication
                 | WaitForSettlement => WaitingForLastWrite
                 end in
    let write := match barrier with WaitForPublication => s.(write_in_progress) | _ => false end in
    let n := with_settlements
               (with_lifecycle (with_flags s false false write false)
                  (ShuttingDown stage trigger)) 0 in
    match barrier with
    | WaitForPublication => applied s n None
    | WaitForSettlement => applied s n (Some WaitForLastWrite)
    | BarrierNone =>
        match action with
        | None => finalize_with s n (original_settlement trigger)
        | Some action => applied s n (Some (RunActions action))
        end
    end.

Definition last_write_settled (s : PipeOwnerState) : PipeTransition PipeShutdownCommand :=
  match s.(lifecycle) with
  | ShuttingDown WaitingForLastWrite trigger =>
      let n := with_lifecycle s (ShuttingDown RunningActions trigger) in
      match shutdown_action s.(options) trigger with
      | None => finalize_with s n (original_settlement trigger)
      | Some action => applied s n (Some (RunActions action))
      end
  | _ => ignored s
  end.

Definition shutdown_action_settled (s : PipeOwnerState) (operation : PipeShutdownOperation)
    (rejected : bool) : PipeTransition PipeShutdownCommand :=
  match s.(lifecycle) with
  | ShuttingDown RunningActions trigger =>
      match shutdown_action s.(options) trigger with
      | None => ignored s
      | Some action =>
          if (N.land (operation_mask action) (operation_bit operation) =? 0)
             || is_settled s.(shutdown_settlements) operation then ignored s
          else
            let n := with_settlements s (settle s.(shutdown_settlements) operation rejected) in
            if negb (remaining_shutdown_action_mask n =? 0) then applied s n None
            else if is_rejected n.(shutdown_settlements) Destination then
              finalize_with s n (RejectShutdownAction Destination)
            else if is_rejected n.(shutdown_settlements) Source then
              finalize_with s n (RejectShutdownAction Source)
            else applied s (with_lifecycle n (ShuttingDown Finalizing trigger))
                   (Some EnqueueFinalize)
      end
  | _ => ignored s
  end.

Definition finalize_original (s : PipeOwnerState) : PipeTransition PipeShutdownCommand :=
  match s.(lifecycle) with
  | ShuttingDown Finalizing trigger => finalize_with s s (original_settlement trigger)
  | _ => ignored s
  end.

Definition transition_shutdown (s : PipeOwnerState) (e : PipeShutdownEvent)
    : PipeTransition PipeShutdownCommand :=
  match e with
  | ClaimTerminal trigger destination => claim_terminal s trigger (write_barrier s destination)
  | LastWriteSettled => last_write_settled s
  | ActionFulfilled operation => shutdown_action_settled s operation false
  | ActionRejected operation => shutdown_action_settled s operation true
  | Finalize => finalize_original s
  end.

(** ** Histories *)
Inductive event :=
  | EMutation (m : PipeOwnerMutation)
  | EDrain (e : PipeDrainEvent)
  | EPublish
  | EShutdown (e : PipeShutdownEvent).

Definition step (s : PipeOwnerState) (ev : event) : PipeOwnerState :=
  match ev with
  | EMutation m => (transition_mutation s m).(next)
  | EDrain e => (transition_drain s e).(next)
  | EPublish => (publish_last_write s).(next)
  | EShutdown e => (transition_shutdown s e).(next)
  end.

(** The admitted claims and settlements and the shutdown commands issued. *)
Record log := {
  claims : list PipeTerminalTrigger;
  settlements : list (PipeShutdownOperation * bool);
  commands : list PipeShutdownCommand }.

Definition empty_log : log := {| claims := []; settlements := []; commands := [] |}.

Definition record_event (h : log) (e : PipeShutdownEvent) (t : PipeTransition PipeShutdownCommand)
    : log :=
  match t.(admission) with
  | Ignored => h
  | Applied =>
      {| claims := h.(claims) ++ match e with ClaimTerminal trigger _ => [trigger] | _ => [] end;
         settlements := h.(settlements) ++
           match e with
           | ActionFulfilled o => [(o, false)]
           | ActionRejected o => [(o, true)]
           | _ => []
           end;
         commands := h.(commands) ++ option_list t.(command) |}
  end.

Definition step_log (sh : PipeOwnerState * log) (ev : event) : PipeOwnerState * log :=
  (step sh.1 ev,
   match ev with EShutdown e => record_event sh.2 e (transition_shutdown sh.1 e) | _ => sh.2 end).

Definition run_events (sh : PipeOwnerState * log) (es : list event) : PipeOwnerState * log :=
  fold_left step_log es sh.

(** ** The stored state is always well formed *)

Definition valid_settlements : list N := [0; 1; 2; 3; 5; 7; 10; 11; 15].

Lemma valid_settlements_from_bits b : b ∈ valid_settlements → from_bits b = Some b.
Proof.
  unfold valid_settlements. rewrite !elem_of_cons, elem_of_nil. intros H.
  by destruct_or!; subst.
Qed.

Definition valid (s : PipeOwnerState) : Prop :=
  storage_invariants_hold s = true ∧ s.(shutdown_settlements) ∈ valid_settlements.

Lemma zero_valid : 0 ∈ valid_settlements.
Proof. by left. Qed.

Lemma finish_valid s : valid (finish s).
Proof. split; [done | apply zero_valid]. Qed.

Lemma valid_from_storage s :
  valid s →
  owner_from_storage s.(lifecycle) s.(options) s.(drain_scheduled) s.(read_pending)
    s.(write_in_progress) s.(drain_yield_once) s.(abort_listener) s.(shutdown_settlements)
  = Some s ∧ from_bits s.(shutdown_settlements) = Some s.(shutdown_settlements).
Proof.
  intros [H1 H2]. split; [|by apply valid_settlements_from_bits].
  unfold owner_from_storage. destruct s as [l o d r w y a b]. simpl in *. by rewrite H1.
Qed.

(** What the invariant says of a shutdown. *)
Lemma valid_shutting_down s stage trigger :
  valid s → s.(lifecycle) = ShuttingDown stage trigger →
  s.(drain_scheduled) = false ∧ s.(read_pending) = false ∧ s.(drain_yield_once) = false ∧
  s.(write_in_progress) = bool_decide (stage = WaitingForWritePublication).
Proof.
  intros [H _] E. unfold storage_invariants_hold in H. rewrite E in H.
  destruct (drain_scheduled s), (read_pending s), (drain_yield_once s); try done; simpl in H.
  split_and!; try done. destruct stage; simpl; destruct (write_in_progress s); done.
Qed.

Lemma valid_active s : valid s → s.(lifecycle) = Active → s.(shutdown_settlements) = 0.
Proof.
  intros [H _] E. unfold storage_invariants_hold in H. rewrite E in H.
  by apply N.eqb_eq in H.
Qed.

Lemma valid_waiting s stage trigger :
  valid s → s.(lifecycle) = ShuttingDown stage trigger →
  stage = WaitingForWritePublication ∨ stage = WaitingForLastWrite →
  s.(shutdown_settlements) = 0.
Proof.
  intros Hv E Hs. destruct (valid_shutting_down s _ _ Hv E) as (H1 & H2 & H3 & H4).
  destruct Hv as [H _]. unfold storage_invariants_hold in H. rewrite E, H1, H2, H3, H4 in H.
  by destruct Hs as [-> | ->]; apply N.eqb_eq in H.
Qed.

(** Running with no settlement yet. *)
Lemma start_running_valid s trigger action :
  s.(lifecycle) = ShuttingDown RunningActions trigger →
  shutdown_action s.(options) trigger = Some action →
  s.(drain_scheduled) = false → s.(read_pending) = false → s.(drain_yield_once) = false →
  s.(write_in_progress) = false → s.(shutdown_settlements) = 0 → valid s.
Proof.
  intros E Ha H1 H2 H3 H4 H5. split; [|rewrite H5; apply zero_valid].
  unfold storage_invariants_hold, remaining_shutdown_action_mask, required_shutdown_action_mask,
    terminal_trigger. rewrite E, Ha, H1, H2, H3, H4, H5. by destruct action.
Qed.

Lemma mutation_valid s m : valid s → valid (step s (EMutation m)).
Proof.
  intros Hv. pose proof Hv as [_ Hb]. simpl. unfold transition_mutation, begin_write, abandon_write.
  destruct (lifecycle s) as [|stage trigger|] eqn:E.
  - pose proof (valid_active s Hv E) as Hz.
    unfold is_active, is_waiting_for_write_publication. rewrite E.
    destruct m; simpl; try case_match; simpl; try done;
      (split; [unfold storage_invariants_hold; simpl; by rewrite E, Hz | done]).
  - destruct (valid_shutting_down s _ _ Hv E) as (_ & _ & _ & Hw).
    unfold is_active, is_waiting_for_write_publication. rewrite E, Hw.
    destruct m; simpl; try done. destruct stage; done.
  - assert (write_in_progress s = false) as Hw.
    { destruct Hv as [H _]. unfold storage_invariants_hold in H. rewrite E in H.
      by destruct (drain_scheduled s), (read_pending s), (write_in_progress s). }
    unfold is_active. rewrite E, Hw. by destruct m.
Qed.

Lemma drain_valid s e : valid s → valid (step s (EDrain e)).
Proof.
  intros Hv. pose proof Hv as [_ Hb]. simpl. unfold transition_drain, schedule_drain, begin_drain.
  unfold is_active. destruct (lifecycle s) as [|stage trigger|] eqn:E; [|by destruct e..].
  pose proof (valid_active s Hv E) as Hz.
  destruct e; simpl; repeat (case_match; simpl); try done;
    (split; [unfold storage_invariants_hold; simpl; by rewrite E, Hz | done]).
Qed.

Lemma publish_valid s : valid s → valid (step s EPublish).
Proof.
  intros Hv. pose proof Hv as [Hi Hb]. simpl. unfold publish_last_write.
  destruct (write_in_progress s) eqn:Hw; simpl; [|done].
  destruct (lifecycle s) as [|stage trigger|] eqn:E.
  - pose proof (valid_active s Hv E) as Hz.
    split; [unfold storage_invariants_hold; simpl; by rewrite E, Hz | done].
  - destruct (valid_shutting_down s _ _ Hv E) as (H1 & H2 & H3 & H4). rewrite Hw in H4.
    destruct stage; try done. simpl.
    pose proof (valid_waiting s _ _ Hv E (or_introl eq_refl)) as Hz.
    split; [unfold storage_invariants_hold; simpl; by rewrite H1, H2, H3, Hz | done].
  - unfold storage_invariants_hold in Hi. rewrite E, Hw in Hi.
    by destruct (drain_scheduled s), (read_pending s).
Qed.

Lemma claim_valid s trigger d : valid s → valid (step s (EShutdown (ClaimTerminal trigger d))).
Proof.
  intros Hv. simpl. unfold claim_terminal, is_active.
  destruct (lifecycle s) eqn:E; simpl; [|done..].
  unfold write_barrier. destruct (_ || destination_close_requested d); simpl.
  - destruct (shutdown_action (options s) trigger) as [a|] eqn:Ea; simpl; [|apply finish_valid].
    by eapply start_running_valid.
  - destruct (write_in_progress s) eqn:Hw; simpl; (split; [|apply zero_valid]);
      unfold storage_invariants_hold; simpl; rewrite ?Hw; done.
Qed.

Lemma last_write_valid s : valid s → valid (step s (EShutdown LastWriteSettled)).
Proof.
  intros Hv. simpl. unfold last_write_settled.
  destruct (lifecycle s) as [|[] trigger|] eqn:E; simpl; try done.
  destruct (valid_shutting_down s _ _ Hv E) as (H1 & H2 & H3 & H4).
  pose proof (valid_waiting s _ _ Hv E (or_intror eq_refl)) as Hz.
  destruct (shutdown_action (options s) trigger) as [a|] eqn:Ea; simpl; [|apply finish_valid].
  by eapply start_running_valid.
Qed.

(** While actions run, nothing has settled, or one of two has. *)
Lemma running_bits s trigger :
  valid s → s.(lifecycle) = ShuttingDown RunningActions trigger →
  ∃ action, shutdown_action s.(options) trigger = Some action ∧
    (s.(shutdown_settlements) = 0 ∨
     (action = AbortDestinationAndCancelSource ∧
      ∃ o r, s.(shutdown_settlements) = settle 0 o r)).
Proof.
  intros Hv E. destruct (valid_shutting_down s _ _ Hv E) as (H1 & H2 & H3 & H4).
  destruct Hv as [H Hb]. unfold storage_invariants_hold, remaining_shutdown_action_mask,
    required_shutdown_action_mask, terminal_trigger in H. rewrite E, H1, H2, H3, H4 in H.
  simpl in H. destruct (shutdown_action (options s) trigger) as [a|]; [|done].
  exists a. split; [done|]. unfold valid_settlements in Hb.
  rewrite !elem_of_cons, elem_of_nil in Hb.
  destruct_or! Hb; rewrite Hb in *; destruct a; try done; try (by left); right;
    (split; [done|]).
  - by exists Destination, false.
  - by exists Source, false.
  - by exists Destination, true.
  - by exists Source, true.
Qed.

(** The settlement of one action: refused, recorded with the other still
    out, or the last one. *)
Lemma action_settled_cases s trigger o r :
  valid s → s.(lifecycle) = ShuttingDown RunningActions trigger →
  let t := shutdown_action_settled s o r in
  t = ignored s ∨
  (shutdown_action s.(options) trigger = Some AbortDestinationAndCancelSource ∧
   s.(shutdown_settlements) = 0 ∧ t = applied s (with_settlements s (settle 0 o r)) None) ∨
  (∃ n settlement, t = finalize_with s n settlement ∧
     (is_rejected (settle s.(shutdown_settlements) o r) Destination = true ∧
      settlement = RejectShutdownAction Destination ∨
      is_rejected (settle s.(shutdown_settlements) o r) Destination = false ∧
      is_rejected (settle s.(shutdown_settlements) o r) Source = true ∧
      settlement = RejectShutdownAction Source)) ∨
  (is_rejected (settle s.(shutdown_settlements) o r) Destination = false ∧
   is_rejected (settle s.(shutdown_settlements) o r) Source = false ∧
   t = applied s (with_lifecycle (with_settlements s (settle s.(shutdown_settlements) o r))
                    (ShuttingDown Finalizing trigger)) (Some EnqueueFinalize) ∧
   valid (t.(next))).
Proof.
  intros Hv E. destruct (running_bits s trigger Hv E) as (a & Ha & Hb).
  destruct (valid_shutting_down s _ _ Hv E) as (H1 & H2 & H3 & H4).
  unfold shutdown_action_settled, remaining_shutdown_action_mask, required_shutdown_action_mask,
    terminal_trigger. simpl. rewrite E, Ha.
  assert (∀ b, b ∈ valid_settlements → settled_mask b = operation_mask a → rejected_mask b = 0 →
    valid (with_lifecycle (with_settlements s b) (ShuttingDown Finalizing trigger))) as Hfin.
  { intros b Hvb Hsm Hrm. split; [|done]. unfold storage_invariants_hold,
      required_shutdown_action_mask, terminal_trigger. simpl.
    rewrite H1, H2, H3, H4, Ha, Hsm, Hrm. by destruct a. }
  unfold valid_settlements in Hfin.
  destruct Hb as [Hz|(-> & o' & r' & Hz)]; rewrite Hz;
    [destruct a, o, r | destruct o, r, o', r'];
    (try (by left)); right; (try (by left)); right;
    (try (by left; eexists _, _; split; [reflexivity|]; auto)); right;
    (split; [done|]; split; [done|]; split; [reflexivity|]);
    apply Hfin; try done; rewrite !elem_of_cons; simpl; auto 12.
Qed.

Lemma action_settled_valid s o r : valid s → valid ((shutdown_action_settled s o r).(next)).
Proof.
  intros Hv. destruct (lifecycle s) as [|[] trigger|] eqn:E;
    try (unfold shutdown_action_settled; by rewrite E).
  destruct (valid_shutting_down s _ _ Hv E) as (H1 & H2 & H3 & H4).
  destruct (action_settled_cases s trigger o r Hv E)
    as [->|[(Ha & Hz & ->)|[(n & st & -> & _)|(_ & _ & _ & H)]]]; simpl;
    [done | | apply finish_valid | done].
  split; [|destruct o, r; unfold valid_settlements; rewrite !elem_of_cons; simpl; auto 12].
  unfold storage_invariants_hold, remaining_shutdown_action_mask, required_shutdown_action_mask,
    terminal_trigger. simpl. rewrite E, H1, H2, H3, H4. simpl. rewrite Ha. by destruct o, r.
Qed.

Lemma finalize_valid s : valid s → valid ((finalize_original s).(next)).
Proof.
  intros Hv. unfold finalize_original.
  destruct (lifecycle s) as [|[] trigger|]; try done. apply finish_valid.
Qed.

Lemma step_valid s ev : valid s → valid (step s ev).
Proof.
  intros Hv. destruct ev as [m|e| |[trigger d| |o|o|]].
  - by apply mutation_valid.
  - by apply drain_valid.
  - by apply publish_valid.
  - by apply claim_valid.
  - by apply last_write_valid.
  - by apply (action_settled_valid s o false).
  - by apply (action_settled_valid s o true).
  - by apply finalize_valid.
Qed.

Lemma new_valid opts : valid (owner_new opts).
Proof. split; [done | apply zero_valid]. Qed.

Lemma run_valid sh es : valid sh.1 → valid (run_events sh es).1.
Proof.
  revert sh. induction es as [|ev es IH]; intros sh Hv; simpl; [done|].
  apply IH. by apply step_valid.
Qed.

(** C30: Every owner state a pipe can reach is storable: whatever sequence of
    mutations, drain callbacks, write publications and shutdown events
    happens, the primitive fields written to storage decode to the same state
    ([from_storage] checks the lifecycle invariants), and the two bit sets
    (options and settlements) decode to themselves. *)
Theorem pipe_state_storable (opts : PipeOptions.t) (es : list event) :
  let s := (run_events (owner_new opts, empty_log) es).1 in
  owner_from_storage s.(lifecycle) s.(options) s.(drain_scheduled) s.(read_pending)
    s.(write_in_progress) s.(drain_yield_once) s.(abort_listener) s.(shutdown_settlements)
  = Some s ∧
  from_bits s.(shutdown_settlements) = Some s.(shutdown_settlements) ∧
  PipeOptions.from_bits (PipeOptions.bits opts) = Some opts.
Proof.
  intros s. assert (valid s) as Hv by apply run_valid, new_valid.
  destruct (valid_from_storage s Hv) as [H1 H2]. split_and!; [done | done |].
  by destruct opts as [[] [] []].
Qed.

(** ** The outcome *)

Definition required_operations (o : PipeOptions.t) (trigger : PipeTerminalTrigger)
    : list PipeShutdownOperation :=
  match shutdown_action o trigger with
  | None => []
  | Some AbortDestination | Some CloseDestination => [Destination]
  | Some CancelSource => [Source]
  | Some AbortDestinationAndCancelSource => [Destination; Source]
  end.

Definition rejected_in (o : PipeShutdownOperation)
    (l : list (PipeShutdownOperation * bool)) : bool :=
  existsb (λ x, match o, x with
                | Destination, (Destination, true) | Source, (Source, true) => true
                | _, _ => false
                end) l.

(** What the pipe's promise must do: the rejected destination action first,
    then the rejected source action, then the trigger's own settlement. *)
Definition expected (trigger : PipeTerminalTrigger)
    (l : list (PipeShutdownOperation * bool)) : PipeFinalSettlement :=
  if rejected_in Destination l then RejectShutdownAction Destination
  else if rejected_in Source l then RejectShutdownAction Source
  else original_settlement trigger.

Definition finals (cs : list PipeShutdownCommand) : list PipeFinalSettlement :=
  omap (λ c, match c with CommandFinalize f => Some f.(settlement) | _ => None end) cs.

Definition started (cs : list PipeShutdownCommand) : list PipeShutdownAction :=
  omap (λ c, match c with RunActions a => Some a | _ => None end) cs.

Definition agrees (opts : PipeOptions.t) (s : PipeOwnerState) (h : log) : Prop :=
  s.(options) = opts ∧
  match s.(lifecycle) with
  | Active => h = empty_log
  | ShuttingDown stage trigger =>
      h.(claims) = [trigger] ∧ finals h.(commands) = [] ∧
      match stage with
      | WaitingForWritePublication | WaitingForLastWrite =>
          h.(settlements) = [] ∧ started h.(commands) = []
      | RunningActions =>
          started h.(commands) = option_list (shutdown_action opts trigger) ∧
          (h.(settlements) = [] ∧ s.(shutdown_settlements) = 0 ∨
           ∃ o r, h.(settlements) = [(o, r)] ∧ s.(shutdown_settlements) = settle 0 o r)
      | Finalizing =>
          started h.(commands) = option_list (shutdown_action opts trigger) ∧
          h.(settlements).*1 ≡ₚ required_operations opts trigger ∧
          expected trigger h.(settlements) = original_settlement trigger
      end
  | Finished =>
      ∃ trigger, h.(claims) = [trigger] ∧
        started h.(commands) = option_list (shutdown_action opts trigger) ∧
        h.(settlements).*1 ≡ₚ required_operations opts trigger ∧
        finals h.(commands) = [expected trigger h.(settlements)]
  end.

(** Only the lifecycle, the options and the settlements matter. *)
Lemma agrees_ext opts s s' h :
  s'.(lifecycle) = s.(lifecycle) → s'.(options) = s.(options) →
  s'.(shutdown_settlements) = s.(shutdown_settlements) → agrees opts s h → agrees opts s' h.
Proof. unfold agrees. by intros -> -> ->. Qed.

Lemma mutation_agrees opts s m h : agrees opts s h → agrees opts (step s (EMutation m)) h.
Proof.
  apply agrees_ext; simpl; unfold transition_mutation, begin_write, abandon_write;
    destruct m; simpl; by case_match.
Qed.

Lemma drain_agrees opts s e h : agrees opts s h → agrees opts (step s (EDrain e)) h.
Proof.
  apply agrees_ext; simpl; unfold transition_drain, schedule_drain, begin_drain;
    destruct e; by repeat case_match.
Qed.

Lemma publish_agrees opts s h : agrees opts s h → agrees opts (step s EPublish) h.
Proof.
  simpl. unfold publish_last_write. destruct (write_in_progress s); [|done].
  destruct (lifecycle s) as [|[] trigger|] eqn:E; unfold agrees; simpl; rewrite ?E; done.
Qed.

Lemma finals_app a b : finals (a ++ b) = finals a ++ finals b.
Proof. unfold finals. by rewrite omap_app. Qed.
Lemma started_app a b : started (a ++ b) = started a ++ started b.
Proof. unfold started. by rewrite omap_app. Qed.

Lemma required_none o trigger :
  shutdown_action o trigger = None → required_operations o trigger = [].
Proof. unfold required_operations. by intros ->. Qed.

Lemma claim_agrees opts s trigger d h :
  agrees opts s h →
  agrees opts (step s (EShutdown (ClaimTerminal trigger d)))
    (record_event h (ClaimTerminal trigger d)
       (transition_shutdown s (ClaimTerminal trigger d))).
Proof.
  intros [Ho H]. simpl. unfold claim_terminal, is_active.
  destruct (lifecycle s) eqn:E; simpl; try (by split; [|rewrite E]).
  subst h. destruct (write_barrier s d); simpl; [|by split..].
  destruct (shutdown_action (options s) trigger) as [a|] eqn:Ea; simpl.
  - split; [done|]. simpl. rewrite <-Ho, Ea. by split_and!; [done.. | left].
  - split; [done|]. exists trigger. simpl. rewrite <-Ho, Ea, required_none by done. done.
Qed.

Lemma last_write_agrees opts s h :
  valid s → agrees opts s h →
  agrees opts (step s (EShutdown LastWriteSettled))
    (record_event h LastWriteSettled (transition_shutdown s LastWriteSettled)).
Proof.
  intros Hv [Ho H]. simpl. unfold last_write_settled.
  destruct (lifecycle s) as [|[] trigger|] eqn:E; simpl; try (by split; [|rewrite E]).
  destruct H as (Hc & Hf & Hs & Hr).
  pose proof (valid_waiting s _ _ Hv E (or_intror eq_refl)) as Hz.
  destruct (shutdown_action (options s) trigger) as [a|] eqn:Ea; simpl.
  - split; [done|]. simpl. rewrite Hc, Hs, finals_app, started_app, Hf, Hr, <-Ho, Ea.
    by split_and!; [done.. | left].
  - split; [done|]. exists trigger. simpl.
    rewrite Hc, Hs, finals_app, started_app, Hf, Hr, <-Ho, Ea, required_none by done. done.
Qed.

Ltac settle_case :=
  split_and!;
  first [ done | by left | by constructor | right; do 2 eexists; split; reflexivity ].

Lemma action_agrees opts s o (r : bool) e h :
  e = (if r then ActionRejected o else ActionFulfilled o) →
  valid s → agrees opts s h →
  agrees opts (shutdown_action_settled s o r).(next)
    (record_event h e (shutdown_action_settled s o r)).
Proof.
  intros -> Hv [Ho H]. pose proof H as H'. unfold shutdown_action_settled.
  destruct (lifecycle s) as [|[] trigger|] eqn:E; simpl; try (by split; [|rewrite E]).
  clear H'. destruct H as (Hc & Hf & Hr & Hs).
  destruct (running_bits s trigger Hv E) as (a & Ha & Hb). rewrite Ha.
  unfold remaining_shutdown_action_mask, required_shutdown_action_mask, terminal_trigger. simpl.
  rewrite E, Ha. rewrite <-Ho in *. rewrite Ha in *.
  destruct Hs as [[Hs Hz]|(o' & r' & Hs & Hz)]; rewrite Hz in *.
  - destruct a, o, r; simpl; unfold agrees, record_event; simpl;
      rewrite ?E, ?Hc, ?Hs, ?Hz, ?finals_app, ?started_app, ?Hf, ?Hr, ?Ha; simpl;
      (split; [done|]); try exists trigger; unfold required_operations; rewrite ?Ha;
      settle_case.
  - destruct Hb as [Hb|(-> & _)]; [by destruct o', r'|].
    destruct o, r, o', r'; simpl; unfold agrees, record_event; simpl;
      rewrite ?E, ?Hc, ?Hs, ?Hz, ?finals_app, ?started_app, ?Hf, ?Hr, ?Ha; simpl;
      (split; [done|]); try exists trigger; unfold required_operations; rewrite ?Ha;
      settle_case.
Qed.

Lemma finalize_agrees opts s h :
  agrees opts s h →
  agrees opts (step s (EShutdown Finalize))
    (record_event h Finalize (transition_shutdown s Finalize)).
Proof.
  intros [Ho H]. simpl. unfold finalize_original.
  destruct (lifecycle s) as [|[] trigger|] eqn:E; simpl; try (by split; [|rewrite E]).
  destruct H as (Hc & Hf & Hr & Hp & He). split; [done|]. exists trigger. simpl.
  by rewrite !app_nil_r, finals_app, started_app, Hc, Hf, Hr, app_nil_r, He.
Qed.

Lemma step_agrees opts sh ev :
  valid sh.1 → agrees opts sh.1 sh.2 → agrees opts (step_log sh ev).1 (step_log sh ev).2.
Proof.
  intros Hv Ha. destruct sh as [s h], ev as [m|e| |[trigger d| |o|o|]]; simpl in *.
  - by apply mutation_agrees.
  - by apply drain_agrees.
  - by apply publish_agrees.
  - by apply claim_agrees.
  - by apply last_write_agrees.
  - by apply action_agrees.
  - by apply action_agrees.
  - by apply finalize_agrees.
Qed.

Lemma run_agrees opts sh es :
  valid sh.1 → agrees opts sh.1 sh.2 →
  agrees opts (run_events sh es).1 (run_events sh es).2.
Proof.
  revert sh. induction es as [|ev es IH]; intros sh Hv Ha; simpl; [done|].
  apply IH; [by apply step_valid | by apply step_agrees].
Qed.

(** *** What the Streams Standard prescribes

    [ReadableStreamPipeTo], independently of the state machine above: the
    algorithms a shutdown performs for each of the five conditions, and how
    the promise of the pipe is settled once they have. *)
Inductive PipeToAction :=
  WritableStreamAbort | ReadableStreamCancel | WritableStreamDefaultWriterCloseWithErrorPropagation.

Inductive performs (o : PipeOptions.t) : PipeTerminalTrigger → PipeToAction → Prop :=
  (* errors must be propagated forward *)
  | source_error_aborts : o.(PipeOptions.prevent_abort) = false →
      performs o SourceErrored WritableStreamAbort
  (* errors must be propagated backward *)
  | destination_error_cancels : o.(PipeOptions.prevent_cancel) = false →
      performs o DestinationErrored ReadableStreamCancel
  (* closing must be propagated forward *)
  | source_close_closes : o.(PipeOptions.prevent_close) = false →
      performs o SourceClosed WritableStreamDefaultWriterCloseWithErrorPropagation
  (* closing must be propagated backward *)
  | destination_close_cancels : o.(PipeOptions.prevent_cancel) = false →
      performs o DestinationClosed ReadableStreamCancel
  (* the signal's abort algorithm *)
  | signal_aborts : o.(PipeOptions.prevent_abort) = false → performs o Aborted WritableStreamAbort
  | signal_cancels : o.(PipeOptions.prevent_cancel) = false → performs o Aborted ReadableStreamCancel.

(** The end of the pipe an algorithm works on. *)
Definition performed_on (a : PipeToAction) : PipeShutdownOperation :=
  match a with ReadableStreamCancel => Source | _ => Destination end.

(** The algorithms a [RunActions] command asks for. *)
Definition asks_for (a : PipeShutdownAction) : list PipeToAction :=
  match a with
  | AbortDestination => [WritableStreamAbort]
  | CancelSource => [ReadableStreamCancel]
  | CloseDestination => [WritableStreamDefaultWriterCloseWithErrorPropagation]
  | AbortDestinationAndCancelSource => [WritableStreamAbort; ReadableStreamCancel]
  end.

(** Finalizing: with the error of an algorithm that rejected, the
    destination's before the source's; else with the error of the condition;
    closing the source has none and resolves. *)
Inductive finalizes (trigger : PipeTerminalTrigger) (l : list (PipeShutdownOperation * bool))
    : PipeFinalSettlement → Prop :=
  | destination_rejected : (Destination, true) ∈ l →
      finalizes trigger l (RejectShutdownAction Destination)
  | source_rejected : (Destination, true) ∉ l → (Source, true) ∈ l →
      finalizes trigger l (RejectShutdownAction Source)
  | source_closed : (∀ o, (o, true) ∉ l) → trigger = SourceClosed → finalizes trigger l Resolve
  | original_error : (∀ o, (o, true) ∉ l) → trigger ≠ SourceClosed →
      finalizes trigger l RejectOriginal.

Lemma performs_table o trigger a :
  a ∈ option_list (shutdown_action o trigger) ≫= asks_for ↔ performs o trigger a.
Proof.
  destruct o as [pc pa pk]. split.
  - destruct trigger, pc, pa, pk; simpl; rewrite ?elem_of_cons, ?elem_of_nil; intros Ha;
      destruct_or?; subst; try done; by constructor.
  - intros []; simpl in *; subst; try destruct pa; try destruct pk; simpl; rewrite ?elem_of_cons; auto.
Qed.

Lemma required_performed o trigger :
  required_operations o trigger = performed_on <$> (option_list (shutdown_action o trigger) ≫= asks_for).
Proof. unfold required_operations. by destruct (shutdown_action o trigger) as [[]|]. Qed.

Lemma required_nodup o trigger : NoDup (required_operations o trigger).
Proof.
  unfold required_operations. destruct (shutdown_action o trigger) as [[]|];
    repeat constructor; set_solver.
Qed.

Lemma rejected_in_spec o l : rejected_in o l = true ↔ (o, true) ∈ l.
Proof.
  unfold rejected_in. split.
  - intros ([o' r] & Hin & Hx)%existsb_exists. apply list_elem_of_In.
    by destruct o, o', r.
  - intros Hin. apply existsb_exists. exists (o, true). split; [by apply list_elem_of_In |].
    by destruct o.
Qed.

Lemma expected_finalizes trigger l : finalizes trigger l (expected trigger l).
Proof.
  unfold expected. destruct (rejected_in Destination l) eqn:Hd.
  { constructor. by apply rejected_in_spec. }
  assert ((Destination, true) ∉ l) as Hd' by (intros H%rejected_in_spec; congruence).
  destruct (rejected_in Source l) eqn:Hs.
  { constructor; [done |]. by apply rejected_in_spec. }
  assert (∀ o, (o, true) ∉ l) as Hn by (intros [] H%rejected_in_spec; congruence).
  destruct trigger; simpl; by constructor.
Qed.

(** C16: A pipe settles exactly once and with the right reason, in every
    interleaving of its events: an unfinished pipe has issued no finalization;
    a finished one was claimed by exactly one trigger, ran at most one action
    command, which asks for exactly the algorithms the Streams Standard's
    table performs for that trigger and these options, admitted exactly one
    settlement for the end each of them works on, and issued a single
    finalization: with the rejected destination action's error if it
    rejected, else the rejected source action's, else resolving when the
    source closed and with the trigger's error otherwise, whatever the order
    the settlements came in. *)
Theorem pipe_settles_once (opts : PipeOptions.t) (es : list event) :
  let '(s, h) := run_events (owner_new opts, empty_log) es in
  if bool_decide (s.(lifecycle) = Finished) then
    ∃ trigger final, h.(claims) = [trigger] ∧
      (length (started h.(commands)) ≤ 1)%nat ∧
      (∀ a, a ∈ started h.(commands) ≫= asks_for ↔ performs opts trigger a) ∧
      NoDup h.(settlements).*1 ∧
      (∀ o, o ∈ h.(settlements).*1 ↔ ∃ a, performs opts trigger a ∧ performed_on a = o) ∧
      finals h.(commands) = [final] ∧ finalizes trigger h.(settlements) final
  else finals h.(commands) = [].
Proof.
  pose proof (run_agrees opts (owner_new opts, empty_log) es (new_valid opts)) as H.
  destruct (run_events _ es) as [s h]. destruct H as [_ H]; [done|]. simpl in *.
  destruct (lifecycle s); simpl; [by subst h | by destruct H as (_ & ? & _) |].
  destruct H as (trigger & Hc & Hst & Hse & Hf). exists trigger, (expected trigger h.(settlements)).
  rewrite Hst, Hse. split_and!; [done | by destruct (shutdown_action opts trigger); simpl; lia | | | | done |].
  - apply performs_table.
  - apply required_nodup.
  - intros o. rewrite Hse, required_performed, list_elem_of_fmap. setoid_rewrite performs_table. naive_solver.
  - apply expected_finalizes.
Qed.

(** ** Progress of a shutdown *)

(** How far a shutdown is, relative to the events that move it: publication,
    last write, one settlement per operation ([first] before the other) and
    the finalization microtask. *)
Definition other (o : PipeShutdownOperation) : PipeShutdownOperation :=
  match o with Destination => Source | Source => Destination end.

Definition settle_event (o : PipeShutdownOperation) (rejected : bool) : event :=
  EShutdown (if rejected then ActionRejected o else ActionFulfilled o).

Definition schedule (first : PipeShutdownOperation) (r1 r2 : bool) : list event :=
  [EPublish; EShutdown LastWriteSettled; settle_event first r1;
   settle_event (other first) r2; EShutdown Finalize].

(** [first] is no longer awaited. *)
Definition not_awaited (s : PipeOwnerState) (o : PipeShutdownOperation) : Prop :=
  N.land (remaining_shutdown_action_mask s) (operation_bit o) = 0.

Definition reached (first : PipeShutdownOperation) (k : nat) (s : PipeOwnerState) : Prop :=
  match s.(lifecycle) with
  | Active => False
  | ShuttingDown WaitingForWritePublication _ => (k ≤ 0)%nat
  | ShuttingDown WaitingForLastWrite _ => (k ≤ 1)%nat
  | ShuttingDown RunningActions _ => (k ≤ 2)%nat ∨ (k = 3)%nat ∧ not_awaited s first
  | ShuttingDown Finalizing _ => (k ≤ 4)%nat
  | Finished => True
  end.

(** Events outside the schedule leave a shutdown where it is. *)
Lemma shutdown_other_events s ev :
  is_active s = false → valid s →
  (∀ e, ev ≠ EShutdown e) → ev ≠ EPublish → step s ev = s.
Proof.
  intros Ha Hv Hs Hp. destruct ev as [m|e| |e]; [| |done|by destruct (Hs e)]; simpl.
  - assert (abandon_write s = ignored s) as Hab.
    { unfold abandon_write. destruct (lifecycle s) as [|stage trigger|] eqn:E.
      - unfold is_active in Ha. by rewrite E in Ha.
      - destruct (valid_shutting_down s _ _ Hv E) as (_ & _ & _ & ->).
        unfold is_waiting_for_write_publication. rewrite E. by destruct stage.
      - destruct Hv as [H _]. unfold storage_invariants_hold in H. rewrite E in H.
        by destruct (drain_scheduled s), (read_pending s), (write_in_progress s). }
    unfold transition_mutation, begin_write. rewrite Ha. by destruct m; rewrite ?Hab.
  - unfold transition_drain, schedule_drain, begin_drain. rewrite Ha. by destruct e.
Qed.

Lemma action_reached first k s o r :
  valid s → reached first k s → reached first k (shutdown_action_settled s o r).(next).
Proof.
  intros Hv Hr. destruct (lifecycle s) as [|[] trigger|] eqn:E;
    try (unfold shutdown_action_settled; by rewrite E).
  unfold reached in Hr. rewrite E in Hr.
  destruct (action_settled_cases s trigger o r Hv E)
    as [->|[(Ha & Hz & ->)|[(n & st & -> & _)|(_ & _ & -> & _)]]]; unfold reached; simpl;
    rewrite ?E; [done | | done | lia].
  destruct Hr as [?|[_ Hn]]; [by left|]. unfold not_awaited, remaining_shutdown_action_mask,
    required_shutdown_action_mask, terminal_trigger in Hn. rewrite E, Ha, Hz in Hn.
  by destruct first.
Qed.

(** Every event keeps the progress made. *)
Lemma reached_stable first k s ev : valid s → reached first k s → reached first k (step s ev).
Proof.
  intros Hv Hr.
  assert (is_active s = false) as Ha.
  { unfold reached in Hr. unfold is_active. by destruct (lifecycle s). }
  destruct ev as [m|e| |e]; [by rewrite shutdown_other_events.. | |].
  - simpl. unfold publish_last_write, reached in *. destruct (write_in_progress s) eqn:Hw; [|done].
    destruct (lifecycle s) as [|[] trigger|] eqn:E; simpl; rewrite ?E; try done; try lia;
    by destruct (valid_shutting_down s _ _ Hv E) as (_ & _ & _ & Hx); rewrite Hw in Hx.
  - destruct e as [trigger d| |o|o|]; simpl.
    + unfold claim_terminal. by rewrite Ha.
    + unfold last_write_settled, reached in *.
      destruct (lifecycle s) as [|[] trigger|] eqn:E; simpl; rewrite ?E; try done.
      destruct (shutdown_action _ _); simpl; [|done]. left. lia.
    + by apply action_reached.
    + by apply action_reached.
    + unfold finalize_original, reached in *.
      destruct (lifecycle s) as [|[] trigger|] eqn:E; simpl; rewrite ?E; done.
Qed.

Lemma action_advances first o r k s :
  valid s → (k = 2%nat ∧ o = first ∨ k = 3%nat ∧ o = other first) → reached first k s →
  reached first (Datatypes.S k) (shutdown_action_settled s o r).(next).
Proof.
  intros Hv Hk Hr. destruct (lifecycle s) as [|[] trigger|] eqn:E;
    unfold reached in Hr; rewrite E in Hr; try lia.
  - destruct (running_bits s trigger Hv E) as (a & Ha & Hb).
    unfold not_awaited, remaining_shutdown_action_mask,
      required_shutdown_action_mask, terminal_trigger in Hr. rewrite E, Ha in Hr.
    unfold shutdown_action_settled, remaining_shutdown_action_mask,
      required_shutdown_action_mask, terminal_trigger. rewrite E, Ha.
    unfold reached, not_awaited, remaining_shutdown_action_mask,
      required_shutdown_action_mask, terminal_trigger.
    destruct Hb as [Hz|(-> & o' & r' & Hz)]; rewrite Hz in *;
      destruct Hk as [[-> ->]|[-> ->]];
      [destruct first, a, r | destruct first, a, r | destruct first, r, o', r'
      |destruct first, r, o', r']; simpl in *;
      do 3 (rewrite ?E, ?Ha, ?Hz; simpl); try done; try lia; try (right; split; [done|reflexivity]);
      destruct Hr as [|[_ Hr]]; try lia; done.
  - unfold shutdown_action_settled. rewrite E. unfold reached. simpl. rewrite E. lia.
  - unfold shutdown_action_settled. rewrite E. unfold reached. simpl. by rewrite E.
Qed.

(** The [k]-th scheduled event makes the [k]-th move. *)
Lemma scheduled_advances first r1 r2 k ev s :
  schedule first r1 r2 !! k = Some ev → valid s → reached first k s →
  reached first (Datatypes.S k) (step s ev).
Proof.
  intros Hk Hv Hr. unfold schedule in Hk.
  destruct k as [|[|[|[|[|k]]]]]; simpl in Hk; simplify_eq.
  - simpl. unfold publish_last_write, reached in *.
    destruct (lifecycle s) as [|[] trigger|] eqn:E; simpl; try done;
      try (destruct (valid_shutting_down s _ _ Hv E) as (_ & _ & _ & ->); simpl; rewrite ?E; lia).
    destruct (write_in_progress s); simpl; by rewrite E.
  - simpl. unfold last_write_settled, reached in *.
    destruct (lifecycle s) as [|[] trigger|] eqn:E; simpl; rewrite ?E; try done; try lia.
    destruct (shutdown_action _ _); simpl; [left; lia | done].
  - destruct r1; simpl; apply action_advances; auto.
  - destruct r2; simpl; apply action_advances; auto.
  - simpl. unfold finalize_original, reached in *.
    destruct (lifecycle s) as [|[] trigger|] eqn:E; simpl; rewrite ?E; try done; lia.
Qed.

Lemma scheduled_run first r1 r2 k sh es :
  sublist (drop k (schedule first r1 r2)) es → valid sh.1 → reached first k sh.1 →
  (k ≤ 5)%nat → reached first 5 (run_events sh es).1.
Proof.
  revert k sh. induction es as [|ev es IH]; intros k sh Hsub Hv Hr Hk; simpl.
  - apply sublist_nil_r in Hsub. apply (f_equal length) in Hsub.
    rewrite length_drop in Hsub. simpl in Hsub. by replace 5%nat with k by lia.
  - apply sublist_cons_r in Hsub as [Hsub|(l & Hl & Hsub)].
    + apply (IH k); [done | by apply step_valid | by apply reached_stable | done].
    + assert (schedule first r1 r2 !! k = Some ev) as Hev.
      { replace k with (k + 0)%nat by lia. by rewrite <-lookup_drop, Hl. }
      apply (IH (Datatypes.S k)).
      * replace (drop (Datatypes.S k) (schedule first r1 r2)) with l; [done|].
        rewrite <-Nat.add_1_r, <-drop_drop, Hl. done.
      * by apply step_valid.
      * by eapply scheduled_advances.
      * apply lookup_lt_Some in Hev. simpl in Hev. lia.
Qed.

(** A claimed pipe always finishes: from every reachable shutdown state,
    once the pending write is published, the last write settles, the two
    shutdown operations settle (in either order, fulfilled or rejected) and
    the finalization microtask runs, the pipe is [Finished], whatever other
    events happen in between; and no event ever leaves [Finished]. *)
Theorem pipe_shutdown_completes (opts : PipeOptions.t) (before after : list event)
    (first : PipeShutdownOperation) (r1 r2 : bool) :
  let s := (run_events (owner_new opts, empty_log) before).1 in
  s.(lifecycle) ≠ Active →
  sublist (schedule first r1 r2) after →
  (run_events (owner_new opts, empty_log) (before ++ after)).1.(lifecycle) = Finished ∧
  ∀ more, (run_events (owner_new opts, empty_log) (before ++ after ++ more)).1.(lifecycle)
          = Finished.
Proof.
  intros s Hs Hsub.
  assert (valid s) as Hv by apply run_valid, new_valid.
  assert (reached first 0 s) as H0.
  { unfold reached. destruct (lifecycle s) as [|[]|]; try done; try lia; left; lia. }
  assert (∀ es, sublist (schedule first r1 r2) es →
    (run_events (owner_new opts, empty_log) (before ++ es)).1.(lifecycle) = Finished) as H.
  { intros es He. unfold run_events. rewrite fold_left_app.
    pose proof (scheduled_run first r1 r2 0
      (run_events (owner_new opts, empty_log) before) es He Hv H0 ltac:(lia)) as Hr.
    unfold run_events, reached in Hr. revert Hr. generalize (fold_left step_log es
      (fold_left step_log before (owner_new opts, empty_log))). intros [f h]. simpl.
    destruct (lifecycle f) as [|[]|]; try done; intros Hr; lia. }
  split; [by apply H|]. intros more. apply H. etrans; [done|]. apply sublist_inserts_r. done.
Qed.

Lemma pipe_shutdown_completes_witness :
  let opts := {| PipeOptions.prevent_close := false; PipeOptions.prevent_abort := false;
                 PipeOptions.prevent_cancel := false |} in
  let d := {| destination_state := Writable.Writable; destination_close_requested := false |} in
  let before := [EMutation BeginWrite; EShutdown (ClaimTerminal Aborted d)] in
  (run_events (owner_new opts, empty_log)
     (before ++ schedule Source true false)).1.(lifecycle) = Finished.
Proof.
  apply (pipe_shutdown_completes
    {| PipeOptions.prevent_close := false; PipeOptions.prevent_abort := false;
       PipeOptions.prevent_cancel := false |}
    [EMutation BeginWrite; EShutdown (ClaimTerminal Aborted
       {| destination_state := Writable.Writable; destination_close_requested := false |})]
    (schedule Source true false) Source true false); [discriminate | reflexivity].
Defined.
