(* ===== verification/ByteController.v ===== *)
(** Byte-stream controllers (moli-streams, [readable/byte_controller.rs]):
    pull-into descriptors with their checked [usize] arithmetic, and every
    plan of [ByteControllerSnapshot].  The arithmetic panics of the source are
    [Panic]; the theorem of this file is that a descriptor [new] accepted
    never panics and never names a byte outside its buffer. *)
From stdpp Require Import base list numbers option.
From S2P Require Import Prelude Readable.

#[local] Open Scope N_scope.

(** ** Readers and views *)
Inductive PullIntoReaderType := ReaderTypeDefault | ReaderTypeByob | ReaderTypeNone.

#[global] Instance PullIntoReaderType_eq_dec : EqDecision PullIntoReaderType.
Proof. solve_decision. Defined.

(** [self as u32]. *)
Definition reader_type_discriminant (r : PullIntoReaderType) : N :=
  match r with ReaderTypeDefault => 0 | ReaderTypeByob => 1 | ReaderTypeNone => 2 end.

Definition reader_type_from_discriminant (value : N) : option PullIntoReaderType :=
  match value with
  | 0 => Some ReaderTypeDefault
  | 1 => Some ReaderTypeByob
  | 2 => Some ReaderTypeNone
  | _ => None
  end.

Inductive ArrayBufferViewKind :=
  | DataView | Int8 | Uint8 | Uint8Clamped | Int16 | Uint16 | Int32 | Uint32
  | Float16 | Float32 | Float64 | BigInt64 | BigUint64.

#[global] Instance ArrayBufferViewKind_eq_dec : EqDecision ArrayBufferViewKind.
Proof. solve_decision. Defined.

Definition view_kind_discriminant (k : ArrayBufferViewKind) : N :=
  match k with
  | DataView => 0 | Int8 => 1 | Uint8 => 2 | Uint8Clamped => 3 | Int16 => 4
  | Uint16 => 5 | Int32 => 6 | Uint32 => 7 | Float16 => 8 | Float32 => 9
  | Float64 => 10 | BigInt64 => 11 | BigUint64 => 12
  end.

Definition view_kind_from_discriminant (value : N) : option ArrayBufferViewKind :=
  match value with
  | 0 => Some DataView | 1 => Some Int8 | 2 => Some Uint8 | 3 => Some Uint8Clamped
  | 4 => Some Int16 | 5 => Some Uint16 | 6 => Some Int32 | 7 => Some Uint32
  | 8 => Some Float16 | 9 => Some Float32 | 10 => Some Float64
  | 11 => Some BigInt64 | 12 => Some BigUint64
  | _ => None
  end.

Definition element_size_of (k : ArrayBufferViewKind) : N :=
  match k with
  | DataView | Int8 | Uint8 | Uint8Clamped => 1
  | Int16 | Uint16 | Float16 => 2
  | Int32 | Uint32 | Float32 => 4
  | Float64 | BigInt64 | BigUint64 => 8
  end.

(** ** Ranges *)
Record ByteRange := { range_offset : N; range_length : N }.

#[global] Instance ByteRange_eq_dec : EqDecision ByteRange.
Proof. solve_decision. Defined.

Definition range_is_empty (r : ByteRange) : bool := r.(range_length) =? 0.
Definition range_end (r : ByteRange) : run N := add64 r.(range_offset) r.(range_length).

(** ** Descriptors *)
Inductive DescriptorError :=
  EmptyView | InvalidBounds | InvalidMinimumFill | InvalidElementAlignment.

Inductive ReadIntoError :=
  ReadEmptyView | ReadZeroMinimum | ReadMinimumExceedsCapacity | ReadInvalidBounds.

Record PullIntoDescriptor := {
  buffer_byte_length : N;
  byte_offset : N;
  byte_length : N;
  bytes_filled : N;
  minimum_fill : N;
  view_kind : ArrayBufferViewKind;
  reader_type : PullIntoReaderType }.

#[global] Instance PullIntoDescriptor_eq_dec : EqDecision PullIntoDescriptor.
Proof. solve_decision. Defined.

(** [usize::is_multiple_of] for a divisor that is not zero. *)
Definition is_multiple_of (a b : N) : bool := a mod b =? 0.

Definition new_descriptor (buffer_byte_length byte_offset byte_length bytes_filled minimum_fill : N)
    (view_kind : ArrayBufferViewKind) (reader_type : PullIntoReaderType)
    : PullIntoDescriptor + DescriptorError :=
  let element_size := element_size_of view_kind in
  if byte_length =? 0 then inr EmptyView
  else if (minimum_fill =? 0) || (byte_length <? minimum_fill) then inr InvalidMinimumFill
  else if negb (is_multiple_of byte_offset element_size)
       || negb (is_multiple_of byte_length element_size)
       || negb (is_multiple_of minimum_fill element_size)
       || ((minimum_fill <=? bytes_filled) && negb (is_multiple_of bytes_filled element_size))
  then inr InvalidElementAlignment
  else if (byte_length <? bytes_filled)
       || match checked_add64 byte_offset byte_length with
          | Some e => buffer_byte_length <? e
          | None => true
          end
  then inr InvalidBounds
  else inl {| buffer_byte_length := buffer_byte_length; byte_offset := byte_offset;
              byte_length := byte_length; bytes_filled := bytes_filled;
              minimum_fill := minimum_fill; view_kind := view_kind;
              reader_type := reader_type |}.

(** [checked_mul] on [usize]. *)
Definition checked_mul64 (a b : N) : option N :=
  if a * b <=? u64_max then Some (a * b) else None.

Definition for_read (buffer_byte_length byte_offset byte_length minimum_elements : N)
    (view_kind : ArrayBufferViewKind) (reader_type : PullIntoReaderType)
    : PullIntoDescriptor + ReadIntoError :=
  if (buffer_byte_length =? 0) || (byte_length =? 0) then inr ReadEmptyView
  else if minimum_elements =? 0 then inr ReadZeroMinimum
  else let element_size := element_size_of view_kind in
       let capacity_elements := byte_length / element_size in
       if capacity_elements <? minimum_elements then inr ReadMinimumExceedsCapacity
       else match checked_mul64 minimum_elements element_size with
            | None => inr ReadMinimumExceedsCapacity
            | Some minimum_fill =>
                match new_descriptor buffer_byte_length byte_offset byte_length 0
                        minimum_fill view_kind reader_type with
                | inl d => inl d
                | inr _ => inr ReadInvalidBounds
                end
            end.

Definition element_size (d : PullIntoDescriptor) : N := element_size_of d.(view_kind).

Definition remaining (d : PullIntoDescriptor) : run N :=
  sub64 d.(byte_length) d.(bytes_filled).

Definition request_range (d : PullIntoDescriptor) : run ByteRange :=
  offset ← add64 d.(byte_offset) d.(bytes_filled);
  length ← sub64 d.(byte_length) d.(bytes_filled);
  mret {| range_offset := offset; range_length := length |}.

Definition filled_range (d : PullIntoDescriptor) : ByteRange :=
  {| range_offset := d.(byte_offset); range_length := d.(bytes_filled) |}.

Definition with_filled (d : PullIntoDescriptor) (n : N) : PullIntoDescriptor :=
  {| buffer_byte_length := d.(buffer_byte_length); byte_offset := d.(byte_offset);
     byte_length := d.(byte_length); bytes_filled := n; minimum_fill := d.(minimum_fill);
     view_kind := d.(view_kind); reader_type := d.(reader_type) |}.

Definition released (d : PullIntoDescriptor) : PullIntoDescriptor :=
  {| buffer_byte_length := d.(buffer_byte_length); byte_offset := d.(byte_offset);
     byte_length := d.(byte_length); bytes_filled := d.(bytes_filled);
     minimum_fill := d.(minimum_fill); view_kind := d.(view_kind);
     reader_type := ReaderTypeNone |}.

(** ** Filling *)
Record FillPlan := {
  bytes_to_copy : N;
  destination : ByteRange;
  fill_descriptor : PullIntoDescriptor;
  ready : bool }.

Definition FillPlan_new (bytes_to_copy : N) (d : PullIntoDescriptor) (ready : bool) : run FillPlan :=
  e ← add64 d.(byte_offset) d.(bytes_filled);
  offset ← sub64 e bytes_to_copy;
  mret {| bytes_to_copy := bytes_to_copy;
          destination := {| range_offset := offset; range_length := bytes_to_copy |};
          fill_descriptor := d; ready := ready |}.

Definition is_ready (d : PullIntoDescriptor) : bool :=
  (d.(minimum_fill) <=? d.(bytes_filled)) && is_multiple_of d.(bytes_filled) (element_size d).

Definition plan_fill (d : PullIntoDescriptor) (available_bytes : N) : run FillPlan :=
  rem ← remaining d;
  if rem =? 0 then FillPlan_new 0 d true
  else
    let maximum := N.min available_bytes rem in
    if maximum =? 0 then FillPlan_new 0 d (is_ready d)
    else
      candidate ← add64 d.(bytes_filled) maximum;
      amount ← (if d.(minimum_fill) <=? candidate
                then let aligned_total := candidate / element_size d * element_size d in
                     sub64 aligned_total d.(bytes_filled)
                else mret maximum);
      if amount =? 0 then FillPlan_new 0 d (is_ready d)
      else
        filled ← add64 d.(bytes_filled) amount;
        let next := with_filled d filled in
        FillPlan_new amount next
          ((next.(minimum_fill) <=? next.(bytes_filled))
           && is_multiple_of next.(bytes_filled) (element_size next)).

(** ** Responses *)
Inductive ReadableByteStreamState := ByteReadable | ByteClosed.
Inductive RespondError := ExceedsRemaining | ZeroWhileReadable | NonZeroWhileClosed.
Inductive RespondAction :=
  | AwaitMore
  | Commit (remainder : ByteRange)
  | FlushReleased
  | RespondClosed.

#[global] Instance ReadableByteStreamState_eq_dec : EqDecision ReadableByteStreamState.
Proof. solve_decision. Defined.

Record RespondPlan := {
  respond_source : PullIntoDescriptor;
  respond_descriptor : PullIntoDescriptor;
  respond_action : RespondAction }.

Record ReplacementView := {
  view_buffer_byte_length : N;
  view_byte_offset : N;
  view_byte_length : N;
  view_detached : bool }.

Inductive ReplacementViewError :=
  ViewDetached | EmptyWhileReadable | BufferLengthMismatch | ViewInvalidBounds
  | NonEmptyWhileClosed.

Inductive CloseError := PartiallyFilledElement.

Definition finish_respond (d : PullIntoDescriptor) (stream_state : ReadableByteStreamState)
    (bytes_written : N) : run RespondPlan :=
  filled ← add64 d.(bytes_filled) bytes_written;
  let next := with_filled d filled in
  if decide (stream_state = ByteClosed)
  then mret {| respond_source := d; respond_descriptor := next; respond_action := RespondClosed |}
  else if decide (next.(reader_type) = ReaderTypeNone)
  then mret {| respond_source := d; respond_descriptor := next; respond_action := FlushReleased |}
  else if next.(bytes_filled) <? next.(minimum_fill)
  then mret {| respond_source := d; respond_descriptor := next; respond_action := AwaitMore |}
  else
    let remainder_length := next.(bytes_filled) mod element_size next in
    aligned ← sub64 next.(bytes_filled) remainder_length;
    offset ← add64 next.(byte_offset) aligned;
    mret {| respond_source := d; respond_descriptor := with_filled next aligned;
            respond_action := Commit {| range_offset := offset; range_length := remainder_length |} |}.

Definition plan_respond (d : PullIntoDescriptor) (stream_state : ReadableByteStreamState)
    (bytes_written : N) : run (RespondPlan + RespondError) :=
  rem ← remaining d;
  if rem <? bytes_written then mret (inr ExceedsRemaining)
  else match stream_state with
       | ByteReadable =>
           if bytes_written =? 0 then mret (inr ZeroWhileReadable)
           else inl <$> finish_respond d stream_state bytes_written
       | ByteClosed =>
           if negb (bytes_written =? 0) then mret (inr NonZeroWhileClosed)
           else inl <$> finish_respond d stream_state bytes_written
       end.

Definition plan_respond_with_new_view (d : PullIntoDescriptor)
    (stream_state : ReadableByteStreamState) (view : ReplacementView)
    : run (RespondPlan + ReplacementViewError) :=
  if view.(view_detached) then mret (inr ViewDetached)
  else if bool_decide (stream_state = ByteReadable) && (view.(view_byte_length) =? 0)
  then mret (inr EmptyWhileReadable)
  else if negb (view.(view_buffer_byte_length) =? d.(buffer_byte_length))
  then mret (inr BufferLengthMismatch)
  else
    range ← request_range d;
    rem ← remaining d;
    if negb (view.(view_byte_offset) =? range.(range_offset)) || (rem <? view.(view_byte_length))
    then mret (inr ViewInvalidBounds)
    else if bool_decide (stream_state = ByteClosed) && negb (view.(view_byte_length) =? 0)
    then mret (inr NonEmptyWhileClosed)
    else inl <$> finish_respond d stream_state view.(view_byte_length).

Definition descriptor_validate_close (d : PullIntoDescriptor) : unit + CloseError :=
  if is_multiple_of d.(bytes_filled) (element_size d) then inl tt else inr PartiallyFilledElement.

Inductive DescriptorResultPlan :=
  | ResultUndefined
  | ResultView (kind : ArrayBufferViewKind) (range : ByteRange).

Record DescriptorResolutionPlan := {
  resolution_source : PullIntoDescriptor;
  resolution_done : bool;
  resolution_result : DescriptorResultPlan }.

Definition plan_resolution (d : PullIntoDescriptor) (done : bool) : DescriptorResolutionPlan :=
  {| resolution_source := d; resolution_done := done;
     resolution_result :=
       if done && bool_decide (d.(reader_type) = ReaderTypeDefault) then ResultUndefined
       else ResultView d.(view_kind)
              {| range_offset := d.(byte_offset); range_length := d.(bytes_filled) |} |}.

Record ByteRespondContext := {
  context_source : PullIntoDescriptor;
  context_state : ReadableByteStreamState }.

Definition context_plan_respond (c : ByteRespondContext) (bytes_written : N)
    : run (RespondPlan + RespondError) :=
  plan_respond c.(context_source) c.(context_state) bytes_written.

Definition context_plan_respond_with_new_view (c : ByteRespondContext) (view : ReplacementView)
    : run (RespondPlan + ReplacementViewError) :=
  plan_respond_with_new_view c.(context_source) c.(context_state) view.

(** ** The controller snapshot *)
Record ByteControllerSnapshot := {
  readable : ReadableSnapshot;
  descriptors : list (option PullIntoDescriptor);
  cached_byob_request : bool;
  auto_allocate_chunk_size : option N;
  pipe_read_pending : option bool }.

Record ByobRequestCreationPlan := { creation_source : PullIntoDescriptor; creation_view : ByteRange }.

Inductive ByobRequestPlan :=
  | ByobUnavailable
  | ByobUseCached
  | ByobCreate (plan : ByobRequestCreationPlan).

Inductive ByteReadIntoPlan :=
  | ReadIntoRejectStoredError
  | ReadIntoResolveDone
  | ReadIntoAppendBehindHead (source : PullIntoDescriptor)
  | ReadIntoFillFromQueue.

Inductive HeadResolutionError := MissingDescriptor | ReleasedDescriptor | UnalignedDescriptor.
Inductive DefaultReadStepPlan := DefaultWait | DefaultDequeue.
Inductive FlushReleasedHeadPlan :=
  | FlushDone
  | FlushFlush (source : PullIntoDescriptor) (bytes : ByteRange).
Inductive ClosedReleasedHeadPlan :=
  | ClosedContinue
  | ClosedRemove (source : PullIntoDescriptor).
Inductive ClosedByobStepPlan :=
  | ClosedByobDone
  | ClosedByobResolve (plan : DescriptorResolutionPlan).

Record BytePipeEnqueuePlan := { fulfills_pending_read : bool }.

Definition queue_size (p : BytePipeEnqueuePlan) (byte_length : N) : N :=
  if p.(fulfills_pending_read) then 0 else byte_length.

Inductive ByteEnqueueStartPlan :=
  | ByteEnqueueReject
  | ByteEnqueuePipe (plan : BytePipeEnqueuePlan)
  | ByteEnqueueContinue.

Inductive ByteEnqueueContinuationPlan :=
  | FulfillDefaultDescriptor (source : PullIntoDescriptor)
  | QueueWithByobDescriptor (source : PullIntoDescriptor)
  | Queue.

Inductive ByteReleaseReaderPlan :=
  | ByteReleaseNone
  | RetainReleasedHead (source descriptor : PullIntoDescriptor).

Inductive FinishByteClosePlan := FinishDefaultReads | WaitForByobResponse.

(** [descriptors.first().copied().flatten()]: an invalid head hides the
    descriptors behind it. *)
Definition head_descriptor (s : ByteControllerSnapshot) : option PullIntoDescriptor :=
  mjoin (hd_error s.(descriptors)).

Definition plan_byob_request (s : ByteControllerSnapshot) : run ByobRequestPlan :=
  if s.(cached_byob_request) then mret ByobUseCached
  else match head_descriptor s with
       | None => mret ByobUnavailable
       | Some source =>
           view ← request_range source;
           mret (ByobCreate {| creation_source := source; creation_view := view |})
       end.

Definition plan_pending_byob_view (s : ByteControllerSnapshot) : run ByobRequestPlan :=
  match head_descriptor s with
  | Some d => if decide (d.(reader_type) = ReaderTypeByob) then plan_byob_request s
              else mret ByobUnavailable
  | None => mret ByobUnavailable
  end.

Definition respond_context (s : ByteControllerSnapshot) : option ByteRespondContext :=
  source ← head_descriptor s;
  Some {| context_source := source;
          context_state := match s.(readable).(state) with
                           | Closed => ByteClosed
                           | Readable | Errored => ByteReadable
                           end |}.

Definition plan_auto_allocate (s : ByteControllerSnapshot) : run (option PullIntoDescriptor) :=
  match s.(auto_allocate_chunk_size) with
  | None => mret None
  | Some byte_length =>
      if byte_length =? 0 then mret None
      else match new_descriptor byte_length 0 byte_length 0 1 Uint8 ReaderTypeDefault with
           | inl d => mret (Some d)
           | inr _ => Panic
           end
  end.

Definition plan_enqueue_start (s : ByteControllerSnapshot) : ByteEnqueueStartPlan :=
  match plan_enqueue s.(readable) with
  | EnqueueReject => ByteEnqueueReject
  | EnqueueContinue =>
      match s.(pipe_read_pending) with
      | None => ByteEnqueueContinue
      | Some pending => ByteEnqueuePipe {| fulfills_pending_read := pending |}
      end
  end.

Definition plan_enqueue_after_released (s : ByteControllerSnapshot) : ByteEnqueueContinuationPlan :=
  match head_descriptor s with
  | Some source =>
      match source.(reader_type) with
      | ReaderTypeDefault => FulfillDefaultDescriptor source
      | ReaderTypeByob => QueueWithByobDescriptor source
      | ReaderTypeNone => Queue
      end
  | None => Queue
  end.

Definition plan_read_into (s : ByteControllerSnapshot) : ByteReadIntoPlan :=
  match plan_read_start s.(readable) with
  | ReadRejectStoredError => ReadIntoRejectStoredError
  | ReadResolveDone => ReadIntoResolveDone
  | ReadContinue =>
      match head_descriptor s with
      | None => ReadIntoFillFromQueue
      | Some source => ReadIntoAppendBehindHead source
      end
  end.

Definition plan_take_head_resolution (s : ByteControllerSnapshot) (done : bool)
    : DescriptorResolutionPlan + HeadResolutionError :=
  match head_descriptor s with
  | None => inr MissingDescriptor
  | Some d =>
      if decide (d.(reader_type) = ReaderTypeNone) then inr ReleasedDescriptor
      else if negb (is_multiple_of d.(bytes_filled) (element_size d)) then inr UnalignedDescriptor
      else inl (plan_resolution d done)
  end.

Definition plan_default_read_step (s : ByteControllerSnapshot) : DefaultReadStepPlan :=
  if match head_descriptor s with Some _ => true | None => false end
     || (s.(readable).(pending_read_count) =? 0) || s.(readable).(queue_empty)
  then DefaultWait else DefaultDequeue.

Definition plan_flush_released_head (s : ByteControllerSnapshot) : FlushReleasedHeadPlan :=
  match head_descriptor s with
  | None => FlushDone
  | Some source =>
      if decide (source.(reader_type) = ReaderTypeNone)
      then FlushFlush source (filled_range source) else FlushDone
  end.

Definition plan_closed_released_head (s : ByteControllerSnapshot) : ClosedReleasedHeadPlan :=
  match head_descriptor s with
  | None => ClosedContinue
  | Some source =>
      if decide (source.(reader_type) = ReaderTypeNone)
      then ClosedRemove source else ClosedContinue
  end.

Definition plan_closed_byob_step (s : ByteControllerSnapshot) (remaining_pending_reads : N)
    : ClosedByobStepPlan + HeadResolutionError :=
  if remaining_pending_reads =? 0 then inl ClosedByobDone
  else match head_descriptor s with
       | None => inl ClosedByobDone
       | Some head =>
           if decide (head.(reader_type) = ReaderTypeByob) then
             match plan_take_head_resolution s true with
             | inl p => inl (ClosedByobResolve p)
             | inr e => inr e
             end
           else inl ClosedByobDone
       end.

Definition plan_release_reader (s : ByteControllerSnapshot) : ByteReleaseReaderPlan :=
  match head_descriptor s with
  | None => ByteReleaseNone
  | Some source => RetainReleasedHead source (released source)
  end.

Definition validate_close (s : ByteControllerSnapshot) : unit + CloseError :=
  if negb s.(readable).(queue_empty) then inl tt
  else match head_descriptor s with
       | None => inl tt
       | Some d => descriptor_validate_close d
       end.

Definition plan_byte_finish_close (s : ByteControllerSnapshot) : FinishByteClosePlan :=
  if existsb (λ o, match o with
                   | Some d => bool_decide (d.(reader_type) = ReaderTypeByob)
                   | None => false
                   end) s.(descriptors)
  then WaitForByobResponse else FinishDefaultReads.

(** ** Validity *)

(** What [new] accepted: the descriptor re-validates from its own fields. *)
Definition valid (d : PullIntoDescriptor) : Prop :=
  new_descriptor d.(buffer_byte_length) d.(byte_offset) d.(byte_length) d.(bytes_filled)
    d.(minimum_fill) d.(view_kind) d.(reader_type) = inl d.

#[global] Instance sum_eq_decision {A B} `{EqDecision A, EqDecision B} : EqDecision (A + B).
Proof. solve_decision. Defined.
#[global] Instance DescriptorError_eq_dec : EqDecision DescriptorError.
Proof. solve_decision. Defined.
#[global] Instance valid_dec d : Decision (valid d).
Proof. unfold valid. apply _. Defined.

(** The same in closed form. *)
Record wf (d : PullIntoDescriptor) : Prop := {
  wf_min : 0 < d.(minimum_fill) ≤ d.(byte_length);
  wf_offset_aligned : d.(byte_offset) mod element_size d = 0;
  wf_length_aligned : d.(byte_length) mod element_size d = 0;
  wf_min_aligned : d.(minimum_fill) mod element_size d = 0;
  wf_filled_aligned : d.(minimum_fill) ≤ d.(bytes_filled) →
                      d.(bytes_filled) mod element_size d = 0;
  wf_filled : d.(bytes_filled) ≤ d.(byte_length);
  wf_bounds : d.(byte_offset) + d.(byte_length) ≤ d.(buffer_byte_length);
  wf_word : d.(byte_offset) + d.(byte_length) ≤ u64_max }.

(** A range that lies inside a descriptor's buffer. *)
Definition in_buffer (d : PullIntoDescriptor) (r : ByteRange) : Prop :=
  r.(range_offset) + r.(range_length) ≤ d.(buffer_byte_length) ∧
  r.(range_offset) + r.(range_length) ≤ u64_max.

(** ** Lemmas *)
Lemma element_size_pos d : 0 < element_size d.
Proof. unfold element_size. destruct (view_kind d); done. Qed.

Lemma is_multiple_of_true a b : is_multiple_of a b = true ↔ a mod b = 0.
Proof. apply N.eqb_eq. Qed.

Lemma valid_wf d : valid d ↔ wf d.
Proof.
  unfold valid, new_descriptor, is_multiple_of.
  fold (element_size d). split.
  - intros H. repeat case_match; simplify_eq; apply orb_false_iff in H1 as [? ?],
      H2 as [[[? ?]%orb_false_iff ?]%orb_false_iff Hu], H3 as [? ?]; simplify_eq.
    all: repeat match goal with
         | H : negb _ = false |- _ => apply negb_false_iff in H
         | H : (_ =? _) = true |- _ => apply N.eqb_eq in H
         | H : (_ =? _) = false |- _ => apply N.eqb_neq in H
         | H : (_ <? _) = false |- _ => apply N.ltb_ge in H
         | H : checked_add64 _ _ = Some _ |- _ => apply checked_add64_Some in H as [-> ?]
         end.
    constructor; try lia; try done.
    intros Hm. apply N.leb_le in Hm. rewrite Hm in Hu. simpl in Hu.
    by apply negb_false_iff, N.eqb_eq in Hu.
  - intros [? Ho Hl Hm Hf ? ? ?].
    rewrite (proj2 (N.eqb_neq _ _)) by lia.
    rewrite (proj2 (N.eqb_neq (minimum_fill d) 0)) by lia.
    rewrite (proj2 (N.ltb_ge _ _)) by lia. simpl.
    rewrite Ho, Hl, Hm. simpl.
    rewrite (proj2 (N.ltb_ge _ _)) by lia.
    rewrite (proj2 (checked_add64_Some _ _ _)) by done.
    rewrite (proj2 (N.ltb_ge _ _)) by lia. simpl.
    destruct (N.leb_spec (minimum_fill d) (bytes_filled d)) as [Hle|Hle]; simpl.
    + rewrite (Hf Hle). simpl. by destruct d.
    + by destruct d.
Qed.

Lemma wf_with_filled d n :
  wf d → n ≤ d.(byte_length) → (d.(minimum_fill) ≤ n → n mod element_size d = 0) →
  wf (with_filled d n).
Proof. intros [] ??. constructor; simpl; auto. Qed.

Lemma remaining_wf d : wf d → remaining d = Ret (d.(byte_length) - d.(bytes_filled)).
Proof. intros []. by apply sub64_fits. Qed.

Lemma request_range_wf d : wf d →
  request_range d = Ret {| range_offset := d.(byte_offset) + d.(bytes_filled);
                           range_length := d.(byte_length) - d.(bytes_filled) |}.
Proof.
  intros []. unfold request_range. rewrite add64_fits by lia. simpl.
  by rewrite sub64_fits by lia.
Qed.

(** Rounding down to the element size stays above every aligned bound. *)
Lemma aligned_down_ge a b e : 0 < e → a mod e = 0 → a ≤ b → a ≤ b / e * e.
Proof.
  intros He Ha Hab. apply N.Div0.div_exact in Ha. rewrite Ha.
  rewrite (N.mul_comm e). apply N.mul_le_mono_r, N.Div0.div_le_mono. lia.
Qed.

Lemma aligned_down_le b e : b / e * e ≤ b.
Proof. rewrite N.mul_comm. apply N.Div0.mul_div_le. Qed.

Lemma aligned_down_mod b e : (b / e * e) mod e = 0.
Proof. apply N.Div0.mod_mul. Qed.

Lemma aligned_down_gap b e : 0 < e → b < b / e * e + e.
Proof. intros He. pose proof (N.Div0.div_mod b e). pose proof (N.mod_lt b e ltac:(lia)). lia. Qed.

(** What [plan_fill] promises: a contiguous copy that continues the filled
    prefix, a valid descriptor, readiness exactly when the minimum is reached
    on an element boundary; a descriptor that is not ready has taken
    everything available, one that is leaves less than one element or is
    full. *)
Record fill_ok (d : PullIntoDescriptor) (available : N) (p : FillPlan) : Prop := {
  fill_next : p.(fill_descriptor) = with_filled d (d.(bytes_filled) + p.(bytes_to_copy));
  fill_available : p.(bytes_to_copy) ≤ available;
  fill_wf : wf p.(fill_descriptor);
  fill_destination : p.(destination) =
    {| range_offset := d.(byte_offset) + d.(bytes_filled); range_length := p.(bytes_to_copy) |};
  fill_in_buffer : in_buffer d p.(destination);
  fill_ready : p.(ready) = is_ready p.(fill_descriptor);
  fill_takes_all : p.(ready) = false → p.(bytes_to_copy) = available;
  fill_maximal : p.(ready) = true →
    available < p.(bytes_to_copy) + element_size d ∨
    d.(bytes_filled) + p.(bytes_to_copy) = d.(byte_length) }.

Lemma with_filled_id d : with_filled d d.(bytes_filled) = d.
Proof. by destruct d. Qed.

Lemma FillPlan_new_wf d n r :
  wf (with_filled d (d.(bytes_filled) + n)) →
  FillPlan_new n (with_filled d (d.(bytes_filled) + n)) r =
  Ret {| bytes_to_copy := n;
         destination := {| range_offset := d.(byte_offset) + d.(bytes_filled); range_length := n |};
         fill_descriptor := with_filled d (d.(bytes_filled) + n); ready := r |}.
Proof.
  intros []. unfold FillPlan_new. simpl in *. rewrite add64_fits by lia. simpl.
  rewrite sub64_fits by lia. simpl. do 3 f_equal. lia.
Qed.

Lemma FillPlan_new_zero d r :
  wf d →
  FillPlan_new 0 d r =
  Ret {| bytes_to_copy := 0;
         destination := {| range_offset := d.(byte_offset) + d.(bytes_filled); range_length := 0 |};
         fill_descriptor := d; ready := r |}.
Proof.
  intros Hd. pose proof (FillPlan_new_wf d 0 r) as H.
  rewrite N.add_0_r, with_filled_id in H. auto.
Qed.

Lemma fill_ok_zero d available r :
  wf d → r = is_ready d → (r = false → available = 0) →
  (r = true → available < element_size d ∨ d.(bytes_filled) = d.(byte_length)) →
  fill_ok d available
    {| bytes_to_copy := 0;
       destination := {| range_offset := d.(byte_offset) + d.(bytes_filled); range_length := 0 |};
       fill_descriptor := d; ready := r |}.
Proof.
  intros Hd -> H0 H1. pose proof Hd as [].
  constructor; simpl; rewrite ?N.add_0_r, ?with_filled_id, ?N.add_0_l; auto; try lia.
  - split; simpl; lia.
  - intros H. by rewrite H0.
Qed.

Lemma is_ready_true d : is_ready d = true ↔
  d.(minimum_fill) ≤ d.(bytes_filled) ∧ d.(bytes_filled) mod element_size d = 0.
Proof. unfold is_ready. by rewrite andb_true_iff, N.leb_le, is_multiple_of_true. Qed.

(** The aligned total [plan_fill] aims for once the minimum is in reach. *)
Lemma aligned_total d m (t := (d.(bytes_filled) + m) / element_size d * element_size d) :
  wf d → d.(minimum_fill) ≤ d.(bytes_filled) + m → d.(bytes_filled) + m ≤ d.(byte_length) →
  d.(minimum_fill) ≤ t ∧ d.(bytes_filled) ≤ t ∧ t ≤ d.(bytes_filled) + m ∧
  d.(bytes_filled) + m < t + element_size d ∧ t mod element_size d = 0 ∧
  (d.(byte_length) ≤ d.(bytes_filled) + m → t = d.(byte_length)).
Proof.
  intros [] Hle Hlen. pose proof (element_size_pos d) as He. subst t.
  split_and!; [by apply aligned_down_ge | | apply aligned_down_le | by apply aligned_down_gap
              | apply aligned_down_mod |].
  - destruct (N.le_gt_cases (minimum_fill d) (bytes_filled d)).
    + apply aligned_down_ge; auto; lia.
    + pose proof (aligned_down_ge (minimum_fill d) (bytes_filled d + m) (element_size d)
        He wf_min_aligned0 Hle). lia.
  - intros Hf. pose proof (aligned_down_ge (byte_length d) (bytes_filled d + m) (element_size d)
      He wf_length_aligned0 Hf).
    pose proof (aligned_down_le (bytes_filled d + m) (element_size d)). lia.
Qed.

Lemma plan_fill_wf d available :
  wf d → ∃ p, plan_fill d available = Ret p ∧ fill_ok d available p.
Proof.
  intros Hd. pose proof Hd as []. pose proof (element_size_pos d) as He.
  unfold plan_fill. rewrite (remaining_wf _ Hd). simpl.
  destruct (N.eqb_spec (byte_length d - bytes_filled d) 0) as [E|E].
  { rewrite FillPlan_new_zero by done. eexists; split; [done |].
    assert (is_ready d = true) as Hr
      by (apply is_ready_true; split; [lia | apply wf_filled_aligned0; lia]).
    apply fill_ok_zero; [done | by rewrite Hr | congruence |].
    right. lia. }
  destruct (N.eqb_spec (N.min available (byte_length d - bytes_filled d)) 0) as [E0|E0].
  { rewrite FillPlan_new_zero by done. eexists; split; [done |].
    apply fill_ok_zero; [done | done | lia | left; lia]. }
  set (m := N.min available (byte_length d - bytes_filled d)) in *.
  rewrite add64_fits by lia. simpl.
  destruct (N.leb_spec (minimum_fill d) (bytes_filled d + m)) as [Hle|Hlt].
  - set (t := (bytes_filled d + m) / element_size d * element_size d).
    destruct (aligned_total d m Hd Hle ltac:(lia)) as (? & ? & ? & ? & ? & Hfull).
    fold t in H, H0, H1, H2, H3, Hfull.
    assert (available < t - bytes_filled d + element_size d ∨ t = byte_length d) as Hmax
      by (destruct (N.le_gt_cases available (byte_length d - bytes_filled d));
          [left; lia | right; apply Hfull; lia]).
    rewrite sub64_fits by done. simpl.
    destruct (N.eqb_spec (t - bytes_filled d) 0) as [Et|Et].
    + rewrite FillPlan_new_zero by done. eexists; split; [done |].
      assert (bytes_filled d = t) as Eq by lia.
      assert (is_ready d = true) as Hr by (apply is_ready_true; rewrite Eq; done).
      apply fill_ok_zero; [done | done | congruence |]. intros _. lia.
    + rewrite add64_fits by lia. simpl.
      assert (wf (with_filled d (bytes_filled d + (t - bytes_filled d)))) as Hw.
      { apply wf_with_filled; [done | lia |]. intros _.
        by replace (bytes_filled d + (t - bytes_filled d)) with t by lia. }
      rewrite FillPlan_new_wf by done. eexists; split; [done |].
      assert (is_ready (with_filled d (bytes_filled d + (t - bytes_filled d))) = true) as Hr.
      { apply is_ready_true. simpl.
        replace (bytes_filled d + (t - bytes_filled d)) with t by lia. done. }
      change ((minimum_fill d <=? _) && _) with
        (is_ready (with_filled d (bytes_filled d + (t - bytes_filled d)))). rewrite Hr.
      constructor; simpl; rewrite ?Hr; try done; try lia.
      split; simpl; lia.
  - simpl. destruct (N.eqb_spec m 0); [lia |].
    rewrite add64_fits by lia. simpl.
    assert (wf (with_filled d (bytes_filled d + m))) as Hw
      by (apply wf_with_filled; [done | lia | lia]).
    rewrite FillPlan_new_wf by done. eexists; split; [done |].
    rewrite (proj2 (N.leb_gt _ _)) by lia. simpl.
    constructor; simpl; try done; try lia; [split; simpl; lia |].
    unfold is_ready. simpl. by rewrite (proj2 (N.leb_gt _ _)) by lia.
Qed.

(** What a validated response promises.  The sum of what is committed and
    what goes back to the queue is what was filled plus what was written. *)
Definition respond_ok (d : PullIntoDescriptor) (st : ReadableByteStreamState) (n : N)
    (p : RespondPlan) : Prop :=
  p.(respond_source) = d ∧
  match p.(respond_action) with
  | RespondClosed => st = ByteClosed ∧ p.(respond_descriptor) = with_filled d (d.(bytes_filled) + n)
  | FlushReleased =>
      st = ByteReadable ∧ d.(reader_type) = ReaderTypeNone ∧
      p.(respond_descriptor) = with_filled d (d.(bytes_filled) + n)
  | AwaitMore =>
      st = ByteReadable ∧ d.(reader_type) ≠ ReaderTypeNone ∧
      d.(bytes_filled) + n < d.(minimum_fill) ∧
      p.(respond_descriptor) = with_filled d (d.(bytes_filled) + n) ∧ wf p.(respond_descriptor)
  | Commit r =>
      st = ByteReadable ∧ d.(reader_type) ≠ ReaderTypeNone ∧
      p.(respond_descriptor) = with_filled d p.(respond_descriptor).(bytes_filled) ∧
      wf p.(respond_descriptor) ∧ is_ready p.(respond_descriptor) = true ∧
      p.(respond_descriptor).(bytes_filled) + r.(range_length) = d.(bytes_filled) + n ∧
      r.(range_offset) = d.(byte_offset) + p.(respond_descriptor).(bytes_filled) ∧
      r.(range_length) < element_size d ∧ in_buffer d r
  end.

Lemma finish_respond_wf d st n :
  wf d → d.(bytes_filled) + n ≤ d.(byte_length) →
  ∃ p, finish_respond d st n = Ret p ∧ respond_ok d st n p.
Proof.
  intros Hd Hn. pose proof Hd as []. pose proof (element_size_pos d) as He.
  unfold finish_respond. rewrite add64_fits by lia. simpl.
  case_decide as Hst; [eexists; split; [done |]; by repeat split |].
  assert (st = ByteReadable) as -> by (destruct st; congruence).
  case_decide as Hr; [eexists; split; [done |]; by repeat split |].
  destruct (N.ltb_spec (bytes_filled d + n) (minimum_fill d)) as [Hlt|Hge].
  { eexists; split; [done |]. unfold respond_ok. simpl. split_and!; try done.
    apply wf_with_filled; [done | lia | lia]. }
  change (element_size (with_filled d (bytes_filled d + n))) with (element_size d).
  destruct (aligned_total d n Hd Hge Hn) as (Ht1 & Ht2 & Ht3 & Ht4 & Ht5 & _).
  pose proof (N.Div0.div_mod (bytes_filled d + n) (element_size d)) as Hdm.
  rewrite N.mul_comm in Hdm.
  set (t := (bytes_filled d + n) / element_size d * element_size d) in *.
  set (r := (bytes_filled d + n) mod element_size d) in *. clearbody t r.
  rewrite sub64_fits by lia. simpl.
  replace (bytes_filled d + n - r) with t by lia.
  rewrite add64_fits by lia. simpl.
  eexists; split; [done |]. unfold respond_ok; simpl. split_and!; try done; try lia.
  - apply (wf_with_filled d); [done | lia | done].
  - apply is_ready_true. done.
  - split; simpl; lia.
Qed.

Lemma plan_respond_wf d st n :
  wf d →
  ∃ r, plan_respond d st n = Ret r ∧
  match r with
  | inl p => d.(bytes_filled) + n ≤ d.(byte_length) ∧ (n = 0 ↔ st = ByteClosed) ∧ respond_ok d st n p
  | inr ExceedsRemaining => d.(byte_length) < d.(bytes_filled) + n
  | inr ZeroWhileReadable => st = ByteReadable ∧ n = 0
  | inr NonZeroWhileClosed => st = ByteClosed ∧ n ≠ 0
  end.
Proof.
  intros Hd. pose proof Hd as []. unfold plan_respond. rewrite remaining_wf by done. simpl.
  destruct (N.ltb_spec (byte_length d - bytes_filled d) n); [eexists; split; [done |]; simpl; lia |].
  destruct (finish_respond_wf d st n Hd ltac:(lia)) as (p & Hp & Hok).
  destruct st; destruct (N.eqb_spec n 0) as [->|Hn]; simpl;
    [eexists; split; [done | done] | rewrite Hp | rewrite Hp | eexists; split; [done | done]];
    (eexists; split; [reflexivity |]; split_and!; [lia | done | done]).
Qed.

Lemma plan_respond_with_new_view_wf d st v :
  wf d →
  ∃ r, plan_respond_with_new_view d st v = Ret r ∧
  match r with
  | inl p =>
      v.(view_detached) = false ∧ v.(view_buffer_byte_length) = d.(buffer_byte_length) ∧
      v.(view_byte_offset) = d.(byte_offset) + d.(bytes_filled) ∧
      d.(bytes_filled) + v.(view_byte_length) ≤ d.(byte_length) ∧
      (v.(view_byte_length) = 0 ↔ st = ByteClosed) ∧
      respond_ok d st v.(view_byte_length) p
  | inr _ => True
  end.
Proof.
  intros Hd. pose proof Hd as []. unfold plan_respond_with_new_view.
  rewrite (request_range_wf _ Hd), (remaining_wf _ Hd).
  destruct (view_detached v); [by eexists |]. simpl.
  destruct (bool_decide (st = ByteReadable) && (view_byte_length v =? 0)) eqn:E1; [by eexists |].
  destruct (N.eqb_spec (view_buffer_byte_length v) (buffer_byte_length d)); [| by eexists].
  simpl. destruct (N.eqb_spec (view_byte_offset v) (byte_offset d + bytes_filled d)); [| by eexists].
  simpl. destruct (N.ltb_spec (byte_length d - bytes_filled d) (view_byte_length v)); [by eexists |].
  destruct (bool_decide (st = ByteClosed) && negb (view_byte_length v =? 0)) eqn:E2; [by eexists |].
  destruct (finish_respond_wf d st (view_byte_length v) Hd ltac:(lia)) as (p & Hp & Hok).
  rewrite Hp. eexists; split; [done |]. simpl. split_and!; try done; try lia.
  destruct st, (N.eqb_spec (view_byte_length v) 0); simpl in *; naive_solver.
Qed.

Lemma released_wf d : wf d → wf (released d).
Proof. by intros []. Qed.

Lemma auto_allocate_wf s :
  match s.(auto_allocate_chunk_size) with Some n => n ≤ u64_max | None => True end →
  ∃ o, plan_auto_allocate s = Ret o ∧
  match o with
  | Some d => wf d ∧ d.(bytes_filled) = 0 ∧ d.(minimum_fill) = 1 ∧ d.(byte_offset) = 0 ∧
              d.(view_kind) = Uint8 ∧ d.(reader_type) = ReaderTypeDefault ∧
              s.(auto_allocate_chunk_size) = Some d.(byte_length) ∧
              d.(buffer_byte_length) = d.(byte_length)
  | None => s.(auto_allocate_chunk_size) = None ∨ s.(auto_allocate_chunk_size) = Some 0
  end.
Proof.
  intros Hs. unfold plan_auto_allocate. destruct (auto_allocate_chunk_size s) as [n|];
    [| eexists; split; [done | by left]].
  destruct (N.eqb_spec n 0) as [->|Hn]; [eexists; split; [done | by right] |].
  set (d := {| buffer_byte_length := n; byte_offset := 0; byte_length := n; bytes_filled := 0;
               minimum_fill := 1; view_kind := Uint8; reader_type := ReaderTypeDefault |}).
  assert (wf d) as Hd by (constructor; simpl; try lia; by rewrite ?N.mod_1_r).
  assert (new_descriptor n 0 n 0 1 Uint8 ReaderTypeDefault = inl d) as ->
    by exact (proj2 (valid_wf d) Hd).
  eexists; split; [done |]. done.
Qed.

(** [for_read] accepts exactly the views a read can be served into. *)
Lemma for_read_wf bl off len mn k r d :
  for_read bl off len mn k r = inl d →
  wf d ∧ d = {| buffer_byte_length := bl; byte_offset := off; byte_length := len;
                bytes_filled := 0; minimum_fill := mn * element_size_of k;
                view_kind := k; reader_type := r |}.
Proof.
  unfold for_read. intros H. repeat case_match; simplify_eq.
  unfold checked_mul64 in *. repeat case_match; simplify_eq.
  match goal with H : new_descriptor _ _ _ _ _ _ _ = inl d |- _ => rename H into Hn end.
  assert (d = {| buffer_byte_length := bl; byte_offset := off; byte_length := len;
                 bytes_filled := 0; minimum_fill := mn * element_size_of k;
                 view_kind := k; reader_type := r |}) as ->.
  { clear -Hn. unfold new_descriptor in Hn. repeat case_match; by simplify_eq. }
  split; [| done]. by apply valid_wf.
Qed.

(** ** Properties *)

(** C28: a pull-into descriptor that [new] accepted never panics in its
    arithmetic and never reaches outside its buffer: filling it from any
    number of available bytes, responding with any count and responding with
    any replacement view return; the copy continues the filled prefix inside
    the buffer and leaves a descriptor [new] would accept again; a fill that is
    not ready has consumed everything available, one that is ready leaves less
    than one element behind or is full; an accepted response names a remainder
    inside the buffer that is smaller than one element, and loses no byte. *)
Theorem descriptor_operations_safe (d : PullIntoDescriptor) (Hd : valid d) :
  (∀ available, ∃ p, plan_fill d available = Ret p ∧ valid p.(fill_descriptor) ∧
     fill_ok d available p) ∧
  (∀ st n, ∃ r, plan_respond d st n = Ret r ∧
     (∀ p, r = inl p → respond_ok d st n p) ∧
     ((∃ p, r = inl p) ↔
      d.(bytes_filled) + n ≤ d.(byte_length) ∧ (n = 0 ↔ st = ByteClosed))) ∧
  (∀ st v, ∃ r, plan_respond_with_new_view d st v = Ret r ∧
     ∀ p, r = inl p → respond_ok d st v.(view_byte_length) p ∧
       v.(view_byte_offset) = d.(byte_offset) + d.(bytes_filled)) ∧
  (∃ r, request_range d = Ret r ∧ in_buffer d r ∧
     r.(range_offset) = d.(byte_offset) + d.(bytes_filled)).
Proof.
  pose proof (proj1 (valid_wf d) Hd) as Hw. split_and!.
  - intros a. destruct (plan_fill_wf d a Hw) as (p & Hp & Hok).
    exists p. split_and!; [done | apply valid_wf, Hok | done].
  - intros st n. destruct (plan_respond_wf d st n Hw) as (r & Hr & Hcase). exists r.
    split_and!; [done | intros p ->; by destruct Hcase as (_ & _ & ?) |].
    destruct r as [p|e]; [split; [intros _; by destruct Hcase as (? & ? & _) | by eauto] |].
    split; [by intros [? ?] |]. intros [Hl Hz]. exfalso.
    destruct e, st; destruct_and?; try naive_solver lia.
  - intros st v. destruct (plan_respond_with_new_view_wf d st v Hw) as (r & Hr & Hcase).
    exists r. split; [done |]. intros p ->. naive_solver.
  - rewrite (request_range_wf _ Hw). eexists; split_and!; [done | | done].
    destruct Hw. split; simpl; lia.
Qed.

Lemma descriptor_operations_safe_witness :
  (∃ p, plan_fill {| buffer_byte_length := 16; byte_offset := 4; byte_length := 8;
                     bytes_filled := 1; minimum_fill := 4; view_kind := Int16;
                     reader_type := ReaderTypeByob |} 4 = Ret p ∧ p.(bytes_to_copy) = 3) ∧
  (∀ available, ∃ p,
     plan_fill {| buffer_byte_length := 16; byte_offset := 4; byte_length := 8;
                  bytes_filled := 1; minimum_fill := 4; view_kind := Int16;
                  reader_type := ReaderTypeByob |} available = Ret p ∧ valid p.(fill_descriptor)).
Proof.
  split.
  - eexists. split; [vm_compute; reflexivity |]. vm_compute. reflexivity.
  - intros a. destruct (descriptor_operations_safe
      {| buffer_byte_length := 16; byte_offset := 4; byte_length := 8; bytes_filled := 1;
         minimum_fill := 4; view_kind := Int16; reader_type := ReaderTypeByob |}
      ltac:(vm_compute; reflexivity)) as (H & _).
    destruct (H a) as (p & ? & ? & _). by exists p.
Defined.
