(* ===== verification/ByteStream.v ===== *)
(** Readable byte streams as the renderer runs them
    ([stream_adapter/readable_byte.rs], the read path of [readable.rs], the
    close and error paths of [readable_state.rs], [take_byte_stream_bytes] of
    [queue_v8.rs] and the controller and reader callbacks that call them): the
    byte queue, the pull-into descriptors with the contents of their buffers,
    the BYOB request and the read requests of one stream that is neither teed
    nor piped.  Every plan comes from [ByteController] and [Readable].

    A V8 array or property definition that fails for lack of memory is not
    modelled; the identity tokens of [live_head] are implied by the fact that
    no author code runs between a snapshot and its commit.  Author code runs
    between operations: it may write into or detach the buffer the current
    BYOB request exposes.  Two fields record the history the theorems speak
    about: the bytes the source supplied and the settlements of the reads. *)
From stdpp Require Import base list numbers option relations.
From S2P Require Import Prelude Readable ByteController.

#[local] Open Scope N_scope.

(** ** State *)

(** One entry of the pending pull-intos array: the buffer, whether author
    code has detached it, and the numeric fields. *)
Record storage := { buffer : list N; detached : bool; fields : PullIntoDescriptor }.

Inductive settlement :=
  | Fulfilled (value : option (list N)) (done : bool)
  | Rejected.

Record stream := {
  closed : bool;
  stored_error : bool;
  close_is_requested : bool;
  queue : list (list N);
  pending_pull_intos : list storage;
  byob_request : option N;
  auto_allocate : option N;
  reader : option ReaderKind;
  pending_reads : list N;
  settled : list (N * settlement);
  next_request : N;
  next_byob : N;
  supplied : list N }.

Definition initial (auto_allocate : option N) : stream :=
  {| closed := false; stored_error := false; close_is_requested := false; queue := [];
     pending_pull_intos := []; byob_request := None; auto_allocate := auto_allocate;
     reader := None; pending_reads := []; settled := []; next_request := 0; next_byob := 0;
     supplied := [] |}.

Definition with_queue (s : stream) (q : list (list N)) : stream :=
  {| closed := s.(closed); stored_error := s.(stored_error);
     close_is_requested := s.(close_is_requested); queue := q;
     pending_pull_intos := s.(pending_pull_intos); byob_request := s.(byob_request);
     auto_allocate := s.(auto_allocate); reader := s.(reader);
     pending_reads := s.(pending_reads); settled := s.(settled);
     next_request := s.(next_request); next_byob := s.(next_byob); supplied := s.(supplied) |}.

Definition with_pull_intos (s : stream) (l : list storage) : stream :=
  {| closed := s.(closed); stored_error := s.(stored_error);
     close_is_requested := s.(close_is_requested); queue := s.(queue);
     pending_pull_intos := l; byob_request := s.(byob_request);
     auto_allocate := s.(auto_allocate); reader := s.(reader);
     pending_reads := s.(pending_reads); settled := s.(settled);
     next_request := s.(next_request); next_byob := s.(next_byob); supplied := s.(supplied) |}.

Definition with_byob_request (s : stream) (r : option N) (next : N) : stream :=
  {| closed := s.(closed); stored_error := s.(stored_error);
     close_is_requested := s.(close_is_requested); queue := s.(queue);
     pending_pull_intos := s.(pending_pull_intos); byob_request := r;
     auto_allocate := s.(auto_allocate); reader := s.(reader);
     pending_reads := s.(pending_reads); settled := s.(settled);
     next_request := s.(next_request); next_byob := next; supplied := s.(supplied) |}.

Definition with_reads (s : stream) (pending : list N) (settled : list (N * settlement)) : stream :=
  {| closed := s.(closed); stored_error := s.(stored_error);
     close_is_requested := s.(close_is_requested); queue := s.(queue);
     pending_pull_intos := s.(pending_pull_intos); byob_request := s.(byob_request);
     auto_allocate := s.(auto_allocate); reader := s.(reader);
     pending_reads := pending; settled := settled;
     next_request := s.(next_request); next_byob := s.(next_byob); supplied := s.(supplied) |}.

Definition with_lifecycle (s : stream) (closed stored_error close_requested : bool) : stream :=
  {| closed := closed; stored_error := stored_error;
     close_is_requested := close_requested; queue := s.(queue);
     pending_pull_intos := s.(pending_pull_intos); byob_request := s.(byob_request);
     auto_allocate := s.(auto_allocate); reader := s.(reader);
     pending_reads := s.(pending_reads); settled := s.(settled);
     next_request := s.(next_request); next_byob := s.(next_byob); supplied := s.(supplied) |}.

Definition with_reader (s : stream) (r : option ReaderKind) : stream :=
  {| closed := s.(closed); stored_error := s.(stored_error);
     close_is_requested := s.(close_is_requested); queue := s.(queue);
     pending_pull_intos := s.(pending_pull_intos); byob_request := s.(byob_request);
     auto_allocate := s.(auto_allocate); reader := r;
     pending_reads := s.(pending_reads); settled := s.(settled);
     next_request := s.(next_request); next_byob := s.(next_byob); supplied := s.(supplied) |}.

(** A fresh read request. *)
Definition new_request (s : stream) : stream :=
  {| closed := s.(closed); stored_error := s.(stored_error);
     close_is_requested := s.(close_is_requested); queue := s.(queue);
     pending_pull_intos := s.(pending_pull_intos); byob_request := s.(byob_request);
     auto_allocate := s.(auto_allocate); reader := s.(reader);
     pending_reads := s.(pending_reads); settled := s.(settled);
     next_request := s.(next_request) + 1; next_byob := s.(next_byob);
     supplied := s.(supplied) |}.

(** History: the source handed over these bytes. *)
Definition supply (s : stream) (bytes : list N) : stream :=
  {| closed := s.(closed); stored_error := s.(stored_error);
     close_is_requested := s.(close_is_requested); queue := s.(queue);
     pending_pull_intos := s.(pending_pull_intos); byob_request := s.(byob_request);
     auto_allocate := s.(auto_allocate); reader := s.(reader);
     pending_reads := s.(pending_reads); settled := s.(settled);
     next_request := s.(next_request); next_byob := s.(next_byob);
     supplied := s.(supplied) ++ bytes |}.

(** ** State and errors *)
Inductive byte_error := TypeError | RangeError | ClosedOrErrored.

Definition M (A : Type) : Type := stream → run (stream * (A + byte_error)).

Definition ok {A} (a : A) : M A := λ s, Ret (s, inl a).
Definition throw {A} (e : byte_error) : M A := λ s, Ret (s, inr e).
Definition bind {A B} (m : M A) (f : A → M B) : M B := λ s,
  match m s with
  | Ret (s', inl a) => f a s'
  | Ret (s', inr e) => Ret (s', inr e)
  | Panic => Panic
  end.
Definition get : M stream := λ s, Ret (s, inl s).
Definition modify (f : stream → stream) : M unit := λ s, Ret (f s, inl tt).
(** An expression that may panic. *)
Definition calc {A} (m : run A) : M A := λ s,
  match m with Ret a => Ret (s, inl a) | Panic => Panic end.
(** [ok_or]. *)
Definition ok_or {A} (o : option A) (e : byte_error) : M A :=
  match o with Some a => ok a | None => throw e end.
(** Runs [m] and gives its result to [f] as a value. *)
Definition attempt {A B} (m : M A) (f : (A + byte_error) → M B) : M B := λ s,
  match m s with Ret (s', r) => f r s' | Panic => Panic end.

Declare Scope byte_scope.
Notation "x <- m ; k" := (bind m (λ x, k))
  (at level 20, m at level 100, k at level 200, right associativity) : byte_scope.
Notation "m ;; k" := (bind m (λ _, k)) (at level 100, k at level 200, right associativity)
  : byte_scope.
#[local] Open Scope byte_scope.

(** ** Buffers and the byte queue *)

(** [backing[start..start + len]]. *)
Definition bytes_at (l : list N) (start len : N) : list N :=
  take (N.to_nat len) (drop (N.to_nat start) l).

(** The bytes from [start] on replaced. *)
Definition put_bytes (l : list N) (start : N) (bytes : list N) : list N :=
  take (N.to_nat start) l ++ bytes ++ drop (N.to_nat start + length bytes) l.

(** [backing_store.byte_length()]: a detached buffer has none. *)
Definition store_length (d : storage) : N :=
  if d.(detached) then 0 else N.of_nat (length d.(buffer)).

Definition with_buffer (d : storage) (b : list N) : storage :=
  {| buffer := b; detached := d.(detached); fields := d.(fields) |}.

Definition with_fields (d : storage) (f : PullIntoDescriptor) : storage :=
  {| buffer := d.(buffer); detached := d.(detached); fields := f |}.

Definition copy_bytes_into_descriptor (d : storage) (start : N) (bytes : list N)
    : option storage :=
  match checked_add64 start (N.of_nat (length bytes)) with
  | None => None
  | Some e => if store_length d <? e then None
              else Some (with_buffer d (put_bytes d.(buffer) start bytes))
  end.

(** [PullIntoDescriptor::state]: the fields are validated on every decode. *)
Definition state_of (d : storage) : option PullIntoDescriptor :=
  match new_descriptor d.(fields).(buffer_byte_length) d.(fields).(byte_offset)
          d.(fields).(byte_length) d.(fields).(bytes_filled) d.(fields).(minimum_fill)
          d.(fields).(view_kind) d.(fields).(reader_type) with
  | inl f => Some f
  | inr _ => None
  end.

Definition queue_total_size (s : stream) : N := Nsum (λ c, N.of_nat (length c)) s.(queue).

(** The loop of [take_byte_stream_bytes] over the entries. *)
Fixpoint take_chunks (remaining : nat) (q : list (list N)) : list N * list (list N) :=
  match remaining, q with
  | _, [] => ([], [])
  | O, q => ([], q)
  | _, c :: q =>
      let consumed := Nat.min remaining (length c) in
      let '(bytes, rest) := take_chunks (remaining - consumed) q in
      (take consumed c ++ bytes,
       if Nat.ltb consumed (length c) then drop consumed c :: rest else rest)
  end.

Definition take_byte_stream_bytes (capacity : N) : M (option (list N)) :=
  s <- get;
  match s.(queue) with
  | [] => ok None
  | q =>
      if capacity =? 0 then ok (Some [])
      else let '(bytes, rest) := take_chunks (N.to_nat capacity) q in
           modify (λ s, with_queue s rest);; ok (Some bytes)
  end.

(** ** Snapshots *)
Definition readable_stream_snapshot (s : stream) : ReadableSnapshot :=
  {| state := from_storage s.(closed) s.(stored_error);
     close_requested := s.(close_is_requested);
     queue_empty := match s.(queue) with [] => true | _ => false end;
     pending_read_count := N.of_nat (length s.(pending_reads)) |}.

Definition readable_byte_controller_snapshot (s : stream) : ByteControllerSnapshot :=
  {| readable := readable_stream_snapshot s;
     descriptors := map state_of s.(pending_pull_intos);
     cached_byob_request := match s.(byob_request) with Some _ => true | None => false end;
     auto_allocate_chunk_size := s.(auto_allocate);
     pipe_read_pending := None |}.

(** [parse_descriptor] of the first entry. *)
Definition head_storage (s : stream) : option storage :=
  match s.(pending_pull_intos) with
  | d :: _ => match state_of d with Some _ => Some d | None => None end
  | [] => None
  end.

Definition live_head (s : stream) (expected : PullIntoDescriptor) : option storage :=
  match head_storage s with
  | Some d => if decide (state_of d = Some expected) then Some d else None
  | None => None
  end.

Definition set_head (d : storage) (s : stream) : stream :=
  with_pull_intos s (match s.(pending_pull_intos) with _ :: l => d :: l | [] => [] end).

Definition append_descriptor (d : storage) : M unit :=
  modify (λ s, with_pull_intos s (s.(pending_pull_intos) ++ [d])).

Definition shift_head_descriptor : M bool :=
  s <- get;
  match s.(pending_pull_intos) with
  | [] => ok false
  | _ :: l => modify (λ s, with_pull_intos s l);; ok true
  end.

Definition invalidate_byob_request : M unit :=
  modify (λ s, with_byob_request s None s.(next_byob)).

Definition clear_descriptors : M unit :=
  invalidate_byob_request;; modify (λ s, with_pull_intos s []).

(** ** Read requests *)
Definition settle (request : N) (r : settlement) : M unit :=
  modify (λ s, with_reads s s.(pending_reads) (s.(settled) ++ [(request, r)])).

Definition fulfill_read_request (request : N) (value : option (list N)) (done : bool) : M unit :=
  settle request (Fulfilled value done).

Definition error_read_request (request : N) : M unit := settle request Rejected.

Definition enqueue_pending_read (request : N) : M unit :=
  modify (λ s, with_reads s (s.(pending_reads) ++ [request]) s.(settled)).

Definition dequeue_first_pending_read : M (option N) :=
  s <- get;
  match s.(pending_reads) with
  | [] => ok None
  | r :: l => modify (λ s, with_reads s l s.(settled));; ok (Some r)
  end.

Fixpoint settle_all (l : list N) (r : settlement) : M unit :=
  match l with
  | [] => ok tt
  | x :: l => settle x r;; settle_all l r
  end.

Definition reject_pending_read_requests : M unit :=
  s <- get;
  settle_all s.(pending_reads) Rejected;;
  modify (λ s, with_reads s [] s.(settled)).

(** ** Errors and closing *)
Definition error_stream : M unit :=
  s <- get;
  match plan_error (readable_stream_snapshot s) with
  | ErrorIgnore => ok tt
  | ErrorError =>
      clear_descriptors;;
      modify (λ s, with_lifecycle s true true s.(close_is_requested));;
      modify (λ s, with_queue s []);;
      s <- get;
      settle_all s.(pending_reads) Rejected;;
      modify (λ s, with_reads s [] s.(settled))
  end.

Definition finish_readable_stream_close : M unit :=
  s <- get;
  if negb (is_readable (readable_stream_snapshot s).(state)) then ok tt
  else
    modify (λ s, with_lifecycle s true s.(stored_error) false);;
    s <- get;
    match plan_byte_finish_close (readable_byte_controller_snapshot s) with
    | WaitForByobResponse => ok tt
    | FinishDefaultReads =>
        settle_all s.(pending_reads) (Fulfilled None true);;
        modify (λ s, with_reads s [] s.(settled))
    end.

Definition prepare_readable_byte_stream_close : M unit :=
  s <- get;
  match validate_close (readable_byte_controller_snapshot s) with
  | inl _ => ok tt
  | inr _ => throw TypeError
  end.

Definition finish_readable_stream_close_if_requested_and_queue_empty : M unit :=
  s <- get;
  match Readable.plan_finish_close (readable_stream_snapshot s) with
  | CloseWait => ok tt
  | CloseFinish =>
      attempt prepare_readable_byte_stream_close
        (λ r, match r with
              | inr _ => error_stream
              | inl _ => finish_readable_stream_close
              end)
  end.

Definition close_stream : M bool :=
  s <- get;
  match plan_request_close (readable_stream_snapshot s) with
  | CloseIgnore => ok false
  | CloseRequest =>
      modify (λ s, with_lifecycle s s.(closed) s.(stored_error) true);;
      finish_readable_stream_close_if_requested_and_queue_empty;;
      ok true
  end.

(** The controller's [close] callback. *)
Definition readable_stream_controller_close_callback : M unit :=
  attempt prepare_readable_byte_stream_close
    (λ r, match r with
          | inr e => error_stream;; throw e
          | inl _ => b <- close_stream; if (b : bool) then ok tt else throw TypeError
          end).

(** The state changes of [cancel_readable_stream]; the cancel algorithm is
    called afterwards. *)
Definition cancel_readable_stream : M unit :=
  s <- get;
  match plan_cancel (readable_stream_snapshot s) with
  | CancelRejectStoredError | CancelResolve => ok tt
  | CancelRunAlgorithm finish_requested_close =>
      modify (λ s, with_queue s []);;
      clear_descriptors;;
      if finish_requested_close then finish_readable_stream_close
      else close_stream;; ok tt
  end.

(** ** Descriptors *)
Definition fill_descriptor_from_queue (d : storage) : M (storage * bool) :=
  state <- ok_or (state_of d) TypeError;
  s <- get;
  plan <- calc (plan_fill state (queue_total_size s));
  let amount := plan.(bytes_to_copy) in
  if amount =? 0 then ok (d, plan.(ready))
  else
    e <- calc (range_end plan.(destination));
    if d.(detached) || (store_length d <? e) then throw TypeError
    else
      o <- take_byte_stream_bytes amount;
      bytes <- ok_or o TypeError;
      if negb (N.of_nat (length bytes) =? amount) then throw TypeError
      else
        d <- ok_or (copy_bytes_into_descriptor d plan.(destination).(range_offset) bytes) TypeError;
        ok (with_fields d (with_filled d.(fields) plan.(fill_descriptor).(bytes_filled)),
            plan.(ready)).

Record DescriptorResolution := {
  res_descriptor : storage; res_pending : N; res_done : bool }.

(** [transfer_descriptor_buffer]: the bytes move to a buffer author code does
    not hold. *)
Definition transfer_descriptor_buffer (d : storage) : M unit :=
  if d.(detached) then throw TypeError else ok tt.

(** [prepare_descriptor_resolution] with [create_view]: the value of the
    result. *)
Definition prepare_descriptor_resolution (r : DescriptorResolution) : M (option (list N)) :=
  state <- ok_or (state_of r.(res_descriptor)) TypeError;
  transfer_descriptor_buffer r.(res_descriptor);;
  match (plan_resolution state r.(res_done)).(resolution_result) with
  | ResultUndefined => ok None
  | ResultView kind range =>
      if is_multiple_of range.(range_length) (element_size_of kind)
      then ok (Some (bytes_at r.(res_descriptor).(buffer) range.(range_offset)
                       range.(range_length)))
      else throw TypeError
  end.

Fixpoint prepare_batch (l : list DescriptorResolution)
    : M (list (N * option (list N) * bool)) :=
  match l with
  | [] => ok []
  | r :: l =>
      v <- prepare_descriptor_resolution r;
      rest <- prepare_batch l;
      ok ((r.(res_pending), v, r.(res_done)) :: rest)
  end.

Fixpoint fulfill_all (l : list (N * option (list N) * bool)) : M unit :=
  match l with
  | [] => ok tt
  | (request, v, done) :: l => fulfill_read_request request v done;; fulfill_all l
  end.

Definition resolve_descriptor_batch (resolutions : list DescriptorResolution) : M unit :=
  attempt (prepare_batch resolutions)
    (λ r, match r with
          | inl prepared => fulfill_all prepared
          | inr e => settle_all (map res_pending resolutions) Rejected;; throw e
          end).

Definition take_head_descriptor_resolution (done : bool) : M DescriptorResolution :=
  s <- get;
  match plan_take_head_resolution (readable_byte_controller_snapshot s) done with
  | inr _ => throw TypeError
  | inl plan =>
      d <- ok_or (live_head s plan.(resolution_source)) TypeError;
      invalidate_byob_request;;
      shifted <- shift_head_descriptor;
      if negb shifted then throw TypeError
      else
        o <- dequeue_first_pending_read;
        pending <- ok_or o TypeError;
        ok {| res_descriptor := d; res_pending := pending; res_done := done |}
  end.

(** [prepend_readable_stream_queue_value]. *)
Definition prepend_chunk (bytes : list N) : M unit :=
  modify (λ s, with_queue s (bytes :: s.(queue))).

(** One turn of [flush_released_descriptor]: [true] when it goes on. *)
Definition flush_released_step : M bool :=
  s <- get;
  match plan_flush_released_head (readable_byte_controller_snapshot s) with
  | FlushDone => ok false
  | FlushFlush source filled =>
      d <- ok_or (live_head s source) TypeError;
      (if range_is_empty filled then ok tt
       else
         e <- calc (range_end filled);
         if store_length d <? e then throw TypeError
         else prepend_chunk (bytes_at d.(buffer) filled.(range_offset) filled.(range_length)));;
      invalidate_byob_request;;
      shifted <- shift_head_descriptor;
      if negb shifted then throw TypeError else ok true
  end.

Fixpoint flush_released_loop (fuel : nat) : M unit :=
  match fuel with
  | O => λ _, Panic
  | S fuel => more <- flush_released_step;
              if (more : bool) then flush_released_loop fuel else ok tt
  end.

Definition flush_released_descriptor : M unit :=
  s <- get; flush_released_loop (S (length s.(pending_pull_intos))).

Fixpoint collect_loop (fuel : nat) (acc : list DescriptorResolution)
    : M (list DescriptorResolution) :=
  match fuel with
  | O => λ _, Panic
  | S fuel =>
      flush_released_descriptor;;
      s <- get;
      match head_storage s with
      | None => ok acc
      | Some d =>
          r <- fill_descriptor_from_queue d;
          modify (set_head r.1);;
          if (r.2 : bool) then
            resolution <- take_head_descriptor_resolution false;
            collect_loop fuel (acc ++ [resolution])
          else ok acc
      end
  end.

Definition collect_pending_descriptor_resolutions (acc : list DescriptorResolution)
    : M (list DescriptorResolution) :=
  s <- get; collect_loop (S (length s.(pending_pull_intos))) acc.

Fixpoint collect_default_loop (fuel : nat) (acc : list (N * list N)) : M (list (N * list N)) :=
  match fuel with
  | O => λ _, Panic
  | S fuel =>
      s <- get;
      match plan_default_read_step (readable_byte_controller_snapshot s) with
      | DefaultWait => ok acc
      | DefaultDequeue =>
          match s.(queue) with
          | [] => throw TypeError
          | value :: q =>
              modify (λ s, with_queue s q);;
              o <- dequeue_first_pending_read;
              pending <- ok_or o TypeError;
              collect_default_loop fuel (acc ++ [(pending, value)])
          end
      end
  end.

Definition collect_pending_default_read_resolutions : M (list (N * list N)) :=
  s <- get; collect_default_loop (S (length s.(pending_reads))) [].

Definition process_pending_descriptors : M unit :=
  descriptor_resolutions <- collect_pending_descriptor_resolutions [];
  default_resolutions <- collect_pending_default_read_resolutions;
  finish_readable_stream_close_if_requested_and_queue_empty;;
  resolve_descriptor_batch descriptor_resolutions;;
  fulfill_all (map (λ p, (p.1, Some p.2, false)) default_resolutions).

(** ** Enqueueing *)
Definition enqueue_transferred_chunk (chunk : list N) : M unit :=
  modify (λ s, with_queue (supply s chunk) (s.(queue) ++ [chunk])).

(** [transferable] is what [transfer_view] finds out about the chunk. *)
Definition enqueue_byte_chunk (chunk : list N) (transferable : bool) : M unit :=
  s <- get;
  match plan_enqueue_start (readable_byte_controller_snapshot s) with
  | ByteEnqueueReject | ByteEnqueuePipe _ => throw ClosedOrErrored
  | ByteEnqueueContinue =>
      if negb transferable then throw TypeError
      else if N.of_nat (length chunk) =? 0 then throw TypeError
      else
        flush_released_descriptor;;
        s <- get;
        match plan_enqueue_after_released (readable_byte_controller_snapshot s) with
        | FulfillDefaultDescriptor source =>
            d <- ok_or (live_head s source) ClosedOrErrored;
            transfer_descriptor_buffer d;;
            invalidate_byob_request;;
            shifted <- shift_head_descriptor;
            if negb shifted then throw ClosedOrErrored
            else
              o <- dequeue_first_pending_read;
              pending <- ok_or o ClosedOrErrored;
              modify (λ s, supply s chunk);;
              fulfill_read_request pending (Some chunk) false
        | QueueWithByobDescriptor source =>
            d <- ok_or (live_head s source) ClosedOrErrored;
            transfer_descriptor_buffer d;;
            invalidate_byob_request;;
            enqueue_transferred_chunk chunk;;
            process_pending_descriptors
        | Queue =>
            enqueue_transferred_chunk chunk;;
            process_pending_descriptors
        end
  end.

(** ** Reads *)
Definition enqueue_auto_allocate_pull_into (request : N) : M bool :=
  s <- get;
  o <- calc (plan_auto_allocate (readable_byte_controller_snapshot s));
  match o with
  | None => ok false
  | Some d =>
      append_descriptor
        {| buffer := replicate (N.to_nat d.(byte_length)) 0; detached := false; fields := d |};;
      enqueue_pending_read request;;
      ok true
  end.

(** [prepare_read_from_stream_as_promise] with [perform_read_from_stream]. *)
Definition perform_read_from_stream : M unit :=
  s <- get;
  let request := s.(next_request) in
  modify new_request;;
  match plan_read_start (readable_stream_snapshot s) with
  | ReadRejectStoredError => error_read_request request
  | ReadResolveDone => fulfill_read_request request None true
  | ReadContinue =>
      match s.(queue) with
      | value :: q =>
          modify (λ s, with_queue s q);;
          finish_readable_stream_close_if_requested_and_queue_empty;;
          fulfill_read_request request (Some value) false
      | [] =>
          finish_readable_stream_close_if_requested_and_queue_empty;;
          s <- get;
          if s.(closed) then fulfill_read_request request None true
          else
            b <- enqueue_auto_allocate_pull_into request;
            if (b : bool) then ok tt else enqueue_pending_read request
      end
  end.

(** A view a caller passes in: its buffer and whether it can be transferred. *)
Record view := {
  v_buffer : list N; v_offset : N; v_length : N; v_kind : ArrayBufferViewKind;
  v_transferable : bool }.

Definition read_error (e : ReadIntoError) : byte_error :=
  match e with ReadMinimumExceedsCapacity => RangeError | _ => TypeError end.

(** [prepare_byte_read_start] and [commit_byte_read_start]; a failed
    preparation rejects the read's promise. *)
Definition read_into_byte_stream (v : view) (minimum_elements : N) : M unit :=
  s <- get;
  let request := s.(next_request) in
  modify new_request;;
  match for_read (N.of_nat (length v.(v_buffer))) v.(v_offset) v.(v_length) minimum_elements
          v.(v_kind) ReaderTypeByob with
  | inr _ => error_read_request request
  | inl read_state =>
      let read_plan := plan_read_into (readable_byte_controller_snapshot s) in
      let d := {| buffer := v.(v_buffer); detached := false; fields := read_state |} in
      match read_plan with
      | ReadIntoRejectStoredError => error_read_request request
      | _ =>
          if negb v.(v_transferable) then error_read_request request
          else
            match read_plan with
            | ReadIntoResolveDone =>
                resolve_descriptor_batch
                  [{| res_descriptor := d; res_pending := request; res_done := true |}]
            | ReadIntoAppendBehindHead source =>
                match live_head s source with
                | Some _ => append_descriptor d;; enqueue_pending_read request
                | None => error_stream;; error_read_request request
                end
            | _ =>
                attempt (fill_descriptor_from_queue d)
                  (λ r, match r with
                        | inl (d, true) =>
                            attempt (resolve_descriptor_batch
                              [{| res_descriptor := d; res_pending := request; res_done := false |}])
                              (λ r, match r with
                                    | inr _ => error_stream
                                    | inl _ =>
                                        finish_readable_stream_close_if_requested_and_queue_empty
                                    end)
                        | inl (d, false) =>
                            append_descriptor d;; enqueue_pending_read request;;
                            finish_readable_stream_close_if_requested_and_queue_empty
                        | inr _ => error_stream;; error_read_request request
                        end)
            end
      end
  end.

(** ** Releasing the reader *)
Definition release_byte_stream_reader : M unit :=
  s <- get;
  match plan_release_reader (readable_byte_controller_snapshot s) with
  | ByteReleaseNone => ok tt
  | RetainReleasedHead source next_state =>
      match live_head s source with
      | None => ok tt
      | Some d =>
          modify (λ s, with_pull_intos s [with_fields d next_state])
      end
  end.

Definition release_readable_stream_reader : M unit :=
  release_byte_stream_reader;;
  reject_pending_read_requests;;
  modify (λ s, with_reader s None).

(** ** BYOB requests *)
Definition readable_byte_stream_byob_request : M (option N) :=
  s <- get;
  plan <- calc (plan_byob_request (readable_byte_controller_snapshot s));
  match plan with
  | ByobUnavailable => ok None
  | ByobUseCached => ok s.(byob_request)
  | ByobCreate creation =>
      match live_head s creation.(creation_source) with
      | None => ok None
      | Some d =>
          let request := s.(next_byob) in
          modify (λ s, with_byob_request s (Some request) (request + 1));;
          ok (Some request)
      end
  end.

Fixpoint closed_byob_loop (fuel : nat) (reads : N) (acc : list DescriptorResolution)
    : M (list DescriptorResolution) :=
  match fuel with
  | O => λ _, Panic
  | S fuel =>
      if N.of_nat (length acc) <? reads then
        s <- get;
        match plan_closed_byob_step (readable_byte_controller_snapshot s)
                (reads - N.of_nat (length acc)) with
        | inl ClosedByobDone => ok acc
        | inl (ClosedByobResolve _) =>
            r <- take_head_descriptor_resolution true;
            closed_byob_loop fuel reads (acc ++ [r])
        | inr _ => throw TypeError
        end
      else ok acc
  end.

Definition respond_in_closed_state : M unit :=
  s <- get;
  match plan_closed_released_head (readable_byte_controller_snapshot s) with
  | ClosedContinue => ok tt
  | ClosedRemove source =>
      match live_head s source with
      | None => throw TypeError
      | Some _ => shifted <- shift_head_descriptor;
                  if negb shifted then throw TypeError else ok tt
      end
  end;;
  s <- get;
  resolutions <- closed_byob_loop (S (length s.(pending_reads)))
                   (N.of_nat (length s.(pending_reads))) [];
  resolve_descriptor_batch resolutions.

Definition respond_after_buffer_transfer (plan : RespondPlan) : M unit :=
  s <- get;
  d <- ok_or (live_head s plan.(respond_source)) TypeError;
  invalidate_byob_request;;
  (match plan.(respond_action) with
   | Commit remainder =>
       if range_is_empty remainder then ok tt
       else
         e <- calc (range_end remainder);
         if store_length d <? e then throw TypeError
         else prepend_chunk (bytes_at d.(buffer) remainder.(range_offset)
                               remainder.(range_length))
   | _ => ok tt
   end);;
  s <- get;
  d <- ok_or (live_head s plan.(respond_source)) TypeError;
  modify (set_head (with_fields d (with_filled d.(fields)
                                     plan.(respond_descriptor).(bytes_filled))));;
  match plan.(respond_action) with
  | RespondClosed => respond_in_closed_state
  | FlushReleased => flush_released_descriptor;; process_pending_descriptors
  | AwaitMore => ok tt
  | Commit _ =>
      first <- take_head_descriptor_resolution false;
      resolutions <- collect_pending_descriptor_resolutions [first];
      finish_readable_stream_close_if_requested_and_queue_empty;;
      resolve_descriptor_batch resolutions
  end.

(** History: the bytes an accepted response adds behind the filled ones. *)
Definition supply_response (bytes_written : N) : M unit :=
  modify (λ s,
    match head_storage s with
    | Some d => supply s (bytes_at d.(buffer)
                            (d.(fields).(byte_offset) + d.(fields).(bytes_filled)) bytes_written)
    | None => s
    end).

(** [validate_respond]. *)
Definition validate_respond (bytes_written : N) : M RespondPlan :=
  s <- get;
  d <- ok_or (head_storage s) TypeError;
  state <- ok_or (state_of d) TypeError;
  context <- ok_or (respond_context (readable_byte_controller_snapshot s)) TypeError;
  if negb (bool_decide (context.(context_source) = state)) then throw TypeError
  else
    r <- calc (context_plan_respond context bytes_written);
    match r with
    | inr ExceedsRemaining => throw RangeError
    | inr _ => throw TypeError
    | inl plan => _ <- ok_or (live_head s state) TypeError; ok plan
    end.

(** [request] is the object the callback is called on. *)
Definition readable_stream_byob_request_respond_callback (request bytes_written : N) : M unit :=
  s <- get;
  if negb (bool_decide (s.(byob_request) = Some request)) then throw TypeError
  else
    plan <- validate_respond bytes_written;
    s <- get;
    d <- ok_or (live_head s plan.(respond_source)) TypeError;
    transfer_descriptor_buffer d;;
    supply_response bytes_written;;
    respond_after_buffer_transfer plan.

Definition respond_byte_stream_with_new_view (v : view) (v_detached : bool) : M unit :=
  s <- get;
  d <- ok_or (head_storage s) TypeError;
  state <- ok_or (state_of d) TypeError;
  context <- ok_or (respond_context (readable_byte_controller_snapshot s)) TypeError;
  if negb (bool_decide (context.(context_source) = state)) then throw TypeError
  else
    r <- calc (context_plan_respond_with_new_view context
                 {| view_buffer_byte_length := N.of_nat (length v.(v_buffer));
                    view_byte_offset := v.(v_offset); view_byte_length := v.(v_length);
                    view_detached := v_detached |});
    match r with
    | inr BufferLengthMismatch | inr ViewInvalidBounds => throw RangeError
    | inr _ => throw TypeError
    | inl plan =>
        if negb v.(v_transferable) then throw TypeError
        else
          s <- get;
          d <- ok_or (live_head s plan.(respond_source)) TypeError;
          modify (set_head {| buffer := v.(v_buffer); detached := false; fields := d.(fields) |});;
          supply_response v.(v_length);;
          respond_after_buffer_transfer plan
    end.

Definition readable_stream_byob_request_respond_with_new_view_callback (request : N)
    (v : view) (v_detached : bool) : M unit :=
  s <- get;
  if negb (bool_decide (s.(byob_request) = Some request)) then throw TypeError
  else respond_byte_stream_with_new_view v v_detached.

(** ** Operations *)
Inductive op :=
  | GetReader (kind : ReaderKind)
  | Read
  | ReadInto (v : view) (minimum_elements : N)
  | ReleaseLock
  | Enqueue (chunk : list N) (transferable : bool)
  | GetByobRequest
  | Respond (request bytes_written : N)
  | RespondWithNewView (request : N) (v : view) (detached : bool)
  | CloseStream
  | ErrorStream
  | CancelStream
  | AuthorWrites (contents : list N)
  | AuthorDetaches.

(** Author code holds the head's buffer while a BYOB request is current. *)
Definition author_head (f : storage → storage) : M unit :=
  s <- get;
  match s.(byob_request), s.(pending_pull_intos) with
  | Some _, d :: l => modify (λ s, with_pull_intos s (f d :: l))
  | _, _ => ok tt
  end.

Definition perform (o : op) : M unit :=
  s <- get;
  match o with
  | GetReader kind =>
      match s.(reader) with
      | None => modify (λ s, with_reader s (Some kind))
      | Some _ => throw TypeError
      end
  | Read => match s.(reader) with Some ReaderDefault => perform_read_from_stream | _ => throw TypeError end
  | ReadInto v n =>
      match s.(reader) with Some ReaderByob => read_into_byte_stream v n | _ => throw TypeError end
  | ReleaseLock =>
      match s.(reader) with Some _ => release_readable_stream_reader | None => ok tt end
  | Enqueue chunk transferable => enqueue_byte_chunk chunk transferable
  | GetByobRequest => readable_byte_stream_byob_request;; ok tt
  | Respond r n => readable_stream_byob_request_respond_callback r n
  | RespondWithNewView r v det => readable_stream_byob_request_respond_with_new_view_callback r v det
  | CloseStream => readable_stream_controller_close_callback
  | ErrorStream => error_stream
  | CancelStream => cancel_readable_stream
  | AuthorWrites contents =>
      author_head (λ d, if Nat.eqb (length contents) (length d.(buffer))
                        then with_buffer d contents else d)
  | AuthorDetaches =>
      author_head (λ d, {| buffer := d.(buffer); detached := true; fields := d.(fields) |})
  end.

(** One call from author code, its exception (if any) caught by the caller. *)
Definition exec (o : op) (s : stream) : run stream := fst <$> perform o s.

Fixpoint exec_all (l : list op) (s : stream) : run stream :=
  match l with [] => Ret s | o :: l => s' ← exec o s; exec_all l s' end.
