(* ===== verification/ByteDelivery.v ===== *)
(** Delivery on readable byte streams: every byte the source supplies reaches
    the readers once and in order, whatever mixture of default reads, BYOB
    reads, responses, releases, closes and errors author code performs, and
    every read is settled at most once.  The calls left out ([permitted]) are
    those for which the code does not do this; the last lemmas show each. *)
From stdpp Require Import base list numbers option relations list_tactics.
From S2P Require Import Prelude Readable ByteController ByteStream.

#[local] Open Scope N_scope.

(** ** What the history says *)

(** The bytes of one settlement, and of all of them in the order the reads
    were settled. *)
Definition settled_bytes (p : N * settlement) : list N :=
  match p.2 with Fulfilled (Some b) _ => b | _ => [] end.

Definition delivered (s : stream) : list N := concat (map settled_bytes s.(settled)).

Definition filled_bytes (d : storage) : list N :=
  bytes_at d.(buffer) d.(fields).(byte_offset) d.(fields).(bytes_filled).

(** The bytes the head descriptor has received and not yet handed out. *)
Definition held (s : stream) : list N :=
  match s.(pending_pull_intos) with d :: _ => filled_bytes d | [] => [] end.

Definition live (s : stream) : bool := negb s.(closed) && negb s.(stored_error).

(** The calls the delivery theorem is about.  Author code that writes into the
    exposed buffer, or passes a replacement for it, leaves the bytes already
    filled alone; the response to a released request ends on an element
    boundary or below the minimum; and no chunk is enqueued while a released
    request that already holds bytes stands in front of an auto-allocated
    one. *)
Definition keeps_filled (s : stream) (contents : list N) : bool :=
  match s.(pending_pull_intos) with
  | d :: _ => bool_decide (bytes_at contents d.(fields).(byte_offset) d.(fields).(bytes_filled)
                           = filled_bytes d)
  | [] => true
  end.

Definition released_response_fits (s : stream) (n : N) : bool :=
  match s.(pending_pull_intos) with
  | d :: _ =>
      negb (bool_decide (d.(fields).(reader_type) = ReaderTypeNone))
      || (d.(fields).(bytes_filled) + n <? d.(fields).(minimum_fill))
      || is_multiple_of (d.(fields).(bytes_filled) + n) (element_size d.(fields))
  | [] => true
  end.

Definition released_before_default (s : stream) : bool :=
  match s.(pending_pull_intos) with
  | d :: e :: _ => bool_decide (d.(fields).(reader_type) = ReaderTypeNone)
                   && negb (d.(fields).(bytes_filled) =? 0)
                   && bool_decide (e.(fields).(reader_type) = ReaderTypeDefault)
  | _ => false
  end.

Definition permitted (s : stream) (o : op) : bool :=
  match o with
  | Enqueue _ _ => negb (released_before_default s)
  | Respond _ n => released_response_fits s n
  | RespondWithNewView _ v _ => released_response_fits s v.(v_length) && keeps_filled s v.(v_buffer)
  | AuthorWrites contents => keeps_filled s contents
  | _ => true
  end.

Definition step (s s' : stream) : Prop := ∃ o, permitted s o = true ∧ exec o s = Ret s'.

(** ** Total correctness *)
Definition wp {A} (m : M A) (Q : stream → A + byte_error → Prop) (s : stream) : Prop :=
  match m s with Ret (s', r) => Q s' r | Panic => False end.

Lemma wp_bind {A B} (m : M A) (f : A → M B) Q s :
  wp m (λ s' r, match r with inl a => wp (f a) Q s' | inr e => Q s' (inr e) end) s →
  wp (bind m f) Q s.
Proof. unfold wp, bind. destruct (m s) as [[s' [a|e]]|]; auto. Qed.

Lemma wp_attempt {A B} (m : M A) (f : A + byte_error → M B) Q s :
  wp m (λ s' r, wp (f r) Q s') s → wp (attempt m f) Q s.
Proof. unfold wp, attempt. destruct (m s) as [[s' r]|]; auto. Qed.

Lemma wp_mono {A} (m : M A) (P Q : stream → A + byte_error → Prop) s :
  wp m P s → (∀ s' r, P s' r → Q s' r) → wp m Q s.
Proof. unfold wp. destruct (m s) as [[s' r]|]; auto. Qed.

Lemma wp_get_bind {B} (f : stream → M B) Q s : wp (f s) Q s → wp (bind get f) Q s.
Proof. done. Qed.

Lemma wp_modify_bind {B} g (f : unit → M B) Q s : wp (f tt) Q (g s) → wp (bind (modify g) f) Q s.
Proof. done. Qed.

Lemma wp_calc_bind {A B} (m : run A) (f : A → M B) Q s a :
  m = Ret a → wp (f a) Q s → wp (bind (calc m) f) Q s.
Proof. by intros ->. Qed.

Lemma wp_ok_or_bind {A B} (o : option A) e (f : A → M B) Q s a :
  o = Some a → wp (f a) Q s → wp (bind (ok_or o e) f) Q s.
Proof. by intros ->. Qed.

Lemma wp_ok {A} (a : A) (Q : stream → A + byte_error → Prop) s : Q s (inl a) → wp (ok a) Q s.
Proof. done. Qed.

Lemma wp_throw {A} e (Q : stream → A + byte_error → Prop) s : Q s (inr e) → wp (throw e) Q s.
Proof. done. Qed.

(** Runs the straight-line prefix of a goal [wp m Q s]. *)
Ltac wp_steps :=
  repeat first
    [ apply wp_get_bind | apply wp_modify_bind | apply wp_ok | apply wp_throw
    | progress simpl ].

(** ** Bytes of a buffer *)
Lemma length_bytes_at l a n :
  a + n ≤ N.of_nat (length l) → length (bytes_at l a n) = N.to_nat n.
Proof. intros. unfold bytes_at. rewrite length_take, length_drop. lia. Qed.

Lemma bytes_at_app l a m n : bytes_at l a (m + n) = bytes_at l a m ++ bytes_at l (a + m) n.
Proof.
  unfold bytes_at. rewrite !N2Nat.inj_add, <-drop_drop.
  rewrite <-(take_drop (N.to_nat m) (take (_ + _) _)). f_equal.
  - rewrite take_take. f_equal. lia.
  - rewrite skipn_firstn_comm. f_equal. lia.
Qed.

Lemma bytes_at_zero l a : bytes_at l a 0 = [].
Proof. done. Qed.

Lemma length_put_bytes l a b :
  a + N.of_nat (length b) ≤ N.of_nat (length l) → length (put_bytes l a b) = length l.
Proof. intros. unfold put_bytes. rewrite !length_app, length_take, length_drop. lia. Qed.

(** Writing right behind a prefix extends it. *)
Lemma bytes_at_put l a m b :
  a + m + N.of_nat (length b) ≤ N.of_nat (length l) →
  bytes_at (put_bytes l (a + m) b) a (m + N.of_nat (length b)) = bytes_at l a m ++ b.
Proof.
  intros H. unfold bytes_at, put_bytes.
  rewrite drop_app_le by (rewrite length_take; lia).
  rewrite take_app_ge by (rewrite length_drop, length_take; lia).
  rewrite length_drop, length_take.
  rewrite skipn_firstn_comm. f_equal; [f_equal; lia |].
  rewrite take_app_length'; [done | lia].
Qed.

Lemma concat_nil_nonempty {A} (q : list (list A)) :
  Forall (λ c, c ≠ []) q → concat q = [] → q = [].
Proof. destruct 1 as [|c q Hc]; [done |]. simpl. intros []%app_eq_nil. done. Qed.

Lemma queue_total_concat q :
  Nsum (λ c : list N, N.of_nat (length c)) q = N.of_nat (length (concat q)).
Proof. induction q; simpl; [done |]. rewrite length_app. lia. Qed.

Lemma take_chunks_spec n q :
  Forall (λ c, c ≠ []) q →
  take_chunks n q = (take n (concat q), snd (take_chunks n q)) ∧
  concat (snd (take_chunks n q)) = drop n (concat q) ∧
  Forall (λ c, c ≠ []) (snd (take_chunks n q)).
Proof.
  intros Hq. revert n. induction Hq as [|c q Hc Hq IH]; intros n.
  { destruct n; done. }
  destruct n as [|n]; [simpl; split_and!; [done | done | by constructor] |].
  cbn [take_chunks concat].
  remember (Nat.min (S n) (length c)) as m eqn:Em.
  destruct (IH (S n - m)%nat) as (E1 & E2 & E3).
  destruct (take_chunks (S n - m) q) as [b r]. cbn [snd] in E1, E2, E3. injection E1 as ->.
  destruct (Nat.ltb_spec m (length c)) as [Hlt|Hge].
  - replace m with (S n) in * by lia. rewrite Nat.sub_diag in *. cbn [snd concat].
    rewrite E2, drop_0, take_0, app_nil_r.
    rewrite take_app_le, drop_app_le by lia. split_and!; [done | done |].
    constructor; [| done]. intros Hd%(f_equal length). rewrite length_drop in Hd. simpl in Hd. lia.
  - replace m with (length c) in * by lia. cbn [snd concat].
    rewrite take_ge by lia. rewrite E2.
    rewrite take_app_ge, drop_app_ge by lia. done.
Qed.

(** ** The invariant *)
Definition good (d : storage) : Prop :=
  wf d.(fields) ∧ N.of_nat (length d.(buffer)) = d.(fields).(buffer_byte_length) ∧
  (d.(fields).(reader_type) = ReaderTypeDefault →
   d.(fields).(bytes_filled) = 0 ∧ d.(fields).(minimum_fill) = 1 ∧ d.(fields).(view_kind) = Uint8).

(** A descriptor behind the head: empty, its buffer never exposed. *)
Definition fresh (d : storage) : Prop :=
  good d ∧ d.(fields).(bytes_filled) = 0 ∧ d.(detached) = false ∧
  d.(fields).(reader_type) ≠ ReaderTypeNone.

Definition descs_ok (l : list storage) : Prop :=
  match l with [] => True | d :: l => good d ∧ Forall fresh l end.

Definition active (l : list storage) : nat :=
  length (filter (λ d, d.(fields).(reader_type) ≠ ReaderTypeNone) l).

Definition auto_on (s : stream) : bool :=
  match s.(auto_allocate) with Some n => negb (n =? 0) | None => false end.

(** How many descriptors wait for the pending reads. *)
Definition match_ok (s : stream) : Prop :=
  match s.(reader) with
  | Some ReaderByob => active s.(pending_pull_intos) = length s.(pending_reads)
  | Some ReaderDefault =>
      active s.(pending_pull_intos) = if auto_on s then length s.(pending_reads) else 0%nat
  | None => active s.(pending_pull_intos) = 0%nat ∧ s.(pending_reads) = []
  end.

(** [fl]: reads already taken off the stream and about to be settled, with
    the bytes they will get. *)
Record core (fl : list (N * list N)) (s : stream) : Prop := {
  core_descs : descs_ok s.(pending_pull_intos);
  core_chunks : Forall (λ c, c ≠ []) s.(queue);
  core_bytes : ∃ lost, s.(supplied) =
    delivered s ++ concat (map snd fl) ++ held s ++ concat s.(queue) ++ lost ∧
    (live s = true → lost = []);
  core_reads : map fst s.(settled) ++ map fst fl ++ s.(pending_reads) ≡ₚ issued s.(next_request);
  core_auto : match s.(auto_allocate) with Some n => n ≤ u64_max | None => True end;
  core_match : live s = true → match_ok s;
  core_errored : s.(stored_error) = true → s.(pending_pull_intos) = [] ∧ s.(queue) = [];
  core_closed : s.(closed) = true → s.(queue) = [] }.

(** Between calls a waiting descriptor means an empty queue. *)
Definition inv (s : stream) : Prop :=
  core [] s ∧ (s.(pending_pull_intos) ≠ [] → s.(queue) = []).

Lemma state_of_wf d : wf d.(fields) → state_of d = Some d.(fields).
Proof. intros H%valid_wf. unfold valid in H. unfold state_of. by rewrite H. Qed.

Lemma state_of_good d : good d → state_of d = Some d.(fields).
Proof. intros [? _]. by apply state_of_wf. Qed.

Lemma fresh_good d : fresh d → good d.
Proof. by intros [? _]. Qed.

Lemma descs_ok_tail d l : descs_ok (d :: l) → descs_ok l.
Proof. intros [_ H]. destruct H; [done |]. split; [by apply fresh_good | done]. Qed.

Lemma fresh_filled_bytes d : fresh d → filled_bytes d = [].
Proof. intros (_ & H & _). unfold filled_bytes. by rewrite H. Qed.

Lemma held_tail l s : Forall fresh l → held (with_pull_intos s l) = [].
Proof. unfold held. simpl. destruct 1; [done |]. by apply fresh_filled_bytes. Qed.

Lemma active_cons d l : active (d :: l) =
  ((if decide (d.(fields).(reader_type) = ReaderTypeNone) then 0 else 1) + active l)%nat.
Proof.
  unfold active. rewrite filter_cons. repeat case_decide; naive_solver.
Qed.

Lemma active_one d : d.(fields).(reader_type) ≠ ReaderTypeNone → active [d] = 1%nat.
Proof. intros. by rewrite active_cons, decide_False. Qed.

Lemma active_app l k : active (l ++ k) = (active l + active k)%nat.
Proof. unfold active. by rewrite filter_app, length_app. Qed.

(** ** Snapshots of a stream in its invariant *)
Lemma head_descriptor_core s :
  descs_ok s.(pending_pull_intos) →
  head_descriptor (readable_byte_controller_snapshot s) =
  match s.(pending_pull_intos) with d :: _ => Some d.(fields) | [] => None end.
Proof.
  unfold head_descriptor. simpl. destruct (pending_pull_intos s) as [|d l]; [done |].
  intros [Hg _]. simpl. by rewrite (state_of_good _ Hg).
Qed.

Lemma head_storage_core s :
  descs_ok s.(pending_pull_intos) → head_storage s = hd_error s.(pending_pull_intos).
Proof.
  unfold head_storage. destruct (pending_pull_intos s) as [|d l]; [done |].
  intros [Hg _]. by rewrite (state_of_good _ Hg).
Qed.

Lemma live_head_core s d l :
  s.(pending_pull_intos) = d :: l → good d → live_head s d.(fields) = Some d.
Proof.
  intros E Hg. unfold live_head, head_storage. rewrite E, (state_of_good _ Hg).
  by rewrite (state_of_good _ Hg), decide_True.
Qed.

Lemma delivered_settle s p sd :
  delivered (with_reads s p sd) = concat (map settled_bytes sd).
Proof. done. Qed.

(** ** Settling reads *)
Lemma settle_all_wp l r (Q : stream → unit + byte_error → Prop) s :
  Q (with_reads s s.(pending_reads) (s.(settled) ++ map (λ x, (x, r)) l)) (inl tt) →
  wp (settle_all l r) Q s.
Proof.
  revert s. induction l as [|x l IH]; intros s HQ; simpl.
  - rewrite app_nil_r in HQ. by destruct s.
  - apply wp_modify_bind, IH. simpl. by rewrite <-app_assoc.
Qed.

Lemma fulfill_all_wp l (Q : stream → unit + byte_error → Prop) s :
  Q (with_reads s s.(pending_reads)
       (s.(settled) ++ map (λ '(x, v, done), (x, Fulfilled v done)) l)) (inl tt) →
  wp (fulfill_all l) Q s.
Proof.
  revert s. induction l as [|[[x v] b] l IH]; intros s HQ; simpl.
  - rewrite app_nil_r in HQ. by destruct s.
  - apply wp_modify_bind, IH. simpl. by rewrite <-app_assoc.
Qed.

(** Settlements that carry no bytes. *)
Lemma settled_bytes_none l r :
  settled_bytes (0, r) = [] → concat (map settled_bytes (map (λ x : N, (x, r)) l)) = [].
Proof. intros H. induction l; simpl; [done |]. unfold settled_bytes in *. simpl in *. by rewrite H. Qed.

(** ** Closing and failing *)

(** Errors, closes and cancels keep the invariant with any reads in flight. *)
Lemma core_lose fl s s' :
  core fl s → live s' = false →
  s'.(settled) = s.(settled) → s'.(pending_reads) = s.(pending_reads) →
  s'.(next_request) = s.(next_request) → s'.(auto_allocate) = s.(auto_allocate) →
  s'.(supplied) = s.(supplied) → s'.(queue) = [] → s'.(pending_pull_intos) = [] →
  core fl s'.
Proof.
  intros [] Hl Es Ep En Ea Esup Eq Ed. constructor; rewrite ?Es, ?Ep, ?En, ?Ea, ?Eq, ?Ed; try done.
  - destruct core_bytes0 as (lost & Hb & _).
    exists (held s ++ concat (queue s) ++ lost). rewrite Hl. split; [| done].
    unfold held, delivered in *. rewrite Ed, Esup, Es, Hb. simpl. done.
  - by rewrite Hl.
Qed.

(** The pending reads settled without bytes. *)
Lemma core_settle_all fl s r :
  core fl s → live s = false → settled_bytes (0, r) = [] →
  core fl (with_reads s [] (s.(settled) ++ map (λ x, (x, r)) s.(pending_reads))).
Proof.
  intros [] Hl Hr. constructor; simpl; try done.
  - destruct core_bytes0 as (lost & Hb & Hlost). exists lost. split; [| done].
    unfold delivered in *. simpl. rewrite map_app, concat_app, settled_bytes_none by done.
    rewrite app_nil_r. done.
  - rewrite <-core_reads0, map_app, map_map. simpl. rewrite map_id. solve_Permutation.
  - unfold live in *. simpl. by rewrite Hl.
Qed.

(** What a terminal transition may do to the data: keep it or drop it. *)
Definition keeps_or_drops (s s' : stream) : Prop :=
  (s'.(queue) = s.(queue) ∨ s'.(queue) = []) ∧
  (s'.(pending_pull_intos) = s.(pending_pull_intos) ∨ s'.(pending_pull_intos) = []).

Lemma keeps_or_drops_refl s : keeps_or_drops s s.
Proof. by split; left. Qed.

Lemma keeps_rest s s' :
  keeps_or_drops s s' → (s.(pending_pull_intos) ≠ [] → s.(queue) = []) →
  s'.(pending_pull_intos) ≠ [] → s'.(queue) = [].
Proof. intros [[->| ->] [->| ->]]; naive_solver. Qed.

Lemma is_readable_live s : is_readable (readable_stream_snapshot s).(state) = live s.
Proof. unfold live. simpl. by destruct (closed s), (stored_error s). Qed.

Lemma error_stream_core fl s :
  core fl s →
  wp error_stream (λ s' r, r = inl tt ∧ core fl s' ∧ (live s = true → s'.(closed) = true) ∧
                           keeps_or_drops s s') s.
Proof.
  intros Hc. unfold error_stream. wp_steps. unfold plan_error. rewrite is_readable_live.
  destruct (live s) eqn:Hl; [| apply wp_ok; split_and!; [done | done | done | apply keeps_or_drops_refl]].
  unfold clear_descriptors, invalidate_byob_request. apply wp_bind. wp_steps.
  apply wp_bind, settle_all_wp. wp_steps. unfold wp, modify.
  split_and!; [done | | done | by split; right].
  apply (core_settle_all fl (with_queue (with_lifecycle (with_pull_intos
    (with_byob_request s None (next_byob s)) []) true true (close_is_requested s)) [])
    Rejected); [| done | done].
  by apply (core_lose fl s).
Qed.

Lemma finish_readable_stream_close_core fl s :
  core fl s → s.(queue) = [] →
  wp finish_readable_stream_close
    (λ s' r, r = inl tt ∧ core fl s' ∧ (live s = true → s'.(closed) = true) ∧
             keeps_or_drops s s') s.
Proof.
  intros Hc Hq. unfold finish_readable_stream_close. apply wp_get_bind.
  rewrite is_readable_live. destruct (live s) eqn:Hl; simpl;
    [| apply wp_ok; split_and!; [done | done | done | apply keeps_or_drops_refl]].
  apply wp_modify_bind, wp_get_bind.
  set (s1 := with_lifecycle s true (stored_error s) false).
  assert (core fl s1) as Hc1.
  { destruct Hc. constructor; simpl; try done.
    destruct core_bytes0 as (lost & Hb & Hlost). exists lost. split; [done |].
    unfold live; simpl. done. }
  destruct (plan_byte_finish_close _).
  - apply wp_bind, settle_all_wp. apply (wp_modify_bind _ (λ _, ok tt)). wp_steps.
    split_and!; [done | | done | by split; left].
    exact (core_settle_all fl s1 (Fulfilled None true) Hc1 eq_refl eq_refl).
  - apply wp_ok. split_and!; [done | done | done | by split; left].
Qed.

Lemma finish_close_core fl s :
  core fl s →
  wp finish_readable_stream_close_if_requested_and_queue_empty
    (λ s' r, r = inl tt ∧ core fl s' ∧ keeps_or_drops s s' ∧ (s' = s ∨ s'.(closed) = true)) s.
Proof.
  intros Hc. unfold finish_readable_stream_close_if_requested_and_queue_empty.
  apply wp_get_bind. unfold Readable.plan_finish_close. rewrite is_readable_live. simpl.
  destruct (live s && close_is_requested s && _) eqn:E;
    [| apply wp_ok; auto using keeps_or_drops_refl].
  apply andb_prop in E as [[El _]%andb_prop Eq]. destruct (queue s) eqn:Hq; [| done].
  apply wp_attempt. unfold prepare_readable_byte_stream_close. apply wp_get_bind.
  destruct (validate_close _); [apply wp_ok | apply wp_throw].
  - eapply wp_mono; [by apply finish_readable_stream_close_core |]. naive_solver.
  - eapply wp_mono; [by apply error_stream_core |]. naive_solver.
Qed.

(** ** Filling *)

(** What [fill_descriptor_from_queue] does: bytes move from the front of the
    queue behind the filled prefix, all of them unless the descriptor is
    ready. *)
Record filled_ok (s : stream) (d d' : storage) (rdy : bool) (q : list (list N)) : Prop := {
  fo_fields : d'.(fields) = with_filled d.(fields) d'.(fields).(bytes_filled);
  fo_wf : wf d'.(fields);
  fo_length : length d'.(buffer) = length d.(buffer);
  fo_detached : d'.(detached) = false;
  fo_bytes : filled_bytes d' ++ concat q = filled_bytes d ++ concat s.(queue);
  fo_chunks : Forall (λ c, c ≠ []) q;
  fo_ready : rdy = is_ready d'.(fields);
  fo_takes_all : rdy = false → q = [] }.

Lemma fill_none_ok s d p :
  good d → d.(detached) = false → Forall (λ c, c ≠ []) s.(queue) →
  fill_ok d.(fields) (queue_total_size s) p → p.(bytes_to_copy) = 0 →
  filled_ok s d d p.(ready) s.(queue).
Proof.
  intros (Hw & _) Hd Hq [] E0. rewrite E0, N.add_0_r, with_filled_id in fill_next.
  rewrite fill_next in *. constructor; try done.
  - by rewrite with_filled_id.
  - intros Hr. apply concat_nil_nonempty; [done |]. apply nil_length_inv.
    specialize (fill_takes_all Hr). unfold queue_total_size in fill_takes_all.
    rewrite queue_total_concat in fill_takes_all. lia.
Qed.

(** The bytes a fill moves. *)
Lemma fill_some_ok s d p bytes q :
  good d → d.(detached) = false → Forall (λ c, c ≠ []) s.(queue) →
  fill_ok d.(fields) (queue_total_size s) p →
  take_chunks (N.to_nat p.(bytes_to_copy)) s.(queue) = (bytes, q) →
  N.of_nat (length bytes) = p.(bytes_to_copy) ∧
  filled_ok s d
    (with_fields (with_buffer d (put_bytes d.(buffer)
        (d.(fields).(byte_offset) + d.(fields).(bytes_filled)) bytes))
      (with_filled d.(fields) p.(fill_descriptor).(bytes_filled))) p.(ready) q.
Proof.
  intros (Hw & Hlen & _) Hd Hq [] Ht.
  destruct (take_chunks_spec (N.to_nat (bytes_to_copy p)) (queue s) Hq) as (E1 & E2 & E3).
  rewrite Ht in E1, E2, E3. simpl in E2, E3. injection E1 as ->.
  unfold queue_total_size in *. rewrite queue_total_concat in *.
  assert (N.of_nat (length (take (N.to_nat (bytes_to_copy p)) (concat (queue s))))
          = bytes_to_copy p) as Hl by (rewrite length_take; lia).
  split; [done |]. rewrite fill_next in *.
  destruct fill_in_buffer as [Hb _]. rewrite fill_destination in Hb. simpl in Hb.
  constructor; simpl; try done.
  - by rewrite length_put_bytes by lia.
  - unfold filled_bytes. simpl. rewrite <-Hl at 2. rewrite bytes_at_put by lia.
    rewrite E2, <-app_assoc, take_drop. done.
  - intros Hr. apply concat_nil_nonempty; [done |]. rewrite E2.
    apply drop_ge. rewrite (fill_takes_all Hr). lia.
Qed.

Lemma fill_wp s d :
  good d → d.(detached) = false → Forall (λ c, c ≠ []) s.(queue) →
  wp (fill_descriptor_from_queue d)
    (λ s' r, ∃ d' rdy q, r = inl (d', rdy) ∧ s' = with_queue s q ∧ filled_ok s d d' rdy q) s.
Proof.
  intros Hg Hd Hq. unfold fill_descriptor_from_queue.
  apply wp_ok_or_bind with (fields d); [by apply state_of_good |].
  apply wp_get_bind.
  destruct (plan_fill_wf (fields d) (queue_total_size s)) as (p & Hp & Hok); [apply Hg |].
  apply wp_calc_bind with p; [done |]. cbv zeta.
  destruct (N.eqb_spec (bytes_to_copy p) 0) as [E|E].
  { apply wp_ok. exists d, (ready p), (queue s). split_and!; [done | by destruct s |].
    by apply fill_none_ok. }
  pose proof (fill_destination _ _ _ Hok) as Edest.
  pose proof (fill_in_buffer _ _ _ Hok) as [Hb Hu]. rewrite Edest in Hb, Hu. simpl in Hb, Hu.
  assert (queue s ≠ []) as Hne.
  { intros E'. pose proof (fill_available _ _ _ Hok) as H.
    unfold queue_total_size in H. rewrite E' in H. simpl in H. lia. }
  rewrite Edest. eapply wp_calc_bind; [by apply add64_fits |].
  assert (store_length d = buffer_byte_length (fields d)) as Hst
    by (unfold store_length; rewrite Hd; apply Hg).
  rewrite Hd, Hst. simpl. rewrite (proj2 (N.ltb_ge _ _)) by lia.
  unfold take_byte_stream_bytes. apply wp_bind, wp_get_bind.
  destruct (queue s) as [|c q0] eqn:Eq; [done |]. rewrite <-Eq in *.
  rewrite (proj2 (N.eqb_neq _ _)) by done.
  destruct (take_chunks (N.to_nat (bytes_to_copy p)) (queue s)) as [bytes q] eqn:Et.
  destruct (fill_some_ok s d p bytes q) as [Hl Hf]; [done.. |].
  apply wp_modify_bind, wp_ok. simpl.
  apply wp_bind, wp_ok. rewrite Hl, N.eqb_refl. cbv beta iota. simpl negb.
  eapply wp_ok_or_bind.
  { unfold copy_bytes_into_descriptor. rewrite (proj2 (checked_add64_Some _ _ _)) by (split; [done | lia]).
    rewrite Hst, (proj2 (N.ltb_ge _ _)) by lia. done. }
  apply wp_ok. do 3 eexists. split_and!; [done | done |]. done.
Qed.

(** ** Released descriptors *)

(** The stream with its released head, if any, moved back to the queue. *)
Definition flushed (s : stream) : stream :=
  match s.(pending_pull_intos) with
  | d :: l =>
      if decide (d.(fields).(reader_type) = ReaderTypeNone)
      then with_pull_intos
             (with_byob_request
                (with_queue s (if d.(fields).(bytes_filled) =? 0 then s.(queue)
                               else filled_bytes d :: s.(queue)))
                None s.(next_byob)) l
      else s
  | [] => s
  end.

Lemma flush_step_done s (Q : stream → bool + byte_error → Prop) :
  descs_ok s.(pending_pull_intos) →
  match s.(pending_pull_intos) with
  | d :: _ => d.(fields).(reader_type) ≠ ReaderTypeNone | [] => True end →
  Q s (inl false) → wp flush_released_step Q s.
Proof.
  intros Hd Hn HQ. unfold flush_released_step. apply wp_get_bind.
  unfold plan_flush_released_head. rewrite head_descriptor_core by done.
  destruct (pending_pull_intos s); [done |]. by rewrite decide_False.
Qed.

Lemma good_filled_range d :
  good d → d.(fields).(byte_offset) + d.(fields).(bytes_filled) ≤ d.(fields).(buffer_byte_length)
         ∧ d.(fields).(byte_offset) + d.(fields).(bytes_filled) ≤ u64_max.
Proof. intros ([] & _). lia. Qed.

Lemma flush_step_head s d l (Q : stream → bool + byte_error → Prop) :
  s.(pending_pull_intos) = d :: l → good d → d.(fields).(reader_type) = ReaderTypeNone →
  Q (flushed s) (inl true) →
  (d.(detached) = true → d.(fields).(bytes_filled) ≠ 0 → Q s (inr TypeError)) →
  wp flush_released_step Q s.
Proof.
  intros E Hg Hn HQ Herr. unfold flush_released_step. apply wp_get_bind.
  assert (head_descriptor (readable_byte_controller_snapshot s) = Some (fields d)) as Hh.
  { unfold head_descriptor. simpl. rewrite E. simpl. by rewrite (state_of_good _ Hg). }
  unfold plan_flush_released_head. rewrite Hh, decide_True by done.
  eapply wp_ok_or_bind; [by eapply live_head_core |].
  pose proof (good_filled_range d Hg) as [Hb Hu].
  unfold flushed in HQ. rewrite E, decide_True in HQ by done.
  assert (∀ s', pending_pull_intos s' = d :: l →
            Q (with_pull_intos (with_byob_request s' None (next_byob s')) l) (inl true) →
            wp (bind invalidate_byob_request (λ _, bind shift_head_descriptor
              (λ shifted, if negb shifted then throw TypeError else ok true))) Q s') as Hshift.
  { intros s' E' HQ'. apply wp_modify_bind, wp_bind, wp_get_bind. simpl. by rewrite E'. }
  unfold range_is_empty, filled_range. simpl. apply wp_bind.
  destruct (N.eqb_spec (bytes_filled (fields d)) 0) as [E0|E0].
  { apply wp_ok, Hshift; [done |]. by destruct s. }
  eapply wp_calc_bind; [by apply add64_fits |]. cbn [range_offset range_length].
  destruct (detached d) eqn:Hdet.
  - unfold store_length. rewrite Hdet, (proj2 (N.ltb_lt _ _)) by lia. apply wp_throw. auto.
  - assert (store_length d = buffer_byte_length (fields d)) as ->
      by (unfold store_length; rewrite Hdet; apply Hg).
    rewrite (proj2 (N.ltb_ge _ _)) by lia. unfold prepend_chunk, wp at 1, modify.
    by apply Hshift.
Qed.

Lemma flush_wp s (Q : stream → unit + byte_error → Prop) :
  descs_ok s.(pending_pull_intos) → Q (flushed s) (inl tt) →
  (∀ d l, s.(pending_pull_intos) = d :: l → d.(fields).(reader_type) = ReaderTypeNone →
          d.(detached) = true → d.(fields).(bytes_filled) ≠ 0 → Q s (inr TypeError)) →
  wp flush_released_descriptor Q s.
Proof.
  intros Hd HQ Herr. unfold flush_released_descriptor. apply wp_get_bind.
  cbn [flush_released_loop]. apply wp_bind.
  destruct (pending_pull_intos s) as [|d l] eqn:E; [apply flush_step_done; rewrite ?E; try done |].
  { unfold flushed in HQ. by rewrite E in HQ. }
  destruct Hd as [Hg Hl].
  destruct (decide (reader_type (fields d) = ReaderTypeNone)) as [Hn|Hn].
  - eapply flush_step_head; [done | done | done | | by eauto].
    cbn [flush_released_loop length]. apply wp_bind.
    assert (pending_pull_intos (flushed s) = l) as El
      by (unfold flushed; rewrite E, decide_True by done; done).
    apply flush_step_done; rewrite ?El; [by apply (descs_ok_tail d) | | done].
    destruct Hl as [|e l' He]; [done | apply He].
  - apply flush_step_done; rewrite ?E; [done | done |].
    unfold flushed in HQ. rewrite E, decide_False in HQ by done. apply HQ.
Qed.

Lemma length_filled_bytes d : good d → length (filled_bytes d) = N.to_nat d.(fields).(bytes_filled).
Proof.
  intros Hg. pose proof (good_filled_range d Hg) as [? _]. destruct Hg as (_ & Hl & _).
  apply length_bytes_at. lia.
Qed.

Lemma core_flushed fl s : core fl s → live s = true → core fl (flushed s).
Proof.
  intros Hc Hl. unfold flushed. destruct (pending_pull_intos s) as [|d l] eqn:E; [done |].
  case_decide as Hn; [| done]. destruct Hc. rewrite E in core_descs0.
  destruct core_descs0 as [Hg Hf]. constructor; simpl; try done.
  - by apply (descs_ok_tail d).
  - destruct (N.eqb_spec (bytes_filled (fields d)) 0) as [|H0]; [done |]. constructor; [| done].
    intros E'%(f_equal length). rewrite length_filled_bytes in E' by done. simpl in E'. lia.
  - destruct core_bytes0 as (lost & Hb & Hlost). exists lost. split; [| done].
    rewrite (held_tail l) by done. rewrite Hb. unfold held. rewrite E. simpl.
    unfold delivered. simpl. f_equal. f_equal.
    destruct (N.eqb_spec (bytes_filled (fields d)) 0) as [H0|H0]; simpl.
    + unfold filled_bytes. by rewrite H0.
    + by rewrite app_assoc.
  - intros _. specialize (core_match0 Hl). unfold match_ok, auto_on in *. simpl.
    rewrite E, active_cons, decide_True in core_match0 by done. done.
  - unfold live in Hl. apply andb_prop in Hl as [_ He]. intros Hx. by rewrite Hx in He.
  - unfold live in Hl. apply andb_prop in Hl as [Hx _]. intros Hy. by rewrite Hy in Hx.
Qed.

(** ** Taking the head *)

(** The fields no data movement touches. *)
Definition same_run (s s' : stream) : Prop :=
  s'.(closed) = s.(closed) ∧ s'.(stored_error) = s.(stored_error) ∧
  s'.(auto_allocate) = s.(auto_allocate) ∧ s'.(reader) = s.(reader) ∧
  s'.(settled) = s.(settled) ∧ s'.(next_request) = s.(next_request).

Lemma live_same_run s s' : same_run s s' → live s' = live s.
Proof. intros (? & ? & _). unfold live. congruence. Qed.

Lemma live_not_terminal s : live s = true → s.(closed) = false ∧ s.(stored_error) = false.
Proof. unfold live. by destruct (closed s), (stored_error s). Qed.

Lemma pending_reads_nonempty s d l :
  match_ok s → s.(pending_pull_intos) = d :: l → d.(fields).(reader_type) ≠ ReaderTypeNone →
  ∃ r rs, s.(pending_reads) = r :: rs.
Proof.
  unfold match_ok. intros Hm E Hn. rewrite E, active_cons, decide_False in Hm by done.
  destruct (pending_reads s) as [|r rs]; [| by eauto].
  destruct (reader s) as [[]|]; [destruct (auto_on s) | |]; destruct_and?; simpl in *; lia.
Qed.

(** The head, filled from the queue or by a response that supplies [w],
    leaves with the first pending read. *)
Lemma core_taken fl s s' d l r rs b w :
  core fl s → live s = true → s.(pending_pull_intos) = d :: l →
  d.(fields).(reader_type) ≠ ReaderTypeNone → s.(pending_reads) = r :: rs →
  same_run s s' → s'.(pending_pull_intos) = l → s'.(pending_reads) = rs →
  s'.(supplied) = s.(supplied) ++ w → Forall (λ c, c ≠ []) s'.(queue) →
  b ++ concat s'.(queue) = filled_bytes d ++ concat s.(queue) ++ w →
  core (fl ++ [(r, b)]) s'.
Proof.
  intros [] Hl E Hn Er Hs Ep Epr Esup Hq Hb.
  pose proof (live_same_run _ _ Hs) as Hl'. destruct (live_not_terminal _ Hl) as [Hc He].
  destruct Hs as (E1 & E2 & E3 & E4 & E5 & E6).
  rewrite E in core_descs0. constructor; rewrite ?Ep, ?Epr, ?E1, ?E2, ?E3, ?E5, ?E6; try done;
    try congruence.
  - by apply (descs_ok_tail d).
  - destruct core_bytes0 as (lost & Hb0 & Hlost). rewrite (Hlost Hl) in Hb0. exists [].
    split; [| done]. rewrite Esup, Hb0. unfold held, delivered. rewrite E, Ep, E5.
    assert (match l with [] => [] | d0 :: _ => filled_bytes d0 end = []) as ->
      by (destruct core_descs0 as [_ []]; [done | by apply fresh_filled_bytes]).
    rewrite map_app, concat_app. simpl. rewrite !app_nil_r, <-!app_assoc.
    do 2 f_equal. by rewrite Hb, <-?app_assoc.
  - rewrite <-core_reads0, Er, map_app. simpl. solve_Permutation.
  - intros _. specialize (core_match0 Hl). unfold match_ok, auto_on in *.
    rewrite E, Er, active_cons, decide_False in core_match0 by done.
    rewrite E3, E4, Ep, Epr. destruct (reader s) as [[]|]; [destruct (auto_allocate s) as [n|] | |];
      try destruct (negb _); simpl in *; destruct_and?; lia || done.
Qed.

Lemma take_head_wp s d l r rs done (Q : stream → DescriptorResolution + byte_error → Prop) :
  s.(pending_pull_intos) = d :: l → wf d.(fields) → d.(fields).(reader_type) ≠ ReaderTypeNone →
  d.(fields).(bytes_filled) mod element_size d.(fields) = 0 → s.(pending_reads) = r :: rs →
  Q (with_reads (with_pull_intos (with_byob_request s None s.(next_byob)) l) rs s.(settled))
    (inl {| res_descriptor := d; res_pending := r; res_done := done |}) →
  wp (take_head_descriptor_resolution done) Q s.
Proof.
  intros E Hw Hn Ha Er HQ. unfold take_head_descriptor_resolution. apply wp_get_bind.
  assert (head_descriptor (readable_byte_controller_snapshot s) = Some (fields d)) as Hh.
  { unfold head_descriptor. simpl. rewrite E. simpl. by rewrite (state_of_wf _ Hw). }
  unfold plan_take_head_resolution. rewrite Hh, decide_False by done.
  unfold is_multiple_of. rewrite Ha. simpl.
  apply wp_ok_or_bind with d.
  { unfold live_head, head_storage. by rewrite E, (state_of_wf _ Hw), (state_of_wf _ Hw), decide_True. }
  apply wp_modify_bind, wp_bind, wp_get_bind. simpl. rewrite E.
  apply wp_modify_bind, wp_ok. simpl. apply wp_bind, wp_get_bind. simpl. rewrite Er.
  apply wp_modify_bind, wp_ok. simpl. by apply wp_bind, wp_ok, wp_ok.
Qed.

(** The head, filled as far as the queue goes, stays. *)
Lemma core_unready fl s d l d' :
  core fl s → s.(pending_pull_intos) = d :: l → good d → filled_ok s d d' false [] →
  core fl (set_head d' (with_queue s [])) ∧ good d'.
Proof.
  intros Hc E Hg [].
  assert (good d') as Hg'.
  { destruct Hg as (? & Hlen & Hdef). split_and!; [done | rewrite fo_fields0, fo_length0; done |].
    rewrite fo_fields0. simpl. intros Hr. destruct (Hdef Hr) as (? & Hmin & Hk). split_and!; try done.
    symmetry in fo_ready0. rewrite fo_fields0 in fo_ready0. unfold is_ready in fo_ready0. simpl in fo_ready0.
    unfold element_size in fo_ready0. simpl in fo_ready0.
    rewrite Hk, Hmin in fo_ready0. unfold is_multiple_of in fo_ready0. simpl element_size_of in fo_ready0.
    rewrite N.mod_1_r, andb_true_r in fo_ready0. apply N.leb_gt in fo_ready0. lia. }
  split; [| done]. unfold set_head. simpl. rewrite E.
  destruct Hc. rewrite E in core_descs0. constructor; simpl; try done.
  - by destruct core_descs0.
  - destruct core_bytes0 as (lost & Hb & Hlost). exists lost. split; [| done].
    rewrite Hb. unfold held, delivered. simpl. rewrite E.
    rewrite (app_assoc (filled_bytes d)), <-fo_bytes0. simpl. by rewrite app_nil_r.
  - intros Hl. specialize (core_match0 Hl). unfold match_ok, auto_on in *. simpl.
    rewrite E, active_cons in core_match0. rewrite active_cons, fo_fields0. done.
  - intros H. destruct (core_errored0 H) as [H' _]. congruence.
Qed.

(** ** Collecting and resolving *)
Definition flight (acc : list DescriptorResolution) : list (N * list N) :=
  map (λ r, (r.(res_pending), filled_bytes r.(res_descriptor))) acc.

(** A resolution whose result can be built. *)
Definition resolvable (r : DescriptorResolution) : Prop :=
  wf r.(res_descriptor).(fields) ∧ r.(res_descriptor).(detached) = false ∧
  r.(res_descriptor).(fields).(bytes_filled) mod element_size r.(res_descriptor).(fields) = 0 ∧
  (r.(res_done) = true → r.(res_descriptor).(fields).(reader_type) ≠ ReaderTypeDefault).

Definition head_attached (s : stream) : Prop :=
  match s.(pending_pull_intos) with d :: _ => d.(detached) = false | [] => True end.

Lemma fresh_attached s l : Forall fresh l → s.(pending_pull_intos) = l → head_attached s.
Proof. unfold head_attached. intros Hl ->. destruct Hl as [|d l Hd]; [done | apply Hd]. Qed.

Lemma flushed_attached s : descs_ok s.(pending_pull_intos) → head_attached s → head_attached (flushed s).
Proof.
  unfold head_attached at 1, flushed. destruct (pending_pull_intos s) as [|d l] eqn:E.
  - unfold head_attached. by rewrite E.
  - intros [_ Hf] Hd. case_decide; [by eapply fresh_attached | unfold head_attached; by rewrite E].
Qed.

Lemma flushed_same_run s : same_run s (flushed s).
Proof. unfold flushed. destruct (pending_pull_intos s); [done |]. by case_decide. Qed.

Lemma flushed_head_active s :
  descs_ok s.(pending_pull_intos) →
  match (flushed s).(pending_pull_intos) with
  | d :: _ => d.(fields).(reader_type) ≠ ReaderTypeNone | [] => True end.
Proof.
  unfold flushed. destruct (pending_pull_intos s) as [|d l] eqn:E; [by rewrite E |].
  intros [_ Hf]. case_decide; simpl; [destruct Hf as [|e l' He]; [done | apply He] | by rewrite E].
Qed.

Lemma flushed_length s :
  (length (flushed s).(pending_pull_intos) ≤ length s.(pending_pull_intos))%nat.
Proof.
  unfold flushed. destruct (pending_pull_intos s) as [|d l] eqn:E; [by rewrite E |].
  case_decide; simpl; [lia | by rewrite E].
Qed.

(** What collecting leaves: the reads taken are in flight, and a descriptor
    that stays has drained the queue. *)
Definition collected (s : stream) (s' : stream) (acc : list DescriptorResolution) : Prop :=
  core (flight acc) s' ∧ same_run s s' ∧ Forall resolvable acc ∧ head_attached s' ∧
  (s'.(pending_pull_intos) ≠ [] → s'.(queue) = []).

Lemma collect_loop_wp fuel : ∀ acc s,
  core (flight acc) s → live s = true → head_attached s → Forall resolvable acc →
  (length s.(pending_pull_intos) < fuel)%nat →
  wp (collect_loop fuel acc) (λ s' r, ∃ acc', r = inl acc' ∧ collected s s' acc') s.
Proof.
  induction fuel as [|fuel IH]; intros acc s Hc Hl Hat Hacc Hlen; [lia |].
  cbn [collect_loop]. apply wp_bind, flush_wp; [apply Hc | | ].
  2: { intros d l E _ Hd. unfold head_attached in Hat. rewrite E in Hat. congruence. }
  pose proof (core_flushed _ _ Hc Hl) as Hc1.
  pose proof (flushed_same_run s) as Hs1.
  pose proof (flushed_attached s (core_descs _ _ Hc) Hat) as Hat1.
  pose proof (flushed_head_active s (core_descs _ _ Hc)) as Hact.
  pose proof (flushed_length s) as Hlen1.
  assert (live (flushed s) = true) as Hl1 by (rewrite (live_same_run _ _ Hs1); done).
  set (s1 := flushed s) in *. apply wp_get_bind.
  rewrite head_storage_core by apply Hc1.
  destruct (pending_pull_intos s1) as [|d l] eqn:E.
  { apply wp_ok. exists acc. split; [done |]. unfold collected. rewrite E. split_and!; done. }
  assert (descs_ok (d :: l)) as Hd by (rewrite <-E; apply Hc1). pose proof Hd as [Hg Hf].
  unfold head_attached in Hat1. rewrite E in Hat1.
  apply wp_bind. eapply wp_mono; [apply fill_wp; [done | done | apply Hc1] |].
  intros s2 r2 (d' & rdy & q & -> & -> & Hfo). cbv beta iota. apply wp_modify_bind. cbn [fst snd].
  destruct rdy.
  - destruct (pending_reads_nonempty s1 d l) as (r & rs & Er); [by apply Hc1 | done | done |].
    pose proof (fo_ready _ _ _ _ _ Hfo) as Hr. symmetry in Hr.
    apply is_ready_true in Hr as [_ Hal].
    pose proof (fo_fields _ _ _ _ _ Hfo) as Hff.
    assert (reader_type (fields d') ≠ ReaderTypeNone) by (rewrite Hff; done).
    apply wp_bind. eapply take_head_wp; [unfold set_head; simpl; by rewrite E | apply Hfo | done | done | done |].
    eapply wp_mono; [apply IH |].
    + unfold flight. rewrite map_app. simpl.
      eapply (core_taken _ s1 _ d l r rs _ []); try done; simpl.
      * by rewrite app_nil_r.
      * apply Hfo.
      * rewrite app_nil_r. apply Hfo.
    + done.
    + by eapply fresh_attached.
    + apply Forall_app. split; [done |]. constructor; [| done].
      split_and!; [apply Hfo | apply Hfo | done | done].
    + simpl. simpl in Hlen1. lia.
    + intros s' r' (acc' & -> & ? & ? & ? & ? & ?). exists acc'. split; [done |].
      split_and!; try done. unfold same_run in *. simpl in *. destruct_and?. split_and!; congruence.
  - assert (q = []) as -> by (by apply Hfo). apply wp_ok. exists acc. split; [done |].
    destruct (core_unready _ s1 d l d' Hc1 E Hg Hfo) as [Hc2 _].
    split_and!; [done | | done | | done]; unfold set_head, head_attached; simpl; rewrite ?E; [done | apply Hfo].
Qed.

Lemma prepare_wp r (Q : stream → option (list N) + byte_error → Prop) s :
  resolvable r → Q s (inl (Some (filled_bytes r.(res_descriptor)))) →
  wp (prepare_descriptor_resolution r) Q s.
Proof.
  intros (Hw & Hd & Ha & Hdone) HQ. unfold prepare_descriptor_resolution.
  eapply wp_ok_or_bind; [by apply state_of_wf |].
  unfold transfer_descriptor_buffer. rewrite Hd. apply wp_bind, wp_ok.
  unfold plan_resolution. simpl.
  destruct (res_done r && bool_decide _) eqn:E.
  { apply andb_prop in E as [E1 E2]. apply bool_decide_eq_true in E2. by destruct (Hdone E1). }
  cbn [resolution_result range_length range_offset]. unfold is_multiple_of.
  fold (element_size (fields (res_descriptor r))). rewrite Ha. by apply wp_ok.
Qed.

Lemma resolve_batch_wp acc s (Q : stream → unit + byte_error → Prop) :
  Forall resolvable acc →
  Q (with_reads s s.(pending_reads)
       (s.(settled) ++ map (λ r, (r.(res_pending),
          Fulfilled (Some (filled_bytes r.(res_descriptor))) r.(res_done))) acc)) (inl tt) →
  wp (resolve_descriptor_batch acc) Q s.
Proof.
  intros Hacc HQ. unfold resolve_descriptor_batch. apply wp_attempt.
  assert (wp (prepare_batch acc) (λ s' r, s' = s ∧ r = inl (map (λ r, (r.(res_pending),
    Some (filled_bytes r.(res_descriptor)), r.(res_done))) acc)) s) as Hp.
  { clear HQ. induction Hacc as [|r acc Hr Hacc IH]; [done |]. simpl.
    apply wp_bind, prepare_wp; [done |]. apply wp_bind. eapply wp_mono; [apply IH |].
    intros s' r' [-> ->]. by apply wp_ok. }
  eapply wp_mono; [exact Hp |]. intros s' r [-> ->]. apply fulfill_all_wp. by rewrite map_map.
Qed.

(** Settling what is in flight. *)
Lemma core_land fl1 fl2 s sd :
  core (fl1 ++ fl2) s → map fst sd = map fst fl1 → map settled_bytes sd = map snd fl1 →
  core fl2 (with_reads s s.(pending_reads) (s.(settled) ++ sd)).
Proof.
  intros [] E1 E2. constructor; simpl; try done.
  - destruct core_bytes0 as (lost & Hb & Hlost). exists lost. split; [| done].
    rewrite Hb. unfold delivered. simpl. rewrite !map_app, !concat_app, E2, <-!app_assoc. done.
  - rewrite <-core_reads0, !map_app, E1, <-!app_assoc. done.
Qed.

Lemma core_resolved acc fl s :
  core (flight acc ++ fl) s →
  core fl (with_reads s s.(pending_reads)
       (s.(settled) ++ map (λ r, (r.(res_pending),
          Fulfilled (Some (filled_bytes r.(res_descriptor))) r.(res_done))) acc)).
Proof.
  intros Hc. eapply core_land; [done | |]; unfold flight; rewrite !map_map; done.
Qed.

(** The first chunk leaves with the first pending default read. *)
Lemma core_default_taken fl s c q r rs :
  core fl s → live s = true → s.(pending_pull_intos) = [] → s.(queue) = c :: q →
  s.(pending_reads) = r :: rs →
  core (fl ++ [(r, c)]) (with_reads (with_queue s q) rs s.(settled)).
Proof.
  intros [] Hl E Eq Er. rewrite E, Eq in *. destruct (live_not_terminal _ Hl) as [? ?].
  constructor; simpl; rewrite ?E; try done; try congruence.
  - by apply Forall_inv_tail in core_chunks0.
  - destruct core_bytes0 as (lost & Hb & Hlost). exists lost. split; [| done].
    rewrite Hb. unfold held, delivered. simpl. rewrite E, map_app, concat_app. simpl.
    by rewrite !app_nil_r, <-!app_assoc.
  - rewrite <-core_reads0, Er, map_app. simpl. solve_Permutation.
  - intros _. specialize (core_match0 Hl). unfold match_ok, auto_on in *. simpl. rewrite E, Er in *.
    destruct (reader s) as [[]|]; [destruct (auto_allocate s) as [n|] | |];
      try destruct (negb _); simpl in *; destruct_and?; done.
Qed.

Lemma collect_default_wp fuel : ∀ fl acc s,
  core (fl ++ acc) s → live s = true → (s.(pending_pull_intos) ≠ [] → s.(queue) = []) →
  (length s.(pending_reads) < fuel)%nat →
  wp (collect_default_loop fuel acc)
    (λ s' r, ∃ acc', r = inl acc' ∧ core (fl ++ acc') s' ∧ same_run s s' ∧
       (s'.(pending_pull_intos) ≠ [] → s'.(queue) = [])) s.
Proof.
  induction fuel as [|fuel IH]; intros fl acc s Hc Hl Hrest Hlen; [lia |].
  cbn [collect_default_loop]. apply wp_get_bind. unfold plan_default_read_step.
  rewrite head_descriptor_core by apply Hc. simpl.
  destruct (pending_pull_intos s) as [|d l] eqn:E; simpl; [| apply wp_ok; exists acc; rewrite E; done].
  destruct (pending_reads s) as [|r rs] eqn:Er; simpl; [apply wp_ok; exists acc; rewrite E; done |].
  destruct (queue s) as [|c q] eqn:Eq; simpl; [apply wp_ok; exists acc; rewrite E; done |].
  apply wp_modify_bind, wp_bind, wp_get_bind. simpl. rewrite Er.
  apply wp_modify_bind, wp_ok. simpl. apply wp_bind, wp_ok.
  eapply wp_mono; [apply (IH fl) |].
  - rewrite app_assoc. by eapply core_default_taken.
  - done.
  - simpl. congruence.
  - simpl in *. lia.
  - intros s' r' (acc' & -> & ? & Hs & ?). exists acc'. split_and!; done.
Qed.

Lemma process_core s :
  core [] s → live s = true → head_attached s →
  wp process_pending_descriptors (λ s' r, r = inl tt ∧ inv s') s.
Proof.
  intros Hc Hl Hat. unfold process_pending_descriptors. apply wp_bind, wp_get_bind.
  eapply wp_mono; [apply collect_loop_wp; try done; lia |].
  intros s1 r1 (acc & -> & Hc1 & Hs1 & Hres & _ & Hrest). cbv beta iota.
  apply wp_bind, wp_get_bind. eapply wp_mono.
  { apply (collect_default_wp _ (flight acc) []); [by rewrite app_nil_r | | done | lia].
    by rewrite (live_same_run _ _ Hs1). }
  intros s2 r2 (accd & -> & Hc2 & Hs2 & Hrest2). cbv beta iota.
  apply wp_bind. eapply wp_mono; [by apply finish_close_core |].
  intros s3 r3 (-> & Hc3 & Hk & _). cbv beta iota.
  apply wp_bind, resolve_batch_wp; [done |]. cbv beta iota.
  apply core_resolved in Hc3. apply fulfill_all_wp. split; [done |].
  split; [| simpl; by eapply keeps_rest].
  rewrite <-(app_nil_r accd) in Hc3. eapply core_land; [exact Hc3 | |];
    rewrite map_map, map_map; done.
Qed.

(** ** Enqueueing *)
Lemma core_byob fl s r n : core fl s → core fl (with_byob_request s r n).
Proof. by intros []. Qed.

Lemma core_enqueue fl s chunk :
  core fl s → live s = true → chunk ≠ [] →
  core fl (with_queue (supply s chunk) (s.(queue) ++ [chunk])).
Proof.
  intros [] Hl Hne. destruct (live_not_terminal _ Hl) as [? ?].
  constructor; simpl; try done; try congruence.
  - apply Forall_app. by split; [| constructor].
  - destruct core_bytes0 as (lost & Hb & Hlost). rewrite (Hlost Hl) in Hb. exists [].
    split; [| done]. rewrite Hb, concat_app. unfold delivered, held. simpl.
    by rewrite !app_nil_r, <-!app_assoc.
Qed.

(** A head that is still detached after flushing was the head before. *)
Lemma flushed_detached s d l :
  descs_ok s.(pending_pull_intos) → (flushed s).(pending_pull_intos) = d :: l →
  d.(detached) = true → flushed s = s.
Proof.
  unfold flushed. destruct (pending_pull_intos s) as [|e k] eqn:E; [done |].
  intros [_ Hf]. case_decide; [| done]. simpl. intros -> Hd.
  apply Forall_inv in Hf as (_ & _ & Hx & _). congruence.
Qed.

(** Unless bytes of a released request stand in front of it, a default
    descriptor finds the queue empty. *)
Lemma flushed_queue_default s d l :
  inv s → released_before_default s = false → (flushed s).(pending_pull_intos) = d :: l →
  d.(fields).(reader_type) = ReaderTypeDefault → (flushed s).(queue) = [].
Proof.
  intros [Hc Hrest]. unfold released_before_default, flushed.
  destruct (pending_pull_intos s) as [|e k] eqn:E; [by rewrite E |].
  rewrite Hrest by done. case_decide as Hn; [| intros; by apply Hrest]. simpl.
  intros Hp -> Hd. rewrite !bool_decide_true in Hp by done.
  destruct (N.eqb_spec (bytes_filled (fields e)) 0); [done |]. done.
Qed.

(** A chunk handed straight to the read an auto-allocated descriptor waits
    with. *)
Lemma fulfill_default_core s d l chunk :
  core [] s → live s = true → s.(pending_pull_intos) = d :: l → good d →
  d.(fields).(reader_type) = ReaderTypeDefault → s.(queue) = [] →
  wp (bind invalidate_byob_request (λ _, bind shift_head_descriptor (λ shifted,
        if negb shifted then throw ClosedOrErrored
        else bind dequeue_first_pending_read (λ o, bind (ok_or o ClosedOrErrored) (λ pending,
               bind (modify (λ s, supply s chunk))
                 (λ _, fulfill_read_request pending (Some chunk) false))))))
     (λ s' r, r = inl tt ∧ inv s') s.
Proof.
  intros Hc Hl E Hg Hd Hq. pose proof (core_descs _ _ Hc) as Hds. rewrite E in Hds.
  destruct (pending_reads_nonempty s d l) as (r & rs & Er); [by apply Hc | done | congruence |].
  apply wp_modify_bind, wp_bind, wp_get_bind. simpl. rewrite E. apply wp_modify_bind, wp_ok. simpl.
  apply wp_bind, wp_get_bind. simpl. rewrite Er. apply wp_modify_bind, wp_ok. simpl.
  apply wp_bind, wp_ok, wp_modify_bind. unfold wp, fulfill_read_request, settle, modify.
  split; [done |]. split; [| simpl; by rewrite Hq].
  set (s1 := supply (with_reads (with_pull_intos (with_byob_request s None (next_byob s)) l)
                       rs (settled s)) chunk).
  assert (core [(r, chunk)] s1) as Hc1.
  { apply (core_taken [] s s1 d l r rs chunk chunk); try done; [congruence | apply Hc |].
    simpl. rewrite Hq. simpl. unfold filled_bytes.
    destruct Hg as (_ & _ & Hg). destruct (Hg Hd) as [-> _]. by rewrite app_nil_r. }
  exact (core_land [(r, chunk)] [] s1 [(r, Fulfilled (Some chunk) false)] Hc1 eq_refl eq_refl).
Qed.

Lemma enqueue_inv s chunk transferable :
  inv s → released_before_default s = false →
  wp (enqueue_byte_chunk chunk transferable) (λ s' _, inv s') s.
Proof.
  intros Hi Hp. pose proof Hi as [Hc Hrest]. unfold enqueue_byte_chunk. apply wp_get_bind.
  unfold plan_enqueue_start, plan_enqueue. simpl readable. rewrite is_readable_live.
  destruct (live s) eqn:Hl; simpl; [| by apply wp_throw].
  destruct (close_is_requested s); simpl; [by apply wp_throw |].
  destruct transferable; simpl; [| by apply wp_throw].
  destruct (N.eqb_spec (N.of_nat (length chunk)) 0) as [|Hne]; [by apply wp_throw |].
  apply wp_bind, flush_wp; [apply Hc | | by intros]. apply wp_get_bind.
  pose proof (core_flushed _ _ Hc Hl) as Hc1.
  pose proof (live_same_run _ _ (flushed_same_run s)) as Hl1. rewrite Hl in Hl1.
  unfold plan_enqueue_after_released. rewrite head_descriptor_core by apply Hc1.
  assert (∀ s', core [] s' → live s' = true → head_attached s' →
    wp (bind (enqueue_transferred_chunk chunk) (λ _, process_pending_descriptors))
       (λ s' _, inv s') s') as Hqueue.
  { intros s' Hc' Hl' Hat'. apply wp_modify_bind. eapply wp_mono; [apply process_core | by intros ?? []].
    - apply core_enqueue; [done | done |]. by intros ->. 
    - done.
    - done. }
  pose proof (flushed_queue_default s) as Hqd. pose proof (flushed_detached s) as Hfd.
  pose proof (flushed_head_active s (core_descs _ _ Hc)) as Hact.
  destruct (pending_pull_intos (flushed s)) as [|d l] eqn:E.
  { apply Hqueue; [done | done |]. unfold head_attached. by rewrite E. }
  assert (good d) as Hg by (pose proof (core_descs _ _ Hc1) as H; rewrite E in H; apply H).
  destruct (reader_type (fields d)) eqn:Hr; [| | done].
  all: eapply wp_ok_or_bind; [by eapply live_head_core |]; unfold transfer_descriptor_buffer;
    apply wp_bind; destruct (detached d) eqn:Hd;
    [apply wp_throw; rewrite (Hfd d l) by (done || apply Hc); done | apply wp_ok].
  - eapply wp_mono; [eapply fulfill_default_core; eauto | by intros ?? []].
  - apply wp_modify_bind, Hqueue; [by apply core_byob | done |].
    unfold head_attached. simpl. by rewrite E.
Qed.

(** ** Reads *)
Lemma core_new_request s :
  core [] s → core [(s.(next_request), [])] (new_request s).
Proof.
  intros []. constructor; simpl; try done.
  rewrite issued_succ, <-core_reads0. simpl. solve_Permutation.
Qed.

(** A read settled without a chunk. *)
Lemma core_settle_empty s n r :
  core [(n, [])] s → settled_bytes (0, r) = [] →
  core [] (with_reads s s.(pending_reads) (s.(settled) ++ [(n, r)])).
Proof. intros Hc Hr. eapply (core_land [(n, [])]); [done | done |]. simpl. by rewrite <-Hr. Qed.

Lemma settle_empty_inv s n r :
  core [(n, [])] s → (s.(pending_pull_intos) ≠ [] → s.(queue) = []) → settled_bytes (0, r) = [] →
  wp (settle n r) (λ s' _, inv s') s.
Proof. intros. split; [by apply core_settle_empty | done]. Qed.

Lemma descs_ok_snoc l d : descs_ok l → fresh d → descs_ok (l ++ [d]).
Proof.
  destruct l as [|e l]; simpl; intros Hl Hd; [split; [by apply fresh_good | done] |].
  destruct Hl as [? ?]. split; [done |]. apply Forall_app. split; [done |]. by constructor.
Qed.

(** A read joins the queue of pending ones together with its descriptor. *)
Lemma core_append s s' n d :
  core [(n, [])] s → live s = true →
  (s.(reader) = Some ReaderByob ∨ s.(reader) = Some ReaderDefault ∧ auto_on s = true) →
  same_run s s' → s'.(supplied) = s.(supplied) → s'.(pending_reads) = s.(pending_reads) ++ [n] →
  s'.(pending_pull_intos) = s.(pending_pull_intos) ++ [d] →
  descs_ok s'.(pending_pull_intos) → d.(fields).(reader_type) ≠ ReaderTypeNone →
  Forall (λ c, c ≠ []) s'.(queue) →
  held s' ++ concat s'.(queue) = held s ++ concat s.(queue) →
  core [] s'.
Proof.
  intros [] Hl Hr Hs Esup Epr Ep Hd Hn Hq Hb.
  pose proof (live_same_run _ _ Hs) as Hl'. destruct (live_not_terminal _ Hl) as [Hc He].
  destruct Hs as (E1 & E2 & E3 & E4 & E5 & E6).
  constructor; rewrite ?E1, ?E2, ?E3, ?E6; try done; try congruence.
  - destruct core_bytes0 as (lost & Hb0 & Hlost). exists lost. rewrite Hl'. split; [| done].
    rewrite Esup, Hb0. unfold delivered. rewrite E5. simpl. f_equal.
    by rewrite !app_assoc, Hb.
  - rewrite <-core_reads0, E5, Epr. simpl. solve_Permutation.
  - intros _. specialize (core_match0 Hl). unfold match_ok, auto_on in *.
    rewrite E3, E4, Ep, Epr, active_app, active_one, length_app by done.
    cbn [length]. destruct Hr as [Hr|[Hr Ha]]; rewrite Hr in *; [| rewrite Ha in *]; lia.
Qed.

(** A default read that waits without a descriptor. *)
Lemma core_pend_default s n :
  core [(n, [])] s → s.(reader) = Some ReaderDefault → (live s = true → auto_on s = false) →
  core [] (with_reads s (s.(pending_reads) ++ [n]) s.(settled)).
Proof.
  intros [] Hr Ha. constructor; simpl; try done.
  - rewrite <-core_reads0. simpl. solve_Permutation.
  - intros Hl. specialize (core_match0 Hl). unfold match_ok, auto_on in *. simpl. rewrite Hr in *.
    by rewrite (Ha Hl) in *.
Qed.

Lemma auto_allocate_inv s n :
  core [(n, [])] s → live s = true → s.(queue) = [] → s.(reader) = Some ReaderDefault →
  wp (bind (enqueue_auto_allocate_pull_into n)
        (λ b : bool, if b then ok tt else enqueue_pending_read n)) (λ s' _, inv s') s.
Proof.
  intros Hc Hl Hq Hr. unfold enqueue_auto_allocate_pull_into. apply wp_bind, wp_get_bind.
  destruct (auto_allocate_wf (readable_byte_controller_snapshot s)) as (o & Ho & Hcase);
    [apply Hc |].
  eapply wp_calc_bind; [done |]. destruct o as [d|].
  - destruct Hcase as (Hw & Hf & Hm & Ho0 & Hk & Hrt & Ha & Hb). simpl in Ha.
    apply wp_modify_bind, wp_modify_bind, wp_ok, wp_ok. split; [| done].
    set (st := {| buffer := replicate (N.to_nat (byte_length d)) 0; detached := false; fields := d |}).
    assert (fresh st) as Hfr.
    { split_and!; simpl; [| done | done | congruence]. split_and!; simpl; [done | | done].
      rewrite length_replicate. lia. }
    eapply (core_append s _ n st); try done; simpl.
    + right. split; [done |]. unfold auto_on. rewrite Ha.
      destruct (N.eqb_spec (byte_length d) 0); [| done]. destruct Hw. lia.
    + apply descs_ok_snoc; [apply Hc | done].
    + simpl. congruence.
    + apply Hc.
    + rewrite Hq. unfold held. simpl. destruct (pending_pull_intos s); [| done]. simpl.
      by rewrite (fresh_filled_bytes st).
  - apply wp_ok. split; [| simpl; by rewrite Hq]. apply core_pend_default; [done | done |]. intros _.
    unfold auto_on. simpl in Hcase. by destruct Hcase as [-> | ->].
Qed.

(** The first chunk of the queue becomes the result of a read. *)
Lemma core_dequeue s n c q :
  core [(n, [])] s → s.(pending_pull_intos) = [] → s.(queue) = c :: q →
  core [(n, c)] (with_queue s q).
Proof.
  intros [] E Eq. rewrite E, Eq in *. constructor; simpl; rewrite ?E; try done.
  - by apply Forall_inv_tail in core_chunks0.
  - destruct core_bytes0 as (lost & Hb & Hlost). exists lost. split; [| done].
    rewrite Hb. unfold held, delivered. simpl. rewrite E. simpl. by rewrite <-!app_assoc.
  - intros H. by destruct (core_errored0 H).
  - intros H. by specialize (core_closed0 H).
Qed.

Lemma read_inv s :
  inv s → s.(reader) = Some ReaderDefault → wp perform_read_from_stream (λ s' _, inv s') s.
Proof.
  intros [Hc Hrest] Hr. unfold perform_read_from_stream. apply wp_get_bind, wp_modify_bind.
  pose proof (core_new_request _ Hc) as Hc1.
  unfold plan_read_start. destruct (state (readable_stream_snapshot s)) eqn:Est.
  2: { by apply settle_empty_inv. }
  2: { by apply settle_empty_inv. }
  destruct (queue s) as [|c q] eqn:Eq.
  - apply wp_bind. eapply wp_mono; [by apply finish_close_core |].
    intros s2 r2 (-> & Hc2 & Hk & Hcase). cbv beta iota. apply wp_get_bind.
    assert (queue s2 = []) as Hq2 by (destruct Hk as [[-> | ->] _]; done).
    assert (pending_pull_intos s2 ≠ [] → queue s2 = []) as Hrest2 by done.
    destruct (closed s2) eqn:Ecl; [by apply settle_empty_inv |].
    destruct Hcase as [-> | ?]; [| congruence].
    apply auto_allocate_inv; try done.
    change (live (new_request s)) with (live s). by rewrite <-is_readable_live, Est.
  - assert (pending_pull_intos s = []) as E.
    { destruct (pending_pull_intos s) eqn:E; [done |]. by assert (c :: q = []) by (by apply Hrest). }
    apply wp_modify_bind. pose proof (core_dequeue _ _ c q Hc1 E Eq) as Hc2.
    apply wp_bind. eapply wp_mono; [by apply finish_close_core |].
    intros s3 r3 (-> & Hc3 & Hk & _). split.
    + eapply (core_land [(next_request s, c)]); done.
    + simpl. intros Hne. destruct Hk as [_ [Hp|Hp]]; rewrite Hp in Hne; simpl in Hne; congruence.
Qed.

Lemma descs_ok_one d : good d → descs_ok [d].
Proof. by split. Qed.

(** A BYOB read that joins the descriptors behind the head. *)
Lemma append_behind_inv s n d :
  core [(n, [])] s → live s = true → s.(reader) = Some ReaderByob → fresh d →
  s.(pending_pull_intos) ≠ [] → s.(queue) = [] →
  wp (bind (append_descriptor d) (λ _, enqueue_pending_read n)) (λ s' _, inv s') s.
Proof.
  intros Hc Hl Hr Hd Hne Hq. apply wp_modify_bind. split; [| done].
  eapply (core_append s _ n d); try done; simpl; [by left | | apply Hd | apply Hc |].
  - apply descs_ok_snoc; [apply Hc | done].
  - unfold held. simpl. destruct (pending_pull_intos s); [done |]. done.
Qed.

Lemma fill_good s d d' rdy q :
  good d → d.(fields).(reader_type) ≠ ReaderTypeDefault → filled_ok s d d' rdy q → good d'.
Proof.
  intros (_ & Hlen & _) Hr []. split_and!; [done | by rewrite fo_fields0, fo_length0 |].
  by rewrite fo_fields0.
Qed.

(** A BYOB read served from the queue. *)
Lemma read_from_queue_inv s n d :
  core [(n, [])] s → live s = true → s.(reader) = Some ReaderByob → fresh d →
  d.(fields).(reader_type) = ReaderTypeByob → s.(pending_pull_intos) = [] →
  wp (attempt (fill_descriptor_from_queue d)
        (λ r, match r with
              | inl (d, true) =>
                  attempt (resolve_descriptor_batch
                    [{| res_descriptor := d; res_pending := n; res_done := false |}])
                    (λ r, match r with
                          | inr _ => error_stream
                          | inl _ => finish_readable_stream_close_if_requested_and_queue_empty
                          end)
              | inl (d, false) =>
                  bind (append_descriptor d) (λ _, bind (enqueue_pending_read n) (λ _,
                  finish_readable_stream_close_if_requested_and_queue_empty))
              | inr _ => bind error_stream (λ _, error_read_request n)
              end)) (λ s' _, inv s') s.
Proof.
  intros Hc Hl Hr Hd Hrt E. pose proof Hd as (Hg & Hf0 & Hdet & _). apply wp_attempt.
  eapply wp_mono; [apply fill_wp; [done | done | apply Hc] |].
  intros s1 r1 (d' & rdy & q & -> & -> & Hfo). cbv beta iota.
  assert (good d') as Hg' by (eapply fill_good; [done | congruence | done]).
  pose proof (fo_bytes _ _ _ _ _ Hfo) as Hb. rewrite (fresh_filled_bytes d) in Hb by done.
  pose proof (fo_fields _ _ _ _ _ Hfo) as Hff.
  assert (reader_type (fields d') = ReaderTypeByob) as Hrt' by (rewrite Hff; done).
  destruct rdy.
  - apply wp_attempt, resolve_batch_wp.
    { constructor; [| done]. pose proof (fo_ready _ _ _ _ _ Hfo) as Hrd. symmetry in Hrd.
      apply is_ready_true in Hrd as [_ ?]. split_and!; [apply Hfo | apply Hfo | done | done]. }
    assert (core [(n, filled_bytes d')] (with_queue s q)) as Hc1.
    { destruct Hc. destruct (live_not_terminal _ Hl). constructor; simpl; try done; try congruence.
      - apply Hfo.
      - destruct core_bytes0 as (lost & Hb0 & Hlost). exists lost. split; [| done].
        rewrite Hb0. unfold held, delivered. simpl. rewrite E. simpl. f_equal.
        by rewrite app_nil_r, app_assoc, Hb. }
    eapply wp_mono; [apply finish_close_core |].
    + eapply (core_land [(n, filled_bytes d')]); [exact Hc1 | done | done].
    + intros s' r' (_ & Hc' & Hk & _). split; [done |]. eapply keeps_rest; [done |]. simpl. by rewrite E.
  - assert (q = []) as -> by (by apply Hfo). apply wp_modify_bind, wp_modify_bind.
    eapply wp_mono; [apply finish_close_core |].
    + eapply (core_append s _ n d'); try done; simpl; rewrite ?E; simpl;
        [by left | by apply descs_ok_one | congruence |].
      unfold held. simpl. rewrite E. simpl. done.
    + intros s' r' (_ & Hc' & Hk & _). split; [done |]. by eapply keeps_rest.
Qed.

Lemma read_into_inv s v n :
  inv s → s.(reader) = Some ReaderByob → wp (read_into_byte_stream v n) (λ s' _, inv s') s.
Proof.
  intros [Hc Hrest] Hr. unfold read_into_byte_stream. apply wp_get_bind, wp_modify_bind.
  pose proof (core_new_request _ Hc) as Hc1.
  destruct (for_read _ _ _ _ _ _) as [d|e] eqn:Ef; [| by apply settle_empty_inv].
  apply for_read_wf in Ef as [Hw Ed].
  assert (fresh {| buffer := v_buffer v; detached := false; fields := d |}) as Hfr.
  { rewrite Ed in *. by split_and!. }
  cbv zeta. unfold plan_read_into, plan_read_start. rewrite head_descriptor_core by apply Hc.
  destruct (state (readable (readable_byte_controller_snapshot s))) eqn:Est.
  - assert (live s = true) as Hl by (by rewrite <-is_readable_live; simpl in *; rewrite Est).
    destruct (pending_pull_intos s) as [|h l] eqn:E; destruct (v_transferable v); simpl negb; cbv iota;
      try (apply settle_empty_inv; [done | simpl; by rewrite E | done]).
    + apply read_from_queue_inv; try done. by rewrite Ed.
    + assert (good h) as Hg by (pose proof (core_descs _ _ Hc) as H; rewrite E in H; apply H).
      rewrite (live_head_core s h l) by done.
      apply append_behind_inv; try done; simpl; [by rewrite E | by apply Hrest].
  - destruct (v_transferable v); simpl negb; cbv iota; [| by apply settle_empty_inv].
    apply resolve_batch_wp.
    { constructor; [| done]. split_and!; simpl; try done; by rewrite Ed. }
    split; [| done]. eapply (core_land [(next_request s, [])]); [done | done |].
    unfold settled_bytes. simpl. unfold filled_bytes. simpl. rewrite Ed. done.
  - by apply settle_empty_inv.
Qed.

(** ** Responding after the stream has closed *)
Lemma core_taken_closed fl s d l r rs :
  core fl s → live s = false → s.(pending_pull_intos) = d :: l → s.(pending_reads) = r :: rs →
  core (fl ++ [(r, filled_bytes d)])
    (with_reads (with_pull_intos (with_byob_request s None s.(next_byob)) l) rs s.(settled)).
Proof.
  intros [] Hl E Er. rewrite E in core_descs0. constructor; simpl; try done.
  - by apply (descs_ok_tail d).
  - destruct core_bytes0 as (lost & Hb & _). exists lost.
    split; [| unfold live in *; simpl; congruence].
    assert (held (with_pull_intos s l) = []) as Hh by (apply held_tail; apply core_descs0).
    unfold held, delivered in *. simpl in *. rewrite Hh, Hb, E, map_app, concat_app. simpl.
    by rewrite !app_nil_r, <-!app_assoc.
  - rewrite <-core_reads0, Er, map_app. simpl. solve_Permutation.
  - unfold live in *. simpl. congruence.
  - intros H. destruct (core_errored0 H). congruence.
Qed.

Lemma core_drop_head fl s d l :
  core fl s → live s = false → s.(pending_pull_intos) = d :: l → core fl (with_pull_intos s l).
Proof.
  intros [] Hl E. rewrite E in core_descs0. constructor; simpl; try done.
  - by apply (descs_ok_tail d).
  - destruct core_bytes0 as (lost & Hb & _). exists (held s ++ concat (queue s) ++ lost).
    split; [| unfold live in *; simpl; congruence].
    rewrite (held_tail l) by apply core_descs0. simpl.
    destruct (live s) eqn:El; [done |]. rewrite Hb. unfold delivered. simpl.
    assert (queue s = []) as ->; [| done].
    unfold live in El. destruct (closed s) eqn:Ec; [by apply core_closed0 |]. simpl in El.
    apply negb_false_iff in El. by destruct (core_errored0 El).
  - unfold live in *. simpl. congruence.
  - intros H. destruct (core_errored0 H). congruence.
Qed.

(** Every descriptor but an unaligned first one can be resolved. *)
Lemma closed_loop_wp fuel : ∀ acc s reads,
  core (flight acc) s → live s = false → head_attached s → Forall resolvable acc →
  (acc ≠ [] → Forall fresh s.(pending_pull_intos)) →
  reads = N.of_nat (length acc + length s.(pending_reads)) →
  (length s.(pending_reads) < fuel)%nat →
  wp (closed_byob_loop fuel reads acc)
    (λ s' r, s'.(queue) = s.(queue) ∧
       match r with
       | inl acc' => core (flight acc') s' ∧ Forall resolvable acc'
       | inr _ => core [] s'
       end) s.
Proof.
  induction fuel as [|fuel IH]; intros acc s reads Hc Hl Hat Hacc Hfr Hreads Hlen; [lia |].
  cbn [closed_byob_loop]. destruct (N.ltb_spec (N.of_nat (length acc)) reads) as [Hlt|_];
    [| by apply wp_ok].
  apply wp_get_bind. unfold plan_closed_byob_step.
  rewrite (proj2 (N.eqb_neq _ _)) by lia.
  rewrite head_descriptor_core by apply Hc. unfold plan_take_head_resolution.
  rewrite head_descriptor_core by apply Hc.
  destruct (pending_pull_intos s) as [|d l] eqn:E; [by apply wp_ok |].
  pose proof (core_descs _ _ Hc) as Hd. rewrite E in Hd. destruct Hd as [Hg Hf].
  unfold head_attached in Hat. rewrite E in Hat.
  case_decide as Hr; [| by apply wp_ok]. rewrite decide_False by congruence.
  unfold is_multiple_of.
  destruct (N.eqb_spec (bytes_filled (fields d) mod element_size (fields d)) 0) as [Ha|Ha]; simpl.
  2: { apply wp_throw. split; [done |]. destruct acc as [|a acc]; [done |].
       pose proof (Hfr ltac:(done)) as Hx. apply Forall_inv in Hx as (_ & H0 & _).
       rewrite H0 in Ha. by rewrite N.Div0.mod_0_l in Ha. }
  destruct (pending_reads s) as [|r rs] eqn:Er; [simpl in *; lia |].
  apply wp_bind. eapply take_head_wp; [done | apply Hg | congruence | done | done |].
  eapply wp_mono; [apply IH |]; simpl.
  - unfold flight. rewrite map_app. by apply core_taken_closed.
  - done.
  - by eapply fresh_attached.
  - apply Forall_app. split; [done |]. constructor; [| done].
    split_and!; simpl; [apply Hg | done | done | congruence].
  - done.
  - rewrite length_app. simpl in *. lia.
  - simpl in Hlen. lia.
  - done.
Qed.

Lemma respond_closed_inv s :
  core [] s → live s = false → head_attached s → s.(queue) = [] →
  wp respond_in_closed_state (λ s' _, inv s') s.
Proof.
  intros Hc Hl Hat Hq. unfold respond_in_closed_state. apply wp_get_bind.
  assert (∀ s', core [] s' → live s' = false → head_attached s' → queue s' = [] →
    wp (bind get (λ s, bind (closed_byob_loop (S (length (pending_reads s)))
          (N.of_nat (length (pending_reads s))) []) resolve_descriptor_batch))
       (λ s' _, inv s') s') as Hrest.
  { intros s' Hc' Hl' Hat' Hq'. apply wp_get_bind, wp_bind.
    eapply wp_mono; [apply (closed_loop_wp _ [] s'); try done; lia |].
    intros s2 [acc|e] [Hq2 H2]; rewrite Hq' in Hq2; [| by split].
    destruct H2 as [Hc2 Hres]. apply resolve_batch_wp; [done |]. split; [| done].
    eapply core_resolved. by rewrite app_nil_r. }
  apply wp_bind. unfold plan_closed_released_head. rewrite head_descriptor_core by apply Hc.
  destruct (pending_pull_intos s) as [|d l] eqn:E; [apply wp_ok; by apply Hrest |].
  pose proof (core_descs _ _ Hc) as Hd. rewrite E in Hd. destruct Hd as [Hg Hf].
  case_decide; [| apply wp_ok; by apply Hrest].
  rewrite (live_head_core s d l) by done. apply wp_bind, wp_get_bind. rewrite E.
  apply wp_modify_bind, wp_ok. simpl. apply wp_ok. apply Hrest; [by eapply core_drop_head | done | | done].
  by eapply fresh_attached.
Qed.

(** ** Responding *)

(** The head with [n] more bytes, already in its buffer. *)
Definition grown (d : storage) (n : N) : storage :=
  with_fields d (with_filled d.(fields) (d.(fields).(bytes_filled) + n)).

Definition written (d : storage) (n : N) : list N :=
  bytes_at d.(buffer) (d.(fields).(byte_offset) + d.(fields).(bytes_filled)) n.

Lemma grown_bytes d n : filled_bytes (grown d n) = filled_bytes d ++ written d n.
Proof. unfold filled_bytes, written. simpl. apply bytes_at_app. Qed.

Lemma core_grown fl s s' d l n :
  core fl s → live s = true → s.(pending_pull_intos) = d :: l → s.(queue) = [] →
  good (grown d n) → same_run s s' → s'.(pending_reads) = s.(pending_reads) →
  s'.(pending_pull_intos) = grown d n :: l → s'.(queue) = [] →
  s'.(supplied) = s.(supplied) ++ written d n →
  core fl s'.
Proof.
  intros [] Hl E Hq Hg Hs Epr Ep Eq Esup. pose proof (live_same_run _ _ Hs) as Hl'.
  destruct (live_not_terminal _ Hl) as [Hc He]. destruct Hs as (E1 & E2 & E3 & E4 & E5 & E6).
  rewrite E in core_descs0.
  constructor; rewrite ?Ep, ?Epr, ?E1, ?E2, ?E3, ?E5, ?E6, ?Eq; try done; try congruence.
  - split; [done | apply core_descs0].
  - destruct core_bytes0 as (lost & Hb & Hlost). rewrite (Hlost Hl), Hq in Hb. exists [].
    split; [| done]. rewrite Esup, Hb. unfold held, delivered. rewrite E, Ep, E5, grown_bytes.
    simpl. by rewrite !app_nil_r, <-!app_assoc.
  - intros _. specialize (core_match0 Hl). unfold match_ok, auto_on in *.
    rewrite E, active_cons in core_match0. by rewrite E3, E4, Ep, Epr, active_cons.
Qed.

Lemma good_grown d n :
  good d → d.(fields).(bytes_filled) + n ≤ d.(fields).(byte_length) →
  (d.(fields).(minimum_fill) ≤ d.(fields).(bytes_filled) + n →
   (d.(fields).(bytes_filled) + n) mod element_size d.(fields) = 0) →
  (d.(fields).(reader_type) = ReaderTypeDefault → n = 0) → good (grown d n).
Proof.
  intros (Hw & Hlen & Hd) Hn Ha Hz. split_and!; simpl; [by apply wf_with_filled | done |].
  intros Hr. destruct (Hd Hr) as (H0 & ? & ?). rewrite (Hz Hr), H0. done.
Qed.

(** The state [respond_after_buffer_transfer] works on: the head's buffer
    transferred, the written bytes counted as supplied. *)
Definition responding (s : stream) (d : storage) (n : N) : stream := supply s (written d n).

(** A response that leaves the head waiting, or hands a released one back. *)
Lemma respond_live_wp s d l n p (k : M unit) (Q : stream → unit + byte_error → Prop) :
  s.(pending_pull_intos) = d :: l → good d → p.(respond_source) = d.(fields) →
  p.(respond_descriptor) = with_filled d.(fields) (d.(fields).(bytes_filled) + n) →
  (∀ r, p.(respond_action) ≠ Commit r) →
  match p.(respond_action) with
  | RespondClosed => respond_in_closed_state
  | FlushReleased => bind flush_released_descriptor (λ _, process_pending_descriptors)
  | AwaitMore => ok tt
  | Commit _ => ok tt
  end = k →
  wp k Q (set_head (grown d n) (with_byob_request (responding s d n) None s.(next_byob))) →
  wp (respond_after_buffer_transfer p) Q (responding s d n).
Proof.
  intros E Hg Hs Hd Hnc <- HQ. unfold respond_after_buffer_transfer. apply wp_get_bind.
  rewrite Hs. eapply wp_ok_or_bind; [by eapply live_head_core |]. apply wp_modify_bind.
  unfold set_head in HQ. simpl in HQ. rewrite E in HQ.
  apply wp_bind. destruct (respond_action p) eqn:Ea; [| by destruct (Hnc remainder) | |]; apply wp_ok;
    apply wp_get_bind; (eapply wp_ok_or_bind; [by eapply live_head_core |]);
    apply wp_modify_bind; rewrite Hd; unfold set_head; simpl; rewrite E; exact HQ.
Qed.

(** What a commit leaves in the head and what it gives back to the queue. *)
Definition committed (s : stream) (d : storage) (l : list storage) (p : RespondPlan)
    (rem : ByteRange) (r : N) (rs : list N) (n : N) : stream :=
  with_reads
    (with_pull_intos
      (with_byob_request
        (with_queue (responding s d n)
           (if range_is_empty rem then s.(queue)
            else bytes_at d.(buffer) rem.(range_offset) rem.(range_length) :: s.(queue)))
        None s.(next_byob)) l) rs s.(settled).

Lemma respond_commit_wp s d l n p rem r rs (Q : stream → unit + byte_error → Prop) :
  s.(pending_pull_intos) = d :: l → good d → d.(detached) = false →
  respond_ok d.(fields) ByteReadable n p → p.(respond_action) = Commit rem →
  s.(pending_reads) = r :: rs →
  wp (bind (collect_pending_descriptor_resolutions
        [{| res_descriptor := with_fields d p.(respond_descriptor);
            res_pending := r; res_done := false |}])
       (λ resolutions, bind finish_readable_stream_close_if_requested_and_queue_empty
         (λ _, resolve_descriptor_batch resolutions))) Q (committed s d l p rem r rs n) →
  wp (respond_after_buffer_transfer p) Q (responding s d n).
Proof.
  intros E Hg Hdet [Hs Hok] Ha Er HQ. rewrite Ha in Hok.
  destruct Hok as (_ & Hrt & Hd & Hw & Hrdy & Hsum & Hoff & Hlt & [Hin Hin']).
  unfold respond_after_buffer_transfer. apply wp_get_bind.
  rewrite Hs, Ha. eapply wp_ok_or_bind; [by eapply live_head_core |]. apply wp_modify_bind.
  set (q' := if range_is_empty rem then queue s
             else bytes_at (buffer d) (range_offset rem) (range_length rem) :: queue s).
  assert (wp (bind get (λ s, bind (ok_or (live_head s (fields d)) TypeError) (λ d0,
      bind (modify (set_head (with_fields d0 (with_filled (fields d0)
              (bytes_filled (respond_descriptor p)))))) (λ _,
        bind (take_head_descriptor_resolution false) (λ first,
        bind (collect_pending_descriptor_resolutions [first]) (λ resolutions,
        bind finish_readable_stream_close_if_requested_and_queue_empty (λ _,
        resolve_descriptor_batch resolutions))))))) Q
      (with_queue (with_byob_request (responding s d n) None (next_byob s)) q')) as Hgo.
  { apply wp_get_bind. eapply wp_ok_or_bind; [by eapply live_head_core |].
    apply wp_modify_bind. rewrite <-Hd. apply wp_bind.
    apply is_ready_true in Hrdy as [_ Hal].
    eapply (take_head_wp _ (with_fields d (respond_descriptor p)) l r rs);
      [unfold set_head; simpl; by rewrite E | done | simpl; by rewrite Hd | done | done |].
    unfold set_head. simpl. rewrite E. exact HQ. }
  apply wp_bind. subst q'. destruct (range_is_empty rem) eqn:Ee.
  - apply wp_ok. destruct s; exact Hgo.
  - eapply wp_calc_bind; [by apply add64_fits |].
    assert (store_length d = buffer_byte_length (fields d)) as ->
      by (unfold store_length; rewrite Hdet; apply Hg).
    rewrite (proj2 (N.ltb_ge _ _)) by lia. unfold prepend_chunk, wp at 1, modify. exact Hgo.
Qed.

Lemma commit_bytes d p rem n :
  respond_ok d.(fields) ByteReadable n p → p.(respond_action) = Commit rem →
  filled_bytes (with_fields d p.(respond_descriptor)) ++
    bytes_at d.(buffer) rem.(range_offset) rem.(range_length) = filled_bytes d ++ written d n.
Proof.
  intros [_ Hok] Ha. rewrite Ha in Hok.
  destruct Hok as (_ & _ & Hd & _ & _ & Hsum & Hoff & _).
  rewrite <-grown_bytes. unfold filled_bytes, grown. simpl. rewrite Hoff, <-Hsum.
  rewrite bytes_at_app. f_equal. rewrite Hd. done.
Qed.

Lemma commit_core s d l n p rem r rs :
  inv s → live s = true → s.(pending_pull_intos) = d :: l → good d →
  respond_ok d.(fields) ByteReadable n p → p.(respond_action) = Commit rem →
  s.(pending_reads) = r :: rs →
  core (flight [{| res_descriptor := with_fields d p.(respond_descriptor);
                   res_pending := r; res_done := false |}]) (committed s d l p rem r rs n).
Proof.
  intros [Hc Hrest] Hl E Hg Hok Ha Er. pose proof (commit_bytes d p rem n Hok Ha) as Hb.
  destruct Hok as [_ Hok]. rewrite Ha in Hok.
  destruct Hok as (_ & Hrt & Hd & Hw & Hrdy & Hsum & Hoff & Hlt & [Hin _]).
  assert (queue s = []) as Hq by (apply Hrest; congruence).
  eapply (core_taken [] s _ d l r rs _ (written d n)); try done; unfold committed; simpl; rewrite Hq.
  - destruct (range_is_empty rem) eqn:Ee; [done |]. constructor; [| done].
    intros H%(f_equal length). rewrite length_bytes_at in H.
    + unfold range_is_empty in Ee. apply N.eqb_neq in Ee. simpl in H. lia.
    + destruct Hg as (_ & -> & _). lia.
  - simpl. rewrite <-Hb. f_equal. unfold range_is_empty.
    destruct (N.eqb_spec (range_length rem) 0) as [-> |]; [done |]. simpl. by rewrite app_nil_r.
Qed.

(** Each kind of response keeps the invariant. *)
Section responses.
Context (s : stream) (d : storage) (l : list storage) (n : N) (p : RespondPlan).
Context (Hi : inv s) (E : s.(pending_pull_intos) = d :: l) (Hdet : d.(detached) = false).
Context (Hle : d.(fields).(bytes_filled) + n ≤ d.(fields).(byte_length)).

Lemma respond_head_good : good d ∧ Forall fresh l ∧ s.(queue) = [].
Proof.
  destruct Hi as [Hc Hrest]. pose proof (core_descs _ _ Hc) as Hds. rewrite E in Hds.
  destruct Hds. split_and!; try done. apply Hrest. congruence.
Qed.

Lemma respond_await_inv :
  live s = true → n ≠ 0 → respond_ok d.(fields) ByteReadable n p → p.(respond_action) = AwaitMore →
  wp (respond_after_buffer_transfer p) (λ s' _, inv s') (responding s d n).
Proof.
  intros Hl Hn [Hs Hact] Ea. destruct respond_head_good as (Hg & _ & Hq). rewrite Ea in Hact.
  destruct Hact as (_ & Hrt & Hlt & Hd & Hw).
  eapply respond_live_wp; rewrite ?Ea; try done.
  apply wp_ok. split; [| simpl; unfold set_head; simpl; by rewrite Hq].
  eapply (core_grown [] s _ d l n); try done; unfold set_head; simpl; rewrite ?E; try done.
  - apply Hi.
  - apply good_grown; [done | done | lia |]. intros Hdef.
    destruct Hg as (_ & _ & Hg). destruct (Hg Hdef) as (? & ? & _). lia.
Qed.

Lemma respond_commit_inv rem :
  live s = true → respond_ok d.(fields) ByteReadable n p → p.(respond_action) = Commit rem →
  wp (respond_after_buffer_transfer p) (λ s' _, inv s') (responding s d n).
Proof.
  intros Hl Hok Ea. destruct respond_head_good as (Hg & Hf & Hq).
  pose proof Hok as [_ Hact]. rewrite Ea in Hact. destruct Hact as (_ & Hrt & Hd & Hw & Hrdy & _).
  destruct (pending_reads_nonempty s d l) as (r & rs & Er); [by apply Hi | done | done |].
  eapply respond_commit_wp; try done.
  apply wp_bind, wp_get_bind. eapply wp_mono.
  { apply collect_loop_wp; [by apply commit_core | done | by eapply fresh_attached | | lia].
    constructor; [| done]. apply is_ready_true in Hrdy as [_ ?]. by split_and!. }
  intros s2 r2 (acc & -> & Hc2 & _ & Hres & _ & Hrest2). cbv beta iota.
  apply wp_bind. eapply wp_mono; [by apply finish_close_core |].
  intros s3 r3 (-> & Hc3 & Hk & _). cbv beta iota. apply resolve_batch_wp; [done |].
  split; [apply core_resolved; by rewrite app_nil_r | by eapply keeps_rest].
Qed.

Lemma respond_flush_inv :
  live s = true → released_response_fits s n = true → respond_ok d.(fields) ByteReadable n p →
  p.(respond_action) = FlushReleased →
  wp (respond_after_buffer_transfer p) (λ s' _, inv s') (responding s d n).
Proof.
  intros Hl Hfit [Hs Hact] Ea. destruct respond_head_good as (Hg & Hf & Hq). rewrite Ea in Hact.
  destruct Hact as (_ & Hrt & Hd).
  eapply respond_live_wp; rewrite ?Ea; try done.
  assert (good (grown d n)) as Hg'.
  { apply good_grown; [done | done | | congruence].
    unfold released_response_fits in Hfit. rewrite E, bool_decide_true in Hfit by done. simpl in Hfit.
    intros Hmin. rewrite (proj2 (N.ltb_ge _ _)) in Hfit by done. by apply is_multiple_of_true. }
  set (s1 := set_head _ _).
  assert (pending_pull_intos s1 = grown d n :: l) as E1 by (unfold s1, set_head; simpl; by rewrite E).
  assert (core [] s1) as Hc1 by (eapply (core_grown [] s _ d l n); try done; apply Hi).
  apply wp_bind, flush_wp; [apply Hc1 | |].
  - eapply wp_mono; [apply process_core | by intros ?? []].
    + by apply core_flushed.
    + by rewrite (live_same_run _ _ (flushed_same_run s1)).
    + apply flushed_attached; [apply Hc1 |]. unfold head_attached. by rewrite E1.
  - intros d0 l0 E0 _ Hd0. rewrite E1 in E0. injection E0 as <- <-. simpl in Hd0. congruence.
Qed.

Lemma respond_terminal_inv :
  s.(closed) = true → n = 0 → respond_ok d.(fields) ByteClosed n p →
  p.(respond_action) = RespondClosed →
  wp (respond_after_buffer_transfer p) (λ s' _, inv s') (responding s d n).
Proof.
  intros Hcl Hn [Hs Hact] Ea. destruct respond_head_good as (Hg & Hf & Hq). rewrite Ea in Hact.
  destruct Hact as (_ & Hd). eapply respond_live_wp; rewrite ?Ea; try done.
  assert (grown d n = d) as Hgr.
  { unfold grown. rewrite Hn, N.add_0_r, with_filled_id. by destruct d. }
  assert (live s = false) as Hl by (unfold live; by rewrite Hcl).
  apply respond_closed_inv; unfold set_head; simpl; rewrite ?E, ?Hgr; try done.
  destruct Hi as [[] _]. rewrite E in core_descs0. constructor; simpl; try done.
  - destruct core_bytes0 as (lost & Hb & Hlost). exists lost. split; [| done].
    unfold written. rewrite Hn, bytes_at_zero, app_nil_r, Hb. unfold held, delivered. simpl.
    by rewrite E.
  - unfold live in *. simpl. congruence.
  - intros H. destruct (core_errored0 H). congruence.
Qed.

(** A validated response keeps the invariant. *)
Lemma respond_after_inv st :
  s.(stored_error) = false → st = (if s.(closed) then ByteClosed else ByteReadable) →
  (n = 0 ↔ st = ByteClosed) → released_response_fits s n = true →
  respond_ok d.(fields) st n p →
  wp (respond_after_buffer_transfer p) (λ s' _, inv s') (responding s d n).
Proof.
  intros Herr Est Hz Hfit Hok.
  assert (st = ByteReadable → live s = true) as Hl
    by (intros ->; unfold live; rewrite Herr; by destruct (closed s)).
  pose proof Hok as [_ Hact]. destruct (respond_action p) as [|rem| |] eqn:Ea; destruct Hact as [-> _].
  - apply respond_await_inv; auto. by rewrite Hz.
  - by eapply respond_commit_inv; auto.
  - apply respond_flush_inv; auto.
  - apply respond_terminal_inv; auto; [by destruct (closed s) | by apply Hz].
Qed.
End responses.

Lemma inv_head s d l :
  inv s → s.(pending_pull_intos) = d :: l → good d ∧ s.(stored_error) = false.
Proof.
  intros [Hc _] E. pose proof (core_descs _ _ Hc) as Hds. rewrite E in Hds.
  split; [apply Hds |]. destruct (stored_error s) eqn:He; [| done].
  destruct (core_errored _ _ Hc He). congruence.
Qed.

Lemma respond_callback_inv s request n :
  inv s → released_response_fits s n = true →
  wp (readable_stream_byob_request_respond_callback request n) (λ s' _, inv s') s.
Proof.
  intros Hi Hfit. pose proof Hi as [Hc Hrest].
  unfold readable_stream_byob_request_respond_callback. apply wp_get_bind.
  destruct (negb _); [by apply wp_throw |]. unfold validate_respond. apply wp_bind, wp_get_bind.
  rewrite head_storage_core by apply Hc. unfold respond_context.
  rewrite head_descriptor_core by apply Hc.
  destruct (pending_pull_intos s) as [|d l] eqn:E; [by apply wp_bind, wp_throw |].
  destruct (inv_head s d l Hi E) as [Hg Herr].
  simpl. apply wp_bind, wp_ok. eapply wp_ok_or_bind; [by apply state_of_good |].
  apply wp_bind, wp_ok. simpl. rewrite bool_decide_true by done. simpl.
  set (st := match from_storage (closed s) (stored_error s) with
             | Closed => ByteClosed | _ => ByteReadable end).
  assert (st = if closed s then ByteClosed else ByteReadable) as Est
    by (unfold st; rewrite Herr; by destruct (closed s)).
  destruct (plan_respond_wf (fields d) st n) as (r & Hr & Hcase); [apply Hg |].
  eapply wp_calc_bind; [exact Hr |]. destruct r as [p|e]; [| by destruct e; apply wp_throw].
  destruct Hcase as (Hle & Hz & Hok).
  eapply wp_ok_or_bind; [by eapply live_head_core |]. apply wp_ok, wp_get_bind.
  destruct Hok as [Hs Hact]. rewrite Hs. eapply wp_ok_or_bind; [by eapply live_head_core |].
  unfold transfer_descriptor_buffer. apply wp_bind.
  destruct (detached d) eqn:Hdet; [by apply wp_throw | apply wp_ok].
  apply wp_modify_bind. rewrite head_storage_core by apply Hc. rewrite E. simpl.
  by eapply respond_after_inv.
Qed.

(** A head replaced by one with the same fields and the same filled bytes. *)
Lemma inv_replace_head s d l d' :
  inv s → s.(pending_pull_intos) = d :: l → d'.(fields) = d.(fields) →
  length d'.(buffer) = length d.(buffer) → filled_bytes d' = filled_bytes d →
  inv (with_pull_intos s (d' :: l)).
Proof.
  intros [Hc Hrest] E Hf Hlen Hb. split; [| simpl; intros _; apply Hrest; congruence].
  destruct Hc. rewrite E in core_descs0. constructor; simpl; try done.
  - destruct core_descs0 as [(? & ? & ?) ?]. split; [| done]. unfold good. by rewrite Hf, Hlen.
  - destruct core_bytes0 as (lost & Hb0 & Hlost). exists lost. split; [| done].
    rewrite Hb0. unfold held, delivered. simpl. by rewrite E, Hb.
  - intros Hl. specialize (core_match0 Hl). unfold match_ok, auto_on in *. simpl.
    rewrite E, active_cons in core_match0. by rewrite active_cons, Hf.
  - intros H. destruct (core_errored0 H). congruence.
Qed.

Lemma respond_view_inv s request v vdet :
  inv s → released_response_fits s v.(v_length) = true → keeps_filled s v.(v_buffer) = true →
  wp (readable_stream_byob_request_respond_with_new_view_callback request v vdet)
     (λ s' _, inv s') s.
Proof.
  intros Hi Hfit Hkeep. pose proof Hi as [Hc Hrest].
  unfold readable_stream_byob_request_respond_with_new_view_callback. apply wp_get_bind.
  destruct (negb _); [by apply wp_throw |]. unfold respond_byte_stream_with_new_view.
  apply wp_get_bind. rewrite head_storage_core by apply Hc. unfold respond_context.
  rewrite head_descriptor_core by apply Hc.
  destruct (pending_pull_intos s) as [|d l] eqn:E; [by apply wp_bind, wp_throw |].
  destruct (inv_head s d l Hi E) as [Hg Herr].
  simpl. apply wp_bind, wp_ok. eapply wp_ok_or_bind; [by apply state_of_good |].
  apply wp_bind, wp_ok. simpl. rewrite bool_decide_true by done. simpl.
  set (st := match from_storage (closed s) (stored_error s) with
             | Closed => ByteClosed | _ => ByteReadable end).
  assert (st = if closed s then ByteClosed else ByteReadable) as Est
    by (unfold st; rewrite Herr; by destruct (closed s)).
  set (rv := {| view_buffer_byte_length := _ |}).
  destruct (plan_respond_with_new_view_wf (fields d) st rv) as (r & Hr & Hcase); [apply Hg |].
  eapply wp_calc_bind; [exact Hr |]. destruct r as [p|e]; [| by destruct e; apply wp_throw].
  destruct Hcase as (_ & Hbl & _ & Hle & Hz & Hok). simpl in *.
  destruct (v_transferable v); simpl; [| by apply wp_throw]. apply wp_get_bind.
  pose proof Hok as [Hs _]. rewrite Hs. eapply wp_ok_or_bind; [by eapply live_head_core |].
  apply wp_modify_bind. set (d' := {| buffer := v_buffer v; detached := false; fields := fields d |}).
  assert (inv (with_pull_intos s (d' :: l))) as Hi'.
  { eapply inv_replace_head; try done; simpl.
    - destruct Hg as (_ & Hlen & _). lia.
    - unfold keeps_filled in Hkeep. rewrite E in Hkeep. by apply bool_decide_eq_true in Hkeep. }
  unfold set_head. rewrite E. apply wp_modify_bind.
  rewrite head_storage_core by apply Hi'. simpl.
  eapply (respond_after_inv (with_pull_intos s (d' :: l)) d' l); try done.
  unfold released_response_fits in *. rewrite E in Hfit. done.
Qed.

(** ** Every operation keeps the invariant *)
Lemma close_stream_inv s : inv s → wp close_stream (λ s' _, inv s') s.
Proof.
  intros [Hc Hrest]. unfold close_stream. apply wp_get_bind.
  destruct (plan_request_close _); [| by apply wp_ok].
  apply wp_modify_bind, wp_bind. eapply wp_mono.
  { apply (finish_close_core []). by destruct Hc. }
  intros s' r (-> & Hc' & Hk & _). apply wp_ok. split; [done | by eapply keeps_rest].
Qed.

Lemma error_inv s : inv s → wp error_stream (λ s' _, inv s') s.
Proof.
  intros [Hc Hrest]. eapply wp_mono; [by apply error_stream_core |].
  intros s' r (_ & ? & _ & Hk). split; [done | by eapply keeps_rest].
Qed.

Lemma close_callback_inv s : inv s → wp readable_stream_controller_close_callback (λ s' _, inv s') s.
Proof.
  intros Hi. unfold readable_stream_controller_close_callback. apply wp_attempt.
  unfold prepare_readable_byte_stream_close. apply wp_get_bind.
  destruct (validate_close _); [apply wp_ok | apply wp_throw]; apply wp_bind.
  - eapply wp_mono; [by apply close_stream_inv |]. intros s' [[]|e] H; [by apply wp_ok | by apply wp_throw | done].
  - eapply wp_mono; [by apply error_inv |]. intros s' [?|?] H; [by apply wp_throw | done].
Qed.

(** A stream whose data has been dropped closes at once. *)
Lemma finish_cleared s s0 :
  inv s0 → live s = true → s.(pending_pull_intos) = [] → s.(queue) = [] →
  s.(settled) = s0.(settled) → s.(pending_reads) = s0.(pending_reads) →
  s.(next_request) = s0.(next_request) → s.(auto_allocate) = s0.(auto_allocate) →
  s.(supplied) = s0.(supplied) →
  wp finish_readable_stream_close (λ s' r, r = inl tt ∧ inv s') s.
Proof.
  intros [Hc _] Hl E Eq Es Ep En Ea Esup. unfold finish_readable_stream_close. apply wp_get_bind.
  rewrite is_readable_live, Hl. simpl. apply wp_modify_bind, wp_get_bind.
  unfold plan_byte_finish_close. simpl. rewrite E. simpl.
  apply wp_bind, settle_all_wp. unfold wp, modify. split; [done |].
  split; [| simpl; by rewrite Eq].
  apply (core_settle_all [] (with_lifecycle s true (stored_error s) false) (Fulfilled None true));
    [| done | done].
  by apply (core_lose [] s0).
Qed.

Lemma cancel_inv s : inv s → wp cancel_readable_stream (λ s' _, inv s') s.
Proof.
  intros Hi. unfold cancel_readable_stream. apply wp_get_bind.
  unfold plan_cancel. destruct (state (readable_stream_snapshot s)) eqn:Est; try by apply wp_ok.
  assert (live s = true) as Hl by (by rewrite <-is_readable_live, Est).
  apply wp_modify_bind, wp_bind, wp_modify_bind. unfold wp at 1, modify.
  change (close_requested (readable_stream_snapshot s)) with (close_is_requested s).
  destruct (close_is_requested s) eqn:Ecr.
  { eapply wp_mono; [by apply (finish_cleared _ s) | by intros ?? []]. }
  unfold close_stream. apply wp_bind, wp_get_bind. unfold plan_request_close.
  rewrite is_readable_live. change (live _) with (live s). rewrite Hl. simpl. rewrite Ecr. simpl.
  apply wp_modify_bind, wp_bind. simpl.
  unfold finish_readable_stream_close_if_requested_and_queue_empty. apply wp_get_bind.
  unfold Readable.plan_finish_close. rewrite is_readable_live. change (live _) with (live s).
  rewrite Hl. simpl. apply wp_attempt. unfold wp at 1. simpl.
  eapply wp_mono; [by apply (finish_cleared _ s) |]. intros s' r [-> ?]. by apply wp_ok.
Qed.

(** Releasing keeps at most the head, without its reader. *)
Lemma release_reads_inv s l :
  inv s → descs_ok l → Forall (λ d, d.(fields).(reader_type) = ReaderTypeNone) l →
  held (with_pull_intos s l) = held s → (l ≠ [] → s.(pending_pull_intos) ≠ []) →
  wp (bind reject_pending_read_requests (λ _, modify (λ s, with_reader s None)))
     (λ s' _, inv s') (with_pull_intos s l).
Proof.
  intros [Hc Hrest] Hl Hn Hh Hne. unfold reject_pending_read_requests. apply wp_bind, wp_get_bind.
  apply wp_bind, settle_all_wp. simpl. unfold wp, modify. split; [| simpl; auto].
  destruct Hc. constructor; simpl; try done.
  - destruct core_bytes0 as (lost & Hb & Hlost). exists lost. split; [| done].
    rewrite Hb, <-Hh. unfold delivered. simpl.
    rewrite map_app, concat_app, settled_bytes_none, app_nil_r by done. done.
  - rewrite <-core_reads0, map_app, map_map. simpl. rewrite map_id. solve_Permutation.
  - intros _. unfold match_ok. simpl. split; [| done].
    clear -Hn. induction Hn; [done |]. by rewrite active_cons, decide_True.
  - intros H. destruct (core_errored0 H) as [E ?]. split; [| done].
    destruct l; [done |]. by destruct (Hne ltac:(done)).
Qed.

Lemma release_inv s : inv s → wp release_readable_stream_reader (λ s' _, inv s') s.
Proof.
  intros Hi. pose proof Hi as [Hc Hrest].
  unfold release_readable_stream_reader, release_byte_stream_reader.
  apply wp_bind, wp_get_bind. unfold plan_release_reader. rewrite head_descriptor_core by apply Hc.
  destruct (pending_pull_intos s) as [|d l] eqn:E.
  - apply wp_ok. pose proof (release_reads_inv s [] Hi) as H.
    assert (with_pull_intos s [] = s) as Hs by (destruct s; simpl in *; by subst).
    rewrite Hs in H. by apply H.
  - destruct (inv_head s d l Hi E) as [Hg _]. rewrite (live_head_core s d l) by done.
    unfold wp at 1, modify. apply release_reads_inv; [done | | by constructor | | by rewrite E].
    + apply descs_ok_one. destruct Hg as (? & ? & _). split_and!; simpl; [by apply released_wf | done | done].
    + unfold held. simpl. rewrite E. done.
Qed.

Lemma byob_request_inv s : inv s → wp readable_byte_stream_byob_request (λ s' _, inv s') s.
Proof.
  intros Hi. pose proof Hi as [Hc Hrest]. unfold readable_byte_stream_byob_request. apply wp_get_bind.
  unfold plan_byob_request. rewrite head_descriptor_core by apply Hc. simpl.
  destruct (byob_request s); [eapply wp_calc_bind; [done |]; by apply wp_ok |].
  destruct (pending_pull_intos s) as [|d l] eqn:E; [eapply wp_calc_bind; [done |]; by apply wp_ok |].
  destruct (inv_head s d l Hi E) as [Hg _].
  rewrite request_range_wf by apply Hg. eapply wp_calc_bind; [done |]. cbv beta iota.
  cbn [creation_source]. rewrite (live_head_core s d l) by done.
  apply wp_modify_bind, wp_ok. split; [by apply core_byob | simpl; by rewrite E].
Qed.

Lemma author_inv s f :
  inv s →
  (∀ d l, s.(pending_pull_intos) = d :: l →
     (f d).(fields) = d.(fields) ∧ length (f d).(buffer) = length d.(buffer) ∧
     filled_bytes (f d) = filled_bytes d) →
  wp (author_head f) (λ s' _, inv s') s.
Proof.
  intros Hi Hf. unfold author_head. apply wp_get_bind.
  destruct (byob_request s); [| by apply wp_ok].
  destruct (pending_pull_intos s) as [|d l] eqn:E; [by apply wp_ok |].
  destruct (Hf d l eq_refl) as (? & ? & ?). unfold wp, modify. by eapply inv_replace_head.
Qed.

Lemma perform_inv s o : inv s → permitted s o = true → wp (perform o) (λ s' _, inv s') s.
Proof.
  intros Hi Hp. unfold perform. apply wp_get_bind. destruct o; simpl in Hp.
  - destruct (reader s) eqn:Er; [by apply wp_throw |]. destruct Hi as [[] Hrest]. split; [| done].
    constructor; simpl; try done. intros Hl. specialize (core_match0 Hl).
    unfold match_ok, auto_on in *. rewrite Er in core_match0. destruct core_match0 as [Ha Hr].
    simpl. rewrite Ha, Hr. destruct kind; by repeat case_match.
  - destruct (reader s) as [[]|] eqn:Er; try by apply wp_throw. by apply read_inv.
  - destruct (reader s) as [[]|] eqn:Er; try by apply wp_throw. by apply read_into_inv.
  - destruct (reader s); [by apply release_inv | by apply wp_ok].
  - apply enqueue_inv; [done | by apply negb_true_iff].
  - apply wp_bind. eapply wp_mono; [by apply byob_request_inv |]. by intros s' [?|?] ?; [apply wp_ok |].
  - by apply respond_callback_inv.
  - apply andb_prop in Hp as [? ?]. by apply respond_view_inv.
  - by apply close_callback_inv.
  - by apply error_inv.
  - by apply cancel_inv.
  - apply author_inv; [done |]. intros d l E. unfold keeps_filled in Hp. rewrite E in Hp.
    apply bool_decide_eq_true in Hp. destruct (Nat.eqb_spec (length contents) (length (buffer d))); done.
  - by apply author_inv.
Qed.

Lemma exec_inv s o : inv s → permitted s o = true → ∃ s', exec o s = Ret s' ∧ inv s'.
Proof.
  intros Hi Hp. pose proof (perform_inv s o Hi Hp) as H. unfold wp in H. unfold exec.
  destruct (perform o s) as [[s' r]|]; [by exists s' | done].
Qed.

Lemma initial_inv a :
  match a with Some n => n ≤ u64_max | None => True end → inv (initial a).
Proof.
  intros Ha. split; [| done]. constructor; simpl; try done.
  by exists [].
Qed.

Lemma reachable_inv a s :
  match a with Some n => n ≤ u64_max | None => True end → rtc step (initial a) s → inv s.
Proof.
  intros Ha Hs. apply (rtc_invariant step inv) with (initial a); [| done | by apply initial_inv].
  intros x y Hx (o & Hp & He). destruct (exec_inv x o Hx Hp) as (y' & He' & Hy). congruence.
Qed.

(** A list of calls, each permitted where it happens. *)
Fixpoint permitted_all (l : list op) (s : stream) : bool :=
  match l with
  | [] => true
  | o :: l => permitted s o && match exec o s with Ret s' => permitted_all l s' | Panic => false end
  end.

Lemma permitted_all_reach l s s' :
  permitted_all l s = true → exec_all l s = Ret s' → rtc step s s'.
Proof.
  revert s. induction l as [|o l IH]; simpl; intros s Hp He; [by injection He as -> |].
  apply andb_prop in Hp as [Ho Hp]. destruct (exec o s) as [s1|] eqn:E; [| done].
  eapply rtc_l; [by exists o | by apply IH].
Qed.

(** Two BYOB reads of sixteen-bit elements: the first takes two whole
    elements of a response of five bytes, the odd byte stays queued and
    reaches a default reader after a release. *)
Definition sample_view : view :=
  {| v_buffer := [0; 0; 0; 0; 0; 0]; v_offset := 0; v_length := 6; v_kind := Uint16;
     v_transferable := true |}.
Definition sample : list op :=
  [GetReader ReaderByob; ReadInto sample_view 2; GetByobRequest;
   AuthorWrites [1; 2; 3; 4; 5; 0]; Respond 0 5; ReleaseLock;
   Enqueue [6; 7] true; GetReader ReaderDefault; Read].

(** ** Properties *)

(** C1: delivery on a byte stream.  Author code mixes default and BYOB readers
    and their reads, releases, enqueued chunks, responses, writes into exposed
    buffers, closes, errors and cancels, in any order, within the limits of
    [permitted]: writes and new views leave the bytes already filled alone; a
    response to a released request that holds bytes ends on an element
    boundary or stays below the minimum; and no chunk is enqueued while a
    released request that holds bytes stands before the descriptor of an
    auto-allocated default read.  Then no call panics, and in every state that
    can be reached the bytes handed to reads so far, in the order the reads
    settled, are a prefix of the bytes the source supplied; as long as the
    stream is readable nothing is missing or out of place: what was supplied
    is what was delivered, then what the first descriptor holds, then the
    queue.  Outside the last two limits the code does not do this:
    [released_bytes_overtaken] and [released_partial_element_stuck]. *)
Theorem byte_stream_fifo (auto : option N) (s : stream)
    (Hauto : match auto with Some n => n ≤ u64_max | None => True end)
    (Hs : rtc step (initial auto) s) :
  delivered s `prefix_of` s.(supplied) ∧
  (live s = true → s.(supplied) = delivered s ++ held s ++ concat s.(queue)) ∧
  (∀ o, permitted s o = true → ∃ s', exec o s = Ret s').
Proof.
  pose proof (reachable_inv auto s Hauto Hs) as Hi. pose proof Hi as [[] _]. destruct core_bytes0 as (lost & Hb & Hlost). split_and!.
  - rewrite Hb. by eexists.
  - intros Hl. rewrite Hb, (Hlost Hl). simpl. by rewrite app_nil_r.
  - intros o Hp. destruct (exec_inv s o Hi Hp) as (s' & ? & _). by exists s'.
Qed.

(** Every read request of a byte stream is accounted for: in every
    reachable state the settled reads and the pending ones together are
    exactly the reads ever issued, each once, so no read is settled twice and
    none is dropped by a close, an error, a release or a batch of
    resolutions. *)
Theorem byte_reads_settle_once (auto : option N) (s : stream)
    (Hauto : match auto with Some n => n ≤ u64_max | None => True end)
    (Hs : rtc step (initial auto) s) :
  map fst s.(settled) ++ s.(pending_reads) ≡ₚ issued s.(next_request) ∧
  NoDup (map fst s.(settled) ++ s.(pending_reads)).
Proof.
  destruct (reachable_inv auto s Hauto Hs) as [[] _].
  split; [done |]. simpl in core_reads0. rewrite core_reads0. apply issued_NoDup.
Qed.

Lemma byte_stream_fifo_witness :
  ∃ s, exec_all sample (initial None) = Ret s ∧ delivered s = [1; 2; 3; 4; 5] ∧
       s.(supplied) = delivered s ++ held s ++ concat s.(queue).
Proof.
  eexists. split; [vm_compute; reflexivity |]. split; [vm_compute; reflexivity |].
  refine (proj1 (proj2 (byte_stream_fifo None _ I _)) _).
  - apply (permitted_all_reach sample); vm_compute; reflexivity.
  - vm_compute. reflexivity.
Defined.

Lemma byte_reads_settle_once_witness :
  ∃ s, exec_all sample (initial None) = Ret s ∧
       NoDup (map fst s.(settled) ++ s.(pending_reads)).
Proof.
  eexists. split; [vm_compute; reflexivity |].
  refine (proj2 (byte_reads_settle_once None _ I _)).
  apply (permitted_all_reach sample); vm_compute; reflexivity.
Defined.

(** Bytes overtake each other when a released BYOB request that already
    holds bytes stands in front of an auto-allocated default read: the bytes
    go back to the queue, the next chunk is handed straight to the read, and
    the stream delivers [3, 4] with [1, 2] still queued. *)
Theorem released_bytes_overtaken :
  ∃ s, exec_all
         [GetReader ReaderByob;
          ReadInto {| v_buffer := [0; 0; 0; 0]; v_offset := 0; v_length := 4; v_kind := Uint8;
                      v_transferable := true |} 4;
          Enqueue [1; 2] true; ReleaseLock; GetReader ReaderDefault; Read; Enqueue [3; 4] true]
         (initial (Some 8)) = Ret s ∧
       live s = true ∧ s.(supplied) = [1; 2; 3; 4] ∧ delivered s = [3; 4] ∧
       s.(queue) = [[1; 2]] ∧ s.(pending_pull_intos) = [].
Proof. eexists. split; [vm_compute; reflexivity |]. by vm_compute. Qed.

(** A response to a released BYOB request that reaches the minimum with a
    partial element leaves a descriptor the next decode refuses: its bytes are
    neither flushed to the queue nor delivered, and later chunks pass it. *)
Theorem released_partial_element_stuck :
  ∃ s, exec_all
         [GetReader ReaderByob;
          ReadInto {| v_buffer := [0; 0; 0; 0]; v_offset := 0; v_length := 4; v_kind := Uint16;
                      v_transferable := true |} 1;
          GetByobRequest; ReleaseLock; AuthorWrites [1; 2; 3; 0]; Respond 0 3;
          GetReader ReaderDefault; Read; Enqueue [4; 5] true]
         (initial None) = Ret s ∧
       live s = true ∧ s.(supplied) = [1; 2; 3; 4; 5] ∧ delivered s = [4; 5] ∧
       s.(queue) = [] ∧ held s = [1; 2; 3] ∧ head_storage s = None.
Proof. eexists. split; [vm_compute; reflexivity |]. by vm_compute. Qed.
