(* ===== verification/ModuleTypes.v ===== *)
(** Data of the module-script tree (moli-module-script-tree, [types.rs] and
    the host trait of [host.rs]).  [Url] is the type of the url crate: any
    countable type with its string form. *)
From stdpp Require Import base list numbers option gmap strings sorting.
From S2P Require Import Prelude.

#[local] Open Scope N_scope.

(** ** Identities *)
Definition ModuleTreeId := N.
Definition ModuleFetchId := N.
Definition ModuleEntryId := N.

Record ModuleTreeClientToken := { tree_client_tree : ModuleTreeId; tree_client_sequence : N }.
Record SingleModuleClientToken := { client_tree : ModuleTreeId; client_sequence : N }.

#[global] Instance SingleModuleClientToken_eq_dec : EqDecision SingleModuleClientToken.
Proof. solve_decision. Defined.
#[global] Instance SingleModuleClientToken_countable : Countable SingleModuleClientToken.
Proof.
  refine (inj_countable' (λ t, (t.(client_tree), t.(client_sequence)))
            (λ p, {| client_tree := p.1; client_sequence := p.2 |}) _). by intros [].
Defined.

(** ** Enumerations *)
Inductive ModuleTreeOwnerKind :=
  OwnerParserPendingScript | OwnerRuntimeModuleScript | OwnerDynamicImport | OwnerWorkerModuleScript.
Inductive ModuleTreeState :=
  Initial | FetchingRoot | FetchingDependencies | Linking | Finished | Aborted.
Inductive ModuleKind := JavaScript | Json | Css | ModuleText | WebAssembly.
Inductive ModuleImportPhase := Evaluation | Source.
Inductive ModuleGraphLevel := TopLevel | Dependent.
Inductive CredentialsMode := Omit | CredentialsSameOrigin | Include.
Inductive ReferrerPolicy :=
  | EmptyString | NoReferrer | NoReferrerWhenDowngrade | Origin | OriginWhenCrossOrigin
  | SameOrigin | StrictOrigin | StrictOriginWhenCrossOrigin | UnsafeUrl.
Inductive FetchPriorityHint := PriorityAuto | PriorityLow | PriorityHigh.
Inductive ScriptFetchSchedulerPriority :=
  SchedulerVeryHigh | SchedulerHigh | SchedulerNormal | SchedulerLow | SchedulerBackground.
Inductive ModuleRequestContext :=
  ContextScript | ContextWorker | ContextSharedWorker | ContextServiceWorker.
Inductive ModuleRequestDestination :=
  DestinationScript | DestinationWorker | DestinationSharedWorker | DestinationServiceWorker.
Inductive RenderBlockingBehavior := Blocking | NonBlocking.
Inductive ModuleFetchRequester :=
  ParserPendingScript | RuntimeModuleScript | DynamicImport | ModulePreload.
Inductive ModuleFetchOrdering := DclCritical | Runtime | BackgroundPreload.
Inductive ModuleScriptCustomFetchType :=
  CustomNone | WorkerConstructor | WorkletAddModule | InstalledServiceWorker.
Inductive ModuleErrorConstructorKind :=
  ErrorError | SyntaxError | TypeError | WebAssemblyCompileError | WebAssemblyLinkError.
Inductive ModuleLoadStage :=
  | StageResolve | StageFetch | StageDecode | StageTypeCheck | StageCompile
  | StageDependencyDiscovery | StageLink | StageInstantiate | StageEvaluate | StageAbort.
Inductive ModuleTreeAbortReason :=
  ContextDestroyed | NavigationGenerationChanged | ExplicitCancel | OwnerDropped.

#[global] Instance ModuleTreeState_eq_dec : EqDecision ModuleTreeState.
Proof. solve_decision. Defined.
#[global] Instance ModuleKind_eq_dec : EqDecision ModuleKind.
Proof. solve_decision. Defined.
#[global] Instance ModuleImportPhase_eq_dec : EqDecision ModuleImportPhase.
Proof. solve_decision. Defined.
#[global] Instance ModuleGraphLevel_eq_dec : EqDecision ModuleGraphLevel.
Proof. solve_decision. Defined.
#[global] Instance ModuleErrorConstructorKind_eq_dec : EqDecision ModuleErrorConstructorKind.
Proof. solve_decision. Defined.

#[global] Instance ModuleKind_countable : Countable ModuleKind.
Proof.
  refine (inj_countable
    (λ k, match k with JavaScript => 0 | Json => 1 | Css => 2 | ModuleText => 3 | WebAssembly => 4 end)
    (λ n, match n with
          | 0 => Some JavaScript | 1 => Some Json | 2 => Some Css | 3 => Some ModuleText
          | 4 => Some WebAssembly | _ => None end) _). by intros [].
Defined.

(** Evaluation subsumes source. *)
Definition strongest (a b : ModuleImportPhase) : ModuleImportPhase :=
  if bool_decide (a = Evaluation) || bool_decide (b = Evaluation) then Evaluation else Source.

(** ** Owners *)
Record ModuleTreeOwner := {
  owner_kind : ModuleTreeOwnerKind;
  owner_requester : ModuleFetchRequester;
  owner_ordering : ModuleFetchOrdering }.

Definition parser_pending_script : ModuleTreeOwner :=
  {| owner_kind := OwnerParserPendingScript; owner_requester := ParserPendingScript;
     owner_ordering := DclCritical |}.
Definition runtime_module_script : ModuleTreeOwner :=
  {| owner_kind := OwnerRuntimeModuleScript; owner_requester := RuntimeModuleScript;
     owner_ordering := Runtime |}.
Definition dynamic_import : ModuleTreeOwner :=
  {| owner_kind := OwnerDynamicImport; owner_requester := DynamicImport;
     owner_ordering := Runtime |}.

Record ModuleTreeConfig := {
  config_tree_id : ModuleTreeId;
  config_client_sequence : N;
  config_owner : ModuleTreeOwner;
  config_custom_fetch_type : ModuleScriptCustomFetchType }.

Definition config_default : ModuleTreeConfig :=
  {| config_tree_id := 0; config_client_sequence := 0; config_owner := parser_pending_script;
     config_custom_fetch_type := CustomNone |}.

(** ** Keys *)
Record ModuleAttributesKey := { attributes : list (string * string) }.

Definition attributes_empty : ModuleAttributesKey := {| attributes := [] |}.

#[global] Instance ModuleAttributesKey_eq_dec : EqDecision ModuleAttributesKey.
Proof. solve_decision. Defined.
#[global] Instance ModuleAttributesKey_countable : Countable ModuleAttributesKey.
Proof.
  refine (inj_countable' attributes (λ l, {| attributes := l |}) _). by intros [].
Defined.

(** Pairs in the order of the derived [Ord]: by name, then by value. *)
Definition pair_le (a b : string * string) : Prop :=
  if decide (a.1 = b.1) then String.le a.2 b.2 else String.le a.1 b.1.

#[global] Instance pair_le_dec : RelDecision pair_le.
Proof. intros a b. unfold pair_le. destruct (decide (a.1 = b.1)); apply _. Defined.

(** [Vec::dedup]: equal neighbours are dropped. *)
Fixpoint dedup (l : list (string * string)) : list (string * string) :=
  match l with
  | [] => []
  | x :: l => match dedup l with
              | [] => [x]
              | y :: k => if decide (x = y) then y :: k else x :: y :: k
              end
  end.

Definition from_pairs (pairs : list (string * string)) : ModuleAttributesKey :=
  {| attributes := dedup (merge_sort pair_le pairs) |}.

#[global] Instance pair_le_po : PartialOrder pair_le.
Proof.
  split; [split |].
  - intros a. unfold pair_le. by rewrite decide_True.
  - intros [a1 a2] [b1 b2] [c1 c2]. unfold pair_le. simpl. intros H1 H2.
    destruct (decide (a1 = b1)) as [<-|N1].
    { destruct (decide (a1 = c1)); [by trans b2 | done]. }
    destruct (decide (b1 = c1)) as [<-|N2]; [by rewrite decide_False |].
    destruct (decide (a1 = c1)) as [<-|N3]; [| by trans b1].
    by destruct N1; apply (anti_symm String.le).
  - intros [a1 a2] [b1 b2]. unfold pair_le. simpl. intros H1 H2.
    destruct (decide (a1 = b1)) as [<-|N1].
    + rewrite decide_True in H2 by done. f_equal. by apply (anti_symm String.le).
    + rewrite decide_False in H2 by done. by destruct N1; apply (anti_symm String.le).
Qed.
#[global] Instance pair_le_total : Total pair_le.
Proof.
  intros a b. unfold pair_le. repeat case_decide; try congruence; apply String.le_total.
Qed.

Lemma dedup_elem_of l x : x ∈ dedup l ↔ x ∈ l.
Proof.
  induction l as [|y l IH]; simpl; [done |]. rewrite elem_of_cons, <-IH.
  destruct (dedup l) as [|z k]; [set_solver |]. case_decide; set_solver.
Qed.

Lemma dedup_sorted l : Sorted pair_le l → StronglySorted pair_le (dedup l) ∧ NoDup (dedup l).
Proof.
  intros Hl%(Sorted_StronglySorted pair_le). induction Hl as [|x l _ IH Hx]; simpl; [by split; constructor |].
  destruct IH as [Hs Hn]. pose proof (dedup_elem_of l) as Hel.
  destruct (dedup l) as [|y k]; [split; repeat constructor; by intros ?%not_elem_of_nil |].
  case_decide as Hxy; [done |].
  assert (Forall (pair_le x) (y :: k)) as Hf
    by (apply Forall_forall; intros z Hz; rewrite Forall_forall in Hx; by apply Hx, Hel).
  split; [by constructor |]. apply NoDup_cons. split; [| done].
  intros Hin. apply Hxy, (anti_symm pair_le).
  - by apply Forall_cons in Hf as [? _].
  - apply elem_of_cons in Hin as [->|Hin]; [done |]. apply StronglySorted_inv in Hs as [_ Hy].
    rewrite Forall_forall in Hy. by apply Hy.
Qed.

(** The key of a set of attributes does not depend on their order or on
    repetitions. *)
Lemma from_pairs_canonical l k : (∀ x, x ∈ l ↔ x ∈ k) → from_pairs l = from_pairs k.
Proof.
  intros Hlk. unfold from_pairs. f_equal.
  destruct (dedup_sorted _ (Sorted_merge_sort pair_le l)) as [Hl1 Hl2].
  destruct (dedup_sorted _ (Sorted_merge_sort pair_le k)) as [Hk1 Hk2].
  apply (StronglySorted_unique pair_le); [done | done |]. apply NoDup_Permutation; [done | done |].
  intros x. by rewrite !dedup_elem_of, !merge_sort_Permutation.
Qed.

Record TextPosition := { line : N; column : N }.

Record ModuleFetchMetadata := {
  credentials_mode : CredentialsMode;
  referrer_policy : ReferrerPolicy;
  integrity : option string;
  nonce : option string;
  charset : option string;
  fetch_priority : FetchPriorityHint;
  scheduler_priority : option ScriptFetchSchedulerPriority;
  request_context : ModuleRequestContext;
  metadata_destination : ModuleRequestDestination;
  parser_inserted : bool }.

Definition descendant (m : ModuleFetchMetadata) : ModuleFetchMetadata :=
  {| credentials_mode := m.(credentials_mode); referrer_policy := m.(referrer_policy);
     integrity := None; nonce := m.(nonce); charset := None; fetch_priority := PriorityAuto;
     scheduler_priority := None; request_context := m.(request_context);
     metadata_destination := m.(metadata_destination); parser_inserted := m.(parser_inserted) |}.

Definition metadata_default : ModuleFetchMetadata :=
  {| credentials_mode := CredentialsSameOrigin; referrer_policy := EmptyString;
     integrity := None; nonce := None; charset := None; fetch_priority := PriorityAuto;
     scheduler_priority := None; request_context := ContextScript;
     metadata_destination := DestinationScript; parser_inserted := false |}.

Definition with_integrity (m : ModuleFetchMetadata) (i : option string) : ModuleFetchMetadata :=
  {| credentials_mode := m.(credentials_mode); referrer_policy := m.(referrer_policy);
     integrity := i; nonce := m.(nonce); charset := m.(charset);
     fetch_priority := m.(fetch_priority); scheduler_priority := m.(scheduler_priority);
     request_context := m.(request_context); metadata_destination := m.(metadata_destination);
     parser_inserted := m.(parser_inserted) |}.

Section types.
Context {Url : Type}.

Record ModuleMapKey := {
  key_url : Url; key_kind : ModuleKind; key_attributes : ModuleAttributesKey }.

Definition key_javascript (url : Url) : ModuleMapKey :=
  {| key_url := url; key_kind := JavaScript; key_attributes := attributes_empty |}.

#[global] Instance ModuleMapKey_eq_dec `{EqDecision Url} : EqDecision ModuleMapKey.
Proof. solve_decision. Defined.
#[global] Instance ModuleMapKey_countable `{Countable Url} : Countable ModuleMapKey.
Proof.
  refine (inj_countable' (λ k, (k.(key_url), k.(key_kind), k.(key_attributes)))
    (λ p, {| key_url := p.1.1; key_kind := p.1.2; key_attributes := p.2 |}) _). by intros [].
Defined.

(** ** Errors *)
Record ModuleLoadError := {
  stage : ModuleLoadStage;
  error_key : option ModuleMapKey;
  message : string;
  error_constructor : option ModuleErrorConstructorKind }.

Definition error_new (stage : ModuleLoadStage) (message : string) : ModuleLoadError :=
  {| stage := stage; error_key := None; message := message; error_constructor := None |}.
Definition with_key (e : ModuleLoadError) (k : ModuleMapKey) : ModuleLoadError :=
  {| stage := e.(stage); error_key := Some k; message := e.(message);
     error_constructor := e.(error_constructor) |}.
Definition with_error_constructor (e : ModuleLoadError) (c : ModuleErrorConstructorKind)
    : ModuleLoadError :=
  {| stage := e.(stage); error_key := e.(error_key); message := e.(message);
     error_constructor := Some c |}.

(** ** Roots *)
Record ModuleReferrer := { referrer_url : option Url; referrer_string : option string }.

Definition referrer_client : ModuleReferrer :=
  {| referrer_url := None; referrer_string := Some "client"%string |}.

(** [url.as_str()] is given. *)
Definition from_url (as_str : Url → string) (url : Url) : ModuleReferrer :=
  {| referrer_string := Some (as_str url); referrer_url := Some url |}.

Record ModuleExternalRootInput := {
  ext_source_url : Url; ext_base_url : Url; ext_initiator_url : Url;
  ext_attributes : ModuleAttributesKey; ext_phase : ModuleImportPhase;
  ext_kind_hint : option ModuleKind; ext_fetch_metadata : ModuleFetchMetadata;
  ext_referrer : ModuleReferrer; ext_position : TextPosition }.

Record ModuleInlineRootInput := {
  inl_root_key : ModuleMapKey; inl_root_entry : ModuleEntryId; inl_source_url : Url;
  inl_base_url : Url; inl_phase : ModuleImportPhase; inl_fetch_metadata : ModuleFetchMetadata;
  inl_referrer : ModuleReferrer; inl_position : TextPosition }.

Inductive ModuleRootInput :=
  | External (root : ModuleExternalRootInput)
  | Inline (root : ModuleInlineRootInput).

(** ** Requests and results *)
Record ParentModuleRef := {
  parent_ref_key : ModuleMapKey; parent_ref_entry : ModuleEntryId; parent_ref_base_url : Url;
  parent_ref_metadata : ModuleFetchMetadata }.

Record ModuleFetchRequest := {
  req_key : ModuleMapKey; req_tree_id : ModuleTreeId; req_client : SingleModuleClientToken;
  req_specifier : option string; req_source_url : Url; req_base_url : Url;
  req_initiator_url : Url; req_referrer : ModuleReferrer; req_position : TextPosition;
  req_parent : option ParentModuleRef; req_kind : ModuleKind;
  req_attributes : ModuleAttributesKey; req_phase : ModuleImportPhase;
  req_graph_level : ModuleGraphLevel; req_fetch_metadata : ModuleFetchMetadata;
  req_render_blocking : RenderBlockingBehavior; req_requester : ModuleFetchRequester;
  req_ordering : ModuleFetchOrdering; req_custom_fetch_type : ModuleScriptCustomFetchType }.

Inductive ModuleSource := SourceText (text : string) | SourceBinary (bytes : list N).

Record FetchedModuleSource := {
  fetched_request_key : ModuleMapKey; fetched_key : ModuleMapKey; fetched_source_url : Url;
  fetched_base_url : Url; fetched_source : ModuleSource;
  fetched_metadata : ModuleFetchMetadata }.

Record ReadyModule := {
  ready_entry : ModuleEntryId; ready_key : ModuleMapKey; ready_base_url : Url;
  ready_metadata : ModuleFetchMetadata }.

Inductive ModuleFetchOutcome :=
  | Fetched (source : FetchedModuleSource)
  | ReadyOutcome (module : ReadyModule)
  | FailedOutcome (error : ModuleLoadError).

Record ModuleFetchResult := {
  result_key : ModuleMapKey; result_client : SingleModuleClientToken;
  result_requested_phase : ModuleImportPhase; result_outcome : ModuleFetchOutcome }.

Record ModuleDependencyEdge := {
  edge_parent_key : ModuleMapKey; edge_parent_entry : ModuleEntryId;
  edge_child_key : ModuleMapKey; edge_specifier : string;
  edge_attributes : ModuleAttributesKey; edge_phase : ModuleImportPhase;
  edge_position : TextPosition }.

Record ModuleGraphHandle := {
  graph_root_entry : ModuleEntryId; graph_entries : list ModuleEntryId;
  graph_entry_phases : gmap ModuleEntryId ModuleImportPhase;
  graph_dependency_edges : list ModuleDependencyEdge }.

Record ModuleRequestRecord := {
  record_specifier : string; record_attributes : ModuleAttributesKey;
  record_phase : ModuleImportPhase; record_position : TextPosition }.

Record ResolvedModuleRequest := {
  resolved_key : ModuleMapKey; resolved_source_url : Url; resolved_base_url : Url;
  resolved_kind : ModuleKind; resolved_attributes : ModuleAttributesKey;
  resolved_phase : ModuleImportPhase; resolved_integrity : option string }.

Record CompiledModuleSnapshot := {
  compiled_entry : ModuleEntryId; compiled_key : ModuleMapKey; compiled_base_url : Url;
  compiled_metadata : ModuleFetchMetadata; compiled_requested : list ModuleRequestRecord;
  compiled_phase : ModuleImportPhase; has_parse_error : bool;
  parse_error : option ModuleLoadError }.

Record ModuleDependencySnapshot := {
  dep_entry : ModuleEntryId; dep_key : ModuleMapKey; dep_base_url : Url;
  dep_metadata : ModuleFetchMetadata; requested_modules : list ModuleRequestRecord }.

(** ** Outcomes of a job *)
Inductive ModuleTreeTerminalState :=
  | TerminalComplete (graph : ModuleGraphHandle)
  | TerminalFailed (error : ModuleLoadError)
  | TerminalAborted (reason : ModuleTreeAbortReason).

Inductive ModuleScriptTreePoll :=
  | PollPending
  | PollNeedFetches (fetches : list ModuleFetchRequest)
  | PollWaiting (client_count : N)
  | PollComplete (graph : ModuleGraphHandle)
  | PollFailed (error : ModuleLoadError)
  | PollAborted (reason : ModuleTreeAbortReason)
  | PollIgnoredStaleCompletion.

Inductive SingleModuleFetchDisposition :=
  | StartedNetworkFetch (fetch_id : ModuleFetchId)
  | JoinedExistingFetch
  | Completed (outcome : ModuleFetchOutcome).

Inductive ModuleScriptTreeDrive :=
  | DrivePending (joined_fetches : list ModuleFetchRequest)
  | DriveNeedFetches (fetches joined_fetches : list ModuleFetchRequest)
  | DriveWaiting (client_count : N) (joined_fetches : list ModuleFetchRequest)
  | DriveComplete (graph : ModuleGraphHandle)
  | DriveFailed (error : ModuleLoadError)
  | DriveAborted (reason : ModuleTreeAbortReason)
  | DriveIgnoredStaleCompletion (joined_fetches : list ModuleFetchRequest).

(** ** The host

    [ModuleScriptTreeHost]: a state and the operations the job calls on it.
    What a host answers is arbitrary; the theorems that need more say so. *)
Class ModuleScriptTreeHost (H : Type) := {
  resolve_module_request : H → string → Url → ModuleAttributesKey → ModuleImportPhase →
                           (ResolvedModuleRequest + ModuleLoadError) * H;
  start_or_join_single_module_fetch : H → ModuleFetchRequest → SingleModuleClientToken →
                                      SingleModuleFetchDisposition * H;
  compile_module_source : H → FetchedModuleSource → ModuleImportPhase →
                          (CompiledModuleSnapshot + ModuleLoadError) * H;
  module_dependencies : H → ModuleEntryId → ModuleDependencySnapshot + ModuleLoadError;
  link_module_graph : H → ModuleEntryId → list ModuleEntryId → list ModuleDependencyEdge →
                      (ModuleGraphHandle + ModuleLoadError) * H;
  mark_module_failed : H → ModuleMapKey → ModuleLoadError → ModuleEntryId * H }.
End types.

#[global] Arguments ModuleMapKey : clear implicits.
#[global] Arguments ModuleLoadError : clear implicits.
#[global] Arguments ModuleReferrer : clear implicits.
#[global] Arguments ModuleExternalRootInput : clear implicits.
#[global] Arguments ModuleInlineRootInput : clear implicits.
#[global] Arguments ModuleRootInput : clear implicits.
#[global] Arguments ParentModuleRef : clear implicits.
#[global] Arguments ModuleFetchRequest : clear implicits.
#[global] Arguments FetchedModuleSource : clear implicits.
#[global] Arguments ReadyModule : clear implicits.
#[global] Arguments ModuleFetchOutcome : clear implicits.
#[global] Arguments ModuleFetchResult : clear implicits.
#[global] Arguments ModuleDependencyEdge : clear implicits.
#[global] Arguments ModuleGraphHandle : clear implicits.
#[global] Arguments ResolvedModuleRequest : clear implicits.
#[global] Arguments CompiledModuleSnapshot : clear implicits.
#[global] Arguments ModuleDependencySnapshot : clear implicits.
#[global] Arguments ModuleTreeTerminalState : clear implicits.
#[global] Arguments ModuleScriptTreePoll : clear implicits.
#[global] Arguments SingleModuleFetchDisposition : clear implicits.
#[global] Arguments ModuleScriptTreeDrive : clear implicits.
#[global] Arguments ModuleScriptTreeHost : clear implicits.
#[global] Hint Mode ModuleScriptTreeHost ! ! : typeclass_instances.
