(* ===== verification/ModuleTree.v ===== *)
(** The module-script tree job (moli-module-script-tree, [job.rs]): fetching
    the modules of a graph through a host, discovering dependencies, reporting
    the first parse error and linking.  The host is an instance of the class
    of [ModuleTypes]; the iteration order of a [HashMap], used when no error
    belongs to a discovered key, is the argument [any_value].  One field more
    than the code has, [finished], records the loads that ended with an
    entry. *)
From stdpp Require Import base list numbers option gmap strings relations.
From S2P Require Import Prelude ModuleTypes.

#[local] Open Scope N_scope.

Section job.
Context {Url : Type} `{EqDecision Url, !Countable Url} (as_str : Url → string).
Context {H : Type} `{!ModuleScriptTreeHost Url H}.
Context (any_value : gmap (ModuleMapKey Url) (ModuleLoadError Url) → option (ModuleLoadError Url)).

(** ** State *)
Record PendingModuleLoad := {
  load_key : ModuleMapKey Url; load_phase : ModuleImportPhase; load_level : ModuleGraphLevel }.

Record ModuleEntryContext := {
  context_key : ModuleMapKey Url; context_base_url : Url; context_metadata : ModuleFetchMetadata }.

Record ModuleScriptTreeJob := mk_job {
  tree_id : ModuleTreeId;
  tree_client : ModuleTreeClientToken;
  root : ModuleRootInput Url;
  config : ModuleTreeConfig;
  state : ModuleTreeState;
  root_key : option (ModuleMapKey Url);
  root_entry : option ModuleEntryId;
  next_single_client_sequence : N;
  pending_clients : gmap SingleModuleClientToken PendingModuleLoad;
  queued_or_visited : gmap (ModuleMapKey Url) ModuleImportPhase;
  entries : list ModuleEntryId;
  entry_phases : gmap ModuleEntryId ModuleImportPhase;
  entry_contexts : gmap ModuleEntryId ModuleEntryContext;
  dependency_edges : list (ModuleDependencyEdge Url);
  queued_fetches : list (ModuleFetchRequest Url);
  queued_completions : list (ModuleFetchResult Url);
  joined_fetches : list (ModuleFetchRequest Url);
  module_order : list (ModuleMapKey Url);
  parse_errors : gmap (ModuleMapKey Url) (ModuleLoadError Url);
  terminal : option (ModuleTreeTerminalState Url);
  finished : list (ModuleMapKey Url * ModuleImportPhase) }.

Definition job_new (root : ModuleRootInput Url) (config : ModuleTreeConfig)
    : ModuleScriptTreeJob :=
  {| tree_id := config.(config_tree_id);
     tree_client := {| tree_client_tree := config.(config_tree_id);
                       tree_client_sequence := config.(config_client_sequence) |};
     root := root; config := config; state := Initial; root_key := None; root_entry := None;
     next_single_client_sequence := 0; pending_clients := ∅; queued_or_visited := ∅;
     entries := []; entry_phases := ∅; entry_contexts := ∅; dependency_edges := [];
     queued_fetches := []; queued_completions := []; joined_fetches := [];
     module_order := []; parse_errors := ∅; terminal := None; finished := [] |}.

Definition pending_client_count (j : ModuleScriptTreeJob) : N := N.of_nat (size j.(pending_clients)).

#[local] Notation job := ModuleScriptTreeJob.

(** *** Field updates *)
Definition set_state (j : job) (s : ModuleTreeState) : job :=
  mk_job j.(tree_id) j.(tree_client) j.(root) j.(config) s j.(root_key) j.(root_entry)
    j.(next_single_client_sequence) j.(pending_clients) j.(queued_or_visited) j.(entries)
    j.(entry_phases) j.(entry_contexts) j.(dependency_edges) j.(queued_fetches)
    j.(queued_completions) j.(joined_fetches) j.(module_order) j.(parse_errors) j.(terminal)
    j.(finished).
Definition set_root (j : job) (k : option (ModuleMapKey Url)) (e : option ModuleEntryId) : job :=
  mk_job j.(tree_id) j.(tree_client) j.(root) j.(config) j.(state) k e
    j.(next_single_client_sequence) j.(pending_clients) j.(queued_or_visited) j.(entries)
    j.(entry_phases) j.(entry_contexts) j.(dependency_edges) j.(queued_fetches)
    j.(queued_completions) j.(joined_fetches) j.(module_order) j.(parse_errors) j.(terminal)
    j.(finished).
Definition set_sequence (j : job) (n : N) : job :=
  mk_job j.(tree_id) j.(tree_client) j.(root) j.(config) j.(state) j.(root_key) j.(root_entry)
    n j.(pending_clients) j.(queued_or_visited) j.(entries)
    j.(entry_phases) j.(entry_contexts) j.(dependency_edges) j.(queued_fetches)
    j.(queued_completions) j.(joined_fetches) j.(module_order) j.(parse_errors) j.(terminal)
    j.(finished).
Definition set_pending (j : job) (m : gmap SingleModuleClientToken PendingModuleLoad) : job :=
  mk_job j.(tree_id) j.(tree_client) j.(root) j.(config) j.(state) j.(root_key) j.(root_entry)
    j.(next_single_client_sequence) m j.(queued_or_visited) j.(entries)
    j.(entry_phases) j.(entry_contexts) j.(dependency_edges) j.(queued_fetches)
    j.(queued_completions) j.(joined_fetches) j.(module_order) j.(parse_errors) j.(terminal)
    j.(finished).
Definition set_visited (j : job) (m : gmap (ModuleMapKey Url) ModuleImportPhase) : job :=
  mk_job j.(tree_id) j.(tree_client) j.(root) j.(config) j.(state) j.(root_key) j.(root_entry)
    j.(next_single_client_sequence) j.(pending_clients) m j.(entries)
    j.(entry_phases) j.(entry_contexts) j.(dependency_edges) j.(queued_fetches)
    j.(queued_completions) j.(joined_fetches) j.(module_order) j.(parse_errors) j.(terminal)
    j.(finished).
Definition set_entries (j : job) (l : list ModuleEntryId)
    (p : gmap ModuleEntryId ModuleImportPhase) : job :=
  mk_job j.(tree_id) j.(tree_client) j.(root) j.(config) j.(state) j.(root_key) j.(root_entry)
    j.(next_single_client_sequence) j.(pending_clients) j.(queued_or_visited) l
    p j.(entry_contexts) j.(dependency_edges) j.(queued_fetches)
    j.(queued_completions) j.(joined_fetches) j.(module_order) j.(parse_errors) j.(terminal)
    j.(finished).
Definition set_contexts (j : job) (m : gmap ModuleEntryId ModuleEntryContext) : job :=
  mk_job j.(tree_id) j.(tree_client) j.(root) j.(config) j.(state) j.(root_key) j.(root_entry)
    j.(next_single_client_sequence) j.(pending_clients) j.(queued_or_visited) j.(entries)
    j.(entry_phases) m j.(dependency_edges) j.(queued_fetches)
    j.(queued_completions) j.(joined_fetches) j.(module_order) j.(parse_errors) j.(terminal)
    j.(finished).
Definition set_edges (j : job) (l : list (ModuleDependencyEdge Url)) : job :=
  mk_job j.(tree_id) j.(tree_client) j.(root) j.(config) j.(state) j.(root_key) j.(root_entry)
    j.(next_single_client_sequence) j.(pending_clients) j.(queued_or_visited) j.(entries)
    j.(entry_phases) j.(entry_contexts) l j.(queued_fetches)
    j.(queued_completions) j.(joined_fetches) j.(module_order) j.(parse_errors) j.(terminal)
    j.(finished).
Definition set_fetches (j : job) (l : list (ModuleFetchRequest Url)) : job :=
  mk_job j.(tree_id) j.(tree_client) j.(root) j.(config) j.(state) j.(root_key) j.(root_entry)
    j.(next_single_client_sequence) j.(pending_clients) j.(queued_or_visited) j.(entries)
    j.(entry_phases) j.(entry_contexts) j.(dependency_edges) l
    j.(queued_completions) j.(joined_fetches) j.(module_order) j.(parse_errors) j.(terminal)
    j.(finished).
Definition set_completions (j : job) (l : list (ModuleFetchResult Url)) : job :=
  mk_job j.(tree_id) j.(tree_client) j.(root) j.(config) j.(state) j.(root_key) j.(root_entry)
    j.(next_single_client_sequence) j.(pending_clients) j.(queued_or_visited) j.(entries)
    j.(entry_phases) j.(entry_contexts) j.(dependency_edges) j.(queued_fetches)
    l j.(joined_fetches) j.(module_order) j.(parse_errors) j.(terminal)
    j.(finished).
Definition set_joined (j : job) (l : list (ModuleFetchRequest Url)) : job :=
  mk_job j.(tree_id) j.(tree_client) j.(root) j.(config) j.(state) j.(root_key) j.(root_entry)
    j.(next_single_client_sequence) j.(pending_clients) j.(queued_or_visited) j.(entries)
    j.(entry_phases) j.(entry_contexts) j.(dependency_edges) j.(queued_fetches)
    j.(queued_completions) l j.(module_order) j.(parse_errors) j.(terminal)
    j.(finished).
Definition set_order (j : job) (l : list (ModuleMapKey Url)) : job :=
  mk_job j.(tree_id) j.(tree_client) j.(root) j.(config) j.(state) j.(root_key) j.(root_entry)
    j.(next_single_client_sequence) j.(pending_clients) j.(queued_or_visited) j.(entries)
    j.(entry_phases) j.(entry_contexts) j.(dependency_edges) j.(queued_fetches)
    j.(queued_completions) j.(joined_fetches) l j.(parse_errors) j.(terminal)
    j.(finished).
Definition set_errors (j : job) (m : gmap (ModuleMapKey Url) (ModuleLoadError Url)) : job :=
  mk_job j.(tree_id) j.(tree_client) j.(root) j.(config) j.(state) j.(root_key) j.(root_entry)
    j.(next_single_client_sequence) j.(pending_clients) j.(queued_or_visited) j.(entries)
    j.(entry_phases) j.(entry_contexts) j.(dependency_edges) j.(queued_fetches)
    j.(queued_completions) j.(joined_fetches) j.(module_order) m j.(terminal)
    j.(finished).
Definition set_terminal (j : job) (t : ModuleTreeTerminalState Url) : job :=
  mk_job j.(tree_id) j.(tree_client) j.(root) j.(config) j.(state) j.(root_key) j.(root_entry)
    j.(next_single_client_sequence) j.(pending_clients) j.(queued_or_visited) j.(entries)
    j.(entry_phases) j.(entry_contexts) j.(dependency_edges) j.(queued_fetches)
    j.(queued_completions) j.(joined_fetches) j.(module_order) j.(parse_errors) (Some t)
    j.(finished).
(** History: a load ended with an entry. *)
Definition log_finished (j : job) (k : ModuleMapKey Url) (p : ModuleImportPhase) : job :=
  mk_job j.(tree_id) j.(tree_client) j.(root) j.(config) j.(state) j.(root_key) j.(root_entry)
    j.(next_single_client_sequence) j.(pending_clients) j.(queued_or_visited) j.(entries)
    j.(entry_phases) j.(entry_contexts) j.(dependency_edges) j.(queued_fetches)
    j.(queued_completions) j.(joined_fetches) j.(module_order) j.(parse_errors) j.(terminal)
    ((k, p) :: j.(finished)).

(** Calls take the job and the host and may panic. *)
#[local] Notation outcome A := (run (A * job * H)).
#[local] Notation poll_result := (outcome (ModuleScriptTreePoll Url)).

(** ** Records *)
Definition add_entry (j : job) (entry : ModuleEntryId) (phase : ModuleImportPhase) : job :=
  set_entries j
    (if bool_decide (entry ∈ j.(entries)) then j.(entries) else j.(entries) ++ [entry])
    (<[entry := match j.(entry_phases) !! entry with
                | Some stored => strongest stored phase
                | None => phase
                end]> j.(entry_phases)).

Definition record_entry_context (j : job) (entry : ModuleEntryId) (c : ModuleEntryContext) : job :=
  match j.(entry_contexts) !! entry with
  | Some _ => j
  | None => set_contexts j (<[entry := c]> j.(entry_contexts))
  end.

Definition record_module_order (j : job) (key : ModuleMapKey Url) : job :=
  if bool_decide (key ∈ j.(module_order)) then j else set_order j (j.(module_order) ++ [key]).

Definition record_parse_error (j : job) (key : ModuleMapKey Url) (error : ModuleLoadError Url) : job :=
  match j.(parse_errors) !! key with
  | Some _ => j
  | None => set_errors j (<[key := error]> j.(parse_errors))
  end.

(** The [find_map] over the order. *)
Fixpoint first_in_order (errors : gmap (ModuleMapKey Url) (ModuleLoadError Url))
    (order : list (ModuleMapKey Url)) : option (ModuleLoadError Url) :=
  match order with
  | [] => None
  | key :: order =>
      match errors !! key with Some e => Some e | None => first_in_order errors order end
  end.

Definition first_parse_error (j : job) : option (ModuleLoadError Url) :=
  match first_in_order j.(parse_errors) j.(module_order) with
  | Some e => Some e
  | None => any_value j.(parse_errors)
  end.

Definition is_parse_error (e : ModuleLoadError Url) : bool :=
  bool_decide (e.(error_constructor) = Some SyntaxError).

Definition parse_error_default : ModuleLoadError Url :=
  with_error_constructor (error_new StageCompile "module source had a parse error") SyntaxError.

Definition next_single_module_client (j : job) : run (SingleModuleClientToken * job) :=
  next ← add64 j.(next_single_client_sequence) 1;
  mret ({| client_tree := j.(tree_id); client_sequence := j.(next_single_client_sequence) |},
        set_sequence j next).

(** ** Endings *)
Definition poll_terminal (t : ModuleTreeTerminalState Url) : ModuleScriptTreePoll Url :=
  match t with
  | TerminalComplete graph => PollComplete graph
  | TerminalFailed error => PollFailed error
  | TerminalAborted reason => PollAborted reason
  end.

(** The clears of [fail] and [abort]. *)
Definition clear_work (j : job) : job :=
  set_joined (set_completions (set_fetches (set_pending j ∅) []) []) [].

Definition fail (j : job) (error : ModuleLoadError Url) : ModuleScriptTreePoll Url * job :=
  (PollFailed error, set_terminal (clear_work (set_state j Finished)) (TerminalFailed error)).

Definition abort (j : job) (reason : ModuleTreeAbortReason) : ModuleScriptTreePoll Url * job :=
  (PollAborted reason, set_terminal (clear_work (set_state j Aborted)) (TerminalAborted reason)).

Definition cancel (j : job) (reason : ModuleTreeAbortReason) : ModuleScriptTreePoll Url * job :=
  abort j reason.

(** ** Fetching *)
Definition queue_fetch_request (j : job) (request : ModuleFetchRequest Url) : job :=
  set_fetches j (j.(queued_fetches) ++ [request]).

Definition register_fetch (j : job) (h : H) (request : ModuleFetchRequest Url)
    : option (ModuleFetchRequest Url) * job * H :=
  let client := request.(req_client) in
  let j := set_pending j
    (<[client := {| load_key := request.(req_key); load_phase := request.(req_phase);
                    load_level := request.(req_graph_level) |}]> j.(pending_clients)) in
  let '(disposition, h) := start_or_join_single_module_fetch h request client in
  match disposition with
  | StartedNetworkFetch _ => (Some request, j, h)
  | JoinedExistingFetch => (None, set_joined j (j.(joined_fetches) ++ [request]), h)
  | Completed outcome =>
      (None,
       set_completions j (j.(queued_completions) ++
         [{| result_key := request.(req_key); result_client := client;
             result_requested_phase := request.(req_phase); result_outcome := outcome |}]), h)
  end.

(** The [while let] of [flush_or_wait]; the host does not touch the queue. *)
Fixpoint register_all (requests : list (ModuleFetchRequest Url)) (j : job) (h : H)
    : list (ModuleFetchRequest Url) * job * H :=
  match requests with
  | [] => ([], set_fetches j [], h)
  | request :: requests =>
      let '(started, j, h) := register_fetch j h request in
      let '(fetches, j, h) := register_all requests j h in
      (match started with Some fetch => fetch :: fetches | None => fetches end, j, h)
  end.

Definition flush_or_wait (j : job) (h : H) : ModuleScriptTreePoll Url * job * H :=
  let '(fetches, j, h) :=
    match j.(queued_fetches) with
    | [] => ([], j, h)
    | requests => register_all requests j h
    end in
  match fetches with
  | [] => if decide (j.(pending_clients) = ∅) then (PollPending, j, h)
          else (PollWaiting (pending_client_count j), j, h)
  | _ => (PollNeedFetches fetches, j, h)
  end.

Definition idle (j : job) : bool :=
  match j.(queued_fetches) with [] => bool_decide (j.(pending_clients) = ∅) | _ => false end.

Definition link_if_ready (j : job) (h : H) : ModuleScriptTreePoll Url * job * H :=
  if negb (idle j) then flush_or_wait j h
  else match first_parse_error j with
       | Some error => (fail j error, h)
       | None =>
           match j.(root_entry) with
           | None => (fail j (error_new StageLink "module tree reached link without root entry"), h)
           | Some root_entry =>
               let j := set_state j Linking in
               match link_module_graph h root_entry j.(entries) j.(dependency_edges) with
               | (inl graph, h) =>
                   (PollComplete graph, set_terminal (set_state j Finished) (TerminalComplete graph), h)
               | (inr error, h) => (fail j error, h)
               end
           end
       end.

Definition flush_or_link (j : job) (h : H) : ModuleScriptTreePoll Url * job * H :=
  match j.(queued_fetches) with
  | [] => link_if_ready j h
  | _ => flush_or_wait j h
  end.

Definition finish_after_parse_error (j : job) (h : H) : ModuleScriptTreePoll Url * job * H :=
  if negb (idle j) then flush_or_wait j h
  else (fail j (default parse_error_default (first_parse_error j)), h).

Definition finish_module_load_error (j : job) (h : H) (request_key : ModuleMapKey Url)
    (error : ModuleLoadError Url) : ModuleScriptTreePoll Url * job * H :=
  if negb (is_parse_error error) then (fail j error, h)
  else finish_after_parse_error
         (record_parse_error j (default request_key error.(error_key)) error) h.

(** ** Dependencies *)
Definition dependency_snapshot_with_tree_context (j : job) (s : ModuleDependencySnapshot Url)
    : ModuleDependencySnapshot Url :=
  match j.(entry_contexts) !! s.(dep_entry) with
  | Some c => {| dep_entry := s.(dep_entry); dep_key := c.(context_key);
                 dep_base_url := c.(context_base_url); dep_metadata := c.(context_metadata);
                 requested_modules := s.(requested_modules) |}
  | None => s
  end.

Record DependencyCandidate := {
  cand_resolved : ResolvedModuleRequest Url; cand_specifier : string;
  cand_phase : ModuleImportPhase; cand_previous : option ModuleImportPhase;
  cand_position : TextPosition }.

(** The candidate of the same key takes the stronger phase. *)
Fixpoint merge_candidate (key : ModuleMapKey Url) (phase : ModuleImportPhase)
    (l : list DependencyCandidate) : option (list DependencyCandidate) :=
  match l with
  | [] => None
  | c :: l =>
      if decide (c.(cand_resolved).(resolved_key) = key)
      then Some ({| cand_resolved := c.(cand_resolved); cand_specifier := c.(cand_specifier);
                    cand_phase := strongest c.(cand_phase) phase;
                    cand_previous := c.(cand_previous); cand_position := c.(cand_position) |} :: l)
      else (λ l, c :: l) <$> merge_candidate key phase l
  end.

(** One request of the loop of [collect_dependency_candidates]. *)
Definition collect_request (j : job) (snapshot : ModuleDependencySnapshot Url)
    (r : ModuleRequestRecord) (resolved : ResolvedModuleRequest Url)
    (candidates : list DependencyCandidate) : list DependencyCandidate * job :=
  let key := resolved.(resolved_key) in
  let existing_phase := j.(queued_or_visited) !! key in
  let strongest_phase := strongest (default r.(record_phase) existing_phase) r.(record_phase) in
  let j := set_visited j (<[key := strongest_phase]> j.(queued_or_visited)) in
  let j := match existing_phase with None => record_module_order j key | Some _ => j end in
  let j := set_edges j (j.(dependency_edges) ++
    [{| edge_parent_key := snapshot.(dep_key); edge_parent_entry := snapshot.(dep_entry);
        edge_child_key := key; edge_specifier := r.(record_specifier);
        edge_attributes := r.(record_attributes); edge_phase := r.(record_phase);
        edge_position := r.(record_position) |}]) in
  match merge_candidate key r.(record_phase) candidates with
  | Some candidates => (candidates, j)
  | None =>
      (candidates ++
         [{| cand_resolved := resolved; cand_specifier := r.(record_specifier);
             cand_phase := r.(record_phase); cand_previous := existing_phase;
             cand_position := r.(record_position) |}], j)
  end.

Fixpoint collect_dependency_candidates (snapshot : ModuleDependencySnapshot Url)
    (requests : list ModuleRequestRecord) (candidates : list DependencyCandidate)
    (j : job) (h : H) : (list DependencyCandidate + ModuleLoadError Url) * job * H :=
  match requests with
  | [] => (inl candidates, j, h)
  | r :: requests =>
      match resolve_module_request h r.(record_specifier) snapshot.(dep_base_url)
              r.(record_attributes) r.(record_phase) with
      | (inr error, h) => (inr error, j, h)
      | (inl resolved, h) =>
          let '(candidates, j) := collect_request j snapshot r resolved candidates in
          collect_dependency_candidates snapshot requests candidates j h
      end
  end.

Definition dependency_fetch_request (j : job) (snapshot : ModuleDependencySnapshot Url)
    (parent : ParentModuleRef Url) (c : DependencyCandidate) (client : SingleModuleClientToken)
    : ModuleFetchRequest Url :=
  {| req_key := c.(cand_resolved).(resolved_key); req_tree_id := j.(tree_id); req_client := client;
     req_specifier := Some c.(cand_specifier);
     req_source_url := c.(cand_resolved).(resolved_source_url);
     req_base_url := c.(cand_resolved).(resolved_base_url);
     req_initiator_url := snapshot.(dep_base_url);
     req_referrer := from_url as_str snapshot.(dep_base_url);
     req_position := c.(cand_position); req_parent := Some parent;
     req_kind := c.(cand_resolved).(resolved_kind);
     req_attributes := c.(cand_resolved).(resolved_attributes); req_phase := c.(cand_phase);
     req_graph_level := Dependent;
     req_fetch_metadata := with_integrity (descendant snapshot.(dep_metadata))
                             c.(cand_resolved).(resolved_integrity);
     req_render_blocking := NonBlocking;
     req_requester := j.(config).(config_owner).(owner_requester);
     req_ordering := j.(config).(config_owner).(owner_ordering);
     req_custom_fetch_type := j.(config).(config_custom_fetch_type) |}.

Fixpoint queue_candidates (snapshot : ModuleDependencySnapshot Url) (parent : ParentModuleRef Url)
    (candidates : list DependencyCandidate) (j : job) : run job :=
  match candidates with
  | [] => mret j
  | c :: candidates =>
      if bool_decide (c.(cand_previous) = Some c.(cand_phase))
      then queue_candidates snapshot parent candidates j
      else
        '(client, j) ← next_single_module_client j;
        queue_candidates snapshot parent candidates
          (queue_fetch_request j (dependency_fetch_request j snapshot parent c client))
  end.

Definition discover_dependencies (j : job) (h : H) (entry : ModuleEntryId) : poll_result :=
  match module_dependencies h entry with
  | inr error => mret (fail j error, h)
  | inl snapshot =>
      let snapshot := dependency_snapshot_with_tree_context j snapshot in
      match snapshot.(requested_modules) with
      | [] => mret (link_if_ready j h)
      | _ =>
          let parent := {| parent_ref_key := snapshot.(dep_key);
                           parent_ref_entry := snapshot.(dep_entry);
                           parent_ref_base_url := snapshot.(dep_base_url);
                           parent_ref_metadata := snapshot.(dep_metadata) |} in
          match collect_dependency_candidates snapshot snapshot.(requested_modules) [] j h with
          | (inr error, j, h) => mret (fail j error, h)
          | (inl candidates, j, h) =>
              j ← queue_candidates snapshot parent candidates j;
              mret (flush_or_link j h)
          end
      end
  end.

(** ** Loads *)

(** The entry and context of an outcome, or the poll it ends with. *)
Definition load_outcome (j : job) (h : H) (load : PendingModuleLoad)
    (outcome : ModuleFetchOutcome Url)
    : (ModuleEntryId * ModuleEntryContext * bool * job * H) + (ModuleScriptTreePoll Url * job * H) :=
  match outcome with
  | Fetched source =>
      let context := {| context_key := source.(fetched_key);
                        context_base_url := source.(fetched_base_url);
                        context_metadata := source.(fetched_metadata) |} in
      match compile_module_source h source load.(load_phase) with
      | (inl compiled, h) =>
          match compiled.(parse_error) with
          | Some error =>
              inl (compiled.(compiled_entry), context, true,
                   record_parse_error j compiled.(compiled_key) error, h)
          | None =>
              if compiled.(has_parse_error)
              then inl (compiled.(compiled_entry), context, true,
                        record_parse_error j compiled.(compiled_key)
                          (with_error_constructor
                             (with_key (error_new StageCompile "module source had a parse error")
                                compiled.(compiled_key)) SyntaxError), h)
              else inl (compiled.(compiled_entry), context, false, j, h)
          end
      | (inr error, h) =>
          let '(_, h) := mark_module_failed h load.(load_key) error in
          inr (finish_module_load_error j h load.(load_key) error)
      end
  | ReadyOutcome module =>
      inl (module.(ready_entry),
           {| context_key := module.(ready_key); context_base_url := module.(ready_base_url);
              context_metadata := module.(ready_metadata) |}, false, j, h)
  | FailedOutcome error => inr (finish_module_load_error j h load.(load_key) error)
  end.

Definition finish_module_load (j : job) (h : H) (load : PendingModuleLoad)
    (outcome : ModuleFetchOutcome Url) : poll_result :=
  match load_outcome j h load outcome with
  | inr poll => mret poll
  | inl (entry, context, had_parse_error, j, h) =>
      let j := log_finished j load.(load_key) load.(load_phase) in
      let j := if decide (load.(load_level) = TopLevel)
               then set_state (set_root j j.(root_key) (Some entry)) FetchingDependencies
               else j in
      let j := record_entry_context j entry context in
      let j := add_entry j entry load.(load_phase) in
      if had_parse_error then mret (finish_after_parse_error j h)
      else if decide (load.(load_phase) = Source) then mret (link_if_ready j h)
      else discover_dependencies j h entry
  end.

(** ** Entry points *)
Definition external_root_request (j : job) (r : ModuleExternalRootInput Url)
    (key : ModuleMapKey Url) (kind : ModuleKind) (client : SingleModuleClientToken)
    : ModuleFetchRequest Url :=
  {| req_key := key; req_tree_id := j.(tree_id); req_client := client; req_specifier := None;
     req_source_url := r.(ext_source_url); req_base_url := r.(ext_base_url);
     req_initiator_url := r.(ext_initiator_url); req_referrer := r.(ext_referrer);
     req_position := r.(ext_position); req_parent := None; req_kind := kind;
     req_attributes := r.(ext_attributes); req_phase := r.(ext_phase);
     req_graph_level := TopLevel; req_fetch_metadata := r.(ext_fetch_metadata);
     req_render_blocking := Blocking;
     req_requester := j.(config).(config_owner).(owner_requester);
     req_ordering := j.(config).(config_owner).(owner_ordering);
     req_custom_fetch_type := j.(config).(config_custom_fetch_type) |}.

Definition start_external_root (j : job) (h : H) (r : ModuleExternalRootInput Url) : poll_result :=
  let kind := default JavaScript r.(ext_kind_hint) in
  let key := {| key_url := r.(ext_source_url); key_kind := kind;
                key_attributes := r.(ext_attributes) |} in
  let j := set_root j (Some key) j.(root_entry) in
  let j := set_visited j (<[key := r.(ext_phase)]> j.(queued_or_visited)) in
  let j := record_module_order j key in
  let j := set_state j FetchingRoot in
  '(client, j) ← next_single_module_client j;
  mret (flush_or_wait (queue_fetch_request j (external_root_request j r key kind client)) h).

Definition start_inline_root (j : job) (h : H) (r : ModuleInlineRootInput Url) : poll_result :=
  let j := set_root j (Some r.(inl_root_key)) (Some r.(inl_root_entry)) in
  let j := set_visited j (<[r.(inl_root_key) := r.(inl_phase)]> j.(queued_or_visited)) in
  let j := record_module_order j r.(inl_root_key) in
  let j := record_entry_context j r.(inl_root_entry)
             {| context_key := r.(inl_root_key); context_base_url := r.(inl_base_url);
                context_metadata := r.(inl_fetch_metadata) |} in
  let j := add_entry j r.(inl_root_entry) r.(inl_phase) in
  let j := set_state j FetchingDependencies in
  let j := log_finished j r.(inl_root_key) r.(inl_phase) in
  if decide (r.(inl_phase) = Source) then mret (link_if_ready j h)
  else discover_dependencies j h r.(inl_root_entry).

Definition start (j : job) (h : H) : poll_result :=
  match j.(root) with
  | External r => start_external_root j h r
  | Inline r => start_inline_root j h r
  end.

Definition poll (j : job) (h : H) : poll_result :=
  match j.(terminal) with
  | Some t => mret (poll_terminal t, j, h)
  | None =>
      match j.(state) with
      | Initial => start j h
      | FetchingRoot | FetchingDependencies | Linking => mret (flush_or_wait j h)
      | Finished | Aborted => t ← expect j.(terminal); mret (poll_terminal t, j, h)
      end
  end.

Definition resume_single_module_outcome (j : job) (h : H) (client : SingleModuleClientToken)
    (o : ModuleFetchOutcome Url) : poll_result :=
  match j.(state) with
  | Aborted | Finished => mret (PollIgnoredStaleCompletion, j, h)
  | _ =>
      match j.(pending_clients) !! client with
      | None => mret (PollIgnoredStaleCompletion, j, h)
      | Some load =>
          finish_module_load (set_pending j (delete client j.(pending_clients))) h load o
      end
  end.

Definition resume_single_module (j : job) (h : H) (client : SingleModuleClientToken)
    (r : ModuleFetchResult Url) : poll_result :=
  resume_single_module_outcome j h client r.(result_outcome).

(** What the completions of the loop leave: an answer, or the last poll and
    the fetches so far. *)
Fixpoint completion_loop (fuel : nat) (j : job) (h : H) (poll : ModuleScriptTreePoll Url)
    (pending_fetches : list (ModuleFetchRequest Url))
    : outcome (ModuleScriptTreeDrive Url + ModuleScriptTreePoll Url * list (ModuleFetchRequest Url)) :=
  match fuel with
  | O => Panic
  | S fuel =>
      match j.(queued_completions) with
      | [] => mret (inr (poll, pending_fetches), j, h)
      | completion :: rest =>
          '(p, j, h) ← resume_single_module (set_completions j rest) h
                         completion.(result_client) completion;
          match p with
          | PollNeedFetches fetches => completion_loop fuel j h poll (pending_fetches ++ fetches)
          | PollFailed error => mret (inl (DriveFailed error), j, h)
          | PollAborted reason => mret (inl (DriveAborted reason), j, h)
          | PollComplete graph => mret (inl (DriveComplete graph), j, h)
          | other => completion_loop fuel j h other pending_fetches
          end
      end
  end.

Definition drive_of_poll (poll : ModuleScriptTreePoll Url)
    (joined : list (ModuleFetchRequest Url)) : ModuleScriptTreeDrive Url :=
  match poll with
  | PollPending => DrivePending joined
  | PollNeedFetches fetches => DriveNeedFetches fetches joined
  | PollWaiting count => DriveWaiting count joined
  | PollComplete graph => DriveComplete graph
  | PollFailed error => DriveFailed error
  | PollAborted reason => DriveAborted reason
  | PollIgnoredStaleCompletion => DriveIgnoredStaleCompletion joined
  end.

Definition drive_queued_completions (fuel : nat) (j : job) (h : H)
    (poll : ModuleScriptTreePoll Url) : outcome (ModuleScriptTreeDrive Url) :=
  let '(pending_fetches, poll) :=
    match poll with PollNeedFetches fetches => (fetches, PollPending) | p => ([], p) end in
  '(r, j, h) ← completion_loop fuel j h poll pending_fetches;
  match r with
  | inl drive => mret (drive, j, h)
  | inr (poll, pending_fetches) =>
      let joined := j.(joined_fetches) in
      let j := set_joined j [] in
      match pending_fetches with
      | [] => mret (drive_of_poll poll joined, j, h)
      | _ => mret (DriveNeedFetches pending_fetches joined, j, h)
      end
  end.

Definition drive (fuel : nat) (j : job) (h : H) : outcome (ModuleScriptTreeDrive Url) :=
  '(p, j, h) ← poll j h; drive_queued_completions fuel j h p.

Definition resume_single_module_and_drive (fuel : nat) (j : job) (h : H)
    (client : SingleModuleClientToken) (r : ModuleFetchResult Url)
    : outcome (ModuleScriptTreeDrive Url) :=
  '(p, j, h) ← resume_single_module j h client r; drive_queued_completions fuel j h p.

Definition resume_single_module_outcome_and_drive (fuel : nat) (j : job) (h : H)
    (client : SingleModuleClientToken) (o : ModuleFetchOutcome Url)
    : outcome (ModuleScriptTreeDrive Url) :=
  '(p, j, h) ← resume_single_module_outcome j h client o; drive_queued_completions fuel j h p.
End job.
