(* ===== verification/ModuleGraph.v ===== *)
(** What a module-script tree job guarantees, for every host: it links only a
    complete graph, it reports the first parse error in discovery order, it
    stays ended once it has ended, and over a finite graph it ends. *)
From stdpp Require Import base list numbers option gmap strings relations list_tactics.
From S2P Require Import Prelude ModuleTypes ModuleTree.

#[local] Open Scope N_scope.

(** ** Phases: a two-point lattice *)
Lemma strongest_idemp a : strongest a a = a.
Proof. by destruct a. Qed.
Lemma strongest_comm a b : strongest a b = strongest b a.
Proof. by destruct a, b. Qed.
Lemma strongest_assoc a b c : strongest a (strongest b c) = strongest (strongest a b) c.
Proof. by destruct a, b, c. Qed.
Lemma strongest_upper_l a b : strongest (strongest a b) a = strongest a b.
Proof. by destruct a, b. Qed.
Lemma strongest_upper_r a b : strongest (strongest a b) b = strongest a b.
Proof. by destruct a, b. Qed.

Section graph.
Context {Url : Type} `{EqDecision Url, !Countable Url} (as_str : Url → string).
Context {H : Type} `{!ModuleScriptTreeHost Url H}.
Context (any_value : gmap (ModuleMapKey Url) (ModuleLoadError Url) → option (ModuleLoadError Url)).

#[local] Notation job := (@ModuleScriptTreeJob Url _ _).
#[local] Notation load := (@PendingModuleLoad Url).
#[local] Notation key := (ModuleMapKey Url).

Definition load_of_request (r : ModuleFetchRequest Url) : load :=
  {| load_key := r.(req_key); load_phase := r.(req_phase); load_level := r.(req_graph_level) |}.

(** A load asked for and not finished. *)
Definition outstanding (j : job) (l : load) : Prop :=
  (∃ c, j.(pending_clients) !! c = Some l) ∨ (∃ r, r ∈ j.(queued_fetches) ∧ load_of_request r = l).

Definition covered (j : job) (k : key) (ph : ModuleImportPhase) : Prop :=
  (k, ph) ∈ j.(finished) ∨ ∃ l, outstanding j l ∧ l.(load_key) = k ∧ l.(load_phase) = ph.

(** The requests' clients are new and different. *)
Definition tokens_ok (j : job) : Prop :=
  (∀ c, is_Some (j.(pending_clients) !! c) → c.(client_sequence) < j.(next_single_client_sequence)) ∧
  (∀ r, r ∈ j.(queued_fetches) →
     r.(req_client).(client_sequence) < j.(next_single_client_sequence) ∧
     j.(pending_clients) !! r.(req_client) = None) ∧
  NoDup (map req_client j.(queued_fetches)).

Definition ended (s : ModuleTreeState) : bool :=
  match s with Finished | Aborted => true | _ => false end.

(** The key and the phase a root input asks for. *)
Definition root_request (input : ModuleRootInput Url) : key * ModuleImportPhase :=
  match input with
  | External r => ({| key_url := r.(ext_source_url); key_kind := default JavaScript r.(ext_kind_hint);
                      key_attributes := r.(ext_attributes) |}, r.(ext_phase))
  | Inline r => (r.(inl_root_key), r.(inl_phase))
  end.

(** The job's root key is the one asked for, for its phase or a stronger one. *)
Definition root_asked (j : job) : Prop :=
  let '(k, want) := root_request j.(root) in
  j.(root_key) = Some k ∧ ∃ ph, j.(queued_or_visited) !! k = Some ph ∧ strongest ph want = ph.

(** A job at work, its queue possibly not yet flushed. *)
Record core (j : job) : Prop := {
  core_running : j.(terminal) = None ∧ ended j.(state) = false ∧ j.(state) ≠ Initial;
  core_covered : j.(parse_errors) = ∅ → ∀ k ph, j.(queued_or_visited) !! k = Some ph → covered j k ph;
  core_edges : ∀ e, e ∈ j.(dependency_edges) →
    ∃ ph, j.(queued_or_visited) !! e.(edge_child_key) = Some ph ∧ strongest ph e.(edge_phase) = ph;
  core_root : j.(parse_errors) = ∅ → j.(root_entry) = None →
    ∃ l, outstanding j l ∧ l.(load_level) = TopLevel;
  core_root_key : root_asked j;
  core_tokens : tokens_ok j }.

(** Between calls: something is awaited. *)
Definition waiting (j : job) : Prop :=
  core j ∧ j.(queued_fetches) = [] ∧ j.(pending_clients) ≠ ∅.

(** Every edge ends in a module that was loaded for its phase or a stronger
    one, and so was the root the job was given. *)
Definition loaded_graph (j : job) : Prop :=
  (∀ e, e ∈ j.(dependency_edges) →
     ∃ ph, (e.(edge_child_key), ph) ∈ j.(finished) ∧ strongest ph e.(edge_phase) = ph) ∧
  (let '(k, want) := root_request j.(root) in
   j.(root_key) = Some k ∧ ∃ ph, (k, ph) ∈ j.(finished) ∧ strongest ph want = ph).

(** The graph is what the host linked from the job's root, entries and edges. *)
Definition linked (j : job) (g : ModuleGraphHandle Url) : Prop :=
  ∃ e (h h' : H), j.(root_entry) = Some e ∧
    link_module_graph h e j.(entries) j.(dependency_edges) = (inl g, h').

(** A job that has ended, with the poll that says how. *)
Definition over (j : job) (p : ModuleScriptTreePoll Url) : Prop :=
  ended j.(state) = true ∧ j.(pending_clients) = ∅ ∧ j.(queued_fetches) = [] ∧
  (∃ t, j.(terminal) = Some t ∧ p = poll_terminal t) ∧
  match p with
  | PollComplete g => loaded_graph j ∧ j.(parse_errors) = ∅ ∧ linked j g
  | _ => True
  end.

(** The polls of a job that goes on. *)
Definition awaits (p : ModuleScriptTreePoll Url) : Prop :=
  match p with PollWaiting _ => True | PollNeedFetches fetches => fetches ≠ [] | _ => False end.

(** What every call that does work leaves. *)
Definition next_ok (p : ModuleScriptTreePoll Url) (j : job) : Prop :=
  waiting j ∧ awaits p ∨ over j p.

Lemma fail_over j e : over (fail j e).2 (fail j e).1.
Proof. split_and!; try done. by eexists. Qed.

Lemma idle_iff (j : job) : idle j = true ↔ j.(queued_fetches) = [] ∧ j.(pending_clients) = ∅.
Proof.
  unfold idle. destruct (queued_fetches j); [| naive_solver].
  rewrite bool_decide_eq_true. naive_solver.
Qed.

Lemma not_outstanding_idle (j : job) l : idle j = true → ¬ outstanding j l.
Proof.
  intros [Hq Hp]%idle_iff [[c Hc]|(r & Hr & _)]; [by rewrite Hp, lookup_empty in Hc |].
  rewrite Hq in Hr. by apply not_elem_of_nil in Hr.
Qed.

(** ** Flushing the queue *)

(** The fields registering does not touch. *)
Definition same_graph (j j' : job) : Prop :=
  j'.(state) = j.(state) ∧ j'.(terminal) = j.(terminal) ∧ j'.(root_key) = j.(root_key) ∧
  j'.(root_entry) = j.(root_entry) ∧
  j'.(next_single_client_sequence) = j.(next_single_client_sequence) ∧
  j'.(queued_or_visited) = j.(queued_or_visited) ∧ j'.(entries) = j.(entries) ∧
  j'.(dependency_edges) = j.(dependency_edges) ∧ j'.(parse_errors) = j.(parse_errors) ∧
  j'.(module_order) = j.(module_order) ∧ j'.(finished) = j.(finished) ∧
  j'.(tree_id) = j.(tree_id) ∧ j'.(root) = j.(root) ∧ j'.(entry_phases) = j.(entry_phases).

Definition registered (m : gmap SingleModuleClientToken load)
    (rs : list (ModuleFetchRequest Url)) : gmap SingleModuleClientToken load :=
  foldl (λ m r, <[r.(req_client) := load_of_request r]> m) m rs.

Lemma register_fetch_spec j (h : H) r :
  let '(_, j', _) := register_fetch j h r in
  j'.(pending_clients) = <[r.(req_client) := load_of_request r]> j.(pending_clients) ∧
  same_graph j j' ∧ j'.(queued_fetches) = j.(queued_fetches) ∧
  (length j'.(queued_completions) ≤ S (length j.(queued_completions)))%nat.
Proof.
  unfold register_fetch. destruct (start_or_join_single_module_fetch h r (req_client r)) as [[] h'];
    simpl; (split_and!; [done | done | done |]); rewrite ?length_app; simpl; lia.
Qed.

Lemma register_all_spec rs : ∀ j (h : H),
  let '(_, j', _) := register_all rs j h in
  j'.(pending_clients) = registered j.(pending_clients) rs ∧ same_graph j j' ∧
  j'.(queued_fetches) = [] ∧
  (length j'.(queued_completions) ≤ length j.(queued_completions) + length rs)%nat.
Proof.
  induction rs as [|r rs IH]; intros j h; simpl; [split_and!; done || lia |].
  pose proof (register_fetch_spec j h r) as Hr. destruct (register_fetch j h r) as [[o j1] h1].
  destruct Hr as (Hp & Hs & _ & Hc). specialize (IH j1 h1).
  destruct (register_all rs j1 h1) as [[f j2] h2]. destruct IH as (Hp2 & Hs2 & Hq2 & Hc2).
  split_and!; [by rewrite Hp2, Hp | | done | simpl; lia].
  unfold same_graph in *. destruct_and?. split_and!; congruence.
Qed.

Lemma registered_old m rs c :
  (∀ r, r ∈ rs → r.(req_client) ≠ c) → registered m rs !! c = m !! c.
Proof.
  revert m. induction rs as [|r rs IH]; intros m Hc; [done |]. simpl.
  unfold registered in *. simpl. rewrite IH by set_solver.
  by rewrite lookup_insert_ne by (apply Hc; set_solver).
Qed.

Lemma registered_new m rs r :
  NoDup (map req_client rs) → r ∈ rs → registered m rs !! r.(req_client) = Some (load_of_request r).
Proof.
  revert m. induction rs as [|r' rs IH]; intros m Hn Hr; [by apply not_elem_of_nil in Hr |].
  simpl in Hn. apply NoDup_cons in Hn as [Hn1 Hn2]. apply elem_of_cons in Hr as [->|Hr].
  - unfold registered. simpl. fold (registered (<[req_client r' := load_of_request r']> m) rs).
    rewrite registered_old; [by rewrite lookup_insert_eq |].
    intros r Hr E. apply Hn1. rewrite <-E. by apply list_elem_of_fmap_2.
  - by apply IH.
Qed.

Lemma registered_inv m rs c l :
  registered m rs !! c = Some l →
  m !! c = Some l ∨ ∃ r, r ∈ rs ∧ r.(req_client) = c ∧ load_of_request r = l.
Proof.
  revert m. induction rs as [|r rs IH]; intros m Hc; [by left |].
  destruct (IH _ Hc) as [Hm|(r' & ? & ? & ?)]; [| right; exists r'; set_solver].
  destruct (decide (req_client r = c)) as [E|E].
  - right. exists r. subst. rewrite lookup_insert_eq in Hm. injection Hm as <-. set_solver.
  - left. by rewrite lookup_insert_ne in Hm.
Qed.

(** Registering moves loads from the queue to the pending clients. *)
Lemma outstanding_registered j j' :
  tokens_ok j → j'.(pending_clients) = registered j.(pending_clients) j.(queued_fetches) →
  j'.(queued_fetches) = [] → ∀ l, outstanding j l → outstanding j' l.
Proof.
  intros (_ & Hq & Hn) Hp _ l [[c Hc]|(r & Hr & <-)]; left.
  - exists c. rewrite Hp, registered_old; [done |]. intros r Hr <-.
    destruct (Hq r Hr) as [_ Hx]. congruence.
  - exists (req_client r). rewrite Hp. by apply registered_new.
Qed.

Lemma core_registered j j' :
  core j → same_graph j j' →
  j'.(pending_clients) = registered j.(pending_clients) j.(queued_fetches) →
  j'.(queued_fetches) = [] → core j'.
Proof.
  intros [] Hs Hp Hq. pose proof (outstanding_registered j j' core_tokens0 Hp Hq) as Ho.
  destruct Hs as (E1 & E2 & E3 & E4 & E5 & E6 & E7 & E8 & E9 & E10 & E11 & _ & E12 & _).
  constructor; unfold root_asked; rewrite ?E1, ?E2, ?E3, ?E4, ?E6, ?E8, ?E9, ?E12; try done.
  - intros He k ph Hk. destruct (core_covered0 He k ph Hk) as [Hf|(l & Hl & ? & ?)].
    + left. by rewrite E11.
    + right. exists l. auto.
  - intros He Hr. destruct (core_root0 He Hr) as (l & Hl & ?). exists l. auto.
  - destruct core_tokens0 as (Ht1 & Ht2 & Ht3). unfold tokens_ok. rewrite E5, Hq. split_and!.
    + intros c [l Hl]. rewrite Hp in Hl. apply registered_inv in Hl as [Hl|(r & Hr & <- & _)].
      * apply Ht1. by eexists.
      * by apply Ht2.
    + by intros r Hr%not_elem_of_nil.
    + constructor.
Qed.

Lemma registered_nonempty m rs : rs ≠ [] → registered m rs ≠ ∅.
Proof.
  intros Hrs. destruct rs as [|r rs] using rev_ind; [done |]. unfold registered.
  rewrite foldl_app. simpl. apply insert_non_empty.
Qed.

Lemma flush_spec j (h : H) :
  core j → idle j = false →
  let '(p, j', _) := flush_or_wait j h in
  waiting j' ∧ awaits p ∧ same_graph j j' ∧
  j'.(pending_clients) = registered j.(pending_clients) j.(queued_fetches) ∧
  (length j'.(queued_completions) ≤ length j.(queued_completions) + length j.(queued_fetches))%nat.
Proof.
  intros Hc Hi. unfold flush_or_wait.
  destruct (queued_fetches j) as [|r rs] eqn:E.
  - assert (pending_clients j ≠ ∅).
    { intros Hp. rewrite (proj2 (idle_iff j)) in Hi; done. }
    rewrite decide_False by done. split_and!; [done | done | done | done | simpl; lia].
  - pose proof (register_all_spec (r :: rs) j h) as Hr.
    destruct (register_all (r :: rs) j h) as [[f j'] h']. destruct Hr as (Hp & Hs & Hq & Hl).
    assert (core j') as Hc' by (apply (core_registered j); rewrite ?E; done).
    assert (pending_clients j' ≠ ∅) as Hne by (rewrite Hp; by apply registered_nonempty).
    destruct f; [rewrite decide_False by done |]; split_and!; done.
Qed.

Lemma flush_next j (h : H) :
  core j → idle j = false → next_ok (flush_or_wait j h).1.1 (flush_or_wait j h).1.2.
Proof.
  intros Hc Hi. pose proof (flush_spec j h Hc Hi) as Hf.
  destruct (flush_or_wait j h) as [[p j'] h']. left. by destruct Hf as (? & ? & _).
Qed.
(** ** Endings *)

(** Iterating over a [HashMap] finds a value unless there is none. *)
Context (any_value_none : ∀ m, any_value m = None → m = ∅).

Lemma first_parse_error_none (j : job) : first_parse_error any_value j = None → j.(parse_errors) = ∅.
Proof. unfold first_parse_error. case_match; [done |]. apply any_value_none. Qed.

Lemma core_complete j :
  core j → idle j = true → j.(parse_errors) = ∅ → loaded_graph j.
Proof.
  intros [] Hi He.
  assert (∀ k ph, queued_or_visited j !! k = Some ph → (k, ph) ∈ finished j) as Hv.
  { intros k ph Hk. destruct (core_covered0 He k ph Hk) as [?|(l & Hl & _)]; [done |].
    by destruct (not_outstanding_idle j l Hi). }
  split.
  - intros e Hin. destruct (core_edges0 e Hin) as (ph & Hk & Hs). exists ph. auto.
  - unfold root_asked in core_root_key0. destruct (root_request (root j)) as [k want].
    destruct core_root_key0 as (Hk & ph & Hph & ?). split; [done |]. exists ph. auto.
Qed.

Lemma link_next j (h : H) :
  core j → next_ok (link_if_ready any_value j h).1.1 (link_if_ready any_value j h).1.2.
Proof.
  intros Hc. unfold link_if_ready. destruct (idle j) eqn:Hi; simpl; [| by apply flush_next].
  destruct (first_parse_error any_value j) eqn:Hf; [right; apply fail_over |].
  apply first_parse_error_none in Hf. destruct (root_entry j) as [e|] eqn:Hr.
  - destruct (link_module_graph h e (entries j) (dependency_edges j)) as [[g|err] h'] eqn:El; right.
    + pose proof (proj1 (idle_iff j) Hi) as [? ?]. split_and!; try done; [by eexists |].
      split_and!; [exact (core_complete j Hc Hi Hf) | done | by exists e, h, h'].
    + apply fail_over.
  - right. apply fail_over.
Qed.

Lemma parse_error_next j (h : H) :
  core j →
  next_ok (finish_after_parse_error any_value j h).1.1 (finish_after_parse_error any_value j h).1.2.
Proof.
  intros Hc. unfold finish_after_parse_error. destruct (idle j) eqn:Hi; simpl;
    [right; apply fail_over | by apply flush_next].
Qed.

Lemma record_parse_error_nonempty (j : job) k e : (record_parse_error j k e).(parse_errors) ≠ ∅.
Proof.
  unfold record_parse_error. destruct (parse_errors j !! k) eqn:E; simpl.
  - intros Hx. by rewrite Hx, lookup_empty in E.
  - apply insert_non_empty.
Qed.

(** What a load that leaves keeps alive, with its own coverage or an error
    still to be accounted for. *)
Record core_but (l0 : load) (j : job) : Prop := {
  but_running : j.(terminal) = None ∧ ended j.(state) = false ∧ j.(state) ≠ Initial;
  but_covered : j.(parse_errors) = ∅ → ∀ k ph, j.(queued_or_visited) !! k = Some ph →
    covered j k ph ∨ (k, ph) = (l0.(load_key), l0.(load_phase));
  but_edges : ∀ e, e ∈ j.(dependency_edges) →
    ∃ ph, j.(queued_or_visited) !! e.(edge_child_key) = Some ph ∧ strongest ph e.(edge_phase) = ph;
  but_root : j.(parse_errors) = ∅ → j.(root_entry) = None → l0.(load_level) ≠ TopLevel →
    ∃ l, outstanding j l ∧ l.(load_level) = TopLevel;
  but_root_key : root_asked j;
  but_tokens : tokens_ok j }.

Lemma core_remove j c l :
  waiting j → j.(pending_clients) !! c = Some l →
  core_but l (set_pending j (delete c j.(pending_clients))).
Proof.
  intros ([] & Hq & _) Hc.
  assert (∀ l', outstanding j l' → l' = l ∨ outstanding (set_pending j (delete c (pending_clients j))) l')
    as Ho.
  { intros l' [[c' Hc']|(r & Hr & _)]; [| rewrite Hq in Hr; by apply not_elem_of_nil in Hr].
    destruct (decide (c' = c)) as [->|Hne]; [left; congruence |]. right. left. exists c'. simpl.
    by rewrite lookup_delete_ne. }
  constructor; simpl; try done.
  - intros He k ph Hk. destruct (core_covered0 He k ph Hk) as [?|(l' & Hl & <- & <-)]; [by left; left |].
    destruct (Ho l' Hl) as [->|Hl']; [by right |]. left. right. by exists l'.
  - intros He Hr Hn. destruct (core_root0 He Hr) as (l' & Hl & Htop).
    destruct (Ho l' Hl) as [->|Hl']; [done |]. by exists l'.
  - destruct core_tokens0 as (Ht1 & _ & _). unfold tokens_ok. simpl. rewrite Hq. split_and!.
    + intros c' [l' Hl']. apply lookup_delete_Some in Hl' as [_ Hl']. apply Ht1. by eexists.
    + by intros r Hr%not_elem_of_nil.
    + constructor.
Qed.

Lemma but_parse_error l0 j k e : core_but l0 j → core (record_parse_error j k e).
Proof.
  intros []. pose proof (record_parse_error_nonempty j k e) as Hne.
  unfold record_parse_error in *. destruct (parse_errors j !! k); constructor; simpl in *; done.
Qed.
(** A load that ended with an entry. *)
Definition entered (j : job) (l : load) (entry : ModuleEntryId) (c : ModuleEntryContext) : job :=
  let j := log_finished j l.(load_key) l.(load_phase) in
  let j := if decide (l.(load_level) = TopLevel)
           then set_state (set_root j j.(root_key) (Some entry)) FetchingDependencies else j in
  add_entry (record_entry_context j entry c) entry l.(load_phase).

Lemma core_add_entry j entry c ph :
  core j → core (add_entry (record_entry_context j entry c) entry ph).
Proof.
  intros []. unfold record_entry_context. destruct (entry_contexts j !! entry);
    constructor; assumption.
Qed.

Lemma core_entered j l entry c : core_but l j → core (entered j l entry c).
Proof.
  intros []. apply core_add_entry.
  assert (∀ k ph, covered j k ph → covered (log_finished j (load_key l) (load_phase l)) k ph) as Hcov
    by (intros k ph [?|?]; [left; set_solver | by right]).
  case_decide as Ht; (constructor; simpl; [destruct_and?; by split_and! | | done | | done | done]).
  - intros He k ph Hk. destruct (but_covered0 He k ph Hk) as [?|[= -> ->]]; [by apply Hcov |].
    left. set_solver.
  - done.
  - intros He k ph Hk. destruct (but_covered0 He k ph Hk) as [?|[= -> ->]]; [by apply Hcov |].
    left. set_solver.
  - intros He Hr. by apply but_root0.
Qed.

(** ** Collecting the dependencies of a module *)
Definition ckey (c : @DependencyCandidate Url) : key := c.(cand_resolved).(resolved_key).

(** The candidates collected so far against the phases seen before: one per
    key, each with the phase recorded before it, and the new phases are the
    strongest of both. *)
Record collecting (v0 v : gmap key ModuleImportPhase) (cs : list (@DependencyCandidate Url)) : Prop := {
  coll_nodup : NoDup (map ckey cs);
  coll_old : ∀ k, k ∉ map ckey cs → v !! k = v0 !! k;
  coll_new : ∀ c, c ∈ cs → c.(cand_previous) = v0 !! ckey c ∧
    v !! ckey c = Some (strongest (default c.(cand_phase) (v0 !! ckey c)) c.(cand_phase)) }.

Lemma merge_candidate_spec k ph cs :
  match merge_candidate k ph cs with
  | None => k ∉ map ckey cs
  | Some cs' => ∃ c l1 l2, cs = l1 ++ c :: l2 ∧ ckey c = k ∧
      cs' = l1 ++ {| cand_resolved := c.(cand_resolved); cand_specifier := c.(cand_specifier);
                     cand_phase := strongest c.(cand_phase) ph; cand_previous := c.(cand_previous);
                     cand_position := c.(cand_position) |} :: l2
  end.
Proof.
  induction cs as [|c cs IH]; simpl; [apply not_elem_of_nil |].
  case_decide as Hk; [exists c, [], cs; done |].
  destruct (merge_candidate k ph cs) as [cs'|]; simpl.
  - destruct IH as (c' & l1 & l2 & -> & ? & ->). exists c', (c :: l1), l2. done.
  - apply not_elem_of_cons. split; [by intros -> | done].
Qed.

(** The fields collecting does not touch. *)
Definition same_work (j j' : job) : Prop :=
  j'.(state) = j.(state) ∧ j'.(terminal) = j.(terminal) ∧ j'.(root_key) = j.(root_key) ∧
  j'.(root_entry) = j.(root_entry) ∧
  j'.(next_single_client_sequence) = j.(next_single_client_sequence) ∧
  j'.(pending_clients) = j.(pending_clients) ∧ j'.(queued_fetches) = j.(queued_fetches) ∧
  j'.(parse_errors) = j.(parse_errors) ∧ j'.(finished) = j.(finished) ∧
  j'.(queued_completions) = j.(queued_completions) ∧ j'.(tree_id) = j.(tree_id) ∧
  j'.(root) = j.(root) ∧ j'.(entry_phases) = j.(entry_phases).

Definition edges_ok (j : job) : Prop :=
  ∀ e, e ∈ j.(dependency_edges) →
  ∃ ph, j.(queued_or_visited) !! e.(edge_child_key) = Some ph ∧ strongest ph e.(edge_phase) = ph.

(** The visited phases after one request. *)
Definition visit (v : gmap key ModuleImportPhase) (k : key) (ph : ModuleImportPhase) :
    gmap key ModuleImportPhase := <[k := strongest (default ph (v !! k)) ph]> v.

Lemma collect_request_job (j : job) sn r res cs :
  let '(_, j') := collect_request j sn r res cs in
  same_work j j' ∧ j'.(queued_or_visited) = visit j.(queued_or_visited) res.(resolved_key) r.(record_phase) ∧
  (edges_ok j → edges_ok j').
Proof.
  assert (∀ j' : job, j'.(queued_or_visited) = visit j.(queued_or_visited) res.(resolved_key) r.(record_phase) →
    ∀ e, j'.(dependency_edges) = j.(dependency_edges) ++ [e] → e.(edge_child_key) = res.(resolved_key) →
    e.(edge_phase) = r.(record_phase) → edges_ok j → edges_ok j') as Hedges.
  { intros j' Hv e He Hk Hp Hok e' Hin. rewrite He in Hin. rewrite Hv. unfold visit.
    apply elem_of_app in Hin as [Hin|Hin%list_elem_of_singleton]; [| subst e'].
    - destruct (Hok e' Hin) as (ph & Hph & Hs).
      destruct (decide (edge_child_key e' = resolved_key res)) as [E|E].
      + rewrite <-E, lookup_insert_eq, Hph. eexists; split; [done |].
        by destruct ph, (edge_phase e'), (record_phase r).
      + rewrite lookup_insert_ne by done. by exists ph.
    - rewrite Hk, lookup_insert_eq, Hp. eexists; split; [done |]. apply strongest_upper_r. }
  unfold collect_request. cbv zeta.
  destruct (queued_or_visited j !! resolved_key res) eqn:Ev; unfold record_module_order; simpl;
    try case_bool_decide; (destruct (merge_candidate _ _ _); split_and!; [done | | | done | |]); simpl;
    try (unfold visit; by rewrite Ev);
    (eapply Hedges; [unfold visit; rewrite Ev; done | done | done | done]).
Qed.

(** The merged candidate. *)
Definition merged (c : @DependencyCandidate Url) (ph : ModuleImportPhase) : DependencyCandidate :=
  {| cand_resolved := c.(cand_resolved); cand_specifier := c.(cand_specifier);
     cand_phase := strongest c.(cand_phase) ph; cand_previous := c.(cand_previous);
     cand_position := c.(cand_position) |}.

Lemma collecting_merge v0 v l1 c l2 ph :
  collecting v0 v (l1 ++ c :: l2) →
  collecting v0 (visit v (ckey c) ph) (l1 ++ merged c ph :: l2).
Proof.
  intros [Hn Ho Hnew]. destruct (Hnew c ltac:(set_solver)) as [Hprev Hv].
  assert (map ckey (l1 ++ merged c ph :: l2) = map ckey (l1 ++ c :: l2)) as Hkeys
    by (by rewrite !map_app).
  assert (∀ c', c' ∈ l1 ++ l2 → ckey c' ≠ ckey c) as Hne.
  { intros c' Hc' E. rewrite map_app in Hn. apply NoDup_app in Hn as (_ & Hd & Hn2). simpl in *.
    apply NoDup_cons in Hn2 as [Hn2 _]. apply elem_of_app in Hc' as [Hc'|Hc'].
    - apply (Hd (ckey c')); [by apply list_elem_of_fmap_2 |]. rewrite E. set_solver.
    - apply Hn2. rewrite <-E. by apply list_elem_of_fmap_2. }
  constructor; rewrite ?Hkeys; [done | |].
  - intros k Hk. unfold visit. rewrite lookup_insert_ne; [by apply Ho |].
    intros <-. apply Hk. apply list_elem_of_fmap_2. set_solver.
  - intros c' Hc'. unfold visit.
    apply elem_of_app in Hc' as [Hc'|[->|Hc']%elem_of_cons].
    1,3: rewrite lookup_insert_ne by (apply not_eq_sym, Hne; set_solver); apply Hnew; set_solver.
    change (ckey (merged c ph)) with (ckey c). rewrite lookup_insert_eq, Hv. split; [done |]. simpl.
    by destruct (v0 !! ckey c) as [[]|], (cand_phase c), ph.
Qed.

Lemma collecting_new v0 v cs c :
  collecting v0 v cs → ckey c ∉ map ckey cs → c.(cand_previous) = v !! ckey c →
  collecting v0 (visit v (ckey c) c.(cand_phase)) (cs ++ [c]).
Proof.
  intros [Hn Ho Hnew] Hk Hp. rewrite (Ho _ Hk) in Hp. constructor.
  - rewrite map_app. apply NoDup_app. split_and!; [done | set_solver | apply NoDup_singleton].
  - intros k Hk'. rewrite map_app in Hk'. simpl in Hk'. unfold visit.
    rewrite lookup_insert_ne by set_solver. apply Ho. set_solver.
  - intros c' [Hc'|Hc'%list_elem_of_singleton]%elem_of_app; unfold visit.
    + rewrite lookup_insert_ne; [by apply Hnew |]. intros E. apply Hk. rewrite E.
      by apply list_elem_of_fmap_2.
    + subst c'. by rewrite lookup_insert_eq, (Ho _ Hk).
Qed.

Lemma collect_request_collecting v0 (j : job) sn r res cs :
  collecting v0 j.(queued_or_visited) cs →
  let '(cs', j') := collect_request j sn r res cs in
  collecting v0 j'.(queued_or_visited) cs' ∧ (length cs' ≤ S (length cs))%nat.
Proof.
  intros Hcs. pose proof (collect_request_job j sn r res cs) as Hj.
  pose proof (merge_candidate_spec (resolved_key res) (record_phase r) cs) as Hm.
  unfold collect_request in *. cbv zeta in *.
  destruct (merge_candidate (resolved_key res) (record_phase r) cs) as [cs'|];
    destruct Hj as (_ & -> & _).
  - destruct Hm as (c & l1 & l2 & -> & <- & ->). split; [by apply (collecting_merge v0) |].
    rewrite !length_app. simpl. lia.
  - split; [| rewrite length_app; simpl; lia].
    by apply (collecting_new v0 _ cs {| cand_resolved := res; cand_specifier := record_specifier r;
      cand_phase := record_phase r; cand_previous := queued_or_visited j !! resolved_key res;
      cand_position := record_position r |}).
Qed.

Lemma collect_spec sn v0 rs : ∀ (j : job) (h : H) cs,
  collecting v0 j.(queued_or_visited) cs → edges_ok j →
  let '(r, j', _) := collect_dependency_candidates sn rs cs j h in
  same_work j j' ∧
  match r with
  | inl cs' => collecting v0 j'.(queued_or_visited) cs' ∧ edges_ok j' ∧
               (length cs' ≤ length cs + length rs)%nat
  | inr _ => True
  end.
Proof.
  induction rs as [|r rs IH]; intros j h cs Hcs He; simpl; [split_and!; done || lia |].
  destruct (resolve_module_request h (record_specifier r) (dep_base_url sn) (record_attributes r)
    (record_phase r)) as [[res|err] h1]; [| done].
  pose proof (collect_request_job j sn r res cs) as Hj.
  pose proof (collect_request_collecting v0 j sn r res cs Hcs) as Hc.
  destruct (collect_request j sn r res cs) as [cs1 j1]. destruct Hj as (Hs1 & _ & He1).
  destruct Hc as [Hcs1 Hl1]. specialize (IH j1 h1 cs1 Hcs1 (He1 He)).
  destruct (collect_dependency_candidates sn rs cs1 j1 h1) as [[out j2] h2].
  destruct IH as [Hs2 Hout]. split.
  - unfold same_work in *. destruct_and?. split_and!; congruence.
  - destruct out; [| done]. destruct Hout as (? & ? & ?). split_and!; [done | done | lia].
Qed.

Lemma collecting_start v : collecting v v [].
Proof. constructor; [constructor | done | by intros c Hc%not_elem_of_nil]. Qed.

(** ** Queueing the fetches *)
Lemma queue_candidates_spec sn pr cs : ∀ (j : job) j',
  queue_candidates as_str sn pr cs j = Ret j' →
  ∃ new, j'.(queued_fetches) = j.(queued_fetches) ++ new ∧
    map (λ r, (r.(req_key), r.(req_phase))) new =
      map (λ c, (ckey c, c.(cand_phase)))
        (filter (λ c, c.(cand_previous) ≠ Some c.(cand_phase)) cs) ∧
    Forall (λ r, r.(req_graph_level) = Dependent) new ∧
    map (λ r, r.(req_client)) new =
      map (λ i, {| client_tree := j.(tree_id);
                   client_sequence := j.(next_single_client_sequence) + N.of_nat i |})
        (seq 0 (length new)) ∧
    j' = set_sequence (set_fetches j j'.(queued_fetches))
           (j.(next_single_client_sequence) + N.of_nat (length new)).
Proof.
  induction cs as [|c cs IH]; intros j j' Hq; simpl in Hq.
  - injection Hq as ->. exists []. rewrite app_nil_r. split_and!; try done. simpl.
    rewrite N.add_0_r. by destruct j'.
  - rewrite filter_cons. case_bool_decide as Hp.
    { rewrite decide_False by naive_solver. by apply IH. }
    rewrite decide_True by done. inv_run. destruct r as [client j1]. unfold next_single_module_client in E.
    inv_run. apply add64_Ret in E0 as [-> _].
    apply IH in Hq as (new & Hf & Hk & Hd & Hc & Hj). simpl in *.
    exists (dependency_fetch_request as_str
      (set_sequence j (next_single_client_sequence j + 1)) sn pr c
      {| client_tree := tree_id j; client_sequence := next_single_client_sequence j |} :: new).
    split_and!; simpl.
    + by rewrite Hf, <-app_assoc.
    + by rewrite Hk.
    + by constructor.
    + f_equal; [f_equal; lia |]. rewrite Hc, <-fmap_S_seq, <-list_fmap_compose.
      apply list_fmap_ext. intros i x _. simpl. f_equal. lia.
    + rewrite Hj. unfold set_sequence, set_fetches. simpl. f_equal. lia.
Qed.

Lemma covered_mono j j' k ph :
  (∀ l, outstanding j l → outstanding j' l) → j'.(finished) = j.(finished) →
  covered j k ph → covered j' k ph.
Proof. intros Ho Hf [Hk|(l & Hl & ?)]; [left; by rewrite Hf | right; exists l; auto]. Qed.

(** New clients carry the sequence numbers from the counter on. *)
Lemma fresh_clients (t : ModuleTreeId) n len (cs : list SingleModuleClientToken) :
  cs = map (λ i, {| client_tree := t; client_sequence := n + N.of_nat i |}) (seq 0 len) →
  NoDup cs ∧ ∀ c, c ∈ cs → n ≤ c.(client_sequence) < n + N.of_nat len.
Proof.
  intros ->. split.
  - apply NoDup_fmap_2_strong; [| apply NoDup_seq]. intros x y _ _ [= Hxy]. lia.
  - intros c (i & -> & Hi)%list_elem_of_fmap_1. apply elem_of_seq in Hi. simpl. lia.
Qed.

Lemma tokens_queued j (new : list (ModuleFetchRequest Url)) :
  tokens_ok j →
  map (λ r, r.(req_client)) new =
    map (λ i, {| client_tree := j.(tree_id);
                 client_sequence := j.(next_single_client_sequence) + N.of_nat i |})
      (seq 0 (length new)) →
  tokens_ok (set_sequence (set_fetches j (j.(queued_fetches) ++ new))
               (j.(next_single_client_sequence) + N.of_nat (length new))).
Proof.
  intros (Hp & Hq & Hn) Hc. apply fresh_clients in Hc as [Hn' Hc].
  assert (∀ r, r ∈ new → next_single_client_sequence j ≤ client_sequence (req_client r)
    < next_single_client_sequence j + N.of_nat (length new)) as Hb
    by (intros r Hr; apply Hc; by apply (list_elem_of_fmap_2 req_client)).
  split_and!; simpl.
  - intros c Hs. specialize (Hp c Hs). lia.
  - intros r [Hr|Hr]%elem_of_app; [destruct (Hq r Hr); split; [lia | done] |].
    specialize (Hb r Hr). split; [lia |]. apply eq_None_not_Some. intros Hs. specialize (Hp _ Hs). lia.
  - rewrite map_app. apply NoDup_app. split_and!; [done | | done].
    intros c (r & -> & Hr)%list_elem_of_fmap_1 (r' & E & Hr')%list_elem_of_fmap_1.
    destruct (Hq r Hr) as [Hlt _]. specialize (Hb r' Hr'). rewrite <-E in Hb. lia.
Qed.

Lemma core_queued j j1 j2 sn pr cs :
  core j → same_work j j1 → edges_ok j1 →
  collecting j.(queued_or_visited) j1.(queued_or_visited) cs →
  queue_candidates as_str sn pr cs j1 = Ret j2 → core j2.
Proof.
  intros [] Hs He Hcs Hq. apply queue_candidates_spec in Hq as (new & Hf & Hk & _ & Hc & Hj).
  destruct Hs as (E1 & E2 & E3 & E4 & E5 & E6 & E7 & E8 & E9 & E10 & E11 & E12 & _).
  assert (∀ l, outstanding j l → outstanding j2 l) as Ho.
  { intros l [[c Hl]|(r & Hr & ?)].
    - left. exists c. rewrite Hj. simpl. by rewrite E6.
    - right. exists r. rewrite Hf, E7. set_solver. }
  assert (finished j2 = finished j) as Hfin by (rewrite Hj; simpl; done).
  assert (∀ c, c ∈ cs → c.(cand_previous) ≠ Some c.(cand_phase) → covered j2 (ckey c) c.(cand_phase))
    as Hnew.
  { intros c Hin Hp. right.
    assert ((ckey c, cand_phase c) ∈ map (λ r, (r.(req_key), r.(req_phase))) new) as Hr.
    { rewrite Hk. apply (list_elem_of_fmap_2 (λ c, (ckey c, cand_phase c))).
      by apply list_elem_of_filter. }
    apply list_elem_of_fmap_1 in Hr as (r & [= E E'] & Hr). exists (load_of_request r).
    split_and!; [| done | done]. right. exists r. rewrite Hf. set_solver. }
  assert (∀ k ph want, queued_or_visited j !! k = Some ph → strongest ph want = ph →
    ∃ ph', queued_or_visited j1 !! k = Some ph' ∧ strongest ph' want = ph') as Hmono.
  { intros k ph want Hk' Hw. destruct (decide (k ∈ map ckey cs)) as [Hin|Hin].
    - apply list_elem_of_fmap_1 in Hin as (c & -> & Hin). destruct (coll_new _ _ _ Hcs c Hin) as [_ ->].
      eexists. split; [done |]. rewrite Hk'. by destruct ph, want, (cand_phase c).
    - rewrite (coll_old _ _ _ Hcs k Hin). by exists ph. }
  constructor.
  - rewrite Hj. simpl. by rewrite E1, E2.
  - intros Hpe k ph Hph. rewrite Hj in Hpe, Hph. simpl in Hpe, Hph. rewrite E8 in Hpe.
    destruct (decide (k ∈ map ckey cs)) as [Hin|Hin].
    + apply list_elem_of_fmap_1 in Hin as (c & -> & Hin).
      destruct (coll_new _ _ _ Hcs c Hin) as [Hprev Hv]. rewrite Hv in Hph. injection Hph as <-.
      destruct (queued_or_visited j !! ckey c) as [p0|] eqn:E0; simpl.
      * destruct (decide (strongest p0 (cand_phase c) = p0)) as [->|Hne].
        -- apply (covered_mono j); [done | done |]. by apply core_covered0.
        -- destruct p0, (cand_phase c) eqn:Ep; try done. change (strongest Source Evaluation) with Evaluation.
           rewrite <-Ep. apply Hnew; [done |]. rewrite Hprev, Ep. done.
      * rewrite strongest_idemp. apply Hnew; [done |]. by rewrite Hprev.
    + rewrite (coll_old _ _ _ Hcs k Hin) in Hph. apply (covered_mono j); [done | done |].
      by apply core_covered0.
  - rewrite Hj. exact He.
  - rewrite Hj. simpl. rewrite E8, E4. intros Hpe Hr.
    destruct (core_root0 Hpe Hr) as (l & Hl & Htop). exists l. split; [| done]. rewrite <-Hj. auto.
  - rewrite Hj. unfold root_asked in *. simpl. rewrite E3, E12. destruct (root_request (root j)) as [k want].
    destruct core_root_key0 as (? & ph & ? & ?). eauto.
  - rewrite Hj, Hf. apply tokens_queued; [| done]. unfold tokens_ok. by rewrite E5, E6, E7.
Qed.

Lemma flush_or_link_next j (h : H) :
  core j → next_ok (flush_or_link any_value j h).1.1 (flush_or_link any_value j h).1.2.
Proof.
  intros Hc. unfold flush_or_link. destruct (queued_fetches j) eqn:E; [by apply link_next |].
  apply flush_next; [done |]. unfold idle. by rewrite E.
Qed.

Lemma discover_next j (h : H) entry p j' h' :
  core j → discover_dependencies as_str any_value j h entry = Ret (p, j', h') → next_ok p j'.
Proof.
  intros Hc. unfold discover_dependencies. destruct (module_dependencies h entry) as [sn|err].
  2: { intros [= <- <- <-]. right. apply fail_over. }
  cbv zeta. set (sn' := dependency_snapshot_with_tree_context j sn).
  pose proof (collect_spec sn' (queued_or_visited j) (requested_modules sn') j h []
    (collecting_start _) (core_edges j Hc)) as Hcol.
  pose proof (link_next j h Hc) as Hl.
  destruct (requested_modules sn') as [|r rs] eqn:Er.
  { intros [= E]. by rewrite E in Hl. }
  destruct (collect_dependency_candidates sn' (r :: rs) [] j h) as [[[cs|err] j1] h1].
  - destruct Hcol as (Hs & Hcs & He & _). intros Hq. inv_run.
    apply (core_queued j) in E; [| done..]. pose proof (flush_or_link_next r0 h1 E) as Hn.
    by rewrite Hq in Hn.
  - intros [= <- <- <-]. right. apply fail_over.
Qed.
(** ** One load *)
Lemma but_of_core l j : core j → core_but l j.
Proof. intros []. constructor; try done; auto. Qed.

Lemma load_error_next l j (h : H) k e p j' h' :
  core_but l j → finish_module_load_error any_value j h k e = (p, j', h') → next_ok p j'.
Proof.
  intros Hc. unfold finish_module_load_error. destruct (negb (is_parse_error e)).
  - intros [= <- <- <-]. right. apply fail_over.
  - intros E. pose proof (parse_error_next _ h (but_parse_error l j (default k (error_key e)) e Hc)) as Hn.
    by rewrite E in Hn.
Qed.

Lemma load_outcome_spec l j (h : H) o :
  core_but l j →
  match load_outcome any_value j h l o with
  | inl (_, _, _, j', _) => core_but l j'
  | inr (p, j', _) => next_ok p j'
  end.
Proof.
  intros Hc. destruct o as [source|m|e]; simpl.
  - destruct (compile_module_source h source (load_phase l)) as [[compiled|e] h1].
    + destruct (parse_error compiled) as [e|]; [by apply but_of_core, (but_parse_error l) |].
      destruct (has_parse_error compiled); [by apply but_of_core, (but_parse_error l) | done].
    + destruct (mark_module_failed h1 (load_key l) e) as [en h2].
      destruct (finish_module_load_error any_value j h2 (load_key l) e) as [[p j'] h'] eqn:E.
      by apply (load_error_next l) in E.
  - done.
  - destruct (finish_module_load_error any_value j h (load_key l) e) as [[p j'] h'] eqn:E.
    by apply (load_error_next l) in E.
Qed.

Lemma finish_load_next l j (h : H) o p j' h' :
  core_but l j → finish_module_load as_str any_value j h l o = Ret (p, j', h') → next_ok p j'.
Proof.
  intros Hc. unfold finish_module_load. pose proof (load_outcome_spec l j h o Hc) as Ho.
  destruct (load_outcome any_value j h l o) as [[[[[en c] err] j1] h1]|[[p1 j1] h1]];
    [| by intros [= <- <- <-]].
  apply (core_entered _ _ en c) in Ho. change (core (entered j1 l en c)) in Ho. cbv zeta.
  match goal with |- context [if err then mret (finish_after_parse_error _ ?x _) else _] =>
    change x with (entered j1 l en c) end.
  destruct err; [| case_decide].
  - intros [= E]. pose proof (parse_error_next _ h1 Ho) as Hn. by rewrite E in Hn.
  - intros [= E]. pose proof (link_next _ h1 Ho) as Hn. by rewrite E in Hn.
  - by apply discover_next.
Qed.

(** ** The calls *)

(** A job between calls. *)
Definition rest (j : job) : Prop :=
  (j = job_new j.(root) j.(config)) ∨ waiting j ∨ ∃ p, over j p.

(** A call's answer and the job it leaves: a job at work says what it awaits,
    an ended one repeats its ending. *)
Lemma next_rest p j : next_ok p j → rest j.
Proof. intros [[? _]|?]; right; [by left | right; by eexists]. Qed.

(** The job as its start leaves it, before the queue is flushed or its
    dependencies are discovered. *)
Definition external_started root cfg (r : ModuleExternalRootInput Url) : job :=
  let kind := default JavaScript r.(ext_kind_hint) in
  let key := {| key_url := r.(ext_source_url); key_kind := kind;
                key_attributes := r.(ext_attributes) |} in
  let j := set_sequence (set_state (record_module_order
    (set_visited (set_root (job_new root cfg) (Some key) None) (<[key := r.(ext_phase)]> ∅)) key)
    FetchingRoot) 1 in
  queue_fetch_request j (external_root_request j r key kind
    {| client_tree := cfg.(config_tree_id); client_sequence := 0 |}).

Definition inline_started root cfg (r : ModuleInlineRootInput Url) : job :=
  let key := r.(inl_root_key) in
  let entry := r.(inl_root_entry) in
  let j := record_module_order
    (set_visited (set_root (job_new root cfg) (Some key) (Some entry)) (<[key := r.(inl_phase)]> ∅)) key in
  let j := add_entry (record_entry_context j entry
    {| context_key := key; context_base_url := r.(inl_base_url);
       context_metadata := r.(inl_fetch_metadata) |}) entry r.(inl_phase) in
  log_finished (set_state j FetchingDependencies) key r.(inl_phase).

Lemma start_external_eq root cfg r (h : H) :
  start_external_root (job_new root cfg) h r = Ret (flush_or_wait (external_started root cfg r) h).
Proof.
  unfold start_external_root, next_single_module_client, external_started, mret, run_ret. cbv zeta.
  match goal with |- context [add64 ?a 1] => assert (add64 a 1 = Ret 1) as -> by reflexivity end.
  reflexivity.
Qed.

Lemma start_inline_eq root cfg r (h : H) :
  start_inline_root as_str any_value (job_new root cfg) h r =
  if decide (r.(inl_phase) = Source) then Ret (link_if_ready any_value (inline_started root cfg r) h)
  else discover_dependencies as_str any_value (inline_started root cfg r) h r.(inl_root_entry).
Proof. reflexivity. Qed.

Lemma visited_start (k k' : key) (p p' : ModuleImportPhase) :
  (<[k := p]> (∅ : gmap key ModuleImportPhase)) !! k' = Some p' → k' = k ∧ p' = p.
Proof. intros [[-> ->]|[_ Hk]]%lookup_insert_Some; [done | by rewrite lookup_empty in Hk]. Qed.

Lemma root_asked_start (j : job) k want :
  root_request j.(root) = (k, want) → j.(root_key) = Some k → j.(queued_or_visited) = <[k := want]> ∅ →
  root_asked j.
Proof.
  intros Hi Hk Hv. unfold root_asked. rewrite Hi, Hv. split; [done |]. exists want.
  split; [apply lookup_insert_eq | apply strongest_idemp].
Qed.

Lemma external_started_core cfg r : core (external_started (External r) cfg r).
Proof.
  unfold external_started, record_module_order. simpl. constructor; simpl.
  - done.
  - intros _ k ph [-> ->]%visited_start.
    right. eexists. split; [right; eexists; split; [by left | done] | done].
  - by intros e He%not_elem_of_nil.
  - intros _ _. eexists. split; [right; eexists; split; [by left | done] | done].
  - by eapply root_asked_start.
  - split_and!; simpl; [intros c [l Hl]; by rewrite lookup_empty in Hl | | apply NoDup_singleton].
    intros r' ->%list_elem_of_singleton. simpl. split; [lia | apply lookup_empty].
Qed.

Lemma inline_started_core cfg r : core (inline_started (Inline r) cfg r).
Proof.
  unfold inline_started, record_module_order, record_entry_context. simpl. rewrite lookup_empty.
  constructor; simpl.
  - done.
  - intros _ k ph [-> ->]%visited_start. left. set_solver.
  - by intros e He%not_elem_of_nil.
  - done.
  - by eapply root_asked_start.
  - split_and!; simpl; [intros c [l Hl]; by rewrite lookup_empty in Hl | | constructor].
    by intros r' Hr%not_elem_of_nil.
Qed.

Lemma start_next root cfg (h : H) p j' h' :
  start as_str any_value (job_new root cfg) h = Ret (p, j', h') → next_ok p j'.
Proof.
  unfold start. simpl. destruct root as [r|r].
  - rewrite start_external_eq. intros [= E].
    pose proof (flush_next _ h (external_started_core cfg r) eq_refl) as Hn. by rewrite E in Hn.
  - rewrite start_inline_eq. pose proof (inline_started_core cfg r) as Hc.
    generalize dependent (inline_started (Inline r) cfg r). intros j Hc.
    case_decide; [| by apply discover_next]. intros [= E].
    pose proof (link_next _ h Hc) as Hn. by rewrite E in Hn.
Qed.

Lemma resume_accepted j (h : H) c l o p j' h' :
  waiting j → j.(pending_clients) !! c = Some l →
  resume_single_module_outcome as_str any_value j h c o = Ret (p, j', h') → next_ok p j'.
Proof.
  intros Hw Hc E. pose proof (core_running j (proj1 Hw)) as (_ & He & _).
  unfold resume_single_module_outcome in E. rewrite Hc in E. apply (core_remove j c) in Hc; [| done].
  apply (finish_load_next l _ h o p j' h' Hc). by destruct (state j).
Qed.

Lemma resume_next j (h : H) c o p j' h' :
  rest j → resume_single_module_outcome as_str any_value j h c o = Ret (p, j', h') →
  p = PollIgnoredStaleCompletion ∧ j' = j ∧ h' = h ∨
  waiting j ∧ is_Some (j.(pending_clients) !! c) ∧ next_ok p j'.
Proof.
  intros Hr E. destruct (ended (state j)) eqn:He.
  { left. unfold resume_single_module_outcome in E. by destruct (state j); try done; injection E as <- <- <-. }
  destruct (pending_clients j !! c) as [l|] eqn:Hc.
  - destruct Hr as [Hj|[Hw|(p0 & Hs & _)]]; [by rewrite Hj in Hc; simpl in Hc; rewrite lookup_empty in Hc | | congruence].
    right. split_and!; [done | by eexists |]. by apply (resume_accepted j h c l o p j' h').
  - left. unfold resume_single_module_outcome in E. rewrite Hc in E. by destruct (state j); injection E as <- <- <-.
Qed.

Lemma poll_next j (h : H) p j' h' :
  rest j → poll as_str any_value j h = Ret (p, j', h') → next_ok p j'.
Proof.
  intros Hr. unfold poll. destruct Hr as [Hj|[Hw|(p0 & Hs & Hp & Hq & (t & Ht & ->) & Hg)]].
  - rewrite Hj. by apply start_next.
  - destruct Hw as (Hc & Hq & Hp). pose proof (flush_next j h Hc) as Hn. pose proof (core_running j Hc) as (-> & He & Hi).
    assert (idle j = false) as Hid.
    { destruct (idle j) eqn:E; [| done]. by apply idle_iff in E as [_ ?]. }
    specialize (Hn Hid). destruct (state j); try done; intros [= E]; by rewrite E in Hn.
  - rewrite Ht. intros [= <- <- <-]. right. split_and!; try done. by eexists.
Qed.

(** The queues of answers do not matter. *)
Lemma waiting_queues j cs fs : waiting j → waiting (set_joined (set_completions j cs) fs).
Proof. intros ([] & ? & ?). split_and!; [by constructor | done | done]. Qed.

Lemma not_over_waiting j p : waiting j → ¬ over j p.
Proof. intros (Hc & _) (Hs & _). destruct (core_running j Hc) as (_ & ? & _). congruence. Qed.

(** What [drive] answers about the job it leaves. *)
Definition drive_ok (d : ModuleScriptTreeDrive Url) (j : job) : Prop :=
  match d with
  | DrivePending _ => False
  | DriveNeedFetches fetches _ => fetches ≠ [] ∧ waiting j
  | DriveWaiting _ _ => waiting j
  | DriveComplete graph => over j (PollComplete graph)
  | DriveFailed error => over j (PollFailed error)
  | DriveAborted reason => over j (PollAborted reason)
  | DriveIgnoredStaleCompletion _ => True
  end.

(** The last poll of the loop and the fetches gathered describe the job. *)
Definition loop_ok (j : job) (p : ModuleScriptTreePoll Url)
    (fs : list (ModuleFetchRequest Url)) : Prop :=
  (rest j ∧ (j.(state) = Initial → j.(queued_completions) = [] ∧ j.(joined_fetches) = [])) ∧
  (fs ≠ [] → waiting j) ∧
  match p with
  | PollPending => fs ≠ []
  | PollNeedFetches _ => False
  | PollWaiting _ => waiting j
  | PollIgnoredStaleCompletion => True
  | _ => over j p
  end.

Lemma next_poll_cases p j : next_ok p j →
  match p with
  | PollWaiting _ => waiting j
  | PollNeedFetches fetches => fetches ≠ [] ∧ waiting j
  | PollPending | PollIgnoredStaleCompletion => False
  | _ => over j p
  end.
Proof.
  intros [[Hw Ha]|Ho]; [by destruct p |]. pose proof Ho as (_ & _ & _ & (t & _ & ->) & _).
  by destruct t.
Qed.

Lemma loop_next fuel : ∀ j (h : H) p fs r j' h',
  loop_ok j p fs → completion_loop as_str any_value fuel j h p fs = Ret (r, j', h') →
  match r with inl d => rest j' ∧ drive_ok d j' | inr (p', fs') => loop_ok j' p' fs' end.
Proof.
  induction fuel as [|fuel IH]; intros j h p fs r j' h' Hl E; [done |]. simpl in E.
  destruct (queued_completions j) as [|c cs] eqn:Eq; [by injection E as <- <- <- |].
  inv_run. destruct r0 as [[p1 j1] h1]. destruct Hl as ((Hr & Hi) & Hfs & Hp).
  assert (j.(state) ≠ Initial) as Hni by (intros Hx; destruct (Hi Hx); congruence).
  assert (rest (set_completions j cs)) as Hr1.
  { destruct Hr as [Hj|[Hw|(p0 & Ho)]]; [by rewrite Hj in Hni | |]; right.
    - left. by apply (waiting_queues j cs (joined_fetches j)).
    - right. by exists p0. }
  apply resume_next in E0; [| done].
  destruct E0 as [(-> & -> & ->)|(Hw & _ & Hn)].
  - apply IH in E; [done |]. split_and!; [done | done | | done].
    intros Hf. by apply (waiting_queues j cs (joined_fetches j)), Hfs.
  - pose proof (next_poll_cases p1 j1 Hn) as Hc.
    assert (waiting j) as Hw0.
    { destruct Hr as [Hj|[?|(p0 & Ho)]]; [by rewrite Hj in Hni | done |]. by destruct (not_over_waiting _ p0 Hw). }
    assert (waiting j1 → j1.(state) ≠ Initial) as Hni1 by (intros [Hx _]; apply (core_running j1 Hx)).
    destruct p1; try done;
      try (injection E as <- <- <-; split; [right; right; by eexists | done]).
    + destruct Hc as [Hne Hw1]. apply IH in E; [done |]. split_and!.
      * right. by left.
      * intros Hx. by destruct (Hni1 Hw1).
      * done.
      * destruct p; try done; try (by destruct (not_over_waiting j _ Hw0 Hp)). by destruct fs.
    + apply IH in E; [done |]. split_and!; [right; by left | intros Hx; by destruct (Hni1 Hc) | done | done].
Qed.
(** A job's calls, in any order, and their answers. *)
Inductive TreeCall :=
  | CallPoll
  | CallResume (client : SingleModuleClientToken) (outcome : ModuleFetchOutcome Url)
  | CallCancel (reason : ModuleTreeAbortReason)
  | CallDrive (fuel : nat)
  | CallResumeDrive (fuel : nat) (client : SingleModuleClientToken) (outcome : ModuleFetchOutcome Url).

Inductive TreeAnswer :=
  | AnswerPoll (p : ModuleScriptTreePoll Url)
  | AnswerDrive (d : ModuleScriptTreeDrive Url).

Definition tree_call (t : TreeCall) (j : job) (h : H) : run (TreeAnswer * job * H) :=
  match t with
  | CallPoll => '(p, j, h) ← poll as_str any_value j h; mret (AnswerPoll p, j, h)
  | CallResume c o =>
      '(p, j, h) ← resume_single_module_outcome as_str any_value j h c o; mret (AnswerPoll p, j, h)
  | CallCancel r => let '(p, j) := cancel j r in mret (AnswerPoll p, j, h)
  | CallDrive fuel => '(d, j, h) ← drive as_str any_value fuel j h; mret (AnswerDrive d, j, h)
  | CallResumeDrive fuel c o =>
      '(d, j, h) ← resume_single_module_outcome_and_drive as_str any_value fuel j h c o;
      mret (AnswerDrive d, j, h)
  end.

Fixpoint tree_calls (ts : list TreeCall) (j : job) (h : H) : run (job * H) :=
  match ts with
  | [] => mret (j, h)
  | t :: ts => '(_, j, h) ← tree_call t j h; tree_calls ts j h
  end.

Definition answers_complete (a : TreeAnswer) (g : ModuleGraphHandle Url) : Prop :=
  a = AnswerPoll (PollComplete g) ∨ a = AnswerDrive (DriveComplete g).

Lemma rest_initial j : rest j → j.(state) = Initial → j = job_new j.(root) j.(config).
Proof.
  intros [?|[[Hc _]|(p & He & _)]] Hi; [done | |].
  - by destruct (core_running j Hc) as (_ & _ & ?).
  - by rewrite Hi in He.
Qed.

Lemma drive_queued_next fuel j (h : H) p d j' h' :
  rest j → p = PollIgnoredStaleCompletion ∨ next_ok p j →
  drive_queued_completions as_str any_value fuel j h p = Ret (d, j', h') → rest j' ∧ drive_ok d j'.
Proof.
  intros Hr Hp. unfold drive_queued_completions.
  destruct (match p with PollNeedFetches fetches => (fetches, PollPending) | p => ([], p) end)
    as [fs p1] eqn:E1.
  assert (loop_ok j p1 fs) as Hl.
  { split_and!.
    - done.
    - intros Hi. by rewrite (rest_initial j Hr Hi).
    - intros Hfs. destruct Hp as [->|Hn]; [by injection E1 as <- |]. apply next_poll_cases in Hn.
      destruct p; try done; injection E1 as <- <-; done || by destruct Hn.
    - destruct Hp as [->|Hn]; [by injection E1 as <- <- |]. apply next_poll_cases in Hn.
      destruct p; try done; injection E1 as <- <-; done || by destruct Hn. }
  intros E. inv_run. destruct r as [[r j1] h1]. apply loop_next in E0; [| done].
  destruct r as [d1|[p2 fs2]]; [by inv_run |].
  destruct E0 as ([Hr1 _] & Hfs & Hp2).
  assert (waiting j1 → waiting (set_joined j1 [])) as Hw
    by (apply (waiting_queues j1 (queued_completions j1) [])).
  assert (rest (set_joined j1 [])) as Hr2.
  { destruct Hr1 as [Hj|[?|(p0 & Ho)]]; [left; by rewrite Hj | right; left; auto |].
    right. right. by exists p0. }
  destruct fs2 as [|f fs2]; inv_run; (split; [done |]); [| split; [done | by apply Hw, Hfs]].
  destruct p2; try done. by apply Hw.
Qed.

Lemma tree_call_ok t j (h : H) a j' h' :
  rest j → tree_call t j h = Ret (a, j', h') →
  rest j' ∧ ∀ g, answers_complete a g → over j' (PollComplete g).
Proof.
  intros Hr. unfold answers_complete. destruct t as [|c o|r|fuel|fuel c o]; simpl; intros E.
  - inv_run. destruct r as [[p j1] h1]. inv_run. apply poll_next in E0; [| done].
    split; [by apply (next_rest p) |]. intros g [[= ->]|?]; [| done]. by apply next_poll_cases in E0.
  - inv_run. destruct r as [[p j1] h1]. inv_run.
    apply resume_next in E0 as [(-> & -> & ->)|(_ & _ & Hn)]; [split; naive_solver | | done].
    split; [by apply (next_rest p) |]. intros g [[= ->]|?]; [| done]. by apply next_poll_cases in Hn.
  - inv_run. split; [| naive_solver]. right. right. exists (PollAborted r).
    split_and!; try done. by eexists.
  - unfold drive in E. inv_run. destruct r as [[d j1] h1], r0 as [[p j2] h2]. inv_run.
    apply poll_next in E1; [| done]. apply drive_queued_next in E0 as [? Hd]; [| by apply (next_rest p) | by right].
    split; [done |]. intros g [?|[= ->]]; done.
  - unfold resume_single_module_outcome_and_drive in E. inv_run.
    destruct r as [[d j1] h1], r0 as [[p j2] h2]. inv_run. apply resume_next in E1; [| done]. apply drive_queued_next in E0 as [? Hd].
    + split; [done |]. intros g [?|[= ->]]; done.
    + destruct E1 as [(-> & -> & ->)|(_ & _ & Hn)]; [done | by apply (next_rest p)].
    + destruct E1 as [(-> & -> & ->)|(_ & _ & Hn)]; auto.
Qed.

Lemma tree_calls_rest ts : ∀ j (h : H) j' h',
  rest j → tree_calls ts j h = Ret (j', h') → rest j'.
Proof.
  induction ts as [|t ts IH]; intros j h j' h' Hr E; simpl in E; inv_run; [done |].
  destruct r as [[a j1] h1]. apply tree_call_ok in E0 as [? _]; [| done]. by apply (IH j1 h1 j' h').
Qed.

Lemma rest_new root cfg : rest (job_new root cfg).
Proof. by left. Qed.

(** ** Exploration: what a complete graph contains *)

(** Every import the module lists is an edge, to the key the host resolved
    the import to. *)
Definition explored (j : job) (e : ModuleEntryId) : Prop :=
  ∃ (h : H) (sn : ModuleDependencySnapshot Url), module_dependencies h e = inl sn ∧
  ∀ r, r ∈ sn.(requested_modules) → ∃ d, d ∈ j.(dependency_edges) ∧
    d.(edge_parent_entry) = sn.(dep_entry) ∧ d.(edge_specifier) = r.(record_specifier) ∧
    d.(edge_attributes) = r.(record_attributes) ∧ d.(edge_phase) = r.(record_phase) ∧
    ∃ (h1 h2 : H) base res,
      resolve_module_request h1 r.(record_specifier) base r.(record_attributes) r.(record_phase)
        = (inl res, h2) ∧ d.(edge_child_key) = res.(resolved_key).

(** The root asked for, and the child of every edge, were loaded for their
    phase or a stronger one; the root's entry is recorded for that phase, and
    the imports of every module recorded for evaluation are edges. *)
Definition complete_graph (input : ModuleRootInput Url) (j : job) : Prop :=
  (∀ e, e ∈ j.(dependency_edges) →
     ∃ ph, (e.(edge_child_key), ph) ∈ j.(finished) ∧ strongest ph e.(edge_phase) = ph) ∧
  (let '(k, want) := root_request input in
   j.(root_key) = Some k ∧ (∃ ph, (k, ph) ∈ j.(finished) ∧ strongest ph want = ph) ∧
   ∃ e ph, j.(root_entry) = Some e ∧ j.(entry_phases) !! e = Some ph ∧ strongest ph want = ph) ∧
  (∀ e, j.(entry_phases) !! e = Some Evaluation → explored j e).

(** Neither a parse error nor another failure so far. *)
Definition unfailed (j : job) : Prop :=
  j.(parse_errors) = ∅ ∧
  match j.(terminal) with None | Some (TerminalComplete _) => True | _ => False end.

(** The entry [skip] may still have to be explored. *)
Record exploring (input : ModuleRootInput Url) (skip : option ModuleEntryId) (j : job) : Prop := {
  ex_input : j.(root) = input;
  ex_top : ∀ l, outstanding j l → l.(load_level) = TopLevel → l.(load_phase) = (root_request input).2;
  ex_root : ∀ e, j.(root_entry) = Some e →
    ∃ ph, j.(entry_phases) !! e = Some ph ∧ strongest ph (root_request input).2 = ph;
  ex_explored : ∀ e, unfailed j → Some e ≠ skip →
    j.(entry_phases) !! e = Some Evaluation → explored j e }.

Lemma explored_mono (j j' : job) e :
  (∀ d, d ∈ j.(dependency_edges) → d ∈ j'.(dependency_edges)) → explored j e → explored j' e.
Proof.
  intros Hd (h & sn & Hm & Hr). exists h, sn. split; [done |].
  intros r (d & ? & ?)%Hr. exists d. auto.
Qed.

Lemma exploring_weaken input s s' (j j' : job) :
  exploring input s j → j'.(root) = j.(root) → (∀ l, outstanding j' l → outstanding j l) →
  j'.(root_entry) = j.(root_entry) → j'.(entry_phases) = j.(entry_phases) →
  (∀ d, d ∈ j.(dependency_edges) → d ∈ j'.(dependency_edges)) →
  (unfailed j' → unfailed j ∧ (s' = s ∨ ∃ e, s = Some e ∧ explored j' e)) → exploring input s' j'.
Proof.
  intros [Hi Ht Hr He] E1 Ho E2 E3 Hd Hu. constructor; rewrite ?E1, ?E2, ?E3; auto.
  intros e Hun Hs Hph. destruct (Hu Hun) as [Hun' [->|(x & -> & Hx)]].
  - apply (explored_mono j); auto.
  - destruct (decide (e = x)) as [->|]; [done |]. apply (explored_mono j); [done |]. apply He; congruence.
Qed.

(** A job that failed has nothing left to explore. *)
Lemma failed_exploring input s j j0 e :
  exploring input s j → j0.(root) = j.(root) → j0.(root_entry) = j.(root_entry) →
  j0.(entry_phases) = j.(entry_phases) → exploring input None (fail j0 e).2.
Proof.
  intros [Hi _ Hr _] E1 E2 E3. constructor; simpl; rewrite ?E1, ?E2, ?E3; [done | | done | by intros e' [_ ?]].
  intros l [[c Hc]|(r & Hr' & _)]; simpl in *; [by rewrite lookup_empty in Hc | by apply not_elem_of_nil in Hr'].
Qed.

Lemma exploring_fail input s j e : exploring input s j → exploring input None (fail j e).2.
Proof. intros Hx. by apply (failed_exploring input s j). Qed.

(** Once a module failed to parse, nothing is explored any more. *)
Lemma exploring_parse_error input s j k e :
  exploring input s j → exploring input None (record_parse_error j k e).
Proof.
  intros Hx. pose proof (record_parse_error_nonempty j k e) as Hne.
  apply (exploring_weaken input s None j); [done |..]; try (by intros [? _]);
    unfold record_parse_error; by case_match.
Qed.

Lemma exploring_flush input s j (h : H) :
  exploring input s j → exploring input s (flush_or_wait j h).1.2.
Proof.
  intros Hx. unfold flush_or_wait. destruct (queued_fetches j) as [|r rs] eqn:Eq.
  { by case_decide. }
  pose proof (register_all_spec (r :: rs) j h) as Hr.
  destruct (register_all (r :: rs) j h) as [[f j'] h']. destruct Hr as (Hp & Hs & Hq & _).
  assert (exploring input s j') as Hx'.
  { destruct Hs as (_ & E2 & _ & E4 & _ & _ & _ & E8 & E9 & _ & _ & _ & E13 & E14).
    apply (exploring_weaken input s s j); try done; [| by rewrite E8 |].
    - intros l [[c Hc]|(r' & Hr' & _)]; [| rewrite Hq in Hr'; by apply not_elem_of_nil in Hr'].
      rewrite Hp in Hc. apply registered_inv in Hc as [?|(r' & ? & _ & ?)]; [by left; eexists |].
      right. exists r'. by rewrite Eq.
    - unfold unfailed. rewrite E2, E9. auto. }
  destruct f; [by case_decide | done].
Qed.

Lemma exploring_link input j (h : H) :
  j.(terminal) = None → exploring input None j →
  exploring input None (link_if_ready any_value j h).1.2.
Proof.
  intros Ht Hx. unfold link_if_ready. destruct (idle j) eqn:Hi; simpl; [| by apply exploring_flush].
  destruct (first_parse_error any_value j) eqn:Hf; [by apply (exploring_fail input None) |].
  apply first_parse_error_none in Hf.
  destruct (root_entry j) as [e|] eqn:Hr; [| by apply (exploring_fail input None)].
  destruct (link_module_graph h e (entries j) (dependency_edges j)) as [[g|err] h'];
    [| by apply (failed_exploring input None j)].
  apply (exploring_weaken input None None j); try done. intros _. split; [| by left]. split; [done |].
  by rewrite Ht.
Qed.

Lemma exploring_after_parse_error input s j (h : H) :
  j.(parse_errors) ≠ ∅ → exploring input s j →
  exploring input None (finish_after_parse_error any_value j h).1.2.
Proof.
  intros He Hx. assert (exploring input None j) as Hx'
    by (apply (exploring_weaken input s None j); try done; by intros [? _]).
  unfold finish_after_parse_error. destruct (idle j) eqn:Hi; simpl;
    [by apply (exploring_fail input None) | by apply exploring_flush].
Qed.

Lemma collect_edges sn rs : ∀ (j : job) (h : H) cs cs' j' h',
  collect_dependency_candidates sn rs cs j h = (inl cs', j', h') →
  (∀ d, d ∈ j.(dependency_edges) → d ∈ j'.(dependency_edges)) ∧
  ∀ r, r ∈ rs → ∃ d, d ∈ j'.(dependency_edges) ∧
    d.(edge_parent_entry) = sn.(dep_entry) ∧ d.(edge_specifier) = r.(record_specifier) ∧
    d.(edge_attributes) = r.(record_attributes) ∧ d.(edge_phase) = r.(record_phase) ∧
    ∃ (h1 h2 : H) base res,
      resolve_module_request h1 r.(record_specifier) base r.(record_attributes) r.(record_phase)
        = (inl res, h2) ∧ d.(edge_child_key) = res.(resolved_key).
Proof.
  induction rs as [|r rs IH]; intros j h cs cs' j' h' E; simpl in E.
  { injection E as <- <- <-. split; [done |]. by intros r Hr%not_elem_of_nil. }
  destruct (resolve_module_request h (record_specifier r) (dep_base_url sn) (record_attributes r)
    (record_phase r)) as [[res|err] h1] eqn:Eres; [| done].
  destruct (collect_request j sn r res cs) as [cs1 j1] eqn:Ec.
  assert (∃ d, j1.(dependency_edges) = j.(dependency_edges) ++ [d] ∧
    d.(edge_parent_entry) = sn.(dep_entry) ∧ d.(edge_specifier) = r.(record_specifier) ∧
    d.(edge_attributes) = r.(record_attributes) ∧ d.(edge_phase) = r.(record_phase) ∧
    d.(edge_child_key) = res.(resolved_key)) as (d & Hd & ? & ? & ? & ? & ?).
  { unfold collect_request, record_module_order in Ec. cbv zeta in Ec.
    destruct (queued_or_visited j !! resolved_key res), (merge_candidate _ _ _);
      simpl in Ec; try case_bool_decide; injection Ec as _ <-; by eexists. }
  apply IH in E as [Hmono Hnew]. split.
  - intros d' Hd'. apply Hmono. rewrite Hd. set_solver.
  - intros r' [->|Hr']%elem_of_cons; [| by apply Hnew]. exists d. split_and!; try done.
    + apply Hmono. rewrite Hd. set_solver.
    + by exists h, h1, (dep_base_url sn), res.
Qed.

Lemma exploring_queued input s (j j' : job) sn pr cs :
  exploring input s j → queue_candidates as_str sn pr cs j = Ret j' → exploring input s j'.
Proof.
  intros Hx Hq. apply queue_candidates_spec in Hq as (new & Hf & _ & Hd & _ & Hj).
  pose proof Hx as [Hi Ht Hr He]. constructor.
  - by rewrite Hj.
  - intros l [[c Hc]|(r & Hr' & <-)] Hl.
    + rewrite Hj in Hc. apply Ht; [left; by exists c | done].
    + rewrite Hf in Hr'. apply elem_of_app in Hr' as [Hr'|Hr'].
      * apply Ht; [right; by exists r | done].
      * rewrite Forall_forall in Hd. specialize (Hd r Hr'). simpl in Hl. congruence.
  - by rewrite Hj.
  - intros e Hu Hs Hph. rewrite Hj in Hu, Hph. apply (explored_mono j); [by rewrite Hj | by apply He].
Qed.

Lemma exploring_flush_or_link input j (h : H) :
  j.(terminal) = None → exploring input None j →
  exploring input None (flush_or_link any_value j h).1.2.
Proof.
  intros Ht Hx. unfold flush_or_link.
  destruct (queued_fetches j) eqn:E; [by apply exploring_link | by apply exploring_flush].
Qed.

Lemma collect_same_work sn rs : ∀ (j : job) (h : H) cs,
  same_work j (collect_dependency_candidates sn rs cs j h).1.2.
Proof.
  induction rs as [|r rs IH]; intros j h cs; simpl; [done |].
  destruct (resolve_module_request h (record_specifier r) (dep_base_url sn) (record_attributes r)
    (record_phase r)) as [[res|err] h1]; [| done].
  pose proof (collect_request_job j sn r res cs) as Hj.
  destruct (collect_request j sn r res cs) as [cs1 j1]. destruct Hj as (Hs1 & _).
  specialize (IH j1 h1 cs1). unfold same_work in *. destruct_and?. split_and!; congruence.
Qed.

Lemma same_work_outstanding (j j' : job) l : same_work j j' → outstanding j' l → outstanding j l.
Proof.
  intros (_ & _ & _ & _ & _ & E6 & E7 & _) [[c Hc]|(r & Hr & ?)];
    [left; exists c; by rewrite <-E6 | right; exists r; by rewrite <-E7].
Qed.

Lemma exploring_discover input j (h : H) e p j' h' :
  j.(terminal) = None → exploring input (Some e) j →
  discover_dependencies as_str any_value j h e = Ret (p, j', h') → exploring input None j'.
Proof.
  intros Ht Hx. unfold discover_dependencies. destruct (module_dependencies h e) as [sn|err] eqn:Em.
  2: { intros [= <- <- <-]. by apply (exploring_fail input (Some e)). }
  cbv zeta. set (sn' := dependency_snapshot_with_tree_context j sn).
  assert (requested_modules sn' = requested_modules sn ∧ dep_entry sn' = dep_entry sn) as [Er Ed]
    by (unfold sn', dependency_snapshot_with_tree_context; by case_match).
  rewrite Er. destruct (requested_modules sn) as [|r rs] eqn:Ers.
  { assert (exploring input None j) as Hx0.
    { apply (exploring_weaken input (Some e) None j); try done. intros Hu. split; [done |]. right.
      exists e. split; [done |]. exists h, sn. split; [done |]. rewrite Ers. by intros r Hr%not_elem_of_nil. }
    pose proof (exploring_link input j h Ht Hx0) as Hl. intros [= E]. by rewrite E in Hl. }
  pose proof (collect_edges sn' (r :: rs) j h []) as Hedges.
  pose proof (collect_same_work sn' (r :: rs) j h []) as Hs.
  destruct (collect_dependency_candidates sn' (r :: rs) [] j h) as [[[cs|err] j1] h1]; simpl in Hs.
  - destruct (Hedges cs j1 h1 eq_refl) as [Hmono Hnew].
    pose proof Hs as (_ & E2 & _ & E4 & _ & _ & _ & E8 & _ & _ & _ & E12 & E13).
    assert (exploring input None j1) as Hx1.
    { apply (exploring_weaken input (Some e) None j); try done; [by intros l; apply same_work_outstanding |].
      intros [? ?]. unfold unfailed. rewrite <-E2, <-E8. split; [done |]. right. exists e. split; [done |].
      exists h, sn. split; [done |]. rewrite Ers, <-Ed. exact Hnew. }
    intros Hq. inv_run. pose proof (exploring_queued input None _ _ _ _ _ Hx1 E) as Hx2.
    apply queue_candidates_spec in E as (new & _ & _ & _ & _ & Hj).
    pose proof (exploring_flush_or_link input r0 h1) as Hl. rewrite Hq in Hl. apply Hl; [| done].
    rewrite Hj. simpl. congruence.
  - intros [= <- <- <-]. pose proof Hs as (_ & _ & _ & ? & _ & _ & _ & _ & _ & _ & _ & ? & ?).
    by apply (failed_exploring input (Some e) j).
Qed.

(** ** Exploration across the calls *)
Lemma load_error_exploring input j (h : H) k e p j' h' :
  exploring input None j → finish_module_load_error any_value j h k e = (p, j', h') →
  exploring input None j'.
Proof.
  intros Hx. unfold finish_module_load_error. destruct (negb (is_parse_error e)).
  - intros [= <- <- <-]. by apply (exploring_fail input None).
  - pose proof (record_parse_error_nonempty j (default k (error_key e)) e) as Hne.
    apply (exploring_parse_error input None j (default k (error_key e)) e) in Hx.
    intros E. pose proof (exploring_after_parse_error input None _ h Hne Hx) as Hn. by rewrite E in Hn.
Qed.

Lemma load_outcome_exploring input l j (h : H) o :
  j.(terminal) = None → exploring input None j →
  match load_outcome any_value j h l o with
  | inl (_, _, err, j', _) => j'.(terminal) = None ∧ exploring input None j' ∧
                              (err = true → j'.(parse_errors) ≠ ∅)
  | inr (_, j', _) => exploring input None j'
  end.
Proof.
  intros Ht Hx.
  assert (∀ k e, (record_parse_error j k e).(terminal) = None ∧
    exploring input None (record_parse_error j k e) ∧
    (true = true → (record_parse_error j k e).(parse_errors) ≠ ∅)) as Herr.
  { intros k e. split_and!; [unfold record_parse_error; by case_match | by apply (exploring_parse_error input None) |].
    intros _. apply record_parse_error_nonempty. }
  destruct o as [source|m|e]; simpl; [| done |].
  - destruct (compile_module_source h source (load_phase l)) as [[compiled|e] h1].
    + destruct (parse_error compiled) as [e|]; [apply Herr |].
      destruct (has_parse_error compiled); [apply Herr | done].
    + destruct (mark_module_failed h1 (load_key l) e) as [en h2].
      destruct (finish_module_load_error any_value j h2 (load_key l) e) as [[p j'] h'] eqn:E.
      by apply (load_error_exploring input) in E.
  - destruct (finish_module_load_error any_value j h (load_key l) e) as [[p j'] h'] eqn:E.
    by apply (load_error_exploring input) in E.
Qed.

(** The entry of a load, with the phase it had or the stronger new one. *)
Lemma entered_phases j l en c e :
  (entered j l en c).(entry_phases) !! e =
  if decide (e = en) then Some (match j.(entry_phases) !! en with
                                | Some stored => strongest stored l.(load_phase)
                                | None => l.(load_phase)
                                end)
  else j.(entry_phases) !! e.
Proof.
  unfold entered, add_entry, record_entry_context. destruct (decide (load_level l = TopLevel)); simpl;
    destruct (entry_contexts j !! en); simpl;
    (destruct (decide (e = en)) as [->|]; [by rewrite lookup_insert_eq | by rewrite lookup_insert_ne]).
Qed.

Lemma entered_same_work j l en c :
  (entered j l en c).(root) = j.(root) ∧ (entered j l en c).(terminal) = j.(terminal) ∧
  (entered j l en c).(parse_errors) = j.(parse_errors) ∧
  (entered j l en c).(dependency_edges) = j.(dependency_edges) ∧
  (entered j l en c).(pending_clients) = j.(pending_clients) ∧
  (entered j l en c).(queued_fetches) = j.(queued_fetches) ∧
  (entered j l en c).(root_entry) = if decide (l.(load_level) = TopLevel) then Some en else j.(root_entry).
Proof.
  unfold entered, record_entry_context. destruct (decide (load_level l = TopLevel)); simpl;
    by destruct (entry_contexts j !! en).
Qed.

Lemma entered_exploring input j l en c :
  (l.(load_level) = TopLevel → l.(load_phase) = (root_request input).2) → exploring input None j →
  exploring input (Some en) (entered j l en c) ∧
  (l.(load_phase) = Source → exploring input None (entered j l en c)).
Proof.
  intros Hl [Hi Ht Hr He]. destruct (entered_same_work j l en c) as (E1 & E2 & E3 & E4 & E5 & E6 & E7).
  assert (∀ skip, (∀ e, unfailed j → Some e ≠ skip →
    (entered j l en c).(entry_phases) !! e = Some Evaluation → explored j e) →
    exploring input skip (entered j l en c)) as Hmk.
  { intros skip Hex. constructor; [congruence | | |].
    - intros l' [[c' Hc']|(r & Hr' & ?)]; apply Ht;
        [left; exists c'; congruence | right; exists r; by rewrite <-E6].
    - intros e. rewrite E7, entered_phases. case_decide as Htop.
      + intros [= <-]. rewrite decide_True by done. eexists. split; [done |]. rewrite Hl by done.
        destruct (entry_phases j !! en); [apply strongest_upper_r | apply strongest_idemp].
      + intros (ph & Hph & Hs)%Hr. case_decide; [subst e | by exists ph]. rewrite Hph.
        eexists. split; [done |]. by destruct ph, (load_phase l), (root_request input).2.
    - intros e [Hu1 Hu2] Hs Hph. apply (explored_mono j); [by rewrite E4 |].
      apply Hex; [| done | done]. split; [congruence | by rewrite <-E2]. }
  split; [| intros Hsrc]; apply Hmk; intros e Hu Hs; rewrite entered_phases;
    (destruct (decide (e = en)) as [->|]; [| by apply He]); [done |].
  rewrite Hsrc. destruct (entry_phases j !! en) as [[]|] eqn:Een; intros [=]. by apply He.
Qed.

Lemma exploring_finish_load input l j (h : H) o p j' h' :
  j.(terminal) = None → (l.(load_level) = TopLevel → l.(load_phase) = (root_request input).2) →
  exploring input None j →
  finish_module_load as_str any_value j h l o = Ret (p, j', h') → exploring input None j'.
Proof.
  intros Ht Hl Hx. unfold finish_module_load. pose proof (load_outcome_exploring input l j h o Ht Hx) as Ho.
  destruct (load_outcome any_value j h l o) as [[[[[en c] err] j1] h1]|[[p1 j1] h1]];
    [| by intros [= <- <- <-]].
  destruct Ho as (Ht1 & Hx1 & Herr). destruct (entered_exploring input j1 l en c Hl Hx1) as [Hx2 Hsrc].
  destruct (entered_same_work j1 l en c) as (_ & E2 & E3 & _). rewrite Ht1 in E2. cbv zeta.
  match goal with |- context [if err then mret (finish_after_parse_error _ ?x _) else _] =>
    change x with (entered j1 l en c) end.
  destruct err; [| case_decide as Hph].
  - intros [= E]. rewrite <-E3 in Herr.
    pose proof (exploring_after_parse_error input (Some en) _ h1 (Herr eq_refl) Hx2) as Hn. by rewrite E in Hn.
  - intros [= E]. pose proof (exploring_link input _ h1 E2 (Hsrc Hph)) as Hn. by rewrite E in Hn.
  - by apply exploring_discover.
Qed.

Lemma exploring_resume input j (h : H) c o p j' h' :
  j.(terminal) = None → exploring input None j →
  resume_single_module_outcome as_str any_value j h c o = Ret (p, j', h') → exploring input None j'.
Proof.
  intros Ht Hx. unfold resume_single_module_outcome.
  destruct (pending_clients j !! c) as [l|] eqn:Hc; [| by destruct (state j); intros [= <- <- <-]].
  assert (exploring input None (set_pending j (delete c (pending_clients j)))) as Hx'.
  { apply (exploring_weaken input None None j); try done; [| by intros ?; split; [| left]].
    intros l' [[c' Hc']|?]; [| by right]. left. exists c'. simpl in Hc'.
    by apply lookup_delete_Some in Hc' as [_ ?]. }
  assert (load_level l = TopLevel → load_phase l = (root_request input).2) as Hl
    by (apply (ex_top input None j Hx); left; by exists c).
  destruct (state j); try (by intros [= <- <- <-]); by apply exploring_finish_load.
Qed.

Lemma exploring_new input cfg : exploring input None (job_new input cfg).
Proof.
  constructor; simpl; [done | | done |].
  - intros l [[c Hc]|(r & Hr & _)]; simpl in *; [by rewrite lookup_empty in Hc | by apply not_elem_of_nil in Hr].
  - intros e _ _ He. by rewrite lookup_empty in He.
Qed.

Lemma exploring_start input cfg (h : H) p j' h' :
  start as_str any_value (job_new input cfg) h = Ret (p, j', h') → exploring input None j'.
Proof.
  unfold start. simpl. destruct input as [r|r].
  - rewrite start_external_eq. intros [= E].
    assert (exploring (External r) None (external_started (External r) cfg r)) as Hx.
    { unfold external_started, record_module_order. simpl. constructor; simpl; [done | | done |].
      - intros l [[c Hc]|(r' & Hr & <-)]; simpl in *; [by rewrite lookup_empty in Hc |].
        by apply list_elem_of_singleton in Hr as ->.
      - intros e _ _ He. by rewrite lookup_empty in He. }
    apply (exploring_flush _ _ _ h) in Hx. by rewrite E in Hx.
  - rewrite start_inline_eq.
    assert (exploring (Inline r) (Some r.(inl_root_entry)) (inline_started (Inline r) cfg r) ∧
      (r.(inl_phase) = Source → exploring (Inline r) None (inline_started (Inline r) cfg r))) as [Hx Hs].
    { assert ((inline_started (Inline r) cfg r).(entry_phases) = <[r.(inl_root_entry) := r.(inl_phase)]> ∅
        ∧ (inline_started (Inline r) cfg r).(root_entry) = Some r.(inl_root_entry)
        ∧ (∀ l, ¬ outstanding (inline_started (Inline r) cfg r) l)
        ∧ (inline_started (Inline r) cfg r).(root) = Inline r) as (E1 & E2 & E3 & E4).
      { unfold inline_started, record_module_order, record_entry_context, add_entry. simpl.
        rewrite !lookup_empty. simpl. split_and!; try done.
        intros l [[c Hc]|(r' & Hr & _)]; simpl in *; [by rewrite lookup_empty in Hc | by apply not_elem_of_nil in Hr]. }
      generalize dependent (inline_started (Inline r) cfg r). intros j E1 E2 E3 E4.
      split; [| intros Hsrc]; (constructor; [done | by intros l Hl%E3 | |]).
      1,3: intros e; rewrite E1, E2; intros [= <-]; rewrite lookup_insert_eq; eexists; split;
        [done | apply strongest_idemp].
      all: intros e _ Hs; rewrite E1; intros [[<- ?]|[_ He]]%lookup_insert_Some;
        [congruence | by rewrite lookup_empty in He]. }
    assert ((inline_started (Inline r) cfg r).(terminal) = None) as Ht
      by (unfold inline_started, record_module_order, record_entry_context; simpl; by rewrite lookup_empty).
    generalize dependent (inline_started (Inline r) cfg r). intros j Hx Hs Ht.
    case_decide as Hph; [| by apply exploring_discover]. intros [= E].
    pose proof (exploring_link _ _ h Ht (Hs Hph)) as Hn. by rewrite E in Hn.
Qed.

Lemma exploring_poll input j (h : H) p j' h' :
  rest j → exploring input None j → poll as_str any_value j h = Ret (p, j', h') → exploring input None j'.
Proof.
  intros Hr Hx. unfold poll. destruct (terminal j) eqn:Ht; [by intros [= <- <- <-] |].
  destruct Hr as [Hj|[(Hc & _)|(p0 & _ & _ & _ & (t & Ht' & _) & _)]]; [| | congruence].
  - rewrite Hj. simpl. pose proof (ex_input _ _ _ Hx) as ->. apply exploring_start.
  - pose proof (exploring_flush input None j h Hx) as Hf. pose proof (core_running j Hc) as (_ & He & Hi).
    destruct (state j); try done; intros [= E]; by rewrite E in Hf.
Qed.

Lemma exploring_completed input s j cs fs :
  exploring input s j → exploring input s (set_joined (set_completions j cs) fs).
Proof. intros Hx. apply (exploring_weaken input s s j); try done. intros ?. by split; [| left]. Qed.

(** Resuming a job that waits or has ended. *)
Lemma exploring_resume_rest input j (h : H) c o p j' h' :
  rest j → exploring input None j →
  resume_single_module_outcome as_str any_value j h c o = Ret (p, j', h') → exploring input None j'.
Proof.
  intros Hr Hx E. pose proof E as E'. apply resume_next in E as [(-> & -> & ->)|(Hw & _ & _)]; [done | | done].
  apply (exploring_resume input j h c o p j' h'); [by apply (core_running j), Hw | done | done].
Qed.

Lemma rest_pop j c cs : rest j → j.(queued_completions) = c :: cs → rest (set_completions j cs).
Proof.
  intros [Hj|[Hw|(p & Ho)]] Eq; [by rewrite Hj in Eq | |]; right.
  - left. by apply (waiting_queues j cs (joined_fetches j)).
  - right. by exists p.
Qed.

Lemma exploring_loop input fuel : ∀ j (h : H) p fs r j' h',
  rest j → exploring input None j →
  completion_loop as_str any_value fuel j h p fs = Ret (r, j', h') → exploring input None j'.
Proof.
  induction fuel as [|fuel IH]; intros j h p fs r j' h' Hr Hx E; [done |]. simpl in E.
  destruct (queued_completions j) as [|c cs] eqn:Eq; [by injection E as <- <- <- |].
  inv_run. destruct r0 as [[p1 j1] h1]. pose proof (rest_pop j c cs Hr Eq) as Hr1.
  apply (exploring_completed input None j cs (joined_fetches j)) in Hx.
  assert (rest j1) as Hr2.
  { apply resume_next in E0 as [(_ & -> & _)|(_ & _ & Hn)]; [done | by apply (next_rest p1) | done]. }
  apply (exploring_resume_rest input) in E0; [| done | exact Hx].
  destruct p1; try (by injection E as <- <- <-); by apply IH in E.
Qed.

Lemma exploring_drive input fuel j (h : H) p d j' h' :
  rest j → exploring input None j →
  drive_queued_completions as_str any_value fuel j h p = Ret (d, j', h') → exploring input None j'.
Proof.
  intros Hr Hx. unfold drive_queued_completions.
  destruct (match p with PollNeedFetches fetches => (fetches, PollPending) | p => ([], p) end) as [fs p1].
  intros E. inv_run. destruct r as [[r j1] h1]. apply (exploring_loop input) in E0; [| done | done].
  destruct r as [d1|[p2 fs2]]; [by inv_run |].
  apply (exploring_completed input None j1 (queued_completions j1) []) in E0.
  destruct fs2; inv_run; exact E0.
Qed.

Lemma tree_call_exploring input t j (h : H) a j' h' :
  rest j → exploring input None j → tree_call t j h = Ret (a, j', h') → exploring input None j'.
Proof.
  intros Hr Hx. destruct t as [|c o|r|fuel|fuel c o]; simpl; intros E.
  - inv_run. destruct r as [[p j1] h1]. inv_run. by apply (exploring_poll input) in E0.
  - inv_run. destruct r as [[p j1] h1]. inv_run. by apply (exploring_resume_rest input) in E0.
  - inv_run. destruct Hx as [Hi _ Hro _]. constructor; simpl; [done | | done | by intros e [_ ?]].
    intros l [[c Hc]|(r' & Hr' & _)]; simpl in *; [by rewrite lookup_empty in Hc | by apply not_elem_of_nil in Hr'].
  - unfold drive in E. inv_run. destruct r as [[d j1] h1], r0 as [[p j2] h2]. inv_run.
    pose proof E1 as E2. apply poll_next in E2; [| done]. apply (exploring_poll input) in E1; [| done..].
    apply (exploring_drive input) in E0; [done | by apply (next_rest p) | done].
  - unfold resume_single_module_outcome_and_drive in E. inv_run.
    destruct r as [[d j1] h1], r0 as [[p j2] h2]. inv_run. pose proof E1 as E2.
    apply (exploring_resume_rest input) in E1; [| done..].
    apply (exploring_drive input) in E0; [done | | done].
    apply resume_next in E2 as [(_ & -> & _)|(_ & _ & Hn)]; [done | by apply (next_rest p) | done].
Qed.

Lemma tree_calls_exploring input ts : ∀ j (h : H) j' h',
  rest j → exploring input None j → tree_calls ts j h = Ret (j', h') → exploring input None j'.
Proof.
  induction ts as [|t ts IH]; intros j h j' h' Hr Hx E; simpl in E; inv_run; [done |].
  destruct r as [[a j1] h1]. pose proof E0 as E1. apply tree_call_ok in E1 as [? _]; [| done].
  apply (tree_call_exploring input) in E0; [| done..]. by apply (IH j1 h1 j' h').
Qed.

(** A job that linked its graph has it complete. *)
Lemma over_complete input j g :
  exploring input None j → over j (PollComplete g) → complete_graph input j.
Proof.
  intros [Hi _ Hr He] (_ & _ & _ & (t & Ht & Hp) & [Hedges Hroot] & Hpe & e & h0 & h1 & Hentry & _).
  destruct (Hr e Hentry) as (ph & Hph & Hs). split_and!; [done | |].
  - rewrite Hi in Hroot. destruct (root_request input) as [k want]. destruct Hroot as [? ?].
    split_and!; [done | done |]. by exists e, ph.
  - intros e' He'. apply He; [| done | done]. split; [done |]. rewrite Ht. by destruct t.
Qed.

(** C6: whatever the host answers and in whatever order a job is polled,
    resumed, driven and cancelled, a call that answers with a complete graph
    leaves a job in which the root the job was given and the child of every
    dependency edge were loaded for their phase or a stronger one, every
    import listed by a module recorded for evaluation is an edge to the key
    the host resolved it to, and the root's entry is recorded for the phase
    asked for; no module failed to parse, no fetch is queued and no client
    waited for, and the graph is what the host linked from exactly the job's
    root entry, entries and edges. *)
Theorem only_complete_graphs_linked root cfg ts t (h : H) j h1 a j' h' g :
  tree_calls ts (job_new root cfg) h = Ret (j, h1) →
  tree_call t j h1 = Ret (a, j', h') → answers_complete a g →
  complete_graph root j' ∧ j'.(parse_errors) = ∅ ∧ j'.(pending_clients) = ∅ ∧
  j'.(queued_fetches) = [] ∧ linked j' g.
Proof.
  intros Hts Ht Ha. pose proof Hts as Hx. apply tree_calls_rest in Hts; [| apply rest_new].
  apply (tree_calls_exploring root) in Hx; [| apply rest_new | apply exploring_new].
  pose proof Ht as Hx'. apply (tree_call_exploring root) in Hx'; [| done..].
  apply tree_call_ok in Ht as [_ Ho]; [| done]. specialize (Ho g Ha).
  pose proof (over_complete root j' g Hx' Ho). by destruct Ho as (_ & ? & ? & _ & _ & ? & ?).
Qed.

(** A job that has ended answers every poll with its ending and ignores
    every completion, a job at work ignores completions of clients it does not
    wait for, none of which changes the job or the host; a job is ended
    exactly when it holds its ending, and one that was started and has not
    ended waits for some client. *)
Theorem endings_absorb root cfg ts (h : H) j h1 :
  tree_calls ts (job_new root cfg) h = Ret (j, h1) →
  (∀ t, j.(terminal) = Some t →
     poll as_str any_value j h1 = Ret (poll_terminal t, j, h1) ∧
     ∀ c o, resume_single_module_outcome as_str any_value j h1 c o
            = Ret (PollIgnoredStaleCompletion, j, h1)) ∧
  (∀ c o, j.(pending_clients) !! c = None →
     resume_single_module_outcome as_str any_value j h1 c o = Ret (PollIgnoredStaleCompletion, j, h1)) ∧
  (ended j.(state) = true ↔ is_Some j.(terminal)) ∧
  (ended j.(state) = false → j.(state) ≠ Initial → j.(pending_clients) ≠ ∅).
Proof.
  intros Hts. apply tree_calls_rest in Hts; [| apply rest_new].
  assert (ended (state j) = true ↔ is_Some (terminal j)) as Hend.
  { destruct Hts as [Hj|[[Hc _]|(p & He & _ & _ & (t & Ht & _) & _)]].
    - rewrite Hj. simpl. split; [done | by intros []].
    - destruct (core_running j Hc) as (-> & -> & _). split; [done | by intros []].
    - rewrite He, Ht. done. }
  split_and!; [| | done |].
  - intros t Ht. unfold poll, resume_single_module_outcome. rewrite Ht. split; [done |]. intros c o.
    rewrite Ht in Hend. destruct (state j); try done; destruct Hend as [_ Hend]; by discriminate Hend.
  - intros c o Hc. unfold resume_single_module_outcome. rewrite Hc. by destruct (state j).
  - intros He Hi. destruct Hts as [Hj|[(_ & _ & ?)|(p & ? & _)]]; [by rewrite Hj in Hi | done | congruence].
Qed.
End graph.

(** ** A host for the witnesses: module 0 imports 1 for evaluation and 2 for
    its source, 1 imports 2 for evaluation; 2 is in the module map. *)
Module Demo.
Definition resolved (k : N) (ph : ModuleImportPhase) : ResolvedModuleRequest N :=
  {| resolved_key := key_javascript k; resolved_source_url := k; resolved_base_url := k;
     resolved_kind := JavaScript; resolved_attributes := attributes_empty; resolved_phase := ph;
     resolved_integrity := None |}.

Definition request (s : string) (ph : ModuleImportPhase) : ModuleRequestRecord :=
  {| record_specifier := s; record_attributes := attributes_empty; record_phase := ph;
     record_position := {| line := 0; column := 0 |} |}.

Definition requests (e : ModuleEntryId) : list ModuleRequestRecord :=
  match e with
  | 0 => [request "one" Evaluation; request "two" Source]
  | 1 => [request "two" Evaluation]
  | _ => []
  end.

#[global] Instance host : ModuleScriptTreeHost N unit := {|
  resolve_module_request h s _ _ ph :=
    (if String.eqb s "one" then inl (resolved 1 ph)
     else if String.eqb s "two" then inl (resolved 2 ph)
     else inr (error_new StageResolve "unknown specifier"), h);
  start_or_join_single_module_fetch h r _ :=
    (if r.(req_key).(key_url) =? 2
     then Completed (ReadyOutcome {| ready_entry := 2; ready_key := r.(req_key); ready_base_url := 2;
                                     ready_metadata := metadata_default |})
     else StartedNetworkFetch 0, h);
  compile_module_source h s ph :=
    (inl {| compiled_entry := s.(fetched_key).(key_url); compiled_key := s.(fetched_key);
            compiled_base_url := s.(fetched_base_url); compiled_metadata := s.(fetched_metadata);
            compiled_requested := []; compiled_phase := ph; has_parse_error := false;
            parse_error := None |}, h);
  module_dependencies _ e :=
    inl {| dep_entry := e; dep_key := key_javascript e; dep_base_url := e;
           dep_metadata := metadata_default; requested_modules := requests e |};
  link_module_graph h e es edges :=
    (inl {| graph_root_entry := e; graph_entries := es; graph_entry_phases := ∅;
            graph_dependency_edges := edges |}, h);
  mark_module_failed h _ _ := (0, h) |}.

Definition as_str (n : N) : string := "about:module".
Definition any_value (m : gmap (ModuleMapKey N) (ModuleLoadError N)) : option (ModuleLoadError N) :=
  snd <$> hd_error (map_to_list m).

Lemma any_value_none m : any_value m = None → m = ∅.
Proof.
  unfold any_value. intros Hm. apply map_to_list_empty_iff. by destruct (map_to_list m).
Qed.

Definition fetched (k : N) : ModuleFetchOutcome N :=
  Fetched {| fetched_request_key := key_javascript k; fetched_key := key_javascript k;
             fetched_source_url := k; fetched_base_url := k; fetched_source := SourceText "export default 1;";
             fetched_metadata := metadata_default |}.

Definition root : ModuleRootInput N := External
  {| ext_source_url := 0; ext_base_url := 0; ext_initiator_url := 0;
     ext_attributes := attributes_empty; ext_phase := Evaluation; ext_kind_hint := None;
     ext_fetch_metadata := metadata_default; ext_referrer := referrer_client;
     ext_position := {| line := 0; column := 0 |} |}.

Definition client (n : N) : SingleModuleClientToken := {| client_tree := 0; client_sequence := n |}.

(** The root arrives, then module 1; the other loads complete at once. *)
Definition first_calls : list (TreeCall (Url := N)) := [CallPoll; CallResume (client 0) (fetched 0)].
Definition last_call : TreeCall (Url := N) := CallResumeDrive 20 (client 1) (fetched 1).

Definition before : @ModuleScriptTreeJob N _ _ :=
  match tree_calls as_str any_value first_calls (job_new root config_default) tt with
  | Ret (j, _) => j
  | Panic => job_new root config_default
  end.
Definition after : TreeAnswer (Url := N) * @ModuleScriptTreeJob N _ _ :=
  match tree_call as_str any_value last_call before tt with
  | Ret (a, j, _) => (a, j)
  | Panic => (AnswerPoll PollPending, before)
  end.
Definition graph : ModuleGraphHandle N :=
  match after.1 with
  | AnswerDrive (DriveComplete g) => g
  | _ => {| graph_root_entry := 9; graph_entries := []; graph_entry_phases := ∅; graph_dependency_edges := [] |}
  end.

Example loads_in_order : graph.(graph_entries) = [0; 1; 2].
Proof. vm_compute. reflexivity. Qed.
End Demo.

Lemma only_complete_graphs_linked_witness :
  complete_graph (H := unit) Demo.root Demo.after.2 ∧ parse_errors Demo.after.2 = ∅ ∧ pending_clients Demo.after.2 = ∅ ∧
  queued_fetches Demo.after.2 = [] ∧ linked (H := unit) Demo.after.2 Demo.graph.
Proof.
  apply (only_complete_graphs_linked Demo.as_str Demo.any_value Demo.any_value_none Demo.root
    config_default Demo.first_calls Demo.last_call tt Demo.before tt Demo.after.1 Demo.after.2 tt Demo.graph).
  - vm_compute. reflexivity.
  - vm_compute. reflexivity.
  - right. vm_compute. reflexivity.
Defined.

Lemma endings_absorb_witness :
  ended (state Demo.before) = false ∧ pending_clients Demo.before ≠ ∅ ∧
  (ended (state Demo.after.2) = true ↔ is_Some (terminal Demo.after.2)).
Proof.
  split_and!; [vm_compute; reflexivity | |].
  - apply (endings_absorb Demo.as_str Demo.any_value Demo.any_value_none Demo.root config_default
      Demo.first_calls tt Demo.before tt); vm_compute; (reflexivity || discriminate).
  - apply (endings_absorb Demo.as_str Demo.any_value Demo.any_value_none Demo.root config_default
      (Demo.first_calls ++ [Demo.last_call]) tt Demo.after.2 tt). vm_compute. reflexivity.
Defined.
