(* ===== verification/ModuleTermination.v ===== *)
(** A module-script tree job over a finite graph ends.  The host resolves
    every import into a finite set of keys and reports a bounded number of
    requests per module; a potential then pays for every fetch in advance, so
    that the client counter does not overflow, the loop over synchronous
    completions stops, and a bounded number of completions ends the job. *)
From stdpp Require Import base list numbers option gmap strings relations list_tactics.
From S2P Require Import Prelude ModuleTypes ModuleTree ModuleGraph.

#[local] Open Scope N_scope.

Section termination.
Context {Url : Type} `{EqDecision Url, !Countable Url} (as_str : Url → string).
Context {H : Type} `{!ModuleScriptTreeHost Url H}.
Context (any_value : gmap (ModuleMapKey Url) (ModuleLoadError Url) → option (ModuleLoadError Url)).
Context (any_value_none : ∀ m, any_value m = None → m = ∅).
Context (K : list (ModuleMapKey Url)) (D : N) (K_nodup : NoDup K).
Context (resolves_in : ∀ (h : H) s b at_ ph res h',
  resolve_module_request h s b at_ ph = (inl res, h') → res.(resolved_key) ∈ K).
Context (few_requests : ∀ (h : H) e (sn : ModuleDependencySnapshot Url),
  module_dependencies h e = inl sn → N.of_nat (length sn.(requested_modules)) ≤ D).

#[local] Notation job := (@ModuleScriptTreeJob Url _ _).
#[local] Notation load := (@PendingModuleLoad Url).
#[local] Notation key := (ModuleMapKey Url).

(** ** The potential *)
Definition weight (ph : ModuleImportPhase) : N :=
  match ph with Source => 1 | Evaluation => 1 + 2 * D end.

(** The keys that may still be asked for evaluation. *)
Definition unevaluated (v : gmap key ModuleImportPhase) : N :=
  N.of_nat (length (filter (λ k, v !! k ≠ Some Evaluation) K)).

Definition potential (j : job) : N :=
  map_Nsum (λ l, weight l.(load_phase)) j.(pending_clients)
  + Nsum (λ r, weight r.(req_phase)) j.(queued_fetches)
  + (2 + 2 * D) * unevaluated j.(queued_or_visited).

(** Enough for every job of the host: (2 + 2D)(|K| + 1). *)
Definition tree_bound : N := (2 + 2 * D) * (1 + N.of_nat (length K)).

(** A job with at most [b] left to spend, sequence numbers included, and [s]
    sequence numbers more than completions queued. *)
Definition within (b s : N) (j : job) : Prop :=
  potential j + j.(next_single_client_sequence) ≤ b ∧
  N.of_nat (length j.(queued_completions)) + N.of_nat (length j.(queued_fetches)) + s
    ≤ j.(next_single_client_sequence).

Definition within_unless_over (b s : N) (j : job) : Prop :=
  (j.(terminal) = None → within b s j) ∧ N.of_nat (length j.(queued_completions)) ≤ b.

Lemma within_now b s j : within b s j → within_unless_over b s j.
Proof. intros [Hp Hl]. split; [done | lia]. Qed.

Lemma fail_within b s j e : within_unless_over b s (fail j e).2.
Proof. split; [by intros [=] | simpl; lia]. Qed.

Lemma weight_pos ph : 1 ≤ weight ph.
Proof. destruct ph; simpl; lia. Qed.

Lemma registered_weight m (rs : list (ModuleFetchRequest Url)) :
  (∀ r, r ∈ rs → m !! r.(req_client) = None) → NoDup (map req_client rs) →
  map_Nsum (λ l : load, weight l.(load_phase)) (registered m rs)
  = map_Nsum (λ l : load, weight l.(load_phase)) m + Nsum (λ r, weight r.(req_phase)) rs.
Proof.
  revert m. induction rs as [|r rs IH]; intros m Hm Hn; [simpl; lia |].
  apply NoDup_cons in Hn as [Hr Hn]. change (registered m (r :: rs))
    with (registered (<[r.(req_client) := load_of_request r]> m) rs).
  rewrite IH; [| | done].
  - rewrite map_Nsum_insert by (apply Hm; set_solver). simpl. lia.
  - intros r' Hr'. rewrite lookup_insert_ne; [apply Hm; set_solver |]. intros E. apply Hr.
    rewrite E. by apply (list_elem_of_fmap_2 req_client).
Qed.

(** ** Flushing and ending *)
Lemma flush_within b s j (h : H) :
  core j → idle j = false → within b s j → within b s (flush_or_wait j h).1.2.
Proof.
  intros Hc Hi [Hp Hs]. pose proof (flush_spec j h Hc Hi) as Hf.
  destruct (flush_or_wait j h) as [[p j'] h'].
  destruct Hf as ((_ & Hq & _) & _ & Hg & Hpend & Hl). destruct (core_tokens j Hc) as (_ & Ht & Hn).
  destruct Hg as (_ & _ & _ & _ & Eseq & Ev & _). unfold within, potential in *. simpl.
  rewrite Hpend, Hq, Ev, Eseq. rewrite registered_weight; [| by intros r []%Ht | done].
  simpl. lia.
Qed.

Lemma link_within b s j (h : H) :
  core j → within b s j → within_unless_over b s (link_if_ready any_value j h).1.2.
Proof.
  intros Hc Hw. unfold link_if_ready. destruct (idle j) eqn:Hi; simpl.
  - destruct (first_parse_error any_value j); [apply fail_within |].
    destruct (root_entry j) as [e|]; [| apply fail_within].
    destruct (link_module_graph h e (entries j) (dependency_edges j)) as [[g|err] h'];
      [| apply fail_within]. split; [by intros [=] |]. simpl. destruct Hw. lia.
  - by apply within_now, flush_within.
Qed.

Lemma parse_error_within b s j (h : H) :
  core j → within b s j → within_unless_over b s (finish_after_parse_error any_value j h).1.2.
Proof.
  intros Hc Hw. unfold finish_after_parse_error. destruct (idle j) eqn:Hi; simpl; [apply fail_within |].
  by apply within_now, flush_within.
Qed.

Lemma flush_or_link_within b s j (h : H) :
  core j → within b s j → within_unless_over b s (flush_or_link any_value j h).1.2.
Proof.
  intros Hc Hw. unfold flush_or_link. destruct (queued_fetches j) eqn:E; [by apply link_within |].
  apply within_now, flush_within; [done | | done]. unfold idle. by rewrite E.
Qed.

(** ** What the dependencies of a module cost *)
Definition upgraded (cs : list (@DependencyCandidate Url)) : list (@DependencyCandidate Url) :=
  filter (λ c, c.(cand_phase) = Evaluation ∧ c.(cand_previous) ≠ Some Evaluation) cs.

Definition fetched (cs : list (@DependencyCandidate Url)) : list (@DependencyCandidate Url) :=
  filter (λ c, c.(cand_previous) ≠ Some c.(cand_phase)) cs.

Lemma fetched_cost cs :
  Nsum (λ c, weight c.(cand_phase)) (fetched cs) + N.of_nat (length (fetched cs))
  ≤ (2 + 2 * D) * N.of_nat (length (upgraded cs)) + 2 * N.of_nat (length cs).
Proof.
  unfold fetched, upgraded. induction cs as [|c cs IH]; [simpl; lia |].
  rewrite !filter_cons. repeat case_decide; destruct (cand_phase c) eqn:E; simpl in *; rewrite ?E in *;
    simpl in *; try lia; naive_solver lia.
Qed.

(** Each upgraded key leaves the keys not evaluated. *)
Lemma unevaluated_collect v0 v cs :
  collecting v0 v cs → Forall (λ c, ckey c ∈ K) cs →
  unevaluated v + N.of_nat (length (upgraded cs)) ≤ unevaluated v0.
Proof.
  intros [Hn Ho Hnew] Hk. unfold unevaluated.
  set (U := map ckey (upgraded cs)).
  assert (∀ k, k ∈ U → k ∈ K ∧ v0 !! k ≠ Some Evaluation ∧ v !! k = Some Evaluation) as HU.
  { intros k (c & -> & [[Hp Hq] Hc]%list_elem_of_filter)%list_elem_of_fmap_1.
    rewrite Forall_forall in Hk. destruct (Hnew c Hc) as [E1 E2]. split_and!; [by apply Hk | congruence |].
    rewrite E2, Hp. by destruct (v0 !! ckey c) as [[]|]. }
  assert (∀ k, v !! k ≠ Some Evaluation → v0 !! k ≠ Some Evaluation) as Hmono.
  { intros k Hv Hv0. apply Hv. destruct (decide (k ∈ map ckey cs)) as [Hin|Hin].
    - apply list_elem_of_fmap_1 in Hin as (c & -> & Hin). destruct (Hnew c Hin) as [_ ->].
      by rewrite Hv0.
    - by rewrite Ho. }
  assert (NoDup U) as HnU by (eapply sublist_NoDup; [exact Hn | apply (fmap_sublist ckey), sublist_filter]).
  assert (length (U ++ filter (λ k, v !! k ≠ Some Evaluation) K)
          ≤ length (filter (λ k, v0 !! k ≠ Some Evaluation) K))%nat as Hlen.
  { apply submseteq_length, NoDup_submseteq.
    - apply NoDup_app. split_and!; [done | | by apply NoDup_filter].
      intros k Hk1 [Hk2 _]%list_elem_of_filter. by destruct (HU k Hk1) as (_ & _ & ?).
    - intros k [Hk1|[Hk1 Hk2]%list_elem_of_filter]%elem_of_app; apply list_elem_of_filter.
      + destruct (HU k Hk1) as (? & ? & _). done.
      + auto. }
  rewrite length_app in Hlen. unfold U in Hlen. rewrite length_map in Hlen. lia.
Qed.

Lemma collect_keys sn rs : ∀ (j : job) (h : H) cs,
  Forall (λ c, ckey c ∈ K) cs →
  match (collect_dependency_candidates sn rs cs j h).1.1 with
  | inl cs' => Forall (λ c, ckey c ∈ K) cs'
  | inr _ => True
  end.
Proof.
  induction rs as [|r rs IH]; intros j h cs Hcs; simpl; [done |].
  destruct (resolve_module_request h (record_specifier r) (dep_base_url sn) (record_attributes r)
    (record_phase r)) as [[res|err] h1] eqn:E; [| done].
  apply resolves_in in E. unfold collect_request. cbv zeta.
  pose proof (merge_candidate_spec (resolved_key res) (record_phase r) cs) as Hm.
  destruct (merge_candidate (resolved_key res) (record_phase r) cs) as [cs'|]; apply IH.
  - destruct Hm as (c & l1 & l2 & -> & _ & ->). rewrite !Forall_app, !Forall_cons in *. done.
  - rewrite Forall_app, Forall_singleton. done.
Qed.

Lemma queue_candidates_total sn pr cs : ∀ j : job,
  j.(next_single_client_sequence) + N.of_nat (length (fetched cs)) ≤ u64_max →
  ∃ j', queue_candidates as_str sn pr cs j = Ret j'.
Proof.
  unfold fetched. induction cs as [|c cs IH]; intros j Hb; simpl; [by eexists |].
  rewrite filter_cons in Hb. case_bool_decide as Hp.
  - rewrite decide_False in Hb by naive_solver. by apply IH.
  - rewrite decide_True in Hb by done. simpl in Hb. unfold next_single_module_client.
    rewrite add64_fits by lia. simpl. apply IH. simpl. lia.
Qed.
(** ** Calls return, and spend *)
Lemma discover_total c s j (h : H) entry :
  core j → potential j + 2 * D + j.(next_single_client_sequence) ≤ c → c ≤ u64_max →
  within c s j →
  ∃ p j' h', discover_dependencies as_str any_value j h entry = Ret (p, j', h') ∧
    within_unless_over c s j'.
Proof.
  intros Hc Hb Hmax Hw. unfold discover_dependencies.
  destruct (module_dependencies h entry) as [sn|err] eqn:Edep; [| by do 3 eexists; split; [| apply fail_within]].
  apply few_requests in Edep. cbv zeta. set (sn' := dependency_snapshot_with_tree_context j sn).
  assert (requested_modules sn' = requested_modules sn) as Ereq
    by (unfold sn', dependency_snapshot_with_tree_context; by case_match).
  rewrite Ereq. pose proof (link_within c s j h Hc Hw) as Hl.
  pose proof (collect_spec any_value any_value_none sn' (queued_or_visited j) (requested_modules sn) j h []
    (collecting_start _) (core_edges j Hc)) as Hcol.
  pose proof (collect_keys sn' (requested_modules sn) j h [] (Forall_nil_2 _)) as Hkeys.
  destruct (requested_modules sn) as [|r rs] eqn:Er.
  { destruct (link_if_ready any_value j h) as [[p j'] h']. by do 3 eexists. }
  destruct (collect_dependency_candidates sn' (r :: rs) [] j h) as [[[cs|err] j1] h1];
    [| by do 3 eexists; split; [| apply fail_within]].
  destruct Hcol as (Hs & Hcs & He & Hlen). simpl in Hkeys, Hlen.
  pose proof (unevaluated_collect _ _ _ Hcs Hkeys) as Hu. pose proof (fetched_cost cs) as Hcost.
  pose proof Hs as (_ & _ & _ & _ & E5 & E6 & E7 & _ & _ & E10 & _). destruct Hw as [_ Hw].
  unfold potential in Hb.
  assert (N.of_nat (length cs) ≤ D) as Hcd by (simpl in Edep; lia).
  set (M := map_Nsum (λ l : load, weight l.(load_phase)) (pending_clients j)) in *.
  set (Q := Nsum (λ r, weight r.(req_phase)) (queued_fetches j)) in *.
  set (C := Nsum (λ c, weight c.(cand_phase)) (fetched cs)) in *.
  set (u := unevaluated (queued_or_visited j1)) in *.
  set (u0 := unevaluated (queued_or_visited j)) in *.
  set (q := N.of_nat (length (fetched cs))) in *. set (n := N.of_nat (length (upgraded cs))) in *.
  assert ((2 + 2 * D) * u + (2 + 2 * D) * n ≤ (2 + 2 * D) * u0) as Hu' by nia.
  destruct (queue_candidates_total sn'
    {| parent_ref_key := dep_key sn'; parent_ref_entry := dep_entry sn';
       parent_ref_base_url := dep_base_url sn'; parent_ref_metadata := dep_metadata sn' |} cs j1)
    as [j2 E2]; [fold q; lia |]. rewrite E2. simpl.
  pose proof (core_queued as_str any_value any_value_none j j1 j2 _ _ cs Hc Hs He Hcs E2) as Hc2.
  apply queue_candidates_spec in E2 as (new & Hf & Hk & _ & Hcl & Hj).
  assert (Nsum (λ r, weight r.(req_phase)) new = C ∧ length new = length (fetched cs)) as [Hcn Hln].
  { split.
    - pose (f := λ kp : key * ModuleImportPhase, weight kp.2).
      pose proof (Nsum_map f (λ r, (req_key r, req_phase r)) new) as E. rewrite Hk in E.
      rewrite (Nsum_map f) in E. symmetry. exact E.
    - by rewrite <-(length_map (λ r, (req_key r, req_phase r)) new), Hk, length_map. }
  assert (within c s j2) as Hw2.
  { unfold within, potential. rewrite Hf, Nsum_app, length_app, Hcn, Hln, E7. rewrite Hj. simpl.
    rewrite Hln, E5, E6, E10. fold M Q u. fold q. split; lia. }
  pose proof (flush_or_link_within c s j2 h1 Hc2 Hw2) as Hfin.
  destruct (flush_or_link any_value j2 h1) as [[p j'] h']. by do 3 eexists.
Qed.
Lemma record_error_within b s (j : job) k e :
  within b s j → within b s (record_parse_error j k e).
Proof. unfold record_parse_error. by case_match. Qed.

Lemma load_error_within l b s j (h : H) k e :
  core_but l j → within b s j →
  within_unless_over b s (finish_module_load_error any_value j h k e).1.2.
Proof.
  intros Hc Hw. unfold finish_module_load_error. destruct (negb (is_parse_error e)); [apply fail_within |].
  apply parse_error_within; [by apply (but_parse_error l) | by apply record_error_within].
Qed.

Lemma load_outcome_within l b s j (h : H) o :
  core_but l j → within b s j →
  match load_outcome any_value j h l o with
  | inl (_, _, _, j', _) => within b s j' ∧
      potential j' = potential j ∧ j'.(next_single_client_sequence) = j.(next_single_client_sequence)
  | inr (_, j', _) => within_unless_over b s j'
  end.
Proof.
  intros Hc Hw. destruct o as [source|m|e]; simpl.
  - destruct (compile_module_source h source (load_phase l)) as [[compiled|e] h1].
    + destruct (parse_error compiled) as [e|]; [| destruct (has_parse_error compiled); [| done]].
      all: split; [by apply record_error_within |]; unfold record_parse_error; by case_match.
    + destruct (mark_module_failed h1 (load_key l) e) as [en h2].
      pose proof (load_error_within l b s j h2 (load_key l) e Hc Hw) as Hx.
      by destruct (finish_module_load_error any_value j h2 (load_key l) e) as [[p j'] h'].
  - done.
  - pose proof (load_error_within l b s j h (load_key l) e Hc Hw) as Hx.
    by destruct (finish_module_load_error any_value j h (load_key l) e) as [[p j'] h'].
Qed.

Lemma entered_within b s j l en c : within b s j → within b s (entered j l en c).
Proof. unfold entered, record_entry_context. case_decide; simpl; by case_match. Qed.

Lemma entered_same j l en c :
  potential (entered j l en c) = potential j ∧
  (entered j l en c).(next_single_client_sequence) = j.(next_single_client_sequence).
Proof. unfold entered, record_entry_context. case_decide; simpl; by case_match. Qed.

(** A load that leaves pays for what it discovers. *)
Lemma finish_load_total c s l j (h : H) o :
  core_but l j → c ≤ u64_max → within c s j →
  potential j + weight l.(load_phase) + j.(next_single_client_sequence) ≤ c + 1 →
  ∃ p j' h', finish_module_load as_str any_value j h l o = Ret (p, j', h') ∧
    within_unless_over c s j'.
Proof.
  intros Hc Hmax Hw Hb. unfold finish_module_load.
  pose proof (load_outcome_spec any_value l j h o Hc) as Ho.
  pose proof (load_outcome_within l c s j h o Hc Hw) as Ho'.
  destruct (load_outcome any_value j h l o) as [[[[[en x] err] j1] h1]|[[p1 j1] h1]];
    [| by do 3 eexists].
  destruct Ho' as (Hw1 & Hp1 & Hs1).
  apply (core_entered any_value any_value_none _ _ en x) in Ho. apply (entered_within c s j1 l en x) in Hw1.
  destruct (entered_same j1 l en x) as [Hp2 Hs2]. cbv zeta.
  match goal with |- context [if err then mret (finish_after_parse_error _ ?y _) else _] =>
    change y with (entered j1 l en x) end.
  destruct err; [| case_decide as Hph].
  - pose proof (parse_error_within c s _ h1 Ho Hw1) as Hx.
    destruct (finish_after_parse_error any_value (entered j1 l en x) h1) as [[p j'] h']. by do 3 eexists.
  - pose proof (link_within c s _ h1 Ho Hw1) as Hx.
    destruct (link_if_ready any_value (entered j1 l en x) h1) as [[p j'] h']. by do 3 eexists.
  - apply discover_total; [done | | done | done].
    rewrite Hp2, Hp1, Hs2, Hs1. destruct (load_phase l); [simpl in Hb; lia | done].
Qed.

Lemma resume_total c s j (h : H) cl o :
  waiting j → c ≤ u64_max → is_Some (j.(pending_clients) !! cl) → within (c + 1) s j →
  ∃ p j' h', resume_single_module_outcome as_str any_value j h cl o = Ret (p, j', h') ∧
    within_unless_over c s j'.
Proof.
  intros Hwt Hmax [l Hl] [Hp Hs].
  pose proof (core_remove j cl l Hwt Hl) as Hc. destruct (core_running j (proj1 Hwt)) as (_ & He & _).
  assert (potential j = weight (load_phase l)
    + potential (set_pending j (delete cl (pending_clients j)))) as Hpot.
  { unfold potential. simpl. rewrite (map_Nsum_delete _ (pending_clients j) cl l Hl). lia. }
  pose proof (weight_pos (load_phase l)).
  destruct (finish_load_total c s l _ h o Hc Hmax) as (p & j' & h' & E & Hw).
  { split; simpl; [lia | done]. }
  { simpl. lia. }
  exists p, j', h'. split; [| done]. unfold resume_single_module_outcome. rewrite Hl.
  by destruct (state j).
Qed.
Lemma unevaluated_le v : unevaluated v ≤ N.of_nat (length K).
Proof. unfold unevaluated. pose proof (length_filter (λ k, v !! k ≠ Some Evaluation) K). lia. Qed.

Lemma start_total root cfg (h : H) :
  tree_bound ≤ u64_max →
  ∃ p j' h', start as_str any_value (job_new root cfg) h = Ret (p, j', h') ∧
    within_unless_over tree_bound 0 j'.
Proof.
  intros Hmax. unfold start. simpl. destruct root as [r|r].
  - rewrite start_external_eq.
    pose proof (flush_within tree_bound 0 _ h (external_started_core cfg r) eq_refl) as Hw.
    destruct (flush_or_wait (external_started (External r) cfg r) h) as [[p j'] h'].
    do 3 eexists. split; [done |]. apply within_now, Hw. split; [| done].
    unfold potential, external_started, record_module_order. simpl. rewrite map_Nsum_empty.
    pose proof (unevaluated_le (<[{| key_url := ext_source_url r; key_kind := default JavaScript (ext_kind_hint r);
      key_attributes := ext_attributes r |} := ext_phase r]> ∅)) as Hu.
    unfold tree_bound. destruct (ext_phase r); simpl weight; nia.
  - rewrite start_inline_eq. pose proof (inline_started_core any_value any_value_none cfg r) as Hc.
    assert (potential (inline_started (Inline r) cfg r) ≤ (2 + 2 * D) * N.of_nat (length K) ∧
      (inline_started (Inline r) cfg r).(next_single_client_sequence) = 0 ∧
      (inline_started (Inline r) cfg r).(queued_completions) = [] ∧
      (inline_started (Inline r) cfg r).(queued_fetches) = []) as (Hp & Hs & Hq & Hf).
    { unfold potential, inline_started, record_module_order, record_entry_context. simpl.
      rewrite lookup_empty. simpl. rewrite map_Nsum_empty.
      pose proof (unevaluated_le (<[inl_root_key r := inl_phase r]> ∅)) as Hu. split_and!; [nia | done..]. }
    generalize dependent (inline_started (Inline r) cfg r). intros j Hc Hp Hs Hq Hf.
    assert (within tree_bound 0 j) as Hw.
    { split; rewrite Hs, ?Hq, ?Hf; unfold tree_bound; simpl; lia. }
    case_decide.
    + pose proof (link_within tree_bound 0 j h Hc Hw) as Hx.
      destruct (link_if_ready any_value j h) as [[p j'] h']. by do 3 eexists.
    + apply discover_total; [done | rewrite Hs; unfold tree_bound; lia | done | done].
Qed.

(** A job between calls with what it may still spend. *)
Definition solvent (j : job) : Prop := rest (H := H) j ∧ within_unless_over tree_bound 0 j.

Lemma solvent_new root cfg : solvent (job_new root cfg).
Proof.
  split; [apply rest_new |]. apply within_now. split; [| done]. unfold potential, tree_bound. simpl.
  rewrite map_Nsum_empty. pose proof (unevaluated_le ∅). nia.
Qed.

Lemma poll_total j (h : H) :
  tree_bound ≤ u64_max → solvent j →
  ∃ p j' h', poll as_str any_value j h = Ret (p, j', h') ∧ within_unless_over tree_bound 0 j'.
Proof.
  intros Hmax [Hr Hw]. unfold poll. destruct Hr as [Hj|[Hwt|(p0 & Hs & _ & _ & (t & Ht & _) & _)]].
  - rewrite Hj. simpl. by apply start_total.
  - destruct Hwt as (Hc & Hq & Hp). destruct (core_running j Hc) as (Ht & He & Hi). rewrite Ht.
    pose proof (flush_within tree_bound 0 j h Hc) as Hf.
    assert (idle j = false) as Hid.
    { destruct (idle j) eqn:E; [| done]. by apply idle_iff in E as [_ ?]. }
    destruct (flush_or_wait j h) as [[p j'] h'].
    exists p, j', h'. split; [by destruct (state j) |]. apply within_now, Hf; [done |]. by apply Hw.
  - rewrite Ht. by do 3 eexists.
Qed.

Lemma resume_solvent j (h : H) c o :
  tree_bound ≤ u64_max → solvent j →
  ∃ p j' h', resume_single_module_outcome as_str any_value j h c o = Ret (p, j', h') ∧
    within_unless_over tree_bound 0 j'.
Proof.
  intros Hmax [Hr Hw]. destruct (resume_single_module_outcome as_str any_value j h c o)
    as [[[p j'] h']|] eqn:E.
  - exists p, j', h'. split; [done |].
    destruct (resume_next as_str any_value any_value_none j h c o p j' h' Hr E)
      as [(-> & -> & ->)|(Hwt & Hc & _)]; [done |].
    destruct (core_running j (proj1 Hwt)) as (Ht & _). destruct (proj1 Hw Ht) as [Hb Hl].
    destruct (resume_total tree_bound 0 j h c o Hwt Hmax Hc) as (p1 & j1 & h1 & E1 & Hw1).
    { split; [lia | done]. }
    rewrite E1 in E. by injection E as <- <- <-.
  - exfalso. destruct Hr as [Hj|[Hwt|(p0 & Hs & _)]].
    + rewrite Hj in E. unfold resume_single_module_outcome in E. simpl in E. by rewrite lookup_empty in E.
    + destruct (core_running j (proj1 Hwt)) as (Ht & _). destruct (proj1 Hw Ht) as [Hb Hl].
      destruct (pending_clients j !! c) as [l|] eqn:Hc.
      * destruct (resume_total tree_bound 0 j h c o Hwt Hmax) as (p1 & j1 & h1 & E1 & Hw1);
          [by eexists | split; [lia | done] | congruence].
      * unfold resume_single_module_outcome in E. rewrite Hc in E. by destruct (state j).
    + unfold resume_single_module_outcome in E. by destruct (state j).
Qed.
(** The loop over synchronous completions stops: what the fuel must cover
    goes down with every completion taken. *)
Definition loop_left (j : job) : N :=
  N.of_nat (length j.(queued_completions)) + match j.(terminal) with Some _ => 0 | None => potential j end.

Lemma resume_left j (h : H) c o p j' h' :
  tree_bound ≤ u64_max → solvent j →
  resume_single_module_outcome as_str any_value j h c o = Ret (p, j', h') →
  loop_left j' ≤ loop_left j ∨ is_Some j'.(terminal).
Proof.
  intros Hmax [Hr Hw] E.
  destruct (resume_next as_str any_value any_value_none j h c o p j' h' Hr E)
    as [(-> & -> & ->)|(Hwt & Hc & Hn)]; [by left |].
  destruct (core_running j (proj1 Hwt)) as (Ht & _). destruct (proj1 Hw Ht) as [Hb Hl].
  destruct (terminal j') eqn:Ht'; [by right | left].
  set (len := N.of_nat (length (queued_completions j)) + N.of_nat (length (queued_fetches j))).
  assert (1 ≤ potential j) as Hpos.
  { destruct Hc as [l Hl']. unfold potential. rewrite (map_Nsum_delete _ _ c l Hl').
    pose proof (weight_pos (load_phase l)). lia. }
  destruct (resume_total (potential j + next_single_client_sequence j - 1)
    (next_single_client_sequence j - len) j h c o Hwt) as (p1 & j1 & h1 & E1 & Hw1);
    [lia | done | split; unfold len; lia |].
  rewrite E1 in E. injection E as -> -> ->. destruct (proj1 Hw1 Ht') as [Hb' Hl'].
  unfold loop_left. rewrite Ht, Ht'.
  assert (queued_fetches j = []) as Hq by (by destruct Hwt as (_ & ? & _)).
  unfold len in *. rewrite Hq in *. simpl in *. lia.
Qed.
Lemma solvent_pop j c cs :
  solvent j → j.(queued_completions) = c :: cs →
  solvent (set_completions j cs) ∧ loop_left j = loop_left (set_completions j cs) + 1.
Proof.
  intros [Hr Hw] Eq. split_and!.
  - split.
    + destruct Hr as [Hj|[Hwt|(p0 & Ho)]]; [by rewrite Hj in Eq | |]; right.
      * left. by apply (waiting_queues j cs (joined_fetches j)).
      * right. by exists p0.
    + destruct Hw as [Hw Hlen]. rewrite Eq in Hlen. split; [| simpl in *; lia].
      intros Ht. destruct (Hw Ht) as [Hb Hl]. rewrite Eq in Hl. split; [done |]. simpl in *. lia.
  - unfold loop_left. simpl. rewrite Eq. simpl length.
    change (potential (set_completions j cs)) with (potential j). destruct (terminal j); lia.
Qed.

Lemma loop_total fuel : ∀ j (h : H) p fs,
  tree_bound ≤ u64_max → solvent j → loop_left j < N.of_nat fuel →
  ∃ r j' h', completion_loop as_str any_value fuel j h p fs = Ret (r, j', h') ∧
    within_unless_over tree_bound 0 j'.
Proof.
  induction fuel as [|fuel IH]; intros j h p fs Hmax Hs Hf; [lia |]. simpl.
  destruct (queued_completions j) as [|c cs] eqn:Eq; [do 3 eexists; split; [done | apply Hs] |].
  destruct (solvent_pop j c cs Hs Eq) as [Hs0 Hleft]. unfold resume_single_module.
  destruct (resume_solvent (set_completions j cs) h (result_client c) (result_outcome c) Hmax Hs0)
    as (p1 & j1 & h1 & E1 & Hw1). rewrite E1. simpl.
  pose proof (resume_left _ _ _ _ _ _ _ Hmax Hs0 E1) as Hl.
  apply (resume_next as_str any_value any_value_none) in E1 as [(-> & -> & ->)|(_ & _ & Hn)];
    [apply IH; [done | done | lia] | | apply Hs0].
  pose proof (next_rest p1 j1 Hn) as Hr1.
  assert (waiting j1 → loop_left j1 < N.of_nat fuel) as Hlt.
  { intros Hwt. destruct (core_running j1 (proj1 Hwt)) as (Ht & _). rewrite Ht in Hl.
    destruct Hl as [?|[? [=]]]; lia. }
  apply next_poll_cases in Hn.
  destruct p1; try done; try (by do 3 eexists);
    (apply IH; [done | done | apply Hlt; try done; by destruct Hn]).
Qed.

Lemma loop_left_bound j : solvent j → loop_left j ≤ tree_bound.
Proof.
  intros [_ [Hw Hlen]]. unfold loop_left. destruct (terminal j); [lia |].
  destruct (Hw eq_refl). lia.
Qed.

Lemma drive_queued_total fuel j (h : H) p :
  tree_bound ≤ u64_max → tree_bound < N.of_nat fuel → solvent j →
  ∃ d j' h', drive_queued_completions as_str any_value fuel j h p = Ret (d, j', h') ∧
    within_unless_over tree_bound 0 j'.
Proof.
  intros Hmax Hf Hs. unfold drive_queued_completions.
  destruct (match p with PollNeedFetches fetches => (fetches, PollPending) | p => ([], p) end) as [fs p1].
  pose proof (loop_left_bound j Hs).
  destruct (loop_total fuel j h p1 fs Hmax Hs) as (r & j1 & h1 & E & Hw); [lia |]. rewrite E. simpl.
  destruct r as [d|[p2 [|f fs2]]]; by do 3 eexists.
Qed.

Definition enough_fuel (t : TreeCall (Url := Url)) : Prop :=
  match t with
  | CallDrive fuel | CallResumeDrive fuel _ _ => tree_bound < N.of_nat fuel
  | _ => True
  end.

Lemma tree_call_total t j (h : H) :
  tree_bound ≤ u64_max → solvent j → enough_fuel t →
  ∃ a j' h', tree_call as_str any_value t j h = Ret (a, j', h') ∧ solvent j'.
Proof.
  intros Hmax Hs Ht.
  enough (∃ a j' h', tree_call as_str any_value t j h = Ret (a, j', h') ∧
    within_unless_over tree_bound 0 j') as (a & j' & h' & E & Hw).
  { exists a, j', h'. split; [done |]. split; [| done].
    by apply (tree_call_ok as_str any_value any_value_none t j h a j' h'); [apply Hs |]. }
  destruct t as [|c o|r|fuel|fuel c o]; simpl in *.
  - destruct (poll_total j h Hmax Hs) as (p & j' & h' & -> & Hw). by do 3 eexists.
  - destruct (resume_solvent j h c o Hmax Hs) as (p & j' & h' & -> & Hw). by do 3 eexists.
  - do 3 eexists. split; [done |]. split; [by intros [=] | simpl; lia].
  - destruct (poll_total j h Hmax Hs) as (p & j1 & h1 & E & Hw).
    pose proof (poll_next as_str any_value any_value_none j h p j1 h1 (proj1 Hs) E) as Hn.
    destruct (drive_queued_total fuel j1 h1 p Hmax Ht (conj (next_rest p j1 Hn) Hw))
      as (d & j2 & h2 & E2 & Hw2).
    unfold drive. rewrite E. simpl. rewrite E2. by do 3 eexists.
  - destruct (resume_solvent j h c o Hmax Hs) as (p & j1 & h1 & E & Hw).
    assert (rest (H := H) j1) as Hr1.
    { destruct (resume_next as_str any_value any_value_none j h c o p j1 h1 (proj1 Hs) E)
        as [(_ & -> & _)|(_ & _ & Hn)]; [apply Hs | by apply (next_rest p)]. }
    destruct (drive_queued_total fuel j1 h1 p Hmax Ht (conj Hr1 Hw)) as (d & j2 & h2 & E2 & Hw2).
    unfold resume_single_module_outcome_and_drive. rewrite E. simpl. rewrite E2. by do 3 eexists.
Qed.

(** Over a graph of finitely many keys with at most [D] requests per
    module, no sequence of calls panics and every drive returns: the client
    counter never overflows, and the loop that takes synchronous completions
    stops within (2 + 2D)(|K| + 1) of them. *)
Theorem tree_calls_total root cfg (h : H) ts :
  tree_bound ≤ u64_max → Forall enough_fuel ts →
  ∃ j h', tree_calls as_str any_value ts (job_new root cfg) h = Ret (j, h').
Proof.
  intros Hmax. generalize (solvent_new root cfg). generalize (job_new root cfg). revert h.
  induction ts as [|t ts IH]; intros h j Hs Hf; [by do 2 eexists |].
  apply Forall_cons in Hf as [Ht Hf].
  destruct (tree_call_total t j h Hmax Hs Ht) as (a & j1 & h1 & E & Hs1). simpl. rewrite E. simpl.
  by apply IH.
Qed.

(** A job started and then given [n] completions, each for a client it waits
    for, with any outcome. *)
Inductive served : nat → job → H → Prop :=
  | served_start root cfg h p j h' :
      poll as_str any_value (job_new root cfg) h = Ret (p, j, h') → served 0 j h'
  | served_more n j h c o p j' h' :
      served n j h → is_Some (j.(pending_clients) !! c) →
      resume_single_module_outcome as_str any_value j h c o = Ret (p, j', h') → served (S n) j' h'.

Lemma waiting_potential j : waiting j → 1 ≤ potential j.
Proof.
  intros (_ & _ & Hp). destruct (map_choose _ Hp) as (c & l & Hl). unfold potential.
  rewrite (map_Nsum_delete _ _ c l Hl). pose proof (weight_pos (load_phase l)). lia.
Qed.

(** A job at work after [n] completions has not spent the rest. *)
Definition still_within (n : nat) (j : job) : Prop :=
  rest (H := H) j ∧ j.(state) ≠ Initial ∧ N.of_nat n ≤ tree_bound ∧
  (ended j.(state) = false → waiting j ∧ within (tree_bound - N.of_nat n) 0 j ∧ N.of_nat n < tree_bound).

Lemma next_still n p j :
  next_ok (H := H) p j → N.of_nat n ≤ tree_bound →
  within_unless_over (tree_bound - N.of_nat n) 0 j → still_within n j.
Proof.
  intros Hn Hb [Hw _]. pose proof (next_rest p j Hn) as Hr.
  destruct Hn as [[Hwt _]|(He & _)].
  - pose proof (core_running j (proj1 Hwt)) as (Ht & _ & Hi). split_and!; [done | done | done |].
    intros _. specialize (Hw Ht). split_and!; [done | done |].
    pose proof (waiting_potential j Hwt). destruct Hw. lia.
  - split_and!; [done | by intros E; rewrite E in He | done | by rewrite He].
Qed.

Lemma served_within n j h : tree_bound ≤ u64_max → served n j h → still_within n j.
Proof.
  intros Hmax. induction 1 as [root cfg h p j h' E|n j h c o p j' h' _ IH [l Hc] E].
  - pose proof (poll_next as_str any_value any_value_none _ _ _ _ _ (rest_new root cfg) E) as Hn.
    destruct (poll_total _ h Hmax (solvent_new root cfg)) as (p1 & j1 & h1 & E1 & Hw).
    rewrite E1 in E. injection E as -> -> ->. apply (next_still 0 p); [done | lia |].
    by rewrite N.sub_0_r.
  - destruct IH as (Hr & Hi & Hb & Hw).
    assert (ended (state j) = false) as He.
    { destruct Hr as [Hj|[[Hx _]|(p0 & _ & Hp & _)]]; [by rewrite Hj in Hi | |].
      - by apply (core_running j Hx).
      - by rewrite Hp, lookup_empty in Hc. }
    destruct (Hw He) as (Hwt & Hwn & Hlt).
    pose proof (resume_accepted as_str any_value any_value_none j h c l o p j' h' Hwt Hc E) as Hn.
    destruct (resume_total (tree_bound - N.of_nat (S n)) 0 j h c o Hwt) as (p1 & j1 & h1 & E1 & Hw1);
      [lia | by eexists | by replace (tree_bound - N.of_nat (S n) + 1) with (tree_bound - N.of_nat n) by lia |].
    rewrite E1 in E. injection E as -> -> ->. apply (next_still (S n) p); [done | lia | done].
Qed.

(** C26: whatever the host and the network answer, a job over a finite graph
    ends: after at most (2 + 2D)(|K| + 1) completions of clients it waits
    for, the last of which leaves it ended; until then it waits for some
    client and takes that client's completion without a panic. *)
Theorem tree_job_ends n j h :
  tree_bound ≤ u64_max → served n j h →
  N.of_nat n ≤ tree_bound ∧ (N.of_nat n = tree_bound → ended j.(state) = true) ∧
  (ended j.(state) = false →
   j.(pending_clients) ≠ ∅ ∧
   ∀ c o, is_Some (j.(pending_clients) !! c) → ∃ p j' h',
     resume_single_module_outcome as_str any_value j h c o = Ret (p, j', h') ∧ served (S n) j' h').
Proof.
  intros Hmax Hs. destruct (served_within n j h Hmax Hs) as (Hr & Hi & Hb & Hw). split_and!; [done | |].
  - intros E. destruct (ended (state j)); [done |]. destruct (Hw eq_refl) as (_ & _ & ?). lia.
  - intros He. destruct (Hw He) as (Hwt & Hwn & Hlt). split; [apply Hwt |]. intros c o Hc.
    destruct (resume_total (tree_bound - N.of_nat (S n)) 0 j h c o Hwt) as (p1 & j1 & h1 & E1 & Hw1);
      [lia | done | by replace (tree_bound - N.of_nat (S n) + 1) with (tree_bound - N.of_nat n) by lia |].
    exists p1, j1, h1. split; [done |]. by eapply served_more.
Qed.
End termination.

(** ** Witnesses: the three modules of [Demo] *)
Module DemoBounds.
Definition K : list (ModuleMapKey N) := [key_javascript 1; key_javascript 2].

Lemma K_nodup : NoDup K.
Proof. vm_compute. by repeat constructor; set_solver. Qed.

Lemma resolves_in (h : unit) s b at_ ph res h' :
  resolve_module_request h s b at_ ph = (inl res, h') → res.(resolved_key) ∈ K.
Proof.
  simpl. unfold K. destruct (String.eqb s "one"); [intros [= <- <-]; set_solver |].
  destruct (String.eqb s "two"); [intros [= <- <-]; set_solver | done].
Qed.

Lemma few_requests (h : unit) e (sn : ModuleDependencySnapshot N) :
  module_dependencies h e = inl sn → N.of_nat (length sn.(requested_modules)) ≤ 2.
Proof. simpl. intros [= <-]. simpl. destruct e as [|[p|p|]]; simpl; lia. Qed.

(** The job after its two fetches. *)
Definition job : ModuleScriptTreeJob :=
  match tree_calls Demo.as_str Demo.any_value
          (Demo.first_calls ++ [CallResume (Demo.client 1) (Demo.fetched 1)])
          (job_new Demo.root config_default) tt with
  | Ret (j, _) => j
  | Panic => Demo.before
  end.
End DemoBounds.

Lemma tree_calls_total_witness :
  ∃ j h', tree_calls Demo.as_str Demo.any_value
            [CallDrive 19; CallResumeDrive 19 (Demo.client 0) (Demo.fetched 0);
             CallResumeDrive 19 (Demo.client 1) (Demo.fetched 1)]
            (job_new Demo.root config_default) tt = Ret (j, h').
Proof.
  apply (tree_calls_total Demo.as_str Demo.any_value Demo.any_value_none DemoBounds.K 2
    DemoBounds.K_nodup DemoBounds.resolves_in DemoBounds.few_requests); [vm_compute; discriminate |].
  repeat constructor.
Defined.

Lemma tree_job_ends_witness :
  served Demo.as_str Demo.any_value 2 DemoBounds.job tt ∧ 2 ≤ tree_bound DemoBounds.K 2.
Proof.
  assert (served Demo.as_str Demo.any_value 2 DemoBounds.job tt) as Hs.
  { eapply (served_more _ _ 1 Demo.before tt (Demo.client 1) (Demo.fetched 1));
      [| eexists; vm_compute; reflexivity | vm_compute; reflexivity].
    eapply served_more with (c := Demo.client 0) (o := Demo.fetched 0);
      [eapply (served_start _ _ Demo.root config_default tt); vm_compute; reflexivity
      | eexists; vm_compute; reflexivity | vm_compute; reflexivity]. }
  split; [exact Hs |].
  apply (tree_job_ends Demo.as_str Demo.any_value Demo.any_value_none DemoBounds.K 2
    DemoBounds.K_nodup DemoBounds.resolves_in DemoBounds.few_requests 2 DemoBounds.job tt
    ltac:(vm_compute; discriminate) Hs).
Defined.
