(* ===== verification/CookieTypes.v ===== *)
(** Cookies, their domains, paths and expiry (moli-cookie-store: [cookie.rs],
    [cookie_domain.rs], [cookie_path.rs], [cookie_expiration.rs],
    [cookie_creation_time.rs], [utils.rs]), and the contexts and results of
    the store's calls ([cookie_store/context.rs], [results.rs], [store.rs],
    [mutations.rs]).  A [str] is its list of scalar values, as in [Utf8].  The
    [url], [idna], [cookie] and [time] crates are parameters: the classes
    [UrlCrate] and [HostCrate], the record of what a parsed [RawCookie] answers, and the range
    of the calendar.  A point in time is its number of nanoseconds since the
    Unix epoch. *)
From stdpp Require Import base list numbers option gmap strings.
From S2P Require Import Prelude Utf8.

#[local] Open Scope N_scope.

Notation str := (list N) (only parsing).

(** ** [str] methods *)
Definition starts_with (s p : str) : bool := bool_decide (take (length p) s = p).
Definition ends_with (s p : str) : bool :=
  bool_decide (length p ≤ length s)%nat && bool_decide (drop (length s - length p) s = p).

(** [str::rfind] of a character: the byte offset of its last occurrence. *)
Fixpoint rfind (c : char) (s : str) : option N :=
  match s with
  | [] => None
  | x :: s => match rfind c s with
              | Some i => Some (len_utf8 x + i)
              | None => if x =? c then Some 0 else None
              end
  end.

(** [slice::join] *)
Fixpoint join (sep : str) (l : list str) : str :=
  match l with [] => [] | [x] => x | x :: l => x ++ sep ++ join sep l end.

Definition slash : char := 47.
Definition dot : char := 46.

(** ** std::net addresses *)
Module Ip.
Definition decimal_digit (c : char) : option N :=
  if (48 <=? c) && (c <=? 57) then Some (c - 48) else None.
Definition hex_digit (c : char) : option N :=
  if (48 <=? c) && (c <=? 57) then Some (c - 48)
  else if (97 <=? c) && (c <=? 102) then Some (c - 87)
  else if (65 <=? c) && (c <=? 70) then Some (c - 55)
  else None.

(** The longest prefix of digits, and the rest. *)
Fixpoint span_digits (digit : char → option N) (s : str) : list N * str :=
  match s with
  | c :: s' => match digit c with
               | Some d => let '(ds, rest) := span_digits digit s' in (d :: ds, rest)
               | None => ([], s)
               end
  | [] => ([], [])
  end.

Definition number (radix : N) (ds : list N) : N := foldl (λ a d, a * radix + d) 0 ds.

(** [Parser::read_number] *)
Definition read_number (digit : char → option N) (radix limit : N) (max_digits : nat)
    (allow_zero_prefix : bool) (s : str) : option (N * str) :=
  let '(ds, rest) := span_digits digit s in
  match ds with
  | [] => None
  | d :: ds' =>
      if bool_decide (max_digits < length ds)%nat then None
      else if limit <? number radix ds then None
      else if negb allow_zero_prefix && (d =? 0) && negb (bool_decide (ds' = [])) then None
      else Some (number radix ds, rest)
  end.

Definition read_char (c : char) (s : str) : option str :=
  match s with x :: s => if x =? c then Some s else None | [] => None end.

(** [Parser::read_separator]: the separator before every item but the first. *)
Definition read_separator {A} (sep : char) (i : nat) (read : str → option (A * str)) (s : str)
    : option (A * str) :=
  match i with O => read s | _ => s ← read_char sep s; read s end.

Fixpoint read_octets (n i : nat) (s : str) : option (list N * str) :=
  match n with
  | O => Some ([], s)
  | S n =>
      '(o, s) ← read_separator dot i (read_number decimal_digit 10 255 3 false) s;
      '(os, s) ← read_octets n (S i) s;
      Some (o :: os, s)
  end.

Definition read_ipv4_addr (s : str) : option (list N * str) := read_octets 4 0 s.

(** [<Ipv4Addr as FromStr>] *)
Definition parse_ipv4 (s : str) : option (list N) :=
  if 15 <? byte_len s then None
  else match read_ipv4_addr s with Some (a, []) => Some a | _ => None end.

Definition colon : char := 58.

(** [read_groups]: groups read, the rest, and whether an IPv4 part ended it. *)
Fixpoint read_groups (limit i : nat) (s : str) : list N * bool * str :=
  match limit with
  | O => ([], false, s)
  | S limit =>
      let group _ :=
        match read_separator colon i (read_number hex_digit 16 65535 4 true) s with
        | Some (g, s) => let '(gs, v4, s) := read_groups limit (S i) s in (g :: gs, v4, s)
        | None => ([], false, s)
        end in
      match limit with
      | O => group tt
      | S _ =>
          match read_separator colon i read_ipv4_addr s with
          | Some ([a; b; c; d], s) => ([a * 256 + b; c * 256 + d], true, s)
          | _ => group tt
          end
      end
  end.

Definition read_ipv6_addr (s : str) : option (list N * str) :=
  let '(hd, head_ipv4, s) := read_groups 8 0 s in
  if bool_decide (length hd = 8%nat) then Some (hd, s)
  else if head_ipv4 then None
  else
    s ← read_char colon s; s ← read_char colon s;
    let '(tl, _, s) := read_groups (7 - length hd) 0 s in
    Some (hd ++ replicate (8 - length hd - length tl) 0 ++ tl, s).

(** [<Ipv6Addr as FromStr>] *)
Definition parse_ipv6 (s : str) : option (list N) :=
  match read_ipv6_addr s with Some (a, []) => Some a | _ => None end.

(** *** Display *)
Definition show_digit (d : N) : char := if d <? 10 then 48 + d else 87 + d.
Fixpoint show_number (radix : N) (fuel : nat) (n : N) : str :=
  match fuel with
  | O => []
  | S fuel => if n <? radix then [show_digit n]
              else show_number radix fuel (n / radix) ++ [show_digit (n mod radix)]
  end.

Definition show_ipv4 (a : list N) : str := join [dot] (show_number 10 3 <$> a).

Definition show_groups (gs : list N) : str := join [colon] (show_number 16 4 <$> gs).

(** The longest run of zero groups: its start and length. *)
Fixpoint zero_span (i : nat) (current longest : nat * nat) (gs : list N) : nat * nat :=
  match gs with
  | [] => longest
  | g :: gs =>
      if g =? 0 then
        let current := if bool_decide (current.2 = 0%nat) then (i, 1%nat) else (current.1, S current.2) in
        zero_span (S i) current (if bool_decide (longest.2 < current.2)%nat then current else longest) gs
      else zero_span (S i) (0, 0)%nat longest gs
  end.

Definition show_ipv6 (gs : list N) : str :=
  match gs with
  | [0; 0; 0; 0; 0; 65535; a; b] =>
      chars "::ffff:" ++ show_ipv4 [a / 256; a mod 256; b / 256; b mod 256]
  | _ =>
      let '(start, len) := zero_span 0 (0, 0)%nat (0, 0)%nat gs in
      if bool_decide (1 < len)%nat
      then show_groups (take start gs) ++ [colon; colon] ++ show_groups (drop (start + len) gs)
      else show_groups gs
  end.
End Ip.

Example ip_parse : Ip.parse_ipv4 (chars "127.0.0.1") = Some [127; 0; 0; 1] ∧
  Ip.parse_ipv4 (chars "127.0.0.01") = None ∧ Ip.parse_ipv4 (chars "1.2.3") = None ∧
  Ip.parse_ipv6 (chars "2001:db8::1.2.3.4") = Some [8193; 3512; 0; 0; 0; 0; 258; 772] ∧
  Ip.parse_ipv6 (chars "1:2:3:4:5:6:7::") = Some [1; 2; 3; 4; 5; 6; 7; 0] ∧
  Ip.parse_ipv6 (chars "[::1]") = None.
Proof. by vm_compute. Qed.

Example ip_display :
  Ip.show_ipv6 [8193; 3512; 0; 0; 1; 0; 0; 1] = chars "2001:db8::1:0:0:1" ∧
  Ip.show_ipv6 [0; 0; 0; 0; 0; 65535; 258; 772] = chars "::ffff:1.2.3.4" ∧
  Ip.show_ipv6 [0; 0; 0; 0; 0; 0; 0; 1] = chars "::1".
Proof. by vm_compute. Qed.

(** ** The url and idna crates *)
Inductive Host := HostDomain (d : str) | HostIpv4 (octets : list N) | HostIpv6 (segments : list N).

Class UrlCrate (Url : Type) := {
  scheme : Url → str;
  host_str : Url → option str;
  host : Url → option Host;
  path_of : Url → str;
  cannot_be_a_base : Url → bool;
  port_or_known_default : Url → option N }.
#[global] Hint Mode UrlCrate ! : typeclass_instances.

Class HostCrate := {
  host_parse : str → option Host;
  domain_to_ascii : str → option str }.

Inductive Error :=
  | NonHttpScheme | SecureOnly | NonRelativeScheme | DomainMismatch | SameSiteNoneRequiresSecure
  | ErrorSameSiteStrict | ErrorSameSiteLax | SameSiteUnspecifiedTreatedAsLax | PrefixViolation
  | SecureOverlay | NameValueTooLarge | PartitionedMissingPartitionKey | PartitionedRequiresSecure
  | UnsupportedPartitioned | StorageFull | Expired | Parse | PublicSuffix | UnspecifiedDomain.

#[global] Instance Error_eq_dec : EqDecision Error.
Proof. solve_decision. Defined.

Inductive CookieDomain := HostOnly (h : str) | Suffix (s : str) | NotPresent | Empty.
#[global] Instance CookieDomain_eq_dec : EqDecision CookieDomain.
Proof. solve_decision. Defined.

Record CookiePath := { path_str : str; is_from_path_attr : bool }.

Section url.
Context {Url : Type} `{!UrlCrate Url, !HostCrate}.

Definition scheme_is (u : Url) (l : list string) : bool :=
  bool_decide (scheme u ∈ chars <$> l).

Definition is_http_scheme (u : Url) : bool := scheme_is u ["http"; "https"; "ws"; "wss"].

Definition is_host_name (h : str) : bool :=
  bool_decide (Ip.parse_ipv4 h = None) && bool_decide (Ip.parse_ipv6 h = None).

Definition is_secure (u : Url) : bool :=
  if scheme_is u ["https"; "wss"] then true
  else match host u with
       | Some (HostDomain d) => bool_decide (d = chars "localhost")
       | Some (HostIpv4 (a :: _)) => a =? 127
       | Some (HostIpv4 []) => false
       | Some (HostIpv6 gs) => bool_decide (gs = [0; 0; 0; 0; 0; 0; 0; 1])
       | None => false
       end.

Definition is_trustworthy_non_cryptographic (u : Url) : bool :=
  negb (scheme_is u ["https"; "wss"]) && is_secure u.

(** *** Domains *)
Definition canonicalize_host_text (h : str) : option str :=
  let h := trim h in
  if bool_decide (37 ∈ h) then None
  else match host_parse h with
       | Some (HostDomain d) => domain_to_ascii (trim d)
       | Some (HostIpv4 a) => Some (Ip.show_ipv4 a)
       | Some (HostIpv6 gs) => Some ([91] ++ Ip.show_ipv6 gs ++ [93])
       | None => None
       end.

Definition canonical_request_host (u : Url) : option str :=
  match host_str u with
  | Some h => canonicalize_host_text h
  | None => if scheme_is u ["file"] then Some [] else None
  end.

Definition host_only (u : Url) : CookieDomain + Error :=
  match host_str u with
  | Some h => match canonicalize_host_text h with Some d => inl (HostOnly d) | None => inr Parse end
  | None => if scheme_is u ["file"] then inl (HostOnly []) else inr NonRelativeScheme
  end.

Definition domain_matches (d : CookieDomain) (u : Url) : run bool :=
  match canonical_request_host u with
  | None => Ret false
  | Some url_host =>
      match d with
      | HostOnly h => Ret (bool_decide (h = url_host))
      | Suffix suffix =>
          if decide (suffix = url_host) then Ret true
          else if is_host_name url_host && ends_with url_host suffix then
            n ← sub64 (byte_len url_host) (byte_len suffix); n ← sub64 n 1;
            s ← slice_from url_host n;
            Ret (starts_with s [dot])
          else Ret false
      | NotPresent | Empty => Ret false
      end
  end.

Definition host_is_identical (d : CookieDomain) (u : Url) : bool :=
  match canonical_request_host u with
  | None => false
  | Some url_host =>
      match d with
      | HostOnly h | Suffix h => bool_decide (h = url_host)
      | NotPresent | Empty => false
      end
  end.

Definition as_cow (d : CookieDomain) : option str :=
  match d with HostOnly s | Suffix s => Some s | Empty | NotPresent => None end.

Definition is_public_suffix (psl : str → bool) (d : CookieDomain) : bool :=
  match as_cow d with Some s => psl s | None => false end.

(** [String::from(&CookieDomain)] *)
Definition domain_string (d : CookieDomain) : str :=
  match d with HostOnly s | Suffix s => s | Empty | NotPresent => [] end.

(** [<CookieDomain as FromStr>]; [None] is an IDNA error. *)
Definition domain_from_str (value : str) : option CookieDomain :=
  match domain_to_ascii (trim value) with
  | None => None
  | Some d =>
      Some (if decide (d = []) then Empty
            else if decide (d = [dot]) then Empty
            else match d with
                 | c :: rest => if c =? dot then Suffix rest else Suffix d
                 | [] => Empty
                 end)
  end.

(** [cookie_domain::is_match] *)
Definition domain_is_match (domain : str) (u : Url) : run bool :=
  match domain with
  | [] => Ret (bool_decide (canonical_request_host u = Some []))
  | _ => match domain_from_str domain with
         | Some d => domain_matches d u
         | None => Ret false
         end
  end.

(** *** Paths *)
Definition path_parse (p : str) : option CookiePath :=
  if starts_with p [slash] then Some {| path_str := p; is_from_path_attr := true |} else None.

Definition path_matches (p : CookiePath) (u : Url) : run bool :=
  if cannot_be_a_base u then Ret false
  else
    let request_path := path_of u in
    let cookie_path := p.(path_str) in
    if decide (cookie_path = request_path) then Ret true
    else if starts_with request_path cookie_path then
      if ends_with cookie_path [slash] then Ret true
      else
        let n := byte_len cookie_path in
        s ← slice request_path n (n + 1);
        Ret (bool_decide (s = [slash]))
    else Ret false.

Definition default_path (u : Url) : run CookiePath :=
  cp ← (if cannot_be_a_base u then Ret [slash]
        else match rfind slash (path_of u) with
             | None => Ret [slash]
             | Some i => slice (path_of u) 0 (N.max i 1)
             end);
  Ret {| path_str := cp; is_from_path_attr := false |}.

(** [cookie_path::is_match] *)
Definition path_is_match (p : str) (u : Url) : run bool :=
  match path_parse p with Some cp => path_matches cp u | None => Ret false end.
End url.

(** ** Expiry and creation times *)
Inductive CookieExpiration := AtUtc (t : Z) | SessionEnd.

(** [9999-12-31 23:59:59] UTC, in nanoseconds. *)
Definition MAX_RFC3339 : Z := 253402300799 * 1000000000.

Definition expires_by (e : CookieExpiration) (now : Z) : bool :=
  match e with AtUtc t => bool_decide (t ≤ now)%Z | SessionEnd => false end.

(** [From<OffsetDateTime>] *)
Definition expiration_from_time (t : Z) : CookieExpiration := AtUtc (Z.min t MAX_RFC3339).

(** [From<time::Duration>]: zero is the epoch, other lengths count from now,
    cut at the greatest date. *)
Definition expiration_from_duration (now duration : Z) : CookieExpiration :=
  expiration_from_time
    (if (duration =? 0)%Z then 0%Z else (now + Z.min (MAX_RFC3339 - now) duration)%Z).

(** [From<cookie::Expiration>] *)
Definition expiration_from_raw (e : option Z) : CookieExpiration :=
  match e with Some t => AtUtc t | None => SessionEnd end.

Inductive CreationTime := Pending | Unknown | Known (t : Z).
#[global] Instance CreationTime_eq_dec : EqDecision CreationTime.
Proof. solve_decision. Defined.

Definition i64_fits (n : Z) : bool := bool_decide (-9223372036854775808 ≤ n ≤ 9223372036854775807)%Z.

Definition to_unix_micros (created : Z) : option Z :=
  let micros := (created / 1000)%Z in if i64_fits micros then Some micros else None.

(** [in_range]: the instants the calendar of the [time] crate has. *)
Definition from_unix_micros (in_range : Z → bool) (micros : Z) : option Z :=
  if in_range (micros * 1000)%Z then Some (micros * 1000)%Z else None.

Definition normalize (in_range : Z → bool) (created : Z) : option Z :=
  micros ← to_unix_micros created; from_unix_micros in_range micros.

(** ** Cookies *)
Inductive SameSite := SameSiteAttrStrict | SameSiteAttrLax | SameSiteAttrNone.
Inductive CookiePriority := Low | Medium | High.
Inductive CookieSourceScheme := Unset | NonSecure | Secure.
Inductive CookiePartitionKey :=
  | Site (top_level_site : str) (has_cross_site_ancestor : bool)
  | Opaque (nonce : N) (has_cross_site_ancestor : bool).

#[global] Instance SameSite_eq_dec : EqDecision SameSite.
Proof. solve_decision. Defined.
#[global] Instance CookiePriority_eq_dec : EqDecision CookiePriority.
Proof. solve_decision. Defined.
#[global] Instance CookieSourceScheme_eq_dec : EqDecision CookieSourceScheme.
Proof. solve_decision. Defined.
#[global] Instance CookiePartitionKey_eq_dec : EqDecision CookiePartitionKey.
Proof. solve_decision. Defined.
#[global] Instance CookiePartitionKey_countable : Countable CookiePartitionKey.
Proof.
  refine (inj_countable'
    (λ k, match k with Site s b => inl (s, b) | Opaque n b => inr (n, b) end)
    (λ x, match x with inl (s, b) => Site s b | inr (n, b) => Opaque n b end) _). by intros [].
Defined.

(** What [cookie::Cookie] answers about a parsed line. *)
Record RawCookie := {
  name : str; value : str;
  raw_secure : option bool; raw_http_only : option bool; raw_partitioned : option bool;
  same_site : option SameSite;
  raw_domain : option str; raw_path : option str;
  raw_max_age : option Z;                  (* nanoseconds *)
  raw_expires : option (option Z);         (* [Some None] is a session *)
  raw_priority : option CookiePriority }.

Record Cookie := mk_cookie {
  raw_cookie : RawCookie;
  path : CookiePath;
  domain : CookieDomain;
  expires : CookieExpiration;
  creation_index : N;
  creation_time_slot : CreationTime;
  last_access_index : N;
  priority : option CookiePriority;
  source_scheme : CookieSourceScheme;
  source_port : Z;
  partition_key : option CookiePartitionKey }.

Definition secure (c : Cookie) : bool := default false c.(raw_cookie).(raw_secure).
Definition http_only (c : Cookie) : bool := default false c.(raw_cookie).(raw_http_only).
Definition partitioned (c : Cookie) : bool := default false c.(raw_cookie).(raw_partitioned).
Definition cookie_name (c : Cookie) : str := c.(raw_cookie).(name).
Definition cookie_value (c : Cookie) : str := c.(raw_cookie).(value).
Definition cookie_same_site (c : Cookie) : option SameSite := c.(raw_cookie).(same_site).

Definition creation_time (c : Cookie) : option Z :=
  match c.(creation_time_slot) with Known t => Some t | Pending | Unknown => None end.
Definition effective_priority (c : Cookie) : CookiePriority := default Medium c.(priority).
Definition is_persistent (c : Cookie) : bool :=
  match c.(expires) with AtUtc _ => true | SessionEnd => false end.
Definition is_expired (now : Z) (c : Cookie) : bool := expires_by c.(expires) now.

(** *** Field updates *)
Definition set_domain (c : Cookie) (d : CookieDomain) : Cookie :=
  mk_cookie c.(raw_cookie) c.(path) d c.(expires) c.(creation_index) c.(creation_time_slot)
    c.(last_access_index) c.(priority) c.(source_scheme) c.(source_port) c.(partition_key).
Definition set_expires (c : Cookie) (e : CookieExpiration) : Cookie :=
  mk_cookie c.(raw_cookie) c.(path) c.(domain) e c.(creation_index) c.(creation_time_slot)
    c.(last_access_index) c.(priority) c.(source_scheme) c.(source_port) c.(partition_key).
Definition set_creation_index (c : Cookie) (i : N) : Cookie :=
  mk_cookie c.(raw_cookie) c.(path) c.(domain) c.(expires) i c.(creation_time_slot)
    c.(last_access_index) c.(priority) c.(source_scheme) c.(source_port) c.(partition_key).
Definition set_creation_slot (c : Cookie) (t : CreationTime) : Cookie :=
  mk_cookie c.(raw_cookie) c.(path) c.(domain) c.(expires) c.(creation_index) t
    c.(last_access_index) c.(priority) c.(source_scheme) c.(source_port) c.(partition_key).
Definition touch_with_access_index (c : Cookie) (i : N) : Cookie :=
  mk_cookie c.(raw_cookie) c.(path) c.(domain) c.(expires) c.(creation_index) c.(creation_time_slot)
    i c.(priority) c.(source_scheme) c.(source_port) c.(partition_key).
Definition set_partition_key (c : Cookie) (k : option CookiePartitionKey) : Cookie :=
  mk_cookie c.(raw_cookie) c.(path) c.(domain) c.(expires) c.(creation_index) c.(creation_time_slot)
    c.(last_access_index) c.(priority) c.(source_scheme) c.(source_port) k.

(** [Cookie::expire]: [Max-Age] zero. *)
Definition expire (now : Z) (c : Cookie) : Cookie := set_expires c (expiration_from_duration now 0).

Definition set_creation_time (in_range : Z → bool) (c : Cookie) (t : option Z) : Cookie :=
  set_creation_slot c (match t ≫= normalize in_range with Some t => Known t | None => Unknown end).

Definition initialize_creation_time (in_range : Z → bool) (now : Z) (c : Cookie) : Cookie :=
  if decide (c.(creation_time_slot) = Pending) then set_creation_time in_range c (Some now) else c.

Definition restore_creation_time (c : Cookie) : Cookie :=
  if decide (c.(creation_time_slot) = Pending) then set_creation_slot c Unknown else c.

Section cookie.
Context {Url : Type} `{!UrlCrate Url, !HostCrate}.

Definition source_scheme_from_url (u : Url) : CookieSourceScheme :=
  if scheme_is u ["https"; "wss"] then Secure else NonSecure.

(** [Cookie::matches] *)
Definition cookie_matches (c : Cookie) (u : Url) : run bool :=
  p ← path_matches c.(path) u;
  d ← (if (p : bool) then domain_matches c.(domain) u else Ret false);
  Ret (d && (negb (secure c) || is_secure u) && (negb (http_only c) || is_http_scheme u)).

(** [TryFrom<&RawCookie> for CookieDomain]; [None] is an IDNA error. *)
Definition domain_from_raw (c : RawCookie) : option CookieDomain :=
  match c.(raw_domain) with
  | None => Some NotPresent
  | Some d => match domain_to_ascii (trim d) with
              | None => None
              | Some d => Some (if decide (d = []) then Empty else Suffix d)
              end
  end.

Definition try_from_raw_cookie (now : Z) (c : RawCookie) (u : Url) : run (Cookie + Error) :=
  if default false c.(raw_http_only) && negb (is_http_scheme u) then Ret (inr NonHttpScheme)
  else
    d ← match domain_from_raw c with
        | Some (Suffix s) =>
            m ← domain_matches (Suffix s) u;
            Ret (if (m : bool) then inl (Suffix s) else inr DomainMismatch)
        | None => Ret (inr Parse)
        | _ => Ret (host_only u)
        end;
    match d with
    | inr e => Ret (inr e)
    | inl domain =>
        path ← match c.(raw_path) ≫= path_parse with Some p => Ret p | None => default_path u end;
        let expires := match c.(raw_max_age), c.(raw_expires) with
                       | Some d, _ => expiration_from_duration now d
                       | None, Some e => expiration_from_raw e
                       | None, None => SessionEnd
                       end in
        Ret (inl {| raw_cookie := c; path := path; domain := domain; expires := expires;
                    creation_index := 0; creation_time_slot := Pending; last_access_index := 0;
                    priority := c.(raw_priority); source_scheme := source_scheme_from_url u;
                    source_port := match port_or_known_default u with
                                   | Some p => Z.of_N p | None => (-1)%Z end;
                    partition_key := None |})
    end.
End cookie.

(** ** Contexts of calls *)
Inductive CookieAccessSource := Http | Document | Cdp.
Inductive StorageAccessStatus := StorageNone | Granted.
Inductive SameSiteRequestContext := SameSiteStrict | SameSiteLax | SameSiteLaxMethodUnsafe | CrossSite.
Inductive HttpRequestType := Subresource | TopLevelNavigation.
Inductive SameSiteContextDowngradeType := StrictToLax | StrictToCross | LaxToCross.
Inductive SameSiteContextHttpMethod :=
  | MethodUnset | MethodUnknown | Get | Head | Post | Put | MethodDelete | Connect | Options | Trace | Patch.
Inductive SameSiteContextRedirectType :=
  | RedirectUnset | NoRedirect | CrossSiteRedirect | PartialSameSiteRedirect | AllSameSiteRedirect.

#[global] Instance CookieAccessSource_eq_dec : EqDecision CookieAccessSource.
Proof. solve_decision. Defined.
#[global] Instance SameSiteRequestContext_eq_dec : EqDecision SameSiteRequestContext.
Proof. solve_decision. Defined.
#[global] Instance HttpRequestType_eq_dec : EqDecision HttpRequestType.
Proof. solve_decision. Defined.

Record SameSiteContext := {
  ss_context : SameSiteRequestContext; schemeful_context : SameSiteRequestContext }.
Definition for_inclusion (c : SameSiteContext) : SameSiteRequestContext := c.(schemeful_context).
Definition same_site_both (c : SameSiteRequestContext) : SameSiteContext :=
  {| ss_context := c; schemeful_context := c |}.

Record SameSiteContextTrackMetadata := {
  downgraded_by_cross_site_redirect : bool;
  downgrade_type : option SameSiteContextDowngradeType;
  track_http_method : SameSiteContextHttpMethod;
  track_redirect_type : SameSiteContextRedirectType }.

Definition track_none : SameSiteContextTrackMetadata :=
  {| downgraded_by_cross_site_redirect := false; downgrade_type := None;
     track_http_method := MethodUnset; track_redirect_type := RedirectUnset |}.

Definition with_method_and_redirect (t : SameSiteContextTrackMetadata)
    (m : SameSiteContextHttpMethod) (r : SameSiteContextRedirectType) : SameSiteContextTrackMetadata :=
  {| downgraded_by_cross_site_redirect := t.(downgraded_by_cross_site_redirect);
     downgrade_type := t.(downgrade_type); track_http_method := m; track_redirect_type := r |}.

Record SameSiteContextMetadata := {
  meta_context : SameSiteContextTrackMetadata; meta_schemeful : SameSiteContextTrackMetadata }.
Definition metadata_none : SameSiteContextMetadata :=
  {| meta_context := track_none; meta_schemeful := track_none |}.

Section contexts.
Context {Url : Type}.

Record BrowserSiteContext := {
  site_for_cookies_url : option Url; top_frame_origin_url : option Url;
  storage_access_status : StorageAccessStatus;
  cookie_partition_key : option CookiePartitionKey }.
Definition browser_context_empty : BrowserSiteContext :=
  {| site_for_cookies_url := None; top_frame_origin_url := None;
     storage_access_status := StorageNone; cookie_partition_key := None |}.

Record InsertContext := {
  ic_url : Url; ic_source : CookieAccessSource; ic_browser_context : BrowserSiteContext;
  ic_same_site_context : SameSiteContext; ic_request_type : HttpRequestType;
  enforce_browser_policy : bool }.

(** [InsertContext::http], [document] and [cdp] *)
Definition insert_context (source : CookieAccessSource) (u : Url) : InsertContext :=
  {| ic_url := u; ic_source := source; ic_browser_context := browser_context_empty;
     ic_same_site_context := same_site_both SameSiteStrict; ic_request_type := Subresource;
     enforce_browser_policy := true |}.

Record QueryContext := {
  qc_url : Url; qc_source : CookieAccessSource; qc_browser_context : BrowserSiteContext;
  qc_same_site_context : SameSiteContext; qc_metadata : SameSiteContextMetadata;
  qc_request_type : HttpRequestType; is_method_safe : bool;
  qc_http_method : SameSiteContextHttpMethod; qc_redirect_type : SameSiteContextRedirectType;
  include_http_only : bool; update_access_time : bool; return_excluded_cookies : bool }.

Definition query_http (u : Url) : QueryContext :=
  {| qc_url := u; qc_source := Http; qc_browser_context := browser_context_empty;
     qc_same_site_context := same_site_both SameSiteStrict; qc_metadata := metadata_none;
     qc_request_type := Subresource; is_method_safe := true; qc_http_method := Get;
     qc_redirect_type := NoRedirect; include_http_only := true; update_access_time := true;
     return_excluded_cookies := true |}.

Definition query_document (u : Url) : QueryContext :=
  {| qc_url := u; qc_source := Document; qc_browser_context := browser_context_empty;
     qc_same_site_context := same_site_both SameSiteStrict; qc_metadata := metadata_none;
     qc_request_type := Subresource; is_method_safe := true; qc_http_method := MethodUnset;
     qc_redirect_type := RedirectUnset; include_http_only := false; update_access_time := true;
     return_excluded_cookies := true |}.

Definition query_cdp (u : Url) : QueryContext :=
  {| qc_url := u; qc_source := Cdp; qc_browser_context := browser_context_empty;
     qc_same_site_context := same_site_both SameSiteStrict; qc_metadata := metadata_none;
     qc_request_type := Subresource; is_method_safe := true; qc_http_method := MethodUnset;
     qc_redirect_type := RedirectUnset; include_http_only := true; update_access_time := false;
     return_excluded_cookies := false |}.

(** [http_cross_site], [http_cross_site_top_level] and its unsafe form. *)
Definition with_same_site (q : QueryContext) (c : SameSiteRequestContext) (t : HttpRequestType)
    (safe : bool) (m : SameSiteContextHttpMethod) : QueryContext :=
  {| qc_url := q.(qc_url); qc_source := q.(qc_source); qc_browser_context := q.(qc_browser_context);
     qc_same_site_context := same_site_both c; qc_metadata := q.(qc_metadata);
     qc_request_type := t; is_method_safe := safe; qc_http_method := m;
     qc_redirect_type := q.(qc_redirect_type); include_http_only := q.(include_http_only);
     update_access_time := q.(update_access_time);
     return_excluded_cookies := q.(return_excluded_cookies) |}.
Definition http_cross_site (u : Url) : QueryContext :=
  with_same_site (query_http u) CrossSite Subresource true Get.
Definition http_cross_site_top_level (u : Url) : QueryContext :=
  with_same_site (query_http u) SameSiteLax TopLevelNavigation true Get.
Definition http_cross_site_top_level_unsafe (u : Url) : QueryContext :=
  with_same_site (query_http u) SameSiteLaxMethodUnsafe TopLevelNavigation false Post.
End contexts.
#[global] Arguments BrowserSiteContext : clear implicits.
#[global] Arguments InsertContext : clear implicits.
#[global] Arguments QueryContext : clear implicits.

(** ** Results *)
Inductive StoreAction := Inserted | ExpiredExisting | UpdatedExisting.

(** [CookieSetRejectionReason] has the constructors of [Error], and
    [From<CookieError>] and [into_cookie_error] map each to its namesake. *)
Definition CookieSetRejectionReason := Error.
#[global] Instance CookieSetRejectionReason_eq_dec : EqDecision CookieSetRejectionReason := Error_eq_dec.

Inductive CookieSetResult := Accepted (a : StoreAction) | Rejected (r : CookieSetRejectionReason).

Inductive CookieSetWarningReason :=
  DomainAttributeIgnored | PathAttributeIgnored | SetSecureAccessGrantedNonCryptographic.
#[global] Instance CookieSetWarningReason_eq_dec : EqDecision CookieSetWarningReason.
Proof. solve_decision. Defined.

Inductive CookieEffectiveSameSite := NoRestriction | EffectiveLax | LaxAllowUnsafe | EffectiveStrict.
#[global] Instance CookieEffectiveSameSite_eq_dec : EqDecision CookieEffectiveSameSite.
Proof. solve_decision. Defined.

Definition two_minutes : Z := 120 * 1000000000.

(** [CookieEffectiveSameSite::for_cookie] *)
Definition for_cookie (in_range : Z → bool) (s : option SameSite) (created : option Z) (now : Z)
    : CookieEffectiveSameSite :=
  match s with
  | Some SameSiteAttrNone => NoRestriction
  | Some SameSiteAttrLax => EffectiveLax
  | Some SameSiteAttrStrict => EffectiveStrict
  | None =>
      match created ≫= normalize in_range, normalize in_range now with
      | Some created, Some now => if bool_decide (now - created ≤ two_minutes)%Z
                                  then LaxAllowUnsafe else EffectiveLax
      | _, _ => EffectiveLax
      end
  end.

Record CookieSetAccessResult := {
  set_status : CookieSetResult; rejection_reasons : list CookieSetRejectionReason;
  set_warnings : list CookieSetWarningReason;
  set_effective_same_site : option CookieEffectiveSameSite }.

Definition push_new `{EqDecision A} (l : list A) (x : A) : list A :=
  if bool_decide (x ∈ l) then l else l ++ [x].

Definition is_rejected (r : CookieSetAccessResult) : bool :=
  match r.(set_status) with Rejected _ => true | Accepted _ => false end.

Definition add_set_warning (r : CookieSetAccessResult) (w : CookieSetWarningReason)
    : CookieSetAccessResult :=
  {| set_status := r.(set_status); rejection_reasons := r.(rejection_reasons);
     set_warnings := push_new r.(set_warnings) w;
     set_effective_same_site := r.(set_effective_same_site) |}.

Definition add_rejection (r : CookieSetAccessResult) (e : CookieSetRejectionReason)
    : CookieSetAccessResult :=
  {| set_status := if is_rejected r then r.(set_status) else Rejected e;
     rejection_reasons := push_new r.(rejection_reasons) e; set_warnings := r.(set_warnings);
     set_effective_same_site := r.(set_effective_same_site) |}.

Definition with_effective (r : CookieSetAccessResult) (s : CookieSetResult)
    (e : option CookieEffectiveSameSite) : CookieSetAccessResult :=
  {| set_status := s; rejection_reasons := r.(rejection_reasons); set_warnings := r.(set_warnings);
     set_effective_same_site := e |}.

(** [into_insert_result] *)
Definition into_insert_result (r : CookieSetResult) : StoreAction + Error :=
  match r with Accepted a => inl a | Rejected e => inr e end.

Inductive CookieExclusionReason :=
  | ExcludedExpired | ExcludedDomainMismatch | PathMismatch | ExcludedSecureOnly | HttpOnly
  | PortMismatch | SchemeMismatch | ExcludedSameSiteStrict | ExcludedSameSiteLax
  | ExcludedUnspecifiedTreatedAsLax | PartitionKeyMismatch.
Inductive CookieWarningReason :=
  | SchemefulSameSiteContextMismatch | StrictLaxDowngradeStrictSameSite
  | StrictCrossDowngradeStrictSameSite | StrictCrossDowngradeLaxSameSite
  | LaxCrossDowngradeStrictSameSite | LaxCrossDowngradeLaxSameSite
  | SameSiteContextDowngradedByRedirect | SecureAccessGrantedNonCryptographic.
#[global] Instance CookieExclusionReason_eq_dec : EqDecision CookieExclusionReason.
Proof. solve_decision. Defined.
#[global] Instance CookieWarningReason_eq_dec : EqDecision CookieWarningReason.
Proof. solve_decision. Defined.

Inductive CookieAccessSemantics := SemanticsUnknown | NonLegacy | Legacy.
Inductive CookieScopeSemantics := ScopeUnknown | ScopeNonLegacy | ScopeLegacy.

Record CookieInclusionStatus := {
  exclusion_reasons : list CookieExclusionReason; warning_reasons : list CookieWarningReason }.
Definition status_default : CookieInclusionStatus :=
  {| exclusion_reasons := []; warning_reasons := [] |}.
Definition is_included (s : CookieInclusionStatus) : bool := bool_decide (s.(exclusion_reasons) = []).
Definition first_exclusion_reason (s : CookieInclusionStatus) : option CookieExclusionReason :=
  hd_error s.(exclusion_reasons).
Definition add_exclusion (s : CookieInclusionStatus) (r : CookieExclusionReason) : CookieInclusionStatus :=
  {| exclusion_reasons := push_new s.(exclusion_reasons) r; warning_reasons := s.(warning_reasons) |}.
Definition add_warning (s : CookieInclusionStatus) (r : CookieWarningReason) : CookieInclusionStatus :=
  {| exclusion_reasons := s.(exclusion_reasons); warning_reasons := push_new s.(warning_reasons) r |}.

Record CookieAccessResult (Url : Type) := {
  status : CookieInclusionStatus; access_effective : CookieEffectiveSameSite;
  access_context : SameSiteContext; access_metadata : SameSiteContextMetadata;
  access_semantics_of : CookieAccessSemantics; scope_semantics_of : CookieScopeSemantics;
  is_allowed_to_access_secure_cookies : bool; access_browser_context : BrowserSiteContext Url }.
#[global] Arguments status {Url}.

Record CookieWithAccessResult (Url : Type) := {
  entry_cookie : Cookie; access_result : CookieAccessResult Url }.
#[global] Arguments entry_cookie {Url}.
#[global] Arguments access_result {Url}.

Record CookieAccessQueryResult (Url : Type) := {
  included_accesses : list (CookieWithAccessResult Url);
  excluded_accesses : list (CookieWithAccessResult Url) }.
#[global] Arguments included_accesses {Url}.
#[global] Arguments excluded_accesses {Url}.

Record ExcludedCookie := { excluded_cookie : Cookie; reason : CookieExclusionReason }.
Record CookieQueryResult := {
  included_cookies : list Cookie; excluded_cookies : list ExcludedCookie }.
