(* ===== verification/CookieDate.v ===== *)
(** Cookie dates and [Set-Cookie] lines (moli-cookie-store, [cookie_date.rs]):
    the token parser of [Expires], and the line parser that puts its result in
    place of the [cookie] crate's own.  The [time] and [cookie] crates are the
    classes [TimeCrate] and [CookieCrate].  The theorem of the file shows that
    the dates servers send ([Sun, 06 Nov 1994 08:49:37 GMT]) are read back. *)
From stdpp Require Import base list numbers option strings.
From S2P Require Import Prelude Utf8 CookieTypes.

#[local] Open Scope N_scope.

(** ** The crates *)
(** [Date::from_calendar_date] (midnight UTC of a year, month and day),
    [Time::from_hms] and [Time::MAX], in nanoseconds. *)
Class TimeCrate := {
  from_calendar_date : N → N → N → option Z;
  from_hms : N → N → N → option Z;
  time_max : Z }.

(** [Cookie::parse]; the instant [Cookie::set_expires] keeps; what
    [Cookie::domain] answers for a given [Domain]. *)
Class CookieCrate := {
  raw_parse : str → option RawCookie;
  kept_expires : Z → Z;
  answered_domain : str → str }.

(** ** Tokens *)
Definition is_ascii_digit (b : N) : bool := (48 <=? b) && (b <=? 57).

Definition is_delimiter (b : N) : bool :=
  (b =? 9) || ((32 <=? b) && (b <=? 47)) || ((59 <=? b) && (b <=? 64)) ||
  ((91 <=? b) && (b <=? 96)) || ((123 <=? b) && (b <=? 126)).

(** [slice::split] *)
Fixpoint split_bytes (delimiter : N → bool) (s : list N) : list (list N) :=
  match s with
  | [] => [[]]
  | b :: s =>
      if delimiter b then [] :: split_bytes delimiter s
      else match split_bytes delimiter s with
           | t :: ts => (b :: t) :: ts
           | [] => [[b]]
           end
  end.

Definition tokens (input : list N) : list (list N) :=
  filter (λ t, t ≠ []) (split_bytes is_delimiter input).

Fixpoint take_while {A} (p : A → bool) (l : list A) : list A :=
  match l with x :: l => if p x then x :: take_while p l else [] | [] => [] end.

Definition u32_max : N := 4294967295.

Definition push_digit (number : option N) (byte : N) : option N :=
  n ← number;
  if n * 10 + (byte - 48) <=? u32_max then Some (n * 10 + (byte - 48)) else None.

Definition parse_number (input : list N) : option N :=
  match input with
  | [] => None
  | b :: _ => if is_ascii_digit b
              then foldl push_digit (Some 0) (take_while is_ascii_digit input) else None
  end.

Definition try_u8 (n : N) : option N := if n <=? 255 then Some n else None.

(** The loop of [parse_time], [fields] of them left. *)
Fixpoint parse_time_fields (fields : nat) (input : list N) : option (list N) :=
  match fields with
  | O => Some []
  | S fields =>
      let digits := length (take_while is_ascii_digit (take 2 input)) in
      field ← parse_number (take digits input) ≫= try_u8;
      let input := drop digits input in
      match fields with
      | O => Some [field]
      | S _ => match input with
               | 58 :: input => rest ← parse_time_fields fields input; Some (field :: rest)
               | _ => None
               end
      end
  end.

Definition parse_time (input : list N) : option (list N) := parse_time_fields 3 input.

Definition MONTHS : list string :=
  ["jan"; "feb"; "mar"; "apr"; "may"; "jun"; "jul"; "aug"; "sep"; "oct"; "nov"; "dec"].

(** The index of the first month whose name starts the token, from one. *)
Fixpoint month_position (i : N) (names : list string) (token : list N) : option N :=
  match names with
  | [] => None
  | n :: names =>
      if bool_decide (3 ≤ length token)%nat && eq_ignore_ascii_case (take 3 token) (chars n)
      then Some i else month_position (i + 1) names token
  end.

Record DateFields := mk_fields {
  day : option N; month : option N; year : option N; time : option (list N) }.

Definition or_set {A} (o : option A) (v : option A) : option A :=
  match o with Some _ => o | None => v end.

Definition starts_with_digit (token : list N) : bool :=
  match token with b :: _ => is_ascii_digit b | [] => false end.

Definition date_token (f : DateFields) (token : list N) : DateFields :=
  if negb (starts_with_digit token) then
    mk_fields f.(day) (or_set f.(month) (month_position 1 MONTHS token)) f.(year) f.(time)
  else if bool_decide (58 ∈ token) then
    mk_fields f.(day) f.(month) f.(year) (or_set f.(time) (parse_time token))
  else if bool_decide (f.(day) = None) && bool_decide (length token ≤ 2)%nat then
    mk_fields (parse_number token) f.(month) f.(year) f.(time)
  else if bool_decide (f.(year) = None) && bool_decide (length token ≤ 5)%nat then
    mk_fields f.(day) f.(month) (parse_number token) f.(time)
  else f.

Definition full_year (y : N) : N :=
  if y <=? 69 then y + 2000 else if y <=? 99 then y + 1900 else y.

Section date.
Context `{!TimeCrate}.

Definition parse_cookie_date (input : list N) : option Z :=
  let f := foldl date_token (mk_fields None None None None) (tokens input) in
  year ← full_year <$> f.(year);
  day ← f.(day) ≫= try_u8;
  month ← f.(month);
  hms ← f.(time);
  time ← match hms with [hour; minute; second] => from_hms hour minute second | _ => None end;
  if negb ((1 <=? day) && (day <=? 31)) then None
  else if 9999 <? year then date ← from_calendar_date 9999 12 31; Some (date + time_max)%Z
  else date ← from_calendar_date year month day; Some (date + time)%Z.

(** *** Lines *)
Definition expires_attribute (attribute : str) : option str :=
  let '(n, v) := default (attribute, []) (split_once_at 61 attribute) in
  if eq_ignore_ascii_case (trim n) (chars "expires") then Some (trim v) else None.

Definition line_expires (input : str) : option Z :=
  v ← last (omap expires_attribute (tail (split_on 59 input)));
  parse_cookie_date (utf8 v).

Definition set_raw_expires (c : RawCookie) (e : option (option Z)) : RawCookie :=
  {| name := c.(name); value := c.(value); raw_secure := c.(raw_secure);
     raw_http_only := c.(raw_http_only); raw_partitioned := c.(raw_partitioned);
     same_site := c.(same_site); raw_domain := c.(raw_domain); raw_path := c.(raw_path);
     raw_max_age := c.(raw_max_age); raw_expires := e; raw_priority := c.(raw_priority) |}.

Definition parse_cookie `{!CookieCrate} (input : str) : option RawCookie :=
  cookie ← raw_parse input;
  Some (set_raw_expires cookie (Some ∘ kept_expires <$> line_expires input)).
End date.

(** ** Dates as servers send them *)
Definition two (n : N) : list N := [48 + n / 10; 48 + n mod 10].
Definition four (n : N) : list N := two (n / 100) ++ two (n mod 100).
Definition WEEKDAYS : list string := ["Sun"; "Mon"; "Tue"; "Wed"; "Thu"; "Fri"; "Sat"].
Definition MONTH_NAMES : list string :=
  ["Jan"; "Feb"; "Mar"; "Apr"; "May"; "Jun"; "Jul"; "Aug"; "Sep"; "Oct"; "Nov"; "Dec"].

(** [IMF-fixdate] of RFC 9110. *)
Definition fixdate (weekday : string) (d : N) (month : string) (y h m s : N) : list N :=
  chars weekday ++ 44 :: 32 :: two d ++ 32 :: chars month ++ 32 :: four y ++ 32 ::
  (two h ++ 58 :: two m ++ 58 :: two s) ++ 32 :: chars "GMT".

Lemma two_digits n : n < 100 → ∃ a b, a < 10 ∧ b < 10 ∧ n = 10 * a + b ∧ two n = [48 + a; 48 + b].
Proof.
  intros. exists (n / 10), (n mod 10). split_and!; [| by apply N.mod_lt | by apply N.div_mod' | done].
  by apply N.Div0.div_lt_upper_bound.
Qed.

Lemma digit_plain a : a < 10 → is_ascii_digit (48 + a) = true ∧ is_delimiter (48 + a) = false.
Proof.
  intros. assert (a = 0 ∨ a = 1 ∨ a = 2 ∨ a = 3 ∨ a = 4 ∨ a = 5 ∨ a = 6 ∨ a = 7 ∨ a = 8 ∨ a = 9) by lia.
  by destruct_or!; subst.
Qed.

Lemma two_plain n : n < 100 → Forall (λ b, is_delimiter b = false) (two n).
Proof.
  intros (a & b & ? & ? & _ & ->)%two_digits. repeat constructor; by apply digit_plain.
Qed.

Lemma four_plain n : n < 10000 → Forall (λ b, is_delimiter b = false) (four n).
Proof.
  intros. apply Forall_app; split; apply two_plain; [by apply N.Div0.div_lt_upper_bound | by apply N.mod_lt].
Qed.

Lemma split_bytes_plain p t rest : Forall (λ b, p b = false) t →
  split_bytes p (t ++ rest) =
    match split_bytes p rest with t' :: ts => (t ++ t') :: ts | [] => [t] end.
Proof.
  induction 1 as [| b t Hb _ IH]; simpl.
  - destruct rest as [| x rest]; simpl; [done |]. destruct (p x); [done |]. by destruct (split_bytes p rest).
  - rewrite Hb, IH. by destruct (split_bytes p rest).
Qed.

Lemma tokens_next t b rest : t ≠ [] → Forall (λ b, is_delimiter b = false) t → is_delimiter b = true →
  tokens (t ++ b :: rest) = t :: tokens rest.
Proof.
  intros Ht Hp Hb. unfold tokens. rewrite split_bytes_plain by done. simpl. rewrite Hb, app_nil_r.
  by rewrite filter_cons_True.
Qed.

Lemma tokens_skip b rest : is_delimiter b = true → tokens (b :: rest) = tokens rest.
Proof. intros Hb. unfold tokens. simpl. rewrite Hb. by rewrite filter_cons_False by auto. Qed.

Lemma tokens_last t : t ≠ [] → Forall (λ b, is_delimiter b = false) t → tokens t = [t].
Proof.
  intros Ht Hp. unfold tokens. rewrite <- (app_nil_r t) at 1. rewrite split_bytes_plain by done.
  simpl. rewrite app_nil_r. by rewrite filter_cons_True.
Qed.

Lemma take_while_all {A} (p : A → bool) l : Forall (λ x, p x = true) l → take_while p l = l.
Proof. induction 1 as [| x l Hx _ IH]; simpl; [done |]. by rewrite Hx, IH. Qed.

Lemma push_digit_fits n a : a < 10 → n * 10 + a ≤ u32_max → push_digit (Some n) (48 + a) = Some (n * 10 + a).
Proof.
  intros. unfold push_digit. simpl. replace (48 + a - 48) with a by lia.
  by rewrite (proj2 (N.leb_le _ _)) by lia.
Qed.

Lemma parse_digits l : l ≠ [] → Forall (λ b, is_ascii_digit b = true) l →
  parse_number l = foldl push_digit (Some 0) l.
Proof.
  intros Hl H. destruct l as [| b l]; [done |]. unfold parse_number. rewrite take_while_all by done.
  by rewrite (Forall_inv H).
Qed.

Lemma two_ascii n : n < 100 → Forall (λ b, is_ascii_digit b = true) (two n).
Proof. intros (a & b & ? & ? & _ & ->)%two_digits. repeat constructor; by apply digit_plain. Qed.

Lemma parse_two n : n < 100 → parse_number (two n) = Some n.
Proof.
  intros Hn. rewrite parse_digits by (done || by apply two_ascii).
  destruct (two_digits n Hn) as (a & b & Ha & Hb & -> & ->). cbn [foldl].
  rewrite !push_digit_fits by (unfold u32_max; lia). f_equal; lia.
Qed.

Lemma hundreds n : n < 10000 → n / 100 < 100 ∧ n mod 100 < 100 ∧ n = 100 * (n / 100) + n mod 100.
Proof.
  intros. split_and!; [by apply N.Div0.div_lt_upper_bound | by apply N.mod_lt | apply N.div_mod'].
Qed.

Lemma parse_four n : n < 10000 → parse_number (four n) = Some n.
Proof.
  intros (H1 & H2 & E)%hundreds. unfold four.
  rewrite parse_digits by (done || (apply Forall_app; split; by apply two_ascii)).
  destruct (two_digits _ H1) as (a & b & Ha & Hb & E1 & ->), (two_digits _ H2) as (c & d & Hc & Hd & E2 & ->).
  cbn [foldl app]. rewrite !push_digit_fits by (unfold u32_max; lia). f_equal; lia.
Qed.

Lemma month_of_name i m : MONTH_NAMES !! i = Some m →
  month_position 1 MONTHS (chars m) = Some (N.of_nat i + 1) ∧
  Forall (λ b, is_delimiter b = false) (chars m) ∧ length (chars m) = 3%nat ∧
  (∃ b t, chars m = b :: t ∧ is_ascii_digit b = false).
Proof.
  intros H. do 12 (destruct i as [| i]; [injection H as <-; vm_compute; eauto 10 using Forall |]). done.
Qed.

Lemma weekday_no_month w : w ∈ WEEKDAYS →
  month_position 1 MONTHS (chars w) = None ∧ Forall (λ b, is_delimiter b = false) (chars w) ∧
  (∃ b t, chars w = b :: t ∧ is_ascii_digit b = false).
Proof.
  intros (i & H)%list_elem_of_lookup.
  do 7 (destruct i as [| i]; [injection H as <-; vm_compute; eauto 10 using Forall |]). done.
Qed.

(** *** The fields of the tokens *)
Lemma token_word f t b rest : t = b :: rest → is_ascii_digit b = false →
  date_token f t = mk_fields f.(day) (or_set f.(month) (month_position 1 MONTHS t)) f.(year) f.(time).
Proof. intros -> Hb. unfold date_token. by replace (starts_with_digit (b :: rest)) with false. Qed.

Lemma two_no_colon n : n < 100 → 58 ∉ two n.
Proof.
  intros (a & b & ? & ? & _ & ->)%two_digits. rewrite !not_elem_of_cons. split_and!; [lia | lia |].
  apply not_elem_of_nil.
Qed.

Lemma two_head n rest : n < 100 → starts_with_digit (two n ++ rest) = true.
Proof. intros H. by apply two_ascii, Forall_inv in H. Qed.

Lemma token_day f n : f.(day) = None → n < 100 →
  date_token f (two n) = mk_fields (Some n) f.(month) f.(year) f.(time).
Proof.
  intros Hf Hn. unfold date_token. rewrite <- (app_nil_r (two n)) at 1. rewrite two_head, bool_decide_eq_false_2 by (done || by apply two_no_colon).
  rewrite Hf, parse_two by done. done.
Qed.

Lemma token_year f n : is_Some f.(day) → f.(year) = None → n < 10000 →
  date_token f (four n) = mk_fields f.(day) f.(month) (Some n) f.(time).
Proof.
  intros [d Hd] Hf Hn. destruct (hundreds n Hn) as (H1 & H2 & _). unfold date_token.
  rewrite parse_four by done. unfold four at 1. rewrite (two_head (n / 100)) by done.
  rewrite bool_decide_eq_false_2
    by (unfold four; rewrite elem_of_app; intros [H | H]; revert H; by apply two_no_colon).
  by rewrite Hd, Hf.
Qed.

Definition clock (h m s : N) : list N := two h ++ 58 :: two m ++ 58 :: two s.

Lemma take_two n rest : n < 100 →
  length (take_while is_ascii_digit (take 2 (two n ++ rest))) = 2%nat.
Proof. intros H. change (take 2 (two n ++ rest)) with (two n). by rewrite take_while_all by by apply two_ascii. Qed.

Lemma parse_clock h m s : h < 100 → m < 100 → s < 100 → parse_time (clock h m s) = Some [h; m; s].
Proof.
  intros. assert (∀ n rest, n < 100 → parse_number (take 2 (two n ++ rest)) ≫= try_u8 = Some n) as P.
  { intros n rest Hn. change (take 2 (two n ++ rest)) with (two n). rewrite parse_two by done. simpl.
    unfold try_u8. by rewrite (proj2 (N.leb_le _ _)) by lia. }
  unfold parse_time, clock. cbn [parse_time_fields]. rewrite take_two, P by done. cbn [mbind option_bind].
  change (drop 2 (two h ++ 58 :: two m ++ 58 :: two s)) with (58 :: two m ++ 58 :: two s). cbn iota beta.
  rewrite take_two, P by done. cbn [mbind option_bind].
  change (drop 2 (two m ++ 58 :: two s)) with (58 :: two s). cbn iota beta.
  rewrite <- (app_nil_r (two s)). by rewrite take_two, P by done.
Qed.

Lemma token_clock f h m s : f.(time) = None → h < 100 → m < 100 → s < 100 →
  date_token f (clock h m s) = mk_fields f.(day) f.(month) f.(year) (Some [h; m; s]).
Proof.
  intros Hf Hh Hm Hs. unfold date_token. rewrite parse_clock by done. unfold clock at 1.
  rewrite (two_head h) by done. rewrite bool_decide_eq_true_2 by (unfold clock; set_solver).
  by rewrite Hf.
Qed.

Lemma clock_plain h m s : h < 100 → m < 100 → s < 100 →
  Forall (λ b, is_delimiter b = false) (clock h m s).
Proof.
  intros. unfold clock. rewrite !Forall_app, !Forall_cons, Forall_app, Forall_cons.
  by split_and!; try apply two_plain.
Qed.

Section fixdate.
Context `{!TimeCrate}.

(** A cookie date in the form HTTP servers send it ([Sun, 06 Nov 1994
    08:49:37 GMT]) is read as that date at that time: the weekday and the time
    zone are ignored, the year is not shortened, and only a date or a time
    the calendar does not have is refused. *)
Theorem cookie_date_fixdate w d i mn y h m s :
  w ∈ WEEKDAYS → MONTH_NAMES !! i = Some mn → 1 ≤ d ≤ 31 → 100 ≤ y ≤ 9999 →
  h < 24 → m < 60 → s < 60 →
  parse_cookie_date (fixdate w d mn y h m s) =
    time ← from_hms h m s; date ← from_calendar_date y (N.of_nat i + 1) d; Some (date + time)%Z.
Proof.
  intros (W1 & W2 & wb & wt & W3 & W4)%weekday_no_month (M1 & M2 & M3 & mb & mt & M4 & M5)%month_of_name
    Hd Hy Hh Hm Hs. unfold parse_cookie_date.
  assert (tokens (fixdate w d mn y h m s) =
    [chars w; two d; chars mn; four y; clock h m s; chars "GMT"]) as ->.
  { unfold fixdate. fold (clock h m s). rewrite tokens_next, tokens_skip by (done || by rewrite W3).
    rewrite tokens_next by (done || apply two_plain; lia). rewrite tokens_next by (done || by rewrite M4).
    rewrite tokens_next by (done || apply four_plain; lia).
    rewrite tokens_next by (done || apply clock_plain; lia).
    by rewrite tokens_last by (done || by vm_compute; eauto 10 using Forall). }
  cbn [foldl]. rewrite (token_word _ _ _ _ W3 W4), W1. rewrite token_day by (done || lia).
  rewrite (token_word _ _ _ _ M4 M5), M1. rewrite token_year by (done || lia).
  rewrite token_clock by (done || lia). rewrite (token_word _ (chars "GMT") 71 [77; 84]) by done.
  cbn [day month year time or_set mbind option_bind fmap option_fmap option_map]. unfold full_year, try_u8.
  rewrite (proj2 (N.leb_gt y 69)), (proj2 (N.leb_gt y 99)), (proj2 (N.leb_le d 255)) by lia.
  destruct (from_hms h m s) as [t |]; [| done]. cbn [mbind option_bind].
  rewrite (proj2 (N.leb_le 1 d)), (proj2 (N.leb_le d 31)), (proj2 (N.ltb_ge 9999 y)) by lia. done.
Qed.
End fixdate.

(** A calendar with the days of one month: enough to read one date. *)
Definition november : TimeCrate :=
  {| from_calendar_date y m d := if bool_decide ((y, m) = (1994, 11)) && (d <=? 30)
       then Some (783648000000000000 + Z.of_N (d - 1) * 86400000000000)%Z else None;
     from_hms h m s := Some (Z.of_N (h * 3600 + m * 60 + s) * 1000000000)%Z;
     time_max := 86399999999999 |}.

Lemma cookie_date_fixdate_witness :
  @parse_cookie_date november (chars "Sun, 06 Nov 1994 08:49:37 GMT") = Some 784111777000000000%Z.
Proof.
  change (chars "Sun, 06 Nov 1994 08:49:37 GMT") with (fixdate "Sun" 6 "Nov" 1994 8 49 37).
  rewrite (@cookie_date_fixdate november "Sun" 6 10 "Nov" 1994 8 49 37); [reflexivity | | reflexivity | lia ..].
  by apply list_elem_of_here.
Defined.

Example cookie_dates :
  @parse_cookie_date november (chars "Sunday, 06-Nov-94 08:49:37 GMT") = Some 784111777000000000%Z ∧
  @parse_cookie_date november (chars "Sun Nov  6 08:49:37 1994") = Some 784111777000000000%Z ∧
  @parse_cookie_date november (chars "31 Nov 1994 08:49:37") = None ∧
  @parse_cookie_date november (chars "6 Nov 1994 019:21:05") = None.
Proof. by vm_compute. Qed.
