(* ===== verification/CookieMatch.v ===== *)
(** Domain and path matching of cookies (moli-cookie-store,
    [cookie_domain.rs], [cookie_path.rs]) against the definitions of RFC 6265,
    and that the slices they take never panic.  [UrlLaws] states what the
    [url] and [idna] crates promise about their results. *)
From stdpp Require Import base list numbers option strings.
From S2P Require Import Prelude Utf8 CookieTypes.

#[local] Open Scope N_scope.

Definition ascii_text (s : list N) : Prop := Forall (λ c, c < 128) s.

(** Serialized paths are percent-encoded and, unless the URL has an opaque
    path, start with a slash; IDNA results are ASCII. *)
Class UrlLaws (Url : Type) `{!UrlCrate Url, !HostCrate} : Prop := {
  path_ascii : ∀ u : Url, ascii_text (path_of u);
  path_rooted : ∀ u : Url, cannot_be_a_base u = false →
    path_of u = [] ∨ starts_with (path_of u) [slash] = true;
  to_ascii_ascii : ∀ d a, domain_to_ascii d = Some a → ascii_text a }.

(** ** RFC 6265, sections 5.1.3 and 5.1.4 *)
(** Identical, or a suffix after a dot of a host that is not an address. *)
Definition rfc_domain_match (address : bool) (host domain : list N) : Prop :=
  host = domain ∨ (address = false ∧ ∃ p, host = p ++ dot :: domain).

(** The same with the test the code makes on the text of the host. *)
Definition domain_match (host domain : list N) : Prop := rfc_domain_match (negb (is_host_name host)) host domain.

Definition rfc_path_match (request cookie : list N) : Prop :=
  request = cookie ∨
  ∃ rest, request = cookie ++ rest ∧ (last cookie = Some slash ∨ head rest = Some slash).

(** ** Affixes *)
Lemma starts_with_spec s p : starts_with s p = true ↔ ∃ t, s = p ++ t.
Proof.
  unfold starts_with. rewrite bool_decide_eq_true. split.
  - intros E. exists (drop (length p) s). by rewrite <- E at 1; rewrite take_drop.
  - intros [t ->]. by rewrite take_app_length.
Qed.

Lemma suffix_spec s p : ends_with s p = true ↔ ∃ t, s = t ++ p.
Proof.
  unfold ends_with. rewrite andb_true_iff, !bool_decide_eq_true. split.
  - intros [_ E]. exists (take (length s - length p) s). by rewrite <- E at 2; rewrite take_drop.
  - intros [t ->]. rewrite length_app. split; [lia |].
    replace (length t + length p - length p)%nat with (length t) by lia. by rewrite drop_app_length.
Qed.

Lemma ends_with_char s c : ends_with s [c] = true ↔ last s = Some c.
Proof.
  rewrite suffix_spec. split.
  - intros [t ->]. by rewrite last_snoc.
  - intros E. apply last_Some in E as [t ->]. by exists t.
Qed.

Lemma ascii_len c : c < 128 → len_utf8 c = 1.
Proof. intros. unfold len_utf8. by rewrite (proj2 (N.ltb_lt _ _)). Qed.

(** ** Canonical hosts are ASCII *)
Lemma ascii_app s t : ascii_text s → ascii_text t → ascii_text (s ++ t).
Proof. intros. by apply Forall_app. Qed.

Lemma join_ascii sep l : ascii_text sep → Forall ascii_text l → ascii_text (join sep l).
Proof.
  intros Hs H. induction H as [| x l Hx Hl IH]; simpl; [constructor |].
  destruct l; [done |]. by repeat apply ascii_app.
Qed.

Lemma show_number_ascii radix fuel n : 0 < radix ≤ 16 → ascii_text (Ip.show_number radix fuel n).
Proof.
  intros Hr. assert (∀ d, d < radix → ascii_text [Ip.show_digit d]) as D.
  { intros d Hd. constructor; [| constructor]. unfold Ip.show_digit. destruct (N.ltb_spec d 10); lia. }
  revert n. induction fuel as [| fuel IH]; intros n; simpl; [constructor |].
  destruct (N.ltb_spec n radix); [by apply D |]. apply ascii_app; [done |]. apply D, N.mod_lt. lia.
Qed.

Lemma show_ipv4_ascii a : ascii_text (Ip.show_ipv4 a).
Proof.
  apply join_ascii; [by repeat constructor |]. apply Forall_fmap, Forall_forall. intros.
  by apply show_number_ascii.
Qed.

Lemma show_groups_ascii gs : ascii_text (Ip.show_groups gs).
Proof.
  apply join_ascii; [by repeat constructor |]. apply Forall_fmap, Forall_forall. intros.
  by apply show_number_ascii.
Qed.

Lemma show_ipv6_ascii gs : ascii_text (Ip.show_ipv6 gs).
Proof.
  unfold Ip.show_ipv6.
  assert (ascii_text (let '(start, len) := Ip.zero_span 0 (0, 0)%nat (0, 0)%nat gs in
      if bool_decide (1 < len)%nat
      then Ip.show_groups (take start gs) ++ [Ip.colon; Ip.colon] ++ Ip.show_groups (drop (start + len) gs)
      else Ip.show_groups gs)) as D.
  { destruct (Ip.zero_span _ _ _ _) as [start len]. case_bool_decide; [| apply show_groups_ascii].
    repeat apply ascii_app; try apply show_groups_ascii. by repeat constructor. }
  repeat (case_match; try exact D); (apply ascii_app; [by repeat constructor | apply show_ipv4_ascii]).
Qed.

(** ** IPv4 addresses read back what they print *)
Module Ipv4.
Lemma octet_read n r : n < 256 →
  Ip.read_number Ip.decimal_digit 10 255 3 false (Ip.show_number 10 3 n) = Some (n, []) ∧
  Ip.read_number Ip.decimal_digit 10 255 3 false (Ip.show_number 10 3 n ++ dot :: r) = Some (n, dot :: r) ∧
  byte_len (Ip.show_number 10 3 n) ≤ 3.
Proof.
  intros Hn. revert n Hn r.
  assert (Forall (λ n, ∀ r,
    Ip.read_number Ip.decimal_digit 10 255 3 false (Ip.show_number 10 3 n) = Some (n, []) ∧
    Ip.read_number Ip.decimal_digit 10 255 3 false (Ip.show_number 10 3 n ++ dot :: r) = Some (n, dot :: r) ∧
    byte_len (Ip.show_number 10 3 n) ≤ 3) (N.of_nat <$> seq 0 256)) as H.
  { let l := eval vm_compute in (N.of_nat <$> seq 0 256) in change (N.of_nat <$> seq 0 256) with l.
    repeat (apply Forall_cons; split; [intros r; split_and!; [reflexivity | reflexivity | by vm_compute] |]). constructor. }
  intros n Hn. rewrite Forall_forall in H. apply H, list_elem_of_fmap. exists (N.to_nat n).
  split; [lia |]. apply elem_of_seq. lia.
Qed.

Lemma parse_shown a : length a = 4%nat → Forall (λ o, o < 256) a → Ip.parse_ipv4 (Ip.show_ipv4 a) = Some a.
Proof.
  destruct a as [| a [| b [| c [| d [|]]]]]; try done. intros _. rewrite !Forall_cons. intros (Ha & Hb & Hc & Hd & _).
  change (Ip.show_ipv4 [a; b; c; d]) with (Ip.show_number 10 3 a ++ dot :: (Ip.show_number 10 3 b ++ dot ::
    (Ip.show_number 10 3 c ++ dot :: Ip.show_number 10 3 d))).
  set (tc := Ip.show_number 10 3 c ++ dot :: Ip.show_number 10 3 d). set (tb := Ip.show_number 10 3 b ++ dot :: tc).
  destruct (octet_read a tb Ha) as (_ & Ra & La). destruct (octet_read b tc Hb) as (_ & Rb & Lb).
  destruct (octet_read c (Ip.show_number 10 3 d) Hc) as (_ & Rc & Lc). destruct (octet_read d [] Hd) as (Rd & _ & Ld).
  unfold Ip.parse_ipv4. assert (byte_len (Ip.show_number 10 3 a ++ dot :: tb) ≤ 15) as L.
  { unfold tb, tc. rewrite !byte_len_app, !byte_len_cons, !byte_len_app, !byte_len_cons, !byte_len_app, !byte_len_cons.
    change (len_utf8 dot) with 1. lia. }
  rewrite (proj2 (N.ltb_ge _ _) L). unfold Ip.read_ipv4_addr. cbn [Ip.read_octets Ip.read_separator].
  rewrite Ra. cbn [mbind option_bind Ip.read_char]. rewrite N.eqb_refl. cbn [mbind option_bind]. fold tb.
  unfold tb. rewrite Rb. cbn [mbind option_bind Ip.read_char]. rewrite N.eqb_refl. cbn [mbind option_bind].
  unfold tc. rewrite Rc. cbn [mbind option_bind Ip.read_char]. rewrite N.eqb_refl. cbn [mbind option_bind].
  by rewrite Rd.
Qed.
End Ipv4.

Section match_laws.
Context {Url : Type} `{!UrlCrate Url, !HostCrate, !UrlLaws Url}.

Lemma canonical_host_ascii h d : canonicalize_host_text h = Some d → ascii_text d.
Proof.
  unfold canonicalize_host_text. case_bool_decide; [done |].
  destruct (host_parse _) as [[a | a | gs] |]; [apply to_ascii_ascii | | | done]; intros [= <-].
  - apply show_ipv4_ascii.
  - constructor; [done |]. apply ascii_app; [apply show_ipv6_ascii | by repeat constructor].
Qed.

Lemma request_host_ascii (u : Url) h : canonical_request_host u = Some h → ascii_text h.
Proof.
  unfold canonical_request_host. destruct (host_str u); [apply canonical_host_ascii |].
  destruct (scheme_is u _); [| done]. intros [= <-]. constructor.
Qed.

(** The character before a proper suffix. *)
Lemma slice_before p c s : len_utf8 c = 1 →
  (n ← sub64 (byte_len ((p ++ [c]) ++ s)) (byte_len s); n ← sub64 n 1; slice_from ((p ++ [c]) ++ s) n) =
    Ret (c :: s).
Proof.
  intros Hc. assert (byte_len ((p ++ [c]) ++ s) = byte_len p + 1 + byte_len s) as E.
  { rewrite !byte_len_app, byte_len_cons, Hc. change (byte_len []) with 0. lia. }
  rewrite E, sub64_fits by lia. cbn [mbind run_bind].
  rewrite sub64_fits by lia. cbn [mbind run_bind].
  replace (byte_len p + 1 + byte_len s - byte_len s - 1) with (byte_len p) by lia.
  rewrite <- app_assoc. apply slice_from_app.
Qed.

Lemma suffix_matches_spec d (u : Url) :
  ∃ b, domain_matches (Suffix d) u = Ret b ∧
    (b = true ↔ ∃ h, canonical_request_host u = Some h ∧ domain_match h d).
Proof.
  unfold domain_matches. destruct (canonical_request_host u) as [h |] eqn:Eh; cycle 1.
  { exists false. split; [done |]. split; [done |]. by intros (? & ? & _). }
  destruct (decide (d = h)) as [-> | Hne].
  { exists true. split; [done |]. split; [| done]. intros _. exists h. split; [done | by left]. }
  assert ((∃ h', Some h = Some h' ∧ domain_match h' d) ↔
          is_host_name h = true ∧ ∃ p, h = p ++ dot :: d) as E.
  { unfold domain_match, rfc_domain_match. setoid_rewrite negb_false_iff.
    split; [by intros (? & [= <-] & [? | ?]) |]. intros ?. exists h. auto. }
  setoid_rewrite E. clear E. destruct (is_host_name h); simpl; cycle 1.
  { exists false. split; [done |]. split; [done |]. by intros []. }
  destruct (ends_with h d) eqn:Ed; simpl; cycle 1.
  { exists false. split; [done |]. split; [done |]. intros (_ & p & ->).
    assert (ends_with (p ++ dot :: d) d = true); [| congruence]. apply suffix_spec.
    exists (p ++ [dot]). by rewrite <- app_assoc. }
  apply suffix_spec in Ed as [t ->]. destruct t as [| c p _] using rev_ind; [done |].
  assert (len_utf8 c = 1) as Hc.
  { apply ascii_len. apply request_host_ascii in Eh. unfold ascii_text in Eh.
    rewrite !Forall_app, Forall_singleton in Eh. naive_solver. }
  pose proof (slice_before p c d Hc) as S. rewrite run_bind_Ret in S. destruct S as (n1 & -> & S).
  cbn [mbind run_bind]. rewrite run_bind_Ret in S. destruct S as (n2 & -> & S). cbn [mbind run_bind]. rewrite S.
  eexists. split; [done |]. rewrite starts_with_spec. split.
  - intros [t [= -> _]]. split; [done |]. exists p. by rewrite <- app_assoc.
  - intros (_ & p' & E). rewrite <- app_assoc in E. apply app_inj_2 in E as [_ [= ->]]; [by exists d | done].
Qed.

Lemma path_matches_spec p (u : Url) :
  ∃ b, path_matches p u = Ret b ∧
    (b = true ↔ cannot_be_a_base u = false ∧ rfc_path_match (path_of u) p.(path_str)).
Proof.
  unfold path_matches. destruct (cannot_be_a_base u).
  { exists false. split; [done |]. split; [done |]. by intros []. }
  pose proof (path_ascii u) as Ha. set (r := path_of u) in *. clearbody r.
  destruct p as [cp attr]. cbn [path_str].
  destruct (decide (cp = r)) as [-> | Hne].
  { exists true. split; [done |]. split; [| done]. split; [done | by left]. }
  unfold rfc_path_match. destruct (starts_with r cp) eqn:Es; cycle 1.
  { exists false. split; [done |]. split; [done |]. intros (_ & [-> | (t & -> & _)]); [done |].
    assert (starts_with (cp ++ t) cp = true); [| congruence]. apply starts_with_spec. eauto. }
  apply starts_with_spec in Es as [t ->]. destruct (ends_with cp [slash]) eqn:Ee.
  { exists true. split; [done |]. split; [| done]. split; [done |]. right. exists t. split; [done |].
    left. by apply ends_with_char. }
  destruct t as [| c t]; [by rewrite app_nil_r in Hne |].
  assert (slice (cp ++ c :: t) (byte_len cp) (byte_len cp + 1) = Ret [c]) as ->.
  { unfold ascii_text in Ha. rewrite Forall_app, Forall_cons in Ha.
    pose proof (slice_app cp [c] t) as S. by rewrite byte_len_snoc, ascii_len in S by apply Ha. }
  cbn [mbind run_bind]. eexists. split; [done |]. rewrite bool_decide_eq_true. split.
  - intros [= ->]. split; [done |]. right. exists (slash :: t). auto.
  - intros (_ & [E | (t' & E & [El | Eh])]).
    + by apply (f_equal length) in E; rewrite length_app in E; simpl in E; lia.
    + apply ends_with_char in El. congruence.
    + apply app_inv_head in E as <-. simpl in Eh. by injection Eh as ->.
Qed.

(** RFC 6265, 5.1.4: the path up to its last slash, or [/] when that is the
    first character or there is none. *)
Inductive rfc_default_path : list N → list N → Prop :=
  | default_unrooted path : head path ≠ Some slash → rfc_default_path path [slash]
  | default_root rest : slash ∉ rest → rfc_default_path (slash :: rest) [slash]
  | default_directory dir rest : slash ∉ rest →
      rfc_default_path ((slash :: dir) ++ slash :: rest) (slash :: dir).

Lemma rfind_Some c s i : rfind c s = Some i → ∃ a b, s = a ++ c :: b ∧ i = byte_len a ∧ c ∉ b.
Proof.
  revert i. induction s as [| x s IH]; simpl; [done |]. intros i.
  destruct (rfind c s) as [j |] eqn:E.
  - intros [= <-]. destruct (IH j) as (a & b & -> & -> & Hb); [done |].
    exists (x :: a), b. by rewrite byte_len_cons.
  - destruct (N.eqb_spec x c) as [-> |]; [| done]. intros [= <-]. exists [], s.
    split_and!; [done | done |]. clear IH. induction s as [| y s IHs]; [apply not_elem_of_nil |].
    simpl in E. destruct (rfind c s) eqn:Es; [done |]. destruct (N.eqb_spec y c); [done |].
    apply not_elem_of_cons. auto.
Qed.

Lemma rfind_None c s : rfind c s = None → c ∉ s.
Proof.
  induction s as [| x s IH]; simpl; [intros _; apply not_elem_of_nil |].
  destruct (rfind c s); [done |]. destruct (N.eqb_spec x c); [done |]. intros _. apply not_elem_of_cons. auto.
Qed.

Lemma default_path_spec (u : Url) : cannot_be_a_base u = false →
  ∃ p, default_path u = Ret {| path_str := p; is_from_path_attr := false |} ∧
       rfc_default_path (path_of u) p.
Proof.
  intros Hb. unfold default_path. rewrite Hb. pose proof (path_rooted u Hb) as Hr.
  set (r := path_of u) in *. clearbody r. destruct (rfind slash r) as [i |] eqn:E; cycle 1.
  { exists [slash]. split; [done |]. constructor. apply rfind_None in E. destruct r; [done |]. simpl.
    intros [= ->]. apply E. left. }
  apply rfind_Some in E as (a & b & -> & -> & Hs). destruct a as [| x a].
  { exists [slash]. split; [| by constructor]. change (N.max (byte_len []) 1) with 1.
    pose proof (slice_app [] [slash] b) as S. change (byte_len ([] ++ [slash])) with 1 in S.
    change (byte_len []) with 0 in S. cbn [app] in S |- *. by rewrite S. }
  assert (x = slash) as ->.
  { destruct Hr as [? | Hr]; [done |]. apply starts_with_spec in Hr as [t Ht]. by injection Ht as -> _. }
  exists (slash :: a). split; [| by constructor].
  pose proof (slice_app [] (slash :: a) (slash :: b)) as S. change (byte_len []) with 0 in S. cbn [app] in S |- *.
  rewrite N.max_l; [by rewrite S |]. rewrite byte_len_cons. change (len_utf8 slash) with 1. lia.
Qed.

(** *** Hosts and addresses *)
(** What the [url] crate finds the host of a request to be. *)
Definition request_host (u : Url) : option Host :=
  h ← host_str u; if bool_decide (37 ∈ trim h) then None else host_parse (trim h).

Definition is_address (u : Url) : bool :=
  match request_host u with Some (HostIpv4 _) | Some (HostIpv6 _) => true | _ => false end.

(** What the crates promise about that host: an IPv4 address has four octets,
    and a text that reads as an address is not taken for a domain. *)
Definition host_classified (u : Url) : Prop :=
  match request_host u with
  | Some (HostDomain d) => ∀ a, domain_to_ascii (trim d) = Some a → Ip.parse_ipv4 a = None ∧ Ip.parse_ipv6 a = None
  | Some (HostIpv4 a) => length a = 4%nat ∧ Forall (λ o, o < 256) a
  | _ => True
  end.

(** The IPv6 addresses whose text has dots are those that embed an IPv4 one. *)
Definition dotted (u : Url) : Prop :=
  match request_host u with Some (HostIpv6 gs) => dot ∈ Ip.show_ipv6 gs | _ => False end.

Lemma canonical_of_host (u : Url) h : canonical_request_host u = Some h →
  match request_host u with
  | Some (HostDomain d) => domain_to_ascii (trim d) = Some h
  | Some (HostIpv4 a) => h = Ip.show_ipv4 a
  | Some (HostIpv6 gs) => h = [91] ++ Ip.show_ipv6 gs ++ [93]
  | None => h = []
  end.
Proof.
  unfold canonical_request_host, request_host, canonicalize_host_text. destruct (host_str u) as [t |]; simpl.
  - case_bool_decide; [done |]. destruct (host_parse (trim t)) as [[d | a | gs] |]; [done | | | done]; by intros [= <-].
  - destruct (scheme_is u _); [| done]. by intros [= <-].
Qed.

Lemma address_text (u : Url) h : host_classified u → canonical_request_host u = Some h → ¬ dotted u →
  is_address u = negb (is_host_name h) ∨ ∀ p d, h ≠ p ++ dot :: d.
Proof.
  intros Hc Hh%canonical_of_host Hd. unfold host_classified, dotted, is_address in *.
  destruct (request_host u) as [[d | a | gs] |].
  - left. destruct (Hc h Hh) as [E1 E2]. unfold is_host_name. by rewrite E1, E2.
  - left. subst h. destruct Hc as [Hl Ha]. unfold is_host_name. by rewrite (Ipv4.parse_shown a Hl Ha).
  - right. subst h. intros p d E. apply Hd. assert (dot ∈ [91] ++ Ip.show_ipv6 gs ++ [93]) as Hin.
    { rewrite E. apply elem_of_app. right. by left. }
    rewrite !elem_of_app, !list_elem_of_singleton in Hin. by destruct Hin as [Hin | [? | Hin]].
  - right. subst h. by intros [] d.
Qed.

(** C32: domain matching, path matching and the default path are those of
    RFC 6265, and none of the slices they take panics: a [Domain] matches the
    identical host or a host that ends in it after a dot and is not an
    address; a path matches itself and what lies below it.  The hosts left
    out are IPv6 addresses that embed an IPv4 one, whose text has dots. *)
Theorem matching_is_rfc6265 (u : Url) (d : list N) (p : CookiePath) : host_classified u → ¬ dotted u →
  (∃ b, domain_matches (Suffix d) u = Ret b ∧
     (b = true ↔ ∃ h, canonical_request_host u = Some h ∧ rfc_domain_match (is_address u) h d)) ∧
  (∃ b, path_matches p u = Ret b ∧
     (b = true ↔ cannot_be_a_base u = false ∧ rfc_path_match (path_of u) p.(path_str))) ∧
  (cannot_be_a_base u = false →
   ∃ q, default_path u = Ret {| path_str := q; is_from_path_attr := false |} ∧
        rfc_default_path (path_of u) q).
Proof.
  intros Hc Hd. split_and!; [| apply path_matches_spec | apply default_path_spec].
  destruct (suffix_matches_spec d u) as (b & E & Hb). exists b. split; [done |]. rewrite Hb.
  enough (∀ h, canonical_request_host u = Some h → domain_match h d ↔ rfc_domain_match (is_address u) h d) by naive_solver.
  intros h Hh. unfold domain_match, rfc_domain_match.
  destruct (address_text u h Hc Hh Hd) as [-> | Hno]; [done |]. naive_solver.
Qed.

(** Every kind of domain gives an answer. *)
Lemma domain_matches_total d (u : Url) : ∃ b, domain_matches d u = Ret b.
Proof.
  destruct d as [h | s | |]; [| destruct (suffix_matches_spec s u) as (b & -> & _); eauto | |];
    unfold domain_matches; destruct (canonical_request_host u); eauto.
Qed.

Lemma path_matches_total p (u : Url) : ∃ b, path_matches p u = Ret b.
Proof. destruct (path_matches_spec p u) as (b & -> & _). eauto. Qed.

Lemma default_path_total (u : Url) : ∃ p, default_path u = Ret p.
Proof.
  destruct (cannot_be_a_base u) eqn:E.
  - unfold default_path. rewrite E. simpl. eauto.
  - destruct (default_path_spec u E) as (p & -> & _). eauto.
Qed.

Lemma domain_is_match_total d (u : Url) : ∃ b, domain_is_match d u = Ret b.
Proof.
  unfold domain_is_match. destruct d; [eauto |]. destruct (domain_from_str _); [| eauto].
  apply domain_matches_total.
Qed.

Lemma path_is_match_total p (u : Url) : ∃ b, path_is_match p u = Ret b.
Proof. unfold path_is_match. destruct (path_parse p); [apply path_matches_total | eauto]. Qed.

Lemma cookie_matches_total c (u : Url) : ∃ b, cookie_matches c u = Ret b.
Proof.
  unfold cookie_matches. destruct (path_matches_total c.(path) u) as [p ->]. cbn [mbind run_bind].
  destruct p; cbn [mbind run_bind]; [| eauto].
  destruct (domain_matches_total c.(domain) u) as [b ->]. cbn [mbind run_bind]. eauto.
Qed.

Lemma try_from_raw_total now c (u : Url) : ∃ r, try_from_raw_cookie now c u = Ret r.
Proof.
  unfold try_from_raw_cookie. destruct (default false _ && _); [eauto |].
  match goal with |- ∃ r, ?m ≫= _ = _ => assert (∃ d, m = Ret d) as [d ->] end.
  { destruct (domain_from_raw c) as [[] |]; eauto.
    destruct (domain_matches_total (Suffix s) u) as [b ->]. cbn [mbind run_bind]. eauto. }
  cbn [mbind run_bind]. destruct d as [d | e]; [| eauto].
  match goal with |- ∃ r, ?m ≫= _ = _ => assert (∃ p, m = Ret p) as [p ->] end.
  { destruct (c.(raw_path) ≫= path_parse); [eauto | apply default_path_total]. }
  cbn [mbind run_bind]. eauto.
Qed.
End match_laws.

(** ** A small instance of the crates *)
(** URLs of a scheme, an ASCII host and a path below the root. *)
Module Plain.
Record Url := mk_url { url_scheme : string; url_host : string; url_path : string }.

#[export] Instance host_crate : HostCrate := {|
  host_parse h := Some (HostDomain h);
  domain_to_ascii d := if forallb (λ c, (32 <? c) && (c <? 128)) d then Some (to_ascii_lowercase <$> d) else None |}.

#[export] Instance url_crate : UrlCrate Url := {|
  scheme u := chars u.(url_scheme);
  host_str u := Some (chars u.(url_host));
  host u := host_parse (chars u.(url_host));
  path_of u := slash :: filter (λ c, c < 128) (chars u.(url_path));
  cannot_be_a_base _ := false;
  port_or_known_default _ := None |}.

#[export] Instance url_laws : UrlLaws Url.
Proof.
  split.
  - intros u. constructor; [done |]. apply Forall_forall. intros c. by rewrite list_elem_of_filter; intros [].
  - intros u _. right. by apply starts_with_spec; eexists.
  - intros d a. simpl. destruct (forallb _ d) eqn:E; [| done]. intros [= <-].
    apply Forall_fmap, Forall_forall. intros c Hc. simpl. rewrite forallb_forall in E.
    apply list_elem_of_In, E, andb_true_iff in Hc as [_ Hc%N.ltb_lt]. unfold to_ascii_lowercase. destruct (N.leb_spec 65 c), (N.leb_spec c 90); simpl; lia.
Qed.
End Plain.
Import (hints) Plain.

Lemma matching_is_rfc6265_witness :
  (∃ b, domain_matches (Suffix (chars "example.com")) (Plain.mk_url "https" "a.example.com" "x/y") = Ret b ∧
     b = true) ∧
  ∃ q, default_path (Plain.mk_url "https" "a.example.com" "x/y") =
    Ret {| path_str := q; is_from_path_attr := false |}.
Proof.
  destruct (matching_is_rfc6265 (Plain.mk_url "https" "a.example.com" "x/y") (chars "example.com")
    {| path_str := chars "/x"; is_from_path_attr := true |}) as ((b & Hb & Eb) & _ & Hd).
  - intros a [= <-]. split; vm_compute; reflexivity.
  - intros [].
  - split.
    + exists b. split; [exact Hb |]. apply Eb. exists (chars "a.example.com"). split; [reflexivity |].
      right. split; [reflexivity |]. by exists (chars "a").
    + destruct (Hd eq_refl) as (q & Hq & _). by exists q.
Defined.
