(* ===== verification/CookiePolicy.v ===== *)
(** The decisions of the cookie store (moli-cookie-store,
    [cookie_store/policy.rs], [query_policy.rs] and the parts of [store.rs]
    and [write_policy.rs] that do not touch the store): prefixes, overlaps,
    deletion filters, SameSite, and the access result of one cookie. *)
From stdpp Require Import base list numbers option gmap strings.
From S2P Require Import Prelude Utf8 CookieTypes.

#[local] Open Scope N_scope.

Definition MAX_COOKIE_NAME_VALUE_BYTES : N := 4096.
Definition MAX_COOKIE_ATTRIBUTE_VALUE_BYTES : N := 1024.

(** ** policy.rs *)
Definition access_semantics (c : Cookie) : CookieAccessSemantics :=
  match cookie_same_site c with Some _ => NonLegacy | None => SemanticsUnknown end.

Definition scope_semantics (c : Cookie) : CookieScopeSemantics := ScopeUnknown.

(** [sort_by], stable: longer paths first, then older cookies. *)
Definition projection_le (l r : Cookie) : bool :=
  match (byte_len r.(path).(path_str) ?= byte_len l.(path).(path_str)) with
  | Lt => true
  | Eq => l.(creation_index) <=? r.(creation_index)
  | Gt => false
  end.

Fixpoint insert_by {A} (le : A → A → bool) (x : A) (l : list A) : list A :=
  match l with
  | [] => [x]
  | y :: l' => if le x y then x :: l else y :: insert_by le x l'
  end.

Definition sort_by {A} (le : A → A → bool) (l : list A) : list A := foldr (insert_by le) [] l.

Definition sort_included_cookies_for_projection (l : list Cookie) : list Cookie :=
  sort_by projection_le l.

Definition sort_included_cookie_accesses_for_projection {Url} (l : list (CookieWithAccessResult Url))
    : list (CookieWithAccessResult Url) :=
  sort_by (λ a b, projection_le a.(entry_cookie) b.(entry_cookie)) l.

Definition canonical_cookie_domain (c : Cookie) : str := domain_string c.(domain).

Definition is_host_only (c : Cookie) : bool :=
  match c.(domain) with HostOnly _ => true | _ => false end.

Definition delete_filter_domain_matches_host (request_host cookie_domain : str) (host_only : bool) : bool :=
  let request_host := to_ascii_lowercase <$> request_host in
  let cookie_domain := to_ascii_lowercase <$> cookie_domain in
  if host_only then bool_decide (request_host = cookie_domain)
  else bool_decide (request_host = cookie_domain) || ends_with request_host (dot :: cookie_domain).

Inductive CookiePartitionMatch :=
  | MatchAny | MatchUnpartitioned | MatchExact (k : CookiePartitionKey)
  | MatchSerialized (top_level_site : option str) (has_cross_site_ancestor : option bool).

Record CookieDeleteFilter := {
  filter_name : option str; filter_domain : option str; filter_serialized_domain : option str;
  filter_path : option str; filter_url_host : option str; filter_partition : CookiePartitionMatch }.

(** A constraint that is absent holds. *)
Definition is_none_or {A} (o : option A) (f : A → bool) : bool :=
  match o with Some a => f a | None => true end.

Definition cookie_matches_delete_filter (c : Cookie) (f : CookieDeleteFilter) : bool :=
  let cookie_domain := canonical_cookie_domain c in
  is_none_or f.(filter_name) (λ w, bool_decide (cookie_name c = w)) &&
  is_none_or f.(filter_domain) (λ w, bool_decide (cookie_domain = w)) &&
  is_none_or f.(filter_serialized_domain) (λ w,
    match c.(domain) with
    | Suffix _ => bool_decide (w = dot :: cookie_domain)
    | _ => bool_decide (w = cookie_domain)
    end) &&
  is_none_or f.(filter_path) (λ w, bool_decide (c.(path).(path_str) = w)) &&
  is_none_or f.(filter_url_host) (λ w, delete_filter_domain_matches_host w cookie_domain (is_host_only c)) &&
  match f.(filter_partition) with
  | MatchAny => true
  | MatchUnpartitioned => bool_decide (c.(partition_key) = None)
  | MatchExact k => bool_decide (c.(partition_key) = Some k)
  | MatchSerialized site ancestor =>
      match c.(partition_key) with
      | Some (Site s a) => is_none_or site (λ w, bool_decide (w = s)) &&
                           is_none_or ancestor (λ w, Bool.eqb w a)
      | _ => false
      end
  end.

Definition cookie_name_value_too_large (name value : str) : bool :=
  MAX_COOKIE_NAME_VALUE_BYTES <? N.min (byte_len name + byte_len value) u64_max.

(** [char::is_control]: the general category Cc. *)
Definition is_control (c : char) : bool := (c <=? 31) || ((127 <=? c) && (c <=? 159)).

Definition is_valid_cookie_attribute_value (v : str) : bool :=
  (byte_len v <=? MAX_COOKIE_ATTRIBUTE_VALUE_BYTES) &&
  negb (existsb (λ c, (c =? 127) || (is_control c && negb (c =? 9))) v).

Record SanitizedCookieLine := { line : str; line_warnings : list CookieSetWarningReason }.

Definition semicolon : char := 59.
Definition equals : char := 61.

(** One segment of the loop: kept or not, and its warning. *)
Definition attribute_ignored (trimmed : str) : option CookieSetWarningReason :=
  match split_once_at equals trimmed with
  | Some (n, v) =>
      let is_domain := eq_ignore_ascii_case (trim n) (chars "domain") in
      if is_domain || eq_ignore_ascii_case (trim n) (chars "path") then
        if is_valid_cookie_attribute_value (trim v) then None
        else Some (if is_domain then DomainAttributeIgnored else PathAttributeIgnored)
      else None
  | None => None
  end.

Fixpoint sanitize_segments (segments rebuilt : list str) (changed : bool)
    (warnings : list CookieSetWarningReason) : list str * bool * list CookieSetWarningReason :=
  match segments with
  | [] => (rebuilt, changed, warnings)
  | segment :: segments =>
      let trimmed := trim segment in
      match attribute_ignored trimmed with
      | None => sanitize_segments segments (rebuilt ++ [trimmed]) changed warnings
      | Some w => sanitize_segments segments rebuilt true (push_new warnings w)
      end
  end.

Definition sanitize_cookie_line_for_browser_parse (cookie_line : str) : SanitizedCookieLine :=
  match split_on semicolon cookie_line with
  | [] => {| line := cookie_line; line_warnings := [] |}
  | first :: segments =>
      let '(rebuilt, changed, warnings) := sanitize_segments segments [trim first] false [] in
      {| line := if (changed : bool) then join [semicolon; 32] rebuilt else cookie_line;
         line_warnings := warnings |}
  end.

(** [value.get(..prefix.len())]: nothing past the end or off a boundary. *)
Definition has_case_insensitive_prefix (v prefix : str) : bool :=
  match split_at v (byte_len prefix) with
  | Ret (candidate, _) => eq_ignore_ascii_case candidate prefix
  | Panic => false
  end.

Definition protected_prefix_in_value (v : str) : bool :=
  existsb (λ p, has_case_insensitive_prefix v (chars p))
    ["__Host-Http-"; "__Http-"; "__Host-"; "__Secure-"].

Definition prefixes_are_valid (c : Cookie) : bool :=
  match cookie_name c with
  | [] => negb (protected_prefix_in_value (cookie_value c))
  | n =>
      let explicit_root_path := c.(path).(is_from_path_attr) && bool_decide (c.(path).(path_str) = [slash]) in
      if has_case_insensitive_prefix n (chars "__Host-Http-")
      then secure c && http_only c && is_host_only c && explicit_root_path
      else if has_case_insensitive_prefix n (chars "__Http-") then secure c && http_only c
      else if has_case_insensitive_prefix n (chars "__Host-")
      then secure c && is_host_only c && explicit_root_path
      else if has_case_insensitive_prefix n (chars "__Secure-") then secure c
      else true
  end.

Definition domains_overlap (l r : str) : bool :=
  bool_decide (l = r) || ends_with l (dot :: r) || ends_with r (dot :: l).

Definition path_overlap (l r : str) : bool :=
  if decide (l = r) then true
  else if negb (starts_with l r) then false
  else ends_with r [slash] || bool_decide (utf8 l !! N.to_nat (byte_len r) = Some slash).

Section policy.
Context {Url : Type} `{!UrlCrate Url, !HostCrate} (in_range : Z → bool).

Definition effective_same_site (now : Z) (c : Cookie) : CookieEffectiveSameSite :=
  for_cookie in_range (cookie_same_site c) (creation_time c) now.

Definition source_scheme_mismatch (c : Cookie) (u : Url) : bool :=
  negb (bool_decide (c.(source_scheme) = Unset)) &&
  negb (bool_decide (c.(source_scheme) = source_scheme_from_url u)).

Definition inferred_insert_context (u : Url) : InsertContext Url :=
  let c := if is_http_scheme u then insert_context Http u else insert_context Document u in
  {| ic_url := c.(ic_url); ic_source := c.(ic_source); ic_browser_context := c.(ic_browser_context);
     ic_same_site_context := c.(ic_same_site_context); ic_request_type := c.(ic_request_type);
     enforce_browser_policy := false |}.

(** ** query_policy.rs *)
Definition same_site_context_metadata_for_access (m : SameSiteContextMetadata)
    (method : SameSiteContextHttpMethod) (redirect : SameSiteContextRedirectType)
    : SameSiteContextMetadata :=
  {| meta_context := with_method_and_redirect m.(meta_context) method redirect;
     meta_schemeful := with_method_and_redirect m.(meta_schemeful) method redirect |}.

Definition same_site_exclusion_reason (c : Cookie) (q : QueryContext Url)
    (context : SameSiteRequestContext) (e : CookieEffectiveSameSite) : option CookieExclusionReason :=
  if decide (q.(qc_source) = Cdp) then None
  else match e with
  | EffectiveStrict =>
      if decide (context = SameSiteStrict) then None else Some ExcludedSameSiteStrict
  | EffectiveLax =>
      match context with
      | SameSiteStrict | SameSiteLax => None
      | _ => Some (match cookie_same_site c with
                   | None => ExcludedUnspecifiedTreatedAsLax
                   | Some _ => ExcludedSameSiteLax
                   end)
      end
  | LaxAllowUnsafe =>
      if bool_decide (context = CrossSite) ||
         (bool_decide (context = SameSiteLaxMethodUnsafe) &&
          negb (bool_decide (q.(qc_request_type) = TopLevelNavigation)))
      then Some ExcludedUnspecifiedTreatedAsLax else None
  | NoRestriction => None
  end.

Definition schemeful_same_site_mismatch_warning (e : CookieEffectiveSameSite)
    (d : option SameSiteContextDowngradeType) : option CookieWarningReason :=
  match d, e with
  | Some StrictToLax, EffectiveStrict => Some StrictLaxDowngradeStrictSameSite
  | Some StrictToCross, EffectiveStrict => Some StrictCrossDowngradeStrictSameSite
  | Some StrictToCross, (EffectiveLax | LaxAllowUnsafe) => Some StrictCrossDowngradeLaxSameSite
  | Some LaxToCross, EffectiveStrict => Some LaxCrossDowngradeStrictSameSite
  | Some LaxToCross, (EffectiveLax | LaxAllowUnsafe) => Some LaxCrossDowngradeLaxSameSite
  | _, _ => None
  end.

Definition infer_schemeful_same_site_downgrade (c : SameSiteContext)
    : option SameSiteContextDowngradeType :=
  match c.(ss_context), c.(schemeful_context) with
  | SameSiteStrict, SameSiteLax => Some StrictToLax
  | SameSiteStrict, (CrossSite | SameSiteLaxMethodUnsafe) => Some StrictToCross
  | SameSiteLax, (CrossSite | SameSiteLaxMethodUnsafe) => Some LaxToCross
  | _, _ => None
  end.

Definition partition_key_mismatch (c q : option CookiePartitionKey) : bool :=
  match c, q with
  | Some c, Some q => negb (bool_decide (c = q))
  | Some _, None => true
  | None, Some (Opaque _ _) => true
  | None, (Some (Site _ _) | None) => false
  end.

(** [if condition { status.add_exclusion(reason) }] *)
Definition exclude_if (b : bool) (r : CookieExclusionReason) (s : CookieInclusionStatus)
    : CookieInclusionStatus := if b then add_exclusion s r else s.
Definition warn_if (b : bool) (r : CookieWarningReason) (s : CookieInclusionStatus)
    : CookieInclusionStatus := if b then add_warning s r else s.

Definition query_context_access_result (now : Z) (c : Cookie) (q : QueryContext Url)
    : run (CookieAccessResult Url) :=
  let e := effective_same_site now c in
  domain_ok ← domain_matches c.(domain) q.(qc_url);
  path_ok ← path_matches c.(path) q.(qc_url);
  let s := status_default in
  let s := exclude_if (is_expired now c) ExcludedExpired s in
  let s := exclude_if (negb domain_ok) ExcludedDomainMismatch s in
  let s := exclude_if (negb path_ok) PathMismatch s in
  let s := exclude_if (secure c && negb (is_secure q.(qc_url))) ExcludedSecureOnly s in
  let s := warn_if (secure c && is_trustworthy_non_cryptographic q.(qc_url))
             SecureAccessGrantedNonCryptographic s in
  let allow_http_only := q.(include_http_only) || negb (bool_decide (q.(qc_source) = Document)) in
  let s := exclude_if (http_only c && negb allow_http_only) HttpOnly s in
  let s := exclude_if (http_only c && bool_decide (q.(qc_source) = Http) &&
                       negb (is_http_scheme q.(qc_url))) HttpOnly s in
  let s := exclude_if (source_scheme_mismatch c q.(qc_url)) SchemeMismatch s in
  let s := exclude_if (partition_key_mismatch c.(partition_key)
                         q.(qc_browser_context).(cookie_partition_key)) PartitionKeyMismatch s in
  let schemeful := same_site_exclusion_reason c q (for_inclusion q.(qc_same_site_context)) e in
  let schemeless := same_site_exclusion_reason c q q.(qc_same_site_context).(ss_context) e in
  let s := if decide (schemeful = schemeless) then s
           else add_warning s
             (default SchemefulSameSiteContextMismatch
                (schemeful_same_site_mismatch_warning e
                   (match q.(qc_metadata).(meta_schemeful).(downgrade_type) with
                    | Some d => Some d
                    | None => infer_schemeful_same_site_downgrade q.(qc_same_site_context)
                    end))) in
  let s := match schemeful with
           | Some r =>
               add_exclusion
                 (warn_if q.(qc_metadata).(meta_schemeful).(downgraded_by_cross_site_redirect)
                    SameSiteContextDowngradedByRedirect s) r
           | None => s
           end in
  Ret {| status := s; access_effective := e; access_context := q.(qc_same_site_context);
         access_metadata := same_site_context_metadata_for_access q.(qc_metadata)
                              q.(qc_http_method) q.(qc_redirect_type);
         access_semantics_of := access_semantics c; scope_semantics_of := scope_semantics c;
         is_allowed_to_access_secure_cookies := is_secure q.(qc_url);
         access_browser_context := q.(qc_browser_context) |}.

(** ** write_policy.rs *)
Definition is_suffix_domain (d : CookieDomain) : bool :=
  match d with Suffix _ => true | _ => false end.

Definition should_downgrade_identical_ip_domain_to_host_only (c : Cookie) (u : Url) : bool :=
  match host u with
  | Some (HostIpv4 _) | Some (HostIpv6 _) =>
      is_suffix_domain c.(domain) && host_is_identical c.(domain) u
  | _ => false
  end.

Definition same_site_set_rejection_reason (c : Cookie) (x : InsertContext Url)
    : option CookieSetRejectionReason :=
  if negb x.(enforce_browser_policy) || bool_decide (x.(ic_source) = Cdp) ||
     (bool_decide (x.(ic_source) = Http) && bool_decide (x.(ic_request_type) = TopLevelNavigation)) ||
     bool_decide (for_inclusion x.(ic_same_site_context) = SameSiteStrict) ||
     bool_decide (for_inclusion x.(ic_same_site_context) = SameSiteLax)
  then None
  else match cookie_same_site c with
       | Some SameSiteAttrNone => None
       | Some SameSiteAttrStrict => Some ErrorSameSiteStrict
       | Some SameSiteAttrLax => Some ErrorSameSiteLax
       | None => Some SameSiteUnspecifiedTreatedAsLax
       end.

Definition provisional_set_access_result : CookieSetAccessResult :=
  {| set_status := Accepted Inserted; rejection_reasons := []; set_warnings := [];
     set_effective_same_site := None |}.

Definition rejected_set_access_result (r : CookieSetRejectionReason) : CookieSetAccessResult :=
  {| set_status := Rejected r; rejection_reasons := [r]; set_warnings := [];
     set_effective_same_site := None |}.

Definition merge_rejected_set_access_result (prior : CookieSetAccessResult)
    (r : CookieSetRejectionReason) : CookieSetAccessResult := add_rejection prior r.
End policy.
