(* ===== verification/CookieStore.v ===== *)
(** The cookie store (moli-cookie-store, [cookie_store/storage.rs],
    [query.rs], [write.rs], [write_policy.rs], [mutations.rs]): cookies by
    domain, path and name, quotas and eviction, writes and queries.  The clock
    is read once per call ([now]).  The iteration order of a [HashMap] is the
    argument [shuffle]; the instants the [time] crate has are [in_range].  The observer is a flag, and [log] lists
    the mutations it accepted. *)
From stdpp Require Import base list numbers option gmap strings.
From S2P Require Import Prelude Utf8 CookieTypes CookieDate CookiePolicy.

#[local] Open Scope N_scope.

(** ** State *)
Record CookieKey := { key_name : str; key_partition : option CookiePartitionKey }.
#[global] Instance CookieKey_eq_dec : EqDecision CookieKey.
Proof. solve_decision. Defined.
#[global] Instance CookieKey_countable : Countable CookieKey.
Proof.
  refine (inj_countable' (λ k, (k.(key_name), k.(key_partition)))
            (λ p, {| key_name := p.1; key_partition := p.2 |}) _). by intros [].
Defined.

Definition key_for_cookie (c : Cookie) : CookieKey :=
  {| key_name := cookie_name c; key_partition := c.(partition_key) |}.

Notation NameMap := (gmap CookieKey Cookie) (only parsing).
Notation PathMap := (gmap (list N) NameMap) (only parsing).
Notation DomainMap := (gmap (list N) PathMap) (only parsing).

Record CookieStoreLimits := { per_domain_cookies : N; total_cookies : N }.
Definition unlimited : CookieStoreLimits :=
  {| per_domain_cookies := u64_max; total_cookies := u64_max |}.

Record CookieStoreKey := {
  sk_domain : str; sk_path : str; sk_name : str; sk_partition : option CookiePartitionKey }.
Definition store_key_for_cookie (c : Cookie) : CookieStoreKey :=
  {| sk_domain := domain_string c.(domain); sk_path := c.(path).(path_str);
     sk_name := cookie_name c; sk_partition := c.(partition_key) |}.

Inductive CookieStoreMutation :=
  | Upsert (cookie : Cookie)
  | Delete (key : CookieStoreKey)
  | Clear.

Record CookieStore := mk_store {
  cookies : DomainMap;
  next_creation_index : N;
  next_access_index : N;
  limits : CookieStoreLimits;
  observer : bool;
  public_suffix_list : option (str → bool);
  log : list CookieStoreMutation }.

Definition store_new : CookieStore :=
  mk_store ∅ 0 0 unlimited false None [].

Definition set_cookies (s : CookieStore) (m : DomainMap) : CookieStore :=
  mk_store m s.(next_creation_index) s.(next_access_index) s.(limits) s.(observer)
    s.(public_suffix_list) s.(log).
Definition set_indexes (s : CookieStore) (creation access : N) : CookieStore :=
  mk_store s.(cookies) creation access s.(limits) s.(observer) s.(public_suffix_list) s.(log).
Definition set_limits (s : CookieStore) (l : CookieStoreLimits) : CookieStore :=
  mk_store s.(cookies) s.(next_creation_index) s.(next_access_index) l s.(observer)
    s.(public_suffix_list) s.(log).
Definition set_observer (s : CookieStore) (o : bool) : CookieStore :=
  mk_store s.(cookies) s.(next_creation_index) s.(next_access_index) s.(limits) o
    s.(public_suffix_list) s.(log).
Definition with_shared_suffix_list (s : CookieStore) (psl : str → bool) : CookieStore :=
  mk_store s.(cookies) s.(next_creation_index) s.(next_access_index) s.(limits) s.(observer)
    (Some psl) s.(log).

Definition notify (s : CookieStore) (m : CookieStoreMutation) : CookieStore :=
  if s.(observer)
  then mk_store s.(cookies) s.(next_creation_index) s.(next_access_index) s.(limits) s.(observer)
         s.(public_suffix_list) (s.(log) ++ [m])
  else s.

Definition saturating_succ (n : N) : N := N.min (n + 1) u64_max.

Definition bump_creation_index (s : CookieStore) : N * CookieStore :=
  (s.(next_creation_index),
   set_indexes s (saturating_succ s.(next_creation_index)) s.(next_access_index)).
Definition bump_access_index (s : CookieStore) : N * CookieStore :=
  (s.(next_access_index),
   set_indexes s s.(next_creation_index) (saturating_succ s.(next_access_index))).

Definition clear (s : CookieStore) : CookieStore :=
  if decide (s.(cookies) = ∅) then s else notify (set_cookies s ∅) Clear.

(** ** Lookup and removal *)
Definition get_any_with_partition_key (s : CookieStore) (d p n : str)
    (k : option CookiePartitionKey) : option Cookie :=
  dcs ← s.(cookies) !! d; pcs ← dcs !! p;
  pcs !! {| key_name := n; key_partition := k |}.

Definition get_with_partition_key (now : Z) (s : CookieStore) (d p n : str)
    (k : option CookiePartitionKey) : option Cookie :=
  c ← get_any_with_partition_key s d p n k;
  if is_expired now c then None else Some c.

(** [entry(d).or_default().entry(p).or_default().insert(k, c)] *)
Definition put (m : DomainMap) (d p : str) (k : CookieKey) (c : Cookie) : DomainMap :=
  let dcs := default ∅ (m !! d) in
  <[d := <[p := <[k := c]> (default ∅ (dcs !! p))]> dcs]> m.

(** A write through [get_mut_any_with_partition_key]. *)
Definition put_cookie (s : CookieStore) (d p n : str) (k : option CookiePartitionKey)
    (c : Cookie) : CookieStore :=
  set_cookies s (put s.(cookies) d p {| key_name := n; key_partition := k |} c).

Definition remove_with_partition_key (s : CookieStore) (d p n : str)
    (k : option CookiePartitionKey) : option Cookie * CookieStore :=
  let key := {| key_name := n; key_partition := k |} in
  let '(removed, m) :=
    match s.(cookies) !! d with
    | None => (None, s.(cookies))
    | Some domain_cookies =>
        match domain_cookies !! p with
        | None => (None, s.(cookies))
        | Some path_cookies =>
            let removed := path_cookies !! key in
            let path_cookies := delete key path_cookies in
            if decide (path_cookies = ∅) then
              let domain_cookies := delete p domain_cookies in
              if decide (domain_cookies = ∅) then (removed, delete d s.(cookies))
              else (removed, <[d := domain_cookies]> s.(cookies))
            else (removed, <[d := <[p := path_cookies]> domain_cookies]> s.(cookies))
        end
    end in
  let s := set_cookies s m in
  (removed, match removed with
            | Some c => notify s (Delete (store_key_for_cookie c))
            | None => s
            end).

Definition touch_with_partition_key (now : Z) (s : CookieStore) (d p n : str)
    (k : option CookiePartitionKey) : bool * CookieStore :=
  let '(i, s) := bump_access_index s in
  match get_with_partition_key now s d p n k with
  | None => (false, s)
  | Some c => (true, put_cookie s d p n k (touch_with_access_index c i))
  end.

Section store.
Context {Url : Type} `{!UrlCrate Url, !HostCrate} (in_range : Z → bool).
Context (shuffle : list Cookie → list Cookie).

(** ** Iteration *)
Definition path_cookies (m : PathMap) : list Cookie :=
  map_to_list m ≫= λ e, (map_to_list e.2).*2.
Definition all_cookies (m : DomainMap) : list Cookie :=
  map_to_list m ≫= λ e, path_cookies e.2.

Definition iter_any (s : CookieStore) : list Cookie := shuffle (all_cookies s.(cookies)).
Definition iter_unexpired (now : Z) (s : CookieStore) : list Cookie :=
  filter (λ c, is_expired now c = false) (iter_any s).

(** ** storage.rs *)
Definition has_secure_overlay_conflict (now : Z) (s : CookieStore) (c : Cookie) : bool :=
  let incoming_domain := domain_string c.(domain) in
  let incoming_path := c.(path).(path_str) in
  existsb (λ e, bool_decide (cookie_name e = cookie_name c) &&
                bool_decide (e.(partition_key) = c.(partition_key)) && secure e &&
                domains_overlap incoming_domain (domain_string e.(domain)) &&
                path_overlap incoming_path e.(path).(path_str))
    (iter_unexpired now s).

(** [min_by] on last access, then creation: the first least one. *)
Definition older (l r : Cookie) : bool :=
  (l.(last_access_index) <? r.(last_access_index)) ||
  ((l.(last_access_index) =? r.(last_access_index)) && (l.(creation_index) <? r.(creation_index))).

Fixpoint oldest (l : list Cookie) : option Cookie :=
  match l with
  | [] => None
  | c :: l => Some (match oldest l with Some o => if older o c then o else c | None => c end)
  end.

Definition eviction_candidate (d : option str) (k : option CookiePartitionKey) (sec : bool)
    (p : CookiePriority) (c : Cookie) : bool :=
  bool_decide (c.(partition_key) = k) && Bool.eqb (secure c) sec &&
  bool_decide (effective_priority c = p) &&
  is_none_or d (λ d, bool_decide (canonical_cookie_domain c = d)).

Definition oldest_accessed_cookie_key (now : Z) (s : CookieStore) (d : option str)
    (k : option CookiePartitionKey) (sec : bool) (p : CookiePriority)
    : option (str * str * str * option CookiePartitionKey) :=
  c ← oldest (filter (λ c, eviction_candidate d k sec p c = true) (iter_unexpired now s));
  Some (cookie_name c, canonical_cookie_domain c, c.(path).(path_str), c.(partition_key)).

Fixpoint evict_by_priority (now : Z) (s : CookieStore) (d : option str)
    (k : option CookiePartitionKey) (sec : bool) (ps : list CookiePriority) : option CookieStore :=
  match ps with
  | [] => None
  | p :: ps =>
      match oldest_accessed_cookie_key now s d k sec p with
      | Some (n, dom, pth, key) => Some (remove_with_partition_key s dom pth n key).2
      | None => evict_by_priority now s d k sec ps
      end
  end.

Definition evict_one_cookie (now : Z) (s : CookieStore) (d : option str)
    (k : option CookiePartitionKey) (incoming_secure_cookie : bool) : option CookieStore :=
  match evict_by_priority now s d k false [Low; Medium; High] with
  | Some s => Some s
  | None => if incoming_secure_cookie
            then evict_by_priority now s d k true [Low; Medium; High] else None
  end.

(** The cookies a quota counts. *)
Definition counted (d : option str) (k : option CookiePartitionKey) (c : Cookie) : bool :=
  bool_decide (c.(partition_key) = k) && is_none_or d (λ d, bool_decide (canonical_cookie_domain c = d)).

Definition count_unexpired (now : Z) (s : CookieStore) (d : option str)
    (k : option CookiePartitionKey) : N :=
  N.of_nat (length (filter (λ c, counted d k c = true) (iter_unexpired now s))).

(** One of the two [while] loops; the store stays as far as it got. *)
Fixpoint make_room_loop (fuel : nat) (now : Z) (s : CookieStore) (d : option str)
    (k : option CookiePartitionKey) (incoming_secure_cookie replacing_existing : bool)
    (limit : N) : run (bool * CookieStore) :=
  match fuel with
  | O => Panic
  | S fuel =>
      if limit <=? count_unexpired now s d k - (if replacing_existing then 1 else 0) then
        match evict_one_cookie now s d k incoming_secure_cookie with
        | Some s => make_room_loop fuel now s d k incoming_secure_cookie replacing_existing limit
        | None => Ret (false, s)
        end
      else Ret (true, s)
  end.

Definition make_room_for_cookie (now : Z) (s : CookieStore) (d : str)
    (k : option CookiePartitionKey) (incoming_secure_cookie replacing_existing : bool)
    : run (bool * CookieStore) :=
  let fuel := S (length (all_cookies s.(cookies))) in
  '(ok, s) ← match k with
             | None => make_room_loop fuel now s None None incoming_secure_cookie
                         replacing_existing s.(limits).(total_cookies)
             | Some _ => Ret (true, s)
             end;
  if (ok : bool)
  then make_room_loop fuel now s (Some d) k incoming_secure_cookie replacing_existing
         s.(limits).(per_domain_cookies)
  else Ret (false, s).

(** [Self::from_cookies]: the loop over cookies already read. *)
Definition insert_cookie (m : DomainMap) (c : Cookie) : DomainMap :=
  put m (domain_string c.(domain)) c.(path).(path_str) (key_for_cookie c) c.

Fixpoint from_cookies_loop {E} (now : Z) (include_expired : bool) (s : CookieStore)
    (l : list (Cookie + E)) : CookieStore + E :=
  match l with
  | [] => inl s
  | inr e :: _ => inr e
  | inl c :: l =>
      if include_expired || negb (is_expired now c) then
        let c := restore_creation_time c in
        let s := set_indexes s
                   (N.max s.(next_creation_index) (saturating_succ c.(creation_index)))
                   (N.max s.(next_access_index) (saturating_succ c.(last_access_index))) in
        from_cookies_loop now include_expired (set_cookies s (insert_cookie s.(cookies) c)) l
      else from_cookies_loop now include_expired s l
  end.

Definition from_cookies {E} (now : Z) (l : list (Cookie + E)) (include_expired : bool)
    : CookieStore + E := from_cookies_loop now include_expired store_new l.

(** [<CookieStore as Clone>]: a snapshot has no observer. *)
Definition clone (s : CookieStore) : CookieStore :=
  mk_store s.(cookies) s.(next_creation_index) s.(next_access_index) s.(limits) false
    s.(public_suffix_list) [].

(** ** write_policy.rs *)
Definition canonicalize_cookie_for_store_checks (s : CookieStore) (c : Cookie) (u : Url)
    : Cookie + Error :=
  let c :=
    match s.(public_suffix_list) with
    | Some psl =>
        if is_public_suffix psl c.(domain) then
          if host_is_identical c.(domain) u
          then match host_only u with inl d => inl (set_domain c d) | inr e => inr e end
          else inr PublicSuffix
        else inl c
    | None => inl c
    end in
  match c with
  | inr e => inr e
  | inl c =>
      if should_downgrade_identical_ip_domain_to_host_only c u
      then match host_only u with inl d => inl (set_domain c d) | inr e => inr e end
      else inl c
  end.

(** The checks both passes make, in the order of each. *)
Definition violates_secure_only (c : Cookie) (x : InsertContext Url) : bool :=
  x.(enforce_browser_policy) && secure c && negb (is_secure x.(ic_url)).
Definition violates_same_site_none (c : Cookie) (x : InsertContext Url) : bool :=
  x.(enforce_browser_policy) && bool_decide (cookie_same_site c = Some SameSiteAttrNone) &&
  negb (secure c).
Definition violates_size (c : Cookie) (x : InsertContext Url) : bool :=
  x.(enforce_browser_policy) && cookie_name_value_too_large (cookie_name c) (cookie_value c).
Definition violates_overlay (now : Z) (s : CookieStore) (c : Cookie) (x : InsertContext Url) : bool :=
  x.(enforce_browser_policy) && negb (bool_decide (x.(ic_source) = Cdp)) && negb (secure c) &&
  negb (is_secure x.(ic_url)) && has_secure_overlay_conflict now s c.

Definition when {A} (b : bool) (a : A) : list A := if b then [a] else [].

Definition collect_preinsert_rejection_reasons (now : Z) (s : CookieStore) (c : Cookie)
    (x : InsertContext Url) : run (list CookieSetRejectionReason) :=
  let u := x.(ic_url) in
  let from_document := bool_decide (x.(ic_source) = Document) in
  let reasons :=
    when (http_only c && from_document) NonHttpScheme ++
    when (violates_secure_only c x) SecureOnly ++
    when (violates_same_site_none c x) SameSiteNoneRequiresSecure ++
    option_list (same_site_set_rejection_reason c x) ++
    when (violates_size c x) NameValueTooLarge ++
    (if partitioned c then
       when (x.(enforce_browser_policy) && negb (secure c)) PartitionedRequiresSecure ++
       when (bool_decide (c.(partition_key) = None)) PartitionedMissingPartitionKey
     else []) in
  match canonicalize_cookie_for_store_checks s c u with
  | inr e => Ret (reasons ++ [e])
  | inl c =>
      domain_ok ← domain_matches c.(domain) u;
      Ret (reasons ++
           when (x.(enforce_browser_policy) && negb (prefixes_are_valid c)) PrefixViolation ++
           when (negb domain_ok) DomainMismatch ++
           when (violates_overlay now s c x) SecureOverlay ++
           match as_cow c.(domain) with
           | Some d =>
               match get_with_partition_key now s d c.(path).(path_str) (cookie_name c)
                       c.(partition_key) with
               | Some old => when (http_only old && from_document) NonHttpScheme
               | None => []
               end
           | None => [UnspecifiedDomain]
           end)
  end.

(** ** write.rs *)
(** The end of [insert_with_context_impl]: a live cookie goes in. *)
Definition store_live_cookie (now : Z) (s : CookieStore) (c : Cookie) (preserve_ordering : bool)
    : run (CookieStore * (StoreAction * CookieEffectiveSameSite + Error)) :=
  let d := domain_string c.(domain) in
  let p := c.(path).(path_str) in
  let existing := get_with_partition_key now s d p (cookie_name c) c.(partition_key) in
  '(ok, s) ← make_room_for_cookie now s d c.(partition_key) (secure c) (bool_decide (is_Some existing));
  if negb ok then Ret (s, inr StorageFull)
  else
    let '(s, c) :=
      if preserve_ordering then
        (set_indexes s (N.max s.(next_creation_index) (saturating_succ c.(creation_index)))
                       (N.max s.(next_access_index) (saturating_succ c.(last_access_index))), c)
      else
        let '(s, c) :=
          match existing with
          | Some old =>
              (s, set_creation_index (set_creation_time in_range c (creation_time old))
                    old.(creation_index))
          | None =>
              let s := (remove_with_partition_key s d p (cookie_name c) c.(partition_key)).2 in
              let '(i, s) := bump_creation_index s in
              (s, set_creation_index c i)
          end in
        let '(i, s) := bump_access_index s in
        (s, touch_with_access_index c i) in
    let replaced := get_any_with_partition_key s d p (cookie_name c) c.(partition_key) in
    let s := notify (set_cookies s (insert_cookie s.(cookies) c)) (Upsert c) in
    Ret (s, inl (if decide (is_Some replaced) then UpdatedExisting else Inserted,
                 effective_same_site in_range now c)).

Definition insert_with_context_impl (now : Z) (s : CookieStore) (c : Cookie)
    (x : InsertContext Url) (preserve_ordering : bool)
    : run (CookieStore * (StoreAction * CookieEffectiveSameSite + Error)) :=
  let u := x.(ic_url) in
  let from_document := bool_decide (x.(ic_source) = Document) in
  match canonicalize_cookie_for_store_checks s c u with
  | inr e => Ret (s, inr e)
  | inl c =>
      if http_only c && from_document then Ret (s, inr NonHttpScheme)
      else if violates_secure_only c x then Ret (s, inr SecureOnly)
      else if violates_same_site_none c x then Ret (s, inr SameSiteNoneRequiresSecure)
      else match same_site_set_rejection_reason c x with
      | Some e => Ret (s, inr e)
      | None =>
      if violates_size c x then Ret (s, inr NameValueTooLarge)
      else if partitioned c && (x.(enforce_browser_policy) && negb (secure c))
      then Ret (s, inr PartitionedRequiresSecure)
      else if partitioned c && bool_decide (c.(partition_key) = None)
      then Ret (s, inr PartitionedMissingPartitionKey)
      else if x.(enforce_browser_policy) && negb (prefixes_are_valid c)
      then Ret (s, inr PrefixViolation)
      else
        domain_ok ← domain_matches c.(domain) u;
        if negb domain_ok then Ret (s, inr DomainMismatch)
        else if violates_overlay now s c x then Ret (s, inr SecureOverlay)
        else match as_cow c.(domain) with
        | None => Ret (s, inr UnspecifiedDomain)
        | Some d =>
            let old := get_with_partition_key now s d c.(path).(path_str) (cookie_name c)
                         c.(partition_key) in
            match old with
            | Some old =>
                if http_only old && from_document then Ret (s, inr NonHttpScheme)
                else if is_expired now c then
                  let s := put_cookie s d c.(path).(path_str) (cookie_name c) c.(partition_key)
                             (expire now old) in
                  Ret (notify s (Delete (store_key_for_cookie old)),
                       inl (ExpiredExisting, effective_same_site in_range now c))
                else store_live_cookie now s c preserve_ordering
            | None => if is_expired now c then Ret (s, inr Expired)
                      else store_live_cookie now s c preserve_ordering
            end
        end
      end
  end.

(** The cookie as [set_with_ordering] prepares it. *)
Definition prepare_cookie (now : Z) (c : Cookie) (x : InsertContext Url) (preserve_ordering : bool)
    : Cookie :=
  let c := if preserve_ordering then restore_creation_time c
           else initialize_creation_time in_range now c in
  if partitioned c && bool_decide (c.(partition_key) = None)
  then set_partition_key c x.(ic_browser_context).(cookie_partition_key)
  else if negb (partitioned c) then set_partition_key c None
  else c.

Definition set_with_ordering (now : Z) (s : CookieStore) (c : Cookie) (x : InsertContext Url)
    (prior : CookieSetAccessResult) (preserve_ordering : bool)
    : run (CookieStore * CookieSetAccessResult) :=
  if is_rejected prior then Ret (s, prior)
  else
    let c := prepare_cookie now c x preserve_ordering in
    let prior := match prior.(set_effective_same_site) with
                 | None => with_effective prior prior.(set_status)
                             (Some (effective_same_site in_range now c))
                 | Some _ => prior
                 end in
    let prior := if secure c && is_trustworthy_non_cryptographic x.(ic_url)
                 then add_set_warning prior SetSecureAccessGrantedNonCryptographic else prior in
    reasons ← collect_preinsert_rejection_reasons now s c x;
    let prior := foldl add_rejection prior reasons in
    if is_rejected prior then Ret (s, prior)
    else
      '(s, r) ← insert_with_context_impl now s c x preserve_ordering;
      Ret (s, match r with
              | inl (action, e) => with_effective prior (Accepted action) (Some e)
              | inr e => add_rejection prior e
              end).

Definition set_with_access_result_chain (now : Z) (s : CookieStore) (c : Cookie)
    (x : InsertContext Url) (prior : CookieSetAccessResult) : run (CookieStore * CookieSetAccessResult) :=
  set_with_ordering now s c x prior false.

Definition restore_with_context (now : Z) (s : CookieStore) (c : Cookie) (x : InsertContext Url)
    : run (CookieStore * CookieSetAccessResult) :=
  set_with_ordering now s c x provisional_set_access_result true.

Definition set_with_access_result (now : Z) (s : CookieStore) (c : Cookie) (x : InsertContext Url)
    : run (CookieStore * CookieSetAccessResult) :=
  set_with_access_result_chain now s c x provisional_set_access_result.

Definition insert_with_context (now : Z) (s : CookieStore) (c : Cookie) (x : InsertContext Url)
    : run (CookieStore * (StoreAction + Error)) :=
  '(s, r) ← set_with_access_result now s c x; Ret (s, into_insert_result r.(set_status)).

Definition insert (now : Z) (s : CookieStore) (c : Cookie) (u : Url)
    : run (CookieStore * (StoreAction + Error)) :=
  insert_with_context now s c (inferred_insert_context u).

Section lines.
Context `{!TimeCrate, !CookieCrate}.

Definition set_response_cookie_str_with_access_result (now : Z) (s : CookieStore)
    (cookie_str : str) (x : InsertContext Url) : run (CookieStore * CookieSetAccessResult) :=
  let sanitized := sanitize_cookie_line_for_browser_parse cookie_str in
  r ← match parse_cookie sanitized.(line) with
      | None => Ret (inr Parse)
      | Some raw => try_from_raw_cookie now raw x.(ic_url)
      end;
  match r with
  | inl c =>
      set_with_access_result_chain now s c x
        {| set_status := Accepted Inserted; rejection_reasons := [];
           set_warnings := sanitized.(line_warnings); set_effective_same_site := None |}
  | inr e =>
      Ret (s, {| set_status := Rejected e; rejection_reasons := [e];
                 set_warnings := sanitized.(line_warnings); set_effective_same_site := None |})
  end.

Definition insert_response_cookie_str (now : Z) (s : CookieStore) (cookie_str : str) (u : Url)
    : run (CookieStore * (StoreAction + Error)) :=
  '(s, r) ← set_response_cookie_str_with_access_result now s cookie_str (inferred_insert_context u);
  Ret (s, into_insert_result r.(set_status)).

(** [CookieStore::parse] *)
Definition store_parse (now : Z) (s : CookieStore) (cookie_str : str) (u : Url)
    : run (CookieStore * (StoreAction + Error)) :=
  match parse_cookie cookie_str with
  | None => Ret (s, inr Parse)
  | Some raw =>
      r ← try_from_raw_cookie now raw u;
      match r with inl c => insert now s c u | inr e => Ret (s, inr e) end
  end.

Record CanonicalCookieInput := {
  in_name : str; in_value : str; in_domain : str; in_host_only : bool; in_path : str;
  in_secure : bool; in_http_only : bool; in_same_site : option SameSite;
  in_expires : CookieExpiration; in_partition_key : option CookiePartitionKey;
  in_priority : option CookiePriority; in_source_scheme : CookieSourceScheme;
  in_source_port : Z; in_creation_time : option Z }.

(** The cookie the builder makes. *)
Definition build_raw_cookie (i : CanonicalCookieInput) : RawCookie :=
  {| name := i.(in_name); value := i.(in_value);
     raw_secure := if i.(in_secure) then Some true else None;
     raw_http_only := if i.(in_http_only) then Some true else None;
     raw_partitioned := if decide (is_Some i.(in_partition_key)) then Some true else None;
     same_site := i.(in_same_site);
     raw_domain := if i.(in_host_only) then None else Some (answered_domain i.(in_domain));
     raw_path := Some i.(in_path); raw_max_age := None;
     raw_expires := match i.(in_expires) with AtUtc t => Some (Some (kept_expires t)) | SessionEnd => None end;
     raw_priority := None |}.

Definition set_canonical_fields (i : CanonicalCookieInput) (c : Cookie) : Cookie :=
  set_creation_time in_range
    (mk_cookie c.(raw_cookie) c.(path) c.(domain) c.(expires) c.(creation_index)
       c.(creation_time_slot) c.(last_access_index) i.(in_priority) i.(in_source_scheme)
       i.(in_source_port) i.(in_partition_key)) i.(in_creation_time).

Definition try_from_canonical_input (now : Z) (i : CanonicalCookieInput) (u : Url)
    : run (Cookie + Error) :=
  r ← try_from_raw_cookie now (build_raw_cookie i) u;
  Ret match r with
      | inr e => inr e
      | inl c =>
          if i.(in_host_only) then
            match domain_from_str i.(in_domain) with
            | Some (Suffix d) => inl (set_canonical_fields i (set_domain c (HostOnly d)))
            | Some Empty => if scheme_is u ["file"]
                            then inl (set_canonical_fields i (set_domain c (HostOnly [])))
                            else inr Parse
            | Some NotPresent | Some (HostOnly _) | None => inr Parse
            end
          else inl (set_canonical_fields i c)
      end.

Definition set_canonical_cookie_with_access_result_chain (now : Z) (s : CookieStore)
    (i : CanonicalCookieInput) (x : InsertContext Url) (prior : CookieSetAccessResult)
    : run (CookieStore * CookieSetAccessResult) :=
  r ← try_from_canonical_input now i x.(ic_url);
  match r with
  | inl c => set_with_access_result_chain now s c x prior
  | inr e => Ret (s, merge_rejected_set_access_result prior e)
  end.

Definition set_canonical_cookie_with_access_result (now : Z) (s : CookieStore)
    (i : CanonicalCookieInput) (x : InsertContext Url) : run (CookieStore * CookieSetAccessResult) :=
  r ← try_from_canonical_input now i x.(ic_url);
  match r with
  | inl c => set_with_access_result now s c x
  | inr e => Ret (s, rejected_set_access_result e)
  end.
End lines.

(** ** query.rs *)
(** [Iterator::filter] and [map] whose closure can panic. *)
Fixpoint filter_run {A} (f : A → run bool) (l : list A) : run (list A) :=
  match l with
  | [] => Ret []
  | x :: l => b ← f x; l ← filter_run f l; Ret (if (b : bool) then x :: l else l)
  end.
Fixpoint map_run {A B} (f : A → run B) (l : list A) : run (list B) :=
  match l with
  | [] => Ret []
  | x :: l => y ← f x; l ← map_run f l; Ret (y :: l)
  end.

(** The cookies under the domains that match. *)
Definition cookies_of_url (s : CookieStore) (u : Url) : run (list Cookie) :=
  ds ← filter_run (λ e, domain_is_match e.1 u) (map_to_list s.(cookies));
  Ret (shuffle (ds ≫= λ e, path_cookies e.2)).

Definition access_entry (now : Z) (q : QueryContext Url) (c : Cookie)
    : run (CookieWithAccessResult Url) :=
  r ← query_context_access_result in_range now c q;
  Ret {| entry_cookie := c; access_result := r |}.

Definition entry_included (e : CookieWithAccessResult Url) : bool :=
  is_included e.(access_result).(status).

Definition touch_cookie (now : Z) (s : CookieStore) (c : Cookie) : CookieStore :=
  (touch_with_partition_key now s (domain_string c.(domain)) c.(path).(path_str) (cookie_name c)
     c.(partition_key)).2.

Definition get_cookie_access_query_result (now : Z) (s : CookieStore) (q : QueryContext Url)
    : run (CookieStore * CookieAccessQueryResult Url) :=
  l ← cookies_of_url s q.(qc_url);
  entries ← map_run (access_entry now q) l;
  let included := filter (λ e, entry_included e = true) entries in
  let excluded := if q.(return_excluded_cookies)
                  then filter (λ e, entry_included e = false) entries else [] in
  Ret (if q.(update_access_time)
       then foldl (touch_cookie now) s (entry_cookie <$> included) else s,
       {| included_accesses := included; excluded_accesses := excluded |}).

Definition excluded_entry (e : CookieWithAccessResult Url) : option ExcludedCookie :=
  r ← first_exclusion_reason e.(access_result).(status);
  Some {| excluded_cookie := e.(entry_cookie); reason := r |}.

Definition get_cookie_query_result (now : Z) (s : CookieStore) (q : QueryContext Url)
    : run (CookieStore * CookieQueryResult) :=
  '(s, r) ← get_cookie_access_query_result now s q;
  Ret (s, {| included_cookies := entry_cookie <$> r.(included_accesses);
             excluded_cookies := omap excluded_entry r.(excluded_accesses) |}).

Definition get_ordered_cookie_query_result (now : Z) (s : CookieStore) (q : QueryContext Url)
    : run (CookieStore * CookieQueryResult) :=
  '(s, r) ← get_cookie_query_result now s q;
  Ret (s, {| included_cookies := sort_included_cookies_for_projection r.(included_cookies);
             excluded_cookies := r.(excluded_cookies) |}).

Definition get_ordered_cookie_access_query_result (now : Z) (s : CookieStore) (q : QueryContext Url)
    : run (CookieStore * CookieAccessQueryResult Url) :=
  '(s, r) ← get_cookie_access_query_result now s q;
  Ret (s, {| included_accesses := sort_included_cookie_accesses_for_projection r.(included_accesses);
             excluded_accesses := r.(excluded_accesses) |}).

Definition get_ordered_cookies_with_context (now : Z) (s : CookieStore) (q : QueryContext Url)
    : run (CookieStore * list Cookie) :=
  '(s, r) ← get_ordered_cookie_query_result now s q; Ret (s, r.(included_cookies)).

Definition name_value (c : Cookie) : str * str := (cookie_name c, cookie_value c).

Definition get_ordered_request_values_with_context (now : Z) (s : CookieStore) (q : QueryContext Url)
    : run (CookieStore * list (str * str)) :=
  '(s, l) ← get_ordered_cookies_with_context now s q;
  Ret (s, map name_value l).

(** [matches]: domains, paths and cookies filtered on the way down. *)
Definition matches (now : Z) (s : CookieStore) (u : Url) : run (list Cookie) :=
  ds ← filter_run (λ e, domain_is_match e.1 u) (map_to_list s.(cookies));
  ls ← map_run (λ e,
         ps ← filter_run (λ e, path_is_match e.1 u) (map_to_list e.2);
         filter_run (λ c, if is_expired now c then Ret false else cookie_matches c u)
           (ps ≫= λ e, (map_to_list e.2).*2)) ds;
  Ret (filter (λ c, (is_http_scheme u || negb (http_only c)) &&
                    (is_secure u || negb (secure c)) = true) (shuffle (mjoin ls))).

Definition get_request_values (now : Z) (s : CookieStore) (u : Url) : run (list (str * str)) :=
  l ← matches now s u; Ret (map name_value l).

Definition delete_key (s : CookieStore) (k : str * str * str * option CookiePartitionKey) : CookieStore :=
  let '(n, d, p, key) := k in (remove_with_partition_key s d p n key).2.

Definition delete_matching (now : Z) (s : CookieStore) (f : CookieDeleteFilter) : CookieStore * N :=
  let removed_cookies :=
    (λ c, (cookie_name c, canonical_cookie_domain c, c.(path).(path_str), c.(partition_key))) <$>
      filter (λ c, cookie_matches_delete_filter c f = true) (iter_unexpired now s) in
  (foldl delete_key s removed_cookies, N.of_nat (length removed_cookies)).
End store.
