(* ===== verification/CookieMaps.v ===== *)
(** The nested maps of the cookie store as one map from identities: lookup
    after a write or a removal, and the cookies an iteration meets. *)
From stdpp Require Import base list numbers option gmap strings.
From S2P Require Import Prelude Utf8 CookieTypes CookieDate CookiePolicy CookieStore.

#[local] Open Scope N_scope.

(** ** Lookup *)
Definition Slot := (list N * list N * CookieKey)%type.

Definition look (m : DomainMap) (k : Slot) : option Cookie :=
  dcs ← m !! k.1.1; pcs ← dcs !! k.1.2; pcs !! k.2.

(** The slot a cookie belongs to. *)
Definition slot_of (c : Cookie) : Slot :=
  (domain_string c.(domain), c.(path).(path_str), key_for_cookie c).

Lemma look_get s d p n k :
  get_any_with_partition_key s d p n k = look s.(cookies) (d, p, {| key_name := n; key_partition := k |}).
Proof. done. Qed.

Lemma look_default m d p k :
  look m (d, p, k) = (default ∅ (default ∅ (m !! d) !! p) : NameMap) !! k.
Proof.
  unfold look. simpl. destruct (m !! d) as [dcs |]; simpl; [| done].
  by destruct (dcs !! p).
Qed.

Lemma look_put m d p k c k' : look (put m d p k c) k' = if decide (k' = (d, p, k)) then Some c else look m k'.
Proof.
  destruct k' as [[d' p'] k']. rewrite !look_default. unfold put. cbv zeta. case_decide as E.
  - injection E as -> -> ->. rewrite lookup_insert_eq. simpl. rewrite lookup_insert_eq. simpl.
    by rewrite lookup_insert_eq.
  - destruct (decide (d' = d)) as [-> |]; [| by rewrite lookup_insert_ne].
    rewrite lookup_insert_eq. simpl.
    destruct (decide (p' = p)) as [-> |]; [| by rewrite lookup_insert_ne].
    rewrite lookup_insert_eq. simpl. by rewrite lookup_insert_ne by congruence.
Qed.

Lemma look_insert m c k : look (insert_cookie m c) k = if decide (k = slot_of c) then Some c else look m k.
Proof. apply look_put. Qed.

(** The map of [remove_with_partition_key]. *)
Definition removed (m : DomainMap) (d p : list N) (k : CookieKey) : DomainMap :=
  match m !! d with
  | None => m
  | Some dcs =>
      match dcs !! p with
      | None => m
      | Some pcs =>
          let pcs := delete k pcs in
          if decide (pcs = ∅) then
            let dcs := delete p dcs in
            if decide (dcs = ∅) then delete d m else <[d := dcs]> m
          else <[d := <[p := pcs]> dcs]> m
      end
  end.

Lemma remove_eq s d p n k :
  let key := {| key_name := n; key_partition := k |} in
  remove_with_partition_key s d p n k =
    (look s.(cookies) (d, p, key),
     match look s.(cookies) (d, p, key) with
     | Some c => notify (set_cookies s (removed s.(cookies) d p key)) (Delete (store_key_for_cookie c))
     | None => set_cookies s (removed s.(cookies) d p key)
     end).
Proof.
  unfold remove_with_partition_key, removed, look. simpl.
  destruct (s.(cookies) !! d) as [dcs |]; simpl; [| done].
  destruct (dcs !! p) as [pcs |]; simpl; [| done].
  by repeat case_decide.
Qed.

Lemma look_removed m d p k k' : look (removed m d p k) k' = if decide (k' = (d, p, k)) then None else look m k'.
Proof.
  destruct k' as [[d' p'] k']. rewrite !look_default. unfold removed.
  destruct (m !! d) as [dcs |] eqn:Ed; simpl; cycle 1.
  { case_decide; [| done]. simplify_eq. by rewrite Ed. }
  destruct (dcs !! p) as [pcs |] eqn:Ep; simpl; cycle 1.
  { case_decide; [| done]. simplify_eq. rewrite Ed. simpl. by rewrite Ep. }
  destruct (decide (d' = d)) as [-> | Hd].
  2: { rewrite (decide_False (P := (d', p', k') = _)) by congruence.
       repeat case_decide; by rewrite ?lookup_insert_ne, ?lookup_delete_ne. }
  rewrite Ed. simpl. destruct (decide (p' = p)) as [-> | Hp].
  - rewrite Ep. cbn [default from_option id]. trans (delete k pcs !! k').
    + destruct (decide (delete k pcs = ∅)) as [-> |].
      * case_decide; [rewrite lookup_delete_eq | rewrite lookup_insert_eq]; simpl; [done |].
        by rewrite lookup_delete_eq.
      * rewrite lookup_insert_eq. simpl. by rewrite lookup_insert_eq.
    + case_decide; simplify_eq; [by rewrite lookup_delete_eq | by rewrite lookup_delete_ne by congruence].
  - rewrite (decide_False (P := (d, p', k') = _)) by congruence.
    destruct (decide (delete k pcs = ∅)); [destruct (decide (delete p dcs = ∅)) as [C |] |].
    + rewrite lookup_delete_eq. simpl. rewrite <- (lookup_delete_ne dcs p p'), C by done. done.
    + rewrite lookup_insert_eq. simpl. by rewrite lookup_delete_ne.
    + rewrite lookup_insert_eq. simpl. by rewrite lookup_insert_ne.
Qed.

(** ** Iteration *)
Definition values (m : gmap CookieKey Cookie) : list Cookie := (map_to_list m).*2.

Lemma path_cookies_at m p :
  path_cookies m ≡ₚ values (default ∅ (m !! p)) ++ path_cookies (delete p m).
Proof.
  unfold path_cookies. destruct (m !! p) as [pcs |] eqn:E; simpl.
  - rewrite <- (map_to_list_delete m p pcs) by done. by rewrite bind_cons.
  - by rewrite delete_id.
Qed.

Lemma all_cookies_at m d :
  all_cookies m ≡ₚ path_cookies (default ∅ (m !! d)) ++ all_cookies (delete d m).
Proof.
  unfold all_cookies. destruct (m !! d) as [dcs |] eqn:E; simpl.
  - rewrite <- (map_to_list_delete m d dcs) by done. by rewrite bind_cons.
  - by rewrite delete_id.
Qed.

(** The rest of the store, away from one bucket. *)
Definition elsewhere (m : DomainMap) (d p : list N) : list Cookie :=
  path_cookies (delete p (default ∅ (m !! d))) ++ all_cookies (delete d m).

Lemma all_cookies_bucket m d p :
  all_cookies m ≡ₚ values (default ∅ (default ∅ (m !! d) !! p)) ++ elsewhere m d p.
Proof. unfold elsewhere. rewrite (all_cookies_at m d), (path_cookies_at _ p) at 1. by rewrite app_assoc. Qed.

Lemma elem_values (m : gmap CookieKey Cookie) c : c ∈ values m ↔ ∃ k, m !! k = Some c.
Proof.
  unfold values. rewrite list_elem_of_fmap. split.
  - intros ([k c'] & -> & H). exists k. by apply elem_of_map_to_list.
  - intros (k & H). exists (k, c). split; [done |]. by apply elem_of_map_to_list.
Qed.

Lemma elem_all_cookies m c : c ∈ all_cookies m ↔ ∃ k, look m k = Some c.
Proof.
  unfold all_cookies, path_cookies, look. rewrite list_elem_of_bind. setoid_rewrite list_elem_of_bind. split.
  - intros ([d dcs] & ([p pcs] & (k & Hk)%elem_values & Hp) & Hd). apply elem_of_map_to_list in Hd, Hp.
    exists (d, p, k). simpl in *. by rewrite Hd; simpl; rewrite Hp.
  - intros ([[d p] k] & H). simpl in H. destruct (m !! d) as [dcs |] eqn:Hd; [| done].
    simpl in H. destruct (dcs !! p) as [pcs |] eqn:Hp; [| done].
    exists (d, dcs). split; [| by apply elem_of_map_to_list]. exists (p, pcs).
    split; [| by apply elem_of_map_to_list]. apply elem_values. by exists k.
Qed.

Lemma values_insert (m : gmap CookieKey Cookie) k c :
  values (<[k := c]> m) ≡ₚ c :: values (delete k m).
Proof.
  unfold values. rewrite <- insert_delete_eq, map_to_list_insert by apply lookup_delete_eq. done.
Qed.

Lemma values_delete (m : gmap CookieKey Cookie) k c :
  m !! k = Some c → values m ≡ₚ c :: values (delete k m).
Proof. intros H. unfold values. by rewrite <- (map_to_list_delete m k c). Qed.

Lemma elsewhere_put m d p k c : elsewhere (put m d p k c) d p = elsewhere m d p.
Proof.
  unfold elsewhere, put. cbv zeta. rewrite lookup_insert_eq. simpl.
  by rewrite !delete_insert_eq.
Qed.

(** What is left once the cookie of a slot is taken out. *)
Definition others (m : DomainMap) (d p : list N) (k : CookieKey) : list Cookie :=
  values (delete k (default ∅ (default ∅ (m !! d) !! p))) ++ elsewhere m d p.

Lemma all_cookies_put m d p k c : all_cookies (put m d p k c) ≡ₚ c :: others m d p k.
Proof.
  rewrite (all_cookies_bucket _ d p), elsewhere_put. unfold put, others. cbv zeta.
  rewrite lookup_insert_eq. simpl. rewrite lookup_insert_eq. simpl. by rewrite values_insert.
Qed.

Lemma all_cookies_some m d p k c : look m (d, p, k) = Some c → all_cookies m ≡ₚ c :: others m d p k.
Proof.
  rewrite look_default. intros H. rewrite (all_cookies_bucket _ d p). unfold others.
  by rewrite (values_delete _ k c).
Qed.

Lemma all_cookies_none m d p k : look m (d, p, k) = None → all_cookies m ≡ₚ others m d p k.
Proof.
  rewrite look_default. intros H. rewrite (all_cookies_bucket _ d p). unfold others.
  by rewrite (delete_id _ k).
Qed.

Lemma all_cookies_removed m d p k : all_cookies (removed m d p k) ≡ₚ others m d p k.
Proof.
  unfold removed. destruct (m !! d) as [dcs |] eqn:Ed; cycle 1.
  { apply all_cookies_none. unfold look. simpl. by rewrite Ed. }
  destruct (dcs !! p) as [pcs |] eqn:Ep; cycle 1.
  { apply all_cookies_none. unfold look. simpl. rewrite Ed. simpl. by rewrite Ep. }
  cbv zeta. unfold others. rewrite (all_cookies_bucket _ d p). unfold elsewhere. rewrite Ed. simpl.
  rewrite Ep. simpl. destruct (decide (delete k pcs = ∅)) as [-> |]; [destruct (decide (delete p dcs = ∅)) as [E |] |].
  - rewrite lookup_delete_eq, delete_delete_eq. simpl. by rewrite E.
  - rewrite lookup_insert_eq, delete_insert_eq. simpl. by rewrite lookup_delete_eq, delete_delete_eq.
  - rewrite lookup_insert_eq, delete_insert_eq. simpl. by rewrite lookup_insert_eq, delete_insert_eq.
Qed.
