(* ===== verification/CookieInvariant.v ===== *)
(** What a call does to the cookie store (moli-cookie-store): evictions, the
    effect of a write, and the invariants every call keeps, namely that each
    cookie is filed under its own identity, no bucket is empty, and the quotas
    hold.  The laws of the crates are hypotheses of the section. *)
From stdpp Require Import base list numbers option gmap strings.
From S2P Require Import Prelude Utf8 CookieTypes CookieDate CookieMatch CookiePolicy CookieStore CookieMaps.

#[local] Open Scope N_scope.

(** ** Well-formed stores *)
Definition pruned (m : DomainMap) : Prop :=
  ∀ d dcs, m !! d = Some dcs → dcs ≠ ∅ ∧ ∀ p pcs, dcs !! p = Some pcs → pcs ≠ ∅.

Record wf (s : CookieStore) : Prop := {
  wf_keyed : ∀ k c, look s.(cookies) k = Some c → slot_of c = k;
  wf_pruned : pruned s.(cookies) }.

Lemma pruned_put m d p k c : pruned m → pruned (put m d p k c).
Proof.
  intros H d' dcs'. unfold put. cbv zeta. intros E.
  destruct (decide (d' = d)) as [-> |]; [| rewrite lookup_insert_ne in E by done; by eapply H].
  rewrite lookup_insert_eq in E. injection E as <-. split; [apply insert_non_empty |].
  intros p' pcs'. destruct (decide (p' = p)) as [-> |].
  - rewrite lookup_insert_eq. intros [= <-]. apply insert_non_empty.
  - rewrite lookup_insert_ne by done. destruct (m !! d) as [dcs |] eqn:Ed; simpl.
    + by apply H in Ed as [_ Ed]; apply Ed.
    + by rewrite lookup_empty.
Qed.

Lemma pruned_removed m d p k : pruned m → pruned (removed m d p k).
Proof.
  intros H. unfold removed. destruct (m !! d) as [dcs |] eqn:Ed; [| done].
  destruct (dcs !! p) as [pcs |] eqn:Ep; [| done]. cbv zeta.
  pose proof (H _ _ Ed) as [_ Hd]. intros d' dcs'.
  destruct (decide (d' = d)) as [-> | Hne].
  - repeat case_decide; rewrite ?lookup_delete_eq, ?lookup_insert_eq; intros [= <-]; (split; [try done |]).
    + intros p' pcs'. rewrite lookup_delete_Some. intros [_ ?]. by eapply Hd.
    + apply insert_non_empty.
    + intros p' pcs'. destruct (decide (p' = p)) as [-> |]; [rewrite lookup_insert_eq; by intros [= <-] |].
      rewrite lookup_insert_ne by done. apply Hd.
  - repeat case_decide; rewrite ?lookup_delete_ne, ?lookup_insert_ne by done; apply H.
Qed.

Lemma pruned_empty : pruned ∅.
Proof. intros d dcs. by rewrite lookup_empty. Qed.

Lemma wf_new : wf store_new.
Proof. split; [done | apply pruned_empty]. Qed.

Lemma wf_cookies s s' : s'.(cookies) = s.(cookies) → wf s → wf s'.
Proof. intros E [H1 H2]. split; by rewrite E. Qed.

Lemma wf_set_limits s l : wf s → wf (set_limits s l).
Proof. by apply wf_cookies. Qed.

Lemma notify_cookies s m : (notify s m).(cookies) = s.(cookies).
Proof. unfold notify. by destruct (observer s). Qed.
Lemma notify_limits s m : (notify s m).(limits) = s.(limits).
Proof. unfold notify. by destruct (observer s). Qed.

Lemma wf_notify s m : wf s → wf (notify s m).
Proof. apply wf_cookies, notify_cookies. Qed.

Lemma wf_put s d p k c : slot_of c = (d, p, k) → wf s → wf (set_cookies s (put s.(cookies) d p k c)).
Proof.
  intros Hc [H1 H2]. split; simpl; [| by apply pruned_put].
  intros k' c'. rewrite look_put. case_decide; [| apply H1]. by intros [= <-]; subst.
Qed.

Lemma wf_insert s c : wf s → wf (set_cookies s (insert_cookie s.(cookies) c)).
Proof. by apply wf_put. Qed.

Lemma wf_removed s d p k : wf s → wf (set_cookies s (removed s.(cookies) d p k)).
Proof.
  intros [H1 H2]. split; simpl; [| by apply pruned_removed].
  intros k' c'. rewrite look_removed. case_decide; [done | apply H1].
Qed.

Lemma remove_cookies s d p n k :
  (remove_with_partition_key s d p n k).2.(cookies) =
    removed s.(cookies) d p {| key_name := n; key_partition := k |}.
Proof. rewrite remove_eq. simpl. destruct (look _ _); by rewrite ?notify_cookies. Qed.

Lemma remove_limits s d p n k : (remove_with_partition_key s d p n k).2.(limits) = s.(limits).
Proof. rewrite remove_eq. simpl. destruct (look _ _); by rewrite ?notify_limits. Qed.

Lemma wf_remove s d p n k : wf s → wf (remove_with_partition_key s d p n k).2.
Proof.
  intros H. eapply wf_cookies; [| by apply (wf_removed s d p {| key_name := n; key_partition := k |})].
  apply remove_cookies.
Qed.

(** ** Live cookies *)
Definition live (now : Z) (o : option Cookie) : option Cookie :=
  c ← o; if is_expired now c then None else Some c.

Lemma get_live now s d p n k :
  get_with_partition_key now s d p n k = live now (look s.(cookies) (d, p, {| key_name := n; key_partition := k |})).
Proof. done. Qed.

Lemma live_Some now o c : live now o = Some c ↔ o = Some c ∧ is_expired now c = false.
Proof.
  unfold live. destruct o as [c' |]; simpl; [| by split; [| intros []]].
  destruct (is_expired now c') eqn:E; (split; [intros [=] | intros [[=] ?]]); subst; [congruence | done | done].
Qed.

(** The number of live cookies of a list that a quota counts. *)
Definition tally (now : Z) (d : option (list N)) (k : option CookiePartitionKey) (l : list Cookie) : nat :=
  length (filter (λ c, is_expired now c = false ∧ counted d k c = true) l).

#[global] Instance tally_perm now d k : Proper ((≡ₚ) ==> eq) (tally now d k).
Proof. intros l l' H. unfold tally. by rewrite H. Qed.

Lemma tally_cons now d k c l :
  tally now d k (c :: l) =
    ((if decide (is_expired now c = false ∧ counted d k c = true) then 1 else 0) + tally now d k l)%nat.
Proof. unfold tally. rewrite filter_cons. by case_decide. Qed.

Lemma tally_le_length now d k l : (tally now d k l ≤ length l)%nat.
Proof. apply length_filter. Qed.

(** Time only takes cookies away. *)
Lemma expired_later now now' c : (now ≤ now')%Z → is_expired now c = true → is_expired now' c = true.
Proof. unfold is_expired, expires_by. destruct (expires c); [| done]. rewrite !bool_decide_eq_true. lia. Qed.

Lemma tally_later now now' d k l : (now ≤ now')%Z → (tally now' d k l ≤ tally now d k l)%nat.
Proof.
  intros H. induction l as [| c l IH]; [done |]. rewrite !tally_cons.
  do 2 case_decide; try lia. destruct (is_expired now c) eqn:E; [| naive_solver].
  apply (expired_later _ now') in E; [naive_solver congruence | done].
Qed.

(** ** Quotas *)
(** [L] is a quota, at least the one in force. *)
Definition covered (s : CookieStore) (L : CookieStoreLimits) : Prop :=
  s.(limits).(per_domain_cookies) ≤ L.(per_domain_cookies) ∧ s.(limits).(total_cookies) ≤ L.(total_cookies).

Definition limit_of (L : CookieStoreLimits) (d : option str) : N :=
  match d with Some _ => L.(per_domain_cookies) | None => L.(total_cookies) end.

Definition within (now : Z) (L : CookieStoreLimits) (s : CookieStore) : Prop :=
  (∀ d k, N.of_nat (tally now (Some d) k (all_cookies s.(cookies))) ≤ L.(per_domain_cookies)) ∧
  N.of_nat (tally now None None (all_cookies s.(cookies))) ≤ L.(total_cookies).

Lemma within_limit now L s d k : within now L s → (d = None → k = None) →
  N.of_nat (tally now d k (all_cookies s.(cookies))) ≤ limit_of L d.
Proof. intros [Hd Ht] Hk. destruct d; [apply Hd | by rewrite Hk]. Qed.

Lemma within_le now now' L s s' : (now ≤ now')%Z →
  (∀ d k, (tally now d k (all_cookies s'.(cookies)) ≤ tally now d k (all_cookies s.(cookies)))%nat) →
  within now L s → within now' L s'.
Proof.
  intros Ht Hc [H1 H2]. split.
  - intros d k. pose proof (H1 d k). pose proof (Hc (Some d) k).
    pose proof (tally_later now now' (Some d) k (all_cookies s'.(cookies)) Ht). lia.
  - pose proof (Hc None None). pose proof (tally_later now now' None None (all_cookies s'.(cookies)) Ht). lia.
Qed.

Lemma within_more now L L' s : L.(per_domain_cookies) ≤ L'.(per_domain_cookies) → L.(total_cookies) ≤ L'.(total_cookies) →
  within now L s → within now L' s.
Proof. intros H1 H2 [Hd Ht]. split; [intros d k; specialize (Hd d k); lia | lia]. Qed.

(** ** Evictions *)
Definition evict_step (now : Z) (incoming_secure : bool) (s s' : CookieStore) : Prop :=
  ∃ c, look s.(cookies) (slot_of c) = Some c ∧ is_expired now c = false ∧
       (secure c = true → incoming_secure = true) ∧
       s' = (remove_with_partition_key s (domain_string c.(domain)) c.(path).(path_str)
               (cookie_name c) c.(partition_key)).2.

Section evictions.
Context (shuffle : list Cookie → list Cookie) (shuffle_perm : ∀ l, shuffle l ≡ₚ l).
#[local] Notation iter_unexpired := (iter_unexpired shuffle).

Lemma elem_iter now s c :
  c ∈ iter_unexpired now s ↔ is_expired now c = false ∧ ∃ k, look s.(cookies) k = Some c.
Proof.
  unfold CookieStore.iter_unexpired, iter_any. rewrite list_elem_of_filter, shuffle_perm, elem_all_cookies. done.
Qed.

Lemma count_tally now s d k :
  count_unexpired shuffle now s d k = N.of_nat (tally now d k (all_cookies s.(cookies))).
Proof.
  unfold count_unexpired, tally, CookieStore.iter_unexpired, iter_any. f_equal.
  rewrite list_filter_filter. rewrite shuffle_perm. f_equal. apply list_filter_iff. naive_solver.
Qed.

Lemma oldest_elem l c : oldest l = Some c → c ∈ l.
Proof.
  revert c. induction l as [| x l IH]; simpl; [done |]. intros c [= <-].
  destruct (oldest l) as [o |]; [| left]. destruct (older o x); [right; by apply IH | left].
Qed.

Lemma evict_by_priority_step now s d k sec ps s' (incoming : bool) :
  wf s → (sec = true → incoming = true) →
  evict_by_priority shuffle now s d k sec ps = Some s' →
  evict_step now incoming s s' ∧
  tally now d k (all_cookies s.(cookies)) = S (tally now d k (all_cookies s'.(cookies))).
Proof.
  intros Hs Hi. induction ps as [| p ps IH]; simpl; [done |].
  unfold oldest_accessed_cookie_key. destruct (oldest _) as [c |] eqn:E; simpl; [| done].
  intros [= <-]. apply oldest_elem, list_elem_of_filter in E as [Hc (He & k' & Hk)%elem_iter].
  assert (look s.(cookies) (slot_of c) = Some c) as Hl by (by rewrite (wf_keyed _ Hs _ _ Hk)).
  unfold eviction_candidate in Hc. apply andb_true_iff in Hc as [[[Hp Hsec]%andb_true_iff _]%andb_true_iff Hd].
  apply Bool.eqb_prop in Hsec. split.
  { exists c. split_and!; [done | done | by rewrite Hsec |]. done. }
  unfold canonical_cookie_domain. rewrite remove_cookies, all_cookies_removed.
  rewrite (all_cookies_some s.(cookies) _ _ _ _ Hl), tally_cons, decide_True; [done |].
  split; [done |]. unfold counted. by rewrite Hp, Hd.
Qed.

Lemma evict_one_step now s d k incoming s' : wf s →
  evict_one_cookie shuffle now s d k incoming = Some s' →
  evict_step now incoming s s' ∧
  tally now d k (all_cookies s.(cookies)) = S (tally now d k (all_cookies s'.(cookies))).
Proof.
  intros Hs. unfold evict_one_cookie.
  destruct (evict_by_priority _ _ _ _ _ false _) as [s1 |] eqn:E.
  - intros [= <-]. by apply (evict_by_priority_step _ _ _ _ false _ _ incoming Hs) in E.
  - destruct incoming; [| done]. intros H. by apply (evict_by_priority_step _ _ _ _ true _ _ true Hs) in H.
Qed.

Lemma evict_step_wf now b s s' : evict_step now b s s' → wf s → wf s'.
Proof. intros (c & _ & _ & _ & ->). apply wf_remove. Qed.

Lemma evict_step_limits now b s s' : evict_step now b s s' → s'.(limits) = s.(limits).
Proof. intros (c & _ & _ & _ & ->). apply remove_limits. Qed.

(** An eviction takes one cookie out. *)
Lemma evict_step_cookies now b s s' : evict_step now b s s' →
  ∃ c, all_cookies s.(cookies) ≡ₚ c :: all_cookies s'.(cookies).
Proof.
  intros (c & Hl & _ & _ & ->). exists c. rewrite remove_cookies, all_cookies_removed.
  by apply all_cookies_some.
Qed.

Definition evictions (now : Z) (b : bool) := rtc (evict_step now b).

Lemma evictions_wf now b s s' : evictions now b s s' → wf s → wf s'.
Proof. induction 1; eauto using evict_step_wf. Qed.
Lemma evictions_limits now b s s' : evictions now b s s' → s'.(limits) = s.(limits).
Proof. induction 1 as [| s s1 s2 H1 _ IH]; [done |]. rewrite IH. by eapply evict_step_limits. Qed.
Lemma evictions_tally now b s s' t d k : evictions now b s s' →
  (tally t d k (all_cookies s'.(cookies)) ≤ tally t d k (all_cookies s.(cookies)))%nat.
Proof.
  induction 1 as [| s s1 s2 (c & E)%evict_step_cookies _ IH]; [done |]. rewrite E, tally_cons. lia.
Qed.
Lemma evictions_length now b s s' : evictions now b s s' →
  (length (all_cookies s'.(cookies)) ≤ length (all_cookies s.(cookies)))%nat.
Proof.
  induction 1 as [| s s1 s2 (c & E)%evict_step_cookies _ IH]; [done |]. rewrite E. simpl. lia.
Qed.

(** A live cookie that an eviction took is counted no more. *)
Lemma evictions_taken now b s s' d k c : evictions now b s s' → look s.(cookies) (slot_of c) = Some c →
  is_expired now c = false → counted d k c = true → look s'.(cookies) (slot_of c) = None →
  (tally now d k (all_cookies s'.(cookies)) < tally now d k (all_cookies s.(cookies)))%nat.
Proof.
  intros Hev Hl He Hco. revert Hl. induction Hev as [s | s s1 s2 Hst Hev IH]; intros Hl Hn; [by rewrite Hl in Hn |].
  destruct Hst as (c0 & Hl0 & _ & _ & ->). pose proof (evictions_tally _ _ _ _ now d k Hev) as Ht.
  rewrite remove_cookies, all_cookies_removed in Ht. fold (key_for_cookie c0) in Ht.
  pose proof (all_cookies_some s.(cookies) _ _ _ _ Hl0) as Hperm. rewrite Hperm, tally_cons.
  destruct (decide (slot_of c0 = slot_of c)) as [E | E].
  - rewrite E, Hl in Hl0. injection Hl0 as <-. rewrite decide_True by done. lia.
  - assert (look (remove_with_partition_key s (domain_string c0.(domain)) c0.(path).(path_str) (cookie_name c0)
      c0.(partition_key)).2.(cookies) (slot_of c) = Some c) as Hl1.
    { rewrite remove_cookies, look_removed. fold (key_for_cookie c0) (slot_of c0). by rewrite decide_False. }
    specialize (IH Hl1 Hn). rewrite remove_cookies, all_cookies_removed in IH. fold (key_for_cookie c0) in IH. lia.
Qed.

(** A cookie an eviction leaves is the one that was there, and it only takes
    secure cookies for a secure one. *)
Lemma evictions_look now b s s' k : evictions now b s s' →
  look s'.(cookies) k = look s.(cookies) k ∨
  look s'.(cookies) k = None ∧ ∃ c, look s.(cookies) k = Some c ∧ is_expired now c = false ∧
    (secure c = true → b = true).
Proof.
  induction 1 as [| s s1 s2 (c & Hl & He & Hb & ->) _ IH]; [by left |].
  rewrite remove_cookies, look_removed in IH. fold (key_for_cookie c) in IH. fold (slot_of c) in IH.
  case_decide as D.
  - right. subst. destruct IH as [-> | (_ & ? & ? & _)]; [eauto 10 | done].
  - done.
Qed.

(** What is evicted for a quota counts towards it. *)
Definition taken (s : CookieStore) d k (s' : CookieStore) : Prop :=
  ∃ c, look s.(cookies) (slot_of c) = Some c ∧ counted d k c = true ∧
    ∀ j, look s'.(cookies) j = if decide (j = slot_of c) then None else look s.(cookies) j.

Lemma evict_by_priority_taken now s d k sec ps s' : wf s →
  evict_by_priority shuffle now s d k sec ps = Some s' → taken s d k s'.
Proof.
  intros Hs. induction ps as [| p ps IH]; simpl; [done |].
  unfold oldest_accessed_cookie_key. destruct (oldest _) as [c |] eqn:E; simpl; [| done].
  intros [= <-]. apply oldest_elem, list_elem_of_filter in E as [Hc (He & k' & Hk)%elem_iter].
  unfold eviction_candidate in Hc. apply andb_true_iff in Hc as [[[Hp _]%andb_true_iff _]%andb_true_iff Hd].
  exists c. split_and!; [by rewrite (wf_keyed _ Hs _ _ Hk) | unfold counted; by rewrite Hp, Hd |].
  intros j. unfold canonical_cookie_domain. rewrite remove_cookies, look_removed. fold (key_for_cookie c) (slot_of c).
  by repeat case_decide.
Qed.

Lemma evict_one_taken now s d k incoming s' : wf s → evict_one_cookie shuffle now s d k incoming = Some s' → taken s d k s'.
Proof.
  intros Hs. unfold evict_one_cookie. destruct (evict_by_priority _ _ _ _ _ false _) as [s1 |] eqn:E.
  - intros [= <-]. by eapply evict_by_priority_taken.
  - destruct incoming; [| done]. by apply evict_by_priority_taken.
Qed.

Lemma make_room_loop_taken fuel now s d k incoming replacing limit ok s' c : wf s →
  make_room_loop shuffle fuel now s d k incoming replacing limit = Ret (ok, s') →
  look s.(cookies) (slot_of c) = Some c → look s'.(cookies) (slot_of c) = None →
  counted d k c = true ∧ limit ≤ N.of_nat (tally now d k (all_cookies s.(cookies))).
Proof.
  revert s. induction fuel as [| fuel IH]; intros s Hs; simpl; [done |]. rewrite count_tally.
  destruct (N.leb_spec limit (N.of_nat (tally now d k (all_cookies s.(cookies))) - (if replacing then 1 else 0))) as [Hl | _];
    [| intros [= _ <-] H1 H2; congruence].
  destruct (evict_one_cookie _ _ _ _ _ _) as [s1 |] eqn:E; [| intros [= _ <-] H1 H2; congruence].
  intros Hr Hc Hn. destruct (evict_one_taken _ _ _ _ _ _ Hs E) as (c1 & Hc1 & Hco & Hlook).
  destruct (decide (slot_of c = slot_of c1)) as [Eq | Ne].
  - rewrite Eq, Hc1 in Hc. injection Hc as <-. split; [done | lia].
  - apply evict_one_step in E as [E Ht]; [| done]. destruct (IH s1) as [? ?]; try done; [by eapply evict_step_wf | |].
    + rewrite Hlook. by rewrite decide_False.
    + split; [done | lia].
Qed.

(** *** Making room *)
(** The quotas that leave no room beside [c]. *)
Definition crowded (now : Z) (s : CookieStore) (c : Cookie) : Prop :=
  (c.(partition_key) = None ∧ s.(limits).(total_cookies) ≤ N.of_nat (tally now None None (all_cookies s.(cookies)))) ∨
  s.(limits).(per_domain_cookies) ≤
    N.of_nat (tally now (Some (domain_string c.(domain))) c.(partition_key) (all_cookies s.(cookies))).

Definition surplus (now : Z) (s : CookieStore) d k (replacing : bool) : N :=
  N.of_nat (tally now d k (all_cookies s.(cookies))) - (if replacing then 1 else 0).

Lemma make_room_loop_spec fuel now s d k incoming replacing limit :
  wf s → (tally now d k (all_cookies s.(cookies)) < fuel)%nat →
  ∃ ok s', make_room_loop shuffle fuel now s d k incoming replacing limit = Ret (ok, s') ∧
    evictions now incoming s s' ∧ (ok = true → surplus now s' d k replacing < limit) ∧
    (surplus now s d k replacing < limit → ok = true ∧ s' = s).
Proof.
  revert s. induction fuel as [| fuel IH]; intros s Hs Hf; [lia |]. simpl.
  rewrite count_tally. fold (surplus now s d k replacing). destruct (N.leb_spec limit (surplus now s d k replacing)).
  - destruct (evict_one_cookie _ _ _ _ _ _) as [s1 |] eqn:E.
    + apply evict_one_step in E as [E Ht]; [| done].
      destruct (IH s1) as (ok & s' & -> & He & Hok & _); [by eapply evict_step_wf | lia |].
      exists ok, s'. split_and!; [done | by eapply rtc_l | done | lia].
    + exists false, s. split_and!; [done | reflexivity | done | lia].
  - exists true, s. split_and!; [done | reflexivity | done | done].
Qed.

Lemma make_room_spec now s d k incoming replacing : wf s →
  ∃ ok s', make_room_for_cookie shuffle now s d k incoming replacing = Ret (ok, s') ∧
    evictions now incoming s s' ∧
    (ok = true → (k = None → surplus now s' None None replacing < s.(limits).(total_cookies)) ∧
                 surplus now s' (Some d) k replacing < s.(limits).(per_domain_cookies)) ∧
    ((k = None → surplus now s None None replacing < s.(limits).(total_cookies)) →
     surplus now s (Some d) k replacing < s.(limits).(per_domain_cookies) → ok = true ∧ s' = s).
Proof.
  intros Hs. unfold make_room_for_cookie. set (fuel := S _).
  assert (∃ ok s1, match k with
     | None => make_room_loop shuffle fuel now s None None incoming replacing s.(limits).(total_cookies)
     | Some _ => Ret (true, s) end = Ret (ok, s1) ∧ evictions now incoming s s1 ∧
     (ok = true → k = None → surplus now s1 None None replacing < s.(limits).(total_cookies)) ∧
     ((k = None → surplus now s None None replacing < s.(limits).(total_cookies)) → ok = true ∧ s1 = s))
    as (ok & s1 & -> & He & Hok & Hid).
  { destruct k; [exists true, s; split_and!; [done | reflexivity | done | done] |].
    destruct (make_room_loop_spec fuel now s None None incoming replacing s.(limits).(total_cookies))
      as (ok & s1 & -> & He & Hok & Hid); [done | |].
    { pose proof (tally_le_length now None None (all_cookies s.(cookies))). unfold fuel. lia. }
    exists ok, s1. split_and!; auto. }
  cbn [mbind run_bind]. destruct ok; cycle 1.
  { exists false, s1. split_and!; [done | done | done |]. intros [? _]%Hid; done. }
  rewrite (evictions_limits _ _ _ _ He).
  destruct (make_room_loop_spec fuel now s1 (Some d) k incoming replacing s.(limits).(per_domain_cookies))
    as (ok & s2 & -> & He2 & Hok2 & Hid2).
  { by eapply evictions_wf. }
  { pose proof (tally_le_length now (Some d) k (all_cookies s1.(cookies))).
    pose proof (evictions_length _ _ _ _ He). unfold fuel. lia. }
  exists ok, s2. split_and!; [done | by etrans | |].
  - intros E. split; [| by apply Hok2]. intros Ek. specialize (Hok eq_refl Ek).
    unfold surplus in *. pose proof (evictions_tally _ _ _ _ now None None He2). destruct replacing; lia.
  - intros [_ ->]%Hid ?. by apply Hid2.
Qed.

Lemma make_room_inv now s d k incoming replacing ok s' : wf s →
  make_room_for_cookie shuffle now s d k incoming replacing = Ret (ok, s') →
  evictions now incoming s s' ∧
  (ok = true → (k = None → surplus now s' None None replacing < s.(limits).(total_cookies)) ∧
               surplus now s' (Some d) k replacing < s.(limits).(per_domain_cookies)) ∧
  ((k = None → surplus now s None None replacing < s.(limits).(total_cookies)) →
   surplus now s (Some d) k replacing < s.(limits).(per_domain_cookies) → ok = true ∧ s' = s).
Proof.
  intros Hs Hm. destruct (make_room_spec now s d k incoming replacing Hs) as (ok' & s1 & E & H).
  rewrite Hm in E. by injection E as <- <-.
Qed.

(** Only a full quota makes a cookie disappear, and one it counts towards. *)
Lemma make_room_taken now s d k incoming replacing ok s' c : wf s →
  make_room_for_cookie shuffle now s d k incoming replacing = Ret (ok, s') →
  look s.(cookies) (slot_of c) = Some c → look s'.(cookies) (slot_of c) = None → crowded now s c.
Proof.
  intros Hs Hm Hc Hn. unfold make_room_for_cookie in Hm. set (fuel := S _) in Hm.
  apply run_bind_Ret in Hm as ([ok1 s1] & H1 & H2).
  assert (evictions now incoming s s1) as Hev.
  { destruct k; [injection H1 as <- <-; reflexivity |].
    destruct (make_room_loop_spec fuel now s None None incoming replacing s.(limits).(total_cookies)) as (? & ? & E & ? & _);
      [done | | rewrite H1 in E; by injection E as <- <-].
    pose proof (tally_le_length now None None (all_cookies s.(cookies))). unfold fuel. lia. }
  assert (counted_None : ∀ k c, counted None k c = true → c.(partition_key) = k).
  { intros k0 c0 H. unfold counted in H. apply andb_true_iff in H as [H _]. by apply bool_decide_eq_true in H. }
  destruct (look s1.(cookies) (slot_of c)) as [o |] eqn:E1.
  - assert (o = c) as -> by (destruct (evictions_look _ _ _ _ (slot_of c) Hev) as [E | [E _]]; congruence).
    destruct ok1; [| injection H2 as <- <-; congruence].
    apply (make_room_loop_taken _ _ _ _ _ _ _ _ _ _ c) in H2 as [Hco Hl]; [| by eapply evictions_wf | done | done].
    right. rewrite (evictions_limits _ _ _ _ Hev) in Hl. unfold counted, canonical_cookie_domain in Hco.
    apply andb_true_iff in Hco as [Ek Ed]. apply bool_decide_eq_true in Ek, Ed. rewrite Ek, Ed.
    pose proof (evictions_tally _ _ _ _ now (Some d) k Hev). lia.
  - left. destruct k; [injection H1 as <- <-; congruence |].
    apply (make_room_loop_taken _ _ _ _ _ _ _ _ _ _ c) in H1 as [Hco Hl]; [| done | done | done].
    split; [by apply counted_None | done].
Qed.
End evictions.

(** A cookie put in a slot counts for one, besides what is in other slots. *)
Lemma tally_insert now d k m c :
  (tally now d k (all_cookies (insert_cookie m c)) ≤
   (if decide (counted d k c = true) then 1 else 0) + tally now d k (all_cookies m))%nat.
Proof.
  unfold insert_cookie. rewrite all_cookies_put, tally_cons.
  assert (tally now d k (others m (domain_string c.(domain)) c.(path).(path_str) (key_for_cookie c)) ≤
    tally now d k (all_cookies m))%nat.
  { destruct (look m (slot_of c)) as [o |] eqn:E; unfold slot_of in E.
    - rewrite (all_cookies_some m _ _ _ _ E), tally_cons. lia.
    - by rewrite (all_cookies_none m _ _ _ E). }
  do 2 case_decide; try lia. naive_solver.
Qed.

Lemma slot_fields c c' : slot_of c = slot_of c' →
  domain_string c.(domain) = domain_string c'.(domain) ∧ c.(path).(path_str) = c'.(path).(path_str) ∧
  cookie_name c = cookie_name c' ∧ c.(partition_key) = c'.(partition_key).
Proof. unfold slot_of, key_for_cookie. by intros [= -> -> -> ->]. Qed.

Lemma counted_slot c c' d k : slot_of c = slot_of c' → counted d k c = counted d k c'.
Proof. intros (E1 & _ & _ & E4)%slot_fields. unfold counted, canonical_cookie_domain. by rewrite E1, E4. Qed.

(** Replacing a live cookie of the same slot does not add one. *)
Lemma tally_replace now d k m c old : look m (slot_of c) = Some old → slot_of old = slot_of c →
  is_expired now old = false →
  (tally now d k (all_cookies (insert_cookie m c)) ≤ tally now d k (all_cookies m))%nat.
Proof.
  intros Hl Hs He. unfold insert_cookie. rewrite all_cookies_put, (all_cookies_some m _ _ _ _ Hl), !tally_cons.
  rewrite (counted_slot old c d k Hs). repeat case_decide; try lia. naive_solver.
Qed.

(** ** Writes *)
Section writes.
Context {Url : Type} `{!UrlCrate Url, !HostCrate, !UrlLaws Url}.
Context (in_range : Z → bool) (shuffle : list Cookie → list Cookie) (shuffle_perm : ∀ l, shuffle l ≡ₚ l).

Definition from_document (x : InsertContext Url) : bool := bool_decide (x.(ic_source) = Document).

(** What a cookie that reaches the store has passed. *)
Record allowed (now : Z) (s : CookieStore) (c : Cookie) (x : InsertContext Url) : Prop := {
  allowed_http_only : http_only c && from_document x = false;
  allowed_secure : violates_secure_only c x = false;
  allowed_same_site : same_site_set_rejection_reason c x = None;
  allowed_size : violates_size c x = false;
  allowed_partition : partitioned c = true → is_Some c.(partition_key);
  allowed_prefix : x.(enforce_browser_policy) && negb (prefixes_are_valid c) = false;
  allowed_domain : domain_matches c.(domain) x.(ic_url) = Ret true;
  allowed_overlay : violates_overlay shuffle now s c x = false;
  allowed_old : ∀ old, live now (look s.(cookies) (slot_of c)) = Some old →
    http_only old && from_document x = false }.

(** Two cookies that differ in their ages only. *)
Definition same_but_age (c c' : Cookie) : Prop :=
  c'.(raw_cookie) = c.(raw_cookie) ∧ c'.(path) = c.(path) ∧ c'.(domain) = c.(domain) ∧
  c'.(expires) = c.(expires) ∧ c'.(partition_key) = c.(partition_key) ∧
  c'.(priority) = c.(priority) ∧ c'.(source_scheme) = c.(source_scheme) ∧
  c'.(source_port) = c.(source_port).

Lemma same_but_age_slot c c' : same_but_age c c' → slot_of c' = slot_of c.
Proof.
  intros (E1 & E2 & E3 & _ & E5 & _). unfold slot_of, key_for_cookie, cookie_name. by rewrite E1, E2, E3, E5.
Qed.

(** The store just before the new cookie goes in: only indexes change, and a
    cookie that expired earlier in its slot may leave. *)
Inductive cleared (now : Z) (c : Cookie) (s : CookieStore) : CookieStore → Prop :=
  | cleared_kept i j : cleared now c s (set_indexes s i j)
  | cleared_stale i j :
      cleared now c s
        (set_indexes (remove_with_partition_key s (domain_string c.(domain)) c.(path).(path_str)
           (cookie_name c) c.(partition_key)).2 i j).

Inductive write_effect (now : Z) (x : InsertContext Url) (s : CookieStore)
    : CookieStore → CookieSetResult → Prop :=
  | effect_rejected e : write_effect now x s s (Rejected e)
  | effect_expired c old :
      allowed now s c x → is_expired now c = true →
      live now (look s.(cookies) (slot_of c)) = Some old →
      write_effect now x s
        (notify (put_cookie s (domain_string c.(domain)) c.(path).(path_str) (cookie_name c)
                   c.(partition_key) (expire now old)) (Delete (store_key_for_cookie old)))
        (Accepted ExpiredExisting)
  | effect_full c s' :
      allowed now s c x → is_expired now c = false →
      make_room_for_cookie shuffle now s (domain_string c.(domain)) c.(partition_key) (secure c)
        (bool_decide (is_Some (live now (look s.(cookies) (slot_of c))))) = Ret (false, s') →
      write_effect now x s s' (Rejected StorageFull)
  | effect_stored c c' s1 s2 a :
      allowed now s c x → is_expired now c = false → same_but_age c c' →
      make_room_for_cookie shuffle now s (domain_string c.(domain)) c.(partition_key) (secure c)
        (bool_decide (is_Some (live now (look s.(cookies) (slot_of c))))) = Ret (true, s1) →
      cleared now c s1 s2 →
      write_effect now x s (notify (set_cookies s2 (insert_cookie s2.(cookies) c')) (Upsert c'))
        (Accepted a).

Lemma store_live_effect now x s c po : wf s → allowed now s c x → is_expired now c = false →
  ∃ s' r, store_live_cookie in_range shuffle now s c po = Ret (s', r) ∧
    write_effect now x s s' (match r with inl (a, _) => Accepted a | inr e => Rejected e end) ∧
    (r = inr StorageFull ∨ is_Some (maybe inl r)).
Proof.
  intros Hs Hc He. unfold store_live_cookie. rewrite get_live. fold (key_for_cookie c) (slot_of c).
  set (existing := live now _).
  destruct (make_room_spec shuffle shuffle_perm now s (domain_string c.(domain)) c.(partition_key) (secure c)
    (bool_decide (is_Some existing)) Hs) as (ok & s1 & Em & _). rewrite Em. cbn [mbind run_bind].
  destruct ok; cbn [negb]; cycle 1.
  { eexists _, _. split; [done |]. split; [by eapply effect_full | by left]. }
  match goal with |- context [let '(_, _) := ?p in _] => assert (∃ s2 c', p = (s2, c') ∧
    same_but_age c c' ∧ cleared now c s1 s2) as (s2 & c' & -> & Hsame & Hcl) end.
  { destruct po; [eexists _, _; split; [done |]; split; [by repeat split | constructor] |].
    destruct existing as [old |]; (eexists _, _; split; [done |]; split; [by repeat split |]).
    - apply (cleared_kept now c s1).
    - apply (cleared_stale now c s1). }
  eexists _, _. split; [done |]. split; [| by right; eexists]. by eapply effect_stored.
Qed.

Definition result_status (r : StoreAction * CookieEffectiveSameSite + Error) : CookieSetResult :=
  match r with inl (a, _) => Accepted a | inr e => Rejected e end.

Lemma insert_effect now x s c po : wf s →
  ∃ s' r, insert_with_context_impl in_range shuffle now s c x po = Ret (s', r) ∧
    write_effect now x s s' (result_status r).
Proof.
  intros Hs. unfold insert_with_context_impl. fold (from_document x).
  assert (∀ e, ∃ s' r, @Ret (CookieStore * _) (s, inr e) = Ret (s', r) ∧
    write_effect now x s s' (result_status r)) as R by (intros e; eexists _, _; split; [done | constructor]).
  destruct (canonicalize_cookie_for_store_checks s c x.(ic_url)) as [c0 | e]; [clear c; rename c0 into c | apply R].
  destruct (http_only c && from_document x) eqn:A1; [apply R |].
  destruct (violates_secure_only c x) eqn:A2; [apply R |].
  destruct (violates_same_site_none c x) eqn:A3; [apply R |].
  destruct (same_site_set_rejection_reason c x) eqn:A4; [apply R |].
  destruct (violates_size c x) eqn:A5; [apply R |].
  destruct (partitioned c && (_ && _)) eqn:A6; [apply R |].
  destruct (partitioned c && bool_decide _) eqn:A7; [apply R |].
  destruct (_ && negb (prefixes_are_valid c)) eqn:A8; [apply R |].
  destruct (domain_matches_total c.(domain) x.(ic_url)) as [ok A9]. rewrite A9. cbn [mbind run_bind].
  destruct ok; cbn [negb]; [| apply R].
  destruct (violates_overlay shuffle now s c x) eqn:A10; [apply R |].
  destruct (as_cow c.(domain)) as [d |] eqn:Ed; [| apply R].
  assert (d = domain_string c.(domain)) as -> by (destruct c.(domain); simpl in *; congruence).
  rewrite get_live. fold (key_for_cookie c) (slot_of c).
  assert ((∀ old, live now (look s.(cookies) (slot_of c)) = Some old → http_only old && from_document x = false) →
    allowed now s c x) as Hal.
  { intros ?. split; try done. intros Hp. rewrite Hp in A7. simpl in A7. apply bool_decide_eq_false in A7.
    by destruct c.(partition_key). }
  destruct (live now _) as [old |] eqn:El.
  - destruct (http_only old && from_document x) eqn:Eo; [apply R |]. specialize (Hal ltac:(naive_solver)).
    destruct (is_expired now c) eqn:Ee; [| by destruct (store_live_effect now x s c po) as (s' & r & -> & ? & _); eauto].
    eexists _, _. split; [done |]. by apply effect_expired.
  - specialize (Hal ltac:(done)). destruct (is_expired now c) eqn:Ee; [apply R |].
    destruct (store_live_effect now x s c po) as (s' & r & -> & ? & _); eauto.
Qed.

Lemma add_rejection_status r e : is_rejected r = false → (add_rejection r e).(set_status) = Rejected e.
Proof. unfold add_rejection. simpl. by intros ->. Qed.

Lemma collect_total now s c (x : InsertContext Url) :
  ∃ l, collect_preinsert_rejection_reasons shuffle now s c x = Ret l.
Proof.
  unfold collect_preinsert_rejection_reasons.
  destruct (canonicalize_cookie_for_store_checks s c x.(ic_url)) as [c0 | e]; [| eauto].
  destruct (domain_matches_total c0.(domain) x.(ic_url)) as [ok ->]. cbn [mbind run_bind]. eauto.
Qed.

Lemma set_effect now s c x prior po : wf s →
  ∃ s' r, set_with_ordering in_range shuffle now s c x prior po = Ret (s', r) ∧
    write_effect now x s s' r.(set_status).
Proof.
  intros Hs. unfold set_with_ordering. assert (∀ r, is_rejected r = true → write_effect now x s s r.(set_status)) as R.
  { intros r. unfold is_rejected. destruct (set_status r); [done | constructor]. }
  destruct (is_rejected prior) eqn:Ep; [eauto |].
  set (c' := prepare_cookie _ _ _ _ _). clearbody c'.
  destruct (collect_total now s c' x) as [l ->]. cbn [mbind run_bind].
  set (r0 := foldl add_rejection _ l). clearbody r0. destruct (is_rejected r0) eqn:E; [eauto |].
  destruct (insert_effect now x s c' po Hs) as (s' & r & -> & Hw). cbn [mbind run_bind].
  eexists _, _. split; [done |]. destruct r as [[a e] | e]; simpl in *; [done |]. by rewrite E.
Qed.

(** *** Invariants of a write *)
Lemma wf_cleared now c s s' : cleared now c s s' → wf s → wf s'.
Proof.
  destruct 1 as [i j | i j]; intros Hs; [by apply (wf_cookies s) |].
  by apply (wf_cookies (remove_with_partition_key s (domain_string c.(domain)) c.(path).(path_str) (cookie_name c) c.(partition_key)).2), wf_remove.
Qed.

Lemma cleared_limits now c s s' : cleared now c s s' → s'.(limits) = s.(limits).
Proof. destruct 1; simpl; [done | apply remove_limits]. Qed.

Lemma expire_slot now c : slot_of (expire now c) = slot_of c.
Proof. done. Qed.

Lemma write_wf now x s s' r : write_effect now x s s' r → wf s → wf s'.
Proof.
  destruct 1 as [e | c old Hc He Ho | c s' Hc He Hm | c c' s1 s2 a Hc He Hsame Hm Hcl]; intros Hs; [done | | |].
  - apply wf_notify, wf_put; [| done]. apply live_Some in Ho as [Ho _]. rewrite expire_slot.
    by apply (wf_keyed _ Hs) in Ho.
  - apply (make_room_inv _ shuffle_perm) in Hm as [Hev _]; [| done]. by eapply evictions_wf.
  - apply (make_room_inv _ shuffle_perm) in Hm as [Hev _]; [| done]. apply wf_notify, wf_insert.
    eapply wf_cleared; [done |]. by eapply evictions_wf.
Qed.

Lemma counted_age c c' d k : same_but_age c c' → counted d k c' = counted d k c.
Proof.
  intros (_ & _ & E3 & _ & E5 & _). unfold counted, canonical_cookie_domain. by rewrite E3, E5.
Qed.

Lemma cleared_tally now c s s' t d k : cleared now c s s' →
  (tally t d k (all_cookies s'.(cookies)) ≤ tally t d k (all_cookies s.(cookies)))%nat.
Proof.
  destruct 1; simpl; [done |]. rewrite remove_cookies, all_cookies_removed. fold (key_for_cookie c).
  destruct (look s.(cookies) (slot_of c)) as [o |] eqn:E; unfold slot_of in E.
  - rewrite (all_cookies_some _ _ _ _ _ E), tally_cons. lia.
  - by rewrite (all_cookies_none _ _ _ _ E).
Qed.

Lemma write_limits now x s s' r : wf s → write_effect now x s s' r → s'.(limits) = s.(limits).
Proof.
  intros Hs. destruct 1 as [e | c old Hc He Ho | c s' Hc He Hm | c c' s1 s2 a Hc He Hsame Hm Hcl];
    rewrite ?notify_limits; try done; apply (make_room_inv _ shuffle_perm) in Hm as [Hev _]; try done.
  - by eapply evictions_limits.
  - simpl. rewrite (cleared_limits _ _ _ _ Hcl). by eapply evictions_limits.
Qed.

(** Replacing a live cookie, which an eviction may have taken first. *)
Lemma replace_within now s s1 s2 c c' old d k : wf s → same_but_age c c' → cleared now c s1 s2 →
  evictions now (secure c) s s1 → live now (look s.(cookies) (slot_of c)) = Some old → counted d k c' = true →
  (tally now d k (all_cookies (insert_cookie s2.(cookies) c')) ≤ tally now d k (all_cookies s.(cookies)))%nat.
Proof.
  intros Hs Hsame Hcl Hev [El Eo]%live_Some Hco.
  assert (slot_of old = slot_of c) as Eslot by (by apply (wf_keyed _ Hs)).
  assert (counted d k old = true) as Hold.
  { rewrite (counted_slot old c) by done. by rewrite <- (counted_age c c'). }
  pose proof (evictions_tally _ _ _ _ now d k Hev) as Hle. pose proof (tally_insert now d k s2.(cookies) c') as Hi.
  rewrite Hco in Hi. simpl in Hi. destruct (look s1.(cookies) (slot_of c)) as [o |] eqn:E1.
  - assert (o = old) as ->.
    { destruct (evictions_look _ _ _ _ (slot_of c) Hev) as [E | [E _]]; congruence. }
    destruct Hcl as [i j | i j]; simpl.
    + etrans; [| exact Hle]. apply (tally_replace _ _ _ _ _ old); rewrite ?(same_but_age_slot c c') by done; done.
    + simpl in Hi. rewrite remove_cookies in Hi |- *. rewrite all_cookies_removed in Hi. fold (key_for_cookie c) in Hi |- *.
      rewrite (all_cookies_some _ _ _ _ _ E1), tally_cons, decide_True in Hle by done. lia.
  - pose proof (cleared_tally now c s1 s2 now d k Hcl) as Hc2. rewrite <- Eslot in El, E1.
    pose proof (evictions_taken _ _ _ _ d k old Hev El Eo Hold E1). lia.
Qed.

Lemma store_within now L s s1 s2 c c' : wf s → covered s L → within now L s → same_but_age c c' →
  make_room_for_cookie shuffle now s (domain_string c.(domain)) c.(partition_key) (secure c)
    (bool_decide (is_Some (live now (look s.(cookies) (slot_of c))))) = Ret (true, s1) →
  cleared now c s1 s2 →
  (∀ d k, counted d k c' = true → (d = None → k = None) →
    N.of_nat (tally now d k (all_cookies (insert_cookie s2.(cookies) c'))) ≤ limit_of L d).
Proof.
  intros Hs [Hc1 Hc2] Hq Hsame Hm Hcl d k Hco Hdk.
  pose proof (within_limit now L s d k Hq Hdk) as Hlim.
  assert (c.(partition_key) = k ∧ ∀ d', d = Some d' → d' = domain_string c.(domain)) as [Ek Ed].
  { rewrite (counted_age c c') in Hco by done. unfold counted in Hco. apply andb_true_iff in Hco as [E1 E2].
    apply bool_decide_eq_true in E1. split; [done |]. intros d' ->. simpl in E2. by apply bool_decide_eq_true in E2. }
  apply (make_room_inv _ shuffle_perm) in Hm as (Hev & Hok & _); [| done].
  destruct (live now (look s.(cookies) (slot_of c))) as [old |] eqn:El.
  - pose proof (replace_within now s s1 s2 c c' old d k Hs Hsame Hcl Hev El Hco). lia.
  - rewrite bool_decide_eq_false_2 in Hok by (by intros []). destruct (Hok eq_refl) as [H1 H2].
    pose proof (tally_insert now d k s2.(cookies) c') as Hi. rewrite Hco in Hi. simpl in Hi.
    pose proof (cleared_tally now c s1 s2 now d k Hcl).
    assert (N.of_nat (tally now d k (all_cookies s1.(cookies))) < limit_of L d); [| lia].
    unfold surplus in *. subst k. destruct d as [d |]; simpl.
    + rewrite (Ed d) by done. lia.
    + specialize (H1 (Hdk eq_refl)). rewrite (Hdk eq_refl). lia.
Qed.

Lemma write_within now L x s s' r : wf s → write_effect now x s s' r → covered s L → within now L s → within now L s'.
Proof.
  intros Hs Hw Hcov Hq.
  destruct Hw as [e | c old Hc He Ho | c s' Hc He Hm | c c' s1 s2 a Hc He Hsame Hm Hcl]; [done | | |].
  - eapply within_le; [reflexivity | | done]. intros d k. rewrite notify_cookies. simpl.
    apply live_Some in Ho as [Ho Eo]. fold (key_for_cookie c).
    change (put s.(cookies) _ _ _ _) with (put s.(cookies) (slot_of c).1.1 (slot_of c).1.2 (slot_of c).2 (expire now old)).
    rewrite <- (wf_keyed _ Hs _ _ Ho) in Ho |- *. by apply (tally_replace _ _ _ _ (expire now old) old).
  - apply (make_room_inv _ shuffle_perm) in Hm as [Hev _]; [| done].
    eapply within_le; [reflexivity | | done]. intros d k. by eapply evictions_tally.
  - pose proof (make_room_inv _ shuffle_perm _ _ _ _ _ _ _ _ Hs Hm) as [Hev _].
    assert (∀ d k, (d = None → k = None) →
      N.of_nat (tally now d k (all_cookies (insert_cookie s2.(cookies) c'))) ≤ limit_of L d) as B.
    { intros d k Hdk. destruct (counted d k c') eqn:Eco; [by eapply store_within |].
      pose proof (tally_insert now d k s2.(cookies) c') as Hi. rewrite Eco in Hi. simpl in Hi.
      pose proof (cleared_tally now c s1 s2 now d k Hcl). pose proof (evictions_tally _ _ _ _ now d k Hev).
      pose proof (within_limit now L s d k Hq Hdk). lia. }
    unfold within. rewrite notify_cookies. simpl. split.
    + intros d k. by apply (B (Some d) k).
    + by apply (B None None).
Qed.
End writes.
