(* ===== verification/CookieGuarantees.v ===== *)
(** Histories of calls on a cookie store (moli-cookie-store).  Every history
    returns and keeps the invariants, and the mutations an observer was told
    rebuild the store. *)
From stdpp Require Import base list numbers option gmap strings.
From S2P Require Import Prelude Utf8 CookieTypes CookieDate CookieMatch CookiePolicy CookieStore.
From S2P Require Import CookieMaps CookieInvariant.

#[local] Open Scope N_scope.

(** ** Calls *)
Inductive Call (Url : Type) :=
  | SetLine (cookie_str : list N) (x : InsertContext Url)
  | SetCanonical (i : CanonicalCookieInput) (x : InsertContext Url) (prior : CookieSetAccessResult)
  | SetCookie (c : Cookie) (x : InsertContext Url) (prior : CookieSetAccessResult)
  | Restore (c : Cookie) (x : InsertContext Url)
  | Query (q : QueryContext Url)
  | DeleteMatching (f : CookieDeleteFilter)
  | Remove (d p n : list N) (k : option CookiePartitionKey)
  | Touch (d p n : list N) (k : option CookiePartitionKey)
  | ClearAll
  | SetLimits (l : CookieStoreLimits).
#[global] Arguments SetLine {Url}.
#[global] Arguments SetCanonical {Url}.
#[global] Arguments SetCookie {Url}.
#[global] Arguments Restore {Url}.
#[global] Arguments Query {Url}.
#[global] Arguments DeleteMatching {Url}.
#[global] Arguments Remove {Url}.
#[global] Arguments Touch {Url}.
#[global] Arguments ClearAll {Url}.
#[global] Arguments SetLimits {Url}.

Section calls.
Context {Url : Type} {url_crate : UrlCrate Url} {host_crate : HostCrate} {time_crate : TimeCrate}
  {cookie_crate : CookieCrate}.
Context (in_range : Z → bool) (shuffle : list Cookie → list Cookie).

Definition perform (now : Z) (s : CookieStore) (call : Call Url) : run CookieStore :=
  match call with
  | SetLine l x => fst <$> set_response_cookie_str_with_access_result in_range shuffle now s l x
  | SetCanonical i x prior =>
      fst <$> set_canonical_cookie_with_access_result_chain in_range shuffle now s i x prior
  | SetCookie c x prior => fst <$> set_with_access_result_chain in_range shuffle now s c x prior
  | Restore c x => fst <$> restore_with_context in_range shuffle now s c x
  | Query q => fst <$> get_cookie_access_query_result in_range shuffle now s q
  | DeleteMatching f => Ret (delete_matching shuffle now s f).1
  | Remove d p n k => Ret (remove_with_partition_key s d p n k).2
  | Touch d p n k => Ret (touch_with_partition_key now s d p n k).2
  | ClearAll => Ret (clear s)
  | SetLimits l => Ret (set_limits s l)
  end.

Fixpoint run_calls (s : CookieStore) (h : list (Z * Call Url)) : run CookieStore :=
  match h with
  | [] => Ret s
  | (now, call) :: h => s ← perform now s call; run_calls s h
  end.

(** The clock does not go back. *)
Fixpoint ticking (t : Z) (h : list (Z * Call Url)) : Prop :=
  match h with [] => True | (now, _) :: h => (t ≤ now)%Z ∧ ticking now h end.
Definition last_time (t : Z) (h : list (Z * Call Url)) : Z := default t (last h.*1).

(** ** Effects *)
(** One step of a call on the cookies. *)
Inductive effect (now : Z) : CookieStore → CookieStore → Prop :=
  | effect_write (x : InsertContext Url) s s' r : write_effect shuffle now x s s' r → effect now s s'
  | effect_remove s d p n k : effect now s (remove_with_partition_key s d p n k).2
  | effect_touch s d p n k : effect now s (touch_with_partition_key now s d p n k).2
  | effect_clear s : effect now s (clear s).

Definition effects (now : Z) := rtc (effect now).

Context {url_laws : UrlLaws Url} (shuffle_perm : ∀ l, shuffle l ≡ₚ l).

Lemma filter_run_total {A} (f : A → run bool) l : (∀ x, ∃ b, f x = Ret b) → ∃ l', filter_run f l = Ret l'.
Proof.
  intros Hf. induction l as [| x l [l' IH]]; simpl; [eauto |]. destruct (Hf x) as [b ->].
  cbn [mbind run_bind]. rewrite IH. cbn [mbind run_bind]. eauto.
Qed.

Lemma map_run_total {A B} (f : A → run B) l : (∀ x, ∃ b, f x = Ret b) → ∃ l', map_run f l = Ret l'.
Proof.
  intros Hf. induction l as [| x l [l' IH]]; simpl; [eauto |]. destruct (Hf x) as [b ->].
  cbn [mbind run_bind]. rewrite IH. cbn [mbind run_bind]. eauto.
Qed.

Lemma access_total now c (q : QueryContext Url) : ∃ r, query_context_access_result in_range now c q = Ret r.
Proof.
  unfold query_context_access_result. destruct (domain_matches_total c.(domain) q.(qc_url)) as [b ->].
  cbn [mbind run_bind]. destruct (path_matches_total c.(path) q.(qc_url)) as [b' ->].
  cbn [mbind run_bind]. eauto.
Qed.

Lemma entries_total now (q : QueryContext Url) l : ∃ es, map_run (access_entry in_range now q) l = Ret es.
Proof.
  apply map_run_total. intros c. unfold access_entry. destruct (access_total now c q) as [r ->].
  cbn [mbind run_bind]. eauto.
Qed.

Lemma cookies_of_url_total s (u : Url) : ∃ l, cookies_of_url shuffle s u = Ret l.
Proof.
  unfold cookies_of_url. destruct (filter_run_total (λ e : list N * _, domain_is_match e.1 u)
    (map_to_list s.(cookies))) as [l ->]; [intros; apply domain_is_match_total |]. cbn [mbind run_bind]. eauto.
Qed.

(** The reads that leave the store alone return too. *)
Lemma matches_total now s (u : Url) : ∃ l, matches shuffle now s u = Ret l.
Proof.
  unfold matches. destruct (filter_run_total (λ e : list N * _, domain_is_match e.1 u)
    (map_to_list s.(cookies))) as [ds ->]; [intros; apply domain_is_match_total |]. cbn [mbind run_bind].
  match goal with |- ∃ l, ?m ≫= _ = _ => assert (∃ ls, m = Ret ls) as [ls ->]; [| cbn [mbind run_bind]; eauto] end.
  apply map_run_total. intros e. destruct (filter_run_total (λ e : list N * _, path_is_match e.1 u)
    (map_to_list e.2)) as [ps ->]; [intros; apply path_is_match_total |]. cbn [mbind run_bind].
  apply filter_run_total. intros c. destruct (is_expired now c); [eauto |]. apply cookie_matches_total.
Qed.

Lemma foldl_effects {A} now (f : CookieStore → A → CookieStore) l s :
  (∀ s a, effect now s (f s a)) → effects now s (foldl f s l).
Proof. intros Hf. revert s. induction l as [| a l IH]; intros s; simpl; [reflexivity |]. eapply rtc_l; [apply Hf | apply IH]. Qed.

Lemma try_from_canonical_total now i (u : Url) : ∃ r, try_from_canonical_input in_range now i u = Ret r.
Proof.
  unfold try_from_canonical_input. destruct (try_from_raw_total now (build_raw_cookie i) u) as [r ->].
  cbn [mbind run_bind]. eauto.
Qed.

(** The context of a call that writes. *)
Definition write_context (call : Call Url) : option (InsertContext Url) :=
  match call with
  | SetLine _ x | SetCanonical _ x _ | SetCookie _ x _ | Restore _ x => Some x
  | _ => None
  end.

Lemma perform_write now s call x : wf s → write_context call = Some x →
  ∃ s' r, perform now s call = Ret s' ∧ write_effect shuffle now x s s' r.
Proof.
  intros Hs Hx. assert (∀ c prior po, ∃ s' r,
    fst <$> set_with_ordering in_range shuffle now s c x prior po = Ret s' ∧
    write_effect shuffle now x s s' r) as W.
  { intros c prior po. destruct (set_effect in_range shuffle shuffle_perm now s c x prior po Hs)
      as (s' & r & -> & Hw). simpl. eauto. }
  assert (∃ s' r, @Ret CookieStore s = Ret s' ∧ write_effect shuffle now x s s' r) as R.
  { eexists _, (Rejected Parse). split; [done | constructor]. }
  destruct call as [l x0 | i x0 prior | c x0 prior | c x0 | | | | | |]; simpl in Hx; simplify_eq; simpl;
    [| | apply W | apply W].
  - unfold set_response_cookie_str_with_access_result.
    match goal with |- context [mbind _ ?m] => assert (∃ r, m = Ret r) as [r ->] end.
    { destruct (parse_cookie _); [apply try_from_raw_total | eauto]. }
    cbn [mbind run_bind]. destruct r as [c | e]; [apply W | exact R].
  - unfold set_canonical_cookie_with_access_result_chain.
    destruct (try_from_canonical_total now i x.(ic_url)) as [[c | e] ->]; cbn [mbind run_bind]; [apply W | exact R].
Qed.

Lemma perform_effects now s call : wf s → ∃ s', perform now s call = Ret s' ∧
  (effects now s s' ∨ ∃ l, call = SetLimits l ∧ s' = set_limits s l).
Proof.
  intros Hs. destruct (write_context call) as [x |] eqn:Ex.
  { destruct (perform_write now s call x Hs Ex) as (s' & r & -> & Hw). exists s'. split; [done |].
    left. by eapply rtc_once, effect_write. }
  destruct call as [| | | | q | f | d p n k | d p n k | | l]; simpl in Ex; try done; simpl;
    [| | | | | eexists; split; [done | eauto]].
  - unfold get_cookie_access_query_result. destruct (cookies_of_url_total s q.(qc_url)) as [l ->].
    cbn [mbind run_bind]. destruct (entries_total now q l) as [es ->]. cbn [mbind run_bind]. simpl.
    eexists. split; [done |]. left. destruct (update_access_time q); [| reflexivity].
    apply foldl_effects. intros. apply effect_touch.
  - eexists. split; [done |]. left. apply foldl_effects. intros s0 [[[n d] p] k]. apply effect_remove.
  - eexists. split; [done |]. left. apply rtc_once, effect_remove.
  - eexists. split; [done |]. left. apply rtc_once, effect_touch.
  - eexists. split; [done |]. left. apply rtc_once, effect_clear.
Qed.

(** *** Invariants *)
Lemma touch_eq now s d p n k :
  let key := {| key_name := n; key_partition := k |} in
  (touch_with_partition_key now s d p n k).2 =
    (let s1 := (bump_access_index s).2 in
     match live now (look s.(cookies) (d, p, key)) with
     | Some c => set_cookies s1 (put s.(cookies) d p key (touch_with_access_index c s.(next_access_index)))
     | None => s1
     end).
Proof. unfold touch_with_partition_key. simpl. rewrite get_live. simpl. by destruct (live now _). Qed.

Lemma effect_wf now s s' : effect now s s' → wf s → wf s'.
Proof.
  destruct 1 as [x s s' r Hw | s d p n k | s d p n k | s]; intros Hs.
  - by eapply write_wf.
  - by apply wf_remove.
  - rewrite touch_eq. cbv zeta. destruct (live now _) as [c |] eqn:E; [| by apply (wf_cookies s)].
    apply live_Some in E as [E _]. apply (wf_keyed _ Hs) in E.
    by apply (wf_cookies (set_cookies s (put s.(cookies) d p {| key_name := n; key_partition := k |}
      (touch_with_access_index c s.(next_access_index))))), wf_put.
  - unfold clear. case_decide; [done |]. apply wf_notify. split; [done | apply pruned_empty].
Qed.

Lemma effect_limits now s s' : effect now s s' → wf s → s'.(limits) = s.(limits).
Proof.
  destruct 1 as [x s s' r Hw | s d p n k | s d p n k | s]; intros Hs.
  - by eapply (write_limits shuffle).
  - apply remove_limits.
  - rewrite touch_eq. cbv zeta. by destruct (live now _).
  - unfold clear. case_decide; [done |]. by rewrite notify_limits.
Qed.

Lemma clear_within now L s : within now L s → within now L (clear s).
Proof.
  intros Hq. unfold clear. case_decide; [done |]. eapply within_le; [reflexivity | | done].
  intros d k. rewrite notify_cookies. simpl. apply Nat.le_0_l.
Qed.

Lemma effect_within now L s s' : effect now s s' → wf s → covered s L → within now L s → within now L s'.
Proof.
  destruct 1 as [x s s' r Hw | s d p n k | s d p n k | s]; intros Hs Hc Hq.
  - by eapply write_within.
  - eapply within_le; [reflexivity | | done]. intros d' k'.
    rewrite remove_cookies, all_cookies_removed. set (key := {| key_name := n; key_partition := k |}).
    destruct (look s.(cookies) (d, p, key)) as [o |] eqn:E.
    + rewrite (all_cookies_some _ _ _ _ _ E), tally_cons. lia.
    + by rewrite (all_cookies_none _ _ _ _ E).
  - rewrite touch_eq. cbv zeta. destruct (live now _) as [c |] eqn:E; [| done].
    apply live_Some in E as [E El]. apply (within_le now now L s); [reflexivity | | done]. intros d' k'. simpl.
    pose proof (wf_keyed _ Hs _ _ E) as Ek.
    change (put s.(cookies) d p ?key ?c0) with (put s.(cookies) (d, p, key).1.1 (d, p, key).1.2 (d, p, key).2 c0).
    rewrite <- Ek in E |- *. by apply (tally_replace _ _ _ _ (touch_with_access_index c _) c).
  - by apply clear_within.
Qed.

Lemma effects_invariant now L s s' : effects now s s' → wf s → covered s L → within now L s →
  wf s' ∧ covered s' L ∧ within now L s'.
Proof.
  induction 1 as [| s s1 s2 H1 _ IH]; [done |]. intros Hs Hc Hq. apply IH; [by eapply effect_wf | | by eapply effect_within].
  unfold covered in *. by rewrite (effect_limits _ _ _ H1 Hs).
Qed.

Lemma effects_wf now s s' : effects now s s' → wf s → wf s'.
Proof. induction 1; eauto using effect_wf. Qed.

Lemma perform_wf now s call s' : wf s → perform now s call = Ret s' → wf s'.
Proof.
  intros Hs Hp. destruct (perform_effects now s call Hs) as (s1 & E & He). rewrite Hp in E. injection E as <-.
  destruct He as [He | (l & _ & ->)]; [by eapply effects_wf |]. by apply (wf_cookies s).
Qed.

Lemma run_calls_wf s h s' : wf s → run_calls s h = Ret s' → wf s'.
Proof.
  revert s. induction h as [| [now call] h IH]; intros s Hs Hr; simpl in Hr; [by injection Hr as <- |].
  destruct (perform_effects now s call Hs) as (s1 & E & He). rewrite E in Hr. cbn [mbind run_bind] in Hr.
  eapply IH; [| exact Hr]. by eapply perform_wf.
Qed.

(** The highest quotas in force up to the end of a history. *)
Definition raise (L l : CookieStoreLimits) : CookieStoreLimits :=
  {| per_domain_cookies := N.max L.(per_domain_cookies) l.(per_domain_cookies);
     total_cookies := N.max L.(total_cookies) l.(total_cookies) |}.
Fixpoint highest (L : CookieStoreLimits) (h : list (Z * Call Url)) : CookieStoreLimits :=
  match h with
  | [] => L
  | (_, SetLimits l) :: h => highest (raise L l) h
  | _ :: h => highest L h
  end.

Lemma perform_invariant now L s call s' : wf s → covered s L → within now L s → perform now s call = Ret s' →
  let L' := match call with SetLimits l => raise L l | _ => L end in covered s' L' ∧ within now L' s'.
Proof.
  intros Hs Hc Hq Hp. destruct (perform_effects now s call Hs) as (s1 & E & He). rewrite Hp in E. injection E as <-.
  assert (effects now s s' → covered s' L ∧ within now L s') as Hsame.
  { intros H. by destruct (effects_invariant now L s s' H Hs Hc Hq) as (_ & ? & ?). }
  destruct call as [| | | | | | | | | l]; try (destruct He as [He | (l0 & [=] & _)]; exact (Hsame He)).
  injection Hp as <-. unfold raise. split; [split; simpl; lia |]. apply (within_more now L); simpl; [lia | lia |].
  exact Hq.
Qed.

Lemma highest_cons now L (call : Call Url) h :
  highest L ((now, call) :: h) = highest (match call with SetLimits l => raise L l | _ => L end) h.
Proof. by destruct call. Qed.

Lemma within_new t : within t unlimited store_new.
Proof. split; [intros d k |]; apply N.le_0_l. Qed.

(** C4: whatever calls are made on a cookie store, in any order, while the
    clock does not go back (lines and structured cookies set over HTTP, by a
    document or by the debugger, restored cookies, queries, deletions,
    touches, clearing, new quotas), every one of them returns; each cookie
    stays filed under its own domain, path, name and partition, no bucket is
    left empty, and the live cookies stay within the highest quota that was
    in force, for their domain and partition and, unpartitioned, for the whole
    store.  So as long as no quota is lowered they are within the quota in
    force; a quota that is lowered evicts nothing by itself. *)
Theorem cookie_store_safe t L s (h : list (Z * Call Url)) :
  wf s → covered s L → within t L s → ticking t h →
  ∃ s', run_calls s h = Ret s' ∧ wf s' ∧ covered s' (highest L h) ∧ within (last_time t h) (highest L h) s'.
Proof.
  revert t L s. induction h as [| [now call] h IH]; intros t L s Hs Hc Hq Ht.
  { exists s. auto. }
  simpl in Ht. destruct Ht as [Hn Ht]. destruct (perform_effects now s call Hs) as (s1 & E & _).
  cbn [run_calls]. rewrite E. cbn [mbind run_bind].
  assert (within now L s) as Hq1 by (eapply within_le; [exact Hn | done | done]).
  destruct (perform_invariant now L s call s1 Hs Hc Hq1 E) as [Hc1 Hq2]. rewrite highest_cons.
  destruct (IH now _ s1 (perform_wf _ _ _ _ Hs E) Hc1 Hq2 Ht) as (s' & -> & Hw & Hc' & Hq').
  exists s'. split_and!; [done | done | done |].
  unfold last_time in *. rewrite fmap_cons, last_cons. simpl. by destruct (last h.*1).
Qed.

(** ** The observer *)
(** A mirror keeps the cookies the observer was told about. *)
Notation Mirror := (gmap Slot Cookie) (only parsing).

Definition slot_of_key (k : CookieStoreKey) : Slot :=
  (k.(sk_domain), k.(sk_path), {| key_name := k.(sk_name); key_partition := k.(sk_partition) |}).

Definition apply_mutation (m : Mirror) (mutation : CookieStoreMutation) : Mirror :=
  match mutation with
  | Upsert c => <[slot_of c := c]> m
  | Delete k => delete (slot_of_key k) m
  | Clear => ∅
  end.

(** A read moves the last access of a cookie and tells nobody. *)
Definition forget_access (c : Cookie) : Cookie := touch_with_access_index c 0.

Definition tombstone (c : Cookie) : Prop := c.(expires) = AtUtc 0.

(** The mirror has the cookies of the store but for their last access, and
    lacks those an expired write left as tombstones. *)
Definition mirrors (m : Mirror) (s : CookieStore) : Prop :=
  ∀ k, match look s.(cookies) k with
       | Some c => forget_access <$> m !! k = Some (forget_access c) ∨ m !! k = None ∧ tombstone c
       | None => m !! k = None
       end.

(** What a step told the observer takes the mirror along. *)
Definition told (s s' : CookieStore) : Prop :=
  ∃ new, s'.(log) = s.(log) ++ new ∧ s'.(observer) = s.(observer) ∧
    ∀ m, mirrors m s → mirrors (foldl apply_mutation m new) s'.

Lemma told_refl s : told s s.
Proof. exists []. by rewrite app_nil_r. Qed.

Lemma told_trans s s1 s' : told s s1 → told s1 s' → told s s'.
Proof.
  intros (n1 & E1 & O1 & H1) (n2 & E2 & O2 & H2). exists (n1 ++ n2). rewrite E2, E1, O2, O1, app_assoc.
  split_and!; [done | done |]. intros m Hm. rewrite foldl_app. auto.
Qed.

(** Indexes and limits are not the observer's business. *)
Lemma told_same s s' : s'.(cookies) = s.(cookies) → s'.(log) = s.(log) → s'.(observer) = s.(observer) →
  told s s'.
Proof.
  intros E1 E2 E3. exists []. rewrite app_nil_r. split_and!; [done | done |]. intros m Hm k. simpl. rewrite E1. apply Hm.
Qed.

Lemma told_notify s m mutation : s.(observer) = true →
  (∀ mir, mirrors mir s → mirrors (apply_mutation mir mutation) (set_cookies s m)) →
  told s (notify (set_cookies s m) mutation).
Proof.
  intros Ho Hm. exists [mutation]. unfold notify. simpl. rewrite Ho. split_and!; [done | done |].
  intros mir Hmir k. apply (Hm _ Hmir).
Qed.

Lemma told_remove s d p n k : s.(observer) = true → wf s → told s (remove_with_partition_key s d p n k).2.
Proof.
  intros Ho Hs. rewrite remove_eq. cbn [snd]. set (key := {| key_name := n; key_partition := k |}).
  destruct (look s.(cookies) (d, p, key)) as [c |] eqn:E.
  - apply told_notify; [done |]. intros mir Hm k'. simpl. rewrite look_removed.
    assert (slot_of_key (store_key_for_cookie c) = (d, p, key)) as -> by exact (wf_keyed _ Hs _ _ E).
    case_decide as D; [subst; apply lookup_delete_eq |]. rewrite lookup_delete_ne by done. apply Hm.
  - exists []. rewrite app_nil_r. split_and!; [done | done |]. intros mir Hm k'. simpl. rewrite look_removed.
    case_decide as D; [subst; specialize (Hm (d, p, key)); by rewrite E in Hm | apply Hm].
Qed.

Lemma remove_observer s d p n k : (remove_with_partition_key s d p n k).2.(observer) = s.(observer).
Proof. rewrite remove_eq. simpl. unfold notify. by repeat case_match. Qed.

Lemma told_evictions now b s s' : evictions now b s s' → s.(observer) = true → wf s → told s s'.
Proof.
  induction 1 as [| s s1 s2 H1 _ IH]; intros Ho Hs; [apply told_refl |].
  eapply told_trans; [| apply IH].
  - destruct H1 as (c & _ & _ & _ & ->). by apply told_remove.
  - destruct H1 as (c & _ & _ & _ & ->). by rewrite remove_observer.
  - by eapply evict_step_wf.
Qed.

Lemma told_upsert s c : s.(observer) = true →
  told s (notify (set_cookies s (insert_cookie s.(cookies) c)) (Upsert c)).
Proof.
  intros Ho. apply told_notify; [done |]. intros mir Hm k. simpl. rewrite look_insert.
  case_decide as D; [subst; left; by rewrite lookup_insert_eq |]. rewrite lookup_insert_ne by done. apply Hm.
Qed.

Lemma told_observer s s' : told s s' → s'.(observer) = s.(observer).
Proof. by intros (new & _ & -> & _). Qed.

Lemma told_cleared now c s s' : cleared now c s s' → s.(observer) = true → wf s → told s s'.
Proof.
  destruct 1; intros Ho Hs; [by apply told_same |].
  eapply told_trans; [by apply told_remove |]. by apply told_same.
Qed.

Lemma told_expire now s c old : s.(observer) = true → wf s → look s.(cookies) (slot_of c) = Some old →
  told s (notify (put_cookie s (domain_string c.(domain)) c.(path).(path_str) (cookie_name c)
            c.(partition_key) (expire now old)) (Delete (store_key_for_cookie old))).
Proof.
  intros Ho Hs Hl. apply told_notify; [done |]. intros mir Hm k. simpl. rewrite look_put.
  assert (slot_of_key (store_key_for_cookie old) = slot_of c) as -> by exact (wf_keyed _ Hs _ _ Hl).
  fold (key_for_cookie c) (slot_of c). case_decide as D.
  - subst. right. split; [apply lookup_delete_eq | done].
  - rewrite lookup_delete_ne by done. apply Hm.
Qed.

Lemma told_write now (x : InsertContext Url) s s' r : write_effect shuffle now x s s' r →
  s.(observer) = true → wf s → told s s'.
Proof.
  destruct 1 as [e | c old Hc He Ho | c s' Hc He Hm | c c' s1 s2 a Hc He Hsame Hm Hcl]; intros Hobs Hs.
  - apply told_refl.
  - apply live_Some in Ho as [Ho _]. by apply told_expire.
  - apply (make_room_inv _ shuffle_perm) in Hm as [Hev _]; [| done]. by eapply told_evictions.
  - apply (make_room_inv _ shuffle_perm) in Hm as [Hev _]; [| done].
    pose proof (told_evictions _ _ _ _ Hev Hobs Hs) as T1.
    assert (s1.(observer) = true) as Ho1 by (by rewrite (told_observer _ _ T1)).
    pose proof (told_cleared _ _ _ _ Hcl Ho1 (evictions_wf _ _ _ _ Hev Hs)) as T2.
    eapply told_trans; [exact T1 |]. eapply told_trans; [exact T2 |]. apply told_upsert.
    by rewrite (told_observer _ _ T2).
Qed.

Lemma told_touch now s d p n k : told s (touch_with_partition_key now s d p n k).2.
Proof.
  rewrite touch_eq. cbv zeta. destruct (live now _) as [c |] eqn:E; [| by apply told_same].
  apply live_Some in E as [E _]. exists []. rewrite app_nil_r. split_and!; [done | done |].
  intros m Hm k'. simpl. rewrite look_put. case_decide as D; [| apply Hm]. subst.
  specialize (Hm (d, p, {| key_name := n; key_partition := k |})). by rewrite E in Hm.
Qed.

Lemma told_clear s : s.(observer) = true → told s (clear s).
Proof.
  intros Ho. unfold clear. case_decide; [apply told_refl |]. apply told_notify; [done |].
  intros mir Hm k. simpl. apply lookup_empty.
Qed.

Lemma told_effects now s s' : effects now s s' → s.(observer) = true → wf s → told s s'.
Proof.
  induction 1 as [| s s1 s2 H1 _ IH]; intros Ho Hs; [apply told_refl |].
  assert (told s s1) as T.
  { destruct H1; [by eapply told_write | by apply told_remove | apply told_touch | by apply told_clear]. }
  eapply told_trans; [exact T |]. apply IH; [by rewrite (told_observer _ _ T) | by eapply effect_wf].
Qed.

(** C10: an observer can keep a copy of the store.  Starting from a copy and an
    installed observer, whatever calls are made, applying the reported
    mutations in order to the copy gives the cookies of the store again: the
    same identities with the same contents, except the moment of the last
    access, which reads do not report, and except tombstones, which the store
    keeps in place of cookies that an expired write has deleted.  So writes,
    evictions, deletions and clearing are all reported, and in order. *)
Theorem observer_mirrors_store (h : list (Z * Call Url)) s s' copy :
  wf s → s.(observer) = true → mirrors copy s → run_calls s h = Ret s' →
  ∃ reported, s'.(log) = s.(log) ++ reported ∧ mirrors (foldl apply_mutation copy reported) s'.
Proof.
  intros Hs Ho Hm Hr. enough (told s s') as (new & El & _ & H') by eauto. clear Hm.
  revert s Hs Ho Hr. induction h as [| [now call] h IH]; intros s Hs Ho Hr; simpl in Hr.
  { injection Hr as ->. apply told_refl. }
  destruct (perform_effects now s call Hs) as (s1 & E & He). rewrite E in Hr. cbn [mbind run_bind] in Hr.
  assert (told s s1) as T by (destruct He as [He | (l & _ & ->)]; [by eapply told_effects | by apply told_same]).
  eapply told_trans; [exact T |]. apply IH; [| | done].
  - by eapply perform_wf.
  - by rewrite (told_observer _ _ T).
Qed.
End calls.

(** ** An example *)
Module Demo.
Export (hints) Plain.
#[export] Instance time_crate : TimeCrate := november.

Definition bare (n v : list N) (sec ho : bool) : RawCookie :=
  {| name := n; value := v; raw_secure := if sec then Some true else None;
     raw_http_only := if ho then Some true else None; raw_partitioned := None; same_site := None;
     raw_domain := None; raw_path := Some [slash]; raw_max_age := None; raw_expires := None;
     raw_priority := None |}.

(** Lines that are a name and a value. *)
#[export] Instance cookie_crate : CookieCrate := {|
  raw_parse l := '(n, v) ← split_once_at 61 l; Some (bare n v false false);
  kept_expires t := t; answered_domain d := d |}.

Definition secure_page := Plain.mk_url "https" "example.com" "a".
Definition insecure_page := Plain.mk_url "http" "example.com" "a".

Definition cookie (n : string) (sec ho : bool) : Cookie :=
  mk_cookie (bare (chars n) (chars "v") sec ho) {| path_str := [slash]; is_from_path_attr := true |}
    (HostOnly (chars "example.com")) SessionEnd 0 Pending 0 None Unset 443 None.

Definition put_demo (source : CookieAccessSource) (u : Plain.Url) (n : string) (sec ho : bool) : Call Plain.Url :=
  SetCookie (cookie n sec ho) (insert_context source u) provisional_set_access_result.

Definition history : list (Z * Call Plain.Url) :=
  [(1%Z, put_demo Http secure_page "id" true true); (2%Z, put_demo Http insecure_page "theme" false false);
   (3%Z, SetLine (chars "theme=dark") (insert_context Document insecure_page))].

Definition slot (n : string) : Slot :=
  (chars "example.com", [slash], {| key_name := chars n; key_partition := None |}).

(** A store with room for two cookies of a domain, observed from the start. *)
Definition small : CookieStore :=
  set_observer (set_limits store_new {| per_domain_cookies := 2; total_cookies := 2 |}) true.

Definition go (s : CookieStore) (h : list (Z * Call Plain.Url)) : CookieStore :=
  match run_calls (λ _, true) (λ l, l) s h with Ret s => s | Panic => s end.

Lemma small_wf : wf small.
Proof. split; [done | apply pruned_empty]. Qed.
Lemma small_within : within 0 small.(limits) small.
Proof. split; [intros d k |]; apply N.le_0_l. Qed.
Lemma go_wf h : wf (go small h).
Proof.
  unfold go. destruct (run_calls _ _ _ _) as [s |] eqn:E; [| apply small_wf].
  eapply (run_calls_wf (λ _, true) (λ l, l)); [done | apply small_wf | exact E].
Qed.
End Demo.
Import (hints) Demo.

Lemma cookie_store_safe_witness :
  let h := Demo.history ++ [(3%Z, SetLimits {| per_domain_cookies := 1; total_cookies := 3 |})] in
  ∃ s', run_calls (λ _, true) (λ l, l) Demo.small h = Ret s' ∧ wf s' ∧
    within 3 {| per_domain_cookies := 2; total_cookies := 3 |} s'.
Proof.
  intros h. destruct (cookie_store_safe (λ _, true) (λ l, l) (λ l, Permutation_refl l) 0 Demo.small.(limits) Demo.small h
    Demo.small_wf) as (s' & Hr & Hw & _ & Hq).
  - split; reflexivity.
  - exact Demo.small_within.
  - simpl. lia.
  - exists s'. split; [exact Hr |]. split; [exact Hw | exact Hq].
Defined.

Lemma observer_mirrors_store_witness :
  ∃ reported, (Demo.go Demo.small Demo.history).(log) = reported ∧ length reported = 3%nat ∧
    mirrors (foldl apply_mutation ∅ reported) (Demo.go Demo.small Demo.history).
Proof.
  destruct (observer_mirrors_store (λ _, true) (λ l, l) (λ l, Permutation_refl l) Demo.history Demo.small
    (Demo.go Demo.small Demo.history) ∅ Demo.small_wf eq_refl) as (reported & E & M).
  - intros k. reflexivity.
  - vm_compute. reflexivity.
  - exists reported. split; [exact E |]. split; [| exact M].
    change (log Demo.small ++ reported) with reported in E. rewrite <- E. vm_compute. reflexivity.
Defined.
