(* ===== verification/CookieQuery.v ===== *)
(** Which cookies a query of the store includes (moli-cookie-store,
    [query.rs], [query_policy.rs]), against a statement of the rules one by
    one, and in which order. *)
From stdpp Require Import base list numbers option gmap strings sorting.
From S2P Require Import Prelude Utf8 CookieTypes CookieDate CookieMatch CookiePolicy CookieStore.
From S2P Require Import CookieMaps CookieInvariant CookieGuarantees.

#[local] Open Scope N_scope.

Section query.
Context {Url : Type} {url_crate : UrlCrate Url} {host_crate : HostCrate} {url_laws : UrlLaws Url}.
Context (in_range : Z → bool) (shuffle : list Cookie → list Cookie) (shuffle_perm : ∀ l, shuffle l ≡ₚ l).

(** ** The rules *)
(** The cookie's domain, host-only or not, covers the host of the request. *)
Definition domain_covers (d : CookieDomain) (u : Url) : Prop :=
  ∃ h, canonical_request_host u = Some h ∧
    match d with
    | HostOnly h' => h = h'
    | Suffix d => domain_match h d
    | NotPresent | Empty => False
    end.

Definition path_covers (p : CookiePath) (u : Url) : Prop :=
  cannot_be_a_base u = false ∧ rfc_path_match (path_of u) p.(path_str).

(** [HttpOnly]: not for scripts that do not ask for it, nor for transports
    that are not HTTP. *)
Definition http_only_allows (c : Cookie) (q : QueryContext Url) : Prop :=
  http_only c = true →
  (q.(qc_source) = Document → q.(include_http_only) = true) ∧
  (q.(qc_source) = Http → is_http_scheme q.(qc_url) = true).

Definition scheme_allows (c : Cookie) (q : QueryContext Url) : Prop :=
  c.(source_scheme) = Unset ∨ c.(source_scheme) = source_scheme_from_url q.(qc_url).

(** Partitioned cookies go to their partition only, the others to every
    request but one from an opaque partition. *)
Definition partition_allows (c : Cookie) (q : QueryContext Url) : Prop :=
  match c.(partition_key) with
  | Some k => q.(qc_browser_context).(cookie_partition_key) = Some k
  | None => ∀ n a, q.(qc_browser_context).(cookie_partition_key) ≠ Some (Opaque n a)
  end.

Definition same_site_allows (now : Z) (c : Cookie) (q : QueryContext Url) : Prop :=
  q.(qc_source) = Cdp ∨
  let context := for_inclusion q.(qc_same_site_context) in
  match effective_same_site in_range now c with
  | NoRestriction => True
  | EffectiveStrict => context = SameSiteStrict
  | EffectiveLax => context = SameSiteStrict ∨ context = SameSiteLax
  | LaxAllowUnsafe =>
      context ≠ CrossSite ∧
      (context = SameSiteLaxMethodUnsafe → q.(qc_request_type) = TopLevelNavigation)
  end.

Record sent (now : Z) (q : QueryContext Url) (c : Cookie) : Prop := {
  sent_live : is_expired now c = false;
  sent_domain : domain_covers c.(domain) q.(qc_url);
  sent_path : path_covers c.(path) q.(qc_url);
  sent_secure : secure c = true → is_secure q.(qc_url) = true;
  sent_http_only : http_only_allows c q;
  sent_scheme : scheme_allows c q;
  sent_partition : partition_allows c q;
  sent_same_site : same_site_allows now c q }.

(** ** One cookie *)
Lemma domain_covers_spec d (u : Url) : ∃ b, domain_matches d u = Ret b ∧ (b = true ↔ domain_covers d u).
Proof.
  destruct d as [h | s | |].
  2: apply suffix_matches_spec.
  all: unfold domain_matches, domain_covers; destruct (canonical_request_host u) as [h0 |];
    (eexists; split; [done |]).
  all: rewrite ?bool_decide_eq_true; split; [try done | try by intros (? & ? & ?)].
  - intros ->. eauto.
  - by intros (? & [= <-] & ->).
Qed.

Lemma exclude_if_included b r s : is_included (exclude_if b r s) = negb b && is_included s.
Proof.
  unfold exclude_if, is_included, add_exclusion. destruct b; [| done]. simpl.
  apply bool_decide_eq_false. unfold push_new. case_bool_decide as E.
  - intros E'. rewrite E' in E. by apply elem_of_nil in E.
  - by destruct (exclusion_reasons s).
Qed.

Lemma warn_if_included b r s : is_included (warn_if b r s) = is_included s.
Proof. by destruct b. Qed.

Lemma same_site_spec now c q :
  same_site_exclusion_reason c q (for_inclusion q.(qc_same_site_context)) (effective_same_site in_range now c) = None ↔
  same_site_allows now c q.
Proof.
  unfold same_site_exclusion_reason, same_site_allows. case_decide as D; [by split; [left |] |].
  cbv zeta. set (context := for_inclusion _). clearbody context.
  destruct (effective_same_site in_range now c).
  - split; [by right | done].
  - destruct context; (split; [intros ?; right; (by auto || done) | intros [? | [|]]; done]).
  - destruct context, (qc_request_type q); simpl; (split; [intros ?; right; split; done | intros [? | [? ?]]]; try done; try naive_solver).
  - case_decide; (split; [intros ?; right; done | intros [? | ?]; done]).
Qed.

Lemma partition_spec c (q : QueryContext Url) :
  partition_key_mismatch c.(partition_key) q.(qc_browser_context).(cookie_partition_key) = false ↔
  partition_allows c q.
Proof.
  unfold partition_key_mismatch, partition_allows.
  destruct (partition_key c) as [k |], (cookie_partition_key _) as [[s a | n a] |]; simpl;
    rewrite ?negb_false_iff, ?bool_decide_eq_true; naive_solver.
Qed.

Lemma scheme_spec c (q : QueryContext Url) : source_scheme_mismatch c q.(qc_url) = false ↔ scheme_allows c q.
Proof.
  unfold source_scheme_mismatch, scheme_allows. rewrite andb_false_iff, !negb_false_iff, !bool_decide_eq_true.
  naive_solver.
Qed.

Lemma http_only_spec c (q : QueryContext Url) :
  (http_only c && negb (q.(include_http_only) || negb (bool_decide (q.(qc_source) = Document))) = false ∧
   http_only c && bool_decide (q.(qc_source) = Http) && negb (is_http_scheme q.(qc_url)) = false) ↔
  http_only_allows c q.
Proof.
  unfold http_only_allows. destruct (http_only c), (include_http_only q), (is_http_scheme _), (qc_source q);
    simpl; naive_solver.
Qed.

Lemma included_spec now c (q : QueryContext Url) r :
  query_context_access_result in_range now c q = Ret r → (is_included r.(status) = true ↔ sent now q c).
Proof.
  unfold query_context_access_result. destruct (domain_covers_spec c.(domain) q.(qc_url)) as (b1 & -> & H1).
  cbn [mbind run_bind]. destruct (path_matches_spec c.(path) q.(qc_url)) as (b2 & -> & H2).
  cbn [mbind run_bind]. intros [= <-]. cbn [status].
  set (excluded := same_site_exclusion_reason c q (for_inclusion _) _).
  assert (∀ s e, is_included (match excluded with Some r => add_exclusion (warn_if e SameSiteContextDowngradedByRedirect s) r
    | None => s end) = bool_decide (excluded = None) && is_included s) as E1.
  { intros s e. destruct excluded as [r |]; [| done].
    change (add_exclusion (warn_if e SameSiteContextDowngradedByRedirect s) r)
      with (exclude_if true r (warn_if e SameSiteContextDowngradedByRedirect s)).
    by rewrite exclude_if_included. }
  rewrite E1.
  match goal with |- context [is_included (if ?d then ?s else add_warning ?s ?w)] =>
    assert (is_included (if d then s else add_warning s w) = is_included s) as -> by (by destruct d) end.
  rewrite !exclude_if_included, warn_if_included, !exclude_if_included.
  rewrite !andb_true_iff, !negb_true_iff, bool_decide_eq_true.
  pose proof (same_site_spec now c q) as E. fold excluded in E. rewrite E.
  rewrite partition_spec, scheme_spec, negb_false_iff, negb_false_iff, H1, H2.
  pose proof (http_only_spec c q) as E3. split.
  - intros (A & B & C & D1 & D2 & F & G & I & J & _). split; try done.
    + intros Hsec. rewrite Hsec in F. by apply negb_false_iff.
    + apply E3. by split.
  - intros []. split_and!; try done.
    + by apply E3.
    + by apply E3.
    + destruct (secure c); [simpl; apply negb_false_iff; by auto | done].
    + match goal with H : path_covers _ _ |- _ => apply H end.
    + match goal with H : path_covers _ _ |- _ => apply H end.
Qed.

(** ** The whole query *)
(** A host without empty labels. *)
Definition no_empty_label (h : list N) : Prop :=
  head h ≠ Some dot ∧ last h ≠ Some dot ∧ ∀ p q, h ≠ p ++ dot :: dot :: q.

(** IDNA leaves a canonical host as it is, and so the domains above it. *)
Definition idna_stable : Prop :=
  ∀ (u : Url) h d, canonical_request_host u = Some h → (h = d ∨ ∃ p, h = p ++ dot :: d) → d ≠ [] →
    domain_to_ascii (trim d) = Some d.

(** The domains of the stored cookies are in their canonical form. *)
Definition filed (s : CookieStore) : Prop :=
  ∀ k c, look s.(cookies) k = Some c → domain_string c.(domain) ≠ [] →
    domain_to_ascii (trim (domain_string c.(domain))) = Some (domain_string c.(domain)).

(** The bucket of a cookie that covers the request is looked into. *)
Lemma bucket_matches d (u : Url) :
  (domain_string d ≠ [] → domain_to_ascii (trim (domain_string d)) = Some (domain_string d)) →
  (∀ h, canonical_request_host u = Some h → no_empty_label h) →
  domain_covers d u → domain_is_match (domain_string d) u = Ret true.
Proof.
  intros Hcan Hh (h & Eh & Hd). specialize (Hh h Eh) as (L1 & L2 & L3).
  assert (domain_match h (domain_string d)) as Hm by (destruct d; simpl; subst; try done; by left). clear Hd.
  destruct (domain_string d) as [| c r] eqn:E.
  { unfold domain_is_match. rewrite Eh. destruct Hm as [-> | (_ & p & ->)]; [by rewrite bool_decide_eq_true_2 |].
    by rewrite last_snoc in L2. }
  assert (c ≠ dot) as Hdot.
  { intros ->. destruct Hm as [-> | (_ & p & ->)]; [done | by eapply L3]. }
  unfold domain_is_match, domain_from_str. rewrite Hcan by done.
  rewrite decide_False, decide_False by (done || intros [= ->]; done).
  destruct (N.eqb_spec c dot) as [-> |]; [done |].
  destruct (suffix_matches_spec (c :: r) u) as (b & -> & Hb). f_equal. apply Hb. eauto.
Qed.

(** Every cookie of a store after a step has the domain of one before, or a
    domain that covers the URL of a write. *)
Lemma effect_domain now s s' k c : wf s → effect (Url := Url) shuffle now s s' → look s'.(cookies) k = Some c →
  (∃ k0 c0, look s.(cookies) k0 = Some c0 ∧ c0.(domain) = c.(domain)) ∨
  ∃ u : Url, domain_matches c.(domain) u = Ret true.
Proof.
  intros Hs. destruct 1 as [x s s' r Hw | s d p n k0 | s d p n k0 | s].
  - destruct Hw as [e | c1 old Hc He Ho | c1 s' Hc He Hm | c1 c' s1 s2 a Hc He Hsame Hm Hcl].
    + eauto.
    + rewrite notify_cookies. simpl. rewrite look_put. case_decide; [| eauto]. intros [= <-].
      apply live_Some in Ho as [Ho _]. left. eauto.
    + apply (make_room_inv _ shuffle_perm) in Hm as [Hev _]; [| done].
      destruct (evictions_look _ _ _ _ k Hev) as [-> | (-> & _)]; [eauto | done].
    + apply (make_room_inv _ shuffle_perm) in Hm as [Hev _]; [| done].
      rewrite notify_cookies. simpl. rewrite look_insert. case_decide as D.
      * intros [= <-]. right. exists x.(ic_url). destruct Hsame as (_ & _ & -> & _). apply Hc.
      * assert (look s2.(cookies) k = look s1.(cookies) k ∨ look s2.(cookies) k = None) as [-> | ->]; [| | done].
        { destruct Hcl; simpl; [by left |]. rewrite remove_cookies, look_removed. case_decide; auto. }
        destruct (evictions_look _ _ _ _ k Hev) as [-> | (-> & _)]; [eauto | done].
  - rewrite remove_cookies, look_removed. case_decide; [done | eauto].
  - rewrite touch_eq. cbv zeta. destruct (live now _) as [o |] eqn:E; [| eauto]. simpl. rewrite look_put.
    case_decide; [| eauto]. intros [= <-]. apply live_Some in E as [E _]. left. eauto.
  - unfold clear. case_decide; [eauto |]. by rewrite notify_cookies.
Qed.

Lemma effects_filed now s s' : idna_stable → effects (Url := Url) shuffle now s s' → wf s → filed s → filed s'.
Proof.
  intros Hid. induction 1 as [| s s1 s2 He _ IH]; [done |]. intros Hs Hf.
  apply IH; [by eapply effect_wf |]. intros k c Hk Hne.
  destruct (effect_domain now s s1 k c Hs He Hk) as [(k0 & c0 & H0 & E0) | (u & Hu)].
  - rewrite <- E0 in Hne |- *. by eapply Hf.
  - destruct (domain_covers_spec c.(domain) u) as (b & Eb & Hb). rewrite Hu in Eb. injection Eb as <-.
    destruct (proj1 Hb eq_refl) as (h & Eh & Hd). apply (Hid u h); [done | | done].
    destruct c.(domain); simpl in *; [by left; congruence | | done | done].
    destruct Hd as [-> | [_ ?]]; auto.
Qed.

Lemma run_calls_filed `{!TimeCrate, !CookieCrate} s (calls : list (Z * Call Url)) s' :
  idna_stable → wf s → filed s → run_calls in_range shuffle s calls = Ret s' → wf s' ∧ filed s'.
Proof.
  intros Hid. revert s. induction calls as [| [now call] h IH]; intros s Hs Hf Hr; simpl in Hr; [by injection Hr as <- |].
  destruct (perform_effects in_range shuffle shuffle_perm now s call Hs) as (s1 & E & He).
  rewrite E in Hr. cbn [mbind run_bind] in Hr. eapply IH; [| | exact Hr].
  - by eapply (perform_wf in_range shuffle).
  - destruct He as [He | (l & _ & ->)]; [by eapply effects_filed | done].
Qed.

Lemma filter_run_elem {A} (f : A → run bool) l l' : filter_run f l = Ret l' →
  ∀ x, x ∈ l' ↔ x ∈ l ∧ f x = Ret true.
Proof.
  revert l'. induction l as [| y l IH]; simpl; intros l' E.
  { injection E as <-. intros x. rewrite elem_of_nil. naive_solver. }
  destruct (f y) as [b |] eqn:Ey; cbn [mbind run_bind] in E; [| done].
  destruct (filter_run f l) as [l1 |]; cbn [mbind run_bind] in E; [| done]. injection E as <-.
  specialize (IH l1 eq_refl). intros x. destruct b; rewrite ?elem_of_cons, IH; naive_solver congruence.
Qed.

Lemma filter_run_sublist {A} (f : A → run bool) l l' : filter_run f l = Ret l' → l' `sublist_of` l.
Proof.
  revert l'. induction l as [| y l IH]; simpl; intros l' E; [by injection E as <- |].
  destruct (f y) as [b |]; cbn [mbind run_bind] in E; [| done].
  destruct (filter_run f l) as [l1 |]; cbn [mbind run_bind] in E; [| done]. injection E as <-.
  specialize (IH l1 eq_refl). destruct b; by constructor.
Qed.

Lemma map_run_entries now (q : QueryContext Url) l es : map_run (access_entry in_range now q) l = Ret es →
  entry_cookie <$> es = l ∧
  Forall (λ e, query_context_access_result in_range now e.(entry_cookie) q = Ret e.(access_result)) es.
Proof.
  revert es. induction l as [| c l IH]; simpl; intros es E; [by injection E as <- |].
  destruct (access_entry in_range now q c) as [e |] eqn:Ee; cbn [mbind run_bind] in E; [| done].
  unfold access_entry in Ee. destruct (query_context_access_result in_range now c q) as [r |] eqn:Er;
    cbn [mbind run_bind] in Ee; [| done]. injection Ee as <-.
  destruct (map_run _ l) as [es' |]; cbn [mbind run_bind] in E; [| done]. injection E as <-.
  destruct (IH es' eq_refl) as [IH1 IH2]. split; [rewrite fmap_cons, IH1; done |]. by constructor.
Qed.

Lemma included_elem now (q : QueryContext Url) l es c : map_run (access_entry in_range now q) l = Ret es →
  c ∈ entry_cookie <$> filter (λ e, entry_included e = true) es ↔ c ∈ l ∧ sent now q c.
Proof.
  intros [<- He]%map_run_entries. rewrite Forall_forall in He. rewrite list_elem_of_fmap. split.
  - intros (e & -> & [Hi Hin]%list_elem_of_filter). split; [by apply list_elem_of_fmap_2 |].
    by eapply included_spec; [apply He |].
  - intros [(e & -> & Hin)%list_elem_of_fmap Hs]. exists e. split; [done |]. apply list_elem_of_filter.
    split; [| done]. by eapply included_spec; [apply He |].
Qed.

Lemma included_sublist now (q : QueryContext Url) l es : map_run (access_entry in_range now q) l = Ret es →
  entry_cookie <$> filter (λ e, entry_included e = true) es `sublist_of` l.
Proof. intros [<- _]%map_run_entries. apply fmap_sublist, sublist_filter. Qed.

(** Distinct slots hold distinct cookies. *)
Lemma path_cookies_NoDup s d dcs : wf s → s.(cookies) !! d = Some dcs → NoDup (path_cookies dcs).
Proof.
  intros Hs Hd. assert (∀ p pcs k c, dcs !! p = Some pcs → pcs !! k = Some c → slot_of c = (d, p, k)) as K.
  { intros p pcs k c Hp Hk. apply (wf_keyed _ Hs). unfold look. simpl. rewrite Hd. simpl. by rewrite Hp. }
  apply NoDup_bind; [| | apply NoDup_map_to_list].
  - intros [p1 m1] [p2 m2] c H1%elem_of_map_to_list H2%elem_of_map_to_list (k1 & E1)%elem_values (k2 & E2)%elem_values.
    simpl in *. pose proof (K _ _ _ _ H1 E1). pose proof (K _ _ _ _ H2 E2). simplify_eq. congruence.
  - intros [p m] Hp%elem_of_map_to_list. simpl. apply NoDup_fmap_2_strong; [| apply NoDup_map_to_list].
    intros [k1 c1] [k2 c2] H1%elem_of_map_to_list H2%elem_of_map_to_list. simpl. intros ->.
    pose proof (K _ _ _ _ Hp H1). pose proof (K _ _ _ _ Hp H2). congruence.
Qed.

Lemma look_bucket m d dcs c : m !! d = Some dcs → c ∈ path_cookies dcs ↔ ∃ p k, look m (d, p, k) = Some c.
Proof.
  intros Hd. unfold path_cookies, look. simpl. rewrite Hd. simpl. rewrite list_elem_of_bind. split.
  - intros ([p pcs] & (k & Hk)%elem_values & Hp%elem_of_map_to_list). exists p, k. simpl in *. by rewrite Hp.
  - intros (p & k & E). destruct (dcs !! p) as [pcs |] eqn:Hp; [| done]. exists (p, pcs).
    split; [apply elem_values; eauto | by apply elem_of_map_to_list].
Qed.

Lemma cookies_of_url_spec s (u : Url) l : wf s → cookies_of_url shuffle s u = Ret l →
  NoDup l ∧ ∀ c, c ∈ l ↔ (∃ k, look s.(cookies) k = Some c) ∧ domain_is_match (domain_string c.(domain)) u = Ret true.
Proof.
  intros Hs. unfold cookies_of_url. destruct (filter_run _ _) as [ds |] eqn:E; [| done].
  cbn [mbind run_bind]. intros [= <-]. pose proof (filter_run_elem _ _ _ E) as Hin.
  pose proof (filter_run_sublist _ _ _ E) as Hsub. split.
  - rewrite shuffle_perm. apply NoDup_bind.
    + intros [d1 m1] [d2 m2] c [H1%elem_of_map_to_list _]%Hin [H2%elem_of_map_to_list _]%Hin. simpl.
      rewrite !look_bucket by done. intros (p1 & k1 & E1%(wf_keyed _ Hs)) (p2 & k2 & E2%(wf_keyed _ Hs)). congruence.
    + intros [d m] [Hd%elem_of_map_to_list _]%Hin. by eapply path_cookies_NoDup.
    + eapply sublist_NoDup; [apply NoDup_map_to_list | exact Hsub].
  - intros c. rewrite shuffle_perm, list_elem_of_bind. split.
    + intros ([d m] & Hc & [Hd%elem_of_map_to_list Hm]%Hin). simpl in *. rewrite look_bucket in Hc by done.
      destruct Hc as (p & k & Hc). split; [eauto |]. apply (wf_keyed _ Hs) in Hc. by injection Hc as -> _ _.
    + intros [(k & Hc) Hm]. pose proof (wf_keyed _ Hs _ _ Hc) as Ek. subst k. unfold look in Hc. simpl in Hc.
      destruct (s.(cookies) !! domain_string c.(domain)) as [m |] eqn:Hd; [| done].
      exists (domain_string c.(domain), m). split.
      * simpl. apply (look_bucket s.(cookies) _ _ _ Hd). eexists _, _. unfold look. simpl. rewrite Hd. exact Hc.
      * apply Hin. split; [by apply elem_of_map_to_list | done].
Qed.

(** ** Order *)
(** Longer paths first, and older cookies before younger ones. *)
Definition header_before (l r : Cookie) : Prop :=
  byte_len r.(path).(path_str) < byte_len l.(path).(path_str) ∨
  byte_len r.(path).(path_str) = byte_len l.(path).(path_str) ∧ l.(creation_index) ≤ r.(creation_index).

Lemma projection_le_spec l r : if projection_le l r then header_before l r else header_before r l.
Proof.
  unfold projection_le, header_before. destruct (N.compare_spec (byte_len r.(path).(path_str)) (byte_len l.(path).(path_str)));
    [| by left | lia]. destruct (N.leb_spec l.(creation_index) r.(creation_index)); right; (split; [congruence | lia]).
Qed.

Lemma sort_by_perm {A} (le : A → A → bool) l : sort_by le l ≡ₚ l.
Proof.
  induction l as [| x l IH]; simpl; [done |]. rewrite <- IH at 2. generalize (sort_by le l) as k.
  induction k as [| y k IHk]; simpl; [done |]. destruct (le x y); [done |]. rewrite IHk. constructor.
Qed.

Lemma sort_sorted l : StronglySorted header_before (sort_included_cookies_for_projection l).
Proof.
  apply Sorted_StronglySorted; [unfold header_before; intros ? ? ?; lia |].
  unfold sort_included_cookies_for_projection, sort_by. induction l as [| x l IH]; simpl; [constructor |].
  revert IH. generalize (foldr (insert_by projection_le) [] l) as k. clear l.
  intros k Hk. induction Hk as [| y k Hk IH Hhd]; simpl; [by repeat constructor |].
  pose proof (projection_le_spec x y) as P. destruct (projection_le x y).
  - constructor; [by constructor | by constructor].
  - constructor; [done |]. destruct k as [| z k]; simpl; [by constructor |].
    destruct (projection_le x z); constructor; [done |]. by inversion Hhd.
Qed.

(** *** A read moves last accesses only *)
Definition same_but_access (s s' : CookieStore) : Prop :=
  ∀ k, forget_access <$> look s'.(cookies) k = forget_access <$> look s.(cookies) k.

Lemma touches_same now l s : same_but_access s (foldl (touch_cookie now) s l).
Proof.
  revert s. induction l as [| c l IH]; intros s; simpl; [done |]. intros k. rewrite (IH _ k).
  unfold touch_cookie. rewrite touch_eq. cbv zeta. destruct (live now _) as [o |] eqn:E; [| done].
  apply live_Some in E as [E _]. simpl. rewrite look_put. case_decide as D; [| done]. subst. by rewrite E.
Qed.

Lemma query_stored now s (q : QueryContext Url) :
  wf s → filed s → (∀ h, canonical_request_host q.(qc_url) = Some h → no_empty_label h) →
  ∃ s' l, get_ordered_cookies_with_context in_range shuffle now s q = Ret (s', l) ∧
    NoDup l ∧ (∀ c, c ∈ l ↔ (∃ k, look s.(cookies) k = Some c) ∧ sent now q c) ∧
    StronglySorted header_before l ∧ same_but_access s s'.
Proof.
  intros Hs Hf Hh. destruct (cookies_of_url_total shuffle s q.(qc_url)) as [l0 E0].
  destruct (entries_total in_range now q l0) as [es Ee].
  destruct (cookies_of_url_spec s _ l0 Hs E0) as [Hnd Hin].
  unfold get_ordered_cookies_with_context, get_ordered_cookie_query_result, get_cookie_query_result,
    get_cookie_access_query_result.
  rewrite E0. cbn [mbind run_bind]. rewrite Ee. cbn [mbind run_bind]. eexists _, _. split; [done |].
  cbn [included_cookies included_accesses]. split_and!.
  - unfold sort_included_cookies_for_projection. rewrite sort_by_perm.
    eapply sublist_NoDup; [exact Hnd |]. by eapply included_sublist.
  - intros c. unfold sort_included_cookies_for_projection. rewrite sort_by_perm, (included_elem _ _ _ _ _ Ee), Hin.
    split; [by intros [[? _] ?] |]. intros [[k Hk] Hc]. split; [| done]. split; [eauto |].
    apply bucket_matches; [by eapply Hf | done | apply Hc].
  - apply sort_sorted.
  - destruct (update_access_time q); [apply touches_same | done].
Qed.

End query.
Import (hints) Demo.

(** ** The example *)
(** Printable lower-case characters pass IDNA unchanged. *)
Definition settled (c : N) : Prop := 32 < c < 128 ∧ to_ascii_lowercase c = c.

Lemma settled_stable d : Forall settled d → domain_to_ascii (trim d) = Some d.
Proof.
  intros H. rewrite trim_trimmed.
  - simpl. assert (forallb (λ c, (32 <? c) && (c <? 128)) d = true) as ->.
    { apply forallb_forall. intros c Hc. rewrite <- list_elem_of_In in Hc. rewrite Forall_forall in H.
      destruct (H c Hc) as [? _]. apply andb_true_iff. by rewrite !N.ltb_lt. }
    f_equal. induction H as [| c d [_ Hc] _ IH]; [done |]. by rewrite fmap_cons, Hc, IH.
  - assert (∀ c, settled c → is_white_space c = false) as W.
    { intros c [? _]. unfold is_white_space. rewrite !orb_false_iff, !andb_false_iff, !N.eqb_neq, !N.leb_gt. lia. }
    split.
    + destruct d; simpl; [done |]. by apply W, (Forall_inv H).
    + destruct (last d) as [c |] eqn:E; [| done]. apply last_Some in E as [d' ->].
      apply Forall_app in H as [_ H]. by apply W, (Forall_inv H).
Qed.

Lemma plain_idna_stable : idna_stable (Url := Plain.Url).
Proof.
  intros u h d Hh Hd _. apply settled_stable. assert (Forall settled h) as S.
  { revert Hh. unfold canonical_request_host. simpl. unfold canonicalize_host_text. case_bool_decide; [done |].
    simpl. destruct (forallb _ _) eqn:E; [| done]. intros [= <-]. rewrite forallb_forall in E.
    apply Forall_fmap, Forall_forall. intros c Hc. apply list_elem_of_In, E, andb_true_iff in Hc as [?%N.ltb_lt ?%N.ltb_lt].
    unfold settled, to_ascii_lowercase. simpl.
    destruct (N.leb_spec 65 c), (N.leb_spec c 90); simpl; (split; [lia |]);
      destruct (N.leb_spec 65 c), (N.leb_spec c 90); simpl; try lia;
      destruct (N.leb_spec 65 (c + 32)), (N.leb_spec (c + 32) 90); simpl; lia. }
  destruct Hd as [-> | [p ->]]; [done |]. apply Forall_app in S as [_ S]. by inversion S.
Qed.

