(* ===== verification/CookieSecurity.v ===== *)
(** The attributes that protect cookies (moli-cookie-store): writes from
    insecure pages leave [Secure] cookies alone, scripts can neither write nor
    read [HttpOnly] cookies (though their cookies may crowd them out), and the reasons collected before a write are all
    the reasons the write itself would give. *)
From stdpp Require Import base list numbers option gmap strings.
From S2P Require Import Prelude Utf8 CookieTypes CookieDate CookieMatch CookiePolicy CookieStore.
From S2P Require Import CookieMaps CookieInvariant CookieGuarantees CookieQuery.

#[local] Open Scope N_scope.

Section security.
Context {Url : Type} {url_crate : UrlCrate Url} {host_crate : HostCrate} {time_crate : TimeCrate}
  {cookie_crate : CookieCrate} {url_laws : UrlLaws Url}.
Context (in_range : Z → bool) (shuffle : list Cookie → list Cookie) (shuffle_perm : ∀ l, shuffle l ≡ₚ l).

(** ** Secure cookies *)
Lemma domains_overlap_refl d : domains_overlap d d = true.
Proof. unfold domains_overlap. by rewrite bool_decide_eq_true_2. Qed.

Lemma path_overlap_refl p : path_overlap p p = true.
Proof. unfold path_overlap. by rewrite decide_True. Qed.

(** A live secure cookie in the slot of another conflicts with it. *)
Lemma overlay_same_slot now s c old :
  live now (look s.(cookies) (slot_of c)) = Some old → slot_of old = slot_of c → secure old = true →
  has_secure_overlay_conflict shuffle now s c = true.
Proof.
  intros [Hl He]%live_Some (E1 & E2 & E3 & E4)%slot_fields Hsec. unfold has_secure_overlay_conflict.
  apply existsb_exists. exists old. split.
  - apply list_elem_of_In, (elem_iter shuffle shuffle_perm). eauto.
  - rewrite Hsec, E1, E2, E3, E4, domains_overlap_refl, path_overlap_refl.
    by rewrite !bool_decide_eq_true_2.
Qed.

(** The writes that must respect secure cookies. *)
Definition insecure_write (x : InsertContext Url) : Prop :=
  x.(enforce_browser_policy) = true ∧ x.(ic_source) ≠ Cdp ∧ is_secure x.(ic_url) = false.

Lemma insecure_allowed now s c x : wf s → insecure_write x → allowed shuffle now s c x →
  secure c = false ∧
  ∀ old, live now (look s.(cookies) (slot_of c)) = Some old → secure old = false.
Proof.
  intros Hs (He & Hc & Hu) Hal. pose proof (allowed_secure _ _ _ _ _ Hal) as A1.
  unfold violates_secure_only in A1. rewrite He, Hu, andb_true_r in A1. simpl in A1.
  split; [done |]. intros old Hl. destruct (secure old) eqn:E; [| done].
  pose proof Hl as [Hk _]%live_Some. apply (wf_keyed _ Hs) in Hk.
  pose proof (allowed_overlay _ _ _ _ _ Hal) as A2. unfold violates_overlay in A2.
  rewrite (overlay_same_slot now s c old Hl Hk E), He, Hu, A1, bool_decide_eq_false_2 in A2 by done.
  done.
Qed.

Lemma cleared_look now c s s' k : cleared now c s s' → k ≠ slot_of c → look s'.(cookies) k = look s.(cookies) k.
Proof.
  destruct 1; intros Hk; simpl; [done |]. rewrite remove_cookies, look_removed.
  fold (key_for_cookie c) (slot_of c). by rewrite decide_False.
Qed.

(** Outside the slot written, a write only evicts. *)
Lemma write_elsewhere now (x : InsertContext Url) s s' r k : wf s → write_effect shuffle now x s s' r →
  look s'.(cookies) k = look s.(cookies) k ∨
  (∃ c, allowed shuffle now s c x ∧ k = slot_of c) ∨
  look s'.(cookies) k = None ∧ ∃ c o, allowed shuffle now s c x ∧ look s.(cookies) k = Some o ∧
    (secure o = true → secure c = true).
Proof.
  intros Hs. destruct 1 as [e | c old Hc He Ho | c s' Hc He Hm | c c' s1 s2 a Hc He Hsame Hm Hcl].
  - by left.
  - rewrite notify_cookies. simpl. rewrite look_put. fold (key_for_cookie c) (slot_of c).
    case_decide; [right; left; eauto | by left].
  - apply (make_room_inv _ shuffle_perm) in Hm as [Hev _]; [| done].
    destruct (evictions_look _ _ _ _ k Hev) as [? | (? & o & ? & _ & ?)]; [by left |]. right. right. eauto 10.
  - apply (make_room_inv _ shuffle_perm) in Hm as [Hev _]; [| done].
    rewrite notify_cookies. simpl. rewrite look_insert, (same_but_age_slot c c' Hsame).
    case_decide as D; [right; left; eauto |]. rewrite (cleared_look _ _ _ _ _ Hcl) by done.
    destruct (evictions_look _ _ _ _ k Hev) as [? | (? & o & ? & _ & ?)]; [by left |]. right. right. eauto 10.
Qed.

(** C9: leave secure cookies alone.  Whatever an insecure page or response
    sets under the browser's policy (not the debugger), as a line, as
    structured fields or as a restored cookie, every live [Secure] cookie is
    still there afterwards and unchanged: it is not overwritten, not expired,
    and not evicted to make room. *)
Theorem secure_cookies_left_alone now s s' (call : Call Url) x k c :
  wf s → write_context call = Some x → insecure_write x → perform in_range shuffle now s call = Ret s' →
  live now (look s.(cookies) k) = Some c → secure c = true → look s'.(cookies) k = Some c.
Proof.
  intros Hs Hx Hi Hp Hl Hsec. destruct (perform_write in_range shuffle shuffle_perm now s call x Hs Hx) as (s1 & r & E & Hw).
  rewrite Hp in E. injection E as <-. pose proof Hl as [Hk _]%live_Some.
  destruct (write_elsewhere _ _ _ _ _ k Hs Hw) as [E | [(c0 & Hal & ->) | (_ & c0 & o & Hal & Ho & Hb)]].
  - by rewrite E.
  - apply (insecure_allowed _ _ _ _ Hs Hi) in Hal as [_ Hold]. rewrite (Hold c Hl) in Hsec. done.
  - apply (insecure_allowed _ _ _ _ Hs Hi) in Hal as [E0 _]. assert (o = c) as -> by congruence.
    by rewrite E0 in Hb; specialize (Hb Hsec).
Qed.

(** ** HttpOnly cookies *)
Lemma from_document_true (x : InsertContext Url) : x.(ic_source) = Document → from_document x = true.
Proof. intros E. by apply bool_decide_eq_true. Qed.

(** A script finds its slot free of live [HttpOnly] cookies and puts none. *)
Lemma script_write now (x : InsertContext Url) s s' r k c : wf s → x.(ic_source) = Document →
  write_effect shuffle now x s s' r → look s'.(cookies) k = Some c → http_only c = true →
  look s.(cookies) k = Some c.
Proof.
  intros Hs Hx Hw. apply from_document_true in Hx.
  destruct Hw as [e | c1 old Hc He Ho | c1 s' Hc He Hm | c1 c' s1 s2 a Hc He Hsame Hm Hcl].
  - done.
  - rewrite notify_cookies. simpl. rewrite look_put. case_decide; [| done]. intros [= <-].
    pose proof (allowed_old _ _ _ _ _ Hc old Ho) as A. rewrite Hx, andb_true_r in A.
    change (http_only (expire now old)) with (http_only old). congruence.
  - apply (make_room_inv _ shuffle_perm) in Hm as [Hev _]; [| done].
    by destruct (evictions_look _ _ _ _ k Hev) as [-> | (-> & _)].
  - apply (make_room_inv _ shuffle_perm) in Hm as [Hev _]; [| done].
    rewrite notify_cookies. simpl. rewrite look_insert, (same_but_age_slot c1 c' Hsame). case_decide as D.
    + intros [= <-]. pose proof (allowed_http_only _ _ _ _ _ Hc) as A. rewrite Hx, andb_true_r in A.
      destruct Hsame as [E _]. unfold http_only in *. rewrite E. congruence.
    + rewrite (cleared_look _ _ _ _ _ Hcl) by done.
      by destruct (evictions_look _ _ _ _ k Hev) as [-> | (-> & _)].
Qed.

(** A write makes a cookie disappear only when a quota is used up. *)
Lemma write_taken now (x : InsertContext Url) s s' r k c : wf s → write_effect shuffle now x s s' r →
  look s.(cookies) k = Some c → look s'.(cookies) k = None → crowded now s c.
Proof.
  intros Hs Hw Hk. rewrite <- (wf_keyed _ Hs _ _ Hk) in Hk |- *.
  destruct Hw as [e | c1 old Hc He Ho | c1 s' Hc He Hm | c1 c' s1 s2 a Hc He Hsame Hm Hcl].
  - congruence.
  - rewrite notify_cookies. simpl. rewrite look_put. case_decide; [done |]. congruence.
  - intros Hn. by eapply (make_room_taken shuffle).
  - rewrite notify_cookies. simpl. rewrite look_insert, (same_but_age_slot c1 c' Hsame). case_decide as D; [done |].
    rewrite (cleared_look _ _ _ _ _ Hcl) by done. intros Hn. by eapply (make_room_taken shuffle).
Qed.

(** A call that a document makes, and a query of one that does not ask for
    [HttpOnly] cookies. *)
Definition script_call (call : Call Url) : Prop :=
  ∃ x, write_context call = Some x ∧ x.(ic_source) = Document.
Definition script_query (q : QueryContext Url) : Prop :=
  q.(qc_source) = Document ∧ q.(include_http_only) = false.

(** C11: scripts neither set, overwrite, expire nor see [HttpOnly] cookies.
    Whatever a document sets, every [HttpOnly] cookie in the store afterwards
    was there before, unchanged; a live one can only be gone because it was
    evicted, and then a quota it counts towards was used up; and no query of a
    document that did not ask for them includes one. *)
Theorem scripts_cannot_touch_http_only now s (call : Call Url) s' (q : QueryContext Url) s'' r :
  wf s → script_call call → perform in_range shuffle now s call = Ret s' → script_query q →
  get_cookie_access_query_result in_range shuffle now s q = Ret (s'', r) →
  (∀ k c, live now (look s.(cookies) k) = Some c → http_only c = true →
     look s'.(cookies) k = Some c ∨ look s'.(cookies) k = None ∧ crowded now s c) ∧
  (∀ k c, look s'.(cookies) k = Some c → http_only c = true → look s.(cookies) k = Some c) ∧
  (∀ e, e ∈ r.(included_accesses) → http_only e.(entry_cookie) = false).
Proof.
  intros Hs (x & Hx & Hd) Hp [Hq Hi] Hr.
  destruct (perform_write in_range shuffle shuffle_perm now s call x Hs Hx) as (s1 & st & E & Hw).
  rewrite Hp in E. injection E as <-. split_and!.
  - intros k c Hl Hh. pose proof Hl as [Hk _]%live_Some.
    destruct (write_elsewhere _ _ _ _ _ k Hs Hw) as [E | [(c0 & Hal & ->) | (E & _)]];
      [left; congruence | | right; split; [done |]; by eapply write_taken].
    pose proof (allowed_old _ _ _ _ _ Hal c Hl) as A.
    by rewrite (from_document_true _ Hd), Hh in A.
  - intros k c. by eapply script_write.
  - intros e He. unfold get_cookie_access_query_result in Hr.
    destruct (cookies_of_url shuffle s q.(qc_url)) as [l |]; cbn [mbind run_bind] in Hr; [| done].
    destruct (map_run (access_entry in_range now q) l) as [es |] eqn:Ee; cbn [mbind run_bind] in Hr; [| done].
    injection Hr as _ <-. cbn [included_accesses] in He. apply (list_elem_of_fmap_2 entry_cookie) in He.
    apply (included_elem in_range now q l es _ Ee) in He as [_ Hsent].
    destruct (http_only (entry_cookie e)) eqn:Eh; [| done].
    destruct (sent_http_only _ _ _ _ Hsent Eh) as [Hdoc _]. by rewrite Hdoc in Hi.
Qed.

(** ** The two passes over a write *)
Definition flags_kept (c c' : Cookie) : Prop :=
  c'.(raw_cookie) = c.(raw_cookie) ∧ c'.(partition_key) = c.(partition_key).

Lemma canonicalize_flags s c (u : Url) c' :
  canonicalize_cookie_for_store_checks s c u = inl c' → flags_kept c c'.
Proof.
  unfold canonicalize_cookie_for_store_checks.
  intros H. repeat case_match; simplify_eq; by split.
Qed.

(** The checks of the attributes do not look at the domain. *)
Lemma flags_checks c c' (x : InsertContext Url) : flags_kept c c' →
  http_only c' = http_only c ∧ violates_secure_only c' x = violates_secure_only c x ∧
  violates_same_site_none c' x = violates_same_site_none c x ∧
  same_site_set_rejection_reason c' x = same_site_set_rejection_reason c x ∧
  violates_size c' x = violates_size c x ∧ partitioned c' = partitioned c ∧ secure c' = secure c.
Proof.
  intros [E _]. unfold violates_secure_only, violates_same_site_none, same_site_set_rejection_reason,
    violates_size, http_only, secure, partitioned, cookie_same_site, cookie_name, cookie_value.
  by rewrite E.
Qed.

Lemma store_live_errors now s c po s' e :
  store_live_cookie in_range shuffle now s c po = Ret (s', inr e) → e = StorageFull.
Proof.
  unfold store_live_cookie. destruct (make_room_for_cookie _ _ _ _ _ _ _) as [[ok s1] |]; cbn [mbind run_bind]; [| done].
  destruct ok; cbn [negb]; [| by intros [= _ <-]].
  by match goal with |- (let '(_, _) := ?p in _) = _ → _ => destruct p end.
Qed.

(** What a cookie that is fine can still run into. *)
Definition late_error (e : Error) : Prop := e = StorageFull ∨ e = Expired.

Lemma when_nil {A} b (a : A) : when b a = [] ↔ b = false.
Proof. by destruct b. Qed.

(** C31: the reasons for which a cookie is refused are collected before the
    store is touched, and the collection is complete: when it is empty, the
    write that follows fails only because the quota cannot be met or because
    the cookie is expired and there is nothing to expire. *)
Theorem rejections_collected now s c (x : InsertContext Url) po s' e :
  collect_preinsert_rejection_reasons shuffle now s c x = Ret [] →
  insert_with_context_impl in_range shuffle now s c x po = Ret (s', inr e) → late_error e.
Proof.
  unfold collect_preinsert_rejection_reasons, insert_with_context_impl.
  destruct (canonicalize_cookie_for_store_checks s c x.(ic_url)) as [c' | e'] eqn:Ec; cycle 1.
  { intros [= E]. by apply app_nil in E as [_ ?]. }
  apply canonicalize_flags in Ec as Hf. pose proof (flags_checks c c' x Hf) as (-> & -> & -> & -> & -> & -> & ->).
  destruct Hf as [_ ->]. destruct (domain_matches c'.(domain) x.(ic_url)) as [ok |]; cbn [mbind run_bind]; [| done].
  intros [= E]. rewrite !app_nil, !when_nil in E.
  destruct E as ((E1 & E2 & E3 & E4 & E5 & E6) & E7 & E8 & E9 & E10). rewrite E1, E2, E3.
  destruct (same_site_set_rejection_reason c x); [done |]. rewrite E5, E7, E9. apply negb_false_iff in E8 as ->.
  assert (partitioned c && (enforce_browser_policy x && negb (secure c)) = false ∧
    partitioned c && bool_decide (partition_key c = None) = false) as [-> ->].
  { destruct (partitioned c); [| done]. apply app_nil in E6 as [?%when_nil ?%when_nil]. done. }
  cbn [negb]. destruct (as_cow c'.(domain)) as [d |]; [| done].
  destruct (get_with_partition_key _ _ _ _ _ _) as [old |].
  - apply when_nil in E10 as ->. destruct (is_expired now c'); [done |]. intros H%store_live_errors. by left.
  - destruct (is_expired now c'); [intros [= _ <-]; by right | intros H%store_live_errors; by left].
Qed.
End security.
Import (hints) Demo.

(** An insecure script tries to take over the secure cookie of the store. *)
Lemma secure_cookies_left_alone_witness :
  ∃ s', perform (λ _, true) (λ l, l) 4 (Demo.go Demo.small Demo.history)
      (Demo.put_demo Document Demo.insecure_page "id" false false) = Ret s' ∧
    secure <$> look s'.(cookies) (Demo.slot "id") = Some true.
Proof.
  set (s := Demo.go Demo.small Demo.history). assert (wf s) as Hs by apply Demo.go_wf.
  destruct (perform _ _ 4 s _) as [s' |] eqn:E; [| vm_compute in E; discriminate E].
  exists s'. split; [reflexivity |].
  destruct (live 4 (look s.(cookies) (Demo.slot "id"))) as [c |] eqn:El; [| vm_compute in El; discriminate El].
  rewrite (secure_cookies_left_alone (λ _, true) (λ l, l) (λ l, Permutation_refl l) 4 s s'
    (Demo.put_demo Document Demo.insecure_page "id" false false) _ _ c Hs eq_refl
    ltac:(split_and!; [reflexivity | discriminate | vm_compute; reflexivity]) E El).
  - vm_compute in El. injection El as <-. reflexivity.
  - vm_compute in El. injection El as <-. reflexivity.
Defined.

Lemma scripts_cannot_touch_http_only_witness :
  let s := set_limits (Demo.go Demo.small Demo.history) {| per_domain_cookies := 3; total_cookies := 3 |} in
  ∃ s', perform (λ _, true) (λ l, l) 4 s (Demo.put_demo Document Demo.secure_page "id" true false) = Ret s' ∧
    look s'.(cookies) (Demo.slot "id") = look s.(cookies) (Demo.slot "id").
Proof.
  intros s. assert (wf s) as Hs by (apply wf_set_limits, Demo.go_wf).
  destruct (perform _ _ 4 s _) as [s' |] eqn:E; [| vm_compute in E; discriminate E].
  exists s'. split; [reflexivity |].
  destruct (get_cookie_access_query_result (λ _, true) (λ l, l) 4 s (query_document Demo.secure_page))
    as [[s'' r] |] eqn:Eq; [| vm_compute in Eq; discriminate Eq].
  destruct (scripts_cannot_touch_http_only (λ _, true) (λ l, l) (λ l, Permutation_refl l) 4 s
    (Demo.put_demo Document Demo.secure_page "id" true false) s' (query_document Demo.secure_page) s'' r
    Hs ltac:(eexists; split; reflexivity) E ltac:(split; reflexivity) Eq) as (P1 & _ & _).
  destruct (live 4 (look s.(cookies) (Demo.slot "id"))) as [c |] eqn:El; [| vm_compute in El; discriminate El].
  pose proof El as [Ek _]%live_Some. rewrite Ek. destruct (P1 _ _ El) as [H | [_ H]]; [| exact H |].
  - vm_compute in El. injection El as <-. reflexivity.
  - exfalso. vm_compute in El. injection El as <-. destruct H as [[_ H] | H]; vm_compute in H; exact (H eq_refl).
Defined.

(** No room at all: nothing is wrong with the cookie, and the store is full. *)
Lemma rejections_collected_witness :
  let s := set_limits store_new {| per_domain_cookies := 0; total_cookies := 0 |} in
  ∃ s' e, insert_with_context_impl (λ _, true) (λ l, l) 4 s (Demo.cookie "id" true true)
      (insert_context Http Demo.secure_page) false = Ret (s', inr e) ∧ late_error e.
Proof.
  intros s. destruct (insert_with_context_impl _ _ 4 s _ _ _) as [[s' [? | e]] |] eqn:E;
    try (vm_compute in E; discriminate E).
  exists s', e. split; [reflexivity |].
  apply (rejections_collected (λ _, true) (λ l, l) 4 s (Demo.cookie "id" true true)
    (insert_context Http Demo.secure_page) false s' e); [vm_compute; reflexivity | exact E].
Defined.

(** ** Two consequences of the code as it is *)
(** After the quota is lowered, setting the oldest cookie again evicts that
    very cookie to make room for its replacement, so the store ends with one
    live cookie more than the quota. *)
Theorem lowered_quota_overrun :
  let put n := Demo.put_demo Http Demo.secure_page n false false in
  let s := set_limits (Demo.go Demo.small [(1%Z, put "a"); (2%Z, put "b")])
             {| per_domain_cookies := 1; total_cookies := 1 |} in
  ∃ s', perform (λ _, true) (λ l, l) 4 s (put "a") = Ret s' ∧
    tally 4 None None (all_cookies s'.(cookies)) = 2%nat ∧ s'.(limits).(total_cookies) = 1.
Proof. eexists. split; [vm_compute; reflexivity |]. split; vm_compute; reflexivity. Qed.

(** A bracketed address counts as a host name, so a [Domain] that is the end
    of an IPv4-mapped address matches it. *)
Theorem mapped_address_suffix_matches {Url} `{!UrlCrate Url, !HostCrate} (u : Url) :
  canonical_request_host u = Some (chars "[::ffff:1.2.3.4]") →
  domain_matches (Suffix (chars "3.4]")) u = Ret true.
Proof. intros E. unfold domain_matches. rewrite E. by vm_compute. Qed.
