(* ===== verification/StyleDiscovery.v ===== *)
(** Which elements of a document ask for a style sheet, and with what request
    (moli-stylesheet-blocking: [fetcher.rs], [discovery.rs]; the MIME checks
    of moli-web-mime's [classification.rs] and the import list of
    moli-css-parse's [stylo_stylesheet.rs] that they call).  The document is
    the trait [StylesheetBlockingReadView]: a record of what the view answers.
    The [url] crate, the MIME parser of the [data-url] crate and the Stylo
    parser are the classes [StyleUrl] and [StyleParsers].  A [str] is its list of scalar values,
    as in [Utf8]. *)
From stdpp Require Import base list numbers option gmap strings.
From S2P Require Import Prelude Utf8 CookieTypes.

#[local] Open Scope N_scope.

(** ** [str] methods *)

(** [str::split_ascii_whitespace] *)
Definition is_ascii_whitespace (c : char) : bool :=
  (c =? 32) || (c =? 9) || (c =? 10) || (c =? 12) || (c =? 13).

(** Pieces between separators, [cur] being the piece read so far, reversed. *)
Fixpoint split_pieces (sep : char → bool) (s cur : str) : list str :=
  match s with
  | [] => [reverse cur]
  | c :: s => if sep c then reverse cur :: split_pieces sep s [] else split_pieces sep s (c :: cur)
  end.

Definition split_ascii_whitespace (s : str) : list str :=
  filter (λ w, w ≠ []) (split_pieces is_ascii_whitespace s []).

Definition is_empty (s : str) : bool := bool_decide (s = []).

Definition lower (s : str) : str := to_ascii_lowercase <$> s.

(** ** Requests *)
Inductive RequestMode := Navigate | ModeSameOrigin | NoCors | Cors.
Inductive RequestCredentialsMode := Include | CredentialsSameOrigin | Omit.

#[global] Instance RequestMode_eq_dec : EqDecision RequestMode.
Proof. solve_decision. Defined.
#[global] Instance RequestCredentialsMode_eq_dec : EqDecision RequestCredentialsMode.
Proof. solve_decision. Defined.

Record StylesheetFetchOptions := mk_options {
  cross_origin : option str;
  referrer_policy : option str;
  integrity : option str;
  nonce : option str;
  charset : option str;
  fetch_priority : option str;
  quirks_mode_mime_compatibility : bool }.

#[global] Instance StylesheetFetchOptions_eq_dec : EqDecision StylesheetFetchOptions.
Proof. solve_decision. Defined.

Definition options_default : StylesheetFetchOptions := mk_options None None None None None None false.

Definition normalize_cross_origin (value : option str) : option str :=
  value ← value;
  if eq_ignore_ascii_case (trim value) (chars "use-credentials") then Some (chars "use-credentials")
  else Some (chars "anonymous").

Definition normalize_token (value : option str) : option str :=
  value ← trim <$> value;
  if is_empty value then None else Some (lower value).

Definition normalize_preserved_value (value : option str) : option str :=
  value ← trim <$> value;
  if is_empty value then None else Some value.

Definition from_link_attributes (cross_origin referrer_policy integrity nonce charset fetch_priority : option str)
    : StylesheetFetchOptions :=
  mk_options (normalize_cross_origin cross_origin) (normalize_token referrer_policy)
    (normalize_preserved_value integrity) (normalize_preserved_value nonce)
    (normalize_token charset) (normalize_token fetch_priority) false.

Definition with_quirks_mode_mime_compatibility (o : StylesheetFetchOptions) (enabled : bool)
    : StylesheetFetchOptions :=
  mk_options (cross_origin o) (referrer_policy o) (integrity o) (nonce o) (charset o) (fetch_priority o) enabled.

Definition options_is_empty (o : StylesheetFetchOptions) : bool := bool_decide (o = options_default).

Definition request_mode_and_credentials (o : StylesheetFetchOptions) : RequestMode * RequestCredentialsMode :=
  match cross_origin o with
  | None => (NoCors, Include)
  | Some v => if bool_decide (v = chars "use-credentials") then (Cors, Include)
              else (Cors, CredentialsSameOrigin)
  end.

(** ** The crates the discovery reads with *)

(** [Url::join] and [Url::set_fragment(None)] *)
Class StyleUrl (Url : Type) := {
  url_join : Url → str → option Url;
  without_fragment : Url → Url }.
#[global] Hint Mode StyleUrl ! : typeclass_instances.

(** The type and subtype of a parsed MIME type, and the import rules Stylo
    finds in a style sheet: whether the rule's [supports] condition is on, and
    the address it names. *)
Class StyleParsers := {
  parse_mime : str → option (str * str);
  import_rules : str → list (bool * option str) }.

Section style.
Context {Url : Type} `{Url_eq_dec : EqDecision Url} `{SU : !StyleUrl Url, SP : !StyleParsers}.

(** *** The key of a physical resource *)
Record StylesheetResourceKey := mk_key {
  request_url_without_fragment : Url;
  request_mode : RequestMode;
  credentials_mode : RequestCredentialsMode;
  key_referrer_policy : option str;
  key_integrity : option str;
  key_charset : option str;
  key_quirks : bool }.

#[global] Instance StylesheetResourceKey_eq_dec : EqDecision StylesheetResourceKey.
Proof using Url_eq_dec. solve_decision. Defined.

Definition resource_key (o : StylesheetFetchOptions) (request_url : Url) : StylesheetResourceKey :=
  let '(mode, credentials) := request_mode_and_credentials o in
  mk_key (without_fragment request_url) mode credentials (referrer_policy o) (integrity o) (charset o)
    (quirks_mode_mime_compatibility o).

(** *** What a document asks for *)
Inductive StylesheetLinkDisposition :=
  | Blocking (url : Url) (options : StylesheetFetchOptions)
  | LoadOnly (url : Url) (options : StylesheetFetchOptions).

Definition disposition_url (d : StylesheetLinkDisposition) : Url :=
  match d with Blocking url _ | LoadOnly url _ => url end.
Definition disposition_options (d : StylesheetLinkDisposition) : StylesheetFetchOptions :=
  match d with Blocking _ options | LoadOnly _ options => options end.
Definition disposition_is_blocking (d : StylesheetLinkDisposition) : bool :=
  match d with Blocking _ _ => true | LoadOnly _ _ => false end.

Inductive DocumentBlockingStylesheetSignature :=
  | Link (url : Url) (options : StylesheetFetchOptions)
  | ParserCreatedStyleImport (urls : list Url).

#[global] Instance Signature_eq_dec : EqDecision DocumentBlockingStylesheetSignature.
Proof using Url_eq_dec. solve_decision. Defined.

Inductive DocumentOwnedBlockingStylesheetCandidate :=
  | CandidateLink (node_id : N) (url : Url) (options : StylesheetFetchOptions)
  | CandidateStyleImport (node_id : N) (urls : list Url).

Record DocumentOwnedBlockingStylesheet := mk_blocker {
  blocker_node_id : N;
  blocker_signature : DocumentBlockingStylesheetSignature }.

Record DocumentOwnedStylesheetDiscoveryInput := mk_input {
  input_node_id : N;
  input_signature : DocumentBlockingStylesheetSignature;
  blocks_scripts : bool }.

Record StylesheetElementRead := mk_element {
  is_html : bool;
  local_name : str;
  parser_blocking_eligible : bool;
  rel : option str;
  href : option str;
  as_attr : option str;
  type_attr : option str;
  disabled : bool;
  media : option str;
  el_cross_origin : option str;
  el_referrer_policy : option str;
  el_integrity : option str;
  el_nonce : option str;
  el_charset : option str;
  el_fetch_priority : option str }.

Definition is_html_element (e : StylesheetElementRead) (name : str) : bool :=
  is_html e && bool_decide (local_name e = name).

Record StylesheetBlockingReadView := mk_view {
  media_query_matches : str → bool;
  stylesheet_element : N → option StylesheetElementRead;
  child_ids : N → list N;
  text_content : N → option str;
  final_url_clone : option Url;
  stylesheet_base_url_clone : N → option Url;
  document_node_id : N;
  document_is_quirks_mode : bool;
  document_order_stylesheet_candidate_ids_before : option N → list N }.

Definition candidate_node_id (c : DocumentOwnedBlockingStylesheetCandidate) : N :=
  match c with CandidateLink n _ _ | CandidateStyleImport n _ => n end.

Definition signature_from_candidate (c : DocumentOwnedBlockingStylesheetCandidate)
    : DocumentBlockingStylesheetSignature :=
  match c with
  | CandidateLink _ url options => Link url options
  | CandidateStyleImport _ urls => ParserCreatedStyleImport urls
  end.

Definition blocker_from_candidate (c : DocumentOwnedBlockingStylesheetCandidate)
    : DocumentOwnedBlockingStylesheet :=
  mk_blocker (candidate_node_id c) (signature_from_candidate c).

Definition input_from_blocker (b : DocumentOwnedBlockingStylesheet) : DocumentOwnedStylesheetDiscoveryInput :=
  mk_input (blocker_node_id b) (blocker_signature b) true.

Definition input_from_candidate (c : DocumentOwnedBlockingStylesheetCandidate)
    : DocumentOwnedStylesheetDiscoveryInput :=
  mk_input (candidate_node_id c) (signature_from_candidate c) true.

Definition with_node_id (i : DocumentOwnedStylesheetDiscoveryInput) (n : N)
    : DocumentOwnedStylesheetDiscoveryInput :=
  mk_input n (input_signature i) (blocks_scripts i).

(** *** MIME checks *)
Definition mime_essence (s : str) : option str :=
  '(t, sub) ← parse_mime s; Some (t ++ chars "/" ++ sub).

Definition is_css_mime (s : str) : bool := bool_decide (mime_essence s = Some (chars "text/css")).

Definition is_css_style_element_type_attribute (value : option str) : bool :=
  match value with
  | None => true
  | Some v => is_empty v || eq_ignore_ascii_case v (chars "text/css")
  end.

Definition stylesheet_type_is_supported (value : option str) : bool :=
  match value with
  | None => true
  | Some v => let v := trim v in is_empty v || eq_ignore_ascii_case v (chars "text/css")
  end.

(** *** Links *)
Definition link_rel_includes_token (rel token : str) : bool :=
  existsb (λ c, eq_ignore_ascii_case c token) (split_ascii_whitespace rel).

Definition element_options (e : StylesheetElementRead) : StylesheetFetchOptions :=
  from_link_attributes (el_cross_origin e) (el_referrer_policy e) (el_integrity e) (el_nonce e)
    (el_charset e) (el_fetch_priority e).

Definition unwrap_or_default (o : option str) : str := default [] o.

Definition stylesheet_link_disposition (document : StylesheetBlockingReadView) (node_id : N)
    : option StylesheetLinkDisposition :=
  element ← stylesheet_element document node_id;
  if negb (is_html_element element (chars "link")) then None else
  rel ← rel element;
  if negb (link_rel_includes_token rel (chars "stylesheet")) then None else
  href ← trim <$> href element;
  if is_empty href || disabled element || negb (stylesheet_type_is_supported (type_attr element)) then None else
  base ← stylesheet_base_url_clone document node_id;
  url ← url_join base href;
  let options := with_quirks_mode_mime_compatibility (element_options element) (document_is_quirks_mode document) in
  let is_alternate := link_rel_includes_token rel (chars "alternate") in
  let blocking := negb is_alternate && media_query_matches document (unwrap_or_default (media element)) in
  Some (if blocking then Blocking url options else LoadOnly url options).

Definition stylesheet_preload_link_request (document : StylesheetBlockingReadView) (node_id : N)
    : option (Url * StylesheetFetchOptions) :=
  element ← stylesheet_element document node_id;
  if negb (is_html_element element (chars "link")) || disabled element ||
     match type_attr element with Some v => negb (is_empty v) && negb (is_css_mime v) | None => false end
  then None else
  rel ← rel element;
  if negb (link_rel_includes_token rel (chars "preload")) ||
     negb match as_attr element with Some v => eq_ignore_ascii_case v (chars "style") | None => false end
  then None else
  href ← trim <$> href element;
  if is_empty href then None else
  base ← stylesheet_base_url_clone document node_id;
  url ← url_join base href;
  Some (url, element_options element).

Definition connected_preload_like_link_url (document : StylesheetBlockingReadView) (node_id : N) : option Url :=
  element ← stylesheet_element document node_id;
  if negb (is_html_element element (chars "link")) then None else
  rel ← rel element;
  if negb (link_rel_includes_token rel (chars "preload") || link_rel_includes_token rel (chars "modulepreload")
           || link_rel_includes_token rel (chars "prefetch")
           || link_rel_includes_token rel (chars "compression-dictionary")) then None else
  href ← trim <$> href element;
  if is_empty href then None else
  base ← stylesheet_base_url_clone document node_id;
  url_join base href.

(** [href.split(['?', '#']).next()] *)
Definition before_query_or_fragment (s : str) : str :=
  default [] (head (split_pieces (λ c, (c =? 63) || (c =? 35)) s [])).

Definition preload_like_link_loads_stylesheet (rel : str) (as_attr : option str) (href : str) : bool :=
  if link_rel_includes_token rel (chars "preload")
  then match as_attr with Some v => eq_ignore_ascii_case v (chars "style") | None => false end
  else if negb (link_rel_includes_token rel (chars "modulepreload")) then false
  else match trim <$> as_attr with
       | Some v => if negb (is_empty v) then eq_ignore_ascii_case v (chars "style")
                   else ends_with (before_query_or_fragment href) (chars ".css")
       | None => ends_with (before_query_or_fragment href) (chars ".css")
       end.

(** *** Imports of a style element *)

(** [stylesheet_import_urls_with_stylo]: [identities] are the network
    identities seen, [urls] the addresses kept. *)
Fixpoint import_urls_loop (base : Url) (rules : list (bool * option str)) (identities urls : list Url) : list Url :=
  match rules with
  | [] => urls
  | (enabled, href) :: rules =>
      if negb enabled then import_urls_loop base rules identities urls
      else match href ≫= url_join base with
           | None => import_urls_loop base rules identities urls
           | Some url =>
               let identity := without_fragment url in
               if bool_decide (identity ∈ identities) then import_urls_loop base rules identities urls
               else import_urls_loop base rules (identity :: identities) (urls ++ [url])
           end
  end.

Definition extract_css_import_urls (base : Url) (css : str) : list Url :=
  import_urls_loop base (import_rules css) [] [].

Definition parser_created_style_import_urls (document : StylesheetBlockingReadView) (node_id : N)
    : option (list Url) :=
  element ← stylesheet_element document node_id;
  if negb (is_html_element element (chars "style")) || negb (parser_blocking_eligible element) then None else
  if disabled element || negb (is_css_style_element_type_attribute (type_attr element)) then None else
  css ← text_content document node_id;
  base ← stylesheet_base_url_clone document node_id;
  let urls := extract_css_import_urls base css in
  if bool_decide (urls = []) then None else Some urls.

(** *** Collecting blockers *)
Definition document_owned_stylesheet_discovery_input_for_node (document : StylesheetBlockingReadView) (node_id : N)
    : option DocumentOwnedStylesheetDiscoveryInput :=
  element ← stylesheet_element document node_id;
  if negb (parser_blocking_eligible element) then None else
  match stylesheet_link_disposition document node_id with
  | Some d => Some (mk_input node_id (Link (disposition_url d) (disposition_options d)) (disposition_is_blocking d))
  | None =>
      urls ← parser_created_style_import_urls document node_id;
      Some (mk_input node_id (ParserCreatedStyleImport urls)
              (media_query_matches document (unwrap_or_default (media element))))
  end.

Definition document_owned_blocking_stylesheet_candidate_for_node (document : StylesheetBlockingReadView) (node_id : N)
    : option DocumentOwnedBlockingStylesheetCandidate :=
  input ← document_owned_stylesheet_discovery_input_for_node document node_id;
  if negb (blocks_scripts input) then None else
  Some match input_signature input with
       | Link url options => CandidateLink node_id url options
       | ParserCreatedStyleImport urls => CandidateStyleImport node_id urls
       end.

Definition collect_candidates_before (document : StylesheetBlockingReadView) (target : option N)
    : list DocumentOwnedBlockingStylesheetCandidate :=
  omap (document_owned_blocking_stylesheet_candidate_for_node document)
    (document_order_stylesheet_candidate_ids_before document target).

Definition collect_document_owned_blocking_stylesheets (document : StylesheetBlockingReadView)
    : list DocumentOwnedBlockingStylesheet :=
  blocker_from_candidate <$> collect_candidates_before document None.

Definition collect_document_owned_blocking_stylesheets_before (document : StylesheetBlockingReadView) (target : N)
    : list DocumentOwnedBlockingStylesheet :=
  blocker_from_candidate <$> collect_candidates_before document (Some target).

Definition collect_document_owned_blocking_stylesheet_nodes_before (document : StylesheetBlockingReadView) (target : N)
    : list N :=
  candidate_node_id <$> collect_candidates_before document (Some target).

Definition collect_blocking_stylesheet_nodes_before (document : StylesheetBlockingReadView) (target : N) : list N :=
  omap (λ n, match stylesheet_link_disposition document n with
             | Some d => if disposition_is_blocking d then Some n else None
             | None => None
             end)
    (document_order_stylesheet_candidate_ids_before document (Some target)).

(** The nested loops over targets and their blockers; [seen] is the hash set
    of nodes. *)
Fixpoint inputs_of_blockers (bs : list DocumentOwnedBlockingStylesheet) (seen : list N)
    (out : list DocumentOwnedStylesheetDiscoveryInput) : list N * list DocumentOwnedStylesheetDiscoveryInput :=
  match bs with
  | [] => (seen, out)
  | b :: bs => if bool_decide (blocker_node_id b ∈ seen) then inputs_of_blockers bs seen out
               else inputs_of_blockers bs (blocker_node_id b :: seen) (out ++ [input_from_blocker b])
  end.

Fixpoint inputs_of_targets (document : StylesheetBlockingReadView) (targets seen : list N)
    (out : list DocumentOwnedStylesheetDiscoveryInput) : list DocumentOwnedStylesheetDiscoveryInput :=
  match targets with
  | [] => out
  | t :: targets =>
      let '(seen, out) :=
        inputs_of_blockers (collect_document_owned_blocking_stylesheets_before document t) seen out in
      inputs_of_targets document targets seen out
  end.

Definition collect_discovery_inputs_before (document : StylesheetBlockingReadView) (targets : list N)
    : list DocumentOwnedStylesheetDiscoveryInput :=
  inputs_of_targets document targets [] [].

(** *** Document order *)

(** The loop over children; the pair is ([found_candidate], [stop]). *)
Fixpoint walk_children (visit : N → bool * bool → run (bool * bool)) (children : list N) (s : bool * bool)
    : run (bool * bool) :=
  match children with
  | [] => Ret s
  | c :: children => s ← visit c s; if s.2 : bool then Ret s else walk_children visit children s
  end.

Fixpoint document_node_precedes_until (fuel : nat) (document : StylesheetBlockingReadView)
    (candidate target : N) (node : N) (s : bool * bool) : run (bool * bool) :=
  match fuel with
  | O => Panic
  | S fuel =>
      if s.2 : bool then Ret s
      else if node =? target then Ret (s.1, true)
      else walk_children (document_node_precedes_until fuel document candidate target)
             (child_ids document node) (s.1 || (node =? candidate), s.2)
  end.

Definition document_node_precedes (fuel : nat) (document : StylesheetBlockingReadView) (candidate target : N)
    : run bool :=
  fst <$> document_node_precedes_until fuel document candidate target (document_node_id document) (false, false).

(** ** Theorems *)

(** *** Document order is the order of a preorder walk *)
Inductive dom_tree := Node (id : N) (children : list dom_tree).

Definition root (t : dom_tree) : N := let 'Node id _ := t in id.

Fixpoint preorder (t : dom_tree) : list N :=
  let 'Node id cs := t in id :: concat (map preorder cs).

Fixpoint height (t : dom_tree) : nat :=
  let 'Node _ cs := t in S (foldr max O (map height cs)).

(** The nodes the view answers with form the tree. *)
Inductive represents (document : StylesheetBlockingReadView) : dom_tree → Prop :=
  | represents_node id cs :
      child_ids document id = map root cs → Forall (represents document) cs →
      represents document (Node id cs).

(** The nodes listed before the first occurrence of [target]. *)
Fixpoint before (target : N) (l : list N) : list N :=
  match l with [] => [] | x :: l => if x =? target then [] else x :: before target l end.

Lemma before_absent t l : t ∉ l → before t l = l.
Proof.
  induction l as [|x l IH]; intros H; simpl; [done |].
  apply not_elem_of_cons in H as [Hx Hl]. rewrite IH by done.
  by destruct (N.eqb_spec x t).
Qed.

Lemma before_app t l k : before t (l ++ k) = if bool_decide (t ∈ l) then before t l else l ++ before t k.
Proof.
  induction l as [|x l IH]; [done |]. cbn [app before].
  destruct (N.eqb_spec x t) as [->|Hx]; [by rewrite (bool_decide_true (t ∈ _)) by set_solver |].
  rewrite IH, (bool_decide_ext (t ∈ x :: l) (t ∈ l)) by set_solver. by case_bool_decide.
Qed.

Lemma walk_children_spec visit candidate target cs found :
  Forall (λ t, ∀ found, visit (root t) (found, false) =
    Ret (found || bool_decide (candidate ∈ before target (preorder t)), bool_decide (target ∈ preorder t))) cs →
  walk_children visit (map root cs) (found, false) =
    Ret (found || bool_decide (candidate ∈ before target (concat (map preorder cs))),
         bool_decide (target ∈ concat (map preorder cs))).
Proof.
  intros H. revert found. induction H as [|t cs Ht _ IH]; intros found; cbn [map concat walk_children].
  - rewrite !bool_decide_false by set_solver. by rewrite orb_false_r.
  - rewrite Ht. cbn [mbind run_bind snd]. rewrite before_app.
    destruct (decide (target ∈ preorder t)) as [Hin|Hout].
    + rewrite !(bool_decide_true (target ∈ _)) by set_solver. done.
    + rewrite (bool_decide_false (target ∈ preorder t)) by done. rewrite IH, before_absent by done.
      f_equal. f_equal; [| apply bool_decide_ext; set_solver].
      rewrite <-orb_assoc. f_equal.
      rewrite <-bool_decide_or. apply bool_decide_ext. set_solver.
Qed.

Lemma height_children fuel cs :
  (S (foldr max O (map height cs)) ≤ S fuel)%nat → Forall (λ t, height t ≤ fuel)%nat cs.
Proof.
  intros H. apply Forall_forall. intros t Ht. induction cs as [|c cs IH]; [set_solver |]. simpl in *.
  apply elem_of_cons in Ht as [->|Ht]; [lia |]. apply IH; [lia | done].
Qed.

Lemma precedes_until_spec document candidate target fuel t found :
  represents document t → (height t ≤ fuel)%nat →
  document_node_precedes_until fuel document candidate target (root t) (found, false) =
    Ret (found || bool_decide (candidate ∈ before target (preorder t)), bool_decide (target ∈ preorder t)).
Proof.
  revert t found. induction fuel as [|fuel IH]; intros [id cs] found Hr Hh; [simpl in Hh; lia |].
  inversion Hr as [? ? Hc Hcs]; subst. apply height_children in Hh.
  cbn [document_node_precedes_until root preorder before fst snd].
  destruct (N.eqb_spec id target) as [->|Hne].
  - rewrite (bool_decide_false (candidate ∈ _)) by set_solver.
    rewrite (bool_decide_true (target ∈ _)) by set_solver. by rewrite orb_false_r.
  - rewrite Hc, (walk_children_spec _ candidate target).
    + f_equal. f_equal; [| apply bool_decide_ext; set_solver].
      rewrite <-orb_assoc. f_equal. destruct (N.eqb_spec id candidate) as [->|Hnc]; cbn [orb].
      * rewrite bool_decide_true by set_solver. done.
      * apply bool_decide_ext. set_solver.
    + apply Forall_forall. intros c Hc'. intros found'. rewrite Forall_forall in Hcs, Hh.
      apply IH; [by apply Hcs | by apply Hh].
Qed.

(** C34: [document_node_precedes] decides document order.  On a document whose
    nodes form a tree, a walk with fuel for the height of the tree returns,
    and answers true exactly when the candidate is met before the target in a
    preorder traversal (so an ancestor of the target precedes it, the target
    does not precede itself, and every node of the document precedes a target
    that is not in it). *)
Theorem precedes_is_document_order document t candidate target fuel :
  represents document t → root t = document_node_id document → (height t ≤ fuel)%nat →
  document_node_precedes fuel document candidate target =
    Ret (bool_decide (candidate ∈ before target (preorder t))).
Proof.
  intros Hr Hroot Hh. unfold document_node_precedes. rewrite <-Hroot.
  by rewrite (precedes_until_spec _ _ _ _ _ _ Hr Hh).
Qed.
End style.
Arguments StylesheetResourceKey : clear implicits.
Arguments StylesheetLinkDisposition : clear implicits.
Arguments DocumentBlockingStylesheetSignature : clear implicits.
Arguments DocumentOwnedBlockingStylesheetCandidate : clear implicits.
Arguments DocumentOwnedBlockingStylesheet : clear implicits.
Arguments DocumentOwnedStylesheetDiscoveryInput : clear implicits.
Arguments StylesheetBlockingReadView : clear implicits.

(** ** Witnesses *)
Section example.
#[local] Instance example_url : StyleUrl N := {| url_join := λ b s, Some (b + byte_len s); without_fragment := id |}.
#[local] Instance example_parsers : StyleParsers := {| parse_mime := λ _, None; import_rules := λ _, [] |}.

Definition example_tree : dom_tree := Node 0 [Node 1 [Node 2 []; Node 3 []]; Node 4 []].

Definition example_children (n : N) : list N := if n =? 0 then [1; 4] else if n =? 1 then [2; 3] else [].

Definition example_view : StylesheetBlockingReadView N :=
  mk_view (λ _, true) (λ _, None) example_children (λ _, None) (Some 0) (λ _, Some 0) 0 false (λ _, []).

Lemma precedes_is_document_order_witness :
  document_node_precedes 3 example_view 1 3 = Ret true ∧
  document_node_precedes 3 example_view 4 3 = Ret false.
Proof.
  assert (Hr : represents example_view example_tree).
  { repeat (constructor; [reflexivity |] || constructor). }
  split.
  - rewrite (precedes_is_document_order example_view example_tree 1 3 3 Hr eq_refl); [reflexivity | vm_compute; lia].
  - rewrite (precedes_is_document_order example_view example_tree 4 3 3 Hr eq_refl); [reflexivity | vm_compute; lia].
Defined.
End example.
