(* ===== verification/StyleBlocking.v ===== *)
(** Script-blocking style sheets: which loads a document waits for
    (moli-stylesheet-blocking: [types.rs], [state.rs], and the fetch objects
    and terminals of [fetcher.rs]).

    [StylesheetFetch] and [StylesheetBlockingOperation] are [Arc]s compared by
    address, so both are names of objects in a store of their own and a clone
    is the same name.  A fetch object is written by whoever applies its
    completion, so the store is part of the [World] with the state, the spawned
    tasks, the completions handed to a publisher and the wakes.  A completion
    cannot be cloned: it is taken out of the queue or the list that holds it.
    Closures ([Wake], [Publisher]), responses and time stamps are opaque.
    The trait [StylesheetFetcher] is a class; a task it spawns stays in the
    [World] until the fetch answers. *)
From stdpp Require Import base list numbers option gmap strings.
From S2P Require Import Prelude OwnerQueue Utf8 CookieTypes StyleDiscovery.

#[local] Open Scope N_scope.

(** ** The outcome of a fetch *)
Section terminal.
Context {Response : Type}.

Inductive StylesheetPhysicalOutcome := ResponseReceived (r : Response) | NetworkError (reason : str).

(** [as_result] *)
Definition as_result (o : StylesheetPhysicalOutcome) : Response + str :=
  match o with ResponseReceived r => inl r | NetworkError e => inr e end.

Inductive StylesheetUsability := UsabilityReady | UsabilityFailed (reason : str) | IntegrityFailure (reason : str).

Definition usability_is_ready (u : StylesheetUsability) : bool :=
  match u with UsabilityReady => true | _ => false end.

Record StylesheetFetchTerminal := mk_terminal {
  physical : StylesheetPhysicalOutcome;
  usability : StylesheetUsability;
  origin_clean : option bool }.

Definition terminal_response (r : Response) (u : StylesheetUsability) (clean : bool) : StylesheetFetchTerminal :=
  mk_terminal (ResponseReceived r) u (Some clean).
Definition terminal_ready (r : Response) (clean : bool) : StylesheetFetchTerminal :=
  terminal_response r UsabilityReady clean.
Definition unusable_response (r : Response) (clean : bool) (reason : str) : StylesheetFetchTerminal :=
  terminal_response r (UsabilityFailed reason) clean.
Definition network_error (reason : str) : StylesheetFetchTerminal :=
  mk_terminal (NetworkError reason) (UsabilityFailed reason) None.
Definition integrity_failure (r : Response) (clean : bool) (reason : str) : StylesheetFetchTerminal :=
  terminal_response r (IntegrityFailure reason) clean.

Definition terminal_is_ready (t : StylesheetFetchTerminal) : bool := usability_is_ready (usability t).

Definition failed_integrity (t : StylesheetFetchTerminal) : bool :=
  match usability t with IntegrityFailure _ => true | _ => false end.

Definition ready_response (t : StylesheetFetchTerminal) : option Response :=
  if negb (terminal_is_ready t) then None
  else match physical t with ResponseReceived r => Some r | NetworkError _ => None end.
End terminal.
Arguments StylesheetPhysicalOutcome : clear implicits.
Arguments StylesheetFetchTerminal : clear implicits.

Inductive StylesheetBlockingStatus := Pending | Ready | Failed.
#[global] Instance StylesheetBlockingStatus_eq_dec : EqDecision StylesheetBlockingStatus.
Proof. solve_decision. Defined.

(** The name of a fetch object and of an operation. *)
Notation StylesheetFetch := nat (only parsing).
Notation StylesheetBlockingOperation := nat (only parsing).

Class StylesheetFetcher (F : Type) := resource_cache_scope : F → N.
#[global] Hint Mode StylesheetFetcher ! : typeclass_instances.

(** The modes are one number and the pairs are balanced, because the encoding
    of a pair doubles the longer half. *)
#[global] Instance ResourceKey_countable {Url} `{Countable Url} : Countable (StylesheetResourceKey Url).
Proof.
  refine (inj_countable'
    (λ k : StylesheetResourceKey Url,
      ((request_url_without_fragment k,
        match request_mode k with Navigate => 0 | ModeSameOrigin => 1 | NoCors => 2 | Cors => 3 end
        + 4 * match credentials_mode k with Include => 0 | CredentialsSameOrigin => 1 | Omit => 2 end
        + 12 * (if key_quirks k then 1 else 0)),
       ((key_referrer_policy k, key_integrity k), key_charset k)))
    (λ '((u, n), ((r, i), s)),
      mk_key u
        match n mod 4 with 0 => Navigate | 1 => ModeSameOrigin | 2 => NoCors | _ => Cors end
        match n / 4 mod 3 with 0 => Include | 1 => CredentialsSameOrigin | _ => Omit end
        r i s (12 <=? n)) _).
  by intros [? [] [] ? ? ? []].
Defined.

Section blocking.
Context {Url : Type} `{Url_eq_dec : EqDecision Url} `{Url_countable : !Countable Url}.
Context `{SU : !StyleUrl Url, SP : !StyleParsers}.
Context {F : Type} `{SF : !StylesheetFetcher F}.
Context {Response Millis Wake Publisher : Type}.

Notation Terminal := (StylesheetFetchTerminal Response).
Notation Signature := (DocumentBlockingStylesheetSignature Url).
Notation ResourceKey := (StylesheetResourceKey Url).

(** *** Objects *)
Record StylesheetFetchRequest := mk_request {
  fetch_document_url : Url;
  fetch_key : ResourceKey;
  fetch_options : StylesheetFetchOptions;
  start_unix_millis : Millis;
  terminal : option Terminal;
  physical_observation_emitted : bool }.

Definition request_new (document_url request_url : Url) (options : StylesheetFetchOptions) (now : Millis)
    : StylesheetFetchRequest :=
  mk_request document_url (resource_key options request_url) options now None false.

Definition fetch_request_url (r : StylesheetFetchRequest) : Url := request_url_without_fragment (fetch_key r).

Definition request_status (r : StylesheetFetchRequest) : StylesheetBlockingStatus :=
  match terminal r with
  | None => Pending
  | Some t => if terminal_is_ready t then Ready else Failed
  end.

(** [finish]: [OnceLock::set] *)
Definition request_finish (r : StylesheetFetchRequest) (t : Terminal) : bool * StylesheetFetchRequest :=
  match terminal r with
  | Some _ => (false, r)
  | None => (true, mk_request (fetch_document_url r) (fetch_key r) (fetch_options r) (start_unix_millis r)
                     (Some t) (physical_observation_emitted r))
  end.

Definition claim_physical_observation (r : StylesheetFetchRequest) : bool * StylesheetFetchRequest :=
  (negb (physical_observation_emitted r),
   mk_request (fetch_document_url r) (fetch_key r) (fetch_options r) (start_unix_millis r) (terminal r) true).

Record StylesheetBlockingOperationIdentity := mk_identity {
  op_node_id : N;
  op_document_url : Url;
  op_signature : Signature }.

(** *** Results and completions *)
Record StylesheetImportNetworkResult := mk_import_result {
  import_request_url : Url;
  import_start : Millis;
  import_terminal : Terminal }.

Record StylesheetImportGraphFetchResult := mk_graph {
  successful : bool;
  network_results : list StylesheetImportNetworkResult }.

(** [fetch_stylesheet_import_graph], the trait's own implementation, from the
    answers of its fetches in the order of [urls]. *)
Definition import_graph_of_answers (urls : list Url) (answers : list (Millis * Terminal))
    : StylesheetImportGraphFetchResult :=
  let results := zip_with (λ url '(start, t), mk_import_result url start t) urls answers in
  mk_graph (forallb (λ r, terminal_is_ready (import_terminal r)) results) results.

Inductive StylesheetCompletion :=
  | FetchCompletion (fetch : StylesheetFetch) (t : Terminal)
  | StyleImports (operation : StylesheetBlockingOperation) (graph : StylesheetImportGraphFetchResult).

Record StylesheetFetchNetworkResult := mk_network_result {
  result_fetch : option StylesheetFetch;
  blocking_operation_of : option StylesheetBlockingOperation;
  result_document_url : Url;
  result_request_url : Url;
  owner_node_ids : list N;
  result_start : Millis;
  result_terminal : Terminal }.

(** *** The state *)
Record StylesheetFetchEntry := mk_fetch_entry {
  entry_scope : N;
  entry_url : Url;
  entry_options : StylesheetFetchOptions;
  entry_fetch : StylesheetFetch }.

Inductive StylesheetBlockingResource :=
  | LinkResource (fetch : StylesheetFetch)
  | ImportsResource (status : StylesheetBlockingStatus) (completed_graph : option StylesheetImportGraphFetchResult).

Record StylesheetBlockingEntry := mk_entry {
  operation : StylesheetBlockingOperation;
  resource : StylesheetBlockingResource }.

Record StylesheetBlockingState := mk_state {
  owner_fetches : gmap N StylesheetFetchEntry;
  blocking_entries : gmap N StylesheetBlockingEntry;
  url_fetches : gmap (N * Url * ResourceKey) StylesheetFetch;
  completion_source : Task.OwnerTaskSource (T := StylesheetCompletion);
  ready_network_results : list StylesheetFetchNetworkResult;
  completion_wake : option Wake;
  completion_publisher : option Publisher }.

Definition state_default : StylesheetBlockingState :=
  mk_state ∅ ∅ ∅ Task.task_source_new [] None None.

(** What a spawned task awaits. *)
Inductive StylesheetWork :=
  | FetchResource (fetch : StylesheetFetch) (document_url request_url : Url) (options : StylesheetFetchOptions)
  | FetchImportGraph (operation : StylesheetBlockingOperation) (document_url : Url) (urls : list Url).

(** A spawned task with the transport it captured; [finished] once it ran. *)
Record StylesheetTask := mk_task {
  task_fetcher : F;
  work : StylesheetWork;
  task_wake : option Wake;
  task_publisher : option Publisher;
  finished : bool }.

Record World := mk_world {
  fetches : list StylesheetFetchRequest;
  operations : list StylesheetBlockingOperationIdentity;
  tasks : list StylesheetTask;
  published : list (Publisher * StylesheetCompletion);
  wakes : list Wake;
  state : StylesheetBlockingState }.

Definition world_new : World := mk_world [] [] [] [] [] state_default.

Definition set_state (w : World) (s : StylesheetBlockingState) : World :=
  mk_world (fetches w) (operations w) (tasks w) (published w) (wakes w) s.
Definition set_fetches (w : World) (fs : list StylesheetFetchRequest) : World :=
  mk_world fs (operations w) (tasks w) (published w) (wakes w) (state w).
Definition set_operations (w : World) (ops : list StylesheetBlockingOperationIdentity) : World :=
  mk_world (fetches w) ops (tasks w) (published w) (wakes w) (state w).
Definition set_tasks (w : World) (ts : list StylesheetTask) : World :=
  mk_world (fetches w) (operations w) ts (published w) (wakes w) (state w).

Definition set_owner_fetches (s : StylesheetBlockingState) (m : gmap N StylesheetFetchEntry) :=
  mk_state m (blocking_entries s) (url_fetches s) (completion_source s) (ready_network_results s)
    (completion_wake s) (completion_publisher s).
Definition set_blocking_entries (s : StylesheetBlockingState) (m : gmap N StylesheetBlockingEntry) :=
  mk_state (owner_fetches s) m (url_fetches s) (completion_source s) (ready_network_results s)
    (completion_wake s) (completion_publisher s).
Definition set_url_fetches (s : StylesheetBlockingState) (m : gmap (N * Url * ResourceKey) StylesheetFetch) :=
  mk_state (owner_fetches s) (blocking_entries s) m (completion_source s) (ready_network_results s)
    (completion_wake s) (completion_publisher s).
Definition set_completion_source (s : StylesheetBlockingState) (q : Task.OwnerTaskSource (T := StylesheetCompletion)) :=
  mk_state (owner_fetches s) (blocking_entries s) (url_fetches s) q (ready_network_results s)
    (completion_wake s) (completion_publisher s).
Definition set_ready_network_results (s : StylesheetBlockingState) (l : list StylesheetFetchNetworkResult) :=
  mk_state (owner_fetches s) (blocking_entries s) (url_fetches s) (completion_source s) l
    (completion_wake s) (completion_publisher s).

(** [StylesheetBlockingOperation::new] *)
Definition operation_new (w : World) (node_id : N) (document_url : Url) (signature : Signature)
    : StylesheetBlockingOperation * World :=
  (length (operations w), set_operations w (operations w ++ [mk_identity node_id document_url signature])).

Definition spawn (w : World) (fetcher : F) (wk : StylesheetWork) : World :=
  set_tasks w (tasks w ++ [mk_task fetcher wk (completion_wake (state w)) (completion_publisher (state w)) false]).

(** *** Loads *)
Definition ensure_resource (w : World) (fetcher : F) (now : Millis) (document_url url : Url)
    (options : StylesheetFetchOptions) : StylesheetFetch * World :=
  let scope := resource_cache_scope fetcher in
  let key := resource_key options url in
  match url_fetches (state w) !! (scope, document_url, key) with
  | Some url_fetch => (url_fetch, w)
  | None =>
      let request_url := request_url_without_fragment key in
      let fetch := length (fetches w) in
      let w := set_fetches w (fetches w ++ [request_new document_url request_url options now]) in
      let w := set_state w (set_url_fetches (state w)
                 (<[(scope, document_url, key) := fetch]> (url_fetches (state w)))) in
      (fetch, spawn w fetcher (FetchResource fetch document_url request_url options))
  end.

(** The owner's entry when it has this scope and signature. *)
Definition owner_entry_fetch (w : World) (fetcher : F) (node_id : N) (url : Url) (options : StylesheetFetchOptions)
    : option StylesheetFetch :=
  entry ← owner_fetches (state w) !! node_id;
  if (entry_scope entry =? resource_cache_scope fetcher) && bool_decide (entry_url entry = url)
     && bool_decide (entry_options entry = options)
  then Some (entry_fetch entry) else None.

Definition ensure_owner_fetch (w : World) (fetcher : F) (now : Millis) (node_id : N) (document_url url : Url)
    (options : StylesheetFetchOptions) : StylesheetFetch * World :=
  match owner_entry_fetch w fetcher node_id url options with
  | Some fetch => (fetch, w)
  | None =>
      let '(fetch, w) := ensure_resource w fetcher now document_url url options in
      (fetch, set_state w (set_owner_fetches (state w)
                (<[node_id := mk_fetch_entry (resource_cache_scope fetcher) url options fetch]>
                   (owner_fetches (state w)))))
  end.

Definition op_identity (w : World) (op : StylesheetBlockingOperation) : option StylesheetBlockingOperationIdentity :=
  operations w !! op.

(** [entry.operation.signature()] *)
Definition entry_signature (w : World) (e : StylesheetBlockingEntry) : option Signature :=
  op_signature <$> op_identity w (operation e).

Definition rebind_blocking_link (w : World) (node_id : N) (document_url url : Url) (options : StylesheetFetchOptions)
    (fetch : StylesheetFetch) : World :=
  match blocking_entries (state w) !! node_id with
  | None => w
  | Some entry =>
      match entry_signature w entry, resource entry with
      | Some (Link blocked_url blocked_options), LinkResource current =>
          if bool_decide (blocked_url ≠ url) || bool_decide (blocked_options ≠ options) || bool_decide (current = fetch)
          then w
          else let '(op, w) := operation_new w node_id document_url (Link url options) in
               set_state w (set_blocking_entries (state w)
                 (<[node_id := mk_entry op (LinkResource fetch)]> (blocking_entries (state w))))
      | _, _ => w
      end
  end.

Definition discover_link_url (w : World) (fetcher : F) (now : Millis) (node_id : N) (document_url url : Url)
    (options : StylesheetFetchOptions) : StylesheetFetch * World :=
  let '(fetch, w) := ensure_owner_fetch w fetcher now node_id document_url url options in
  (fetch, rebind_blocking_link w node_id document_url url options fetch).

Definition adopt_or_begin_link_load (w : World) (fetcher : F) (now : Millis) (node_id : N) (document_url url : Url)
    (options : StylesheetFetchOptions) : StylesheetFetch * World :=
  match owner_entry_fetch w fetcher node_id url options with
  | Some fetch => (fetch, w)
  | None =>
      let '(fetch, w) := ensure_owner_fetch w fetcher now node_id document_url url options in
      (fetch, rebind_blocking_link w node_id document_url url options fetch)
  end.

Definition preload_stylesheet (w : World) (fetcher : F) (now : Millis) (document_url url : Url)
    (options : StylesheetFetchOptions) : StylesheetFetch * World :=
  ensure_resource w fetcher now document_url url options.

(** *** Discovery *)
Definition spawn_style_import_operation (w : World) (fetcher : F) (op : StylesheetBlockingOperation)
    (document_url : Url) (urls : list Url) : World :=
  spawn w fetcher (FetchImportGraph op document_url urls).

Definition discover_input (w : World) (fetcher : F) (now : Millis) (document_url : Url) (node_id : N)
    (signature : Signature) : World :=
  if match blocking_entries (state w) !! node_id with
     | Some entry => bool_decide (entry_signature w entry = Some signature)
     | None => false
     end
  then w
  else
    let '(op, w) := operation_new w node_id document_url signature in
    let '(res, w) :=
      match signature with
      | Link url options =>
          let '(fetch, w) := ensure_owner_fetch w fetcher now node_id document_url url options in
          (LinkResource fetch, w)
      | ParserCreatedStyleImport urls =>
          (ImportsResource Pending None, spawn_style_import_operation w fetcher op document_url urls)
      end in
    set_state w (set_blocking_entries (state w) (<[node_id := mk_entry op res]> (blocking_entries (state w)))).

(** [discover_from_inputs] *)
Definition discover_from_inputs (w : World) (fetcher : F) (now : Millis) (document_url : Url)
    (inputs : list (DocumentOwnedStylesheetDiscoveryInput Url)) : World :=
  foldl (λ w i, discover_input w fetcher now document_url (input_node_id i) (input_signature i)) w
    (filter (λ i, blocks_scripts i = true) inputs).

Definition discover_from_blockers (w : World) (fetcher : F) (now : Millis) (document_url : Url)
    (blockers : list (DocumentOwnedBlockingStylesheet Url)) : World :=
  foldl (λ w b, discover_input w fetcher now document_url (blocker_node_id b) (blocker_signature b)) w blockers.

Definition discover_from_document (w : World) (fetcher : F) (now : Millis)
    (document : StylesheetBlockingReadView Url) : run World :=
  document_url ← expect (final_url_clone document);
  Ret (discover_from_blockers w fetcher now document_url (collect_document_owned_blocking_stylesheets document)).

(** *** Statuses *)
Definition fetch_status (w : World) (fetch : StylesheetFetch) : option StylesheetBlockingStatus :=
  request_status <$> fetches w !! fetch.

Definition blocking_entry_status (w : World) (e : StylesheetBlockingEntry) : option StylesheetBlockingStatus :=
  match resource e with
  | LinkResource fetch => fetch_status w fetch
  | ImportsResource status _ => Some status
  end.

Definition entry_pending (w : World) (e : StylesheetBlockingEntry) : bool :=
  bool_decide (blocking_entry_status w e = Some Pending).

Definition settled (s : StylesheetBlockingStatus) : option bool :=
  match s with Pending => None | Ready => Some true | Failed => Some false end.

Definition status_without_draining (w : World) (node_id : N) (url : Url) : option bool :=
  entry ← owner_fetches (state w) !! node_id;
  if bool_decide (entry_url entry ≠ url) then None
  else s ← fetch_status w (entry_fetch entry); settled s.

Definition status_for_fetch_without_draining (w : World) (fetch : StylesheetFetch) : option bool :=
  s ← fetch_status w fetch; settled s.

Definition owner_link_fetch (w : World) (node_id : N) (signature : Signature) : option StylesheetFetch :=
  match signature with
  | ParserCreatedStyleImport _ => None
  | Link url options =>
      entry ← owner_fetches (state w) !! node_id;
      if bool_decide (entry_url entry = url) && bool_decide (entry_options entry = options)
      then Some (entry_fetch entry) else None
  end.

Definition blocking_link_signature_for_fetch (w : World) (node_id : N) (fetch : StylesheetFetch) : option Signature :=
  entry ← blocking_entries (state w) !! node_id;
  match resource entry with
  | LinkResource blocking_fetch => if bool_decide (blocking_fetch = fetch) then entry_signature w entry else None
  | ImportsResource _ _ => None
  end.

Definition owns_blocking_link_fetch (w : World) (node_id : N) (fetch : StylesheetFetch) : bool :=
  match blocking_link_signature_for_fetch w node_id fetch with Some _ => true | None => false end.

Definition blocking_operation (w : World) (node_id : N) (signature : Signature) : option StylesheetBlockingOperation :=
  entry ← blocking_entries (state w) !! node_id;
  if bool_decide (entry_signature w entry = Some signature) then Some (operation entry) else None.

(** The entry of the operation's node, when it is still this operation's. *)
Definition current_entry (w : World) (op : StylesheetBlockingOperation)
    : option (N * StylesheetBlockingEntry) :=
  identity ← op_identity w op;
  entry ← blocking_entries (state w) !! op_node_id identity;
  if bool_decide (operation entry = op) then Some (op_node_id identity, entry) else None.

Definition status_for_blocking_operation (w : World) (op : StylesheetBlockingOperation)
    : option StylesheetBlockingStatus :=
  '(_, entry) ← current_entry w op; blocking_entry_status w entry.

Definition pending_signatures (w : World) : list (option Signature) :=
  entry_signature w <$> filter (λ e, entry_pending w e = true) (map_to_list (blocking_entries (state w))).*2.

Definition blocks_on_blockers (w : World) (blockers : list (DocumentOwnedBlockingStylesheet Url)) : bool :=
  existsb (λ b,
    match blocking_entries (state w) !! blocker_node_id b with
    | Some entry => bool_decide (entry_signature w entry = Some (blocker_signature b)) && entry_pending w entry
    | None => false
    end || bool_decide (Some (blocker_signature b) ∈ pending_signatures w)) blockers.

Definition blocks_on_signatures (w : World) (signatures : list Signature) : bool :=
  existsb (λ s, bool_decide (Some s ∈ pending_signatures w)) signatures.

Definition has_any_pending_entries (w : World) : bool :=
  existsb (entry_pending w) (map_to_list (blocking_entries (state w))).*2.

(** [Iterator::any] with a closure that may run out of fuel. *)
Fixpoint any_run {A} (p : A → run bool) (l : list A) : run bool :=
  match l with
  | [] => Ret false
  | x :: l => b ← p x; if b : bool then Ret true else any_run p l
  end.

Definition blocks_script (fuel : nat) (w : World) (document : StylesheetBlockingReadView Url) (node_id : N) : run bool :=
  if blocks_on_blockers w (collect_document_owned_blocking_stylesheets_before document node_id) then Ret true
  else any_run (λ '(stylesheet_node_id, entry),
         if entry_pending w entry then document_node_precedes fuel document stylesheet_node_id node_id
         else Ret false) (map_to_list (blocking_entries (state w))).

(** *** Completions *)

(** A task's last step: its fetch answered with [c]. *)
Definition deliver (w : World) (t : StylesheetTask) (c : StylesheetCompletion) : World :=
  match task_publisher t with
  | Some p => mk_world (fetches w) (operations w) (tasks w) (published w ++ [(p, c)]) (wakes w) (state w)
  | None =>
      mk_world (fetches w) (operations w) (tasks w) (published w)
        (wakes w ++ match task_wake t with Some k => [k] | None => [] end)
        (set_completion_source (state w) (Task.post (completion_source (state w)) c))
  end.

Inductive StylesheetAnswer :=
  | AnswerTerminal (t : Terminal)
  | AnswerGraph (g : StylesheetImportGraphFetchResult).

(** Task [i] runs to its end with this answer; a task ends once, and an
    answer of the other kind is no event of the task. *)
Definition finish_task (w : World) (i : nat) (a : StylesheetAnswer) : World :=
  match tasks w !! i with
  | None => w
  | Some t =>
      if finished t then w
      else let w' := set_tasks w (<[i := mk_task (task_fetcher t) (work t) (task_wake t) (task_publisher t) true]>
                                   (tasks w)) in
           match work t, a with
           | FetchResource fetch _ _ _, AnswerTerminal terminal => deliver w' t (FetchCompletion fetch terminal)
           | FetchImportGraph op _ _, AnswerGraph graph => deliver w' t (StyleImports op graph)
           | _, _ => w
           end
  end.

Definition push_results (w : World) (l : list StylesheetFetchNetworkResult) : World :=
  set_state w (set_ready_network_results (state w) (ready_network_results (state w) ++ l)).

(** [fetch.finish(..)] and [fetch.claim_physical_observation()] on the object. *)
Definition finish_and_claim (r : StylesheetFetchRequest) (t : Terminal) : bool * StylesheetFetchRequest :=
  let '(set, r) := request_finish r t in
  if set then claim_physical_observation r else (false, r).

Definition import_results (op : StylesheetBlockingOperation) (document_url : Url) (owners : list N)
    (l : list StylesheetImportNetworkResult) : list StylesheetFetchNetworkResult :=
  (λ r, mk_network_result None (Some op) document_url (import_request_url r) owners (import_start r)
          (import_terminal r)) <$> l.

(** The accepted graph's effect on the entry. *)
Definition complete_entry (e : StylesheetBlockingEntry) (graph : StylesheetImportGraphFetchResult)
    : StylesheetBlockingEntry :=
  match resource e with
  | ImportsResource _ _ =>
      mk_entry (operation e) (ImportsResource (if successful graph then Ready else Failed) (Some graph))
  | LinkResource _ => e
  end.

Definition apply_completion (w : World) (c : StylesheetCompletion) : option StylesheetFetch * World :=
  match c with
  | FetchCompletion fetch t =>
      match fetches w !! fetch with
      | None => (None, w)
      | Some r =>
          let '(first, r) := finish_and_claim r t in
          let w := set_fetches w (<[fetch := r]> (fetches w)) in
          if negb first then (None, w)
          else (Some fetch,
                push_results w [mk_network_result (Some fetch) None (fetch_document_url r) (fetch_request_url r) []
                                  (start_unix_millis r) t])
      end
  | StyleImports op graph =>
      match op_identity w op with
      | None => (None, w)
      | Some identity =>
          let accepted := current_entry w op in
          let owners := match accepted with Some _ => [op_node_id identity] | None => [] end in
          let w := push_results w (import_results op (op_document_url identity) owners (network_results graph)) in
          (None, match accepted with
                 | Some (node, entry) =>
                     set_state w (set_blocking_entries (state w)
                       (<[node := complete_entry entry graph]> (blocking_entries (state w))))
                 | None => w
                 end)
      end
  end.

Definition take_completed_import_graph_for_blocking_operation (w : World) (op : StylesheetBlockingOperation)
    : option StylesheetImportGraphFetchResult * World :=
  match current_entry w op with
  | None => (None, w)
  | Some (node, entry) =>
      match resource entry with
      | LinkResource _ => (None, w)
      | ImportsResource status completed_graph =>
          (completed_graph,
           set_state w (set_blocking_entries (state w)
             (<[node := mk_entry (operation entry) (ImportsResource status None)]> (blocking_entries (state w)))))
      end
  end.

(** The items the completion source holds. *)
Definition source_items (s : StylesheetBlockingState) : list StylesheetCompletion :=
  let q := completion_source s in
  Task.wake_items (Task.parser_boundary_wake q) ++ Task.tasks q ++ Task.wake_items (Task.wake q).

Fixpoint drain_loop (fuel : nat) (w : World) (completed : list StylesheetFetch) : run (list StylesheetFetch * World) :=
  match fuel with
  | O => Panic
  | S fuel =>
      let '(c, q) := Task.pop_front (completion_source (state w)) in
      let w := set_state w (set_completion_source (state w) q) in
      match c with
      | None => Ret (completed, w)
      | Some c => let '(fetch, w) := apply_completion w c in
                  drain_loop fuel w (completed ++ match fetch with Some f => [f] | None => [] end)
      end
  end.

Definition drain_ready_completions (w : World) : run (list StylesheetFetch * World) :=
  drain_loop (S (length (source_items (state w)))) w [].

Definition status (w : World) (node_id : N) (url : Url) : run (option bool * World) :=
  '(_, w) ← drain_ready_completions w; Ret (status_without_draining w node_id url, w).

Definition status_for_fetch (w : World) (fetch : StylesheetFetch) : run (option bool * World) :=
  '(_, w) ← drain_ready_completions w; Ret (status_for_fetch_without_draining w fetch, w).

Definition invalidate_node (w : World) (node_id : N) : World :=
  let w := set_state w (set_owner_fetches (state w) (delete node_id (owner_fetches (state w)))) in
  set_state w (set_blocking_entries (state w) (delete node_id (blocking_entries (state w)))).

Definition set_completion_wake (w : World) (k : option Wake) : World :=
  let s := state w in
  set_state w (mk_state (owner_fetches s) (blocking_entries s) (url_fetches s) (completion_source s)
                 (ready_network_results s) k (completion_publisher s)).

Definition set_completion_publisher (w : World) (p : option Publisher) : World :=
  let s := state w in
  set_state w (mk_state (owner_fetches s) (blocking_entries s) (url_fetches s) (completion_source s)
                 (ready_network_results s) (completion_wake s) p).

Definition take_ready_network_results (w : World) : list StylesheetFetchNetworkResult * World :=
  (ready_network_results (state w), set_state w (set_ready_network_results (state w) [])).

(** [sample] is the fixed response the function builds. *)
Definition enqueue_completion_for_testing (w : World) (node_id : N) (url : Url) (success : bool) (sample : Response)
    : run World :=
  entry ← expect (owner_fetches (state w) !! node_id);
  let fetch := entry_fetch entry in
  r ← expect (fetches w !! fetch);
  if bool_decide (fetch_request_url r ≠ url) then Panic else
  let c := FetchCompletion fetch (if success then terminal_ready sample true
                                  else network_error (chars "stylesheet load failed")) in
  match completion_publisher (state w) with
  | Some p => Ret (mk_world (fetches w) (operations w) (tasks w) (published w ++ [(p, c)]) (wakes w) (state w))
  | None => Ret (set_state w (set_completion_source (state w) (Task.post (completion_source (state w)) c)))
  end.

(** *** Waiting *)

(** [wait_for_completion_arrival_without_timeout], once what [w] holds has
    arrived; [None] while there is nothing. *)
Definition wait_for_completion_arrival (w : World) : option World :=
  q ← Task.wait_for_arrival (completion_source (state w)) [];
  Some (set_state w (set_completion_source (state w) q)).

(** The loop of [wait_for_blockers_before]: while it waits nothing but tasks
    runs, and each element of [schedule] is what ends during one wait.
    [false]: still waiting when the schedule is used up. *)
Fixpoint wait_loop (schedule : list (list (nat * StylesheetAnswer)))
    (blockers : list (DocumentOwnedBlockingStylesheet Url)) (w : World) : run (bool * World) :=
  '(_, w) ← drain_ready_completions w;
  if negb (blocks_on_blockers w blockers) then Ret (true, w)
  else match schedule with
       | [] => Ret (false, w)
       | ended :: schedule =>
           let w := foldl (λ w '(i, a), finish_task w i a) w ended in
           wait_loop schedule blockers (default w (wait_for_completion_arrival w))
       end.

Definition wait_for_blockers_before (w : World) (fetcher : F) (now : Millis)
    (document : StylesheetBlockingReadView Url) (target : N)
    (schedule : list (list (nat * StylesheetAnswer))) : run (bool * World) :=
  w ← discover_from_document w fetcher now document;
  wait_loop schedule (collect_document_owned_blocking_stylesheets_before document target) w.
End blocking.
