(* ===== verification/StyleGuarantees.v ===== *)
(** What the style sheet blocking state promises over whole histories: each
    linked or preloaded resource is requested once and its outcome reported once, decided
    operations stay decided, and nothing blocks once all answers are in. *)
From stdpp Require Import base list numbers option gmap strings.
From S2P Require Import Prelude OwnerQueue Utf8 CookieTypes StyleDiscovery StyleBlocking.

(** What the [url] crate promises: removing a fragment twice is removing it
    once. *)
Class StyleUrlLaws (Url : Type) `{StyleUrl Url} := {
  without_fragment_idemp : ∀ u : Url, without_fragment (without_fragment u) = without_fragment u }.

Section guarantees.
Context {Url : Type} `{Url_eq_dec : EqDecision Url} `{Url_countable : !Countable Url}.
Context `{SU : !StyleUrl Url, SP : !StyleParsers, SL : !StyleUrlLaws Url}.
Context {F : Type} `{SF : !StylesheetFetcher F}.
Context {Response Millis Wake Publisher : Type}.

Notation World := (World (Url := Url) (F := F) (Response := Response) (Millis := Millis) (Wake := Wake)
  (Publisher := Publisher)).
Notation Request := (StylesheetFetchRequest (Url := Url) (Response := Response) (Millis := Millis)).
Notation Identity := (StylesheetBlockingOperationIdentity (Url := Url)).
Notation Entry := (StylesheetBlockingEntry (Url := Url) (Response := Response) (Millis := Millis)).
Notation Result := (StylesheetFetchNetworkResult (Url := Url) (Response := Response) (Millis := Millis)).
Notation Completion := (StylesheetCompletion (Url := Url) (Response := Response) (Millis := Millis)).
Notation TaskT := (StylesheetTask (Url := Url) (F := F) (Wake := Wake) (Publisher := Publisher)).
Notation Key := (N * Url * StylesheetResourceKey Url)%type.

(** ** Requests and work under way *)

(** The shared resource a task requests, and for which object.  The task of
    an import graph requests none: it fetches the sheets a style element
    imports for that element's operation alone, outside the map of resources. *)
Definition resource_request (t : TaskT) : option (Key * nat) :=
  match work t with
  | FetchResource f document_url request_url options =>
      Some ((resource_cache_scope (task_fetcher t), document_url, resource_key options request_url), f)
  | FetchImportGraph _ _ _ => None
  end.

(** Every shared resource requested so far, in order. *)
Definition requests (w : World) : list (Key * nat) := omap resource_request (tasks w).

(** Work whose outcome has not been applied. *)
Inductive Token := TFetch (f : nat) | TImport (op : nat).

Definition token_of_task (t : TaskT) : option Token :=
  if finished t then None
  else Some match work t with FetchResource f _ _ _ => TFetch f | FetchImportGraph o _ _ => TImport o end.

Definition token_of_completion (c : Completion) : Token :=
  match c with FetchCompletion f _ => TFetch f | StyleImports o _ => TImport o end.

Definition imports (l : list Token) : list nat :=
  omap (λ t, match t with TImport o => Some o | TFetch _ => None end) l.

(** Unfinished tasks, queued and published completions, and those in [hand]. *)
Definition tokens (w : World) (hand : list Completion) : list Token :=
  omap token_of_task (tasks w) ++
  (token_of_completion <$> source_items (state w) ++ (published w).*2 ++ hand).

(** ** The invariant *)
Definition entry_ok (nf : nat) (ops : list Identity) (toks : list Token) (n : N) (e : Entry) : Prop :=
  ∃ id, ops !! operation e = Some id ∧ op_node_id id = n ∧
    match resource e, op_signature id with
    | LinkResource f, Link _ _ => (f < nf)%nat
    | ImportsResource s _, ParserCreatedStyleImport _ => s = Pending ↔ TImport (operation e) ∈ toks
    | _, _ => False
    end.

Definition describes (r : Request) (x : Result) : Prop :=
  terminal r = Some (result_terminal x) ∧ result_document_url x = fetch_document_url r ∧
  result_request_url x = fetch_request_url r ∧ result_start x = start_unix_millis r ∧
  owner_node_ids x = [] ∧ blocking_operation_of x = None.

Record results_ok (fs : list Request) (results : list Result) : Prop := {
  results_once : NoDup (omap result_fetch results);
  results_finished f : f ∈ omap result_fetch results ↔ ∃ r, fs !! f = Some r ∧ is_Some (terminal r);
  results_content x f : x ∈ results → result_fetch x = Some f → ∃ r, fs !! f = Some r ∧ describes r x }.

Record Core (fs : list Request) (ops : list Identity) (reqs : list (Key * nat))
    (owner : gmap N (StylesheetFetchEntry (Url := Url))) (entries : gmap N Entry) (urls : gmap Key nat)
    (results : list Result) (toks : list Token) : Prop := {
  core_ids : reqs.*2 = seq 0 (length fs);
  core_keys : NoDup reqs.*1;
  core_map k f : urls !! k = Some f ↔ (k, f) ∈ reqs;
  core_objects k f r : (k, f) ∈ reqs → fs !! f = Some r → fetch_document_url r = k.1.2 ∧ fetch_key r = k.2;
  core_owner n e : owner !! n = Some e → (entry_fetch e < length fs)%nat;
  core_entry n e : entries !! n = Some e → entry_ok (length fs) ops toks n e;
  core_pending f r : fs !! f = Some r → terminal r = None → TFetch f ∈ toks;
  core_flag f r : fs !! f = Some r → physical_observation_emitted r = bool_decide (is_Some (terminal r));
  core_tok_ops o : TImport o ∈ toks → (o < length ops)%nat;
  core_tok_once : NoDup (imports toks);
  core_results : results_ok fs results }.

Definition Inv (taken : list Result) (hand : list Completion) (w : World) : Prop :=
  Core (fetches w) (operations w) (requests w) (owner_fetches (state w)) (blocking_entries (state w))
    (url_fetches (state w)) (taken ++ ready_network_results (state w)) (tokens w hand).

Lemma elem_of_imports o l : o ∈ imports l ↔ TImport o ∈ l.
Proof.
  unfold imports. rewrite list_elem_of_omap. split.
  - intros ([]&?&?); naive_solver.
  - intros. eexists; split; [done | done].
Qed.

Lemma import_skips_fetch o f l : TImport o ∈ TFetch f :: l ↔ TImport o ∈ l.
Proof. rewrite elem_of_cons. split; [intros [[=]|?]; done | auto]. Qed.

Lemma imports_perm l k : l ≡ₚ k → imports l ≡ₚ imports k.
Proof. intros H. unfold imports. by rewrite H. Qed.

Lemma entry_ok_mono nf nf' ops ops' toks toks' n e :
  entry_ok nf ops toks n e → (nf ≤ nf')%nat → ops `prefix_of` ops' →
  (TImport (operation e) ∈ toks ↔ TImport (operation e) ∈ toks') → entry_ok nf' ops' toks' n e.
Proof.
  intros (id & Hid & Hn & Hr) Hf Ho Ht. exists id. split; [by eapply prefix_lookup_Some |]. split; [done |].
  destruct (resource e), (op_signature id); [lia | done | done | by rewrite <-Ht].
Qed.

Lemma core_perm fs ops reqs owner entries urls results toks toks' :
  toks ≡ₚ toks' → Core fs ops reqs owner entries urls results toks →
  Core fs ops reqs owner entries urls results toks'.
Proof.
  intros Hp []. split; try done.
  - intros n e He. eapply entry_ok_mono; [by eauto | done | done |]. by rewrite Hp.
  - intros. rewrite <-Hp. eauto.
  - intros o. rewrite <-Hp. eauto.
  - by rewrite <-(imports_perm _ _ Hp).
Qed.

Lemma core_new_operation fs ops reqs owner entries urls results toks id :
  Core fs ops reqs owner entries urls results toks →
  Core fs (ops ++ [id]) reqs owner entries urls results toks.
Proof.
  intros []. split; try done.
  - intros n e He. eapply entry_ok_mono; [by eauto | done | by eexists | done].
  - intros o Ho. rewrite length_app. simpl. specialize (core_tok_ops0 o Ho). lia.
Qed.

(** No entry and no token has a fresh operation. *)
Lemma core_op_bound fs ops reqs owner entries urls results toks n e :
  Core fs ops reqs owner entries urls results toks → entries !! n = Some e →
  (operation e < length ops)%nat.
Proof. intros H He. destruct (core_entry _ _ _ _ _ _ _ _ H n e He) as (id & Hid & _). by eapply lookup_lt_Some. Qed.

Lemma core_new_import fs ops reqs owner entries urls results toks id :
  Core fs ops reqs owner entries urls results toks →
  Core fs (ops ++ [id]) reqs owner entries urls results (TImport (length ops) :: toks).
Proof.
  intros H. pose proof H as []. split; try done.
  - intros n e He. pose proof (core_op_bound _ _ _ _ _ _ _ _ _ _ H He).
    eapply entry_ok_mono; [by eauto | done | by eexists |]. rewrite elem_of_cons.
    split; [auto | intros [[= ?]|?]; [lia | done]].
  - intros f r Hf Ht. right. eauto.
  - intros o [[= ->]|Ho]%elem_of_cons; rewrite length_app; simpl; [lia |].
    specialize (core_tok_ops0 o Ho). lia.
  - simpl. constructor; [| done]. rewrite elem_of_imports. intros Ho. specialize (core_tok_ops0 _ Ho). lia.
Qed.

Lemma results_ok_new fs results r : terminal r = None → results_ok fs results → results_ok (fs ++ [r]) results.
Proof.
  intros Hr []. split; [done | |].
  - intros f. rewrite results_finished0. split; intros (r' & Hf & Ht).
    + exists r'. split; [by apply lookup_app_l_Some | done].
    + apply lookup_app_Some in Hf as [Hf | [? Hf]]; [eauto |].
      apply list_lookup_singleton_Some in Hf as [_ ->]. rewrite Hr in Ht. by destruct Ht.
  - intros x f Hx Hf. destruct (results_content0 x f Hx Hf) as (r' & ? & ?). exists r'.
    split; [by apply lookup_app_l_Some | done].
Qed.

Lemma fetch_core_new_request fs ops reqs owner entries urls results toks (k : Key) (r : Request) :
  urls !! k = None → fetch_document_url r = k.1.2 → fetch_key r = k.2 → terminal r = None →
  physical_observation_emitted r = false →
  Core fs ops reqs owner entries urls results toks →
  Core (fs ++ [r]) ops (reqs ++ [(k, length fs)]) owner entries (<[k := length fs]> urls) results
    (TFetch (length fs) :: toks).
Proof.
  intros Hk Hd Hkey Ht Hflag []. split.
  - rewrite fmap_app, core_ids0, length_app, Nat.add_1_r, seq_S. done.
  - rewrite fmap_app. apply NoDup_app. split; [done |]. split; [| apply NoDup_singleton].
    intros k' Hk' ->%list_elem_of_singleton. apply list_elem_of_fmap in Hk' as ([k'' f] & Heq & Hin).
    simpl in Heq. subst k''. apply core_map0 in Hin. congruence.
  - intros k' f. rewrite lookup_insert_Some, elem_of_app, list_elem_of_singleton, core_map0.
    split; [naive_solver |]. intros [Hin | [= -> ->]]; [| by left]. right. split; [| done].
    intros <-. apply core_map0 in Hin. congruence.
  - intros k' f r'. rewrite elem_of_app, list_elem_of_singleton. intros [Hin | [= -> ->]] Hf.
    + apply lookup_app_Some in Hf as [Hf | [Hlen Hf]]; [eauto |].
      apply list_elem_of_fmap_2 with (f := snd) in Hin. rewrite core_ids0 in Hin.
      apply elem_of_seq in Hin. simpl in Hin. lia.
    + rewrite lookup_app_r in Hf by done. rewrite Nat.sub_diag in Hf. simplify_eq/=. done.
  - intros n e He. rewrite length_app. specialize (core_owner0 n e He). lia.
  - intros n e He. rewrite length_app.
    eapply entry_ok_mono; [by eauto | lia | done | by rewrite import_skips_fetch].
  - intros f r' Hf Hr'. apply elem_of_cons. apply lookup_app_Some in Hf as [Hf | [Hlen Hf]]; [eauto |].
    apply list_lookup_singleton_Some in Hf as [Hf _]. left. f_equal. lia.
  - intros f r' Hf. apply lookup_app_Some in Hf as [Hf | [_ Hf]]; [eauto |].
    apply list_lookup_singleton_Some in Hf as [_ ->]. rewrite Ht, Hflag. done.
  - intros o [[=]|Ho]%elem_of_cons. eauto.
  - done.
  - by apply results_ok_new.
Qed.

Lemma core_owner_insert fs ops reqs owner entries urls results toks n e :
  (entry_fetch e < length fs)%nat →
  Core fs ops reqs owner entries urls results toks →
  Core fs ops reqs (<[n := e]> owner) entries urls results toks.
Proof. intros He []. split; try done. intros n' e' [[_ <-]|[_ ?]]%lookup_insert_Some; [done | eauto]. Qed.

Lemma core_entry_insert fs ops reqs owner entries urls results toks n e :
  entry_ok (length fs) ops toks n e →
  Core fs ops reqs owner entries urls results toks →
  Core fs ops reqs owner (<[n := e]> entries) urls results toks.
Proof. intros He []. split; try done. intros n' e' [[<- <-]|[_ ?]]%lookup_insert_Some; [done | eauto]. Qed.

Lemma core_delete fs ops reqs owner entries urls results toks n :
  Core fs ops reqs owner entries urls results toks →
  Core fs ops reqs (delete n owner) (delete n entries) urls results toks.
Proof. intros []. split; try done; intros n' e' [_ ?]%lookup_delete_Some; eauto. Qed.

(** Applying the outcome of a fetch *)
Lemma finish_and_claim_spec (r : Request) t :
  physical_observation_emitted r = bool_decide (is_Some (terminal r)) →
  finish_and_claim r t =
    match terminal r with
    | Some _ => (false, r)
    | None => (true, mk_request (fetch_document_url r) (fetch_key r) (fetch_options r) (start_unix_millis r) (Some t) true)
    end.
Proof.
  intros Hf. unfold finish_and_claim, request_finish.
  destruct (terminal r) eqn:E; [done |]. unfold claim_physical_observation. simpl. by rewrite Hf.
Qed.

Definition observation (f : nat) (r : Request) (t : StylesheetFetchTerminal Response) : Result :=
  mk_network_result (Some f) None (fetch_document_url r) (fetch_request_url r) [] (start_unix_millis r) t.

Lemma results_ok_finish fs results f (r r' : Request) t :
  fs !! f = Some r → terminal r = None → terminal r' = Some t → fetch_document_url r' = fetch_document_url r →
  fetch_key r' = fetch_key r → start_unix_millis r' = start_unix_millis r →
  results_ok fs results → results_ok (<[f := r']> fs) (results ++ [observation f r' t]).
Proof.
  intros Hf Hr Hr' Hd Hk Hs []. pose proof (lookup_lt_Some _ _ _ Hf) as Hlt.
  assert (Hnew : f ∉ omap result_fetch results).
  { rewrite results_finished0. intros (r0 & Hr0 & Ht0). simplify_eq. rewrite Hr in Ht0. by destruct Ht0. }
  split.
  - rewrite omap_app. simpl. apply NoDup_app. split; [done |]. split; [| apply NoDup_singleton].
    intros f' Hf' ->%list_elem_of_singleton. done.
  - intros f'. rewrite omap_app. simpl. rewrite elem_of_app, list_elem_of_singleton, results_finished0.
    destruct (decide (f' = f)) as [->|Hne].
    + rewrite list_lookup_insert_eq by done. naive_solver.
    + rewrite list_lookup_insert_ne by done. naive_solver.
  - intros x f' [Hx | ->%list_elem_of_singleton]%elem_of_app Hxf.
    + rewrite list_lookup_insert_ne; [eauto |]. intros <-. apply Hnew. apply list_elem_of_omap. eauto.
    + simpl in Hxf. simplify_eq. rewrite list_lookup_insert_eq by done. exists r'. by split.
Qed.

Lemma core_finish_fetch fs ops reqs owner entries urls results toks f (r : Request) t :
  let r' := mk_request (fetch_document_url r) (fetch_key r) (fetch_options r) (start_unix_millis r) (Some t) true in
  fs !! f = Some r → terminal r = None →
  Core fs ops reqs owner entries urls results (TFetch f :: toks) →
  Core (<[f := r']> fs) ops reqs owner entries urls (results ++ [observation f r' t]) toks.
Proof.
  intros r' Hf Hr []. pose proof (lookup_lt_Some _ _ _ Hf) as Hlt. split; rewrite ?length_insert; try done.
  - intros k f' r0 Hin Hf'. apply list_lookup_insert_Some in Hf' as [(-> & <- & _)|[? ?]]; [| eauto].
    simpl. eauto.
  - intros n e He. eapply entry_ok_mono; [by eauto | done | done |]. by rewrite import_skips_fetch.
  - intros f' r0 Hf' Hr0. apply list_lookup_insert_Some in Hf' as [(-> & <- & _)|[Hne Hf']]; [done |].
    specialize (core_pending0 _ _ Hf' Hr0). apply elem_of_cons in core_pending0 as [[= ->]|?]; done.
  - intros f' r0 Hf'. apply list_lookup_insert_Some in Hf' as [(-> & <- & _)|[? ?]]; [done | eauto].
  - intros o Ho. apply core_tok_ops0. by right.
  - by apply results_ok_finish with (r := r).
Qed.

(** A completion for a finished object only leaves the work under way. *)
Lemma core_drop_fetch fs ops reqs owner entries urls results toks f :
  (∀ r, fs !! f = Some r → is_Some (terminal r)) →
  Core fs ops reqs owner entries urls results (TFetch f :: toks) →
  Core fs ops reqs owner entries urls results toks.
Proof.
  intros Hf []. split; try done.
  - intros n e He. eapply entry_ok_mono; [by eauto | done | done |]. by rewrite import_skips_fetch.
  - intros f' r Hr Ht. specialize (core_pending0 _ _ Hr Ht). apply elem_of_cons in core_pending0 as [[= ->]|?]; [| done].
    destruct (Hf r Hr) as [? ?]. congruence.
  - intros o Ho. apply core_tok_ops0. by right.
Qed.

(** Applying the outcome of an import graph *)
Lemma results_ok_imports fs results l :
  omap result_fetch l = [] → results_ok fs results → results_ok fs (results ++ l).
Proof.
  intros Hl []. split.
  - by rewrite omap_app, Hl, app_nil_r.
  - intros f. by rewrite omap_app, Hl, app_nil_r.
  - intros x f [Hx | Hx]%elem_of_app Hf; [eauto |].
    assert (f ∈ omap result_fetch l) as Hin by (apply list_elem_of_omap; eauto). rewrite Hl in Hin. set_solver.
Qed.

Lemma import_results_no_fetch op u owners l :
  omap result_fetch (import_results (Url := Url) (Response := Response) (Millis := Millis) op u owners l) = [].
Proof. induction l; [done | simpl; done]. Qed.

Lemma import_skips_other o o' l : o ≠ o' → TImport o ∈ TImport o' :: l ↔ TImport o ∈ l.
Proof. intros. rewrite elem_of_cons. split; [intros [[=]|?]; done | auto]. Qed.

(** The entries of other operations, and the work under way, after the
    completion of [o] has been taken. *)
Lemma core_drop_import fs ops reqs owner entries entries' urls results toks o l :
  (∀ n e, entries' !! n = Some e → (operation e ≠ o ∧ entries !! n = Some e) ∨
     (TImport o ∉ toks → entry_ok (length fs) ops toks n e)) →
  omap result_fetch l = [] →
  Core fs ops reqs owner entries urls results (TImport o :: toks) →
  Core fs ops reqs owner entries' urls (results ++ l) toks.
Proof.
  intros He Hl []. simpl in core_tok_once0. apply NoDup_cons in core_tok_once0 as [Ho Hnd].
  rewrite elem_of_imports in Ho. split; try done.
  - intros n e Hn. destruct (He n e Hn) as [[Hne Hn']|Hok]; [| auto].
    eapply entry_ok_mono; [by eauto | done | done |]. by apply import_skips_other.
  - intros f r Hf Hr. specialize (core_pending0 _ _ Hf Hr).
    apply elem_of_cons in core_pending0 as [[=]|?]; done.
  - intros o' Ho'. apply core_tok_ops0. by right.
  - by apply results_ok_imports.
Qed.

Lemma current_entry_Some (w : World) op node e :
  current_entry w op = Some (node, e) ↔
  ∃ id, operations w !! op = Some id ∧ op_node_id id = node ∧ blocking_entries (state w) !! node = Some e ∧
        operation e = op.
Proof.
  unfold current_entry, op_identity. destruct (operations w !! op) as [id|]; simpl; [| naive_solver].
  destruct (blocking_entries (state w) !! op_node_id id) as [e'|] eqn:E; simpl.
  - case_bool_decide; split.
    + intros [= <- <-]. eauto.
    + intros (id' & [= <-] & <- & Hl & _). rewrite Hl in E. by injection E as ->.
    + done.
    + intros (id' & [= <-] & <- & Hl & Hop). rewrite Hl in E. injection E as ->. done.
  - split; [done |]. intros (id' & [= <-] & <- & Hl & _). congruence.
Qed.

Lemma entry_is_current taken hand (w : World) n e :
  Inv taken hand w → blocking_entries (state w) !! n = Some e → current_entry w (operation e) = Some (n, e).
Proof.
  intros HI He. destruct (core_entry _ _ _ _ _ _ _ _ HI n e He) as (id & Hid & Hn & _).
  apply current_entry_Some. eauto.
Qed.

Lemma apply_import_inv taken hand (w : World) o g :
  Inv taken (StyleImports o g :: hand) w → Inv taken hand (apply_completion w (StyleImports o g)).2.
Proof.
  intros HI. pose proof HI as HC. unfold Inv in HC.
  assert (Hp : tokens w (StyleImports o g :: hand) ≡ₚ TImport o :: tokens w hand).
  { unfold tokens. rewrite !fmap_app. simpl. solve_Permutation. }
  apply (core_perm _ _ _ _ _ _ _ _ _ Hp) in HC.
  pose proof (core_tok_ops _ _ _ _ _ _ _ _ HC o ltac:(left)) as Hlt. apply lookup_lt_is_Some_2 in Hlt as [id Hid].
  unfold apply_completion, op_identity. rewrite Hid.
  destruct (current_entry w o) as [[node e]|] eqn:Hcur; unfold Inv; simpl; rewrite app_assoc;
    (eapply core_drop_import; [| apply import_results_no_fetch | exact HC]).
  - apply current_entry_Some in Hcur as (id' & Hid' & Hnode & Hent & Hop). rewrite Hid in Hid'. injection Hid' as <-.
    destruct (core_entry _ _ _ _ _ _ _ _ HC node e Hent) as (id' & Hid' & _ & Hres).
    rewrite Hop, Hid in Hid'. injection Hid' as <-.
    intros n e' [[<- <-]|[Hne Hn]]%lookup_insert_Some.
    + right. intros Hno. exists id. unfold complete_entry. rewrite <-Hop in Hno.
      destruct (resource e) eqn:Hr, (op_signature id) eqn:Hs; simpl; rewrite ?Hs, ?Hr; try done;
        (split_and!; [by rewrite ?Hop | done |]); [done |].
      destruct (successful g); split; intros; done.
    + left. split; [| done]. intros Hop'.
      destruct (core_entry _ _ _ _ _ _ _ _ HC n e' Hn) as (id' & Hid' & Hn' & _).
      rewrite Hop', Hid in Hid'. injection Hid' as <-. congruence.
  - intros n e' Hn. left. split; [| done]. intros Hop'. pose proof (entry_is_current _ _ _ _ _ HI Hn). congruence.
Qed.

Lemma apply_fetch_inv taken hand (w : World) f t :
  Inv taken (FetchCompletion f t :: hand) w → Inv taken hand (apply_completion w (FetchCompletion f t)).2.
Proof.
  intros HC. unfold Inv in HC.
  assert (Hp : tokens w (FetchCompletion f t :: hand) ≡ₚ TFetch f :: tokens w hand).
  { unfold tokens. rewrite !fmap_app. simpl. solve_Permutation. }
  apply (core_perm _ _ _ _ _ _ _ _ _ Hp) in HC. unfold apply_completion.
  destruct (fetches w !! f) as [r|] eqn:Hf.
  - rewrite finish_and_claim_spec by (by eapply core_flag in HC).
    destruct (terminal r) eqn:Hr; unfold Inv; simpl.
    + rewrite list_insert_id by done. eapply core_drop_fetch; [| exact HC].
      intros r' Hr'. rewrite Hf in Hr'. injection Hr' as <-. rewrite Hr. eauto.
    + rewrite app_assoc. by eapply core_finish_fetch.
  - eapply core_drop_fetch; [| exact HC]. simpl. intros r Hr. rewrite Hf in Hr. done.
Qed.

Lemma apply_inv taken hand (w : World) c :
  Inv taken (c :: hand) w → Inv taken hand (apply_completion w c).2.
Proof. destruct c; [apply apply_fetch_inv | apply apply_import_inv]. Qed.

(** ** How a state can change *)

(** A decided resource stays decided. *)
Definition settles (a b : StylesheetBlockingResource (Url := Url) (Response := Response) (Millis := Millis)) : Prop :=
  match a, b with
  | LinkResource f, LinkResource f' => f = f'
  | ImportsResource s _, ImportsResource s' _ => s ≠ Pending → s' = s
  | _, _ => False
  end.

Definition same_request (r r' : Request) : Prop :=
  fetch_document_url r' = fetch_document_url r ∧ fetch_key r' = fetch_key r ∧
  fetch_options r' = fetch_options r ∧ start_unix_millis r' = start_unix_millis r ∧
  ∀ t, terminal r = Some t → terminal r' = Some t.

(** Operations and objects are only added, outcomes are written once, and a
    node's entry is the one it had or one of a new operation. *)
Record evolves (w w' : World) : Prop := {
  ev_ops : operations w `prefix_of` operations w';
  ev_entries n e' : blocking_entries (state w') !! n = Some e' →
    (length (operations w) ≤ operation e')%nat ∨
    ∃ e, blocking_entries (state w) !! n = Some e ∧ operation e = operation e' ∧ settles (resource e) (resource e');
  ev_fetches f r : fetches w !! f = Some r → ∃ r', fetches w' !! f = Some r' ∧ same_request r r';
  ev_requests : requests w `prefix_of` requests w' }.

Lemma settles_refl a : settles a a.
Proof. by destruct a. Qed.

Lemma settles_trans a b c : settles a b → settles b c → settles a c.
Proof.
  destruct a, b; simpl; try done; destruct c; simpl; try done; [congruence |].
  intros H1 H2 Hs. specialize (H1 Hs). subst. auto.
Qed.

Lemma same_request_refl r : same_request r r.
Proof. by repeat split. Qed.

#[export] Instance evolves_refl : Reflexive evolves.
Proof.
  intros w. split; [done | | | done].
  - intros n e He. right. exists e. auto using settles_refl.
  - intros f r Hf. exists r. auto using same_request_refl.
Qed.

#[export] Instance evolves_trans : Transitive evolves.
Proof.
  intros w1 w2 w3 [Ho1 He1 Hf1 Hr1] [Ho2 He2 Hf2 Hr2]. split; [by etrans | | | by etrans].
  - intros n e3 H3. destruct (He2 n e3 H3) as [Hge | (e2 & H2 & Hop & Hs)].
    + left. apply prefix_length in Ho1. lia.
    + destruct (He1 n e2 H2) as [Hge | (e1 & H1 & Hop' & Hs')]; [left; lia |].
      right. exists e1. split_and!; [done | congruence | by eapply settles_trans].
  - intros f r Hf. destruct (Hf1 f r Hf) as (r1 & Hr1' & (?&?&?&?&Ht1)).
    destruct (Hf2 f r1 Hr1') as (r2 & Hr2' & (?&?&?&?&Ht2)). exists r2. split; [done |].
    repeat split; try congruence. auto.
Qed.

(** Steps that touch neither objects nor entries. *)
Lemma evolves_same (w w' : World) :
  operations w `prefix_of` operations w' → blocking_entries (state w') = blocking_entries (state w) →
  fetches w `prefix_of` fetches w' → requests w `prefix_of` requests w' → evolves w w'.
Proof.
  intros Ho He Hf Hr. split; [done | | | done].
  - intros n e'. rewrite He. intros. right. exists e'. auto using settles_refl.
  - intros f r Hfr. exists r. split; [by eapply prefix_lookup_Some | apply same_request_refl].
Qed.

(** One call, or a part of one: from a good state to a good state. *)
Definition good_move (taken : list Result) (hand : list Completion) (w w' : World) : Prop :=
  Inv taken hand w → Inv taken hand w' ∧ evolves w w'.

Lemma good_move_trans taken hand w1 w2 w3 :
  good_move taken hand w1 w2 → good_move taken hand w2 w3 → good_move taken hand w1 w3.
Proof. intros H1 H2 HI. destruct (H1 HI) as [HI2 He1]. destruct (H2 HI2) as [HI3 He2]. split; [done | by etrans]. Qed.

Lemma good_move_refl taken hand w : good_move taken hand w w.
Proof. by intros HI. Qed.

(** *** Loads *)
Lemma resource_key_request_url (o : StylesheetFetchOptions) (u : Url) :
  resource_key o (request_url_without_fragment (resource_key o u)) = resource_key o u.
Proof.
  unfold resource_key. destruct (request_mode_and_credentials o). simpl. by rewrite without_fragment_idemp.
Qed.

Lemma requests_spawn (w : World) fetcher wk :
  requests (spawn w fetcher wk) =
    requests w ++ match resource_request (mk_task fetcher wk (completion_wake (state w)) (completion_publisher (state w)) false) with
                  | Some r => [r] | None => [] end.
Proof. unfold requests, spawn. simpl. rewrite omap_app. simpl. by destruct wk. Qed.

Lemma tokens_spawn (w : World) hand fetcher wk :
  tokens (spawn w fetcher wk) hand ≡ₚ
    match wk with FetchResource f _ _ _ => TFetch f | FetchImportGraph o _ _ => TImport o end :: tokens w hand.
Proof.
  unfold tokens, spawn. simpl. rewrite omap_app. unfold token_of_task at 2. simpl. solve_Permutation.
Qed.

Lemma ensure_resource_good taken hand (w w' : World) fetcher now d u o f :
  ensure_resource w fetcher now d u o = (f, w') →
  good_move taken hand w w' ∧ (Inv taken hand w → (f < length (fetches w'))%nat).
Proof.
  unfold ensure_resource. destruct (url_fetches (state w) !! _) as [f0|] eqn:Hk.
  - intros [= <- <-]. split; [apply good_move_refl |]. intros HI.
    apply (core_map _ _ _ _ _ _ _ _ HI) in Hk. apply list_elem_of_fmap_2 with (f := snd) in Hk.
    rewrite (core_ids _ _ _ _ _ _ _ _ HI) in Hk. apply elem_of_seq in Hk. simpl in Hk. lia.
  - intros [= <- <-]. split; [| intros _; simpl; rewrite length_app; simpl; lia].
    intros HI. split.
    + unfold Inv. rewrite requests_spawn. simpl.
      eapply core_perm; [symmetry; apply tokens_spawn |]. rewrite resource_key_request_url.
      eapply fetch_core_new_request; [done | done | apply resource_key_request_url | done | done |]. exact HI.
    + apply evolves_same; [done | done | by eexists |]. rewrite requests_spawn. by eexists.
Qed.

Lemma owner_entry_bound taken hand (w : World) fetcher n u o f :
  Inv taken hand w → owner_entry_fetch w fetcher n u o = Some f → (f < length (fetches w))%nat.
Proof.
  intros HI. unfold owner_entry_fetch. destruct (owner_fetches (state w) !! n) as [e|] eqn:He; simpl; [| done].
  destruct (_ && _); [| done]. intros [= <-]. by eapply core_owner in HI.
Qed.

Lemma ensure_owner_good taken hand (w w' : World) fetcher now n d u o f :
  ensure_owner_fetch w fetcher now n d u o = (f, w') →
  good_move taken hand w w' ∧ (Inv taken hand w → (f < length (fetches w'))%nat).
Proof.
  unfold ensure_owner_fetch. destruct (owner_entry_fetch w fetcher n u o) as [f0|] eqn:Hf.
  - intros [= <- <-]. split; [apply good_move_refl |]. intros HI. by eapply owner_entry_bound.
  - destruct (ensure_resource w fetcher now d u o) as [f1 w1] eqn:Hr. intros [= <- <-].
    destruct (ensure_resource_good taken hand _ _ _ _ _ _ _ _ Hr) as [Hm Hlt]. split; [| done].
    intros HI. destruct (Hm HI) as [HI1 Hev]. split.
    + unfold Inv. simpl. apply core_owner_insert; [by apply Hlt | exact HI1].
    + etrans; [exact Hev |]. by apply evolves_same.
Qed.

Lemma ensure_owner_frame (w w' : World) fetcher now n d u o f :
  ensure_owner_fetch w fetcher now n d u o = (f, w') →
  operations w' = operations w ∧ blocking_entries (state w') = blocking_entries (state w).
Proof.
  unfold ensure_owner_fetch, ensure_resource. destruct (owner_entry_fetch w fetcher n u o); [by intros [= <- <-] |].
  destruct (url_fetches (state w) !! _); intros [= <- <-]; done.
Qed.

(** *** Entries *)
Definition put_entry (w : World) (n : N) (e : Entry) : World :=
  set_state w (set_blocking_entries (state w) (<[n := e]> (blocking_entries (state w)))).

Lemma evolves_put (w w' : World) n e :
  evolves w w' → (length (operations w) ≤ operation e)%nat → evolves w (put_entry w' n e).
Proof.
  intros [Ho He Hf Hr] Hge. split; [done | | done | done].
  intros n' e'. simpl. intros [[_ <-]|[_ Hn]]%lookup_insert_Some; [by left | auto].
Qed.

Lemma put_entry_inv taken hand (w : World) n e :
  Inv taken hand w → entry_ok (length (fetches w)) (operations w) (tokens w hand) n e →
  Inv taken hand (put_entry w n e).
Proof. intros HI He. unfold Inv. simpl. by apply core_entry_insert. Qed.

Lemma operation_new_good taken hand (w : World) n d sg :
  good_move taken hand w (operation_new w n d sg).2.
Proof.
  intros HI. split; [by apply core_new_operation |]. apply evolves_same; [by eexists | done..].
Qed.

Lemma rebind_good taken hand (w : World) n d u o f :
  (Inv taken hand w → (f < length (fetches w))%nat) → good_move taken hand w (rebind_blocking_link w n d u o f).
Proof.
  intros Hf. unfold rebind_blocking_link.
  destruct (blocking_entries (state w) !! n) as [e|]; [| apply good_move_refl].
  destruct (entry_signature w e) as [[u' o'|]|], (resource e) as [f'|]; try apply good_move_refl.
  destruct (_ || _); [apply good_move_refl |]. intros HI.
  destruct (operation_new_good taken hand w n d (Link u o) HI) as [HI' Hev]. simpl in *. split.
  - apply (put_entry_inv _ _ _ n (mk_entry (length (operations w)) (LinkResource f)) HI').
    exists (mk_identity n d (Link u o)). simpl. rewrite lookup_app_r, Nat.sub_diag by done. auto.
  - exact (evolves_put _ _ n (mk_entry (length (operations w)) (LinkResource f)) Hev (le_n _)).
Qed.

Lemma discover_input_good taken hand (w : World) fetcher now d n sg :
  good_move taken hand w (discover_input w fetcher now d n sg).
Proof.
  unfold discover_input.
  destruct (match blocking_entries (state w) !! n with Some _ => _ | None => _ end); [apply good_move_refl |].
  destruct sg as [u o|urls]; simpl.
  - set (w1 := set_operations w _). intros HI.
    destruct (operation_new_good taken hand w n d (Link u o) HI) as [HI1 Hev1]. fold w1 in HI1, Hev1.
    destruct (ensure_owner_fetch w1 fetcher now n d u o) as [f w2] eqn:Hen.
    destruct (ensure_owner_good taken hand _ _ _ _ _ _ _ _ _ Hen) as [Hm Hlt].
    destruct (ensure_owner_frame _ _ _ _ _ _ _ _ _ Hen) as [Hops _].
    destruct (Hm HI1) as [HI2 Hev2]. split.
    + apply (put_entry_inv _ _ _ n (mk_entry (length (operations w)) (LinkResource f)) HI2).
      exists (mk_identity n d (Link u o)). simpl. rewrite Hops. simpl.
      rewrite lookup_app_r, Nat.sub_diag by done. auto.
    + apply (evolves_put w w2 n (mk_entry (length (operations w)) (LinkResource f))); [by etrans | done].
  - intros HI. set (w1 := spawn_style_import_operation _ _ _ _ _).
    set (id := mk_identity n d (ParserCreatedStyleImport urls)).
    assert (Htok : tokens w1 hand ≡ₚ TImport (length (operations w)) :: tokens w hand)
      by (etrans; [apply tokens_spawn | done]).
    assert (HI1 : Inv taken hand w1).
    { unfold Inv, w1, spawn_style_import_operation. rewrite requests_spawn. simpl. rewrite app_nil_r.
      eapply core_perm; [symmetry; exact Htok |]. by apply core_new_import. }
    assert (Hev : evolves w w1).
    { apply evolves_same; [by eexists | done | done |]. unfold w1, spawn_style_import_operation.
      rewrite requests_spawn. by eexists. }
    split.
    + apply (put_entry_inv _ _ _ n (mk_entry (length (operations w)) (ImportsResource Pending None)) HI1).
      exists id. simpl. rewrite lookup_app_r, Nat.sub_diag by done. split_and!; [done.. |].
      rewrite Htok. split; [intros; by left | done].
    + by apply (evolves_put w w1 n (mk_entry (length (operations w)) (ImportsResource Pending None))).
Qed.

Lemma discover_fold_good taken hand {A} (node : A → N) (sig : A → _) (l : list A) (w : World) fetcher now d :
  good_move taken hand w (foldl (λ w x, discover_input w fetcher now d (node x) (sig x)) w l).
Proof.
  revert w. induction l as [|x l IH]; intros w; simpl; [apply good_move_refl |].
  eapply good_move_trans; [apply discover_input_good | apply IH].
Qed.

Lemma discover_document_good taken hand (w w' : World) fetcher now doc :
  discover_from_document w fetcher now doc = Ret w' → good_move taken hand w w'.
Proof.
  unfold discover_from_document. intros H. apply run_bind_Ret in H as (d & _ & [= <-]).
  apply discover_fold_good.
Qed.

Lemma link_load_good taken hand (w w' : World) fetcher now n d u o f :
  discover_link_url w fetcher now n d u o = (f, w') ∨ adopt_or_begin_link_load w fetcher now n d u o = (f, w') →
  good_move taken hand w w'.
Proof.
  assert (Hlink : discover_link_url w fetcher now n d u o = (f, w') → good_move taken hand w w').
  { unfold discover_link_url. destruct (ensure_owner_fetch w fetcher now n d u o) as [f1 w1] eqn:Hen.
    intros [= <- <-]. destruct (ensure_owner_good taken hand _ _ _ _ _ _ _ _ _ Hen) as [Hm Hlt].
    intros HI. apply (good_move_trans _ _ w w1); [done | | done]. apply rebind_good. intros _. by apply Hlt. }
  intros [H|H]; [auto |]. unfold adopt_or_begin_link_load in H.
  destruct (owner_entry_fetch w fetcher n u o); [| by apply Hlink].
  injection H as _ <-. apply good_move_refl.
Qed.

(** *** Completions *)
Lemma apply_frame (w : World) c :
  let w' := (apply_completion w c).2 in
  tasks w' = tasks w ∧ published w' = published w ∧ operations w' = operations w ∧
  completion_source (state w') = completion_source (state w) ∧ owner_fetches (state w') = owner_fetches (state w) ∧
  url_fetches (state w') = url_fetches (state w).
Proof.
  destruct c as [f t|o g]; simpl.
  - destruct (fetches w !! f) as [r|]; [| done]. by destruct (finish_and_claim r t) as [[] ?].
  - destruct (op_identity w o) as [id|]; [| done]. by destruct (current_entry w o) as [[? ?]|].
Qed.

Lemma finish_and_claim_same (r : Request) t : same_request r (finish_and_claim r t).2.
Proof.
  unfold finish_and_claim, request_finish. destruct (terminal r) eqn:E; simpl; [apply same_request_refl |].
  repeat split. intros ?. congruence.
Qed.

Lemma apply_fetch_evolves (w : World) f t : evolves w (apply_completion w (FetchCompletion f t)).2.
Proof.
  simpl. destruct (fetches w !! f) as [r|] eqn:Hf; [| done].
  pose proof (finish_and_claim_same r t) as Hs. destruct (finish_and_claim r t) as [first r']. simpl in *.
  assert (H : evolves w (set_fetches w (<[f := r']> (fetches w)))).
  { split; [done | | | done].
    - intros n e He. right. exists e. auto using settles_refl.
    - intros f' r0 Hr0. simpl. destruct (decide (f' = f)) as [->|Hne].
      + rewrite Hf in Hr0. injection Hr0 as <-. exists r'. split; [| done].
        apply list_lookup_insert_eq. by eapply lookup_lt_Some.
      + exists r0. rewrite list_lookup_insert_ne by done. auto using same_request_refl. }
  destruct first; [| exact H]. etrans; [exact H |]. by apply evolves_same.
Qed.

Lemma apply_import_evolves taken hand (w : World) o g :
  Inv taken (StyleImports o g :: hand) w → evolves w (apply_completion w (StyleImports o g)).2.
Proof.
  intros HI. simpl. destruct (op_identity w o) as [id|] eqn:Hid; [| done].
  destruct (current_entry w o) as [[node e]|] eqn:Hcur; [| by apply evolves_same].
  apply current_entry_Some in Hcur as (id' & Hid' & Hnode & Hent & Hop).
  split; [done | | | done].
  - intros n e'. simpl. intros [[<- <-]|[_ Hn]]%lookup_insert_Some.
    + right. exists e. split; [done |]. unfold complete_entry.
      destruct (core_entry _ _ _ _ _ _ _ _ HI node e Hent) as (id'' & _ & _ & Hres).
      destruct (resource e) as [f|s0 g0] eqn:Hr; [rewrite Hr; auto using settles_refl |].
      split; [done |]. simpl. intros Hs. destruct (op_signature id''); [done |].
      exfalso. apply Hs, Hres. unfold tokens. rewrite !fmap_app, Hop. set_solver.
    + right. exists e'. auto using settles_refl.
  - intros f r Hf. exists r. auto using same_request_refl.
Qed.

Lemma apply_good taken hand (w : World) c :
  Inv taken (c :: hand) w → Inv taken hand (apply_completion w c).2 ∧ evolves w (apply_completion w c).2.
Proof.
  intros HI. split; [by apply apply_inv |]. destruct c; [apply apply_fetch_evolves | by eapply apply_import_evolves].
Qed.

Lemma pop_items (w : World) c q :
  Task.pop_front (completion_source (state w)) = (c, q) →
  let w' := set_state w (set_completion_source (state w) q) in
  match c with
  | Some c => source_items (state w) = c :: source_items (state w')
  | None => source_items (state w) = [] ∧ source_items (state w') = []
  end.
Proof.
  destruct (Task.pop_front_order (completion_source (state w))) as [-> _]. intros [= <- <-]. simpl.
  unfold source_items. simpl. destruct (_ ++ _ ++ _) as [|c l]; simpl; [done |].
  by rewrite app_nil_r.
Qed.

Lemma pop_inv taken hand (w : World) c q :
  Task.pop_front (completion_source (state w)) = (Some c, q) →
  Inv taken hand w → Inv taken (c :: hand) (set_state w (set_completion_source (state w) q)).
Proof.
  intros Hpop HI. pose proof (pop_items w _ _ Hpop) as Hit. simpl in Hit.
  eapply core_perm; [| exact HI]. unfold tokens. rewrite Hit. simpl. rewrite !fmap_app. simpl. solve_Permutation.
Qed.

(** A drain returns, applies all that was queued, and is a good move. *)
Lemma drain_loop_good taken hand fuel (w : World) done_ :
  (length (source_items (state w)) < fuel)%nat → Inv taken hand w →
  ∃ fs w', drain_loop fuel w done_ = Ret (fs, w') ∧ Inv taken hand w' ∧ evolves w w' ∧
    source_items (state w') = [] ∧ tasks w' = tasks w ∧ published w' = published w.
Proof.
  revert w done_. induction fuel as [|fuel IH]; intros w done_ Hlt HI; [lia |].
  cbn [drain_loop]. cbv zeta. destruct (Task.pop_front (completion_source (state w))) as [[c|] q] eqn:Hpop.
  - pose proof (pop_items w _ _ Hpop) as Hit. simpl in Hit. rewrite Hit in Hlt. simpl in Hlt.
    pose proof (pop_inv _ _ _ _ _ Hpop HI) as HI1. set (w1 := set_state w _) in *.
    destruct (apply_good _ _ _ _ HI1) as [HI2 Hev2].
    destruct (apply_frame w1 c) as (Ht & Hpub & _ & Hq & _).
    destruct (apply_completion w1 c) as [f w2]. simpl in *.
    destruct (IH w2 (done_ ++ match f with Some f => [f] | None => [] end)) 
      as (fs & w' & Heq & HI' & Hev' & Hs' & Ht' & Hp').
    { unfold source_items at 1. rewrite Hq. unfold source_items in Hlt. simpl in *. lia. }
    { done. }
    exists fs, w'. split_and!; [exact Heq | done | | done | congruence | congruence].
    etrans; [| exact Hev']. etrans; [| exact Hev2]. by apply evolves_same.
  - pose proof (pop_items w _ _ Hpop) as [Hit Hit']. simpl in Hit'.
    exists done_, (set_state w (set_completion_source (state w) q)). split_and!; [done | | by apply evolves_same | done..].
    eapply core_perm; [| exact HI]. unfold tokens. simpl. by rewrite Hit, Hit'.
Qed.

Lemma drain_good taken hand (w : World) :
  Inv taken hand w →
  ∃ fs w', drain_ready_completions w = Ret (fs, w') ∧ Inv taken hand w' ∧ evolves w w' ∧
    source_items (state w') = [] ∧ tasks w' = tasks w ∧ published w' = published w.
Proof. intros HI. apply drain_loop_good; [lia | done]. Qed.

Lemma source_items_post (s : StylesheetBlockingState (Url := Url) (Response := Response) (Millis := Millis)
    (Wake := Wake) (Publisher := Publisher)) c :
  source_items (set_completion_source s (Task.post (completion_source s) c)) = source_items s ++ [c].
Proof. unfold source_items, Task.wake_items. simpl. by rewrite !app_assoc. Qed.

Definition end_task (t : TaskT) : TaskT := mk_task (task_fetcher t) (work t) (task_wake t) (task_publisher t) true.

Lemma resource_request_end t : resource_request (end_task t) = resource_request t.
Proof. done. Qed.

(** A completion handed over joins the work under way. *)
Lemma deliver_tokens (w : World) hand t c :
  tokens (deliver w t c) hand ≡ₚ token_of_completion c :: tokens w hand.
Proof.
  unfold deliver, tokens. destruct (task_publisher t); simpl.
  - rewrite !fmap_app. simpl. solve_Permutation.
  - rewrite source_items_post, !fmap_app. simpl. solve_Permutation.
Qed.

Lemma end_task_tokens (w : World) hand i t tok :
  tasks w !! i = Some t → token_of_task t = Some tok →
  tok :: tokens (set_tasks w (<[i := end_task t]> (tasks w))) hand ≡ₚ tokens w hand ∧
  requests (set_tasks w (<[i := end_task t]> (tasks w))) = requests w.
Proof.
  intros Hi Ht. unfold tokens, requests. simpl.
  rewrite (insert_take_drop (tasks w) i) by (by eapply lookup_lt_Some).
  rewrite <-(take_drop_middle _ _ _ Hi) at 3 6. rewrite !omap_app. simpl. rewrite Ht.
  split; [solve_Permutation |]. by rewrite resource_request_end.
Qed.

Lemma deliver_inv taken hand (w : World) t c tok :
  token_of_completion c = tok →
  Core (fetches w) (operations w) (requests w) (owner_fetches (state w)) (blocking_entries (state w))
    (url_fetches (state w)) (taken ++ ready_network_results (state w)) (tok :: tokens w hand) →
  Inv taken hand (deliver w t c).
Proof.
  intros <- HC. eapply core_perm in HC; [| symmetry; apply (deliver_tokens w hand t c)].
  unfold Inv, deliver in *. by destruct (task_publisher t).
Qed.

Lemma finish_task_good taken hand (w : World) i a : good_move taken hand w (finish_task w i a).
Proof.
  unfold finish_task. destruct (tasks w !! i) as [t|] eqn:Hi; [| apply good_move_refl].
  destruct (finished t) eqn:Hfin; [apply good_move_refl |]. fold (end_task t).
  assert (Hgo : ∀ tok c, token_of_task t = Some tok → token_of_completion c = tok →
    good_move taken hand w (deliver (set_tasks w (<[i := end_task t]> (tasks w))) t c)).
  { intros tok c Htok Hc HI. destruct (end_task_tokens w hand i t tok Hi Htok) as [Hp Hreq]. split.
    - eapply deliver_inv; [exact Hc |]. eapply core_perm; [symmetry; exact Hp |]. rewrite Hreq. exact HI.
    - apply evolves_same; unfold deliver; destruct (task_publisher t); try done; simpl.
      all: unfold requests in *; simpl in *; by rewrite Hreq. }
  destruct (work t) eqn:Hw, a; try apply good_move_refl;
    (eapply Hgo; [unfold token_of_task; rewrite Hfin, Hw; reflexivity | done]).
Qed.

Lemma finish_tasks_good taken hand (ended : list (nat * StylesheetAnswer)) (w : World) :
  good_move taken hand w (foldl (λ w '(i, a), finish_task w i a) w ended).
Proof.
  revert w. induction ended as [|[i a] ended IH]; intros w; simpl; [apply good_move_refl |].
  eapply good_move_trans; [apply finish_task_good | apply IH].
Qed.

Lemma invalidate_good taken hand (w : World) n : good_move taken hand w (invalidate_node w n).
Proof.
  intros HI. split; [by apply core_delete |]. split; [done | | | done].
  - intros n' e'. simpl. intros [_ He]%lookup_delete_Some. right. exists e'. auto using settles_refl.
  - intros f r Hf. exists r. auto using same_request_refl.
Qed.

Lemma take_graph_good taken hand (w : World) op :
  good_move taken hand w (take_completed_import_graph_for_blocking_operation w op).2.
Proof.
  unfold take_completed_import_graph_for_blocking_operation.
  destruct (current_entry w op) as [[node e]|] eqn:Hcur; [| apply good_move_refl].
  destruct (resource e) as [f|s g] eqn:Hr; [apply good_move_refl |].
  apply current_entry_Some in Hcur as (id & Hid & Hnode & He & Hop). intros HI. split.
  - apply (put_entry_inv _ _ _ node (mk_entry (operation e) (ImportsResource s None)) HI).
    destruct (core_entry _ _ _ _ _ _ _ _ HI node e He) as (id' & Hid' & Hn' & Hres). exists id'.
    rewrite Hr in Hres. simpl. auto.
  - split; [done | | | done].
    + intros n e'. simpl. intros [[<- <-]|[_ Hn]]%lookup_insert_Some; right.
      * exists e. rewrite Hr. simpl. auto.
      * exists e'. auto using settles_refl.
    + intros f r Hf. exists r. auto using same_request_refl.
Qed.

Lemma core_add_fetch_token fs ops reqs owner entries urls results toks f :
  Core fs ops reqs owner entries urls results toks →
  Core fs ops reqs owner entries urls results (TFetch f :: toks).
Proof.
  intros []. split; try done.
  - intros n e He. eapply entry_ok_mono; [by eauto | done | done |]. by rewrite import_skips_fetch.
  - intros f' r Hf Hr. right. eauto.
  - intros o Ho%import_skips_fetch. eauto.
Qed.

Lemma testing_good taken hand (w w' : World) n u b r :
  enqueue_completion_for_testing w n u b r = Ret w' → good_move taken hand w w'.
Proof.
  unfold enqueue_completion_for_testing. intros H. inv_run. case_bool_decide; [done |].
  set (c := FetchCompletion _ _) in H.
  assert (Hadd : ∀ toks, toks ≡ₚ token_of_completion c :: tokens w hand → Inv taken hand w →
    Core (fetches w) (operations w) (requests w) (owner_fetches (state w)) (blocking_entries (state w))
      (url_fetches (state w)) (taken ++ ready_network_results (state w)) toks).
  { intros toks Hp HI. eapply core_perm; [symmetry; exact Hp |]. by apply core_add_fetch_token. }
  destruct (completion_publisher (state w)); injection H as <-; intros HI;
    (split; [apply Hadd; [| exact HI] | by apply evolves_same]); unfold tokens; simpl.
  - rewrite !fmap_app. simpl. solve_Permutation.
  - rewrite source_items_post, !fmap_app. simpl. solve_Permutation.
Qed.

Lemma wait_items (q q' : Task.OwnerTaskSource (T := Completion)) :
  Task.wait_for_arrival q [] = Some q' →
  Task.wake_items (Task.parser_boundary_wake q') ++ Task.tasks q' ++ Task.wake_items (Task.wake q') =
  Task.wake_items (Task.parser_boundary_wake q) ++ Task.tasks q ++ Task.wake_items (Task.wake q).
Proof.
  unfold Task.wait_for_arrival. rewrite Task.drain_wake_tasks.
  set (all := _ ++ _ ++ _). simpl. destruct all as [|c l]; [done |]. intros [= <-]. simpl. by rewrite app_nil_r.
Qed.

Lemma wait_arrival_good taken hand (w w' : World) :
  wait_for_completion_arrival w = Some w' → good_move taken hand w w' ∧ tasks w' = tasks w ∧ published w' = published w.
Proof.
  unfold wait_for_completion_arrival.
  destruct (Task.wait_for_arrival (completion_source (state w)) []) as [q|] eqn:Hq; simpl; [| done].
  intros [= <-]. split; [| done]. intros HI. split; [| by apply evolves_same].
  eapply core_perm; [| exact HI]. unfold tokens, source_items. simpl. by rewrite (wait_items _ _ Hq).
Qed.

(** *** Waiting for blockers *)
Lemma wait_loop_good taken schedule blockers (w : World) :
  Inv taken [] w →
  ∃ b w', wait_loop schedule blockers w = Ret (b, w') ∧ Inv taken [] w' ∧ evolves w w'.
Proof.
  revert w. induction schedule as [|ended schedule IH]; intros w HI; cbn [wait_loop];
    destruct (drain_good _ _ _ HI) as (fs & w1 & -> & HI1 & Hev1 & _); cbn [mbind run_bind];
    destruct (blocks_on_blockers w1 blockers); simpl; eauto.
  set (w2 := foldl _ w1 ended). destruct (finish_tasks_good taken [] ended w1 HI1) as [HI2 Hev2]. fold w2 in HI2, Hev2.
  assert (H3 : good_move taken [] w2 (default w2 (wait_for_completion_arrival w2))).
  { destruct (wait_for_completion_arrival w2) eqn:E; simpl; [by apply wait_arrival_good | apply good_move_refl]. }
  destruct (H3 HI2) as [HI3 Hev3]. destruct (IH _ HI3) as (b & w' & -> & HI' & Hev').
  exists b, w'. split_and!; [done | done |]. do 3 (etrans; [eassumption |]). done.
Qed.

(** ** Histories *)
Inductive Call :=
  | CDiscoverDocument (fetcher : F) (now : Millis) (document : StylesheetBlockingReadView Url)
  | CDiscoverInputs (fetcher : F) (now : Millis) (document_url : Url)
      (inputs : list (DocumentOwnedStylesheetDiscoveryInput Url))
  | CDiscoverLink (fetcher : F) (now : Millis) (node : N) (document_url url : Url) (options : StylesheetFetchOptions)
  | CAdoptLink (fetcher : F) (now : Millis) (node : N) (document_url url : Url) (options : StylesheetFetchOptions)
  | CPreload (fetcher : F) (now : Millis) (document_url url : Url) (options : StylesheetFetchOptions)
  | CWaitForBlockers (fetcher : F) (now : Millis) (document : StylesheetBlockingReadView Url) (target : N)
      (schedule : list (list (nat * StylesheetAnswer (Url := Url) (Response := Response) (Millis := Millis))))
  | CStatus (node : N) (url : Url)
  | CStatusForFetch (fetch : nat)
  | CDrain
  | CInvalidate (node : N)
  | CSetWake (k : option Wake)
  | CSetPublisher (p : option Publisher)
  | CApplyPublished (i : nat)
  | CTakeGraph (op : nat)
  | CTakeResults
  | CWaitArrival
  | CEnqueueForTesting (node : N) (url : Url) (success : bool) (sample : Response)
  | CTaskEnds (i : nat) (a : StylesheetAnswer (Url := Url) (Response := Response) (Millis := Millis)).

Definition set_published (w : World) (l : list (Publisher * Completion)) : World :=
  mk_world (fetches w) (operations w) (tasks w) l (wakes w) (state w).

(** The world after a call, and the network results the call hands out.  A
    published completion is moved out of the list to be applied. *)
Definition step (w : World) (c : Call) : run (World * list Result) :=
  match c with
  | CDiscoverDocument fetcher now document => (λ w, (w, [])) <$> discover_from_document w fetcher now document
  | CDiscoverInputs fetcher now d inputs => Ret (discover_from_inputs w fetcher now d inputs, [])
  | CDiscoverLink fetcher now n d u o => Ret ((discover_link_url w fetcher now n d u o).2, [])
  | CAdoptLink fetcher now n d u o => Ret ((adopt_or_begin_link_load w fetcher now n d u o).2, [])
  | CPreload fetcher now d u o => Ret ((preload_stylesheet w fetcher now d u o).2, [])
  | CWaitForBlockers fetcher now document target schedule =>
      (λ r, (r.2, [])) <$> wait_for_blockers_before w fetcher now document target schedule
  | CStatus n u => (λ r, (r.2, [])) <$> status w n u
  | CStatusForFetch f => (λ r, (r.2, [])) <$> status_for_fetch w f
  | CDrain => (λ r, (r.2, [])) <$> drain_ready_completions w
  | CInvalidate n => Ret (invalidate_node w n, [])
  | CSetWake k => Ret (set_completion_wake w k, [])
  | CSetPublisher p => Ret (set_completion_publisher w p, [])
  | CApplyPublished i =>
      match published w !! i with
      | None => Ret (w, [])
      | Some (_, c) => Ret ((apply_completion (set_published w (delete i (published w))) c).2, [])
      end
  | CTakeGraph op => Ret ((take_completed_import_graph_for_blocking_operation w op).2, [])
  | CTakeResults => let '(l, w) := take_ready_network_results w in Ret (w, l)
  | CWaitArrival => Ret (default w (wait_for_completion_arrival w), [])
  | CEnqueueForTesting n u b r => (λ w, (w, [])) <$> enqueue_completion_for_testing w n u b r
  | CTaskEnds i a => Ret (finish_task w i a, [])
  end.

Fixpoint run_calls (w : World) (calls : list Call) : run (World * list Result) :=
  match calls with
  | [] => Ret (w, [])
  | c :: calls =>
      '(w, out) ← step w c;
      '(w, outs) ← run_calls w calls;
      Ret (w, out ++ outs)
  end.

Lemma apply_published_good taken (w : World) i p c :
  published w !! i = Some (p, c) → Inv taken [] w →
  let w' := (apply_completion (set_published w (delete i (published w))) c).2 in Inv taken [] w' ∧ evolves w w'.
Proof.
  intros Hi HI. assert (HI1 : Inv taken [c] (set_published w (delete i (published w)))).
  { eapply core_perm; [| exact HI]. unfold tokens. simpl.
    rewrite (delete_take_drop (published w) i). rewrite <-(take_drop_middle _ _ _ Hi) at 1.
    rewrite !fmap_app. simpl. solve_Permutation. }
  destruct (apply_good _ _ _ _ HI1) as [HI2 Hev]. split; [done |]. etrans; [| exact Hev]. by apply evolves_same.
Qed.

Lemma good_move_out taken (w w' : World) :
  good_move taken [] w w' → Inv taken [] w → Inv (taken ++ []) [] w' ∧ evolves w w'.
Proof. rewrite app_nil_r. auto. Qed.

Lemma drain_run_good taken (w : World) {A} (k : World → A) (f : A → World) r :
  (∀ w, f (k w) = w) → (('(_, w) ← drain_ready_completions w; Ret (k w)) = Ret r) →
  good_move taken [] w (f r).
Proof.
  intros Hk H HI. destruct (drain_good _ _ _ HI) as (fs & w' & Hd & HI' & Hev & _).
  rewrite Hd in H. cbn [mbind run_bind] in H. injection H as <-. by rewrite Hk.
Qed.

Lemma step_good taken (w w' : World) c out :
  step w c = Ret (w', out) → Inv taken [] w → Inv (taken ++ out) [] w' ∧ evolves w w'.
Proof.
  destruct c; cbn [step]; intros H.
  - apply run_fmap_Ret in H as (w1 & H1 & [= <- <-]). eapply good_move_out, discover_document_good, H1.
  - injection H as <- <-. apply good_move_out. unfold discover_from_inputs. apply (discover_fold_good _ _ input_node_id input_signature).
  - injection H as <- <-. apply good_move_out. destruct (discover_link_url _ _ _ _ _ _ _) as [f w1] eqn:E.
    eapply link_load_good. left. exact E.
  - injection H as <- <-. apply good_move_out. destruct (adopt_or_begin_link_load _ _ _ _ _ _ _) as [f w1] eqn:E.
    eapply link_load_good. right. exact E.
  - injection H as <- <-. apply good_move_out. unfold preload_stylesheet.
    destruct (ensure_resource _ _ _ _ _ _) as [f w1] eqn:E. eapply ensure_resource_good, E.
  - apply run_fmap_Ret in H as ([b w1] & H1 & [= <- <-]). apply good_move_out.
    unfold wait_for_blockers_before in H1. apply run_bind_Ret in H1 as (w2 & H2 & H1).
    eapply good_move_trans; [by eapply discover_document_good |]. intros HI.
    destruct (wait_loop_good taken schedule (collect_document_owned_blocking_stylesheets_before document target) w2 HI)
      as (b' & w3 & Hw & HI3 & Hev3). rewrite Hw in H1. injection H1 as -> ->. done.
  - apply run_fmap_Ret in H as ([b w1] & H1 & [= <- <-]). apply good_move_out.
    by apply (drain_run_good taken w (λ w, (status_without_draining w node url, w)) snd (b, w1)).
  - apply run_fmap_Ret in H as ([b w1] & H1 & [= <- <-]). apply good_move_out.
    by apply (drain_run_good taken w (λ w, (status_for_fetch_without_draining w fetch, w)) snd (b, w1)).
  - apply run_fmap_Ret in H as ([fs w1] & H1 & [= <- <-]). apply good_move_out. intros HI.
    destruct (drain_good _ _ _ HI) as (fs' & w2 & Hd & HI' & Hev & _). rewrite Hd in H1. by injection H1 as _ <-.
  - injection H as <- <-. apply good_move_out, invalidate_good.
  - injection H as <- <-. apply good_move_out. intros HI. split; [exact HI | by apply evolves_same].
  - injection H as <- <-. apply good_move_out. intros HI. split; [exact HI | by apply evolves_same].
  - destruct (published w !! i) as [[p c]|] eqn:Hp; injection H as <- <-; apply good_move_out;
      [| apply good_move_refl]. intros HI. by eapply apply_published_good.
  - injection H as <- <-. apply good_move_out, take_graph_good.
  - injection H as <- <-. intros HI. split; [| by apply evolves_same].
    unfold Inv. simpl. rewrite app_nil_r. exact HI.
  - injection H as <- <-. apply good_move_out.
    destruct (wait_for_completion_arrival w) eqn:E; simpl; [by apply wait_arrival_good | apply good_move_refl].
  - apply run_fmap_Ret in H as (w1 & H1 & [= <- <-]). eapply good_move_out, testing_good, H1.
  - injection H as <- <-. apply good_move_out, finish_task_good.
Qed.

Lemma run_calls_good taken calls (w w' : World) outs :
  run_calls w calls = Ret (w', outs) → Inv taken [] w → Inv (taken ++ outs) [] w' ∧ evolves w w'.
Proof.
  revert taken w outs. induction calls as [|c calls IH]; intros taken w outs H HI; cbn [run_calls] in H.
  - injection H as <- <-. by rewrite app_nil_r.
  - apply run_bind_Ret in H as ([w1 out] & H1 & H). apply run_bind_Ret in H as ([w2 outs'] & H2 & [= <- <-]).
    destruct (step_good _ _ _ _ _ H1 HI) as [HI1 Hev1]. destruct (IH _ _ _ H2 HI1) as [HI2 Hev2].
    rewrite app_assoc. split; [done | by etrans].
Qed.

Lemma world_new_inv : Inv [] [] world_new.
Proof.
  split; simpl; try done; try apply NoDup_nil_2.
  - intros k f. rewrite lookup_empty. split; [done | by intros ?%elem_of_nil].
  - by intros o ?%elem_of_nil.
  - split; simpl; [apply NoDup_nil_2 | | by intros x f ?%elem_of_nil].
    intros f. split; [by intros ?%elem_of_nil | by intros (r & Hr & _)].
Qed.

(** A call that does not panic: a document has an address, and the hook for
    tests is not used. *)
Definition call_ok (c : Call) : Prop :=
  match c with
  | CDiscoverDocument _ _ document | CWaitForBlockers _ _ document _ _ => is_Some (final_url_clone document)
  | CEnqueueForTesting _ _ _ _ => False
  | _ => True
  end.

Lemma step_returns taken (w : World) c : call_ok c → Inv taken [] w → ∃ r, step w c = Ret r.
Proof.
  intros Hc HI. destruct (drain_good _ _ _ HI) as (fs & w1 & Hd & _).
  destruct c; cbn [step call_ok] in *; try done; try (eexists; reflexivity).
  - destruct Hc as [d Hd']. unfold discover_from_document. rewrite Hd'. eexists; reflexivity.
  - destruct Hc as [d Hd']. unfold wait_for_blockers_before.
    destruct (discover_from_document w fetcher now document) as [w2|] eqn:E;
      [| unfold discover_from_document in E; by rewrite Hd' in E].
    destruct (discover_document_good taken [] _ _ _ _ _ E HI) as [HI2 _].
    destruct (wait_loop_good taken schedule (collect_document_owned_blocking_stylesheets_before document target) w2 HI2)
      as (b & w3 & Hw & _). cbn [mbind run_bind]. rewrite Hw. eexists; reflexivity.
  - unfold status. rewrite Hd. eexists; reflexivity.
  - unfold status_for_fetch. rewrite Hd. eexists; reflexivity.
  - rewrite Hd. eexists; reflexivity.
  - destruct (published w !! i) as [[p c]|]; eexists; reflexivity.
Qed.

Lemma run_calls_return taken calls (w : World) :
  Forall call_ok calls → Inv taken [] w → ∃ r, run_calls w calls = Ret r.
Proof.
  intros H. revert taken w. induction H as [|c calls Hc _ IH]; intros taken w HI; cbn [run_calls]; [by eexists |].
  destruct (step_returns _ _ _ Hc HI) as [[w1 out] H1]. rewrite H1. cbn [mbind run_bind].
  destruct (step_good _ _ _ _ _ H1 HI) as [HI1 _]. destruct (IH _ _ HI1) as [[w2 outs] H2]. rewrite H2. by eexists.
Qed.

(** ** Each resource once *)
Definition reports (f : nat) (results : list Result) : list Result :=
  filter (λ x, result_fetch x = Some f) results.

Lemma reports_none f (results : list Result) : f ∉ omap result_fetch results → reports f results = [].
Proof.
  intros Hf. unfold reports.
  destruct (filter _ results) as [|x l] eqn:E; [done |].
  exfalso. apply Hf. assert (Hx : x ∈ filter (λ x, result_fetch x = Some f) results) by (rewrite E; by left).
  apply list_elem_of_filter in Hx as [Hx Hin]. apply list_elem_of_omap. eauto.
Qed.

Lemma reports_one f (results : list Result) :
  NoDup (omap result_fetch results) → f ∈ omap result_fetch results → ∃ x, reports f results = [x].
Proof.
  induction results as [|y l IH]; intros Hnd Hf; [by apply elem_of_nil in Hf |]. unfold reports. simpl in *.
  rewrite filter_cons. destruct (result_fetch y) as [g|] eqn:Hy; simpl in *.
  - apply NoDup_cons in Hnd as [Hg Hnd]. destruct (decide (Some g = Some f)) as [[= ->]|Hne].
    + exists y. f_equal. by apply reports_none.
    + apply elem_of_cons in Hf as [->|Hf]; [done | auto].
  - destruct (decide (None = Some f)); [done | auto].
Qed.

(** C5: a linked or preloaded style sheet is fetched once and reported once.
    Over every history of calls and task endings (calls that do not panic
    always return): no two tasks fetch the same resource for the same document
    and cache scope, however many owners, preloads and rediscoveries ask for
    it; every such task has its own fetch object; and among the network
    results handed out or ready, a pending object has none and a finished
    object exactly one, with its address, document, start time and outcome.
    The sheets a style element imports are not shared in this way (two
    elements that import one address fetch it twice); their graph is fetched
    by at most one unfinished task for each operation. *)
Theorem stylesheets_fetched_once calls :
  (Forall call_ok calls → ∃ r, run_calls world_new calls = Ret r) ∧
  ∀ w outs, run_calls world_new calls = Ret (w, outs) →
    NoDup (requests w).*1 ∧ (requests w).*2 = seq 0 (length (fetches w)) ∧
    NoDup (imports (omap token_of_task (tasks w))) ∧
    ∀ scope d k f, ((scope, d, k), f) ∈ requests w →
      ∃ r, fetches w !! f = Some r ∧ fetch_document_url r = d ∧ fetch_key r = k ∧
        match terminal r with
        | None => reports f (outs ++ ready_network_results (state w)) = []
        | Some _ => ∃ x, reports f (outs ++ ready_network_results (state w)) = [x] ∧ describes r x
        end.
Proof.
  split; [intros H; by eapply run_calls_return, world_new_inv |]. intros w outs H.
  destruct (run_calls_good [] _ _ _ _ H world_new_inv) as [HI _]. simpl in HI. pose proof HI as [].
  split_and!; [done | done | |].
  { unfold tokens, imports in core_tok_once0. rewrite omap_app in core_tok_once0.
    by apply NoDup_app in core_tok_once0 as [? _]. }
  intros scope d k f Hin.
  assert (Hlt : f ∈ (requests w).*2) by (by apply list_elem_of_fmap_2 with (f := snd) in Hin).
  rewrite core_ids0 in Hlt. apply elem_of_seq in Hlt.
  destruct (lookup_lt_is_Some_2 (fetches w) f) as [r Hr]; [lia |].
  destruct (core_objects0 _ _ _ Hin Hr) as [Hd Hk]. exists r. split_and!; [done.. |].
  destruct core_results0 as [Honce Hfin Hcont]. destruct (terminal r) as [t|] eqn:Ht.
  - assert (Hf : f ∈ omap result_fetch (outs ++ ready_network_results (state w))) by (apply Hfin; eauto).
    destruct (reports_one f _ Honce Hf) as [x Hx]. exists x. split; [done |].
    assert (Hx' : x ∈ reports f (outs ++ ready_network_results (state w))) by (rewrite Hx; by left).
    apply list_elem_of_filter in Hx' as [Hxf Hxin]. destruct (Hcont x f Hxin Hxf) as (r' & Hr' & Hdesc).
    rewrite Hr in Hr'. by injection Hr' as <-.
  - apply reports_none. rewrite Hfin. intros (r' & Hr' & Ht'). rewrite Hr in Hr'. injection Hr' as <-.
    rewrite Ht in Ht'. by destruct Ht'.
Qed.

(** ** Operations *)
Lemma superseded_stays (w w' : World) taken' op :
  evolves w w' → Inv taken' [] w' → is_Some (op_identity w op) →
  (∀ n e, blocking_entries (state w) !! n = Some e → operation e ≠ op) → current_entry w' op = None.
Proof.
  intros Hev HI' [id Hid] Hno. destruct (current_entry w' op) as [[node e']|] eqn:Hcur; [| done].
  apply current_entry_Some in Hcur as (id' & _ & _ & He' & Hop).
  destruct (ev_entries _ _ Hev node e' He') as [Hge | (e & He & Hop' & _)].
  - apply lookup_lt_Some in Hid. lia.
  - exfalso. eapply (Hno node e); [done | congruence].
Qed.

Lemma no_entry_of_superseded taken (w : World) op :
  Inv taken [] w → current_entry w op = None →
  ∀ n e, blocking_entries (state w) !! n = Some e → operation e ≠ op.
Proof. intros HI Hc n e He <-. rewrite (entry_is_current _ _ _ _ _ HI He) in Hc. done. Qed.

Lemma fetch_status_final (w w' : World) f st :
  evolves w w' → fetch_status w f = Some st → st ≠ Pending → fetch_status w' f = Some st.
Proof.
  intros Hev Hs Hne. unfold fetch_status in *. destruct (fetches w !! f) as [r|] eqn:Hr; [| done].
  destruct (ev_fetches _ _ Hev f r Hr) as (r' & -> & _ & _ & _ & _ & Ht). simpl in *. rewrite <-Hs. f_equal.
  unfold request_status in *. destruct (terminal r) as [t|] eqn:E; [by rewrite (Ht t) | congruence].
Qed.

Lemma status_final (w w' : World) taken op st :
  Inv taken [] w → evolves w w' → status_for_blocking_operation w op = Some st → st ≠ Pending →
  status_for_blocking_operation w' op = Some st ∨ status_for_blocking_operation w' op = None.
Proof.
  intros HI Hev Hst Hne. unfold status_for_blocking_operation in *.
  destruct (current_entry w op) as [[node e]|] eqn:Hcur; cbn [mbind option_bind] in *; [| done].
  destruct (current_entry w' op) as [[node' e']|] eqn:Hcur'; cbn [mbind option_bind] in *; [| by right]. left.
  apply current_entry_Some in Hcur as (id & Hid & Hn & He & Hop).
  apply current_entry_Some in Hcur' as (id' & Hid' & Hn' & He' & Hop').
  pose proof (prefix_lookup_Some _ _ _ _ Hid (ev_ops _ _ Hev)) as Hid2. rewrite Hid' in Hid2. injection Hid2 as ->.
  subst node node'. destruct (ev_entries _ _ Hev _ e' He') as [Hge | (e0 & He0 & _ & Hs)].
  - apply lookup_lt_Some in Hid. lia.
  - rewrite He in He0. injection He0 as <-. unfold blocking_entry_status in *.
    destruct (resource e), (resource e'); simpl in Hs; try done.
    + subst. by eapply fetch_status_final.
    + injection Hst as ->. by rewrite Hs.
Qed.

End guarantees.

(** ** Witnesses *)
Module StyleExample.
#[local] Open Scope N_scope.
(** Addresses are numbers and a fragment is what is left after division by
    ten; a fetcher is its cache scope. *)
#[export] Instance url : StyleUrl N := {| url_join := λ b s, Some (b + byte_len s * 10); without_fragment := λ u, u / 10 * 10 |}.
#[export] Instance url_laws : StyleUrlLaws N.
Proof. split. intros u. simpl. by rewrite N.div_mul. Defined.
#[export] Instance parsers : StyleParsers := {| parse_mime := λ _, None; import_rules := λ _, [(true, Some [97])] |}.
#[export] Instance fetcher : StylesheetFetcher N := λ f, f.

Notation CallN := (Call (Url := N) (F := N) (Response := N) (Millis := N) (Wake := N) (Publisher := N)).
Notation WorldN := (World (Url := N) (F := N) (Response := N) (Millis := N) (Wake := N) (Publisher := N)).

(** A preload, two owners with different fragments, a style element with an
    import, and the answer of the one request. *)
Definition calls : list CallN :=
  [CPreload 0 5 100 71 options_default; CAdoptLink 0 6 3 100 72 options_default;
   CDiscoverInputs 0 7 100 [mk_input 4 (Link 73 options_default) true; mk_input 5 (ParserCreatedStyleImport [80]) true];
   CTaskEnds 0 (AnswerTerminal (terminal_ready 1 true)); CDrain; CTakeResults].

(** A style element with an import is discovered and taken out; its import
    answers late. *)
Definition early_calls : list CallN :=
  [CDiscoverInputs 0 7 100 [mk_input 5 (ParserCreatedStyleImport [80]) true]; CInvalidate 5].
Definition late_calls : list CallN := [CTaskEnds 0 (AnswerGraph (mk_graph true [])); CDrain].

Definition after (l : list CallN) : WorldN :=
  match run_calls world_new l with Ret (w, _) => w | Panic => world_new end.
Definition early_world : WorldN := Eval vm_compute in after early_calls.
Definition late_world : WorldN := Eval vm_compute in after (early_calls ++ late_calls).
End StyleExample.
Import StyleExample.

Lemma stylesheets_fetched_once_witness :
  requests (StyleExample.after StyleExample.calls) = [((0, 100, resource_key options_default 70), 0%nat)]%N.
Proof.
  destruct (stylesheets_fetched_once StyleExample.calls) as [H _].
  assert (Forall call_ok StyleExample.calls) as Hok by (repeat constructor).
  destruct (H Hok) as [r Hr]. vm_compute in Hr. vm_compute. reflexivity.
Defined.

