(* ===== verification/StyleProgress.v ===== *)
(** When style sheets stop blocking: nothing blocks once every answer is in,
    [wait_for_blockers_before] ends where no publisher takes the completions,
    and looking at a document again starts
    nothing new. *)
From stdpp Require Import base list numbers option gmap strings.
From S2P Require Import Prelude OwnerQueue Utf8 CookieTypes StyleDiscovery StyleBlocking StyleGuarantees.

Section progress.
Context {Url : Type} `{Url_eq_dec : EqDecision Url} `{Url_countable : !Countable Url}.
Context `{SU : !StyleUrl Url, SP : !StyleParsers, SL : !StyleUrlLaws Url}.
Context {F : Type} `{SF : !StylesheetFetcher F}.
Context {Response Millis Wake Publisher : Type}.

Notation World := (World (Url := Url) (F := F) (Response := Response) (Millis := Millis) (Wake := Wake)
  (Publisher := Publisher)).
Notation Entry := (StylesheetBlockingEntry (Url := Url) (Response := Response) (Millis := Millis)).
Notation TaskT := (StylesheetTask (Url := Url) (F := F) (Wake := Wake) (Publisher := Publisher)).
Notation Answer := (StylesheetAnswer (Url := Url) (Response := Response) (Millis := Millis)).
Notation CallT := (Call (Url := Url) (F := F) (Response := Response) (Millis := Millis) (Wake := Wake)
  (Publisher := Publisher)).

(** ** Nothing under way, nothing pending *)

(** Every task has ended and no published completion waits to be applied. *)
Definition quiet (w : World) : Prop := Forall (λ t, finished t = true) (tasks w) ∧ published w = [].

Lemma quiet_no_tokens (w : World) : quiet w → source_items (state w) = [] → tokens w [] = [].
Proof.
  intros [Ht Hp] Hs. unfold tokens. rewrite Hs, Hp. simpl. rewrite app_nil_r.
  induction Ht as [|t l Hf _ IH]; [done |]. simpl. unfold token_of_task at 1. by rewrite Hf.
Qed.

Lemma no_tokens_no_pending taken (w : World) n e :
  Inv taken [] w → tokens w [] = [] → blocking_entries (state w) !! n = Some e → entry_pending w e = false.
Proof.
  intros HI Htok He. unfold entry_pending. apply bool_decide_eq_false. intros Hp.
  destruct (core_entry _ _ _ _ _ _ _ _ HI n e He) as (id & _ & _ & Hres).
  unfold blocking_entry_status in Hp. destruct (resource e) as [f|s g], (op_signature id); try done.
  - unfold fetch_status in Hp. destruct (fetches w !! f) as [r|] eqn:Hr; [| done]. simpl in Hp.
    injection Hp as Hp. unfold request_status in Hp. destruct (terminal r) as [t|] eqn:Ht.
    + by destruct (terminal_is_ready t).
    + pose proof (core_pending _ _ _ _ _ _ _ _ HI f r Hr Ht) as Hin. rewrite Htok in Hin. by apply elem_of_nil in Hin.
  - injection Hp as ->. rewrite Htok in Hres. destruct Hres as [Hres _]. specialize (Hres eq_refl).
    by apply elem_of_nil in Hres.
Qed.

Definition none_pending (w : World) : Prop :=
  ∀ n e, blocking_entries (state w) !! n = Some e → entry_pending w e = false.

Lemma none_pending_values (w : World) e :
  none_pending w → e ∈ (map_to_list (blocking_entries (state w))).*2 → entry_pending w e = false.
Proof.
  intros Hn He. apply list_elem_of_fmap in He as ([n e'] & -> & Hin). apply elem_of_map_to_list in Hin. by eapply Hn.
Qed.

Lemma none_pending_signatures (w : World) : none_pending w → pending_signatures w = [].
Proof.
  intros Hn. unfold pending_signatures. destruct (filter _ _) as [|e l] eqn:E; [done |]. exfalso.
  assert (He : e ∈ filter (λ e, entry_pending w e = true) (map_to_list (blocking_entries (state w))).*2)
    by (rewrite E; by left).
  apply list_elem_of_filter in He as [Hp Hin]. by rewrite (none_pending_values _ _ Hn Hin) in Hp.
Qed.

Lemma existsb_false {A} (p : A → bool) l : (∀ x, x ∈ l → p x = false) → existsb p l = false.
Proof.
  induction l as [|x l IH]; intros H; [done |]. simpl. rewrite (H x) by (by left). apply IH. intros y Hy. apply H. by right.
Qed.

Lemma none_pending_blockers (w : World) blockers : none_pending w → blocks_on_blockers w blockers = false.
Proof.
  intros Hn. unfold blocks_on_blockers. rewrite (none_pending_signatures w Hn). apply existsb_false. intros b _.
  rewrite bool_decide_false by (by apply not_elem_of_nil). rewrite orb_false_r.
  destruct (blocking_entries (state w) !! blocker_node_id b) as [e|] eqn:He; [| done].
  by rewrite (Hn _ _ He), andb_false_r.
Qed.

Lemma none_pending_script fuel (w : World) document node : none_pending w → blocks_script fuel w document node = Ret false.
Proof.
  intros Hn. unfold blocks_script. rewrite none_pending_blockers by done.
  assert (H : ∀ l, (∀ x, x ∈ l → x ∈ map_to_list (blocking_entries (state w))) →
    any_run (λ '(n, e), if entry_pending w e then document_node_precedes fuel document n node else Ret false) l
      = Ret false).
  { induction l as [|[n e] l IH]; intros Hl; [done |]. cbn [any_run].
    assert (Hin := Hl (n, e) ltac:(by left)). apply elem_of_map_to_list in Hin. rewrite (Hn n e Hin).
    cbn [mbind run_bind]. apply IH. intros x Hx. apply Hl. by right. }
  by apply H.
Qed.

(** C7: no answer, no block.  After any history, when every spawned task has
    ended and no published completion is left to apply, draining returns and
    leaves nothing that blocks: no entry is pending, no signature blocks, and
    no script of any document is held back. *)
Theorem quiet_documents_never_block calls w outs :
  run_calls world_new calls = Ret (w, outs) → quiet w →
  ∃ fs w', drain_ready_completions w = Ret (fs, w') ∧
    has_any_pending_entries w' = false ∧ (∀ signatures, blocks_on_signatures w' signatures = false) ∧
    ∀ fuel document node, blocks_script fuel w' document node = Ret false.
Proof.
  intros H Hq. destruct (run_calls_good [] _ _ _ _ H world_new_inv) as [HI _].
  destruct (drain_good _ _ _ HI) as (fs & w' & Hd & HI' & _ & Hs & Ht & Hp). exists fs, w'. split; [done |].
  assert (Hn : none_pending w').
  { intros n e. eapply no_tokens_no_pending; [done |]. apply quiet_no_tokens; [| done].
    destruct Hq as [Hq1 Hq2]. split; [by rewrite Ht | by rewrite Hp]. }
  split_and!.
  - unfold has_any_pending_entries. apply existsb_false. intros e. by apply none_pending_values.
  - intros sigs. unfold blocks_on_signatures. rewrite (none_pending_signatures _ Hn).
    apply existsb_false. intros s _. apply bool_decide_false. by apply not_elem_of_nil.
  - intros. by apply none_pending_script.
Qed.

(** ** Waiting ends *)

(** A store that keeps its completions to itself. *)
Definition standalone (w : World) : Prop :=
  published w = [] ∧ completion_publisher (state w) = None ∧ Forall (λ t, task_publisher t = None) (tasks w).

(** The answer a task waits for. *)
Definition fits (t : TaskT) (a : Answer) : bool :=
  match work t, a with
  | FetchResource _ _ _ _, AnswerTerminal _ | FetchImportGraph _ _ _, AnswerGraph _ => true
  | _, _ => false
  end.

Definition answered (w : World) (answers : list (nat * Answer)) : Prop :=
  ∀ i t, tasks w !! i = Some t → finished t = false → ∃ a, (i, a) ∈ answers ∧ fits t a = true.

Lemma deliver_standalone (w : World) t c : task_publisher t = None → standalone w → standalone (deliver w t c).
Proof. unfold deliver. intros ->. intros (Hp & Hc & Ht). by split_and!. Qed.

Lemma finish_task_progress (w : World) i a answers :
  standalone w → answered w ((i, a) :: answers) →
  standalone (finish_task w i a) ∧ answered (finish_task w i a) answers.
Proof.
  intros Hs Ha. unfold finish_task.
  destruct (tasks w !! i) as [t|] eqn:Hi.
  2: { split; [done |]. intros j t' Hj Hf. destruct (Ha j t' Hj Hf) as (a' & [[= -> ->]|Hin]%elem_of_cons & Hfit);
         [congruence | eauto]. }
  assert (Hskip : finished t = true ∨ fits t a = false → answered w answers).
  { intros Hor j t' Hj Hf. destruct (Ha j t' Hj Hf) as (a' & [[= -> ->]|Hin]%elem_of_cons & Hfit); [| eauto].
    rewrite Hi in Hj. injection Hj as <-. destruct Hor; congruence. }
  destruct (finished t) eqn:Hfin; [auto |].
  assert (Hpub : task_publisher t = None).
  { destruct Hs as (_ & _ & Ht). rewrite Forall_forall in Ht. apply Ht. by eapply list_elem_of_lookup_2. }
  assert (Hdone : ∀ c, let w' := deliver (set_tasks w (<[i := end_task t]> (tasks w))) t c in
                       standalone w' ∧ answered w' answers).
  { intros c. split.
    - apply deliver_standalone; [done |]. destruct Hs as (Hp & Hc & Ht). split_and!; [done | done |].
      apply Forall_insert; done.
    - intros j t' Hj Hf. unfold deliver in Hj. rewrite Hpub in Hj. simpl in Hj.
      apply list_lookup_insert_Some in Hj as [(<- & <- & _)|[Hne Hj]]; [done |].
      destruct (Ha j t' Hj Hf) as (a' & [[= -> ->]|Hin]%elem_of_cons & Hfit); [done | eauto]. }
  fold (end_task t). destruct (work t) eqn:Hw, a; try apply Hdone;
    (split; [done |]; apply Hskip; right; unfold fits; by rewrite Hw).
Qed.

Lemma finish_tasks_progress ended (w : World) answers :
  standalone w → answered w (ended ++ answers) →
  let w' := foldl (λ w '(i, a), finish_task w i a) w ended in standalone w' ∧ answered w' answers.
Proof.
  revert w. induction ended as [|[i a] ended IH]; intros w Hs Ha; simpl; [done |].
  destruct (finish_task_progress w i a (ended ++ answers) Hs Ha). auto.
Qed.

Lemma answered_nil_quiet (w : World) : standalone w → answered w [] → quiet w.
Proof.
  intros (Hp & _) Ha. split; [| done]. apply Forall_lookup. intros i t Hi.
  destruct (finished t) eqn:Hf; [done |]. destruct (Ha i t Hi Hf) as (a & Hin & _). by apply elem_of_nil in Hin.
Qed.

Lemma drain_loop_publisher fuel (w w' : World) done_ fs :
  drain_loop fuel w done_ = Ret (fs, w') → completion_publisher (state w') = completion_publisher (state w).
Proof.
  revert w done_. induction fuel as [|fuel IH]; intros w done_; [done |]. cbn [drain_loop]. cbv zeta.
  destruct (Task.pop_front (completion_source (state w))) as [[c|] q]; [| by intros [= <- <-]].
  set (w1 := set_state w _). assert (H : completion_publisher (state (apply_completion w1 c).2) = completion_publisher (state w)).
  { destruct c as [f t|o g]; simpl.
    - destruct (fetches w !! f) as [r|]; [| done]. by destruct (finish_and_claim r t) as [[] ?].
    - destruct (op_identity w1 o) as [id|]; [| done]. by destruct (current_entry w1 o) as [[? ?]|]. }
  destruct (apply_completion w1 c) as [f w2]. simpl in H. intros ?%IH. congruence.
Qed.

Lemma drain_standalone taken (w w' : World) fs answers :
  Inv taken [] w → drain_ready_completions w = Ret (fs, w') → standalone w → answered w answers →
  Inv taken [] w' ∧ standalone w' ∧ answered w' answers ∧ source_items (state w') = [].
Proof.
  intros HI Hd (Hp & Hc & Ht) Ha. pose proof (drain_loop_publisher _ _ _ _ _ Hd) as Hpub.
  destruct (drain_good _ _ _ HI) as (fs' & w'' & Hd' & HI' & _ & Hs & Ht' & Hp'). rewrite Hd in Hd'.
  injection Hd' as <- <-. split_and!; [done | | | done].
  - split_and!; [by rewrite Hp' | by rewrite Hpub | by rewrite Ht'].
  - intros i t. rewrite Ht'. auto.
Qed.

Lemma wait_loop_ends taken schedule blockers (w : World) :
  Inv taken [] w → standalone w → answered w (concat schedule) → ∃ w', wait_loop schedule blockers w = Ret (true, w').
Proof.
  revert w. induction schedule as [|ended schedule IH]; intros w HI Hs Ha; cbn [wait_loop];
    destruct (drain_good _ _ _ HI) as (fs & w1 & Hd & _); rewrite Hd; cbn [mbind run_bind];
    destruct (drain_standalone _ _ _ _ _ HI Hd Hs Ha) as (HI1 & Hs1 & Ha1 & Hsrc);
    destruct (blocks_on_blockers w1 blockers) eqn:Hb; simpl; eauto.
  - exfalso. rewrite none_pending_blockers in Hb; [done |]. intros n e.
    eapply no_tokens_no_pending; [done |]. apply quiet_no_tokens; [by apply answered_nil_quiet | done].
  - set (w2 := foldl _ w1 ended). destruct (finish_tasks_good taken [] ended w1 HI1) as [HI2 _]. fold w2 in HI2.
    destruct (finish_tasks_progress ended w1 (concat schedule) Hs1 Ha1) as [Hs2 Ha2]. fold w2 in Hs2, Ha2.
    destruct (wait_for_completion_arrival w2) as [w3|] eqn:Hw; simpl; [| by apply IH].
    destruct (wait_arrival_good taken [] _ _ Hw) as (Hgood & Ht3 & Hp3). destruct (Hgood HI2) as [HI3 _].
    apply IH; [done | |].
    + destruct Hs2 as (Hp & Hc & Ht). split_and!; [by rewrite Hp3 | | by rewrite Ht3].
      unfold wait_for_completion_arrival in Hw. destruct (Task.wait_for_arrival _ _); [| done]. by injection Hw as <-.
    + intros i t. rewrite Ht3. auto.
Qed.

Lemma spawn_standalone (w : World) fetcher wk : standalone w → standalone (spawn w fetcher wk).
Proof.
  intros (Hp & Hc & Ht). split_and!; [done | done |]. apply Forall_app. split; [done |].
  by apply Forall_singleton.
Qed.

Lemma ensure_owner_standalone (w w' : World) fetcher now n d u o f :
  ensure_owner_fetch w fetcher now n d u o = (f, w') → standalone w → standalone w'.
Proof.
  unfold ensure_owner_fetch, ensure_resource. destruct (owner_entry_fetch w fetcher n u o); [by intros [= <- <-] |].
  destruct (url_fetches (state w) !! _); intros [= <- <-] (Hp & Hc & Ht); [done |].
  split_and!; [done | done |]. simpl. apply Forall_app. split; [done | by apply Forall_singleton].
Qed.

Lemma discover_input_standalone (w : World) fetcher now d n sg :
  standalone w → standalone (discover_input w fetcher now d n sg).
Proof.
  intros Hs. unfold discover_input.
  destruct (match blocking_entries (state w) !! n with Some _ => _ | None => _ end); [done |].
  destruct sg as [u o|urls]; simpl.
  - set (w1 := set_operations w _). destruct (ensure_owner_fetch w1 fetcher now n d u o) as [f w2] eqn:Hen.
    by apply (ensure_owner_standalone _ _ _ _ _ _ _ _ _ Hen).
  - by apply spawn_standalone.
Qed.

Lemma discover_standalone (w : World) fetcher now d blockers :
  standalone w → standalone (discover_from_blockers w fetcher now d blockers).
Proof.
  revert w. induction blockers as [|b l IH]; intros w Hs; [done |]. by apply IH, discover_input_standalone.
Qed.

(** C33: waiting for blockers ends.  From any reachable state of a client that
    stands alone (no completion publisher is installed, no task was started
    with one, and nothing is left published: with a publisher completions
    reach the client only through its owner, and this wait does not see
    them), [wait_for_blockers_before] on a document with an
    address starts what the document asks for and returns, not blocked, on
    every schedule of task endings in which each unfinished task gets an answer
    it waits for, whatever the answers are, in whatever order and batches. *)
Theorem wait_for_blockers_ends calls w outs fetcher now document target url schedule :
  run_calls world_new calls = Ret (w, outs) → standalone w → final_url_clone document = Some url →
  answered (discover_from_blockers w fetcher now url (collect_document_owned_blocking_stylesheets document))
    (concat schedule) →
  ∃ w', wait_for_blockers_before w fetcher now document target schedule = Ret (true, w').
Proof.
  intros H Hs Hurl Ha. destruct (run_calls_good [] _ _ _ _ H world_new_inv) as [HI _].
  unfold wait_for_blockers_before, discover_from_document. rewrite Hurl. cbn [expect mbind run_bind].
  set (w1 := discover_from_blockers _ _ _ _ _) in *.
  assert (HI1 : Inv ([] ++ outs) [] w1)
    by (eapply discover_document_good; [| exact HI]; unfold discover_from_document; by rewrite Hurl).
  eapply wait_loop_ends; [exact HI1 | by apply discover_standalone | done].
Qed.

(** ** Looking again *)

(** The node has an entry with this signature. *)
Definition tracks (w : World) (n : N) (sg : DocumentBlockingStylesheetSignature Url) : Prop :=
  ∃ e, blocking_entries (state w) !! n = Some e ∧ entry_signature w e = Some sg.

Lemma tracks_skip (w : World) fetcher now d n sg : tracks w n sg → discover_input w fetcher now d n sg = w.
Proof. intros (e & He & Hsg). unfold discover_input. rewrite He. by rewrite bool_decide_true. Qed.

Lemma discover_input_shape (w : World) fetcher now d n sg :
  (tracks w n sg ∧ discover_input w fetcher now d n sg = w) ∨
  ∃ e w1, discover_input w fetcher now d n sg = put_entry w1 n e ∧
    operations w1 = operations w ++ [mk_identity n d sg] ∧
    blocking_entries (state w1) = blocking_entries (state w) ∧ operation e = length (operations w).
Proof.
  destruct (match blocking_entries (state w) !! n with
            | Some entry => bool_decide (entry_signature w entry = Some sg)
            | None => false end) eqn:Hb.
  { left. assert (Ht : tracks w n sg).
    { destruct (blocking_entries (state w) !! n) as [e|] eqn:He; [| done]. exists e.
      split; [done | by apply bool_decide_eq_true in Hb]. }
    split; [done | by apply tracks_skip]. }
  right. unfold discover_input. rewrite Hb.
  destruct sg as [u o|urls]; simpl.
  - set (w1 := set_operations w _). destruct (ensure_owner_fetch w1 fetcher now n d u o) as [f w2] eqn:Hen.
    destruct (ensure_owner_frame _ _ _ _ _ _ _ _ _ Hen) as [Hops Hent].
    exists (mk_entry (length (operations w)) (LinkResource f)), w2. split_and!; [done | by rewrite Hops | by rewrite Hent | done].
  - set (w1 := spawn_style_import_operation _ _ _ _ _).
    exists (mk_entry (length (operations w)) (ImportsResource Pending None)), w1. by split_and!.
Qed.

Lemma discover_input_tracks (w : World) fetcher now d n sg : tracks (discover_input w fetcher now d n sg) n sg.
Proof.
  destruct (discover_input_shape w fetcher now d n sg) as [[Ht ->] | (e & w1 & -> & Hops & _ & Hop)]; [done |].
  exists e. split; [apply lookup_insert_eq |]. unfold entry_signature, op_identity. simpl.
  rewrite Hops, Hop, lookup_app_r, Nat.sub_diag by done. done.
Qed.

Lemma discover_input_keeps (w : World) fetcher now d n sg n' sg' :
  tracks w n' sg' → (n' = n → sg' = sg) → tracks (discover_input w fetcher now d n sg) n' sg'.
Proof.
  intros Ht Heq. destruct (decide (n' = n)) as [->|Hne]; [rewrite Heq by done; apply discover_input_tracks |].
  destruct (discover_input_shape w fetcher now d n sg) as [[_ ->] | (e & w1 & -> & Hops & Hent & Hop)]; [done |].
  destruct Ht as (e' & He' & Hsg). exists e'. split; [simpl; by rewrite lookup_insert_ne, Hent by done |].
  revert Hsg. unfold entry_signature, op_identity. simpl. rewrite Hops.
  destruct (operations w !! operation e') as [id|] eqn:Hid; [| done]. by rewrite (lookup_app_l_Some _ _ _ _ Hid).
Qed.

(** Blockers that agree on the signature of a node. *)
Definition coherent (blockers : list (DocumentOwnedBlockingStylesheet Url)) : Prop :=
  ∀ b b', b ∈ blockers → b' ∈ blockers → blocker_node_id b = blocker_node_id b' →
    blocker_signature b = blocker_signature b'.

Lemma discover_all_tracked blockers (w : World) fetcher now d b :
  coherent blockers → b ∈ blockers ∨ tracks w (blocker_node_id b) (blocker_signature b) ∧
    (∀ b', b' ∈ blockers → blocker_node_id b = blocker_node_id b' → blocker_signature b = blocker_signature b') →
  tracks (discover_from_blockers w fetcher now d blockers) (blocker_node_id b) (blocker_signature b).
Proof.
  revert w. induction blockers as [|b0 l IH]; intros w Hco Hb.
  { destruct Hb as [Hb|[Hb _]]; [by apply elem_of_nil in Hb | done]. }
  assert (Hcl : coherent l) by (intros x y Hx Hy; apply Hco; by right).
  simpl. apply (IH (discover_input w fetcher now d (blocker_node_id b0) (blocker_signature b0))); [done |].
  destruct Hb as [[->|Hb]%elem_of_cons | [Ht Hag]].
  - right. split; [apply discover_input_tracks |]. intros b' Hb'. apply Hco; [by left | by right].
  - by left.
  - right. split; [| intros b' Hb'; apply Hag; by right].
    apply discover_input_keeps; [done |]. apply Hag. by left.
Qed.

Lemma discover_tracked blockers (w : World) fetcher now d :
  (∀ b, b ∈ blockers → tracks w (blocker_node_id b) (blocker_signature b)) →
  discover_from_blockers w fetcher now d blockers = w.
Proof.
  induction blockers as [|b l IH]; intros Ht; [done |]. simpl.
  rewrite tracks_skip by (apply Ht; by left). apply IH. intros b' Hb'. apply Ht. by right.
Qed.

(** A candidate is a function of its node. *)
Lemma candidate_node document n c :
  document_owned_blocking_stylesheet_candidate_for_node document n = Some c → candidate_node_id (Url := Url) c = n.
Proof.
  unfold document_owned_blocking_stylesheet_candidate_for_node.
  destruct (document_owned_stylesheet_discovery_input_for_node document n) as [i|]; [| done]. cbn [mbind option_bind].
  destruct (blocks_scripts i); [| done]. simpl. intros [= <-]. by destruct (input_signature i).
Qed.

Lemma collected_coherent document : coherent (collect_document_owned_blocking_stylesheets document).
Proof.
  intros b b' Hb Hb'. apply list_elem_of_fmap in Hb as (c & -> & Hc). apply list_elem_of_fmap in Hb' as (c' & -> & Hc').
  apply list_elem_of_omap in Hc as (n & _ & Hn). apply list_elem_of_omap in Hc' as (n' & _ & Hn'). simpl.
  pose proof (candidate_node _ _ _ Hn). pose proof (candidate_node _ _ _ Hn'). intros. congruence.
Qed.

(** Discovery is idempotent.  Discovering a document tracks every blocking
    style sheet it owns under the signature the document gives it, and
    discovering it again, by any fetcher at any later time, with nothing in
    between, changes nothing: no second operation, object, task or entry. *)
Theorem rediscovery_changes_nothing w w' fetcher fetcher' now now' document :
  discover_from_document w fetcher now document = Ret w' →
  (∀ b, b ∈ collect_document_owned_blocking_stylesheets document → tracks w' (blocker_node_id b) (blocker_signature b)) ∧
  discover_from_document w' fetcher' now' document = Ret w'.
Proof.
  unfold discover_from_document. intros H. apply run_bind_Ret in H as (d & Hd & [= <-]).
  assert (Ht : ∀ b, b ∈ collect_document_owned_blocking_stylesheets document →
    tracks (discover_from_blockers w fetcher now d (collect_document_owned_blocking_stylesheets document))
      (blocker_node_id b) (blocker_signature b)).
  { intros b Hb. apply discover_all_tracked; [apply collected_coherent | by left]. }
  split; [exact Ht |]. rewrite Hd. cbn [mbind run_bind]. by rewrite discover_tracked.
Qed.
End progress.

(** ** Witnesses *)
Module ProgressExample.
Import StyleExample.
#[local] Open Scope N_scope.

(** A document with a link (node 1) and a style element with an import
    (node 2). *)
Definition link_element : StylesheetElementRead :=
  mk_element true (chars "link") true (Some (chars "stylesheet")) (Some (chars "a.css")) None None false None
    None None None None None None.
Definition style_element : StylesheetElementRead :=
  mk_element true (chars "style") true None None None None false None None None None None None None.

Definition page : StylesheetBlockingReadView N :=
  mk_view (λ _, true) (λ n, if n =? 1 then Some link_element else if n =? 2 then Some style_element else None)
    (λ n, if n =? 0 then [1; 2; 3] else []) (λ _, Some [120]) (Some 1000) (λ _, Some 1000) 0 false (λ _, [1; 2]).

Definition ended : list CallN :=
  [CDiscoverDocument 0 1 page; CTaskEnds 0 (AnswerTerminal (network_error []));
   CTaskEnds 1 (AnswerGraph (mk_graph true []))].

(** The import answers first, with an answer of the wrong kind before it. *)
Definition schedule : list (list (nat * StylesheetAnswer (Url := N) (Response := N) (Millis := N))) :=
  [[(1%nat, AnswerTerminal (terminal_ready 1 true))]; [];
   [(1%nat, AnswerGraph (mk_graph false []))]; [(0%nat, AnswerTerminal (terminal_ready 1 true))]].
End ProgressExample.
Import StyleExample.

Lemma quiet_documents_never_block_witness :
  ∃ fs w', drain_ready_completions (StyleExample.after ProgressExample.ended) = Ret (fs, w') ∧
    blocks_script 9 w' ProgressExample.page 3 = Ret false.
Proof.
  assert (Hf : forallb finished (tasks (StyleExample.after ProgressExample.ended)) = true) by (vm_compute; reflexivity).
  assert (Hp : length (published (StyleExample.after ProgressExample.ended)) = 0%nat) by (vm_compute; reflexivity).
  assert (Hr : match run_calls (world_new (Wake := N) (Publisher := N)) ProgressExample.ended with
               | Ret (w, _) => length (tasks w) = 2%nat | Panic => False end) by (vm_compute; reflexivity).
  unfold StyleExample.after in *.
  destruct (run_calls world_new ProgressExample.ended) as [[w outs]|] eqn:E; [| destruct Hr].
  destruct (quiet_documents_never_block ProgressExample.ended w outs E) as (fs & w' & Hd & _ & _ & Hb).
  - split; [apply List.Forall_forall; by apply forallb_forall | by apply length_zero_iff_nil].
  - exists fs, w'. split; [exact Hd | apply Hb].
Defined.

Lemma wait_for_blockers_ends_witness :
  ∃ w', wait_for_blockers_before (world_new (Wake := N) (Publisher := N)) 0%N 1%N ProgressExample.page 3%N
          ProgressExample.schedule = Ret (true, w').
Proof.
  apply (wait_for_blockers_ends [] world_new [] 0%N 1%N ProgressExample.page 3%N 1000%N ProgressExample.schedule);
    [reflexivity | split_and!; [reflexivity | reflexivity | constructor] | reflexivity |].
  intros [|[|i]] t; vm_compute; intros [= <-] _.
  - eexists. split; [do 2 right; left | reflexivity].
  - eexists. split; [do 1 right; left | reflexivity].
Defined.
