(* ===== verification/CspPolicy.v ===== *)
(** Content Security Policy: delivered policies, integrity metadata and
    reports (moli-csp: [types.rs], [policy.rs], [integrity.rs],
    [reporting.rs]).  The parser of directives is the
    [content-security-policy] crate and a parameter ([CspCrate]); so is the
    [url] crate ([UrlCrate] of the cookie files, [StyleUrl] and [UrlText]).
    A [str] is its list of scalar values, as in [Utf8]; the JSON texts of the
    report bodies are left to [serde_json]. *)
From stdpp Require Import base list numbers option gmap strings.
From S2P Require Import Prelude Utf8 HeaderField CookieTypes StyleDiscovery.

#[local] Open Scope N_scope.

(** ** [str] methods *)
Fixpoint strip_prefix (p s : str) : option str :=
  match p, s with
  | [], _ => Some s
  | c :: p, d :: s => if c =? d then strip_prefix p s else None
  | _ :: _, [] => None
  end.

Definition strip_suffix (p s : str) : option str := reverse <$> strip_prefix (reverse p) (reverse s).

(** [str::split_once] at the first occurrence of a pattern. *)
Fixpoint split_once (pat s : str) : option (str * str) :=
  match strip_prefix pat s with
  | Some rest => Some ([], rest)
  | None => match s with
            | [] => None
            | c :: s => prod_map (cons c) id <$> split_once pat s
            end
  end.

Definition contains (s : str) (c : char) : bool := existsb (N.eqb c) s.

Definition is_ascii_alphabetic (b : N) : bool := ((65 <=? b) && (b <=? 90)) || ((97 <=? b) && (b <=? 122)).
Definition is_ascii_digit (b : N) : bool := (48 <=? b) && (b <=? 57).
Definition is_ascii_alphanumeric (b : N) : bool := is_ascii_alphabetic b || is_ascii_digit b.
Definition is_ascii_hexdigit (b : N) : bool :=
  is_ascii_digit b || ((65 <=? b) && (b <=? 70)) || ((97 <=? b) && (b <=? 102)).

(** [str::trim_ascii] *)
Fixpoint trim_ascii_start (s : str) : str :=
  match s with c :: s' => if is_ascii_whitespace c then trim_ascii_start s' else s | [] => [] end.
Definition trim_ascii (s : str) : str := reverse (trim_ascii_start (reverse (trim_ascii_start s))).

Definition is_ascii_str (s : str) : bool := forallb (λ c, c <? 128) s.

(** ** Enumerations *)
Inductive ContentSecurityPolicyResourceKind :=
  | DocumentConnect | DocumentFrame | DocumentImage | DocumentManifest | DocumentMedia | DocumentFont
  | DocumentScriptElement | DocumentStyleElement | SharedWorkerScript | WorkerConnect
  | WorkerDynamicModuleImport | WorkerScript | WorkerStaticModuleImport.

Inductive ContentSecurityPolicyNonUrlKind :=
  | DocumentInlineEventHandler | DocumentInlineNavigation | DocumentInlineScript
  | DocumentInlineStyleAttribute | DocumentInlineStyleElement | Eval | TrustedTypesEval | WasmEval.

Inductive ContentSecurityPolicyRedirectStatus := NoRedirect | FollowedRedirect.
#[global] Instance RedirectStatus_eq_dec : EqDecision ContentSecurityPolicyRedirectStatus.
Proof. solve_decision. Defined.

Inductive ContentSecurityPolicyDisposition := Enforce | Report.

(** [PolicySource] of the parser's crate; dispositions are the same there. *)
Inductive PolicySource := SourceHeader | SourceMeta.

Record TrustedTypesForScriptRequirements := mk_requirements { enforced : bool; report_only : bool }.
Definition enforced_only (b : bool) : TrustedTypesForScriptRequirements := mk_requirements b false.
Definition requires_conversion (r : TrustedTypesForScriptRequirements) : bool := enforced r || report_only r.

Record ContentSecurityPolicyScriptElementRequest := mk_script_request {
  script_nonce : option str;
  script_integrity : option str;
  parser_inserted : bool }.

Record ContentSecurityPolicyStyleElementRequest := mk_style_request { style_nonce : option str }.

Definition script_request_default : ContentSecurityPolicyScriptElementRequest := mk_script_request None None true.

Definition parser_inserted_with_nonce (nonce : option str) : ContentSecurityPolicyScriptElementRequest :=
  mk_script_request nonce None true.

Inductive DigestAlgorithm := Sha1 | Sha256 | Sha384 | Sha512.
#[global] Instance DigestAlgorithm_eq_dec : EqDecision DigestAlgorithm.
Proof. solve_decision. Defined.

(** ** Integrity metadata *)
Record IntegrityMetadataHash := mk_hash { hash_algorithm : DigestAlgorithm; hash_digest : str }.

Definition integrity_prefixes : list (str * DigestAlgorithm) :=
  [(chars "sha256", Sha256); (chars "sha-256", Sha256); (chars "sha384", Sha384); (chars "sha-384", Sha384);
   (chars "sha512", Sha512); (chars "sha-512", Sha512)].

Fixpoint parse_integrity_prefixes (prefixes : list (str * DigestAlgorithm)) (token : str)
    : option (DigestAlgorithm * str) :=
  match prefixes with
  | [] => None
  | (prefix, algorithm) :: prefixes =>
      match strip_prefix prefix token ≫= strip_prefix (chars "-") with
      | Some digest => Some (algorithm, digest)
      | None => parse_integrity_prefixes prefixes token
      end
  end.

Definition parse_integrity_algorithm_and_digest (token : str) : option (DigestAlgorithm * str) :=
  parse_integrity_prefixes integrity_prefixes token.

Definition is_integrity_digest_syntax (digest : str) : bool :=
  negb (is_empty digest) &&
  forallb (λ b, is_ascii_alphanumeric b || bool_decide (b ∈ chars "+/-_=")) (utf8 digest).

Definition parse_integrity_hash (token : str) : option IntegrityMetadataHash :=
  '(algorithm, digest) ← parse_integrity_algorithm_and_digest token;
  let digest := match split_once_at 63 digest with Some (digest, _) => digest | None => digest end in
  if negb (is_integrity_digest_syntax digest) then None else Some (mk_hash algorithm digest).

Definition integrity_metadata_hashes (integrity : str) : list IntegrityMetadataHash :=
  omap parse_integrity_hash (split_ascii_whitespace integrity).

(** ** Policies *)
Record Directive := mk_directive { directive_name : str; directive_value : list str }.

(** The parser of a serialized policy and its check of a directive. *)
Class CspCrate := {
  policy_parse : str → PolicySource → ContentSecurityPolicyDisposition → list Directive;
  directive_is_valid : Directive → bool }.

Record ContentSecurityPolicy := mk_policy {
  serialized : str;
  policy_source : PolicySource;
  policy_disposition : ContentSecurityPolicyDisposition;
  directive_set : list Directive }.

(** Names whose first directive has a character outside ASCII; [names] are
    those met so far. *)
Fixpoint invalid_first_names (directives : list str) (names : list str) : list str :=
  match directives with
  | [] => []
  | d :: directives =>
      match lower <$> head (split_ascii_whitespace d) with
      | None => invalid_first_names directives names
      | Some name =>
          if bool_decide (name ∈ names) then invalid_first_names directives names
          else (if negb (is_ascii_str d) then [name] else []) ++ invalid_first_names directives (name :: names)
      end
  end.

Section policy.
Context `{CC : !CspCrate}.

Definition parse (serialized : str) (source : PolicySource) (disposition : ContentSecurityPolicyDisposition)
    : ContentSecurityPolicy :=
  let directives := policy_parse serialized source disposition in
  let invalid := if is_ascii_str serialized then [] else invalid_first_names (split_on 59 serialized) [] in
  mk_policy serialized source disposition
    (filter (λ d, directive_is_valid d = true ∧ directive_name d ∉ invalid) directives).

Definition from_header (serialized : str) (disposition : ContentSecurityPolicyDisposition) : ContentSecurityPolicy :=
  parse serialized SourceHeader disposition.
Definition from_meta (serialized : str) : ContentSecurityPolicy := parse serialized SourceMeta Enforce.

Definition sources (p : ContentSecurityPolicy) (name : str) : option (list str) :=
  '(_, d) ← list_find (λ d, directive_name d = name) (directive_set p); Some (directive_value d).

Definition policy_is_empty (p : ContentSecurityPolicy) : bool := bool_decide (directive_set p = []).

Definition content_security_policy_header_values (headers : list (str * list N)) (header_name : str)
    : list ContentSecurityPolicy :=
  let values := (headers_to_byte_strings headers) in
  let fields := filter (λ h, eq_ignore_ascii_case h.1 header_name = true) values in
  let texts := trim_ascii <$> (fields ≫= λ h, split_on 44 h.2) in
  let disposition := if bool_decide (header_name = chars "content-security-policy-report-only") then Report else Enforce in
  filter (λ p, policy_is_empty p = false) ((λ t, from_header t disposition) <$> texts).

Definition content_security_policy_headers (headers : list (str * list N)) : list ContentSecurityPolicy :=
  content_security_policy_header_values headers (chars "content-security-policy").
Definition content_security_policy_report_only_headers (headers : list (str * list N)) : list ContentSecurityPolicy :=
  content_security_policy_header_values headers (chars "content-security-policy-report-only").

Definition directive_source_list (p : ContentSecurityPolicy) (name : str) : option (list str) := sources p name.
End policy.

#[global] Instance Directive_eq_dec : EqDecision Directive.
Proof. solve_decision. Defined.

(** ** Reports *)

(** What reports read and rewrite of a [Url]. *)
Class UrlText (Url : Type) := {
  url_parse : str → option Url;
  url_to_string : Url → str;
  without_username : Url → Url;
  without_password : Url → Url;
  without_query : Url → Url }.
#[global] Hint Mode UrlText ! : typeclass_instances.

(** [BTreeMap<String, String>] *)
Notation ContentSecurityPolicyReportingEndpoints := (gmap str str).

Record ContentSecurityPolicyUrlViolation := mk_violation {
  effective_directive : str;
  blocked_uri : str;
  document_uri : str;
  original_policy : str;
  disposition : ContentSecurityPolicyDisposition;
  report_uri_endpoints : list str;
  report_to_endpoints : list str;
  sample : str;
  source_file : str;
  line_number : Z;
  column_number : Z }.

Definition is_network_scheme (s : str) : bool :=
  bool_decide (s ∈ [chars "http"; chars "https"; chars "ws"; chars "wss"]).
Definition is_http_scheme (s : str) : bool := bool_decide (s ∈ [chars "http"; chars "https"]).

(** The loop over characters of [split_quoted_header_list]; [cur] is the part
    since [start], reversed. *)
Fixpoint quoted_list_loop (s cur : str) (in_quote escaped : bool) (parts : list str) : list str :=
  match s with
  | [] => let part := trim (reverse cur) in if is_empty part then parts else parts ++ [part]
  | c :: s =>
      if escaped then quoted_list_loop s (c :: cur) in_quote false parts
      else if (c =? 92) && in_quote then quoted_list_loop s (c :: cur) in_quote true parts
      else if c =? 34 then quoted_list_loop s (c :: cur) (negb in_quote) false parts
      else if (c =? 44) && negb in_quote then
        let part := trim (reverse cur) in
        quoted_list_loop s [] in_quote false (if is_empty part then parts else parts ++ [part])
      else quoted_list_loop s (c :: cur) in_quote false parts
  end.

Definition split_quoted_header_list (value : str) : list str := quoted_list_loop value [] false false [].

Fixpoint unescape_loop (s output : str) : option str :=
  match s with
  | [] => Some output
  | c :: s => if c =? 92 then match s with [] => None | d :: s => unescape_loop s (output ++ [d]) end
              else unescape_loop s (output ++ [c])
  end.

Definition parse_quoted_header_value (value : str) : option str :=
  value ← strip_prefix [34] value; value ← strip_suffix [34] value; unescape_loop value [].

Section reports.
Context {Url : Type} `{UC : !UrlCrate Url, SU : !StyleUrl Url, UT : !UrlText Url}.

Definition content_security_policy_report_uri_endpoints (p : ContentSecurityPolicy) (protected_url : Url) : list str :=
  match sources p (chars "report-to") with
  | Some _ => []
  | None =>
      url_to_string <$> filter (λ u, is_http_scheme (scheme u) = true)
        (omap (url_join protected_url) (default [] (sources p (chars "report-uri"))))
  end.

Definition content_security_policy_report_to_endpoints (p : ContentSecurityPolicy)
    (endpoints : ContentSecurityPolicyReportingEndpoints) : list str :=
  match sources p (chars "report-to") with
  | None => []
  | Some l => match head l with
              | None => []
              | Some group => match endpoints !! group with Some e => [e] | None => [] end
              end
  end.

(** One member of a [Reporting-Endpoints] field. *)
Definition add_reporting_endpoint (protected_url : Url) (endpoints : ContentSecurityPolicyReportingEndpoints)
    (member : str) : ContentSecurityPolicyReportingEndpoints :=
  match ('(raw_group, raw_endpoint) ← split_once_at 61 member;
         let group := trim raw_group in
         if is_empty group then None else
         endpoint ← parse_quoted_header_value (trim raw_endpoint);
         u ← url_join protected_url endpoint;
         if is_http_scheme (scheme u) then Some (group, url_to_string u) else None) with
  | Some (group, endpoint) => <[group := endpoint]> endpoints
  | None => endpoints
  end.

Definition parse_reporting_endpoints_header (value : str) (protected_url : Url)
    (endpoints : ContentSecurityPolicyReportingEndpoints) : ContentSecurityPolicyReportingEndpoints :=
  foldl (add_reporting_endpoint protected_url) endpoints (split_quoted_header_list value).

Definition content_security_policy_reporting_endpoints_from_headers (headers : list (str * list N)) (protected_url : Url)
    : ContentSecurityPolicyReportingEndpoints :=
  foldl (λ endpoints h, parse_reporting_endpoints_header (decode_header_value h.2) protected_url endpoints) ∅
    (filter (λ h, eq_ignore_ascii_case h.1 (chars "reporting-endpoints") = true) headers).

Definition csp_url_for_report (u : Url) : str :=
  if negb (is_network_scheme (scheme u)) then scheme u
  else url_to_string (without_fragment (without_password (without_username u))).

Definition content_security_policy_source_file_for_report (source_file : str) : str :=
  match url_parse (Url := Url) source_file with
  | None => []
  | Some u =>
      if negb (is_network_scheme (scheme u)) then scheme u
      else url_to_string (without_fragment (without_query (without_password (without_username u))))
  end.
End reports.
