(* ===== verification/CspSources.v ===== *)
(** Source expressions of a Content Security Policy (moli-csp: the parsing
    and matching half of [checks.rs]).  A host source is parsed without the
    [url] crate; its grammar, its parser and the match against a request are
    related here.  Percent-decoding is that of the [percent-encoding] crate
    and a parameter. *)
From stdpp Require Import base list numbers option gmap strings.
From S2P Require Import Prelude Utf8 CookieTypes StyleDiscovery CspPolicy.

#[local] Open Scope N_scope.

Class PercentCrate := { percent_decode_str : str → list N }.

(** ** Keywords, nonces and hashes *)

(** The slice drops the two quotes, which are one byte each. *)
Definition csp_keyword_eq (source keyword : str) : bool :=
  (byte_len source =? byte_len keyword + 2) && starts_with source [39] && ends_with source [39] &&
  eq_ignore_ascii_case (take (length source - 2) (drop 1 source)) keyword.

Definition csp_nonce_source_value (source : str) : option str :=
  value ← strip_prefix (chars "'nonce-") source; strip_suffix [39] value.

Definition csp_nonce_source_matches (source nonce : str) : bool :=
  match csp_nonce_source_value source with Some value => bool_decide (value = nonce) | None => false end.

Inductive CspHashAlgorithm := CspSha256 | CspSha384 | CspSha512.

(** [strum::EnumString], lowercase and case-insensitive *)
Definition csp_hash_algorithm_parse (s : str) : option CspHashAlgorithm :=
  if eq_ignore_ascii_case s (chars "sha256") then Some CspSha256
  else if eq_ignore_ascii_case s (chars "sha384") then Some CspSha384
  else if eq_ignore_ascii_case s (chars "sha512") then Some CspSha512
  else None.

Definition digest_algorithm (a : CspHashAlgorithm) : DigestAlgorithm :=
  match a with CspSha256 => Sha256 | CspSha384 => Sha384 | CspSha512 => Sha512 end.

Record CspHashSourceValue := mk_hash_source { csp_algorithm : CspHashAlgorithm; csp_digest : str }.

Definition hash_source_value (value : str) : option CspHashSourceValue :=
  '(algorithm, digest) ← split_once_at 45 value;
  if is_empty digest then None else
  algorithm ← csp_hash_algorithm_parse algorithm;
  Some (mk_hash_source algorithm digest).

Definition csp_hash_source_value (source : str) : option CspHashSourceValue :=
  source ← strip_prefix [39] source; source ← strip_suffix [39] source; hash_source_value source.

Definition is_nonce_or_hash (source : str) : bool :=
  match csp_nonce_source_value source with
  | Some _ => true
  | None => match csp_hash_source_value source with Some _ => true | None => false end
  end.

(** ** Host sources *)
Record CspHostSource := mk_host_source {
  hs_scheme : option str;
  hs_host : str;
  hs_port : option str;
  hs_path : option str }.

Definition split_authority_and_path (rest : str) : str * option str :=
  match split_once_at 47 rest with
  | Some (authority, path) => (authority, Some (47 :: path))
  | None => (rest, None)
  end.

(** [pchar] without the raw [;] and [,] *)
Definition is_path_byte (b : N) : bool := is_ascii_alphanumeric b || bool_decide (b ∈ chars "/-._~!$&'()*+=:@").

Fixpoint path_bytes_valid (bytes : list N) : bool :=
  match bytes with
  | [] => true
  | b :: bytes =>
      if b =? 37
      then match bytes with
           | h :: l :: bytes => is_ascii_hexdigit h && is_ascii_hexdigit l && path_bytes_valid bytes
           | _ => false
           end
      else is_path_byte b && path_bytes_valid bytes
  end.

Definition csp_path_part_is_valid (path : str) : bool :=
  starts_with path [47] && negb (starts_with path [47; 47]) && path_bytes_valid (utf8 path).

Definition scheme_is_valid (scheme : str) : bool :=
  match utf8 scheme with
  | [] => false
  | b :: bytes => is_ascii_alphabetic b && forallb (λ b, is_ascii_alphanumeric b || bool_decide (b ∈ chars "+-.")) bytes
  end.

Definition port_is_valid (port : str) : bool :=
  bool_decide (port = [42]) || (negb (is_empty port) && forallb is_ascii_digit (utf8 port)).

Definition label_is_valid (label : str) : bool :=
  negb (is_empty label) && forallb (λ b, is_ascii_alphanumeric b || (b =? 45)) (utf8 label).

Definition host_is_valid (host : str) : bool :=
  if bool_decide (host = [42]) then true
  else let labels := default host (strip_prefix (chars "*.") host) in
       let labels := default labels (strip_suffix [46] labels) in
       forallb label_is_valid (split_on 46 labels).

Definition parse_host_source (source : str) : option CspHostSource :=
  '(scheme, rest) ←
    match split_once (chars "://") source with
    | Some (scheme, rest) =>
        if contains scheme 47 then Some (None, source)
        else if scheme_is_valid scheme then Some (Some scheme, rest) else None
    | None => Some (None, source)
    end;
  let '(authority, path) := split_authority_and_path rest in
  '(host, port) ←
    match split_once_at 58 authority with
    | Some (host, port) => if port_is_valid port then Some (host, Some port) else None
    | None => Some (authority, None)
    end;
  if negb (host_is_valid host) then None else
  if match path with Some path => negb (csp_path_part_is_valid path) | None => false end then None else
  Some (mk_host_source scheme host port path).

Definition source_has_path (source : str) : bool :=
  let after_scheme :=
    match split_once (chars "://") source with
    | Some (_, rest) => rest
    | None => default source (strip_prefix (chars "//") source)
    end in
  contains after_scheme 47.

(** ** Matching *)
Inductive CspSchemeMatch := SchemeNotMatching | SchemeExact | WebSocketToHttp | SchemeUpgrade.
Inductive CspPortMatch := PortNotMatching | PortExact | PortWildcard | PortUpgrade.
#[global] Instance CspSchemeMatch_eq_dec : EqDecision CspSchemeMatch.
Proof. solve_decision. Defined.
#[global] Instance CspPortMatch_eq_dec : EqDecision CspPortMatch.
Proof. solve_decision. Defined.

Definition csp_scheme_match (source_scheme request_scheme : str) : CspSchemeMatch :=
  let eq := eq_ignore_ascii_case in
  if eq source_scheme request_scheme then SchemeExact
  else if (eq source_scheme (chars "ws") && eq request_scheme (chars "http"))
       || (eq source_scheme (chars "wss") && eq request_scheme (chars "https")) then WebSocketToHttp
  else if (eq source_scheme (chars "http") && eq request_scheme (chars "https"))
       || (eq source_scheme (chars "ws") && (eq request_scheme (chars "wss") || eq request_scheme (chars "https")))
       then SchemeUpgrade
  else SchemeNotMatching.

Definition default_port_for_scheme (scheme : str) : option N :=
  let s := lower scheme in
  if bool_decide (s ∈ [chars "http"; chars "ws"]) then Some 80
  else if bool_decide (s ∈ [chars "https"; chars "wss"]) then Some 443
  else if bool_decide (s = chars "ftp") then Some 21
  else None.

Definition is_default_port_for_scheme (port : N) (scheme : str) : bool :=
  let s := lower scheme in
  (bool_decide (s ∈ [chars "http"; chars "ws"]) && (port =? 80)) ||
  (bool_decide (s ∈ [chars "https"; chars "wss"]) && (port =? 443)).

Definition csp_scheme_and_port_match (s : CspSchemeMatch) (p : CspPortMatch) : bool :=
  if bool_decide (p = PortNotMatching) then false
  else if negb (bool_decide (s = SchemeUpgrade) || bool_decide (p = PortUpgrade)) then true
  else bool_decide (s = SchemeUpgrade) && (bool_decide (p = PortUpgrade) || bool_decide (p = PortWildcard)).

Definition csp_host_part_matches (source_host request_host : str) : bool :=
  if bool_decide (source_host = [42]) then negb (is_empty request_host)
  else match strip_prefix [42] source_host with
       | Some suffix =>
           let r := utf8 request_host in let s := utf8 suffix in
           bool_decide (length s ≤ length r)%nat && eq_ignore_ascii_case (drop (length r - length s) r) s
       | None => eq_ignore_ascii_case source_host request_host
       end.

(** [str::parse::<u16>] *)
Definition parse_u16 (s : str) : option N :=
  n ← parse_u64_chars s; if n <=? 65535 then Some n else None.

Section matching.
Context {Url : Type} `{UC : !UrlCrate Url, PC : !PercentCrate}.

(** The loop over both lists of segments. *)
Fixpoint path_segments_match (source request : list str) : bool :=
  match source with
  | [] => bool_decide (request = [])
  | s :: source =>
      match request with
      | [] => false
      | r :: request =>
          if is_empty s && bool_decide (source = []) then true
          else if negb (bool_decide (percent_decode_str s = percent_decode_str r)) then false
          else path_segments_match source request
      end
  end.

Definition csp_path_part_matches (source_path request_path : str) : bool :=
  if is_empty source_path || (bool_decide (source_path = [47]) && is_empty request_path) then true
  else path_segments_match (split_on 47 source_path) (split_on 47 request_path).

Definition csp_port_match (source_scheme : str) (source_port : option N) (source_port_wildcard : bool)
    (request_url : Url) : CspPortMatch :=
  if source_port_wildcard then PortWildcard
  else
    let request_port := port_or_known_default request_url in
    if bool_decide (csp_scheme_match source_scheme (scheme request_url) = SchemeUpgrade)
       && bool_decide (source_port ∈ [Some 80; Some 443]) && bool_decide (request_port = Some 443)
    then PortUpgrade
    else if bool_decide (is_Some source_port) && bool_decide (source_port = request_port) then PortExact
    else PortNotMatching.

Definition host_source_port_match (source_scheme : str) (source_port : option str) (request_url : Url) : CspPortMatch :=
  match source_port with
  | Some port =>
      if bool_decide (port = [42]) then PortWildcard
      else match parse_u16 port with
           | Some n => csp_port_match source_scheme (Some n) false request_url
           | None => PortNotMatching
           end
  | None => csp_port_match source_scheme (default_port_for_scheme source_scheme) false request_url
  end.

Definition self_source_matches (protected_url request_url : Url) : bool :=
  if bool_decide (host_str protected_url ≠ host_str request_url) then false else
  let scheme_match := csp_scheme_match (scheme protected_url) (scheme request_url) in
  let port_match := csp_port_match (scheme protected_url) (port_or_known_default protected_url) false request_url in
  if bool_decide (scheme_match = SchemeExact) && bool_decide (port_match = PortExact) then true else
  let is_default (u : Url) :=
    match port_or_known_default u with Some p => is_default_port_for_scheme p (scheme u) | None => false end in
  (bool_decide (port_match = PortExact) || (is_default protected_url && is_default request_url)) &&
  (eq_ignore_ascii_case (scheme request_url) (chars "https") || eq_ignore_ascii_case (scheme request_url) (chars "wss")
   || eq_ignore_ascii_case (scheme protected_url) (chars "http")).

Definition source_url_matches (source : str) (protected_url request_url : Url)
    (redirect_status : ContentSecurityPolicyRedirectStatus) : bool :=
  match parse_host_source source with
  | None => false
  | Some s =>
      let source_scheme := default (scheme protected_url) (hs_scheme s) in
      let scheme_match := csp_scheme_match source_scheme (scheme request_url) in
      if bool_decide (scheme_match = SchemeNotMatching) then false else
      let port_match := host_source_port_match source_scheme (hs_port s) request_url in
      if negb (csp_scheme_and_port_match scheme_match port_match) then false else
      match host_str request_url with
      | None => false
      | Some request_host =>
          if negb (csp_host_part_matches (hs_host s) request_host) then false else
          if bool_decide (hs_port s = Some [42]) && negb (bool_decide (hs_host s = chars "127.0.0.1"))
             && bool_decide (is_Some (Ip.parse_ipv4 (hs_host s))) then false else
          bool_decide (redirect_status = FollowedRedirect)
          || match hs_path s with Some path => csp_path_part_matches path (path_of request_url) | None => true end
      end
  end.

Definition source_expression_matches (source : str) (protected_url request_url : Url)
    (redirect_status : ContentSecurityPolicyRedirectStatus) : bool :=
  if csp_keyword_eq source (chars "self") then self_source_matches protected_url request_url
  else if bool_decide (source = [42]) then is_network_scheme (scheme request_url)
  else match strip_suffix [58] source with
       | Some scheme' =>
           if negb (contains scheme' 47) && negb (is_empty scheme')
           then negb (bool_decide (csp_scheme_match scheme' (scheme request_url) = SchemeNotMatching))
           else source_url_matches source protected_url request_url redirect_status
       | None => source_url_matches source protected_url request_url redirect_status
       end.
End matching.

(** ** Texts and their bytes *)
Lemma csp_strip_prefix_Some p s t : strip_prefix p s = Some t ↔ s = p ++ t.
Proof.
  revert s. induction p as [|c p IH]; intros s; simpl; [split; [by intros [= ->] | by intros ->] |].
  destruct s as [|d s]; [done |]. destruct (N.eqb_spec c d) as [->|Hne].
  - rewrite IH. split; [by intros -> | by intros [= ->]].
  - split; [done | intros [= ? ?]; congruence].
Qed.

Lemma strip_suffix_Some p s t : strip_suffix p s = Some t ↔ s = t ++ p.
Proof.
  unfold strip_suffix. rewrite fmap_Some. split.
  - intros (r & Hr%csp_strip_prefix_Some & ->). apply (f_equal reverse) in Hr.
    by rewrite reverse_involutive, reverse_app, reverse_involutive in Hr.
  - intros ->. exists (reverse t). rewrite reverse_involutive. split; [| done].
    apply csp_strip_prefix_Some. by rewrite reverse_app.
Qed.

Lemma split_once_at_Some p s a b : split_once_at p s = Some (a, b) ↔ s = a ++ p :: b ∧ p ∉ a.
Proof.
  split; [| intros [-> Hp]; by apply split_once_at_app].
  revert a. induction s as [|c s IH]; intros a; simpl; [done |]. destruct (N.eqb_spec c p) as [->|Hne].
  - intros [= <- <-]. split; [done | apply not_elem_of_nil].
  - destruct (split_once_at p s) as [[a' b']|]; [| done]. intros [= <- <-].
    destruct (IH a' eq_refl) as [-> Hp]. split; [done |]. apply not_elem_of_cons. auto.
Qed.

Lemma split_once_at_None p s : split_once_at p s = None ↔ p ∉ s.
Proof.
  induction s as [|c s IH]; simpl; [split; [intros _; apply not_elem_of_nil | done] |].
  rewrite not_elem_of_cons, <-IH. destruct (N.eqb_spec c p) as [->|Hne]; [split; [done | by intros [? _]] |].
  destruct (split_once_at p s) as [[??]|]; simpl; split; try done; auto. by intros [_ ?].
Qed.

Lemma csp_split_once_Some pat s a b : split_once pat s = Some (a, b) → s = a ++ pat ++ b.
Proof.
  revert a. induction s as [|c s IH]; intros a; simpl;
    destruct (strip_prefix pat _) as [t|] eqn:Hp; try done.
  - intros [= <- <-]. by apply csp_strip_prefix_Some in Hp.
  - intros [= <- <-]. by apply csp_strip_prefix_Some in Hp.
  - destruct (split_once pat s) as [[a' b']|]; [| done]. intros [= <- <-]. simpl. f_equal. by apply IH.
Qed.

Lemma csp_split_once_app c p o s : c ∉ o → split_once (c :: p) (o ++ (c :: p) ++ s) = Some (o, s).
Proof.
  induction o as [|d o IH]; intros Hc.
  - assert (H : strip_prefix (c :: p) ((c :: p) ++ s) = Some s) by by apply csp_strip_prefix_Some.
    simpl app in *. cbn [split_once]. by rewrite H.
  - apply not_elem_of_cons in Hc as [Hne Hc]. rewrite <-app_comm_cons. cbn [split_once].
    assert (strip_prefix (c :: p) (d :: o ++ (c :: p) ++ s) = None) as ->
      by (simpl; destruct (N.eqb_spec c d); congruence).
    by rewrite IH.
Qed.

Lemma forallb_forall_in {A} (p : A → bool) l : forallb p l = true ↔ ∀ x, x ∈ l → p x = true.
Proof. rewrite forallb_forall. by setoid_rewrite list_elem_of_In. Qed.

(** A test that only ASCII passes may be run on bytes or on characters. *)
Lemma forallb_utf8 p s : (∀ b, p b = true → b < 128) → forallb p (utf8 s) = forallb p s.
Proof.
  intros Hp. induction s as [|c s IH]; [done |]. rewrite utf8_cons, forallb_app, IH. simpl. f_equal.
  unfold encode_utf8. destruct (N.ltb_spec c 128); [simpl; apply andb_true_r |].
  assert (Hno : ∀ b, 128 <= b → p b = false) by (intros b Hb; destruct (p b) eqn:E; [apply Hp in E; lia | done]).
  rewrite (Hno c) by done. repeat case_match; simpl; rewrite Hno; try done; lia.
Qed.

Lemma is_ascii_alphanumeric_lt b : is_ascii_alphanumeric b = true → b < 128.
Proof.
  unfold is_ascii_alphanumeric, is_ascii_alphabetic, is_ascii_digit.
  rewrite !orb_true_iff, !andb_true_iff, !N.leb_le. lia.
Qed.

Lemma split_on_elem p s c : c ∈ s → c = p ∨ ∃ w, w ∈ split_on p s ∧ c ∈ w.
Proof.
  induction s as [|d s IH]; intros Hc; [by apply elem_of_nil in Hc |]. simpl.
  destruct (N.eqb_spec d p) as [->|Hne].
  - apply elem_of_cons in Hc as [->|Hc]; [by left |]. destruct (IH Hc) as [?|(w & Hw & Hcw)]; [by left |].
    right. exists w. split; [by right | done].
  - destruct (split_on p s) as [|w ws] eqn:E.
    + right. exists [d]. split; [by left |]. apply elem_of_cons in Hc as [->|Hc]; [by left |].
      exfalso. destruct s as [|e s]; [by apply elem_of_nil in Hc |]. simpl in E.
      destruct (e =? p); [done |]. by destruct (split_on p s).
    + apply elem_of_cons in Hc as [->|Hc]; [right; exists (d :: w); split; by left |].
      destruct (IH Hc) as [?|(v & Hv & Hcv)]; [by left |]. right. apply elem_of_cons in Hv as [->|Hv].
      * exists (d :: w). split; [by left | by right].
      * exists v. split; [by right | done].
Qed.

(** ** The grammar of host sources *)
Definition print_host_source (hs : CspHostSource) : str :=
  match hs_scheme hs with Some s => s ++ chars "://" | None => [] end ++ hs_host hs ++
  match hs_port hs with Some p => chars ":" ++ p | None => [] end ++ default [] (hs_path hs).

Definition valid_host_source (hs : CspHostSource) : bool :=
  match hs_scheme hs with Some s => scheme_is_valid s | None => true end &&
  host_is_valid (hs_host hs) &&
  match hs_port hs with Some p => port_is_valid p | None => true end &&
  match hs_path hs with Some p => csp_path_part_is_valid p | None => true end.

Lemma scheme_chars s c : scheme_is_valid s = true → c ∈ s → c ≠ 58 ∧ c ≠ 47.
Proof.
  intros Hs Hc. assert (Ha : forallb (λ b, is_ascii_alphanumeric b || bool_decide (b ∈ chars "+-.")) s = true).
  { rewrite <-forallb_utf8.
    - unfold scheme_is_valid in Hs. destruct (utf8 s) as [|b bs]; [done |]. apply andb_prop in Hs as [Hb Hbs].
      simpl. unfold is_ascii_alphanumeric at 1. by rewrite Hb, Hbs.
    - intros b [Hb%is_ascii_alphanumeric_lt|Hb%bool_decide_eq_true]%orb_prop; [done |].
      repeat (apply elem_of_cons in Hb as [->|Hb]; [done |]). by apply elem_of_nil in Hb. }
  rewrite forallb_forall_in in Ha. specialize (Ha c Hc). split; intros ->; by vm_compute in Ha.
Qed.

Lemma port_chars p c : port_is_valid p = true → c ∈ p → c ≠ 58 ∧ c ≠ 47.
Proof.
  unfold port_is_valid. intros [->%bool_decide_eq_true|[_ Hp]%andb_prop]%orb_prop Hc.
  - apply list_elem_of_singleton in Hc as ->. done.
  - rewrite forallb_utf8 in Hp
      by (intros b; unfold is_ascii_digit; rewrite andb_true_iff, !N.leb_le; lia).
    rewrite forallb_forall_in in Hp. specialize (Hp c Hc). split; intros ->; by vm_compute in Hp.
Qed.

Lemma port_nonempty p : port_is_valid p = true → p ≠ [].
Proof. by intros ? ->. Qed.

Lemma label_chars w c : label_is_valid w = true → c ∈ w → c ≠ 58 ∧ c ≠ 47.
Proof.
  unfold label_is_valid. intros [_ Hw]%andb_prop Hc. rewrite forallb_utf8 in Hw.
  - rewrite forallb_forall_in in Hw. specialize (Hw c Hc). split; intros ->; by vm_compute in Hw.
  - intros b [Hb%is_ascii_alphanumeric_lt|Hb%N.eqb_eq]%orb_prop; lia.
Qed.

Lemma labels_chars l c : forallb label_is_valid (split_on 46 l) = true → c ∈ l → c ≠ 58 ∧ c ≠ 47.
Proof.
  intros Hl Hc. rewrite forallb_forall_in in Hl. destruct (split_on_elem 46 l c Hc) as [->|(w & Hw & Hcw)]; [done |].
  eapply label_chars; [by apply Hl | done].
Qed.

Lemma host_chars h c : host_is_valid h = true → c ∈ h → c ≠ 58 ∧ c ≠ 47.
Proof.
  unfold host_is_valid. case_bool_decide as Hstar; [intros _ Hc; subst; apply list_elem_of_singleton in Hc as ->; done |].
  set (l := default h (strip_prefix (chars "*.") h)). set (l' := default l (strip_suffix [46] l)).
  intros Hl Hc. assert (Hcl : c ∈ l ∨ c ∈ chars "*.").
  { unfold l. destruct (strip_prefix (chars "*.") h) as [t|] eqn:E; simpl; [| by left].
    apply csp_strip_prefix_Some in E. rewrite E in Hc. apply elem_of_app in Hc as [?|?]; auto. }
  destruct Hcl as [Hcl|Hcl].
  - assert (Hcl' : c ∈ l' ∨ c = 46).
    { unfold l'. destruct (strip_suffix [46] l) as [t|] eqn:E; simpl; [| by left].
      apply strip_suffix_Some in E. rewrite E in Hcl. apply elem_of_app in Hcl as [?|?%list_elem_of_singleton]; auto. }
    destruct Hcl' as [Hcl'| ->]; [by eapply labels_chars | done].
  - repeat (apply elem_of_cons in Hcl as [->|Hcl]; [done |]). by apply elem_of_nil in Hcl.
Qed.

Lemma contains_spec s c : contains s c = true ↔ c ∈ s.
Proof.
  unfold contains. rewrite existsb_exists. setoid_rewrite <-list_elem_of_In. split.
  - by intros (x & Hx & ->%N.eqb_eq).
  - intros Hc. exists c. by rewrite N.eqb_refl.
Qed.

(** Where the first occurrence of a character is. *)
Lemma first_occurrence (c : N) a b a' b' : a ++ c :: b = a' ++ c :: b' → c ∉ a → c ∉ a' → a = a' ∧ b = b'.
Proof.
  intros H Ha Ha'. pose proof (split_once_at_app c a b Ha) as H1. rewrite H, split_once_at_app in H1 by done.
  injection H1 as -> ->. done.
Qed.

Definition authority (hs : CspHostSource) : str :=
  hs_host hs ++ match hs_port hs with Some p => chars ":" ++ p | None => [] end.

Lemma valid_parts hs : valid_host_source hs = true →
  match hs_scheme hs with Some s => scheme_is_valid s = true | None => True end ∧
  host_is_valid (hs_host hs) = true ∧
  match hs_port hs with Some p => port_is_valid p = true | None => True end ∧
  match hs_path hs with Some p => csp_path_part_is_valid p = true | None => True end.
Proof.
  unfold valid_host_source. intros [[[Hs Hh]%andb_prop Hp]%andb_prop Hq]%andb_prop.
  destruct (hs_scheme hs), (hs_port hs), (hs_path hs); done.
Qed.

Lemma authority_no_slash hs : valid_host_source hs = true → 47 ∉ authority hs.
Proof.
  intros (_ & Hh & Hp & _)%valid_parts Hin. unfold authority in Hin. apply elem_of_app in Hin as [Hin|Hin].
  - by destruct (host_chars _ _ Hh Hin).
  - destruct (hs_port hs) as [p|]; [| by apply elem_of_nil in Hin].
    apply elem_of_cons in Hin as [?|Hin]; [done |]. by destruct (port_chars _ _ Hp Hin).
Qed.

(** An authority does not end with a colon. *)
Lemma authority_end hs a : valid_host_source hs = true → authority hs ≠ a ++ [58].
Proof.
  intros (_ & Hh & Hp & _)%valid_parts Heq. unfold authority in Heq. destruct (hs_port hs) as [p|].
  - induction p as [|x p _] using rev_ind; [done |]. rewrite !app_assoc in Heq. apply app_inj_tail in Heq as [_ ->].
    destruct (port_chars _ 58 Hp); [| done]. apply elem_of_app. right. by left.
  - rewrite app_nil_r in Heq. destruct (host_chars _ 58 Hh); [| done]. rewrite Heq. apply elem_of_app. right. by left.
Qed.

Lemma path_shape p : csp_path_part_is_valid p = true → ∃ q, p = 47 :: q.
Proof.
  unfold csp_path_part_is_valid, starts_with. intros [[H%bool_decide_eq_true _]%andb_prop _]%andb_prop.
  destruct p as [|c p]; [done |]. simpl in H. injection H as ->. eauto.
Qed.

Lemma split_authority hs : valid_host_source hs = true →
  split_authority_and_path (authority hs ++ default [] (hs_path hs)) = (authority hs, hs_path hs).
Proof.
  intros Hv. pose proof (authority_no_slash _ Hv) as Hn. apply valid_parts in Hv as (_ & _ & _ & Hq).
  unfold split_authority_and_path. destruct (hs_path hs) as [p|]; simpl.
  - destruct (path_shape p Hq) as [q ->]. by rewrite split_once_at_app.
  - rewrite app_nil_r. by rewrite (proj2 (split_once_at_None _ _)).
Qed.

Lemma split_port hs : valid_host_source hs = true →
  match split_once_at 58 (authority hs) with
  | Some (host, port) => if port_is_valid port then Some (host, Some port) else None
  | None => Some (authority hs, None)
  end = Some (hs_host hs, hs_port hs).
Proof.
  intros (_ & Hh & Hp & _)%valid_parts. assert (Hn : 58 ∉ hs_host hs) by (intros Hin; by destruct (host_chars _ _ Hh Hin)).
  unfold authority. destruct (hs_port hs) as [p|].
  - change (chars ":" ++ p) with (58 :: p). rewrite split_once_at_app by done. by rewrite Hp.
  - rewrite app_nil_r. by rewrite (proj2 (split_once_at_None _ _)).
Qed.

(** What follows the scheme of a printed source has no scheme of its own. *)
Lemma no_second_scheme hs a b : valid_host_source hs = true →
  split_once (chars "://") (authority hs ++ default [] (hs_path hs)) = Some (a, b) → 47 ∈ a.
Proof.
  intros Hv Hs. apply csp_split_once_Some in Hs. pose proof (authority_no_slash _ Hv) as Hn.
  destruct (decide (47 ∈ a)) as [?|Hna]; [done | exfalso].
  assert (Hrest : authority hs ++ default [] (hs_path hs) = (a ++ [58]) ++ 47 :: 47 :: b)
    by (rewrite Hs; by rewrite <-app_assoc).
  pose proof (valid_parts _ Hv) as (_ & _ & _ & Hq). destruct (hs_path hs) as [p|]; simpl in Hrest.
  - destruct (path_shape p Hq) as [q ->].
    apply first_occurrence in Hrest as [Hend _]; [by eapply authority_end | done |].
    intros [?|Hin]%elem_of_app; [done |]. by apply list_elem_of_singleton in Hin.
  - rewrite app_nil_r in Hrest. apply Hn. rewrite Hrest. apply elem_of_app. right. by left.
Qed.

Lemma print_split hs : print_host_source hs =
  match hs_scheme hs with Some s => s ++ chars "://" | None => [] end ++ authority hs ++ default [] (hs_path hs).
Proof. unfold print_host_source, authority. by rewrite !app_assoc. Qed.

Lemma parse_print hs : valid_host_source hs = true → parse_host_source (print_host_source hs) = Some hs.
Proof.
  intros Hv. rewrite print_split. pose proof (valid_parts _ Hv) as (Hs & Hh & _ & Hq).
  set (rest := authority hs ++ default [] (hs_path hs)).
  assert (Hsplit : match split_once (chars "://") (match hs_scheme hs with Some s => s ++ chars "://" | None => [] end ++ rest) with
    | Some (scheme, r) =>
        if contains scheme 47 then Some (None, match hs_scheme hs with Some s => s ++ chars "://" | None => [] end ++ rest)
        else if scheme_is_valid scheme then Some (Some scheme, r) else None
    | None => Some (None, match hs_scheme hs with Some s => s ++ chars "://" | None => [] end ++ rest)
    end = Some (hs_scheme hs, rest)).
  { destruct (hs_scheme hs) as [s|].
    - assert (Hc : ∀ c, c ∈ s → c ≠ 58 ∧ c ≠ 47) by (intros c; by apply scheme_chars).
      change (chars "://") with (58 :: [47; 47]). rewrite <-app_assoc, csp_split_once_app by (intros Hin; by destruct (Hc _ Hin)).
      destruct (contains s 47) eqn:E; [apply contains_spec in E; by destruct (Hc _ E) |]. by rewrite Hs.
    - rewrite app_nil_l. destruct (split_once (chars "://") rest) as [[a b]|] eqn:E; [| done].
      apply no_second_scheme in E; [| done]. apply contains_spec in E. by rewrite E. }
  unfold parse_host_source. rewrite Hsplit. cbn [mbind option_bind]. unfold rest. rewrite split_authority by done.
  rewrite split_port by done. cbn [mbind option_bind]. rewrite Hh. simpl.
  destruct hs as [sc ho po pa]; simpl in *. destruct pa as [p|]; [by rewrite Hq | done].
Qed.

Lemma parse_valid s hs : parse_host_source s = Some hs → valid_host_source hs = true ∧ print_host_source hs = s.
Proof.
  unfold parse_host_source. intros H.
  apply bind_Some in H as ([sc rest] & Hsc & H). destruct (split_authority_and_path rest) as [au pa] eqn:Hau.
  apply bind_Some in H as ([ho po] & Hport & H). destruct (host_is_valid ho) eqn:Hh; [| done]. simpl in H.
  assert (Hpre : s = match sc with Some x => x ++ chars "://" | None => [] end ++ rest ∧
                 match sc with Some x => scheme_is_valid x = true | None => True end).
  { destruct (split_once (chars "://") s) as [[x r]|] eqn:E; [| by injection Hsc as <- <-].
    destruct (contains x 47); [by injection Hsc as <- <- |]. destruct (scheme_is_valid x) eqn:Hx; [| done].
    injection Hsc as <- <-. split; [| done]. apply csp_split_once_Some in E. by rewrite <-app_assoc. }
  assert (Hrest : rest = au ++ default [] pa).
  { unfold split_authority_and_path in Hau. destruct (split_once_at 47 rest) as [[x y]|] eqn:E.
    - injection Hau as <- <-. by apply split_once_at_Some in E as [-> _].
    - injection Hau as <- <-. simpl. by rewrite app_nil_r. }
  assert (Hau' : au = ho ++ match po with Some p => chars ":" ++ p | None => [] end ∧
                 match po with Some p => port_is_valid p = true | None => True end).
  { destruct (split_once_at 58 au) as [[x y]|] eqn:E.
    - destruct (port_is_valid y) eqn:Hy; [| done]. injection Hport as <- <-. by apply split_once_at_Some in E as [-> _].
    - injection Hport as <- <-. by rewrite app_nil_r. }
  destruct Hpre as [-> Hsv], Hau' as [-> Hpv]. rewrite Hrest.
  assert (Hqv : match pa with Some p => csp_path_part_is_valid p = true | None => True end ∧
                hs = mk_host_source sc ho po pa).
  { destruct pa as [p|]; [destruct (csp_path_part_is_valid p); [by injection H as <- | done] | by injection H as <-]. }
  destruct Hqv as [Hqv ->]. split.
  - unfold valid_host_source. simpl. rewrite Hh. destruct sc, po, pa; simpl; by rewrite ?Hsv, ?Hpv, ?Hqv.
  - rewrite print_split. done.
Qed.

(** C35: The parser of host sources is the grammar.  A text parses to a host
    source exactly when the source is valid in each part and the text is the
    printed form of it: scheme, [://], host, colon and port, path.  So no part
    is normalised or lost, nothing outside the grammar is accepted (no
    credentials, no addresses in brackets, no relative forms), and every
    source of the grammar, also one whose path contains [://], is read back
    as it was written. *)
Theorem host_sources_parse_exactly s hs :
  parse_host_source s = Some hs ↔ valid_host_source hs = true ∧ print_host_source hs = s.
Proof. split; [apply parse_valid | intros [Hv <-]; by apply parse_print]. Qed.

(** ** What a host source admits *)
Definition http := chars "http".
Definition https := chars "https".
Definition ws := chars "ws".
Definition wss := chars "wss".

(** Lower-case schemes: the secure upgrades, and all pairs that match. *)
Definition upgrades (a b : str) : Prop := (a = http ∧ b = https) ∨ (a = ws ∧ (b = wss ∨ b = https)).
Definition scheme_admits (a b : str) : Prop := a = b ∨ (a = ws ∧ b = http) ∨ (a = wss ∧ b = https) ∨ upgrades a b.
Definition secure (a : str) : Prop := a = https ∨ a = wss.

#[global] Instance scheme_admits_dec a b : Decision (scheme_admits a b).
Proof. unfold scheme_admits, upgrades. apply _. Defined.

#[global] Instance upgrades_dec a b : Decision (upgrades a b).
Proof. unfold upgrades. apply _. Defined.

(** Case analysis on the comparisons of a scheme match. *)
Ltac scheme_cases :=
  repeat case_bool_decide; simpl in *; subst; try done; try congruence; intuition congruence.

Lemma scheme_match_spec x y :
  let a := lower x in let b := lower y in
  (csp_scheme_match x y = SchemeUpgrade ↔ upgrades a b) ∧
  (csp_scheme_match x y = SchemeNotMatching ↔ ¬ scheme_admits a b).
Proof.
  intros a b. unfold csp_scheme_match, eq_ignore_ascii_case.
  change (to_ascii_lowercase <$> x) with a. change (to_ascii_lowercase <$> y) with b.
  change (to_ascii_lowercase <$> chars "ws") with ws. change (to_ascii_lowercase <$> chars "http") with http.
  change (to_ascii_lowercase <$> chars "wss") with wss. change (to_ascii_lowercase <$> chars "https") with https.
  assert (ws ≠ http ∧ ws ≠ https ∧ ws ≠ wss ∧ http ≠ https ∧ http ≠ wss ∧ https ≠ wss) as (?&?&?&?&?&?) by done.
  unfold scheme_admits, upgrades. clearbody a b.
  scheme_cases.
Qed.

(** The host of a request under a source host; a wildcard compares bytes
    from the end, ignoring the case of ASCII letters. *)
Definition host_admits (source_host request_host : str) : Prop :=
  match source_host with
  | 42 :: suffix =>
      if bool_decide (suffix = []) then request_host ≠ []
      else ∃ pre, to_ascii_lowercase <$> utf8 request_host = pre ++ (to_ascii_lowercase <$> utf8 suffix)
  | _ => lower source_host = lower request_host
  end.

Lemma ends_ignoring_case (r s : list N) :
  bool_decide (length s ≤ length r)%nat && eq_ignore_ascii_case (drop (length r - length s) r) s = true ↔
  ∃ pre, to_ascii_lowercase <$> r = pre ++ (to_ascii_lowercase <$> s).
Proof.
  rewrite andb_true_iff, bool_decide_eq_true, eq_ignore_ascii_case_spec, fmap_drop. split.
  - intros [Hlen Heq]. exists (take (length r - length s) (to_ascii_lowercase <$> r)). by rewrite <-Heq, take_drop.
  - intros [pre Hpre]. assert (Hl : (length r = length pre + length s)%nat).
    { apply (f_equal length) in Hpre. by rewrite length_app, !length_fmap in Hpre. }
    split; [lia |]. rewrite Hpre. replace (length r - length s)%nat with (length pre) by lia. by rewrite drop_app_length.
Qed.

Lemma host_match_spec sh rh : csp_host_part_matches sh rh = true ↔ host_admits sh rh.
Proof.
  unfold csp_host_part_matches, host_admits. destruct (decide (sh = [42])) as [->|Hne].
  - rewrite !bool_decide_true by done. unfold is_empty. rewrite negb_true_iff. apply bool_decide_eq_false.
  - rewrite bool_decide_false by done. destruct (strip_prefix [42] sh) as [suffix|] eqn:E.
    + apply csp_strip_prefix_Some in E. simpl in E. subst sh. rewrite (bool_decide_false (suffix = [])) by (by intros ->).
      apply ends_ignoring_case.
    + rewrite eq_ignore_ascii_case_spec.
      assert (Hn : ∀ t, sh ≠ 42 :: t) by (intros t ->; by rewrite (proj2 (csp_strip_prefix_Some [42] (42 :: t) t)) in E).
      destruct sh as [|c sh]; [done |].
      assert (c ≠ 42) by (intros ->; by eapply Hn). clear -H. repeat case_match; done.
Qed.

Section admits.
Context {Url : Type} `{UC : !UrlCrate Url, PC : !PercentCrate}.

(** The port a source names, or that of its scheme. *)
Definition source_port (source_scheme : str) (port : option str) : option N :=
  match port with Some p => parse_u16 p | None => default_port_for_scheme source_scheme end.

(** A wildcard; on an upgrade a default port against 443; otherwise the same
    port. *)
Definition port_admits (source_scheme : str) (port : option str) (request : Url) : Prop :=
  port = Some [42] ∨
  ∃ n, source_port source_scheme port = Some n ∧
    if decide (upgrades (lower source_scheme) (lower (scheme request)))
    then (n = 80 ∨ n = 443) ∧ port_or_known_default request = Some 443
    else port_or_known_default request = Some n.

Lemma csp_port_match_spec a n (request : Url) :
  csp_port_match a n false request =
    if decide (upgrades (lower a) (lower (scheme request)) ∧ (n = Some 80 ∨ n = Some 443) ∧
               port_or_known_default request = Some 443) then PortUpgrade
    else if decide (is_Some n ∧ n = port_or_known_default request) then PortExact else PortNotMatching.
Proof.
  unfold csp_port_match. destruct (scheme_match_spec a (scheme request)) as [Hup _].
  rewrite (bool_decide_ext (n ∈ [Some 80; Some 443]) (n = Some 80 ∨ n = Some 443))
    by (rewrite !elem_of_cons, elem_of_nil; intuition).
  rewrite (bool_decide_ext _ _ Hup). repeat case_bool_decide; repeat case_decide; simpl; intuition.
Qed.

Lemma port_match_spec a port (request : Url) :
  csp_scheme_match a (scheme request) ≠ SchemeNotMatching →
  csp_scheme_and_port_match (csp_scheme_match a (scheme request)) (host_source_port_match a port request) = true ↔
  port_admits a port request.
Proof.
  intros Hm. destruct (scheme_match_spec a (scheme request)) as [Hup _].
  set (m := csp_scheme_match a (scheme request)) in *. unfold port_admits.
  assert (Hport : host_source_port_match a port request =
    if decide (port = Some [42]) then PortWildcard
    else match source_port a port with
         | Some n => csp_port_match a (Some n) false request
         | None => PortNotMatching
         end).
  { unfold host_source_port_match, source_port. destruct port as [p|].
    - case_bool_decide; case_decide; try congruence.
    - rewrite decide_False by done. unfold csp_port_match. destruct (default_port_for_scheme a); [done |].
      rewrite (bool_decide_false (None ∈ _)), andb_false_r by (rewrite !elem_of_cons, elem_of_nil; intuition done).
      done. }
  rewrite Hport. unfold csp_scheme_and_port_match. case_decide as Hstar.
  - split; [by left | intros _]. destruct m; done.
  - destruct (source_port a port) as [n|]; [| split; [done | intros [?|(n & ? & _)]; done]].
    rewrite csp_port_match_spec. destruct (decide (upgrades _ _)) as [Hu|Hu].
    + rewrite (proj2 Hup Hu). case_decide as H1.
      * split; [intros _; right; exists n | done]. destruct H1 as (_ & [[= ->]|[= ->]] & ?); auto.
      * assert (Hno : ¬ ((n = 80 ∨ n = 443) ∧ port_or_known_default request = Some 443))
          by (intros [[->| ->] Hp]; apply H1; auto).
        split; [by case_decide |]. intros [?|(n' & [= <-] & Hn)]; [done | by apply Hno in Hn].
    + assert (m ≠ SchemeUpgrade) by (intros Heq; by apply Hu, Hup).
      rewrite decide_False by (by intros [? _]). case_decide as H1.
      * split; [intros _; right; exists n; by destruct H1 as [_ ->] | intros _]. by destruct m.
      * split; [done |]. intros [?|(n' & [= <-] & Hp)]; [done |]. exfalso. apply H1. by rewrite Hp.
Qed.

(** A source path that ends with a slash admits what lies below it, any other
    the same path; segments are compared after percent-decoding, so an encoded
    slash is no boundary. *)
Definition path_admits (source_path request_path : str) : Prop :=
  let decoded (p : str) := percent_decode_str <$> split_on 47 p in
  source_path = [] ∨ (source_path = [47] ∧ request_path = []) ∨
  (∃ init, split_on 47 source_path = init ++ [[]] ∧
     (percent_decode_str <$> init) `prefix_of` decoded request_path ∧
     (length init < length (split_on 47 request_path))%nat) ∨
  decoded source_path = decoded request_path.

Lemma segments_match_spec ss rs :
  path_segments_match ss rs = true ↔
  (∃ init, ss = init ++ [[]] ∧ (percent_decode_str <$> init) `prefix_of` (percent_decode_str <$> rs) ∧
     (length init < length rs)%nat) ∨
  percent_decode_str <$> ss = percent_decode_str <$> rs.
Proof.
  revert rs. induction ss as [|s ss IH]; intros rs; simpl.
  - rewrite bool_decide_eq_true. split; [intros ->; by right |].
    intros [(init & H & _)|H]; [by destruct init | symmetry in H; by apply fmap_nil_inv in H].
  - destruct rs as [|r rs]; [split; [done |]; intros [(init & _ & _ & H)|H]; [simpl in H; lia | done] |].
    destruct (decide (s = [] ∧ ss = [])) as [[-> ->]|Hne].
    { simpl. split; [intros _; left; exists []; split_and!; [done | apply prefix_nil | simpl; lia] | done]. }
    assert (is_empty s && bool_decide (ss = []) = false) as ->.
    { unfold is_empty. repeat case_bool_decide; simpl; try done. exfalso. by apply Hne. }
    assert (Hinit : (∃ init, s :: ss = init ++ [[]] ∧ (percent_decode_str <$> init) `prefix_of` (percent_decode_str <$> r :: rs) ∧
      (length init < length (r :: rs))%nat) ↔ percent_decode_str s = percent_decode_str r ∧ ∃ init, ss = init ++ [[]] ∧
      (percent_decode_str <$> init) `prefix_of` (percent_decode_str <$> rs) ∧ (length init < length rs)%nat).
    { split.
      - intros ([|s' init] & Heq & Hp & Hl); [simpl in Heq; injection Heq as -> ->; by destruct Hne |].
        simpl in Heq. injection Heq as <- ->. simpl in Hp, Hl. split; [by eapply prefix_cons_inv_1 |].
        exists init. split_and!; [done | by eapply prefix_cons_inv_2 | lia].
      - intros (Hd & init & -> & Hp & Hl). exists (s :: init). simpl. rewrite Hd. split_and!; [done | by apply prefix_cons | lia]. }
    rewrite Hinit, !fmap_cons. case_bool_decide as Hd; cbn [negb].
    + rewrite IH, Hd. split; [intros [?|Heq]; [by left | right; by f_equal] | intros [[_ ?]|[= ?]]; auto].
    + split; [done |]. intros [[? _]|[= ? _]]; done.
Qed.

Lemma path_match_spec p r : csp_path_part_matches p r = true ↔ path_admits p r.
Proof.
  unfold csp_path_part_matches, path_admits, is_empty. destruct (decide (p = [])) as [->|Hp]; [by split; [left |] |].
  rewrite (bool_decide_false (p = [])) by done. simpl.
  destruct (decide (p = [47] ∧ r = [])) as [[-> ->]|Hpr]; [split; auto |].
  assert (bool_decide (p = [47]) && bool_decide (r = []) = false) as ->.
  { repeat case_bool_decide; simpl; try done. exfalso. by apply Hpr. }
  rewrite segments_match_spec. intuition.
Qed.

(** What it means for a host source of a page at [protected_url] to admit a
    request. *)
Record admits (hs : CspHostSource) (protected_url request_url : Url)
    (redirect_status : ContentSecurityPolicyRedirectStatus) : Prop := {
  admits_scheme : scheme_admits (lower (default (scheme protected_url) (hs_scheme hs))) (lower (scheme request_url));
  admits_port : port_admits (default (scheme protected_url) (hs_scheme hs)) (hs_port hs) request_url;
  admits_host : ∃ h, host_str request_url = Some h ∧ host_admits (hs_host hs) h;
  admits_address : hs_port hs = Some [42] → is_Some (Ip.parse_ipv4 (hs_host hs)) → hs_host hs = chars "127.0.0.1";
  admits_path : redirect_status = NoRedirect →
    match hs_path hs with Some p => path_admits p (path_of request_url) | None => True end }.

Lemma parsed_source_matches source hs (protected_url request_url : Url) redirect_status :
  parse_host_source source = Some hs →
  source_url_matches source protected_url request_url redirect_status = true ↔
  admits hs protected_url request_url redirect_status.
Proof.
  intros Hp. unfold source_url_matches. rewrite Hp. set (sc := default (scheme protected_url) (hs_scheme hs)).
  destruct (scheme_match_spec sc (scheme request_url)) as [_ Hno].
  destruct (decide (csp_scheme_match sc (scheme request_url) = SchemeNotMatching)) as [Hm|Hm].
  { rewrite bool_decide_true by done. split; [done |]. intros [Hs _ _ _ _]. by apply Hno in Hm. }
  rewrite bool_decide_false by done. pose proof (port_match_spec sc (hs_port hs) request_url Hm) as Hport.
  assert (Hsch : scheme_admits (lower sc) (lower (scheme request_url))).
  { destruct (decide (scheme_admits (lower sc) (lower (scheme request_url)))); [done |].
    exfalso. apply Hm. by apply Hno. }
  destruct (csp_scheme_and_port_match _ _); simpl; [| split; [done |]; intros [_ H _ _ _]; by apply Hport in H].
  destruct (host_str request_url) as [h|] eqn:Hh; [| split; [done |]; intros [_ _ (? & ? & _) _ _]; congruence].
  pose proof (host_match_spec (hs_host hs) h) as Hhost.
  destruct (csp_host_part_matches (hs_host hs) h); simpl;
    [| split; [done |]; intros [_ _ (h' & Hh' & H) _ _]; rewrite Hh in Hh'; injection Hh' as <-; by apply Hhost in H].
  assert (Hip : bool_decide (hs_port hs = Some [42]) && negb (bool_decide (hs_host hs = chars "127.0.0.1"))
             && bool_decide (is_Some (Ip.parse_ipv4 (hs_host hs))) = false ↔
    (hs_port hs = Some [42] → is_Some (Ip.parse_ipv4 (hs_host hs)) → hs_host hs = chars "127.0.0.1")).
  { destruct (decide (hs_host hs = chars "127.0.0.1")) as [Hl|Hl];
      [rewrite (bool_decide_true (hs_host hs = _)) by done | rewrite (bool_decide_false (hs_host hs = _)) by done].
    - simpl. rewrite andb_false_r. split; auto.
    - simpl. rewrite andb_true_r. repeat case_bool_decide; simpl; split; try done; intros H'; exfalso; auto. }
  destruct (_ && bool_decide (is_Some _)).
  { split; [done |]. intros [_ _ _ H _]. by apply Hip in H. }
  destruct Hip as [Hip _]. specialize (Hip eq_refl).
  assert (Hpath : match hs_path hs with Some path => csp_path_part_matches path (path_of request_url) | None => true end = true
    ↔ match hs_path hs with Some p => path_admits p (path_of request_url) | None => True end)
    by (destruct (hs_path hs); [apply path_match_spec | done]).
  rewrite orb_true_iff, Hpath, bool_decide_eq_true. split.
  - intros Hor. split; [done | by apply Hport | exists h; split; [done | by apply Hhost] | done |].
    intros ->. by destruct Hor.
  - intros [_ _ _ _ H]. destruct redirect_status; [right; by apply H | by left].
Qed.

Lemma secure_kept a b : scheme_admits a b → secure a → secure b.
Proof.
  unfold scheme_admits, upgrades, secure. assert (ws ≠ https ∧ ws ≠ wss ∧ http ≠ https ∧ http ≠ wss) as (?&?&?&?) by done.
  intuition congruence.
Qed.

(** C13: A host source matches exactly what it admits.  A source text matches a
    request if and only if it is the printed form of a valid host source that
    admits the request: the scheme is the same, the plain counterpart of a
    WebSocket scheme or a secure upgrade; the port is the same, covered by a
    wildcard, or a default port upgraded to 443 together with the scheme; the
    host is the same or below the wildcard; a wildcard port goes with no other
    address than 127.0.0.1; and, unless the request was redirected, the path
    is the same or below a path that ends with a slash.  In particular a
    secure source never admits a request that is not. *)
Theorem source_url_matches_exact source (protected_url request_url : Url) redirect_status :
  (source_url_matches source protected_url request_url redirect_status = true ↔
   ∃ hs, valid_host_source hs = true ∧ print_host_source hs = source ∧
     admits hs protected_url request_url redirect_status) ∧
  ∀ hs, admits hs protected_url request_url redirect_status →
    secure (lower (default (scheme protected_url) (hs_scheme hs))) → secure (lower (scheme request_url)).
Proof.
  split; [| intros hs [Hs _ _ _ _]; by apply secure_kept]. split.
  - intros H. destruct (parse_host_source source) as [hs|] eqn:Hp; [| unfold source_url_matches in H; by rewrite Hp in H].
    destruct (parse_valid _ _ Hp) as [Hv Hs]. exists hs. split_and!; [done | done |].
    by eapply parsed_source_matches.
  - intros (hs & Hv & <- & Ha). eapply parsed_source_matches; [by apply parse_print | done].
Qed.
End admits.

(** ** Witnesses *)
Example host_source_examples :
  parse_host_source (chars "https://*.Example.com:8443/a/") =
    Some (mk_host_source (Some (chars "https")) (chars "*.Example.com") (Some (chars "8443")) (Some (chars "/a/"))) ∧
  parse_host_source (chars "a/b://c") = Some (mk_host_source None (chars "a") None (Some (chars "/b://c"))) ∧
  parse_host_source (chars "user@host") = None ∧ parse_host_source (chars "[::1]") = None ∧
  parse_host_source (chars "a:") = None ∧ parse_host_source (chars "a//b") = None.
Proof. by vm_compute. Qed.
