(* ===== verification/CspChecks.v ===== *)
(** The decisions of a Content Security Policy (moli-csp: [checks.rs] above
    the source expressions): which directive governs a request, whether its
    source list allows it, and the violation that is reported.  Digests and
    base64 are parameters ([DigestCrate]). *)
From stdpp Require Import base list numbers option gmap strings.
From S2P Require Import Prelude Utf8 CookieTypes StyleDiscovery CspPolicy CspSources.

#[local] Open Scope N_scope.

Class DigestCrate := {
  digest_bytes : DigestAlgorithm → list N → list N;
  base64_encode : list N → list N }.

Definition CONNECT_SRC := chars "connect-src".
Definition CHILD_SRC := chars "child-src".
Definition DEFAULT_SRC := chars "default-src".
Definition FRAME_ANCESTORS := chars "frame-ancestors".
Definition FRAME_SRC := chars "frame-src".
Definition IMG_SRC := chars "img-src".
Definition MANIFEST_SRC := chars "manifest-src".
Definition MEDIA_SRC := chars "media-src".
Definition FONT_SRC := chars "font-src".
Definition SCRIPT_SRC_ATTR := chars "script-src-attr".
Definition SCRIPT_SRC_ELEM := chars "script-src-elem".
Definition SCRIPT_SRC := chars "script-src".
Definition STYLE_SRC_ATTR := chars "style-src-attr".
Definition STYLE_SRC_ELEM := chars "style-src-elem".
Definition STYLE_SRC := chars "style-src".
Definition WORKER_SRC := chars "worker-src".
Definition REQUIRE_TRUSTED_TYPES_FOR := chars "require-trusted-types-for".
Definition TRUSTED_TYPES := chars "trusted-types".
Definition SANDBOX := chars "sandbox".

(** ** Kinds *)
Definition resource_effective_directive (k : ContentSecurityPolicyResourceKind) : str :=
  match k with
  | DocumentConnect => CONNECT_SRC
  | DocumentFrame => FRAME_SRC
  | DocumentImage => IMG_SRC
  | DocumentManifest => MANIFEST_SRC
  | DocumentMedia => MEDIA_SRC
  | DocumentFont => FONT_SRC
  | DocumentScriptElement | WorkerDynamicModuleImport => SCRIPT_SRC_ELEM
  | DocumentStyleElement => STYLE_SRC_ELEM
  | SharedWorkerScript | WorkerStaticModuleImport => WORKER_SRC
  | WorkerConnect => CONNECT_SRC
  | WorkerScript => SCRIPT_SRC
  end.

Definition resource_directive_fallbacks (k : ContentSecurityPolicyResourceKind) : list str :=
  match k with
  | DocumentConnect => [CONNECT_SRC; DEFAULT_SRC]
  | DocumentFrame => [FRAME_SRC; CHILD_SRC; DEFAULT_SRC]
  | DocumentImage => [IMG_SRC; DEFAULT_SRC]
  | DocumentManifest => [MANIFEST_SRC; DEFAULT_SRC]
  | DocumentMedia => [MEDIA_SRC; DEFAULT_SRC]
  | DocumentFont => [FONT_SRC; DEFAULT_SRC]
  | DocumentScriptElement => [SCRIPT_SRC_ELEM; SCRIPT_SRC; DEFAULT_SRC]
  | DocumentStyleElement => [STYLE_SRC_ELEM; STYLE_SRC; DEFAULT_SRC]
  | SharedWorkerScript => [WORKER_SRC; CHILD_SRC; SCRIPT_SRC; DEFAULT_SRC]
  | WorkerConnect => [CONNECT_SRC; DEFAULT_SRC]
  | WorkerDynamicModuleImport => [SCRIPT_SRC_ELEM; SCRIPT_SRC; DEFAULT_SRC]
  | WorkerScript => [SCRIPT_SRC; DEFAULT_SRC]
  | WorkerStaticModuleImport => [WORKER_SRC; CHILD_SRC; SCRIPT_SRC; DEFAULT_SRC]
  end.

Definition non_url_effective_directive (k : ContentSecurityPolicyNonUrlKind) : str :=
  match k with
  | DocumentInlineEventHandler => SCRIPT_SRC_ATTR
  | DocumentInlineNavigation | DocumentInlineScript => SCRIPT_SRC_ELEM
  | DocumentInlineStyleAttribute => STYLE_SRC_ATTR
  | DocumentInlineStyleElement => STYLE_SRC_ELEM
  | Eval | TrustedTypesEval => SCRIPT_SRC
  | WasmEval => SCRIPT_SRC
  end.

Definition non_url_directive_fallbacks (k : ContentSecurityPolicyNonUrlKind) : list str :=
  match k with
  | DocumentInlineEventHandler => [SCRIPT_SRC_ATTR; SCRIPT_SRC; DEFAULT_SRC]
  | DocumentInlineNavigation | DocumentInlineScript => [SCRIPT_SRC_ELEM; SCRIPT_SRC; DEFAULT_SRC]
  | DocumentInlineStyleAttribute => [STYLE_SRC_ATTR; STYLE_SRC; DEFAULT_SRC]
  | DocumentInlineStyleElement => [STYLE_SRC_ELEM; STYLE_SRC; DEFAULT_SRC]
  | Eval | TrustedTypesEval => [SCRIPT_SRC; DEFAULT_SRC]
  | WasmEval => [SCRIPT_SRC; DEFAULT_SRC]
  end.

Definition non_url_blocked_uri (k : ContentSecurityPolicyNonUrlKind) : str :=
  match k with
  | DocumentInlineEventHandler | DocumentInlineNavigation | DocumentInlineScript
  | DocumentInlineStyleAttribute | DocumentInlineStyleElement => chars "inline"
  | Eval | TrustedTypesEval => chars "eval"
  | WasmEval => chars "wasm-eval"
  end.

(** [find_map] over the fallbacks. *)
Fixpoint first_source_list (p : ContentSecurityPolicy) (directives : list str) : option (list str) :=
  match directives with
  | [] => None
  | d :: directives =>
      match directive_source_list p d with Some l => Some l | None => first_source_list p directives end
  end.

Definition effective_source_list_with_directive (p : ContentSecurityPolicy) (k : ContentSecurityPolicyResourceKind)
    : option (str * list str) :=
  l ← first_source_list p (resource_directive_fallbacks k); Some (resource_effective_directive k, l).

(** ** Trusted types and the sandbox *)
Definition has_keyword (sources : list str) (keyword : str) : bool := existsb (λ s, csp_keyword_eq s keyword) sources.
Definition has_token (sources : list str) (token : str) : bool := existsb (λ s, eq_ignore_ascii_case s token) sources.

Definition policy_requires_trusted_types_for_script (p : ContentSecurityPolicy) : bool :=
  match directive_source_list p REQUIRE_TRUSTED_TYPES_FOR with
  | Some l => has_keyword l (chars "script")
  | None => false
  end.

Definition policy_allows_trusted_types_eval (p : ContentSecurityPolicy) : bool :=
  match first_source_list p [SCRIPT_SRC; DEFAULT_SRC] with
  | Some l => has_keyword l (chars "trusted-types-eval")
  | None => false
  end.

Definition policy_allows_trusted_type_policy_name (p : ContentSecurityPolicy) (policy_name : str) : bool :=
  match directive_source_list p TRUSTED_TYPES with
  | None => true
  | Some l => existsb (λ s, bool_decide (s = [42]) ||
      (negb (is_empty s) && bool_decide (s = policy_name) &&
       forallb (λ b, is_ascii_alphanumeric b || bool_decide (b ∈ chars "-#=_/@.%")) (utf8 s))) l
  end.

Definition content_security_policy_requires_trusted_types_for_script (policies : list ContentSecurityPolicy) : bool :=
  existsb policy_requires_trusted_types_for_script policies.

Definition content_security_policy_allows_trusted_types_eval (policies : list ContentSecurityPolicy) : bool :=
  existsb policy_requires_trusted_types_for_script policies && existsb policy_allows_trusted_types_eval policies.

Definition content_security_policy_allows_trusted_type_policy_name (policies : list ContentSecurityPolicy)
    (policy_name : str) : bool :=
  forallb (λ p, policy_allows_trusted_type_policy_name p policy_name) policies.

Definition policy_sandboxes_document_domain (p : ContentSecurityPolicy) : bool :=
  bool_decide (is_Some (directive_source_list p SANDBOX)).

Definition policy_forces_opaque_origin (p : ContentSecurityPolicy) : bool :=
  match directive_source_list p SANDBOX with
  | Some l => negb (has_token l (chars "allow-same-origin"))
  | None => false
  end.

Definition policy_sandbox_allows (token : str) (p : ContentSecurityPolicy) : option bool :=
  l ← directive_source_list p SANDBOX; Some (has_token l token).

Definition policy_sandbox_allows_scripts := policy_sandbox_allows (chars "allow-scripts").
Definition policy_sandbox_allows_modals := policy_sandbox_allows (chars "allow-modals").
Definition policy_sandbox_allows_popups_to_escape := policy_sandbox_allows (chars "allow-popups-to-escape-sandbox").

Definition content_security_policy_sandboxes_document_domain (policies : list ContentSecurityPolicy) : bool :=
  existsb policy_sandboxes_document_domain policies.
Definition content_security_policy_forces_opaque_origin (policies : list ContentSecurityPolicy) : bool :=
  existsb policy_forces_opaque_origin policies.
Definition content_security_policy_sandbox_allows_scripts (policies : list ContentSecurityPolicy) : bool :=
  forallb (λ p, default true (policy_sandbox_allows_scripts p)) policies.
Definition content_security_policy_sandbox_allows_modals (policies : list ContentSecurityPolicy) : bool :=
  forallb (λ p, default true (policy_sandbox_allows_modals p)) policies.
Definition content_security_policy_sandbox_allows_top_navigation (policies : list ContentSecurityPolicy) : bool :=
  forallb (λ p, match directive_source_list p SANDBOX with
                | Some l => has_token l (chars "allow-top-navigation")
                | None => true
                end) policies.

Fixpoint popups_loop (policies : list ContentSecurityPolicy) (has_sandbox : bool) : bool :=
  match policies with
  | [] => has_sandbox
  | p :: policies =>
      match policy_sandbox_allows_popups_to_escape p with
      | None => popups_loop policies has_sandbox
      | Some allows => if allows then popups_loop policies true else false
      end
  end.

Definition content_security_policy_sandbox_allows_popups_to_escape (policies : list ContentSecurityPolicy) : bool :=
  popups_loop policies false.

(** ** Source lists *)
Definition normalized_source_list (sources : list str) : list str := filter (λ s, s ≠ []) sources.

Definition source_list_activates_strict_dynamic (sources : list str) : bool :=
  has_keyword sources (chars "strict-dynamic") && existsb is_nonce_or_hash sources.

(** The request's nonce, trimmed and not empty, is in the list. *)
Definition nonce_allows (nonce : option str) (sources : list str) : bool :=
  match trim <$> nonce with
  | Some n => negb (is_empty n) && existsb (λ s, csp_nonce_source_matches s n) sources
  | None => false
  end.

Definition script_integrity_matches_hash_source (integrity : option str) (sources : list str) : bool :=
  match integrity with
  | None => false
  | Some integrity =>
      let hashes := integrity_metadata_hashes integrity in
      negb (bool_decide (length hashes = 0%nat)) &&
      forallb (λ h, existsb (λ s, bool_decide (digest_algorithm (csp_algorithm s) = hash_algorithm h)
                                  && bool_decide (csp_digest s = hash_digest h))
                      (omap csp_hash_source_value sources)) hashes
  end.

Section digests.
Context `{DC : !DigestCrate}.

Definition base64url_byte (b : N) : N := if b =? 45 then 43 else if b =? 95 then 47 else b.

Definition inline_source_matches_hash (source : str) (h : CspHashSourceValue) : bool :=
  bool_decide (base64_encode (digest_bytes (digest_algorithm (csp_algorithm h)) (utf8 source))
               = base64url_byte <$> utf8 (csp_digest h)).

Definition hash_allows (source : str) (sources : list str) : bool :=
  existsb (inline_source_matches_hash source) (omap csp_hash_source_value sources).

Definition inline_script_element_source_list_allows (sources : list str) (source : str)
    (request : ContentSecurityPolicyScriptElementRequest) : bool :=
  let sources := normalized_source_list sources in
  if nonce_allows (script_nonce request) sources then true
  else if hash_allows source sources then true
  else
    let has_strict_dynamic := has_keyword sources (chars "strict-dynamic") in
    if has_strict_dynamic && negb (parser_inserted request) then true
    else negb (existsb is_nonce_or_hash sources) && negb has_strict_dynamic
         && has_keyword sources (chars "unsafe-inline").

Definition inline_style_element_source_list_allows (sources : list str) (source : str)
    (request : ContentSecurityPolicyStyleElementRequest) : bool :=
  let sources := normalized_source_list sources in
  if nonce_allows (style_nonce request) sources then true
  else if hash_allows source sources then true
  else negb (existsb is_nonce_or_hash sources) && has_keyword sources (chars "unsafe-inline").

Definition inline_event_handler_source_list_allows (sources : list str) (source : str) : bool :=
  if negb (existsb is_nonce_or_hash sources) && has_keyword sources (chars "unsafe-inline") then true
  else if negb (has_keyword sources (chars "unsafe-hashes")) then false
  else hash_allows source sources.

Definition non_url_source_list_allows (k : ContentSecurityPolicyNonUrlKind) (sources : list str) (source : option str)
    : bool :=
  match k with
  | DocumentInlineEventHandler | DocumentInlineNavigation | DocumentInlineStyleAttribute =>
      inline_event_handler_source_list_allows sources (default [] source)
  | DocumentInlineScript => has_keyword sources (chars "unsafe-inline")
  | DocumentInlineStyleElement => has_keyword sources (chars "unsafe-inline")
  | Eval => has_keyword sources (chars "unsafe-eval")
  | TrustedTypesEval => existsb (λ s, csp_keyword_eq s (chars "unsafe-eval") || csp_keyword_eq s (chars "trusted-types-eval")) sources
  | WasmEval => existsb (λ s, csp_keyword_eq s (chars "unsafe-eval") || csp_keyword_eq s (chars "wasm-unsafe-eval")) sources
  end.
End digests.

Definition trusted_types_sink_violation_sample (sink sample : str) : str := sink ++ chars "|" ++ take 40 sample.

Definition inline_source_violation_sample (sources : list str) (source : str) : str :=
  if negb (has_keyword sources (chars "report-sample")) then [] else take 40 source.

Section urls.
Context {Url : Type} `{UC : !UrlCrate Url, SU : !StyleUrl Url, UT : !UrlText Url}.
Context `{PC : !PercentCrate, DC : !DigestCrate}.

Definition is_none_list (sources : list str) : bool :=
  match sources with [s] => csp_keyword_eq s (chars "none") | _ => false end.

Definition normalized_source_list_allows_url (sources : list str) (protected_url request_url : Url)
    (redirect_status : ContentSecurityPolicyRedirectStatus) : bool :=
  if bool_decide (sources = []) then false
  else if is_none_list sources then false
  else existsb (λ s, negb (csp_keyword_eq s (chars "none"))
                     && source_expression_matches s protected_url request_url redirect_status) sources.

Definition source_list_allows (sources : list str) (protected_url request_url : Url)
    (redirect_status : ContentSecurityPolicyRedirectStatus) : bool :=
  normalized_source_list_allows_url (normalized_source_list sources) protected_url request_url redirect_status.

Definition frame_ancestor_source_list_allows (sources : list str) (protected_url ancestor_origin : Url) : bool :=
  if bool_decide (sources = []) || is_none_list sources then false
  else existsb (λ s, negb (csp_keyword_eq s (chars "none")) && negb (source_has_path s)
                     && source_expression_matches s protected_url ancestor_origin NoRedirect) sources.

Definition source_list_allows_script_element_request (sources : list str) (protected_url request_url : Url)
    (redirect_status : ContentSecurityPolicyRedirectStatus) (request : ContentSecurityPolicyScriptElementRequest) : bool :=
  let sources := normalized_source_list sources in
  if nonce_allows (script_nonce request) sources then true
  else if script_integrity_matches_hash_source (script_integrity request) sources then true
  else if source_list_activates_strict_dynamic sources then negb (parser_inserted request)
  else normalized_source_list_allows_url sources protected_url request_url redirect_status.

Definition source_list_allows_style_element_request (sources : list str) (protected_url request_url : Url)
    (redirect_status : ContentSecurityPolicyRedirectStatus) (request : ContentSecurityPolicyStyleElementRequest) : bool :=
  let sources := normalized_source_list sources in
  if nonce_allows (style_nonce request) sources then true
  else normalized_source_list_allows_url sources protected_url request_url redirect_status.

Inductive ContentSecurityPolicyUrlRequest :=
  | Standard
  | Script (request : ContentSecurityPolicyScriptElementRequest)
  | Style (request : ContentSecurityPolicyStyleElementRequest).

Definition source_list_allows_resource_request (sources : list str) (protected_url request_url : Url)
    (redirect_status : ContentSecurityPolicyRedirectStatus) (request : ContentSecurityPolicyUrlRequest) : bool :=
  match request with
  | Standard =>
      source_list_allows_script_element_request sources protected_url request_url redirect_status script_request_default
  | Script request => source_list_allows_script_element_request sources protected_url request_url redirect_status request
  | Style request => source_list_allows_style_element_request sources protected_url request_url redirect_status request
  end.

(** ** Decisions *)
Definition content_security_policy_allows_url_with_redirect_status (policies : list ContentSecurityPolicy)
    (protected_url request_url : Url) (k : ContentSecurityPolicyResourceKind)
    (redirect_status : ContentSecurityPolicyRedirectStatus) : bool :=
  forallb (λ p, match effective_source_list_with_directive p k with
                | None => true
                | Some (_, l) => source_list_allows l protected_url request_url redirect_status
                end) policies.

Definition ensure_content_security_policy_allows_url_with_redirect_status (policies : list ContentSecurityPolicy)
    (protected_url request_url : Url) (k : ContentSecurityPolicyResourceKind)
    (redirect_status : ContentSecurityPolicyRedirectStatus) (error : str) : unit + str :=
  if content_security_policy_allows_url_with_redirect_status policies protected_url request_url k redirect_status
  then inl tt else inr error.

Definition ensure_content_security_policy_allows_url (policies : list ContentSecurityPolicy)
    (protected_url request_url : Url) (k : ContentSecurityPolicyResourceKind) (error : str) : unit + str :=
  ensure_content_security_policy_allows_url_with_redirect_status policies protected_url request_url k NoRedirect error.

(** The record the violation constructors share. *)
Definition violation_of (p : ContentSecurityPolicy) (protected_url : Url) (directive blocked document sample : str)
    (d : ContentSecurityPolicyDisposition) (endpoints : ContentSecurityPolicyReportingEndpoints)
    : ContentSecurityPolicyUrlViolation :=
  mk_violation directive blocked document (serialized p) d
    (content_security_policy_report_uri_endpoints p protected_url)
    (content_security_policy_report_to_endpoints p endpoints) sample document 0 0.

(** [Iterator::find_map] *)
Fixpoint find_map {A B} (f : A → option B) (l : list A) : option B :=
  match l with [] => None | x :: l => match f x with Some y => Some y | None => find_map f l end end.

Definition content_security_policy_frame_ancestors_violation (policies : list ContentSecurityPolicy)
    (protected_url : Url) (ancestor_origins : list (option Url)) (d : ContentSecurityPolicyDisposition)
    (endpoints : ContentSecurityPolicyReportingEndpoints) : option ContentSecurityPolicyUrlViolation :=
  find_map (λ p,
    l ← directive_source_list p FRAME_ANCESTORS;
    let l := normalized_source_list l in
    if forallb (λ o, match o with Some o => frame_ancestor_source_list_allows l protected_url o | None => false end)
         ancestor_origins then None
    else let document := csp_url_for_report protected_url in
         Some (violation_of p protected_url FRAME_ANCESTORS document document [] d endpoints)) policies.

(** [.._for_checked_url_with_redirect_status_disposition_reporting_endpoints_and_request] *)
Definition content_security_policy_url_violation (policies : list ContentSecurityPolicy)
    (protected_url checked_url blocked_url : Url) (k : ContentSecurityPolicyResourceKind)
    (redirect_status : ContentSecurityPolicyRedirectStatus) (d : ContentSecurityPolicyDisposition)
    (endpoints : ContentSecurityPolicyReportingEndpoints) (request : ContentSecurityPolicyUrlRequest)
    : option ContentSecurityPolicyUrlViolation :=
  find_map (λ p,
    '(directive, l) ← effective_source_list_with_directive p k;
    if source_list_allows_resource_request l protected_url checked_url redirect_status request then None
    else Some (violation_of p protected_url directive (csp_url_for_report blocked_url)
                 (csp_url_for_report protected_url) [] d endpoints)) policies.

(** The same for an ordinary request, and for one reported under the address
    that is checked. *)
Definition content_security_policy_checked_url_violation (policies : list ContentSecurityPolicy)
    (protected_url checked_url blocked_url : Url) (k : ContentSecurityPolicyResourceKind)
    (redirect_status : ContentSecurityPolicyRedirectStatus) (d : ContentSecurityPolicyDisposition)
    (endpoints : ContentSecurityPolicyReportingEndpoints) : option ContentSecurityPolicyUrlViolation :=
  content_security_policy_url_violation policies protected_url checked_url blocked_url k redirect_status d endpoints Standard.

Definition content_security_policy_request_url_violation (policies : list ContentSecurityPolicy)
    (protected_url request_url : Url) (k : ContentSecurityPolicyResourceKind)
    (redirect_status : ContentSecurityPolicyRedirectStatus) (d : ContentSecurityPolicyDisposition)
    (endpoints : ContentSecurityPolicyReportingEndpoints) : option ContentSecurityPolicyUrlViolation :=
  content_security_policy_checked_url_violation policies protected_url request_url request_url k redirect_status d endpoints.

Definition content_security_policy_script_element_url_violation (policies : list ContentSecurityPolicy)
    (protected_url request_url : Url) (redirect_status : ContentSecurityPolicyRedirectStatus)
    (d : ContentSecurityPolicyDisposition) (endpoints : ContentSecurityPolicyReportingEndpoints)
    (request : ContentSecurityPolicyScriptElementRequest) : option ContentSecurityPolicyUrlViolation :=
  content_security_policy_url_violation policies protected_url request_url request_url DocumentScriptElement
    redirect_status d endpoints (Script request).

Definition content_security_policy_style_element_url_violation (policies : list ContentSecurityPolicy)
    (protected_url request_url : Url) (redirect_status : ContentSecurityPolicyRedirectStatus)
    (d : ContentSecurityPolicyDisposition) (endpoints : ContentSecurityPolicyReportingEndpoints)
    (request : ContentSecurityPolicyStyleElementRequest) : option ContentSecurityPolicyUrlViolation :=
  content_security_policy_url_violation policies protected_url request_url request_url DocumentStyleElement
    redirect_status d endpoints (Style request).

Definition content_security_policy_trusted_types_sink_violation (policies : list ContentSecurityPolicy)
    (protected_url : Url) (sink sample : str) (d : ContentSecurityPolicyDisposition)
    (endpoints : ContentSecurityPolicyReportingEndpoints) : option ContentSecurityPolicyUrlViolation :=
  find_map (λ p,
    if negb (policy_requires_trusted_types_for_script p) then None
    else Some (violation_of p protected_url REQUIRE_TRUSTED_TYPES_FOR (chars "trusted-types-sink")
                 (url_to_string protected_url) (trusted_types_sink_violation_sample sink sample) d endpoints)) policies.

Definition non_url_source_list (p : ContentSecurityPolicy) (k : ContentSecurityPolicyNonUrlKind)
    : option (str * list str) :=
  l ← first_source_list p (non_url_directive_fallbacks k); Some (non_url_effective_directive k, l).

Definition content_security_policy_non_url_violation_with_source (p : ContentSecurityPolicy) (protected_url : Url)
    (k : ContentSecurityPolicyNonUrlKind) (source : option str) (d : ContentSecurityPolicyDisposition)
    (endpoints : ContentSecurityPolicyReportingEndpoints) : option ContentSecurityPolicyUrlViolation :=
  '(directive, l) ← non_url_source_list p k;
  if non_url_source_list_allows k l source then None
  else Some (violation_of p protected_url directive (non_url_blocked_uri k) (url_to_string protected_url)
               (match source with Some s => inline_source_violation_sample l s | None => [] end) d endpoints).

Definition content_security_policy_inline_source_violation (p : ContentSecurityPolicy) (protected_url : Url)
    (k : ContentSecurityPolicyNonUrlKind) (source : str) (d : ContentSecurityPolicyDisposition)
    (endpoints : ContentSecurityPolicyReportingEndpoints) : option ContentSecurityPolicyUrlViolation :=
  content_security_policy_non_url_violation_with_source p protected_url k (Some source) d endpoints.

Definition content_security_policy_inline_script_element_violation (p : ContentSecurityPolicy) (protected_url : Url)
    (source : str) (request : ContentSecurityPolicyScriptElementRequest) (d : ContentSecurityPolicyDisposition)
    (endpoints : ContentSecurityPolicyReportingEndpoints) : option ContentSecurityPolicyUrlViolation :=
  '(directive, l) ← non_url_source_list p DocumentInlineScript;
  if inline_script_element_source_list_allows l source request then None
  else Some (violation_of p protected_url directive (non_url_blocked_uri DocumentInlineScript)
               (url_to_string protected_url) (inline_source_violation_sample l source) d endpoints).

Definition content_security_policy_inline_style_element_violation (p : ContentSecurityPolicy) (protected_url : Url)
    (source : str) (request : ContentSecurityPolicyStyleElementRequest) (d : ContentSecurityPolicyDisposition)
    (endpoints : ContentSecurityPolicyReportingEndpoints) : option ContentSecurityPolicyUrlViolation :=
  '(directive, l) ← non_url_source_list p DocumentInlineStyleElement;
  if inline_style_element_source_list_allows l source request then None
  else Some (violation_of p protected_url directive (non_url_blocked_uri DocumentInlineStyleElement)
               (url_to_string protected_url) (inline_source_violation_sample l source) d endpoints).
End urls.
