(* ===== verification/CspGuarantees.v ===== *)
(** What the policy checks promise: every policy is enforced and reports name
    only what they may, the two entry points agree, and under
    ['strict-dynamic'] lists of hosts and ['unsafe-inline'] grant a script
    element nothing. *)
From stdpp Require Import base list numbers option gmap strings.
From S2P Require Import Prelude Utf8 CookieTypes StyleDiscovery CspPolicy CspSources CspChecks.

#[local] Open Scope N_scope.

(** ** [find_map] *)
Lemma find_map_None {A B} (f : A → option B) l : find_map f l = None ↔ ∀ x, x ∈ l → f x = None.
Proof.
  induction l as [|x l IH]; simpl; [split; [by intros _ y ?%elem_of_nil | done] |]. destruct (f x) eqn:E.
  - split; [done |]. intros H. specialize (H x ltac:(by left)). congruence.
  - rewrite IH. split; [intros H y [->|?]%elem_of_cons; auto | intros H y Hy; apply H; by right].
Qed.

Lemma find_map_Some {A B} (f : A → option B) l y :
  find_map f l = Some y ↔ ∃ before x after, l = before ++ x :: after ∧ f x = Some y ∧ ∀ z, z ∈ before → f z = None.
Proof.
  induction l as [|x l IH]; simpl; [split; [done | by intros ([] & ? & ? & ? & _)] |]. destruct (f x) as [y'|] eqn:E.
  - split.
    + intros [= <-]. exists [], x, l. split_and!; [done | done | by intros z ?%elem_of_nil].
    + intros ([|z b] & x' & a & Heq & Hx & Hb); simpl in Heq; injection Heq as -> ->; [congruence |].
      specialize (Hb z ltac:(by left)). congruence.
  - rewrite IH. split.
    + intros (b & x' & a & -> & Hx & Hb). exists (x :: b), x', a. split_and!; [done | done |].
      intros z [->|?]%elem_of_cons; auto.
    + intros ([|z b] & x' & a & Heq & Hx & Hb); simpl in Heq; injection Heq as -> ->; [congruence |].
      exists b, x', a. split_and!; [done | done |]. intros w Hw. apply Hb. by right.
Qed.

Section guarantees.
Context {Url : Type} `{UC : !UrlCrate Url, SU : !StyleUrl Url, UT : !UrlText Url}.
Context `{PC : !PercentCrate, DC : !DigestCrate}.

(** ** The rules for a URL

    After Content Security Policy Level 3, stated on the policy and the
    request; where the code departs from the standard the rules say what the
    code means to decide: under ['strict-dynamic'] sources count for style
    requests only, also when the request is not for a script at all
    ([strict_dynamic_blocks_standard]). *)

(** The fetch directive a kind of request is checked against, and the
    directives consulted for it, in order. *)
Definition checked_against (k : ContentSecurityPolicyResourceKind) : string :=
  match k with
  | DocumentConnect | WorkerConnect => "connect-src"
  | DocumentFrame => "frame-src"
  | DocumentImage => "img-src"
  | DocumentManifest => "manifest-src"
  | DocumentMedia => "media-src"
  | DocumentFont => "font-src"
  | DocumentScriptElement | WorkerDynamicModuleImport => "script-src-elem"
  | WorkerScript => "script-src"
  | DocumentStyleElement => "style-src-elem"
  | SharedWorkerScript | WorkerStaticModuleImport => "worker-src"
  end.

Definition consulted (k : ContentSecurityPolicyResourceKind) : list string :=
  [checked_against k] ++
  match k with
  | DocumentFrame => ["child-src"]
  | SharedWorkerScript | WorkerStaticModuleImport => ["child-src"; "script-src"]
  | DocumentScriptElement | WorkerDynamicModuleImport => ["script-src"]
  | DocumentStyleElement => ["style-src"]
  | _ => []
  end%string ++ ["default-src"%string].

(** The first directive of that name counts. *)
Definition unnamed (p : ContentSecurityPolicy) (name : str) : Prop :=
  ∀ d, d ∈ directive_set p → directive_name d ≠ name.

Definition first_named (p : ContentSecurityPolicy) (name : str) (l : list str) : Prop :=
  ∃ before d after, directive_set p = before ++ d :: after ∧ directive_name d = name ∧ directive_value d = l ∧
    ∀ e, e ∈ before → directive_name e ≠ name.

(** [l] is the source list that decides for requests of kind [k]. *)
Definition governs (p : ContentSecurityPolicy) (k : ContentSecurityPolicyResourceKind) (l : list str) : Prop :=
  ∃ before d after, consulted k = before ++ d :: after ∧
    (∀ e, e ∈ before → unnamed p (chars e)) ∧ first_named p (chars d) l.

Definition request_nonce (r : ContentSecurityPolicyUrlRequest) : option str :=
  match r with Standard => None | Script r => script_nonce r | Style r => style_nonce r end.

(** ['strict-dynamic'] together with a nonce or hash. *)
Definition strict_dynamic (l : list str) : Prop :=
  (∃ s, s ∈ l ∧ csp_keyword_eq s (chars "strict-dynamic") = true) ∧ ∃ s, s ∈ l ∧ is_nonce_or_hash s = true.

(** A listed hash for each hash of the integrity metadata. *)
Definition integrity_listed (l : list str) (integrity : str) : Prop :=
  integrity_metadata_hashes integrity ≠ [] ∧
  ∀ h, h ∈ integrity_metadata_hashes integrity → ∃ s v, s ∈ l ∧ csp_hash_source_value s = Some v ∧
    digest_algorithm (csp_algorithm v) = hash_algorithm h ∧ csp_digest v = hash_digest h.

(** The ways a source list lets a request through. *)
Inductive list_admits (l : list str) (page url : Url) (rs : ContentSecurityPolicyRedirectStatus)
    (request : ContentSecurityPolicyUrlRequest) : Prop :=
  | admits_nonce n : request_nonce request = Some n → trim n ≠ [] →
      chars "'nonce-" ++ trim n ++ [39] ∈ l → list_admits l page url rs request
  | admits_integrity r i : request = Script r → script_integrity r = Some i → integrity_listed l i →
      list_admits l page url rs request
  | admits_trusted r : strict_dynamic l → request = Script r → parser_inserted r = false →
      list_admits l page url rs request
  | admits_source s : (strict_dynamic l → ∃ r, request = Style r) → s ∈ l → s ≠ [] →
      csp_keyword_eq s (chars "none") = false → source_expression_matches s page url rs = true →
      list_admits l page url rs request.

(** The policy has no say in this kind of request, or its list lets it through. *)
Definition policy_admits (p : ContentSecurityPolicy) (page url : Url) (k : ContentSecurityPolicyResourceKind)
    (rs : ContentSecurityPolicyRedirectStatus) (request : ContentSecurityPolicyUrlRequest) : Prop :=
  ∀ l, governs p k l → list_admits l page url rs request.

(** An address as reports show it: without credentials and fragment, and
    only its scheme when that is not a network one. *)
Definition shown_in_report (u : Url) (text : str) : Prop :=
  (scheme u ∈ [chars "http"; chars "https"; chars "ws"; chars "wss"] ∧
   text = url_to_string (without_fragment (without_password (without_username u)))) ∨
  (scheme u ∉ [chars "http"; chars "https"; chars "ws"; chars "wss"] ∧ text = scheme u).

(** Where the report goes: to the endpoint the [report-to] group names, or,
    without that directive, to the http addresses of [report-uri]. *)
Definition report_sent_to (p : ContentSecurityPolicy) (page : Url) (eps : ContentSecurityPolicyReportingEndpoints)
    (uris groups : list str) : Prop :=
  (∀ l, first_named p (chars "report-to") l →
     uris = [] ∧ groups = option_list (group ← head l; eps !! group)) ∧
  (unnamed p (chars "report-to") → groups = [] ∧
   (unnamed p (chars "report-uri") → uris = []) ∧
   ∀ l, first_named p (chars "report-uri") l →
     uris = url_to_string <$> filter (λ u, scheme u ∈ [chars "http"; chars "https"]) (omap (url_join page) l)).

Record violation_reports (p : ContentSecurityPolicy) (page blocked : Url) (k : ContentSecurityPolicyResourceKind)
    (d : ContentSecurityPolicyDisposition) (eps : ContentSecurityPolicyReportingEndpoints)
    (v : ContentSecurityPolicyUrlViolation) : Prop := {
  vr_directive : effective_directive v = chars (checked_against k);
  vr_blocked : shown_in_report blocked (blocked_uri v);
  vr_document : shown_in_report page (document_uri v) ∧ source_file v = document_uri v;
  vr_policy : original_policy v = serialized p;
  vr_disposition : disposition v = d;
  vr_endpoints : report_sent_to p page eps (report_uri_endpoints v) (report_to_endpoints v);
  vr_no_sample : sample v = [] ∧ line_number v = 0%Z ∧ column_number v = 0%Z }.

(** *** The checks follow the prescription *)
Lemma sources_Some p name l : sources p name = Some l ↔ first_named p name l.
Proof.
  unfold sources, first_named. split.
  - intros ([i d] & (Hd & Hn & Hb)%list_find_Some & [= <-])%bind_Some.
    exists (take i (directive_set p)), d, (drop (S i) (directive_set p)). split_and!; try done.
    + by rewrite take_drop_middle.
    + intros e (j & Hj)%list_elem_of_lookup. rewrite lookup_take in Hj. case_decide; [| done]. by eapply Hb.
  - intros (before & d & after & -> & Hn & <- & Hb).
    assert (list_find (λ d, directive_name d = name) (before ++ d :: after) = Some (length before, d)) as ->; [| done].
    apply list_find_Some. split_and!; [by rewrite list_lookup_middle | done |].
    intros j e Hj Hlt. rewrite lookup_app_l in Hj by done. apply Hb. by eapply list_elem_of_lookup_2.
Qed.

Lemma sources_None p name : sources p name = None ↔ unnamed p name.
Proof.
  unfold sources, unnamed. rewrite bind_None. split.
  - intros [Hn|(x & _ & ?)]; [| by destruct x]. apply list_find_None in Hn. by rewrite Forall_forall in Hn.
  - intros Hn. left. apply list_find_None. by apply Forall_forall.
Qed.

Lemma fallbacks_consulted k : resource_directive_fallbacks k = chars <$> consulted k.
Proof. by destruct k. Qed.

Lemma effective_checked k : resource_effective_directive k = chars (checked_against k).
Proof. by destruct k. Qed.

Lemma first_source_list_spec p ds l :
  first_source_list p (chars <$> ds) = Some l ↔
  ∃ before d after, ds = before ++ d :: after ∧ (∀ e, e ∈ before → unnamed p (chars e)) ∧ first_named p (chars d) l.
Proof.
  induction ds as [|d ds IH]; simpl; [split; [done | by intros ([] & ? & ? & ? & _)] |].
  unfold directive_source_list. destruct (sources p (chars d)) as [l'|] eqn:E.
  - split.
    + intros [= <-]. exists [], d, ds. split_and!; [done | by intros e ?%elem_of_nil | by apply sources_Some].
    + intros ([|e before] & d' & after & Heq & Hb & Hf); simpl in Heq; injection Heq as <- ->.
      * apply sources_Some in Hf. congruence.
      * specialize (Hb d ltac:(by left)). apply sources_None in Hb. congruence.
  - rewrite IH. apply sources_None in E. split.
    + intros (before & d' & after & -> & Hb & Hf). exists (d :: before), d', after. split_and!; [done | | done].
      intros e [->|He]%elem_of_cons; auto.
    + intros ([|e before] & d' & after & Heq & Hb & Hf); simpl in Heq; injection Heq as <- ->.
      * apply sources_Some in Hf. apply sources_None in E. congruence.
      * exists before, d', after. split_and!; [done | | done]. intros e He. apply Hb. by right.
Qed.

Lemma effective_governs p k directive l :
  effective_source_list_with_directive p k = Some (directive, l) ↔
  directive = chars (checked_against k) ∧ governs p k l.
Proof.
  unfold effective_source_list_with_directive, governs. rewrite fallbacks_consulted, <-first_source_list_spec, effective_checked.
  destruct (first_source_list p (chars <$> consulted k)); simpl; naive_solver.
Qed.

Lemma normalized_elem l s : s ∈ normalized_source_list l ↔ s ≠ [] ∧ s ∈ l.
Proof. unfold normalized_source_list. by rewrite list_elem_of_filter. Qed.

Lemma nonce_listed nonce l :
  nonce_allows nonce (normalized_source_list l) = true ↔
  ∃ n, nonce = Some n ∧ trim n ≠ [] ∧ chars "'nonce-" ++ trim n ++ [39] ∈ l.
Proof.
  unfold nonce_allows. destruct nonce as [n|]; simpl; [| naive_solver].
  rewrite andb_true_iff, negb_true_iff, existsb_exists. unfold is_empty. rewrite bool_decide_eq_false.
  assert (∀ s, csp_nonce_source_matches s (trim n) = true ↔ s = chars "'nonce-" ++ trim n ++ [39]) as Hm.
  { intros s. unfold csp_nonce_source_matches, csp_nonce_source_value. split.
    - destruct (strip_prefix (chars "'nonce-") s) as [v|] eqn:E1; [| done].
      destruct (strip_suffix [39] v) as [w|] eqn:E2; cbn [mbind option_bind]; [| by rewrite E2].
      rewrite E2. intros ->%bool_decide_eq_true. apply csp_strip_prefix_Some in E1 as ->.
      by apply strip_suffix_Some in E2 as ->.
    - intros ->. assert (strip_prefix (chars "'nonce-") (chars "'nonce-" ++ trim n ++ [39]) = Some (trim n ++ [39])) as ->
        by (by apply csp_strip_prefix_Some).
      cbn [mbind option_bind]. assert (strip_suffix [39] (trim n ++ [39]) = Some (trim n)) as -> by (by apply strip_suffix_Some).
      by apply bool_decide_eq_true. }
  split.
  - intros (Hn & s & Hs & ->%Hm). exists n. split_and!; [done | done |].
    apply list_elem_of_In, normalized_elem in Hs as [_ ?]. done.
  - intros (n' & [= <-] & Hn & Hs). split; [done |]. eexists. split; [| by apply Hm].
    apply list_elem_of_In, normalized_elem. split; [by destruct (trim n) | done].
Qed.

Lemma existsb_in {A} (f : A → bool) l : existsb f l = true ↔ ∃ x, x ∈ l ∧ f x = true.
Proof. rewrite existsb_exists. by setoid_rewrite list_elem_of_In. Qed.

Lemma strict_dynamic_spec l :
  source_list_activates_strict_dynamic (normalized_source_list l) = true ↔ strict_dynamic l.
Proof.
  unfold source_list_activates_strict_dynamic, has_keyword, strict_dynamic.
  rewrite andb_true_iff, !existsb_in. setoid_rewrite normalized_elem.
  split; intros [(s & Hs & H1) (t & Ht & H2)].
  - split; [exists s | exists t]; tauto.
  - split; [exists s | exists t]; (split; [split; [by intros -> | done] | done]).
Qed.

Lemma integrity_listed_spec integrity l :
  script_integrity_matches_hash_source integrity (normalized_source_list l) = true ↔
  ∃ i, integrity = Some i ∧ integrity_listed l i.
Proof.
  unfold script_integrity_matches_hash_source, integrity_listed. destruct integrity as [i|]; [| naive_solver].
  rewrite andb_true_iff, negb_true_iff, bool_decide_eq_false, forallb_forall_in.
  assert (length (integrity_metadata_hashes i) ≠ 0%nat ↔ integrity_metadata_hashes i ≠ []) as ->
    by (by destruct (integrity_metadata_hashes i)).
  assert (∀ h, existsb (λ s, bool_decide (digest_algorithm (csp_algorithm s) = hash_algorithm h)
    && bool_decide (csp_digest s = hash_digest h)) (omap csp_hash_source_value (normalized_source_list l)) = true ↔
    ∃ s v, s ∈ l ∧ csp_hash_source_value s = Some v ∧
      digest_algorithm (csp_algorithm v) = hash_algorithm h ∧ csp_digest v = hash_digest h) as Hh.
  { intros h. rewrite existsb_in. setoid_rewrite list_elem_of_omap. setoid_rewrite normalized_elem.
    setoid_rewrite andb_true_iff. setoid_rewrite bool_decide_eq_true. split.
    - intros (v & (s & [_ Hs] & Hv) & ? & ?). by exists s, v.
    - intros (s & v & Hs & Hv & ? & ?). exists v. split; [| done]. exists s. split; [| done].
      split; [by intros -> | done]. }
  split; [intros [? H] | intros (i' & [= <-] & ? & H)]; [exists i; split_and!; [done | done |] | split; [done |]];
    intros h ?; by apply Hh, H.
Qed.

Lemma source_admits_spec l (page url : Url) rs :
  normalized_source_list_allows_url (normalized_source_list l) page url rs = true ↔
  ∃ s, s ∈ l ∧ s ≠ [] ∧ csp_keyword_eq s (chars "none") = false ∧ source_expression_matches s page url rs = true.
Proof.
  unfold normalized_source_list_allows_url.
  assert (existsb (λ s, negb (csp_keyword_eq s (chars "none")) && source_expression_matches s page url rs)
    (normalized_source_list l) = true ↔ ∃ s, s ∈ l ∧ s ≠ [] ∧ csp_keyword_eq s (chars "none") = false ∧
    source_expression_matches s page url rs = true) as He.
  { rewrite existsb_in. setoid_rewrite normalized_elem. setoid_rewrite andb_true_iff. setoid_rewrite negb_true_iff.
    split; intros (s & H); exists s; tauto. }
  rewrite <-He. case_bool_decide as Hn; [by rewrite Hn |].
  destruct (normalized_source_list l) as [|s [|t r]]; [done | | done]. unfold is_none_list. simpl.
  destruct (csp_keyword_eq s (chars "none")); done.
Qed.

Lemma script_list_spec l (page url : Url) rs r :
  source_list_allows_script_element_request l page url rs r = true ↔ list_admits l page url rs (Script r).
Proof.
  unfold source_list_allows_script_element_request.
  pose proof (nonce_listed (script_nonce r) l) as Hn. pose proof (integrity_listed_spec (script_integrity r) l) as Hi.
  pose proof (strict_dynamic_spec l) as Hs. pose proof (source_admits_spec l page url rs) as Hu. split.
  - destruct (nonce_allows _ _).
    { intros _. destruct Hn as [Hn _]. destruct (Hn eq_refl) as (n & ? & ? & ?). by eapply admits_nonce. }
    destruct (script_integrity_matches_hash_source _ _).
    { intros _. destruct Hi as [Hi _]. destruct (Hi eq_refl) as (i & ? & ?). by eapply admits_integrity. }
    destruct (source_list_activates_strict_dynamic _).
    + intros Hp%negb_true_iff. eapply admits_trusted; [by apply Hs | done | done].
    + intros (s & ? & ? & ? & ?)%Hu. eapply admits_source; [| done..]. by intros Hx%Hs.
  - intros [n Hnonce Ht Hin|r' i [= <-] Hint Hl|r' Hsd [= <-] Hp|s Hsd H1 H2 H3 H4].
    + assert (nonce_allows (script_nonce r) (normalized_source_list l) = true) as -> by (apply Hn; by exists n). done.
    + assert (script_integrity_matches_hash_source (script_integrity r) (normalized_source_list l) = true) as ->
        by (apply Hi; by exists i). by destruct (nonce_allows _ _).
    + apply Hs in Hsd. rewrite Hsd, Hp. by destruct (nonce_allows _ _), (script_integrity_matches_hash_source _ _).
    + destruct (nonce_allows _ _); [done |]. destruct (script_integrity_matches_hash_source _ _); [done |].
      destruct (source_list_activates_strict_dynamic _).
      * destruct Hs as [Hs _]. destruct (Hsd (Hs eq_refl)) as [? [=]].
      * apply Hu. by exists s.
Qed.

Lemma style_list_spec l (page url : Url) rs r :
  source_list_allows_style_element_request l page url rs r = true ↔ list_admits l page url rs (Style r).
Proof.
  unfold source_list_allows_style_element_request.
  pose proof (nonce_listed (style_nonce r) l) as Hn. pose proof (source_admits_spec l page url rs) as Hu. split.
  - destruct (nonce_allows _ _).
    { intros _. destruct Hn as [Hn _]. destruct (Hn eq_refl) as (n & ? & ? & ?). by eapply admits_nonce. }
    intros (s & ? & ? & ? & ?)%Hu. eapply admits_source; [| done..]. intros _. by exists r.
  - intros [n Hnonce Ht Hin|r' i [=] Hint Hl|r' Hsd [=] Hp|s Hsd H1 H2 H3 H4].
    + assert (nonce_allows (style_nonce r) (normalized_source_list l) = true) as -> by (apply Hn; by exists n). done.
    + destruct (nonce_allows _ _); [done |]. apply Hu. by exists s.
Qed.

(** An ordinary request is a script the parser inserted, without nonce and integrity. *)
Lemma standard_list l (page url : Url) rs :
  list_admits l page url rs (Script script_request_default) ↔ list_admits l page url rs Standard.
Proof.
  split; intros [n Hnonce Ht Hin|r' i E Hint Hl|r' Hsd E Hp|s Hsd H1 H2 H3 H4]; try done;
    try (injection E as <-; done);
    (eapply admits_source; [| done..]); intros Hx%Hsd; by destruct Hx.
Qed.

Lemma list_decision l (page url : Url) rs request :
  source_list_allows_resource_request l page url rs request = true ↔ list_admits l page url rs request.
Proof.
  destruct request as [|r|r]; simpl; [| apply script_list_spec | apply style_list_spec].
  rewrite script_list_spec. apply standard_list.
Qed.

Lemma url_shown u : shown_in_report u (csp_url_for_report u).
Proof.
  unfold shown_in_report, csp_url_for_report, is_network_scheme. case_bool_decide; simpl; [by left | by right].
Qed.

Lemma endpoints_sent p (page : Url) eps :
  report_sent_to p page eps (content_security_policy_report_uri_endpoints p page)
    (content_security_policy_report_to_endpoints p eps).
Proof.
  unfold content_security_policy_report_uri_endpoints, content_security_policy_report_to_endpoints. split.
  - intros l Hl%sources_Some. rewrite Hl. split; [done |]. destruct (head l) as [g|]; simpl; [| done].
    by destruct (eps !! g).
  - intros Hn%sources_None. rewrite Hn. split_and!; [done | |].
    + intros Hu%sources_None. by rewrite Hu.
    + intros l Hl%sources_Some. rewrite Hl. simpl. f_equal. apply list_filter_iff.
      intros u. unfold is_http_scheme. by rewrite bool_decide_eq_true.
Qed.

Lemma violation_reported p (page blocked : Url) k d eps :
  violation_reports p page blocked k d eps
    (violation_of p page (chars (checked_against k)) (csp_url_for_report blocked) (csp_url_for_report page) [] d eps).
Proof. split; try done; [apply url_shown | split; [apply url_shown | done] | apply endpoints_sent]. Qed.

(** One policy of the loop. *)
Lemma policy_step p (page checked blocked : Url) k rs d eps request :
  match ('(directive, l) ← effective_source_list_with_directive p k;
    if source_list_allows_resource_request l page checked rs request then None
    else Some (violation_of p page directive (csp_url_for_report blocked) (csp_url_for_report page) [] d eps)) with
  | None => policy_admits p page checked k rs request
  | Some v => ¬ policy_admits p page checked k rs request ∧ violation_reports p page blocked k d eps v
  end.
Proof.
  unfold policy_admits. destruct (effective_source_list_with_directive p k) as [[dir l]|] eqn:E; simpl.
  - apply effective_governs in E as [-> Hg].
    destruct (source_list_allows_resource_request l page checked rs request) eqn:El.
    + intros l' Hg'. assert (effective_source_list_with_directive p k = Some (chars (checked_against k), l)) as E1
        by (by apply effective_governs).
      assert (effective_source_list_with_directive p k = Some (chars (checked_against k), l')) as E2
        by (by apply effective_governs).
      rewrite E1 in E2. injection E2 as <-. by apply list_decision.
    + split; [| apply violation_reported]. intros H. specialize (H l Hg). apply list_decision in H. congruence.
  - intros l Hg. assert (effective_source_list_with_directive p k = Some (chars (checked_against k), l)) as E1
      by (by apply effective_governs). congruence.
Qed.

(** C14: Every policy is enforced, and a report shows only what it may.  A
    request passes the URL check exactly when each policy lets it through: the first of the directives consulted for its
    kind that the policy has decides, and its list must contain the request's
    nonce, cover its integrity metadata by hashes, or contain a source that
    matches the address, which under ['strict-dynamic'] helps style requests
    only; under ['strict-dynamic'] a script the parser did not insert
    passes.  Otherwise the violation belongs to the first policy that refuses
    and carries the directive of the kind, the text of that policy, the
    disposition, the endpoints of its [report-to] or [report-uri], and the
    page and the blocked address without credentials and fragment: the
    address that was checked, which after a redirect may hold secrets, is not
    in it. *)
Theorem url_violation_exact policies (protected_url checked_url blocked_url : Url) k rs d eps request :
  let check := content_security_policy_url_violation policies protected_url checked_url blocked_url k rs d eps request in
  (check = None ↔ ∀ p, p ∈ policies → policy_admits p protected_url checked_url k rs request) ∧
  (∀ v, check = Some v →
     ∃ before p after, policies = before ++ p :: after ∧
       (∀ q, q ∈ before → policy_admits q protected_url checked_url k rs request) ∧
       ¬ policy_admits p protected_url checked_url k rs request ∧
       violation_reports p protected_url blocked_url k d eps v).
Proof.
  intros check. unfold check, content_security_policy_url_violation.
  pose proof (λ p, policy_step p protected_url checked_url blocked_url k rs d eps request) as Hstep. split.
  - rewrite find_map_None. split; intros H p Hp; specialize (Hstep p); specialize (H p Hp).
    + by rewrite H in Hstep.
    + by destruct (effective_source_list_with_directive p k ≫= _); [destruct Hstep |].
  - intros v (before & p & after & Hl & Hp & Hb)%find_map_Some.
    exists before, p, after. split; [done |]. split.
    + intros q Hq. specialize (Hstep q). by rewrite (Hb q Hq) in Hstep.
    + specialize (Hstep p). by rewrite Hp in Hstep.
Qed.

(** ** Lists without ['strict-dynamic'] *)
Lemma no_nonce_default l : nonce_allows (script_nonce script_request_default) l = false.
Proof. done. Qed.

Lemma standard_is_plain l (protected_url checked_url : Url) rs :
  source_list_activates_strict_dynamic (normalized_source_list l) = false →
  source_list_allows_resource_request l protected_url checked_url rs Standard =
  source_list_allows l protected_url checked_url rs.
Proof.
  intros H. simpl. unfold source_list_allows_script_element_request. rewrite no_nonce_default. simpl. by rewrite H.
Qed.

(** For an ordinary request under lists that do not activate
    ['strict-dynamic'] the check agrees with the plain one that makes no
    report. *)
Lemma plain_check_agrees policies (protected_url checked_url blocked_url : Url) k rs d eps :
  (∀ p directive l, p ∈ policies → effective_source_list_with_directive p k = Some (directive, l) →
     source_list_activates_strict_dynamic (normalized_source_list l) = false) →
  content_security_policy_url_violation policies protected_url checked_url blocked_url k rs d eps Standard = None ↔
  content_security_policy_allows_url_with_redirect_status policies protected_url checked_url k rs = true.
Proof.
  intros Hsd. unfold content_security_policy_url_violation, content_security_policy_allows_url_with_redirect_status.
  rewrite find_map_None, forallb_forall_in. apply forall_proper. intros p.
  destruct (effective_source_list_with_directive p k) as [[dir l]|] eqn:E; [| done]. cbn [mbind option_bind].
  split; intros H Hp; specialize (H Hp);
    pose proof (standard_is_plain l protected_url checked_url rs (Hsd p dir l Hp E)) as Hq.
  - rewrite Hq in H. by destruct (source_list_allows l protected_url checked_url rs).
  - by rewrite Hq, H.
Qed.

(** An ordinary request under a list that activates ['strict-dynamic'] is
    always refused, whatever hosts the list names. *)
Lemma strict_dynamic_blocks_standard l (protected_url checked_url : Url) rs :
  source_list_activates_strict_dynamic (normalized_source_list l) = true →
  source_list_allows_resource_request l protected_url checked_url rs Standard = false.
Proof.
  intros H. simpl. unfold source_list_allows_script_element_request. rewrite no_nonce_default. simpl. by rewrite H.
Qed.

(** ** ['strict-dynamic'] *)
Lemma nonce_matches_is_nonce s n : csp_nonce_source_matches s n = true → is_nonce_or_hash s = true.
Proof. unfold csp_nonce_source_matches, is_nonce_or_hash. by destruct (csp_nonce_source_value s). Qed.

Lemma hash_value_is_hash s h : csp_hash_source_value s = Some h → is_nonce_or_hash s = true.
Proof. unfold is_nonce_or_hash. intros ->. by destruct (csp_nonce_source_value s). Qed.

Definition inert (extra : list str) : Prop := ∀ s, s ∈ extra → is_nonce_or_hash s = false.

Lemma inert_normalized extra : inert extra → inert (normalized_source_list extra).
Proof. intros H s [_ Hs]%list_elem_of_filter. auto. Qed.

Lemma inert_existsb extra : inert extra → existsb is_nonce_or_hash extra = false.
Proof.
  induction extra as [|s extra IH]; intros H; [done |]. simpl. rewrite (H s) by (by left).
  apply IH. intros t Ht. apply H. by right.
Qed.

Lemma inert_hashes extra : inert extra → omap csp_hash_source_value extra = [].
Proof.
  induction extra as [|s extra IH]; intros H; [done |]. simpl.
  destruct (csp_hash_source_value s) as [h|] eqn:E.
  - apply hash_value_is_hash in E. rewrite (H s) in E by (by left). done.
  - apply IH. intros t Ht. apply H. by right.
Qed.

Lemma inert_nonces extra n : inert extra → existsb (λ s, csp_nonce_source_matches s n) extra = false.
Proof.
  induction extra as [|s extra IH]; intros H; [done |]. simpl.
  destruct (csp_nonce_source_matches s n) eqn:E.
  - apply nonce_matches_is_nonce in E. rewrite (H s) in E by (by left). done.
  - apply IH. intros t Ht. apply H. by right.
Qed.

Lemma nonce_allows_inert nonce l extra : inert extra → nonce_allows nonce (l ++ extra) = nonce_allows nonce l.
Proof.
  intros H. unfold nonce_allows. destruct (trim <$> nonce) as [n|]; [| done].
  by rewrite existsb_app, (inert_nonces extra), orb_false_r.
Qed.

Lemma integrity_inert integrity l extra : inert extra →
  script_integrity_matches_hash_source integrity (l ++ extra) = script_integrity_matches_hash_source integrity l.
Proof.
  intros H. unfold script_integrity_matches_hash_source. by rewrite omap_app, (inert_hashes extra), app_nil_r.
Qed.

Lemma hash_allows_inert source l extra : inert extra → hash_allows source (l ++ extra) = hash_allows source l.
Proof. intros H. unfold hash_allows. by rewrite omap_app, (inert_hashes extra), app_nil_r. Qed.

Lemma has_keyword_app l extra k : has_keyword (l ++ extra) k = has_keyword l k || has_keyword extra k.
Proof. apply existsb_app. Qed.

(** C12: Under ['strict-dynamic'] only nonces, hashes and trusted script
    elements count.  Once a list has ['strict-dynamic'] and a nonce or hash,
    adding any other sources (hosts, schemes, wildcards, ['self'],
    ['unsafe-inline']) changes neither of the two checks of a script element:
    an external one is allowed exactly if its nonce is listed, its integrity
    is covered by listed hashes, or it was not inserted by the parser,
    whatever its address; an inline one exactly if its nonce or its hash is
    listed or it was not inserted by the parser.  (Other scripts take other
    checks: see [popup_scripts_ignore_strict_dynamic] for inline scripts of a
    popup; the scripts of shared workers take the plain check of their
    address.) *)
Theorem strict_dynamic_ignores_hosts l extra :
  source_list_activates_strict_dynamic (normalized_source_list l) = true → inert extra →
  (∀ (protected_url request_url : Url) rs request,
     source_list_allows_script_element_request (l ++ extra) protected_url request_url rs request =
     nonce_allows (script_nonce request) (normalized_source_list l)
     || script_integrity_matches_hash_source (script_integrity request) (normalized_source_list l)
     || negb (parser_inserted request)) ∧
  (∀ source request,
     inline_script_element_source_list_allows (l ++ extra) source request =
     nonce_allows (script_nonce request) (normalized_source_list l)
     || hash_allows source (normalized_source_list l) || negb (parser_inserted request)).
Proof.
  intros [Hsd Hnh]%andb_prop Hin%inert_normalized.
  assert (Hn : normalized_source_list (l ++ extra) = normalized_source_list l ++ normalized_source_list extra)
    by apply filter_app.
  split.
  - intros u r rs request. unfold source_list_allows_script_element_request. rewrite Hn.
    rewrite nonce_allows_inert, integrity_inert by done.
    assert (source_list_activates_strict_dynamic (normalized_source_list l ++ normalized_source_list extra) = true) as ->.
    { unfold source_list_activates_strict_dynamic. by rewrite has_keyword_app, existsb_app, Hsd, Hnh. }
    by destruct (nonce_allows _ _), (script_integrity_matches_hash_source _ _).
  - intros source request. unfold inline_script_element_source_list_allows. rewrite Hn.
    rewrite nonce_allows_inert, hash_allows_inert, has_keyword_app, Hsd by done. rewrite existsb_app, Hnh. simpl.
    destruct (nonce_allows _ _), (hash_allows _ _), (parser_inserted request); done.
Qed.
End guarantees.

(** The check of inline scripts in a popup ([DocumentInlineScript]) looks for
    ['unsafe-inline'] alone, so that ['strict-dynamic'] with a nonce does not
    turn it off. *)
Lemma popup_scripts_ignore_strict_dynamic `{DC : !DigestCrate} source :
  let l := [chars "'strict-dynamic'"; chars "'nonce-abc'"; chars "'unsafe-inline'"] in
  source_list_activates_strict_dynamic l = true ∧
  non_url_source_list_allows DocumentInlineScript l source = true ∧
  inline_script_element_source_list_allows l (default [] source) script_request_default
    = hash_allows (default [] source) l.
Proof. by vm_compute. Qed.

(** ** Witnesses *)
Module CspExample.
(** Addresses are numbers: even ones are [https://cdn.test], odd ones
    [http://evil.test]. *)
#[export] Instance url : UrlCrate N := {|
  scheme u := if N.even u then chars "https" else chars "http";
  host_str u := Some (if N.even u then chars "cdn.test" else chars "evil.test");
  host u := None; path_of u := chars "/a.js"; cannot_be_a_base u := false;
  port_or_known_default u := Some (if N.even u then 443 else 80) |}.
#[export] Instance style_url : StyleUrl N := {| url_join u _ := Some u; without_fragment u := u |}.
#[export] Instance text : UrlText N := {|
  url_parse _ := Some 0; url_to_string _ := chars "https://cdn.test/a.js"; without_username u := u;
  without_password u := u; without_query u := u |}.
#[export] Instance percent : PercentCrate := {| percent_decode_str := utf8 |}.
#[export] Instance digests : DigestCrate := {| digest_bytes _ b := b; base64_encode b := b |}.

Definition strict : list str := [chars "'strict-dynamic'"; chars "'nonce-abc'"].
Definition hosts : list str := [chars "https://cdn.test"; chars "http:"; chars "'unsafe-inline'"; chars "*"].

Definition image_policy : ContentSecurityPolicy :=
  mk_policy (chars "img-src https://cdn.test") SourceHeader Enforce [mk_directive IMG_SRC [chars "https://cdn.test"]].
Definition strict_image_policy : ContentSecurityPolicy :=
  mk_policy (chars "img-src") SourceHeader Enforce [mk_directive IMG_SRC (strict ++ [chars "https://cdn.test"])].
End CspExample.
Import CspExample.

Lemma strict_dynamic_ignores_hosts_witness :
  (∀ (u r : N) rs, source_list_allows_script_element_request (CspExample.strict ++ CspExample.hosts) u r rs
               (mk_script_request None None true) = false) ∧
  ∀ source, inline_script_element_source_list_allows (CspExample.strict ++ CspExample.hosts) source
    (mk_script_request (Some (chars "abc")) None true) = true.
Proof.
  destruct (strict_dynamic_ignores_hosts (Url := N) CspExample.strict CspExample.hosts) as [H1 H2].
  - vm_compute. reflexivity.
  - intros s Hs. repeat (apply elem_of_cons in Hs as [->|Hs]; [vm_compute; reflexivity |]).
    by apply elem_of_nil in Hs.
  - split; [intros u r rs; rewrite H1; vm_compute; reflexivity | intros source; rewrite H2; reflexivity].
Defined.

(** A blocked redirect is reported under the address that was asked for, and
    an image list with ['strict-dynamic'] and a nonce blocks the host it
    names, although the plain check allows it. *)
Example checks_disagree_under_strict_dynamic :
  content_security_policy_allows_url_with_redirect_status [CspExample.strict_image_policy] 0%N 2%N DocumentImage NoRedirect
    = true ∧
  is_Some (content_security_policy_url_violation [CspExample.strict_image_policy] 0%N 2%N 2%N DocumentImage NoRedirect Enforce
    ∅ Standard) ∧
  content_security_policy_url_violation [CspExample.image_policy] 0%N 2%N 2%N DocumentImage NoRedirect Enforce ∅ Standard = None ∧
  blocked_uri <$> content_security_policy_url_violation [CspExample.image_policy] 0%N 1%N 2%N DocumentImage FollowedRedirect
    Enforce ∅ Standard = Some (chars "https://cdn.test/a.js").
Proof. vm_compute. eauto. Qed.
