(* ===== verification/WebStorage.v ===== *)
(** * Web storage (moli-web-storage/src/lib.rs and store.rs)

    Areas of key and value strings with their byte accounting, the edits and
    reads the store hands to its back end as closures, the in-memory back end,
    and the queues of mutation subscribers.  Strings are UTF-16 code units;
    [usize] is 64 bits wide.  [WebStorageSqlite] has the other back end.

    Proved here: areas are accounted for exactly and stay within the quota
    over every history of calls, a set is refused exactly when the total would
    exceed the quota, and replaying what a subscriber receives rebuilds the
    contents. *)
From Stdlib Require Import Ascii String.
From S2P Require Import Prelude Text Utf8 StorageKey.

#[local] Open Scope N_scope.

(** ** Strings *)
Notation units := (list N).
Notation WebStorageString := (list N) (only parsing).

Definition WEB_STORAGE_QUOTA_BYTES : N := 5 * 1024 * 1024.

(** [str::encode_utf16] *)
Definition encode_utf16_char (c : char) : units :=
  if c <? 65536 then [c]
  else [55296 + N.shiftr (c - 65536) 10; 56320 + N.land (c - 65536) 1023].
Definition utf16_units (value : list char) : units := value ≫= encode_utf16_char.

Definition is_high_surrogate (u : N) : bool := (55296 <=? u) && (u <=? 56319).
Definition is_low_surrogate (u : N) : bool := (56320 <=? u) && (u <=? 57343).

(** [String::from_utf16_lossy]: an unpaired surrogate becomes U+FFFD. *)
Fixpoint string_from_utf16_units_lossy (u : units) : list char :=
  match u with
  | [] => []
  | h :: rest =>
      if is_high_surrogate h then
        match rest with
        | l :: rest' =>
            if is_low_surrogate l
            then 65536 + N.shiftl (h - 55296) 10 + (l - 56320) :: string_from_utf16_units_lossy rest'
            else 65533 :: string_from_utf16_units_lossy rest
        | [] => [65533]
        end
      else if is_low_surrogate h then 65533 :: string_from_utf16_units_lossy rest
      else h :: string_from_utf16_units_lossy rest
  end.

Definition usage_bytes (s : units) : N := N.min (N.of_nat (length s) * 2) u64_max.

(** The derived [Ord] of a string: lexicographic on code units. *)
Fixpoint units_le (a b : units) : bool :=
  match a, b with
  | [], _ => true
  | _ :: _, [] => false
  | x :: a, y :: b => (x <? y) || ((x =? y) && units_le a b)
  end.

(** ** Areas *)
Record MemoryWebStorageArea := mk_area { values : gmap units units; size : N }.
Definition area_default : MemoryWebStorageArea := mk_area ∅ 0.

Definition storage_item_size (key value : units) : N := saturating_add64 (usage_bytes key) (usage_bytes value).

Definition updated_storage_size (current_size : N) (key : units) (previous_value : option units) (new_value : units) : N :=
  saturating_add64
    (current_size - match previous_value with Some v => storage_item_size key v | None => 0 end)
    (storage_item_size key new_value).

Definition storage_area_size (m : gmap units units) : N :=
  map_fold (λ key value size, saturating_add64 size (storage_item_size key value)) 0 m.

Definition get_item_utf16 (a : MemoryWebStorageArea) (key : units) : option units := values a !! key.
Definition sorted_keys_utf16 (a : MemoryWebStorageArea) : list units :=
  merge_sort units_le (map_to_list (values a)).*1.
Definition key_utf16 (a : MemoryWebStorageArea) (index : nat) : option units := sorted_keys_utf16 a !! index.
Definition area_len (a : MemoryWebStorageArea) : nat := base.size (values a).
Definition contains_key_utf16 (a : MemoryWebStorageArea) (key : units) : bool := bool_decide (is_Some (values a !! key)).

(** ** Mutations and errors *)
Inductive WebStorageMutation :=
  | ItemAdded (area_key : text) (key value : units)
  | ItemUpdated (area_key : text) (key old_value new_value : units)
  | ItemRemoved (area_key : text) (key old_value : units)
  | ItemsCleared (area_key : text).

#[global] Instance WebStorageMutation_eq_dec : EqDecision WebStorageMutation.
Proof. solve_decision. Defined.

Inductive WebStorageAreaKind := Local | Session.
#[global] Instance WebStorageAreaKind_eq_dec : EqDecision WebStorageAreaKind.
Proof. solve_decision. Defined.

Inductive WebStorageMutationError := QuotaExceeded | Persistence (message : text).
#[global] Instance WebStorageMutationError_eq_dec : EqDecision WebStorageMutationError.
Proof. solve_decision. Defined.

Notation result A := (WebStorageMutationError + A)%type.

Record Edit (R : Type) := mk_edit { edit_result : R; edit_mutation : option WebStorageMutation }.
Arguments mk_edit {R}. Arguments edit_result {R}. Arguments edit_mutation {R}.
Definition unchanged {R} (r : R) : Edit R := mk_edit r None.

(** ** The closures: edits of one area *)
Definition EditFn (R : Type) := MemoryWebStorageArea → run (result (Edit R) * MemoryWebStorageArea).

Definition set_change (origin : text) (key value : units) : EditFn (option WebStorageMutation) := λ area,
  let previous := values area !! key in
  if decide (previous = Some value) then Ret (inr (unchanged None), area)
  else
    let new_size := updated_storage_size (size area) key previous value in
    if (size area <? new_size) && (WEB_STORAGE_QUOTA_BYTES <? new_size) then Ret (inl QuotaExceeded, area)
    else
      let mutation := match previous with
                      | Some old_value => ItemUpdated origin key old_value value
                      | None => ItemAdded origin key value
                      end in
      Ret (inr (mk_edit (Some mutation) (Some mutation)), mk_area (<[key := value]> (values area)) new_size).

Definition remove_change (origin : text) (key : units) : EditFn (option WebStorageMutation) := λ area,
  match values area !! key with
  | None => Ret (inr (unchanged None), area)
  | Some old_value =>
      new_size ← sub64 (size area) (storage_item_size key old_value);
      let mutation := ItemRemoved origin key old_value in
      Ret (inr (mk_edit (Some mutation) (Some mutation)), mk_area (delete key (values area)) new_size)
  end.

Definition clear_change (origin : text) : EditFn (option WebStorageMutation) := λ area,
  if decide (values area = ∅) then Ret (inr (unchanged None), area)
  else Ret (inr (mk_edit (Some (ItemsCleared origin)) (Some (ItemsCleared origin))), area_default).

(** ** The closures: reads of one area *)
Definition ReadFn (R : Type) := option MemoryWebStorageArea → R.

Definition get_item_read (key : units) : ReadFn (option units) := λ area, area ≫= λ a, get_item_utf16 a key.
Definition key_read (index : nat) : ReadFn (option units) := λ area, area ≫= λ a, key_utf16 a index.
Definition items_read : ReadFn (list (units * units)) := λ area,
  match area with
  | None => []
  | Some a => merge_sort (λ p q : units * units, units_le p.1 q.1) (map_to_list (values a))
  end.
Definition len_read : ReadFn nat := λ area, match area with Some a => area_len a | None => 0%nat end.
Definition contains_key_read (key : units) : ReadFn bool := λ area,
  match area with Some a => contains_key_utf16 a key | None => false end.
Definition sorted_keys_read : ReadFn (list units) := λ area,
  match area with Some a => sorted_keys_utf16 a | None => [] end.

(** ** Subscribers

    A queue is an [Arc<Mutex<VecDeque<_>>>] named by its index; [None] once
    its last handle is gone.  The store keeps weak references. *)
Record WebStorageMutationRecord := mk_record { area_kind : WebStorageAreaKind; mutation : WebStorageMutation }.

Record Hub := mk_hub {
  queues : list (option (list WebStorageMutationRecord));
  mutation_subscribers : list (WebStorageAreaKind * nat) }.
Definition hub_new : Hub := mk_hub [] [].

Definition upgrade (h : Hub) (q : nat) : option (list WebStorageMutationRecord) := mjoin (queues h !! q).

Definition push_back (q : nat) (r : WebStorageMutationRecord) (l : list (option (list WebStorageMutationRecord))) :=
  alter (fmap (λ q, q ++ [r])) q l.

Definition publish_mutation (h : Hub) (m : WebStorageMutation) : Hub :=
  let alive := filter (λ s, is_Some (upgrade h s.2)) (mutation_subscribers h) in
  mk_hub (foldl (λ l s, push_back s.2 (mk_record s.1 m) l) (queues h) alive) alive.

Definition add_mutation_subscription (h : Hub) (kind : WebStorageAreaKind) (q : nat) : Hub :=
  mk_hub (queues h)
    (filter (λ s, is_Some (upgrade h s.2) ∧ s ≠ (kind, q)) (mutation_subscribers h) ++ [(kind, q)]).

Definition subscribe_mutations (h : Hub) (kind : WebStorageAreaKind) : Hub * nat :=
  let q := length (queues h) in
  (add_mutation_subscription (mk_hub (queues h ++ [Some []]) (mutation_subscribers h)) kind q, q).

Definition drain (h : Hub) (q : nat) : Hub * list WebStorageMutationRecord :=
  match upgrade h q with
  | Some l => (mk_hub (<[q := Some []]> (queues h)) (mutation_subscribers h), l)
  | None => (h, [])
  end.
Definition subscription_is_empty (h : Hub) (q : nat) : bool :=
  match upgrade h q with Some (_ :: _) => false | _ => true end.
(** The last handle of a subscription is dropped. *)
Definition drop_subscription (h : Hub) (q : nat) : Hub := mk_hub (<[q := None]> (queues h)) (mutation_subscribers h).

(** ** The store over memory *)
Notation Areas := (gmap text MemoryWebStorageArea).
Record WebStorageStore := mk_store { origins : Areas; hub : Hub }.
Definition store_default : WebStorageStore := mk_store ∅ hub_new.
Definition deep_clone (s : WebStorageStore) : WebStorageStore := mk_store (origins s) hub_new.

Definition publish_edit {R} (h : Hub) (e : Edit R) : Hub :=
  match edit_mutation e with Some m => publish_mutation h m | None => h end.

Definition read {R} (s : WebStorageStore) (origin : text) (f : ReadFn R) : R := f (origins s !! origin).

(** The entry is created before the closure runs, and the removal of an empty
    area is skipped when the closure fails. *)
Definition edit {R} (s : WebStorageStore) (origin : text) (f : EditFn R) : run (result R * WebStorageStore) :=
  '(r, area) ← f (default area_default (origins s !! origin));
  let m := <[origin := area]> (origins s) in
  match r with
  | inl e => Ret (inl e, mk_store m (hub s))
  | inr ed =>
      let m := if decide (values area = ∅) then delete origin m else m in
      Ret (inr (edit_result ed), mk_store m (publish_edit (hub s) ed))
  end.

Definition try_get_item_utf16 (s : WebStorageStore) (origin : text) (key : units) : option units :=
  read s origin (get_item_read key).
Definition get_item (s : WebStorageStore) (origin : text) (key : list char) : option (list char) :=
  string_from_utf16_units_lossy <$> try_get_item_utf16 s origin (utf16_units key).
Definition try_key_utf16 (s : WebStorageStore) (origin : text) (index : nat) : option units :=
  read s origin (key_read index).
Definition store_key (s : WebStorageStore) (origin : text) (index : nat) : option (list char) :=
  string_from_utf16_units_lossy <$> try_key_utf16 s origin index.
Definition try_items_utf16 (s : WebStorageStore) (origin : text) : list (units * units) := read s origin items_read.
Definition try_len (s : WebStorageStore) (origin : text) : nat := read s origin len_read.
Definition try_contains_key_utf16 (s : WebStorageStore) (origin : text) (key : units) : bool :=
  read s origin (contains_key_read key).
Definition contains_key (s : WebStorageStore) (origin : text) (key : list char) : bool :=
  try_contains_key_utf16 s origin (utf16_units key).
Definition try_sorted_keys_utf16 (s : WebStorageStore) (origin : text) : list units := read s origin sorted_keys_read.
Definition sorted_keys (s : WebStorageStore) (origin : text) : list (list char) :=
  string_from_utf16_units_lossy <$> try_sorted_keys_utf16 s origin.

Notation Change := (run (result (option WebStorageMutation) * WebStorageStore)).

Definition try_set_change_utf16 (s : WebStorageStore) (origin : text) (key value : units) : Change :=
  edit s origin (set_change origin key value).
Definition try_set_item_utf16 (s : WebStorageStore) (origin : text) (key value : units) : run (result bool * WebStorageStore) :=
  '(r, s) ← try_set_change_utf16 s origin key value;
  Ret (match r with inl e => inl e | inr _ => inr true end, s).
Definition try_set_item (s : WebStorageStore) (origin : text) (key value : list char) : run (result bool * WebStorageStore) :=
  try_set_item_utf16 s origin (utf16_units key) (utf16_units value).
(** [unwrap_or(false)] *)
Definition unwrap_or_false (r : run (result bool * WebStorageStore)) : run (bool * WebStorageStore) :=
  '(r, s) ← r; Ret (match r with inl _ => false | inr b => b end, s).
Definition set_item (s : WebStorageStore) (origin : text) (key value : list char) : run (bool * WebStorageStore) :=
  unwrap_or_false (try_set_item s origin key value).
Definition set_item_utf16 (s : WebStorageStore) (origin : text) (key value : units) : run (bool * WebStorageStore) :=
  unwrap_or_false (try_set_item_utf16 s origin key value).

Definition try_remove_change_utf16 (s : WebStorageStore) (origin : text) (key : units) : Change :=
  edit s origin (remove_change origin key).
Definition try_remove_item_utf16 (s : WebStorageStore) (origin : text) (key : units) : run (result bool * WebStorageStore) :=
  '(r, s) ← try_remove_change_utf16 s origin key;
  Ret (match r with inl e => inl e | inr change => inr (bool_decide (is_Some change)) end, s).
Definition try_remove_item (s : WebStorageStore) (origin : text) (key : list char) : run (result bool * WebStorageStore) :=
  try_remove_item_utf16 s origin (utf16_units key).
Definition remove_item (s : WebStorageStore) (origin : text) (key : list char) : run (bool * WebStorageStore) :=
  unwrap_or_false (try_remove_item s origin key).
Definition remove_item_utf16 (s : WebStorageStore) (origin : text) (key : units) : run (bool * WebStorageStore) :=
  unwrap_or_false (try_remove_item_utf16 s origin key).

Definition try_clear_change (s : WebStorageStore) (origin : text) : Change := edit s origin (clear_change origin).

Definition try_clear (s : WebStorageStore) (origin : text) : bool * WebStorageStore :=
  let removed := origins s !! origin in
  let m := delete origin (origins s) in
  let h := match removed with
           | Some area => if decide (values area = ∅) then hub s else publish_mutation (hub s) (ItemsCleared origin)
           | None => hub s
           end in
  (bool_decide (is_Some removed), mk_store m h).
Definition clear (s : WebStorageStore) (origin : text) : WebStorageStore := (try_clear s origin).2.
Definition clear_origin (s : WebStorageStore) (origin : text) : WebStorageStore := clear s origin.
Definition try_clear_origin (s : WebStorageStore) (origin : text) : bool * WebStorageStore := try_clear s origin.

(** The keys come in the iteration order of a [HashMap], [order]. *)
Definition area_keys_for_origin (order : list text → list text) (m : Areas) (origin : text) : list text :=
  order (filter (λ k, storage_key_prefix_for_origin origin `prefix_of` k) (map_to_list m).*1).
Definition memory_len (m : Areas) (origin : text) : nat :=
  match m !! origin with Some a => area_len a | None => 0%nat end.

Definition try_clear_origin_areas (order : list text → list text) (s : WebStorageStore) (origin : text)
    : bool * WebStorageStore :=
  let keys := area_keys_for_origin order (origins s) origin in
  let nonempty := filter (λ k, 0 < memory_len (origins s) k)%nat keys in
  let m := foldl (λ m k, delete k m) (origins s) keys in
  (bool_decide (keys ≠ []), mk_store m (foldl (λ h k, publish_mutation h (ItemsCleared k)) (hub s) nonempty)).
Definition clear_origin_areas (order : list text → list text) (s : WebStorageStore) (origin : text) : WebStorageStore :=
  (try_clear_origin_areas order s origin).2.

(** ** Accounting *)
Definition item_bytes (kv : units * units) : N := 2 * N.of_nat (length kv.1 + length kv.2).
Definition total (m : gmap units units) : N := Nsum item_bytes (map_to_list m).

(** What the code keeps in [size] is the exact total. *)
Definition accounted (a : MemoryWebStorageArea) : Prop := size a = total (values a) ∧ size a < u64_max.

Lemma u64_max_value : u64_max = 18446744073709551615. Proof. done. Qed.

Lemma total_empty : total ∅ = 0.
Proof. unfold total. by rewrite map_to_list_empty. Qed.

Lemma total_insert m k v : m !! k = None → total (<[k := v]> m) = item_bytes (k, v) + total m.
Proof. intros. unfold total. by rewrite map_to_list_insert. Qed.

Lemma total_delete m k v : m !! k = Some v → total m = item_bytes (k, v) + total (delete k m).
Proof. intros Hk. rewrite <-total_insert by apply lookup_delete_eq. by rewrite insert_delete_id. Qed.

Lemma total_replace m k v w :
  m !! k = Some v → total (<[k := w]> m) + item_bytes (k, v) = total m + item_bytes (k, w).
Proof.
  intros Hk. rewrite (total_delete m k v Hk), (total_delete (<[k := w]> m) k w) by apply lookup_insert_eq.
  rewrite delete_insert_eq. lia.
Qed.

Lemma storage_item_size_min k v : storage_item_size k v = N.min (item_bytes (k, v)) u64_max.
Proof. unfold storage_item_size, saturating_add64, usage_bytes, item_bytes. rewrite u64_max_value. simpl. lia. Qed.

Lemma storage_area_size_total m : storage_area_size m = N.min (total m) u64_max.
Proof.
  unfold storage_area_size, total. rewrite map_fold_foldr.
  induction (map_to_list m) as [|[k v] l IH]; [done |]. simpl. rewrite IH, storage_item_size_min.
  unfold saturating_add64. lia.
Qed.

(** The size a set computes is the total of the result, up to saturation. *)
Lemma updated_storage_size_total a k v :
  accounted a → updated_storage_size (size a) k (values a !! k) v = N.min (total (<[k := v]> (values a))) u64_max.
Proof.
  intros [Hs Hm]. rewrite Hs in Hm. unfold updated_storage_size, saturating_add64. rewrite Hs, storage_item_size_min.
  destruct (values a !! k) as [w|] eqn:E.
  - pose proof (total_replace _ _ _ v E). pose proof (total_delete _ _ _ E). rewrite storage_item_size_min. lia.
  - rewrite (total_insert _ _ _ E). lia.
Qed.

(** ** What one edit does *)
Definition mutation_area (m : WebStorageMutation) : text :=
  match m with ItemAdded a _ _ | ItemUpdated a _ _ _ | ItemRemoved a _ _ | ItemsCleared a => a end.

(** A mutation, read as a change of its area. *)
Definition apply_area (m : WebStorageMutation) (v : gmap units units) : gmap units units :=
  match m with
  | ItemAdded _ key value | ItemUpdated _ key _ value => <[key := value]> v
  | ItemRemoved _ key _ => delete key v
  | ItemsCleared _ => ∅
  end.

(** The promise of an edit closure: it returns, keeps the accounts, exceeds
    the quota only by what was there, fails without effect, and reports
    exactly the change it made. *)
Definition good_edit {R} (origin : text) (f : EditFn R) : Prop := ∀ a, accounted a →
  ∃ r a', f a = Ret (r, a') ∧ accounted a' ∧ size a' ≤ N.max (size a) WEB_STORAGE_QUOTA_BYTES ∧
    match r with
    | inl e => e = QuotaExceeded ∧ a' = a
    | inr ed => match edit_mutation ed with
                | None => a' = a
                | Some m => mutation_area m = origin ∧ values a' = apply_area m (values a) ∧ values a' ≠ values a
                end
    end.

Lemma set_change_exact o k v a : accounted a →
  set_change o k v a =
    let t := total (<[k := v]> (values a)) in
    if decide (values a !! k = Some v) then Ret (inr (unchanged None), a)
    else if (size a <? t) && (WEB_STORAGE_QUOTA_BYTES <? t) then Ret (inl QuotaExceeded, a)
    else let m := match values a !! k with Some w => ItemUpdated o k w v | None => ItemAdded o k v end in
         Ret (inr (mk_edit (Some m) (Some m)), mk_area (<[k := v]> (values a)) t).
Proof.
  intros Ha. unfold set_change. rewrite (updated_storage_size_total _ _ _ Ha). destruct Ha as [Hs Hm].
  case_decide; [done |]. simpl. set (t := total _).
  replace ((size a <? t `min` u64_max) && (WEB_STORAGE_QUOTA_BYTES <? t `min` u64_max))
    with ((size a <? t) && (WEB_STORAGE_QUOTA_BYTES <? t)).
  2: { apply Bool.eq_iff_eq_true. rewrite !andb_true_iff, !N.ltb_lt. unfold WEB_STORAGE_QUOTA_BYTES.
       rewrite u64_max_value in *. lia. }
  destruct (_ && _) eqn:E; [done |]. do 4 f_equal. rewrite andb_false_iff, !N.ltb_ge in E.
  unfold WEB_STORAGE_QUOTA_BYTES in E. rewrite u64_max_value in *. lia.
Qed.

Lemma set_change_good o k v : good_edit o (set_change o k v).
Proof.
  intros a Ha. rewrite (set_change_exact _ _ _ _ Ha). simpl. case_decide as Hd.
  - eexists _, _. split; [done |]. simpl. split_and!; [done | lia | done].
  - destruct (_ && _) eqn:E.
    + eexists _, _. split; [done |]. simpl. split_and!; [done | lia | done | done].
    + destruct Ha as [Hs Hm]. rewrite andb_false_iff, !N.ltb_ge in E. eexists _, _. split; [done |].
      unfold WEB_STORAGE_QUOTA_BYTES in *. rewrite u64_max_value in *. simpl. split_and!.
      * split; simpl; [done | rewrite u64_max_value; lia].
      * lia.
      * by destruct (values a !! k).
      * by destruct (values a !! k).
      * intros Heq. apply Hd. by rewrite <-Heq, lookup_insert_eq.
Qed.

Lemma remove_change_good o k : good_edit o (remove_change o k).
Proof.
  intros a [Hs Hm]. unfold remove_change. destruct (values a !! k) as [v|] eqn:E.
  - pose proof (total_delete _ _ _ E) as Ht. rewrite sub64_fits by (rewrite storage_item_size_min; lia).
    cbn [mbind run_bind]. eexists _, _. split; [done |]. rewrite storage_item_size_min.
    simpl. split_and!; [split; simpl; lia | lia | done | done |].
    intros Heq. by rewrite <-Heq, lookup_delete_eq in E.
  - eexists _, _. split; [done |]. simpl. split_and!; [done | lia | done].
Qed.

Lemma clear_change_good o : good_edit o (clear_change o).
Proof.
  intros a [Hs Hm]. unfold clear_change. case_decide as Hd; eexists _, _; (split; [done |]); simpl.
  - split_and!; [done | lia | done].
  - split_and!; [by split; simpl; rewrite ?total_empty | lia | done | done | congruence].
Qed.

#[export] Hint Resolve set_change_good remove_change_good clear_change_good : moli.

(** ** Contents and replay *)
Notation Contents := (text → gmap units units).

Definition view (m : Areas) : Contents := λ k, default ∅ (values <$> m !! k).

Definition apply_mutation (v : Contents) (m : WebStorageMutation) : Contents := λ k,
  if decide (k = mutation_area m) then apply_area m (v k) else v k.
Definition replay (v : Contents) (ms : list WebStorageMutation) : Contents := foldl apply_mutation v ms.

(** Every mutation of the list changes something when its turn comes. *)
Fixpoint effective (v : Contents) (ms : list WebStorageMutation) : Prop :=
  match ms with
  | [] => True
  | m :: ms => apply_area m (v (mutation_area m)) ≠ v (mutation_area m) ∧ effective (apply_mutation v m) ms
  end.

Definition publish_all (h : Hub) (ms : list WebStorageMutation) : Hub := foldl publish_mutation h ms.

Definition same (v w : Contents) : Prop := ∀ k, v k = w k.

Lemma apply_mutation_same v w m : same v w → same (apply_mutation v m) (apply_mutation w m).
Proof. intros H k. unfold apply_mutation. case_decide; by rewrite H. Qed.

Lemma replay_same v w ms : same v w → same (replay v ms) (replay w ms).
Proof. revert v w. induction ms as [|m ms IH]; intros v w H; [done |]. by apply IH, apply_mutation_same. Qed.

Lemma effective_same v w ms : same v w → effective v ms → effective w ms.
Proof.
  revert v w. induction ms as [|m ms IH]; intros v w H; [done |]. simpl. rewrite H.
  intros [? ?]. split; [done |]. eapply IH; [| done]. by apply apply_mutation_same.
Qed.

Lemma effective_app v ms ms' : effective v ms → effective (replay v ms) ms' → effective v (ms ++ ms').
Proof. revert v. induction ms as [|m ms IH]; intros v; simpl; [done |]. intros [? ?] ?. split; [done |]. by apply IH. Qed.

(** ** The store keeps its promises *)
Definition store_ok (m : Areas) : Prop := ∀ o a, m !! o = Some a → accounted a ∧ size a ≤ WEB_STORAGE_QUOTA_BYTES.

Lemma area_default_accounted : accounted area_default.
Proof. split; simpl; [by rewrite total_empty | done]. Qed.

Lemma store_ok_default m o : store_ok m →
  accounted (default area_default (m !! o)) ∧ size (default area_default (m !! o)) ≤ WEB_STORAGE_QUOTA_BYTES.
Proof.
  intros H. destruct (m !! o) as [a|] eqn:E; simpl; [by eapply H |].
  split; [apply area_default_accounted | done].
Qed.

Lemma view_default m o : view m o = values (default area_default (m !! o)).
Proof. unfold view. by destruct (m !! o). Qed.

Lemma store_ok_insert m o a : store_ok m → accounted a → size a ≤ WEB_STORAGE_QUOTA_BYTES → store_ok (<[o := a]> m).
Proof. intros Hm ?? o' a' [[<- <-]|[_ ?]]%lookup_insert_Some; [done | by eapply Hm]. Qed.

Lemma store_ok_delete m o : store_ok m → store_ok (delete o m).
Proof. intros Hm o' a' [_ ?]%lookup_delete_Some. by eapply Hm. Qed.

Lemma view_insert m o a k : view (<[o := a]> m) k = if decide (k = o) then values a else view m k.
Proof. unfold view. case_decide; [subst; by rewrite lookup_insert_eq | by rewrite lookup_insert_ne by done]. Qed.

Lemma view_delete m o k : view (delete o m) k = if decide (k = o) then ∅ else view m k.
Proof. unfold view. case_decide; [subst; by rewrite lookup_delete_eq | by rewrite lookup_delete_ne by done]. Qed.

(** One edit through the memory back end: the contents change by exactly the
    mutation that is published, and by nothing when the edit is refused. *)
Lemma edit_steps {R} s o (f : EditFn R) : good_edit o f → store_ok (origins s) →
  ∃ r s' ms, edit s o f = Ret (r, s') ∧ store_ok (origins s') ∧ same (view (origins s')) (replay (view (origins s)) ms) ∧
    effective (view (origins s)) ms ∧ hub s' = publish_all (hub s) ms ∧ (∀ e, r = inl e → e = QuotaExceeded ∧ ms = []).
Proof.
  intros Hf Hs. destruct (store_ok_default _ o Hs) as [Ha Hq].
  destruct (Hf _ Ha) as (r & a' & Hfa & Ha' & Hq' & Hr). unfold edit. rewrite Hfa. cbn [mbind run_bind].
  assert (Hq2 : size a' ≤ WEB_STORAGE_QUOTA_BYTES) by lia. destruct r as [e|ed].
  - destruct Hr as [-> ->]. eexists _, _, []. split; [done |]. simpl. split_and!; [by apply store_ok_insert | | done | done |].
    + intros k. simpl. rewrite view_insert. case_decide; [by subst; rewrite view_default | done].
    + by intros e [= <-].
  - eexists _, _, (option_list (edit_mutation ed)). split; [done |]. simpl. split_and!.
    + case_decide; [by apply store_ok_delete, store_ok_insert | by apply store_ok_insert].
    + intros k. assert (Hk : view (if decide (values a' = ∅) then delete o (<[o:=a']> (origins s)) else <[o:=a']> (origins s)) k
        = if decide (k = o) then values a' else view (origins s) k).
      { destruct (decide (values a' = ∅)) as [He|He]; rewrite ?view_delete, view_insert; repeat case_decide; congruence. }
      rewrite Hk. clear Hk. destruct (edit_mutation ed) as [m|]; simpl.
      * destruct Hr as (<- & Hv & _). unfold apply_mutation. case_decide; [subst; by rewrite view_default | done].
      * subst. case_decide; [subst; by rewrite view_default | done].
    + destruct (edit_mutation ed) as [m|]; simpl; [| done]. destruct Hr as (<- & Hv & Hne).
      rewrite view_default. split; [congruence | done].
    + unfold publish_edit. by destruct (edit_mutation ed).
    + done.
Qed.

Lemma size_zero_view m k : (0 < memory_len m k)%nat ↔ view m k ≠ ∅.
Proof.
  unfold memory_len, view, area_len. destruct (m !! k) as [a|]; simpl; [| split; [lia | done]].
  rewrite <-map_size_empty_iff. lia.
Qed.

Lemma try_clear_steps s o : store_ok (origins s) → let s' := (try_clear s o).2 in
  ∃ ms, store_ok (origins s') ∧ same (view (origins s')) (replay (view (origins s)) ms) ∧
    effective (view (origins s)) ms ∧ hub s' = publish_all (hub s) ms.
Proof.
  intros Hs. simpl. destruct (decide (view (origins s) o = ∅)) as [He|He].
  - exists []. split_and!; [by apply store_ok_delete | | done |].
    + intros k. simpl. rewrite view_delete. case_decide; congruence.
    + unfold view in He. destruct (origins s !! o); simpl in *; [by rewrite decide_True | done].
  - exists [ItemsCleared o]. split_and!; [by apply store_ok_delete | | |].
    + intros k. simpl. rewrite view_delete. done.
    + simpl. done.
    + unfold view in He. destruct (origins s !! o); simpl in *; [by rewrite decide_False | done].
Qed.

Lemma replay_cleared ks v k : replay v (ItemsCleared <$> ks) k = if decide (k ∈ ks) then ∅ else v k.
Proof.
  revert v. induction ks as [|k' ks IH]; intros v; simpl; [done |]. rewrite IH. unfold apply_mutation. simpl.
  repeat case_decide; set_solver.
Qed.

Lemma effective_cleared ks v : NoDup ks → Forall (λ k, v k ≠ ∅) ks → effective v (ItemsCleared <$> ks).
Proof.
  revert v. induction ks as [|k ks IH]; intros v; simpl; [done |]. rewrite NoDup_cons, Forall_cons.
  intros [Hk Hn] [Hv Hs]. split; [done |]. apply IH; [done |].
  eapply Forall_impl; [apply Forall_and; split; [exact Hs | apply Forall_forall; intros x Hx; exact Hx] |].
  intros x [Hx Hin]. unfold apply_mutation. simpl. by rewrite decide_False by congruence.
Qed.

Lemma view_delete_all ks m k : view (foldl (λ m k, delete k m) m ks) k = if decide (k ∈ ks) then ∅ else view m k.
Proof.
  revert m. induction ks as [|k' ks IH]; intros m; simpl; [done |]. rewrite IH, view_delete.
  repeat case_decide; set_solver.
Qed.

Lemma store_ok_delete_all ks m : store_ok m → store_ok (foldl (λ m k, delete k m) m ks).
Proof. revert m. induction ks; intros m Hm; simpl; [done |]. by apply IHks, store_ok_delete. Qed.

Lemma publish_cleared h ks :
  foldl (λ h k, publish_mutation h (ItemsCleared k)) h ks = publish_all h (ItemsCleared <$> ks).
Proof. revert h. induction ks; intros h; [done |]. apply IHks. Qed.

Section hash_order.
Context (order : list text → list text) (order_permutes : ∀ l, order l ≡ₚ l).

Lemma area_keys_NoDup m o : NoDup (area_keys_for_origin order m o).
Proof using order_permutes.
  unfold area_keys_for_origin. rewrite order_permutes. apply NoDup_filter, NoDup_fst_map_to_list.
Qed.

Lemma try_clear_origin_areas_steps s o : store_ok (origins s) → let s' := (try_clear_origin_areas order s o).2 in
  ∃ ms, store_ok (origins s') ∧ same (view (origins s')) (replay (view (origins s)) ms) ∧
    effective (view (origins s)) ms ∧ hub s' = publish_all (hub s) ms.
Proof using order_permutes.
  intros Hs. simpl. set (keys := area_keys_for_origin order (origins s) o).
  exists (ItemsCleared <$> filter (λ k, 0 < memory_len (origins s) k)%nat keys). split_and!.
  - by apply store_ok_delete_all.
  - intros k. rewrite view_delete_all, replay_cleared.
    destruct (decide (k ∈ keys)) as [Hk|Hk].
    + destruct (decide (0 < memory_len (origins s) k)%nat) as [Hl|Hl].
      * by rewrite decide_True by (by apply list_elem_of_filter).
      * rewrite decide_False by (by intros [? _]%list_elem_of_filter). rewrite size_zero_view in Hl.
        symmetry. by apply dec_stable.
    + rewrite decide_False; [done |]. by intros [_ ?]%list_elem_of_filter.
  - apply effective_cleared; [apply NoDup_filter, area_keys_NoDup |].
    apply Forall_forall. intros k [Hk _]%list_elem_of_filter. by apply size_zero_view.
  - apply publish_cleared.
Qed.

(** ** Subscribers *)
(** [q] is alive and registered once, for [kind]. *)
Definition tracked (h : Hub) (kind : WebStorageAreaKind) (q : nat) : Prop :=
  is_Some (upgrade h q) ∧ filter (λ s, s.2 = q) (mutation_subscribers h) = [(kind, q)].

Lemma lookup_push_all m (subs : list (WebStorageAreaKind * nat)) qs q :
  foldl (λ l s, push_back s.2 (mk_record s.1 m) l) qs subs !! q =
    fmap (λ l, l ++ ((λ s, mk_record s.1 m) <$> filter (λ s, s.2 = q) subs)) <$> qs !! q.
Proof.
  revert qs. induction subs as [|[kd p] subs IH]; intros qs.
  - simpl. destruct (qs !! q) as [[l|]|]; simpl; by rewrite ?app_nil_r.
  - simpl. rewrite IH. unfold push_back. destruct (decide (p = q)) as [->|Hne].
    + rewrite list_lookup_alter_eq, filter_cons_True by done.
      destruct (qs !! q) as [[l|]|]; simpl; by rewrite <-?app_assoc.
    + rewrite list_lookup_alter_ne by done. by rewrite filter_cons_False.
Qed.

Lemma publish_tracked h kind q m l : tracked h kind q → upgrade h q = Some l →
  tracked (publish_mutation h m) kind q ∧ upgrade (publish_mutation h m) q = Some (l ++ [mk_record kind m]).
Proof.
  intros [Ha Hf] Hu. set (alive := filter (λ s, is_Some (upgrade h s.2)) (mutation_subscribers h)).
  assert (Hq : filter (λ s, s.2 = q) alive = [(kind, q)]).
  { rewrite <-Hf. unfold alive. rewrite list_filter_filter. apply list_filter_iff. intros s. naive_solver. }
  assert (Hup : upgrade (publish_mutation h m) q = Some (l ++ [mk_record kind m])).
  { unfold upgrade at 1. unfold publish_mutation. cbn [queues]. fold alive. rewrite lookup_push_all, Hq.
    unfold upgrade in Hu. destruct (queues h !! q) as [[l'|]|]; simpl in *; by simplify_eq. }
  split; [split; [by rewrite Hup | exact Hq] | done].
Qed.

Lemma publish_all_tracked ms h kind q l : tracked h kind q → upgrade h q = Some l →
  tracked (publish_all h ms) kind q ∧ upgrade (publish_all h ms) q = Some (l ++ (mk_record kind <$> ms)).
Proof.
  revert h l. induction ms as [|m ms IH]; intros h l Ht Hu; simpl; [by rewrite app_nil_r |].
  destruct (publish_tracked _ _ _ m _ Ht Hu) as [Ht' Hu']. rewrite cons_middle, app_assoc. by apply IH.
Qed.
End hash_order.

(** ** Histories of calls *)
Inductive Call :=
  | CSet (origin : text) (key value : units)
  | CRemove (origin : text) (key : units)
  | CClearChange (origin : text)
  | CClear (origin : text)
  | CClearOriginAreas (origin : text)
  | CSubscribe (kind : WebStorageAreaKind)
  | CAddSubscription (kind : WebStorageAreaKind) (q : nat)
  | CDrain (q : nat)
  | CDropSubscription (q : nat).

Section histories.
Context (order : list text → list text).

(** A call, with what a drained subscription hands out.  Only a handle that
    is still there can be registered again. *)
Definition step (s : WebStorageStore) (c : Call) : run (WebStorageStore * list (nat * WebStorageMutationRecord)) :=
  let on_hub h := Ret (mk_store (origins s) h, []) in
  match c with
  | CSet o k v => (λ p, (p.2, [])) <$> try_set_change_utf16 s o k v
  | CRemove o k => (λ p, (p.2, [])) <$> try_remove_change_utf16 s o k
  | CClearChange o => (λ p, (p.2, [])) <$> try_clear_change s o
  | CClear o => Ret ((try_clear s o).2, [])
  | CClearOriginAreas o => Ret ((try_clear_origin_areas order s o).2, [])
  | CSubscribe kind => on_hub (subscribe_mutations (hub s) kind).1
  | CAddSubscription kind q =>
      on_hub (if decide (is_Some (upgrade (hub s) q)) then add_mutation_subscription (hub s) kind q else hub s)
  | CDrain q => Ret (mk_store (origins s) (drain (hub s) q).1, pair q <$> (drain (hub s) q).2)
  | CDropSubscription q => on_hub (drop_subscription (hub s) q)
  end.

Fixpoint run_calls (s : WebStorageStore) (calls : list Call) : run (WebStorageStore * list (nat * WebStorageMutationRecord)) :=
  match calls with
  | [] => Ret (s, [])
  | c :: calls => '(s, out) ← step s c; '(s, outs) ← run_calls s calls; Ret (s, out ++ outs)
  end.

(** Registrations name queues that exist or existed. *)
Definition hub_ok (h : Hub) : Prop := Forall (λ s, (s.2 < length (queues h))%nat) (mutation_subscribers h).

(** A call that keeps [q] and its registration. *)
Definition leaves (q : nat) (c : Call) : Prop :=
  match c with CAddSubscription _ p | CDropSubscription p => p ≠ q | _ => True end.

(** What subscription [q] was handed. *)
Definition received (q : nat) (outs : list (nat * WebStorageMutationRecord)) : list WebStorageMutationRecord :=
  snd <$> filter (λ p, p.1 = q) outs.

Context (order_permutes : ∀ l, order l ≡ₚ l).

Lemma tracked_other h kind q kind' p : tracked h kind q → p ≠ q →
  tracked (add_mutation_subscription h kind' p) kind q ∧ upgrade (add_mutation_subscription h kind' p) q = upgrade h q.
Proof.
  intros [Ha Hf] Hne. split; [| done]. split; [done |]. unfold add_mutation_subscription. simpl.
  rewrite filter_app, list_filter_filter, (filter_cons_False _ (kind', p)) by done.
  rewrite <-Hf, app_nil_r. apply list_filter_iff. intros s. split; [by intros [? _] |]. intros Hs. split; [done |].
  split; [by rewrite Hs |]. intros ->. by apply Hne.
Qed.

Lemma upgrade_new h q : is_Some (upgrade h q) →
  upgrade (mk_hub (queues h ++ [Some []]) (mutation_subscribers h)) q = upgrade h q.
Proof.
  intros Hq. unfold upgrade in *. simpl. destruct (queues h !! q) eqn:E; [| by destruct Hq].
  by rewrite (lookup_app_l_Some _ _ _ _ E).
Qed.

Lemma upgrade_insert h q p x : p ≠ q → upgrade (mk_hub (<[p := x]> (queues h)) (mutation_subscribers h)) q = upgrade h q.
Proof. intros. unfold upgrade. simpl. by rewrite list_lookup_insert_ne. Qed.

(** A call on the subscriptions alone: what [q] was handed and still has is
    what it had. *)
Lemma received_self q l : received q (pair q <$> l) = l.
Proof.
  unfold received. induction l as [|r l IH]; [done |]. cbn [fmap list_fmap].
  rewrite filter_cons_True by done. cbn [fmap list_fmap]. f_equal. exact IH.
Qed.

Lemma received_other q p l : p ≠ q → received q (pair p <$> l) = [].
Proof. intros. unfold received. induction l; [done |]. cbn [fmap list_fmap]. by rewrite filter_cons_False. Qed.

Lemma received_app q l k : received q (l ++ k) = received q l ++ received q k.
Proof. unfold received. by rewrite filter_app, fmap_app. Qed.

Lemma drain_tracked h kind q p l : tracked h kind q → upgrade h q = Some l →
  tracked (drain h p).1 kind q ∧ ∃ l', upgrade (drain h p).1 q = Some l' ∧ received q (pair p <$> (drain h p).2) ++ l' = l.
Proof.
  intros Ht Hu. destruct (decide (p = q)) as [->|Hne].
  - unfold drain. rewrite Hu. simpl.
    assert (Hnew : upgrade (mk_hub (<[q := Some []]> (queues h)) (mutation_subscribers h)) q = Some []).
    { unfold upgrade in *. simpl. rewrite list_lookup_insert_eq; [done |].
      destruct (queues h !! q) eqn:E; [by eapply lookup_lt_Some | done]. }
    split; [split; [by rewrite Hnew | apply Ht] |]. exists []. by rewrite received_self, app_nil_r.
  - unfold drain. destruct (upgrade h p); simpl; [| by split; [| exists l]].
    split; [split; [by rewrite upgrade_insert, Hu by done | apply Ht] |].
    exists l. by rewrite received_other, upgrade_insert by done.
Qed.

Lemma hub_ok_weaken h h' : hub_ok h → (length (queues h) ≤ length (queues h'))%nat →
  (∀ s, s ∈ mutation_subscribers h' → s ∈ mutation_subscribers h ∨ (s.2 < length (queues h'))%nat) → hub_ok h'.
Proof.
  unfold hub_ok. rewrite !Forall_forall. intros H Hl Hs s [?%H | ?]%Hs; [| done]. eapply Nat.lt_le_trans; [done |]. lia.
Qed.

Lemma publish_hub_ok h m : hub_ok h → hub_ok (publish_mutation h m).
Proof.
  intros H. eapply hub_ok_weaken; [exact H | |].
  - unfold publish_mutation. cbn [queues]. generalize (queues h).
    induction (filter _ _) as [|s l IH]; intros qs; [done |]. simpl. rewrite <-IH. unfold push_back.
    by rewrite length_alter.
  - intros s [_ ?]%list_elem_of_filter. by left.
Qed.

Lemma add_hub_ok h kind q : hub_ok h → is_Some (upgrade h q) → hub_ok (add_mutation_subscription h kind q).
Proof.
  intros H Hq. eapply hub_ok_weaken; [exact H | done |]. intros s. unfold add_mutation_subscription. simpl.
  rewrite elem_of_app, list_elem_of_filter, list_elem_of_singleton. intros [[_ ?] | ->]; [by left | right].
  unfold upgrade in Hq. destruct (queues h !! q) eqn:E; [by eapply lookup_lt_Some | by destruct Hq].
Qed.

Lemma step_hub_ok s c s' out : hub_ok (hub s) → step s c = Ret (s', out) → hub_ok (hub s').
Proof.
  assert (Hpub : ∀ ms h, hub_ok h → hub_ok (publish_all h ms)).
  { induction ms as [|m ms IH]; intros h Hh; [done |]. by apply IH, publish_hub_ok. }
  assert (Hedit : ∀ R o (f : EditFn R) r, edit s o f = Ret (r, s') → hub_ok (hub s) → hub_ok (hub s')).
  { intros R o f r He Hh. unfold edit in He. apply run_bind_Ret in He as ([[e|ed] a] & _ & He); simplify_eq; simpl; [done |].
    unfold publish_edit. destruct (edit_mutation ed); [by apply publish_hub_ok | done]. }
  intros Hh. destruct c; simpl.
  1-3: intros ([r s1] & He & Heq)%run_fmap_Ret; simplify_eq; by eapply Hedit.
  - intros [= <- <-]. simpl. repeat case_match; try done. by apply publish_hub_ok.
  - intros [= <- <-]. simpl. rewrite publish_cleared. by apply Hpub.
  - intros [= <- <-]. simpl. apply add_hub_ok.
    + eapply hub_ok_weaken; [exact Hh | |]; simpl; [rewrite length_app; lia | by left].
    + unfold upgrade. simpl. rewrite lookup_app_r, Nat.sub_diag by lia. by eexists.
  - intros [= <- <-]. simpl. case_decide; [by apply add_hub_ok | done].
  - intros [= <- <-]. simpl. unfold drain. destruct (upgrade _ _); [| done]. simpl.
    eapply hub_ok_weaken; [exact Hh | simpl; by rewrite length_insert | by left].
  - intros [= <- <-]. simpl. eapply hub_ok_weaken; [exact Hh | simpl; by rewrite length_insert | by left].
Qed.

Lemma run_calls_hub_ok calls s s' outs : hub_ok (hub s) → run_calls s calls = Ret (s', outs) → hub_ok (hub s').
Proof.
  revert s outs. induction calls as [|c calls IH]; intros s outs Hh; simpl; [by intros [= <- <-] |].
  intros ([s1 o1] & H1 & H2)%run_bind_Ret. apply run_bind_Ret in H2 as ([s2 o2] & H2 & [= <- <-]).
  eapply IH; [| done]. by eapply step_hub_ok.
Qed.

Lemma store_step_ok s c : store_ok (origins s) →
  ∃ s' out ms, step s c = Ret (s', out) ∧ store_ok (origins s') ∧
    same (view (origins s')) (replay (view (origins s)) ms) ∧ effective (view (origins s)) ms ∧
    (∀ kind q l, leaves q c → tracked (hub s) kind q → upgrade (hub s) q = Some l →
       tracked (hub s') kind q ∧ ∃ l', upgrade (hub s') q = Some l' ∧ received q out ++ l' = l ++ (mk_record kind <$> ms)).
Proof using order_permutes.
  intros Hs.
  assert (Hedit : ∀ (r : Change) s' ms rr, r = Ret (rr, s') → store_ok (origins s') →
    same (view (origins s')) (replay (view (origins s)) ms) → effective (view (origins s)) ms →
    hub s' = publish_all (hub s) ms → ∃ s' out ms, (λ p, (p.2, [])) <$> r = Ret (s', out) ∧ store_ok (origins s') ∧
    same (view (origins s')) (replay (view (origins s)) ms) ∧ effective (view (origins s)) ms ∧
    (∀ kind q l, leaves q c → tracked (hub s) kind q → upgrade (hub s) q = Some l →
       tracked (hub s') kind q ∧ ∃ l', upgrade (hub s') q = Some l' ∧ received q out ++ l' = l ++ (mk_record kind <$> ms))).
  { intros r s' ms rr -> ? ? ? Hh. exists s', [], ms. split_and!; [done.. |]. intros kind q l _ Ht Hu. rewrite Hh.
    destruct (publish_all_tracked ms _ _ _ _ Ht Hu) as [? Hu']. split; [done |]. exists (l ++ (mk_record kind <$> ms)).
    done. }
  assert (Hhub : ∀ h out, (∀ kind q l, leaves q c → tracked (hub s) kind q → upgrade (hub s) q = Some l →
       tracked h kind q ∧ ∃ l', upgrade h q = Some l' ∧ received q out ++ l' = l) →
    ∃ s' out' ms, Ret (mk_store (origins s) h, out) = Ret (s', out') ∧ store_ok (origins s') ∧
    same (view (origins s')) (replay (view (origins s)) ms) ∧ effective (view (origins s)) ms ∧
    (∀ kind q l, leaves q c → tracked (hub s) kind q → upgrade (hub s) q = Some l →
       tracked (hub s') kind q ∧ ∃ l', upgrade (hub s') q = Some l' ∧ received q out' ++ l' = l ++ (mk_record kind <$> ms))).
  { intros h out Hh. exists (mk_store (origins s) h), out, []. split_and!; [done.. |]. intros kind q l ???.
    rewrite app_nil_r. by eapply Hh. }
  destruct c; simpl.
  - destruct (edit_steps s origin (set_change origin key value)) as (? & ? & ? & ? & ? & ? & ? & ? & _); eauto with moli.
  - destruct (edit_steps s origin (remove_change origin key)) as (? & ? & ? & ? & ? & ? & ? & ? & _); eauto with moli.
  - destruct (edit_steps s origin (clear_change origin)) as (? & ? & ? & ? & ? & ? & ? & ? & _); eauto with moli.
  - destruct (try_clear_steps s origin Hs) as (ms & ? & ? & ? & ?).
    eapply (Hedit (Ret (inr None, (try_clear s origin).2))); [done.. | done].
  - destruct (try_clear_origin_areas_steps order order_permutes s origin Hs) as (ms & ? & ? & ? & ?).
    eapply (Hedit (Ret (inr None, (try_clear_origin_areas order s origin).2))); [done.. | done].
  - apply Hhub. intros kd q l _ Ht Hu. unfold subscribe_mutations. cbn [fst].
    assert (Hlt : (q < length (queues (hub s)))%nat).
    { unfold upgrade in Hu. destruct (queues (hub s) !! q) eqn:E; [by eapply lookup_lt_Some | done]. }
    set (h := mk_hub (queues (hub s) ++ [Some []]) (mutation_subscribers (hub s))).
    assert (Hn : upgrade h q = Some l) by (unfold h; rewrite upgrade_new by (rewrite Hu; eauto); done).
    destruct (tracked_other h kd q kind (length (queues (hub s)))) as [? Hq]; [split; [by rewrite Hn | apply Ht] | lia |].
    rewrite Hq. eauto.
  - apply Hhub. intros kd q' l Hne Ht Hu. simpl in Hne. case_decide; [| by split; [| exists l]].
    destruct (tracked_other _ _ _ kind q Ht Hne) as [? ->]. eauto.
  - apply Hhub. intros kd q' l _ Ht Hu. by apply drain_tracked.
  - apply Hhub. intros kd q' l Hne Ht Hu. simpl in Hne. unfold drop_subscription. rewrite upgrade_insert by done.
    split; [split; [by rewrite upgrade_insert, Hu by done | apply Ht] | eauto].
Qed.

Lemma run_calls_ok calls s : store_ok (origins s) →
  ∃ s' outs ms, run_calls s calls = Ret (s', outs) ∧ store_ok (origins s') ∧
    same (view (origins s')) (replay (view (origins s)) ms) ∧ effective (view (origins s)) ms ∧
    (∀ kind q l, Forall (leaves q) calls → tracked (hub s) kind q → upgrade (hub s) q = Some l →
       ∃ l', upgrade (hub s') q = Some l' ∧ received q outs ++ l' = l ++ (mk_record kind <$> ms)).
Proof using order_permutes.
  revert s. induction calls as [|c calls IH]; intros s Hs; simpl.
  - exists s, [], []. split_and!; [done.. |]. intros kind q l _ _ Hu. exists l. by rewrite app_nil_r.
  - destruct (store_step_ok s c Hs) as (s1 & out & ms1 & -> & Hs1 & Hv1 & He1 & Hq1). cbn [mbind run_bind].
    destruct (IH s1 Hs1) as (s2 & outs & ms2 & -> & Hs2 & Hv2 & He2 & Hq2). cbn [mbind run_bind].
    exists s2, (out ++ outs), (ms1 ++ ms2). split_and!; [done | done | | |].
    + intros k. rewrite Hv2. unfold replay. rewrite foldl_app. by apply replay_same.
    + apply effective_app; [done |]. by eapply effective_same.
    + intros kind q l [Hc Hcs]%Forall_cons Ht Hu. destruct (Hq1 _ _ _ Hc Ht Hu) as (Ht1 & l1 & Hu1 & Hr1).
      destruct (Hq2 _ _ _ Hcs Ht1 Hu1) as (l2 & Hu2 & Hr2). exists l2. split; [done |].
      by rewrite received_app, <-app_assoc, Hr2, app_assoc, Hr1, fmap_app, <-app_assoc.
Qed.
End histories.

(** ** Strings in and out *)
(** A Unicode scalar value: no surrogate. *)
Definition is_scalar (c : char) : Prop := c ≤ 1114111 ∧ ¬ (55296 ≤ c ≤ 57343).

Lemma surrogate_pair c : 65536 ≤ c → c ≤ 1114111 →
  let h := 55296 + N.shiftr (c - 65536) 10 in let l := 56320 + N.land (c - 65536) 1023 in
  is_high_surrogate h = true ∧ is_low_surrogate l = true ∧ 65536 + N.shiftl (h - 55296) 10 + (l - 56320) = c.
Proof.
  intros Hlo Hhi. simpl. change 1023 with (N.ones 10). rewrite N.land_ones, N.shiftr_div_pow2, N.shiftl_mul_pow2.
  change (2 ^ 10) with 1024. remember (c - 65536) as d eqn:Hc.
  pose proof (N.div_mod d 1024 ltac:(done)) as Hd. pose proof (N.mod_upper_bound d 1024 ltac:(done)) as Hm.
  assert (Hq : d / 1024 < 1024) by (apply N.Div0.div_lt_upper_bound; lia).
  unfold is_high_surrogate, is_low_surrogate. rewrite !andb_true_iff, !N.leb_le.
  revert Hd Hm Hq. generalize (d / 1024) (d mod 1024). intros x y Hd Hm Hq. split_and!; lia.
Qed.

Lemma scalar_not_surrogate c : is_scalar c → c < 65536 → is_high_surrogate c = false ∧ is_low_surrogate c = false.
Proof.
  intros [_ Hn] Hc. unfold is_high_surrogate, is_low_surrogate. rewrite !andb_false_iff, !N.leb_gt. lia.
Qed.

Lemma utf16_lossy s : Forall is_scalar s → string_from_utf16_units_lossy (utf16_units s) = s.
Proof.
  unfold utf16_units. induction 1 as [|c s Hc _ IH]; [done |]. cbn [mbind list_bind]. unfold encode_utf16_char at 1.
  destruct (N.ltb_spec c 65536) as [Hlt|Hge].
  - destruct (scalar_not_surrogate c Hc Hlt) as [Hh Hl]. cbn [app string_from_utf16_units_lossy].
    rewrite Hh, Hl. by f_equal.
  - destruct (surrogate_pair c Hge (proj1 Hc)) as (Hh & Hl & Heq).
    cbn [app string_from_utf16_units_lossy]. rewrite Hh, Hl, Heq. by f_equal.
Qed.

Lemma utf16_units_inj s t : Forall is_scalar s → Forall is_scalar t → utf16_units s = utf16_units t → s = t.
Proof. intros Hs Ht Heq. by rewrite <-(utf16_lossy s Hs), <-(utf16_lossy t Ht), Heq. Qed.

(** ** Guarantees *)
Lemma set_steps s o k v : store_ok (origins s) →
  ∃ r s', try_set_change_utf16 s o k v = Ret (r, s') ∧
    (r = inl QuotaExceeded ↔ WEB_STORAGE_QUOTA_BYTES < total (<[k := v]> (view (origins s) o))) ∧
    (∀ o', view (origins s') o' = if decide (o' = o ∧ r ≠ inl QuotaExceeded)
                                  then <[k := v]> (view (origins s) o) else view (origins s) o') ∧
    (r = inl QuotaExceeded →
     s' = mk_store (<[o := default area_default (origins s !! o)]> (origins s)) (hub s)).
Proof.
  intros Hs. destruct (store_ok_default _ o Hs) as [Ha Hq]. unfold try_set_change_utf16, edit.
  rewrite (set_change_exact _ _ _ _ Ha), (view_default _ o). set (a := default area_default (origins s !! o)) in *.
  assert (Ht : size a = total (values a)) by apply Ha. simpl. case_decide as Hd.
  - cbn [mbind run_bind]. eexists _, _. split; [done |].
    rewrite insert_id by done. split; [split; [done |]; lia |]. split; [| done]. intros o'. simpl.
    destruct (decide (values a = ∅)) as [He|He]; rewrite ?view_delete, view_insert; [by rewrite He in Hd |].
    destruct (decide (o' = o)) as [->|Hne]; [by rewrite decide_True | by rewrite decide_False by naive_solver].
  - destruct (_ && _) eqn:E; cbn [mbind run_bind]; eexists _, _; (split; [done |]).
    + rewrite andb_true_iff, !N.ltb_lt in E. split; [naive_solver lia |]. split; [| done]. intros o'. simpl. rewrite view_insert.
      rewrite (decide_False (P := _ ∧ _)) by naive_solver.
      destruct (decide (o' = o)) as [->|Hne]; [by rewrite view_default | done].
    + rewrite andb_false_iff, !N.ltb_ge in E. split; [split; [done |]; lia |]. split; [| done]. intros o'. simpl.
      rewrite decide_False by apply insert_non_empty. rewrite view_insert.
      destruct (decide (o' = o)) as [->|Hne]; [by rewrite decide_True | by rewrite decide_False by naive_solver].
Qed.

Lemma store_default_ok : store_ok (origins store_default).
Proof. by intros o a ?. Qed.

(** C39: Areas are accounted for exactly and stay within the quota.  Every
    history of calls, with any iteration order of the hash maps, returns
    without panic; then every area's recorded size is the bytes of its keys
    and values and at most the quota, and a further set is refused exactly if
    the total would exceed the quota.  An accepted set changes exactly its key.
    A refused one changes no contents and publishes nothing; all it can leave
    behind is an empty area under an origin that had none
    ([refused_set_leaves_area]). *)
Theorem web_storage_accounted order calls : (∀ l, order l ≡ₚ l) →
  ∃ s outs, run_calls order store_default calls = Ret (s, outs) ∧
    (∀ o a, origins s !! o = Some a → size a = total (values a) ∧ size a ≤ WEB_STORAGE_QUOTA_BYTES) ∧
    ∀ o k v, ∃ r s', try_set_change_utf16 s o k v = Ret (r, s') ∧
      (r = inl QuotaExceeded ↔ WEB_STORAGE_QUOTA_BYTES < total (<[k := v]> (view (origins s) o))) ∧
      (∀ o', view (origins s') o' = if decide (o' = o ∧ r ≠ inl QuotaExceeded)
                                    then <[k := v]> (view (origins s) o) else view (origins s) o') ∧
      (r = inl QuotaExceeded →
       s' = mk_store (<[o := default area_default (origins s !! o)]> (origins s)) (hub s)).
Proof.
  intros Ho. destruct (run_calls_ok order Ho calls store_default store_default_ok) as (s & outs & ms & Hr & Hs & _).
  exists s, outs. split_and!; [done | | intros; by apply set_steps].
  intros o a [[? ?] ?]%Hs. done.
Qed.

(** C40: Subscribers see every change once, in order and nothing else.  From
    any state reached by calls a new subscription is registered; after any
    further calls that keep it, what it was handed together with what it still
    holds carries its kind, replays the contents at its start into the
    contents now, and has no entry without effect. *)
Theorem subscribers_mirror_store order calls calls' s1 outs1 s2 outs2 kind : (∀ l, order l ≡ₚ l) →
  run_calls order store_default calls = Ret (s1, outs1) →
  let '(h, q) := subscribe_mutations (hub s1) kind in
  run_calls order (mk_store (origins s1) h) calls' = Ret (s2, outs2) → Forall (leaves q) calls' →
  ∃ l ms, upgrade (hub s2) q = Some l ∧ received q outs2 ++ l = mk_record kind <$> ms ∧
    effective (view (origins s1)) ms ∧ ∀ k, replay (view (origins s1)) ms k = view (origins s2) k.
Proof.
  intros Ho H1. destruct (subscribe_mutations (hub s1) kind) as [h q] eqn:Hsub. intros H2 Hl.
  destruct (run_calls_ok order Ho calls store_default store_default_ok) as (? & ? & _ & Hr & Hs & _).
  rewrite H1 in Hr. injection Hr as <- <-.
  destruct (run_calls_ok order Ho calls' (mk_store (origins s1) h) Hs) as (? & ? & ms & Hr2 & _ & Hv & He & Hq).
  rewrite H2 in Hr2. injection Hr2 as <- <-. simpl in *.
  assert (Hu : upgrade h q = Some []).
  { unfold subscribe_mutations, add_mutation_subscription in Hsub. simplify_eq. unfold upgrade. simpl.
    by rewrite lookup_app_r, Nat.sub_diag by lia. }
  assert (Ht : tracked h kind q).
  { split; [by rewrite Hu |]. unfold subscribe_mutations, add_mutation_subscription in Hsub. simplify_eq. simpl.
    rewrite filter_app, filter_cons_True by done. rewrite filter_none; [done |].
    intros s [_ Hs']%list_elem_of_filter Heq.
    assert (Hok : hub_ok (hub s1)) by (by eapply run_calls_hub_ok; [| exact H1]; apply Forall_nil).
    eapply Forall_forall in Hok; [| exact Hs']. simpl in *. lia. }
  destruct (Hq kind q [] Hl Ht Hu) as (l & Hl' & Hrec). exists l, ms. split_and!; [done | done | done |].
  intros k. by rewrite Hv.
Qed.

Lemma get_item_view s o k : try_get_item_utf16 s o k = view (origins s) o !! k.
Proof. unfold try_get_item_utf16, read, get_item_read, get_item_utf16, view. by destruct (origins s !! o). Qed.

(** The keys a page enumerates by index are the keys of the area, each once. *)
Lemma keys_enumerate s o :
  try_sorted_keys_utf16 s o ≡ₚ (map_to_list (view (origins s) o)).*1 ∧
  length (try_sorted_keys_utf16 s o) = try_len s o ∧ ∀ i, try_key_utf16 s o i = try_sorted_keys_utf16 s o !! i.
Proof.
  unfold try_sorted_keys_utf16, try_len, try_key_utf16, read, sorted_keys_read, len_read, key_read, key_utf16, view.
  destruct (origins s !! o) as [a|]; simpl.
  - unfold sorted_keys_utf16. rewrite merge_sort_Permutation. split_and!; [done | | done].
    by rewrite length_fmap, length_map_to_list.
  - by rewrite map_to_list_empty.
Qed.

(** What a page stores it reads back.  In any state reached by calls, a
    successful [set_item] makes [get_item] return the very string for that
    key, through UTF-16 and back, and leaves every other key of every area as
    it was. *)
Theorem items_read_back order calls s outs o key value s' : (∀ l, order l ≡ₚ l) →
  run_calls order store_default calls = Ret (s, outs) → Forall is_scalar key → Forall is_scalar value →
  set_item s o key value = Ret (true, s') →
  get_item s' o key = Some value ∧
  ∀ o' key', Forall is_scalar key' → (o', key') ≠ (o, key) → get_item s' o' key' = get_item s o' key'.
Proof.
  intros Ho Hr Hk Hv Hset. destruct (run_calls_ok order Ho calls store_default store_default_ok) as (? & ? & ? & Hr' & Hs & _).
  rewrite Hr in Hr'. injection Hr' as <- <-.
  destruct (set_steps s o (utf16_units key) (utf16_units value) Hs) as (r & s1 & Hc & _ & Hview & _).
  unfold set_item, unwrap_or_false, try_set_item, try_set_item_utf16 in Hset. rewrite Hc in Hset.
  cbn [mbind run_bind] in Hset. destruct r as [e|ch]; [done |]. injection Hset as <-.
  split.
  - unfold get_item. rewrite get_item_view, Hview, decide_True, lookup_insert_eq by done. simpl. by rewrite utf16_lossy.
  - intros o' key' Hk' Hne. unfold get_item. rewrite !get_item_view, Hview.
    destruct (decide (o' = o ∧ _)) as [[-> _]|_]; [| done]. rewrite lookup_insert_ne; [done |]. intros Heq%utf16_units_inj; [| done | done]. congruence.
Qed.

(** ** Examples *)
Module WebStorageExample.
Definition area : text := lit "storage-key:v1;origin=a;top-level-site=a".

Definition calls : list Call :=
  [CSet area [97] [49]; CSet area [98] [50; 51]; CRemove area [97]; CSubscribe Local; CSet area [98] []; CDrain 0].
Definition later : list Call := [CSet area [97] [55]; CDrain 1; CClearOriginAreas (lit "a"); CDropSubscription 0].
Definition returns {A} (r : run A) : bool := match r with Ret _ => true | Panic => false end.
Definition after (s : WebStorageStore) (calls : list Call) : WebStorageStore :=
  match run_calls id s calls with Ret (s, _) => s | Panic => s end.
Definition outs (s : WebStorageStore) (calls : list Call) :=
  match run_calls id s calls with Ret (_, o) => o | Panic => [] end.
Definition s1 : WebStorageStore := after store_default calls.
Definition s2 : WebStorageStore := mk_store (origins s1) (subscribe_mutations (hub s1) Session).1.
End WebStorageExample.
Import WebStorageExample.

Lemma over_quota_value m (k : units) : ∃ v : units, WEB_STORAGE_QUOTA_BYTES < total (<[k := v]> m).
Proof.
  assert (∃ v : units, length v = N.to_nat WEB_STORAGE_QUOTA_BYTES) as [v Hv]
    by (exists (replicate (N.to_nat WEB_STORAGE_QUOTA_BYTES) 0); apply length_replicate).
  exists (0 :: v). rewrite <-insert_delete_eq, total_insert by apply lookup_delete_eq.
  unfold item_bytes. cbn [fst snd length]. rewrite Nat2N.inj_add, Nat2N.inj_succ, Hv, N2Nat.id. lia.
Qed.

(** After the calls, a value that is too large is refused. *)
Lemma web_storage_accounted_witness :
  ∃ s outs, run_calls id store_default WebStorageExample.calls = Ret (s, outs) ∧
    ∃ v, try_set_change_utf16 s WebStorageExample.area [120] v =
      Ret (inl QuotaExceeded,
           mk_store (<[WebStorageExample.area := default area_default (origins s !! WebStorageExample.area)]> (origins s))
             (hub s)).
Proof.
  destruct (web_storage_accounted id WebStorageExample.calls) as (s & outs & H & _ & Hset); [by intros l |].
  exists s, outs. split; [exact H |].
  destruct (over_quota_value (view (origins s) WebStorageExample.area) [120]) as [v Hv]. exists v.
  destruct (Hset WebStorageExample.area [120] v) as (r & s' & -> & Hr & _ & Hs').
  apply Hr in Hv. rewrite (Hs' Hv), Hv. reflexivity.
Defined.

Lemma subscribers_mirror_store_witness :
  ∃ l ms, upgrade (hub (after WebStorageExample.s2 later)) 1 = Some l ∧
    received 1 (WebStorageExample.outs WebStorageExample.s2 later) ++ l = mk_record Session <$> ms.
Proof.
  assert (H1 : returns (run_calls id store_default WebStorageExample.calls) = true) by (vm_compute; reflexivity).
  assert (H2 : returns (run_calls id WebStorageExample.s2 later) = true) by (vm_compute; reflexivity).
  assert (Hq : (subscribe_mutations (hub WebStorageExample.s1) Session).2 = 1%nat) by (vm_compute; reflexivity).
  unfold after, WebStorageExample.outs. unfold WebStorageExample.s2, WebStorageExample.s1, after in *.
  destruct (run_calls id store_default WebStorageExample.calls) as [[s1 o1]|] eqn:E1; [| discriminate H1].
  pose proof (subscribers_mirror_store id WebStorageExample.calls later s1 o1) as H.
  destruct (subscribe_mutations (hub s1) Session) as [h q] eqn:Es. cbn [fst snd] in *. subst q.
  destruct (run_calls id (mk_store (origins s1) h) later) as [[s2 o2]|] eqn:E2; [| discriminate H2].
  specialize (H s2 o2 Session). rewrite Es in H.
  destruct H as (l & ms & Hl & Hr & _); [by intros | exact E1 | exact E2 | repeat (apply Forall_cons_2; [simpl; lia || exact I |]); apply Forall_nil_2 |].
  exists l, ms. split; [exact Hl | exact Hr].
Defined.

Lemma items_read_back_witness : ∃ s', get_item s' WebStorageExample.area [128512] = Some [233].
Proof.
  assert (H : match set_item store_default WebStorageExample.area [128512] [233] with Ret (b, _) => b | Panic => false end
              = true) by (vm_compute; reflexivity).
  destruct (set_item store_default WebStorageExample.area [128512] [233]) as [[[|] s']|] eqn:E;
    [| discriminate H | discriminate H].
  exists s'. apply (items_read_back id [] store_default [] WebStorageExample.area [128512] [233] s');
    [by intros | done | repeat constructor; unfold is_scalar; lia.. | exact E].
Defined.

(** A refused set leaves an empty area behind, which the next [try_clear]
    reports as a removal. *)
Example refused_set_leaves_area : ∃ s : WebStorageStore, store_ok (origins s) ∧ (∀ k, view (origins s) k = ∅) ∧
  (try_clear s WebStorageExample.area).1 = true ∧
  ∃ v, try_set_change_utf16 store_default WebStorageExample.area [] v = Ret (inl QuotaExceeded, s).
Proof.
  exists (mk_store {[WebStorageExample.area := area_default]} hub_new). split_and!.
  - intros o a; cbn [origins]; intros [<- <-]%lookup_singleton_Some. split; [apply area_default_accounted | done].
  - intros k. unfold view. cbn [origins]. destruct (decide (k = WebStorageExample.area)) as [->|Hne].
    + by rewrite lookup_singleton_eq.
    + by rewrite lookup_singleton_ne.
  - unfold try_clear. simpl. by rewrite lookup_singleton_eq.
  - assert (Hv : ∃ v : units, length v = N.to_nat WEB_STORAGE_QUOTA_BYTES)
      by (exists (replicate (N.to_nat WEB_STORAGE_QUOTA_BYTES) 0); apply length_replicate).
    destruct Hv as [v Hv]. exists v. unfold try_set_change_utf16, edit.
    rewrite set_change_exact by apply area_default_accounted. cbn [default values origins store_default area_default size].
    rewrite lookup_empty. cbn [default values area_default size].
    assert (Ht : WEB_STORAGE_QUOTA_BYTES < total (<[[] := v]> ∅)).
    { rewrite total_insert by done. unfold item_bytes. cbn [fst snd length Nat.add].
      rewrite Hv, N2Nat.id, total_empty. done. }
    rewrite decide_False by done. rewrite (proj2 (N.ltb_lt 0 _)) by (etrans; [| exact Ht]; done).
    rewrite (proj2 (N.ltb_lt _ _) Ht). done.
Qed.
