(* ===== verification/Writeback.v ===== *)
(** * Write-back of SQLite stores (moli-sqlite/src/writeback.rs)

    Clients merge accepted changes into one pending batch and never wait for
    the database; one worker per file answers queries and flushes in the order
    they were posted and commits the batch when its deadline passes.  The
    clients' calls and the worker's moves are steps over one state: the
    pending batch under its lock, the message queue, the lazily opened
    connection, the reply channels and the place the worker has reached.

    What the engine answers ([A]) and the clock are part of the steps.  The
    batch type is the class [WriteBatch], as in the source; [run_query], [open]
    and [close_connection] stand for the closures the owner of a store passes
    in.  Panics of those closures are not modelled.  A caller of the source
    posts and then waits; here posting and receiving are two steps, and the
    text of the error a caller gets when the worker is gone does not name the
    kind of request.  A second close waits for a lock in the source; here it
    may post a second message, as dropping the owner does. *)
From S2P Require Import Prelude Text.

#[local] Open Scope N_scope.

Notation WritebackError := text (only parsing).

Class WriteBatch (B Conn A : Type) := {
  batch_default : B;
  batch_is_empty : B → bool;
  batch_merge : B → B → B;
  batch_write : B → Conn → A → option WritebackError * Conn }.

Record WritebackPolicy := mk_policy { delay : N; early_commit_operations : option N }.

Section writeback.
Context {B Conn A Q R : Type} `{WB : !WriteBatch B Conn A}.
Context (run_query : Q → Conn → A → (WritebackError + R) * Conn).
Context (open : Conn → A → WritebackError + Conn) (close_connection : Conn → A → option WritebackError).
Context (policy : WritebackPolicy).

(** ** State *)
Record Pending := mk_pending {
  batch : B;
  operations : N;
  first_dirty : option N;
  failure : option WritebackError;
  closed : bool }.

(** Before it is opened, a connection is the file it will open. *)
Inductive LazyConnection := Unopened (file : Conn) | Open (c : Conn) | Failed (e : WritebackError).

Inductive Message := MQuery (q : Q) (reply : nat) | MFlush (reply : nat) | MClose.
Inductive Reply := RQuery (r : WritebackError + R) | RFlush (r : option WritebackError).

(** Why a batch is being committed. *)
Inductive Why := Timer | ForFlush (reply : nat) | ForClose.

(** The worker: at the head of its loop, in [select] with a deadline, after a
    query, while a batch that was taken is being written, or done. *)
Inductive Worker :=
  | Top
  | Select (deadline : option N)
  | QueryRan
  | Committing (b : B) (why : Why)
  | Stopped (r : option WritebackError).

Record Writeback := mk_writeback {
  pending : Pending;
  notified : bool;
  queue : list Message;
  connection : LazyConnection;
  worker : Worker;
  replies : gmap nat Reply;
  next_reply : nat;
  close_result : option (option WritebackError) }.

Definition deferred (file : Conn) : Writeback :=
  mk_writeback (mk_pending batch_default 0 None None false) false [] (Unopened file) Top ∅ 0 None.

Definition set_pending (s : Writeback) (p : Pending) : Writeback :=
  mk_writeback p (notified s) (queue s) (connection s) (worker s) (replies s) (next_reply s) (close_result s).
Definition set_worker (s : Writeback) (w : Worker) : Writeback :=
  mk_writeback (pending s) (notified s) (queue s) (connection s) w (replies s) (next_reply s) (close_result s).
Definition set_connection (s : Writeback) (c : LazyConnection) : Writeback :=
  mk_writeback (pending s) (notified s) (queue s) c (worker s) (replies s) (next_reply s) (close_result s).
Definition set_queue (s : Writeback) (q : list Message) : Writeback :=
  mk_writeback (pending s) (notified s) q (connection s) (worker s) (replies s) (next_reply s) (close_result s).
Definition set_notified (s : Writeback) (b : bool) : Writeback :=
  mk_writeback (pending s) b (queue s) (connection s) (worker s) (replies s) (next_reply s) (close_result s).
Definition send_reply (s : Writeback) (id : nat) (r : Reply) : Writeback :=
  mk_writeback (pending s) (notified s) (queue s) (connection s) (worker s) (<[id := r]> (replies s)) (next_reply s)
    (close_result s).
Definition set_failure (p : Pending) (f : option WritebackError) : Pending :=
  mk_pending (batch p) (operations p) (first_dirty p) f (closed p).
Definition set_closed (p : Pending) : Pending := mk_pending (batch p) (operations p) (first_dirty p) (failure p) true.

(** ** The lazy connection *)
Definition connection_get (c : LazyConnection) (a : A) : LazyConnection * (WritebackError + Conn) :=
  match c with
  | Unopened file => match open file a with inr c => (Open c, inr c) | inl e => (Failed e, inl e) end
  | Open c => (Open c, inr c)
  | Failed e => (Failed e, inl e)
  end.
Definition connection_failure (c : LazyConnection) : option WritebackError :=
  match c with Failed e => Some e | _ => None end.
Definition connection_close (c : LazyConnection) (a : A) : option WritebackError :=
  match c with Open c => close_connection c a | Unopened _ => None | Failed e => Some e end.

(** ** Clients *)
Definition ensure_open (s : Writeback) : option WritebackError :=
  if closed (pending s) then Some (lit "database is closed") else None.

(** [mutation] is what the closure of the source yields; it runs under the
    lock and only if the store is open. *)
Definition accept {T X} (from : WritebackError → X) (s : Writeback) (now : N) (mutation : X + T * B)
    : (X + T) * Writeback :=
  let p := pending s in
  if closed p then (inl (from (lit "database is closed")), s)
  else match mutation with
       | inl e => (inl e, s)
       | inr (result, b) =>
           if batch_is_empty b then (inr result, s)
           else (inr result,
                 set_notified (set_pending s (mk_pending (batch_merge (batch p) b) (saturating_add64 (operations p) 1)
                   (Some (default now (first_dirty p))) (failure p) (closed p))) true)
       end.

Definition record (s : Writeback) (now : N) (b : B) : option WritebackError * Writeback :=
  match accept (T := unit) id s now (inr ((), b)) with
  | (inl e, s) => (Some e, s)
  | (inr _, s) => (None, s)
  end.

Definition post (s : Writeback) (m : nat → Message) : nat * Writeback :=
  let id := next_reply s in
  (id, mk_writeback (pending s) (notified s) (queue s ++ [m id]) (connection s) (worker s) (replies s) (S id)
         (close_result s)).

(** Posting a query or a flush; the caller then waits for the reply.
    [current] says that the caller is the executor itself. *)
Definition query (s : Writeback) (current : bool) (q : Q) : (WritebackError + nat) * Writeback :=
  if current then (inl (lit "cannot synchronously query the SQL executor from itself"), s)
  else if closed (pending s) then (inl (lit "database is closed"), s)
  else let '(id, s) := post s (MQuery q) in (inr id, s).

Definition flush (s : Writeback) (current : bool) : (WritebackError + nat) * Writeback :=
  if current then (inl (lit "cannot synchronously flush the SQL executor from itself"), s)
  else if closed (pending s) then (inl (lit "database is closed"), s)
  else let '(id, s) := post s MFlush in (inr id, s).

(** The waiting end: [None] while there is nothing to receive. *)
Definition recv (s : Writeback) (id : nat) : option ((WritebackError + Reply) * Writeback) :=
  match replies s !! id with
  | Some r => Some (inr r, mk_writeback (pending s) (notified s) (queue s) (connection s) (worker s)
                             (delete id (replies s)) (next_reply s) (close_result s))
  | None => match worker s with
            | Stopped _ => Some (inl (lit "database stopped before its reply"), s)
            | _ => None
            end
  end.

(** Closing: the gate is shut and the worker told; the receipt is observed
    when the worker has stopped, and kept. *)
Definition close_request (s : Writeback) (current : bool) : option WritebackError * Writeback :=
  if current then (Some (lit "cannot close a database from its SQL executor"), s)
  else match close_result s with
       | Some _ => (None, s)
       | None => (None, set_queue (set_pending s (set_closed (pending s))) (queue s ++ [MClose]))
       end.
Definition close_receipt (s : Writeback) : option (option WritebackError * Writeback) :=
  match close_result s with
  | Some r => Some (r, s)
  | None => match worker s with
            | Stopped r => Some (r, mk_writeback (pending s) (notified s) (queue s) (connection s) (worker s) (replies s)
                                      (next_reply s) (Some r))
            | _ => None
            end
  end.

(** ** The worker *)
Definition worker_deadline (p : Pending) (now : N) : option N :=
  if match early_commit_operations policy with Some limit => limit <=? operations p | None => false end
  then Some now
  else (λ since, since + delay policy) <$> first_dirty p.

(** What follows a commit: the reply to a flush, or the end. *)
Definition finish (s : Writeback) (why : Why) (a : A) : Writeback :=
  match why with
  | Timer => set_worker s Top
  | ForFlush id => set_worker (send_reply s id (RFlush (failure (pending s)))) Top
  | ForClose =>
      let result := match failure (pending s) with
                    | Some e => Some e
                    | None => connection_close (connection s) a
                    end in
      let p := set_closed (pending s) in
      let p := match result with Some e => set_failure p (Some e) | None => p end in
      set_worker (set_pending s p) (Stopped result)
  end.

(** [commit] up to the blocking write: the batch is moved out. *)
Definition commit (s : Writeback) (why : Why) (a : A) : Writeback :=
  let p := pending s in
  if batch_is_empty (batch p) then finish s why a
  else set_worker (set_pending s (mk_pending batch_default 0 None (failure p) (closed p))) (Committing (batch p) why).

Definition run_job (s : Writeback) (q : Q) (id : nat) (ao a : A) : Writeback :=
  match connection_get (connection s) ao with
  | (_, inr c) => let '(r, c) := run_query q c a in
                  set_worker (set_connection (send_reply s id (RQuery r)) (Open c)) QueryRan
  | (lc, inl e) => set_worker (set_connection (send_reply s id (RQuery (inl e))) lc) QueryRan
  end.

(** The rest of [commit]: the write, its outcome, and what follows. *)
Definition written (s : Writeback) (b : B) (why : Why) (ao a ac : A) : Writeback :=
  match connection_get (connection s) ao with
  | (_, inr c) =>
      let '(e, c) := batch_write b c a in
      finish (set_connection (set_pending s (set_failure (pending s) e)) (Open c)) why ac
  | (lc, inl e) => finish (set_connection (set_pending s (set_failure (pending s) (Some e))) lc) why ac
  end.

(** The moves of the worker, with the time and what the engine answers when it
    opens the file, does the work, and closes. *)
Inductive Event :=
  | WTop (now : N)
  | WMessage (ao a : A)
  | WNotified
  | WTimer (now : N) (a : A)
  | WRecordFailure
  | WWritten (ao a ac : A).

Definition worker_step (s : Writeback) (ev : Event) : option Writeback :=
  match worker s with
  | Top => match ev with WTop now => Some (set_worker s (Select (worker_deadline (pending s) now))) | _ => None end
  | Select deadline =>
      match ev with
      | WMessage ao a =>
          match queue s with
          | [] => None
          | MQuery q id :: rest => Some (run_job (set_queue s rest) q id ao a)
          | MFlush id :: rest => Some (commit (set_queue s rest) (ForFlush id) a)
          | MClose :: rest => Some (commit (set_queue s rest) ForClose a)
          end
      | WNotified => if notified s then Some (set_worker (set_notified s false) Top) else None
      | WTimer now a =>
          match deadline with
          | Some deadline => if deadline <=? now then Some (commit s Timer a) else None
          | None => None
          end
      | _ => None
      end
  | QueryRan =>
      match ev with
      | WRecordFailure =>
          let s := match connection_failure (connection s) with
                   | Some e => set_pending s (set_failure (pending s) (Some e))
                   | None => s
                   end in
          Some (set_worker s Top)
      | _ => None
      end
  | Committing b why => match ev with WWritten ao a ac => Some (written s b why ao a ac) | _ => None end
  | Stopped _ => None
  end.

(** ** Histories: calls of clients and moves of the worker *)
Inductive Label :=
  | LRecord (now : N) (b : B)
  | LQuery (current : bool) (q : Q)
  | LFlush (current : bool)
  | LRecv (id : nat)
  | LClose (current : bool)
  | LReceipt
  | LWorker (ev : Event).

Definition step (s : Writeback) (l : Label) : option Writeback :=
  match l with
  | LRecord now b => Some (record s now b).2
  | LQuery current q => Some (query s current q).2
  | LFlush current => Some (flush s current).2
  | LRecv id => snd <$> recv s id
  | LClose current => Some (close_request s current).2
  | LReceipt => snd <$> close_receipt s
  | LWorker ev => worker_step s ev
  end.

Definition steps (s : Writeback) (ls : list Label) : option Writeback := foldl (λ o l, o ≫= λ s, step s l) (Some s) ls.

(** Requests posted and not yet answered: in the queue, or the flush whose
    batch is being written. *)
Definition message_id (m : Message) : option nat := match m with MQuery _ id | MFlush id => Some id | MClose => None end.
Definition working_on (w : Worker) : list nat := match w with Committing _ (ForFlush id) => [id] | _ => [] end.
Definition asked (s : Writeback) : list nat := working_on (worker s) ++ omap message_id (queue s).

(** An upper bound on the moves the worker makes by itself. *)
Definition worker_weight (w : Worker) : nat :=
  match w with Top => 1 | Select _ => 0 | QueryRan => 2 | Committing _ _ => 2 | Stopped _ => 0 end.
Definition measure (s : Writeback) : nat :=
  3 * length (queue s) + (if notified s then 2 else 0) + (if batch_is_empty (batch (pending s)) then 0 else 3)
  + worker_weight (worker s).
End writeback.

(** What batches promise about emptiness. *)
Class WriteBatchEmpty {B Conn A} (WB : WriteBatch B Conn A) : Prop := {
  default_is_empty : batch_is_empty (batch_default (B := B)) = true;
  merge_not_empty (b n : B) : batch_is_empty n = false → batch_is_empty (batch_merge b n) = false }.

Section progress.
Context {B Conn A Q R : Type} `{WB : !WriteBatch B Conn A} `{WE : !WriteBatchEmpty WB}.
Context (run_query : Q → Conn → A → (WritebackError + R) * Conn).
Context (open : Conn → A → WritebackError + Conn) (close_connection : Conn → A → option WritebackError).
Context (policy : WritebackPolicy).
(** A limit of zero operations would let the worker commit nothing forever. *)
Context (limit_positive : ∀ limit, early_commit_operations policy = Some limit → 0 < limit).

Notation State := (@Writeback B Conn Q R).
Notation step := (step run_query open close_connection policy).
Notation steps := (steps run_query open close_connection policy).
Notation worker_step := (worker_step run_query open close_connection policy).

Definition is_close (m : @Message Q) : bool := match m with MClose => true | _ => false end.

(** After a close only closes are queued. *)
Fixpoint closes_last (q : list (@Message Q)) : Prop :=
  match q with [] => True | m :: q => (is_close m = true → Forall (λ m, is_close m = true) q) ∧ closes_last q end.

Definition closing (w : @Worker B) : bool :=
  match w with Committing _ ForClose | Stopped _ => true | _ => false end.

Record wb_ok (s : State) : Prop := {
  ok_closes : closes_last (queue s);
  ok_closed : Exists (λ m, is_close m = true) (queue s) ∨ closing (worker s) = true → closed (pending s) = true;
  ok_closing : closing (worker s) = true → Forall (λ m, is_close m = true) (queue s);
  ok_ids : NoDup (asked s) ∧ Forall (λ id, id < next_reply s)%nat (asked s);
  ok_replies : ∀ id, is_Some (replies s !! id) → (id < next_reply s)%nat ∧ id ∉ asked s;
  ok_dirty : batch_is_empty (batch (pending s)) = true ↔ first_dirty (pending s) = None;
  ok_operations : batch_is_empty (batch (pending s)) = true → operations (pending s) = 0;
  ok_deadline : ∀ d, worker s = Select d → is_Some d → batch_is_empty (batch (pending s)) = false;
  ok_drained : closing (worker s) = true → batch_is_empty (batch (pending s)) = true;
  ok_wake : ∀ d, worker s = Select d → batch_is_empty (batch (pending s)) = false → notified s = true ∨ is_Some d }.

Lemma closes_last_snoc q m : closes_last q → Forall (λ m, is_close m = false) q ∨ is_close m = true → closes_last (q ++ [m]).
Proof.
  induction q as [|m' q IH]; simpl; intros Hq Hm; [done |]. destruct Hq as [Hc Hq]. split.
  - intros Hm'. destruct Hm as [Hf|Hm]; [by apply Forall_cons in Hf as [? _]; rewrite Hm' in * |].
    apply Forall_app. split; [by apply Hc | by apply Forall_singleton].
  - apply IH; [done |]. destruct Hm as [Hf|Hm]; [left; by apply Forall_cons in Hf as [_ ?] | by right].
Qed.

Lemma no_close_queued s : wb_ok s → closed (pending s) = false →
  Forall (λ m, is_close m = false) (queue s) ∧ closing (worker s) = false.
Proof.
  intros H Hc. split.
  - apply Forall_forall. intros m Hm. destruct (is_close m) eqn:E; [| done].
    rewrite (ok_closed s H) in Hc; [done |]. left. apply Exists_exists. eauto.
  - destruct (closing (worker s)) eqn:E; [| done]. by rewrite (ok_closed s H (or_intror E)) in Hc.
Qed.

Lemma deferred_ok file : wb_ok (deferred file : State).
Proof.
  split; simpl; try done; try (by rewrite ?default_is_empty); try (by intros d [=]).
  - intros [H|H]; [by inversion H | done].
  - split; constructor.
  - intros id [? ?]. by rewrite lookup_empty in *.
Qed.

Lemma record_ok s now b : wb_ok s → wb_ok (record s now b).2.
Proof.
  intros H. unfold record, accept. destruct (closed (pending s)) eqn:Hc; [done |].
  destruct (batch_is_empty b) eqn:Hb; [done |].
  destruct (no_close_queued s H Hc) as [Hq Hcl]. destruct H. pose proof (merge_not_empty (batch (pending s)) b Hb) as Hm.
  split; simpl; try done; rewrite ?Hm; try done; try (by rewrite Hcl); try (by left). rewrite <-Hc. done.
Qed.

Lemma post_ok s m : wb_ok s → closed (pending s) = false → (∀ id, message_id (m id) = Some id) →
  wb_ok (post s m).2.
Proof.
  intros H Hc Hm. destruct (no_close_queued s H Hc) as [Hq Hcl].
  assert (Hnc : is_close (m (next_reply s)) = false)
    by (specialize (Hm (next_reply s)); by destruct (m (next_reply s))).
  assert (Ha : asked (post s m).2 = asked s ++ [next_reply s]).
  { unfold asked. simpl. rewrite omap_app, <-app_assoc. simpl. by rewrite Hm. }
  simpl in Ha. destruct H. split; try done; simpl.
  - by apply closes_last_snoc; [| left].
  - rewrite Hc, Hcl. intros [Hex|?]; [| done]. apply Exists_exists in Hex as (x & [Hx|Hx]%elem_of_app & Hcx).
    + eapply Forall_forall in Hq; [| done]. congruence.
    + apply list_elem_of_singleton in Hx as ->. congruence.
  - by rewrite Hcl.
  - rewrite Ha. destruct ok_ids0 as [Hn Hf]. split.
    + apply NoDup_app. split_and!; [done | | apply NoDup_singleton].
      intros x Hx ->%list_elem_of_singleton. eapply Forall_forall in Hf; [| exact Hx]. simpl in Hf. lia.
    + apply Forall_app. split; [eapply Forall_impl; [done |]; simpl; lia | apply Forall_singleton; simpl; lia].
  - intros id Hid. destruct (ok_replies0 id Hid) as [Hlt Hni]. split; [lia |]. rewrite Ha, elem_of_app, list_elem_of_singleton.
    intros [? | ->]; [done | lia].
Qed.

Lemma query_ok s current q : wb_ok s → wb_ok (query s current q).2.
Proof.
  intros H. unfold query. destruct current; [done |]. destruct (closed (pending s)) eqn:Hc; [done |].
  by apply (post_ok s (MQuery q)).
Qed.

Lemma flush_ok s current : wb_ok s → wb_ok (flush s current).2.
Proof.
  intros H. unfold flush. destruct current; [done |]. destruct (closed (pending s)) eqn:Hc; [done |].
  by apply (post_ok s MFlush).
Qed.

Lemma recv_ok s id r s' : wb_ok s → recv s id = Some (r, s') → wb_ok s'.
Proof.
  intros H. unfold recv. destruct (replies s !! id) as [x|] eqn:E.
  - intros [= <- <-]. destruct H. split; try done. simpl. intros j Hj. apply ok_replies0.
    destruct (decide (j = id)) as [->|Hne]; [by rewrite E | by rewrite lookup_delete_ne in Hj].
  - destruct (worker s); try done. by intros [= <- <-].
Qed.

Lemma close_request_ok s current : wb_ok s → wb_ok (close_request s current).2.
Proof.
  intros H. unfold close_request. destruct current; [done |]. destruct (close_result s); [done |].
  assert (Ha : asked (set_queue (set_pending s (set_closed (pending s))) (queue s ++ [MClose])) = asked s).
  { unfold asked. simpl. rewrite omap_app. simpl. by rewrite app_nil_r. }
  destruct H. split; try done; simpl.
  - by apply closes_last_snoc; [| right].
  - intros Hcl. apply Forall_app. split; [by apply ok_closing0 | by apply Forall_singleton].
  - by rewrite Ha.
  - intros id Hid. rewrite Ha. by apply ok_replies0.
Qed.

Lemma close_receipt_ok s r s' : wb_ok s → close_receipt s = Some (r, s') → wb_ok s'.
Proof.
  intros H. unfold close_receipt. destruct (close_result s); [by intros [= <- <-] |].
  destruct (worker s) eqn:Ew; try done. intros [= <- <-]. rewrite <-Ew. by destruct H; split.
Qed.

(** Between taking a request and answering it. *)
Definition why_ids (why : Why) : list nat := match why with ForFlush id => [id] | _ => [] end.

Record mid_ok (s : State) (why : Why) : Prop := {
  mid_closes : closes_last (queue s);
  mid_closed : Exists (λ m, is_close m = true) (queue s) ∨ why = ForClose → closed (pending s) = true;
  mid_closing : why = ForClose → Forall (λ m, is_close m = true) (queue s);
  mid_ids : NoDup (why_ids why ++ omap message_id (queue s)) ∧
            Forall (λ id, id < next_reply s)%nat (why_ids why ++ omap message_id (queue s));
  mid_replies : ∀ id, is_Some (replies s !! id) →
                  (id < next_reply s)%nat ∧ id ∉ why_ids why ++ omap message_id (queue s);
  mid_dirty : batch_is_empty (batch (pending s)) = true ↔ first_dirty (pending s) = None;
  mid_operations : batch_is_empty (batch (pending s)) = true → operations (pending s) = 0 }.

Lemma wb_finish_ok s why a : mid_ok s why → (why = ForClose → batch_is_empty (batch (pending s)) = true) →
  wb_ok (finish close_connection s why a).
Proof.
  intros H He. destruct H. destruct why as [|id|]; simpl in *.
  - split; simpl; try done. intros [?|?]; [by apply mid_closed0; left | done].
  - destruct mid_ids0 as [Hn Hf]. apply NoDup_cons in Hn as [Hni Hn]. apply Forall_cons in Hf as [Hlt Hf].
    split; simpl; try done.
    + intros [?|?]; [by apply mid_closed0; left | done].
    + intros j Hj. destruct (decide (j = id)) as [->|Hne]; [done |].
      rewrite lookup_insert_ne in Hj by done. destruct (mid_replies0 j Hj) as [? Hnj]. split; [done |].
      unfold asked. simpl. intros ?. by apply Hnj; right.
  - set (p := match match failure (pending s) with Some e => Some e | None => _ end with Some _ => _ | None => _ end).
    assert (Hb : batch p = batch (pending s) ∧ first_dirty p = first_dirty (pending s) ∧
                 operations p = operations (pending s) ∧ closed p = true)
      by (unfold p; repeat case_match; done).
    destruct Hb as (Hb1 & Hb2 & Hb3 & Hb4). clearbody p.
    split; simpl; rewrite ?Hb1, ?Hb2, ?Hb3, ?Hb4; try done; try (by intros; apply He); by intros; apply mid_closing0.
Qed.

Lemma commit_ok s why a : mid_ok s why → wb_ok (commit close_connection s why a).
Proof.
  intros H. unfold commit. destruct (batch_is_empty (batch (pending s))) eqn:He; [by apply wb_finish_ok |].
  destruct H. split; simpl; rewrite ?default_is_empty; try done.
  - intros [?|Hw]; [by apply mid_closed0; left | apply mid_closed0; right; by destruct why].
  - intros Hw. apply mid_closing0. by destruct why.
Qed.

Lemma message_mid_ok s d m rest why : wb_ok s → worker s = Select d → queue s = m :: rest →
  omap message_id (queue s) = why_ids why ++ omap message_id rest → (why = ForClose → is_close m = true) →
  mid_ok (set_queue s rest) why.
Proof.
  intros H Hw Hq Hids Hwhy. destruct H. unfold asked in *. rewrite Hw, Hids in *. rewrite Hq in *. simpl in *.
  split; simpl; try done.
  - apply ok_closes0.
  - intros [?|?]; apply ok_closed0; left; [by right | left; by apply Hwhy].
  - intros ?. by apply ok_closes0, Hwhy.
Qed.

Lemma run_job_ok s d q id rest ao a : wb_ok s → worker s = Select d → queue s = MQuery q id :: rest →
  wb_ok (run_job run_query open (set_queue s rest) q id ao a).
Proof.
  intros H Hw Hq.
  assert (Hm : mid_ok (set_queue s rest) (ForFlush id)) by (by eapply message_mid_ok; rewrite ?Hq).
  destruct Hm. simpl in *. destruct mid_ids0 as [Hn Hf]. apply NoDup_cons in Hn as [Hni Hn]. apply Forall_cons in Hf as [Hlt Hf].
  assert (Hgo : ∀ r c, wb_ok (set_worker (set_connection (send_reply (set_queue s rest) id r) c) QueryRan)).
  { intros r c. split; simpl; try done.
    - intros [?|?]; [by apply mid_closed0; left | done].
    - intros j Hj. destruct (decide (j = id)) as [->|Hne]; [done |].
      rewrite lookup_insert_ne in Hj by done. destruct (mid_replies0 j Hj) as [? Hnj]. split; [done |].
      unfold asked. simpl. intros ?. by apply Hnj; right. }
  unfold run_job. destruct (connection_get _ _ _) as [lc [e|c]]; [apply Hgo |].
  destruct (run_query q c a) as [r c']. apply Hgo.
Qed.

Lemma worker_step_ok s ev s' : wb_ok s → worker_step s ev = Some s' → wb_ok s'.
Proof using WE limit_positive.
  intros H. unfold Writeback.worker_step. destruct (worker s) as [|d| |b why|r] eqn:Hw; destruct ev; try done.
  - intros [= <-]. destruct H. unfold asked in *. rewrite Hw in *. split; simpl in *; try done.
    + intros d [= <-] [x Hd]. destruct (batch_is_empty (batch (pending s))) eqn:He; [| done].
      unfold worker_deadline in Hd. rewrite (ok_operations0 eq_refl), (proj1 ok_dirty0 eq_refl) in Hd.
      destruct (early_commit_operations policy) as [limit|] eqn:El; [| done].
      specialize (limit_positive limit eq_refl). destruct (N.leb_spec limit 0); [lia | done].
    + intros d [= <-] He. right. unfold worker_deadline. case_match; [by eexists |].
      destruct (first_dirty (pending s)) eqn:Ef; [by eexists |]. by rewrite (proj2 ok_dirty0 eq_refl) in He.
  - destruct (queue s) as [|[q id|id|] rest] eqn:Hq; try done; intros [= <-].
    + by eapply run_job_ok.
    + eapply commit_ok, message_mid_ok; rewrite ?Hq; done.
    + eapply commit_ok, message_mid_ok; rewrite ?Hq; done.
  - destruct (notified s) eqn:Hn; [| done]. intros [= <-].
    destruct H. unfold asked in *. rewrite Hw in *. by split.
  - destruct d as [d|]; [| done]. destruct (d <=? now) eqn:Hd; [| done]. intros [= <-]. apply commit_ok.
    destruct H. unfold asked in *. rewrite Hw in *. split; simpl in *; try done. intros [?|?]; [by apply ok_closed0; left | done].
  - intros [= <-].
    assert (Hgo : ∀ p, batch p = batch (pending s) → first_dirty p = first_dirty (pending s) →
              operations p = operations (pending s) → closed p = closed (pending s) →
              wb_ok (set_worker (set_pending s p) Top)).
    { intros p Hb Hf Ho Hc. destruct H. unfold asked in *. rewrite Hw in *.
      by split; simpl in *; rewrite ?Hb, ?Hf, ?Ho, ?Hc. }
    destruct (connection_failure (connection s)); [by apply Hgo |]. specialize (Hgo (pending s)). by apply Hgo.
  - intros [= <-]. unfold written.
    assert (Hgo : ∀ e c, wb_ok (finish close_connection (set_connection (set_pending s (set_failure (pending s) e)) c) why ac)).
    { intros e c. destruct H. unfold asked in *. rewrite Hw in *. apply wb_finish_ok.
      - split; simpl in *; try done.
        + intros [? | ->]; [by apply ok_closed0; left | apply ok_closed0; by right].
        + intros ->. by apply ok_closing0.
      - intros ->. by apply ok_drained0. }
    destruct (connection_get _ _ _) as [lc [e|c]]; [apply Hgo |]. destruct (batch_write b c a) as [e c']. apply Hgo.
Qed.

Lemma wb_step_ok s l s' : wb_ok s → step s l = Some s' → wb_ok s'.
Proof using WE limit_positive.
  intros H. destruct l; simpl.
  - intros [= <-]. by apply record_ok.
  - intros [= <-]. by apply query_ok.
  - intros [= <-]. by apply flush_ok.
  - intros ([r s2] & E & ->)%fmap_Some. by eapply recv_ok.
  - intros [= <-]. by apply close_request_ok.
  - intros ([r s2] & E & ->)%fmap_Some. by eapply close_receipt_ok.
  - by apply worker_step_ok.
Qed.

Lemma steps_cons s l ls : steps s (l :: ls) = s1 ← step s l; steps s1 ls.
Proof.
  unfold Writeback.steps. simpl. destruct (step s l) as [s1|]; [done |]. simpl.
  induction ls as [|l' ls IH]; [done | exact IH].
Qed.

Lemma wb_steps_ok s ls s' : wb_ok s → steps s ls = Some s' → wb_ok s'.
Proof using WE limit_positive.
  revert s. induction ls as [|l ls IH]; intros s H; [by intros [= <-] |].
  rewrite steps_cons. intros (s1 & H1 & H2)%bind_Some. eapply IH; [| done]. by eapply wb_step_ok.
Qed.

Lemma commit_measure (s : State) why a :
  (measure (commit close_connection s why a) + (if batch_is_empty (batch (pending s)) then 1 else 2)
   ≤ measure (set_worker s (Select None)) + 2)%nat.
Proof using WE.
  unfold commit. destruct (batch_is_empty (batch (pending s))) eqn:He; unfold measure; simpl.
  - destruct why; simpl; rewrite ?He; try lia.
    assert (Hb : ∀ (x : option WritebackError), batch match x with
      | Some e => set_failure (set_closed (pending s)) (Some e) | None => set_closed (pending s) end = batch (pending s))
      by (by intros []).
    rewrite Hb, He. lia.
  - rewrite default_is_empty, He. lia.
Qed.

Lemma worker_measure s ev s' : wb_ok s → worker_step s ev = Some s' → (measure s' < measure s)%nat.
Proof using WE.
  intros H. unfold Writeback.worker_step. destruct (worker s) as [|d| |b why|r] eqn:Hw; destruct ev; try done.
  - intros [= <-]. unfold measure. rewrite Hw. simpl. lia.
  - destruct (queue s) as [|[q id|id|] rest] eqn:Hq; try done; intros [= <-].
    + assert (Hm : ∀ r c, (measure (set_worker (set_connection (send_reply (set_queue s rest) id r) c) QueryRan) < measure s)%nat).
      { intros r c. unfold measure. rewrite Hw, Hq. simpl. lia. }
      unfold run_job. destruct (connection_get _ _ _) as [lc [e|c]]; [apply Hm |]. destruct (run_query q c a). apply Hm.
    + pose proof (commit_measure (set_queue s rest) (ForFlush id) a) as Hm.
      unfold measure in *. rewrite Hw, Hq. simpl in *. destruct (batch_is_empty _); lia.
    + pose proof (commit_measure (set_queue s rest) ForClose a) as Hm.
      unfold measure in *. rewrite Hw, Hq. simpl in *. destruct (batch_is_empty _); lia.
  - destruct (notified s) eqn:Hn; [| done]. intros [= <-]. unfold measure. rewrite Hw, Hn. simpl. lia.
  - destruct d as [d|]; [| done]. destruct (d <=? now); [| done]. intros [= <-].
    pose proof (ok_deadline s H _ Hw (mk_is_Some _ _ eq_refl)) as He.
    unfold commit. rewrite He. unfold measure. rewrite Hw, He. simpl. rewrite default_is_empty. lia.
  - intros [= <-]. unfold measure. rewrite Hw. simpl. destruct (connection_failure _); simpl; lia.
  - intros [= <-]. unfold written.
    assert (Hm : ∀ e c, (measure (finish close_connection (set_connection (set_pending s (set_failure (pending s) e)) c) why ac)
                          < measure s)%nat).
    { intros e c. unfold measure. rewrite Hw. destruct why; simpl; try lia.
      assert (Hb : ∀ (x : option WritebackError), batch match x with
        | Some e' => set_failure (set_closed (set_failure (pending s) e)) (Some e')
        | None => set_closed (set_failure (pending s) e) end = batch (pending s)) by (by intros []).
      rewrite Hb. lia. }
    destruct (connection_get _ _ _) as [lc [e|c]]; [apply Hm |]. destruct (batch_write b c a) as [e c']. apply Hm.
Qed.

(** Nothing the worker could do by itself, at any time. *)
Definition at_rest (s : State) : Prop := ∀ ev, worker_step s ev = None.

Context `{IA : !Inhabited A}.

Lemma at_rest_done (s : State) : wb_ok s → at_rest s → asked s = [] ∧ batch_is_empty (batch (pending s)) = true.
Proof using IA.
  intros H Hr. unfold at_rest, Writeback.worker_step in Hr. destruct (worker s) as [|d| |b why|r] eqn:Hw.
  - by specialize (Hr (WTop 0)).
  - pose proof (Hr (WMessage inhabitant inhabitant)) as Hm. pose proof (Hr WNotified) as Hn. simpl in Hm, Hn.
    destruct (queue s) as [|[] ?] eqn:Hq; try done. split; [unfold asked; by rewrite Hw, Hq |].
    destruct (batch_is_empty (batch (pending s))) eqn:He; [done |].
    destruct (ok_wake s H d Hw He) as [Hnot|[x ->]]; [by rewrite Hnot in Hn |].
    specialize (Hr (WTimer x inhabitant)). simpl in Hr. by rewrite N.leb_refl in Hr.
  - by specialize (Hr WRecordFailure).
  - by specialize (Hr (WWritten inhabitant inhabitant inhabitant)).
  - split; [| by apply (ok_drained s H); rewrite Hw].
    pose proof (ok_closing s H) as Hc. rewrite Hw in Hc. specialize (Hc eq_refl). unfold asked. rewrite Hw. simpl.
    induction Hc as [|m q Hm _ IH]; [done |]. by destruct m.
Qed.

(** A request stays asked until it is answered, and an answer stays until it
    is received. *)
Definition known (s : State) (id : nat) : Prop := id ∈ asked s ∨ is_Some (replies s !! id).

Lemma known_commit (s : State) why a id :
  (id ∈ why_ids why ++ omap message_id (queue s) ∨ is_Some (replies s !! id)) → known (commit close_connection s why a) id.
Proof.
  unfold commit. destruct (batch_is_empty _); [| intros [Hi|Hi]; [left; by destruct why | by right]].
  destruct why as [|id'|]; simpl; intros [Hi|Hi]; [by left | by right | | | by left | by right].
  - apply elem_of_cons in Hi as [->|Hi]; [right; simpl; rewrite lookup_insert_eq; eauto | by left].
  - right. simpl. destruct (decide (id = id')) as [->|Hne]; [rewrite lookup_insert_eq; eauto | by rewrite lookup_insert_ne].
Qed.

Lemma known_reply (s : State) id' r id : (id ∈ id' :: omap message_id (queue s) ∨ is_Some (replies s !! id)) →
  id ∈ omap message_id (queue s) ∨ is_Some (<[id' := r]> (replies s) !! id).
Proof.
  intros [[->|Hi]%elem_of_cons|Hi]; [right; rewrite lookup_insert_eq; eauto | by left |].
  right. destruct (decide (id = id')) as [->|Hne]; [rewrite lookup_insert_eq; eauto | by rewrite lookup_insert_ne].
Qed.

Lemma known_worker s ev s' id : known s id → worker_step s ev = Some s' → known s' id.
Proof.
  unfold Writeback.worker_step. intros Hk. unfold known, asked in Hk.
  destruct (worker s) as [|d| |b why|r] eqn:Hw; destruct ev; try done; simpl in Hk.
  - by intros [= <-].
  - destruct (queue s) as [|[q i|i|] rest] eqn:Hq; try done; intros [= <-]; simpl in Hk.
    + unfold run_job. destruct (connection_get _ _ _) as [lc [e|c]].
      * by apply (known_reply (set_queue s rest) i).
      * destruct (run_query q c a). by apply (known_reply (set_queue s rest) i).
    + by apply known_commit.
    + by apply known_commit.
  - destruct (notified s); [| done]. by intros [= <-].
  - destruct d as [d|]; [| done]. destruct (d <=? now); [| done]. intros [= <-]. by apply known_commit.
  - intros [= <-]. by destruct (connection_failure _).
  - intros [= <-]. unfold written.
    assert (Hgo : ∀ e c, known (finish close_connection (set_connection (set_pending s (set_failure (pending s) e)) c) why ac) id).
    { intros e c. destruct why as [|i|]; [done | | done]. simpl in Hk. by apply (known_reply s i). }
    destruct (connection_get _ _ _) as [lc [e|c]]; [apply Hgo |]. destruct (batch_write b c a) as [e c']. apply Hgo.
Qed.

Lemma known_step s l s' id : known s id → step s l = Some s' → l ≠ LRecv id → known s' id.
Proof.
  intros Hk Hs Hl. destruct l as [now b|current q|current|i|current| |ev]; simpl in Hs.
  - injection Hs as <-. unfold record, accept. destruct (closed (pending s)); [done |]. by destruct (batch_is_empty b).
  - injection Hs as <-. unfold query. destruct current; [done |]; destruct (closed (pending s)); [done |]. destruct Hk as [Hk|Hk]; [left | by right].
    unfold asked in *. simpl. rewrite omap_app. set_solver.
  - injection Hs as <-. unfold flush. destruct current; [done |]; destruct (closed (pending s)); [done |]. destruct Hk as [Hk|Hk]; [left | by right].
    unfold asked in *. simpl. rewrite omap_app. set_solver.
  - apply fmap_Some in Hs as ([r s2] & Hr & ->). unfold recv in Hr. destruct (replies s !! i) eqn:E.
    + injection Hr as <- <-. destruct Hk as [Hk|Hk]; [by left | right]. simpl. rewrite lookup_delete_ne; [done | congruence].
    + destruct (worker s); try done. by injection Hr as <- <-.
  - injection Hs as <-. unfold close_request. destruct current; [done |]. destruct (close_result s); [done |].
    destruct Hk as [Hk|Hk]; [left | by right]. unfold asked in *. simpl. rewrite omap_app. set_solver.
  - apply fmap_Some in Hs as ([r s2] & Hr & ->). unfold close_receipt in Hr. destruct (close_result s); [by simplify_eq |].
    destruct (worker s) eqn:Hw; try done. injection Hr as <- <-. unfold known, asked in *. by rewrite Hw in Hk.
  - by eapply known_worker.
Qed.

Lemma known_steps ls s s' id : known s id → steps s ls = Some s' → LRecv id ∉ ls → known s' id.
Proof.
  revert s. induction ls as [|l ls IH]; intros s Hk; [by intros [= <-] |].
  rewrite steps_cons, not_elem_of_cons. intros (s1 & H1 & H2)%bind_Some [Hl Hls].
  eapply IH; [| done | done]. eapply known_step; [done.. | congruence].
Qed.

(** C37: Every request is answered and every change is written.  In every
    state reached by calls and moves of the worker: the worker can make only
    boundedly many further moves by itself; a state in which it can make none,
    however long one waits, has no pending batch and no unanswered request;
    and a request that is outstanding now has its answer waiting in every
    later state in which the worker is at rest, unless it was received.  In
    particular no wake-up is lost and no caller waits for a worker that
    stopped. *)
Theorem requests_answered file ls (s : State) :
  steps (deferred file) ls = Some s →
  (∀ ev s', worker_step s ev = Some s' → measure s' < measure s)%nat ∧
  (at_rest s → batch_is_empty (batch (pending s)) = true ∧ asked s = []) ∧
  (∀ ls' s' id, id ∈ asked s → steps s ls' = Some s' → LRecv id ∉ ls' → at_rest s' → is_Some (replies s' !! id)).
Proof using WE limit_positive IA.
  intros Hs. pose proof (wb_steps_ok _ _ _ (deferred_ok file) Hs) as Hok. split_and!.
  - intros ev s'. by apply worker_measure.
  - intros Hr. by destruct (at_rest_done s Hok Hr).
  - intros ls' s' id Hid Hs' Hl Hr. pose proof (wb_steps_ok _ _ _ Hok Hs') as Hok'.
    destruct (known_steps ls' s s' id (or_introl Hid) Hs' Hl) as [Hi|Hi]; [| done].
    destruct (at_rest_done s' Hok' Hr) as [Ha _]. rewrite Ha in Hi. by apply elem_of_nil in Hi.
Qed.
End progress.

(** ** What is on disk *)
(** A batch as a change of what the database holds, and the promises of the
    closures: with an engine that does not fail ([fine]) a write has exactly
    that effect, queries change nothing and opening keeps the contents. *)
Class DurableBatch {B Conn A Q R : Type} (V : Type) (WB : WriteBatch B Conn A)
    (run_query : Q → Conn → A → (WritebackError + R) * Conn) (open : Conn → A → WritebackError + Conn) := {
  conn_view : Conn → V;
  batch_apply : B → V → V;
  file_ok : Conn → Prop;
  conn_ok : Conn → Prop;
  batch_ok : B → Prop;
  fine : A → Prop;
  default_ok : batch_ok batch_default;
  merge_ok b n : batch_ok b → batch_ok n → batch_ok (batch_merge b n);
  apply_empty b v : batch_is_empty b = true → batch_apply b v = v;
  apply_merge b n v : batch_apply (batch_merge b n) v = batch_apply n (batch_apply b v);
  write_fine b c a : conn_ok c → batch_ok b → fine a →
    ∃ c', batch_write b c a = (None, c') ∧ conn_ok c' ∧ conn_view c' = batch_apply b (conn_view c);
  query_keeps q c a r c' : conn_ok c → run_query q c a = (r, c') → conn_ok c' ∧ conn_view c' = conn_view c;
  open_fine c a : file_ok c → fine a → ∃ c', open c a = inr c' ∧ conn_ok c' ∧ conn_view c' = conn_view c }.

Section durability.
Context {B Conn A Q R V : Type} `{WB : !WriteBatch B Conn A} `{WE : !WriteBatchEmpty WB}.
Context (run_query : Q → Conn → A → (WritebackError + R) * Conn).
Context (open : Conn → A → WritebackError + Conn) (close_connection : Conn → A → option WritebackError).
Context (policy : WritebackPolicy).
Context (limit_positive : ∀ limit, early_commit_operations policy = Some limit → 0 < limit).
Context `{DB : !DurableBatch V WB run_query open}.

Notation State := (@Writeback B Conn Q R).
Notation step := (step run_query open close_connection policy).
Notation worker_step := (worker_step run_query open close_connection policy).

Definition disk (c : @LazyConnection Conn) : option Conn :=
  match c with Unopened c | Open c => Some c | Failed _ => None end.

Definition connection_ok (c : @LazyConnection Conn) : Prop :=
  match c with Unopened f => file_ok f | Open c => conn_ok c | Failed _ => False end.

Definition inflight (w : @Worker B) : B := match w with Committing b _ => b | _ => batch_default end.

(** What a reader should see: the disk, the batch being written and the batch
    that waits. *)
Definition content (s : State) : option V :=
  c ← disk (connection s); Some (batch_apply (batch (pending s)) (batch_apply (inflight (worker s)) (conn_view c))).

(** Steps with an engine that does not fail. *)
Definition event_ok (ev : @Event A) : Prop :=
  match ev with WMessage ao _ => fine ao | WWritten ao a _ => fine ao ∧ fine a | _ => True end.
Definition label_ok (l : @Label B A Q) : Prop :=
  match l with LRecord _ b => batch_ok b | LWorker ev => event_ok ev | _ => True end.

(** Histories, the newest state first. *)
Inductive history (file : Conn) : list State → Prop :=
  | history_start : history file [deferred file]
  | history_step s tr l s' : history file (s :: tr) → label_ok l → step s l = Some s' → history file (s' :: s :: tr).

(** [tr] splits at a state with content [v]; [newer] is what came after it. *)
Definition held (tr newer : list State) (v : V) : Prop :=
  ∃ s0 older, tr = newer ++ s0 :: older ∧ content s0 = Some v.

Definition after_request (id : nat) (newer : list State) : Prop := Forall (λ s, id < next_reply s)%nat newer.

Record dur_ok (s : State) (tr : list State) (c : Conn) (newer : list State) : Prop := {
  dur_disk : disk (connection s) = Some c;
  dur_conn : connection_ok (connection s);
  dur_batch : batch_ok (batch (pending s));
  dur_failure : failure (pending s) = None ∨ ∃ r, worker s = Stopped r;
  dur_held : held (s :: tr) newer (conn_view c);
  dur_flushes : ∀ id r, replies s !! id = Some (RFlush r) → r = None ∧ after_request id newer;
  dur_inflight : match worker s with
                 | Committing b why =>
                     batch_ok b ∧ ∃ newer1, newer1 `prefix_of` newer ∧ held (s :: tr) newer1 (batch_apply b (conn_view c)) ∧
                       match why with ForFlush id => after_request id newer1 | _ => True end
                 | _ => True
                 end }.

Lemma held_cons s tr newer v : held tr newer v → held (s :: tr) (s :: newer) v.
Proof. intros (s0 & older & -> & H). by exists s0, older. Qed.

Lemma held_now s tr v : content s = Some v → held (s :: tr) [] v.
Proof. intros H. by exists s, tr. Qed.

Lemma dur_frame s tr c newer s' c' : dur_ok s tr c newer → wb_ok s' → disk (connection s') = Some c' →
  connection_ok (connection s') → conn_view c' = conn_view c →
  batch_ok (batch (pending s')) → (failure (pending s') = None ∨ ∃ r, worker s' = Stopped r) →
  (∀ id r, replies s' !! id = Some (RFlush r) → replies s !! id = Some (RFlush r)) →
  match worker s' with Committing _ _ => worker s' = worker s | _ => True end →
  dur_ok s' (s :: tr) c' (s' :: newer).
Proof.
  intros H Hok Hd Hc' Hv Hb Hf Hr Hw. destruct H. split; try done; rewrite ?Hv.
  - by apply held_cons.
  - intros id r Hi. destruct (dur_flushes0 id r (Hr _ _ Hi)) as [? ?]. split; [done |]. apply Forall_cons. split; [| done].
    apply (ok_replies s' Hok). by rewrite Hi.
  - destruct (worker s') as [| | |b why|] eqn:Ew; try done. rewrite <-Hw in dur_inflight0.
    destruct dur_inflight0 as (? & newer1 & Hp & Hh & Ha). split; [done |]. exists (s' :: newer1).
    split_and!; [by apply prefix_cons | by apply held_cons |]. destruct why as [|id|]; try done.
    apply Forall_cons. split; [| done]. destruct (ok_ids s' Hok) as [_ Hids]. unfold asked in Hids. rewrite Ew in Hids.
    by apply Forall_cons in Hids as [? _].
Qed.

Lemma content_settled (s : State) c : disk (connection s) = Some c → batch_is_empty (batch (pending s)) = true →
  inflight (worker s) = batch_default → content s = Some (conn_view c).
Proof using WE.
  intros Hd Hb Hi. unfold content. rewrite Hd, Hi. simpl. rewrite !apply_empty; [done | apply default_is_empty | done].
Qed.

Lemma commit_dur s tr c newer s1 why a : dur_ok s tr c newer → (∀ b w, worker s ≠ Committing b w) → (∀ r, worker s ≠ Stopped r) →
  pending s1 = pending s → connection s1 = connection s → replies s1 = replies s →
  wb_ok (commit close_connection s1 why a) → ∃ newer', dur_ok (commit close_connection s1 why a) (s :: tr) c newer'.
Proof using WE.
  intros H Hnc Hns Hp Hc Hr Hok.
  assert (Hf : failure (pending s) = None) by (destruct (dur_failure _ _ _ _ H) as [?|[r Hs]]; [done | by apply Hns in Hs]).
  unfold commit in *. destruct (batch_is_empty (batch (pending s1))) eqn:He.
  - destruct why as [|id|]; simpl in *.
    + eexists. eapply dur_frame; [done | done | ..]; simpl; rewrite ?Hp, ?Hc, ?Hr; try done; try apply H; by left.
    + exists []. destruct H. split; simpl; rewrite ?Hp, ?Hc, ?Hr; try done; [by left | |].
      * apply held_now, content_settled; simpl; rewrite <-?Hp, ?Hc; done.
      * intros i r. rewrite Hf. destruct (decide (i = id)) as [->|Hne]; [rewrite lookup_insert_eq | rewrite lookup_insert_ne by done].
        -- intros [= <-]. split; [done |]. constructor.
        -- intros Hi. destruct (dur_flushes0 i r Hi) as [? _]. split; [done |]. constructor.
    + eexists. eapply dur_frame; [done | done | ..]; simpl; rewrite ?Hp, ?Hc, ?Hr; try done; try apply H; [| by eauto].
      repeat case_match; apply H.
  - eexists (_ :: newer). destruct H. split; simpl; rewrite ?Hp, ?Hc, ?Hr; try done.
    + apply default_ok.
    + by left.
    + by apply held_cons.
    + intros i r Hi. destruct (dur_flushes0 i r Hi) as [? ?]. split; [done |]. apply Forall_cons. split; [| done].
      apply (ok_replies _ Hok). simpl. rewrite Hr, Hi. eauto.
    + rewrite <-Hp. split; [by rewrite Hp |]. exists []. split_and!; [apply prefix_nil | | by destruct why; [| constructor |]].
      apply held_now. unfold content. simpl. rewrite Hc, dur_disk0. simpl. rewrite Hp, apply_empty; [done | apply default_is_empty].
Qed.

Lemma connection_get_fine lc ao c : disk lc = Some c → connection_ok lc → fine ao →
  ∃ c', connection_get open lc ao = (Open c', inr c') ∧ conn_ok c' ∧ conn_view c' = conn_view c.
Proof.
  intros Hd Hc Hf. destruct lc as [f|c0|e]; simpl in *; simplify_eq; [| by eauto].
  destruct (open_fine c ao Hc Hf) as (c' & -> & ? & ?). eauto.
Qed.


Lemma finish_dur s tr c c' newer newer1 s1 b why a : dur_ok s tr c newer → worker s = Committing b why →
  newer1 `prefix_of` newer → held (s :: tr) newer1 (conn_view c') →
  match why with ForFlush id => after_request id newer1 | _ => True end →
  disk (connection s1) = Some c' → connection_ok (connection s1) → batch_ok (batch (pending s1)) → failure (pending s1) = None →
  replies s1 = replies s → next_reply s1 = next_reply s →
  wb_ok (finish close_connection s1 why a) → dur_ok (finish close_connection s1 why a) (s :: tr) c' (finish close_connection s1 why a :: newer1).
Proof.
  intros H Hw Hpre Hh Haf Hd Hc Hb Hf Hr Hn Hok.
  assert (Hold : ∀ i r, replies s !! i = Some (RFlush r) → r = None ∧ after_request i newer1).
  { intros i r Hi. destruct (dur_flushes _ _ _ _ H i r Hi) as [? Hx]. split; [done |].
    destruct Hpre as [k ->]. by apply Forall_app in Hx as [? _]. }
  assert (Hnew : ∀ i r, replies (finish close_connection s1 why a) !! i = Some (RFlush r) →
    (r = None ∧ after_request i newer1) → r = None ∧ after_request i (finish close_connection s1 why a :: newer1)).
  { intros i r Hi [? ?]. split; [done |]. apply Forall_cons. split; [| done]. apply (ok_replies _ Hok). by rewrite Hi. }
  split.
  - by destruct why.
  - by destruct why.
  - destruct why; [done | done |]. simpl. by repeat case_match.
  - destruct why; simpl; [by left | by left | by right; eauto].
  - by apply held_cons.
  - intros i r Hi. apply Hnew; [done |]. destruct why as [|id|]; simpl in Hi; rewrite Hr in Hi; [by apply Hold | | by apply Hold].
    destruct (decide (i = id)) as [->|Hne].
    + rewrite lookup_insert_eq in Hi. injection Hi as <-. done.
    + rewrite lookup_insert_ne in Hi by done. by apply Hold.
  - by destruct why.
Qed.

Lemma worker_dur s tr c newer ev s' : wb_ok s → dur_ok s tr c newer → event_ok ev → worker_step s ev = Some s' →
  ∃ c' newer', dur_ok s' (s :: tr) c' newer'.
Proof using WE limit_positive.
  intros Hok H Hev Hs.
  assert (Hok' : wb_ok s') by (by eapply (worker_step_ok run_query open close_connection policy)).
  unfold Writeback.worker_step in Hs. destruct (worker s) as [|d| |b why|r] eqn:Hw; destruct ev; try done.
  - injection Hs as <-. eexists _, _. eapply dur_frame; [done | done | ..]; simpl; try done; apply H || (left; destruct H as [? ? ? [?|[? ?]]]; congruence).
  - destruct (queue s) as [|[q id|id|] rest] eqn:Hq; try done; injection Hs as <-.
    + unfold run_job in *. destruct (connection_get_fine (connection s) ao c) as (c' & Hg & Hc' & Hv); [apply H | apply H | done |].
      simpl in *. rewrite Hg in *. destruct (run_query q c' a) as [r c2] eqn:Er.
      destruct (query_keeps q c' a r c2 Hc' Er) as [Hc2 Hv2].
      eexists c2, _. eapply dur_frame; [done | done | ..]; simpl; try done; [congruence | apply H | |].
      * left. destruct H as [? ? ? [?|[? ?]]]; congruence.
      * intros i x. destruct (decide (i = id)) as [->|Hne]; [by rewrite lookup_insert_eq | by rewrite lookup_insert_ne].
    + exists c. eapply commit_dur; try done; by rewrite Hw.
    + exists c. eapply commit_dur; try done; by rewrite Hw.
  - destruct (notified s); [| done]. injection Hs as <-. eexists _, _.
    eapply dur_frame; [done | done | ..]; simpl; try done; apply H || (left; destruct H as [? ? ? [?|[? ?]]]; congruence).
  - destruct d as [d|]; [| done]. destruct (d <=? now); [| done]. injection Hs as <-.
    exists c. eapply commit_dur; try done; by rewrite Hw.
  - injection Hs as <-. assert (Hcf : connection_failure (connection s) = None).
    { pose proof (dur_disk _ _ _ _ H) as Hd. by destruct (connection s). }
    rewrite Hcf in *. eexists _, _.
    eapply dur_frame; [done | done | ..]; simpl; try done; apply H || (left; destruct H as [? ? ? [?|[? ?]]]; congruence).
  - injection Hs as <-. pose proof (dur_inflight _ _ _ _ H) as Hi. rewrite Hw in Hi.
    destruct Hi as (Hb & newer1 & Hp & Hh & Ha). unfold written in *. destruct Hev as [Hfo Hfa].
    destruct (connection_get_fine (connection s) ao c) as (c1 & Hg & Hc1 & Hv1); [apply H | apply H | done |].
    rewrite Hg in *. destruct (write_fine b c1 a Hc1 Hb Hfa) as (c2 & Hwr & Hc2 & Hv2). rewrite Hwr in *.
    eexists c2, _. eapply finish_dur; try done; [by rewrite Hv2, Hv1 | apply H].
Qed.

Lemma step_dur s tr c newer l s' : wb_ok s → dur_ok s tr c newer → label_ok l → step s l = Some s' →
  ∃ c' newer', dur_ok s' (s :: tr) c' newer'.
Proof using WE limit_positive.
  intros Hok H Hl Hs.
  assert (Hok' : wb_ok s') by (by eapply (wb_step_ok run_query open close_connection policy)).
  assert (Hwk : ∀ w : @Worker B, match w with Committing _ _ => w = w | _ => True end) by (by intros []).
  destruct l as [now b|current q|current|i|current| |ev]; simpl in Hs; [..| by eapply worker_dur].
  - injection Hs as <-. unfold record, accept in *. destruct (closed (pending s)); [| destruct (batch_is_empty b)];
      (eexists _, _; eapply dur_frame; [done | done | ..]; simpl; try done; try apply H; try apply Hwk).
    apply merge_ok; [apply H | done].
  - injection Hs as <-. unfold query in *. destruct current; [| destruct (closed (pending s))];
      (eexists _, _; eapply dur_frame; [done | done | ..]; simpl; try done; try apply H; try apply Hwk).
  - injection Hs as <-. unfold flush in *. destruct current; [| destruct (closed (pending s))];
      (eexists _, _; eapply dur_frame; [done | done | ..]; simpl; try done; try apply H; try apply Hwk).
  - apply fmap_Some in Hs as ([r s2] & Hr & ->). unfold recv in Hr. destruct (replies s !! i) eqn:E.
    + injection Hr as <- <-. eexists _, _; eapply dur_frame; [done | done | ..]; simpl; try done; try apply H; try apply Hwk.
      intros j x [_ ?]%lookup_delete_Some. done.
    + destruct (worker s) eqn:Ew; try done. injection Hr as <- <-.
      eexists _, _; eapply dur_frame; [done | done | ..]; simpl; try done; try apply H. by rewrite Ew.
  - injection Hs as <-. unfold close_request in *. destruct current; [| destruct (close_result s)];
      (eexists _, _; eapply dur_frame; [done | done | ..]; simpl; try done; try apply H; try apply Hwk).
  - apply fmap_Some in Hs as ([r s2] & Hr & ->). unfold close_receipt in Hr. destruct (close_result s).
    + injection Hr as <- <-. eexists _, _; eapply dur_frame; [done | done | ..]; simpl; try done; try apply H; try apply Hwk.
    + destruct (worker s) eqn:Ew; try done. injection Hr as <- <-. rewrite <-Ew in *.
      eexists _, _; eapply dur_frame; [done | done | ..]; simpl; try done; try apply H; try apply Hwk.
Qed.

Lemma history_dur file tr : file_ok file → history file tr →
  ∃ s rest c newer, tr = s :: rest ∧ wb_ok s ∧ dur_ok s rest c newer.
Proof using WE limit_positive.
  intros Hf. induction 1 as [|s tr l s' _ IH Hl Hs].
  - exists (deferred file), [], file, []. split_and!; [done | apply deferred_ok |].
    split; simpl; try done; [apply default_ok | by left |].
    apply held_now, content_settled; [done | apply default_is_empty | done].
  - destruct IH as (s0 & rest & c & newer & [= <- <-] & Hok & Hd).
    destruct (step_dur s tr c newer l s' Hok Hd Hl Hs) as (c' & newer' & Hd').
    exists s', (s :: tr), c', newer'. split_and!; [done | | done]. by eapply (wb_step_ok run_query open close_connection policy).
Qed.

(** *** For the owners of stores: what a step does to the contents *)
Definition sound (s : State) : Prop := ∃ c, disk (connection s) = Some c ∧ connection_ok (connection s) ∧
  batch_ok (batch (pending s)) ∧ batch_ok (inflight (worker s)).

Lemma content_eq (s : State) c : disk (connection s) = Some c →
  content s = Some (batch_apply (batch (pending s)) (batch_apply (inflight (worker s)) (conn_view c))).
Proof. intros H. unfold content. by rewrite H. Qed.

Lemma record_sound s now b : sound s → batch_ok b → closed (pending s) = false →
  sound (record s now b).2 ∧ content (record s now b).2 = batch_apply b <$> content s.
Proof.
  intros (c & Hd & Hc & Hb & Hi) Hok Hcl. unfold record, accept. rewrite Hcl. destruct (batch_is_empty b) eqn:He; simpl.
  - split; [by exists c |]. rewrite (content_eq s c Hd). simpl. by rewrite (apply_empty b).
  - split; [exists c; split_and!; try done; by apply merge_ok |].
    rewrite (content_eq s c Hd), (content_eq _ c) by done. simpl. by rewrite apply_merge.
Qed.

(** Batches only move on: waiting, being written, gone. *)
Definition batches_move (s s' : State) : Prop :=
  (batch (pending s') = batch (pending s) ∧
     (inflight (worker s') = inflight (worker s) ∨ inflight (worker s') = batch_default)) ∨
  (inflight (worker s) = batch_default ∧ batch (pending s') = batch_default ∧ inflight (worker s') = batch (pending s)).

Lemma finish_moves (s : State) why a : batch (pending (finish close_connection s why a)) = batch (pending s) ∧
  inflight (worker (finish close_connection s why a)) = batch_default ∧
  connection (finish close_connection s why a) = connection s.
Proof. destruct why; simpl; [done | done |]. by repeat case_match. Qed.

Lemma commit_moves (s s0 : State) why a : pending s = pending s0 → inflight (worker s0) = batch_default →
  batches_move s0 (commit close_connection s why a) ∧ connection (commit close_connection s why a) = connection s.
Proof.
  intros Hp Hi. unfold commit. destruct (batch_is_empty (batch (pending s))).
  - destruct (finish_moves s why a) as (Hb & Hf & Hc). split; [| done]. left. rewrite Hb, Hf, Hp. eauto.
  - split; [| done]. right. simpl. by rewrite Hp.
Qed.

Lemma move_sound s s' c : sound s → disk (connection s) = Some c → connection s' = connection s → batches_move s s' →
  inflight (worker s) = batch_default → sound s' ∧ content s' = content s.
Proof using WE.
  intros (c0 & Hd & Hc & Hb & Hi) Hc0 Hcon Hm Hin. split.
  - exists c0. rewrite Hcon. split_and!; [done | done | |];
      destruct Hm as [[E1 [E2 | E2]] | (_ & E1 & E2)]; rewrite ?E1, ?E2; try done; apply default_ok.
  - rewrite (content_eq s c Hc0), (content_eq s' c) by (by rewrite Hcon). f_equal. rewrite Hin.
    rewrite (apply_empty batch_default) by apply default_is_empty.
    destruct Hm as [[E1 [E2 | E2]] | (_ & E1 & E2)]; rewrite E1, E2, ?Hin;
      by rewrite (apply_empty batch_default) by apply default_is_empty.
Qed.

Lemma worker_sound s ev s' : sound s → event_ok ev → worker_step s ev = Some s' →
  sound s' ∧ content s' = content s ∧ batches_move s s'.
Proof using WE.
  intros Hs Hev Hstep. pose proof Hs as (c & Hd & Hc & Hb & Hi).
  assert (Hsame : ∀ s1 : State, connection s1 = connection s → batch (pending s1) = batch (pending s) →
    inflight (worker s1) = inflight (worker s) → sound s1 ∧ content s1 = content s ∧ batches_move s s1).
  { intros s1 H1 H2 H3. split_and!; [exists c; by rewrite H1, H2, H3 | | by left; eauto].
    unfold content. by rewrite H1, H2, H3. }
  unfold Writeback.worker_step in Hstep. destruct (worker s) as [|d| |b why|r] eqn:Hw; destruct ev; try done.
  - injection Hstep as <-. apply Hsame; try done; by rewrite Hw.
  - destruct (queue s) as [|[q id|id|] rest] eqn:Hq; try done; injection Hstep as <-.
    + unfold run_job. destruct (connection_get_fine (connection s) ao c Hd Hc Hev) as (c1 & Hg & Hc1 & Hv1). simpl.
      rewrite Hg. destruct (run_query q c1 a) as [r c2] eqn:Er. destruct (query_keeps q c1 a r c2 Hc1 Er) as [Hc2 Hv2].
      split_and!; [exists c2; simpl; split_and!; try done; apply default_ok | | left; simpl; eauto].
      rewrite (content_eq s c Hd), (content_eq _ c2) by done. simpl. by rewrite Hv2, Hv1, Hw.
    + destruct (commit_moves (set_queue s rest) s (ForFlush id) a) as [Hm Hcon]; [done | by rewrite Hw |].
      destruct (move_sound s _ c Hs Hd Hcon Hm) as [? ?]; [by rewrite Hw | done].
    + destruct (commit_moves (set_queue s rest) s ForClose a) as [Hm Hcon]; [done | by rewrite Hw |].
      destruct (move_sound s _ c Hs Hd Hcon Hm) as [? ?]; [by rewrite Hw | done].
  - destruct (notified s); [| done]. injection Hstep as <-. apply Hsame; try done; by rewrite Hw.
  - destruct d as [d|]; [| done]. destruct (d <=? now); [| done]. injection Hstep as <-.
    destruct (commit_moves s s Timer a) as [Hm Hcon]; [done | by rewrite Hw |].
    destruct (move_sound s _ c Hs Hd Hcon Hm) as [? ?]; [by rewrite Hw | done].
  - injection Hstep as <-. destruct (connection_failure (connection s)); apply Hsame; try done; by rewrite Hw.
  - injection Hstep as <-. unfold written. destruct Hev as [Hfo Hfa].
    destruct (connection_get_fine (connection s) ao c Hd Hc Hfo) as (c1 & Hg & Hc1 & Hv1). rewrite Hg.
    simpl in Hi. destruct (write_fine b c1 a Hc1 Hi Hfa) as (c2 & Hwr & Hc2 & Hv2). rewrite Hwr.
    set (s1 := set_connection (set_pending s (set_failure (pending s) None)) (Open c2)).
    destruct (finish_moves s1 why ac) as (Hfb & Hfi & Hfc). split_and!.
    + exists c2. rewrite Hfc, Hfb, Hfi. simpl. split_and!; try done. apply default_ok.
    + rewrite (content_eq s c Hd), (content_eq _ c2) by (by rewrite Hfc). rewrite Hfb, Hfi, Hw. simpl.
      by rewrite (apply_empty batch_default) by apply default_is_empty; rewrite Hv2, Hv1.
    + left. rewrite Hfb, Hfi. eauto.
Qed.

Lemma dur_sound s tr c newer : dur_ok s tr c newer → sound s.
Proof.
  intros H. exists c. split_and!; [apply H..|]. pose proof (dur_inflight _ _ _ _ H) as Hi.
  destruct (worker s); try apply default_ok. apply Hi.
Qed.

(** What a step makes of the contents: only an accepted change changes them. *)
Definition accepted (s : State) (l : @Label B A Q) (o : option V) : option V :=
  match l with LRecord _ b => if closed (pending s) then o else batch_apply b <$> o | _ => o end.

Lemma step_content s l s' : sound s → label_ok l → step s l = Some s' → content s' = accepted s l (content s).
Proof using WE.
  intros Hs Hl Hst. destruct l as [now b|current q|current|i|current| |ev]; simpl in Hst.
  - injection Hst as <-. simpl. destruct (closed (pending s)) eqn:E; [| by apply record_sound].
    unfold record, accept. by rewrite E.
  - injection Hst as <-. unfold query. by destruct current, (closed (pending s)).
  - injection Hst as <-. unfold flush. by destruct current, (closed (pending s)).
  - apply fmap_Some in Hst as ([r s2] & Hr & ->). unfold recv in Hr. destruct (replies s !! i); [by injection Hr as <- <- |].
    destruct (worker s); try done. by injection Hr as <- <-.
  - injection Hst as <-. unfold close_request. by destruct current, (close_result s).
  - apply fmap_Some in Hst as ([r s2] & Hr & ->). unfold close_receipt in Hr. destruct (close_result s); [by injection Hr as <- <- |].
    destruct (worker s) eqn:Ew; try done. injection Hr as <- <-. unfold content. simpl. by rewrite Ew.
  - by apply (worker_sound s ev s').
Qed.

(** C36: A crash loses at most the newest changes, and none that were flushed.
    As long as the engine does not fail, through any interleaving of clients
    and worker: only accepted changes change what the store holds, each by its
    own effect, whatever the worker does; the database always holds exactly
    what the store held at some earlier moment, changes being neither split
    nor reordered; and when a flush has been answered, the answer is success
    and that moment is not before the flush was requested. *)
Theorem flushed_data_survives file tr s : file_ok file → history file (s :: tr) →
  (∀ l s', label_ok l → step s l = Some s' → content s' = accepted s l (content s)) ∧
  ∃ c newer s0 older, disk (connection s) = Some c ∧ s :: tr = newer ++ s0 :: older ∧ content s0 = Some (conn_view c) ∧
    ∀ id r, replies s !! id = Some (RFlush r) → r = None ∧ Forall (λ s', id < next_reply s')%nat newer.
Proof using WE limit_positive.
  intros Hf Hh. destruct (history_dur file _ Hf Hh) as (? & ? & c & newer & [= <- <-] & _ & Hd).
  split; [intros l s'; apply step_content; by eapply dur_sound |].
  destruct Hd as [Hdisk _ _ _ (s0 & older & Heq & Hc) Hfl _]. by exists c, newer, s0, older.
Qed.

(** A query is answered from a database whose contents are those on disk, at a
    moment when nothing is being written. *)
Definition answers_query (s : State) (a : A) (q : Q) (r : WritebackError + R) : Prop :=
  inflight (worker s) = batch_default ∧
  ∃ c c' c2, disk (connection s) = Some c ∧ conn_ok c' ∧ conn_view c' = conn_view c ∧ run_query q c' a = (r, c2).

Lemma finish_replies (s : State) why a id r : id ∉ why_ids why → replies s !! id = Some r →
  replies (finish close_connection s why a) !! id = Some r.
Proof.
  intros Hid Hr. destruct why as [|i|]; simpl; [done | | done]. rewrite lookup_insert_ne; [done |].
  intros ->. apply Hid. by apply list_elem_of_singleton.
Qed.

Lemma commit_replies (s : State) why a id r : id ∉ why_ids why → replies s !! id = Some r →
  replies (commit close_connection s why a) !! id = Some r.
Proof. unfold commit. destruct (batch_is_empty _); [apply finish_replies | done]. Qed.

Lemma commit_queue (s : State) why a : queue (commit close_connection s why a) = queue s.
Proof. unfold commit. destruct (batch_is_empty _); [| done]. by destruct why. Qed.

(** Replies stay until they are received, and a message leaves the queue when
    it is answered. *)
Lemma worker_answers s ev s' : wb_ok s → sound s → event_ok ev → worker_step s ev = Some s' →
  (∀ id r, replies s !! id = Some r → replies s' !! id = Some r) ∧
  ∀ m, m ∈ queue s → m ∈ queue s' ∨
    ∀ q id, m = MQuery q id → ∃ ao a r, ev = WMessage ao a ∧ answers_query s a q r ∧ replies s' !! id = Some (RQuery r).
Proof.
  intros Hwb (c & Hd & Hc & _ & _) Hev Hstep.
  assert (Hnew : ∀ id r, replies s !! id = Some r → id ∉ asked s).
  { intros id r Hr. apply (ok_replies s Hwb). by rewrite Hr. }
  unfold asked in Hnew. unfold Writeback.worker_step in Hstep.
  destruct (worker s) as [|d| |b why|r] eqn:Hw; destruct ev; try done.
  - injection Hstep as <-. split; [done | by left].
  - destruct (queue s) as [|m rest] eqn:Hq; [done |]. simpl in Hnew. destruct m as [q id|id|]; injection Hstep as <-.
    + unfold run_job. destruct (connection_get_fine (connection s) ao c Hd Hc Hev) as (c1 & Hg & Hc1 & Hv1). simpl.
      rewrite Hg. destruct (run_query q c1 a) as [r c2] eqn:Er. simpl. split.
      * intros i r' Hi. rewrite lookup_insert_ne; [done |]. intros ->. apply (Hnew i r' Hi). by left.
      * intros m [-> | Hm]%elem_of_cons; [right | by left]. intros q' id' [= <- <-]. exists ao, a, r.
        split; [done |]. rewrite lookup_insert_eq. split; [| done]. split; [by rewrite Hw |]. by exists c, c1, c2.
    + split.
      * intros i r Hi. apply (commit_replies (set_queue s rest)); [| done]. intros Heq%list_elem_of_singleton.
        subst i. apply (Hnew id r Hi). by left.
      * rewrite commit_queue. simpl. intros m [-> | Hm]%elem_of_cons; [by right | by left].
    + split; [intros i r Hi; apply (commit_replies (set_queue s rest)); [apply not_elem_of_nil | done] |].
      rewrite commit_queue. simpl. intros m [-> | Hm]%elem_of_cons; [by right | by left].
  - destruct (notified s); [| done]. injection Hstep as <-. split; [done | by left].
  - destruct d as [d|]; [| done]. destruct (d <=? now); [| done]. injection Hstep as <-.
    split; [intros i r Hi; apply commit_replies; [apply not_elem_of_nil | done] |]. rewrite commit_queue. by left.
  - injection Hstep as <-. destruct (connection_failure (connection s)); (split; [done | by left]).
  - injection Hstep as <-.
    assert (Hfin : ∀ (s1 : State) x, replies s1 = replies s → queue s1 = queue s →
      (∀ i r, replies s !! i = Some r → replies (finish close_connection s1 why x) !! i = Some r) ∧
      queue (finish close_connection s1 why x) = queue s).
    { intros s1 x Hr1 Hq1. split; [| by destruct why]. intros i r Hi. apply finish_replies; [| by rewrite Hr1].
      intros Hin. apply (Hnew i r Hi). apply elem_of_app. left. by destruct why. }
    unfold written. destruct (connection_get open (connection s) ao) as [lc [e|c1]]; [| destruct (batch_write b c1 a) as [e c2]];
      (edestruct Hfin as [Hf1 Hf2]; [| | split; [exact Hf1 | rewrite Hf2; by left]]; done).
Qed.
End durability.

(** ** A table of numbers, as an example *)
Module WritebackExample.
#[local] Open Scope N_scope.
Notation Table := (gmap N N).
(** An answer of the engine says whether it fails. *)
#[export] Instance table_batch : WriteBatch Table Table bool := {|
  batch_default := ∅;
  batch_is_empty := λ b, bool_decide (b = ∅);
  batch_merge := λ b n, n ∪ b;
  batch_write := λ b c fails, if fails : bool then (Some (lit "disk full"), c) else (None, b ∪ c) |}.
Definition table_query (q : N) (c : Table) (fails : bool) : (WritebackError + option N) * Table :=
  (if fails then inl (lit "disk error") else inr (c !! q), c).
Definition table_open (c : Table) (fails : bool) : WritebackError + Table := if fails then inl (lit "locked") else inr c.
Definition table_close (c : Table) (fails : bool) : option WritebackError := if fails then Some (lit "busy") else None.
Definition table_policy : WritebackPolicy := mk_policy 5 (Some 2).

#[export] Instance table_empty : WriteBatchEmpty table_batch.
Proof.
  split; [done |]. intros b n. simpl. rewrite !bool_decide_eq_false. intros Hn Hu. apply Hn.
  by apply map_positive_l in Hu.
Qed.

#[export] Instance table_durable : DurableBatch Table table_batch table_query table_open.
Proof.
  refine {| conn_view := λ c, c; batch_apply := λ b v, b ∪ v; file_ok := λ _, True; conn_ok := λ _, True; batch_ok := λ _, True;
            fine := λ a, a = false |}; simpl; try done.
  - intros b v ->%bool_decide_eq_true. by rewrite map_empty_union.
  - intros b n v. by rewrite map_union_assoc.
  - intros b c a _ _ ->. eauto.
  - intros q c a r c' _ [= _ <-]. done.
  - intros c a _ ->. eauto.
Defined.

Notation TLabel := (Label (B := Table) (A := bool) (Q := N)).
(** Two changes, the flush between them, the commits, a query and the close. *)
Definition labels : list TLabel :=
  [LRecord 1 {[1 := 10]}; LFlush false; LRecord 2 {[1 := 11]}; LWorker (WTop 2); LWorker (WMessage false false);
   LRecord 3 {[2 := 20]}; LWorker (WWritten false false false); LQuery false 1; LWorker (WTop 3)].
Definition later : list TLabel :=
  [LWorker (WMessage false false); LWorker WRecordFailure; LWorker (WTop 4); LWorker (WTimer 8 false);
   LWorker (WWritten false false false); LWorker (WTop 9); LWorker WNotified; LWorker (WTop 9)].
Notation tsteps := (steps table_query table_open table_close table_policy).

Lemma table_limit limit : early_commit_operations table_policy = Some limit → (0 < limit)%N.
Proof. intros [= <-]. done. Qed.
End WritebackExample.
Import WritebackExample.

Lemma requests_answered_witness :
  match WritebackExample.tsteps (deferred ∅) WritebackExample.labels with
  | Some s => asked s = [1%nat] ∧
      (∀ ev s', worker_step WritebackExample.table_query WritebackExample.table_open WritebackExample.table_close
                  WritebackExample.table_policy s ev = Some s' → measure s' < measure s)%nat
  | None => False
  end.
Proof.
  assert (H1 : match WritebackExample.tsteps (deferred ∅) WritebackExample.labels with
               | Some s => asked s = [1%nat] | None => False end) by (vm_compute; reflexivity).
  destruct (WritebackExample.tsteps (deferred ∅) WritebackExample.labels) as [s|] eqn:E; [| exact H1].
  split; [exact H1 |].
  apply (requests_answered WritebackExample.table_query WritebackExample.table_open WritebackExample.table_close
    WritebackExample.table_policy WritebackExample.table_limit ∅ WritebackExample.labels s E).
Defined.

Lemma flushed_data_survives_witness : ∃ s0 : Writeback (B := gmap N N) (Conn := gmap N N) (Q := N) (R := option N),
  content WritebackExample.table_query WritebackExample.table_open s0 = Some (∅ : gmap N N).
Proof.
  destruct (flushed_data_survives WritebackExample.table_query WritebackExample.table_open WritebackExample.table_close
    WritebackExample.table_policy WritebackExample.table_limit ∅ [deferred ∅] (flush (deferred ∅) false).2)
    as [_ (c & newer & s0 & older & Hd & _ & Hc & _)].
  - exact I.
  - eapply (history_step _ _ _ _ _ _ _ (LFlush false)); [constructor | exact I | reflexivity].
  - injection Hd as <-. exists s0. exact Hc.
Defined.

(** A failed batch is discarded, and a later success clears the failure: a
    flush then reports success although a change was lost. *)
Example failure_forgotten :
  ∃ s, WritebackExample.tsteps (deferred ∅)
    [LRecord 1 {[1 := 10]}; LRecord 1 {[2 := 20]}; LWorker (WTop 2); LWorker (WTimer 2 false);
     LWorker (WWritten false true false); LRecord 3 {[3 := 30]}; LFlush false; LWorker (WTop 4);
     LWorker (WMessage false false); LWorker (WWritten false false false)] = Some s ∧
  replies s !! 0%nat = Some (RFlush None) ∧ connection s = Open {[3 := 30]}.
Proof. eexists. split; [vm_compute; reflexivity |]. split; vm_compute; reflexivity. Qed.
