(* ===== verification/WebStorageDb.v ===== *)
(** * Web storage on SQLite: tables and batches (moli-web-storage/src/sqlite.rs)

    The two tables, the statements the code executes on them, batches of
    changes with their merge and their transaction, reading an area and
    listing the areas of an origin.  SQLite itself is outside the sources: a
    statement is its documented effect on the tables, each statement may fail
    with what the engine answers, and a transaction that is not committed
    changes nothing.  The row id the engine picks for a new area is a
    parameter that is not in use.

    Proved here: a batch that is written has the effect of its changes in
    order, whatever was merged into it, rows read back as they were written,
    and the range of keys of an origin is exactly its prefix. *)
From Stdlib Require Import Ascii String.
From S2P Require Import Prelude Text Utf8 StorageKey WebStorage Writeback.

#[local] Open Scope N_scope.

(** ** UTF-16LE blobs *)
Notation Blob := (list N) (only parsing).
Definition to_le_bytes (u : N) : list N := [u mod 256; u / 256].
Definition encode (u : units) : list N := u ≫= to_le_bytes.

Fixpoint decode_units (bytes : list N) : units :=
  match bytes with
  | lo :: hi :: bytes => lo + 256 * hi :: decode_units bytes
  | _ => []
  end.
Definition decode (bytes : list N) : WritebackError + units :=
  if Nat.even (length bytes) then inr (decode_units bytes) else inl (lit "invalid UTF-16LE localStorage row").

(** ** The database *)
(** [areas] is keyed by its unique column, [entries] by its primary key, the
    area id and the key. *)
Record Tables := mk_tables { areas : gmap text N; entries : gmap N (gmap (list N) (list N)) }.

Record Database := mk_db {
  application_id : N;
  user_version : N;
  schema : option Tables;
  other_tables : bool }.

Definition APPLICATION_ID : N := 1296845907.
Definition SCHEMA_VERSION : N := 1.

(** What the engine answers, statement by statement: [Some e] fails. *)
Notation Answers := (list (option WritebackError)).

(** Statements in a transaction. *)
Definition Tx (X : Type) := Tables → Answers → (WritebackError + X) * (Tables * Answers).
#[global] Instance tx_ret : MRet Tx := λ X x t a, (inr x, (t, a)).
#[global] Instance tx_bind : MBind Tx := λ X Y f m t a,
  match m t a with
  | (inr x, (t, a)) => f x t a
  | (inl e, ta) => (inl e, ta)
  end.
Definition tx_fail {X} (e : WritebackError) : Tx X := λ t a, (inl e, (t, a)).

Definition sql {X} (f : Tables → X * Tables) : Tx X := λ t a,
  match a with
  | Some e :: a => (inl e, (t, a))
  | _ => let '(x, t) := f t in (inr x, (t, tail a))
  end.

Section database.
Context (next_rowid : gset N → N).

(** *** The statements *)
(** [DELETE FROM areas WHERE storage_key=?1], with the cascade to [entries]. *)
Definition delete_area (key : text) : Tx unit := sql (λ t,
  ((), match areas t !! key with
       | Some id => mk_tables (delete key (areas t)) (delete id (entries t))
       | None => t
       end)).

(** [INSERT INTO areas … ON CONFLICT … RETURNING area_id] *)
Definition write_area (key : text) : Tx N := sql (λ t,
  match areas t !! key with
  | Some id => (id, t)
  | None => let id := next_rowid (list_to_set (map_to_list (areas t)).*2) in
            (id, mk_tables (<[key := id]> (areas t)) (entries t))
  end).

Definition rows_of (t : Tables) (id : N) : gmap (list N) (list N) := default ∅ (entries t !! id).

(** [INSERT INTO entries … ON CONFLICT … DO UPDATE] *)
Definition put_entry (id : N) (key value : list N) : Tx unit := sql (λ t,
  ((), mk_tables (areas t) (<[id := <[key := value]> (rows_of t id)]> (entries t)))).

(** [DELETE FROM entries WHERE area_id=?1 AND key=?2] *)
Definition delete_entry (id : N) (key : list N) : Tx unit := sql (λ t,
  ((), mk_tables (areas t) (<[id := delete key (rows_of t id)]> (entries t)))).

(** [DELETE FROM areas WHERE area_id=?1 AND NOT EXISTS …] *)
Definition delete_empty_area (id : N) : Tx unit := sql (λ t,
  ((), if decide (rows_of t id = ∅)
       then mk_tables (filter (λ p, p.2 ≠ id) (areas t)) (delete id (entries t)) else t)).

Definition select_area_id (key : text) : Tx (option N) := sql (λ t, (areas t !! key, t)).
Definition select_entries (id : N) : Tx (list (list N * list N)) := sql (λ t, (map_to_list (rows_of t id), t)).

(** *** Batches *)
Inductive KeyChange := Put (value : units) | Delete.
(** [pin] is the area object the delta keeps alive. *)
Record AreaDelta := mk_delta { delta_clear : bool; changes : gmap units KeyChange; pin : nat }.
Notation Batch := (gmap text AreaDelta).

(** [BTreeMap] order. *)
Fixpoint text_le (a b : text) : bool :=
  match a, b with
  | [], _ => true
  | _ :: _, [] => false
  | x :: a, y :: b => (N_of_ascii x <? N_of_ascii y) || ((N_of_ascii x =? N_of_ascii y) && text_le a b)
  end.
Definition batch_list (b : Batch) : list (text * AreaDelta) :=
  merge_sort (λ p q : text * AreaDelta, text_le p.1 q.1) (map_to_list b).
Definition changes_list (c : gmap units KeyChange) : list (units * KeyChange) :=
  merge_sort (λ p q : units * KeyChange, units_le p.1 q.1) (map_to_list c).

(** [previous.changes.extend(next.changes)] is [next ∪ previous]. *)
Definition merge_delta (previous next : AreaDelta) : AreaDelta :=
  if delta_clear next then next
  else mk_delta (delta_clear previous) (changes next ∪ changes previous) (pin next).
Definition batch_merge_newer (b newer : Batch) : Batch := union_with (λ previous next, Some (merge_delta previous next)) b newer.

Fixpoint for_each {X} (f : X → Tx unit) (l : list X) : Tx unit :=
  match l with [] => mret () | x :: l => f x ≫= λ _, for_each f l end.

Definition write_change (id : N) (c : units * KeyChange) : Tx unit :=
  match c.2 with
  | Put value => put_entry id (encode c.1) (encode value)
  | Delete => delete_entry id (encode c.1)
  end.

Definition write_delta (kd : text * AreaDelta) : Tx unit :=
  (if delta_clear kd.2 then delete_area kd.1 else mret ()) ≫= λ _,
  if decide (changes kd.2 = ∅) then mret ()
  else write_area kd.1 ≫= λ area,
       for_each (write_change area) (changes_list (changes kd.2)) ≫= λ _,
       delete_empty_area area.

(** The transaction: begun, run and committed, or rolled back. *)
Definition transaction {X} (body : Tx X) (db : Database) (a : Answers) : (WritebackError + X) * Database :=
  match schema db with
  | None => (inl (lit "no such table"), db)
  | Some t =>
      match (sql (λ t, ((), t)) ≫= λ _, body ≫= λ x, sql (λ t, (x, t))) t a with
      | (inr x, (t, _)) => (inr x, mk_db (application_id db) (user_version db) (Some t) (other_tables db))
      | (inl e, _) => (inl e, db)
      end
  end.

Definition write (b : Batch) (db : Database) (a : Answers) : option WritebackError * Database :=
  match transaction (for_each write_delta (batch_list b)) db a with
  | (inr _, db) => (None, db)
  | (inl e, db) => (Some e, db)
  end.

Definition storage_batch : WriteBatch Batch Database Answers := {|
  batch_default := ∅;
  batch_is_empty := λ b, bool_decide (b = ∅);
  batch_merge := batch_merge_newer;
  batch_write := write |}.

(** *** Queries *)
Fixpoint decode_rows (rows : list (list N * list N)) (m : gmap units units) : WritebackError + gmap units units :=
  match rows with
  | [] => inr m
  | (k, v) :: rows =>
      match decode k with
      | inl e => inl e
      | inr k => match decode v with inl e => inl e | inr v => decode_rows rows (<[k := v]> m) end
      end
  end.

Definition read_area (key : text) : Tx MemoryWebStorageArea :=
  select_area_id key ≫= λ id,
  match id with
  | None => mret area_default
  | Some id =>
      select_entries id ≫= λ rows,
      match decode_rows rows ∅ with
      | inl e => tx_fail e
      | inr m => mret (mk_area m (storage_area_size m))
      end
  end.

Definition origin_prefix_range (origin : text) : text * text :=
  let prefix := storage_key_prefix_for_origin origin in
  (prefix, removelast prefix ++ [">"%char]).

Definition select_origin_keys (origin : text) : Tx (list text) :=
  let '(prefix, upper) := origin_prefix_range origin in
  sql (λ t, (filter (λ k, k = origin ∨ (text_le prefix k ∧ negb (text_le upper k))) (map_to_list (areas t)).*1, t)).

Inductive StorageQuery := ReadArea (key : text) | OriginKeys (origin : text) | Validate.
Inductive StorageAnswer := AnArea (a : MemoryWebStorageArea) | SomeKeys (keys : list text) | Validated.

(** A query reads outside a transaction. *)
Definition on_tables {X} (body : Tx X) (db : Database) (a : Answers) : WritebackError + X :=
  match schema db with None => inl (lit "no such table") | Some t => (body t a).1 end.
Definition map_result {X Y} (f : X → Y) (r : WritebackError + X) : WritebackError + Y :=
  match r with inl e => inl e | inr x => inr (f x) end.

Definition storage_query (q : StorageQuery) (db : Database) (a : Answers) : (WritebackError + StorageAnswer) * Database :=
  (match q with
   | ReadArea key => map_result AnArea (on_tables (read_area key) db a)
   | OriginKeys origin => map_result SomeKeys (on_tables (select_origin_keys origin) db a)
   | Validate => inr Validated
   end, db).

(** *** Import *)
(** Entries of one area that differ from what is stored, in order. *)
Fixpoint import_changes (l : list (units * units)) (m : gmap units units) : list (units * units) :=
  match l with
  | [] => []
  | (k, v) :: l =>
      if decide (m !! k = Some v) then import_changes l m else (k, v) :: import_changes l (<[k := v]> m)
  end.
Definition import_area (area : text * list (units * units)) : Tx unit :=
  if decide (area.2 = []) then mret ()
  else read_area area.1 ≫= λ stored,
       let l := import_changes area.2 (values stored) in
       if decide (l = []) then mret ()
       else write_area area.1 ≫= λ id, for_each (λ kv, put_entry id (encode kv.1) (encode kv.2)) l.
Definition import_sqlite_web_storage (areas : gmap text (list (units * units))) (db : Database) (a : Answers)
    : (WritebackError + unit) * Database :=
  transaction (for_each import_area
    (merge_sort (λ p q : text * list (units * units), text_le p.1 q.1) (map_to_list areas))) db a.

(** *** Opening *)
Definition initialize (db : Database) (a : Answers) : WritebackError + Database :=
  match a with
  | Some e :: _ => inl e
  | _ =>
      if (application_id db =? 0) && (user_version db =? 0) then
        if other_tables db || bool_decide (is_Some (schema db)) then inl (lit "unidentified localStorage database")
        else inr (mk_db APPLICATION_ID SCHEMA_VERSION (Some (mk_tables ∅ ∅)) (other_tables db))
      else if negb ((application_id db =? APPLICATION_ID) && (user_version db =? SCHEMA_VERSION)) then
        inl (lit "unsupported localStorage database identity/version")
      else match schema db with None => inl (lit "no such table") | Some _ => inr db end
  end.
End database.

(** ** Blobs *)
Definition units_ok (u : units) : Prop := Forall (λ x, x < 65536) u.
#[global] Instance units_ok_dec u : Decision (units_ok u).
Proof. unfold units_ok. apply _. Defined.

Lemma decode_encode u : units_ok u → decode_units (encode u) = u.
Proof.
  induction 1 as [|x u Hx _ IH]; [done |]. change (encode (x :: u)) with (x mod 256 :: x / 256 :: encode u).
  cbn [decode_units]. f_equal; [| exact IH].
  pose proof (N.div_mod x 256 ltac:(done)). lia.
Qed.

Lemma encode_inj u v : units_ok u → units_ok v → encode u = encode v → u = v.
Proof. intros Hu Hv Heq. by rewrite <-(decode_encode u Hu), <-(decode_encode v Hv), Heq. Qed.

Lemma decode_ok u : units_ok u → decode (encode u) = inr u.
Proof.
  intros Hu. unfold decode. rewrite decode_encode by done.
  assert (Hev : Nat.even (length (encode u)) = true).
  { clear Hu. induction u as [|x u IH]; [done |]. exact IH. }
  by rewrite Hev.
Qed.

(** ** Rows of one area *)
Definition rows_ok (rows : gmap (list N) (list N)) : Prop :=
  ∀ bk bv, rows !! bk = Some bv → ∃ k v, units_ok k ∧ units_ok v ∧ bk = encode k ∧ bv = encode v.

Definition urows (rows : gmap (list N) (list N)) : gmap units units :=
  list_to_map ((λ p, (decode_units p.1, decode_units p.2)) <$> map_to_list rows).

Lemma urows_NoDup rows : rows_ok rows →
  NoDup ((λ p : list N * list N, (decode_units p.1, decode_units p.2)) <$> map_to_list rows).*1.
Proof.
  intros Hr. rewrite <-list_fmap_compose.
  assert (Hmap : (fst ∘ (λ p : list N * list N, (decode_units p.1, decode_units p.2)) <$> map_to_list rows)
    = decode_units <$> (map_to_list rows).*1) by (by rewrite <-list_fmap_compose).
  rewrite Hmap. clear Hmap. pose proof (NoDup_fst_map_to_list rows) as Hn.
  assert (Hok : Forall (λ b, ∃ k, units_ok k ∧ b = encode k) (map_to_list rows).*1).
  { apply Forall_fmap, Forall_forall. intros [bk bv] (k & v & ? & ? & ? & ?)%elem_of_map_to_list%Hr. simpl. eauto. }
  induction (map_to_list rows).*1 as [|b l IH]; [constructor |]. apply NoDup_cons in Hn as [Hni Hn].
  apply Forall_cons in Hok as [(k & Hk & ->) Hok]. simpl. apply NoDup_cons. split; [| by apply IH].
  rewrite decode_encode by done. intros (b' & Hkb & Hb')%list_elem_of_fmap.
  rewrite Forall_forall in Hok. destruct (Hok b' Hb') as (k' & Hk' & Heq). subst b'.
  rewrite decode_encode in Hkb by done. by subst k'.
Qed.

Lemma lookup_urows rows k v : rows_ok rows →
  urows rows !! k = Some v ↔ units_ok k ∧ units_ok v ∧ rows !! encode k = Some (encode v).
Proof.
  intros Hr. unfold urows. rewrite <-elem_of_list_to_map by (by apply urows_NoDup).
  rewrite list_elem_of_fmap. split.
  - intros ([bk bv] & [= -> ->] & Hin%elem_of_map_to_list).
    destruct (Hr _ _ Hin) as (k & v & Hk & Hv & -> & ->). by rewrite !decode_encode by done.
  - intros (Hk & Hv & Hl). exists (encode k, encode v). simpl. rewrite !decode_encode by done.
    split; [done |]. by apply elem_of_map_to_list.
Qed.

Lemma rows_ok_empty : rows_ok ∅.
Proof. intros bk bv H. by rewrite lookup_empty in H. Qed.

Lemma rows_ok_insert rows k v : rows_ok rows → units_ok k → units_ok v → rows_ok (<[encode k := encode v]> rows).
Proof. intros Hr Hk Hv bk bv [[<- <-]|[_ ?]]%lookup_insert_Some; [eauto 6 | by apply Hr]. Qed.

Lemma rows_ok_delete rows b : rows_ok rows → rows_ok (delete b rows).
Proof. intros Hr bk bv [_ ?]%lookup_delete_Some. by apply Hr. Qed.

(** A row of code units, or nothing: equality of maps by their entries. *)
Lemma map_eq_entries (m n : gmap units units) : (∀ k v, m !! k = Some v ↔ n !! k = Some v) → m = n.
Proof. intros H. apply map_eq. intros k. apply option_eq. intros v. apply H. Qed.

Lemma urows_empty : urows ∅ = ∅.
Proof. unfold urows. by rewrite map_to_list_empty. Qed.

Lemma urows_insert rows k v : rows_ok rows → units_ok k → units_ok v →
  urows (<[encode k := encode v]> rows) = <[k := v]> (urows rows).
Proof.
  intros Hr Hk Hv. apply map_eq_entries. intros k' v'.
  rewrite lookup_urows, !lookup_insert_Some, lookup_urows by (try apply rows_ok_insert; done). split.
  - intros (Hk' & Hv' & [[He Hev]|[Hne Hl]]).
    + apply encode_inj in He, Hev; [| done..]. by left.
    + right. split; [congruence | done].
  - intros [[<- <-]|[Hne (Hk' & Hv' & Hl)]]; [by eauto |]. split_and!; [done | done |]. right. split; [| done].
    intros He. by apply encode_inj in He.
Qed.

Lemma urows_delete rows k : rows_ok rows → units_ok k → urows (delete (encode k) rows) = delete k (urows rows).
Proof.
  intros Hr Hk. apply map_eq_entries. intros k' v'.
  rewrite lookup_urows, !lookup_delete_Some, lookup_urows by (try apply rows_ok_delete; done). split.
  - intros (Hk' & Hv' & Hne & Hl). split; [congruence | done].
  - intros (Hne & Hk' & Hv' & Hl). split_and!; [done | done | | done]. intros He. by apply encode_inj in He.
Qed.

Lemma urows_empty_iff rows : rows_ok rows → urows rows = ∅ ↔ rows = ∅.
Proof.
  intros Hr. split; [| intros ->; apply urows_empty]. intros He. apply map_empty. intros b.
  destruct (rows !! b) as [bv|] eqn:E; [| done]. destruct (Hr _ _ E) as (k & v & Hk & Hv & -> & ->).
  assert (H : urows rows !! k = Some v) by (by apply lookup_urows). by rewrite He in H.
Qed.

Lemma decode_rows_ok l m : Forall (λ p, ∃ k v, units_ok k ∧ units_ok v ∧ p = (encode k, encode v)) l →
  decode_rows l m = inr (foldl (λ m p, <[decode_units p.1 := decode_units p.2]> m) m l).
Proof.
  revert m. induction l as [|p l IH]; intros m; [done |]. intros [(k & v & Hk & Hv & ->) Hl]%Forall_cons.
  simpl. rewrite !decode_ok, !decode_encode by done. by apply IH.
Qed.

Lemma decode_rows_urows rows : rows_ok rows → decode_rows (map_to_list rows) ∅ = inr (urows rows).
Proof.
  intros Hr. rewrite decode_rows_ok.
  - f_equal. unfold urows. pose proof (urows_NoDup rows Hr) as Hn.
    assert (Hgen : ∀ (l : list (list N * list N)) (m : gmap units units),
      NoDup ((λ p : list N * list N, (decode_units p.1, decode_units p.2)) <$> l).*1 →
      foldl (λ m p, <[decode_units p.1 := decode_units p.2]> m) m l =
        list_to_map ((λ p, (decode_units p.1, decode_units p.2)) <$> l) ∪ m).
    { induction l as [|p l IH]; intros m Hnd; simpl; [by rewrite map_empty_union |].
      apply NoDup_cons in Hnd as [Hni Hnd]. rewrite IH by done.
      rewrite <-insert_union_r by (by apply not_elem_of_list_to_map_1). by rewrite insert_union_l. }
    rewrite Hgen by done. by rewrite map_union_empty.
  - apply Forall_forall. intros [bk bv] (k & v & ? & ? & -> & ->)%elem_of_map_to_list%Hr. eauto.
Qed.

(** ** What the tables hold *)
Notation View := (gmap text (gmap units units)).

Definition nonempty (m : gmap units units) : option (gmap units units) := if decide (m = ∅) then None else Some m.

Definition tables_view (t : Tables) : View := omap (λ id, nonempty (urows (rows_of t id))) (areas t).

(** The constraints of the schema: unique keys, the foreign key, and rows of
    whole code units. *)
Record tables_ok (t : Tables) : Prop := {
  tables_unique : ∀ k k' id, areas t !! k = Some id → areas t !! k' = Some id → k = k';
  tables_foreign : ∀ id rows, entries t !! id = Some rows → ∃ k, areas t !! k = Some id;
  tables_rows : ∀ id rows, entries t !! id = Some rows → rows_ok rows }.

Lemma rows_of_ok t id : tables_ok t → rows_ok (rows_of t id).
Proof. intros H. unfold rows_of. destruct (entries t !! id) eqn:E; [by eapply tables_rows | apply rows_ok_empty]. Qed.

Lemma default_nonempty m : default ∅ (nonempty m) = m.
Proof. unfold nonempty. by case_decide. Qed.

Lemma lookup_tables_view t k :
  tables_view t !! k = areas t !! k ≫= λ id, nonempty (urows (rows_of t id)).
Proof. unfold tables_view. apply lookup_omap. Qed.

(** ** Runs without faults *)
Definition no_faults (a : Answers) : Prop := Forall (λ o, o = None) a.

Definition ok_run {X} (m : Tx X) (t : Tables) (x : X) (t' : Tables) : Prop :=
  ∀ a, no_faults a → ∃ a', no_faults a' ∧ m t a = (inr x, (t', a')).

Lemma ok_ret {X} (x : X) t : ok_run (mret x) t x t.
Proof. intros a Ha. by exists a. Qed.

Lemma ok_sql {X} (f : Tables → X * Tables) t : ok_run (sql f) t (f t).1 (f t).2.
Proof.
  intros a Ha. exists (tail a). split; [destruct Ha; [constructor | done] |]. unfold sql.
  destruct Ha as [|o a -> Ha]; by destruct (f t).
Qed.

Lemma ok_bind {X Y} (m : Tx X) (f : X → Tx Y) t x t1 y t2 :
  ok_run m t x t1 → ok_run (f x) t1 y t2 → ok_run (m ≫= f) t y t2.
Proof.
  intros H1 H2 a Ha. destruct (H1 a Ha) as (a1 & Ha1 & E1). destruct (H2 a1 Ha1) as (a2 & Ha2 & E2).
  exists a2. split; [done |]. unfold mbind, tx_bind. by rewrite E1.
Qed.

(** ** Changes as maps *)
Definition apply_change (m : gmap units units) (c : units * KeyChange) : gmap units units :=
  match c.2 with Put v => <[c.1 := v]> m | Delete => delete c.1 m end.

Definition apply_changes (c : gmap units KeyChange) (m : gmap units units) : gmap units units :=
  base.merge (λ oc ov, match oc with Some (Put v) => Some v | Some Delete => None | None => ov end) c m.

Definition delta_apply (d : AreaDelta) (m : gmap units units) : gmap units units :=
  apply_changes (changes d) (if delta_clear d then ∅ else m).

Definition storage_apply (b : gmap text AreaDelta) (v : View) : View :=
  base.merge (λ od ov, match od with Some d => nonempty (delta_apply d (default ∅ ov)) | None => ov end) b v.

Lemma lookup_apply_changes c m k :
  apply_changes c m !! k = match c !! k with Some (Put v) => Some v | Some Delete => None | None => m !! k end.
Proof. unfold apply_changes. rewrite lookup_merge. by destruct (c !! k) as [[]|], (m !! k). Qed.

Lemma lookup_storage_apply b v k :
  storage_apply b v !! k = match b !! k with Some d => nonempty (delta_apply d (default ∅ (v !! k))) | None => v !! k end.
Proof.
  unfold storage_apply. rewrite lookup_merge. destruct (b !! k), (v !! k); done.
Qed.

Lemma apply_changes_empty m : apply_changes ∅ m = m.
Proof. apply map_eq. intros k. by rewrite lookup_apply_changes, lookup_empty. Qed.

Lemma apply_changes_union c d m : apply_changes (d ∪ c) m = apply_changes d (apply_changes c m).
Proof.
  apply map_eq. intros k. rewrite !lookup_apply_changes, lookup_union.
  destruct (d !! k) as [[]|], (c !! k) as [[]|]; done.
Qed.

Lemma delta_apply_merge p n m : delta_apply (merge_delta p n) m = delta_apply n (delta_apply p m).
Proof.
  unfold delta_apply, merge_delta. destruct (delta_clear n) eqn:En; simpl; [by rewrite En |].
  by rewrite apply_changes_union.
Qed.

Lemma storage_apply_merge b n v : storage_apply (batch_merge_newer b n) v = storage_apply n (storage_apply b v).
Proof.
  apply map_eq. intros k. rewrite !lookup_storage_apply. unfold batch_merge_newer. rewrite lookup_union_with.
  destruct (b !! k) as [p|], (n !! k) as [d|]; simpl; [| done..].
  by rewrite default_nonempty, delta_apply_merge.
Qed.

(** Changes one after the other, each key at most once, in any order. *)
Lemma foldl_changes (l : list (units * KeyChange)) m : NoDup l.*1 →
  foldl apply_change m l = apply_changes (list_to_map l) m.
Proof.
  revert m. induction l as [|[k c] l IH]; intros m; simpl; [by rewrite apply_changes_empty |].
  intros [Hni Hn]%NoDup_cons. rewrite IH by done. apply not_elem_of_list_to_map_1 in Hni.
  apply map_eq. intros k'. rewrite !lookup_apply_changes. destruct (decide (k' = k)) as [->|Hne].
  - rewrite Hni, lookup_insert_eq. unfold apply_change. simpl. destruct c; [by rewrite lookup_insert_eq | by rewrite lookup_delete_eq].
  - rewrite lookup_insert_ne by done. unfold apply_change. simpl.
    destruct c; [by rewrite lookup_insert_ne | by rewrite lookup_delete_ne].
Qed.

Lemma changes_list_NoDup c : NoDup (changes_list c).*1.
Proof. unfold changes_list. rewrite merge_sort_Permutation. apply NoDup_fst_map_to_list. Qed.

Lemma changes_list_map c : list_to_map (changes_list c) = c.
Proof.
  rewrite <-(list_to_map_to_list c) at 2. apply list_to_map_proper; [apply changes_list_NoDup |].
  unfold changes_list. apply merge_sort_Permutation.
Qed.

(** ** Writing *)
Definition change_ok (c : units * KeyChange) : Prop :=
  units_ok c.1 ∧ match c.2 with Put v => units_ok v | Delete => True end.
Definition changes_ok (c : gmap units KeyChange) : Prop := ∀ k x, c !! k = Some x → change_ok (k, x).
Definition storage_batch_ok (b : gmap text AreaDelta) : Prop := ∀ k d, b !! k = Some d → changes_ok (changes d).

Section writing.
Context (next_rowid : gset N → N) (next_rowid_fresh : ∀ X, next_rowid X ∉ X).

(** Two tables with the same area rows, and one area's entries changed. *)
Lemma tables_update_ok t id rows k : tables_ok t → areas t !! k = Some id → rows_ok rows →
  tables_ok (mk_tables (areas t) (<[id := rows]> (entries t))).
Proof.
  intros H Hk Hr. destruct H. split; simpl; [done | |].
  - intros i r [[<- <-]|[_ ?]]%lookup_insert_Some; eauto.
  - intros i r [[<- <-]|[_ ?]]%lookup_insert_Some; eauto.
Qed.

Lemma write_changes_run l t id k : tables_ok t → areas t !! k = Some id → Forall change_ok l →
  ∃ t', ok_run (for_each (write_change id) l) t () t' ∧ tables_ok t' ∧ areas t' = areas t ∧
    urows (rows_of t' id) = foldl apply_change (urows (rows_of t id)) l ∧
    ∀ i, i ≠ id → rows_of t' i = rows_of t i.
Proof.
  revert t. induction l as [|[u c] l IH]; intros t Ht Hk; [intros _; exists t; split_and!; [apply ok_ret | done..] |].
  intros [Hc Hl]%Forall_cons. pose proof (rows_of_ok t id Ht) as Hr. destruct Hc as [Hu Hv].
  set (rows := match c with Put v => <[encode u := encode v]> (rows_of t id) | Delete => delete (encode u) (rows_of t id) end).
  set (t1 := mk_tables (areas t) (<[id := rows]> (entries t))).
  assert (Hrows : rows_ok rows) by (unfold rows; destruct c; [by apply rows_ok_insert | by apply rows_ok_delete]).
  assert (Hrun : ok_run (write_change id (u, c)) t () t1).
  { unfold t1, rows, write_change. simpl. destruct c; apply ok_sql. }
  assert (Ht1 : tables_ok t1) by (by eapply tables_update_ok).
  destruct (IH t1 Ht1 Hk Hl) as (t' & Hrun' & Ht' & Ha & Hu' & Hi). exists t'. split_and!; [| done | done | |].
  - simpl. by eapply ok_bind.
  - rewrite Hu'. simpl. f_equal. unfold t1, rows_of at 1. simpl. rewrite lookup_insert_eq. simpl. unfold rows.
    destruct c; simpl; [by apply urows_insert | by apply urows_delete].
  - intros i Hne. rewrite Hi by done. unfold t1, rows_of. simpl. by rewrite lookup_insert_ne by done.
Qed.

Lemma no_area_no_rows t id : tables_ok t → (∀ k, areas t !! k ≠ Some id) → rows_of t id = ∅.
Proof.
  intros H Hn. unfold rows_of. destruct (entries t !! id) as [r|] eqn:E; [| done].
  destruct (tables_foreign t H id r E) as [k Hk]. by destruct (Hn k).
Qed.

Lemma delete_area_run t k : tables_ok t → ∃ t', ok_run (delete_area k) t () t' ∧ tables_ok t' ∧
  (∀ k', is_Some (areas t' !! k') → k' ≠ k ∧ is_Some (areas t !! k')) ∧
  ∀ k', tables_view t' !! k' = if decide (k' = k) then None else tables_view t !! k'.
Proof.
  intros H. eexists. split; [apply ok_sql |]. simpl. destruct (areas t !! k) as [id|] eqn:E.
  - split_and!.
    + destruct H. split; simpl.
      * intros k1 k2 i [_ ?]%lookup_delete_Some [_ ?]%lookup_delete_Some. eauto.
      * intros i r [Hne Hi]%lookup_delete_Some. destruct (tables_foreign0 i r Hi) as [k1 Hk1]. exists k1.
        apply lookup_delete_Some. split; [congruence | done].
      * intros i r [_ ?]%lookup_delete_Some. eauto.
    + simpl. intros k' [i [? ?]%lookup_delete_Some]. eauto.
    + intros k'. rewrite !lookup_tables_view. simpl. case_decide as Hd.
      * subst k'. by rewrite lookup_delete_eq.
      * rewrite lookup_delete_ne by done. destruct (areas t !! k') as [id'|] eqn:E'; [| done]. simpl.
        unfold rows_of. simpl. rewrite lookup_delete_ne; [done |]. intros ->. apply Hd. by eapply (tables_unique t H).
  - split_and!; [done | | intros k'; case_decide as Hd; [subst k'; by rewrite lookup_tables_view, E | done]].
    intros k' Hk'. split; [| done]. intros ->. rewrite E in Hk'. by destruct Hk'.
Qed.

Lemma write_area_run t k : tables_ok t → ∃ id t', ok_run (write_area next_rowid k) t id t' ∧ tables_ok t' ∧
  areas t' !! k = Some id ∧ (∀ k', k' ≠ k → areas t' !! k' = areas t !! k') ∧
  ∀ k', tables_view t' !! k' = tables_view t !! k'.
Proof using next_rowid_fresh.
  intros H. eexists _, _. split; [apply ok_sql |]. simpl. destruct (areas t !! k) as [id|] eqn:E; [done |]. simpl.
  set (X := list_to_set _). set (id := next_rowid X).
  assert (Hf : ∀ k', areas t !! k' ≠ Some id).
  { intros k' Hk'. apply (next_rowid_fresh X). apply elem_of_list_to_set, list_elem_of_fmap.
    exists (k', id). split; [done |]. by apply elem_of_map_to_list. }
  split_and!.
  - destruct H. split; simpl; [| | done].
    + intros k1 k2 i [[<- <-]|[? ?]]%lookup_insert_Some [[<- ?]|[? ?]]%lookup_insert_Some; try done; try (by subst; naive_solver).
    + intros i r Hi. destruct (tables_foreign0 i r Hi) as [k1 Hk1]. exists k1.
      rewrite lookup_insert_ne; [done | congruence].
  - by rewrite lookup_insert_eq.
  - intros k' Hne. by rewrite lookup_insert_ne.
  - intros k'. rewrite !lookup_tables_view. simpl. destruct (decide (k' = k)) as [->|Hne]; [| by rewrite lookup_insert_ne].
    rewrite lookup_insert_eq, E. simpl. change (rows_of (mk_tables _ (entries t)) id) with (rows_of t id).
    by rewrite no_area_no_rows, urows_empty by done.
Qed.

Lemma delete_empty_area_run t k id : tables_ok t → areas t !! k = Some id → ∃ t',
  ok_run (delete_empty_area id) t () t' ∧ tables_ok t' ∧ (∀ k', is_Some (areas t' !! k') → is_Some (areas t !! k')) ∧
  (is_Some (areas t' !! k) → is_Some (tables_view t' !! k)) ∧ ∀ k', tables_view t' !! k' = tables_view t !! k'.
Proof.
  intros H Hk. eexists. split; [apply ok_sql |]. simpl. case_decide as He.
  2: { split_and!; [done | done | | done]. intros _. rewrite lookup_tables_view, Hk. simpl. unfold nonempty.
       rewrite decide_False; [by eexists |]. rewrite urows_empty_iff; [done |]. by apply rows_of_ok. }
  split_and!.
  - destruct H. split; simpl.
    + intros k1 k2 i [? _]%map_lookup_filter_Some [? _]%map_lookup_filter_Some. eauto.
    + intros i r [Hne Hi]%lookup_delete_Some. destruct (tables_foreign0 i r Hi) as [k1 Hk1]. exists k1.
      apply map_lookup_filter_Some. split; [done |]. simpl. congruence.
    + intros i r [_ ?]%lookup_delete_Some. eauto.
  - simpl. intros k' [i [? _]%map_lookup_filter_Some]. eauto.
  - simpl. intros [i [Hi Hne]%map_lookup_filter_Some]. rewrite Hk in Hi. by injection Hi as <-.
  - intros k'. rewrite !lookup_tables_view. simpl. destruct (areas t !! k') as [i|] eqn:E.
    + destruct (decide (i = id)) as [->|Hne].
      * rewrite (map_lookup_filter_None_2 _ _ k'); [| right; intros x Hx; rewrite E in Hx; by injection Hx as <-; intros ?].
        simpl. by rewrite He, urows_empty.
      * rewrite (map_lookup_filter_Some_2 _ _ k' i) by done. simpl. unfold rows_of. simpl. by rewrite lookup_delete_ne.
    + by rewrite (map_lookup_filter_None_2 _ _ k') by (by left).
Qed.

(** No area without rows, between transactions. *)
Definition tables_full (t : Tables) : Prop := ∀ k, is_Some (areas t !! k) → is_Some (tables_view t !! k).

Lemma write_delta_run t k d : tables_ok t → tables_full t → changes_ok (changes d) → ∃ t',
  ok_run (write_delta next_rowid (k, d)) t () t' ∧ tables_ok t' ∧ tables_full t' ∧ ∀ k', tables_view t' !! k' =
    if decide (k' = k) then nonempty (delta_apply d (default ∅ (tables_view t !! k))) else tables_view t !! k'.
Proof using next_rowid_fresh.
  intros H Hfull Hc. set (base := if delta_clear d then ∅ else default ∅ (tables_view t !! k)).
  assert (H1 : ∃ t1, ok_run (if delta_clear d then delete_area k else mret ()) t () t1 ∧ tables_ok t1 ∧
    (∀ k', is_Some (areas t1 !! k') → (delta_clear d = true → k' ≠ k) ∧ is_Some (areas t !! k')) ∧ ∀ k', tables_view t1 !! k' = if decide (k' = k) then nonempty base else tables_view t !! k').
  { unfold base. destruct (delta_clear d).
    - destruct (delete_area_run t k H) as (t1 & ? & ? & Ha & Hv). exists t1. split_and!; [done | done | | done].
      intros k' [? ?]%Ha. done.
    - exists t. split_and!; [apply ok_ret | done | done |]. intros k'. case_decide as Hd; [subst |done]. rewrite lookup_tables_view.
      destruct (areas t !! k); [| done]. simpl. by rewrite default_nonempty. }
  destruct H1 as (t1 & Hr1 & Ht1 & Ha1 & Hv1). unfold write_delta. simpl. case_decide as He.
  - exists t1. split_and!; [by eapply ok_bind; [exact Hr1 | apply ok_ret] | done | |].
    { intros k' [Hcl Hk']%Ha1. rewrite Hv1. case_decide as Hd; [| by apply Hfull]. subst k'. unfold base.
      destruct (delta_clear d); [by destruct (Hcl eq_refl) |]. destruct (Hfull k Hk') as [m Hm]. rewrite Hm. simpl.
      rewrite lookup_tables_view in Hm. destruct (areas t !! k); [| done]. simpl in Hm. unfold nonempty in *.
      case_decide; [done |]. injection Hm as <-. rewrite decide_False by done. by eexists. }
    intros k'. rewrite Hv1. unfold delta_apply. by rewrite He, apply_changes_empty.
  - destruct (write_area_run t1 k Ht1) as (id & t2 & Hr2 & Ht2 & Hk2 & Ha2 & Hv2).
    destruct (write_changes_run (changes_list (changes d)) t2 id k Ht2 Hk2) as (t3 & Hr3 & Ht3 & Ha3 & Hu3 & Hi3).
    { apply Forall_forall. intros [u c] Hin. apply Hc. rewrite <-(changes_list_map (changes d)).
      apply elem_of_list_to_map; [apply changes_list_NoDup | done]. }
    rewrite <-Ha3 in Hk2. destruct (delete_empty_area_run t3 k id Ht3 Hk2) as (t4 & Hr4 & Ht4 & Ha4 & Hf4 & Hv4).
    assert (Hoth : ∀ k', k' ≠ k → tables_view t4 !! k' = tables_view t !! k').
    { intros k' Hd. rewrite Hv4, lookup_tables_view, Ha3.
      specialize (Hv2 k'). rewrite Hv1, decide_False in Hv2 by done. rewrite <-Hv2, lookup_tables_view.
      destruct (areas t2 !! k') as [i|] eqn:Ei; [| done]. simpl. rewrite Hi3; [done |]. intros ->.
      apply Hd. rewrite Ha3 in Hk2. by eapply (tables_unique t2 Ht2). }
    exists t4. split_and!; [eapply ok_bind; [done |]; eapply ok_bind; [done |]; by eapply ok_bind | done | |].
    { intros k' Hk'. destruct (decide (k' = k)) as [->|Hne]; [by apply Hf4 |]. rewrite Hoth by done.
      apply Hfull, Ha1. rewrite <-Ha2, <-Ha3 by done. by apply Ha4. }
    rewrite Ha3 in Hk2. intros k'. case_decide as Hd; [| by apply Hoth]. 
    subst k'. rewrite Hv4, lookup_tables_view, Ha3, Hk2. simpl. rewrite Hu3, foldl_changes, changes_list_map by apply changes_list_NoDup.
      unfold delta_apply. fold base. do 2 f_equal. specialize (Hv2 k). rewrite Hv1, decide_True in Hv2 by done.
      rewrite lookup_tables_view, Hk2 in Hv2. simpl in Hv2. rewrite <-(default_nonempty (urows _)), Hv2.
      apply default_nonempty.
Qed.

Lemma write_deltas_run l t : tables_ok t → tables_full t → NoDup l.*1 → Forall (λ kd, changes_ok (changes kd.2)) l →
  ∃ t', ok_run (for_each (write_delta next_rowid) l) t () t' ∧ tables_ok t' ∧ tables_full t' ∧ tables_view t' = storage_apply (list_to_map l) (tables_view t).
Proof using next_rowid_fresh.
  revert t. induction l as [|[k d] l IH]; intros t Ht Hf.
  - intros _ _. exists t. split_and!; [apply ok_ret | done | done |]. apply map_eq. intros k. by rewrite lookup_storage_apply.
  - simpl. intros [Hni Hn]%NoDup_cons [Hc Hl]%Forall_cons. destruct (write_delta_run t k d Ht Hf Hc) as (t1 & Hr1 & Ht1 & Hf1 & Hv1).
    destruct (IH t1 Ht1 Hf1 Hn Hl) as (t2 & Hr2 & Ht2 & Hf2 & Hv2). exists t2. split_and!; [by eapply ok_bind | done | done |].
    rewrite Hv2. apply map_eq. intros k'. rewrite !lookup_storage_apply, Hv1.
    apply not_elem_of_list_to_map_1 in Hni. destruct (decide (k' = k)) as [->|Hne].
    + by rewrite Hni, lookup_insert_eq.
    + by rewrite lookup_insert_ne.
Qed.

(** *** The promises of a batch, discharged *)
Definition db_ok (db : Database) : Prop :=
  application_id db = APPLICATION_ID ∧ user_version db = SCHEMA_VERSION ∧ ∃ t, schema db = Some t ∧ tables_ok t ∧ tables_full t.
Definition db_file_ok (db : Database) : Prop :=
  db_ok db ∨ (application_id db = 0 ∧ user_version db = 0 ∧ schema db = None ∧ other_tables db = false).
Definition db_view (db : Database) : View := match schema db with Some t => tables_view t | None => ∅ end.

Lemma batch_list_NoDup b : NoDup (batch_list b).*1.
Proof. unfold batch_list. rewrite merge_sort_Permutation. apply NoDup_fst_map_to_list. Qed.

Lemma batch_list_map b : list_to_map (batch_list b) = b.
Proof.
  rewrite <-(list_to_map_to_list b) at 2. apply list_to_map_proper; [apply batch_list_NoDup |].
  unfold batch_list. apply merge_sort_Permutation.
Qed.

Lemma write_run b db a : db_ok db → storage_batch_ok b → no_faults a →
  ∃ db', write next_rowid b db a = (None, db') ∧ db_ok db' ∧ db_view db' = storage_apply b (db_view db).
Proof using next_rowid_fresh.
  intros (Ha & Hv & t & Ht & Hok & Hfull) Hb Hf.
  destruct (write_deltas_run (batch_list b) t Hok Hfull (batch_list_NoDup b)) as (t' & Hr & Hok' & Hfull' & Hview).
  { apply Forall_forall. intros [k d] Hin. apply (Hb k). rewrite <-(batch_list_map b).
    apply elem_of_list_to_map; [apply batch_list_NoDup | done]. }
  unfold write, transaction. rewrite Ht.
  assert (Hrun : ok_run (sql (λ t, ((), t)) ≫= λ _, for_each (write_delta next_rowid) (batch_list b) ≫= λ x, sql (λ t, (x, t))) t () t').
  { eapply ok_bind; [apply (ok_sql (λ t, ((), t))) |]. eapply ok_bind; [exact Hr | apply (ok_sql (λ t, ((), t)))]. }
  destruct (Hrun a Hf) as (a' & _ & ->). eexists. split; [done |]. split.
  - by split_and!; [done | done | exists t'].
  - unfold db_view. simpl. by rewrite Ht, Hview, batch_list_map.
Qed.

Lemma initialize_run db a : db_file_ok db → no_faults a →
  ∃ db', initialize db a = inr db' ∧ db_ok db' ∧ db_view db' = db_view db.
Proof.
  intros Hdb Ha. unfold initialize.
  assert (Hn : match a with Some _ :: _ => False | _ => True end) by (by destruct Ha as [|? ? ->]).
  assert (Hgo : ∃ db', (if (application_id db =? 0) && (user_version db =? 0) then
        if other_tables db || bool_decide (is_Some (schema db)) then inl (lit "unidentified localStorage database")
        else inr (mk_db APPLICATION_ID SCHEMA_VERSION (Some (mk_tables ∅ ∅)) (other_tables db))
      else if negb ((application_id db =? APPLICATION_ID) && (user_version db =? SCHEMA_VERSION)) then
        inl (lit "unsupported localStorage database identity/version")
      else match schema db with None => inl (lit "no such table") | Some _ => inr db end) = inr db' ∧ db_ok db' ∧ db_view db' = db_view db).
  { destruct Hdb as [(Hi & Hv & t & Ht & Hok & Hfull)|(Hi & Hv & Hs & Ho)]; rewrite Hi, Hv; simpl.
    - rewrite Ht. exists db. split_and!; [done | | done]. by split_and!; [.. | exists t].
    - rewrite Hs, Ho. simpl. eexists. split; [done |]. split.
      + split_and!; [done.. |]. eexists. split; [done |]. split; [split; simpl | intros k [id Hk]; simpl in Hk; by rewrite lookup_empty in Hk].
        * intros k k' id Hk. by rewrite lookup_empty in Hk.
        * intros id rows Hk. by rewrite lookup_empty in Hk.
        * intros id rows Hk. by rewrite lookup_empty in Hk.
      + unfold db_view. simpl. rewrite Hs. unfold tables_view. simpl. apply omap_empty. }
  destruct a as [|[e|] a]; [exact Hgo | done | exact Hgo].
Qed.

Lemma storage_batch_empty : WriteBatchEmpty (storage_batch next_rowid).
Proof.
  split; [done |]. intros b n. simpl. rewrite !bool_decide_eq_false. intros Hn Hu. apply Hn. apply map_empty. intros k.
  apply (f_equal (lookup k)) in Hu. unfold batch_merge_newer in Hu. rewrite lookup_union_with, lookup_empty in Hu.
  by destruct (b !! k), (n !! k).
Qed.

Definition storage_durable : DurableBatch View (storage_batch next_rowid) storage_query initialize.
Proof using next_rowid_fresh.
  refine {| conn_view := db_view; batch_apply := storage_apply; file_ok := db_file_ok; conn_ok := db_ok;
            batch_ok := storage_batch_ok; fine := no_faults |}.
  - intros k d Hd. simpl in Hd. by rewrite lookup_empty in Hd.
  - intros b n Hb Hn k d. simpl. unfold batch_merge_newer. rewrite lookup_union_with.
    destruct (b !! k) as [p|] eqn:Ep, (n !! k) as [x|] eqn:Ex; intros [= <-]; eauto.
    unfold merge_delta. destruct (delta_clear x); [by eapply Hn |]. simpl. intros u c [?|[_ ?]]%lookup_union_Some_raw.
    + by eapply (Hn k x).
    + by eapply (Hb k p).
  - intros b v ->%bool_decide_eq_true. apply map_eq. intros k. by rewrite lookup_storage_apply, lookup_empty.
  - intros b n v. apply storage_apply_merge.
  - intros b c a. apply write_run.
  - intros q c a r c' Hc Hq. unfold storage_query in Hq. by injection Hq as _ <-.
  - intros c a. apply initialize_run.
Defined.
End writing.

(** ** Reading *)
Lemma read_area_run db k a : db_ok db → no_faults a →
  ∃ area, on_tables (read_area k) db a = inr area ∧ values area = default ∅ (db_view db !! k) ∧
    size area = storage_area_size (values area).
Proof.
  intros (_ & _ & t & Ht & Hok & _) Ha. unfold on_tables, db_view. rewrite Ht, lookup_tables_view. unfold read_area.
  destruct (areas t !! k) as [id|] eqn:E.
  - assert (Hrun : ok_run (read_area k) t (mk_area (urows (rows_of t id)) (storage_area_size (urows (rows_of t id)))) t).
    { unfold read_area. eapply ok_bind; [apply (ok_sql (λ t, (areas t !! k, t))) |]. simpl. rewrite E.
      eapply ok_bind; [apply (ok_sql (λ t, (map_to_list (rows_of t id), t))) |]. simpl.
      rewrite decode_rows_urows by (by apply rows_of_ok). apply ok_ret. }
    destruct (Hrun a Ha) as (a' & _ & Hr). unfold read_area in Hr. rewrite Hr. eexists. split; [done |]. simpl.
    by rewrite default_nonempty.
  - assert (Hrun : ok_run (read_area k) t area_default t).
    { unfold read_area. eapply ok_bind; [apply (ok_sql (λ t, (areas t !! k, t))) |]. simpl. rewrite E. apply ok_ret. }
    destruct (Hrun a Ha) as (a' & _ & Hr). unfold read_area in Hr. rewrite Hr. eexists. split; [done |]. done.
Qed.

(** *** The range of an origin *)
(** Between a prefix that ends in [c] and the same with the next character
    are exactly the texts with that prefix. *)
Lemma prefix_range p c d k : N_of_ascii d = N_of_ascii c + 1 →
  (text_le (p ++ [c]) k = true ∧ text_le (p ++ [d]) k = false) ↔ p ++ [c] `prefix_of` k.
Proof.
  intros Hd. revert k. induction p as [|x p IH]; intros k; simpl.
  - destruct k as [|y k]; simpl.
    + split; [by intros [? _] | intros [? ?]; done].
    + rewrite !andb_true_r. split.
      * intros [H1 H2]. rewrite orb_true_iff, N.ltb_lt, N.eqb_eq in H1. rewrite orb_false_iff, N.ltb_ge, N.eqb_neq in H2.
        assert (Hy : N_of_ascii y = N_of_ascii c) by lia. apply (f_equal ascii_of_N) in Hy.
        rewrite !ascii_N_embedding in Hy. subst y. by exists k.
      * intros [k' [= -> ->]]. rewrite N.ltb_irrefl, N.eqb_refl. split; [done |].
        rewrite orb_false_iff, N.ltb_ge, N.eqb_neq. lia.
  - destruct k as [|y k]; simpl.
    + split; [by intros [? _] | intros [? ?]; done].
    + destruct (N.ltb_spec (N_of_ascii x) (N_of_ascii y)) as [Hlt|Hge]; simpl.
      * split; [by intros [_ ?] |]. intros [k' [= -> _]]. lia.
      * destruct (N.eqb_spec (N_of_ascii x) (N_of_ascii y)) as [He|He]; simpl.
        -- apply (f_equal ascii_of_N) in He. rewrite !ascii_N_embedding in He. subst y. rewrite IH.
           split; intros [k' Hk']; exists k'; [by rewrite Hk' | by injection Hk'].
        -- split; [by intros [? _] |]. intros [k' [= -> _]]. done.
Qed.

Lemma origin_range_exact origin k : let '(prefix, upper) := origin_prefix_range origin in
  (text_le prefix k = true ∧ text_le upper k = false) ↔ storage_key_prefix_for_origin origin `prefix_of` k.
Proof.
  unfold origin_prefix_range.
  assert (Hp : storage_key_prefix_for_origin origin =
    (STORAGE_KEY_SERIALIZATION_PREFIX ++ origin ++ lit ";top-level-site") ++ ["="%char]).
  { unfold storage_key_prefix_for_origin. by rewrite <-!app_assoc. }
  rewrite Hp, removelast_last. by apply prefix_range.
Qed.

Definition of_origin (origin key : text) : Prop := key = origin ∨ storage_key_prefix_for_origin origin `prefix_of` key.


Lemma origin_keys_run db o a : db_ok db → no_faults a →
  ∃ keys, on_tables (select_origin_keys o) db a = inr keys ∧ NoDup keys ∧
    ∀ k, k ∈ keys ↔ of_origin o k ∧ is_Some (db_view db !! k).
Proof.
  intros (_ & _ & t & Ht & Hok & Hfull) Ha. pose proof (origin_range_exact o) as Hrange.
  unfold on_tables, select_origin_keys, db_view. rewrite Ht. destruct (origin_prefix_range o) as [prefix upper].
  set (f := λ t : Tables, (filter (λ k, k = o ∨ (text_le prefix k ∧ negb (text_le upper k))) (map_to_list (areas t)).*1, t)).
  destruct (ok_sql f t a Ha) as (a' & _ & ->). eexists. split; [done |]. unfold f. simpl. split.
  - apply NoDup_filter, NoDup_fst_map_to_list.
  - intros k. rewrite list_elem_of_filter. unfold of_origin. rewrite <-Hrange.
    assert (Hin : k ∈ (map_to_list (areas t)).*1 ↔ is_Some (tables_view t !! k)).
    { rewrite list_elem_of_fmap. split.
      - intros ([k' id] & -> & Hin%elem_of_map_to_list). simpl. apply Hfull. by rewrite Hin.
      - rewrite lookup_tables_view. destruct (areas t !! k) as [id|] eqn:E; [| by intros [? ?]]. intros _.
        exists (k, id). split; [done |]. by apply elem_of_map_to_list. }
    rewrite Hin. destruct (text_le prefix k), (text_le upper k); simpl; naive_solver.
Qed.

(** ** Coalescing *)
(** C38: Coalescing changes is invisible on disk.  On a sound database and with
    an engine that does not fail, writing a batch into which a newer one was
    merged leaves the same areas and items as writing the two one after the
    other, and a write that fails leaves the database as it was. *)
Theorem merged_write_is_sequential (next_rowid : gset N → N) (next_rowid_fresh : ∀ X, next_rowid X ∉ X) older newer db a :
  db_ok db → storage_batch_ok older → storage_batch_ok newer → no_faults a →
  (∃ db1 db2 db3, write next_rowid older db a = (None, db1) ∧ write next_rowid newer db1 a = (None, db2) ∧
     write next_rowid (batch_merge_newer older newer) db a = (None, db3) ∧ db_ok db3 ∧ db_view db3 = db_view db2) ∧
  ∀ b a' e db', write next_rowid b db a' = (Some e, db') → db' = db.
Proof.
  intros Hdb Ho Hn Ha. split.
  - destruct (write_run next_rowid next_rowid_fresh older db a Hdb Ho Ha) as (db1 & H1 & Hok1 & Hv1).
    destruct (write_run next_rowid next_rowid_fresh newer db1 a Hok1 Hn Ha) as (db2 & H2 & _ & Hv2).
    pose proof (merge_ok (DurableBatch := storage_durable next_rowid next_rowid_fresh) older newer Ho Hn) as Hm.
    destruct (write_run next_rowid next_rowid_fresh _ db a Hdb Hm Ha) as (db3 & H3 & Hok3 & Hv3).
    exists db1, db2, db3. split_and!; try done. simpl in Hv3. by rewrite Hv3, Hv2, Hv1, storage_apply_merge.
  - intros b a' e db'. unfold write, transaction. destruct (schema db) as [t|]; [| by intros [= _ <-]].
    destruct ((sql _ ≫= _) t a') as [[e'|x] [t' a'']]; [by intros [= _ <-] | done].
Qed.

Lemma merged_write_is_sequential_witness :
  let older := {[lit "https://a.test" := mk_delta false {[ [1] := Put [2] ]} 0]} in
  let newer := {[lit "https://a.test" := mk_delta true {[ [1] := Put [3] ]} 0]} in
  let db := mk_db APPLICATION_ID SCHEMA_VERSION (Some (mk_tables ∅ ∅)) false in
  ∃ db3, write fresh (batch_merge_newer older newer) db [] = (None, db3) ∧ db_ok db3.
Proof.
  intros older newer db.
  assert (Hone : ∀ b : bool, ∀ v : N, v < 65536 → storage_batch_ok {[lit "https://a.test" := mk_delta b {[ [1] := Put [v] ]} 0]}).
  { intros b v Hv k d Hd. apply lookup_singleton_Some in Hd as [_ <-]. intros u x Hx. simpl in Hx.
    apply lookup_singleton_Some in Hx as [<- <-]. split; simpl; repeat constructor; exact Hv. }
  destruct (merged_write_is_sequential fresh (λ X, is_fresh X) older newer db []) as [(db1 & db2 & db3 & _ & _ & H3 & Hok & _) _].
  - split; [reflexivity | split; [reflexivity |]]. eexists. split; [reflexivity |]. split.
    + split; simpl; intros ? ?; intros; exfalso;
        match goal with H : ∅ !! _ = Some _ |- _ => rewrite lookup_empty in H; discriminate H end.
    + intros k [x Hx]. simpl in Hx. rewrite lookup_empty in Hx. discriminate Hx.
  - apply Hone. reflexivity.
  - apply Hone. reflexivity.
  - constructor.
  - exists db3. split; [exact H3 | exact Hok].
Defined.
