(* ===== verification/WebStorageSqlite.v ===== *)
(** * Web storage on SQLite: the cached back end (moli-web-storage/src/sqlite.rs)

    [SqliteBackend]: area objects shared through weak references, loaded from
    the database on first use, edited in memory and written back in batches
    that pin them.  A call that must load an area posts a query and waits,
    holding the area's lock and the namespace for reading; clearing an origin
    holds the namespace for writing.  Threads are the entries of [waiting];
    everything between taking a lock and waiting or returning is one step, and
    a call that would wait for a lock is not enabled.  (In the source it then
    already holds the area object, as a lease does here.)

    Area objects live in [heap]; an object is alive while a lease, a waiting
    call or a batch refers to it.  Subscriptions are those of the store in
    memory ([WebStorage]), taken, drained and dropped at any point. *)
From Stdlib Require Import Ascii String.
From S2P Require Import Prelude Text Utf8 StorageKey WebStorage Writeback WebStorageDb.

#[local] Open Scope N_scope.

(** ** Calls *)
Inductive EditOp := OpSet (key value : units) | OpRemove (key : units) | OpClear.
Definition edit_fn (origin : text) (op : EditOp) : EditFn (option WebStorageMutation) :=
  match op with
  | OpSet key value => set_change origin key value
  | OpRemove key => remove_change origin key
  | OpClear => clear_change origin
  end.

Inductive ReadOp := OpGet (key : units) | OpKey (index : nat) | OpItems | OpLen | OpContains (key : units) | OpSortedKeys.
Inductive ReadAnswer :=
  | AnItem (o : option units) | SomeItems (l : list (units * units)) | ALength (n : nat) | AFlag (b : bool)
  | SortedKeys (l : list units).
Definition read_fn (op : ReadOp) : ReadFn ReadAnswer := λ area,
  match op with
  | OpGet key => AnItem (get_item_read key area)
  | OpKey index => AnItem (key_read index area)
  | OpItems => SomeItems (items_read area)
  | OpLen => ALength (len_read area)
  | OpContains key => AFlag (contains_key_read key area)
  | OpSortedKeys => SortedKeys (sorted_keys_read area)
  end.

(** A call that waits for its query, with the areas it holds. *)
Inductive Waiting :=
  | WRead (origin : text) (area : nat) (op : ReadOp)
  | WEdit (origin : text) (area : nat) (op : EditOp)
  | WClear (origin : text) (areas : gmap text nat).

Inductive Outcome :=
  | ORead (r : result ReadAnswer)
  | OEdit (r : result (option WebStorageMutation))
  | OClear (r : result bool)
  | Blocked (id : nat)
  | OSubscription (q : nat)
  | ODrained (records : list WebStorageMutationRecord)
  | ODone.

Section sqlite.
Context (next_rowid : gset N → N) (policy : WritebackPolicy).
Context (close_connection : Database → Answers → option WritebackError).
#[local] Instance batches : WriteBatch (gmap text AreaDelta) Database Answers := storage_batch next_rowid.

Notation Batch := (gmap text AreaDelta).
Notation Client := (@Writeback Batch Database StorageQuery StorageAnswer).

(** ** State *)
Record SqliteStore := mk_sqlite {
  client : Client;
  heap : list (option MemoryWebStorageArea);
  cache : gmap text nat;
  insertions : N;
  leases : list nat;
  waiting : gmap nat Waiting;
  shub : Hub }.

Definition new_lazy_sqlite_web_storage_store (file : Database) : SqliteStore :=
  mk_sqlite (deferred file) [] ∅ 0 [] ∅ hub_new.

Definition set_client (s : SqliteStore) (c : Client) : SqliteStore :=
  mk_sqlite c (heap s) (cache s) (insertions s) (leases s) (waiting s) (shub s).
Definition set_state (s : SqliteStore) (area : nat) (data : MemoryWebStorageArea) : SqliteStore :=
  mk_sqlite (client s) (<[area := Some data]> (heap s)) (cache s) (insertions s) (leases s) (waiting s) (shub s).
Definition set_waiting (s : SqliteStore) (w : gmap nat Waiting) : SqliteStore :=
  mk_sqlite (client s) (heap s) (cache s) (insertions s) (leases s) w (shub s).
Definition set_leases (s : SqliteStore) (l : list nat) : SqliteStore :=
  mk_sqlite (client s) (heap s) (cache s) (insertions s) l (waiting s) (shub s).
Definition set_hub (s : SqliteStore) (h : Hub) : SqliteStore :=
  mk_sqlite (client s) (heap s) (cache s) (insertions s) (leases s) (waiting s) h.

(** ** Strong references *)
Definition waiting_areas (w : Waiting) : list nat :=
  match w with WRead _ area _ | WEdit _ area _ => [area] | WClear _ areas => (map_to_list areas).*2 end.
Definition pins (b : Batch) : list nat := pin <$> (map_to_list b).*2.
Definition strong (s : SqliteStore) : list nat :=
  leases s ++ ((map_to_list (waiting s)).*2 ≫= waiting_areas)
  ++ pins (batch (pending (client s))) ++ pins (inflight (worker (client s))).

(** [SqliteBackend::area]; [held] are references of the call itself. *)
Definition area (s : SqliteStore) (held : list nat) (origin : text) : nat * SqliteStore :=
  match cache s !! origin with
  | Some id => if decide (id ∈ held ++ strong s) then (id, s) else
      let '(c, n) := if 64 <=? insertions s + 1
                     then (filter (λ p, p.2 ∈ held ++ strong s) (cache s), 0) else (cache s, insertions s + 1) in
      (length (heap s), mk_sqlite (client s) (heap s ++ [None]) (<[origin := length (heap s)]> c) n (leases s) (waiting s) (shub s))
  | None =>
      let '(c, n) := if 64 <=? insertions s + 1
                     then (filter (λ p, p.2 ∈ held ++ strong s) (cache s), 0) else (cache s, insertions s + 1) in
      (length (heap s), mk_sqlite (client s) (heap s ++ [None]) (<[origin := length (heap s)]> c) n (leases s) (waiting s) (shub s))
  end.

Definition live_areas_for_origin (s : SqliteStore) (origin : text) : gmap text nat :=
  filter (λ p, (p.1 = origin ∨ storage_key_prefix_for_origin origin `prefix_of` p.1) ∧ p.2 ∈ strong s) (cache s).

(** ** Locks *)
Definition is_clear (w : Waiting) : bool := match w with WClear _ _ => true | _ => false end.
Definition clearing (s : SqliteStore) : bool := existsb is_clear (map_to_list (waiting s)).*2.
Definition locked (s : SqliteStore) (id : nat) : bool :=
  existsb (λ w, negb (is_clear w) && bool_decide (id ∈ waiting_areas w)) (map_to_list (waiting s)).*2.
Definition may_begin (s : SqliteStore) (origin : text) : bool :=
  negb (clearing s) && match cache s !! origin with Some id => negb (locked s id) | None => true end.

(** ** The delta of a mutation *)
Definition delta_of (m : WebStorageMutation) (area : nat) : AreaDelta :=
  match m with
  | ItemAdded _ key value => mk_delta false {[key := Put value]} area
  | ItemUpdated _ key _ new_value => mk_delta false {[key := Put new_value]} area
  | ItemRemoved _ key _ => mk_delta false {[key := Delete]} area
  | ItemsCleared _ => mk_delta true ∅ area
  end.

(** [edit_unfenced] once the area is loaded: the closure runs under the gate
    of [accept], which refuses it when the store is closed. *)
Definition edit_loaded (s : SqliteStore) (now : N) (origin : text) (id : nat) (op : EditOp) (data : MemoryWebStorageArea)
    : run (Outcome * SqliteStore) :=
  if closed (pending (client s)) then Ret (OEdit (inl (Persistence (lit "database is closed"))), s)
  else
    '(r, data') ← edit_fn origin op data;
    let mutation := match r with
                    | inl e => inl e
                    | inr ed => inr (ed, match edit_mutation ed with
                                         | Some m => {[origin := delta_of m id]}
                                         | None => ∅
                                         end)
                    end in
    let '(res, c) := accept Persistence (client s) now mutation in
    let s := set_client (set_state s id data') c in
    match res with
    | inl e => Ret (OEdit (inl e), s)
    | inr ed => Ret (OEdit (inr (edit_result ed)), set_hub s (publish_edit (shub s) ed))
    end.

(** [load]: the closed gate, the loaded state, or a query. *)
Definition start_query (s : SqliteStore) (q : StorageQuery) (w : Waiting) (fail : WebStorageMutationError → Outcome)
    : run (Outcome * SqliteStore) :=
  match query (client s) false q with
  | (inl e, c) => Ret (fail (Persistence e), set_client s c)
  | (inr id, c) => Ret (Blocked id, set_waiting (set_client s c) (<[id := w]> (waiting s)))
  end.

Definition begin_read (s : SqliteStore) (origin : text) (op : ReadOp) : run (Outcome * SqliteStore) :=
  let '(id, s) := area s [] origin in
  match ensure_open (client s) with
  | Some e => Ret (ORead (inl (Persistence e)), s)
  | None =>
      match heap s !! id with
      | Some (Some data) => Ret (ORead (inr (read_fn op (Some data))), s)
      | _ => start_query s (ReadArea origin) (WRead origin id op) (λ e, ORead (inl e))
      end
  end.

Definition begin_edit (s : SqliteStore) (now : N) (origin : text) (op : EditOp) : run (Outcome * SqliteStore) :=
  let '(id, s) := area s [] origin in
  match ensure_open (client s) with
  | Some e => Ret (OEdit (inl (Persistence e)), s)
  | None =>
      match heap s !! id with
      | Some (Some data) => edit_loaded s now origin id op data
      | _ => start_query s (ReadArea origin) (WEdit origin id op) (λ e, OEdit (inl e))
      end
  end.

(** ** Clearing an origin *)
Definition begin_clear (s : SqliteStore) (origin : text) : run (Outcome * SqliteStore) :=
  start_query s (OriginKeys origin) (WClear origin (live_areas_for_origin s origin)) (λ e, OClear (inl e)).

(** [areas.entry(key).or_insert_with(|| self.area(key))] for every stored key. *)
Fixpoint add_areas (s : SqliteStore) (m : gmap text nat) (keys : list text) : gmap text nat * SqliteStore :=
  match keys with
  | [] => (m, s)
  | k :: keys =>
      match m !! k with
      | Some _ => add_areas s m keys
      | None => let '(id, s) := area s (map_to_list m).*2 k in add_areas s (<[k := id]> m) keys
      end
  end.

(** The loop of the accepted closure over the areas in key order. *)
Fixpoint clear_loop (h : list (option MemoryWebStorageArea)) (stored : list text) (l : list (text * nat))
    : list (option MemoryWebStorageArea) * Batch * list WebStorageMutation :=
  match l with
  | [] => (h, ∅, [])
  | (k, id) :: l =>
      let nonempty := match h !! id with
                      | Some (Some data) => bool_decide (values data ≠ ∅)
                      | _ => bool_decide (k ∈ stored)
                      end in
      if nonempty then
        let '(h, b, ms) := clear_loop (<[id := Some area_default]> h) stored l in
        (h, <[k := mk_delta true ∅ id]> b, ItemsCleared k :: ms)
      else clear_loop h stored l
  end.

Definition areas_list (m : gmap text nat) : list (text * nat) :=
  merge_sort (λ p q : text * nat, text_le p.1 q.1) (map_to_list m).
Definition keys_list (keys : list text) : list text := merge_sort (λ a b : text, text_le a b) keys.

Definition clear_found (s : SqliteStore) (now : N) (m : gmap text nat) (stored : list text) : Outcome * SqliteStore :=
  let '(m, s) := add_areas s m (keys_list stored) in
  if closed (pending (client s)) then (OClear (inl (Persistence (lit "database is closed"))), s)
  else
    let '(h, b, ms) := clear_loop (heap s) stored (areas_list m) in
    let c := (record (client s) now b).2 in
    let s := mk_sqlite c h (cache s) (insertions s) (leases s) (waiting s) (shub s) in
    (OClear (inr (bool_decide (ms ≠ []))), set_hub s (publish_all (shub s) ms)).

(** ** The reply arrives *)
Definition failed (w : Waiting) (e : WritebackError) : Outcome :=
  match w with
  | WRead _ _ _ => ORead (inl (Persistence e))
  | WEdit _ _ _ => OEdit (inl (Persistence e))
  | WClear _ _ => OClear (inl (Persistence e))
  end.

Definition resume (s : SqliteStore) (now : N) (w : Waiting) (r : WritebackError + @Reply StorageAnswer)
    : run (Outcome * SqliteStore) :=
  match r with
  | inl e => Ret (failed w e, s)
  | inr (RQuery (inl e)) => Ret (failed w e, s)
  | inr (RQuery (inr answer)) =>
      match w, answer with
      | WRead _ id op, AnArea data => Ret (ORead (inr (read_fn op (Some data))), set_state s id data)
      | WEdit origin id op, AnArea data => edit_loaded (set_state s id data) now origin id op data
      | WClear _ m, SomeKeys keys => Ret (clear_found s now m keys)
      | _, _ => Panic
      end
  | inr (RFlush _) => Panic
  end.

(** ** Steps *)
Inductive SLabel :=
  | SRead (origin : text) (op : ReadOp)
  | SEdit (now : N) (origin : text) (op : EditOp)
  | SClear (origin : text)
  | SResume (now : N) (id : nat)
  | SLease (origin : text)
  | SDropLease (i : nat)
  | SFlush
  | SFlushed (id : nat)
  | SClose
  | SSubscribe (kind : WebStorageAreaKind)
  | SAddSubscription (kind : WebStorageAreaKind) (q : nat)
  | SDrain (q : nat)
  | SDropSubscription (q : nat)
  | SWorker (ev : @Event Answers).

Notation worker_step := (worker_step storage_query initialize close_connection policy).

(** [lease_area] *)
Definition lease_area (s : SqliteStore) (origin : text) : SqliteStore :=
  match ensure_open (client s) with
  | Some _ => s
  | None => let '(id, s) := area s [] origin in set_leases s (leases s ++ [id])
  end.

Definition sstep (s : SqliteStore) (l : SLabel) : option (run (Outcome * SqliteStore)) :=
  let plain s := Some (Ret (ODone, s)) in
  match l with
  | SRead origin op => if may_begin s origin then Some (begin_read s origin op) else None
  | SEdit now origin op => if may_begin s origin then Some (begin_edit s now origin op) else None
  | SClear origin => if decide (waiting s = ∅) then Some (begin_clear s origin) else None
  | SResume now id =>
      match waiting s !! id with
      | None => None
      | Some w => match recv (client s) id with
                  | Some (r, c) =>
                      Some (run_fmap _ _ (λ p : Outcome * SqliteStore, (p.1, set_waiting p.2 (delete id (waiting p.2))))
                              (resume (set_client s c) now w r))
                  | None => None
                  end
      end
  | SLease origin => plain (lease_area s origin)
  | SDropLease i => plain (set_leases s (delete i (leases s)))
  | SFlush => plain (set_client s (flush (client s) false).2)
  | SFlushed id =>
      match waiting s !! id with
      | Some _ => None
      | None => match recv (client s) id with Some (_, c) => plain (set_client s c) | None => None end
      end
  | SClose => plain (set_client s (close_request (client s) false).2)
  | SSubscribe kind =>
      let '(h, q) := subscribe_mutations (shub s) kind in Some (Ret (OSubscription q, set_hub s h))
  | SAddSubscription kind q =>
      if decide (is_Some (upgrade (shub s) q)) then plain (set_hub s (add_mutation_subscription (shub s) kind q))
      else None
  | SDrain q => let '(h, records) := drain (shub s) q in Some (Ret (ODrained records, set_hub s h))
  | SDropSubscription q => plain (set_hub s (drop_subscription (shub s) q))
  | SWorker ev => match worker_step (client s) ev with Some c => plain (set_client s c) | None => None end
  end.
End sqlite.
