(* ===== verification/WebStorageRefinement.v ===== *)
(** * Web storage on SQLite refines its contents

    What a client of the cached back end ([WebStorageSqlite]) can observe, over
    every interleaving of calls, leases, replies and moves of the writer, with
    an engine that does not fail: one map from area keys to items, read and
    edited atomically, and a queue of its changes for every subscription.
    Caching, weak references, batches and the order in
    which queries are answered do not show. *)
From Stdlib Require Import Ascii String.
From S2P Require Import Prelude Text Utf8 StorageKey WebStorage Writeback WebStorageDb WebStorageSqlite.

#[local] Open Scope N_scope.

(** ** The abstract store *)
Definition area_of (v : View) (o : text) : MemoryWebStorageArea :=
  mk_area (default ∅ (v !! o)) (total (default ∅ (v !! o))).
(** Areas without items are not kept. *)
Definition put_area (v : View) (o : text) (m : gmap units units) : View := partial_alter (λ _, nonempty m) o v.

Inductive Request := RqRead (origin : text) (op : ReadOp) | RqEdit (origin : text) (op : EditOp) | RqClear (origin : text).

(** What a request answers, what it makes of the contents and what it
    publishes. *)
Inductive answers (v : View) : Request → Outcome → View → list WebStorageMutation → Prop :=
  | answers_read o op : answers v (RqRead o op) (ORead (inr (read_fn op (Some (area_of v o))))) v []
  | answers_refused o op a' : edit_fn o op (area_of v o) = Ret (inl QuotaExceeded, a') →
      answers v (RqEdit o op) (OEdit (inl QuotaExceeded)) v []
  | answers_edit o op ed a' : edit_fn o op (area_of v o) = Ret (inr ed, a') →
      answers v (RqEdit o op) (OEdit (inr (edit_result ed))) (put_area v o (values a')) (option_list (edit_mutation ed))
  | answers_clear o ks : NoDup ks → (∀ k, k ∈ ks ↔ of_origin o k ∧ is_Some (v !! k)) →
      answers v (RqClear o) (OClear (inr (bool_decide (ks ≠ [])))) (filter (λ p, ¬ of_origin o p.1) v) (ItemsCleared <$> ks).

Definition view_ok (v : View) : Prop := ∀ k m, v !! k = Some m → m ≠ ∅ ∧ total m < u64_max.

Lemma area_of_accounted v o : view_ok v → accounted (area_of v o).
Proof.
  intros Hv. split; [done |]. simpl. destruct (v !! o) as [m|] eqn:E; simpl; [by apply (Hv o) |].
  by rewrite total_empty.
Qed.

Lemma lookup_put_area v o m k : put_area v o m !! k = if decide (k = o) then nonempty m else v !! k.
Proof.
  unfold put_area. case_decide as H; [subst; apply lookup_partial_alter_eq | by apply lookup_partial_alter_ne].
Qed.

Lemma area_of_put v o m k : area_of (put_area v o m) k = if decide (k = o) then mk_area m (total m) else area_of v k.
Proof. unfold area_of. rewrite lookup_put_area. case_decide; [by rewrite default_nonempty | done]. Qed.

Lemma put_area_ok v o m : view_ok v → total m < u64_max → view_ok (put_area v o m).
Proof.
  intros Hv Hm k m'. rewrite lookup_put_area. case_decide; [| apply Hv]. unfold nonempty. case_decide; [done |].
  by intros [= <-].
Qed.

Lemma put_area_same v o : view_ok v → put_area v o (default ∅ (v !! o)) = v.
Proof.
  intros Hv. apply map_eq. intros k. rewrite lookup_put_area. case_decide as H; [subst k | done]. unfold nonempty.
  destruct (v !! o) as [m|] eqn:E; simpl; [| done]. destruct (Hv o m E). by rewrite decide_False.
Qed.

Section refinement.
Context (next_rowid : gset N → N) (next_rowid_fresh : ∀ X, next_rowid X ∉ X).
Context (policy : WritebackPolicy).
Context (limit_positive : ∀ limit, early_commit_operations policy = Some limit → 0 < limit).
Context (close_connection : Database → Answers → option WritebackError).
#[local] Instance batches : WriteBatch (gmap text AreaDelta) Database Answers := storage_batch next_rowid.
#[local] Instance batches_empty : WriteBatchEmpty batches := storage_batch_empty next_rowid.
#[local] Instance batches_durable : DurableBatch View batches storage_query initialize :=
  storage_durable next_rowid next_rowid_fresh.

Notation Batch := (gmap text AreaDelta).
Notation Client := (@Writeback Batch Database StorageQuery StorageAnswer).
Notation sstep := (sstep next_rowid policy close_connection).
Notation content := (content storage_query initialize).
Notation sound := (sound storage_query initialize).

(** ** Calls and the engine without faults *)
Definition op_ok (op : EditOp) : Prop :=
  match op with OpSet k v => units_ok k ∧ units_ok v | OpRemove k => units_ok k | OpClear => True end.
Definition event_fine (ev : @Event Answers) : Prop :=
  match ev with WMessage ao a => no_faults ao ∧ no_faults a | WWritten ao a _ => no_faults ao ∧ no_faults a | _ => True end.
Definition slabel_ok (l : SLabel) : Prop :=
  match l with SEdit _ _ op => op_ok op | SWorker ev => event_fine ev | _ => True end.

Inductive sreach (file : Database) : SqliteStore → Prop :=
  | sreach_new : sreach file (new_lazy_sqlite_web_storage_store next_rowid file)
  | sreach_step s l out s' : sreach file s → slabel_ok l → sstep s l = Some (Ret (out, s')) → sreach file s'.

Definition request_of (w : Waiting) : Request :=
  match w with WRead o _ op => RqRead o op | WEdit o _ op => RqEdit o op | WClear o _ => RqClear o end.
Definition request (s : SqliteStore) (l : SLabel) : option Request :=
  match l with
  | SRead o op => Some (RqRead o op)
  | SEdit _ o op => Some (RqEdit o op)
  | SClear o => Some (RqClear o)
  | SResume _ id => request_of <$> waiting s !! id
  | _ => None
  end.

(** The calls on subscriptions: what they make of the hub and answer.  A
    subscription is added to another store only while a handle of it lives. *)
Definition hub_call (l : SLabel) (h : Hub) : option (Hub * Outcome) :=
  match l with
  | SSubscribe kind => Some ((subscribe_mutations h kind).1, OSubscription (length (queues h)))
  | SAddSubscription kind q => Some (add_mutation_subscription h kind q, ODone)
  | SDrain q => Some ((drain h q).1, ODrained (default [] (upgrade h q)))
  | SDropSubscription q => Some (drop_subscription h q, ODone)
  | _ => None
  end.

(** ** The invariant *)
Definition delta_in (c : Client) (k : text) (d : AreaDelta) : Prop :=
  batch (pending c) !! k = Some d ∨ inflight (worker c) !! k = Some d.
Definition asks (c : Client) (rid : nat) (q : StorageQuery) (P : StorageAnswer → Prop) : Prop :=
  MQuery q rid ∈ queue c ∨ ∃ r, replies c !! rid = Some (RQuery (inr r)) ∧ P r.
Definition wkey (w : Waiting) : text := match w with WRead o _ _ | WEdit o _ _ | WClear o _ => o end.

Definition loaded_in (s : SqliteStore) (m : gmap text nat) (k : text) : Prop :=
  ∃ id data, m !! k = Some id ∧ heap s !! id = Some (Some data).
Definition keys_known (s : SqliteStore) (v : View) (o : text) (m : gmap text nat) (ks : list text) : Prop :=
  NoDup ks ∧ (∀ k, k ∈ ks → of_origin o k) ∧
  ∀ k, of_origin o k → loaded_in s m k ∨ (k ∈ ks ↔ is_Some (v !! k)).

Definition waiting_ok (s : SqliteStore) (v : View) (rid : nat) (w : Waiting) : Prop :=
  match w with
  | WRead o id op => cache s !! o = Some id ∧ heap s !! id = Some None ∧
      asks (client s) rid (ReadArea o) (λ r, r = AnArea (area_of v o))
  | WEdit o id op => cache s !! o = Some id ∧ heap s !! id = Some None ∧ op_ok op ∧
      asks (client s) rid (ReadArea o) (λ r, r = AnArea (area_of v o))
  | WClear o m =>
      (∀ k id, m !! k = Some id → of_origin o k ∧ cache s !! k = Some id) ∧
      (∀ k d, of_origin o k → delta_in (client s) k d → is_Some (m !! k)) ∧
      asks (client s) rid (OriginKeys o) (λ r, ∃ ks, r = SomeKeys ks ∧ keys_known s v o m ks)
  end.

(** [W] are the calls that wait; a call that has its reply is no longer one. *)
Record inv (W : gmap nat Waiting) (s : SqliteStore) (v : View) : Prop := {
  inv_wb : wb_ok (client s);
  inv_sound : sound (client s);
  inv_content : content (client s) = Some v;
  inv_view : view_ok v;
  inv_ids k id : cache s !! k = Some id → (id < length (heap s))%nat;
  inv_inj k k' id : cache s !! k = Some id → cache s !! k' = Some id → k = k';
  inv_pins k d : delta_in (client s) k d → cache s !! k = Some (pin d) ∧ ∃ data, heap s !! pin d = Some (Some data);
  inv_loaded k id data : cache s !! k = Some id → heap s !! id = Some (Some data) → data = area_of v k;
  inv_sub rid w : W !! rid = Some w → waiting s !! rid = Some w;
  inv_waiting rid w : W !! rid = Some w → waiting_ok s v rid w;
  inv_apart rid rid' w w' : W !! rid = Some w → W !! rid' = Some w' → rid ≠ rid' → is_clear w = false ∧ wkey w ≠ wkey w' }.

Lemma waiting_frame s s' v v' rid w : waiting_ok s v rid w →
  (∀ k id, cache s !! k = Some id → id ∈ waiting_areas w → cache s' !! k = Some id ∧ heap s' !! id = heap s !! id) →
  (v' = v ∨ (is_clear w = false ∧ v' !! wkey w = v !! wkey w)) →
  (∀ m, m ∈ queue (client s) → m ∈ queue (client s')) →
  replies (client s') !! rid = replies (client s) !! rid →
  (is_clear w = false ∨ ∀ k d, delta_in (client s') k d → delta_in (client s) k d) →
  waiting_ok s' v' rid w.
Proof.
  intros Hw Hc Hv Hq Hr Hd.
  assert (Hasks : ∀ q P, asks (client s) rid q P → asks (client s') rid q P).
  { intros q P [H|H]; [left; by apply Hq | right; by rewrite Hr]. }
  assert (Ha : is_clear w = false → area_of v' (wkey w) = area_of v (wkey w)).
  { intros Hcl. unfold area_of. destruct Hv as [->|[_ ->]]; done. }
  destruct w as [o id op|o id op|o m]; simpl in *.
  - destruct Hw as (H1 & H2 & H3). destruct (Hc o id H1) as [? Hh]; [by apply list_elem_of_singleton |].
    rewrite Hh, Ha by done. split_and!; [done.. | by apply Hasks].
  - destruct Hw as (H1 & H2 & H3 & H4). destruct (Hc o id H1) as [? Hh]; [by apply list_elem_of_singleton |].
    rewrite Hh, Ha by done. split_and!; [done.. | by apply Hasks].
  - destruct Hw as (H1 & H2 & H3). destruct Hv as [->|[? _]]; [| done]. destruct Hd as [?|Hd]; [done |].
    assert (Hin : ∀ k id, m !! k = Some id → id ∈ (map_to_list m).*2).
    { intros k id Hk. apply list_elem_of_fmap. exists (k, id). split; [done |]. by apply elem_of_map_to_list. }
    split_and!.
    + intros k id Hk. destruct (H1 k id Hk) as [Ho Hk']. split; [done |]. by apply (Hc k id); eauto.
    + intros k d Ho Hk. by apply (H2 k d), Hd.
    + apply Hasks. destruct H3 as [H3|(r & Hr3 & ks & -> & Hn & Ho & Hk)]; [by left | right]. exists (SomeKeys ks).
      split; [done |]. exists ks. split; [done |]. split_and!; [done | done |]. intros k Hok.
      destruct (Hk k Hok) as [(id & data & Hm & Hl)|?]; [left | by right]. exists id, data. split; [done |].
      destruct (H1 k id Hm) as [_ Hcm]. destruct (Hc k id Hcm) as [_ ->]; [by eapply Hin | done].
Qed.

(** ** Taking an area object *)
Definition area_keeps (s s' : SqliteStore) (held : list nat) : Prop :=
  client s' = client s ∧ waiting s' = waiting s ∧ shub s' = shub s ∧ leases s' = leases s ∧
  (∀ id x, heap s !! id = Some x → heap s' !! id = Some x) ∧
  (∀ k id, cache s !! k = Some id → id ∈ held ++ strong next_rowid s → cache s' !! k = Some id).

Lemma area_cases s held o id s' : area next_rowid s held o = (id, s') →
  (s' = s ∧ cache s !! o = Some id) ∨
  (id = length (heap s) ∧ heap s' = heap s ++ [None] ∧ cache s' !! o = Some id ∧ client s' = client s ∧
   waiting s' = waiting s ∧ shub s' = shub s ∧ leases s' = leases s ∧
   (∀ id, cache s !! o = Some id → id ∉ held ++ strong next_rowid s) ∧
   (∀ k, k ≠ o → cache s' !! k = cache s !! k ∨ (cache s' !! k = None ∧ ∀ id, cache s !! k = Some id → id ∉ held ++ strong next_rowid s))).
Proof.
  unfold area. intros H.
  assert (Hnew : ∀ (c : gmap text nat) (n : N), (c, n) = (if 64 <=? insertions s + 1
      then (filter (λ p : text * nat, p.2 ∈ held ++ strong next_rowid s) (cache s), 0) else (cache s, insertions s + 1)) →
      ∀ k, c !! k = cache s !! k ∨ (c !! k = None ∧ ∀ id, cache s !! k = Some id → id ∉ held ++ strong next_rowid s)).
  { intros c n Hc k. destruct (64 <=? insertions s + 1); injection Hc as -> _; [| by left].
    destruct (cache s !! k) as [i|] eqn:E.
    - destruct (decide (i ∈ held ++ strong next_rowid s)) as [Hi|Hi].
      + left. by apply map_lookup_filter_Some_2.
      + right. split; [| by intros ? [= <-]]. apply map_lookup_filter_None_2. right. intros x Hx. rewrite E in Hx. by injection Hx as <-.
    - left. apply map_lookup_filter_None_2. by left. }
  destruct (if 64 <=? insertions s + 1 then _ else _) as [c n] eqn:Ec. specialize (Hnew c n eq_refl).
  assert (Hfresh : (∀ id, cache s !! o = Some id → id ∉ held ++ strong next_rowid s) → (length (heap s), mk_sqlite (client s) (heap s ++ [None])
    (<[o:=length (heap s)]> c) n (leases s) (waiting s) (shub s)) = (id, s') → (id = length (heap s) ∧ heap s' = heap s ++ [None] ∧ cache s' !! o = Some id ∧ client s' = client s ∧
   waiting s' = waiting s ∧ shub s' = shub s ∧ leases s' = leases s ∧
   (∀ id, cache s !! o = Some id → id ∉ held ++ strong next_rowid s) ∧
   (∀ k, k ≠ o → cache s' !! k = cache s !! k ∨ (cache s' !! k = None ∧ ∀ id, cache s !! k = Some id → id ∉ held ++ strong next_rowid s)))).
  { intros Hd [= <- <-]. simpl. split_and!; try done; [by rewrite lookup_insert_eq |].
    intros k Hne. rewrite lookup_insert_ne by done. apply Hnew. }
  destruct (cache s !! o) as [i|] eqn:E.
  - destruct (decide (i ∈ held ++ strong next_rowid s)) as [Hi|Hi]; [left; by injection H as <- <- |].
    right. apply Hfresh; [by intros ? [= <-] | exact H].
  - right. apply Hfresh; [by intros ? [=] | exact H].
Qed.

Lemma area_kept s held o id s' : area next_rowid s held o = (id, s') →
  area_keeps s s' held ∧ cache s' !! o = Some id ∧ (length (heap s) ≤ length (heap s'))%nat.
Proof.
  intros [[-> Hc]|(-> & Hh & Hc & H1 & H2 & H3 & H4 & Hd & Hk)]%area_cases.
  - split_and!; [| done | done]. by split_and!; try done.
  - split_and!; [split_and!; try done | done | rewrite Hh, length_app; simpl; lia].
    + intros i x Hi. rewrite Hh. by apply lookup_app_l_Some.
    + intros k i Hi Hin. destruct (decide (k = o)) as [->|Hne]; [by destruct (Hd i Hi) |].
      destruct (Hk k Hne) as [->|[_ Hn]]; [done | by destruct (Hn i Hi)].
Qed.

Lemma waiting_strong s rid w id : waiting s !! rid = Some w → id ∈ waiting_areas w → id ∈ strong next_rowid s.
Proof.
  intros Hw Hid. unfold strong. rewrite !elem_of_app. right. left. apply list_elem_of_bind. exists w. split; [done |].
  apply list_elem_of_fmap. exists (rid, w). split; [done |]. by apply elem_of_map_to_list.
Qed.

Lemma pin_strong s k d : delta_in (client s) k d → pin d ∈ strong next_rowid s.
Proof.
  assert (Hpin : ∀ b : Batch, b !! k = Some d → pin d ∈ pins b).
  { intros b Hb. apply list_elem_of_fmap. exists d. split; [done |]. apply list_elem_of_fmap. exists (k, d).
    split; [done |]. by apply elem_of_map_to_list. }
  unfold strong. rewrite !elem_of_app. intros [H|H]; [right; right; left | right; right; right]; by apply Hpin.
Qed.

Lemma area_inv W s v held o id s' : inv W s v → area next_rowid s held o = (id, s') → inv W s' v.
Proof.
  intros H Ha. destruct (area_kept _ _ _ _ _ Ha) as [(Hcl & Hwt & _ & _ & Hheap & Hcache) [Ho _]].
  apply area_cases in Ha as [[-> _]|(Hid & Hh & _ & _ & _ & _ & _ & Hd & Hk)]; [done |].
  assert (Hback : ∀ k i, cache s' !! k = Some i → (k = o ∧ i = length (heap s)) ∨ (k ≠ o ∧ cache s !! k = Some i)).
  { intros k i Hi. destruct (decide (k = o)) as [->|Hne]; [left; rewrite Ho in Hi; by injection Hi as <- |].
    right. split; [done |]. destruct (Hk k Hne) as [<-|[Hn _]]; [done | by rewrite Hn in Hi]. }
  assert (Hfr : ∀ w rid, W !! rid = Some w → waiting_ok s v rid w → waiting_ok s' v rid w).
  { intros w rid Hrid Hok. eapply waiting_frame; [done | | by left | by rewrite Hcl | by rewrite Hcl | right; by rewrite Hcl].
    intros k i Hi Hin. split.
    - apply Hcache; [done |]. apply elem_of_app. right. eapply waiting_strong; [by eapply (inv_sub _ _ _ H) | done].
    - rewrite Hh. apply lookup_app_l. by eapply (inv_ids _ _ _ H). }
  destruct H. split; rewrite ?Hcl, ?Hwt; try done.
  - intros k i [[-> ->]|[_ Hi%inv_ids0]]%Hback; rewrite Hh, length_app; simpl; lia.
  - intros k k' i [[-> ->]|[? Hi]]%Hback [[-> Hi']|[? Hi']]%Hback; eauto.
    + apply inv_ids0 in Hi'. lia.
    + subst i. apply inv_ids0 in Hi. lia.
  - intros k d Hkd. destruct (inv_pins0 k d Hkd) as [Hc [data Hdata]]. split; [| exists data; by apply Hheap].
    apply Hcache; [done |]. apply elem_of_app. right. by eapply pin_strong.
  - intros k i data [[-> ->]|[? Hi]]%Hback Hl.
    + rewrite Hh, lookup_app_r, Nat.sub_diag in Hl by lia. done.
    + apply (inv_loaded0 k i data Hi). rewrite Hh, lookup_app_l in Hl by (by eapply inv_ids0). done.
  - intros rid w Hw. apply Hfr; eauto.
Qed.

(** ** Messages to the writer *)
Lemma sound_same (c c' : Client) : connection c' = connection c → batch (pending c') = batch (pending c) →
  worker c' = worker c → sound c → sound c' ∧ content c' = content c.
Proof. intros H1 H2 H3 (x & H). unfold Writeback.sound, Writeback.content. rewrite H1, H2, H3. split; [by exists x | done]. Qed.

Lemma asks_known (c : Client) rid q P : wb_ok c → asks c rid q P → (rid < next_reply c)%nat.
Proof.
  intros Hwb [H|(r & H & _)].
  - destruct (ok_ids c Hwb) as [_ Hf]. rewrite Forall_forall in Hf. apply Hf. unfold asked. apply elem_of_app. right.
    apply list_elem_of_omap. by exists (MQuery q rid).
  - apply (ok_replies c Hwb). by rewrite H.
Qed.

Lemma waiting_asks s v rid w : waiting_ok s v rid w → ∃ q P, asks (client s) rid q P.
Proof. destruct w; simpl; intros; destruct_and?; eauto. Qed.

(** A client of the writer that moves without touching batches or the
    waiting calls' requests. *)
Lemma client_inv W s v c : inv W s v → wb_ok c → connection c = connection (client s) →
  batch (pending c) = batch (pending (client s)) → worker c = worker (client s) →
  (∀ m, m ∈ queue (client s) → m ∈ queue c) →
  (∀ rid w, W !! rid = Some w → replies c !! rid = replies (client s) !! rid) → inv W (set_client s c) v.
Proof.
  intros H Hwb H1 H2 H3 Hq Hr. destruct (sound_same (client s) c H1 H2 H3 (inv_sound _ _ _ H)) as [Hs Hc].
  assert (Hd : ∀ k d, delta_in c k d ↔ delta_in (client s) k d) by (intros k d; unfold delta_in; by rewrite H2, H3).
  pose proof (inv_waiting _ _ _ H) as Hw. destruct H. split; simpl; try done; [by rewrite Hc | by intros k d ?%Hd; auto |].
  intros rid w Hrid. eapply waiting_frame; [by apply Hw | done | by left | done | by eapply Hr | right; intros k d; apply Hd].
Qed.

Lemma posted_inv s v q w : inv (waiting s) s v → closed (pending (client s)) = false →
  (∀ rid w', waiting s !! rid = Some w' → (is_clear w' = false ∧ is_clear w = false ∧ wkey w' ≠ wkey w)) →
  let c := (post (client s) (MQuery q)).2 in
  let s' := set_waiting (set_client s c) (<[next_reply (client s) := w]> (waiting s)) in
  (MQuery q (next_reply (client s)) ∈ queue c → waiting_ok s' v (next_reply (client s)) w) → inv (waiting s') s' v.
Proof.
  intros H Hcl Hother c s' Hnew.
  assert (Hc : inv (waiting s) (set_client s c) v).
  { apply client_inv; try done; [apply post_ok; [apply H | done | done] |]. intros m Hm. simpl. apply elem_of_app. by left. }
  assert (Hlt : ∀ rid w', waiting s !! rid = Some w' → (rid < next_reply (client s))%nat).
  { intros rid w' Hw. destruct (waiting_asks s v rid w') as (q' & P & Ha); [by apply H |].
    eapply asks_known; [apply H | done]. }
  assert (Hn : waiting_ok s' v (next_reply (client s)) w).
  { apply Hnew. simpl. apply elem_of_app. right. by apply list_elem_of_singleton. }
  destruct Hc. split; simpl; try done.
  - intros rid w' [[<- <-]|[_ Hw]]%lookup_insert_Some; [done |].
    eapply waiting_frame; [by apply inv_waiting0 | done | by left | done | done | by right].
  - intros rid rid' w1 w2 [[<- <-]|[? Hw1]]%lookup_insert_Some [[<- <-]|[? Hw2]]%lookup_insert_Some Hne; try done.
    + destruct (Hother _ _ Hw2) as (? & ? & ?). done.
    + by destruct (Hother _ _ Hw1) as (? & ? & ?).
    + by eapply inv_apart0.
Qed.

(** *** The state of an area *)
Lemma cached_state W s v o id : inv W s v → cache s !! o = Some id →
  heap s !! id = Some None ∨ heap s !! id = Some (Some (area_of v o)).
Proof.
  intros H Hc. destruct (lookup_lt_is_Some_2 (heap s) id) as [x Hx]; [by eapply (inv_ids _ _ _ H) |].
  destruct x as [data|]; [right | by left]. by rewrite <-(inv_loaded _ _ _ H o id data).
Qed.

Lemma may_begin_waiting s v o : inv (waiting s) s v → may_begin s o = true →
  ∀ rid w, waiting s !! rid = Some w → is_clear w = false ∧ wkey w ≠ o.
Proof.
  intros H Hm rid w Hw. unfold may_begin in Hm. rewrite andb_true_iff in Hm. destruct Hm as [Hcl Hlk].
  apply negb_true_iff in Hcl. unfold clearing in Hcl.
  assert (Hin : w ∈ (map_to_list (waiting s)).*2).
  { apply list_elem_of_fmap. exists (rid, w). split; [done |]. by apply elem_of_map_to_list. }
  assert (Hc : is_clear w = false).
  { destruct (is_clear w) eqn:E; [| done]. rewrite <-Hcl. symmetry. apply existsb_exists. exists w.
    split; [by apply list_elem_of_In | done]. }
  split; [done |]. intros <-.
  assert (Hcache : ∃ id, cache s !! wkey w = Some id ∧ id ∈ waiting_areas w).
  { pose proof (inv_waiting _ _ _ H rid w Hw) as Hok. destruct w as [o id op|o id op|]; simpl in *; [| | done];
      destruct_and?; exists id; (split; [done | by apply list_elem_of_singleton]). }
  destruct Hcache as (id & Hid & Hwid). rewrite Hid in Hlk. apply negb_true_iff in Hlk. unfold locked in Hlk.
  apply not_true_iff_false in Hlk. apply Hlk, existsb_exists. exists w. split; [by apply list_elem_of_In |].
  rewrite Hc. simpl. by apply bool_decide_eq_true.
Qed.

(** ** What a step shows *)
Definition failed_request (q : Request) (e : WritebackError) : Outcome :=
  match q with
  | RqRead _ _ => ORead (inl (Persistence e))
  | RqEdit _ _ => OEdit (inl (Persistence e))
  | RqClear _ => OClear (inl (Persistence e))
  end.

(** A request is answered from the contents, or waits, or finds the store
    closed; every other step changes nothing that can be seen. *)
Inductive observed (s s' : SqliteStore) (v : View) : option Request → Outcome → View → list WebStorageMutation → Prop :=
  | observed_answer q out v' ms : answers v q out v' ms → observed s s' v (Some q) out v' ms
  | observed_closed q : closed (pending (client s)) = true →
      observed s s' v (Some q) (failed_request q (lit "database is closed")) v []
  | observed_wait q id w : waiting s' !! id = Some w → request_of w = q → observed s s' v (Some q) (Blocked id) v []
  | observed_other : observed s s' v None ODone v [].

(** *** Edits of a loaded area *)
Lemma delta_of_apply m id v : delta_apply (delta_of m id) v = apply_area m v.
Proof.
  unfold delta_apply. destruct m; simpl; apply map_eq; intros k; rewrite lookup_apply_changes.
  1-2: destruct (decide (k = key)) as [->|Hne];
    [by rewrite lookup_singleton_eq, lookup_insert_eq | by rewrite lookup_singleton_ne, lookup_insert_ne by done].
  - destruct (decide (k = key)) as [->|Hne];
      [by rewrite lookup_singleton_eq, lookup_delete_eq | by rewrite lookup_singleton_ne, lookup_delete_ne by done].
  - by rewrite !lookup_empty.
Qed.

Lemma edit_fn_good o op : good_edit o (edit_fn o op).
Proof. destruct op; simpl; eauto with moli. Qed.

Lemma edit_delta_ok o op id a ed a' m : op_ok op → edit_fn o op a = Ret (inr ed, a') → edit_mutation ed = Some m →
  changes_ok (changes (delta_of m id)).
Proof.
  intros Hop Hed Hm.
  assert (Hone : ∀ (u : units) (c : KeyChange), change_ok (u, c) → changes_ok {[u := c]}).
  { intros u c Hc k x [<- <-]%lookup_singleton_Some. done. }
  destruct op as [k v|k|]; simpl in *.
  - destruct Hop as [Hk Hv]. unfold set_change in Hed. case_decide; [by injection Hed as <- <- |].
    destruct (_ && _); [done |]. injection Hed as <- <-. simpl in Hm. injection Hm as <-.
    destruct (values a !! k); simpl; by apply Hone.
  - unfold remove_change in Hed. destruct (values a !! k) as [old|]; [| by injection Hed as <- <-].
    destruct (sub64 _ _) as [n|]; [| done]. cbn [mbind run_bind] in Hed. injection Hed as <- <-. simpl in Hm.
    injection Hm as <-. simpl. by apply Hone.
  - unfold clear_change in Hed. case_decide; [by injection Hed as <- <- |]. injection Hed as <- <-. simpl in Hm.
    injection Hm as <-. simpl. intros k x Hx. by rewrite lookup_empty in Hx.
Qed.

Lemma accept_record (c : Client) {X} now (ed : X) b : closed (pending c) = false →
  accept Persistence c now (inr (ed, b)) = (inr ed, (record c now b).2).
Proof. intros Hc. unfold record, accept. rewrite Hc. by destruct (batch_is_empty b). Qed.

Lemma set_state_same s id data : heap s !! id = Some (Some data) → set_state s id data = s.
Proof. intros H. destruct s; unfold set_state; simpl in *. by rewrite list_insert_id. Qed.
Lemma set_client_same s : set_client s (client s) = s.
Proof. by destruct s. Qed.

(** The area [id] of [o] gets new data, which is recorded. *)
Lemma write_inv W s v now o id a d : inv W s v → closed (pending (client s)) = false → cache s !! o = Some id →
  (∀ rid w, W !! rid = Some w → is_clear w = false ∧ wkey w ≠ o) →
  accounted a → pin d = id → changes_ok (changes d) → values a = delta_apply d (default ∅ (v !! o)) →
  inv W (set_client (set_state s id a) (record (client s) now {[o := d]}).2) (put_area v o (values a)).
Proof.
  intros H Hcl Hc Hw [Hsz Hmax] Hpin Hch Hval.
  destruct (record_sound storage_query initialize (client s) now {[o := d]}) as [Hs' Hcon]; [apply H | | done |].
  { intros k x [<- <-]%lookup_singleton_Some. done. }
  assert (Hb : batch (pending (record (client s) now {[o := d]}).2) = batch_merge_newer (batch (pending (client s))) {[o := d]}).
  { unfold record, accept. rewrite Hcl. simpl. rewrite bool_decide_eq_false_2; [done |]. apply map_non_empty_singleton. }
  assert (Hrest : worker (record (client s) now {[o := d]}).2 = worker (client s) ∧
    queue (record (client s) now {[o := d]}).2 = queue (client s) ∧
    replies (record (client s) now {[o := d]}).2 = replies (client s)).
  { unfold record, accept. rewrite Hcl. simpl. by case_bool_decide. }
  destruct Hrest as (Hwk & Hq & Hr). pose proof (record_ok (client s) now {[o := d]} (inv_wb _ _ _ H)) as Hwb.
  assert (Hd : ∀ k x, delta_in (record (client s) now {[o := d]}).2 k x →
    (k = o ∧ pin x = id) ∨ (k ≠ o ∧ delta_in (client s) k x) ∨ (k = o ∧ delta_in (client s) k x)).
  { intros k x. unfold delta_in. rewrite Hb, Hwk. unfold batch_merge_newer. rewrite lookup_union_with.
    destruct (decide (k = o)) as [->|Hne].
    - rewrite lookup_singleton_eq. intros [Hx|Hx]; [| by eauto]. left. split; [done |].
      destruct (batch (pending (client s)) !! o); injection Hx as <-; [| done]. unfold merge_delta. by destruct (delta_clear d).
    - rewrite lookup_singleton_ne by done. intros [Hx|Hx]; [| by eauto]. right. left. split; [done |]. left.
      by destruct (batch (pending (client s)) !! k). }
  assert (Hlen : (id < length (heap s))%nat) by (by eapply (inv_ids _ _ _ H)).
  assert (Hoth : ∀ k i, k ≠ o → cache s !! k = Some i → i ≠ id).
  { intros k i Hne Hi ->. apply Hne. by eapply (inv_inj _ _ _ H). }
  pose proof (inv_waiting _ _ _ H) as Hwait. destruct H. split; simpl; try done.
  - rewrite Hcon, inv_content0. simpl. f_equal. apply map_eq. intros k. rewrite lookup_storage_apply, lookup_put_area.
    case_decide as Hd0; [subst k; by rewrite lookup_singleton_eq, Hval | by rewrite lookup_singleton_ne].
  - apply put_area_ok; [done |]. by rewrite <-Hsz.
  - intros k i Hi. rewrite length_insert. by eapply inv_ids0.
  - assert (Hload : ∀ k x, delta_in (client s) k x → cache s !! k = Some (pin x) ∧
      ∃ data, <[id := Some a]> (heap s) !! pin x = Some (Some data)).
    { intros k x Hx. destruct (inv_pins0 k x Hx) as [Hcx [data Hdata]]. split; [done |].
      destruct (decide (pin x = id)) as [->|Hne]; [by rewrite list_lookup_insert_eq; eauto |].
      rewrite list_lookup_insert_ne by done. eauto. }
    intros k x [[-> Hx]|[[_ Hx]|[_ Hx]]]%Hd; [| by apply Hload | by apply Hload]. rewrite Hx. split; [done |].
    rewrite list_lookup_insert_eq by done. eauto.
  - intros k i data Hi Hl. rewrite area_of_put. case_decide as Hd0.
    + subst k. rewrite Hc in Hi. injection Hi as <-. rewrite list_lookup_insert_eq in Hl by done. injection Hl as <-.
      rewrite <-Hsz. by destruct a.
    + rewrite list_lookup_insert_ne in Hl by (symmetry; by eapply Hoth). by apply (inv_loaded0 k i).
  - intros rid w Hrid. destruct (Hw rid w Hrid) as [Hclear Hkey]. eapply waiting_frame; [by apply Hwait | | | | | by left].
    + intros k i Hi Hin. split; [done |]. simpl. apply list_lookup_insert_ne. intros ->.
      specialize (Hwait rid w Hrid). destruct w as [o' i' op|o' i' op|]; simpl in *; [| | done];
        apply list_elem_of_singleton in Hin; subst; destruct Hwait as [Hc' _]; exact (Hoth _ _ Hkey Hc' eq_refl).
    + right. split; [done |]. rewrite lookup_put_area. by rewrite decide_False.
    + simpl. by rewrite Hq.
    + simpl. by rewrite Hr.
Qed.

Lemma edit_loaded_inv W s v now o id op : inv W s v → cache s !! o = Some id →
  heap s !! id = Some (Some (area_of v o)) → (∀ rid w, W !! rid = Some w → is_clear w = false ∧ wkey w ≠ o) → op_ok op →
  ∃ out s' v' ms, edit_loaded next_rowid s now o id op (area_of v o) = Ret (out, s') ∧ inv W s' v' ∧
    waiting s' = waiting s ∧ shub s' = publish_all (shub s) ms ∧
    ((closed (pending (client s)) = true ∧ out = OEdit (inl (Persistence (lit "database is closed"))) ∧ v' = v ∧ ms = []) ∨
     answers v (RqEdit o op) out v' ms).
Proof.
  intros H Hc Hh Hw Hop. unfold edit_loaded. destruct (closed (pending (client s))) eqn:Hcl.
  { eexists _, s, v, []. split_and!; try done. by left. }
  destruct (edit_fn_good o op (area_of v o) (area_of_accounted v o (inv_view _ _ _ H))) as (r & a' & Hed & Hacc & _ & Hr).
  rewrite Hed. cbn [mbind run_bind]. destruct r as [e|ed].
  { destruct Hr as [-> ->]. unfold accept. rewrite Hcl. eexists _, _, v, [].
    split; [done |]. rewrite set_state_same, set_client_same by done. split_and!; try done. right. by eapply answers_refused. }
  destruct (edit_mutation ed) as [m|] eqn:Em.
  - destruct Hr as (_ & Hval & _). rewrite accept_record by done. eexists _, _, (put_area v o (values a')), [m]. split; [done |].
    split; [| split_and!; [done | simpl; unfold publish_edit; by rewrite Em |]].
    + assert (Hinv : inv W (set_client (set_state s id a') (record (client s) now {[o := delta_of m id]}).2) (put_area v o (values a'))).
      { eapply write_inv; try done; [by destruct m | by eapply edit_delta_ok |]. by rewrite delta_of_apply. }
      by destruct Hinv.
    + right. replace [m] with (option_list (edit_mutation ed)) by (by rewrite Em). by eapply answers_edit.
  - subst a'. rewrite accept_record by done. eexists _, _, v, []. split; [done |].
    assert (Hrec : (record (client s) now ∅).2 = client s).
    { unfold record, accept. rewrite Hcl. done. }
    rewrite Hrec, set_state_same, set_client_same by done. unfold publish_edit. rewrite Em.
    assert (Hs : set_hub s (shub s) = s) by (by destruct s). rewrite Hs. split_and!; try done. right.
    rewrite <-(put_area_same v o) at 2 by apply H. change (@nil WebStorageMutation) with (option_list (@None WebStorageMutation)).
    rewrite <-Em. by eapply (answers_edit v o op ed (area_of v o)).
Qed.

(** *** Beginning a call *)
Definition shown (s s' : SqliteStore) (v : View) (r : option Request) (out : Outcome) : Prop :=
  ∃ v' ms, inv (waiting s') s' v' ∧ shub s' = publish_all (shub s) ms ∧ observed s s' v r out v' ms.

Lemma ensure_open_eq (c : Client) : ensure_open c = if closed (pending c) then Some (lit "database is closed") else None.
Proof. done. Qed.

Lemma start_query_shown s0 s v q w fail out s' : inv (waiting s) s v → client s = client s0 → shub s = shub s0 →
  closed (pending (client s)) = false →
  (∀ rid w', waiting s !! rid = Some w' → is_clear w' = false ∧ is_clear w = false ∧ wkey w' ≠ wkey w) →
  (let c := (post (client s) (MQuery q)).2 in
   let s' := set_waiting (set_client s c) (<[next_reply (client s) := w]> (waiting s)) in
   MQuery q (next_reply (client s)) ∈ queue c → waiting_ok s' v (next_reply (client s)) w) →
  start_query s q w fail = Ret (out, s') → shown s0 s' v (Some (request_of w)) out.
Proof.
  intros H Hc0 Hh0 Hcl Hoth Hnew. unfold start_query, query. rewrite Hcl. simpl. intros [= <- <-].
  exists v, []. split_and!; [| done |].
  - by eapply (posted_inv s v q w).
  - eapply observed_wait; [apply lookup_insert_eq | done].
Qed.

Lemma begin_read_shown s v o op : inv (waiting s) s v → may_begin s o = true →
  ∃ out s', begin_read next_rowid s o op = Ret (out, s') ∧ shown s s' v (Some (RqRead o op)) out.
Proof.
  intros H Hm. pose proof (may_begin_waiting s v o H Hm) as Hw. unfold begin_read.
  destruct (area next_rowid s [] o) as [id s1] eqn:Ea. pose proof (area_inv _ _ _ _ _ _ _ H Ea) as H1.
  destruct (area_kept _ _ _ _ _ Ea) as [(Hcl & Hwt & Hhub & _) [Hc _]]. rewrite ensure_open_eq.
  rewrite <-Hwt in H1, Hw. destruct (closed (pending (client s1))) eqn:E.
  { eexists _, s1. split; [done |]. exists v, []. split_and!; [done | done |].
    apply (observed_closed s s1 v (RqRead o op)). by rewrite <-Hcl. }
  destruct (cached_state _ _ _ _ _ H1 Hc) as [Hn|Hl].
  - rewrite Hn. destruct (start_query s1 _ _ _) as [[out s']|] eqn:Eq.
    2: { unfold start_query in Eq. by destruct (query _ _ _) as [[] ?]. }
    exists out, s'. split; [done |]. eapply (start_query_shown s s1 v (ReadArea o) (WRead o id op)); try done.
    + intros rid w' Hw'. by destruct (Hw rid w' Hw').
    + intros c s2 Hq. simpl. split_and!; [done | done | by left].
  - rewrite Hl. eexists _, s1. split; [done |]. exists v, []. split_and!; [done | done |].
    apply observed_answer. constructor.
Qed.

Lemma begin_edit_shown s v now o op : inv (waiting s) s v → may_begin s o = true → op_ok op →
  ∃ out s', begin_edit next_rowid s now o op = Ret (out, s') ∧ shown s s' v (Some (RqEdit o op)) out.
Proof.
  intros H Hm Hop. pose proof (may_begin_waiting s v o H Hm) as Hw. unfold begin_edit.
  destruct (area next_rowid s [] o) as [id s1] eqn:Ea. pose proof (area_inv _ _ _ _ _ _ _ H Ea) as H1.
  destruct (area_kept _ _ _ _ _ Ea) as [(Hcl & Hwt & Hhub & _) [Hc _]]. rewrite ensure_open_eq.
  rewrite <-Hwt in H1, Hw. destruct (closed (pending (client s1))) eqn:E.
  { eexists _, s1. split; [done |]. exists v, []. split_and!; [done | done |].
    apply (observed_closed s s1 v (RqEdit o op)). by rewrite <-Hcl. }
  destruct (cached_state _ _ _ _ _ H1 Hc) as [Hn|Hl].
  - rewrite Hn. destruct (start_query s1 _ _ _) as [[out s']|] eqn:Eq.
    2: { unfold start_query in Eq. by destruct (query _ _ _) as [[] ?]. }
    exists out, s'. split; [done |]. eapply (start_query_shown s s1 v (ReadArea o) (WEdit o id op)); try done.
    + intros rid w' Hw'. by destruct (Hw rid w' Hw').
    + intros c s2 Hq. simpl. split_and!; [done | done | done | by left].
  - rewrite Hl. destruct (edit_loaded_inv _ s1 v now o id op H1 Hc Hl Hw Hop) as (out & s' & v' & ms & -> & Hi & Hwt' & Hh & Hr).
    exists out, s'. split; [done |]. exists v', ms. rewrite Hwt'. split_and!; [done | by rewrite Hh, Hhub |].
    destruct Hr as [(? & _)|Hr]; [congruence | by constructor].
Qed.

Lemma begin_clear_shown s v o : inv (waiting s) s v → waiting s = ∅ →
  ∃ out s', begin_clear next_rowid s o = Ret (out, s') ∧ shown s s' v (Some (RqClear o)) out.
Proof.
  intros H Hw. unfold begin_clear. destruct (closed (pending (client s))) eqn:E.
  { unfold start_query, query. rewrite E. simpl. eexists _, _. split; [done |]. exists v, [].
    rewrite set_client_same. split_and!; [done | done | by apply (observed_closed s s v (RqClear o))]. }
  destruct (start_query s _ _ _) as [[out s']|] eqn:Eq.
  2: { unfold start_query in Eq. by destruct (query _ _ _) as [[] ?]. }
  exists out, s'. split; [done |].
  eapply (start_query_shown s s v (OriginKeys o) (WClear o (live_areas_for_origin next_rowid s o))); try done.
  { intros rid w'. rewrite Hw. by rewrite lookup_empty. }
  intros c s2 Hq. simpl. split_and!.
  - intros k id [Hk [Ho _]]%map_lookup_filter_Some. done.
  - intros k d Ho Hd. assert (Hd' : delta_in (client s) k d) by exact Hd. exists (pin d).
    apply map_lookup_filter_Some. split; [by apply (inv_pins _ _ _ H k d) |]. split; [done |]. by eapply pin_strong.
  - by left.
Qed.

(** *** The writer *)
Lemma event_fine_ok ev : event_fine ev → event_ok (DB := batches_durable) storage_query initialize ev.
Proof. by destruct ev; simpl; intros; destruct_and?. Qed.

(** What the disk holds at a key no batch touches. *)
Lemma disk_lookup (c : Client) v db k : content c = Some v → disk (connection c) = Some db →
  (∀ d, ¬ delta_in c k d) → db_view db !! k = v !! k.
Proof.
  intros Hc Hd Hk. rewrite (content_eq _ _ c db Hd) in Hc. injection Hc as <-. simpl.
  rewrite !lookup_storage_apply.
  destruct (batch (pending c) !! k) as [d|] eqn:E1; [destruct (Hk d); by left |].
  destruct (inflight (worker c) !! k) as [d|] eqn:E2; [destruct (Hk d); by right | done].
Qed.

Lemma read_answer W s v o id a r : inv W s v → cache s !! o = Some id → heap s !! id = Some None → no_faults a →
  answers_query storage_query initialize (client s) a (ReadArea o) r → r = inr (AnArea (area_of v o)).
Proof.
  intros H Hc Hh Ha (_ & db & db' & c2 & Hd & Hok & Hv & Hr). simpl in Hok, Hv. unfold storage_query in Hr. injection Hr as <- _.
  destruct (read_area_run db' o a Hok Ha) as (ar & -> & Hval & Hsz). simpl. do 2 f_equal. unfold area_of.
  rewrite Hv, (disk_lookup (client s) v db o (inv_content _ _ _ H) Hd) in Hval.
  2: { intros d Hdl. destruct (inv_pins _ _ _ H o d Hdl) as [Hc' [data Hl]]. rewrite Hc in Hc'. injection Hc' as Hid. rewrite <-Hid in Hl. congruence. }
  destruct ar as [vals sz]. simpl in *. subst vals. rewrite Hsz, storage_area_size_total. f_equal.
  destruct (area_of_accounted v o (inv_view _ _ _ H)) as [_ Hlt]. simpl in Hlt. lia.
Qed.

Lemma keys_answer W s v o m a r : inv W s v → no_faults a →
  (∀ k id, m !! k = Some id → of_origin o k ∧ cache s !! k = Some id) →
  (∀ k d, of_origin o k → delta_in (client s) k d → is_Some (m !! k)) →
  answers_query storage_query initialize (client s) a (OriginKeys o) r → ∃ ks, r = inr (SomeKeys ks) ∧ keys_known s v o m ks.
Proof.
  intros H Ha Hm Hdm (Hin & db & db' & c2 & Hd & Hok & Hv & Hr). simpl in Hok, Hv. unfold storage_query in Hr. injection Hr as <- _.
  destruct (origin_keys_run db' o a Hok Ha) as (ks & -> & Hn & Hks). exists ks. split; [done |].
  split_and!; [done | by intros k [? _]%Hks |]. intros k Hko.
  destruct (batch (pending (client s)) !! k) as [d|] eqn:E.
  - left. assert (Hdl : delta_in (client s) k d) by (by left). destruct (Hdm k d Hko Hdl) as [id Hid].
    destruct (Hm k id Hid) as [_ Hc]. destruct (inv_pins _ _ _ H k d Hdl) as [Hc' [data Hl]].
    rewrite Hc in Hc'. injection Hc' as ->. by exists (pin d), data.
  - right. rewrite Hks, Hv, (disk_lookup (client s) v db k (inv_content _ _ _ H) Hd); [naive_solver |].
    intros d [Hdl|Hdl]; [congruence |]. rewrite Hin in Hdl. simpl in Hdl. by rewrite lookup_empty in Hdl.
Qed.

Notation worker_step := (worker_step storage_query initialize close_connection policy).

Lemma worker_inv W s v ev c : inv W s v → event_fine ev → worker_step (client s) ev = Some c → inv W (set_client s c) v.
Proof.
  intros H Hev Hs. pose proof (worker_step_ok storage_query initialize close_connection policy limit_positive _ _ _ (inv_wb _ _ _ H) Hs) as Hwb.
  destruct (worker_sound storage_query initialize close_connection policy _ _ _ (inv_sound _ _ _ H) (event_fine_ok ev Hev) Hs)
    as (Hso & Hco & Hmove).
  destruct (worker_answers storage_query initialize close_connection policy _ _ _ (inv_wb _ _ _ H) (inv_sound _ _ _ H)
    (event_fine_ok ev Hev) Hs) as [Hrep Hque].
  assert (Hd : ∀ k d, delta_in c k d → delta_in (client s) k d).
  { intros k d. unfold delta_in. destruct Hmove as [[-> [-> | ->]]|(_ & -> & ->)]; simpl; rewrite ?lookup_empty; naive_solver. }
  assert (Hask : ∀ rid q P, asks (client s) rid q P →
    (∀ ao a r, ev = WMessage ao a → answers_query storage_query initialize (client s) a q r → ∃ x, r = inr x ∧ P x) →
    asks c rid q P).
  { intros rid q P [Hq|(r & Hr & HP)] Hans; [| right; exists r; split; [by apply Hrep | done]].
    destruct (Hque _ Hq) as [?|Ha]; [by left | right]. destruct (Ha q rid eq_refl) as (ao & a & r & -> & Haq & Hr).
    destruct (Hans ao a r eq_refl Haq) as (x & -> & HP). eauto. }
  assert (Hfine : ∀ ao a, ev = WMessage ao a → no_faults a) by (by intros ao a ->; apply Hev).
  pose proof H as Hinv. destruct H. split; simpl; try done; [by rewrite Hco | by intros k d ?%Hd; auto |].
  intros rid w Hw. specialize (inv_waiting0 rid w Hw). destruct w as [o id op|o id op|o m]; simpl in *.
  - destruct inv_waiting0 as (Hc & Hh & Ha). split_and!; [done | done |]. apply Hask; [done |].
    intros ao a r He Haq. eexists. split; [by eapply read_answer; eauto | done].
  - destruct inv_waiting0 as (Hc & Hh & Hop & Ha). split_and!; [done | done | done |]. apply Hask; [done |].
    intros ao a r He Haq. eexists. split; [by eapply read_answer; eauto | done].
  - destruct inv_waiting0 as (Hm & Hdm & Ha). split_and!; [done | by eauto |]. apply Hask; [done |].
    intros ao a r He Haq. destruct (keys_answer _ s v o m a r Hinv (Hfine ao a He) Hm Hdm Haq) as (ks & -> & Hk). eauto.
Qed.

(** *** Replies *)
Definition reply_good (s : SqliteStore) (v : View) (w : Waiting) (x : StorageAnswer) : Prop :=
  match w with
  | WRead o _ _ | WEdit o _ _ => x = AnArea (area_of v o)
  | WClear o m => ∃ ks, x = SomeKeys ks ∧ keys_known s v o m ks
  end.

Lemma received_inv s v rid w r c : inv (waiting s) s v → waiting s !! rid = Some w → recv (client s) rid = Some (r, c) →
  (∃ x, r = inr (RQuery (inr x)) ∧ reply_good s v w x) ∧ pending c = pending (client s) ∧
  inv (delete rid (waiting s)) (set_client s c) v.
Proof.
  intros H Hw Hr.
  assert (Hask : ∃ q, asks (client s) rid q (reply_good s v w)).
  { pose proof (inv_waiting _ _ _ H rid w Hw) as Hok. destruct w; simpl in *; destruct_and?; eauto. }
  destruct Hask as [q Hask]. pose proof (recv_ok _ _ _ _ (inv_wb _ _ _ H) Hr) as Hwb. unfold recv in Hr.
  destruct Hask as [Hq|(x & Hx & Hg)].
  - exfalso. pose proof (inv_wb _ _ _ H) as Hwb0.
    assert (Hin : rid ∈ asked (client s)).
    { unfold asked. apply elem_of_app. right. apply list_elem_of_omap. by exists (MQuery q rid). }
    destruct (replies (client s) !! rid) as [x|] eqn:E.
    + by destruct (ok_replies _ Hwb0 rid) as [_ Hni]; [rewrite E |].
    + destruct (worker (client s)) eqn:Ew; try done. pose proof (ok_closing _ Hwb0) as Hcl. rewrite Ew in Hcl.
      specialize (Hcl eq_refl). rewrite Forall_forall in Hcl. by apply Hcl in Hq.
  - rewrite Hx in Hr. injection Hr as <- <-. split; [by exists x |]. split; [done |].
    assert (Hsub : ∀ i w', delete rid (waiting s) !! i = Some w' → i ≠ rid ∧ waiting s !! i = Some w').
    { intros i w' [? ?]%lookup_delete_Some. done. }
    assert (Hi : inv (delete rid (waiting s)) s v).
    { destruct H. split; try done.
      - by intros i w' [_ ?]%Hsub.
      - intros i w' [_ ?]%Hsub. by apply inv_waiting0.
      - intros i j w1 w2 [_ ?]%Hsub [_ ?]%Hsub. by eapply inv_apart0. }
    apply client_inv; try done. intros i w' [? _]%Hsub. simpl. by rewrite lookup_delete_ne.
Qed.

Lemma load_inv W s v o id : inv W s v → cache s !! o = Some id → heap s !! id = Some None →
  (∀ rid w, W !! rid = Some w → is_clear w = false ∧ wkey w ≠ o) → inv W (set_state s id (area_of v o)) v.
Proof.
  intros H Hc Hh Hw.
  assert (Hlen : (id < length (heap s))%nat) by (by eapply (inv_ids _ _ _ H)).
  assert (Hoth : ∀ k i, k ≠ o → cache s !! k = Some i → i ≠ id).
  { intros k i Hne Hi ->. apply Hne. by eapply (inv_inj _ _ _ H). }
  pose proof (inv_waiting _ _ _ H) as Hwait. destruct H. split; simpl; try done.
  - intros k i Hi. rewrite length_insert. by eapply inv_ids0.
  - intros k d Hd. destruct (inv_pins0 k d Hd) as [Hcd [data Hl]]. split; [done |].
    destruct (decide (pin d = id)) as [->|Hne]; [by rewrite list_lookup_insert_eq; eauto |].
    rewrite list_lookup_insert_ne by done. eauto.
  - intros k i data Hi Hl. destruct (decide (k = o)) as [->|Hne].
    + rewrite Hc in Hi. injection Hi as <-. rewrite list_lookup_insert_eq in Hl by done. by injection Hl.
    + rewrite list_lookup_insert_ne in Hl by (symmetry; by eapply Hoth). by apply (inv_loaded0 k i).
  - intros rid w Hrid. destruct (Hw rid w Hrid) as [Hclear Hkey].
    eapply waiting_frame; [by apply Hwait | | by left | done | done | by right].
    intros k i Hi Hin. split; [done |]. simpl. apply list_lookup_insert_ne. intros ->.
    specialize (Hwait rid w Hrid). destruct w as [o' i' op|o' i' op|]; simpl in *; [| | done];
      apply list_elem_of_singleton in Hin; subst; destruct Hwait as [Hc' _]; exact (Hoth _ _ Hkey Hc' eq_refl).
Qed.

Lemma set_waiting_inv W s v : inv W s v → inv W (set_waiting s W) v.
Proof. intros []. by split. Qed.

(** *** Clearing an origin *)
Lemma add_areas_inv W v keys : ∀ s m m' s', inv W s v → (∀ k id, m !! k = Some id → cache s !! k = Some id) →
  add_areas next_rowid s m keys = (m', s') →
  inv W s' v ∧ client s' = client s ∧ waiting s' = waiting s ∧ shub s' = shub s ∧
  (∀ k id, m' !! k = Some id → cache s' !! k = Some id) ∧ (∀ k id, m !! k = Some id → m' !! k = Some id) ∧
  (∀ k, k ∈ keys → is_Some (m' !! k)) ∧ (∀ k, is_Some (m' !! k) → is_Some (m !! k) ∨ k ∈ keys) ∧
  (∀ id x, heap s !! id = Some x → heap s' !! id = Some x).
Proof.
  induction keys as [|k keys IH]; intros s m m' s' H Hm; simpl.
  { intros [= <- <-]. split_and!; try done; [by intros k ?%not_elem_of_nil | by left]. }
  destruct (m !! k) as [i|] eqn:Ek.
  - intros Ha. destruct (IH _ _ _ _ H Hm Ha) as (H1 & H2 & H3 & H4 & H5 & H6 & H7 & H8 & H9). split_and!; try done.
    + intros k' [-> | ?]%elem_of_cons; [exists i; by apply H6 | by apply H7].
    + intros k' [?|?]%H8; [by left | right; by apply elem_of_cons; right].
  - destruct (area next_rowid s (map_to_list m).*2 k) as [id s1] eqn:Ea. intros Ha.
    pose proof (area_inv _ _ _ _ _ _ _ H Ea) as H0.
    destruct (area_kept _ _ _ _ _ Ea) as [(K1 & K2 & K3 & _ & K5 & K6) [K7 _]].
    assert (Hm1 : ∀ k' i, <[k := id]> m !! k' = Some i → cache s1 !! k' = Some i).
    { intros k' i [[<- <-]|[_ Hi]]%lookup_insert_Some; [done |]. apply K6; [by apply Hm |]. apply elem_of_app. left.
      apply list_elem_of_fmap. exists (k', i). split; [done |]. by apply elem_of_map_to_list. }
    destruct (IH _ _ _ _ H0 Hm1 Ha) as (H1 & H2 & H3 & H4 & H5 & H6 & H7 & H8 & H9).
    split_and!; try done; try congruence; try (by eauto).
    + intros k' i Hi. apply H6. rewrite lookup_insert_ne; [done | congruence].
    + intros k' [-> | ?]%elem_of_cons; [exists id; apply H6, lookup_insert_eq | by apply H7].
    + intros k' [Hk'|?]%H8; [| right; by apply elem_of_cons; right]. destruct Hk' as [i [[<- <-]|[_ Hi]]%lookup_insert_Some].
      * right. apply elem_of_cons. by left.
      * left. by rewrite Hi.
Qed.

Definition holds_items (h : list (option MemoryWebStorageArea)) (stored : list text) (k : text) (id : nat) : bool :=
  match h !! id with
  | Some (Some data) => bool_decide (values data ≠ ∅)
  | _ => bool_decide (k ∈ stored)
  end.

(** What the loop over [l] leaves: the deltas, the areas and the keys. *)
Definition cleared (stored : list text) (h : list (option MemoryWebStorageArea)) (l : list (text * nat))
    (h' : list (option MemoryWebStorageArea)) (b : Batch) (ms : list WebStorageMutation) : Prop :=
  (∀ k d, b !! k = Some d ↔ ∃ id, (k, id) ∈ l ∧ holds_items h stored k id = true ∧ d = mk_delta true ∅ id) ∧
  (∀ id, (∃ k, (k, id) ∈ l ∧ holds_items h stored k id = true) → h' !! id = Some (Some area_default)) ∧
  (∀ id, (∀ k, (k, id) ∈ l → holds_items h stored k id = false) → h' !! id = h !! id) ∧
  ∃ ks, ms = ItemsCleared <$> ks ∧ NoDup ks ∧ ∀ k, k ∈ ks ↔ is_Some (b !! k).

Lemma cleared_nil stored h : cleared stored h [] h ∅ [].
Proof.
  split_and!.
  - intros k d. rewrite lookup_empty. split; [done |]. by intros (? & ?%not_elem_of_nil & _).
  - by intros id (k & ?%not_elem_of_nil & _).
  - done.
  - exists []. split_and!; [done | constructor |]. intros k. rewrite lookup_empty. split; [by intros ?%not_elem_of_nil | by intros [? ?]].
Qed.

Lemma cleared_skip stored h l h' b ms k0 id0 : holds_items h stored k0 id0 = false → cleared stored h l h' b ms →
  cleared stored h ((k0, id0) :: l) h' b ms.
Proof.
  intros E0 (Hb & Hset & Hkeep & Hks). split_and!; [| | | done].
  - intros k d. rewrite Hb. split.
    + intros (i & Hin & ?). exists i. split; [by right | done].
    + intros (i & [Heq|Hin]%elem_of_cons & Hh & ->); [injection Heq as -> ->; congruence | by exists i].
  - intros i (k & [Heq|Hin]%elem_of_cons & Hh); [injection Heq as -> ->; congruence | eauto].
  - intros i Hf. apply Hkeep. intros k Hin. apply Hf. by right.
Qed.

Lemma cleared_take stored h l h' b ms k0 id0 : holds_items h stored k0 id0 = true → (id0 < length h)%nat →
  (∀ k, (k, id0) ∉ l) → (∀ i, (k0, i) ∉ l) → cleared stored (<[id0 := Some area_default]> h) l h' b ms →
  cleared stored h ((k0, id0) :: l) h' (<[k0 := mk_delta true ∅ id0]> b) (ItemsCleared k0 :: ms).
Proof.
  intros E0 Hlen Hnot Hnotk (Hb & Hset & Hkeep & ks & Hms & Hnd & Hks).
  assert (Hsame : ∀ k i, (k, i) ∈ l → holds_items (<[id0 := Some area_default]> h) stored k i = holds_items h stored k i).
  { intros k i Hin. unfold holds_items. rewrite list_lookup_insert_ne; [done |]. intros <-. by apply (Hnot k). }
  split_and!.
  - intros k d. destruct (decide (k = k0)) as [->|Hne].
    + rewrite lookup_insert_eq. split.
      * intros [= <-]. exists id0. split; [by left | done].
      * intros (i & [Heq|Hin]%elem_of_cons & _ & ->); [by injection Heq as -> | by destruct (Hnotk i)].
    + rewrite lookup_insert_ne, Hb by done. split.
      * intros (i & Hin & Hh & ->). exists i. rewrite Hsame in Hh by done. split; [by right | done].
      * intros (i & [Heq|Hin]%elem_of_cons & Hh & ->); [by injection Heq as -> |]. exists i. by rewrite Hsame.
  - intros i (k & [Heq|Hin]%elem_of_cons & Hh).
    + injection Heq as -> ->. rewrite Hkeep; [by rewrite list_lookup_insert_eq |]. intros k Hin. by destruct (Hnot k).
    + apply Hset. exists k. by rewrite Hsame.
  - intros i Hf. assert (Hne : id0 ≠ i) by (intros ->; rewrite (Hf k0) in E0; [done | by left]).
    rewrite Hkeep; [by rewrite list_lookup_insert_ne |]. intros k Hin. rewrite Hsame by done. apply Hf. by right.
  - exists (k0 :: ks). split_and!; [by rewrite Hms | |].
    + apply NoDup_cons. split; [| done]. rewrite Hks. intros [d Hd]. apply Hb in Hd as (i & Hin & _). by destruct (Hnotk i).
    + intros k. rewrite elem_of_cons, Hks, lookup_insert_is_Some. destruct (decide (k = k0)); naive_solver.
Qed.

Lemma clear_loop_cleared stored l : ∀ h h' b ms, NoDup l.*1 → NoDup l.*2 → Forall (λ p, p.2 < length h)%nat l →
  clear_loop h stored l = (h', b, ms) → length h' = length h ∧ cleared stored h l h' b ms.
Proof.
  induction l as [|[k0 id0] l IH]; intros h h' b ms Hn1 Hn2 Hlen.
  { intros [= <- <- <-]. split; [done | apply cleared_nil]. }
  rewrite fmap_cons in Hn1. rewrite fmap_cons in Hn2. apply NoDup_cons in Hn1 as [Hk0 Hn1]. apply NoDup_cons in Hn2 as [Hi0 Hn2].
  apply Forall_cons in Hlen as [Hl0 Hlen]. simpl. fold (holds_items h stored k0 id0).
  destruct (holds_items h stored k0 id0) eqn:E0.
  - destruct (clear_loop (<[id0 := Some area_default]> h) stored l) as [[h1 b1] ms1] eqn:Ec. intros [= <- <- <-].
    assert (Hlen' : Forall (λ p, p.2 < length (<[id0 := Some area_default]> h))%nat l).
    { eapply Forall_impl; [done |]. simpl. intros p. by rewrite length_insert. }
    destruct (IH _ _ _ _ Hn1 Hn2 Hlen' Ec) as [L Hcl]. rewrite length_insert in L. split; [done |].
    apply cleared_take; try done; intros x Hin.
    + apply Hi0, list_elem_of_fmap. by exists (x, id0).
    + apply Hk0, list_elem_of_fmap. by exists (k0, x).
  - intros Ec. destruct (IH _ _ _ _ Hn1 Hn2 Hlen Ec) as [L Hcl]. split; [done |]. by apply cleared_skip.
Qed.

Lemma elem_of_areas_list m k id : (k, id) ∈ areas_list m ↔ m !! k = Some id.
Proof. unfold areas_list. rewrite merge_sort_Permutation. apply elem_of_map_to_list. Qed.

Lemma areas_list_NoDup W s v m : inv W s v → (∀ k id, m !! k = Some id → cache s !! k = Some id) →
  NoDup (areas_list m).*1 ∧ NoDup (areas_list m).*2 ∧ Forall (λ p, p.2 < length (heap s))%nat (areas_list m).
Proof.
  intros H Hm.
  assert (Hn : NoDup (areas_list m).*1) by (unfold areas_list; rewrite merge_sort_Permutation; apply NoDup_fst_map_to_list).
  split_and!; [done | |].
  - assert (Hinj : ∀ k k' id, (k, id) ∈ areas_list m → (k', id) ∈ areas_list m → k = k').
    { intros k k' id Hk%elem_of_areas_list Hk'%elem_of_areas_list. by eapply (inv_inj _ _ _ H); apply Hm. }
    revert Hn Hinj. induction (areas_list m) as [|[k id] l IH]; [constructor |]. rewrite !fmap_cons, !NoDup_cons.
    intros [Hk Hn] Hinj. split.
    + intros ([k' id'] & Heq & Hin)%list_elem_of_fmap. simpl in Heq. subst id'. apply Hk, list_elem_of_fmap.
      exists (k', id). split; [| done]. simpl. apply (Hinj k k' id); [by left | by right].
    + apply IH; [done |]. intros k1 k2 i H1 H2. by apply (Hinj k1 k2 i); right.
  - apply Forall_forall. intros [k id] Hk%elem_of_areas_list. by eapply (inv_ids _ _ _ H), Hm.
Qed.

Lemma record_batch (c : Client) now b k : closed (pending c) = false →
  batch (pending (record c now b).2) !! k = union_with (λ p n, Some (merge_delta p n)) (batch (pending c) !! k) (b !! k) ∧
  worker (record c now b).2 = worker c.
Proof.
  intros Hcl. unfold record, accept. rewrite Hcl. simpl. case_bool_decide as Hb; simpl.
  - subst b. rewrite lookup_empty. by destruct (batch (pending c) !! k).
  - unfold batch_merge_newer. by rewrite lookup_union_with.
Qed.

Lemma clear_batch_inv s v now o m stored h b ms : inv ∅ s v → closed (pending (client s)) = false →
  (∀ k id, m !! k = Some id → cache s !! k = Some id) →
  (∀ k, of_origin o k ∧ is_Some (v !! k) ↔ ∃ id, m !! k = Some id ∧ holds_items (heap s) stored k id = true) →
  clear_loop (heap s) stored (areas_list m) = (h, b, ms) →
  inv ∅ (mk_sqlite (record (client s) now b).2 h (cache s) (insertions s) (leases s) (waiting s) (shub s))
    (filter (λ p, ¬ of_origin o p.1) v) ∧
  answers v (RqClear o) (OClear (inr (bool_decide (ms ≠ [])))) (filter (λ p, ¬ of_origin o p.1) v) ms.
Proof.
  intros H Hcl Hm Hitems Hloop. destruct (areas_list_NoDup _ _ _ _ H Hm) as (Hn1 & Hn2 & Hlen).
  destruct (clear_loop_cleared _ _ _ _ _ _ Hn1 Hn2 Hlen Hloop) as (L & Hb & Hset & Hkeep & ks & Hms & Hnd & Hks).
  assert (Hbk : ∀ k d, b !! k = Some d ↔ ∃ id, m !! k = Some id ∧ holds_items (heap s) stored k id = true ∧ d = mk_delta true ∅ id).
  { intros k d. rewrite Hb. by setoid_rewrite elem_of_areas_list. }
  assert (Hdom : ∀ k, is_Some (b !! k) ↔ of_origin o k ∧ is_Some (v !! k)).
  { intros k. rewrite Hitems. split; [intros (d & (id & ? & ? & _)%Hbk); eauto |]. intros (id & ? & ?).
    exists (mk_delta true ∅ id). apply Hbk. eauto. }
  assert (Hbok : storage_batch_ok b) by (intros k d (id & _ & _ & ->)%Hbk u x Hx; simpl in Hx; by rewrite lookup_empty in Hx).
  destruct (record_sound storage_query initialize (client s) now b (inv_sound _ _ _ H) Hbok Hcl) as [Hso Hco].
  assert (Hview : storage_apply b v = filter (λ p, ¬ of_origin o p.1) v).
  { apply map_eq. intros k. rewrite lookup_storage_apply. symmetry. destruct (b !! k) as [d|] eqn:Ek.
    - pose proof Ek as (id & _ & _ & ->)%Hbk. unfold delta_apply. simpl. rewrite apply_changes_empty.
      apply map_lookup_filter_None_2. right. intros x _ Hx. apply Hx. apply (Hdom k). by rewrite Ek.
    - destruct (v !! k) as [x|] eqn:Ev; [| apply map_lookup_filter_None_2; by left].
      apply map_lookup_filter_Some_2; [done |]. simpl. intros Ho. destruct (proj2 (Hdom k)) as [d Hd]; [by rewrite Ev | congruence]. }
  split; [| rewrite Hms; replace (bool_decide (ItemsCleared <$> ks ≠ [])) with (bool_decide (ks ≠ []));
    [constructor; [done | intros k; by rewrite Hks, Hdom] | by destruct ks]].
  assert (Hold : ∀ k id, cache s !! k = Some id → b !! k = None → h !! id = heap s !! id).
  { intros k id Hc Hnone. apply Hkeep. intros k' Hk'%elem_of_areas_list.
    assert (k' = k) as -> by (eapply (inv_inj _ _ _ H); [by apply Hm | done]).
    destruct (holds_items (heap s) stored k id) eqn:E; [| done].
    assert (Hd : b !! k = Some (mk_delta true ∅ id)) by (apply Hbk; eauto). congruence. }
  assert (Hnew : ∀ k d, b !! k = Some d → cache s !! k = Some (pin d) ∧ h !! pin d = Some (Some area_default)).
  { intros k d (id & Hid & Hh & ->)%Hbk. simpl. split; [by apply Hm |]. apply Hset. exists k. by rewrite elem_of_areas_list. }
  pose proof (record_ok (client s) now b (inv_wb _ _ _ H)) as Hwb. rewrite <-Hview. destruct H. split; simpl; try done.
  - rewrite Hco, inv_content0. done.
  - rewrite Hview. intros k x [Hx _]%map_lookup_filter_Some. by apply (inv_view0 k).
  - intros k id Hid. rewrite L. by eapply inv_ids0.
  - intros k d. unfold delta_in. destruct (record_batch (client s) now b k Hcl) as [-> ->].
    destruct (b !! k) as [d'|] eqn:Ek.
    + destruct (Hnew k d' Ek) as [Hc' Hh']. intros [Hd|Hd].
      * assert (Hpin : pin d = pin d').
        { destruct (batch (pending (client s)) !! k) as [p0|]; simpl in Hd; injection Hd as <-; [| done].
          unfold merge_delta. by destruct (delta_clear d'). }
        rewrite Hpin. eauto.
      * destruct (inv_pins0 k d) as [Hc1 _]; [by right |]. rewrite Hc' in Hc1. injection Hc1 as <-. eauto.
    + intros Hd. assert (Hd' : delta_in (client s) k d) by (destruct Hd as [Hd|Hd]; [left | by right]; by destruct (batch (pending (client s)) !! k)).
      destruct (inv_pins0 k d Hd') as [Hc1 Hl]. split; [done |]. by rewrite (Hold k (pin d) Hc1 Ek).
  - intros k id data Hc Hl. unfold area_of. rewrite lookup_storage_apply. destruct (b !! k) as [d|] eqn:Ek.
    + pose proof (Hnew k d Ek) as [Hc' Hh']. rewrite Hc in Hc'. injection Hc' as ->. rewrite Hh' in Hl. injection Hl as <-.
      apply Hbk in Ek as (? & _ & _ & ->). unfold delta_apply. simpl. by rewrite apply_changes_empty.
    + rewrite (Hold k id Hc Ek) in Hl. by apply (inv_loaded0 k id).
Qed.

Lemma clear_found_inv s v now o m ks : inv ∅ s v → (∀ k id, m !! k = Some id → of_origin o k ∧ cache s !! k = Some id) →
  keys_known s v o m ks →
  ∃ out s' v' ms, clear_found next_rowid s now m ks = (out, s') ∧ inv ∅ s' v' ∧ waiting s' = waiting s ∧ shub s' = publish_all (shub s) ms ∧
    ((closed (pending (client s)) = true ∧ out = OClear (inl (Persistence (lit "database is closed"))) ∧ v' = v ∧ ms = []) ∨
     answers v (RqClear o) out v' ms).
Proof.
  intros H Hm (Hnd & Hko & Hknown). unfold clear_found.
  destruct (add_areas next_rowid s m (keys_list ks)) as [m1 s1] eqn:Ea.
  destruct (add_areas_inv _ v _ _ _ _ _ H (λ k id Hk, proj2 (Hm k id Hk)) Ea) as (H1 & Hcl & Hwt & Hhub & Hc1 & Hsub & Hin & Hback & Hheap).
  assert (Hks : ∀ k, k ∈ keys_list ks ↔ k ∈ ks) by (intros k; unfold keys_list; by rewrite merge_sort_Permutation).
  rewrite Hcl. destruct (closed (pending (client s))) eqn:E.
  { eexists _, s1, v, []. split_and!; [done | done | done | done | by left]. }
  destruct (clear_loop (heap s1) ks (areas_list m1)) as [[h b] ms] eqn:El. rewrite <-Hcl in E.
  destruct (clear_batch_inv s1 v now o m1 ks h b ms H1 E Hc1) as [Hinv Hans]; [| done |].
  2: { rewrite Hcl in Hinv. eexists _, _, _, ms. split; [done |]. split_and!; [by destruct Hinv | done | simpl; by rewrite Hhub | by right]. }
  intros k. split.
  - intros [Ho [x Hx]].
    assert (Hid : ∃ id, m1 !! k = Some id).
    { destruct (Hknown k Ho) as [(id & data & Hid & _)|Hiff]; [exists id; by apply Hsub |].
      destruct (Hin k) as [id Hid]; [apply Hks, Hiff; by rewrite Hx | by exists id]. }
    destruct Hid as [id Hid]. exists id. split; [done |]. unfold holds_items.
    destruct (cached_state _ _ _ _ _ H1 (Hc1 k id Hid)) as [Hn|Hl].
    + rewrite Hn. apply bool_decide_eq_true. destruct (Hknown k Ho) as [(id' & data & Hid' & Hd)|Hiff].
      * apply Hsub in Hid'. rewrite Hid in Hid'. injection Hid' as <-. apply Hheap in Hd. congruence.
      * apply Hiff. by rewrite Hx.
    + rewrite Hl. apply bool_decide_eq_true. simpl. rewrite Hx. by apply (inv_view _ _ _ H1 k).
  - intros (id & Hid & Hh).
    assert (Ho : of_origin o k).
    { destruct (Hback k) as [[i Hi]|Hk]; [by exists id | by apply (Hm k i) | by apply Hko, Hks]. }
    split; [done |]. unfold holds_items in Hh. destruct (cached_state _ _ _ _ _ H1 (Hc1 k id Hid)) as [Hn|Hl].
    + rewrite Hn in Hh. apply bool_decide_eq_true in Hh. destruct (Hknown k Ho) as [(id' & data & Hid' & Hd)|Hiff]; [| by apply Hiff].
      apply Hsub in Hid'. rewrite Hid in Hid'. injection Hid' as <-. apply Hheap in Hd. congruence.
    + rewrite Hl in Hh. apply bool_decide_eq_true in Hh. simpl in Hh. destruct (v !! k); [by eexists | done].
Qed.

Lemma answered_shown s s' v v' ms w out : inv (delete w.1 (waiting s)) s' v' → waiting s' = waiting s →
  shub s' = publish_all (shub s) ms →
  (closed (pending (client s)) = true ∧ out = failed_request (request_of w.2) (lit "database is closed") ∧ v' = v ∧ ms = []) ∨
    answers v (request_of w.2) out v' ms →
  shown s (set_waiting s' (delete w.1 (waiting s'))) v (Some (request_of w.2)) out.
Proof.
  intros H Hw Hh Hr. exists v', ms. rewrite Hw. split_and!; [by apply set_waiting_inv | done |].
  destruct Hr as [(? & -> & -> & ->)|Hr]; by constructor.
Qed.

Lemma others_apart s v rid w : inv (waiting s) s v → waiting s !! rid = Some w →
  ∀ i w', delete rid (waiting s) !! i = Some w' → is_clear w = false ∧ is_clear w' = false ∧ wkey w' ≠ wkey w.
Proof.
  intros H Hw i w' [Hne Hi]%lookup_delete_Some. destruct (inv_apart _ _ _ H rid i w w' Hw Hi Hne) as [? _].
  by destruct (inv_apart _ _ _ H i rid w' w Hi Hw (not_eq_sym Hne)).
Qed.

Lemma resume_shown s v now rid w r c : inv (waiting s) s v → waiting s !! rid = Some w → recv (client s) rid = Some (r, c) →
  ∃ out s', resume next_rowid (set_client s c) now w r = Ret (out, s') ∧
    shown s (set_waiting s' (delete rid (waiting s'))) v (Some (request_of w)) out.
Proof.
  intros H Hw Hr. destruct (received_inv s v rid w r c H Hw Hr) as ((x & -> & Hx) & Hp & Hi).
  pose proof (others_apart s v rid w H Hw) as Hoth. pose proof (inv_waiting _ _ _ H rid w Hw) as Hok.
  destruct w as [o id op|o id op|o m]; simpl in *.
  - subst x. destruct Hok as (Hc & Hh & _). eexists _, _. split; [done |].
    eapply (answered_shown s _ v v [] (rid, WRead o id op)); [| done | done | right; constructor].
    apply load_inv; [done | done | done |]. intros i w' (_ & ? & ?)%Hoth. done.
  - subst x. destruct Hok as (Hc & Hh & Hop & _).
    assert (Hl : inv (delete rid (waiting s)) (set_state (set_client s c) id (area_of v o)) v).
    { apply load_inv; [done | done | done |]. intros i w' (_ & ? & ?)%Hoth. done. }
    destruct (edit_loaded_inv _ _ v now o id op Hl) as (out & s' & v' & ms & -> & Hi' & Hwt & Hhub & Hr');
      [done | | intros i w' (_ & ? & ?)%Hoth; done | done |].
    { simpl. apply list_lookup_insert_eq. by eapply (inv_ids _ _ _ H). }
    exists out, s'. split; [done |]. eapply (answered_shown s s' v v' ms (rid, WEdit o id op)); try done.
    simpl in Hr'. by rewrite Hp in Hr'.
  - destruct Hx as (ks & -> & Hks). destruct Hok as (Hm & _ & _).
    assert (He : delete rid (waiting s) = ∅).
    { apply map_empty. intros i. destruct (delete rid (waiting s) !! i) as [w'|] eqn:E; [| done].
      by destruct (Hoth i w' E). }
    rewrite He in Hi. destruct (clear_found_inv (set_client s c) v now o m ks Hi Hm Hks) as (out & s' & v' & ms & -> & Hi' & Hwt & Hhub & Hr').
    exists out, s'. split; [done |]. eapply (answered_shown s s' v v' ms (rid, WClear o m)); try done; [simpl; by rewrite He |].
    simpl in Hr'. by rewrite Hp in Hr'.
Qed.

(** *** Every step *)
Lemma quiet_shown s s' v : inv (waiting s') s' v → shub s' = shub s → shown s s' v None ODone.
Proof. intros H Hh. exists v, []. split_and!; [done | done | constructor]. Qed.

Lemma flush_inv s v : inv (waiting s) s v → inv (waiting s) (set_client s (flush (client s) false).2) v.
Proof.
  intros H. apply client_inv; try done; [by apply flush_ok, H | ..]; unfold flush;
    destruct (closed (pending (client s))); try done. intros m Hm. simpl. apply elem_of_app. by left.
Qed.

Lemma close_inv s v : inv (waiting s) s v → inv (waiting s) (set_client s (close_request (client s) false).2) v.
Proof.
  intros H. apply client_inv; try done; [by apply close_request_ok, H | ..]; unfold close_request;
    destruct (close_result (client s)); try done. intros m Hm. simpl. apply elem_of_app. by left.
Qed.

Lemma hub_inv W s v h : inv W s v → inv W (set_hub s h) v.
Proof. intros []. by split. Qed.

Lemma hub_step s v l h answer : inv (waiting s) s v → hub_call l (shub s) = Some (h, answer) →
  match sstep s l with
  | None => True
  | Some Panic => False
  | Some (Ret (out, s')) => inv (waiting s') s' v ∧ shub s' = h ∧ out = answer
  end.
Proof.
  intros H. destruct l; try done; cbn [WebStorageSqlite.sstep hub_call]; intros [= <- <-].
  - unfold subscribe_mutations. split_and!; [by apply hub_inv | done | done].
  - case_decide; [| done]. split_and!; [by apply hub_inv | done | done].
  - destruct (drain (shub s) q) as [h records] eqn:E. split_and!; [by apply hub_inv | done |].
    unfold drain in E. destruct (upgrade (shub s) q); by injection E as <- <-.
  - split_and!; [by apply hub_inv | done | done].
Qed.

Lemma sstep_shown s v l : inv (waiting s) s v → slabel_ok l → hub_call l (shub s) = None →
  match sstep s l with
  | None => True
  | Some Panic => False
  | Some (Ret (out, s')) => shown s s' v (request s l) out
  end.
Proof using limit_positive.
  intros H Hl Hhub0. destruct l as [o op|now o op|o|now rid|o|i| |rid| |kd|kd sq|sq|sq|ev]; try done;
    cbn [WebStorageSqlite.sstep request slabel_ok] in *; clear Hhub0.
  - destruct (may_begin s o) eqn:E; [| done]. by destruct (begin_read_shown s v o op H E) as (out & s' & -> & ?).
  - destruct (may_begin s o) eqn:E; [| done]. by destruct (begin_edit_shown s v now o op H E Hl) as (out & s' & -> & ?).
  - destruct (decide (waiting s = ∅)) as [E|]; [| done]. by destruct (begin_clear_shown s v o H E) as (out & s' & -> & ?).
  - destruct (waiting s !! rid) as [w|] eqn:Ew; [| done]. destruct (recv (client s) rid) as [[r c]|] eqn:Er; [| done].
    destruct (resume_shown s v now rid w r c H Ew Er) as (out & s' & -> & Hs). done.
  - apply quiet_shown; unfold lease_area; destruct (ensure_open (client s)); try done;
      destruct (area next_rowid s [] o) as [id s1] eqn:Ea; destruct (area_kept _ _ _ _ _ Ea) as [(_ & Hwt & Hhub & _) _]; simpl; [| done].
    rewrite Hwt. pose proof (area_inv _ _ _ _ _ _ _ H Ea) as []. by split.
  - apply quiet_shown; [| done]. by destruct H.
  - apply quiet_shown; [| done]. exact (flush_inv s v H).
  - destruct (waiting s !! rid) eqn:Ew; [done |]. destruct (recv (client s) rid) as [[r c]|] eqn:Er; [| done].
    apply quiet_shown; [| done]. pose proof (recv_ok _ _ _ _ (inv_wb _ _ _ H) Er) as Hwb. unfold recv in Er.
    destruct (replies (client s) !! rid) as [x|].
    + injection Er as <- <-. apply client_inv; try done. intros i w Hi. simpl. apply lookup_delete_ne. simpl in Hi. congruence.
    + destruct (worker (client s)); try done. injection Er as <- <-. by rewrite set_client_same.
  - apply quiet_shown; [| done]. exact (close_inv s v H).
  - destruct (worker_step (client s) ev) as [c|] eqn:E; [| done]. apply quiet_shown; [| done]. by eapply worker_inv.
Qed.

(** ** Histories *)
(** No stored area is too large to be counted. *)
Definition file_fits (file : Database) : Prop := ∀ k m, db_view file !! k = Some m → total m < u64_max.

Lemma new_inv file : db_file_ok file → file_fits file →
  inv ∅ (new_lazy_sqlite_web_storage_store next_rowid file) (db_view file).
Proof.
  intros Hf Hfit.
  assert (Hnone : ∀ k d, ¬ delta_in (client (new_lazy_sqlite_web_storage_store next_rowid file)) k d).
  { intros k d [Hd|Hd]; simpl in Hd; by rewrite lookup_empty in Hd. }
  split; simpl; try done.
  - apply deferred_ok.
  - exists file. split_and!; [done | done | |]; simpl; intros k d Hd; by rewrite lookup_empty in Hd.
  - rewrite (content_eq _ _ (deferred file) file) by done. simpl. f_equal. apply map_eq. intros k.
    by rewrite !lookup_storage_apply, lookup_empty.
  - intros k m Hm. split; [| by eapply Hfit]. unfold db_view in Hm. destruct (schema file) as [t|]; [| done].
    rewrite lookup_tables_view in Hm. destruct (areas t !! k); [| done]. simpl in Hm. unfold nonempty in Hm.
    case_decide; [done |]. congruence.
  - intros k d Hd. by apply Hnone in Hd.
Qed.

Lemma sreach_inv file s : db_file_ok file → file_fits file → sreach file s → ∃ v, inv (waiting s) s v.
Proof using limit_positive.
  intros Hf Hfit. induction 1 as [|s l out s' _ [v IH] Hl Hs]; [exists (db_view file); by apply new_inv |].
  destruct (hub_call l (shub s)) as [[h answer]|] eqn:Eh.
  - pose proof (hub_step s v l h answer IH Eh) as Hsh. rewrite Hs in Hsh. exists v. by destruct Hsh.
  - pose proof (sstep_shown s v l IH Hl Eh) as Hsh. rewrite Hs in Hsh. destruct Hsh as (v' & ms & Hi & _). by exists v'.
Qed.

(** C2: The cached SQLite store cannot be told from one map of areas.  From a
    sound database with no area too large to be counted, and as long as the
    engine does not fail, in every state reached by interleaving reads, edits,
    clears of an origin, leases, replies, flushes, a close, calls on
    subscriptions and the moves of the writer: every step that can be taken
    returns; a request is answered as the map of areas (what is stored with
    the changes that are accepted but not yet written) demands, or waits, or
    finds the store closed; the changes it makes to the map are published, in
    order, at the end of the queue of every live subscription; all other steps
    leave the map and the queues alone, but for those on subscriptions, which
    change the hub as the store in memory does and nothing else.  A call that
    waits has its query with the writer or its reply ready. *)
Theorem cached_store_refines_areas file s : db_file_ok file → file_fits file → sreach file s →
  ∃ v, content (client s) = Some v ∧
    (∀ id w, waiting s !! id = Some w → id ∈ asked (client s) ∨ is_Some (replies (client s) !! id)) ∧
    ∀ l, slabel_ok l →
      match sstep s l with
      | None => True
      | Some Panic => False
      | Some (Ret (out, s')) =>
          match hub_call l (shub s) with
          | Some (h, answer) => content (client s') = Some v ∧ shub s' = h ∧ out = answer
          | None => ∃ v' ms, content (client s') = Some v' ∧ observed s s' v (request s l) out v' ms ∧
              shub s' = publish_all (shub s) ms ∧
              ∀ kind q records, tracked (shub s) kind q → upgrade (shub s) q = Some records →
                upgrade (shub s') q = Some (records ++ (mk_record kind <$> ms))
          end
      end.
Proof using limit_positive.
  intros Hf Hfit Hr. destruct (sreach_inv file s Hf Hfit Hr) as [v H]. exists v. split_and!; [apply H | |].
  - intros id w Hw. destruct (waiting_asks s v id w (inv_waiting _ _ _ H id w Hw)) as (q & P & [Hq|(r & Hr' & _)]).
    + left. apply elem_of_app. right. apply list_elem_of_omap. by exists (MQuery q id).
    + right. by rewrite Hr'.
  - intros l Hl. destruct (hub_call l (shub s)) as [[h answer]|] eqn:Eh.
    + pose proof (hub_step s v l h answer H Eh) as Hs. destruct (sstep s l) as [[[out s']|]|]; [| done | done].
      destruct Hs as (Hi & ? & ?). split; [apply Hi | done].
    + pose proof (sstep_shown s v l H Hl Eh) as Hs. destruct (sstep s l) as [[[out s']|]|]; [| done | done].
      destruct Hs as (v' & ms & Hi & Hh & Ho). exists v', ms. split_and!; [apply Hi | done | done |].
      intros kind q records Ht Hu. rewrite Hh. by apply publish_all_tracked.
Qed.
End refinement.

(** ** An example: a new profile *)
Module StorageExample.
Definition file : Database := mk_db 0 0 None false.
Definition rowid (X : gset N) : N := fresh X.
Lemma rowid_fresh X : rowid X ∉ X.
Proof. apply is_fresh. Qed.
Definition policy : WritebackPolicy := mk_policy 5 None.
Lemma policy_limit limit : early_commit_operations policy = Some limit → 0 < limit.
Proof. done. Qed.
Definition close (_ : Database) (_ : Answers) : option WritebackError := None.

Definition start : SqliteStore := new_lazy_sqlite_web_storage_store rowid file.
Definition subscribed : SqliteStore :=
  set_hub start (subscribe_mutations hub_new Local).1.
Definition call : SLabel := SEdit 1 (lit "https://a.test") (OpSet [107] [118]).
Definition waits (r : option (run (Outcome * SqliteStore))) : bool :=
  match r with Some (Ret (Blocked _, _)) => true | _ => false end.
End StorageExample.

(** The first set of a new profile, made while a subscription is live, waits
    for its area, and the theorem holds of the state it waits in. *)
Lemma cached_store_refines_areas_witness :
  tracked (shub StorageExample.subscribed) Local 0 ∧
  match sstep StorageExample.rowid StorageExample.policy StorageExample.close StorageExample.subscribed StorageExample.call with
  | Some (Ret (Blocked _, s)) => ∃ v, content (V := View) (WB := storage_batch StorageExample.rowid)
      (DB := storage_durable StorageExample.rowid StorageExample.rowid_fresh) storage_query initialize (client s) = Some v
  | _ => False
  end.
Proof.
  split; [split; [by eexists | reflexivity] |].
  assert (Hw : StorageExample.waits (sstep StorageExample.rowid StorageExample.policy StorageExample.close
    StorageExample.subscribed StorageExample.call) = true) by (vm_compute; reflexivity).
  destruct (sstep StorageExample.rowid StorageExample.policy StorageExample.close StorageExample.subscribed StorageExample.call)
    as [[[[| | |id| | |] s]|]|] eqn:E; try (simpl in Hw; discriminate Hw).
  destruct (cached_store_refines_areas StorageExample.rowid StorageExample.rowid_fresh StorageExample.policy
    StorageExample.policy_limit StorageExample.close StorageExample.file s) as (v & Hv & _).
  - right. repeat split; reflexivity.
  - intros k m Hm. exfalso. change ((∅ : View) !! k = Some m) in Hm. rewrite lookup_empty in Hm. discriminate Hm.
  - eapply (sreach_step _ _ _ _ StorageExample.subscribed StorageExample.call); [| | exact E].
    + eapply (sreach_step _ _ _ _ StorageExample.start (SSubscribe Local)); [constructor | exact I | reflexivity].
    + split; repeat constructor.
  - exists v. exact Hv.
Defined.
